(* ===== verification/_CoqProject ===== *)
-Q . S2P
Prelude.v
Dll.v
Arena.v
LruList.v
Policy.v
Lru.v
Fifo.v
Random.v
Sieve.v
Clock.v
S3Fifo.v
Float.v
Slru.v
Sketch.v
TinyLfu.v
Arc.v
Slab.v
Nodes.v
ReadRing.v
ShardPolicy.v
HTinyLfu.v
HS3Fifo.v
Builtin.v
Timer.v
ReadLog.v
Entry.v
HashTable.v
Store.v
ShardTable.v
ShardTimers.v
ShardInv.v
ShardInsert.v
ShardBuiltin.v
Shard.v
ShardRemove.v
ShardExpiry.v
ShardProps.v
Threads.v
Loader.v
Refresh.v
Janitor.v
Metrics.v
Ledger.v
Cache.v
CacheCost.v
Builder.v
ShardRead.v
CacheRead.v
WaitQueue.v
Mutex.v
Ring.v
MpmcCore.v
Mpmc.v
MpmcLive.v
OneshotCore.v
Oneshot.v
SpscCore.v
SpscRing.v
Spsc.v
SpscLive.v
Histogram.v
Tags.v
Samples.v
Book.v
BookDrain.v
Stats.v
StatsProps.v
Collectors.v
Metric.v
LogEvents.v
LogFilter.v
LogChannel.v
LogProcessor.v
LogRoute.v
LogEncoders.v
LogConfig.v
LogWriter.v
Roller.v
RollerArchive.v
RollerStream.v
