(* ===== verification/Prelude.v ===== *)
(** * Fibre: a verification of its cache, its channels, its statistics and its logging

    Fibre is a workspace of Rust crates.  This library models four of them, [cache] (a concurrent
    in-memory cache), [channels] (message channels and the locks they and the cache share),
    [stats] (a recorder of metrics) and [logging] (log appenders), and proves what makes them correct.  File names below are relative to [src/].

    ** The program and the files that model it

    The cache crate.  A cache is a set of shards behind locks; a shard keeps its entries in a hash table, bounds
    their cost with an eviction policy and expires them with a timer wheel.

    - Policies by key ([cache/src/policy/]): [Policy] is the trait [CachePolicy] and its contract
      ([PolicyLaws], [EvictsEnough], [ExactCosts]); [LruList] the list several of them are made of, over the arena
      of [Arena] and the list theory of [Dll]; [Lru], [Fifo], [Random], [Sieve], [Clock], [S3Fifo], [Slru],
      [TinyLfu] (with [Sketch], the frequency sketches, and [Float]) and [Arc] one policy each.
    - Policies by node ([cache/src/hpolicy.rs]): [Slab] stores nodes named by slot and generation, [Nodes] reads a slab as a
      map, [ReadRing] is the lossy ring of reads; [ShardPolicy] the trait and its contract, [HTinyLfu] and [HS3Fifo] its
      instances, [Builtin] the dispatch.
    - A shard ([cache/src/store.rs], [entry.rs], [task/timer.rs], [task/read_log.rs]): [Timer], [ReadLog], [Entry], [HashTable] (the
      table of a third-party crate, a class with laws), [Store] with every operation of [ShardMap];
      the files [Shard*] hold its invariant and what each operation does.
    - Loads and background work ([cache/src/loader.rs], [shared.rs], [task/janitor.rs]): [Loader], [Refresh] and [Janitor] interleave
      the atomic steps of any number of callers ([Threads]).
    - The handle ([cache/src/handles/sync.rs], [shared.rs], [entry_api.rs], [metrics.rs], [builder/]): [Metrics] and [Cache] with every
      operation of [Cache], the janitor's pass and the refreshes; [Ledger] and [CacheCost] follow the cost metric, [CacheRead] the reads, [Builder] the
      construction.

    The channels crate.

    - Locks ([channels/src/sync/]): [WaitQueue] is the intrusive list of waiters, [Mutex] the mutex over it.
    - The bounded MPMC channel ([channels/src/mpmc_v2/], [internal/unsynchronized_ring.rs]): [Ring] the ring of slots, [MpmcCore] each critical section
      of the channel's mutex, [Mpmc] the callers and their interleaving, [MpmcLive] that no wake-up is lost, and concrete runs,
      among them those in which the channel fails.
    - The clonable one-shot channel ([channels/src/oneshot/core.rs], [mod.rs]): [OneshotCore] the word, the steps of both sides (the receiver's
      [try_recv] and [close] beside a pending future included) and the invariant, [Oneshot] that every step keeps it, and runs that lose a wake-up.
    - The bounded SPSC channel ([channels/src/spsc/shared.rs], [bounded_sync.rs], [bounded_async.rs]): [SpscCore] the steps of both sides, [SpscRing] what the
      ring holds, [Spsc] the refinement of a queue, [SpscLive] that no wake-up is lost, and concrete runs, among them those in which it fails.
    - The bounded MPSC channel ([channels/src/mpsc/bounded_v3/]), which the logging crate uses: the module [Mpsc] of [LogChannel] is its protocol of tickets and
      slots, for blocking senders and a blocking receiver.

    The stats crate ([stats/src/]).

    - Data: [Histogram] ([histogram.rs]) with the list of durations as its reference; [Tags] ([tag.rs] and the keys of [stats.rs]); [Samples] ([value.rs], [recorder.rs])
      the samples, the aggregates and the buffer of exact samples; [Metric] ([metric.rs]) the definitions and what their handles record.
    - The recorder ([stats.rs], [sink.rs]): [Book] each critical section of the book's lock and the abstract recorder (a list of the recordings accepted and
      pending) and that every operation keeps to it, [BookDrain] what a batch is, [Stats] the interleavings of any number of threads, [StatsProps] what follows.
    - [Collectors]: the schedule of the collectors.

    The logging crate ([logging/src/]).

    - Events: [LogEvents] ([model.rs], [subscriber/visitor.rs], the builders of [log_handler.rs] and [dispatch.rs]) and strings; [LogEncoders] ([encoders/])
      print them.
    - Routing: [LogFilter] ([subscriber/actor.rs]) which appender takes an event, [LogChannel] what is relied on of the channels (a class, and that the model of the
      channel meets it when a send is not interrupted), [LogProcessor]
      ([subscriber/processor.rs]) the delivery of one event, [LogRoute] the filters of a configuration ([init.rs]), the rule the documentation states and that
      the processor implements it.
    - [LogConfig] ([config/raw.rs], [config/processed.rs]): the validation of a configuration.
    - The other end of the channels: [LogWriter] ([init.rs], [lib.rs]) the thread that writes, as a state machine whose receives take
      the steps of [Mpsc] while any number of sends take theirs; [LogEvents] ([debug_report.rs]) what is collected.
    - The rolling file ([roller.rs]): [Roller] the operations on a directory, [RollerArchive] names, periods and the order of files, and the archive that is the
      specification, [RollerStream] the refinement, runs of writes, and runs outside of the hypotheses.

    ** How the code is read

    A [u64] or [usize] is a [Z] in range, with the wrapping of the release profile written out ([+w], [-w]); durations are nanoseconds.
    A panic, an index out of bounds and undefined behaviour (a dangling pointer, a slot read before it was written) are [None]; that an operation
    returns [Some] is part of its theorem.  Errors the code returns are values of a sum or an error type.  Mutable
    state is passed explicitly, and a lock's critical section is one operation.  Where threads interleave, a step relation takes one atomic
    access, or one critical section, of one caller at a time, for any number of callers; memory is
    sequentially consistent.  A parked thread's token and a task's pending wake are membership in a set.
    Third-party crates are parameters with laws ([Arena], [HashTable], the hashers and random generators, the regular expressions and dates of the logging
    crate), and witnesses instantiate them.  The tickets of the MPSC channel are natural numbers: its 64-bit counter does not wrap in the life of a process.

    ** What the theorems show

    - Functional behaviour and refinement: [lru_list_refines], [sieve_evict_is_sieve], [clock_evict_is_second_chance], the other policies' evictions (listed in their files),
      [shard_insert_updates], [shard_remove_takes_key], [shard_expire_all_exact], [cache_reads_content], [unsync_ring_refines], [mpmc_fifo], [spsc_fifo],
      [stats_refines], [stats_record_outcome], [histogram_merge], [histogram_quantile], [series_key_spec], [series_tags_roundtrip], [parse_duration_spec],
      [event_routed_as_documented], [fast_paths_exact], [pattern_parse_roundtrip], [json_map_flat].
    - Bounds: the cost of a shard stays within its budget ([shard_capacity_policy], [shard_capacity_s3fifo]), timers
      fire on time ([timer_fires_on_time], [shard_expire_due_sweeps]), expiry arithmetic (of [Entry]); [histogram_buckets].
    - Invariants and safety: [cache_cost_metric], [slab_stale_id_ignored], [refresh_slots_bounded], [mutex_exclusion], [oneshot_delivers_once], [stats_counters_conserved],
      [stats_typed], [roller_keeps_stream].
    - Liveness: [load_wakes_waiters], [refresh_none_left], [mutex_no_lost_wakeup], [mpmc_no_lost_wakeup], [oneshot_no_lost_wakeup], [spsc_no_lost_wakeup],
      [collectors_not_starved], [writer_drains_at_shutdown].
    - Errors, and what does not hold: [build_spec], [arc_evict_stuck], [shard_over_budget], [janitor_start_race], [mpmc_faults], [spsc_faults], [config_processed],
      [appenderless_gate_ignored], [foreign_files_deleted], [empty_suffix_destroys], [failed_roll_loses_writes], [drain_stops_at_a_send], [shutdown_race], [close_forgets], [size_wraps].

    ** Fuel

    Loops that are not structural take fuel that is shown to suffice: a sweep of expired entries visits the list it was given; the
    drain of a read log stops after its capacity; an eviction loop is bounded by the entries (or queue entries) of its policy, and the theorems about
    [evict] show that it stops for another reason; a refresh pump makes at most ten steps an item; clearing a ring pops once an item and once more;
    the search for a writer in a wait list follows at most as many links as there are nodes; the ten digits of a [u32] are printed with fuel ten.

    ** Not modelled

    Weak memory orderings; spinning and yielding (a spin is a test that may be repeated); the asynchronous handle of the cache
    ([handles/futures.rs], [entry_api_async.rs]), whose critical sections are those of the synchronous one; iterators, snapshots (serde) and the listener's
    thread; the channel variants besides bounded MPMC, bounded SPSC, bounded MPSC and one-shot, MPMC's rendezvous and unbounded forms, and the reader-writer lock, which are
    left to later work; of the bounded MPSC channel the reuse of chunks, parking and wake-ups, batches and the asynchronous halves; a one-shot receiver used by two
    threads at once or with two futures; the collectors of [stats] (third-party crates) and its threads' loops; the set-up of [logging] (opening files, spawning and joining threads), what its
    debug report prints and failing writes into a log file that is open; the crates [ioc] and [tracing]; [Debug] and [Display] code and tests. *)

From stdpp Require Export base numbers option list gmap fin_maps sets.
From Stdlib Require Export Lia ZArith.

#[export] Set Default Goal Selector "!".

(** ** Machine integers

    [u64], [usize] (64-bit targets) and [u32] values are [Z]s in range.  The
    unchecked operators [+], [-], [*] of the release profile wrap; the
    [saturating_*] methods clamp. *)

Declare Scope u64_scope.
Delimit Scope u64_scope with u64.

Definition U64 : Z := 2 ^ 64.
Definition U32 : Z := 2 ^ 32.
Definition u64_max : Z := U64 - 1.
Definition u32_max : Z := U32 - 1.

Definition u64_add (a b : Z) : Z := (a + b) mod U64.
Definition u64_sub (a b : Z) : Z := (a - b) mod U64.
Definition u64_mul (a b : Z) : Z := (a * b) mod U64.
Definition u32_add (a b : Z) : Z := (a + b) mod U32.
Definition sat_sub (a b : Z) : Z := Z.max 0 (a - b).
Definition sat_add (a b : Z) : Z := Z.min u64_max (a + b).

Infix "+w" := u64_add (at level 50, left associativity) : u64_scope.
Infix "-w" := u64_sub (at level 50, left associativity) : u64_scope.
Infix "*w" := u64_mul (at level 40, left associativity) : u64_scope.
Infix "-sat" := sat_sub (at level 50, left associativity) : u64_scope.
Infix "+sat" := sat_add (at level 50, left associativity) : u64_scope.
#[global] Open Scope u64_scope.
#[global] Open Scope Z_scope.

(** [x] is a value of type [u64] / [u32]. *)
Definition is_u64 (x : Z) : Prop := 0 ≤ x < U64.
Definition is_u32 (x : Z) : Prop := 0 ≤ x < U32.

(** The range bounds are constants for [lia] once unfolded. *)
Ltac u64_unfold := unfold is_u64, is_u32, u64_max, u32_max, sat_sub, sat_add, U64, U32 in *.
Ltac u64_lia := u64_unfold; lia.

Lemma u64_add_small a b : 0 ≤ a → 0 ≤ b → a + b < U64 → a +w b = a + b.
Proof. intros. unfold u64_add. apply Z.mod_small. lia. Qed.

Lemma u64_sub_small a b : 0 ≤ b ≤ a → a < U64 → a -w b = a - b.
Proof. intros. unfold u64_sub. apply Z.mod_small. lia. Qed.

Lemma sat_sub_small a b : b ≤ a → a -sat b = a - b.
Proof. intros. unfold sat_sub. lia. Qed.

Lemma sat_sub_add a b c : 0 ≤ b → 0 ≤ c → (a -sat b) -sat c = a -sat (b + c).
Proof. intros. unfold sat_sub. lia. Qed.

Lemma u64_sub_add a b : is_u64 a → is_u64 b → (a +w b) -w b = a.
Proof.
  intros Ha Hb. unfold u64_sub, u64_add. rewrite Zminus_mod_idemp_l.
  replace (a + b - b) with a by lia. by apply Z.mod_small.
Qed.

Lemma u64_add_range a b : is_u64 (a +w b).
Proof. apply Z.mod_pos_bound. u64_lia. Qed.

Lemma u64_sub_range a b : is_u64 (a -w b).
Proof. apply Z.mod_pos_bound. u64_lia. Qed.

Create HintDb fibre discriminated.
#[export] Hint Resolve u64_add_range u64_sub_range : fibre.

(** ** Keyed costs

    The lists below pair a key with its recorded cost. *)

Section Costs.
Context {K : Type}.
Implicit Types (xs ys vs : list (K * Z)) (k : K) (c : Z).

Definition costs xs : Z := foldr (λ kc s, kc.2 + s) 0 xs.

(** Every recorded cost is a [u64]. *)
Definition costs_ok xs : Prop := Forall (λ kc, 0 ≤ kc.2) xs.

Lemma costs_nil : costs [] = 0.
Proof. done. Qed.

Lemma costs_cons k c xs : costs ((k, c) :: xs) = c + costs xs.
Proof. done. Qed.

Lemma costs_app xs ys : costs (xs ++ ys) = costs xs + costs ys.
Proof. induction xs as [|[k c] xs IH]; simpl; [done|]. rewrite IH. lia. Qed.

Lemma costs_snoc xs k c : costs (xs ++ [(k, c)]) = costs xs + c.
Proof. rewrite costs_app. unfold costs at 2. simpl. lia. Qed.

Lemma costs_ok_snoc xs k c : costs_ok (xs ++ [(k, c)]) ↔ costs_ok xs ∧ 0 ≤ c.
Proof. unfold costs_ok. rewrite Forall_app, Forall_cons. simpl. pose proof (Forall_nil_2 (λ kc : K * Z, 0 ≤ kc.2)). tauto. Qed.

Lemma costs_ok_cons xs k c : costs_ok ((k, c) :: xs) ↔ 0 ≤ c ∧ costs_ok xs.
Proof. unfold costs_ok. by rewrite Forall_cons. Qed.

Lemma costs_nonneg xs : costs_ok xs → 0 ≤ costs xs.
Proof. induction 1; simpl; lia. Qed.

#[global] Instance costs_Permutation : Proper ((≡ₚ) ==> (=)) costs.
Proof. induction 1 as [| [??] | [??] [??] |]; simpl; lia. Qed.

Lemma costs_reverse xs : costs (reverse xs) = costs xs.
Proof. by rewrite reverse_Permutation. Qed.

(** The victims an "evict from the front until [need] is freed" loop takes,
    and what it leaves. *)
Fixpoint take_until (need : Z) xs : list (K * Z) * list (K * Z) :=
  match xs with
  | [] => ([], [])
  | (k, c) :: xs' =>
      if need <=? 0 then ([], xs)
      else let '(vs, rest) := take_until (need - c) xs' in ((k, c) :: vs, rest)
  end.

Lemma take_until_app need xs : (take_until need xs).1 ++ (take_until need xs).2 = xs.
Proof.
  revert need. induction xs as [|[k c] xs IH]; intros need; simpl; [done|].
  destruct (need <=? 0); [done|].
  specialize (IH (need - c)). destruct (take_until (need - c) xs); simpl in *.
  by rewrite IH.
Qed.

(** It stops only when enough was freed or nothing is left. *)
Lemma take_until_enough need xs :
  need ≤ costs (take_until need xs).1 ∨ (take_until need xs).2 = [].
Proof.
  revert need. induction xs as [|[k c] xs IH]; intros need; simpl; [by right|].
  destruct (Z.leb_spec need 0); simpl; [left; lia|].
  specialize (IH (need - c)). destruct (take_until (need - c) xs); simpl in *.
  destruct IH; [left; lia | by right].
Qed.

(** It takes nothing it could have left: without the last victim, less than
    [need] was freed. *)
Lemma take_until_minimal need xs vs v :
  (take_until need xs).1 = vs ++ [v] → costs vs < need.
Proof.
  revert need vs. induction xs as [|[k c] xs IH]; intros need vs; simpl.
  { by destruct vs. }
  destruct (Z.leb_spec need 0); simpl; [by destruct vs|].
  specialize (IH (need - c)). destruct (take_until (need - c) xs) as [ws rest]; simpl in *.
  destruct vs as [|w vs]; intros ?; simplify_eq/=; [lia|].
  specialize (IH vs eq_refl). lia.
Qed.

Lemma take_until_done need xs : need ≤ 0 → take_until need xs = ([], xs).
Proof. destruct xs as [|[??]]; simpl; [done|]. by destruct (Z.leb_spec need 0); [|lia]. Qed.
(** The same on the back of a list. *)
Lemma take_until_back need xs :
  costs_ok xs →
  let '(V, R) := take_until need (reverse xs) in
  V ++ R = reverse xs ∧ 0 ≤ costs V ∧ 0 ≤ costs R ∧ costs V + costs R = costs xs ∧
  (need ≤ costs V ∨ R = []).
Proof.
  intros Hok. pose proof (take_until_app need (reverse xs)) as Ha.
  pose proof (take_until_enough need (reverse xs)) as He.
  destruct (take_until need (reverse xs)) as [V R]. simpl in *.
  assert (Hok' : costs_ok (V ++ R)) by (rewrite Ha; unfold costs_ok; by rewrite reverse_Permutation).
  apply Forall_app in Hok' as [? ?]. rewrite <- costs_app, Ha, costs_reverse.
  split_and!; [done|by apply costs_nonneg|by apply costs_nonneg|done|done].
Qed.

(** Popping one list and then another pops their concatenation. *)
Lemma take_until_concat n xs ys :
  let '(V, R) := take_until n xs in
  let '(W, T) := take_until (n - costs V) ys in
  take_until n (xs ++ ys) = match R with [] => (V ++ W, T) | _ => (V, R ++ ys) end.
Proof.
  revert n. induction xs as [|[k c] xs IH]; intros n; simpl.
  - rewrite Z.sub_0_r. by destruct (take_until n ys).
  - destruct (Z.leb_spec n 0); simpl; [by destruct (take_until (n - 0) ys)|].
    specialize (IH (n - c)). destruct (take_until (n - c) xs) as [V R]. rewrite costs_cons.
    replace (n - (c + costs V)) with (n - c - costs V) by lia.
    destruct (take_until (n - c - costs V) ys) as [W S']. rewrite IH. by destruct R.
Qed.
End Costs.

Section Keyed.
Context {K : Type} `{Countable K}.
Implicit Types (xs ys vs : list (K * Z)) (k : K) (c : Z) (m : gmap K Z).

(** [xs] without the entry of [k]. *)
Definition remove_key k xs : list (K * Z) := filter (λ kc, kc.1 ≠ k) xs.

Lemma remove_key_cons_eq k c xs : remove_key k ((k, c) :: xs) = remove_key k xs.
Proof. unfold remove_key. by rewrite filter_cons_False by naive_solver. Qed.

Lemma remove_key_cons_ne k k' c xs :
  k' ≠ k → remove_key k ((k', c) :: xs) = (k', c) :: remove_key k xs.
Proof. intros. unfold remove_key. by rewrite filter_cons_True. Qed.

Lemma remove_key_notin k xs : k ∉ xs.*1 → remove_key k xs = xs.
Proof.
  induction xs as [|[k' c] xs IH]; simpl; [done|].
  rewrite not_elem_of_cons. intros [? ?].
  rewrite remove_key_cons_ne by done. by rewrite IH.
Qed.

Lemma remove_key_app k xs ys : remove_key k (xs ++ ys) = remove_key k xs ++ remove_key k ys.
Proof. apply filter_app. Qed.

Lemma remove_key_middle k c xs ys :
  NoDup (xs ++ (k, c) :: ys).*1 → remove_key k (xs ++ (k, c) :: ys) = xs ++ ys.
Proof.
  rewrite fmap_app, fmap_cons, NoDup_app, NoDup_cons. simpl. intros (?&Hd&?&?).
  rewrite remove_key_app, remove_key_cons_eq.
  rewrite !remove_key_notin; [done| |]; [done|].
  intros Hk. apply (Hd _ Hk). by left.
Qed.

Lemma elem_of_remove_key k k' xs : k' ∈ (remove_key k xs).*1 ↔ k' ≠ k ∧ k' ∈ xs.*1.
Proof.
  unfold remove_key. rewrite !list_elem_of_fmap. split.
  - intros (kc&->&[??]%list_elem_of_filter). eauto.
  - intros [? (kc&->&?)]. exists kc. split; [done|]. by apply list_elem_of_filter.
Qed.

Lemma remove_key_NoDup k xs : NoDup xs.*1 → NoDup (remove_key k xs).*1.
Proof.
  intros Hnd. apply (sublist_NoDup _ xs.*1); [done|].
  apply fmap_sublist. apply sublist_filter.
Qed.

Lemma remove_key_costs_ok k xs : costs_ok xs → costs_ok (remove_key k xs).
Proof.
  unfold costs_ok, remove_key. rewrite !Forall_forall.
  intros Hx kc [??]%list_elem_of_filter. by apply Hx.
Qed.

Lemma costs_remove_key k c xs :
  NoDup xs.*1 → (k, c) ∈ xs → costs xs = c + costs (remove_key k xs).
Proof.
  intros Hnd (xs1&xs2&->)%list_elem_of_split.
  rewrite (remove_key_middle k c) by done. rewrite !costs_app, costs_cons. lia.
Qed.

Lemma costs_remove_key_le k xs : costs_ok xs → costs (remove_key k xs) ≤ costs xs.
Proof.
  induction 1 as [|[k' c] xs ?? IH]; simpl; [done|].
  destruct (decide (k' = k)) as [->|].
  - rewrite remove_key_cons_eq. simpl in *. lia.
  - rewrite remove_key_cons_ne by done. simpl. lia.
Qed.

Lemma elem_of_keys_split {V} k (xs : list (K * V)) :
  k ∈ xs.*1 → ∃ (v : V) (xs1 xs2 : list (K * V)), xs = xs1 ++ (k, v) :: xs2.
Proof.
  intros ([k' c]&->&(xs1&xs2&->)%list_elem_of_split)%list_elem_of_fmap. naive_solver.
Qed.

(** ** Total cost of a map of costs *)

Definition msum m : Z := map_fold (λ _ c s, c + s) 0 m.

Lemma msum_empty : msum ∅ = 0.
Proof. apply map_fold_empty. Qed.

Lemma msum_insert k c m : m !! k = None → msum (<[k:=c]> m) = c + msum m.
Proof. intros. unfold msum. rewrite map_fold_insert_L; [done|lia|done]. Qed.

Lemma msum_delete k c m : m !! k = Some c → msum m = c + msum (delete k m).
Proof. intros. unfold msum. by rewrite (map_fold_delete_L _ _ k c m) by (lia || done). Qed.

Lemma msum_list xs : NoDup xs.*1 → msum (list_to_map xs) = costs xs.
Proof.
  induction xs as [|[k c] xs IH]; simpl; [intros _; apply msum_empty|].
  rewrite NoDup_cons. intros [? ?].
  rewrite msum_insert by (by apply not_elem_of_list_to_map_1). by rewrite IH.
Qed.

Lemma msum_nonneg m : (∀ k c, m !! k = Some c → 0 ≤ c) → 0 ≤ msum m.
Proof.
  induction m as [|k c m Hk IH] using map_ind; intros Hm; [by rewrite msum_empty|].
  rewrite msum_insert by done.
  assert (0 ≤ c) by (apply (Hm k); by simplify_map_eq).
  assert (0 ≤ msum m); [|lia].
  apply IH. intros j d Hj. apply (Hm j). rewrite lookup_insert_ne by congruence. done.
Qed.

Lemma list_to_map_remove_key k xs :
  (list_to_map (remove_key k xs) : gmap K Z) = delete k (list_to_map xs).
Proof.
  induction xs as [|[k' c] xs IH]; simpl; [by rewrite delete_empty|].
  destruct (decide (k' = k)) as [->|].
  - rewrite remove_key_cons_eq, IH. by rewrite delete_insert_eq.
  - rewrite remove_key_cons_ne by done. simpl. rewrite IH. by rewrite delete_insert_ne.
Qed.

(** [m] without the keys [ks]. *)
Definition without {V} (ks : list K) (m : gmap K V) : gmap K V :=
  filter (λ kc, kc.1 ∉ ks) m.

Lemma lookup_without {V} ks (m : gmap K V) j :
  without ks m !! j = if decide (j ∈ ks) then None else m !! j.
Proof.
  unfold without. rewrite map_lookup_filter. destruct (m !! j) as [v|]; simpl.
  - case_decide; [by rewrite option_guard_False by (simpl; tauto)|].
    by rewrite option_guard_True.
  - by case_decide.
Qed.

Lemma without_nil {V} (m : gmap K V) : without [] m = m.
Proof. apply map_eq. intros j. by rewrite lookup_without. Qed.

Lemma without_cons {V} k ks (m : gmap K V) : without (k :: ks) m = without ks (delete k m).
Proof.
  apply map_eq. intros j. rewrite !lookup_without, lookup_delete.
  repeat case_decide; set_solver.
Qed.

Lemma without_app {V} ks1 ks2 (m : gmap K V) :
  without (ks1 ++ ks2) m = without ks2 (without ks1 m).
Proof.
  apply map_eq. intros j. rewrite !lookup_without.
  repeat case_decide; set_solver.
Qed.

(** The front part of a keyed list, removed from its map, leaves the rest. *)
Lemma list_to_map_without xs ys :
  NoDup (xs ++ ys).*1 →
  without xs.*1 (list_to_map (xs ++ ys) : gmap K Z) = list_to_map ys.
Proof.
  induction xs as [|[k c] xs IH]; simpl; [by rewrite without_nil|].
  rewrite NoDup_cons. intros [Hk ?]. rewrite without_cons.
  rewrite delete_insert_id by (by apply not_elem_of_list_to_map_1). auto.
Qed.
(** Looking up, deleting and replacing an entry in the middle of a keyed list. *)
Section Middle.
Context {V : Type}.
Implicit Types (es fs : list (K * V)).

Lemma list_to_map_middle es fs k v :
  NoDup (es ++ (k, v) :: fs).*1 →
  (list_to_map (es ++ (k, v) :: fs) : gmap K V) = <[k:=v]> (list_to_map (es ++ fs)) ∧
  (list_to_map (es ++ fs) : gmap K V) !! k = None ∧ NoDup (es ++ fs).*1.
Proof.
  intros Hnd. assert (Hp : es ++ (k, v) :: fs ≡ₚ (k, v) :: es ++ fs) by (by rewrite Permutation_middle).
  assert (Hnd' : NoDup ((k, v) :: es ++ fs).*1) by (by rewrite <- Hp).
  rewrite (list_to_map_proper _ ((k, v) :: es ++ fs) Hnd Hp).
  rewrite fmap_cons, NoDup_cons in Hnd'. destruct Hnd'. split_and!; [done| |done].
  by apply not_elem_of_list_to_map_1.
Qed.

Lemma lookup_middle es fs k v :
  NoDup (es ++ (k, v) :: fs).*1 → (list_to_map (es ++ (k, v) :: fs) : gmap K V) !! k = Some v.
Proof. intros Hnd. destruct (list_to_map_middle _ _ _ _ Hnd) as [-> _]. by simplify_map_eq. Qed.

Lemma delete_middle_map es fs k v :
  NoDup (es ++ (k, v) :: fs).*1 →
  delete k (list_to_map (es ++ (k, v) :: fs)) = (list_to_map (es ++ fs) : gmap K V).
Proof.
  intros Hnd. destruct (list_to_map_middle _ _ _ _ Hnd) as (->&?&_). by rewrite delete_insert_id.
Qed.

Lemma NoDup_middle es fs k v : NoDup (es ++ (k, v) :: fs).*1 → NoDup (es ++ fs).*1.
Proof. intros Hnd. by destruct (list_to_map_middle _ _ _ _ Hnd) as (_&_&?). Qed.

Lemma NoDup_replace es fs k v w :
  NoDup (es ++ (k, v) :: fs).*1 → NoDup (es ++ (k, w) :: fs).*1.
Proof. by rewrite !fmap_app, !fmap_cons. Qed.

Lemma insert_middle_map es fs k v w :
  NoDup (es ++ (k, v) :: fs).*1 →
  <[k:=w]> (list_to_map (es ++ (k, v) :: fs)) = (list_to_map (es ++ (k, w) :: fs) : gmap K V).
Proof.
  intros Hnd. destruct (list_to_map_middle _ _ _ _ Hnd) as (->&?&_).
  destruct (list_to_map_middle _ _ _ _ (NoDup_replace _ _ _ _ w Hnd)) as (->&_&_).
  by rewrite insert_insert_eq.
Qed.

End Middle.

(** [retain(|k| k != key)] on a list of keys. *)
Lemma filter_notin k (ks : list K) : k ∉ ks → filter (λ j, j ≠ k) ks = ks.
Proof.
  induction ks as [|j ks IH]; [done|]. rewrite not_elem_of_cons. intros [? ?].
  rewrite filter_cons_True by congruence. by rewrite IH.
Qed.

Lemma length_filter_key k (ks : list K) :
  NoDup ks → (length ks ≤ S (length (filter (λ j, j ≠ k) ks)))%nat.
Proof.
  induction 1 as [|j ks Hj Hnd IH]; simpl; [lia|].
  destruct (decide (j = k)) as [->|].
  - rewrite filter_cons_False by tauto. rewrite filter_notin by done. lia.
  - rewrite filter_cons_True by done. simpl. lia.
Qed.

(** [position] followed by [remove] on a vector of distinct keys. *)
Lemma list_find_delete k (ks : list K) :
  NoDup ks →
  match list_find (λ j, j = k) ks with
  | Some (pos, _) => delete pos ks = filter (λ j, j ≠ k) ks ∧ k ∈ ks
  | None => k ∉ ks
  end.
Proof.
  intros Hnd. destruct (list_find (λ j, j = k) ks) as [[pos k']|] eqn:Ef.
  - apply list_find_Some in Ef as (Hl&->&_). apply list_elem_of_split_length in Hl as (l1&l2&->&->).
    split; [|set_solver]. rewrite delete_middle.
    apply NoDup_app in Hnd as (_&Hd&[? _]%NoDup_cons).
    rewrite filter_app, filter_cons_False, !filter_notin; [done|done| |tauto].
    intros ?. apply (Hd k); [done|by left].
  - apply list_find_None in Ef. rewrite Forall_forall in Ef. intros Hk. by apply (Ef k).
Qed.

(** A duplicate-free list of the keys of a map, with the values attached. *)
Lemma keyed_list {V} (ks : list K) (m : gmap K V) :
  NoDup ks → (∀ k, k ∈ ks ↔ is_Some (m !! k)) →
  ∃ es : list (K * V), es.*1 = ks ∧ list_to_map es = m.
Proof.
  revert m. induction ks as [|k ks IH]; intros m Hnd Hk.
  - exists []. split; [done|]. symmetry. apply map_empty. intros i. apply eq_None_not_Some.
    rewrite <- Hk. apply not_elem_of_nil.
  - apply NoDup_cons in Hnd as [Hn Hnd]. destruct (Hk k) as [[v Hv] _]; [by left|].
    destruct (IH (delete k m) Hnd) as (es&<-&Hes).
    { intros j. rewrite lookup_delete_is_Some, <- Hk, elem_of_cons. set_solver. }
    exists ((k, v) :: es). split; [done|]. simpl. by rewrite Hes, insert_delete_id.
Qed.

Lemma keyed_list_lookup {V} (es : list (K * V)) k :
  k ∈ es.*1 ↔ is_Some ((list_to_map es : gmap K V) !! k).
Proof.
  split.
  - intros Hk. destruct (list_to_map es !! k) eqn:E; [by eexists|].
    by apply not_elem_of_list_to_map_2 in E.
  - intros [v Hv]. destruct (decide (k ∈ es.*1)) as [|Hn]; [done|].
    by apply not_elem_of_list_to_map_1 in Hn; rewrite Hn in Hv.
Qed.

Lemma map_size_delete_S {V} (m : gmap K V) k v :
  m !! k = Some v → size m = S (size (delete k m)).
Proof.
  intros Hk. rewrite <- (insert_delete_id m k v Hk) at 1.
  by rewrite map_size_insert_None by apply lookup_delete_eq.
Qed.

(** Total weight of the values of a map. *)
Section Weights.
Context {V : Type}.
Implicit Types (w : V → Z).

Definition wsum w (m : gmap K V) : Z := map_fold (λ _ v s, w v + s) 0 m.

Lemma msum_fmap w (m : gmap K V) : msum (w <$> m) = wsum w m.
Proof. unfold msum, wsum. by rewrite map_fold_fmap. Qed.

Lemma wsum_empty w : wsum w ∅ = 0.
Proof. apply map_fold_empty. Qed.

Lemma wsum_delete w (m : gmap K V) k v : m !! k = Some v → wsum w m = w v + wsum w (delete k m).
Proof. intros. unfold wsum. by rewrite (map_fold_delete_L _ _ k v m) by (lia || done). Qed.

Lemma wsum_insert w (m : gmap K V) k v : wsum w (<[k:=v]> m) = w v + wsum w (delete k m).
Proof.
  rewrite <- insert_delete_eq. unfold wsum.
  rewrite map_fold_insert_L; [done|lia|apply lookup_delete_eq].
Qed.

Lemma wsum_mono w1 w2 (m : gmap K V) :
  (∀ k v, m !! k = Some v → w1 v ≤ w2 v) → wsum w1 m ≤ wsum w2 m.
Proof.
  induction m as [|k v m Hk IH] using map_ind; intros Hm; [by rewrite !wsum_empty|].
  rewrite !wsum_insert, !delete_id by done.
  assert (w1 v ≤ w2 v) by (apply (Hm k); by simplify_map_eq).
  assert (wsum w1 m ≤ wsum w2 m); [|lia].
  apply IH. intros j u Hj. apply (Hm j). rewrite lookup_insert_ne by congruence. done.
Qed.

Lemma wsum_zero  (m : gmap K V) : wsum (λ _, 0) m = 0.
Proof.
  induction m as [|k v m Hk IH] using map_ind; [apply wsum_empty|].
  rewrite wsum_insert, delete_id by done. lia.
Qed.

Lemma wsum_nonneg w (m : gmap K V) : (∀ k v, m !! k = Some v → 0 ≤ w v) → 0 ≤ wsum w m.
Proof. intros Hw. rewrite <- (wsum_zero m). by apply wsum_mono. Qed.
End Weights.

(** ** Evictions

    [evicted m vs f m']: the distinct keys [vs] of [m] were taken out, leaving
    [m'], and [f] is what they cost. *)

Definition evicted m (vs : list K) (f : Z) m' : Prop :=
  NoDup vs ∧ (∀ v, v ∈ vs → is_Some (m !! v)) ∧ m' = without vs m ∧ f = msum m - msum m'.

(** Recorded costs are [u64]s and so is their sum. *)
Definition costs_fit m : Prop := map_Forall (λ _ c, 0 ≤ c) m ∧ msum m < U64.

Lemma costs_fit_empty : costs_fit ∅.
Proof. split; [apply map_Forall_empty|rewrite msum_empty; u64_lia]. Qed.

Lemma costs_fit_nonneg m : costs_fit m → 0 ≤ msum m.
Proof. intros [Hm _]. apply msum_nonneg. exact Hm. Qed.

Lemma costs_fit_lookup m k c : costs_fit m → m !! k = Some c → 0 ≤ c ≤ msum m.
Proof.
  intros [Hm Hs] Hk. pose proof (Hm k c Hk) as Hc. simpl in Hc. rewrite (msum_delete k c m Hk).
  assert (0 ≤ msum (delete k m)); [|lia].
  apply msum_nonneg. intros j d [_ Hj]%lookup_delete_Some. by apply (Hm j).
Qed.

Lemma costs_fit_delete m k : costs_fit m → costs_fit (delete k m).
Proof.
  intros Hf. destruct (m !! k) as [c|] eqn:Hk; [|by rewrite delete_id].
  pose proof (costs_fit_lookup m k c Hf Hk). destruct Hf as [Hm Hs].
  rewrite (msum_delete k c m Hk) in *. split; [by apply map_Forall_delete|lia].
Qed.

Lemma msum_insert_delete k c m : msum (<[k:=c]> m) = c + msum (delete k m).
Proof. by rewrite <- insert_delete_eq, msum_insert by apply lookup_delete_eq. Qed.

(** The total stays a [u64] when [k]'s recorded cost becomes [c]. *)
Definition cost_fits m (k : K) (c : Z) : Prop := 0 ≤ c ∧ msum (delete k m) + c < U64.

Lemma costs_fit_insert m k c : costs_fit m → cost_fits m k c → costs_fit (<[k:=c]> m).
Proof.
  intros [Hm _] [Hc Hs]. split; [by apply map_Forall_insert_2|].
  rewrite msum_insert_delete. lia.
Qed.

Lemma evicted_nil m : evicted m [] 0 m.
Proof.
  split_and!; [constructor|by intros ? ?%elem_of_nil|by rewrite without_nil|lia].
Qed.

Lemma evicted_snoc m (vs : list K) f m' k c :
  evicted m vs f m' → m' !! k = Some c → evicted m (vs ++ [k]) (f + c) (delete k m').
Proof.
  intros (Hnd&Hin&->&->) Hk. pose proof Hk as Hk'. rewrite lookup_without in Hk'. case_decide; [done|].
  split_and!.
  - apply NoDup_app. split_and!; [done|set_solver|apply NoDup_singleton].
  - intros v [?|Hv]%elem_of_app; [auto|]. apply list_elem_of_singleton in Hv as ->. by eexists.
  - by rewrite without_app, (without_cons k []), without_nil.
  - rewrite (msum_delete k c (without vs m) Hk). lia.
Qed.

Lemma evicted_fit m (vs : list K) f m' : costs_fit m → evicted m vs f m' → costs_fit m' ∧ 0 ≤ f ≤ msum m.
Proof.
  intros Hf (_&_&->&->). assert (costs_fit (without vs m) ∧ msum (without vs m) ≤ msum m) as [Hw ?].
  { revert m Hf. induction vs as [|v vs IH]; intros m Hf; [by rewrite without_nil|].
    rewrite without_cons. pose proof (costs_fit_delete m v Hf) as Hd. destruct (IH _ Hd) as [? ?].
    split; [done|]. destruct (m !! v) as [c|] eqn:Hv; [|by rewrite delete_id in *].
    rewrite (msum_delete v c m Hv). pose proof (costs_fit_lookup _ _ _ Hf Hv). lia. }
  apply costs_fit_nonneg in Hw as ?. split; [done|lia].
Qed.

(** One more victim: the [u64] sum of the freed costs does not wrap. *)
Lemma evicted_step m (vs : list K) f m' k c :
  costs_fit m → evicted m vs f m' → m' !! k = Some c →
  f +w c = f + c ∧ 0 ≤ c ∧ evicted m (vs ++ [k]) (f +w c) (delete k m').
Proof.
  intros Hf He Hk. pose proof (evicted_snoc _ _ _ _ _ _ He Hk) as He'.
  destruct (evicted_fit _ _ _ _ Hf He) as [Hf' ?]. destruct (evicted_fit _ _ _ _ Hf He') as [_ ?].
  pose proof (costs_fit_lookup _ _ _ Hf' Hk). destruct Hf as [_ ?].
  rewrite u64_add_small by lia. split_and!; [done|lia|done].
Qed.

(** Removing the sublist [vs] of a keyed list: what it means for the map. *)
Lemma remove_part xs vs rest :
  NoDup xs.*1 → xs ≡ₚ vs ++ rest →
  evicted (list_to_map xs) vs.*1 (costs vs) (list_to_map rest).
Proof.
  intros Hnd Hp. assert (Hnd' : NoDup (vs ++ rest).*1) by (by rewrite <- Hp).
  assert (E : (list_to_map xs : gmap K Z) = list_to_map (vs ++ rest))
    by (by apply list_to_map_proper).
  unfold evicted. rewrite E, list_to_map_without, msum_list, costs_app by done.
  rewrite fmap_app, NoDup_app in Hnd'. destruct Hnd' as (Hv&_&Hr).
  rewrite msum_list by done. split; [done|]. split; [|split; [done|lia]].
  intros v Hin. destruct (list_to_map (vs ++ rest) !! v) eqn:Ev; [by eexists|].
  apply not_elem_of_list_to_map_2 in Ev. rewrite fmap_app in Ev. set_solver.
Qed.

Lemma remove_key_map k c xs :
  (list_to_map ((k, c) :: remove_key k xs) : gmap K Z) = <[k:=c]> (list_to_map xs).
Proof. simpl. by rewrite list_to_map_remove_key, insert_delete_eq. Qed.

Lemma msum_remove_key k xs :
  NoDup xs.*1 → msum (delete k (list_to_map xs)) = costs (remove_key k xs).
Proof.
  intros. rewrite <- list_to_map_remove_key. apply msum_list. by apply remove_key_NoDup.
Qed.

Lemma list_to_map_empty_inv xs : (list_to_map xs : gmap K Z) = ∅ → xs = [].
Proof. destruct xs as [|[k c]]; [done|]. simpl. intros Hi. by apply insert_non_empty in Hi. Qed.
End Keyed.

(** ** Vectors

    [v[i]] with a machine integer [i]: out of bounds is a panic, [None]. *)

Section Vec.
Context {T : Type}.
Implicit Types (v : list T) (x y : T) (i j : Z).

Definition vget v i : option T := if 0 <=? i then v !! Z.to_nat i else None.

Definition vset v i x : option (list T) :=
  match vget v i with Some _ => Some (<[Z.to_nat i:=x]> v) | None => None end.

Lemma vget_Some v i x : vget v i = Some x → 0 ≤ i < Z.of_nat (length v).
Proof.
  unfold vget. destruct (Z.leb_spec 0 i); [|done]. intros Hl. apply lookup_lt_Some in Hl. lia.
Qed.

Lemma vget_lt v i : 0 ≤ i < Z.of_nat (length v) → is_Some (vget v i).
Proof.
  intros. unfold vget. destruct (Z.leb_spec 0 i); [|lia]. apply lookup_lt_is_Some_2. lia.
Qed.

Lemma vset_spec v i x y :
  vget v i = Some y →
  ∃ v', vset v i x = Some v' ∧ length v' = length v ∧
    ∀ j, vget v' j = if decide (j = i) then Some x else vget v j.
Proof.
  intros Hy. unfold vset. rewrite Hy. eexists. split; [done|]. split; [apply length_insert|].
  apply vget_Some in Hy. intros j. unfold vget. destruct (Z.leb_spec 0 j).
  - destruct (decide (j = i)) as [->|].
    + apply list_lookup_insert_eq. lia.
    + apply list_lookup_insert_ne. lia.
  - by rewrite decide_False by lia.
Qed.

Lemma vget_nil i : vget (@nil T) i = None.
Proof. unfold vget. by destruct (0 <=? i). Qed.

Lemma vget_snoc v x j :
  vget (v ++ [x]) j = if decide (j = Z.of_nat (length v)) then Some x else vget v j.
Proof.
  unfold vget. destruct (Z.leb_spec 0 j); [|by rewrite decide_False by lia].
  destruct (decide (j = Z.of_nat (length v))) as [->|].
  - rewrite Nat2Z.id. by apply list_lookup_middle.
  - destruct (decide (Z.to_nat j < length v)%nat); [by apply lookup_app_l|].
    rewrite !lookup_ge_None_2; [done|lia|rewrite length_app; simpl; lia].
Qed.
End Vec.
