(* ===== verification/Dll.v ===== *)
(** * Doubly linked lists

    Three structures of the cache crate thread doubly linked lists through a
    slab of nodes: [policy::lru_list::LruList], [hpolicy::Slab] and
    [task::timer::TimerWheel].  This file has the list theory they share, over
    an abstract view of the links: [lk i = Some (prev, next)] when node [i] is
    live. *)

From S2P Require Import Prelude.

Section Dll.
Context {I : Type} `{EqDecision I}.
Implicit Types (lk : I → option (option I * option I)) (ids : list I) (i j : I).

Definition first_or (d : option I) ids : option I :=
  match ids with [] => d | i :: _ => Some i end.

Definition last_or (d : option I) ids : option I :=
  match last ids with Some i => Some i | None => d end.

(** A list segment: [pp] precedes the first node, [qn] follows the last. *)
Fixpoint dseg lk (pp : option I) ids (qn : option I) : Prop :=
  match ids with
  | [] => True
  | i :: rest => lk i = Some (pp, first_or qn rest) ∧ dseg lk (Some i) rest qn
  end.

Definition relink_next (p v : option I) lk : I → option (option I * option I) :=
  λ j, if decide (Some j = p) then (λ pn, (pn.1, v)) <$> lk j else lk j.
Definition relink_prev (p v : option I) lk : I → option (option I * option I) :=
  λ j, if decide (Some j = p) then (λ pn, (v, pn.2)) <$> lk j else lk j.

Lemma last_or_cons d i ids : last_or d (i :: ids) = last_or (Some i) ids.
Proof. unfold last_or. destruct ids as [|j ids]; [done|]. rewrite last_cons_cons.
  destruct (last (j :: ids)) eqn:E; [done|]. by apply last_None in E. Qed.

Lemma first_or_app d l1 l2 : first_or d (l1 ++ l2) = first_or (first_or d l2) l1.
Proof. by destruct l1. Qed.

Lemma first_or_None ids : first_or None ids = head ids.
Proof. by destruct ids. Qed.

Lemma last_or_None ids : last_or None ids = last ids.
Proof. unfold last_or. by destruct (last ids). Qed.

Lemma dseg_app lk pp l1 l2 qn :
  dseg lk pp (l1 ++ l2) qn ↔
  dseg lk pp l1 (first_or qn l2) ∧ dseg lk (last_or pp l1) l2 qn.
Proof.
  revert pp. induction l1 as [|i l1 IH]; intros pp; simpl; [naive_solver|].
  rewrite IH, first_or_app, last_or_cons. tauto.
Qed.

Lemma dseg_ext lk lk' pp ids qn :
  (∀ i, i ∈ ids → lk' i = lk i) → dseg lk pp ids qn → dseg lk' pp ids qn.
Proof.
  revert pp. induction ids as [|i ids IH]; intros pp Hext; simpl; [done|].
  intros [Hi Hs]. split; [rewrite <- Hi; apply Hext; by left|].
  apply IH; [|done]. intros j Hj. apply Hext. by right.
Qed.

Lemma dseg_live lk pp ids qn i : dseg lk pp ids qn → i ∈ ids → is_Some (lk i).
Proof.
  revert pp. induction ids as [|j ids IH]; intros pp; simpl.
  - by intros _ ?%elem_of_nil.
  - intros [Hj Hs] [->|Hi]%elem_of_cons; eauto.
Qed.

Lemma relink_next_ne p v lk j : Some j ≠ p → relink_next p v lk j = lk j.
Proof. intros. unfold relink_next. by case_decide. Qed.

Lemma relink_prev_ne p v lk j : Some j ≠ p → relink_prev p v lk j = lk j.
Proof. intros. unfold relink_prev. by case_decide. Qed.

Lemma dseg_relink_next lk pp ids qn v :
  NoDup ids → dseg lk pp ids qn → dseg (relink_next (last ids) v lk) pp ids v.
Proof.
  revert pp. induction ids as [|i ids IH]; intros pp; simpl; [done|].
  rewrite NoDup_cons. intros [Hi Hnd] [Hlk Hs].
  destruct ids as [|j ids].
  - simpl. unfold relink_next. rewrite decide_True by done. by rewrite Hlk.
  - rewrite last_cons_cons. split; [|by apply IH].
    rewrite relink_next_ne; [done|].
    intros Heq%eq_sym%last_Some_elem_of. done.
Qed.

Lemma dseg_relink_prev lk pp ids qn v :
  NoDup ids → dseg lk pp ids qn → dseg (relink_prev (head ids) v lk) v ids qn.
Proof.
  destruct ids as [|i ids]; simpl; [done|].
  rewrite NoDup_cons. intros [Hi Hnd] [Hlk Hs]. split.
  - unfold relink_prev. rewrite decide_True by done. by rewrite Hlk.
  - eapply dseg_ext; [|done]. intros j Hj. apply relink_prev_ne. set_solver.
Qed.

(** A whole list: its nodes are distinct, linked both ways, and [hd] and
    [tl] are its ends. *)
Definition dll lk (hd tl : option I) ids : Prop :=
  NoDup ids ∧ hd = head ids ∧ tl = last ids ∧ dseg lk None ids None.

Lemma dll_nil lk : dll lk None None [].
Proof. repeat split. constructor. Qed.

Lemma dll_ext lk lk' hd tl ids :
  (∀ i, i ∈ ids → lk' i = lk i) → dll lk hd tl ids → dll lk' hd tl ids.
Proof. intros Hext (?&?&?&?). repeat split; [done..|]. by eapply dseg_ext. Qed.

(** The links of a node in the middle. *)
Lemma dll_node lk hd tl l1 i l2 :
  dll lk hd tl (l1 ++ i :: l2) → lk i = Some (last l1, head l2).
Proof.
  intros (_&_&_&Hs). apply dseg_app in Hs as [_ [Hi _]].
  by rewrite last_or_None, first_or_None in Hi.
Qed.

(** The ends after node [i] between [l1] and [l2] is unlinked. *)
Definition unlink_head (hd prev next : option I) : option I :=
  match prev with Some _ => hd | None => next end.
Definition unlink_tail (tl prev next : option I) : option I :=
  match next with Some _ => tl | None => prev end.

Lemma dll_unlink lk lk' hd tl l1 i l2 :
  dll lk hd tl (l1 ++ i :: l2) →
  (∀ j, j ∈ l1 ++ l2 →
     lk' j = relink_prev (head l2) (last l1) (relink_next (last l1) (head l2) lk) j) →
  dll lk' (unlink_head hd (last l1) (head l2)) (unlink_tail tl (last l1) (head l2)) (l1 ++ l2).
Proof.
  intros (Hnd&->&->&Hs) Hext.
  apply NoDup_app in Hnd as (Hnd1&Hdisj&[Hi Hnd2]%NoDup_cons).
  apply dseg_app in Hs as [Hs1 [Hlk Hs2]].
  assert (Hmem1 : ∀ j, Some j = last l1 → j ∈ l1)
    by (intros j Hj; by apply last_Some_elem_of).
  assert (Hmem2 : ∀ j, Some j = head l2 → j ∈ l2)
    by (intros j Hj; destruct l2; simplify_eq/=; by left).
  split; [|split; [|split]].
  - apply NoDup_app. split; [done|]. split; [|done]. set_solver.
  - destruct l1 as [|a l1]; [done|]. simpl. destruct (last (a :: l1)) eqn:E; [done|].
    by apply last_None in E.
  - destruct l2 as [|b l2]; [simpl; by rewrite app_nil_r|]. simpl.
    rewrite !last_app. rewrite last_cons_cons. destruct (last (b :: l2)) eqn:E; [done|].
    by apply last_None in E.
  - apply dseg_app. split.
    + rewrite first_or_None.
      eapply dseg_ext; [|eapply dseg_relink_next; done].
      intros j Hj. rewrite Hext by set_solver. apply relink_prev_ne.
      intros ?%Hmem2. set_solver.
    + rewrite last_or_None.
      eapply dseg_ext; [|eapply dseg_relink_prev; done].
      intros j Hj. rewrite Hext by set_solver. unfold relink_prev.
      rewrite relink_next_ne; [done|]. intros ?%Hmem1. set_solver.
Qed.

Lemma dll_push_front lk lk' hd tl ids i :
  dll lk hd tl ids → i ∉ ids →
  lk' i = Some (None, hd) →
  (∀ j, j ∈ ids → lk' j = relink_prev hd (Some i) lk j) →
  dll lk' (Some i) (match tl with Some t => Some t | None => Some i end) (i :: ids).
Proof.
  intros (Hnd&->&->&Hs) Hi Hlk Hext. split; [|split; [|split]].
  - by constructor.
  - done.
  - destruct ids as [|j ids]; [done|]. rewrite last_cons_cons.
    destruct (last (j :: ids)) eqn:E; [done|]. by apply last_None in E.
  - simpl. rewrite first_or_None. split; [done|].
    eapply dseg_ext; [exact Hext|]. by eapply dseg_relink_prev.
Qed.

Lemma dll_hd_cons lk hd tl ids i : dll lk hd tl ids → hd = Some i → ∃ ids', ids = i :: ids'.
Proof. intros (_&->&_&_). destruct ids; [done|]. simpl. naive_solver. Qed.

Lemma dll_tl_snoc lk hd tl ids i : dll lk hd tl ids → tl = Some i → ∃ ids', ids = ids' ++ [i].
Proof. intros (_&_&->&_) Hl. by apply last_Some in Hl. Qed.

Lemma dll_tl_None lk hd tl ids : dll lk hd tl ids → tl = None → ids = [].
Proof. intros (_&_&->&_) Hl. by apply last_None in Hl. Qed.
End Dll.
