(* ===== verification/Arena.v ===== *)
(** * The generational arena interface

    [LruList] and [TimerWheel] store their nodes in
    [generational_arena::Arena], a crate outside the repository.  It is a
    parameter here: the operations the sources call are the class [Arena], and
    what they rely on of its documentation is [ArenaLaws] (an index resolves
    only to the element it was issued for, and is never issued again, not even
    after [remove] or [clear]).  [counter_arena] is a concrete arena with these
    laws, used where a theorem is run on concrete data. *)

From S2P Require Import Prelude.

Class Arena (Index : Type) (A : Type → Type) := {
  arena_new : ∀ {T}, A T;
  arena_insert : ∀ {T}, T → A T → Index * A T;
  arena_get : ∀ {T}, Index → A T → option T;
  arena_set : ∀ {T}, Index → T → A T → A T;
  arena_remove : ∀ {T}, Index → A T → option T * A T;
  arena_clear : ∀ {T}, A T → A T;
  arena_len : ∀ {T}, A T → nat;
}.

Class ArenaLaws (Index : Type) (A : Type → Type) `{EqDecision Index} `{Arena Index A} := {
  (** The indices ever handed out. *)
  arena_issued : ∀ {T}, A T → Index → Prop;
  arena_get_new T i : arena_get i (arena_new (T:=T)) = None;
  arena_insert_fresh T (x : T) a : ¬ arena_issued a (arena_insert x a).1;
  arena_insert_issued T (x : T) a j :
    arena_issued (arena_insert x a).2 j ↔ j = (arena_insert x a).1 ∨ arena_issued a j;
  arena_insert_get T (x : T) a j :
    arena_get j (arena_insert x a).2
    = if decide (j = (arena_insert x a).1) then Some x else arena_get j a;
  arena_get_issued T (x : T) a i : arena_get i a = Some x → arena_issued a i;
  arena_set_get T (x y : T) a i j :
    arena_get i a = Some y →
    arena_get j (arena_set i x a) = if decide (j = i) then Some x else arena_get j a;
  arena_set_issued T (x : T) a i j : arena_issued (arena_set i x a) j ↔ arena_issued a j;
  arena_remove_fst T (a : A T) i : (arena_remove i a).1 = arena_get i a;
  arena_remove_get T (a : A T) i j :
    arena_get j (arena_remove i a).2 = if decide (j = i) then None else arena_get j a;
  arena_remove_issued T (a : A T) i j : arena_issued (arena_remove i a).2 j ↔ arena_issued a j;
  arena_clear_get T (a : A T) i : arena_get i (arena_clear a) = None;
  arena_clear_issued T (a : A T) i : arena_issued (arena_clear a) i ↔ arena_issued a i;
  (** [len] counts the elements. *)
  arena_len_live T (a : A T) is_ :
    NoDup is_ → (∀ i, i ∈ is_ → is_Some (arena_get i a)) → (length is_ ≤ arena_len a)%nat;
}.

(** [arena[i].field = v]: indexing a missing element panics ([None]). *)
Definition arena_update {Index A} `{Arena Index A} {T} (i : Index) (f : T → T) (a : A T)
    : option (A T) :=
  x ← arena_get i a; Some (arena_set i (f x) a).

Section Laws.
Context {Index : Type} {A : Type → Type} `{ArenaLaws Index A} {T : Type}.
Implicit Types (a : A T) (i j : Index).

(** A new index resolves to nothing before the insert. *)
Lemma arena_insert_not_live (x : T) a : arena_get (arena_insert x a).1 a = None.
Proof.
  destruct (arena_get (arena_insert x a).1 a) as [y|] eqn:E; [|done].
  by apply arena_get_issued, arena_insert_fresh in E.
Qed.

Lemma arena_update_spec i f a (x : T) :
  arena_get i a = Some x →
  ∃ a', arena_update i f a = Some a' ∧
    (∀ j, arena_get j a' = if decide (j = i) then Some (f x) else arena_get j a) ∧
    (∀ j, arena_issued a' j ↔ arena_issued a j).
Proof.
  intros Hi. unfold arena_update. rewrite Hi. simpl. eexists. split; [done|]. split.
  - intros j. by eapply arena_set_get.
  - intros j. apply arena_set_issued.
Qed.
End Laws.

(** An arena that numbers its elements. *)
Record counter_arena (T : Type) := { ca_next : nat; ca_map : gmap nat T }.
Arguments ca_next {T}.
Arguments ca_map {T}.
Arguments Build_counter_arena {T}.

#[export] Instance counter_arena_ops : Arena nat counter_arena := {
  arena_new T := Build_counter_arena 0%nat ∅;
  arena_insert T x a :=
    (ca_next a, Build_counter_arena (S (ca_next a)) (<[ca_next a := x]> (ca_map a)));
  arena_get T i a := if decide (i < ca_next a)%nat then ca_map a !! i else None;
  arena_set T i x a := Build_counter_arena (ca_next a) (<[i := x]> (ca_map a));
  arena_remove T i a :=
    (if decide (i < ca_next a)%nat then ca_map a !! i else None,
     Build_counter_arena (ca_next a) (delete i (ca_map a)));
  arena_clear T a := Build_counter_arena (ca_next a) ∅;
  arena_len T a := size (ca_map a);
}.

#[export] Instance counter_arena_laws : ArenaLaws nat counter_arena.
Proof.
  refine {| arena_issued := λ T a i, (i < ca_next a)%nat |}; simpl; intros.
  - done.
  - lia.
  - lia.
  - repeat case_decide; simplify_map_eq; try done; lia.
  - by case_decide.
  - repeat case_decide; simplify_map_eq; try done.
  - done.
  - done.
  - repeat case_decide; simplify_map_eq; done.
  - done.
  - case_decide; [apply lookup_empty|done].
  - done.
  - rewrite <- size_dom, <- (size_list_to_set (C:=gset nat) is_) by done. apply subseteq_size.
    intros i Hi%elem_of_list_to_set. apply elem_of_dom. specialize (H0 i Hi). by case_decide; [|destruct H0].
Qed.
