(* ===== verification/LruList.v ===== *)
(** * [cache/src/policy/lru_list.rs]: the cost-tracking LRU list

    Nodes live in an arena and carry [prev]/[next] indices; a hash map finds a
    key's node.  A panicking step ([self.nodes[index]] on a missing index,
    [unwrap] on [None]) is [None].  [Repr l xs] says the list [l] holds the
    keyed costs [xs], most recently used first; every operation is proved to
    return, without panicking, a list that represents the functional update. *)

From S2P Require Import Prelude Dll Arena.

Record Node (Index K : Type) := mkNode {
  n_key : K;
  n_cost : Z;
  n_next : option Index;
  n_prev : option Index;
}.
Arguments mkNode {Index K}.
Arguments n_key {Index K}.
Arguments n_cost {Index K}.
Arguments n_next {Index K}.
Arguments n_prev {Index K}.

Record LruList (Index : Type) (A : Type → Type) (K : Type) `{Countable K} := mkLruList {
  ll_nodes : A (Node Index K);
  ll_lookup : gmap K Index;          (** the field [lookup] *)
  ll_head : option Index;
  ll_tail : option Index;
  ll_current_cost : Z;
}.
Arguments mkLruList {Index A K _ _}.
Arguments ll_nodes {Index A K _ _}.
Arguments ll_lookup {Index A K _ _}.
Arguments ll_head {Index A K _ _}.
Arguments ll_tail {Index A K _ _}.
Arguments ll_current_cost {Index A K _ _}.

Section Code.
Context {Index : Type} {A : Type → Type} `{EqDecision Index} `{Arena Index A}.
Context {K : Type} `{Countable K}.
Implicit Types (l : LruList Index A K) (n : Node Index K) (i : Index) (k : K) (c : Z).

Definition set_next (v : option Index) n : Node Index K := mkNode (n_key n) (n_cost n) v (n_prev n).
Definition set_prev (v : option Index) n : Node Index K := mkNode (n_key n) (n_cost n) (n_next n) v.
Definition set_cost (v : Z) n : Node Index K := mkNode (n_key n) v (n_next n) (n_prev n).

Definition with_nodes l a : LruList Index A K := mkLruList a (ll_lookup l) (ll_head l) (ll_tail l) (ll_current_cost l).
Definition with_lookup l m : LruList Index A K := mkLruList (ll_nodes l) m (ll_head l) (ll_tail l) (ll_current_cost l).
Definition with_head l h : LruList Index A K := mkLruList (ll_nodes l) (ll_lookup l) h (ll_tail l) (ll_current_cost l).
Definition with_tail l t : LruList Index A K := mkLruList (ll_nodes l) (ll_lookup l) (ll_head l) t (ll_current_cost l).
Definition with_cost l c : LruList Index A K := mkLruList (ll_nodes l) (ll_lookup l) (ll_head l) (ll_tail l) c.

(** [self.nodes[i]] mutated in place. *)
Definition update_node l i (f : Node Index K → Node Index K) : option (LruList Index A K) :=
  a ← arena_update i f (ll_nodes l); Some (with_nodes l a).

Definition new : LruList Index A K := mkLruList arena_new ∅ None None 0.

Definition unlink l i : option (LruList Index A K) :=
  node ← arena_get i (ll_nodes l);
  let prev_node_idx := n_prev node in
  let next_node_idx := n_next node in
  l1 ← match prev_node_idx with
       | Some prev_idx => update_node l prev_idx (set_next next_node_idx)
       | None => Some (with_head l next_node_idx)
       end;
  match next_node_idx with
  | Some next_idx => update_node l1 next_idx (set_prev prev_node_idx)
  | None => Some (with_tail l1 prev_node_idx)
  end.

Definition push_front_node l i : option (LruList Index A K) :=
  let old_head_idx := ll_head l in
  l1 ← update_node l i (set_next old_head_idx);
  l2 ← update_node l1 i (set_prev None);
  let l3 := with_head l2 (Some i) in
  l4 ← match old_head_idx with
       | Some old_head => update_node l3 old_head (set_prev (Some i))
       | None => Some l3
       end;
  Some (match ll_tail l4 with Some _ => l4 | None => with_tail l4 (Some i) end).

Definition contains l k : bool := bool_decide (is_Some (ll_lookup l !! k)).

Definition current_total_cost l : Z := ll_current_cost l.

(** [if self.head != Some(index) { unlink; push_front_node }] *)
Definition move_node_to_front l i : option (LruList Index A K) :=
  if decide (ll_head l = Some i) then Some l
  else l1 ← unlink l i; push_front_node l1 i.

Definition touch_index l i c : option (LruList Index A K) :=
  node ← arena_get i (ll_nodes l);
  let l1 := with_cost l ((ll_current_cost l -sat n_cost node) +w c) in
  l2 ← update_node l1 i (set_cost c);
  move_node_to_front l2 i.

Definition push_new l k c : option (LruList Index A K) :=
  let '(i, a) := arena_insert (mkNode k c None None) (ll_nodes l) in
  let l1 := with_lookup (with_nodes l a) (<[k := i]> (ll_lookup l)) in
  let l2 := with_cost l1 (ll_current_cost l1 +w c) in
  push_front_node l2 i.

Definition push_front l k c : option (LruList Index A K) :=
  match ll_lookup l !! k with
  | Some i => touch_index l i c
  | None => push_new l k c
  end.

Definition move_to_front l k : option (LruList Index A K) :=
  match ll_lookup l !! k with
  | Some i => move_node_to_front l i
  | None => Some l
  end.

Definition remove l k : option (option Z * LruList Index A K) :=
  match ll_lookup l !! k with
  | Some i =>
      let l0 := with_lookup l (delete k (ll_lookup l)) in
      l1 ← unlink l0 i;
      let '(removed, a) := arena_remove i (ll_nodes l1) in
      node ← removed;
      let l2 := with_nodes l1 a in
      Some (Some (n_cost node), with_cost l2 (ll_current_cost l2 -sat n_cost node))
  | None => Some (None, l)
  end.

Definition pop_back l : option (option (K * Z) * LruList Index A K) :=
  match ll_tail l with
  | Some tail_index =>
      tail_node ← arena_get tail_index (ll_nodes l);
      '(_, l') ← remove l (n_key tail_node);
      Some (Some (n_key tail_node, n_cost tail_node), l')
  | None => Some (None, l)
  end.

Definition clear l : LruList Index A K := mkLruList (arena_clear (ll_nodes l)) ∅ None None 0.

(** The walk from [head] along [next]; the map has an entry per node, so its
    size bounds the walk. *)
Fixpoint walk (fuel : nat) (a : A (Node Index K)) (current : option Index) : option (list K) :=
  match current, fuel with
  | None, _ => Some []
  | Some _, O => None
  | Some i, S fuel => node ← arena_get i a; ks ← walk fuel a (n_next node); Some (n_key node :: ks)
  end.

Definition keys_as_vec l : option (list K) := walk (size (ll_lookup l)) (ll_nodes l) (ll_head l).
End Code.

(** ** The representation invariant *)

Section Repr.
Context {Index : Type} {A : Type → Type} `{EqDecision Index} `{!Arena Index A}.
Context {K : Type} `{Countable K}.
Implicit Types (l : LruList Index A K) (n : Node Index K) (i j : Index) (k : K) (c : Z).
Implicit Types (a : A (Node Index K)) (es : list (Index * (K * Z))) (xs : list (K * Z)).

(** The links and the contents of the nodes of an arena. *)
Definition lks a i : option (option Index * option Index) :=
  (λ n, (n_prev n, n_next n)) <$> arena_get i a.
Definition kcs a i : option (K * Z) := (λ n, (n_key n, n_cost n)) <$> arena_get i a.

(** [l]'s nodes are linked in the order [es], and no other node is live. *)
Definition linked l es : Prop :=
  dll (lks (ll_nodes l)) (ll_head l) (ll_tail l) es.*1 ∧
  (∀ i kc, (i, kc) ∈ es → kcs (ll_nodes l) i = Some kc).

(** The live nodes are exactly the chained ones, the map names each by its
    key, and the running total is the sum of the costs. *)
Definition wf_entries l es : Prop :=
  linked l es ∧
  (∀ i kc, kcs (ll_nodes l) i = Some kc → (i, kc) ∈ es) ∧
  (∀ k i, ll_lookup l !! k = Some i ↔ ∃ c, kcs (ll_nodes l) i = Some (k, c)) ∧
  costs_ok es.*2 ∧ costs es.*2 < U64 ∧
  ll_current_cost l = costs es.*2.

(** [l] holds the keyed costs [xs], most recently used first. *)
Definition Repr l xs : Prop := ∃ es, wf_entries l es ∧ xs = es.*2.
End Repr.

Section Proofs.
Context {Index : Type} {A : Type → Type} `{ArenaLaws Index A}.
Context {K : Type} `{Countable K}.
Implicit Types (l : LruList Index A K) (n : Node Index K) (i j : Index) (k : K) (c : Z).
Implicit Types (a : A (Node Index K)) (es : list (Index * (K * Z))) (xs : list (K * Z)).

Lemma update_node_spec l i f n :
  arena_get i (ll_nodes l) = Some n →
  ∃ a, update_node l i f = Some (with_nodes l a) ∧
    ∀ j, arena_get j a = if decide (j = i) then Some (f n) else arena_get j (ll_nodes l).
Proof.
  intros Hn. destruct (arena_update_spec i f _ n Hn) as (a&Ha&Hget&_).
  exists a. split; [|done]. unfold update_node. by rewrite Ha.
Qed.

(** Two arenas with the same contents; only links may differ. *)
Definition same_kcs a a' : Prop := ∀ i, kcs a' i = kcs a i.

Lemma same_kcs_live a a' i : same_kcs a a' → is_Some (arena_get i a') ↔ is_Some (arena_get i a).
Proof.
  intros Hs. specialize (Hs i). unfold kcs in Hs.
  destruct (arena_get i a), (arena_get i a'); simpl in *; naive_solver.
Qed.

(** Rewriting one link field of a node, if there is a node to rewrite. *)
Lemma update_link l (o : option Index) (f : Node Index K → Node Index K)
    (g : option Index * option Index → option Index * option Index) :
  (∀ n, (n_key (f n), n_cost (f n)) = (n_key n, n_cost n)) →
  (∀ n, (n_prev (f n), n_next (f n)) = g (n_prev n, n_next n)) →
  (∀ i, o = Some i → is_Some (arena_get i (ll_nodes l))) →
  ∃ a, match o with Some i => update_node l i f | None => Some l end = Some (with_nodes l a) ∧
    same_kcs (ll_nodes l) a ∧
    ∀ j, lks a j = if decide (Some j = o) then g <$> lks (ll_nodes l) j else lks (ll_nodes l) j.
Proof.
  intros Hkc Hlk Hlive. destruct o as [i|].
  - destruct (Hlive i eq_refl) as [n Hn].
    destruct (update_node_spec l i f n Hn) as (a&Ha&Hget).
    exists a. split; [done|]. split.
    + intros j. unfold kcs. rewrite Hget. case_decide; [|done]. subst. rewrite Hn. simpl.
      by rewrite Hkc.
    + intros j. unfold lks. rewrite Hget.
      destruct (decide (j = i)) as [->|]; [|by rewrite decide_False by congruence].
      rewrite decide_True by done. rewrite Hn. simpl. by rewrite Hlk.
  - exists (ll_nodes l). split; [by destruct l|]. done.
Qed.

Lemma linked_live l es i kc : linked l es → (i, kc) ∈ es → is_Some (arena_get i (ll_nodes l)).
Proof.
  intros [_ Hkc] Hi. specialize (Hkc _ _ Hi). unfold kcs in Hkc.
  destruct (arena_get i (ll_nodes l)); [eauto|done].
Qed.

(** [unlink] takes a node out of the chain and changes no contents. *)
Lemma unlink_spec l es1 i kc es2 :
  linked l (es1 ++ (i, kc) :: es2) →
  ∃ a h t, unlink l i = Some (mkLruList a (ll_lookup l) h t (ll_current_cost l)) ∧
    linked (mkLruList a (ll_lookup l) h t (ll_current_cost l)) (es1 ++ es2) ∧
    same_kcs (ll_nodes l) a.
Proof.
  intros Hl. pose proof Hl as [Hd Hkc].
  assert (Hin : ∀ j, j ∈ es1.*1 ++ es2.*1 → is_Some (arena_get j (ll_nodes l))).
  { intros j. rewrite <- fmap_app. intros ([j' kc']&->&Hj)%list_elem_of_fmap.
    apply (linked_live _ _ j' kc' Hl). revert Hj. set_solver. }
  rewrite fmap_app, fmap_cons in Hd. simpl in Hd.
  pose proof (dll_node _ _ _ _ _ _ Hd) as Hlk.
  destruct (linked_live _ _ i kc Hl) as [n Hn]; [set_solver|].
  unfold unlink. rewrite Hn. simpl.
  unfold lks in Hlk. rewrite Hn in Hlk. simpl in Hlk. injection Hlk as Hp Hq. rewrite Hp, Hq.
  destruct (update_link l (last es1.*1) (set_next (hd_error es2.*1))
              (λ pn, (pn.1, hd_error es2.*1))) as (a1&Ha1&Hs1&Hlk1); [done..| |].
  { intros j Hj. apply Hin. apply elem_of_app. left. by apply last_Some_elem_of. }
  set (l1 := mkLruList a1 (ll_lookup l) (unlink_head (ll_head l) (last es1.*1) (hd_error es2.*1))
               (ll_tail l) (ll_current_cost l)).
  assert (E1 : match last es1.*1 with
               | Some prev_idx => update_node l prev_idx (set_next (hd_error es2.*1))
               | None => Some (with_head l (hd_error es2.*1))
               end = Some l1).
  { unfold l1. destruct (last es1.*1); [by rewrite Ha1|].
    injection Ha1 as Ha1%(f_equal ll_nodes). simpl in Ha1. by rewrite <- Ha1. }
  rewrite E1. simpl.
  destruct (update_link l1 (hd_error es2.*1) (set_prev (last es1.*1))
              (λ pn, (last es1.*1, pn.2))) as (a2&Ha2&Hs2&Hlk2); [done..| |].
  { intros j Hj. apply (same_kcs_live _ _ _ Hs1). apply Hin. apply elem_of_app. right.
    destruct es2; simplify_eq/=. by left. }
  exists a2, (unlink_head (ll_head l) (last es1.*1) (hd_error es2.*1)),
    (unlink_tail (ll_tail l) (last es1.*1) (hd_error es2.*1)).
  assert (Hs : same_kcs (ll_nodes l) a2) by (intros j; rewrite Hs2; apply Hs1).
  split; [|split; [|exact Hs]].
  { destruct (hd_error es2.*1); [exact Ha2|]. injection Ha2 as Ha2. by rewrite <- Ha2. }
  split.
  - simpl. rewrite fmap_app. eapply dll_unlink; [exact Hd|]. intros j _.
    rewrite Hlk2. simpl. unfold relink_prev. rewrite Hlk1. done.
  - intros j kc' Hj. simpl. rewrite Hs. apply Hkc. revert Hj. set_solver.
Qed.

(** [push_front_node] links a live, unlinked node at the front. *)
Lemma push_front_node_spec l es i kc :
  linked l es → i ∉ es.*1 → kcs (ll_nodes l) i = Some kc →
  ∃ a h t, push_front_node l i = Some (mkLruList a (ll_lookup l) h t (ll_current_cost l)) ∧
    linked (mkLruList a (ll_lookup l) h t (ll_current_cost l)) ((i, kc) :: es) ∧
    same_kcs (ll_nodes l) a.
Proof.
  intros Hl Hi Hkci. pose proof Hl as [Hd Hkc].
  assert (Hn : is_Some (arena_get i (ll_nodes l))).
  { unfold kcs in Hkci. destruct (arena_get i (ll_nodes l)); [eauto|done]. }
  unfold push_front_node.
  destruct (update_link l (Some i) (set_next (ll_head l)) (λ pn, (pn.1, ll_head l)))
    as (a1&Ha1&Hs1&Hlk1); [done..|naive_solver|].
  simpl in Ha1. rewrite Ha1. simpl.
  destruct (update_link (with_nodes l a1) (Some i) (set_prev None) (λ pn, (None, pn.2)))
    as (a2&Ha2&Hs2&Hlk2); [done..| |].
  { intros j [= <-]. simpl. by apply (same_kcs_live _ _ _ Hs1). }
  simpl in Ha2. rewrite Ha2. simpl in *.
  set (l3 := with_head (with_nodes (with_nodes l a1) a2) (Some i)).
  assert (Hs12 : same_kcs (ll_nodes l) a2) by (intros j; rewrite Hs2; apply Hs1).
  destruct (update_link l3 (ll_head l) (set_prev (Some i)) (λ pn, (Some i, pn.2)))
    as (a3&Ha3&Hs3&Hlk3); [done..| |].
  { intros j Hj. apply (same_kcs_live _ _ _ Hs12).
    destruct (dll_hd_cons _ _ _ _ j Hd Hj) as [ids' Hids].
    assert (j ∈ es.*1) as ([j' kc']&->&Hj')%list_elem_of_fmap by (rewrite Hids; by left).
    by eapply linked_live. }
  rewrite Ha3. simpl.
  assert (Hs : same_kcs (ll_nodes l) a3) by (intros j; rewrite Hs3; apply Hs12).
  exists a3, (Some i), (match ll_tail l with Some t => Some t | None => Some i end).
  split; [unfold l3, with_tail, with_head, with_nodes; simpl; by destruct (ll_tail l)|]. split; [|done]. split; simpl.
  - eapply dll_push_front; [exact Hd|done| |].
    + rewrite Hlk3. rewrite decide_False.
      2:{ intros Hh%eq_sym. destruct (dll_hd_cons _ _ _ _ i Hd Hh) as [? Hids].
          rewrite Hids in Hi. set_solver. }
      unfold l3. simpl. rewrite Hlk2, decide_True by done. rewrite Hlk1, decide_True by done.
      unfold lks. destruct Hn as [n ->]. done.
    + intros j Hj. rewrite Hlk3. unfold relink_prev, l3. simpl.
      assert (Hji : Some j ≠ Some i) by (by intros [= ->]).
      assert (lks a2 j = lks (ll_nodes l) j) as ->; [|done].
      rewrite Hlk2, decide_False by done. by rewrite Hlk1, decide_False by done.
  - intros j kc' [[= -> ->]|Hj]%elem_of_cons; rewrite Hs; [done|]. by apply Hkc.
Qed.

Lemma linked_NoDup l es : linked l es → NoDup es.*1.
Proof. by intros [(?&_) _]. Qed.

(** Reordering the chain keeps the rest of the invariant. *)
Lemma wf_reorder l l' es es' :
  wf_entries l es → linked l' es' → es' ≡ₚ es → same_kcs (ll_nodes l) (ll_nodes l') →
  ll_lookup l' = ll_lookup l → ll_current_cost l' = ll_current_cost l →
  wf_entries l' es'.
Proof.
  intros (Hl&Hlive&Hlk&Hok&Hlt&Hc) Hl' Hp Hs Hlk' Hc'.
  assert (Hp2 : es'.*2 ≡ₚ es.*2) by (by rewrite Hp).
  unfold wf_entries, costs_ok in *. rewrite Hlk', Hc', Hp2. split; [done|]. split; [|split; [|done]].
  - intros i kc Hi. rewrite Hs in Hi. rewrite Hp. by apply Hlive.
  - intros k i. rewrite Hlk. split; intros [c Hi]; exists c; [by rewrite Hs|by rewrite <- Hs].
Qed.

Lemma middle_notin l es1 i kc es2 : linked l (es1 ++ (i, kc) :: es2) → i ∉ (es1 ++ es2).*1.
Proof.
  intros Hl%linked_NoDup. revert Hl. rewrite !fmap_app, NoDup_app. simpl.
  rewrite NoDup_cons. set_solver.
Qed.

Lemma middle_kcs l es1 i kc es2 :
  linked l (es1 ++ (i, kc) :: es2) → kcs (ll_nodes l) i = Some kc.
Proof. intros [_ Hkc]. apply Hkc. set_solver. Qed.

Lemma move_node_spec l es1 i kc es2 :
  wf_entries l (es1 ++ (i, kc) :: es2) →
  ∃ l', move_node_to_front l i = Some l' ∧ wf_entries l' ((i, kc) :: es1 ++ es2).
Proof.
  intros Hw. pose proof Hw as (Hl&_). unfold move_node_to_front.
  destruct (decide (ll_head l = Some i)) as [Hh|Hh].
  - exists l. split; [done|].
    destruct es1 as [|[i' kc'] es1]; [done|].
    apply middle_notin in Hl as Hi. destruct Hl as [(Hnd&Hhd&_) _].
    rewrite Hh in Hhd. simpl in Hhd. injection Hhd as ->. set_solver.
  - destruct (unlink_spec l es1 i kc es2 Hl) as (a&h&t&Hu&Hl1&Hs1). rewrite Hu. simpl.
    set (l1 := mkLruList a (ll_lookup l) h t (ll_current_cost l)) in *.
    apply middle_notin in Hl as Hi.
    assert (Hkc : kcs a i = Some kc) by (rewrite Hs1; by eapply middle_kcs).
    destruct (push_front_node_spec l1 (es1 ++ es2) i kc Hl1 Hi Hkc) as (a2&h2&t2&Hp&Hl2&Hs2).
    rewrite Hp. eexists. split; [done|].
    eapply wf_reorder; [exact Hw|exact Hl2| | |done|done].
    + by rewrite Permutation_middle.
    + intros j. rewrite Hs2. apply Hs1.
Qed.

Lemma wf_lookup_split l es k i :
  wf_entries l es → ll_lookup l !! k = Some i →
  ∃ es1 c es2, es = es1 ++ (i, (k, c)) :: es2.
Proof.
  intros (_&Hlive&Hlk&_) [c (es1&es2&->)%Hlive%list_elem_of_split]%Hlk. eauto.
Qed.

Lemma elem_of_keys es k : k ∈ es.*2.*1 ↔ ∃ i c, (i, (k, c)) ∈ es.
Proof.
  rewrite list_elem_of_fmap. setoid_rewrite list_elem_of_fmap. split.
  - intros ([k' c]&->&([i kc]&Hkc&Hin)). simpl in *. subst. eauto.
  - intros (i&c&Hin). exists (k, c). split; [done|]. by exists (i, (k, c)).
Qed.

Lemma wf_lookup_None l es k : wf_entries l es → ll_lookup l !! k = None ↔ k ∉ es.*2.*1.
Proof.
  intros ([_ Hkc]&Hlive&Hlk&_). rewrite elem_of_keys. split.
  - intros Hn (i&c&Hin). apply Hkc in Hin.
    assert (ll_lookup l !! k = Some i) by (apply Hlk; eauto). congruence.
  - intros Hk. destruct (ll_lookup l !! k) as [i|] eqn:E; [|done].
    apply Hlk in E as [c Hc]. destruct Hk. eauto.
Qed.

(** Keys are distinct: the map names one node per key. *)
Lemma wf_keys_NoDup l es : wf_entries l es → NoDup es.*2.*1.
Proof.
  intros (Hl&_&Hlk&_). apply linked_NoDup in Hl as Hnd. destruct Hl as [_ Hkc].
  assert (Hinj : ∀ i j k c d, (i, (k, c)) ∈ es → (j, (k, d)) ∈ es → i = j).
  { intros i j k c d Hi%Hkc Hj%Hkc.
    assert (ll_lookup l !! k = Some i) by (apply Hlk; eauto).
    assert (ll_lookup l !! k = Some j) by (apply Hlk; eauto). congruence. }
  clear Hkc Hlk. induction es as [|[i [k c]] es IH]; [constructor|].
  apply NoDup_cons in Hnd as [Hi Hnd]. simpl. constructor.
  - intros (j&d&Hj)%elem_of_keys. destruct Hi.
    rewrite (Hinj i j k c d) by set_solver. by apply (list_elem_of_fmap_2 fst) in Hj.
  - apply IH; [done|]. intros i' j' k' c' d' Hi' Hj'. eapply Hinj; right; done.
Qed.

Lemma remove_key_entries l es1 i k c es2 :
  wf_entries l (es1 ++ (i, (k, c)) :: es2) →
  remove_key k (es1 ++ (i, (k, c)) :: es2).*2 = (es1 ++ es2).*2.
Proof.
  intros Hnd%wf_keys_NoDup. rewrite !fmap_app in *. simpl in *.
  apply remove_key_middle. by rewrite fmap_app.
Qed.

Lemma costs_middle es1 (i : Index) k c es2 :
  costs (es1 ++ (i, (k, c)) :: es2).*2 = c + costs (es1 ++ es2).*2.
Proof. rewrite !fmap_app, fmap_cons, !costs_app. cbn [snd]. rewrite costs_cons. lia. Qed.

Lemma costs_ok_middle es1 (i : Index) k c es2 :
  costs_ok (es1 ++ (i, (k, c)) :: es2).*2 ↔ 0 ≤ c ∧ costs_ok (es1 ++ es2).*2.
Proof. unfold costs_ok. rewrite !fmap_app, !Forall_app. simpl. rewrite Forall_cons. simpl. tauto. Qed.

(** Changing one node's cost, and the total with it. *)
Lemma wf_set_cost l es1 i k c c' es2 :
  wf_entries l (es1 ++ (i, (k, c)) :: es2) → 0 ≤ c' → costs (es1 ++ es2).*2 + c' < U64 →
  let l0 := with_cost l ((ll_current_cost l -sat c) +w c') in
  ∃ a, update_node l0 i (set_cost c') = Some (with_nodes l0 a) ∧
    wf_entries (with_nodes l0 a) (es1 ++ (i, (k, c')) :: es2).
Proof.
  intros (Hl&Hlive&Hlk&Hok&Hlt&Hcc) Hc' Hlt' l0.
  apply middle_notin in Hl as Hi. apply middle_kcs in Hl as Hkci.
  destruct (linked_live l _ i (k, c) Hl) as [n Hn]; [set_solver|].
  unfold kcs in Hkci. rewrite Hn in Hkci. injection Hkci as Hnk Hnc.
  destruct (update_node_spec l0 i (set_cost c') n Hn) as (a&Ha&Hget). rewrite Ha. simpl in Hget.
  exists a. split; [done|].
  assert (Hkc' : ∀ j, kcs a j = if decide (j = i) then Some (k, c') else kcs (ll_nodes l) j).
  { intros j. unfold kcs. rewrite Hget. case_decide; [|done]. simpl. by rewrite Hnk. }
  assert (Hmem : ∀ j kc, (j, kc) ∈ es1 ++ es2 → j ≠ i).
  { intros j kc Hj ->. apply Hi. by apply (list_elem_of_fmap_2 fst) in Hj. }
  rewrite costs_ok_middle in Hok. rewrite costs_middle in Hlt, Hcc. destruct Hok as [Hc0 Hok].
  apply costs_nonneg in Hok as Hpos.
  unfold wf_entries, linked. rewrite costs_ok_middle, costs_middle. split_and!; try done; simpl.
  - assert (E : (es1 ++ (i, (k, c')) :: es2).*1 = (es1 ++ (i, (k, c)) :: es2).*1)
      by (by rewrite !fmap_app).
    rewrite E. eapply dll_ext; [|apply Hl]. intros j _. unfold lks. simpl. rewrite Hget.
    case_decide; [|done]. subst. by rewrite Hn.
  - intros j kc [Hj|[[= -> ->]|Hj]%elem_of_cons]%elem_of_app; rewrite Hkc'.
    + rewrite decide_False by (apply (Hmem j kc); set_solver). apply Hl. set_solver.
    + by rewrite decide_True.
    + rewrite decide_False by (apply (Hmem j kc); set_solver). apply Hl. set_solver.
  - intros j kc Hj. rewrite Hkc' in Hj. case_decide; [subst; set_solver|].
    apply Hlive in Hj. set_solver.
  - intros k' j. rewrite Hlk, Hkc'. case_decide; [|done]. subst. unfold kcs. rewrite Hn.
    simpl. naive_solver.
  - lia.
  - rewrite sat_sub_small by lia. rewrite u64_add_small by lia. lia.
Qed.

Lemma touch_index_spec l es1 i k c c' es2 :
  wf_entries l (es1 ++ (i, (k, c)) :: es2) → 0 ≤ c' → costs (es1 ++ es2).*2 + c' < U64 →
  ∃ l', touch_index l i c' = Some l' ∧ wf_entries l' ((i, (k, c')) :: es1 ++ es2).
Proof.
  intros Hw Hc' Hlt. pose proof Hw as (Hl&_). apply middle_kcs in Hl as Hkc.
  unfold kcs in Hkc. unfold touch_index.
  destruct (arena_get i (ll_nodes l)) as [n|]; simpl in *; [|done]. injection Hkc as Hnk Hnc.
  destruct (wf_set_cost l es1 i k c c' es2 Hw Hc' Hlt) as (a&Ha&Hw'). rewrite Hnc, Ha. simpl.
  by apply move_node_spec in Hw'.
Qed.

(** ** Every operation refines its functional description *)

Lemma Repr_new : Repr (new (A:=A) (K:=K)) [].
Proof.
  exists []. split; [|done]. unfold wf_entries, linked. split_and!; simpl.
  - apply dll_nil.
  - by intros ?? ?%elem_of_nil.
  - intros i kc. unfold kcs. by rewrite arena_get_new.
  - intros k i. unfold kcs. rewrite lookup_empty, arena_get_new. simpl. naive_solver.
  - constructor.
  - done.
  - done.
Qed.

Lemma Repr_NoDup l xs : Repr l xs → NoDup xs.*1.
Proof. intros (es&Hw&->). by eapply wf_keys_NoDup. Qed.

Lemma Repr_costs l xs : Repr l xs → costs_ok xs ∧ costs xs < U64.
Proof. intros (es&(_&_&_&?&?&_)&->). done. Qed.

Lemma Repr_cost l xs : Repr l xs → current_total_cost l = costs xs.
Proof. intros (es&(_&_&_&_&_&?)&->). done. Qed.

Lemma Repr_contains l xs k : Repr l xs → contains l k = bool_decide (k ∈ xs.*1).
Proof.
  intros (es&Hw&->). apply bool_decide_ext.
  rewrite <- not_eq_None_Some, (wf_lookup_None l es k) by done.
  destruct (decide (k ∈ es.*2.*1)); tauto.
Qed.

Lemma Repr_push_new l xs k c :
  Repr l xs → k ∉ xs.*1 → 0 ≤ c → costs xs + c < U64 →
  ∃ l', push_new l k c = Some l' ∧ Repr l' ((k, c) :: xs).
Proof.
  intros (es&Hw&->) Hk Hc Hlt. apply (wf_lookup_None l es k Hw) in Hk as Hnk.
  destruct Hw as (Hl&Hlive&Hlk&Hok&Hlt0&Hcc). unfold push_new.
  pose proof (arena_insert_get _ (mkNode k c None None) (ll_nodes l)) as Hget.
  pose proof (arena_insert_not_live (mkNode k c None None) (ll_nodes l)) as Hfresh.
  destruct (arena_insert (mkNode k c None None) (ll_nodes l)) as [i a]. simpl in *.
  set (l2 := with_cost (with_lookup (with_nodes l a) (<[k:=i]> (ll_lookup l)))
               (ll_current_cost l +w c)).
  assert (Hi : i ∉ es.*1).
  { intros ([j kc]&->&Hj)%list_elem_of_fmap. apply Hl in Hj. unfold kcs in Hj.
    simpl in *. by rewrite Hfresh in Hj. }
  assert (Hkc : ∀ j, kcs a j = if decide (j = i) then Some (k, c) else kcs (ll_nodes l) j).
  { intros j. unfold kcs. rewrite Hget. by case_decide. }
  assert (Hne : ∀ j kc, (j, kc) ∈ es → j ≠ i).
  { intros j kc Hj ->. apply Hi. by apply (list_elem_of_fmap_2 fst) in Hj. }
  assert (Hl2 : linked l2 es).
  { split; simpl.
    - eapply dll_ext; [|apply Hl]. intros j Hj. unfold lks. rewrite Hget.
      by rewrite decide_False by congruence.
    - intros j kc Hj. rewrite Hkc, decide_False by (by eapply Hne). by apply Hl. }
  destruct (push_front_node_spec l2 es i (k, c) Hl2 Hi) as (a2&h&t&Hp&Hl3&Hs).
  { simpl. by rewrite Hkc, decide_True. }
  rewrite Hp. eexists. split; [done|]. exists ((i, (k, c)) :: es). split; [|done].
  apply costs_nonneg in Hok as Hpos. unfold wf_entries, costs_ok. rewrite fmap_cons, Forall_cons.
  cbn [snd]. rewrite costs_cons. split_and!; try done; cbn [ll_nodes ll_lookup ll_current_cost].
  - intros j kc Hj. rewrite Hs in Hj. simpl in Hj. rewrite Hkc in Hj.
    case_decide; [naive_solver set_solver|]. right. by apply Hlive.
  - intros k' j. rewrite Hs. simpl. rewrite Hkc, lookup_insert.
    destruct (decide (k = k')) as [->|Hkk]; destruct (decide (j = i)) as [->|Hji].
    + naive_solver.
    + split; [congruence|]. intros [d Hd]. exfalso.
      assert (ll_lookup l !! k' = Some j) by (apply Hlk; eauto). congruence.
    + split; [|naive_solver]. intros Hk'. apply Hlk in Hk' as [d Hd]. unfold kcs in Hd.
      by rewrite Hfresh in Hd.
    + apply Hlk.
  - lia.
  - simpl. rewrite Hcc. rewrite u64_add_small by lia. lia.
Qed.

Lemma Repr_push_front l xs k c :
  Repr l xs → 0 ≤ c → costs (remove_key k xs) + c < U64 →
  ∃ l', push_front l k c = Some l' ∧ Repr l' ((k, c) :: remove_key k xs).
Proof.
  intros HR Hc. pose proof HR as (es&Hw&->). unfold push_front.
  destruct (ll_lookup l !! k) as [i|] eqn:E.
  - destruct (wf_lookup_split _ _ _ _ Hw E) as (es1&c0&es2&->).
    rewrite (remove_key_entries _ _ _ _ _ _ Hw). intros Hlt.
    destruct (touch_index_spec l es1 i k c0 c es2 Hw Hc Hlt) as (l'&->&Hw').
    exists l'. split; [done|]. by eexists.
  - apply (wf_lookup_None l es k Hw) in E. rewrite remove_key_notin by done.
    intros Hlt. by apply Repr_push_new.
Qed.

Lemma Repr_move_to_front l xs k c :
  Repr l xs → (k, c) ∈ xs →
  ∃ l', move_to_front l k = Some l' ∧ Repr l' ((k, c) :: remove_key k xs).
Proof.
  intros (es&Hw&->) ([i kc]&Heq&Hin)%list_elem_of_fmap. simpl in Heq. subst kc.
  unfold move_to_front.
  assert (E : ll_lookup l !! k = Some i).
  { destruct Hw as ([_ Hkc]&_&Hlk&_). apply Hlk. eexists. by apply Hkc. }
  rewrite E. apply list_elem_of_split in Hin as (es1&es2&->).
  rewrite (remove_key_entries _ _ _ _ _ _ Hw).
  destruct (move_node_spec l es1 i _ es2 Hw) as (l'&->&Hw').
  exists l'. split; [done|]. by eexists.
Qed.

(** [lookup.get(key)] and [touch_index], as the policies pair them. *)
Lemma Repr_lookup l xs k :
  Repr l xs →
  match ll_lookup l !! k with
  | Some i => k ∈ xs.*1 ∧ ∀ c, 0 ≤ c → costs (remove_key k xs) + c < U64 →
      ∃ l', touch_index l i c = Some l' ∧ Repr l' ((k, c) :: remove_key k xs)
  | None => k ∉ xs.*1
  end.
Proof.
  intros (es&Hw&->). destruct (ll_lookup l !! k) as [i|] eqn:Ek; [|by apply (wf_lookup_None _ _ _ Hw)].
  destruct (wf_lookup_split _ _ _ _ Hw Ek) as (es1&c0&es2&->).
  assert (Hrk : remove_key k (es1 ++ (i, (k, c0)) :: es2).*2 = (es1 ++ es2).*2) by (by eapply remove_key_entries).
  rewrite Hrk. split; [rewrite !fmap_app, !fmap_cons, elem_of_app; right; left|].
  intros c Hc Hlt. destruct (touch_index_spec _ _ _ _ _ c _ Hw) as (l'&->&Hw'); [done|done|].
  exists l'. split; [done|]. by eexists.
Qed.

Lemma Repr_move_to_front_absent l xs k : Repr l xs → k ∉ xs.*1 → move_to_front l k = Some l.
Proof.
  intros (es&Hw&->) Hk. unfold move_to_front.
  by rewrite (proj2 (wf_lookup_None l es k Hw) Hk).
Qed.

Lemma Repr_remove l xs k :
  Repr l xs →
  ∃ l', remove l k = Some ((list_to_map xs : gmap K Z) !! k, l') ∧ Repr l' (remove_key k xs).
Proof.
  intros HR. pose proof HR as (es&Hw&->). unfold remove.
  destruct (ll_lookup l !! k) as [i|] eqn:E.
  2:{ apply (wf_lookup_None l es k Hw) in E as Hk.
      exists l. rewrite remove_key_notin by done. split; [|done].
      by rewrite not_elem_of_list_to_map_1. }
  destruct (wf_lookup_split _ _ _ _ Hw E) as (es1&c&es2&->).
  rewrite (remove_key_entries _ _ _ _ _ _ Hw). apply wf_keys_NoDup in Hw as Hnd.
  rewrite (elem_of_list_to_map_1 _ k c); [|done|rewrite fmap_app; simpl; set_solver].
  destruct Hw as (Hl&Hlive&Hlk&Hok&Hlt&Hcc).
  apply middle_notin in Hl as Hi. apply middle_kcs in Hl as Hkci.
  destruct (unlink_spec (with_lookup l (delete k (ll_lookup l))) es1 i (k, c) es2 Hl)
    as (a&h&t&Hu&Hl1&Hs). rewrite Hu. simpl in Hs |- *.
  pose proof (arena_remove_fst _ a i) as Hfst. pose proof (arena_remove_get _ a i) as Hget.
  destruct (arena_remove i a) as [o a2]. simpl in *. subst o.
  rewrite <- Hs in Hkci. unfold kcs in Hkci.
  destruct (arena_get i a) as [n|] eqn:En; simpl in *; [|done]. injection Hkci as Hnk Hnc.
  rewrite costs_ok_middle in Hok. rewrite costs_middle in Hlt, Hcc. destruct Hok as [Hc0 Hok].
  apply costs_nonneg in Hok as Hpos.
  assert (Hkc : ∀ j, kcs a2 j = if decide (j = i) then None else kcs (ll_nodes l) j).
  { intros j. rewrite <- Hs. unfold kcs. rewrite Hget. by case_decide. }
  assert (Hne : ∀ j kc, (j, kc) ∈ es1 ++ es2 → j ≠ i).
  { intros j kc Hj ->. apply Hi. by apply (list_elem_of_fmap_2 fst) in Hj. }
  eexists. split; [by rewrite Hnc|]. exists (es1 ++ es2). split; [|done].
  unfold wf_entries, linked. split_and!; simpl; try done.
  - eapply dll_ext; [|apply Hl1]. intros j Hj. unfold lks. rewrite Hget.
    by rewrite decide_False by congruence.
  - intros j kc Hj. rewrite Hkc, decide_False by (by eapply Hne). apply Hl. set_solver.
  - intros j kc Hj. rewrite Hkc in Hj. case_decide; [done|]. apply Hlive in Hj. set_solver.
  - intros k' j. rewrite Hkc, lookup_delete.
    destruct (decide (k = k')) as [->|Hkk]; destruct (decide (j = i)) as [->|Hji].
    + naive_solver.
    + split; [done|]. intros Hd%Hlk. congruence.
    + split; [|naive_solver]. intros Hk'. apply Hlk in Hk' as [d Hd].
      rewrite (middle_kcs _ _ _ _ _ Hl) in Hd. congruence.
    + apply Hlk.
  - lia.
  - rewrite Hcc. rewrite sat_sub_small by lia. lia.
Qed.

Lemma Repr_pop_back l xs k c :
  Repr l (xs ++ [(k, c)]) → ∃ l', pop_back l = Some (Some (k, c), l') ∧ Repr l' xs.
Proof.
  intros HR. destruct (Repr_remove l _ k HR) as (l'&Hrm&HR').
  rewrite remove_key_middle, app_nil_r in HR' by (by eapply Repr_NoDup).
  exists l'. split; [|done]. destruct HR as (es&Hw&Hxs). pose proof Hw as ([(_&_&Ht&_) _]&_).
  destruct es as [|[i kc] es _] using rev_ind; [by destruct xs|].
  rewrite fmap_app in Hxs. simpl in Hxs. apply app_inj_tail in Hxs as [-> <-].
  rewrite fmap_app in Ht. simpl in Ht. rewrite last_snoc in Ht. unfold pop_back. rewrite Ht.
  assert (Hkc : kcs (ll_nodes l) i = Some (k, c)) by (apply Hw; set_solver).
  unfold kcs in Hkc. destruct (arena_get i (ll_nodes l)) as [n|]; simpl in *; [|done].
  injection Hkc as -> ->. by rewrite Hrm.
Qed.

Lemma Repr_pop_back_nil l : Repr l [] → pop_back l = Some (None, l).
Proof.
  intros (es&Hw&Hxs). destruct es; [|done]. pose proof Hw as ([(_&_&Ht&_) _]&_).
  unfold pop_back. by rewrite Ht.
Qed.

Lemma Repr_clear l xs : Repr l xs → Repr (clear l) [].
Proof.
  intros _. exists []. split; [|done]. unfold wf_entries, linked. split_and!; simpl.
  - apply dll_nil.
  - by intros ?? ?%elem_of_nil.
  - intros i kc. unfold kcs. by rewrite arena_clear_get.
  - intros k i. unfold kcs. rewrite lookup_empty, arena_clear_get. simpl. naive_solver.
  - constructor.
  - done.
  - done.
Qed.

(** The node at the tail, as [SlruState::peek_lru] and [ArcPolicy::evict] read
    it directly. *)
Lemma Repr_tail l xs k c :
  Repr l (xs ++ [(k, c)]) →
  ∃ i n, ll_tail l = Some i ∧ arena_get i (ll_nodes l) = Some n ∧ n_key n = k ∧ n_cost n = c.
Proof.
  intros (es&Hw&Hxs). pose proof Hw as ([(_&_&Ht&_) Hkc]&_).
  destruct es as [|[i kc] es _] using rev_ind; [by destruct xs|].
  rewrite fmap_app in Hxs. simpl in Hxs. apply app_inj_tail in Hxs as [-> <-].
  rewrite fmap_app in Ht. simpl in Ht. rewrite last_snoc in Ht.
  specialize (Hkc i (k, c) ltac:(set_solver)).
  unfold kcs in Hkc. destruct (arena_get i (ll_nodes l)) as [n|] eqn:E; simpl in *; [|done].
  injection Hkc as Hk Hc. by exists i, n.
Qed.

Lemma Repr_tail_nil l : Repr l [] → ll_tail l = None.
Proof. intros (es&([(_&_&Ht&_) _]&_)&Hxs). by destruct es. Qed.

(** The walk along [next] visits the keys in order. *)
Lemma walk_spec a pp es fuel :
  dseg (lks a) pp es.*1 None → (∀ i kc, (i, kc) ∈ es → kcs a i = Some kc) →
  (length es ≤ fuel)%nat → walk fuel a (first_or None es.*1) = Some es.*2.*1.
Proof.
  revert pp fuel. induction es as [|[i [k c]] es IH]; intros pp fuel Hd Hkc Hf; simpl.
  { by destruct fuel. }
  destruct fuel as [|fuel]; simpl in *; [lia|]. destruct Hd as [Hlk Hd].
  assert (Hi : kcs a i = Some (k, c)) by (apply Hkc; left).
  unfold lks in Hlk. unfold kcs in Hi.
  destruct (arena_get i a) as [n|]; simpl in *; [|done].
  injection Hlk as _ ->. injection Hi as -> _.
  rewrite (IH (Some i)); [done|done| |lia]. intros j kc Hj. apply Hkc. by right.
Qed.

Lemma wf_size l es : wf_entries l es → size (ll_lookup l) = length es.
Proof.
  intros Hw. apply wf_keys_NoDup in Hw as Hnd.
  assert (E : ll_lookup l = list_to_map ((λ e : Index * (K * Z), (e.2.1, e.1)) <$> es)).
  { destruct Hw as ([_ Hkc]&Hlive&Hlk&_). apply map_eq. intros k. apply option_eq. intros i.
    rewrite <- elem_of_list_to_map.
    2:{ rewrite <- list_fmap_compose. rewrite <- list_fmap_compose in Hnd. exact Hnd. }
    rewrite Hlk, list_elem_of_fmap. split.
    - intros [c Hc%Hlive]. by exists (i, (k, c)).
    - intros ([j [k' c]]&[= -> ->]&Hin). eauto. }
  rewrite E, map_size_list_to_map; [by rewrite length_fmap|].
  rewrite <- list_fmap_compose. rewrite <- list_fmap_compose in Hnd. exact Hnd.
Qed.

Lemma Repr_keys_as_vec l xs : Repr l xs → keys_as_vec l = Some xs.*1.
Proof.
  intros (es&Hw&->). pose proof Hw as ([(_&Hh&_&Hd) Hkc]&_). unfold keys_as_vec.
  rewrite Hh, <- first_or_None, (wf_size _ _ Hw). by eapply walk_spec.
Qed.
End Proofs.

(** The keys of a list with their recorded costs. *)
Definition contents {Index A} `{Arena Index A} {K} `{Countable K}
    (l : LruList Index A K) : gmap K Z :=
  omap (λ i, n_cost <$> arena_get i (ll_nodes l)) (ll_lookup l).

Lemma Repr_contents {Index A} `{ArenaLaws Index A} {K} `{Countable K}
    (l : LruList Index A K) xs :
  Repr l xs → contents l = list_to_map xs.
Proof.
  intros (es&Hw&->). apply wf_keys_NoDup in Hw as Hnd. apply map_eq. intros k.
  unfold contents. rewrite lookup_omap. destruct (ll_lookup l !! k) as [i|] eqn:E; simpl.
  - destruct (wf_lookup_split _ _ _ _ Hw E) as (es1&c&es2&->).
    rewrite (elem_of_list_to_map_1 _ k c); [|done|rewrite fmap_app; simpl; set_solver].
    destruct Hw as (Hl&_). apply middle_kcs in Hl. unfold kcs in Hl.
    destruct (arena_get i (ll_nodes l)); simpl in *; [|done]. by injection Hl as _ ->.
  - apply (wf_lookup_None l es k Hw) in E. by rewrite not_elem_of_list_to_map_1.
Qed.

Lemma Repr_fit {Index A} `{ArenaLaws Index A} {K} `{Countable K} (l : LruList Index A K) xs :
  Repr l xs → costs_fit (list_to_map xs).
Proof.
  intros HR. destruct (Repr_costs _ _ HR) as [Hok Hlt]. apply Repr_NoDup in HR as Hnd. split.
  - intros k c Hk. apply elem_of_list_to_map_2 in Hk. unfold costs_ok in Hok.
    rewrite Forall_forall in Hok. exact (Hok _ Hk).
  - by rewrite msum_list.
Qed.

#[export] Hint Resolve Repr_new Repr_clear : fibre.

(** ** Refinement of the functional list, over operation sequences *)

Inductive op (K : Type) :=
  | OpPush (k : K) (c : Z)
  | OpMove (k : K)
  | OpPop
  | OpRemove (k : K)
  | OpClear.
Arguments OpPush {K}.
Arguments OpMove {K}.
Arguments OpPop {K}.
Arguments OpRemove {K}.
Arguments OpClear {K}.

Inductive answer (K : Type) :=
  | Done
  | Cost (c : option Z)
  | Popped (kc : option (K * Z)).
Arguments Done {K}.
Arguments Cost {K}.
Arguments Popped {K}.

Section Refinement.
Context {Index : Type} {A : Type → Type} `{EqDecision Index} `{!Arena Index A}.
Context {K : Type} `{Countable K}.
Implicit Types (l : LruList Index A K) (xs : list (K * Z)) (o : op K).

Definition run_op o l : option (answer K * LruList Index A K) :=
  match o with
  | OpPush k c => l' ← push_front l k c; Some (Done, l')
  | OpMove k => l' ← move_to_front l k; Some (Done, l')
  | OpPop => '(r, l') ← pop_back l; Some (Popped r, l')
  | OpRemove k => '(r, l') ← remove l k; Some (Cost r, l')
  | OpClear => Some (Done, clear l)
  end.

(** What the operation does to a plain list, most recently used first. *)
Definition spec_op o xs : answer K * list (K * Z) :=
  match o with
  | OpPush k c => (Done, (k, c) :: remove_key k xs)
  | OpMove k =>
      (Done, match (list_to_map xs : gmap K Z) !! k with
             | Some c => (k, c) :: remove_key k xs
             | None => xs
             end)
  | OpPop => (Popped (last xs), take (length xs - 1) xs)
  | OpRemove k => (Cost ((list_to_map xs : gmap K Z) !! k), remove_key k xs)
  | OpClear => (Done, [])
  end.

(** The total cost stays a [u64]. *)
Definition fits o xs : Prop :=
  match o with
  | OpPush k c => 0 ≤ c ∧ costs (remove_key k xs) + c < U64
  | _ => True
  end.

Fixpoint run (os : list (op K)) l : option (list (answer K) * LruList Index A K) :=
  match os with
  | [] => Some ([], l)
  | o :: os => '(r, l1) ← run_op o l; '(rs, l2) ← run os l1; Some (r :: rs, l2)
  end.

Fixpoint spec_run (os : list (op K)) xs : list (answer K) * list (K * Z) :=
  match os with
  | [] => ([], xs)
  | o :: os =>
      let '(r, xs1) := spec_op o xs in let '(rs, xs2) := spec_run os xs1 in (r :: rs, xs2)
  end.

Fixpoint fits_all (os : list (op K)) xs : Prop :=
  match os with
  | [] => True
  | o :: os => fits o xs ∧ fits_all os (spec_op o xs).2
  end.
End Refinement.

Section RefinementProofs.
Context {Index : Type} {A : Type → Type} `{ArenaLaws Index A}.
Context {K : Type} `{Countable K}.
Implicit Types (l : LruList Index A K) (xs : list (K * Z)) (o : op K).

Lemma run_op_refines o l xs :
  Repr l xs → fits o xs →
  ∃ l', run_op o l = Some ((spec_op o xs).1, l') ∧ Repr l' (spec_op o xs).2.
Proof.
  intros HR Hf. destruct o as [k c|k| |k|]; simpl in *.
  - destruct (Repr_push_front l xs k c HR) as (l'&->&?); [tauto..|]. eauto.
  - destruct (list_to_map xs !! k) as [c|] eqn:E.
    + apply elem_of_list_to_map_2 in E.
      destruct (Repr_move_to_front l xs k c HR E) as (l'&->&?). eauto.
    + apply not_elem_of_list_to_map_2 in E. rewrite (Repr_move_to_front_absent l xs k) by done.
      eauto.
  - destruct xs as [|[k c] xs _] using rev_ind.
    + rewrite Repr_pop_back_nil by done. eauto.
    + destruct (Repr_pop_back l xs k c HR) as (l'&->&?). simpl.
      rewrite last_snoc, length_app. simpl. rewrite Nat.add_sub, take_app_length. eauto.
  - destruct (Repr_remove l xs k HR) as (l'&->&?). eauto.
  - exists (clear l). split; [done|]. by eapply Repr_clear.
Qed.

Lemma run_refines os l xs :
  Repr l xs → fits_all os xs →
  ∃ l', run os l = Some ((spec_run os xs).1, l') ∧ Repr l' (spec_run os xs).2.
Proof.
  revert l xs. induction os as [|o os IH]; intros l xs HR Hf; simpl in *; [eauto|].
  destruct Hf as [Hf Hfs]. destruct (run_op_refines o l xs HR Hf) as (l1&->&HR1). simpl.
  destruct (IH l1 _ HR1 Hfs) as (l2&Hrun&HR2). rewrite Hrun. simpl.
  destruct (spec_op o xs) as [r xs1]; simpl in *.
  destruct (spec_run os xs1) as [rs xs2]; simpl in *. eauto.
Qed.

(** C33: on every sequence of operations on a new list whose total cost stays a
    [u64], [LruList] never panics and answers exactly as the functional list
    does; at the end the links spell that list's keys from most to least
    recently used and the running cost is the sum of its costs. *)
Theorem lru_list_refines (os : list (op K)) :
  fits_all os [] →
  ∃ l, run os (new (A:=A)) = Some ((spec_run os []).1, l) ∧
    Repr l (spec_run os []).2 ∧
    keys_as_vec l = Some (spec_run os []).2.*1 ∧
    current_total_cost l = costs (spec_run os []).2 ∧
    ∀ k, contains l k = bool_decide (k ∈ (spec_run os []).2.*1).
Proof.
  intros Hf. destruct (run_refines os new [] Repr_new Hf) as (l&Hrun&HR).
  exists l. split; [done|]. split; [done|]. split; [by apply Repr_keys_as_vec|].
  split; [by apply Repr_cost|]. intros k. by apply Repr_contains.
Qed.
End RefinementProofs.

Lemma lru_list_refines_witness :
  ∃ l, run [OpPush 1%nat 10; OpPush 2%nat 20; OpMove 1%nat; OpPush 2%nat 5; OpPop; OpRemove 7%nat]
         (new (A:=counter_arena)) = Some ([Done; Done; Done; Done; Popped (Some (1%nat, 10)); Cost None], l)
       ∧ keys_as_vec l = Some [2%nat] ∧ current_total_cost l = 5.
Proof.
  destruct (lru_list_refines (A:=counter_arena)
    [OpPush 1%nat 10; OpPush 2%nat 20; OpMove 1%nat; OpPush 2%nat 5; OpPop; OpRemove 7%nat])
    as (l&Hrun&_&Hks&Hc&_).
  - vm_compute. repeat split; discriminate.
  - exists l. split; [exact Hrun|]. split; [exact Hks|]. exact Hc.
Defined.
