(* ===== verification/Policy.v ===== *)
(** * [cache/src/policy/mod.rs]: the eviction policy interface

    [CachePolicy] is the trait: the operations a shard calls under its write
    lock, as state passing ([None] is a panic).  [PolicyLaws] is the contract
    the shard relies on, over the map [tracked p] of the keys the policy follows
    with the cost it recorded for each; [EvictsEnough] and [ExactCosts] are the
    two further promises the capacity theorem of [ShardMap] needs. *)

From S2P Require Import Prelude Arena LruList.

Inductive AdmissionDecision (K : Type) :=
  | Admit
  | Reject
  | AdmitAndEvict (victims : list K).
Arguments Admit {K}.
Arguments Reject {K}.
Arguments AdmitAndEvict {K}.

Class CachePolicy (K P : Type) := {
  on_access : K → Z → P → option P;
  uses_access_events : P → bool;
  on_admit : K → Z → P → option (AdmissionDecision K * P);
  on_remove : K → P → option P;
  evict : Z → P → option (list K * Z * P);
  clear : P → option P;
}.

(** The keys a decision asks the shard to remove. *)
Definition decision_victims {K} (d : AdmissionDecision K) : list K :=
  match d with AdmitAndEvict vs => vs | _ => [] end.

Class PolicyLaws (K P : Type) `{Countable K} `{CachePolicy K P} := {
  policy_wf : P → Prop;
  tracked : P → gmap K Z;
  fit_law (p : P) : policy_wf p → costs_fit (tracked p);
  (** An access follows no new key and forgets none; at most the accessed
      key's recorded cost becomes the reported one. *)
  access_law (p : P) k c :
    policy_wf p → cost_fits (tracked p) k c →
    ∃ p', on_access k c p = Some p' ∧ policy_wf p' ∧
      (tracked p' = tracked p ∨ is_Some (tracked p !! k) ∧ tracked p' = <[k:=c]> (tracked p));
  (** An admitted key is followed, unless named a victim; the victims leave. *)
  admit_law (p : P) k c :
    policy_wf p → cost_fits (tracked p) k c →
    ∃ d p' c', on_admit k c p = Some (d, p') ∧ policy_wf p' ∧
      NoDup (decision_victims d) ∧
      (∀ v, v ∈ decision_victims d → is_Some (<[k:=c']> (tracked p) !! v)) ∧
      (c' = c ∨ tracked p !! k = Some c') ∧
      tracked p' = without (decision_victims d) (<[k:=c']> (tracked p));
  remove_law (p : P) k :
    policy_wf p →
    ∃ p', on_remove k p = Some p' ∧ policy_wf p' ∧ tracked p' = delete k (tracked p);
  (** Eviction returns, names distinct followed keys, follows them no more and
      reports the sum of the costs it had recorded for them. *)
  evict_law (p : P) n :
    policy_wf p → 0 ≤ n →
    ∃ vs f p', evict n p = Some (vs, f, p') ∧ policy_wf p' ∧
      evicted (tracked p) vs f (tracked p');
  clear_law (p : P) :
    policy_wf p → ∃ p', clear p = Some p' ∧ policy_wf p' ∧ tracked p' = ∅;
}.

(** The trait's promise on [evict]: enough is freed, or nothing is left. *)
Class EvictsEnough (K P : Type) `{PolicyLaws K P} :=
  evicts_enough (p : P) n vs f p' :
    policy_wf p → 0 ≤ n → evict n p = Some (vs, f, p') → n ≤ f ∨ tracked p' = ∅.

(** The policy records the cost it was last told. *)
Class ExactCosts (K P : Type) `{PolicyLaws K P} :=
  exact_costs (p : P) k c d p' :
    policy_wf p → cost_fits (tracked p) k c → on_admit k c p = Some (d, p') →
    tracked p' = without (decision_victims d) (<[k:=c]> (tracked p)).

(** A plain admission meets [admit_law]. *)
Lemma admit_plain {K} `{Countable K} (m m' : gmap K Z) (k : K) (c c' : Z) :
  (c' = c ∨ m !! k = Some c') → m' = <[k:=c']> m →
  NoDup (decision_victims (@Admit K)) ∧
  (∀ v, v ∈ decision_victims (@Admit K) → is_Some (<[k:=c']> m !! v)) ∧
  (c' = c ∨ m !! k = Some c') ∧
  m' = without (decision_victims (@Admit K)) (<[k:=c']> m).
Proof.
  intros ? ->. simpl. rewrite without_nil.
  split_and!; [constructor|by intros v ?%elem_of_nil|done|done].
Qed.

(** ** Any sequence of calls

    The calls a shard makes to its policy, and a run of them. *)

Inductive PolicyOp (K : Type) :=
  | OpAccess (k : K) (c : Z)
  | OpAdmit (k : K) (c : Z)
  | OpRemove (k : K)
  | OpEvict (n : Z)
  | OpClear.
Arguments OpAccess {K}.
Arguments OpAdmit {K}.
Arguments OpRemove {K}.
Arguments OpEvict {K}.
Arguments OpClear {K}.

Definition op_cost {K} (o : PolicyOp K) : Z :=
  match o with OpAccess _ c | OpAdmit _ c => c | _ => 0 end.

Definition op_ok {K} (o : PolicyOp K) : bool :=
  match o with OpAccess _ c | OpAdmit _ c => 0 <=? c | OpEvict n => 0 <=? n | _ => true end.

Definition op_costs {K} (ops : list (PolicyOp K)) : Z := foldr (λ o s, op_cost o + s) 0 ops.

Definition policy_step {K P} `{CachePolicy K P} (o : PolicyOp K) (p : P) : option P :=
  match o with
  | OpAccess k c => on_access k c p
  | OpAdmit k c => snd <$> on_admit k c p
  | OpRemove k => on_remove k p
  | OpEvict n => snd <$> evict n p
  | OpClear => clear p
  end.

Fixpoint policy_run {K P} `{CachePolicy K P} (ops : list (PolicyOp K)) (p : P) : option P :=
  match ops with
  | [] => Some p
  | o :: ops => p' ← policy_step o p; policy_run ops p'
  end.

Section Runs.
Context {K P : Type} `{PolicyLaws K P}.
Implicit Types (p : P) (o : PolicyOp K).

Lemma msum_insert_le (m : gmap K Z) k c : costs_fit m → 0 ≤ c → msum (<[k:=c]> m) ≤ msum m + c.
Proof.
  intros Hf Hc. rewrite msum_insert_delete. destruct (m !! k) as [c0|] eqn:Hk.
  - pose proof (costs_fit_lookup _ _ _ Hf Hk). rewrite (msum_delete k c0 m Hk). lia.
  - rewrite delete_id by done. lia.
Qed.

Lemma cost_fits_le (m : gmap K Z) k c : costs_fit m → 0 ≤ c → msum m + c < U64 → cost_fits m k c.
Proof.
  intros Hf Hc Hlt. split; [done|]. destruct (m !! k) as [c0|] eqn:Hk; [|by rewrite delete_id].
  pose proof (costs_fit_lookup _ _ _ Hf Hk). rewrite (msum_delete k c0 m Hk) in Hlt. lia.
Qed.

Lemma without_fit_le (m : gmap K Z) (vs : list K) :
  costs_fit m → NoDup vs → (∀ v, v ∈ vs → is_Some (m !! v)) → msum (without vs m) ≤ msum m.
Proof.
  intros Hf Hnd Hin. destruct (evicted_fit m vs (msum m - msum (without vs m)) (without vs m) Hf); [done|lia].
Qed.

Lemma policy_step_ok o p :
  policy_wf p → op_ok o = true → msum (tracked p) + op_cost o < U64 →
  ∃ p', policy_step o p = Some p' ∧ policy_wf p' ∧ msum (tracked p') ≤ msum (tracked p) + op_cost o.
Proof.
  intros Hw Hok Hlt. pose proof (fit_law p Hw) as Hf. destruct o as [k c|k c|k|n|]; simpl in *.
  - apply Z.leb_le in Hok. destruct (access_law p k c Hw) as (p'&?&?&[E|[_ E]]); [by apply cost_fits_le| |];
      exists p'; rewrite E; split_and!; try done; [lia|by apply msum_insert_le].
  - apply Z.leb_le in Hok. pose proof (cost_fits_le _ k c Hf Hok Hlt) as Hfit.
    destruct (admit_law p k c Hw Hfit) as (d&p'&c'&->&?&Hnd&Hv&Hc'&E). exists p'. split; [done|]. split; [done|].
    rewrite E. destruct Hc' as [->|Hc'].
    + etrans; [apply without_fit_le; [by apply costs_fit_insert|done..]|]. by apply msum_insert_le.
    + rewrite insert_id in * by done. etrans; [by apply without_fit_le|]. lia.
  - destruct (remove_law p k Hw) as (p'&->&?&E). exists p'. rewrite E. split_and!; [done|done|].
    destruct (tracked p !! k) as [c|] eqn:Hk; [|rewrite delete_id by done; lia].
    pose proof (costs_fit_lookup _ _ _ Hf Hk). rewrite (msum_delete k c _ Hk). lia.
  - apply Z.leb_le in Hok. destruct (evict_law p n Hw Hok) as (vs&f&p'&->&?&He).
    exists p'. split_and!; [done|done|]. destruct (evicted_fit _ _ _ _ Hf He). destruct He as (_&_&_&->). lia.
  - destruct (clear_law p Hw) as (p'&->&?&E). exists p'. rewrite E, msum_empty. split_and!; [done|done|].
    apply costs_fit_nonneg in Hf. lia.
Qed.

Lemma op_costs_nonneg (ops : list (PolicyOp K)) : Forall (λ o, op_ok o = true) ops → 0 ≤ op_costs ops.
Proof.
  induction 1 as [|o ops Ho _ IH]; simpl; [lia|]. destruct o; simpl in *; try apply Z.leb_le in Ho; lia.
Qed.

Lemma policy_run_ok ops p :
  policy_wf p → Forall (λ o, op_ok o = true) ops → msum (tracked p) + op_costs ops < U64 →
  ∃ p', policy_run ops p = Some p' ∧ policy_wf p' ∧ msum (tracked p') ≤ msum (tracked p) + op_costs ops.
Proof.
  intros Hw Hok. revert p Hw. induction Hok as [|o ops Ho Hops IH]; intros p Hw Hlt; simpl in *.
  - exists p. split_and!; [done|done|lia].
  - apply op_costs_nonneg in Hops.
    destruct (policy_step_ok o p Hw Ho) as (p1&->&Hw1&Hle); [lia|]. simpl.
    destruct (IH p1 Hw1) as (p'&->&?&?); [lia|]. exists p'. split_and!; [done|done|lia].
Qed.
End Runs.

(** ** [null.rs]: the policy of unbounded caches *)

Module NullPolicy.
Definition on_admit {K} (_ : K) (_ : Z) (p : unit) : option (AdmissionDecision K * unit) :=
  Some (Admit, p).
Definition evict {K} (_ : Z) (p : unit) : option (list K * Z * unit) := Some ([], 0, p).

#[export] Instance policy K : CachePolicy K unit := {
  on_access _ _ p := Some p;
  uses_access_events _ := false;
  on_admit := NullPolicy.on_admit;
  on_remove _ p := Some p;
  evict := NullPolicy.evict;
  clear p := Some p;
}.
End NullPolicy.

(** ** Popping from the back of a list until enough is freed

    The loop of [Fifo::evict] and, twice, of [SlruState::evict_items]. *)

Section PopUntil.
Context {Index : Type} {A : Type → Type} `{EqDecision Index} `{!Arena Index A}.
Context {K : Type} `{Countable K}.

Fixpoint pop_until (fuel : nat) (cost_to_free : Z) (victims : list K) (freed : Z)
    (l : LruList Index A K) : option (Z * list K * Z * LruList Index A K) :=
  if 0 <? cost_to_free then
    match fuel with
    | O => None
    | S fuel =>
        '(popped, l') ← pop_back l;
        match popped with
        | Some (key, cost) =>
            pop_until fuel (cost_to_free -sat cost) (victims ++ [key]) (freed +w cost) l'
        | None => Some (cost_to_free, victims, freed, l')
        end
    end
  else Some (cost_to_free, victims, freed, l).
End PopUntil.

Section PopUntilProofs.
Context {Index : Type} {A : Type → Type} `{ArenaLaws Index A}.
Context {K : Type} `{Countable K}.
Implicit Types (l : LruList Index A K) (xs : list (K * Z)).

Lemma take_until_sat need c xs : take_until (K:=K) (need -sat c) xs = take_until (need - c) xs.
Proof.
  unfold sat_sub. destruct (Z.le_gt_cases (need - c) 0).
  - rewrite Z.max_l by lia. rewrite (take_until_done 0) by lia.
    by rewrite (take_until_done (need - c)) by lia.
  - by rewrite Z.max_r by lia.
Qed.

Lemma pop_until_spec fuel need vs freed l xs :
  Repr l xs → (length xs < fuel)%nat → 0 ≤ need → 0 ≤ freed → freed + costs xs < U64 →
  let '(V, R) := take_until need (reverse xs) in
  ∃ l', pop_until fuel need vs freed l
        = Some (need -sat costs V, vs ++ V.*1, freed + costs V, l') ∧
    Repr l' (reverse R).
Proof.
  revert need vs freed l xs.
  induction fuel as [|fuel IH]; intros need vs freed l xs HR Hf Hn Hfr Hlt; [lia|].
  destruct xs as [|[k c] xs _] using rev_ind.
  - simpl. destruct (Z.ltb_spec 0 need).
    + rewrite Repr_pop_back_nil by done. simpl. exists l. split; [|done].
      rewrite sat_sub_small, app_nil_r by (simpl; lia). simpl. repeat f_equal; lia.
    + exists l. split; [|done].
      rewrite sat_sub_small, app_nil_r by (simpl; lia). simpl. repeat f_equal; lia.
  - rewrite reverse_snoc. simpl. destruct (Repr_costs _ _ HR) as [Hok _].
    apply costs_ok_snoc in Hok as [Hok Hc].
    apply costs_nonneg in Hok as Hpos. rewrite costs_snoc in Hlt.
    destruct (Z.ltb_spec 0 need).
    + destruct (Z.leb_spec need 0); [lia|].
      destruct (Repr_pop_back l xs k c HR) as (l1&->&HR1). simpl.
      rewrite length_app in Hf. simpl in Hf. rewrite u64_add_small by lia.
      specialize (IH (need -sat c) (vs ++ [k]) (freed + c) l1 xs HR1).
      rewrite take_until_sat in IH. destruct (take_until (need - c) (reverse xs)) as [V R] eqn:E.
      destruct IH as (l2&->&HR2); [lia|u64_lia|lia|lia|].
      assert (costs_ok V) as HV%costs_nonneg.
      { assert (Hperm : V ++ R = reverse xs) by (rewrite <- (take_until_app (need - c)), E; done).
        assert (Hr : costs_ok (reverse xs)) by (unfold costs_ok; by rewrite reverse_Permutation).
        rewrite <- Hperm in Hr. by apply Forall_app in Hr as [? _]. }
      exists l2. split; [|done]. rewrite sat_sub_add by lia.
      by rewrite costs_cons, <- app_assoc, Z.add_assoc.
    + destruct (Z.leb_spec need 0); [|lia].
      exists l. rewrite reverse_cons, reverse_involutive. split; [|done]. rewrite costs_nil, sat_sub_small, app_nil_r by lia. repeat f_equal; lia.
Qed.
End PopUntilProofs.
