(* ===== verification/Lru.v ===== *)
(** * [cache/src/policy/lru.rs]: least recently used

    The policy is one [LruList] under a mutex; each method is one critical
    section.  Its contract is an instance of [PolicyLaws], [EvictsEnough] and
    [ExactCosts]; [evict] is characterised exactly by the shortest run of
    least recently used keys that frees enough. *)

From S2P Require Import Prelude Dll Arena LruList Policy.

Section Code.
Context {Index : Type} {A : Type → Type} `{EqDecision Index} `{!Arena Index A}.
Context {K : Type} `{Countable K}.

(** The policy's state: its list. *)
Definition LruPolicy : Type := LruList Index A K.
Implicit Types p : LruPolicy.

Definition new : LruPolicy := LruList.new.

Definition on_access (k : K) (_ : Z) p : option LruPolicy := move_to_front p k.

Definition on_admit (k : K) (c : Z) p : option (AdmissionDecision K * LruPolicy) :=
  p' ← push_front p k c; Some (Admit, p').

Definition on_remove (k : K) p : option LruPolicy := '(_, p') ← remove p k; Some p'.

Fixpoint evict_loop (fuel : nat) (cost_to_free : Z) (victims : list K)
    (total_cost_freed : Z) p : option (list K * Z * LruPolicy) :=
  if total_cost_freed <? cost_to_free then
    match fuel with
    | O => None
    | S fuel =>
        '(popped, p') ← pop_back p;
        match popped with
        | Some (key, cost) =>
            evict_loop fuel cost_to_free (victims ++ [key]) (total_cost_freed +w cost) p'
        | None => Some (victims, total_cost_freed, p')
        end
    end
  else Some (victims, total_cost_freed, p).

(** One pop per listed key, and one that finds the list empty. *)
Definition evict (cost_to_free : Z) p : option (list K * Z * LruPolicy) :=
  evict_loop (S (size (ll_lookup p))) cost_to_free [] 0 p.

Definition clear p : option LruPolicy := Some (LruList.clear p).

#[global] Instance policy : CachePolicy K LruPolicy := {
  Policy.on_access := on_access;
  Policy.uses_access_events _ := true;
  Policy.on_admit := on_admit;
  Policy.on_remove := on_remove;
  Policy.evict := evict;
  Policy.clear := clear;
}.
End Code.
Arguments LruPolicy : clear implicits.
Arguments LruPolicy Index A K {_ _}.

Section Proofs.
Context {Index : Type} {A : Type → Type} `{ArenaLaws Index A}.
Context {K : Type} `{Countable K}.
Implicit Types (p : LruPolicy Index A K) (xs : list (K * Z)).

Lemma lru_evict_loop_spec fuel need vs freed p xs :
  Repr p xs → (length xs < fuel)%nat → 0 ≤ freed → freed + costs xs < U64 →
  let '(V, R) := take_until (need - freed) (reverse xs) in
  ∃ p', evict_loop fuel need vs freed p = Some (vs ++ V.*1, freed + costs V, p') ∧
    Repr p' (reverse R).
Proof.
  revert vs freed p xs.
  induction fuel as [|fuel IH]; intros vs freed p xs HR Hf Hfr Hlt; [lia|].
  destruct xs as [|[k c] xs _] using rev_ind; simpl.
  - exists p. split; [|done]. rewrite app_nil_r, Z.add_0_r.
    destruct (Z.ltb_spec freed need); [|done]. by rewrite Repr_pop_back_nil.
  - rewrite reverse_snoc. simpl. destruct (Repr_costs _ _ HR) as [Hok _].
    apply costs_ok_snoc in Hok as [Hok Hc]. apply costs_nonneg in Hok as Hpos.
    rewrite costs_snoc in Hlt. rewrite length_app in Hf. simpl in Hf.
    destruct (Z.ltb_spec freed need), (Z.leb_spec (need - freed) 0); try lia.
    + destruct (Repr_pop_back p xs k c HR) as (p1&->&HR1). simpl.
      rewrite u64_add_small by lia. specialize (IH (vs ++ [k]) (freed + c) p1 xs HR1).
      replace (need - (freed + c)) with (need - freed - c) in IH by lia.
      destruct (take_until (need - freed - c) (reverse xs)) as [V R].
      destruct IH as (p2&->&HR2); [lia..|]. exists p2. split; [|done].
      by rewrite costs_cons, <- app_assoc, Z.add_assoc.
    + exists p. rewrite reverse_cons, reverse_involutive. split; [|done].
      by rewrite costs_nil, app_nil_r, Z.add_0_r.
Qed.

Lemma lru_evict_spec p xs need :
  Repr p xs →
  let '(V, R) := take_until need (reverse xs) in
  ∃ p', evict need p = Some (V.*1, costs V, p') ∧ Repr p' (reverse R).
Proof.
  intros HR. unfold evict. destruct HR as (es&Hw&->). rewrite (wf_size _ _ Hw).
  assert (HR : Repr p es.*2) by by exists es.
  destruct (Repr_costs _ _ HR) as [? ?].
  pose proof (lru_evict_loop_spec (S (length es)) need [] 0 p es.*2 HR) as Hl.
  rewrite Z.sub_0_r in Hl. destruct (take_until need (reverse es.*2)) as [V R].
  destruct Hl as (p'&->&?); [rewrite length_fmap; lia|lia|lia|]. eauto.
Qed.

#[global] Instance laws : PolicyLaws K (LruPolicy Index A K).
Proof.
  refine {| policy_wf p := ∃ xs, Repr p xs; tracked p := contents p |}.
  - intros p [xs HR]. rewrite (Repr_contents _ _ HR). by eapply Repr_fit.
  - intros p k c [xs HR] Hfit. rewrite (Repr_contents _ _ HR) in *. simpl. unfold on_access.
    destruct (list_to_map (M:=gmap K Z) xs !! k) as [c0|] eqn:E.
    + apply elem_of_list_to_map_2 in E as Hin.
      destruct (Repr_move_to_front p xs k c0 HR Hin) as (p'&->&HR').
      exists p'. split; [done|]. split; [by eexists|]. left.
      rewrite (Repr_contents _ _ HR'), remove_key_map. by apply insert_id.
    + apply not_elem_of_list_to_map_2 in E. rewrite (Repr_move_to_front_absent p xs) by done.
      exists p. split; [done|]. split; [by eexists|]. left. by apply Repr_contents.
  - intros p k c [xs HR] [Hc Hfit]. rewrite (Repr_contents _ _ HR) in *. simpl.
    unfold on_admit. rewrite msum_remove_key in Hfit by (by eapply Repr_NoDup).
    destruct (Repr_push_front p xs k c HR Hc Hfit) as (p'&->&HR').
    exists Admit, p', c. simpl. rewrite (Repr_contents _ _ HR'), remove_key_map, without_nil.
    split_and!; [done|by eexists|constructor|by intros v ?%elem_of_nil|by left|done].
  - intros p k [xs HR]. rewrite (Repr_contents _ _ HR). simpl. unfold on_remove.
    destruct (Repr_remove p xs k HR) as (p'&->&HR'). exists p'.
    rewrite (Repr_contents _ _ HR'), list_to_map_remove_key. split_and!; [done|by eexists|done].
  - intros p n [xs HR] Hn. rewrite (Repr_contents _ _ HR). simpl.
    pose proof (lru_evict_spec p xs n HR) as Hev. pose proof (take_until_app n (reverse xs)) as Happ.
    destruct (take_until n (reverse xs)) as [V R]. simpl in Happ. destruct Hev as (p'&->&HR').
    exists V.*1, (costs V), p'. rewrite (Repr_contents _ _ HR').
    split_and!; [done|by eexists|]. apply remove_part; [by eapply Repr_NoDup|].
    rewrite (reverse_Permutation R), Happ. symmetry. apply reverse_Permutation.
  - intros p [xs HR]. simpl. eexists. split; [done|]. split; [exists []; by eapply Repr_clear|].
    by rewrite (Repr_contents _ [] (Repr_clear _ _ HR)).
Defined.

#[global] Instance evicts_enough : EvictsEnough K (LruPolicy Index A K).
Proof.
  intros p n vs f p' [xs HR] Hn Hev. simpl in Hev.
  pose proof (lru_evict_spec p xs n HR) as Hs. pose proof (take_until_enough n (reverse xs)) as He.
  destruct (take_until n (reverse xs)) as [V R]. destruct Hs as (p1&Hev'&HR').
  rewrite Hev in Hev'. simplify_eq. simpl in *. rewrite (Repr_contents _ _ HR').
  destruct He as [?| ->]; [by left|by right].
Qed.

#[global] Instance exact_costs : ExactCosts K (LruPolicy Index A K).
Proof.
  intros p k c d p' [xs HR] [Hc Hfit] Hon. simpl in *. unfold on_admit in Hon.
  rewrite (Repr_contents _ _ HR) in *. rewrite msum_remove_key in Hfit by (by eapply Repr_NoDup).
  destruct (Repr_push_front p xs k c HR Hc Hfit) as (p1&Hp&HR'). rewrite Hp in Hon. simplify_eq/=.
  by rewrite (Repr_contents _ _ HR'), remove_key_map, without_nil.
Qed.
End Proofs.

(** on a policy that holds the keys [xs], most recently used first,
    [evict n] names exactly the shortest run of least recently used keys, the
    least recent first, whose costs add up to [n] (or every key), reports the
    sum of their costs, and keeps the others in order. *)
Theorem lru_evicts_least_recent {Index A} `{ArenaLaws Index A} {K} `{Countable K}
    (p : LruPolicy Index A K) (xs : list (K * Z)) (n : Z) :
  Repr p xs →
  ∃ kept victims p',
    xs = kept ++ reverse victims ∧
    evict n p = Some (victims.*1, costs victims, p') ∧ Repr p' kept ∧
    (n ≤ costs victims ∨ kept = []) ∧
    (∀ victims' v, victims = victims' ++ [v] → costs victims' < n).
Proof.
  intros HR. pose proof (lru_evict_spec p xs n HR) as Hs.
  pose proof (take_until_enough n (reverse xs)) as He.
  pose proof (take_until_minimal n (reverse xs)) as Hm.
  pose proof (take_until_app n (reverse xs)) as Ha.
  destruct (take_until n (reverse xs)) as [V R]. destruct Hs as (p'&Hev&HR'). simpl in *.
  exists (reverse R), V, p'. split; [|split; [done|split; [done|split]]].
  - rewrite <- reverse_app, Ha. by rewrite reverse_involutive.
  - destruct He as [?| ->]; [by left|by right].
  - intros V' v ->. by eapply Hm.
Qed.

Lemma lru_evicts_least_recent_witness :
  ∃ p, (p1 ← push_front (new (A:=counter_arena)) 1%nat 4; p2 ← push_front p1 2%nat 3;
        p3 ← push_front p2 3%nat 2; move_to_front p3 1%nat) = Some p ∧
    Repr p [(1%nat, 4); (3%nat, 2); (2%nat, 3)] ∧
    ∃ p', evict 4 p = Some ([2%nat; 3%nat], 5, p') ∧ Repr p' [(1%nat, 4)].
Proof.
  destruct (run_refines (A:=counter_arena)
    [OpPush 1%nat 4; OpPush 2%nat 3; OpPush 3%nat 2; OpMove 1%nat] new []) as (p&Hrun&HR).
  - apply Repr_new.
  - vm_compute. repeat split; discriminate.
  - exists p. split; [|split; [exact HR|]].
    + vm_compute in Hrun. injection Hrun as <-. reflexivity.
    + destruct (lru_evicts_least_recent p _ 4 HR) as (kept&V&p'&Hx&Hev&HR'&_).
      vm_compute in Hrun. injection Hrun as <-.
      vm_compute in Hev. injection Hev as Hv Hc Hp. subst p'.
      eexists. split; [reflexivity|].
      assert (kept = [(1%nat, 4)]) as ->; [|exact HR'].
      destruct V as [|[??] [|[??] [|]]]; try discriminate.
      change (spec_run _ _).2 with [(1%nat, 4); (3%nat, 2); (2%nat, 3)] in Hx.
      apply (f_equal length) in Hx as Hlen. rewrite length_app in Hlen. simpl in Hlen.
      destruct kept as [|x [|]]; simpl in *; try lia. by injection Hx as <- _.
Defined.
