(* ===== verification/Fifo.v ===== *)
(** * [cache/src/policy/fifo.rs]: first in, first out

    Accesses do nothing and a re-insert of a followed key neither moves it nor
    updates its recorded cost, so [Fifo] satisfies [PolicyLaws] and
    [EvictsEnough] but not [ExactCosts]. *)

From S2P Require Import Prelude Dll Arena LruList Policy.

Section Code.
Context {Index : Type} {A : Type → Type} `{EqDecision Index} `{!Arena Index A}.
Context {K : Type} `{Countable K}.

Definition Fifo : Type := LruList Index A K.
Implicit Types p : Fifo.

Definition new : Fifo := LruList.new.

Definition on_access (_ : K) (_ : Z) p : option Fifo := Some p.

Definition on_admit (k : K) (c : Z) p : option (AdmissionDecision K * Fifo) :=
  p' ← (if contains p k then Some p else push_front p k c); Some (Admit, p').

Definition on_remove (k : K) p : option Fifo := '(_, p') ← remove p k; Some p'.

Definition evict (cost_to_free : Z) p : option (list K * Z * Fifo) :=
  '(_, victims, total_cost_freed, p') ← pop_until (S (size (ll_lookup p))) cost_to_free [] 0 p;
  Some (victims, total_cost_freed, p').

Definition clear p : option Fifo := Some (LruList.clear p).

#[global] Instance policy : CachePolicy K Fifo := {
  Policy.on_access := on_access;
  Policy.uses_access_events _ := true;
  Policy.on_admit := on_admit;
  Policy.on_remove := on_remove;
  Policy.evict := evict;
  Policy.clear := clear;
}.
End Code.
Arguments Fifo : clear implicits.
Arguments Fifo Index A K {_ _}.

Section Proofs.
Context {Index : Type} {A : Type → Type} `{ArenaLaws Index A}.
Context {K : Type} `{Countable K}.
Implicit Types (p : Fifo Index A K) (xs : list (K * Z)).

Lemma fifo_evict_spec p xs need :
  Repr p xs → 0 ≤ need →
  let '(V, R) := take_until need (reverse xs) in
  ∃ p', evict need p = Some (V.*1, costs V, p') ∧ Repr p' (reverse R).
Proof.
  intros HR Hn. unfold evict. destruct HR as (es&Hw&->). rewrite (wf_size _ _ Hw).
  assert (HR : Repr p es.*2) by by exists es.
  destruct (Repr_costs _ _ HR) as [? ?].
  pose proof (pop_until_spec (S (length es)) need [] 0 p es.*2 HR) as Hl.
  destruct (take_until need (reverse es.*2)) as [V R].
  destruct Hl as (p'&->&?); [rewrite length_fmap; lia|lia..|]. eauto.
Qed.

Lemma fifo_admit_spec p xs k c :
  Repr p xs → 0 ≤ c → costs (remove_key k xs) + c < U64 →
  ∃ p', on_admit k c p = Some (Admit, p') ∧
    Repr p' (if decide (k ∈ xs.*1) then xs else (k, c) :: xs).
Proof.
  intros HR Hc Hlt. unfold on_admit. rewrite (Repr_contains _ xs) by done.
  case_bool_decide; case_decide; try done; [by exists p|].
  destruct (Repr_push_front p xs k c HR Hc Hlt) as (p'&->&HR').
  rewrite remove_key_notin in HR' by done. by exists p'.
Qed.

#[global] Instance laws : PolicyLaws K (Fifo Index A K).
Proof.
  refine {| policy_wf p := ∃ xs, Repr p xs; tracked p := contents p |}.
  - intros p [xs HR]. rewrite (Repr_contents _ _ HR). by eapply Repr_fit.
  - intros p k c Hwf _. exists p. simpl. auto.
  - intros p k c [xs HR] [Hc Hfit]. rewrite (Repr_contents _ _ HR) in *. simpl.
    rewrite msum_remove_key in Hfit by (by eapply Repr_NoDup).
    destruct (fifo_admit_spec p xs k c HR Hc Hfit) as (p'&Hp&HR').
    rewrite Hp. apply Repr_contents in HR' as HC. destruct (decide (k ∈ xs.*1)) as [Hk|Hk].
    + destruct (elem_of_keys_split k xs Hk) as (c0&xs1&xs2&Hxs).
      assert (E : (list_to_map xs : gmap K Z) !! k = Some c0).
      { apply elem_of_list_to_map_1; [by eapply Repr_NoDup|]. rewrite Hxs. set_solver. }
      exists Admit, p', c0. simpl. rewrite HC, without_nil, insert_id by done.
      split_and!; [done|by eexists|constructor|by intros v ?%elem_of_nil|by right|done].
    + exists Admit, p', c. simpl. rewrite HC, without_nil.
      split_and!; [done|by eexists|constructor|by intros v ?%elem_of_nil|by left|done].
  - intros p k [xs HR]. rewrite (Repr_contents _ _ HR). simpl. unfold on_remove.
    destruct (Repr_remove p xs k HR) as (p'&->&HR'). exists p'.
    rewrite (Repr_contents _ _ HR'), list_to_map_remove_key. split_and!; [done|by eexists|done].
  - intros p n [xs HR] Hn. rewrite (Repr_contents _ _ HR). simpl.
    pose proof (fifo_evict_spec p xs n HR Hn) as Hev. pose proof (take_until_app n (reverse xs)) as Happ.
    destruct (take_until n (reverse xs)) as [V R]. simpl in Happ. destruct Hev as (p'&->&HR').
    exists V.*1, (costs V), p'. rewrite (Repr_contents _ _ HR').
    split_and!; [done|by eexists|]. apply remove_part; [by eapply Repr_NoDup|].
    rewrite (reverse_Permutation R), Happ. symmetry. apply reverse_Permutation.
  - intros p [xs HR]. simpl. eexists. split; [done|]. split; [exists []; by eapply Repr_clear|].
    by rewrite (Repr_contents _ [] (Repr_clear _ _ HR)).
Defined.

#[global] Instance evicts_enough : EvictsEnough K (Fifo Index A K).
Proof.
  intros p n vs f p' [xs HR] Hn Hev. simpl in Hev.
  pose proof (fifo_evict_spec p xs n HR Hn) as Hs.
  pose proof (take_until_enough n (reverse xs)) as He.
  destruct (take_until n (reverse xs)) as [V R]. destruct Hs as (p1&Hev'&HR').
  rewrite Hev in Hev'. simplify_eq. simpl in *. rewrite (Repr_contents _ _ HR').
  destruct He as [?| ->]; [by left|by right].
Qed.

(** A trace of inserts ([inl (k, c)]) and accesses ([inr k]). *)
Fixpoint run_trace (tr : list ((K * Z) + K)) p : option (Fifo Index A K) :=
  match tr with
  | [] => Some p
  | inl (k, c) :: tr => '(_, p') ← on_admit k c p; run_trace tr p'
  | inr k :: tr => p' ← on_access k 0 p; run_trace tr p'
  end.

(** The first inserts of each key, oldest first. *)
Fixpoint first_inserts (seen : list K) (tr : list ((K * Z) + K)) : list (K * Z) :=
  match tr with
  | [] => []
  | inl (k, c) :: tr =>
      if decide (k ∈ seen) then first_inserts seen tr
      else (k, c) :: first_inserts (k :: seen) tr
  | inr _ :: tr => first_inserts seen tr
  end.

Definition trace_costs (tr : list ((K * Z) + K)) : Z :=
  foldr (λ o s, match o with inl (_, c) => c + s | inr _ => s end) 0 tr.

Definition trace_ok (tr : list ((K * Z) + K)) : Prop :=
  Forall (λ o, match o with inl (_, c) => 0 ≤ c | inr _ => True end) tr.

Lemma trace_costs_nonneg tr : trace_ok tr → 0 ≤ trace_costs tr.
Proof. induction 1 as [|[[k c]|k] tr]; simpl; lia. Qed.

Lemma run_trace_spec tr p xs seen :
  Repr p xs → trace_ok tr → costs xs + trace_costs tr < U64 →
  (∀ k, k ∈ seen ↔ k ∈ xs.*1) →
  ∃ p', run_trace tr p = Some p' ∧ Repr p' (reverse (first_inserts seen tr) ++ xs).
Proof.
  revert p xs seen. induction tr as [|[[k c]|k] tr IH]; intros p xs seen HR Hok Hlt Hseen; simpl.
  - by exists p.
  - apply Forall_cons in Hok as [Hc Hok]. apply trace_costs_nonneg in Hok as Hpos.
    destruct (Repr_costs _ _ HR) as [Hoks _]. simpl in Hlt, Hc.
    pose proof (costs_remove_key_le k xs Hoks).
    destruct (fifo_admit_spec p xs k c HR) as (p1&->&HR1); [done|lia|]. simpl.
    destruct (decide (k ∈ seen)) as [Hk|Hk].
    + rewrite decide_True in HR1 by (by apply Hseen). apply IH; [done|done|lia|done].
    + rewrite decide_False in HR1 by (by rewrite <- Hseen).
      rewrite reverse_cons, <- app_assoc. apply (IH p1 ((k, c) :: xs)); [done|done|rewrite costs_cons; lia|].
      intros j. simpl. rewrite !elem_of_cons, Hseen. done.
  - apply Forall_cons in Hok as [_ Hok]. by apply IH.
Qed.

(** whatever accesses and re-inserts are interleaved, [Fifo] keeps its keys
    in the order of their first insert, and [evict n] names the shortest run of
    oldest keys that frees [n] at their first recorded cost. *)
Theorem fifo_evicts_in_insertion_order tr n :
  trace_ok tr → trace_costs tr < U64 → 0 ≤ n →
  ∃ p p', run_trace tr new = Some p ∧
    keys_as_vec p = Some (reverse (first_inserts [] tr)).*1 ∧
    let '(V, R) := take_until n (first_inserts [] tr) in
    evict n p = Some (V.*1, costs V, p') ∧ keys_as_vec p' = Some (reverse R).*1.
Proof.
  intros Hok Hlt Hn.
  destruct (run_trace_spec tr new [] [] Repr_new Hok Hlt) as (p&Hrun&HR); [done|].
  rewrite app_nil_r in HR. pose proof (fifo_evict_spec p _ n HR Hn) as Hev.
  rewrite reverse_involutive in Hev.
  destruct (take_until n (first_inserts [] tr)) as [V R] eqn:E. destruct Hev as (p'&Hev&HR').
  exists p, p'. split; [done|]. split; [by apply Repr_keys_as_vec|].
  split; [done|]. by apply Repr_keys_as_vec.
Qed.
End Proofs.

Lemma fifo_evicts_in_insertion_order_witness :
  ∃ p p', run_trace (A:=counter_arena) [inl (1%nat, 4); inl (2%nat, 3); inr 1%nat; inl (1%nat, 9); inl (3%nat, 2)]
            new = Some p ∧
    keys_as_vec p = Some [3%nat; 2%nat; 1%nat] ∧
    evict 5 p = Some ([1%nat; 2%nat], 7, p') ∧ keys_as_vec p' = Some [3%nat].
Proof.
  destruct (fifo_evicts_in_insertion_order (A:=counter_arena)
    [inl (1%nat, 4); inl (2%nat, 3); inr 1%nat; inl (1%nat, 9); inl (3%nat, 2)] 5)
    as (p&p'&H1&H2&H3&H4).
  - repeat constructor; lia.
  - vm_compute. reflexivity.
  - lia.
  - exists p, p'. split; [exact H1|]. split; [exact H2|]. split; [exact H3|exact H4].
Defined.
