(* ===== verification/Random.v ===== *)
(** * [cache/src/policy/random.rs]: random eviction

    The key to evict comes from [rand]'s [IteratorRandom::choose] over
    [HashMap::keys], neither of which is code of the repository: the iteration
    order and the generator together are the parameter [choose], whose documented
    behaviour ([ChooserLaws]) is to return an element, or nothing when there is
    none.  The generator's state travels with the policy's. *)

From S2P Require Import Prelude Arena LruList Policy.

Class Chooser (G K : Type) `{Countable K} := choose : G → gset K → option K * G.

Class ChooserLaws (G K : Type) `{Chooser G K} := {
  choose_elem g X k g' : choose g X = (Some k, g') → k ∈ X;
  choose_some g X g' : choose g X = (None, g') → X = ∅;
}.

Section Code.
Context {G K : Type} `{Chooser G K}.

Record RandomPolicy := mk_random { items : gmap K Z; rng : G }.
Implicit Types p : RandomPolicy.

Definition new (g : G) : RandomPolicy := mk_random ∅ g.

Definition on_access (_ : K) (_ : Z) p : option RandomPolicy := Some p.

Definition on_admit (key : K) (cost : Z) p : option (AdmissionDecision K * RandomPolicy) :=
  Some (Admit, mk_random (<[key:=cost]> (items p)) (rng p)).

Definition on_remove (key : K) p : option RandomPolicy :=
  Some (mk_random (delete key (items p)) (rng p)).

Fixpoint evict_loop (fuel : nat) (cost_to_free : Z) (victims : list K) (total_cost_freed : Z) p
    : option (list K * Z * RandomPolicy) :=
  if (0 <? cost_to_free) && negb (bool_decide (items p = ∅)) then
    match fuel with
    | O => None
    | S fuel =>
        let '(chosen, g) := choose (rng p) (dom (items p)) in
        match chosen with
        | None => Some (victims, total_cost_freed, mk_random (items p) g)
        | Some key_to_evict =>
            match items p !! key_to_evict with
            | Some cost =>
                evict_loop fuel (cost_to_free -sat cost) (victims ++ [key_to_evict])
                  (total_cost_freed +w cost) (mk_random (delete key_to_evict (items p)) g)
            | None => evict_loop fuel cost_to_free victims total_cost_freed (mk_random (items p) g)
            end
        end
    end
  else Some (victims, total_cost_freed, p).

Definition evict (cost_to_free : Z) p : option (list K * Z * RandomPolicy) :=
  evict_loop (S (size (items p))) cost_to_free [] 0 p.

Definition clear p : option RandomPolicy := Some (mk_random ∅ (rng p)).

#[global] Instance policy : CachePolicy K RandomPolicy := {
  Policy.on_access := on_access;
  Policy.uses_access_events _ := true;
  Policy.on_admit := on_admit;
  Policy.on_remove := on_remove;
  Policy.evict := evict;
  Policy.clear := clear;
}.
End Code.
Arguments RandomPolicy G K {_ _}.

Section Proofs.
Context {G K : Type} `{ChooserLaws G K}.
Implicit Types (p : RandomPolicy G K) (m : gmap K Z).

(** The loop ends within one turn per key, naming distinct keys it followed, and
    stops early only when enough was freed. *)
Lemma random_evict_loop_spec fuel m need n vs f p :
  costs_fit m → evicted m vs f (items p) → need = n -sat f → 0 ≤ n →
  (size (items p) < fuel)%nat →
  ∃ vs' f' p', evict_loop fuel need vs f p = Some (vs', f', p') ∧
    evicted m vs' f' (items p') ∧ (n ≤ f' ∨ items p' = ∅).
Proof.
  revert need vs f p. induction fuel as [|fuel IH]; intros need vs f p Hfit Hev Hneed Hn Hsz; [lia|].
  simpl. destruct (Z.ltb_spec 0 need); simpl.
  2:{ exists vs, f, p. split_and!; [done..|]. left. unfold sat_sub in Hneed. lia. }
  case_bool_decide as Hem; simpl.
  { exists vs, f, p. auto. }
  destruct (choose (rng p) (dom (items p))) as [[k|] g] eqn:Ech.
  2:{ apply choose_some in Ech. apply dom_empty_inv_L in Ech. done. }
  apply choose_elem, elem_of_dom in Ech as [c Hk]. rewrite Hk.
  destruct (evicted_step _ _ _ _ _ _ Hfit Hev Hk) as (E&Hc&Hev').
  destruct (evicted_fit _ _ _ _ Hfit Hev) as [_ ?].
  apply IH; [done|done|rewrite E, <- sat_sub_add by lia; by rewrite <- Hneed|done|].
  simpl. rewrite (map_size_delete_S _ _ _ Hk) in Hsz. lia.
Qed.

Lemma random_evict_spec p n :
  costs_fit (items p) → 0 ≤ n →
  ∃ vs f p', evict n p = Some (vs, f, p') ∧ evicted (items p) vs f (items p') ∧
    (n ≤ f ∨ items p' = ∅).
Proof.
  intros. apply (random_evict_loop_spec _ _ _ n); [done|apply evicted_nil|u64_lia|done|lia].
Qed.

#[global] Instance laws : PolicyLaws K (RandomPolicy G K).
Proof.
  refine {| policy_wf p := costs_fit (items p); tracked p := items p |}; simpl.
  - intros p Hwf. exact Hwf.
  - intros p k c Hwf _. exists p. auto.
  - intros p k c Hwf Hfit. eexists _, _, c. split; [done|].
    split; [by apply costs_fit_insert|]. by apply admit_plain; [left|].
  - intros p k Hwf. eexists. split_and!; [done|by apply costs_fit_delete|done].
  - intros p n Hwf Hn. destruct (random_evict_spec p n Hwf Hn) as (vs&f&p'&?&He&?).
    exists vs, f, p'. split_and!; [done| |done]. by eapply evicted_fit.
  - intros p Hwf. eexists. split_and!; [done|apply costs_fit_empty|done].
Defined.

#[global] Instance evicts_enough : EvictsEnough K (RandomPolicy G K).
Proof.
  intros p n vs f p' Hwf Hn Hev. destruct (random_evict_spec p n Hwf Hn) as (vs'&f'&p''&Hev'&?&?).
  simpl in *. by simplify_eq.
Qed.

#[global] Instance exact_costs : ExactCosts K (RandomPolicy G K).
Proof. intros p k c d p' Hwf Hfit Had. unfold Policy.on_admit in Had; simpl in Had; unfold on_admit in Had. simplify_eq/=. by rewrite without_nil. Qed.
End Proofs.
