(* ===== verification/Sieve.v ===== *)
(** * [cache/src/policy/sieve.rs]: the SIEVE policy

    [SieveState] splits the queue over a deque of keys ([order], newest first) and
    a hash map of costs and flags ([items]); [hand] counts positions from the
    oldest end.  [sieve_ref] is the algorithm on one list of entries, oldest
    first; the code refines it. *)

From S2P Require Import Prelude Arena LruList Policy.

Record SieveEntry := mk_se { se_cost : Z; se_visited : bool }.

Section Code.
Context {K : Type} `{Countable K}.

Record SieveState := mk_sieve { order : list K; items : gmap K SieveEntry; hand : nat }.
Implicit Types s : SieveState.

Definition new : SieveState := mk_sieve [] ∅ 0.

Definition on_access (key : K) (_ : Z) s : option SieveState :=
  Some (mk_sieve (order s) (alter (λ e, mk_se (se_cost e) true) key (items s)) (hand s)).

Definition on_admit (key : K) (cost : Z) s : option (AdmissionDecision K * SieveState) :=
  let order1 := if decide (is_Some (items s !! key)) then filter (λ k, k ≠ key) (order s) else order s in
  Some (Admit, mk_sieve (key :: order1) (<[key:=mk_se cost false]> (items s)) (hand s)).

Definition on_remove (key : K) s : option SieveState :=
  let items1 := delete key (items s) in
  let order1 := filter (λ k, k ≠ key) (order s) in
  Some (mk_sieve order1 items1 (if (length order1 <=? hand s)%nat then O else hand s)).

(** The inner [while]: walk from the hand towards the newest entry, clearing
    flags, up to the first entry that is not visited. *)
Fixpoint sweep (fuel : nat) s : option (option (K * Z) * SieveState) :=
  if (hand s <? length (order s))%nat then
    match fuel with
    | O => None
    | S fuel =>
        let index := (length (order s) - 1 - hand s)%nat in
        key ← order s !! index;
        let visited := match items s !! key with Some e => se_visited e | None => false end in
        if negb visited then
          e ← items s !! key;
          Some (Some (key, se_cost e), mk_sieve (delete index (order s)) (delete key (items s)) (hand s))
        else
          e ← items s !! key;
          sweep fuel (mk_sieve (order s) (<[key:=mk_se (se_cost e) false]> (items s)) (S (hand s)))
    end
  else Some (None, s).

Fixpoint evict_loop (fuel : nat) (cost_to_free : Z) (victims : list K) (total_cost_freed : Z) s
    : option (list K * Z * SieveState) :=
  if (0 <? cost_to_free) && negb (bool_decide (order s = [])) then
    match fuel with
    | O => None
    | S fuel =>
        '(found, s1) ← sweep (S (length (order s))) s;
        match found with
        | Some (key, cost) =>
            evict_loop fuel (cost_to_free -sat cost) (victims ++ [key]) (total_cost_freed +w cost) s1
        | None =>
            let s2 := mk_sieve (order s1) (items s1) 0 in
            if (0 <? cost_to_free) && negb (bool_decide (order s2 = [])) then
              let lru_index := (length (order s2) - 1)%nat in
              key ← order s2 !! lru_index;
              e ← items s2 !! key;
              evict_loop fuel (cost_to_free -sat se_cost e) (victims ++ [key])
                (total_cost_freed +w se_cost e)
                (mk_sieve (delete lru_index (order s2)) (delete key (items s2)) 0)
            else evict_loop fuel cost_to_free victims total_cost_freed s2
        end
    end
  else Some (victims, total_cost_freed, s).

Definition evict (cost_to_free : Z) s : option (list K * Z * SieveState) :=
  evict_loop (S (length (order s))) cost_to_free [] 0 s.

Definition clear (_ : SieveState) : option SieveState := Some (mk_sieve [] ∅ 0).

#[global] Instance policy : CachePolicy K SieveState := {
  Policy.on_access := on_access;
  Policy.uses_access_events _ := true;
  Policy.on_admit := on_admit;
  Policy.on_remove := on_remove;
  Policy.evict := evict;
  Policy.clear := clear;
}.

(** ** The reference algorithm *)

Definition unvisit (x : K * SieveEntry) : K * SieveEntry := (x.1, mk_se (se_cost x.2) false).

Fixpoint span_visited (xs : list (K * SieveEntry)) : list (K * SieveEntry) * list (K * SieveEntry) :=
  match xs with
  | [] => ([], [])
  | x :: xs' =>
      if se_visited x.2 then let '(vis, rest) := span_visited xs' in (x :: vis, rest) else ([], xs)
  end.

(** One victim from the queue [xs] (oldest first) with the hand after the first
    [h] entries: the first entry not visited at or past the hand, which moves up
    to it; when there is none, the oldest entry, the hand back at the start. *)
Definition sieve_ref (xs : list (K * SieveEntry)) (h : nat)
    : option ((K * Z) * list (K * SieveEntry) * nat) :=
  let '(vis, rest) := span_visited (drop h xs) in
  let passed := take h xs ++ (unvisit <$> vis) in
  match rest with
  | (k, e) :: rest' => Some ((k, se_cost e), passed ++ rest', length passed)
  | [] => match passed with
          | (k, e) :: passed' => Some ((k, se_cost e), passed', O)
          | [] => None
          end
  end.

Fixpoint sieve_evict_ref (fuel : nat) (n : Z) (xs : list (K * SieveEntry)) (h : nat)
    : list (K * Z) * list (K * SieveEntry) * nat :=
  match fuel with
  | O => ([], xs, h)
  | S fuel =>
      if 0 <? n then
        match sieve_ref xs h with
        | Some ((k, c), xs', h') =>
            let '(vs, ys, h'') := sieve_evict_ref fuel (n - c) xs' h' in ((k, c) :: vs, ys, h'')
        | None => ([], xs, h)
        end
      else ([], xs, h)
  end.
End Code.
Arguments SieveState K {_ _}.

Section Proofs.
Context {K : Type} `{Countable K}.
Implicit Types (s : SieveState K) (xs : list (K * SieveEntry)) (k : K).

Definition tracked_costs s : gmap K Z := se_cost <$> items s.

(** [s] holds the queue [xs], oldest first. *)
Definition view s xs : Prop :=
  order s = reverse xs.*1 ∧ items s = list_to_map xs ∧ NoDup xs.*1.

(** The invariant: the deque lists the keys of the map once each, the hand is
    within the deque, the recorded costs add up to a [u64]. *)
Record wf s : Prop := {
  wf_nodup : NoDup (order s);
  wf_keys k : k ∈ order s ↔ is_Some (items s !! k);
  wf_hand : (hand s ≤ length (order s))%nat;
  wf_costs : costs_fit (tracked_costs s);
}.

Lemma view_at s es k e fs :
  view s (es ++ (k, e) :: fs) →
  order s !! length fs = Some k ∧ items s !! k = Some e ∧
  delete (length fs) (order s) = reverse (es ++ fs).*1 ∧
  delete k (items s) = list_to_map (es ++ fs) ∧
  length (order s) = (length es + S (length fs))%nat.
Proof.
  intros (Ho&Hi&Hnd). rewrite Ho, Hi, !fmap_app, fmap_cons, reverse_app, reverse_cons, <- app_assoc. simpl.
  assert (Hl : length (reverse fs.*1) = length fs) by (by rewrite length_reverse, length_fmap).
  split_and!.
  - by rewrite list_lookup_middle by done.
  - by apply lookup_middle.
  - rewrite <- Hl, delete_middle, reverse_app. done.
  - by apply (delete_middle_map es fs k e).
  - rewrite !length_app, Hl. simpl. rewrite length_reverse, length_fmap. lia.
Qed.

Lemma sieve_view_length s xs : view s xs → length (order s) = length xs.
Proof. intros (->&_&_). by rewrite length_reverse, length_fmap. Qed.

Lemma view_unvisit s es k e fs h :
  view s (es ++ (k, e) :: fs) →
  view (mk_sieve (order s) (<[k:=mk_se (se_cost e) false]> (items s)) h)
    ((es ++ [unvisit (k, e)]) ++ fs).
Proof.
  intros (Ho&Hi&Hnd). rewrite <- app_assoc. simpl. split_and!; simpl.
  - by rewrite Ho, !fmap_app, !fmap_cons.
  - rewrite Hi. by apply (insert_middle_map es fs k e).
  - by apply (NoDup_replace _ _ _ e).
Qed.

Lemma sieve_sweep_spec fuel s es fs :
  view s (es ++ fs) → hand s = length es → (length fs < fuel)%nat →
  let '(vis, rest) := span_visited fs in
  let passed := es ++ (unvisit <$> vis) in
  match rest with
  | (k, e) :: rest' =>
      ∃ s', sweep fuel s = Some (Some (k, se_cost e), s') ∧
        view s' (passed ++ rest') ∧ hand s' = length passed
  | [] => ∃ s', sweep fuel s = Some (None, s') ∧ view s' passed
  end.
Proof.
  revert s es fs. induction fuel as [|fuel IH]; intros s es fs Hv Hh Hf; [lia|].
  apply sieve_view_length in Hv as Hlen. rewrite length_app in Hlen.
  destruct fs as [|[k e] fs]; simpl in *.
  - destruct (Nat.ltb_spec (hand s) (length (order s))); [lia|]. by exists s.
  - destruct (Nat.ltb_spec (hand s) (length (order s))); [|lia].
    destruct (view_at _ _ _ _ _ Hv) as (Hat&Hit&Hdo&Hdi&_).
    replace (length (order s) - 1 - hand s)%nat with (length fs) by lia.
    rewrite Hat. simpl. rewrite Hit. destruct (se_visited e) eqn:Evis; simpl.
    + specialize (IH _ (es ++ [unvisit (k, e)]) fs (view_unvisit s es k e fs (S (hand s)) Hv)).
      destruct (span_visited fs) as [vis rest]. simpl in IH. rewrite length_app in IH. simpl in IH.
      rewrite <- app_assoc in IH. apply IH; lia.
    + eexists. split; [done|]. rewrite app_nil_r. split; [|done].
      split_and!; [done|done|]. destruct Hv as (_&_&Hnd). by eapply NoDup_middle.
Qed.

Lemma span_visited_app xs : (span_visited xs).1 ++ (span_visited xs).2 = xs.
Proof.
  induction xs as [|x fs IH]; simpl; [done|]. destruct (se_visited x.2); [|done].
  destruct (span_visited fs). simpl in *. by rewrite IH.
Qed.

(** The recorded costs of a queue; clearing flags does not change them. *)
Definition cost_of (x : K * SieveEntry) : K * Z := (x.1, se_cost x.2).

Lemma cost_of_unvisit xs : cost_of <$> (unvisit <$> xs) = cost_of <$> xs.
Proof. rewrite <- list_fmap_compose. by apply list_fmap_ext. Qed.

Lemma cost_of_keys xs : (cost_of <$> xs).*1 = xs.*1.
Proof. rewrite <- list_fmap_compose. by apply list_fmap_ext. Qed.

Lemma sieve_tracked_view s xs : view s xs → tracked_costs s = list_to_map (cost_of <$> xs).
Proof. intros (_&Hi&_). unfold tracked_costs. rewrite Hi. by rewrite <- list_to_map_fmap. Qed.

(** What one victim of the reference is. *)
Lemma sieve_ref_spec xs h :
  xs ≠ [] →
  ∃ k c xs' h', sieve_ref xs h = Some ((k, c), xs', h') ∧ (h' ≤ length xs')%nat ∧
    ∃ es fs, cost_of <$> xs = es ++ (k, c) :: fs ∧ cost_of <$> xs' = es ++ fs.
Proof.
  intros Hne. unfold sieve_ref. pose proof (span_visited_app (drop h xs)) as Happ.
  pose proof (take_drop h xs) as Htd. destruct (span_visited (drop h xs)) as [vis [|[k e] rest]]; simpl in *.
  - rewrite app_nil_r in Happ. subst vis.
    assert (Hc : cost_of <$> (take h xs ++ (unvisit <$> drop h xs)) = cost_of <$> xs)
      by (by rewrite fmap_app, cost_of_unvisit, <- fmap_app, Htd).
    destruct (take h xs ++ (unvisit <$> drop h xs)) as [|[k e] l].
    { by destruct xs. }
    exists k, (se_cost e), l, O. split; [done|]. split; [lia|].
    exists [], (cost_of <$> l). by rewrite <- Hc.
  - exists k, (se_cost e). eexists _, _. split; [done|]. split; [rewrite !length_app; lia|].
    exists (cost_of <$> (take h xs ++ vis)), (cost_of <$> rest). split.
    + by rewrite <- Htd at 1; rewrite <- Happ, app_assoc, fmap_app.
    + by rewrite !fmap_app, cost_of_unvisit.
Qed.

Lemma sieve_ref_evicts xs h k c xs' h' :
  NoDup xs.*1 → sieve_ref xs h = Some ((k, c), xs', h') →
  (list_to_map (cost_of <$> xs) : gmap K Z) !! k = Some c ∧
  delete k (list_to_map (cost_of <$> xs) : gmap K Z) = list_to_map (cost_of <$> xs') ∧
  length xs = S (length xs').
Proof.
  intros Hnd Href. assert (Hne : xs ≠ []) by (intros ->; unfold sieve_ref in Href; rewrite drop_nil, take_nil in Href; done).
  destruct (sieve_ref_spec xs h Hne) as (k0&c0&xs0&h0&Href0&_&es&fs&E&E').
  rewrite Href in Href0. simplify_eq. rewrite <- cost_of_keys, E in Hnd. rewrite E, E'. split_and!.
  - by apply lookup_middle.
  - by apply delete_middle_map.
  - rewrite <- (length_fmap cost_of xs), <- (length_fmap cost_of xs0), E, E'.
    rewrite !length_app. simpl. lia.
Qed.

(** One turn of the outer loop takes the victim of the reference. *)
Lemma sieve_evict_turn fuel need vs f s xs :
  view s xs → (hand s ≤ length xs)%nat → 0 < need → xs ≠ [] →
  ∃ k c s' xs', sieve_ref xs (hand s) = Some ((k, c), xs', hand s') ∧ view s' xs' ∧
    evict_loop (S fuel) need vs f s = evict_loop fuel (need -sat c) (vs ++ [k]) (f +w c) s'.
Proof.
  intros Hv Hh Hn Hne. apply sieve_view_length in Hv as Hlen.
  assert (Hv2 := Hv). rewrite <- (take_drop (hand s) xs) in Hv2.
  assert (Hl : hand s = length (take (hand s) xs)) by (rewrite length_take; lia).
  pose proof (sieve_sweep_spec (S (length (order s))) s _ _ Hv2 Hl) as Hsw.
  rewrite length_drop in Hsw. specialize (Hsw ltac:(lia)).
  unfold sieve_ref. simpl. destruct (Z.ltb_spec 0 need); [|lia].
  assert (Ho : order s ≠ []) by (by destruct (order s), xs).
  rewrite bool_decide_false by done. simpl.
  destruct (span_visited (drop (hand s) xs)) as [vis [|[k e] rest]] eqn:Esp.
  - destruct Hsw as (s1&E1&Hv1). simpl in E1. rewrite E1. simpl.
    assert (Hne1 : order s1 ≠ []).
    { apply sieve_view_length in Hv1. pose proof (span_visited_app (drop (hand s) xs)) as Ha. rewrite Esp in Ha.
      simpl in Ha. rewrite app_nil_r in Ha. subst vis.
      rewrite length_app, length_fmap, length_take, length_drop in Hv1.
      destruct xs; [done|]. destruct (order s1); [|done]. simpl in *. lia. }
    rewrite bool_decide_false by done. simpl.
    destruct (take (hand s) xs ++ (unvisit <$> vis)) as [|[k e] l] eqn:El.
    { destruct Hv1 as (Hv1&_&_). by rewrite Hv1 in Hne1. }
    pose proof (view_at s1 [] k e l Hv1) as (Hat&Hit&Hdo&Hdi&Hl1). simpl in Hl1.
    rewrite Hl1. simpl. rewrite Nat.sub_0_r, Hat. simpl. rewrite Hit. simpl.
    exists k, (se_cost e). eexists (mk_sieve _ _ 0), l. split; [done|]. split; [|done].
    split_and!; [done|done|]. destruct Hv1 as (_&_&Hnd). by apply (NoDup_middle [] l k e).
  - destruct Hsw as (s1&E1&Hv1&Hh1). simpl in E1. rewrite E1. simpl.
    exists k, (se_cost e), s1. eexists. split; [|split; [exact Hv1|done]]. by rewrite Hh1.
Qed.

Lemma sieve_evict_loop_spec fuel m need n vs f s xs :
  view s xs → (hand s ≤ length xs)%nat → costs_fit m → evicted m vs f (tracked_costs s) →
  need = n -sat f → 0 ≤ n → (length xs < fuel)%nat →
  ∃ s' V xs', sieve_evict_ref fuel (n - f) xs (hand s) = (V, xs', hand s') ∧
    evict_loop fuel need vs f s = Some (vs ++ V.*1, f + costs V, s') ∧
    view s' xs' ∧ (hand s' ≤ length xs')%nat ∧
    evicted m (vs ++ V.*1) (f + costs V) (tracked_costs s') ∧
    (n ≤ f + costs V ∨ xs' = []).
Proof.
  revert need vs f s xs.
  induction fuel as [|fuel IH]; intros need vs f s xs Hv Hh Hfit Hev Hneed Hn Hf; [lia|].
  destruct (decide (0 < need ∧ xs ≠ [])) as [[Hpos Hne]|Hstop].
  - destruct (sieve_evict_turn fuel need vs f s xs Hv Hh Hpos Hne) as (k&c&s1&xs1&Href&Hv1&Hturn).
    rewrite Hturn. cbn [sieve_evict_ref]. unfold sat_sub in Hneed.
    destruct (Z.ltb_spec 0 (n - f)); [|lia]. rewrite Href.
    destruct Hv as (Ho&Hi&Hnd). destruct (sieve_ref_evicts _ _ _ _ _ _ Hnd Href) as (Hk&Hd&Hl).
    rewrite <- (sieve_tracked_view s xs) in Hk, Hd by done. rewrite <- (sieve_tracked_view s1 xs1 Hv1) in Hd.
    destruct (evicted_step _ _ _ _ _ _ Hfit Hev Hk) as (E&Hc&Hev1). rewrite Hd in Hev1.
    destruct (sieve_ref_spec xs (hand s) Hne) as (k2&c2&xs2&h2&Href2&Hle&_).
    rewrite Href in Href2. simplify_eq.
    destruct (IH (Z.max 0 (n - f) -sat c2) (vs ++ [k2]) (f +w c2) s1 xs2) as (s'&V&xs'&HV&HL&?&?&He&?);
      [done|done|done|done|rewrite E; u64_lia|done|lia|].
    rewrite E, Z.sub_add_distr in HV. rewrite HV. exists s', ((k2, c2) :: V), xs'.
    rewrite HL, E, costs_cons, Z.add_assoc. simpl. rewrite E, <- app_assoc in *. done.
  - assert (HE : evict_loop (S fuel) need vs f s = Some (vs, f, s)).
    { simpl. destruct (Z.ltb_spec 0 need); simpl; [|done].
      assert (xs = []) as -> by (destruct xs; [done|]; exfalso; apply Hstop; split; [lia|done]).
      destruct Hv as (->&_&_). done. }
    assert (HR : sieve_evict_ref (S fuel) (n - f) xs (hand s) = ([], xs, hand s)).
    { simpl. destruct (Z.ltb_spec 0 (n - f)); [|done]. unfold sat_sub in Hneed.
      assert (xs = []) as -> by (destruct xs; [done|]; exfalso; apply Hstop; split; [lia|done]).
      unfold sieve_ref. by rewrite drop_nil, take_nil. }
    exists s, [], xs. simpl fmap. rewrite HE, HR, costs_nil, app_nil_r, Z.add_0_r.
    split_and!; try done. unfold sat_sub in Hneed. destruct (decide (xs = [])); [by right|left].
    destruct (decide (0 < need)); [tauto|lia].
Qed.
Lemma sieve_wf_view s : wf s → ∃ xs, view s xs.
Proof.
  intros [Hnd Hk _ _]. destruct (keyed_list (order s) (items s) Hnd Hk) as (es&He&Hm).
  exists (reverse es). split_and!.
  - by rewrite fmap_reverse, reverse_involutive, He.
  - rewrite <- Hm. apply list_to_map_proper; [by rewrite He|]. symmetry. apply reverse_Permutation.
  - by rewrite fmap_reverse, reverse_Permutation, He.
Qed.

Lemma sieve_view_wf s xs :
  view s xs → (hand s ≤ length xs)%nat → costs_fit (tracked_costs s) → wf s.
Proof.
  intros Hv Hh Hc. pose proof (sieve_view_length _ _ Hv) as Hl. destruct Hv as (Ho&Hi&Hnd). split.
  - by rewrite Ho, reverse_Permutation.
  - intros k. by rewrite Ho, Hi, elem_of_reverse, keyed_list_lookup.
  - lia.
  - done.
Qed.

Lemma sieve_evict_refines s n :
  wf s → 0 ≤ n →
  ∃ s' xs V xs', view s xs ∧
    sieve_evict_ref (S (length xs)) n xs (hand s) = (V, xs', hand s') ∧
    evict n s = Some (V.*1, costs V, s') ∧ view s' xs' ∧ wf s' ∧
    evicted (tracked_costs s) V.*1 (costs V) (tracked_costs s') ∧
    (n ≤ costs V ∨ xs' = []).
Proof.
  intros Hw Hn. destruct (sieve_wf_view s Hw) as [xs Hv]. pose proof (sieve_view_length _ _ Hv) as Hl.
  destruct Hw as [_ _ Hh Hc]. unfold evict. rewrite Hl in *.
  destruct (sieve_evict_loop_spec (S (length xs)) (tracked_costs s) n n [] 0 s xs)
    as (s'&V&xs'&HR&HE&Hv'&Hh'&Hev&?); [done|done|done|apply evicted_nil|u64_lia|done|lia|].
  rewrite Z.sub_0_r in HR. simpl in *. exists s', xs, V, xs'.
  split_and!; [done|done|done|done| |done|done].
  apply (sieve_view_wf s' xs'); [done|done|]. by eapply evicted_fit.
Qed.

Lemma sieve_tracked_access k s :
  tracked_costs (mk_sieve (order s) (alter (λ e, mk_se (se_cost e) true) k (items s)) (hand s))
  = tracked_costs s.
Proof.
  unfold tracked_costs. simpl. apply map_eq. intros j. rewrite !lookup_fmap.
  destruct (decide (j = k)) as [->|]; [|by rewrite lookup_alter_ne].
  rewrite lookup_alter_eq. by destruct (items s !! k).
Qed.

#[global] Instance laws : PolicyLaws K (SieveState K).
Proof.
  refine {| policy_wf s := wf s; tracked s := tracked_costs s |}; simpl.
  - by intros s [_ _ _ ?].
  - intros s k c [Hnd Hk Hh Hc] _. eexists. split; [done|]. split; [|left; apply sieve_tracked_access].
    split; [done| |done|by rewrite sieve_tracked_access].
    intros j. simpl. by rewrite Hk, lookup_alter_is_Some.
  - intros s k c [Hnd Hk Hh Hc] Hfit. eexists _, _, c. split; [done|].
    assert (Ht : ∀ o h, tracked_costs (mk_sieve o (<[k:=mk_se c false]> (items s)) h) = <[k:=c]> (tracked_costs s))
      by (intros; unfold tracked_costs; simpl; by rewrite fmap_insert).
    split; [|apply admit_plain; [by left|apply Ht]].
    assert (Ho : (if decide (is_Some (items s !! k)) then filter (λ k0, k0 ≠ k) (order s) else order s)
      = filter (λ k0, k0 ≠ k) (order s)).
    { case_decide as Hd; [done|]. symmetry. apply filter_notin. by rewrite Hk. }
    rewrite Ho. split; simpl.
    + apply NoDup_cons. split; [by intros [? _]%list_elem_of_filter|by apply NoDup_filter].
    + intros j. rewrite elem_of_cons, list_elem_of_filter, lookup_insert_is_Some, Hk. naive_solver.
    + pose proof (length_filter_key k _ Hnd). lia.
    + rewrite Ht. by apply costs_fit_insert.
  - intros s k [Hnd Hk Hh Hc]. eexists. split; [done|].
    assert (Ht : ∀ o h, tracked_costs (mk_sieve o (delete k (items s)) h) = delete k (tracked_costs s))
      by (intros; unfold tracked_costs; simpl; by rewrite fmap_delete).
    split; [|apply Ht]. split; simpl.
    + by apply NoDup_filter.
    + intros j. rewrite list_elem_of_filter, lookup_delete_is_Some, Hk. naive_solver.
    + destruct (Nat.leb_spec (length (filter (λ k0, k0 ≠ k) (order s))) (hand s)); lia.
    + rewrite Ht. by apply costs_fit_delete.
  - intros s n Hw Hn. destruct (sieve_evict_refines s n Hw Hn) as (s'&xs&V&xs'&?&?&?&?&?&?&?).
    by exists V.*1, (costs V), s'.
  - intros s _. eexists. split; [done|]. split; [|done].
    split; simpl; [constructor|intros j; rewrite lookup_empty; set_solver|lia|apply costs_fit_empty].
Defined.

#[global] Instance evicts_enough : EvictsEnough K (SieveState K).
Proof.
  intros s n vs f s1 Hw Hn Hev. destruct (sieve_evict_refines s n Hw Hn) as (s'&xs&V&xs'&?&?&Hev'&Hv'&?&?&Hen).
  simpl in *. rewrite Hev in Hev'. simplify_eq. destruct Hen as [?| ->]; [by left|right].
  by rewrite (sieve_tracked_view _ _ Hv').
Qed.

#[global] Instance exact_costs : ExactCosts K (SieveState K).
Proof.
  intros s k c d s' _ _ Had. unfold Policy.on_admit in Had; simpl in Had; unfold on_admit in Had.
  simplify_eq/=. rewrite without_nil. unfold tracked_costs. simpl. by rewrite fmap_insert.
Qed.

End Proofs.


