(* ===== verification/Clock.v ===== *)
(** * [cache/src/policy/clock.rs]: the Clock policy

    [ClockState] keeps the ring as a vector of keys with an index ([hand]) and the
    costs and reference bits in a hash map.  [second_chance] is the textbook queue:
    a referenced head goes to the back with its bit cleared, an unreferenced head
    is the victim.  The code refines it; re-admitting a followed key changes
    nothing, so [ExactCosts] does not hold. *)

From S2P Require Import Prelude Arena LruList Policy.

Record ClockEntry := mk_ce { ce_cost : Z; ce_referenced : bool }.

Section Code.
Context {K : Type} `{Countable K}.

Record ClockState := mk_clock { items : gmap K ClockEntry; order : list K; hand : nat }.
Implicit Types s : ClockState.

Definition new : ClockState := mk_clock ∅ [] 0.

Definition on_access (key : K) (_ : Z) s : option ClockState :=
  Some (mk_clock (alter (λ e, mk_ce (ce_cost e) true) key (items s)) (order s) (hand s)).

Definition on_admit (key : K) (cost : Z) s : option (AdmissionDecision K * ClockState) :=
  Some (Admit,
    match items s !! key with
    | Some _ => s
    | None => mk_clock (<[key:=mk_ce cost false]> (items s)) (order s ++ [key]) (hand s)
    end).

Definition on_remove (key : K) s : option ClockState :=
  Some match items s !! key with
       | None => s
       | Some _ =>
           let items1 := delete key (items s) in
           match list_find (λ k, k = key) (order s) with
           | Some (pos, _) =>
               mk_clock items1 (delete pos (order s))
                 (if ((pos <=? hand s) && (0 <? hand s))%nat then (hand s - 1)%nat else hand s)
           | None => mk_clock items1 (order s) (hand s)
           end
       end.

(** The inner [while], [turns] turns before [swept] reaches its bound. *)
Fixpoint sweep (turns : nat) s : option (option (K * Z) * ClockState) :=
  match turns with
  | O => Some (None, s)
  | S turns =>
      let hand1 := if (length (order s) <=? hand s)%nat then O else hand s in
      key ← order s !! hand1;
      let referenced := match items s !! key with Some e => ce_referenced e | None => false end in
      if referenced then
        e ← items s !! key;
        sweep turns (mk_clock (<[key:=mk_ce (ce_cost e) false]> (items s)) (order s) (S hand1))
      else
        e ← items s !! key;
        Some (Some (key, ce_cost e), mk_clock (delete key (items s)) (delete hand1 (order s)) hand1)
  end.

Fixpoint evict_loop (fuel : nat) (cost_to_free : Z) (victims : list K) (total_cost_freed : Z) s
    : option (list K * Z * ClockState) :=
  if (0 <? cost_to_free) && negb (bool_decide (order s = [])) then
    match fuel with
    | O => None
    | S fuel =>
        '(found, s1) ← sweep (length (order s) * 2) s;
        match found with
        | Some (key, cost) =>
            evict_loop fuel (cost_to_free -sat cost) (victims ++ [key]) (total_cost_freed +w cost) s1
        | None => evict_loop fuel cost_to_free victims total_cost_freed s1
        end
    end
  else Some (victims, total_cost_freed, s).

Definition evict (cost_to_free : Z) s : option (list K * Z * ClockState) :=
  evict_loop (S (length (order s))) cost_to_free [] 0 s.

Definition clear (_ : ClockState) : option ClockState := Some (mk_clock ∅ [] 0).

#[global] Instance policy : CachePolicy K ClockState := {
  Policy.on_access := on_access;
  Policy.uses_access_events _ := true;
  Policy.on_admit := on_admit;
  Policy.on_remove := on_remove;
  Policy.evict := evict;
  Policy.clear := clear;
}.

(** ** The reference queue *)

Definition unref (x : K * ClockEntry) : K * ClockEntry := (x.1, mk_ce (ce_cost x.2) false).

Fixpoint second_chance (fuel : nat) (q : list (K * ClockEntry))
    : option ((K * Z) * list (K * ClockEntry)) :=
  match fuel, q with
  | S fuel, x :: q' =>
      if ce_referenced x.2 then second_chance fuel (q' ++ [unref x])
      else Some ((x.1, ce_cost x.2), q')
  | _, _ => None
  end.

Fixpoint clock_evict_ref (fuel : nat) (n : Z) (q : list (K * ClockEntry))
    : list (K * Z) * list (K * ClockEntry) :=
  match fuel with
  | O => ([], q)
  | S fuel =>
      if 0 <? n then
        match second_chance (S (length q)) q with
        | Some ((k, c), q') =>
            let '(vs, q'') := clock_evict_ref fuel (n - c) q' in ((k, c) :: vs, q'')
        | None => ([], q)
        end
      else ([], q)
  end.
End Code.
Arguments ClockState K {_ _}.

Section Proofs.
Context {K : Type} `{Countable K}.
Implicit Types (s : ClockState K) (xs q : list (K * ClockEntry)) (k : K).

Definition tracked_costs s : gmap K Z := ce_cost <$> items s.

Record wf s : Prop := {
  wf_nodup : NoDup (order s);
  wf_keys k : k ∈ order s ↔ is_Some (items s !! k);
  wf_costs : costs_fit (tracked_costs s);
}.

Definition ring s xs : Prop := order s = xs.*1 ∧ items s = list_to_map xs ∧ NoDup xs.*1.

(** The ring read from the hand on. *)
Definition view s q : Prop := ∃ xs, ring s xs ∧ q = drop (hand s) xs ++ take (hand s) xs.

Lemma view_perm s q : view s q → ∃ xs, ring s xs ∧ q ≡ₚ xs.
Proof. intros (xs&?&->). exists xs. split; [done|]. by rewrite Permutation_app_comm, take_drop. Qed.

Lemma clock_view_length s q : view s q → length (order s) = length q.
Proof. intros (xs&(->&_&_)&Hp)%view_perm. by rewrite Hp, length_fmap. Qed.

(** The entry at the (wrapped) hand is the head of the queue. *)
Lemma view_head s x q :
  view s (x :: q) →
  let h := if (length (order s) <=? hand s)%nat then O else hand s in
  ∃ es fs, ring s (es ++ x :: fs) ∧ q = fs ++ es ∧ length es = h.
Proof.
  intros (xs&Hr&Hq). destruct Hr as (Ho&Hi&Hnd).
  assert (Hl : length (order s) = length xs) by (by rewrite Ho, length_fmap). rewrite Hl.
  destruct (Nat.leb_spec (length xs) (hand s)).
  - rewrite drop_ge, take_ge in Hq by lia. simpl in Hq. subst xs. exists [], q. by rewrite app_nil_r.
  - destruct (drop (hand s) xs) as [|y fs] eqn:Ed.
    { apply (f_equal length) in Ed. rewrite length_drop in Ed. simpl in Ed. lia. }
    simpl in Hq. injection Hq as -> ->. exists (take (hand s) xs), fs.
    rewrite <- Ed, take_drop. split_and!; [done|done|rewrite length_take; lia].
Qed.

Lemma view_intro s es fs : ring s (es ++ fs) → hand s = length es → view s (fs ++ es).
Proof. intros Hr Hh. exists (es ++ fs). split; [done|]. by rewrite Hh, drop_app_length, take_app_length. Qed.

Lemma clock_sweep_spec n s q :
  view s q →
  match second_chance n q with
  | Some ((k, c), q') => ∃ s', sweep n s = Some (Some (k, c), s') ∧ view s' q'
  | None => q ≠ [] → ∃ s' q', sweep n s = Some (None, s') ∧ view s' q'
  end.
Proof.
  revert s q. induction n as [|n IH]; intros s q Hv; simpl; [eauto|].
  destruct q as [|[k e] q]; [done|]. simpl.
  destruct (view_head s (k, e) q Hv) as (es&fs&(Ho&Hi&Hnd)&->&Hh).
  rewrite <- Hh.
  assert (Hat : order s !! length es = Some k).
  { rewrite Ho, fmap_app, fmap_cons. apply list_lookup_middle. by rewrite length_fmap. }
  rewrite Hat. simpl. assert (Hit : items s !! k = Some e) by (rewrite Hi; by apply lookup_middle).
  rewrite Hit. destruct (ce_referenced e) eqn:Er; simpl.
  - set (s1 := mk_clock (<[k:=mk_ce (ce_cost e) false]> (items s)) (order s) (S (length es))).
    assert (Hv1 : view s1 ((fs ++ es) ++ [unref (k, e)])).
    { rewrite <- app_assoc. apply view_intro; [|simpl; rewrite length_app; simpl; lia].
      rewrite <- app_assoc. split_and!; simpl.
      - by rewrite Ho, !fmap_app, !fmap_cons.
      - rewrite Hi. by apply (insert_middle_map es fs k e).
      - by apply (NoDup_replace _ _ _ e). }
    specialize (IH s1 _ Hv1). destruct (second_chance n _) as [[[??]?]|]; [done|].
    intros _. apply IH. by destruct fs, es.
  - eexists. split; [done|]. apply view_intro; [|done]. split_and!; simpl.
    + rewrite Ho, !fmap_app, fmap_cons. rewrite <- (length_fmap fst es). apply delete_middle.
    + rewrite Hi. by apply (delete_middle_map es fs k e).
    + by eapply NoDup_middle.
Qed.

Definition refs q : nat := length (filter (λ x : K * ClockEntry, ce_referenced x.2 = true) q).

(** A victim turns up within one turn of the ring. *)
Lemma second_chance_some fuel q :
  (refs q < fuel)%nat → q ≠ [] → is_Some (second_chance fuel q).
Proof.
  revert q. induction fuel as [|fuel IH]; intros [|[k e] q] Hf Hne; [lia|lia|done|]. simpl.
  destruct (ce_referenced e) eqn:Er; [|by eexists]. apply IH; [|by destruct q].
  unfold refs in *. rewrite filter_cons_True in Hf by done. simpl in Hf.
  rewrite filter_app, (filter_cons_False _ (unref (k, e))) by done. rewrite filter_nil, app_nil_r. lia.
Qed.

Lemma second_chance_more fuel fuel' q r :
  (fuel ≤ fuel')%nat → second_chance fuel q = Some r → second_chance fuel' q = Some r.
Proof.
  revert fuel' q. induction fuel as [|fuel IH]; intros [|fuel'] [|x q] Hle; simpl; try (done || lia).
  destruct (ce_referenced x.2); [|done]. apply IH. lia.
Qed.

Lemma second_chance_bound q : q ≠ [] → is_Some (second_chance (S (length q)) q).
Proof. intros. apply second_chance_some; [|done]. unfold refs. pose proof (length_filter (λ x : K * ClockEntry, ce_referenced x.2 = true) q). lia. Qed.

Definition cost_of (x : K * ClockEntry) : K * Z := (x.1, ce_cost x.2).

Lemma second_chance_perm fuel q k c q' :
  second_chance fuel q = Some ((k, c), q') → cost_of <$> q ≡ₚ (k, c) :: (cost_of <$> q').
Proof.
  revert q. induction fuel as [|fuel IH]; intros [|[k0 e] q]; simpl; try done.
  destruct (ce_referenced e); [|naive_solver]. intros Hs. apply IH in Hs.
  rewrite <- Hs, fmap_app. simpl. by rewrite Permutation_app_comm.
Qed.

Lemma clock_tracked_view s q :
  view s q → tracked_costs s = list_to_map (cost_of <$> q) ∧ NoDup (cost_of <$> q).*1.
Proof.
  intros (xs&(_&Hi&Hnd)&Hp)%view_perm.
  assert (Hk : ∀ ys, (cost_of <$> ys).*1 = ys.*1)
    by (intros; rewrite <- list_fmap_compose; by apply list_fmap_ext).
  assert (Hnq : NoDup (cost_of <$> q).*1) by (by rewrite Hk, Hp). split; [|done].
  unfold tracked_costs. rewrite Hi, <- list_to_map_fmap. symmetry.
  apply list_to_map_proper; [done|]. by rewrite Hp.
Qed.

Lemma victim_tracked fuel s q k c q' s' :
  view s q → second_chance fuel q = Some ((k, c), q') → view s' q' →
  tracked_costs s !! k = Some c ∧ delete k (tracked_costs s) = tracked_costs s' ∧
  length q = S (length q').
Proof.
  intros Hv Hsc Hv'. apply second_chance_perm in Hsc as Hp.
  destruct (clock_tracked_view _ _ Hv) as [-> Hnd]. destruct (clock_tracked_view _ _ Hv') as [-> _].
  assert (Hnd' : NoDup ((k, c) :: (cost_of <$> q')).*1) by (by rewrite <- Hp).
  rewrite (list_to_map_proper _ ((k, c) :: (cost_of <$> q')) Hnd Hp). split_and!.
  - by apply (lookup_middle []).
  - by apply (delete_middle_map [] _ k c).
  - apply Permutation_length in Hp. simpl in Hp. by rewrite !length_fmap in Hp.
Qed.

Lemma clock_evict_turn fuel need vs f s q :
  view s q → 0 < need → q ≠ [] →
  ∃ k c s' q', second_chance (S (length q)) q = Some ((k, c), q') ∧ view s' q' ∧
    evict_loop (S fuel) need vs f s = evict_loop fuel (need -sat c) (vs ++ [k]) (f +w c) s'.
Proof.
  intros Hv Hn Hne. destruct (second_chance_bound q Hne) as [[[k c] q'] Hsc].
  pose proof (clock_sweep_spec (length (order s) * 2) s q Hv) as Hsw.
  rewrite (clock_view_length _ _ Hv) in Hsw.
  assert (Hlen : (1 ≤ length q)%nat) by (destruct q; [done|simpl; lia]).
  rewrite (second_chance_more (S (length q)) (length q * 2) q ((k, c), q')) in Hsw by (lia || done).
  destruct Hsw as (s'&Hsw&Hv'). exists k, c, s', q'. split_and!; [done|done|].
  cbn [evict_loop]. destruct (Z.ltb_spec 0 need); [|lia].
  assert (order s ≠ []) by (intros E; apply clock_view_length in Hv; rewrite E in Hv; simpl in Hv; lia).
  rewrite bool_decide_false by done. simpl. rewrite (clock_view_length _ _ Hv), Hsw. done.
Qed.

Lemma clock_evict_loop_spec fuel m need n vs f s q :
  view s q → costs_fit m → evicted m vs f (tracked_costs s) →
  need = n -sat f → 0 ≤ n → (length q < fuel)%nat →
  ∃ s' V q', clock_evict_ref fuel (n - f) q = (V, q') ∧
    evict_loop fuel need vs f s = Some (vs ++ V.*1, f + costs V, s') ∧ view s' q' ∧
    evicted m (vs ++ V.*1) (f + costs V) (tracked_costs s') ∧
    (n ≤ f + costs V ∨ q' = []).
Proof.
  revert need vs f s q.
  induction fuel as [|fuel IH]; intros need vs f s q Hv Hfit Hev Hneed Hn Hf; [lia|].
  destruct (decide (0 < need ∧ q ≠ [])) as [[Hpos Hne]|Hstop].
  - destruct (clock_evict_turn fuel need vs f s q Hv Hpos Hne) as (k&c&s1&q1&Hsc&Hv1&Hturn).
    rewrite Hturn. cbn [clock_evict_ref]. unfold sat_sub in Hneed.
    destruct (Z.ltb_spec 0 (n - f)); [|lia]. rewrite Hsc.
    destruct (victim_tracked _ _ _ _ _ _ _ Hv Hsc Hv1) as (Hk&Hd&Hl).
    destruct (evicted_step _ _ _ _ _ _ Hfit Hev Hk) as (E&Hc&Hev1). rewrite Hd in Hev1.
    destruct (IH (need -sat c) (vs ++ [k]) (f +w c) s1 q1) as (s'&V&q'&HV&HL&?&He&?);
      [done|done|done|rewrite E; u64_lia|done|lia|].
    rewrite E, Z.sub_add_distr in HV. rewrite HV. exists s', ((k, c) :: V), q'.
    rewrite HL, E, costs_cons, Z.add_assoc. simpl. rewrite E, <- app_assoc in *. done.
  - assert (Hem : 0 < need → q = []) by (intros; destruct q; [done|]; exfalso; by apply Hstop).
    exists s, [], q. simpl fmap. rewrite costs_nil, app_nil_r, Z.add_0_r. unfold sat_sub in Hneed.
    split_and!; [| |done|done|].
    + cbn [clock_evict_ref]. destruct (Z.ltb_spec 0 (n - f)); [|done]. by rewrite Hem by lia.
    + cbn [evict_loop]. destruct (Z.ltb_spec 0 need); [|done]. rewrite Hem in Hv by lia.
      apply clock_view_length in Hv. by destruct (order s).
    + destruct (decide (0 < need)); [right; by apply Hem|left; lia].
Qed.

Lemma clock_wf_view s : wf s → ∃ q, view s q.
Proof.
  intros [Hnd Hk _]. destruct (keyed_list (order s) (items s) Hnd Hk) as (xs&Ho&Hi).
  eexists _, xs. split; [|done]. by rewrite <- Ho in Hnd.
Qed.

Lemma clock_view_wf s q : view s q → costs_fit (tracked_costs s) → wf s.
Proof.
  intros (xs&(Ho&Hi&Hnd)&_) Hc. split; [by rewrite Ho| |done].
  intros k. by rewrite Ho, Hi, keyed_list_lookup.
Qed.

Lemma clock_evict_refines s n :
  wf s → 0 ≤ n →
  ∃ s' q V q', view s q ∧ clock_evict_ref (S (length q)) n q = (V, q') ∧
    evict n s = Some (V.*1, costs V, s') ∧ view s' q' ∧ wf s' ∧
    evicted (tracked_costs s) V.*1 (costs V) (tracked_costs s') ∧
    (n ≤ costs V ∨ q' = []).
Proof.
  intros Hw Hn. destruct (clock_wf_view s Hw) as [q Hv]. destruct Hw as [_ _ Hc].
  unfold evict. rewrite (clock_view_length _ _ Hv).
  destruct (clock_evict_loop_spec (S (length q)) (tracked_costs s) n n [] 0 s q)
    as (s'&V&q'&HR&HE&Hv'&Hev&?); [done|done|apply evicted_nil|u64_lia|done|lia|].
  rewrite Z.sub_0_r in HR. simpl in *. exists s', q, V, q'.
  split_and!; [done|done|done|done| |done|done].
  apply (clock_view_wf s' q'); [done|]. by eapply evicted_fit.
Qed.
Lemma clock_on_remove_spec s k :
  wf s → ∃ s', on_remove k s = Some s' ∧ wf s' ∧ tracked_costs s' = delete k (tracked_costs s).
Proof.
  intros [Hnd Hk Hc]. unfold on_remove. destruct (items s !! k) as [e|] eqn:Ek.
  - pose proof (list_find_delete k (order s) Hnd) as Hf.
    destruct (list_find (λ k0, k0 = k) (order s)) as [[pos k']|].
    2:{ exfalso. apply Hf, Hk. by eexists. }
    destruct Hf as [-> _]. eexists. split; [done|]. unfold tracked_costs. simpl. rewrite fmap_delete.
    split; [|done]. split; simpl.
    + by apply NoDup_filter.
    + intros j. rewrite list_elem_of_filter, lookup_delete_is_Some, Hk. naive_solver.
    + unfold tracked_costs. simpl. rewrite fmap_delete. by apply costs_fit_delete.
  - exists s. split; [done|]. split; [done|]. unfold tracked_costs.
    rewrite delete_id; [done|]. by rewrite lookup_fmap, Ek.
Qed.

Lemma clock_tracked_access k s :
  tracked_costs (mk_clock (alter (λ e, mk_ce (ce_cost e) true) k (items s)) (order s) (hand s))
  = tracked_costs s.
Proof.
  unfold tracked_costs. simpl. apply map_eq. intros j. rewrite !lookup_fmap.
  destruct (decide (j = k)) as [->|]; [|by rewrite lookup_alter_ne].
  rewrite lookup_alter_eq. by destruct (items s !! k).
Qed.

#[global] Instance laws : PolicyLaws K (ClockState K).
Proof.
  refine {| policy_wf s := wf s; tracked s := tracked_costs s |}; simpl.
  - by intros s [_ _ ?].
  - intros s k c [Hnd Hk Hc] _. eexists. split; [done|]. split; [|left; apply clock_tracked_access].
    split; [done| |by rewrite clock_tracked_access].
    intros j. simpl. by rewrite Hk, lookup_alter_is_Some.
  - intros s k c [Hnd Hk Hc] Hfit. unfold on_admit. destruct (items s !! k) as [e|] eqn:Ek.
    + assert (E : tracked_costs s !! k = Some (ce_cost e)) by (unfold tracked_costs; by rewrite lookup_fmap, Ek).
      exists Admit, s, (ce_cost e). split; [done|]. split; [done|].
      apply admit_plain; [by right|]. by rewrite insert_id.
    + assert (Ht : tracked_costs (mk_clock (<[k:=mk_ce c false]> (items s)) (order s ++ [k]) (hand s))
        = <[k:=c]> (tracked_costs s)) by (unfold tracked_costs; simpl; by rewrite fmap_insert).
      eexists Admit, _, c. split; [done|]. split; [|by apply admit_plain; [left|]]. split; simpl.
      * apply NoDup_app. split_and!; [done| |apply NoDup_singleton].
        intros j [v Hj]%Hk ->%list_elem_of_singleton. congruence.
      * intros j. rewrite elem_of_app, list_elem_of_singleton, lookup_insert_is_Some, Hk.
        destruct (decide (k = j)); naive_solver.
      * rewrite Ht. by apply costs_fit_insert.
  - intros s k Hw. by apply clock_on_remove_spec.
  - intros s n Hw Hn. destruct (clock_evict_refines s n Hw Hn) as (s'&q&V&q'&?&?&?&?&?&?&?).
    by exists V.*1, (costs V), s'.
  - intros s _. eexists. split; [done|]. split; [|done].
    split; simpl; [constructor|intros j; rewrite lookup_empty; set_solver|apply costs_fit_empty].
Defined.

#[global] Instance evicts_enough : EvictsEnough K (ClockState K).
Proof.
  intros s n vs f s1 Hw Hn Hev. destruct (clock_evict_refines s n Hw Hn) as (s'&q&V&q'&?&?&Hev'&Hv'&?&?&Hen).
  simpl in *. rewrite Hev in Hev'. simplify_eq. destruct Hen as [?| ->]; [by left|right].
  by destruct (clock_tracked_view _ _ Hv') as [-> _].
Qed.

(** [ClockPolicy::evict] is the second-chance queue. Read from the hand on,
    the ring is a queue [q] on which the code takes the victims the reference
    takes, in order; every sweep finds one, so the call returns, and it stops
    short of [n] only when the ring is empty. *)
Theorem clock_evict_is_second_chance s n :
  wf s → 0 ≤ n →
  ∃ s' q V q', view s q ∧ clock_evict_ref (S (length q)) n q = (V, q') ∧
    evict n s = Some (V.*1, costs V, s') ∧ view s' q' ∧ wf s' ∧
    (n ≤ costs V ∨ q' = []).
Proof.
  intros Hw Hn. destruct (clock_evict_refines s n Hw Hn) as (s'&q&V&q'&?&?&?&?&?&?&?).
  exists s', q, V, q'. auto 10.
Qed.
End Proofs.

Definition clock_example : ClockState nat :=
  mk_clock (list_to_map [(1%nat, mk_ce 5 true); (2%nat, mk_ce 7 false); (3%nat, mk_ce 2 true)])
    [1; 2; 3]%nat 2.

Lemma clock_evict_is_second_chance_witness :
  ∃ s', evict 8 clock_example = Some ([2; 3]%nat, 9, s') ∧ order s' = [1]%nat.
Proof.
  destruct (clock_evict_is_second_chance clock_example 8) as (s'&q&V&q'&_&_&Hev&_).
  - split; simpl.
    + apply (bool_decide_unpack _). vm_compute. exact I.
    + intros k. assert (Hd : list_to_set [1; 2; 3]%nat = dom (items clock_example)) by (vm_compute; reflexivity).
      rewrite <- elem_of_dom. simpl in Hd. rewrite <- Hd. set_solver.
    + split; [|vm_compute; reflexivity]. apply (bool_decide_unpack _). vm_compute. exact I.
  - lia.
  - exists s'. assert (E : evict 8 clock_example = Some ([2; 3]%nat, 9,
      mk_clock (list_to_map [(1%nat, mk_ce 5 false)]) [1]%nat 1)) by (vm_compute; reflexivity).
    rewrite E in Hev. injection Hev as _ _ <-. split; [exact E|reflexivity].
Defined.
