(* ===== verification/S3Fifo.v ===== *)
(** * [cache/src/policy/s3fifo.rs]: S3-FIFO

    Two FIFO queues of stamped keys over a map of live metadata, and a bounded
    ghost list.  A queue entry whose stamp or queue does not match the metadata is
    stale and skipped; stamps are [u32] and wrap.  The invariant asks only that
    every live key has a matching entry in its queue, so it survives a stale entry
    that matches again after the stamps wrapped. *)

From S2P Require Import Prelude Arena LruList Policy.

Definition FREQ_MAX : Z := 3.

Inductive Queue := Small | Main.
#[global] Instance Queue_eq_dec : EqDecision Queue.
Proof. solve_decision. Defined.

Record Meta := mk_meta { m_cost : Z; m_freq : Z; m_queue : Queue; m_stamp : Z }.

Section Code.
Context {K : Type} `{Countable K}.

Record State := mk_state {
  meta : gmap K Meta;
  small : list (K * Z);
  main : list (K * Z);
  small_cost : Z;
  total_cost : Z;
  ghost : list K;
  ghost_set : gset K;
  next_stamp : Z;
}.
Implicit Types s : State.

Record S3FifoPolicy := mk_s3 { state : State; small_target : Z; ghost_cap : Z }.

Definition new (capacity : Z) : S3FifoPolicy :=
  mk_s3 (mk_state ∅ [] [] 0 0 [] ∅ 0) (Z.max (capacity / 10) 1) (Z.max capacity 1).

(** [self.meta = m]. *)
Definition with_meta (m : gmap K Meta) s : State :=
  mk_state m (small s) (main s) (small_cost s) (total_cost s) (ghost s) (ghost_set s) (next_stamp s).

Definition with_costs (sc tc : Z) s : State :=
  mk_state (meta s) (small s) (main s) sc tc (ghost s) (ghost_set s) (next_stamp s).

Definition with_queues (sm ma : list (K * Z)) s : State :=
  mk_state (meta s) sm ma (small_cost s) (total_cost s) (ghost s) (ghost_set s) (next_stamp s).

Definition push (key : K) (queue : Queue) s : option State :=
  let stamp := u32_add (next_stamp s) 1 in
  m ← meta s !! key;
  let m' := mk_meta (m_cost m) (m_freq m) queue stamp in
  let entry := (key, stamp) in
  let s' := mk_state (<[key:=m']> (meta s)) (small s) (main s) (small_cost s) (total_cost s)
              (ghost s) (ghost_set s) stamp in
  Some match queue with
       | Small => with_costs (small_cost s' +w m_cost m) (total_cost s')
                    (with_queues (small s' ++ [entry]) (main s') s')
       | Main => with_queues (small s') (main s' ++ [entry]) s'
       end.

Definition remember_ghost (key : K) (cap : Z) s : State :=
  let '(ghost1, set1) :=
    if cap <=? Z.of_nat (length (ghost s)) then
      match ghost s with
      | old :: g => (g, ghost_set s ∖ {[old]})
      | [] => ([], ghost_set s)
      end
    else (ghost s, ghost_set s) in
  let '(ghost2, set2) :=
    if decide (key ∈ set1) then (ghost1, set1) else (ghost1 ++ [key], {[key]} ∪ set1) in
  mk_state (meta s) (small s) (main s) (small_cost s) (total_cost s) ghost2 set2 (next_stamp s).

(** The closure [live(q)] of [compact], and the filter of [evict]. *)
Definition live (m : gmap K Meta) (q : Queue) (e : K * Z) : bool :=
  match m !! e.1 with
  | Some d => (m_stamp d =? e.2) && bool_decide (m_queue d = q)
  | None => false
  end.

Definition compact s : State :=
  if (length (small s) + length (main s) <=? 2 * size (meta s) + 64)%nat then s
  else with_queues (filter (live (meta s) Small) (small s)) (filter (live (meta s) Main) (main s)) s.

Definition on_access (key : K) (_ : Z) (p : S3FifoPolicy) : option S3FifoPolicy :=
  let s := state p in
  let bump d := mk_meta (m_cost d) (Z.min ((m_freq d + 1) mod 256) FREQ_MAX) (m_queue d) (m_stamp d) in
  Some (mk_s3 (with_meta (alter bump key (meta s)) s) (small_target p) (ghost_cap p)).

Definition on_admit (key : K) (cost : Z) (p : S3FifoPolicy)
    : option (AdmissionDecision K * S3FifoPolicy) :=
  let s := state p in
  match meta s !! key with
  | Some m =>
      let s1 := with_meta (<[key:=mk_meta cost (m_freq m) (m_queue m) (m_stamp m)]> (meta s)) s in
      let in_small := bool_decide (m_queue m = Small) in
      let total := total_cost s -w m_cost m +w cost in
      let sc := if in_small then small_cost s -w m_cost m +w cost else small_cost s in
      Some (Admit, mk_s3 (with_costs sc total s1) (small_target p) (ghost_cap p))
  | None =>
      let to_main := bool_decide (key ∈ ghost_set s) in
      let s1 := mk_state (<[key:=mk_meta cost 0 Small 0]> (meta s)) (small s) (main s) (small_cost s)
                  (total_cost s +w cost) (ghost s) (ghost_set s ∖ {[key]}) (next_stamp s) in
      s2 ← push key (if to_main then Main else Small) s1;
      Some (Admit, mk_s3 (compact s2) (small_target p) (ghost_cap p))
  end.

Definition on_remove (key : K) (p : S3FifoPolicy) : option S3FifoPolicy :=
  let s := state p in
  Some match meta s !! key with
       | Some m =>
           let sc := if bool_decide (m_queue m = Small) then small_cost s -w m_cost m else small_cost s in
           mk_s3 (with_costs sc (total_cost s -w m_cost m) (with_meta (delete key (meta s)) s))
             (small_target p) (ghost_cap p)
       | None => p
       end.

(** What a turn of the [while] of [evict] does with a live key [m] popped from the
    small queue, or from the main one: [None] is the [continue], [Some] a victim. *)
Definition take_small (cap : Z) (key : K) (m : Meta) s : option (option (K * Z) * State) :=
  let cost := m_cost m in
  let s1 := with_costs (small_cost s -w cost) (total_cost s) s in
  if 1 <? m_freq m then
    s2 ← push key Main (with_meta (<[key:=mk_meta cost 0 (m_queue m) (m_stamp m)]> (meta s1)) s1);
    Some (None, s2)
  else
    let s2 := with_costs (small_cost s1) (total_cost s1 -w cost) (with_meta (delete key (meta s1)) s1) in
    Some (Some (key, cost), remember_ghost key cap s2).

Definition take_main (key : K) (m : Meta) s : option (option (K * Z) * State) :=
  let cost := m_cost m in
  let freq := m_freq m in
  if 0 <? freq then
    s1 ← push key Main (with_meta (<[key:=mk_meta cost (freq - 1) (m_queue m) (m_stamp m)]> (meta s)) s);
    Some (None, s1)
  else
    Some (Some (key, cost), with_costs (small_cost s) (total_cost s -w cost) (with_meta (delete key (meta s)) s)).

(** One turn of the [while]: [Some None] is the [break]. *)
Definition evict_turn (target cap : Z) s : option (option (option (K * Z) * State)) :=
  let from_small := negb (bool_decide (small s = [])) &&
                    ((target <? small_cost s) || bool_decide (main s = [])) in
  let popped := if from_small
                then match small s with e :: q => Some (e, with_queues q (main s) s) | [] => None end
                else match main s with e :: q => Some (e, with_queues (small s) q s) | [] => None end in
  match popped with
  | None => Some None
  | Some ((key, stamp), s1) =>
      let q := if from_small then Small else Main in
      match meta s1 !! key with
      | Some m =>
          if live (meta s1) q (key, stamp) then
            r ← (if from_small then take_small cap key m s1 else take_main key m s1); Some (Some r)
          else Some (Some (None, s1))
      | None => Some (Some (None, s1))
      end
  end.

Fixpoint evict_loop (fuel : nat) (target cap cost_to_free : Z) (victims : list K) (freed : Z) s
    : option (list K * Z * State) :=
  if freed <? cost_to_free then
    match fuel with
    | O => None
    | S fuel =>
        r ← evict_turn target cap s;
        match r with
        | None => Some (victims, freed, s)
        | Some (None, s') => evict_loop fuel target cap cost_to_free victims freed s'
        | Some (Some (key, cost), s') =>
            evict_loop fuel target cap cost_to_free (victims ++ [key]) (freed +w cost) s'
        end
    end
  else Some (victims, freed, s).

(** Every turn pops an entry; a key that goes back to the main queue has lost one
    unit of frequency, or left the small queue. *)
Definition measure s : nat :=
  (2 * length (small s) + length (main s) + Z.to_nat (wsum m_freq (meta s)))%nat.

Definition evict (cost_to_free : Z) (p : S3FifoPolicy) : option (list K * Z * S3FifoPolicy) :=
  '(victims, freed, s) ← evict_loop (S (measure (state p))) (small_target p) (ghost_cap p)
                            cost_to_free [] 0 (state p);
  Some (victims, freed, mk_s3 s (small_target p) (ghost_cap p)).

Definition clear (p : S3FifoPolicy) : option S3FifoPolicy :=
  Some (mk_s3 (mk_state ∅ [] [] 0 0 [] ∅ (next_stamp (state p))) (small_target p) (ghost_cap p)).

#[global] Instance policy : CachePolicy K S3FifoPolicy := {
  Policy.on_access := on_access;
  Policy.uses_access_events _ := true;
  Policy.on_admit := on_admit;
  Policy.on_remove := on_remove;
  Policy.evict := evict;
  Policy.clear := clear;
}.
End Code.
Arguments State K {_ _}.
Arguments S3FifoPolicy K {_ _}.

Section Proofs.
Context {K : Type} `{Countable K}.
Implicit Types (s : State K) (p : S3FifoPolicy K) (k : K) (d : Meta).

Definition tracked_costs s : gmap K Z := m_cost <$> meta s.

Definition small_w d : Z := if bool_decide (m_queue d = Small) then m_cost d else 0.

Definition queue_of (q : Queue) s : list (K * Z) := match q with Small => small s | Main => main s end.

(** The invariant, less the queueing of the keys in [X]: while a turn of the
    eviction loop moves a key between queues, [X] is that key. *)
Record inv_but (X : gset K) (cap : Z) s : Prop := {
  i_costs : costs_fit (tracked_costs s);
  i_freq k d : meta s !! k = Some d → 0 ≤ m_freq d ≤ FREQ_MAX;
  i_total : total_cost s = wsum m_cost (meta s);
  i_queued k d : meta s !! k = Some d → k ∉ X → (k, m_stamp d) ∈ queue_of (m_queue d) s;
  i_ghost g : g ∈ ghost_set s → g ∈ ghost s;
  i_ghost_cap : Z.of_nat (length (ghost s)) ≤ cap;
}.

Definition inv (cap : Z) s : Prop := inv_but ∅ cap s ∧ small_cost s = wsum small_w (meta s).

Lemma small_w_range s cap X k d :
  inv_but X cap s → meta s !! k = Some d → 0 ≤ small_w d ≤ m_cost d.
Proof.
  intros Hi Hk. assert (Hc : tracked_costs s !! k = Some (m_cost d))
    by (unfold tracked_costs; by rewrite lookup_fmap, Hk).
  apply (costs_fit_lookup _ _ _ (i_costs _ _ _ Hi)) in Hc. unfold small_w. case_bool_decide; lia.
Qed.

(** The small queue's cost is part of the total, which is a [u64]. *)
Lemma sums_range s cap X : inv_but X cap s → 
  0 ≤ wsum small_w (meta s) ∧ wsum small_w (meta s) ≤ wsum m_cost (meta s) ∧ wsum m_cost (meta s) < U64.
Proof.
  intros Hi. assert (Hs : wsum small_w (meta s) ≤ wsum m_cost (meta s)).
  { apply wsum_mono. intros k d Hk. by apply (small_w_range s cap X k). }
  assert (0 ≤ wsum small_w (meta s)).
  { apply wsum_nonneg. intros k d Hk. by apply (small_w_range s cap X k). }
  destruct (i_costs _ _ _ Hi) as [_ Hlt]. unfold tracked_costs in Hlt. rewrite msum_fmap in Hlt. lia.
Qed.

Lemma tracked_insert s s' k d d' :
  meta s !! k = Some d → meta s' = <[k:=d']> (meta s) → m_cost d' = m_cost d →
  tracked_costs s' = tracked_costs s.
Proof.
  intros Hk E Hc. unfold tracked_costs. rewrite E, fmap_insert, Hc. apply insert_id.
  by rewrite lookup_fmap, Hk.
Qed.

(** Queueing the key left out restores the invariant. *)
Lemma push_spec cap s k q d :
  inv_but {[k]} cap s → meta s !! k = Some d →
  small_cost s = wsum small_w (delete k (meta s)) →
  ∃ s', push k q s = Some s' ∧ inv cap s' ∧ tracked_costs s' = tracked_costs s ∧
    measure s' = (measure s + match q with Small => 2 | Main => 1 end)%nat ∧
    meta s' = <[k:=mk_meta (m_cost d) (m_freq d) q (m_stamp (default d (meta s' !! k)))]> (meta s).
Proof.
  intros Hi Hk Hsc. unfold push. rewrite Hk. simpl.
  set (st := u32_add (next_stamp s) 1). set (d' := mk_meta (m_cost d) (m_freq d) q st).
  pose proof (sums_range _ _ _ Hi) as Hr.
  assert (Hw : ∀ m, wsum small_w (<[k:=d']> m) = small_w d' + wsum small_w (delete k m)) by (intros; apply wsum_insert).
  assert (Hck : 0 ≤ m_cost d).
  { pose proof (small_w_range _ _ _ _ _ Hi Hk). lia. }
  assert (Hle : wsum small_w (delete k (meta s)) + m_cost d ≤ wsum m_cost (meta s)).
  { rewrite (wsum_delete m_cost _ _ _ Hk). assert (wsum small_w (delete k (meta s)) ≤ wsum m_cost (delete k (meta s))); [|lia].
    apply wsum_mono. intros j e [_ Hj]%lookup_delete_Some. by apply (small_w_range s cap {[k]} j). }
  assert (Hnn : 0 ≤ wsum small_w (delete k (meta s))).
  { apply wsum_nonneg. intros j e [_ Hj]%lookup_delete_Some. by apply (small_w_range s cap {[k]} j). }
  assert (Hfr : wsum m_freq (<[k:=d']> (meta s)) = wsum m_freq (meta s)).
  { rewrite wsum_insert, (wsum_delete m_freq (meta s) k d Hk). done. }
  eexists. split; [done|].
  assert (Hinv : ∀ s', meta s' = <[k:=d']> (meta s) → total_cost s' = total_cost s →
    ghost s' = ghost s → ghost_set s' = ghost_set s → small_cost s' = wsum small_w (<[k:=d']> (meta s)) →
    (k, st) ∈ queue_of q s' → (∀ q', queue_of q' s ⊆ queue_of q' s') → inv cap s').
  { intros s' E1 E2 E3 E4 E5 Hq Hsub. destruct Hi as [Hc Hf Ht Hqu Hg Hgc]. split; [|by rewrite E5, E1]. split.
    - by rewrite (tracked_insert s s' k d d').
    - intros j e. rewrite E1. intros [[<- <-]|[_ Hj]]%lookup_insert_Some; [exact (Hf k d Hk)|by apply (Hf j)].
    - rewrite E1, E2, Ht, wsum_insert, (wsum_delete m_cost (meta s) k d Hk). done.
    - intros j e. rewrite E1. intros [[<- <-]|[? Hj]]%lookup_insert_Some _; [done|].
      apply Hsub, Hqu; [done|set_solver].
    - intros g. rewrite E3, E4. apply Hg.
    - by rewrite E3. }
  split_and!.
  - apply Hinv; destruct q; try done; simpl.
    + rewrite Hw, Hsc. unfold small_w at 2. rewrite bool_decide_true by done. simpl.
      rewrite u64_add_small by lia. lia.
    + rewrite Hw, Hsc. unfold small_w at 2. rewrite bool_decide_false by done. lia.
    + set_solver.
    + set_solver.
    + intros []; simpl; set_solver.
    + intros []; simpl; set_solver.
  - apply (tracked_insert s _ k d d'); [done|by destruct q|done].
  - unfold measure. destruct q; simpl; rewrite Hfr, length_app; simpl; lia.
  - destruct q; simpl; by rewrite lookup_insert_eq.
Qed.
(** Popping a queue's head: a stale entry is not missed, a live one leaves its
    key unqueued. *)
Lemma unqueue cap s s1 q k st :
  inv cap s → meta s1 = meta s → total_cost s1 = total_cost s → small_cost s1 = small_cost s →
  ghost s1 = ghost s → ghost_set s1 = ghost_set s →
  queue_of q s = (k, st) :: queue_of q s1 → (∀ q', q' ≠ q → queue_of q' s1 = queue_of q' s) →
  if live (meta s) q (k, st) then inv_but {[k]} cap s1 else inv cap s1.
Proof.
  intros [[Hc Hf Ht Hq Hg Hgc] Hsc] E1 E2 E3 E4 E5 Hqu Hqo.
  assert (Hkeep : ∀ X, (k ∉ X → live (meta s) q (k, st) = false) → inv_but X cap s1).
  { intros X HX. split.
    - unfold tracked_costs. by rewrite E1.
    - intros j d. rewrite E1. apply Hf.
    - by rewrite E1, E2.
    - intros j d. rewrite E1. intros Hj HjX. pose proof (Hq j d Hj (not_elem_of_empty _)) as Hin.
      destruct (decide (m_queue d = q)) as [<-|Hne]; [|by rewrite Hqo].
      rewrite Hqu in Hin. apply elem_of_cons in Hin as [Hhd|]; [|done]. simplify_eq.
      exfalso. specialize (HX HjX). unfold live in HX. simpl in HX.
      rewrite Hj, Z.eqb_refl, bool_decide_true in HX by done. done.
    - intros g. rewrite E4, E5. apply Hg.
    - by rewrite E4. }
  destruct (live (meta s) q (k, st)).
  - apply Hkeep. set_solver.
  - split; [by apply Hkeep|]. by rewrite E3, E1.
Qed.

Lemma forget cap s s' k d :
  inv_but {[k]} cap s → meta s !! k = Some d → meta s' = delete k (meta s) →
  total_cost s' = total_cost s -w m_cost d → small_cost s' = wsum small_w (delete k (meta s)) →
  (∀ q, queue_of q s' = queue_of q s) → ghost s' = ghost s → ghost_set s' = ghost_set s →
  inv cap s' ∧ tracked_costs s' = delete k (tracked_costs s) ∧ tracked_costs s !! k = Some (m_cost d).
Proof.
  intros Hi Hk Em Et Es Eq Eg Egs. pose proof (sums_range _ _ _ Hi) as Hr.
  pose proof (small_w_range _ _ _ _ _ Hi Hk) as Hd. destruct Hi as [Hc Hf Ht Hq Hg Hgc].
  assert (Etr : tracked_costs s' = delete k (tracked_costs s))
    by (unfold tracked_costs; by rewrite Em, fmap_delete).
  split_and!; [|done|unfold tracked_costs; by rewrite lookup_fmap, Hk].
  split; [|by rewrite Es, Em]. split.
  - rewrite Etr. by apply costs_fit_delete.
  - intros j e. rewrite Em. intros [_ Hj]%lookup_delete_Some. by apply (Hf j).
  - rewrite Et, Em, Ht. rewrite (wsum_delete m_cost _ _ _ Hk) in *.
    rewrite u64_sub_small; [lia| |lia]. apply costs_fit_delete with (k:=k) in Hc.
    apply costs_fit_nonneg in Hc. unfold tracked_costs in Hc. rewrite <- fmap_delete, msum_fmap in Hc. lia.
  - intros j e. rewrite Em, Eq. intros [? Hj]%lookup_delete_Some _. apply Hq; [done|set_solver].
  - intros g. rewrite Eg, Egs. apply Hg.
  - by rewrite Eg.
Qed.

Lemma remember_ghost_spec cap s k :
  inv cap s → 1 ≤ cap →
  inv cap (remember_ghost k cap s) ∧ meta (remember_ghost k cap s) = meta s ∧
  small (remember_ghost k cap s) = small s ∧ main (remember_ghost k cap s) = main s ∧
  k ∈ ghost_set (remember_ghost k cap s).
Proof.
  intros [[Hc Hf Ht Hq Hg Hgc] Hsc] Hcap. unfold remember_ghost.
  set (room := if cap <=? Z.of_nat (length (ghost s)) then _ else (ghost s, ghost_set s)).
  assert (Hroom : (∀ g, g ∈ room.2 → g ∈ room.1) ∧ Z.of_nat (length room.1) < cap).
  { unfold room. destruct (Z.leb_spec cap (Z.of_nat (length (ghost s)))); [|done].
    destruct (ghost s) as [|old g] eqn:Eg; simpl in *; [lia|]. split; [|lia].
    intros x [Hx ?]%elem_of_difference. apply Hg in Hx. set_solver. }
  destruct room as [g1 set1]. simpl in Hroom. destruct Hroom as [Hsub Hlen].
  case_decide; simpl; split_and!; try done; [| |apply elem_of_union_l, elem_of_singleton_2; done].
  - split; [|done]. split; simpl; [done..|lia].
  - split; [|done]. split; simpl; [done..| |].
    + intros g. rewrite elem_of_union, elem_of_app, elem_of_singleton, list_elem_of_singleton. naive_solver.
    + rewrite length_app. simpl. lia.
Qed.

Lemma live_true m q k st d :
  m !! k = Some d → live m q (k, st) = true → m_queue d = q ∧ m_stamp d = st.
Proof.
  intros Hk. unfold live. simpl. rewrite Hk, andb_true_iff, Z.eqb_eq, bool_decide_eq_true. tauto.
Qed.

(** A live key goes to the back of the main queue with a lower frequency. *)
Lemma requeue cap s s1 k d f :
  inv_but {[k]} cap s → meta s !! k = Some d → 0 ≤ f ≤ m_freq d →
  meta s1 = meta s → total_cost s1 = total_cost s → (∀ q, queue_of q s1 = queue_of q s) →
  ghost s1 = ghost s → ghost_set s1 = ghost_set s →
  small_cost s1 = wsum small_w (delete k (meta s)) →
  ∃ s', push k Main (with_meta (<[k:=mk_meta (m_cost d) f (m_queue d) (m_stamp d)]> (meta s1)) s1) = Some s' ∧
    inv cap s' ∧ tracked_costs s' = tracked_costs s ∧
    (measure s' + Z.to_nat (m_freq d - f) = measure s + 1)%nat.
Proof.
  intros Hi Hk Hf Em Et Eq Eg Egs Esc. set (d' := mk_meta (m_cost d) f (m_queue d) (m_stamp d)).
  set (s2 := with_meta _ s1). rewrite <- Em in Hk.
  assert (Etr : tracked_costs s2 = tracked_costs s1) by (by apply (tracked_insert s1 s2 k d d')).
  assert (Etr1 : tracked_costs s1 = tracked_costs s) by (unfold tracked_costs; by rewrite Em).
  destruct (push_spec cap s2 k Main d') as (s3&E3&Hi3&Ht3&Hm3&_).
  - destruct Hi as [Hc Hfr Ht Hqu Hg Hgc]. rewrite <- Em in Hfr, Hqu. split.
    + by rewrite Etr, Etr1.
    + simpl. intros j e [[<- <-]|[_ Hj]]%lookup_insert_Some; [|by apply (Hfr j)].
      specialize (Hfr k d Hk). simpl. lia.
    + simpl. rewrite Et, Ht, wsum_insert, <- Em, (wsum_delete m_cost _ _ _ Hk). done.
    + simpl. intros j e [[<- <-]|[? Hj]]%lookup_insert_Some ?; [set_solver|].
      specialize (Hqu j e Hj ltac:(done)). by rewrite <- Eq in Hqu; destruct (m_queue e).
    + simpl. intros g. rewrite Eg, Egs. apply Hg.
    + simpl. by rewrite Eg.
  - simpl. by rewrite lookup_insert_eq.
  - simpl. by rewrite delete_insert_eq, Esc, Em.
  - exists s3. split; [done|]. split; [done|]. split; [by rewrite Ht3, Etr|].
    rewrite Hm3. unfold measure. simpl. rewrite <- Em, wsum_insert, (wsum_delete m_freq _ _ _ Hk).
    pose proof (Eq Small) as E1. pose proof (Eq Main) as E2. simpl in E1, E2. rewrite E1, E2. simpl.
    assert (0 ≤ wsum m_freq (delete k (meta s1))); [|lia].
    apply wsum_nonneg. intros j e [_ Hj]%lookup_delete_Some. rewrite Em in Hj. by apply (i_freq _ _ _ Hi j).
Qed.

(** What a turn gives: the invariant, less to do, and a key moved or taken. *)
Definition turn_ok (cap : Z) (n : nat) s (r : option (K * Z) * State K) : Prop :=
  inv cap r.2 ∧ (measure r.2 < n)%nat ∧
  match r.1 with
  | None => tracked_costs r.2 = tracked_costs s
  | Some (k, c) => tracked_costs s !! k = Some c ∧ tracked_costs r.2 = delete k (tracked_costs s)
  end.

Lemma wsum_delete_measure k d s cap :
  inv_but {[k]} cap s → meta s !! k = Some d →
  (Z.to_nat (wsum m_freq (delete k (meta s))) ≤ Z.to_nat (wsum m_freq (meta s)))%nat.
Proof.
  intros Hi Hk. rewrite (wsum_delete m_freq _ _ _ Hk). pose proof (i_freq _ _ _ Hi k d Hk). lia.
Qed.

Lemma take_small_spec cap s k d :
  inv_but {[k]} cap s → 1 ≤ cap → meta s !! k = Some d → m_queue d = Small →
  small_cost s = wsum small_w (meta s) →
  ∃ r, take_small cap k d s = Some r ∧ turn_ok cap (measure s + 2) s r.
Proof.
  intros Hi Hcap Hk Hq Hsc0. pose proof (sums_range _ _ _ Hi) as Hr.
  assert (Hsc : small_cost s -w m_cost d = wsum small_w (delete k (meta s))).
  { rewrite Hsc0. rewrite (wsum_delete small_w _ _ _ Hk) in *.
    assert (Ew : small_w d = m_cost d) by (unfold small_w; by rewrite bool_decide_true).
    pose proof (small_w_range _ _ _ _ _ Hi Hk). rewrite Ew in *.
    assert (0 ≤ wsum small_w (delete k (meta s))).
    { apply wsum_nonneg. intros j e [_ Hj]%lookup_delete_Some. by apply (small_w_range s cap {[k]} j). }
    rewrite u64_sub_small by lia. lia. }
  unfold take_small. destruct (Z.ltb_spec 1 (m_freq d)).
  - edestruct (requeue cap s (with_costs (small_cost s -w m_cost d) (total_cost s) s) k d 0)
      as (s'&->&?&?&?); [done|done|lia|done|done|by intros []|done|done|done|].
    eexists. split; [done|]. split_and!; simpl; [done|lia|done].
  - set (s2 := with_costs _ _ _).
    destruct (forget cap s s2 k d) as (Hi2&Ht2&Hk2); [done|done|done|done|done|by intros []|done|done|].
    destruct (remember_ghost_spec cap s2 k Hi2 Hcap) as (Hi3&Em&Es&Ema&_).
    eexists. split; [done|]. split; [done|split; [|split; [done|simpl; unfold tracked_costs; by rewrite Em]]].
    pose proof (wsum_delete_measure _ _ _ _ Hi Hk).
    unfold measure. cbn [snd]. rewrite Em, Es, Ema. simpl. lia.
Qed.

Lemma take_main_spec cap s k d :
  inv_but {[k]} cap s → meta s !! k = Some d → m_queue d = Main →
  small_cost s = wsum small_w (meta s) →
  ∃ r, take_main k d s = Some r ∧ turn_ok cap (measure s + 1) s r.
Proof.
  intros Hi Hk Hq Hsc0.
  assert (Hsc : small_cost s = wsum small_w (delete k (meta s))).
  { rewrite Hsc0, (wsum_delete small_w _ _ _ Hk).
    unfold small_w at 1. rewrite bool_decide_false by (by rewrite Hq). lia. }
  unfold take_main. destruct (Z.ltb_spec 0 (m_freq d)).
  - edestruct (requeue cap s s k d (m_freq d - 1)) as (s'&->&?&?&?);
      [done|done|lia|done|done|by intros []|done|done|done|].
    eexists. split; [done|]. split_and!; simpl; [done|lia|done].
  - set (s2 := with_costs _ _ _).
    destruct (forget cap s s2 k d) as (Hi2&Ht2&Hk2); [done|done|done|done|done|by intros []|done|done|].
    eexists. split; [done|]. split; [done|split; [|done]].
    pose proof (wsum_delete_measure _ _ _ _ Hi Hk). unfold measure. simpl. lia.
Qed.

(** A turn with the entry [(k, st)] popped from queue [q]. *)
Lemma popped_turn cap s s1 q k st :
  inv cap s → 1 ≤ cap → meta s1 = meta s → total_cost s1 = total_cost s →
  small_cost s1 = small_cost s → ghost s1 = ghost s → ghost_set s1 = ghost_set s →
  queue_of q s = (k, st) :: queue_of q s1 → (∀ q', q' ≠ q → queue_of q' s1 = queue_of q' s) →
  ∃ r, match meta s1 !! k with
       | Some m =>
           if live (meta s1) q (k, st) then
             r ← (if decide (q = Small) then take_small cap k m s1 else take_main k m s1); Some (Some r)
           else Some (Some (None, s1))
       | None => Some (Some (None, s1))
       end = Some (Some r) ∧ turn_ok cap (measure s) s r.
Proof.
  intros Hi Hcap Em Et Esc Eg Egs Hqu Hqo.
  pose proof (unqueue cap s s1 q k st Hi Em Et Esc Eg Egs Hqu Hqo) as Hun. rewrite Em.
  assert (Etr : tracked_costs s1 = tracked_costs s) by (unfold tracked_costs; by rewrite Em).
  assert (Hms : (measure s = measure s1 + if decide (q = Small) then 2 else 1)%nat).
  { unfold measure. rewrite Em. destruct q; simpl in *.
    - rewrite Hqu. specialize (Hqo Main ltac:(done)). simpl in Hqo. rewrite Hqo. simpl. lia.
    - rewrite Hqu. specialize (Hqo Small ltac:(done)). simpl in Hqo. rewrite Hqo. simpl. lia. }
  assert (Hstale : inv cap s1 → turn_ok cap (measure s) s (None, s1)).
  { intros. split_and!; simpl; [done| |done]. rewrite Hms. case_decide; lia. }
  destruct (meta s !! k) as [d|] eqn:Hk.
  2:{ eexists. split; [done|]. apply Hstale. unfold live in Hun. simpl in Hun. by rewrite Hk in Hun. }
  destruct (live (meta s) q (k, st)) eqn:Hl; [|by eauto].
  destruct (live_true _ _ _ _ _ Hk Hl) as [Hq _]. destruct Hi as [_ Hsc].
  rewrite <- Em in Hk, Hsc. rewrite <- Esc in Hsc. rewrite Hms. unfold turn_ok. rewrite <- Etr. destruct q; simpl.
  - destruct (take_small_spec cap s1 k d Hun Hcap Hk Hq Hsc) as (r&->&?). by exists r.
  - destruct (take_main_spec cap s1 k d Hun Hk Hq Hsc) as (r&->&?). by exists r.
Qed.

(** A turn stops with nothing left, or makes progress. *)
Lemma evict_turn_spec target cap s :
  inv cap s → 1 ≤ cap →
  ∃ r, evict_turn target cap s = Some r ∧
    match r with None => meta s = ∅ | Some r => turn_ok cap (measure s) s r end.
Proof.
  intros Hi Hcap. unfold evict_turn.
  destruct (negb _ && _) eqn:Efs.
  - apply andb_true_iff in Efs as [Hne _]. destruct (small s) as [|[k st] q] eqn:Eq; [done|].
    destruct (popped_turn cap s (with_queues q (main s) s) Small k st) as (r&Hr&?);
      [done..|by intros []|]. exists (Some r). split; [exact Hr|done].
  - destruct (main s) as [|[k st] q] eqn:Eq.
    + exists None. split; [done|].
      assert (Hs : small s = []) by (by destruct (small s); [|simpl in Efs; rewrite orb_true_r in Efs]).
      apply map_empty. intros j. destruct (meta s !! j) as [d|] eqn:Hj; [|done].
      destruct Hi as [Hi _]. pose proof (i_queued _ _ _ Hi j d Hj (not_elem_of_empty _)) as Hin.
      destruct (m_queue d); simpl in Hin; rewrite ?Hs, ?Eq in Hin; by apply elem_of_nil in Hin.
    + destruct (popped_turn cap s (with_queues (small s) q s) Main k st) as (r&Hr&?);
        [done..|by intros []|]. exists (Some r). split; [exact Hr|done].
Qed.
Lemma s3_evict_loop_spec fuel target cap n m vs f s :
  inv cap s → 1 ≤ cap → costs_fit m → evicted m vs f (tracked_costs s) → (measure s < fuel)%nat →
  ∃ vs' f' s', evict_loop fuel target cap n vs f s = Some (vs', f', s') ∧ inv cap s' ∧
    evicted m vs' f' (tracked_costs s') ∧ (n ≤ f' ∨ meta s' = ∅).
Proof.
  revert vs f s. induction fuel as [|fuel IH]; intros vs f s Hi Hcap Hfit Hev Hf; [lia|].
  cbn [evict_loop]. destruct (Z.ltb_spec f n); [|by eauto 10].
  destruct (evict_turn_spec target cap s Hi Hcap) as ([[[[k c]|] s']|]&->&Hr); simpl.
  - destruct Hr as (Hi'&Hm&Hk&Ht). simpl in *.
    destruct (evicted_step _ _ _ _ _ _ Hfit Hev Hk) as (_&_&Hev'). rewrite <- Ht in Hev'.
    apply IH; [done..|lia].
  - destruct Hr as (Hi'&Hm&Ht). simpl in *. apply IH; [done..|by rewrite Ht|lia].
  - eauto 10.
Qed.

Lemma s3_evict_spec p n :
  inv (ghost_cap p) (state p) → 1 ≤ ghost_cap p →
  ∃ vs f p', evict n p = Some (vs, f, p') ∧ inv (ghost_cap p') (state p') ∧ ghost_cap p' = ghost_cap p ∧
    evicted (tracked_costs (state p)) vs f (tracked_costs (state p')) ∧ (n ≤ f ∨ meta (state p') = ∅).
Proof.
  intros Hi Hcap. unfold evict.
  destruct (s3_evict_loop_spec (S (measure (state p))) (small_target p) (ghost_cap p) n
    (tracked_costs (state p)) [] 0 (state p)) as (vs&f&s'&->&?&?&?);
    [done|done|by apply (i_costs ∅ (ghost_cap p)), Hi|apply evicted_nil|lia|].
  exists vs, f. eexists. split; [done|]. done.
Qed.

Lemma compact_spec cap s : inv cap s → inv cap (compact s) ∧ tracked_costs (compact s) = tracked_costs s ∧ meta (compact s) = meta s.
Proof.
  intros [[Hc Hf Ht Hq Hg Hgc] Hsc]. unfold compact. destruct (_ <=? _)%nat; [done|].
  split; [|done]. split; [|done]. split; [done..| |done|done]. simpl. intros k d Hk HX.
  specialize (Hq k d Hk HX). destruct (m_queue d) eqn:E; simpl in *; apply list_elem_of_filter; split; [|done| |done].
  all: unfold live; simpl; by rewrite Hk, Z.eqb_refl, bool_decide_true.
Qed.

(** A key not followed is queued once, in the main queue when the ghost list
    remembers it. *)
Lemma on_admit_new p k c :
  inv (ghost_cap p) (state p) → cost_fits (tracked_costs (state p)) k c → meta (state p) !! k = None →
  ∃ p' st, on_admit k c p = Some (Admit, p') ∧ inv (ghost_cap p) (state p') ∧ ghost_cap p' = ghost_cap p ∧
    tracked_costs (state p') = <[k:=c]> (tracked_costs (state p)) ∧
    meta (state p') !! k = Some (mk_meta c 0 (if bool_decide (k ∈ ghost_set (state p)) then Main else Small) st).
Proof.
  intros [Hi Hsc] Hfit Hk. unfold on_admit. rewrite Hk.
  set (s1 := mk_state _ _ _ _ _ _ _ _). set (d := mk_meta c 0 Small 0).
  set (q := if bool_decide (k ∈ ghost_set (state p)) then Main else Small).
  assert (Ht1 : tracked_costs s1 = <[k:=c]> (tracked_costs (state p)))
    by (unfold tracked_costs; simpl; by rewrite fmap_insert).
  pose proof (sums_range _ _ _ Hi) as Hr. destruct Hi as [Hc Hf Ht Hq Hg Hgc].
  destruct (push_spec (ghost_cap p) s1 k q d) as (s2&->&Hi2&Ht2&_&Hm2).
  - split.
    + rewrite Ht1. by apply costs_fit_insert.
    + simpl. intros j e [[<- <-]|[_ Hj]]%lookup_insert_Some; [unfold FREQ_MAX; simpl; lia|by apply (Hf j)].
    + simpl. rewrite wsum_insert, delete_id, Ht by done. simpl. destruct Hfit as [? Hlt].
      unfold tracked_costs in Hlt. rewrite <- fmap_delete, delete_id, msum_fmap in Hlt by done.
      rewrite u64_add_small by lia. lia.
    + simpl. intros j e [[<- <-]|[? Hj]]%lookup_insert_Some ?; [set_solver|]. apply Hq; [done|set_solver].
    + simpl. intros g [? _]%elem_of_difference. by apply Hg.
    + done.
  - simpl. by rewrite lookup_insert_eq.
  - simpl. by rewrite delete_insert_eq, delete_id.
  - simpl. destruct (compact_spec _ _ Hi2) as (Hi3&Ht3&Hm3).
    eexists _, _. split; [done|]. split; [done|]. split; [done|]. simpl. split; [by rewrite Ht3, Ht2|].
    rewrite Hm3, Hm2. by rewrite lookup_insert_eq.
Qed.

Lemma on_admit_old p k c d :
  inv (ghost_cap p) (state p) → cost_fits (tracked_costs (state p)) k c → meta (state p) !! k = Some d →
  ∃ p', on_admit k c p = Some (Admit, p') ∧ inv (ghost_cap p) (state p') ∧ ghost_cap p' = ghost_cap p ∧
    tracked_costs (state p') = <[k:=c]> (tracked_costs (state p)).
Proof.
  intros [Hi Hsc] Hfit Hk. unfold on_admit. rewrite Hk. eexists. split; [done|]. simpl.
  set (d' := mk_meta c (m_freq d) (m_queue d) (m_stamp d)).
  pose proof (sums_range _ _ _ Hi) as Hr. pose proof (small_w_range _ _ _ _ _ Hi Hk) as Hd.
  destruct Hi as [Hc Hf Ht Hq Hg Hgc]. pose proof Hfit as [Hc0 Hlt].
  unfold tracked_costs in Hlt. rewrite <- fmap_delete, msum_fmap in Hlt.
  assert (H0 : 0 ≤ wsum small_w (delete k (meta (state p))) ≤ wsum m_cost (delete k (meta (state p)))).
  { split; [apply wsum_nonneg|apply wsum_mono]; intros j e [_ Hj]%lookup_delete_Some;
      by apply (small_w_range (state p) (ghost_cap p) ∅ j). }
  assert (Htr : m_cost <$> <[k:=d']> (meta (state p)) = <[k:=c]> (tracked_costs (state p)))
    by (unfold tracked_costs; by rewrite fmap_insert).
  split; [|done]. split; [split|].
  - unfold tracked_costs. simpl. rewrite Htr. by apply costs_fit_insert.
  - simpl. intros j e [[<- <-]|[_ Hj]]%lookup_insert_Some; [exact (Hf k d Hk)|by apply (Hf j)].
  - simpl. rewrite wsum_insert, Ht. rewrite (wsum_delete m_cost _ _ _ Hk) in *. simpl.
    rewrite u64_sub_small, u64_add_small by lia. lia.
  - simpl. intros j e [[<- <-]|[? Hj]]%lookup_insert_Some ?; [exact (Hq k d Hk ltac:(done))|].
    by apply (Hq j).
  - done.
  - done.
  - simpl. rewrite wsum_insert, Hsc. rewrite (wsum_delete small_w _ _ _ Hk) in *.
    rewrite (wsum_delete m_cost _ _ _ Hk) in Hr.
    assert (Ew : small_w d = if bool_decide (m_queue d = Small) then m_cost d else 0) by done.
    assert (Ew' : small_w d' = if bool_decide (m_queue d = Small) then c else 0) by done.
    rewrite Ew, Ew' in *. case_bool_decide; [|lia].
    rewrite u64_sub_small, u64_add_small by lia. lia.
Qed.

Lemma s3_on_remove_spec p k :
  inv (ghost_cap p) (state p) →
  ∃ p', on_remove k p = Some p' ∧ inv (ghost_cap p) (state p') ∧ ghost_cap p' = ghost_cap p ∧
    tracked_costs (state p') = delete k (tracked_costs (state p)).
Proof.
  intros [Hi Hsc]. unfold on_remove. destruct (meta (state p) !! k) as [d|] eqn:Hk.
  - set (s' := with_costs _ _ _).
    assert (Hi' : inv_but {[k]} (ghost_cap p) (state p)).
    { destruct Hi as [Hc Hf Ht Hq Hg Hgc]. split; [done..| |done|done]. intros j e Hj _. by apply Hq. }
    destruct (forget (ghost_cap p) (state p) s' k d) as (?&?&_);
      [done|done|done|done| |by intros []|done|done|by eexists].
    simpl. pose proof (sums_range _ _ _ Hi). pose proof (small_w_range _ _ _ _ _ Hi Hk). rewrite Hsc.
    rewrite (wsum_delete small_w _ _ _ Hk) in *. unfold small_w in *. case_bool_decide; [|lia].
    assert (0 ≤ wsum small_w (delete k (meta (state p)))).
    { apply wsum_nonneg. intros j e [_ Hj]%lookup_delete_Some. by apply (small_w_range (state p) (ghost_cap p) ∅ j). }
    unfold small_w in *. rewrite u64_sub_small by lia. lia.
  - exists p. split; [done|]. split; [done|]. split; [done|].
    unfold tracked_costs. by rewrite <- fmap_delete, delete_id.
Qed.
Lemma s3_on_access_spec p k c :
  inv (ghost_cap p) (state p) →
  ∃ p', on_access k c p = Some p' ∧ inv (ghost_cap p) (state p') ∧ ghost_cap p' = ghost_cap p ∧
    tracked_costs (state p') = tracked_costs (state p).
Proof.
  intros [[Hc Hf Ht Hq Hg Hgc] Hsc]. eexists. split; [done|]. simpl.
  set (bump := λ d, mk_meta (m_cost d) (Z.min ((m_freq d + 1) mod 256) FREQ_MAX) (m_queue d) (m_stamp d)).
  assert (Hal : ∀ (w : Meta → Z), (∀ d, w (bump d) = w d) → w <$> alter bump k (meta (state p)) = w <$> meta (state p)).
  { intros w Hw. apply map_eq. intros j. rewrite !lookup_fmap.
    destruct (decide (j = k)) as [->|]; [|by rewrite lookup_alter_ne].
    rewrite lookup_alter_eq. destruct (meta (state p) !! k); simpl; [by rewrite Hw|done]. }
  split; [|split; [done|by apply Hal]]. split; [split|].
  - unfold tracked_costs. simpl. by rewrite Hal.
  - simpl. intros j d [[<- (d0&Hj&->)]|[_ Hj]]%lookup_alter_Some; [|by apply (Hf j)].
    specialize (Hf k d0 Hj). unfold bump, FREQ_MAX in *. simpl. pose proof (Z.mod_pos_bound (m_freq d0 + 1) 256). lia.
  - simpl. by rewrite <- msum_fmap, Hal, msum_fmap.
  - simpl. intros j d [[<- (d0&Hj&->)]|[_ Hj]]%lookup_alter_Some HX; [exact (Hq k d0 Hj HX)|exact (Hq j d Hj HX)].
  - done.
  - done.
  - simpl. by rewrite <- msum_fmap, Hal, msum_fmap.
Qed.

Definition wf p : Prop := inv (ghost_cap p) (state p) ∧ 1 ≤ ghost_cap p.

Lemma s3_wf_new capacity : 0 ≤ capacity → wf (new capacity).
Proof.
  intros. split; simpl; [|lia]. split; [|done]. split; simpl; try done; lia.
Qed.

#[global] Instance laws : PolicyLaws K (S3FifoPolicy K).
Proof.
  refine {| policy_wf p := wf p; tracked p := tracked_costs (state p) |}; simpl.
  - intros p [[[] _] _]. done.
  - intros p k c [Hi Hcap] _. destruct (s3_on_access_spec p k c Hi) as (p'&?&?&E&?).
    exists p'. unfold wf. rewrite E. auto.
  - intros p k c [Hi Hcap] Hfit. destruct (meta (state p) !! k) as [d|] eqn:Hk.
    + destruct (on_admit_old p k c d Hi Hfit Hk) as (p'&?&?&E&?). exists Admit, p', c.
      unfold wf. rewrite E. split; [done|]. split; [done|]. by apply admit_plain; [left|].
    + destruct (on_admit_new p k c Hi Hfit Hk) as (p'&_&?&?&E&?&_). exists Admit, p', c.
      unfold wf. rewrite E. split; [done|]. split; [done|]. by apply admit_plain; [left|].
  - intros p k [Hi Hcap]. destruct (s3_on_remove_spec p k Hi) as (p'&?&?&E&?).
    exists p'. unfold wf. rewrite E. auto.
  - intros p n [Hi Hcap] _. destruct (s3_evict_spec p n Hi Hcap) as (vs&f&p'&?&?&E&?&?).
    exists vs, f, p'. unfold wf. rewrite E in *. auto.
  - intros p [_ Hcap]. eexists. split; [done|]. split; [|done]. split; [|done].
    split; [|done]. split; simpl; try done; lia.
Defined.

#[global] Instance evicts_enough : EvictsEnough K (S3FifoPolicy K).
Proof.
  intros p n vs f p1 [Hi Hcap] _ Hev. destruct (s3_evict_spec p n Hi Hcap) as (vs'&f'&p'&Hev'&?&?&?&Hen).
  simpl in *. rewrite Hev in Hev'. simplify_eq. destruct Hen as [?|Hem]; [by left|right].
  unfold tracked_costs. by rewrite Hem, fmap_empty.
Qed.

#[global] Instance exact_costs : ExactCosts K (S3FifoPolicy K).
Proof.
  intros p k c d p' [Hi Hcap] Hfit Had. simpl in *. destruct (meta (state p) !! k) as [e|] eqn:Hk.
  - destruct (on_admit_old p k c e Hi Hfit Hk) as (p1&Had'&?&?&?). rewrite Had in Had'. simplify_eq/=.
    by rewrite without_nil.
  - destruct (on_admit_new p k c Hi Hfit Hk) as (p1&?&Had'&?&?&?&_). rewrite Had in Had'. simplify_eq/=.
    by rewrite without_nil.
Qed.

(** [S3FifoPolicy::evict] always returns (within [measure] turns), keeps
    the bookkeeping exact, names distinct followed keys with their costs, and
    stops short of [n] only when no key is followed any more: no live key is lost
    behind stale queue entries, even when the [u32] stamps wrap; the ghost list
    stays within its capacity. *)
Theorem s3fifo_evict_complete p n :
  wf p →
  ∃ vs f p', evict n p = Some (vs, f, p') ∧ wf p' ∧
    evicted (m_cost <$> meta (state p)) vs f (m_cost <$> meta (state p')) ∧
    (n ≤ f ∨ meta (state p') = ∅) ∧
    small_cost (state p') = wsum small_w (meta (state p')) ∧
    total_cost (state p') = wsum m_cost (meta (state p')) ∧
    Z.of_nat (length (ghost (state p'))) ≤ ghost_cap p.
Proof.
  intros [Hi Hcap]. destruct (s3_evict_spec p n Hi Hcap) as (vs&f&p'&?&Hi'&E&?&?).
  exists vs, f, p'. unfold wf. rewrite E in *. pose proof Hi' as [[_ _ ? _ _ ?] ?].
  split_and!; done.
Qed.

(** The ghost list does what S3-FIFO is named for. A key taken from the
    small queue is remembered, and when it is next admitted it is queued in the
    main queue, with the cost it is admitted with. *)
Theorem s3fifo_ghost_to_main target cap s s' k c d c' :
  inv cap s → 1 ≤ cap → meta s !! k = Some d → m_queue d = Small →
  evict_turn target cap s = Some (Some (Some (k, c), s')) →
  cost_fits (tracked_costs s') k c' →
  ∃ p' st, on_admit k c' (mk_s3 s' target cap) = Some (Admit, p') ∧ wf p' ∧
    meta (state p') !! k = Some (mk_meta c' 0 Main st) ∧ (k, st) ∈ main (state p').
Proof.
  intros Hi Hcap Hk Hq Ht Hfit.
  destruct (evict_turn_spec target cap s Hi Hcap) as (r&Ht'&Hok). rewrite Ht in Ht'. simplify_eq.
  destruct Hok as (Hi'&_&_&Hdel). simpl in Hi', Hdel.
  assert (Hk' : meta s' !! k = None).
  { assert (E : tracked_costs s' !! k = None) by (rewrite Hdel; apply lookup_delete_eq).
    unfold tracked_costs in E. rewrite lookup_fmap in E. by destruct (meta s' !! k). }
  assert (Hg : k ∈ ghost_set s').
  { unfold evict_turn in Ht. destruct (negb _ && _) eqn:Efs.
    - destruct (small s) as [|[k1 st1] q]; [done|]. simpl in Ht.
      destruct (meta s !! k1) as [d1|] eqn:Hk1; [|done]. destruct (live _ _ _) eqn:Hl; [|done].
      unfold take_small in Ht. destruct (1 <? m_freq d1); [destruct (push _ _ _); naive_solver|].
      simpl in Ht. simplify_eq. unfold remember_ghost. simpl. repeat case_match; simplify_eq/=; set_solver.
    - destruct (main s) as [|[k1 st1] q]; [done|]. simpl in Ht.
      destruct (meta s !! k1) as [d1|] eqn:Hk1; [|done]. destruct (live _ _ _) eqn:Hl; [|done].
      unfold take_main in Ht. destruct (0 <? m_freq d1); [destruct (push _ _ _); naive_solver|].
      apply (live_true _ _ _ _ _ Hk1) in Hl as [? _]. simpl in Ht. simplify_eq. congruence. }
  destruct (on_admit_new (mk_s3 s' target cap) k c' Hi' Hfit Hk') as (p'&st&?&Hip&E&_&Hm).
  simpl in *. rewrite bool_decide_true in Hm by done. exists p', st.
  unfold wf. rewrite E. split_and!; [done|done|done|done|].
  destruct Hip as [Hip _]. exact (i_queued _ _ _ Hip k _ Hm (not_elem_of_empty _)).
Qed.
End Proofs.

Definition s3_ops : list (PolicyOp nat) :=
  [OpAdmit 1%nat 4; OpAdmit 2%nat 3; OpAdmit 3%nat 6; OpAccess 2%nat 0; OpAccess 2%nat 0].

Definition s3_example : option (S3FifoPolicy nat) := policy_run s3_ops (new 20).

Lemma s3_example_wf : ∃ p, s3_example = Some p ∧ wf p.
Proof.
  destruct (policy_run_ok s3_ops (new 20)) as (p&Hp&Hw&_);
    [by apply s3_wf_new|by repeat constructor|done|].
  exists p. split; [exact Hp|exact Hw].
Qed.

Lemma s3fifo_evict_complete_witness :
  ∃ p p', s3_example = Some p ∧ evict 9 p = Some ([1; 3]%nat, 10, p') ∧ wf p' ∧
    main (state p') = [(2%nat, 4)] ∧ ghost (state p') = [1; 3]%nat.
Proof.
  destruct s3_example_wf as (p&E&Hw).
  destruct (s3fifo_evict_complete p 9 Hw) as (vs&f&p'&Hev&Hw'&_).
  exists p, p'. split; [exact E|].
  assert (Ec : (p ← s3_example; '(vs, f, p') ← evict 9 p; Some (vs, f, main (state p'), ghost (state p')))
    = Some ([1; 3]%nat, 10, [(2%nat, 4)], [1; 3]%nat)) by (vm_compute; reflexivity).
  rewrite E in Ec. simpl in Ec. rewrite Hev in Ec. simpl in Ec. injection Ec as -> -> -> ->.
  split; [exact Hev|]. split; [exact Hw'|]. split; reflexivity.
Defined.

Lemma s3fifo_ghost_to_main_witness :
  ∃ p s' p' st, s3_example = Some p ∧
    evict_turn 2 20 (state p) = Some (Some (Some (1%nat, 4), s')) ∧
    on_admit 1%nat 5 (mk_s3 s' 2 20) = Some (Admit, p') ∧
    meta (state p') !! 1%nat = Some (mk_meta 5 0 Main st).
Proof.
  destruct s3_example_wf as (p&E&Hw).
  assert (Ec : (p ← s3_example; Some (ghost_cap p)) = Some 20) by (vm_compute; reflexivity).
  rewrite E in Ec. simpl in Ec. injection Ec as Ec. destruct Hw as [Hi _]. rewrite Ec in Hi.
  assert (Et : (p ← s3_example; r ← evict_turn 2 20 (state p);
    match r with Some (Some v, s') => Some (v, bool_decide (cost_fits (tracked_costs s') 1%nat 5)) | _ => None end)
    = Some ((1%nat, 4), true)) by (vm_compute; reflexivity).
  assert (Em : (p ← s3_example; meta (state p) !! 1%nat) = Some (mk_meta 4 0 Small 1)) by (vm_compute; reflexivity).
  rewrite E in Et, Em. simpl in Et, Em.
  destruct (evict_turn 2 20 (state p)) as [[[[v|] s']|]|] eqn:Ht; simpl in Et; try discriminate Et.
  injection Et as -> Hb%bool_decide_eq_true_1.
  destruct (s3fifo_ghost_to_main 2 20 (state p) s' 1%nat 4 (mk_meta 4 0 Small 1) 5 Hi ltac:(lia) Em eq_refl Ht Hb)
    as (p'&st&Had&_&Hm&_).
  exists p, s', p', st. split; [exact E|]. split; [exact Ht|]. split; [exact Had|exact Hm].
Defined.
