(* ===== verification/Float.v ===== *)
(** * The [f64] arithmetic of the policies' constructors

    The policies compute their segment sizes as [(x as f64 * q).round() as u64].
    Rust's [f64] is IEEE binary64; [SpecFloat] is its executable specification. *)

From Stdlib Require Import SpecFloat.
From S2P Require Import Prelude.

Definition f64_of_u64 (x : Z) : spec_float := binary_normalize 53 1024 x 0 false.
Definition f64_mul : spec_float → spec_float → spec_float := SFmul 53 1024.
Definition f64_div : spec_float → spec_float → spec_float := SFdiv 53 1024.

(** The literals [0.20] and [0.01]. *)
Definition f64_020 : spec_float := S754_finite false 7205759403792794 (-55).
Definition f64_001 : spec_float := S754_finite false 5764607523034235 (-59).

(** [x.round() as u64]: halves away from zero; the cast saturates, and sends NaN
    to zero. *)
Definition round_as_u64 (x : spec_float) : Z :=
  match x with
  | S754_finite false m e =>
      Z.min u64_max (if 0 <=? e then Z.pos m * 2 ^ e else (Z.pos m + 2 ^ (- e - 1)) / 2 ^ (- e))
  | S754_infinity false => u64_max
  | _ => 0
  end.

(** [(x as f64 * q).round() as u64]. *)
Definition scaled (q : spec_float) (x : Z) : Z := round_as_u64 (f64_mul (f64_of_u64 x) q).

Lemma round_as_u64_range x : 0 ≤ round_as_u64 x ≤ u64_max.
Proof.
  destruct x as [| [] | | [] m e]; simpl; try u64_lia.
  set (y := if 0 <=? e then _ else _). assert (0 ≤ y); [|u64_lia]. unfold y.
  destruct (Z.leb_spec 0 e); [apply Z.mul_nonneg_nonneg; [lia|apply Z.pow_nonneg; lia]|].
  apply Z.div_pos; [|apply Z.pow_pos_nonneg; lia].
  pose proof (Z.pow_nonneg 2 (- e - 1)). lia.
Qed.
