(* ===== verification/Slru.v ===== *)
(** * [cache/src/policy/slru.rs]: segmented LRU

    Two [LruList]s.  Demotion pops the oldest protected key and pushes it to the
    front of the probationary list, so the list "protected, then probationary" is
    left as it is and only the boundary in it moves: that one list is the
    abstraction of the state, and eviction takes from its back. *)

From S2P Require Import Prelude Dll Arena LruList Policy Float.

Section Code.
Context {Index : Type} {A : Type → Type} `{EqDecision Index} `{!Arena Index A}.
Context {K : Type} `{Countable K}.

Record SlruState := mk_slru { probationary : LruList Index A K; protected : LruList Index A K }.
Implicit Types s : SlruState.

Definition state_new : SlruState := mk_slru LruList.new LruList.new.

Definition new_with_capacity (_ : Z) : SlruState := state_new.

Fixpoint maintain_loop (fuel : nat) (prot_capacity : Z) s : option SlruState :=
  if prot_capacity <? current_total_cost (protected s) then
    match fuel with
    | O => None
    | S fuel =>
        '(popped, prot) ← pop_back (protected s);
        match popped with
        | Some (key, cost) =>
            prob ← push_new (probationary s) key cost;
            maintain_loop fuel prot_capacity (mk_slru prob prot)
        | None => Some (mk_slru (probationary s) prot)
        end
    end
  else Some s.

Definition maintain_capacities (prot_capacity : Z) s : option SlruState :=
  maintain_loop (S (size (ll_lookup (protected s)))) prot_capacity s.

Definition peek_lru s : option (option K) :=
  match ll_tail (probationary s) with
  | Some tail_idx => n ← arena_get tail_idx (ll_nodes (probationary s)); Some (Some (n_key n))
  | None =>
      match ll_tail (protected s) with
      | Some tail_idx => n ← arena_get tail_idx (ll_nodes (protected s)); Some (Some (n_key n))
      | None => Some None
      end
  end.

Definition admit_internal (key : K) (cost : Z) s : option SlruState :=
  if contains (protected s) key then Some s
  else prob ← push_front (probationary s) key cost; Some (mk_slru prob (protected s)).

Definition touch (key : K) (cost prot_capacity : Z) s : option (bool * SlruState) :=
  match ll_lookup (protected s) !! key with
  | Some index => prot ← touch_index (protected s) index cost; Some (true, mk_slru (probationary s) prot)
  | None =>
      '(removed, prob) ← remove (probationary s) key;
      match removed with
      | Some _ =>
          prot ← push_new (protected s) key cost;
          s' ← maintain_capacities prot_capacity (mk_slru prob prot);
          Some (true, s')
      | None => Some (false, mk_slru prob (protected s))
      end
  end.

Definition access_internal (key : K) (cost prot_capacity : Z) s : option SlruState :=
  '(_, s') ← touch key cost prot_capacity s; Some s'.

Definition evict_items (cost_to_free prot_capacity : Z) s : option (list K * Z * SlruState) :=
  s1 ← maintain_capacities prot_capacity s;
  '(need, victims, freed, prob) ←
    pop_until (S (size (ll_lookup (probationary s1)))) cost_to_free [] 0 (probationary s1);
  '(_, victims, freed, prot) ←
    pop_until (S (size (ll_lookup (protected s1)))) need victims freed (protected s1);
  Some (victims, freed, mk_slru prob prot).

Record SlruPolicy := mk_slru_policy { state : SlruState; prob_capacity : Z; prot_capacity : Z }.
Implicit Types p : SlruPolicy.

Definition new (capacity : Z) : SlruPolicy :=
  let prob := if capacity =? 0 then 0 else Z.max (scaled f64_020 capacity) 1 in
  mk_slru_policy state_new prob (capacity -sat prob).

Definition with_state s p : SlruPolicy := mk_slru_policy s (prob_capacity p) (prot_capacity p).

Definition on_access (key : K) (cost : Z) p : option SlruPolicy :=
  s ← access_internal key cost (prot_capacity p) (state p); Some (with_state s p).

Definition on_admit (key : K) (cost : Z) p : option (AdmissionDecision K * SlruPolicy) :=
  let s := state p in
  s' ← (if negb (contains (protected s) key) && negb (contains (probationary s) key)
        then prob ← push_front (probationary s) key cost; Some (mk_slru prob (protected s))
        else Some s);
  Some (Admit, with_state s' p).

Definition on_remove (key : K) p : option SlruPolicy :=
  '(removed, prob) ← remove (probationary (state p)) key;
  match removed with
  | Some _ => Some (with_state (mk_slru prob (protected (state p))) p)
  | None =>
      '(_, prot) ← remove (protected (state p)) key;
      Some (with_state (mk_slru prob prot) p)
  end.

Definition evict (cost_to_free : Z) p : option (list K * Z * SlruPolicy) :=
  '(victims, freed, s) ← evict_items cost_to_free (prot_capacity p) (state p);
  Some (victims, freed, with_state s p).

Definition clear p : option SlruPolicy :=
  Some (with_state (mk_slru (LruList.clear (probationary (state p))) (LruList.clear (protected (state p)))) p).

#[global] Instance policy : CachePolicy K SlruPolicy := {
  Policy.on_access := on_access;
  Policy.uses_access_events _ := true;
  Policy.on_admit := on_admit;
  Policy.on_remove := on_remove;
  Policy.evict := evict;
  Policy.clear := clear;
}.
End Code.
Arguments SlruState Index A K {_ _}.
Arguments SlruPolicy Index A K {_ _}.

Section Proofs.
Context {Index : Type} {A : Type → Type} `{ArenaLaws Index A}.
Context {K : Type} `{Countable K}.
Implicit Types (s : SlruState Index A K) (p : SlruPolicy Index A K) (xs ys zs : list (K * Z)).

(** [ys] protected, [xs] probationary, both most recent first. *)
Definition SRepr s ys xs : Prop :=
  Repr (protected s) ys ∧ Repr (probationary s) xs ∧ NoDup (ys ++ xs).*1 ∧ costs (ys ++ xs) < U64.

Definition state_tracked s : gmap K Z := contents (protected s) ∪ contents (probationary s).

Lemma SRepr_tracked s ys xs : SRepr s ys xs → state_tracked s = list_to_map (ys ++ xs).
Proof.
  intros (Hy&Hx&_&_). unfold state_tracked.
  by rewrite (Repr_contents _ _ Hy), (Repr_contents _ _ Hx), list_to_map_app.
Qed.

Lemma SRepr_ok s ys xs : SRepr s ys xs → costs_ok (ys ++ xs).
Proof.
  intros (Hy&Hx&_&_). apply Repr_costs in Hy as [? _]. apply Repr_costs in Hx as [? _]. by apply Forall_app.
Qed.

Lemma SRepr_fit s ys xs : SRepr s ys xs → costs_fit (state_tracked s).
Proof.
  intros HS. rewrite (SRepr_tracked _ _ _ HS). pose proof (SRepr_ok _ _ _ HS) as Hok.
  destruct HS as (_&_&Hnd&Hlt). split; [|by rewrite msum_list].
  intros k c Hk. apply elem_of_list_to_map_2 in Hk. unfold costs_ok in Hok.
  rewrite Forall_forall in Hok. exact (Hok _ Hk).
Qed.

(** Demotion moves the boundary and nothing else. *)
Lemma maintain_loop_spec fuel cap s ys xs :
  SRepr s ys xs → 0 ≤ cap → (length ys < fuel)%nat →
  ∃ s' ys' zs, maintain_loop fuel cap s = Some s' ∧ ys = ys' ++ zs ∧ SRepr s' ys' (zs ++ xs) ∧
    costs ys' ≤ cap ∧ (∀ z zs', zs = z :: zs' → cap < costs (ys' ++ [z])).
Proof.
  revert s ys xs. induction fuel as [|fuel IH]; intros s ys xs HS Hcap Hf; [lia|].
  pose proof (SRepr_ok _ _ _ HS) as Hok. destruct HS as (Hy&Hx&Hnd&Hlt). cbn [maintain_loop].
  rewrite (Repr_cost _ _ Hy). destruct (Z.ltb_spec cap (costs ys)).
  - destruct ys as [|[k c] ys _] using rev_ind; [rewrite costs_nil in *; lia|].
    destruct (Repr_pop_back _ _ _ _ Hy) as (prot&->&Hy1). cbn [mbind option_bind].
    rewrite <- app_assoc in Hnd, Hlt, Hok. simpl in Hnd, Hlt, Hok.
    apply Forall_app in Hok as [Hok1 [Hc Hok2]%costs_ok_cons].
    rewrite costs_app, costs_cons in Hlt. apply costs_nonneg in Hok1 as ?. apply costs_nonneg in Hok2 as ?.
    destruct (Repr_push_new (probationary s) xs k c Hx) as (prob&->&Hx1); [|done|lia|].
    { rewrite fmap_app, NoDup_app in Hnd. destruct Hnd as (_&_&Hnd). simpl in Hnd. by apply NoDup_cons in Hnd as [? _]. }
    simpl. destruct (IH (mk_slru prob prot) ys ((k, c) :: xs)) as (s'&ys'&zs&HE&->&HS'&Hle&Hmin).
    { split_and!; [done|done|done|]. rewrite costs_app, costs_cons. lia. }
    { done. }
    { rewrite length_app in Hf. simpl in Hf. lia. }
    exists s', ys', (zs ++ [(k, c)]). rewrite <- !app_assoc. split_and!; [done|done|done|done|].
    intros z zs'. destruct zs as [|z0 zs]; simpl; intros ?; simplify_eq.
    + rewrite app_nil_r in *. done.
    + by apply (Hmin z zs).
  - exists s, ys, []. rewrite app_nil_r. by split_and!.
Qed.

Lemma maintain_spec cap s ys xs :
  SRepr s ys xs → 0 ≤ cap →
  ∃ s' ys' zs, maintain_capacities cap s = Some s' ∧ ys = ys' ++ zs ∧ SRepr s' ys' (zs ++ xs) ∧
    costs ys' ≤ cap ∧ (∀ z zs', zs = z :: zs' → cap < costs (ys' ++ [z])).
Proof.
  intros HS Hcap. apply maintain_loop_spec; [done|done|]. destruct HS as ((es&Hw&->)&_&_&_).
  rewrite (wf_size _ _ Hw), length_fmap. lia.
Qed.

Lemma pop_until_Repr need vs freed (l : LruList Index A K) xs :
  Repr l xs → 0 ≤ need → 0 ≤ freed → freed + costs xs < U64 →
  let '(V, R) := take_until need (reverse xs) in
  ∃ l', pop_until (S (size (ll_lookup l))) need vs freed l
        = Some (need -sat costs V, vs ++ V.*1, freed + costs V, l') ∧ Repr l' (reverse R).
Proof.
  intros HR Hn Hfr Hlt. destruct HR as (es&Hw&->). rewrite (wf_size _ _ Hw).
  apply pop_until_spec; [by exists es|rewrite length_fmap; lia|done..].
Qed.

Lemma SRepr_sub s s' ys xs V W ys' xs' :
  SRepr s ys xs → Repr (protected s') ys' → Repr (probationary s') xs' →
  V ++ reverse xs' = reverse xs → W ++ reverse ys' = reverse ys → SRepr s' ys' xs'.
Proof.
  intros HS Hy Hx HV HW. pose proof (SRepr_ok _ _ _ HS) as Hok. destruct HS as (_&_&Hnd&Hlt).
  assert (Hp : ys ++ xs ≡ₚ (ys' ++ xs') ++ (V ++ W)).
  { rewrite <- (reverse_Permutation ys), <- (reverse_Permutation xs), <- HV, <- HW, !reverse_Permutation.
    solve_Permutation. }
  rewrite Hp in Hnd, Hlt. unfold costs_ok in Hok. rewrite Hp in Hok. apply Forall_app in Hok as [_ Hvw].
  apply costs_nonneg in Hvw. rewrite costs_app in Hlt. rewrite fmap_app in Hnd.
  split_and!; [done|done|by apply NoDup_app in Hnd as (?&_)|lia].
Qed.

Lemma evict_items_spec n cap s ys xs :
  SRepr s ys xs → 0 ≤ cap → 0 ≤ n →
  let '(V, R) := take_until n (reverse (ys ++ xs)) in
  ∃ s' ys' xs', evict_items n cap s = Some (V.*1, costs V, s') ∧ SRepr s' ys' xs' ∧
    ys' ++ xs' = reverse R ∧ costs ys' ≤ cap.
Proof.
  intros HS Hcap Hn. unfold evict_items.
  destruct (maintain_spec cap s ys xs HS Hcap) as (s1&ys1&zs&->&->&HS1&Hle&_). cbn [mbind option_bind].
  rewrite <- app_assoc, reverse_app. set (xs1 := zs ++ xs) in *.
  pose proof (SRepr_ok _ _ _ HS1) as [Hoky Hokx]%Forall_app. pose proof HS1 as (Hy&Hx&_&Hlt).
  rewrite costs_app in Hlt. apply costs_nonneg in Hoky as Hpy. apply costs_nonneg in Hokx as Hpx.
  pose proof (pop_until_Repr n [] 0 _ xs1 Hx Hn ltac:(lia) ltac:(lia)) as Hpop1.
  pose proof (take_until_back n xs1 Hokx) as Hb1.
  pose proof (take_until_concat n (reverse xs1) (reverse ys1)) as Hcc.
  destruct (take_until n (reverse xs1)) as [V R]. destruct Hpop1 as (prob&->&Hprob).
  destruct Hb1 as (Ha1&HV&HR&Hsum1&He1). cbn [mbind option_bind app]. rewrite Z.add_0_l.
  pose proof (pop_until_Repr (n -sat costs V) V.*1 (costs V) _ ys1 Hy ltac:(u64_lia) HV ltac:(lia)) as Hpop2.
  rewrite take_until_sat in Hpop2. pose proof (take_until_back (n - costs V) ys1 Hoky) as Hb2.
  pose proof (take_until_done (n - costs V) (reverse ys1)) as Hdone.
  destruct (take_until (n - costs V) (reverse ys1)) as [W T]. destruct Hpop2 as (prot&->&Hprot).
  destruct Hb2 as (Ha2&HW&HT&Hsum2&_).
  assert (HS' : SRepr (mk_slru prob prot) (reverse T) (reverse R))
    by (apply (SRepr_sub s1 _ ys1 xs1 V W); rewrite ?reverse_involutive; done).
  assert (HcT : costs (reverse T) ≤ cap) by (rewrite costs_reverse; lia).
  rewrite Hcc. destruct R as [|r R].
  - rewrite fmap_app, costs_app. eexists _, _, _. split; [done|]. split; [exact HS'|].
    split; [by rewrite app_nil_r|done].
  - assert (W = [] ∧ T = reverse ys1) as [-> ->]
      by (destruct He1 as [He1|]; [|done]; specialize (Hdone ltac:(lia)); by simplify_eq).
    rewrite fmap_nil, app_nil_r, costs_nil, Z.add_0_r. eexists _, _, _. split; [done|]. split; [exact HS'|]. split; [|done].
    by rewrite reverse_app.
Qed.

(** An access to a followed key puts it at the front of the protected list with
    the reported cost. *)
Lemma touch_spec k c cap s ys xs :
  SRepr s ys xs → 0 ≤ cap → 0 ≤ c → costs (remove_key k (ys ++ xs)) + c < U64 →
  ∃ s' ys' xs', touch k c cap s = Some (bool_decide (k ∈ (ys ++ xs).*1), s') ∧ SRepr s' ys' xs' ∧
    ys' ++ xs' = if decide (k ∈ (ys ++ xs).*1) then (k, c) :: remove_key k (ys ++ xs) else ys ++ xs.
Proof.
  intros HS Hcap Hc Hlt. pose proof (SRepr_ok _ _ _ HS) as [Hoky Hokx]%Forall_app.
  pose proof HS as (Hy&Hx&Hnd&Hsum). unfold touch.
  assert (Hnd2 : NoDup ((k, c) :: remove_key k (ys ++ xs)).*1).
  { rewrite fmap_cons, NoDup_cons. split; [|by apply remove_key_NoDup]. rewrite elem_of_remove_key. tauto. }
  rewrite remove_key_app, costs_app in Hlt. rewrite remove_key_app in Hnd2.
  pose proof (costs_nonneg _ (remove_key_costs_ok k _ Hoky)).
  pose proof (costs_nonneg _ (remove_key_costs_ok k _ Hokx)).
  pose proof (Repr_lookup _ _ k Hy) as Hlk. destruct (ll_lookup (protected s) !! k) as [i|].
  - destruct Hlk as [Hky Htouch].
    assert (Hkx : remove_key k xs = xs).
    { apply remove_key_notin. rewrite fmap_app, NoDup_app in Hnd. destruct Hnd as (_&Hd&_). by apply Hd. }
    rewrite Hkx in *. destruct (Htouch c) as (l'&->&Hy'); [done|lia|].
    simpl. eexists _, ((k, c) :: remove_key k ys), xs.
    assert (Hin : k ∈ (ys ++ xs).*1) by (rewrite fmap_app, elem_of_app; by left).
    rewrite bool_decide_true, decide_True by done. split; [done|]. rewrite remove_key_app, Hkx.
    split; [|done]. split_and!; [done|done|done|]. simpl. rewrite costs_app. lia.
  - rename Hlk into Hky.
    rewrite (remove_key_notin k ys) in * by done.
    destruct (Repr_remove _ _ k Hx) as (prob&->&Hx'). cbn [mbind option_bind].
    destruct ((list_to_map xs : gmap K Z) !! k) as [c0|] eqn:Ec.
    + assert (Hin : k ∈ (ys ++ xs).*1).
      { rewrite fmap_app, elem_of_app. right. apply keyed_list_lookup. by eexists. }
      destruct (Repr_push_new _ ys k c Hy) as (prot&->&Hy'); [done|done|lia|]. cbn [mbind option_bind].
      destruct (maintain_spec cap (mk_slru prob prot) ((k, c) :: ys) (remove_key k xs))
        as (s'&ys'&zs&->&E&HS'&_); [split_and!; [done|done|done|simpl; rewrite costs_app; lia]|done|].
      eexists s', ys', _. rewrite bool_decide_true, decide_True by done. split; [done|]. split; [exact HS'|].
      rewrite remove_key_app, (remove_key_notin k ys), app_assoc, <- E by done. done.
    + assert (Hkx : k ∉ xs.*1) by (by apply not_elem_of_list_to_map_2).
      assert (Hin : k ∉ (ys ++ xs).*1) by (rewrite fmap_app; set_solver).
      rewrite bool_decide_false, decide_False by done. rewrite remove_key_notin in Hx' by done.
      eexists _, ys, xs. split; [done|]. split; [|done]. by split_and!.
Qed.
Lemma SRepr_new : SRepr (state_new (A:=A) (K:=K)) [] [].
Proof. split_and!; [apply Repr_new|apply Repr_new|constructor|done]. Qed.

(** A key of neither list is pushed to the front of the probationary one. *)
Lemma push_probationary k c s ys xs :
  SRepr s ys xs → k ∉ (ys ++ xs).*1 → 0 ≤ c → costs (ys ++ xs) + c < U64 →
  ∃ prob, push_front (probationary s) k c = Some prob ∧ SRepr (mk_slru prob (protected s)) ys ((k, c) :: xs).
Proof.
  intros HS Hk Hc Hlt. pose proof (SRepr_ok _ _ _ HS) as [?%costs_nonneg _]%Forall_app.
  destruct HS as (Hy&Hx&Hnd&_). rewrite costs_app in Hlt. rewrite fmap_app, not_elem_of_app in Hk. destruct Hk.
  destruct (Repr_push_front _ xs k c Hx Hc) as (prob&->&Hx'); [rewrite remove_key_notin by done; lia|].
  rewrite remove_key_notin in Hx' by done. exists prob. split; [done|]. split_and!; [done|done| |].
  - rewrite <- Permutation_middle, fmap_cons, NoDup_cons, fmap_app, not_elem_of_app. by rewrite fmap_app in Hnd.
  - rewrite costs_app, costs_cons. lia.
Qed.

Lemma remove_spec k s ys xs :
  SRepr s ys xs →
  ∃ o l, remove (probationary s) k = Some (o, l) ∧
    match o with
    | Some _ => SRepr (mk_slru l (protected s)) (remove_key k ys) (remove_key k xs)
    | None => ∃ o' l', remove (protected s) k = Some (o', l') ∧
        SRepr (mk_slru l l') (remove_key k ys) (remove_key k xs)
    end.
Proof.
  intros HS. pose proof (SRepr_ok _ _ _ HS) as Hok. destruct HS as (Hy&Hx&Hnd&Hlt).
  destruct (Repr_remove _ _ k Hx) as (l&->&Hx'). eexists _, l. split; [done|].
  assert (Hnd' : NoDup (remove_key k ys ++ remove_key k xs).*1)
    by (rewrite <- remove_key_app; by apply remove_key_NoDup).
  assert (Hlt' : costs (remove_key k ys ++ remove_key k xs) < U64).
  { rewrite <- remove_key_app. pose proof (costs_remove_key_le k _ Hok). lia. }
  destruct ((list_to_map xs : gmap K Z) !! k) as [c|] eqn:Ek.
  - split_and!; [|done|done|done]. simpl. rewrite remove_key_notin; [done|]. intros Hin.
    rewrite fmap_app, NoDup_app in Hnd. destruct Hnd as (_&Hd&_). apply (Hd k Hin).
    apply keyed_list_lookup. by eexists.
  - destruct (Repr_remove _ _ k Hy) as (l'&->&Hy'). eexists _, l'. split; [done|]. by split_and!.
Qed.

Definition wf p : Prop := (∃ ys xs, SRepr (state p) ys xs) ∧ 0 ≤ prot_capacity p.

Lemma slru_wf_new capacity : 0 ≤ capacity → wf (new (A:=A) (K:=K) capacity).
Proof. intros. split; [exists [], []; apply SRepr_new|]. simpl. unfold sat_sub. lia. Qed.

Lemma cost_fits_remove_key k c xs :
  NoDup xs.*1 → cost_fits (list_to_map xs) k c → costs (remove_key k xs) + c < U64.
Proof. intros Hnd [_ Hlt]. by rewrite msum_remove_key in Hlt. Qed.

Lemma slru_on_access_spec p k c ys xs :
  SRepr (state p) ys xs → 0 ≤ prot_capacity p → cost_fits (list_to_map (ys ++ xs)) k c →
  ∃ p' ys' xs', on_access k c p = Some p' ∧ SRepr (state p') ys' xs' ∧ prot_capacity p' = prot_capacity p ∧
    ys' ++ xs' = if decide (k ∈ (ys ++ xs).*1) then (k, c) :: remove_key k (ys ++ xs) else ys ++ xs.
Proof.
  intros HS Hcap Hfit. pose proof HS as (_&_&Hnd&_). unfold on_access, access_internal.
  destruct (touch_spec k c (prot_capacity p) (state p) ys xs) as (s'&ys'&xs'&->&?&?);
    [done|done|by destruct Hfit|by apply cost_fits_remove_key|].
  simpl. by eexists _, ys', xs'.
Qed.

Lemma slru_on_admit_spec p k c ys xs :
  SRepr (state p) ys xs → cost_fits (list_to_map (ys ++ xs)) k c →
  ∃ p' xs', on_admit k c p = Some (Admit, p') ∧ SRepr (state p') ys xs' ∧ prot_capacity p' = prot_capacity p ∧
    xs' = if decide (k ∈ (ys ++ xs).*1) then xs else (k, c) :: xs.
Proof.
  intros HS Hfit. pose proof HS as (Hy&Hx&Hnd&_). apply cost_fits_remove_key in Hfit as Hlt; [|done].
  unfold on_admit. rewrite (Repr_contains _ _ k Hy), (Repr_contains _ _ k Hx).
  destruct (decide (k ∈ (ys ++ xs).*1)) as [Hin|Hin].
  - replace (negb (bool_decide (k ∈ ys.*1)) && negb (bool_decide (k ∈ xs.*1))) with false.
    2:{ rewrite fmap_app, elem_of_app in Hin. do 2 case_bool_decide; try done. tauto. }
    simpl. eexists _, xs. split; [done|]. by destruct (state p).
  - assert (Hin2 := Hin). rewrite fmap_app, not_elem_of_app in Hin2. destruct Hin2.
    rewrite !bool_decide_false by done. simpl. rewrite remove_key_notin in Hlt by done.
    destruct (push_probationary k c (state p) ys xs) as (prob&->&HS'); [done|done|by destruct Hfit|done|].
    by eexists _, _.
Qed.

#[global] Instance laws : PolicyLaws K (SlruPolicy Index A K).
Proof.
  refine {| policy_wf p := wf p; tracked p := state_tracked (state p) |}; simpl.
  - intros p [(ys&xs&HS) _]. by eapply SRepr_fit.
  - intros p k c [(ys&xs&HS) Hcap] Hfit. rewrite (SRepr_tracked _ _ _ HS) in *.
    destruct (slru_on_access_spec p k c ys xs HS Hcap Hfit) as (p'&ys'&xs'&->&HS'&Hc&E).
    exists p'. split; [done|]. split; [split; [by eauto|by rewrite Hc]|].
    rewrite (SRepr_tracked _ _ _ HS'), E. destruct (decide (k ∈ (ys ++ xs).*1)); [right|by left].
    split; [by apply keyed_list_lookup|apply remove_key_map].
  - intros p k c [(ys&xs&HS) Hcap] Hfit. rewrite (SRepr_tracked _ _ _ HS) in *.
    destruct (slru_on_admit_spec p k c ys xs HS Hfit) as (p'&xs'&->&HS'&Hc&E).
    pose proof HS as (_&_&Hnd&_). destruct (decide (k ∈ (ys ++ xs).*1)) as [Hin|Hin].
    + apply keyed_list_lookup in Hin as [c0 Hc0]. exists Admit, p', c0. split; [done|].
      split; [split; [by eauto|by rewrite Hc]|]. apply admit_plain; [by right|].
      rewrite (SRepr_tracked _ _ _ HS'), E, insert_id by done. done.
    + exists Admit, p', c. split; [done|]. split; [split; [by eauto|by rewrite Hc]|].
      apply admit_plain; [by left|]. rewrite (SRepr_tracked _ _ _ HS'), E.
      change (<[k:=c]> (list_to_map (ys ++ xs))) with (list_to_map ((k, c) :: ys ++ xs) : gmap K Z).
      apply list_to_map_proper; [by destruct HS' as (_&_&?&_); subst|by rewrite Permutation_middle].
  - intros p k [(ys&xs&HS) Hcap]. rewrite (SRepr_tracked _ _ _ HS). unfold on_remove.
    rewrite <- list_to_map_remove_key, remove_key_app.
    destruct (remove_spec k _ _ _ HS) as (o&l&->&Ho). simpl. destruct o as [c|].
    + eexists. split; [done|]. split; [split; [by eauto|done]|]. by apply SRepr_tracked.
    + destruct Ho as (o'&l'&->&HS'). eexists. split; [done|].
      split; [split; [by eauto|done]|]. by apply SRepr_tracked.
  - intros p n [(ys&xs&HS) Hcap] Hn. rewrite (SRepr_tracked _ _ _ HS). unfold evict.
    pose proof HS as (_&_&Hnd&_). pose proof (evict_items_spec n (prot_capacity p) _ _ _ HS Hcap Hn) as He.
    pose proof (take_until_app n (reverse (ys ++ xs))) as Ha.
    destruct (take_until n (reverse (ys ++ xs))) as [V R]. destruct He as (s'&ys'&xs'&->&HS'&E&_). simpl.
    exists V.*1, (costs V). eexists. split; [done|]. split; [split; [by eauto|done]|].
    cbn [state with_state]. rewrite (SRepr_tracked _ _ _ HS'), E. apply remove_part; [done|].
    simpl in Ha. by rewrite (reverse_Permutation R), Ha, reverse_Permutation.
  - intros p [(ys&xs&HS) Hcap]. eexists. split; [done|].
    assert (HS' : SRepr (mk_slru (LruList.clear (probationary (state p))) (LruList.clear (protected (state p)))) [] []).
    { destruct HS as (Hy&Hx&_&_). split_and!; [by eapply Repr_clear|by eapply Repr_clear|constructor|done]. }
    split; [split; [by exists [], []|done]|]. by apply (SRepr_tracked _ [] []).
Defined.

#[global] Instance evicts_enough : EvictsEnough K (SlruPolicy Index A K).
Proof.
  intros p n vs f p' [(ys&xs&HS) Hcap] Hn Hev. simpl in *. unfold evict in Hev.
  pose proof (evict_items_spec n (prot_capacity p) _ _ _ HS Hcap Hn) as He.
  pose proof (take_until_enough n (reverse (ys ++ xs))) as Hen.
  destruct (take_until n (reverse (ys ++ xs))) as [V R]. destruct He as (s'&ys'&xs'&Hi&HS'&E&_).
  rewrite Hi in Hev. simpl in *. simplify_eq. destruct Hen as [?| ->]; [by left|right].
  cbn [state with_state]. by rewrite (SRepr_tracked _ _ _ HS'), E.
Qed.

(** [SlruPolicy::evict] takes its victims from the back of the one list
    "protected, then probationary" (most recent first): the shortest run of oldest
    probationary keys that frees [n], and protected keys only once no
    probationary key is left. What stays is the rest of that list in order, cut so
    that the protected part is within its capacity. *)
Theorem slru_evicts_probationary_first p ys xs n :
  SRepr (state p) ys xs → 0 ≤ prot_capacity p → 0 ≤ n →
  ∃ V R p' ys' xs', take_until n (reverse (ys ++ xs)) = (V, R) ∧
    evict n p = Some (V.*1, costs V, p') ∧ SRepr (state p') ys' xs' ∧
    ys' ++ xs' = reverse R ∧ costs ys' ≤ prot_capacity p.
Proof.
  intros HS Hcap Hn. unfold evict.
  pose proof (evict_items_spec n (prot_capacity p) _ _ _ HS Hcap Hn) as He.
  destruct (take_until n (reverse (ys ++ xs))) as [V R]. destruct He as (s'&ys'&xs'&->&HS'&E&?).
  exists V, R. eexists _, ys', xs'. done.
Qed.
End Proofs.

Definition slru_ops : list (PolicyOp nat) :=
  [OpAdmit 1%nat 3; OpAdmit 2%nat 4; OpAccess 1%nat 3; OpAdmit 3%nat 5].

Definition slru_example : option (SlruPolicy nat counter_arena nat) := policy_run slru_ops (new 20).

Lemma slru_evicts_probationary_first_witness :
  ∃ p p', slru_example = Some p ∧ evict 6 p = Some ([2; 3]%nat, 9, p') ∧
    keys_as_vec (protected (state p')) = Some [1%nat].
Proof.
  destruct (policy_run_ok slru_ops (new 20 : SlruPolicy nat counter_arena nat)) as (p&Hp&Hw&_);
    [by apply slru_wf_new|by repeat constructor|done|].
  destruct Hw as [(ys&xs&HS) Hcap].
  destruct (slru_evicts_probationary_first p ys xs 6 HS Hcap ltac:(lia)) as (V&R&p'&ys'&xs'&_&Hev&_).
  exists p, p'. split; [exact Hp|].
  assert (Ec : (p ← slru_example; '(vs, f, p') ← evict 6 p; Some (vs, f, keys_as_vec (protected (state p'))))
    = Some ([2; 3]%nat, 9, Some [1%nat])) by (vm_compute; reflexivity).
  unfold slru_example in Ec. rewrite Hp in Ec. cbn [mbind option_bind] in Ec. rewrite Hev in Ec.
  cbn [mbind option_bind] in Ec. injection Ec as HV Hf Hk.
  split; [rewrite Hev, HV, Hf; reflexivity|exact Hk].
Defined.
