(* ===== verification/Sketch.v ===== *)
(** * The frequency sketches: [cache/src/hpolicy.rs] ([Sketch], [fmix64]) and
    [cache/src/policy/tinylfu.rs] ([cms::CountMinSketch])

    Both are four rows of counters indexed by [h1 + row * h2], halved every
    [reset_threshold] increments.  They differ in the counter type: [u32],
    saturating, against [usize]. *)

From S2P Require Import Prelude.

(** ** [fmix64] *)

Definition xorshift33 (h : Z) : Z := Z.lxor h (Z.shiftr h 33).

Definition fmix64 (h : Z) : Z :=
  let h := xorshift33 h in
  let h := h *w 0xff51afd7ed558ccd in
  let h := xorshift33 h in
  let h := h *w 0xc4ceb9fe1a85ec53 in
  xorshift33 h.

(** ** Rows of counters *)

(** [h1.wrapping_add(row.wrapping_mul(h2)) & mask] of [Sketch::index] and
    [CountMinSketch::indexes]. *)
Definition index (mask hash row : Z) : Z :=
  let mixed := fmix64 hash in
  let h1 := mixed in
  let h2 := Z.lor (Z.shiftr mixed 32) 1 in
  Z.land (h1 +w row *w h2) mask.

(** The loop that bumps one counter per row; [None] is an index out of bounds. *)
Fixpoint bump_rows (bump : Z → Z) (mask hash row : Z) (rows : list (list Z)) : option (list (list Z)) :=
  match rows with
  | [] => Some []
  | r :: rows =>
      let i := Z.to_nat (index mask hash row) in
      c ← r !! i;
      rows' ← bump_rows bump mask hash (row + 1) rows;
      Some (<[i:=bump c]> r :: rows')
  end.

(** The counters of [hash], one per row. *)
Fixpoint read_rows (mask hash row : Z) (rows : list (list Z)) : option (list Z) :=
  match rows with
  | [] => Some []
  | r :: rows =>
      c ← r !! Z.to_nat (index mask hash row);
      cs ← read_rows mask hash (row + 1) rows;
      Some (c :: cs)
  end.

Definition halve (rows : list (list Z)) : list (list Z) := map (map (λ c, c / 2)) rows.

Definition zeros (rows : list (list Z)) : list (list Z) := map (map (λ _, 0)) rows.

Definition next_power_of_two (x : Z) : Z := 2 ^ Z.log2_up x.

Definition DEPTH : nat := 4.

Definition sketch_width (reset_threshold : Z) : Z :=
  next_power_of_two (Z.max (reset_threshold *w 2 / Z.of_nat DEPTH) 256).

(** ** [hpolicy::Sketch] *)

Record Sketch := mk_sketch {
  counters : list (list Z);
  mask : Z;
  increments : Z;
  reset_threshold : Z;
}.

Definition sketch_new (reset_threshold : Z) : Sketch :=
  let width := sketch_width reset_threshold in
  mk_sketch (replicate DEPTH (replicate (Z.to_nat width) 0)) (width - 1) 0 reset_threshold.

Definition u32_sat_succ (c : Z) : Z := Z.min u32_max (c + 1).

Definition increment (hash : Z) (s : Sketch) : option Sketch :=
  rows ← bump_rows u32_sat_succ (mask s) hash 0 (counters s);
  let n := increments s +w 1 in
  Some (if reset_threshold s <=? n
        then mk_sketch (halve rows) (mask s) 0 (reset_threshold s)
        else mk_sketch rows (mask s) n (reset_threshold s)).

Definition estimate (hash : Z) (s : Sketch) : option Z :=
  cs ← read_rows (mask s) hash 0 (counters s);
  Some match cs with [] => 0 | c :: cs => foldl Z.min c cs end.

Definition sketch_clear (s : Sketch) : Sketch :=
  mk_sketch (zeros (counters s)) (mask s) 0 (reset_threshold s).

(** ** [tinylfu::cms::CountMinSketch] over a key hash *)

Module cms.
Section Cms.
Context {K : Type} (hash_one : K → Z).

Record CountMinSketch := mk_cms {
  counters : list (list Z);
  mask : Z;
  increments : Z;
  capacity : Z;
}.

Definition new (reset_threshold : Z) : CountMinSketch :=
  let width := sketch_width reset_threshold in
  mk_cms (replicate DEPTH (replicate (Z.to_nat width) 0)) (width - 1) 0 reset_threshold.

Definition reset (s : CountMinSketch) : CountMinSketch :=
  mk_cms (halve (counters s)) (mask s) 0 (capacity s).

Definition increment (key : K) (s : CountMinSketch) : option CountMinSketch :=
  rows ← bump_rows (λ c, c +w 1) (mask s) (hash_one key) 0 (counters s);
  let s' := mk_cms rows (mask s) (increments s +w 1) (capacity s) in
  Some (if capacity s' <=? increments s' then reset s' else s').

Definition estimate (key : K) (s : CountMinSketch) : option Z :=
  cs ← read_rows (mask s) (hash_one key) 0 (counters s);
  Some (foldl Z.min u64_max cs).

Definition clear (s : CountMinSketch) : CountMinSketch :=
  mk_cms (zeros (counters s)) (mask s) 0 (capacity s).
End Cms.
End cms.

(** ** [fmix64] permutes the [u64]s *)

Definition unfmix64 (h : Z) : Z :=
  let h := xorshift33 h in
  let h := h *w 0x9cb4b2f8129337db in
  let h := xorshift33 h in
  let h := h *w 0x4f74430c22a54005 in
  xorshift33 h.

Lemma lxor_u64 a b : is_u64 a → is_u64 b → is_u64 (Z.lxor a b).
Proof.
  intros Ha Hb. split; [apply Z.lxor_nonneg; unfold is_u64 in *; lia|].
  destruct (Z.eq_dec (Z.lxor a b) 0) as [->|Hne]; [u64_lia|].
  assert (0 < Z.lxor a b) by (assert (0 ≤ Z.lxor a b) by (apply Z.lxor_nonneg; unfold is_u64 in *; lia); lia).
  unfold U64. apply Z.log2_lt_pow2; [done|].
  eapply Z.le_lt_trans; [apply Z.log2_lxor; unfold is_u64 in *; lia|].
  assert (Hl : ∀ x, is_u64 x → Z.log2 x < 64).
  { intros x Hx. destruct (Z.eq_dec x 0) as [->|]; [done|]. apply Z.log2_lt_pow2; unfold is_u64, U64 in *; lia. }
  apply Z.max_lub_lt; auto.
Qed.

Lemma shiftr_u64 a n : is_u64 a → 0 ≤ n → is_u64 (Z.shiftr a n).
Proof.
  intros [Ha Hlt] Hn. split; [by apply Z.shiftr_nonneg|].
  rewrite Z.shiftr_div_pow2 by done. pose proof (Z.pow_pos_nonneg 2 n).
  eapply Z.le_lt_trans; [|exact Hlt]. apply Z.div_le_upper_bound; [lia|]. nia.
Qed.

Lemma xorshift33_u64 h : is_u64 h → is_u64 (xorshift33 h).
Proof. intros. apply lxor_u64; [done|]. by apply shiftr_u64. Qed.

(** A shift by more than half the width is undone by repeating it. *)
Lemma xorshift33_involutive h : is_u64 h → xorshift33 (xorshift33 h) = h.
Proof.
  intros Hh. unfold xorshift33. rewrite Z.shiftr_lxor, Z.shiftr_shiftr by lia.
  replace (Z.shiftr h (33 + 33)) with 0.
  - rewrite Z.lxor_0_r, Z.lxor_assoc, Z.lxor_nilpotent, Z.lxor_0_r. done.
  - symmetry. rewrite Z.shiftr_div_pow2 by lia. apply Z.div_small. unfold is_u64, U64 in *. lia.
Qed.

Lemma mul_u64 a b : is_u64 (a *w b).
Proof. apply Z.mod_pos_bound. u64_lia. Qed.

Lemma mul_inverse a c d : is_u64 a → (c * d) mod U64 = 1 → (a *w c) *w d = a.
Proof.
  intros Ha Hcd. unfold u64_mul. rewrite Z.mul_mod_idemp_l by u64_lia.
  rewrite <- Z.mul_assoc, <- Z.mul_mod_idemp_r, Hcd, Z.mul_1_r by u64_lia. by apply Z.mod_small.
Qed.

Lemma fmix64_u64 h : is_u64 h → is_u64 (fmix64 h).
Proof. intros. unfold fmix64. apply xorshift33_u64, mul_u64. Qed.

(** [fmix64] permutes the [u64]s: it maps [u64]s to [u64]s and [unfmix64]
    undoes it on both sides, so the shards' sketches mix a key's hash without
    making two hashes collide. *)
Theorem fmix64_permutes h :
  is_u64 h →
  is_u64 (fmix64 h) ∧ is_u64 (unfmix64 h) ∧ unfmix64 (fmix64 h) = h ∧ fmix64 (unfmix64 h) = h.
Proof.
  intros Hh. pose proof xorshift33_u64 as Hx. pose proof mul_u64 as Hm.
  split; [by apply fmix64_u64|]. split; [by apply Hx, Hm|]. unfold fmix64, unfmix64.
  rewrite !(xorshift33_involutive (_ *w _)) by auto. split.
  - rewrite mul_inverse by (auto || vm_compute; reflexivity). rewrite xorshift33_involutive by auto.
    rewrite mul_inverse by (auto || vm_compute; reflexivity). by apply xorshift33_involutive.
  - rewrite mul_inverse by (auto || vm_compute; reflexivity). rewrite xorshift33_involutive by auto.
    rewrite mul_inverse by (auto || vm_compute; reflexivity). by apply xorshift33_involutive.
Qed.

Lemma fmix64_permutes_witness : unfmix64 (fmix64 12345) = 12345 ∧ fmix64 (unfmix64 12345) = 12345.
Proof. destruct (fmix64_permutes 12345) as (_&_&H1&H2); [vm_compute; split; congruence|]. split; [exact H1|exact H2]. Defined.

(** ** Rows *)

(** Every row has [mask + 1] counters, a power of two. *)
Definition rows_ok (mask : Z) (rows : list (list Z)) : Prop :=
  ∃ n, 0 ≤ n ∧ mask = 2 ^ n - 1 ∧ Forall (λ r, length r = Z.to_nat (2 ^ n)) rows.

Lemma index_range n hash row : 0 ≤ n → 0 ≤ index (2 ^ n - 1) hash row < 2 ^ n.
Proof.
  intros Hn. unfold index. replace (2 ^ n - 1) with (Z.ones n) by (rewrite Z.ones_equiv; lia).
  rewrite Z.land_ones by done. apply Z.mod_pos_bound. by apply Z.pow_pos_nonneg.
Qed.

Lemma index_lookup m hash row r rows :
  rows_ok m (r :: rows) → ∃ c, r !! Z.to_nat (index m hash row) = Some c.
Proof.
  intros (n&Hn&->&[Hl _]%Forall_cons). pose proof (index_range n hash row Hn).
  apply lookup_lt_is_Some_2. lia.
Qed.

Lemma rows_ok_cons m r rows : rows_ok m (r :: rows) → rows_ok m rows.
Proof. intros (n&?&?&[_ ?]%Forall_cons). by exists n. Qed.

Lemma read_rows_ok m hash row rows :
  rows_ok m rows → ∃ cs, read_rows m hash row rows = Some cs ∧ length cs = length rows.
Proof.
  revert row. induction rows as [|r rows IH]; intros row Hok; simpl; [by exists []|].
  destruct (index_lookup m hash row r rows Hok) as [c ->].
  destruct (IH (row + 1) (rows_ok_cons _ _ _ Hok)) as (cs&->&?). exists (c :: cs). simpl. auto.
Qed.

(** One increment: the counters of the key are bumped, those of any other key are
    bumped or kept. *)
Lemma bump_rows_ok bump m hash row rows :
  rows_ok m rows →
  ∃ rows', bump_rows bump m hash row rows = Some rows' ∧ rows_ok m rows' ∧ length rows' = length rows ∧
    ∀ h cs, read_rows m h row rows = Some cs →
      ∃ cs', read_rows m h row rows' = Some cs' ∧
        Forall2 (λ c c', c' = bump c ∨ c' = c ∧ h ≠ hash) cs cs'.
Proof.
  revert row. induction rows as [|r rows IH]; intros row Hok; simpl.
  { exists []. split_and!; [done..|]. intros h cs ?. simplify_eq. by exists []. }
  destruct (index_lookup m hash row r rows Hok) as [c Hc]. rewrite Hc. simpl.
  destruct (IH (row + 1) (rows_ok_cons _ _ _ Hok)) as (rows'&->&Hok'&Hlen&Hread). simpl.
  eexists. split; [done|]. split; [|split; [simpl; by rewrite Hlen|]].
  - destruct Hok as (n&Hn&Hm&[Hr _]%Forall_cons). destruct Hok' as (n'&Hn'&Hm'&Hrs).
    assert (n' = n) as -> by (apply (Z.pow_inj_r 2); lia).
    exists n. split; [done|]. split; [done|]. apply Forall_cons. by rewrite length_insert.
  - intros h cs. simpl. destruct (r !! Z.to_nat (index m h row)) as [d|] eqn:Ed; [|done]. simpl.
    destruct (read_rows m h (row + 1) rows) as [ds|] eqn:Eds; [|done]. intros ?; simplify_eq/=.
    destruct (Hread h ds Eds) as (ds'&Eds'&HF). rewrite Eds'.
    destruct (decide (Z.to_nat (index m h row) = Z.to_nat (index m hash row))) as [E|E].
    + rewrite E, list_lookup_insert_eq by (by eapply lookup_lt_Some). simpl. eexists. split; [done|].
      constructor; [|done]. left. congruence.
    + rewrite list_lookup_insert_ne, Ed by done. simpl. eexists. split; [done|].
      constructor; [|done]. right. split; [done|]. congruence.
Qed.

Lemma map_rows_ok (f : Z → Z) m hash row rows :
  read_rows m hash row (map (map f) rows) = map f <$> read_rows m hash row rows.
Proof.
  revert row. induction rows as [|r rows IH]; intros row; simpl; [done|].
  rewrite list_lookup_fmap. destruct (r !! _); simpl; [|done]. rewrite IH. by destruct (read_rows _ _ _ rows).
Qed.

Lemma rows_ok_map (f : Z → Z) m rows : rows_ok m rows → rows_ok m (map (map f) rows).
Proof.
  intros (n&Hn&->&Hf). exists n. split_and!; [done..|]. apply Forall_fmap.
  eapply Forall_impl; [exact Hf|]. intros r. simpl. by rewrite length_fmap.
Qed.

Lemma rows_ok_new t : rows_ok (sketch_width t - 1) (replicate DEPTH (replicate (Z.to_nat (sketch_width t)) 0)).
Proof.
  exists (Z.log2_up (Z.max (t *w 2 / Z.of_nat DEPTH) 256)). split; [apply Z.log2_up_nonneg|].
  split; [done|]. apply Forall_replicate. by rewrite length_replicate.
Qed.

(** ** The sketch against a private counter

    [private t h hs]: the counter of [h] in a table with one counter per hash,
    aged like the sketch ([t] increments between halvings), after the increments
    [hs]; with the increments since the last halving. *)

Definition private_step (t h : Z) (st : Z * Z) (h' : Z) : Z * Z :=
  let n := st.1 +w 1 in
  let a := if decide (h' = h) then u32_sat_succ st.2 else st.2 in
  if t <=? n then (0, a / 2) else (n, a).

Definition private (t h : Z) (hs : list Z) : Z * Z := foldl (private_step t h) (0, 0) hs.

Definition increment_all (hs : list Z) (s : option Sketch) : option Sketch :=
  foldl (λ o h, s ← o; increment h s) s hs.

Definition sketch_inv (s : Sketch) (ref : Z → Z * Z) (total : Z) : Prop :=
  rows_ok (mask s) (counters s) ∧ length (counters s) = DEPTH ∧
  ∀ h, (ref h).1 = increments s ∧ 0 ≤ (ref h).2 ≤ u32_max ∧
    ∃ cs, read_rows (mask s) h 0 (counters s) = Some cs ∧ Forall (λ c, (ref h).2 ≤ c ≤ total) cs.

Lemma increment_inv s t ref total h :
  sketch_inv s ref total → 0 ≤ total → reset_threshold s = t →
  ∃ s', increment h s = Some s' ∧ reset_threshold s' = t ∧
    sketch_inv s' (λ k, private_step t k (ref k) h) (total + 1).
Proof.
  intros (Hok&Hlen&Hinv) Ht0 Ht. unfold increment.
  destruct (bump_rows_ok u32_sat_succ _ h 0 _ Hok) as (rows&->&Hok'&Hlen'&Hread). simpl.
  eexists. split; [done|]. rewrite Ht. split; [by destruct (t <=? _)|].
  assert (Hb : ∀ k, 0 ≤ (if decide (h = k) then u32_sat_succ (ref k).2 else (ref k).2) ≤ u32_max).
  { intros k. destruct (Hinv k) as (_&?&_). unfold u32_sat_succ. case_decide; u64_lia. }
  assert (Hcs : ∀ k, ∃ cs, read_rows (mask s) k 0 rows = Some cs ∧
    Forall (λ c, (if decide (h = k) then u32_sat_succ (ref k).2 else (ref k).2) ≤ c ≤ total + 1) cs).
  { intros k. destruct (Hinv k) as (_&Hr&cs&Hcs&Hall). destruct (Hread k cs Hcs) as (cs'&Hcs'&HF).
    exists cs'. split; [done|]. clear Hcs Hcs'. induction HF as [|c c' cs cs' Hc HF IH]; [constructor|].
    apply Forall_cons in Hall as [Hc0 Hall]. constructor; [|by apply IH].
    unfold u32_sat_succ in *. destruct Hc as [->|[-> ?]]; case_decide; try congruence; lia. }
  destruct (t <=? increments s +w 1) eqn:Et.
  - split_and!; simpl; [by apply rows_ok_map|unfold halve; rewrite length_map; lia|].
    intros k. destruct (Hinv k) as [Hn _]. unfold private_step. rewrite Hn, Et. split; [done|]. simpl.
    split; [specialize (Hb k); set (a := if decide (h = k) then _ else _) in *; split; [apply Z.div_pos; lia|];
      apply Z.div_le_upper_bound; lia|].
    destruct (Hcs k) as (cs&Hr&Hall). unfold halve. rewrite map_rows_ok, Hr. eexists. split; [done|].
    apply Forall_fmap. eapply Forall_impl; [exact Hall|]. intros c Hc. simpl in *.
    split; [apply Z.div_le_mono; lia|]. assert (c / 2 ≤ Z.max 0 c); [|lia].
    destruct (Z.le_gt_cases 0 c); [|assert (c / 2 < 0) by (apply Z.div_lt_upper_bound; lia); lia].
    pose proof (Z.div_le_upper_bound c 2 c). lia.
  - split_and!; simpl; [done|lia|]. intros k. destruct (Hinv k) as [Hn _].
    unfold private_step. rewrite Hn, Et. split; [done|]. split; [apply Hb|apply Hcs].
Qed.

Lemma read_rows_zero m h n w row cs :
  read_rows m h row (replicate n (replicate w 0)) = Some cs → Forall (λ c, 0 ≤ c ≤ 0) cs.
Proof.
  revert row cs. induction n as [|n IH]; intros row ds; simpl.
  - intros ?; simplify_eq; constructor.
  - destruct (replicate w 0 !! _) as [d|] eqn:Ed; [|done]. apply lookup_replicate in Ed as [-> _]. simpl.
    destruct (read_rows m h (row + 1) _) as [es|] eqn:Ees; [|done]. intros ?; simplify_eq/=.
    constructor; [lia|by eapply IH].
Qed.

Lemma sketch_inv_new t : sketch_inv (sketch_new t) (λ _, (0, 0)) 0.
Proof.
  split; [apply rows_ok_new|]. split; [apply length_replicate|]. intros h. split; [done|].
  split; [simpl; u64_lia|].
  destruct (read_rows_ok (mask (sketch_new t)) h 0 (counters (sketch_new t)) (rows_ok_new t)) as (cs&Hcs&_).
  exists cs. split; [done|]. by apply read_rows_zero in Hcs.
Qed.

Lemma increment_all_inv hs s t ref total :
  sketch_inv s ref total → 0 ≤ total → reset_threshold s = t →
  ∃ s', increment_all hs (Some s) = Some s' ∧
    sketch_inv s' (λ h, foldl (private_step t h) (ref h) hs) (total + Z.of_nat (length hs)).
Proof.
  revert s ref total. induction hs as [|h hs IH]; intros s ref total Hi Ht0 Ht; simpl.
  - exists s. rewrite Z.add_0_r. done.
  - destruct (increment_inv s t ref total h Hi Ht0 Ht) as (s1&E&Ht1&Hi1). unfold increment_all in *. simpl. rewrite E.
    destruct (IH s1 _ _ Hi1) as (s'&->&Hi'); [lia|done|]. exists s'. split; [done|].
    replace (total + Z.of_nat (S (length hs))) with (total + 1 + Z.of_nat (length hs)) by lia. done.
Qed.

Lemma foldl_min_bounds c cs lo hi :
  lo ≤ c ≤ hi → Forall (λ c, lo ≤ c ≤ hi) cs → lo ≤ foldl Z.min c cs ≤ hi.
Proof.
  intros Hc Hcs. revert c Hc. induction Hcs as [|d cs Hd _ IH]; intros c Hc; simpl; [done|]. apply IH. lia.
Qed.

(** the sketch never underestimates, whatever collides and however often it
    is halved: after any increments its estimate of [h] is at least what a
    private counter of [h], aged alike, would hold, and at most the number of
    increments; no index is ever out of bounds. *)
Theorem sketch_never_underestimates t hs h :
  ∃ s e, increment_all hs (Some (sketch_new t)) = Some s ∧ estimate h s = Some e ∧
    (private t h hs).2 ≤ e ≤ Z.of_nat (length hs).
Proof.
  destruct (increment_all_inv hs (sketch_new t) t (λ _, (0, 0)) 0) as (s&Hs&Hok&Hlen&Hinv);
    [apply sketch_inv_new|lia|done|].
  destruct (Hinv h) as (_&_&cs&Hcs&Hall). unfold estimate. exists s. rewrite Hcs. simpl. eexists.
  split; [done|]. split; [done|]. destruct cs as [|c cs].
  - destruct (read_rows_ok _ h 0 _ Hok) as (cs'&Hcs'&Hl). rewrite Hcs in Hcs'. simplify_eq. rewrite Hlen in Hl. done.
  - apply Forall_cons in Hall as [? ?]. by apply foldl_min_bounds.
Qed.

(** The [CountMinSketch] is total too. *)
Definition cms_ok (s : cms.CountMinSketch) : Prop := rows_ok (cms.mask s) (cms.counters s).

Lemma cms_increment_ok {K} (hash_one : K → Z) key s :
  cms_ok s → ∃ s', cms.increment hash_one key s = Some s' ∧ cms_ok s'.
Proof.
  intros Hok. unfold cms.increment.
  destruct (bump_rows_ok (λ c, c +w 1) _ (hash_one key) 0 _ Hok) as (rows&->&Hok'&_). simpl.
  eexists. split; [done|]. destruct (_ <=? _); [|done]. by apply rows_ok_map.
Qed.

Lemma cms_estimate_ok {K} (hash_one : K → Z) key s :
  cms_ok s → ∃ e, cms.estimate hash_one key s = Some e.
Proof.
  intros Hok. unfold cms.estimate. destruct (read_rows_ok _ (hash_one key) 0 _ Hok) as (cs&->&_). eauto.
Qed.

Lemma cms_new_ok t : cms_ok (cms.new t).
Proof. apply rows_ok_new. Qed.

Lemma cms_clear_ok s : cms_ok s → cms_ok (cms.clear s).
Proof. apply rows_ok_map. Qed.

Lemma sketch_increment_ok h s :
  rows_ok (mask s) (counters s) → ∃ s', increment h s = Some s' ∧ rows_ok (mask s') (counters s').
Proof.
  intros Hok. unfold increment. destruct (bump_rows_ok u32_sat_succ _ h 0 _ Hok) as (rows&->&Hok'&_). simpl.
  eexists. split; [done|]. destruct (_ <=? _); [|done]. by apply rows_ok_map.
Qed.

Lemma sketch_estimate_ok h s : rows_ok (mask s) (counters s) → ∃ e, estimate h s = Some e.
Proof.
  intros Hok. unfold estimate. destruct (read_rows_ok _ h 0 _ Hok) as (cs&->&_). eauto.
Qed.
