(* ===== verification/TinyLfu.v ===== *)
(** * [cache/src/policy/tinylfu.rs]: W-TinyLFU

    A window [LruList] in front of a main [SlruState]; keys leaving the window are
    admitted to the main part when there is room or when the sketch rates them
    at least as high as the main part's next victim, and are rejected otherwise.
    The hash of a key ([ahash]) is the parameter [hash_one]. *)

From S2P Require Import Prelude Dll Arena LruList Policy Float Sketch Slru.

Class KeyHash (K : Type) := hash_one : K → Z.

Section Code.
Context {Index : Type} {A : Type → Type} `{EqDecision Index} `{!Arena Index A}.
Context {K : Type} `{Countable K} `{KeyHash K}.

Record TinyLfuState := mk_tl {
  window : LruList Index A K;
  main : SlruState Index A K;
  sketch : cms.CountMinSketch;
}.
Implicit Types s : TinyLfuState.

Record TinyLfuPolicy := mk_tlp {
  state : TinyLfuState;
  window_target_cost : Z;
  main_cache_cost : Z;
  main_prot_capacity : Z;
}.
Implicit Types p : TinyLfuPolicy.

Definition new (total_cache_cost_capacity : Z) : TinyLfuPolicy :=
  let cms_reset_threshold := Z.max (total_cache_cost_capacity *w 10) 100 in
  let window_target := if total_cache_cost_capacity =? 0 then 0
                       else Z.max (scaled f64_001 total_cache_cost_capacity) 1 in
  let main_cost := total_cache_cost_capacity -sat window_target in
  let main_prot := if main_cost =? 0 then 0 else main_cost -sat Z.max (scaled f64_020 main_cost) 1 in
  mk_tlp (mk_tl LruList.new (new_with_capacity main_cost) (cms.new cms_reset_threshold))
    window_target main_cost main_prot.

Definition with_state s p : TinyLfuPolicy :=
  mk_tlp s (window_target_cost p) (main_cache_cost p) (main_prot_capacity p).

Definition on_access (key : K) (cost : Z) p : option TinyLfuPolicy :=
  let s := state p in
  sk ← cms.increment hash_one key (sketch s);
  match ll_lookup (window s) !! key with
  | Some index => w ← touch_index (window s) index cost; Some (with_state (mk_tl w (main s) sk) p)
  | None =>
      '(_, m) ← touch key cost (main_prot_capacity p) (main s);
      Some (with_state (mk_tl (window s) m sk) p)
  end.

(** The admission test of a key that leaves the window. *)
Definition admit_candidate (candidate_key : K) s : option bool :=
  main_victim_key_opt ← peek_lru (main s);
  match main_victim_key_opt with
  | None => Some true
  | Some main_victim_key =>
      a ← cms.estimate hash_one candidate_key (sketch s);
      b ← cms.estimate hash_one main_victim_key (sketch s);
      Some (b <=? a)
  end.

Fixpoint drain_window (fuel : nat) (target main_cap : Z) (rejected : list K) s
    : option (list K * TinyLfuState) :=
  if target <? current_total_cost (window s) then
    match fuel with
    | O => None
    | S fuel =>
        '(popped, w) ← pop_back (window s);
        match popped with
        | None => Some (rejected, mk_tl w (main s) (sketch s))
        | Some (candidate_key, candidate_cost) =>
            let s1 := mk_tl w (main s) (sketch s) in
            let main_cost := current_total_cost (probationary (main s))
                             +w current_total_cost (protected (main s)) in
            admitted ← (if main_cost +w candidate_cost <=? main_cap then Some true
                        else admit_candidate candidate_key s1 : option bool);
            if admitted : bool then
              m ← admit_internal candidate_key candidate_cost (main s1);
              drain_window fuel target main_cap rejected (mk_tl w m (sketch s1))
            else drain_window fuel target main_cap (rejected ++ [candidate_key]) s1
        end
    end
  else Some (rejected, s).

Definition on_admit (key : K) (cost : Z) p : option (AdmissionDecision K * TinyLfuPolicy) :=
  let s := state p in
  sk ← cms.increment hash_one key (sketch s);
  '(hit, m) ← touch key cost (main_prot_capacity p) (main s);
  if hit : bool then Some (Admit, with_state (mk_tl (window s) m sk) p)
  else
    w ← push_front (window s) key cost;
    '(rejected, s') ← drain_window (S (size (ll_lookup w))) (window_target_cost p)
                         (main_cache_cost p) [] (mk_tl w m sk);
    Some (match rejected with [] => Admit | _ => AdmitAndEvict rejected end, with_state s' p).

Definition on_remove (key : K) p : option TinyLfuPolicy :=
  let s := state p in
  '(removed, w) ← remove (window s) key;
  match removed with
  | Some _ => Some (with_state (mk_tl w (main s) (sketch s)) p)
  | None =>
      '(removed, prob) ← remove (probationary (main s)) key;
      match removed with
      | Some _ => Some (with_state (mk_tl w (mk_slru prob (protected (main s))) (sketch s)) p)
      | None =>
          '(_, prot) ← remove (protected (main s)) key;
          Some (with_state (mk_tl w (mk_slru prob prot) (sketch s)) p)
      end
  end.

Definition evict (cost_to_free : Z) p : option (list K * Z * TinyLfuPolicy) :=
  if cost_to_free =? 0 then Some ([], 0, p)
  else
    let s := state p in
    '(victims, freed, m) ← evict_items cost_to_free (main_prot_capacity p) (main s);
    Some (victims, freed, with_state (mk_tl (window s) m (sketch s)) p).

Definition clear p : option TinyLfuPolicy :=
  let s := state p in
  Some (with_state (mk_tl (LruList.clear (window s))
    (mk_slru (LruList.clear (probationary (main s))) (LruList.clear (protected (main s))))
    (cms.clear (sketch s))) p).

#[global] Instance policy : CachePolicy K TinyLfuPolicy := {
  Policy.on_access := on_access;
  Policy.uses_access_events _ := true;
  Policy.on_admit := on_admit;
  Policy.on_remove := on_remove;
  Policy.evict := evict;
  Policy.clear := clear;
}.
End Code.
Arguments TinyLfuState Index A K {_ _}.
Arguments TinyLfuPolicy Index A K {_ _}.

Section Proofs.
Context {Index : Type} {A : Type → Type} `{ArenaLaws Index A}.
Context {K : Type} `{Countable K} `{KeyHash K}.
Implicit Types (s : TinyLfuState Index A K) (p : TinyLfuPolicy Index A K) (ws ys xs : list (K * Z)).

(** [ws] in the window, [ys] protected, [xs] probationary, most recent first. *)
Definition TRepr s ws ys xs : Prop :=
  Repr (window s) ws ∧ SRepr (main s) ys xs ∧ NoDup (ws ++ ys ++ xs).*1 ∧ costs (ws ++ ys ++ xs) < U64 ∧
  cms_ok (sketch s).

Definition state_tracked s : gmap K Z := contents (window s) ∪ Slru.state_tracked (main s).

Lemma TRepr_tracked s ws ys xs : TRepr s ws ys xs → state_tracked s = list_to_map (ws ++ ys ++ xs).
Proof.
  intros (Hw&Hm&_). unfold state_tracked.
  by rewrite (Repr_contents _ _ Hw), (SRepr_tracked _ _ _ Hm), <- list_to_map_app.
Qed.

Lemma TRepr_ok s ws ys xs : TRepr s ws ys xs → costs_ok (ws ++ ys ++ xs).
Proof.
  intros (Hw&Hm&_). apply Repr_costs in Hw as [? _]. apply SRepr_ok in Hm. by apply Forall_app.
Qed.

Lemma TRepr_fit s ws ys xs : TRepr s ws ys xs → costs_fit (state_tracked s).
Proof.
  intros HT. rewrite (TRepr_tracked _ _ _ _ HT). pose proof (TRepr_ok _ _ _ _ HT) as Hok.
  destruct HT as (_&_&Hnd&Hlt&_). split; [|by rewrite msum_list].
  intros k c Hk. apply elem_of_list_to_map_2 in Hk. unfold costs_ok in Hok.
  rewrite Forall_forall in Hok. exact (Hok _ Hk).
Qed.

Lemma peek_lru_spec (m : SlruState Index A K) ys xs :
  SRepr m ys xs → peek_lru m = Some (fst <$> last (ys ++ xs)).
Proof.
  intros (Hy&Hx&_&_). unfold peek_lru. destruct xs as [|[k c] xs _] using rev_ind.
  - rewrite (Repr_tail_nil _ Hx), app_nil_r. destruct ys as [|[k c] ys _] using rev_ind.
    + by rewrite (Repr_tail_nil _ Hy).
    + destruct (Repr_tail _ _ _ _ Hy) as (i&n&->&->&<-&_). simpl. by rewrite last_snoc.
  - destruct (Repr_tail _ _ _ _ Hx) as (i&n&->&->&<-&_). simpl. by rewrite app_assoc, last_snoc.
Qed.

Lemma admit_internal_spec (m : SlruState Index A K) ys xs k c :
  SRepr m ys xs → k ∉ (ys ++ xs).*1 → 0 ≤ c → costs (ys ++ xs) + c < U64 →
  ∃ m', admit_internal k c m = Some m' ∧ SRepr m' ys ((k, c) :: xs).
Proof.
  intros HS Hk Hc Hlt. unfold admit_internal. pose proof HS as (Hy&_).
  rewrite (Repr_contains _ _ k Hy), bool_decide_false by (rewrite fmap_app in Hk; set_solver).
  destruct (push_probationary k c m ys xs HS Hk Hc Hlt) as (prob&->&?). simpl. by eexists.
Qed.

(** The oldest window entry, popped: the state without it. *)
Lemma TRepr_pop s ws ys xs k c :
  TRepr s (ws ++ [(k, c)]) ys xs →
  ∃ w, pop_back (window s) = Some (Some (k, c), w) ∧ TRepr (mk_tl w (main s) (sketch s)) ws ys xs ∧
    k ∉ (ws ++ ys ++ xs).*1 ∧ 0 ≤ c ∧ costs (ws ++ ys ++ xs) + c < U64.
Proof.
  intros HT. pose proof (TRepr_ok _ _ _ _ HT) as Hok. destruct HT as (Hw&Hm&Hnd&Hlt&Hs).
  destruct (Repr_pop_back _ _ _ _ Hw) as (w&->&Hw'). exists w. split; [done|].
  assert (Hp : (ws ++ [(k, c)]) ++ ys ++ xs ≡ₚ (k, c) :: ws ++ ys ++ xs) by solve_Permutation.
  rewrite Hp in Hnd, Hlt. unfold costs_ok in Hok. rewrite Hp in Hok.
  apply costs_ok_cons in Hok as [Hc Hok%costs_nonneg]. rewrite costs_cons in Hlt.
  rewrite fmap_cons, NoDup_cons in Hnd. destruct Hnd.
  split_and!; [split_and!; [done|done|done|lia|done]|done|done|lia].
Qed.

Lemma TRepr_admit s ws ys xs k c m :
  TRepr s ws ys xs → SRepr m ys ((k, c) :: xs) → k ∉ (ws ++ ys ++ xs).*1 →
  costs (ws ++ ys ++ xs) + c < U64 → TRepr (mk_tl (window s) m (sketch s)) ws ys ((k, c) :: xs).
Proof.
  intros (Hw&_&Hnd&_&Hs) Hm Hk Hlt.
  assert (Hp : ws ++ ys ++ (k, c) :: xs ≡ₚ (k, c) :: ws ++ ys ++ xs) by solve_Permutation.
  split_and!; [done|done| | |done].
  - rewrite Hp, fmap_cons, NoDup_cons. done.
  - rewrite Hp, costs_cons. lia.
Qed.

Lemma admit_candidate_spec s ws ys xs k :
  TRepr s ws ys xs → ∃ b, admit_candidate k s = Some b.
Proof.
  intros (_&Hm&_&_&Hs). unfold admit_candidate. rewrite (peek_lru_spec _ _ _ Hm). simpl.
  destruct (last (ys ++ xs)) as [[v cv]|]; simpl; [|eauto].
  destruct (cms_estimate_ok hash_one k _ Hs) as [a ->]. destruct (cms_estimate_ok hash_one v _ Hs) as [b ->].
  simpl. eauto.
Qed.

Lemma tracked_pop s s' ws ys xs k c :
  TRepr s (ws ++ [(k, c)]) ys xs → TRepr s' ws ys xs →
  state_tracked s !! k = Some c ∧ state_tracked s' = delete k (state_tracked s).
Proof.
  intros HT HT'. pose proof HT as (_&_&Hnd&_).
  rewrite (TRepr_tracked _ _ _ _ HT), (TRepr_tracked _ _ _ _ HT'). rewrite <- app_assoc in *. simpl in *.
  split; [by apply lookup_middle|]. symmetry. by apply (delete_middle_map ws (ys ++ xs) k c).
Qed.

Lemma tracked_move s s' ws ys xs k c :
  TRepr s (ws ++ [(k, c)]) ys xs → TRepr s' ws ys ((k, c) :: xs) → state_tracked s' = state_tracked s.
Proof.
  intros HT HT'. pose proof HT as (_&_&Hnd&_).
  rewrite (TRepr_tracked _ _ _ _ HT), (TRepr_tracked _ _ _ _ HT').
  symmetry. apply list_to_map_proper; [done|solve_Permutation].
Qed.

(** Draining: the window ends within its target and only rejected keys are no
    longer followed. *)
Lemma drain_spec fuel target cap m rej f s ws ys xs :
  TRepr s ws ys xs → 0 ≤ target → costs_fit m → evicted m rej f (state_tracked s) → (length ws < fuel)%nat →
  ∃ rej' f' s' ws' xs', drain_window fuel target cap rej s = Some (rej', s') ∧
    TRepr s' ws' ys xs' ∧ evicted m rej' f' (state_tracked s') ∧ costs ws' ≤ target.
Proof.
  revert rej f s ws xs. induction fuel as [|fuel IH]; intros rej f s ws xs HT Ht Hfit Hev Hf; [lia|].
  cbn [drain_window]. pose proof HT as (Hw&_). rewrite (Repr_cost _ _ Hw).
  destruct (Z.ltb_spec target (costs ws)); [|by exists rej, f, s, ws, xs].
  destruct ws as [|[k c] ws _] using rev_ind; [rewrite costs_nil in *; lia|].
  destruct (TRepr_pop _ _ _ _ _ _ HT) as (w&->&HT1&Hk&Hc&Hlt). cbn [mbind option_bind].
  rewrite length_app in Hf. simpl in Hf.
  pose proof (TRepr_ok _ _ _ _ HT1) as [Hpw%costs_nonneg Hpm%costs_nonneg]%Forall_app.
  assert (Hmain : ∃ m', admit_internal k c (main s) = Some m' ∧ SRepr m' ys ((k, c) :: xs)).
  { destruct HT1 as (_&Hm&_). apply (admit_internal_spec _ _ _ _ _ Hm); [rewrite fmap_app in Hk; set_solver|done|].
    rewrite costs_app in Hlt. lia. }
  set (s1 := mk_tl w (main s) (sketch s)) in *. set (fits := _ <=? cap).
  assert (Hadm : ∃ b, (if fits then Some true else admit_candidate k s1) = Some b).
  { destruct fits; [eauto|]. by eapply admit_candidate_spec. }
  destruct Hadm as [[] ->]; cbn [mbind option_bind].
  - destruct Hmain as (m'&Hm'&HS'). cbn [main s1]. rewrite Hm'. cbn [mbind option_bind].
    pose proof (TRepr_admit s1 ws ys xs k c m' HT1 HS' Hk Hlt) as HT2.
    apply (IH rej f _ ws ((k, c) :: xs)); [exact HT2|done|done| |lia].
    replace (state_tracked _) with (state_tracked s); [done|].
    symmetry. exact (tracked_move _ _ _ _ _ _ _ HT HT2).
  - destruct (tracked_pop _ _ _ _ _ _ _ HT HT1) as [Hl Hd].
    destruct (evicted_step _ _ _ _ _ _ Hfit Hev Hl) as (_&_&Hev').
    apply (IH (rej ++ [k]) (f +w c) s1 ws xs); [done|done|done|by rewrite Hd|lia].
Qed.
(** [k] with cost [c] in place of what is recorded for it. *)
Definition put (k : K) (c : Z) (zs : list (K * Z)) : list (K * Z) := (k, c) :: remove_key k zs.

Lemma put_fits k c zs :
  NoDup zs.*1 → cost_fits (list_to_map zs) k c → NoDup (put k c zs).*1 ∧ costs (put k c zs) < U64.
Proof.
  intros Hnd Hfit. apply cost_fits_remove_key in Hfit; [|done]. unfold put.
  rewrite fmap_cons, NoDup_cons, costs_cons, elem_of_remove_key.
  split; [split; [tauto|by apply remove_key_NoDup]|lia].
Qed.

Lemma TRepr_intro s ws ys xs zs :
  Repr (window s) ws → SRepr (main s) ys xs → cms_ok (sketch s) → ws ++ ys ++ xs ≡ₚ zs →
  NoDup zs.*1 ∧ costs zs < U64 → TRepr s ws ys xs.
Proof. intros Hw Hm Hs Hp [Hnd Hlt]. split_and!; [done|done|by rewrite Hp|by rewrite Hp|done]. Qed.

Lemma main_touch_spec s ws ys xs k c cap :
  TRepr s ws ys xs → 0 ≤ cap → cost_fits (list_to_map (ws ++ ys ++ xs)) k c →
  ∃ m' ys' xs', touch k c cap (main s) = Some (bool_decide (k ∈ (ys ++ xs).*1), m') ∧ SRepr m' ys' xs' ∧
    ys' ++ xs' = if decide (k ∈ (ys ++ xs).*1) then put k c (ys ++ xs) else ys ++ xs.
Proof.
  intros HT Hcap Hfit. pose proof (TRepr_ok _ _ _ _ HT) as [Hpw _]%Forall_app.
  destruct HT as (_&Hm&Hnd&_). apply cost_fits_remove_key in Hfit as Hlt; [|done].
  pose proof (costs_nonneg _ (remove_key_costs_ok k _ Hpw)). rewrite remove_key_app, costs_app in Hlt.
  apply touch_spec; [done|done|by destruct Hfit|lia].
Qed.

(** [put] on the part that holds the key. *)
Lemma put_left k c ws zs : k ∉ zs.*1 → put k c (ws ++ zs) = put k c ws ++ zs.
Proof. intros. unfold put. by rewrite remove_key_app, (remove_key_notin k zs). Qed.

Lemma put_right k c ws zs : k ∉ ws.*1 → put k c (ws ++ zs) ≡ₚ ws ++ put k c zs.
Proof. intros. unfold put. rewrite remove_key_app, (remove_key_notin k ws) by done. apply Permutation_middle. Qed.

Lemma NoDup_parts k ws zs : NoDup (ws ++ zs).*1 → k ∈ zs.*1 → k ∉ ws.*1.
Proof. rewrite fmap_app, NoDup_app. intros (_&Hd&_) Hz Hw. by apply (Hd k). Qed.

Lemma tinylfu_on_access_spec p ws ys xs k c :
  TRepr (state p) ws ys xs → 0 ≤ main_prot_capacity p → cost_fits (list_to_map (ws ++ ys ++ xs)) k c →
  ∃ s' ws' ys' xs', on_access k c p = Some (with_state s' p) ∧ TRepr s' ws' ys' xs' ∧
    ws' ++ ys' ++ xs' ≡ₚ if decide (k ∈ (ws ++ ys ++ xs).*1) then put k c (ws ++ ys ++ xs) else ws ++ ys ++ xs.
Proof.
  intros HT Hcap Hfit. unfold on_access. pose proof HT as (Hw&Hm&Hnd&Hlt&Hs).
  pose proof (put_fits k c _ Hnd Hfit) as Hput. pose proof (TRepr_ok _ _ _ _ HT) as [_ Hpm]%Forall_app.
  destruct (cms_increment_ok hash_one k _ Hs) as (sk&->&Hsk). simpl.
  pose proof (Repr_lookup _ _ k Hw) as Hlk. destruct (ll_lookup (window (state p)) !! k) as [i|].
  - destruct Hlk as [Hkw Htouch].
    assert (E : put k c (ws ++ ys ++ xs) = put k c ws ++ ys ++ xs).
    { apply put_left. rewrite fmap_app, NoDup_app in Hnd. destruct Hnd as (_&Hd&_). auto. }
    rewrite decide_True by (rewrite fmap_app; set_solver). rewrite E in *.
    destruct (Htouch c) as (w&->&Hw'); [by destruct Hfit| |].
    { destruct Hput as [_ Hc]. unfold put in Hc. rewrite costs_app, costs_cons in Hc.
      apply costs_nonneg in Hpm. lia. }
    exists (mk_tl w (main (state p)) sk), (put k c ws), ys, xs. split; [done|]. split; [|done].
    eapply TRepr_intro; [exact Hw'|done|done|done|exact Hput].
  - destruct (main_touch_spec _ _ _ _ k c _ HT Hcap Hfit) as (m'&ys'&xs'&->&HS'&E). simpl.
    eexists _, ws, ys', xs'. split; [done|].
    assert (Hp : ws ++ ys' ++ xs' ≡ₚ if decide (k ∈ (ws ++ ys ++ xs).*1) then put k c (ws ++ ys ++ xs) else ws ++ ys ++ xs).
    { assert (Hiff : k ∈ (ws ++ ys ++ xs).*1 ↔ k ∈ (ys ++ xs).*1) by (rewrite fmap_app, elem_of_app; tauto).
      rewrite E. do 2 case_decide; try done; try tauto. symmetry. by apply put_right. }
    split; [|done]. eapply TRepr_intro; [done|done|done|exact Hp|]. by case_decide.
Qed.

Lemma tracked_put s ws ys xs k c zs :
  TRepr s ws ys xs → ws ++ ys ++ xs ≡ₚ put k c zs → state_tracked s = <[k:=c]> (list_to_map zs).
Proof.
  intros HT Hp. rewrite (TRepr_tracked _ _ _ _ HT), <- remove_key_map. destruct HT as (_&_&Hnd&_).
  by apply list_to_map_proper.
Qed.

(** What an admission does: the key is followed at cost [c], the rejected keys
    are not, and the window is within its target unless the key was in the main
    part (the window is then as it was). *)
Lemma tinylfu_on_admit_spec p ws ys xs k c :
  TRepr (state p) ws ys xs → 0 ≤ main_prot_capacity p → 0 ≤ window_target_cost p →
  cost_fits (list_to_map (ws ++ ys ++ xs)) k c →
  ∃ rej f s' ws' ys' xs',
    on_admit k c p = Some (match rej with [] => Admit | _ => AdmitAndEvict rej end, with_state s' p) ∧
    TRepr s' ws' ys' xs' ∧ evicted (<[k:=c]> (list_to_map (ws ++ ys ++ xs))) rej f (state_tracked s') ∧
    (costs ws' ≤ window_target_cost p ∨ k ∈ (ys ++ xs).*1 ∧ ws' = ws).
Proof.
  intros HT Hcap Htg Hfit. unfold on_admit. pose proof HT as (Hw&Hm&Hnd&Hlt&Hs).
  pose proof (put_fits k c _ Hnd Hfit) as Hput. pose proof (TRepr_ok _ _ _ _ HT) as [_ Hpm]%Forall_app.
  destruct (cms_increment_ok hash_one k _ Hs) as (sk&->&Hsk). cbn [mbind option_bind].
  destruct (main_touch_spec _ _ _ _ k c _ HT Hcap Hfit) as (m'&ys'&xs'&->&HS'&E). cbn [mbind option_bind].
  destruct (decide (k ∈ (ys ++ xs).*1)) as [Hkm|Hkm].
  - rewrite bool_decide_true by done.
    assert (Hp : ws ++ ys' ++ xs' ≡ₚ put k c (ws ++ ys ++ xs))
      by (rewrite E; symmetry; apply put_right; by eapply NoDup_parts).
    assert (HT' : TRepr (mk_tl (window (state p)) m' sk) ws ys' xs') by (by eapply TRepr_intro).
    exists [], 0. eexists _, ws, ys', xs'. split; [done|]. split; [exact HT'|]. split; [|by right].
    rewrite (tracked_put _ _ _ _ k c _ HT' Hp). apply evicted_nil.
  - rewrite bool_decide_false by done. rewrite put_left in Hput by done.
    destruct (Repr_push_front _ ws k c Hw) as (w&->&Hw'); [by destruct Hfit| |].
    { destruct Hput as [_ Hc]. unfold put in Hc. rewrite costs_app, costs_cons in Hc. apply costs_nonneg in Hpm. lia. }
    cbn [mbind option_bind].
    assert (HT' : TRepr (mk_tl w m' sk) (put k c ws) ys' xs')
      by (eapply TRepr_intro; [exact Hw'|done|done|rewrite E; done|exact Hput]).
    destruct (drain_spec (S (size (ll_lookup w))) (window_target_cost p) (main_cache_cost p)
      (state_tracked (mk_tl w m' sk)) [] 0 _ _ _ _ HT') as (rej&f&s'&ws'&xs2&->&HT2&Hev&Hle);
      [done|by eapply TRepr_fit|apply evicted_nil| |].
    { destruct Hw' as (es&Hwf&Hes). rewrite (wf_size _ _ Hwf). unfold put. rewrite Hes, length_fmap. lia. }
    exists rej, f, s', ws', ys', xs2. split; [done|]. split; [done|]. split; [|by left].
    rewrite <- (tracked_put _ _ _ _ k c (ws ++ ys ++ xs) HT'); [done|]. rewrite E. by rewrite put_left.
Qed.
Lemma tinylfu_evict_spec p ws ys xs n :
  TRepr (state p) ws ys xs → 0 ≤ main_prot_capacity p → 0 ≤ n →
  ∃ vs f s' ys' xs', evict n p = Some (vs, f, with_state s' p) ∧ TRepr s' ws ys' xs' ∧
    evicted (list_to_map (ws ++ ys ++ xs)) vs f (state_tracked s') ∧ (n ≤ f ∨ ys' ++ xs' = []).
Proof.
  intros HT Hcap Hn. unfold evict. destruct (Z.eqb_spec n 0) as [->|Hne].
  { exists [], 0, (state p), ys, xs. split; [by destruct p|]. split; [done|].
    split; [|left; lia]. rewrite (TRepr_tracked _ _ _ _ HT). apply evicted_nil. }
  pose proof (TRepr_ok _ _ _ _ HT) as [Hpw%costs_nonneg Hpm]%Forall_app.
  pose proof HT as (Hw&Hm&Hnd&Hlt&Hs). rewrite costs_app in Hlt.
  pose proof (evict_items_spec n _ _ _ _ Hm Hcap Hn) as He.
  pose proof (take_until_back n (ys ++ xs) Hpm) as Hb.
  destruct (take_until n (reverse (ys ++ xs))) as [V R]. destruct He as (m'&ys'&xs'&->&HS'&E&_).
  destruct Hb as (Ha&HV&HR&Hsum&Hen). cbn [mbind option_bind].
  assert (Hp : ws ++ ys ++ xs ≡ₚ V ++ ws ++ ys' ++ xs').
  { rewrite E, (reverse_Permutation R), (Permutation_app_swap_app V ws R), Ha. by rewrite reverse_Permutation. }
  assert (Hnd' : NoDup (ws ++ ys' ++ xs').*1)
    by (rewrite Hp, fmap_app in Hnd; by apply NoDup_app in Hnd as (_&_&?)).
  assert (HT' : TRepr (mk_tl (window (state p)) m' (sketch (state p))) ws ys' xs').
  { split_and!; [done|done|done| |done]. rewrite costs_app, E, costs_reverse. lia. }
  exists V.*1, (costs V). eexists _, ys', xs'. split; [done|]. split; [exact HT'|].
  rewrite (TRepr_tracked _ _ _ _ HT'). split; [by apply remove_part|].
  destruct Hen as [?| ->]; [by left|right; by rewrite E].
Qed.

Lemma tinylfu_on_remove_spec p ws ys xs k :
  TRepr (state p) ws ys xs →
  ∃ s' ws' ys' xs', on_remove k p = Some (with_state s' p) ∧ TRepr s' ws' ys' xs' ∧
    ws' ++ ys' ++ xs' = remove_key k (ws ++ ys ++ xs).
Proof.
  intros HT. pose proof (TRepr_ok _ _ _ _ HT) as Hok. pose proof HT as (Hw&Hm&Hnd&Hlt&Hs). unfold on_remove.
  assert (Hrest : NoDup (remove_key k (ws ++ ys ++ xs)).*1 ∧ costs (remove_key k (ws ++ ys ++ xs)) < U64).
  { split; [by apply remove_key_NoDup|]. pose proof (costs_remove_key_le k _ Hok). lia. }
  rewrite !remove_key_app in *. destruct (Repr_remove _ _ k Hw) as (w&->&Hw'). cbn [mbind option_bind].
  destruct ((list_to_map ws : gmap K Z) !! k) as [c|] eqn:Ek.
  - assert (Hkm : k ∉ (ys ++ xs).*1).
    { rewrite fmap_app, NoDup_app in Hnd. destruct Hnd as (_&Hd&_). apply Hd, keyed_list_lookup. by eexists. }
    assert (E : remove_key k ys ++ remove_key k xs = ys ++ xs) by (by rewrite <- remove_key_app, remove_key_notin).
    exists (mk_tl w (main (state p)) (sketch (state p))), (remove_key k ws), ys, xs.
    rewrite E in *. split; [done|]. split; [|done]. by eapply TRepr_intro.
  - destruct (remove_spec k _ _ _ Hm) as (o&prob&->&Ho). cbn [mbind option_bind]. destruct o as [c|].
    + eexists (mk_tl w (mk_slru prob _) _), _, _, _. split; [done|]. split; [|done]. by eapply TRepr_intro.
    + destruct Ho as (o'&prot&->&HS'). cbn [mbind option_bind].
      eexists (mk_tl w (mk_slru prob prot) _), _, _, _. split; [done|]. split; [|done]. by eapply TRepr_intro.
Qed.

Definition wf p : Prop :=
  (∃ ws ys xs, TRepr (state p) ws ys xs) ∧ 0 ≤ main_prot_capacity p ∧ 0 ≤ window_target_cost p.

Lemma tinylfu_wf_new capacity : 0 ≤ capacity → wf (new (A:=A) (K:=K) capacity).
Proof.
  intros. split; [exists [], [], []|].
  - split_and!; [apply Repr_new|apply SRepr_new|constructor|done|apply cms_new_ok].
  - simpl. split; [destruct (_ =? _); [lia|unfold sat_sub; lia]|destruct (_ =? _); lia].
Qed.

Lemma decision_victims_rejected (rej : list K) :
  decision_victims (match rej with [] => Admit | _ => AdmitAndEvict rej end) = rej.
Proof. by destruct rej. Qed.

#[global] Instance laws : PolicyLaws K (TinyLfuPolicy Index A K).
Proof.
  refine {| policy_wf p := wf p; tracked p := state_tracked (state p) |}; simpl.
  - intros p [(ws&ys&xs&HT) _]. by eapply TRepr_fit.
  - intros p k c [(ws&ys&xs&HT) [Hcap Htg]] Hfit. rewrite (TRepr_tracked _ _ _ _ HT) in *.
    destruct (tinylfu_on_access_spec p ws ys xs k c HT Hcap Hfit) as (s'&ws'&ys'&xs'&->&HT'&Hp).
    eexists. split; [done|]. split; [split; [by eauto|done]|]. simpl.
    destruct (decide (k ∈ (ws ++ ys ++ xs).*1)).
    + right. split; [by apply keyed_list_lookup|]. by eapply tracked_put.
    + left. rewrite (TRepr_tracked _ _ _ _ HT'). destruct HT' as (_&_&Hnd&_). by apply list_to_map_proper.
  - intros p k c [(ws&ys&xs&HT) [Hcap Htg]] Hfit. rewrite (TRepr_tracked _ _ _ _ HT) in *.
    destruct (tinylfu_on_admit_spec p ws ys xs k c HT Hcap Htg Hfit) as (rej&f&s'&ws'&ys'&xs'&->&HT'&Hev&_).
    eexists _, _, c. split; [done|]. split; [split; [by eauto|done]|].
    rewrite decision_victims_rejected. destruct Hev as (?&?&?&_). split_and!; [done|done|by left|done].
  - intros p k [(ws&ys&xs&HT) Hr]. rewrite (TRepr_tracked _ _ _ _ HT).
    destruct (tinylfu_on_remove_spec p ws ys xs k HT) as (s'&ws'&ys'&xs'&->&HT'&E).
    eexists. split; [done|]. split; [split; [by eauto|done]|]. simpl.
    by rewrite (TRepr_tracked _ _ _ _ HT'), E, list_to_map_remove_key.
  - intros p n [(ws&ys&xs&HT) [Hcap Htg]] Hn. rewrite (TRepr_tracked _ _ _ _ HT).
    destruct (tinylfu_evict_spec p ws ys xs n HT Hcap Hn) as (vs&f&s'&ys'&xs'&->&HT'&Hev&_).
    eexists _, _, _. split; [done|]. split; [split; [by eauto|done]|done].
  - intros p [(ws&ys&xs&HT) Hr]. eexists. split; [done|]. destruct HT as (Hw&(Hy&Hx&_)&_&_&Hs).
    set (s' := mk_tl _ _ _).
    assert (HT' : TRepr s' [] [] []).
    { assert (Hc := cms_clear_ok _ Hs). split_and!; [by eapply Repr_clear| |constructor|done|done].
      split_and!; [by eapply Repr_clear|by eapply Repr_clear|constructor|done]. }
    split; [split; [by eauto|done]|]. by apply (TRepr_tracked _ [] [] []).
Defined.

#[global] Instance exact_costs : ExactCosts K (TinyLfuPolicy Index A K).
Proof.
  intros p k c d p' [(ws&ys&xs&HT) [Hcap Htg]] Hfit Had. simpl in *. rewrite (TRepr_tracked _ _ _ _ HT) in *.
  destruct (tinylfu_on_admit_spec p ws ys xs k c HT Hcap Htg Hfit) as (rej&f&s'&ws'&ys'&xs'&Had'&HT'&Hev&_).
  rewrite Had in Had'. simplify_eq. rewrite decision_victims_rejected. by destruct Hev as (_&_&?&_).
Qed.

(** W-TinyLFU makes room although its [evict] only drains the main part.
    From a state whose window is within its target, an admission leaves the window
    within it, and evicting what then exceeds a budget [b] no smaller than the
    window's target always brings the followed costs within [b]. *)
Theorem tinylfu_makes_room p ws ys xs k c b :
  TRepr (state p) ws ys xs → 0 ≤ main_prot_capacity p → 0 ≤ window_target_cost p →
  costs ws ≤ window_target_cost p → window_target_cost p ≤ b →
  cost_fits (list_to_map (ws ++ ys ++ xs)) k c →
  ∃ d p1 vs f p2 ws' ys' xs', on_admit k c p = Some (d, p1) ∧
    evict (msum (state_tracked (state p1)) -sat b) p1 = Some (vs, f, p2) ∧
    TRepr (state p2) ws' ys' xs' ∧
    costs ws' ≤ window_target_cost p ∧ costs (ws' ++ ys' ++ xs') ≤ b ∧
    state_tracked (state p2)
      = without (decision_victims d ++ vs) (<[k:=c]> (list_to_map (ws ++ ys ++ xs))).
Proof.
  intros HT Hcap Htg Hws Hb Hfit.
  destruct (tinylfu_on_admit_spec p ws ys xs k c HT Hcap Htg Hfit) as (rej&f&s1&ws1&ys1&xs1&Had&HT1&Hev1&Hw1).
  assert (Hw1' : costs ws1 ≤ window_target_cost p) by (destruct Hw1 as [?|[_ ->]]; done).
  destruct (tinylfu_evict_spec (with_state s1 p) ws1 ys1 xs1 (msum (state_tracked s1) -sat b) HT1 Hcap) as
    (vs&g&s2&ys2&xs2&Hevict&HT2&Hev2&Hen); [u64_lia|].
  eexists _, _, vs, g, _, ws1, ys2, xs2. split; [exact Had|]. split; [exact Hevict|]. split; [exact HT2|].
  split; [done|]. pose proof HT2 as (_&_&Hnd2&_). split.
  - rewrite <- msum_list, <- (TRepr_tracked _ _ _ _ HT2) by done.
    destruct Hen as [Hle|Hem]; [|rewrite (TRepr_tracked _ _ _ _ HT2), msum_list, Hem, app_nil_r by done; lia].
    destruct Hev2 as (_&_&_&Hg). rewrite <- (TRepr_tracked _ _ _ _ HT1) in Hg. unfold sat_sub in Hle. lia.
  - rewrite decision_victims_rejected, without_app. destruct Hev1 as (_&_&<-&_).
    destruct Hev2 as (_&_&E&_). simpl. by rewrite E, (TRepr_tracked _ _ _ _ HT1).
Qed.
End Proofs.

#[local] Instance nat_hash : KeyHash nat := λ k, Z.of_nat k.

Definition tinylfu_ops : list (PolicyOp nat) :=
  [OpAdmit 1%nat 3; OpAdmit 2%nat 4; OpAccess 1%nat 3; OpAdmit 3%nat 2].

Definition tinylfu_example : option (TinyLfuPolicy nat counter_arena nat) := policy_run tinylfu_ops (new 10).

Lemma tinylfu_makes_room_witness :
  ∃ p d p1 vs p2, tinylfu_example = Some p ∧ on_admit 4%nat 5 p = Some (d, p1) ∧
    evict (msum (state_tracked (state p1)) -sat 10) p1 = Some (vs, 4, p2) ∧ vs = [2%nat].
Proof.
  destruct (policy_run_ok tinylfu_ops (new 10 : TinyLfuPolicy nat counter_arena nat)) as (p&Hp&Hw&_);
    [by apply tinylfu_wf_new|by repeat constructor|vm_compute; reflexivity|].
  destruct Hw as [(ws&ys&xs&HT) [Hcap Htg]]. pose proof HT as (Hwin&_).
  assert (Hc : (p ← tinylfu_example; Some (current_total_cost (window (state p)), window_target_cost p,
    bool_decide (cost_fits (state_tracked (state p)) 4%nat 5))) = Some (0, 1, true)) by (vm_compute; reflexivity).
  unfold tinylfu_example in Hc. rewrite Hp in Hc. cbn [mbind option_bind] in Hc.
  injection Hc as Hcost Htgt Hfits%bool_decide_eq_true_1.
  rewrite (TRepr_tracked _ _ _ _ HT) in Hfits. rewrite (Repr_cost _ _ Hwin) in Hcost.
  destruct (tinylfu_makes_room p ws ys xs 4%nat 5 10 HT Hcap Htg) as (d&p1&vs&f&p2&_&_&_&Had&Hev&_);
    [lia|lia|exact Hfits|].
  assert (Ec : (p ← tinylfu_example; '(d, p1) ← on_admit 4%nat 5 p;
    '(vs, f, p2) ← evict (msum (state_tracked (state p1)) -sat 10) p1; Some (vs, f)) = Some ([2%nat], 4))
    by (vm_compute; reflexivity).
  unfold tinylfu_example in Ec. rewrite Hp in Ec. cbn [mbind option_bind] in Ec. rewrite Had in Ec.
  cbn [mbind option_bind] in Ec. rewrite Hev in Ec. cbn [mbind option_bind] in Ec. injection Ec as Hvs Hf.
  exists p, d, p1, vs, p2. split; [exact Hp|]. split; [exact Had|]. split; [rewrite Hev, Hf; reflexivity|exact Hvs].
Defined.
