(* ===== verification/Arc.v ===== *)
(** * [cache/src/policy/arc.rs]: the adaptive replacement cache

    [T1] and [T2] hold the followed keys, [B1] and [B2] the ghosts, [p] is the
    target cost of [T1].  ARC is not an instance of [PolicyLaws]: an admission into
    a full cache moves a key from [T1] or [T2] to a ghost list without naming it a
    victim, and [evict] stops while [T1] is below its target and [T2] is empty.  The
    theorems say exactly what it does. *)

From S2P Require Import Prelude Dll Arena LruList Policy Float.

Section Code.
Context {Index : Type} {A : Type → Type} `{EqDecision Index} `{!Arena Index A}.
Context {K : Type} `{Countable K}.

Record ArcState := mk_arc {
  p : Z;
  t1 : LruList Index A K;
  t2 : LruList Index A K;
  b1 : LruList Index A K;
  b2 : LruList Index A K;
}.
Implicit Types s : ArcState.

Definition state_new : ArcState := mk_arc 0 LruList.new LruList.new LruList.new LruList.new.

(** [bN.push_front(key, cost); if bN.current_total_cost() > capacity { bN.pop_back() }]. *)
Definition push_ghost (capacity : Z) (key : K) (cost : Z) (b : LruList Index A K) : option (LruList Index A K) :=
  b' ← push_front b key cost;
  if capacity <? current_total_cost b' then '(_, b'') ← pop_back b'; Some b'' else Some b'.

Definition replace (capacity : Z) (key_in_b2 : bool) s : option (option (K * Z) * ArcState) :=
  let t1_cost := current_total_cost (t1 s) in
  if (0 <? t1_cost) && ((p s <=? t1_cost) || (key_in_b2 && (t1_cost =? p s))) then
    '(popped, l) ← pop_back (t1 s);
    match popped with
    | Some (key, cost) =>
        g ← push_ghost capacity key cost (b1 s);
        Some (Some (key, cost), mk_arc (p s) l (t2 s) g (b2 s))
    | None => Some (None, mk_arc (p s) l (t2 s) (b1 s) (b2 s))
    end
  else
    '(popped, l) ← pop_back (t2 s);
    match popped with
    | Some (key, cost) =>
        g ← push_ghost capacity key cost (b2 s);
        Some (Some (key, cost), mk_arc (p s) (t1 s) l (b1 s) g)
    | None => Some (None, mk_arc (p s) (t1 s) l (b1 s) (b2 s))
    end.

Record ArcPolicy := mk_arc_policy { state : ArcState; capacity : Z }.
Implicit Types a : ArcPolicy.

Definition new (cap : Z) : ArcPolicy := mk_arc_policy state_new cap.

Definition with_state s a : ArcPolicy := mk_arc_policy s (capacity a).

Definition on_access (key : K) (cost : Z) a : option ArcPolicy :=
  let s := state a in
  '(removed, l) ← remove (t1 s) key;
  match removed with
  | Some _ => l2 ← push_front (t2 s) key cost; Some (with_state (mk_arc (p s) l l2 (b1 s) (b2 s)) a)
  | None =>
      if contains (t2 s) key
      then l2 ← push_front (t2 s) key cost; Some (with_state (mk_arc (p s) l l2 (b1 s) (b2 s)) a)
      else Some (with_state (mk_arc (p s) l (t2 s) (b1 s) (b2 s)) a)
  end.

(** The step of [p]: [other / own] rounded when [other] is the longer, at least 1. *)
Definition ghost_delta (own other : Z) : Z :=
  Z.max (if (0 <? own) && (own <? other) then round_as_u64 (f64_div (f64_of_u64 other) (f64_of_u64 own)) else 1) 1.

(** "Check ghost lists and adapt [p]". *)
Definition adapt (key : K) (cap : Z) s : option (bool * ArcState) :=
  '(in1, g1) ← remove (b1 s) key;
  match in1 with
  | Some _ =>
      let delta := ghost_delta (current_total_cost g1) (current_total_cost (b2 s)) in
      Some (false, mk_arc (Z.min (p s +w delta) cap) (t1 s) (t2 s) g1 (b2 s))
  | None =>
      '(in2, g2) ← remove (b2 s) key;
      match in2 with
      | Some _ =>
          let delta := ghost_delta (current_total_cost g2) (current_total_cost g1) in
          Some (true, mk_arc (p s -sat delta) (t1 s) (t2 s) g1 g2)
      | None => Some (false, mk_arc (p s) (t1 s) (t2 s) g1 g2)
      end
  end.

Definition on_admit (key : K) (cost : Z) a : option (AdmissionDecision K * ArcPolicy) :=
  let s := state a in
  '(removed, l) ← remove (t1 s) key;
  match removed with
  | Some _ => l2 ← push_front (t2 s) key cost; Some (Admit, with_state (mk_arc (p s) l l2 (b1 s) (b2 s)) a)
  | None =>
      if contains (t2 s) key
      then l2 ← push_front (t2 s) key cost; Some (Admit, with_state (mk_arc (p s) l l2 (b1 s) (b2 s)) a)
      else
        '(key_in_b2, s1) ← adapt key (capacity a) (mk_arc (p s) l (t2 s) (b1 s) (b2 s));
        '(_, s2) ← (if capacity a <=? current_total_cost (t1 s1) +w current_total_cost (t2 s1)
                    then replace (capacity a) key_in_b2 s1 else Some (None, s1));
        l1 ← push_front (t1 s2) key cost;
        Some (Admit, with_state (mk_arc (p s2) l1 (t2 s2) (b1 s2) (b2 s2)) a)
  end.

Definition on_remove (key : K) a : option ArcPolicy :=
  let s := state a in
  '(o, l1) ← remove (t1 s) key;
  match o with
  | Some _ => Some (with_state (mk_arc (p s) l1 (t2 s) (b1 s) (b2 s)) a)
  | None =>
      '(o, l2) ← remove (t2 s) key;
      match o with
      | Some _ => Some (with_state (mk_arc (p s) l1 l2 (b1 s) (b2 s)) a)
      | None =>
          '(o, g1) ← remove (b1 s) key;
          match o with
          | Some _ => Some (with_state (mk_arc (p s) l1 l2 g1 (b2 s)) a)
          | None =>
              '(_, g2) ← remove (b2 s) key;
              Some (with_state (mk_arc (p s) l1 l2 g1 g2) a)
          end
      end
  end.

Fixpoint evict_loop (fuel : nat) (cap cost_to_free : Z) (victims : list K) (total_cost_freed : Z) s
    : option (list K * Z * ArcState) :=
  if total_cost_freed <? cost_to_free then
    match fuel with
    | O => None
    | S fuel =>
        key_in_b2 ← (match ll_tail (t1 s) with
                     | Some idx => n ← arena_get idx (ll_nodes (t1 s)); Some (contains (b2 s) (n_key n))
                     | None => Some false
                     end);
        '(o, s') ← replace cap key_in_b2 s;
        match o with
        | Some (key, cost) =>
            evict_loop fuel cap cost_to_free (victims ++ [key]) (total_cost_freed +w cost) s'
        | None => Some (victims, total_cost_freed, s')
        end
    end
  else Some (victims, total_cost_freed, s).

Definition evict (cost_to_free : Z) a : option (list K * Z * ArcPolicy) :=
  let s := state a in
  '(victims, freed, s') ← evict_loop (S (size (ll_lookup (t1 s)) + size (ll_lookup (t2 s)))) (capacity a)
                             cost_to_free [] 0 s;
  Some (victims, freed, with_state s' a).

Definition clear a : option ArcPolicy :=
  let s := state a in
  Some (with_state (mk_arc 0 (LruList.clear (t1 s)) (LruList.clear (t2 s)) (LruList.clear (b1 s))
    (LruList.clear (b2 s))) a).

#[global] Instance policy : CachePolicy K ArcPolicy := {
  Policy.on_access := on_access;
  Policy.uses_access_events _ := true;
  Policy.on_admit := on_admit;
  Policy.on_remove := on_remove;
  Policy.evict := evict;
  Policy.clear := clear;
}.
End Code.
Arguments ArcState Index A K {_ _}.
Arguments ArcPolicy Index A K {_ _}.

(** The keys a policy follows: those of [T1] and [T2]. *)
Definition state_tracked {Index A} `{Arena Index A} {K} `{Countable K} (s : ArcState Index A K) : gmap K Z :=
  contents (t1 s) ∪ contents (t2 s).

Section Proofs.
Context {Index : Type} {A : Type → Type} `{ArenaLaws Index A}.
Context {K : Type} `{Countable K}.
Implicit Types (s : ArcState Index A K) (a : ArcPolicy Index A K) (xs ys gs hs : list (K * Z)) (k : K).

(** [xs] in [T1], [ys] in [T2], [gs] in [B1], [hs] in [B2], most recent first. *)
Record ARepr s xs ys gs hs : Prop := {
  ar_t1 : Repr (t1 s) xs;
  ar_t2 : Repr (t2 s) ys;
  ar_b1 : Repr (b1 s) gs;
  ar_b2 : Repr (b2 s) hs;
  ar_nodup : NoDup (xs ++ ys).*1;
  ar_costs : costs xs + costs ys + costs gs + costs hs < U64;
}.

Lemma ARepr_tracked s xs ys gs hs : ARepr s xs ys gs hs → state_tracked s = list_to_map (xs ++ ys).
Proof.
  intros [Hx Hy _ _ _ _]. unfold state_tracked.
  by rewrite (Repr_contents _ _ Hx), (Repr_contents _ _ Hy), list_to_map_app.
Qed.

Lemma Repr_nonneg (l : LruList Index A K) xs : Repr l xs → 0 ≤ costs xs.
Proof. intros HR. apply costs_nonneg. by apply (Repr_costs l). Qed.

Lemma ARepr_nonneg s xs ys gs hs :
  ARepr s xs ys gs hs → 0 ≤ costs xs ∧ 0 ≤ costs ys ∧ 0 ≤ costs gs ∧ 0 ≤ costs hs.
Proof. intros [Hx Hy Hg Hh _ _]. split_and!; by eapply Repr_nonneg. Qed.

Lemma ARepr_fit s xs ys gs hs : ARepr s xs ys gs hs → costs_fit (state_tracked s).
Proof.
  intros HA. rewrite (ARepr_tracked _ _ _ _ _ HA). pose proof (ARepr_nonneg _ _ _ _ _ HA).
  destruct HA as [Hx Hy _ _ Hnd Hlt]. split; [|rewrite msum_list, costs_app by done; lia].
  intros k c Hk. apply elem_of_list_to_map_2 in Hk. apply Repr_costs in Hx as [Hx _]. apply Repr_costs in Hy as [Hy _].
  assert (Hok : costs_ok (xs ++ ys)) by (by apply Forall_app). unfold costs_ok in Hok.
  rewrite Forall_forall in Hok. exact (Hok _ Hk).
Qed.

Lemma push_ghost_spec cap k c (g : LruList Index A K) gs :
  Repr g gs → 0 ≤ c → costs gs + c < U64 →
  ∃ g' gs', push_ghost cap k c g = Some g' ∧ Repr g' gs' ∧ costs gs' ≤ costs gs + c.
Proof.
  intros Hg Hc Hlt. unfold push_ghost. pose proof (Repr_costs _ _ Hg) as [Hok _].
  pose proof (costs_remove_key_le k gs Hok) as Hle.
  destruct (Repr_push_front g gs k c Hg Hc ltac:(lia)) as (g'&->&Hg'). cbn [mbind option_bind].
  destruct (cap <? current_total_cost g').
  2:{ exists g', ((k, c) :: remove_key k gs). rewrite costs_cons. split_and!; [done|done|lia]. }
  pose proof (Repr_costs _ _ Hg') as [Hok' _].
  destruct ((k, c) :: remove_key k gs) as [|[j d] l _] eqn:E using rev_ind; [done|].
  destruct (Repr_pop_back _ _ _ _ Hg') as (g2&->&Hg2). eexists _, l. split; [done|]. split; [done|].
  apply costs_ok_snoc in Hok' as [_ ?]. assert (costs (l ++ [(j, d)]) ≤ costs gs + c); [|rewrite costs_snoc in *; lia].
  rewrite <- E, costs_cons. lia.
Qed.

(** [replace] moves one followed key to a ghost list; it finds none only when
    [T2] is empty and [T1] costs nothing or is below its target. *)
Lemma replace_spec cap b s xs ys gs hs :
  ARepr s xs ys gs hs →
  ∃ o s' xs' ys' gs' hs', replace cap b s = Some (o, s') ∧ ARepr s' xs' ys' gs' hs' ∧ p s' = p s ∧
    costs xs' + costs ys' + costs gs' + costs hs' ≤ costs xs + costs ys + costs gs + costs hs ∧
    match o with
    | Some (k, c) => state_tracked s !! k = Some c ∧ state_tracked s' = delete k (state_tracked s) ∧
        (length xs' + length ys' < length xs + length ys)%nat
    | None => xs' = xs ∧ ys' = ys ∧ ys = [] ∧ (costs xs = 0 ∨ costs xs < p s)
    end.
Proof.
  intros HA. pose proof (ARepr_nonneg _ _ _ _ _ HA) as (?&?&?&?). pose proof HA as [Hx Hy Hg Hh Hnd Hlt].
  unfold replace. rewrite (Repr_cost _ _ Hx). destruct ((0 <? costs xs) && _) eqn:Eb.
  - apply andb_true_iff in Eb as [Hpos%Z.ltb_lt _].
    destruct xs as [|[k c] xs _] using rev_ind; [by apply Z.lt_irrefl in Hpos|].
    destruct (Repr_costs _ _ Hx) as [[_ Hc]%costs_ok_snoc _].
    destruct (Repr_pop_back _ _ _ _ Hx) as (l&->&Hl). cbn [mbind option_bind]. rewrite costs_snoc in *.
    pose proof (Repr_nonneg _ _ Hl).
    destruct (push_ghost_spec cap k c _ gs Hg Hc) as (g&gs'&->&Hg'&Hle); [lia|]. cbn [mbind option_bind].
    rewrite <- app_assoc in Hnd. simpl in Hnd.
    assert (HA' : ARepr (mk_arc (p s) l (t2 s) g (b2 s)) xs ys gs' hs)
      by (split; try done; [by eapply NoDup_middle|lia]).
    eexists _, _, xs, ys, gs', hs. split; [done|]. split; [exact HA'|]. split; [done|]. split; [lia|].
    rewrite (ARepr_tracked _ _ _ _ _ HA), (ARepr_tracked _ _ _ _ _ HA'), <- app_assoc. simpl. split_and!.
    + by apply lookup_middle.
    + symmetry. by apply (delete_middle_map xs ys k c).
    + rewrite length_app. simpl. lia.
  - destruct ys as [|[k c] ys _] using rev_ind.
    + rewrite (Repr_pop_back_nil _ Hy). cbn [mbind option_bind]. eexists None, _, xs, [], gs, hs.
      split; [done|]. split; [by destruct s|]. split; [done|]. split; [lia|]. split_and!; [done..|].
      apply andb_false_iff in Eb as [Eb%Z.ltb_ge|Eb]; [left; lia|right].
      apply orb_false_iff in Eb as [Eb%Z.leb_gt _]. lia.
    + destruct (Repr_costs _ _ Hy) as [[_ Hc]%costs_ok_snoc _].
      destruct (Repr_pop_back _ _ _ _ Hy) as (l&->&Hl). cbn [mbind option_bind]. rewrite costs_snoc in *.
      pose proof (Repr_nonneg _ _ Hl).
      destruct (push_ghost_spec cap k c _ hs Hh Hc) as (g&hs'&->&Hg'&Hle); [lia|]. cbn [mbind option_bind].
      rewrite app_assoc in Hnd.
      assert (Hnd' := NoDup_middle _ _ _ _ Hnd). rewrite app_nil_r in Hnd'.
      assert (HA' : ARepr (mk_arc (p s) (t1 s) l (b1 s) g) xs ys gs hs') by (split; try done; lia).
      eexists _, _, xs, ys, gs, hs'. split; [done|]. split; [exact HA'|]. split; [done|]. split; [lia|].
      rewrite (ARepr_tracked _ _ _ _ _ HA), (ARepr_tracked _ _ _ _ _ HA'), app_assoc. split_and!.
      * by apply lookup_middle.
      * rewrite (delete_middle_map (xs ++ ys) [] k c) by done. by rewrite app_nil_r.
      * rewrite length_app. simpl. lia.
Qed.

Lemma tail_in_b2 s xs ys gs hs :
  ARepr s xs ys gs hs →
  ∃ b, match ll_tail (t1 s) with
       | Some idx => n ← arena_get idx (ll_nodes (t1 s)); Some (contains (b2 s) (n_key n))
       | None => Some false
       end = Some b.
Proof.
  intros [Hx _ _ _ _ _]. destruct xs as [|[k c] xs _] using rev_ind.
  - rewrite (Repr_tail_nil _ Hx). eauto.
  - destruct (Repr_tail _ _ _ _ Hx) as (i&n&->&->&_). simpl. eauto.
Qed.

Lemma arc_evict_loop_spec fuel cap n m vs f s xs ys gs hs :
  ARepr s xs ys gs hs → costs_fit m → evicted m vs f (state_tracked s) →
  (length xs + length ys < fuel)%nat →
  ∃ vs' f' s' xs' ys' gs' hs', evict_loop fuel cap n vs f s = Some (vs', f', s') ∧
    ARepr s' xs' ys' gs' hs' ∧ p s' = p s ∧ evicted m vs' f' (state_tracked s') ∧
    (n ≤ f' ∨ ys' = [] ∧ (costs xs' = 0 ∨ costs xs' < p s)).
Proof.
  revert vs f s xs ys gs hs. induction fuel as [|fuel IH]; intros vs f s xs ys gs hs HA Hfit Hev Hf; [lia|].
  cbn [evict_loop]. destruct (Z.ltb_spec f n).
  2:{ exists vs, f, s, xs, ys, gs, hs. split_and!; try done. by left. }
  destruct (tail_in_b2 _ _ _ _ _ HA) as [b ->]. cbn [mbind option_bind].
  destruct (replace_spec cap b _ _ _ _ _ HA) as (o&s1&xs1&ys1&gs1&hs1&->&HA1&Hp&_&Ho). cbn [mbind option_bind].
  destruct o as [[k c]|].
  - destruct Ho as (Hk&Hd&Hlen). destruct (evicted_step _ _ _ _ _ _ Hfit Hev Hk) as (_&_&Hev1).
    rewrite <- Hd in Hev1. rewrite <- Hp. apply (IH _ _ s1 xs1 ys1 gs1 hs1); [done|done|done|lia].
  - destruct Ho as (->&->&->&Hc). exists vs, f, s1, xs, [], gs1, hs1.
    split_and!; [done|done|done| |by right].
    by rewrite (ARepr_tracked _ _ _ _ _ HA1), <- (ARepr_tracked _ _ _ _ _ HA).
Qed.

(** [ArcPolicy::evict] is safe and its shortfall is exactly this: it
    returns, names distinct followed keys, reports their recorded costs and
    moves them to the ghost lists; when it frees less than asked, [T2] is empty
    and [T1] either costs nothing or is below its target [p]. *)
Theorem arc_evict_safe a xs ys gs hs n :
  ARepr (state a) xs ys gs hs →
  ∃ vs f a' xs' ys' gs' hs', evict n a = Some (vs, f, a') ∧ ARepr (state a') xs' ys' gs' hs' ∧
    evicted (state_tracked (state a)) vs f (state_tracked (state a')) ∧
    (n ≤ f ∨ ys' = [] ∧ (costs xs' = 0 ∨ costs xs' < p (state a'))).
Proof.
  intros HA. unfold evict. pose proof HA as [(es1&Hw1&E1) (es2&Hw2&E2) _ _ _ _].
  rewrite (wf_size _ _ Hw1), (wf_size _ _ Hw2).
  destruct (arc_evict_loop_spec (S (length es1 + length es2)) (capacity a) n (state_tracked (state a)) [] 0
    _ _ _ _ _ HA) as (vs&f&s'&xs'&ys'&gs'&hs'&->&?&Hp&?&?);
    [by eapply ARepr_fit|apply evicted_nil|rewrite E1, E2, !length_fmap; lia|].
  exists vs, f. eexists _, xs', ys', gs', hs'. split; [done|]. simpl. rewrite Hp. done.
Qed.
(** Moving [k] to the front of [T2], from [T1] or from within [T2]. *)
Lemma promote_spec s l xs ys gs hs k c :
  ARepr s xs ys gs hs → Repr l (remove_key k xs) → 0 ≤ c →
  costs xs + costs ys + costs gs + costs hs + c < U64 → k ∈ (xs ++ ys).*1 →
  ∃ l2, push_front (t2 s) k c = Some l2 ∧
    ARepr (mk_arc (p s) l l2 (b1 s) (b2 s)) (remove_key k xs) ((k, c) :: remove_key k ys) gs hs ∧
    state_tracked (mk_arc (p s) l l2 (b1 s) (b2 s)) = <[k:=c]> (state_tracked s).
Proof.
  intros HA Hl Hc Hlt Hk. pose proof (ARepr_nonneg _ _ _ _ _ HA) as (?&?&?&?).
  pose proof HA as [Hx Hy Hg Hh Hnd _]. destruct (Repr_costs _ _ Hx) as [Hokx _]. destruct (Repr_costs _ _ Hy) as [Hoky _].
  pose proof (costs_remove_key_le k xs Hokx). pose proof (costs_remove_key_le k ys Hoky).
  destruct (Repr_push_front _ ys k c Hy Hc) as (l2&->&Hl2); [lia|]. exists l2. split; [done|].
  assert (Hp : remove_key k xs ++ (k, c) :: remove_key k ys ≡ₚ (k, c) :: remove_key k (xs ++ ys))
    by (rewrite remove_key_app; by rewrite Permutation_middle).
  assert (HA' : ARepr (mk_arc (p s) l l2 (b1 s) (b2 s)) (remove_key k xs) ((k, c) :: remove_key k ys) gs hs).
  { split; try done.
    - rewrite Hp, fmap_cons, NoDup_cons, elem_of_remove_key. split; [tauto|by apply remove_key_NoDup].
    - rewrite costs_cons. lia. }
  split; [exact HA'|]. rewrite (ARepr_tracked _ _ _ _ _ HA'), (ARepr_tracked _ _ _ _ _ HA), <- remove_key_map.
  destruct HA' as [_ _ _ _ Hnd' _]. by apply list_to_map_proper.
Qed.

Lemma adapt_spec k cap s xs ys gs hs :
  ARepr s xs ys gs hs →
  ∃ b s' gs' hs', adapt k cap s = Some (b, s') ∧ ARepr s' xs ys gs' hs' ∧ t1 s' = t1 s ∧ t2 s' = t2 s ∧
    costs gs' ≤ costs gs ∧ costs hs' ≤ costs hs.
Proof.
  intros HA. pose proof HA as [Hx Hy Hg Hh Hnd Hlt].
  destruct (Repr_costs _ _ Hg) as [Hokg _]. destruct (Repr_costs _ _ Hh) as [Hokh _].
  pose proof (costs_remove_key_le k gs Hokg). pose proof (costs_remove_key_le k hs Hokh). unfold adapt.
  destruct (Repr_remove _ _ k Hg) as (g1&->&Hg1). cbn [mbind option_bind].
  destruct ((list_to_map gs : gmap K Z) !! k) eqn:Ek.
  - eexists _, _, (remove_key k gs), hs. split; [done|]. split; [split; try done; lia|]. split_and!; done || lia.
  - destruct (Repr_remove _ _ k Hh) as (g2&->&Hg2). cbn [mbind option_bind].
    destruct ((list_to_map hs : gmap K Z) !! k).
    + eexists _, _, (remove_key k gs), (remove_key k hs). split; [done|].
      split; [split; try done; lia|]. split_and!; done || lia.
    + eexists _, _, (remove_key k gs), (remove_key k hs). split; [done|].
      split; [split; try done; lia|]. split_and!; done || lia.
Qed.

(** The key pushed to the front of [T1], when neither list has it. *)
Lemma push_t1_spec s xs ys gs hs k c :
  ARepr s xs ys gs hs → 0 ≤ c → costs xs + costs ys + costs gs + costs hs + c < U64 → k ∉ (xs ++ ys).*1 →
  ∃ l1, push_front (t1 s) k c = Some l1 ∧
    ARepr (mk_arc (p s) l1 (t2 s) (b1 s) (b2 s)) ((k, c) :: xs) ys gs hs ∧
    state_tracked (mk_arc (p s) l1 (t2 s) (b1 s) (b2 s)) = <[k:=c]> (state_tracked s).
Proof.
  intros HA Hc Hlt Hk. pose proof (ARepr_nonneg _ _ _ _ _ HA) as (?&?&?&?). pose proof HA as [Hx Hy Hg Hh Hnd _].
  assert (Hkx : k ∉ xs.*1) by (rewrite fmap_app in Hk; set_solver).
  destruct (Repr_push_front _ xs k c Hx Hc) as (l1&->&Hl1); [rewrite remove_key_notin by done; lia|].
  rewrite remove_key_notin in Hl1 by done. exists l1. split; [done|].
  assert (HA' : ARepr (mk_arc (p s) l1 (t2 s) (b1 s) (b2 s)) ((k, c) :: xs) ys gs hs).
  { split; try done; [by rewrite <- app_comm_cons, fmap_cons, NoDup_cons|rewrite costs_cons; lia]. }
  split; [exact HA'|]. by rewrite (ARepr_tracked _ _ _ _ _ HA'), (ARepr_tracked _ _ _ _ _ HA).
Qed.

(** A new key: [adapt], then [replace] when [T1] and [T2] are at capacity, then
    [T1]. *)
Lemma admit_new s xs ys gs hs cap k c :
  ARepr s xs ys gs hs → 0 ≤ c → costs xs + costs ys + costs gs + costs hs + c < U64 → k ∉ (xs ++ ys).*1 →
  ∃ lost b s1 o s2 l1 xs' ys' gs' hs', adapt k cap s = Some (b, s1) ∧
    (if cap <=? current_total_cost (t1 s1) +w current_total_cost (t2 s1)
     then replace cap b s1 else Some (None, s1)) = Some (o, s2) ∧
    push_front (t1 s2) k c = Some l1 ∧
    ARepr (mk_arc (p s2) l1 (t2 s2) (b1 s2) (b2 s2)) xs' ys' gs' hs' ∧
    state_tracked (mk_arc (p s2) l1 (t2 s2) (b1 s2) (b2 s2))
      = <[k:=c]> (without (option_list lost) (state_tracked s)) ∧
    match lost with
    | Some v => is_Some (state_tracked s !! v) ∧ v ≠ k ∧ cap ≤ costs xs + costs ys
    | None => costs xs + costs ys < cap ∨ ys = []
    end.
Proof.
  intros HA Hc Hlt Hk. pose proof (ARepr_nonneg _ _ _ _ _ HA) as (?&?&?&?).
  destruct (adapt_spec k cap s xs ys gs hs HA) as (b&s1&gs1&hs1&->&HA1&_&_&?&?).
  assert (Ht1 : state_tracked s1 = state_tracked s)
    by (by rewrite (ARepr_tracked _ _ _ _ _ HA1), (ARepr_tracked _ _ _ _ _ HA)).
  pose proof (Repr_cost _ _ (ar_t1 _ _ _ _ _ HA1)) as E1. pose proof (Repr_cost _ _ (ar_t2 _ _ _ _ _ HA1)) as E2.
  destruct (Z.leb_spec cap (costs xs + costs ys)) as [Hfull|Hroom].
  - destruct (replace_spec cap b _ _ _ _ _ HA1) as (o&s2&xs2&ys2&gs2&hs2&Hrep&HA2&_&Hsum&Ho).
    assert (Hif : (if cap <=? current_total_cost (t1 s1) +w current_total_cost (t2 s1)
      then replace cap b s1 else Some (None, s1)) = Some (o, s2)).
    { rewrite E1, E2, u64_add_small by lia. by destruct (Z.leb_spec cap (costs xs + costs ys)); [|lia]. }
    assert (Hk2 : k ∉ (xs2 ++ ys2).*1).
    { rewrite keyed_list_lookup, <- (ARepr_tracked _ _ _ _ _ HA2). destruct o as [[v cv]|].
      - destruct Ho as (_&->&_). rewrite Ht1, lookup_delete_is_Some, (ARepr_tracked _ _ _ _ _ HA), <- keyed_list_lookup. tauto.
      - destruct Ho as (->&->&_). by rewrite (ARepr_tracked _ _ _ _ _ HA2), <- keyed_list_lookup. }
    destruct (push_t1_spec s2 _ _ _ _ k c HA2 Hc ltac:(lia) Hk2) as (l1&Hl1&HA3&Ht3).
    eexists (fst <$> o), b, s1, o, s2, l1, _, ys2, gs2, hs2.
    split; [done|]. split; [done|]. split; [done|]. split; [exact HA3|]. rewrite Ht3. destruct o as [[v cv]|]; simpl.
    + destruct Ho as (Hv&->&_). rewrite Ht1 in *. rewrite without_cons, without_nil. split; [done|].
      split_and!; [by eexists| |done]. intros ->. rewrite (ARepr_tracked _ _ _ _ _ HA) in Hv.
      apply Hk, keyed_list_lookup. by eexists.
    + destruct Ho as (->&->&->&_). rewrite without_nil. split; [|by right].
      by rewrite (ARepr_tracked _ _ _ _ _ HA2), (ARepr_tracked _ _ _ _ _ HA).
  - destruct (push_t1_spec s1 _ _ _ _ k c HA1 Hc ltac:(lia) Hk) as (l1&Hl1&HA3&Ht3).
    eexists None, b, s1, None, s1, l1, _, ys, gs1, hs1. split; [done|]. split.
    { rewrite E1, E2, u64_add_small by lia. by destruct (Z.leb_spec cap (costs xs + costs ys)); [lia|]. }
    split; [done|]. split; [exact HA3|]. rewrite Ht3, Ht1. simpl. rewrite without_nil. split; [done|by left].
Qed.

(** What [ArcPolicy::on_admit] does to the followed keys. It always answers
    [Admit] and follows the key at cost [c]; when the key is new and [T1] and
    [T2] are at capacity it also stops following the key [replace] picks, and this
    key is in no list of victims the shard gets. *)
Theorem arc_admit_effect a xs ys gs hs k c :
  ARepr (state a) xs ys gs hs → 0 ≤ c → costs xs + costs ys + costs gs + costs hs + c < U64 →
  ∃ lost a' xs' ys' gs' hs', on_admit k c a = Some (Admit, a') ∧ ARepr (state a') xs' ys' gs' hs' ∧
    state_tracked (state a') = <[k:=c]> (without (option_list lost) (state_tracked (state a))) ∧
    match lost with
    | Some v => is_Some (state_tracked (state a) !! v) ∧ v ≠ k ∧ capacity a ≤ costs xs + costs ys
    | None => k ∈ (xs ++ ys).*1 ∨ costs xs + costs ys < capacity a ∨ ys = []
    end.
Proof.
  intros HA Hc Hlt. pose proof HA as [Hx Hy Hg Hh Hnd Hsum]. unfold on_admit.
  destruct (Repr_remove _ _ k Hx) as (l&->&Hl). cbn [mbind option_bind].
  assert (Hpro : k ∈ (xs ++ ys).*1 →
    ∃ lost a' xs' ys' gs' hs', (l2 ← push_front (t2 (state a)) k c;
      Some (@Admit K, with_state (mk_arc (p (state a)) l l2 (b1 (state a)) (b2 (state a))) a)) = Some (Admit, a') ∧
      ARepr (state a') xs' ys' gs' hs' ∧
      state_tracked (state a') = <[k:=c]> (without (option_list lost) (state_tracked (state a))) ∧
      match lost with
      | Some v => is_Some (state_tracked (state a) !! v) ∧ v ≠ k ∧ capacity a ≤ costs xs + costs ys
      | None => k ∈ (xs ++ ys).*1 ∨ costs xs + costs ys < capacity a ∨ ys = []
      end).
  { intros Hk. destruct (promote_spec _ l _ _ _ _ k c HA Hl Hc Hlt Hk) as (l2&->&HA'&Ht). simpl.
    eexists None, _, _, _, _, _. split; [done|]. split; [exact HA'|]. simpl. rewrite without_nil. auto. }
  destruct ((list_to_map xs : gmap K Z) !! k) eqn:Ex.
  { apply Hpro. rewrite fmap_app, elem_of_app. left. apply keyed_list_lookup. by eexists. }
  rewrite (Repr_contains _ _ k Hy). case_bool_decide as Hky.
  { apply Hpro. rewrite fmap_app, elem_of_app. by right. }
  clear Hpro. assert (Hkx : k ∉ xs.*1) by (by apply not_elem_of_list_to_map_2).
  assert (Hk : k ∉ (xs ++ ys).*1) by (rewrite fmap_app; set_solver). rewrite remove_key_notin in Hl by done.
  set (s0 := mk_arc (p (state a)) l (t2 (state a)) (b1 (state a)) (b2 (state a))).
  assert (HA0 : ARepr s0 xs ys gs hs) by (by split).
  destruct (admit_new s0 xs ys gs hs (capacity a) k c HA0 Hc Hlt Hk)
    as (lost&b&s1&o&s2&l1&xs'&ys'&gs'&hs'&->&Hif&Hpush&HA'&Ht&Hlost).
  cbn [mbind option_bind]. rewrite Hif. cbn [mbind option_bind]. rewrite Hpush. cbn [mbind option_bind].
  assert (E0 : state_tracked s0 = state_tracked (state a))
    by (by rewrite (ARepr_tracked _ _ _ _ _ HA0), (ARepr_tracked _ _ _ _ _ HA)).
  rewrite E0 in *. eexists lost, _, xs', ys', gs', hs'. split; [done|]. split; [exact HA'|].
  split; [exact Ht|]. destruct lost; [done|]. by right.
Qed.

(** [ArcPolicy::evict] frees nothing, whatever it is asked for, in any state
    where [T2] is empty and [T1], which may hold keys, costs less than its
    target; the followed keys stay as they are. *)
Theorem arc_evict_stuck a xs gs hs n :
  ARepr (state a) xs [] gs hs → costs xs < p (state a) →
  ∃ a', evict n a = Some ([], 0, a') ∧ state_tracked (state a') = state_tracked (state a).
Proof.
  intros HA Hlt. pose proof HA as [Hx Hy _ _ _ _]. unfold evict. cbn [evict_loop].
  destruct (0 <? n); [|by eexists]. destruct (tail_in_b2 _ _ _ _ _ HA) as [b ->]. cbn [mbind option_bind].
  unfold replace. rewrite (Repr_cost _ _ Hx).
  destruct (Z.leb_spec (p (state a)) (costs xs)); [lia|]. destruct (Z.eqb_spec (costs xs) (p (state a))); [lia|].
  rewrite andb_false_r, andb_false_r, (Repr_pop_back_nil _ Hy). by eexists.
Qed.

Lemma ARepr_new : ARepr (state_new (A:=A) (K:=K)) [] [] [] [].
Proof. split; [apply Repr_new..|constructor|done]. Qed.
End Proofs.

Lemma arc_evict_safe_witness :
  ∃ l a', push_front LruList.new 1%nat 3 = Some l ∧
    evict 2 (mk_arc_policy (mk_arc 0 l LruList.new LruList.new LruList.new) 4
      : ArcPolicy nat counter_arena nat) = Some ([1%nat], 3, a').
Proof.
  destruct (push_t1_spec (state_new (A:=counter_arena)) [] [] [] [] 1%nat 3 ARepr_new)
    as (l&Hl&HA&_); [lia|done|apply not_elem_of_nil|].
  set (a := mk_arc_policy (mk_arc 0 l LruList.new LruList.new LruList.new) 4).
  destruct (arc_evict_safe a [(1%nat, 3)] [] [] [] 2 HA) as (vs&f&a'&_&_&_&_&Hev&_).
  assert (Ec : (l ← push_front LruList.new 1%nat 3;
    '(vs, f, _) ← evict 2 (mk_arc_policy (mk_arc 0 l LruList.new LruList.new LruList.new) 4
      : ArcPolicy nat counter_arena nat); Some (vs, f)) = Some ([1%nat], 3)) by (vm_compute; reflexivity).
  change (push_front (t1 (state_new (A:=counter_arena))) 1%nat 3) with (push_front (A:=counter_arena) LruList.new 1%nat 3) in Hl.
  rewrite Hl in Ec. cbn [mbind option_bind] in Ec. fold a in Ec. rewrite Hev in Ec. cbn [mbind option_bind] in Ec.
  injection Ec as -> ->. exists l, a'. split; [exact Hl|exact Hev].
Defined.

Lemma arc_admit_effect_witness :
  ∃ l a', (l0 ← push_front LruList.new 1%nat 1; push_front l0 2%nat 1) = Some l ∧
    on_admit 3%nat 1 (mk_arc_policy (mk_arc 0 l LruList.new LruList.new LruList.new) 2
      : ArcPolicy nat counter_arena nat) = Some (Admit, a') ∧
    state_tracked (state a') = {[2%nat := 1; 3%nat := 1]}.
Proof.
  destruct (push_t1_spec (state_new (A:=counter_arena)) [] [] [] [] 1%nat 1 ARepr_new)
    as (l0&Hl0&HA0&_); [lia|done|apply not_elem_of_nil|].
  destruct (push_t1_spec _ _ _ _ _ 2%nat 1 HA0) as (l&Hl&HA&_); [lia|done|simpl; set_solver|].
  cbn [t1 t2 b1 b2 p] in *.
  set (a := mk_arc_policy (mk_arc 0 l LruList.new LruList.new LruList.new) 2).
  destruct (arc_admit_effect a _ _ _ _ 3%nat 1 HA) as (lost&a'&_&_&_&_&Had&_); [lia|done|].
  assert (Ec : (l0 ← push_front LruList.new 1%nat 1; l ← push_front l0 2%nat 1;
    '(_, a') ← on_admit 3%nat 1 (mk_arc_policy (mk_arc 0 l LruList.new LruList.new LruList.new) 2
      : ArcPolicy nat counter_arena nat); Some (state_tracked (state a')))
    = Some {[2%nat := 1; 3%nat := 1]}) by (vm_compute; reflexivity).
  change (push_front (t1 (state_new (A:=counter_arena))) 1%nat 1) with (push_front (A:=counter_arena) LruList.new 1%nat 1) in Hl0.
  rewrite Hl0 in Ec. cbn [mbind option_bind] in Ec. rewrite Hl in Ec. cbn [mbind option_bind] in Ec.
  fold a in Ec. rewrite Had in Ec. cbn [mbind option_bind] in Ec. injection Ec as Ec.
  exists l, a'. split; [rewrite Hl0; exact Hl|]. split; [exact Had|exact Ec].
Defined.

(** A policy reached from an empty one by the calls a shard makes: key 1, evicted
    and re-admitted twice, has raised the target above its cost. *)
Definition arc_stuck_ops : list (PolicyOp nat) :=
  [OpAdmit 1%nat 1; OpEvict 1; OpAdmit 1%nat 1; OpEvict 1; OpAdmit 1%nat 1].

Lemma arc_evict_stuck_witness :
  ∃ l a', push_front LruList.new 1%nat 1 = Some l ∧
    (a ← policy_run arc_stuck_ops (new 4 : ArcPolicy nat counter_arena nat);
     Some (p (state a), keys_as_vec (t1 (state a)), keys_as_vec (t2 (state a)))) = Some (2, Some [1%nat], Some []) ∧
    evict u64_max (mk_arc_policy (mk_arc 2 l LruList.new LruList.new LruList.new) 4
      : ArcPolicy nat counter_arena nat) = Some ([], 0, a') ∧
    state_tracked (state a') !! 1%nat = Some 1.
Proof.
  destruct (push_t1_spec (state_new (A:=counter_arena)) [] [] [] [] 1%nat 1 ARepr_new)
    as (l&Hl&HA&Ht); [lia|done|apply not_elem_of_nil|].
  set (a := mk_arc_policy (mk_arc 2 l LruList.new LruList.new LruList.new) 4).
  assert (HA' : ARepr (state a) [(1%nat, 1)] [] [] []) by (destruct HA; split; assumption).
  destruct (arc_evict_stuck a [(1%nat, 1)] [] [] u64_max HA') as (a'&Hev&Htr); [vm_compute; reflexivity|].
  exists l, a'. split; [exact Hl|]. split; [vm_compute; reflexivity|]. split; [exact Hev|].
  rewrite Htr, (ARepr_tracked _ _ _ _ _ HA'). reflexivity.
Defined.
