(* ===== verification/Slab.v ===== *)
(** * [cache/src/hpolicy.rs]: [Slab], the node store of the shard policies

    Three doubly linked lists over one vector of links.  A node is named by
    [generation << 32 | slot]; releasing a slot bumps its generation, so an id
    kept after its node was released does not resolve. *)

From S2P Require Import Prelude Dll.

Definition NO_NODE : Z := u64_max.
Definition NIL : Z := u32_max.
Definition FREE : Z := 255.

Definition split (node : Z) : Z * Z := (Z.shiftr node 32, Z.land node u32_max).
Definition join (generation slot : Z) : Z := Z.lor (Z.shiftl generation 32) slot.

Record Link := mk_link { l_prev : Z; l_next : Z; l_seg : Z; l_generation : Z }.
Record SList := mk_slist { sl_head : Z; sl_tail : Z; sl_cost : Z }.

Definition EMPTY : SList := mk_slist NIL NIL 0.

Section Code.
Context {P : Type}.

Record Slab := mk_slab {
  links : list Link;
  payload : list (option P);
  node_costs : list Z;
  free : list Z;
  lists : list SList;
}.
Implicit Types s : Slab.

Definition new : Slab := mk_slab [] [] [] [] (replicate 3 EMPTY).

Definition alloc (p : P) (cost : Z) s : option (Z * Slab) :=
  match last (free s) with
  | Some i =>
      pl ← vset (payload s) i (Some p);
      cs ← vset (node_costs s) i cost;
      Some (i, mk_slab (links s) pl cs (removelast (free s)) (lists s))
  | None =>
      Some ((Z.of_nat (length (links s)) + 1 -w 1) mod U32,
        mk_slab (links s ++ [mk_link NIL NIL FREE 0]) (payload s ++ [Some p]) (node_costs s ++ [cost])
          (free s) (lists s))
  end.

Definition release (i : Z) s : option (P * Slab) :=
  l ← vget (links s) i;
  ls ← vset (links s) i (mk_link (l_prev l) (l_next l) FREE (u32_add (l_generation l) 1));
  o ← vget (payload s) i;
  pl ← vset (payload s) i None;
  p ← o;
  Some (p, mk_slab ls pl (node_costs s) (free s ++ [i]) (lists s)).

Definition resolve (node : Z) s : option Z :=
  let '(generation, slot) := split node in
  l ← vget (links s) slot;
  if negb (l_seg l =? FREE) && (l_generation l =? generation) then Some slot else None.

Definition id (i : Z) s : option Z :=
  l ← vget (links s) i; Some (join (l_generation l) i).

Definition push_front (seg i : Z) s : option Slab :=
  list ← vget (lists s) seg;
  let old := sl_head list in
  c ← vget (node_costs s) i;
  lists' ← vset (lists s) seg
    (mk_slist i (if sl_tail list =? NIL then i else sl_tail list) (sl_cost list +w c));
  l ← vget (links s) i;
  links1 ← vset (links s) i (mk_link NIL old seg (l_generation l));
  links2 ← (if old =? NIL then Some links1
            else o ← vget links1 old;
                 vset links1 old (mk_link i (l_next o) (l_seg o) (l_generation o)));
  Some (mk_slab links2 (payload s) (node_costs s) (free s) lists').

Definition set_list (seg : Z) (f : SList → SList) (lists : list SList) : option (list SList) :=
  l ← vget lists seg; vset lists seg (f l).

(** [if o != NIL { links[o] = f(links[o]) } else { lists[seg] = hf(lists[seg]) }]. *)
Definition relink (o seg : Z) (f : Link → Link) (hf : SList → SList) s : option Slab :=
  if negb (o =? NIL) then
    l ← vget (links s) o;
    ls ← vset (links s) o (f l);
    Some (mk_slab ls (payload s) (node_costs s) (free s) (lists s))
  else
    li ← set_list seg hf (lists s);
    Some (mk_slab (links s) (payload s) (node_costs s) (free s) li).

Definition unlink (i : Z) s : option Slab :=
  l ← vget (links s) i;
  let prev := l_prev l in
  let next := l_next l in
  let seg := l_seg l in
  s1 ← relink prev seg (λ o, mk_link (l_prev o) next (l_seg o) (l_generation o))
         (λ li, mk_slist next (sl_tail li) (sl_cost li)) s;
  s2 ← relink next seg (λ o, mk_link prev (l_next o) (l_seg o) (l_generation o))
         (λ li, mk_slist (sl_head li) prev (sl_cost li)) s1;
  c ← vget (node_costs s2) i;
  li ← set_list seg (λ li, mk_slist (sl_head li) (sl_tail li) (sl_cost li -w c)) (lists s2);
  Some (mk_slab (links s2) (payload s2) (node_costs s2) (free s2) li).

Definition move_front (seg i : Z) s : option Slab :=
  list ← vget (lists s) seg;
  l ← vget (links s) i;
  if negb (sl_head list =? i) || negb (l_seg l =? seg)
  then s1 ← unlink i s; push_front seg i s1
  else Some s.

Definition set_cost (i cost : Z) s : option Slab :=
  l ← vget (links s) i;
  old ← vget (node_costs s) i;
  cs ← vset (node_costs s) i cost;
  li ← set_list (l_seg l) (λ l, mk_slist (sl_head l) (sl_tail l) (sl_cost l -w old +w cost)) (lists s);
  Some (mk_slab (links s) (payload s) cs (free s) li).

Definition clear (_ : Slab) : Slab := mk_slab [] [] [] [] (replicate 3 EMPTY).
End Code.
Arguments Slab P : clear implicits.

(** ** The representation invariant *)

Definition onil (z : Z) : option Z := if z =? NIL then None else Some z.

(** The segments are the three lists; [FREE] marks a slot in none. *)
Definition is_seg (g : Z) : Prop := 0 ≤ g < 3.

Definition upd (L : Z → list Z) (g : Z) (l : list Z) : Z → list Z := λ h, if decide (h = g) then l else L h.

Section Inv.
Context {P : Type}.
Implicit Types (s : Slab P) (L : Z → list Z) (X : gset Z) (i j g : Z).

Definition lk s : Z → option (option Z * option Z) :=
  λ i, (λ l, (onil (l_prev l), onil (l_next l))) <$> vget (links s) i.

Definition seg_of s i : option Z := l_seg <$> vget (links s) i.
Definition gen_of s i : option Z := l_generation <$> vget (links s) i.

Definition cost_at s i : Z := default 0 (vget (node_costs s) i).

Definition lcost s (ids : list Z) : Z := foldr (λ i c, cost_at s i + c) 0 ids.

Definition live_sum s L : Z := lcost s (L 0) + lcost s (L 1) + lcost s (L 2).

(** [L g] are the slots of list [g], in order; [X] the slots in transit, taken from
    the free stack or unlinked and not yet linked or released. *)
Record slab_inv X s L : Prop := {
  si_len : length (payload s) = length (links s) ∧ length (node_costs s) = length (links s);
  si_max : Z.of_nat (length (links s)) ≤ NIL;
  si_lists : length (lists s) = 3%nat;
  si_list g : is_seg g → ∃ l, vget (lists s) g = Some l ∧
    dll (lk s) (onil (sl_head l)) (onil (sl_tail l)) (L g) ∧ sl_cost l = lcost s (L g);
  si_in g i : is_seg g → i ∈ L g ↔ seg_of s i = Some g ∧ i ∉ X;
  si_free_nodup : NoDup (free s);
  si_free i : i ∈ free s ↔ seg_of s i = Some FREE ∧ i ∉ X;
  si_seg i g : seg_of s i = Some g → i ∉ X → is_seg g ∨ g = FREE;
  si_live i : is_Some (seg_of s i) → i ∉ free s → ∃ p, vget (payload s) i = Some (Some p);
  si_gen i g : gen_of s i = Some g → is_u32 g;
  si_costs i c : vget (node_costs s) i = Some c → 0 ≤ c;
  si_X i : i ∈ X → is_Some (seg_of s i);
  si_sum : live_sum s L < U64;
}.

(** What naming a node relies on: its generation, payload and cost. *)
Definition same_nodes s s' : Prop :=
  payload s' = payload s ∧ node_costs s' = node_costs s ∧ free s' = free s ∧
  length (links s') = length (links s) ∧ ∀ i, gen_of s' i = gen_of s i.

Lemma same_nodes_refl s : same_nodes s s.
Proof. by repeat split. Qed.

Lemma same_nodes_trans s1 s2 s3 : same_nodes s1 s2 → same_nodes s2 s3 → same_nodes s1 s3.
Proof.
  intros (E1&E2&E3&E4&E5) (F1&F2&F3&F4&F5). unfold same_nodes.
  rewrite F1, F2, F3, F4, E1, E2, E3, E4. split_and!; try done. intros i. by rewrite F5, E5.
Qed.

Lemma same_nodes_cost s s' i : same_nodes s s' → cost_at s' i = cost_at s i.
Proof. intros (_&E&_). unfold cost_at. by rewrite E. Qed.

Lemma lcost_ext s s' ids : (∀ i, i ∈ ids → cost_at s' i = cost_at s i) → lcost s' ids = lcost s ids.
Proof.
  induction ids as [|i ids IH]; intros Hc; [done|]. simpl. rewrite Hc by (by left). rewrite IH; [done|].
  intros j Hj. apply Hc. by right.
Qed.

Lemma same_nodes_lcost s s' ids : same_nodes s s' → lcost s' ids = lcost s ids.
Proof. intros Hs. apply lcost_ext. intros i _. by apply same_nodes_cost. Qed.

Lemma lcost_app s ids js : lcost s (ids ++ js) = lcost s ids + lcost s js.
Proof. induction ids as [|i ids IH]; simpl; [done|]. rewrite IH. lia. Qed.

Lemma cost_at_nonneg X s L i : slab_inv X s L → 0 ≤ cost_at s i.
Proof.
  intros Hi. unfold cost_at. destruct (vget (node_costs s) i) as [c|] eqn:E; [|done]. simpl.
  by apply (si_costs _ _ _ Hi i).
Qed.

Lemma lcost_nonneg X s L ids : slab_inv X s L → 0 ≤ lcost s ids.
Proof.
  intros Hi. induction ids as [|i ids IH]; [done|]. simpl. pose proof (cost_at_nonneg _ _ _ i Hi). lia.
Qed.

Lemma seg_cases g : is_seg g → g = 0 ∨ g = 1 ∨ g = 2.
Proof. unfold is_seg. lia. Qed.

Lemma upd_eq L g l : upd L g l g = l.
Proof. unfold upd. by rewrite decide_True. Qed.

Lemma upd_ne L g l h : h ≠ g → upd L g l h = L h.
Proof. intros. unfold upd. by rewrite decide_False. Qed.

(** The sum over the lists changes as the updated list does. *)
Lemma live_sum_upd s L g l : is_seg g → live_sum s (upd L g l) = live_sum s L - lcost s (L g) + lcost s l.
Proof.
  intros [->|[->| ->]]%seg_cases; unfold live_sum;
    repeat (rewrite upd_eq || rewrite upd_ne by lia); lia.
Qed.

Lemma live_sum_same s s' L : same_nodes s s' → live_sum s' L = live_sum s L.
Proof. intros Hs. unfold live_sum. by rewrite !(same_nodes_lcost s s'). Qed.

Lemma lcost_le_sum X s L g : slab_inv X s L → is_seg g → lcost s (L g) ≤ live_sum s L.
Proof.
  intros Hi [->|[->| ->]]%seg_cases; unfold live_sum;
    pose proof (lcost_nonneg _ _ _ (L 0) Hi); pose proof (lcost_nonneg _ _ _ (L 1) Hi);
    pose proof (lcost_nonneg _ _ _ (L 2) Hi); lia.
Qed.

Lemma seg_vget s i g : seg_of s i = Some g → ∃ l, vget (links s) i = Some l ∧ l_seg l = g.
Proof. unfold seg_of. destruct (vget (links s) i); naive_solver. Qed.

Lemma slot_range X s L i : slab_inv X s L → is_Some (seg_of s i) → 0 ≤ i < NIL.
Proof.
  intros Hi [g (l&Hl&_)%seg_vget]. apply vget_Some in Hl. pose proof (si_max _ _ _ Hi). lia.
Qed.

Lemma onil_slot i : 0 ≤ i < NIL → onil i = Some i.
Proof. intros. unfold onil. destruct (Z.eqb_spec i NIL); [lia|done]. Qed.

Lemma onil_Some z i : onil z = Some i ↔ z = i ∧ z ≠ NIL.
Proof. unfold onil. destruct (Z.eqb_spec z NIL); naive_solver. Qed.

Lemma onil_None z : onil z = None ↔ z = NIL.
Proof. unfold onil. destruct (Z.eqb_spec z NIL); naive_solver. Qed.

Lemma cost_vget X s L i : slab_inv X s L → is_Some (seg_of s i) → vget (node_costs s) i = Some (cost_at s i).
Proof.
  intros Hi [g (l&Hl&_)%seg_vget]. apply vget_Some in Hl. destruct (si_len _ _ _ Hi) as [_ E].
  unfold cost_at. destruct (vget_lt (node_costs s) i) as [c Hc]; [lia|]. by rewrite Hc.
Qed.

Lemma list_vget X s L g : slab_inv X s L → is_seg g → is_Some (vget (lists s) g).
Proof. intros Hi Hg. destruct (si_list _ _ _ Hi g Hg) as (l&->&_). eauto. Qed.

Lemma set_list_spec X s L g f :
  slab_inv X s L → is_seg g →
  ∃ l li, vget (lists s) g = Some l ∧ set_list g f (lists s) = Some li ∧ length li = 3%nat ∧
    ∀ h, vget li h = if decide (h = g) then Some (f l) else vget (lists s) h.
Proof.
  intros Hi Hg. destruct (list_vget _ _ _ _ Hi Hg) as [l Hl]. unfold set_list. rewrite Hl. simpl.
  destruct (vset_spec _ _ (f l) _ Hl) as (li&->&Hlen&Hget). exists l, li.
  rewrite (si_lists _ _ _ Hi) in Hlen. done.
Qed.
End Inv.

(** ** Every operation keeps the invariant *)

Section Ops.
Context {P : Type}.
Implicit Types (s : Slab P) (L : Z → list Z) (X : gset Z) (i j g h : Z).

Lemma gen_seg s s' i : gen_of s' i = gen_of s i → is_Some (seg_of s' i) ↔ is_Some (seg_of s i).
Proof. unfold gen_of, seg_of. destruct (vget (links s) i), (vget (links s') i); naive_solver. Qed.

(** A step that changes only links and list heads. *)
Lemma slab_inv_relink X X' s s' L L' :
  slab_inv X s L → same_nodes s s' → length (lists s') = 3%nat →
  (∀ g, is_seg g → ∃ l, vget (lists s') g = Some l ∧
    dll (lk s') (onil (sl_head l)) (onil (sl_tail l)) (L' g) ∧ sl_cost l = lcost s (L' g)) →
  (∀ g i, is_seg g → i ∈ L' g ↔ seg_of s' i = Some g ∧ i ∉ X') →
  (∀ i, i ∈ free s ↔ seg_of s' i = Some FREE ∧ i ∉ X') →
  (∀ i g, seg_of s' i = Some g → i ∉ X' → is_seg g ∨ g = FREE) →
  (∀ i, i ∈ X' → is_Some (seg_of s i)) → live_sum s L' < U64 →
  slab_inv X' s' L'.
Proof.
  intros Hi Hsn Hli Hlist Hin Hfree Hseg HX Hsum. pose proof Hsn as (Ep&Ec&Ef&El&Eg). split.
  - rewrite Ep, Ec, El. apply Hi.
  - rewrite El. apply Hi.
  - done.
  - intros g Hg. destruct (Hlist g Hg) as (l&?&?&?). exists l. by rewrite (same_nodes_lcost s s').
  - done.
  - rewrite Ef. apply Hi.
  - intros i. by rewrite Ef.
  - done.
  - intros i Hs Hf. rewrite Ep. rewrite Ef in Hf. apply (si_live _ _ _ Hi); [|done].
    by rewrite <- (gen_seg s s').
  - intros i g. rewrite Eg. apply Hi.
  - intros i c. rewrite Ec. apply Hi.
  - intros i HiX. rewrite (gen_seg s s') by done. by apply HX.
  - by rewrite (live_sum_same s s').
Qed.

Lemma L_disjoint X s L g h i : slab_inv X s L → is_seg g → is_seg h → i ∈ L g → i ∈ L h → g = h.
Proof.
  intros Hi Hg Hh [E1 _]%(si_in _ _ _ Hi _ _ Hg) [E2 _]%(si_in _ _ _ Hi _ _ Hh). congruence.
Qed.

Lemma seg_not_free g : is_seg g → g ≠ FREE.
Proof. unfold is_seg, FREE. lia. Qed.

(** Membership after slot [i] joins list [g]. *)
Lemma joined_members X s s' L g i :
  slab_inv X s L → is_seg g → i ∈ X →
  (∀ j, seg_of s' j = if decide (j = i) then Some g else seg_of s j) →
  (∀ h j, is_seg h → j ∈ upd L g (i :: L g) h ↔ seg_of s' j = Some h ∧ j ∉ X ∖ {[i]}) ∧
  (∀ j, j ∈ free s ↔ seg_of s' j = Some FREE ∧ j ∉ X ∖ {[i]}) ∧
  (∀ j h, seg_of s' j = Some h → j ∉ X ∖ {[i]} → is_seg h ∨ h = FREE).
Proof.
  intros Hi Hg HiX Hs. pose proof (seg_not_free g Hg). split_and!.
  - intros h j Hh. rewrite Hs. unfold upd. case_decide as Eh.
    + subst h. rewrite elem_of_cons, (si_in _ _ _ Hi g j Hg), not_elem_of_difference, elem_of_singleton.
      case_decide; naive_solver.
    + rewrite (si_in _ _ _ Hi h j Hh), not_elem_of_difference, elem_of_singleton. case_decide; naive_solver.
  - intros j. rewrite Hs, (si_free _ _ _ Hi j), not_elem_of_difference, elem_of_singleton.
    case_decide; naive_solver.
  - intros j h. rewrite Hs. case_decide; [intros; left; congruence|]. intros Ej HjX.
    apply (si_seg _ _ _ Hi j h Ej). set_solver.
Qed.

Lemma push_front_slab X s L g i :
  slab_inv X s L → is_seg g → i ∈ X → live_sum s L + cost_at s i < U64 →
  ∃ s', push_front g i s = Some s' ∧ slab_inv (X ∖ {[i]}) s' (upd L g (i :: L g)) ∧ same_nodes s s' ∧
    ∀ j, seg_of s' j = if decide (j = i) then Some g else seg_of s j.
Proof.
  intros Hi Hg HiX Hlt. destruct (si_X _ _ _ Hi i HiX) as [g0 Hg0].
  pose proof (slot_range _ _ _ i Hi ltac:(by eexists)) as Hr.
  assert (HnL : ∀ h, is_seg h → i ∉ L h) by (intros h Hh; rewrite (si_in _ _ _ Hi h i Hh); tauto).
  destruct (si_list _ _ _ Hi g Hg) as (l&Hl&Hd&Hc). unfold push_front. rewrite Hl. simpl.
  rewrite (cost_vget _ _ _ i Hi) by (by eexists). simpl.
  destruct (vset_spec _ _ (mk_slist i (if sl_tail l =? NIL then i else sl_tail l) (sl_cost l +w cost_at s i)) _ Hl)
    as (li&->&Hlil&Hli). simpl.
  destruct (seg_vget _ _ _ Hg0) as (k&Hk&_). rewrite Hk. simpl.
  destruct (vset_spec _ _ (mk_link NIL (sl_head l) g (l_generation k)) _ Hk) as (ls1&->&Hlen1&Hls1). simpl.
  set (old := sl_head l) in *.
  assert (Hold : old ≠ NIL → old ∈ L g).
  { intros Hne. destruct (dll_hd_cons _ _ _ _ old Hd) as [ids ->]; [by apply onil_Some|by left]. }
  assert (∃ ls2, (if old =? NIL then Some ls1 else o ← vget ls1 old;
      vset ls1 old (mk_link i (l_next o) (l_seg o) (l_generation o))) = Some ls2 ∧
    length ls2 = length (links s) ∧
    ∀ j, vget ls2 j = if decide (j = i) then Some (mk_link NIL old g (l_generation k))
      else if decide (j = old ∧ old ≠ NIL)
           then (λ o, mk_link i (l_next o) (l_seg o) (l_generation o)) <$> vget (links s) j
           else vget (links s) j) as (ls2&->&Hlen2&Hls2).
  { destruct (Z.eqb_spec old NIL) as [Eo|Eo].
    - exists ls1. split_and!; [done|done|]. intros j. rewrite Hls1. repeat case_decide; naive_solver.
    - assert (Hoi : old ≠ i) by (intros ->; by apply (HnL g Hg), Hold).
      pose proof (Hold Eo) as [(o&Ho&_)%seg_vget _]%(si_in _ _ _ Hi g _ Hg).
      assert (Ho1 : vget ls1 old = Some o) by (by rewrite Hls1, decide_False).
      rewrite Ho1. simpl. destruct (vset_spec _ _ (mk_link i (l_next o) (l_seg o) (l_generation o)) _ Ho1) as (ls2&->&Hlen2&Hls2).
      exists ls2. split_and!; [done|lia|]. intros j. rewrite Hls2, Hls1.
      destruct (decide (j = old)) as [->|Hjo]; [by rewrite decide_False, decide_True, Ho by done|].
      destruct (decide (j = i)); [done|]. by rewrite decide_False by tauto. }
  simpl. set (s' := mk_slab ls2 _ _ _ li).
  assert (Hsn : same_nodes s s').
  { split_and!; try done. intros j. unfold gen_of. simpl. rewrite Hls2. destruct (decide (j = i)) as [->|]; [by rewrite Hk|].
    destruct (decide (j = old ∧ old ≠ NIL)); [|done]. by destruct (vget (links s) j). }
  assert (Hsg : ∀ j, seg_of s' j = if decide (j = i) then Some g else seg_of s j).
  { intros j. unfold seg_of. simpl. rewrite Hls2. destruct (decide (j = i)) as [->|]; [done|].
    destruct (decide (j = old ∧ old ≠ NIL)); [|done]. by destruct (vget (links s) j). }
  assert (Hlk : ∀ j, j ≠ i → lk s' j = if decide (j = old ∧ old ≠ NIL)
    then (λ pn, (Some i, pn.2)) <$> lk s j else lk s j).
  { intros j Hj. unfold lk. simpl. rewrite Hls2, decide_False by done.
    destruct (decide (j = old ∧ old ≠ NIL)); [|done]. destruct (vget (links s) j); simpl; [|done]. by rewrite (onil_slot i) by lia. }
  exists s'. split; [done|]. split; [|done].
  destruct (joined_members X s s' L g i Hi Hg HiX Hsg) as (?&?&?).
  pose proof (lcost_le_sum _ _ _ g Hi Hg). pose proof (lcost_nonneg _ _ _ (L g) Hi).
  pose proof (cost_at_nonneg _ _ _ i Hi).
  apply (slab_inv_relink X _ s s' L); [done|done|simpl; rewrite Hlil; apply Hi| |done|done|done| |].
  - intros h Hh. simpl. rewrite Hli. destruct (decide (h = g)) as [->|Hne].
    + eexists. split; [done|]. rewrite upd_eq. simpl. rewrite (onil_slot i) by lia. split.
      * replace (onil (if sl_tail l =? NIL then i else sl_tail l))
          with (match onil (sl_tail l) with Some t => Some t | None => Some i end)
          by (unfold onil; destruct (Z.eqb_spec (sl_tail l) NIL);
              [destruct (Z.eqb_spec i NIL); [lia|done]|destruct (Z.eqb_spec (sl_tail l) NIL); done]).
        eapply dll_push_front; [exact Hd|by apply HnL| |].
        -- unfold lk. simpl. rewrite Hls2, decide_True by done. done.
        -- intros j Hj. assert (j ≠ i) by (intros ->; by apply (HnL g)).
           rewrite Hlk by done. unfold relink_prev. fold old.
           destruct (decide (old = NIL)) as [Eo|Eo].
           ++ rewrite (proj2 (onil_None old) Eo), decide_False by (by intros [_ ?]). by rewrite decide_False by done.
           ++ rewrite (proj2 (onil_Some old old) (conj eq_refl Eo)). destruct (decide (j = old)) as [->|Hjo]; [by rewrite !decide_True by done|].
              rewrite decide_False by (by intros [? _]). by rewrite decide_False by congruence.
      * rewrite Hc, u64_add_small by lia. lia.
    + destruct (si_list _ _ _ Hi h Hh) as (lh&Hlh&Hdh&Hch). exists lh. split; [done|].
      rewrite upd_ne by done. split; [|done]. eapply dll_ext; [|exact Hdh].
      intros j Hj. rewrite Hlk by (intros ->; by apply (HnL h)).
      rewrite decide_False; [done|]. intros [-> Ho%Hold]. by apply Hne, (L_disjoint _ _ _ h g old Hi).
  - intros j Hj. apply (si_X _ _ _ Hi). set_solver.
  - rewrite live_sum_upd by done. simpl. lia.
Qed.
(** One half of [unlink]: the neighbour's link, or the list's end. *)
Lemma relink_spec o seg f hf s l :
  (o ≠ NIL → is_Some (vget (links s) o)) → vget (lists s) seg = Some l →
  ∃ s1, relink o seg f hf s = Some s1 ∧
    payload s1 = payload s ∧ node_costs s1 = node_costs s ∧ free s1 = free s ∧
    length (links s1) = length (links s) ∧ length (lists s1) = length (lists s) ∧
    (∀ j, vget (links s1) j = if decide (Some j = onil o) then f <$> vget (links s) j else vget (links s) j) ∧
    (∀ h, vget (lists s1) h = if decide (h = seg ∧ o = NIL) then Some (hf l) else vget (lists s) h).
Proof.
  intros Ho Hl. unfold relink. destruct (Z.eqb_spec o NIL) as [->|Hne]; simpl.
  - unfold set_list. rewrite Hl. simpl. destruct (vset_spec _ _ (hf l) _ Hl) as (li&->&Hlen&Hli). simpl.
    eexists. split; [done|]. split_and!; try done; simpl.
    intros h. rewrite Hli. destruct (decide (h = seg)); [by rewrite decide_True by done|].
    by rewrite decide_False by tauto.
  - destruct (Ho Hne) as [k Hk]. rewrite Hk. simpl. destruct (vset_spec _ _ (f k) _ Hk) as (ls&->&Hlen&Hls).
    simpl. eexists. split; [done|]. split_and!; try done; simpl.
    + intros j. rewrite Hls, (proj2 (onil_Some o o) (conj eq_refl Hne)).
      destruct (decide (j = o)) as [->|]; [by rewrite decide_True, Hk by done|by rewrite decide_False by congruence].
    + intros h. by rewrite decide_False by tauto.
Qed.

(** Membership after slot [i] leaves list [g] for [X]. *)
Lemma left_members X s s' L g i l1 l2 :
  slab_inv X s L → is_seg g → L g = l1 ++ i :: l2 → (∀ j, seg_of s' j = seg_of s j) →
  (∀ h j, is_seg h → j ∈ upd L g (l1 ++ l2) h ↔ seg_of s' j = Some h ∧ j ∉ {[i]} ∪ X) ∧
  (∀ j, j ∈ free s ↔ seg_of s' j = Some FREE ∧ j ∉ {[i]} ∪ X) ∧
  (∀ j h, seg_of s' j = Some h → j ∉ {[i]} ∪ X → is_seg h ∨ h = FREE).
Proof.
  intros Hi Hg HL Hs. pose proof (seg_not_free g Hg).
  assert (Hin : i ∈ L g) by (rewrite HL; set_solver). pose proof Hin as [Ei _]%(si_in _ _ _ Hi g i Hg).
  destruct (si_list _ _ _ Hi g Hg) as (l&_&(Hnd&_)&_). rewrite HL in Hnd.
  assert (Hni : i ∉ l1 ++ l2).
  { apply NoDup_app in Hnd as (_&Hd&[? _]%NoDup_cons). rewrite elem_of_app. intros [Hi1|?]; [|done].
    apply (Hd i Hi1). by left. }
  split_and!.
  - intros h j Hh. rewrite Hs, not_elem_of_union, not_elem_of_singleton. unfold upd. case_decide as Eh.
    + subst h. pose proof (si_in _ _ _ Hi g j Hg) as Hj. rewrite HL, elem_of_app, elem_of_cons in Hj.
      rewrite elem_of_app. split; [|naive_solver]. intros Hj2. assert (j ≠ i) by (intros ->; apply Hni; by apply elem_of_app).
      naive_solver.
    + rewrite (si_in _ _ _ Hi h j Hh). split; [|tauto]. intros [Ej ?]. split; [done|]. split; [congruence|done].
  - intros j. rewrite Hs, (si_free _ _ _ Hi j), not_elem_of_union, not_elem_of_singleton.
    split; [|tauto]. intros [Ej ?]. split; [done|]. split; [congruence|done].
  - intros j h. rewrite Hs, not_elem_of_union. intros Ej [_ ?]. by apply (si_seg _ _ _ Hi j h).
Qed.

Lemma unlink_slab X s L g i l1 l2 :
  slab_inv X s L → is_seg g → L g = l1 ++ i :: l2 →
  ∃ s', unlink i s = Some s' ∧ slab_inv ({[i]} ∪ X) s' (upd L g (l1 ++ l2)) ∧ same_nodes s s' ∧
    ∀ j, seg_of s' j = seg_of s j.
Proof.
  intros Hi Hg HL. assert (Hin : i ∈ L g) by (rewrite HL; set_solver).
  pose proof Hin as [Ei _]%(si_in _ _ _ Hi g i Hg). destruct (seg_vget _ _ _ Ei) as (k&Hk&Hkg).
  destruct (si_list _ _ _ Hi g Hg) as (l&Hl&Hd&Hc). rewrite HL in Hd, Hc.
  pose proof (dll_node _ _ _ _ _ _ Hd) as Hnode. unfold lk in Hnode. rewrite Hk in Hnode. simpl in Hnode.
  injection Hnode as Hp Hq. unfold unlink. rewrite Hk. simpl. rewrite Hkg.
  assert (Hlive : ∀ o j, onil o = Some j → j ∈ L g → o ≠ NIL → is_Some (vget (links s) o)).
  { intros o j [-> _]%onil_Some [(e&He&_)%seg_vget _]%(si_in _ _ _ Hi g j Hg) _. by eexists. }
  destruct (relink_spec (l_prev k) g (λ o, mk_link (l_prev o) (l_next k) (l_seg o) (l_generation o))
    (λ li, mk_slist (l_next k) (sl_tail li) (sl_cost li)) s l) as (s1&->&Ep1&Ec1&Ef1&Elen1&Elil1&Hls1&Hli1); [|done|].
  { intros Hne. destruct (last l1) as [j|] eqn:El; [|by apply onil_None in Hp].
    apply (Hlive _ j Hp); [|done]. rewrite HL. apply last_Some_elem_of in El. set_solver. }
  cbn [mbind option_bind].
  assert (Hl1 : vget (lists s1) g = Some (mk_slist (if decide (l_prev k = NIL) then l_next k else sl_head l) (sl_tail l) (sl_cost l))).
  { rewrite Hli1. destruct (decide (l_prev k = NIL)); [by rewrite decide_True by done|].
    rewrite decide_False by tauto. by destruct l. }
  edestruct (relink_spec (l_next k) g (λ o, mk_link (l_prev k) (l_next o) (l_seg o) (l_generation o))
    (λ li, mk_slist (sl_head li) (l_prev k) (sl_cost li)) s1) as (s2&->&Ep2&Ec2&Ef2&Elen2&Elil2&Hls2&Hli2); [|exact Hl1|].
  { intros Hne. destruct (head l2) as [j|] eqn:El; [|by apply onil_None in Hq].
    destruct (Hlive _ j Hq) as [e He]; [|done|].
    { rewrite HL. destruct l2; simplify_eq/=. set_solver. }
    rewrite Hls1, He. destruct (decide (Some (l_next k) = onil (l_prev k))); by eexists. }
  cbn [mbind option_bind]. rewrite Ec2, Ec1, (cost_vget _ _ _ i Hi) by (by eexists). cbn [mbind option_bind].
  unfold set_list.
  assert (Hl2 : vget (lists s2) g = Some (mk_slist (if decide (l_prev k = NIL) then l_next k else sl_head l)
    (if decide (l_next k = NIL) then l_prev k else sl_tail l) (sl_cost l))).
  { rewrite Hli2. destruct (decide (l_next k = NIL)); [by rewrite decide_True by done|].
    by rewrite decide_False by tauto. }
  rewrite Hl2. cbn [mbind option_bind]. set (lnew := mk_slist _ _ (_ -w _)).
  destruct (vset_spec _ _ lnew _ Hl2) as (li&->&Hlil&Hli). cbn [mbind option_bind].
  set (s' := mk_slab (links s2) (payload s2) (node_costs s2) (free s2) li).
  assert (Hsg : ∀ j, seg_of s' j = seg_of s j).
  { intros j. unfold seg_of. simpl. rewrite Hls2, Hls1.
    destruct (decide (Some j = onil (l_next k))), (decide (Some j = onil (l_prev k))); by destruct (vget (links s) j). }
  assert (Hsn : same_nodes s s').
  { split_and!; [simpl; congruence..|]. intros j. unfold gen_of. simpl. rewrite Hls2, Hls1.
    destruct (decide (Some j = onil (l_next k))), (decide (Some j = onil (l_prev k))); by destruct (vget (links s) j). }
  assert (Hlk : ∀ j, lk s' j = relink_prev (head l2) (last l1) (relink_next (last l1) (head l2) (lk s)) j).
  { intros j. unfold lk, relink_prev, relink_next. simpl. rewrite <- Hp, <- Hq, Hls2, Hls1.
    destruct (decide (Some j = onil (l_next k))), (decide (Some j = onil (l_prev k))); by destruct (vget (links s) j). }
  exists s'. split; [unfold s'; congruence|]. split; [|done].
  destruct (left_members X s s' L g i l1 l2 Hi Hg HL Hsg) as (?&?&?).
  pose proof (lcost_le_sum _ _ _ g Hi Hg) as Hle. pose proof (cost_at_nonneg _ _ _ i Hi). pose proof (si_sum _ _ _ Hi).
  pose proof (lcost_nonneg _ _ _ l1 Hi). pose proof (lcost_nonneg _ _ _ l2 Hi).
  rewrite HL in Hle. rewrite lcost_app in Hc, Hle. simpl in Hc, Hle.
  apply (slab_inv_relink X _ s s' L); [done|done|simpl; rewrite Hlil, Elil2, Elil1; apply Hi| |done|done|done| |].
  - intros h Hh. simpl. rewrite Hli. destruct (decide (h = g)) as [->|Hne].
    + exists lnew. split; [done|]. rewrite upd_eq. split.
      * replace (onil (sl_head lnew)) with (unlink_head (onil (sl_head l)) (last l1) (head l2)).
        2:{ rewrite <- Hp, <- Hq. simpl. unfold onil at 2.
            destruct (Z.eqb_spec (l_prev k) NIL); [by rewrite decide_True|by rewrite decide_False]. }
        replace (onil (sl_tail lnew)) with (unlink_tail (onil (sl_tail l)) (last l1) (head l2)).
        2:{ rewrite <- Hp, <- Hq. simpl. unfold onil at 3.
            destruct (Z.eqb_spec (l_next k) NIL); [by rewrite decide_True|by rewrite decide_False]. }
        eapply dll_unlink; [exact Hd|]. intros j _. apply Hlk.
      * simpl. rewrite lcost_app, Hc, u64_sub_small by lia. lia.
    + destruct (si_list _ _ _ Hi h Hh) as (lh&Hlh&Hdh&Hch). exists lh.
      split; [rewrite Hli2, decide_False, Hli1, decide_False by tauto; done|]. rewrite upd_ne by done.
      split; [|done]. eapply dll_ext; [|exact Hdh]. intros j Hj. rewrite Hlk.
      assert (j ∉ L g) as Hjg by (intros Hjg; by apply Hne, (L_disjoint _ _ _ h g j Hi)).
      rewrite HL in Hjg. rewrite relink_prev_ne, relink_next_ne; [done| |].
      * intros Ej%eq_sym%last_Some_elem_of. set_solver.
      * intros Ej. destruct l2; simplify_eq/=. set_solver.
  - intros j [->%elem_of_singleton|Hj]%elem_of_union; [by eexists|by apply (si_X _ _ _ Hi)].
  - rewrite live_sum_upd, HL by done. rewrite !lcost_app. simpl. lia.
Qed.
(** What a step does to the nodes other than [i]. *)
Definition others_kept i s s' : Prop :=
  ∀ j, j ≠ i → gen_of s' j = gen_of s j ∧ vget (payload s') j = vget (payload s) j ∧
    vget (node_costs s') j = vget (node_costs s) j ∧ seg_of s' j = seg_of s j.

Lemma others_kept_lcost i s s' ids : others_kept i s s' → i ∉ ids → lcost s' ids = lcost s ids.
Proof.
  intros Ho Hi. apply lcost_ext. intros j Hj. unfold cost_at.
  destruct (Ho j) as (_&_&->&_); [|done]. by intros ->.
Qed.

(** [i] was taken for a node of payload [p] and cost [c], and is in transit. *)
Definition allocated s L (p : P) c i s' : Prop :=
  slab_inv {[i]} s' L ∧ (∀ g, is_seg g → i ∉ L g) ∧
  vget (payload s') i = Some (Some p) ∧ cost_at s' i = c ∧ others_kept i s s' ∧
  gen_of s' i = Some (default 0 (gen_of s i)) ∧
  Z.of_nat (length (links s')) = Z.max (Z.of_nat (length (links s))) (i + 1) ∧ lists s' = lists s.

Lemma alloc_reuse s L (p : P) c i :
  slab_inv ∅ s L → 0 ≤ c → last (free s) = Some i →
  ∃ s', alloc p c s = Some (i, s') ∧ allocated s L p c i s'.
Proof.
  intros Hi Hc El. pose proof (si_max _ _ _ Hi) as Hmax. destruct (si_len _ _ _ Hi) as [Elp Elc]. unfold alloc. rewrite El.
  apply last_Some in El as [fr Efr].
  assert (Hif : i ∈ free s) by (rewrite Efr; set_solver). pose proof Hif as [Ei _]%(si_free _ _ _ Hi).
  destruct (seg_vget _ _ _ Ei) as (k&Hk&Hkf). pose proof (vget_Some _ _ _ Hk) as Hr.
  destruct (vget_lt (payload s) i) as [o Ho]; [lia|]. destruct (vget_lt (node_costs s) i) as [c0 Hc0]; [lia|].
  destruct (vset_spec _ _ (Some p) _ Ho) as (pl&->&Hpl&Hplg). destruct (vset_spec _ _ c _ Hc0) as (cs&->&Hcs&Hcsg).
  simpl. rewrite Efr, removelast_last. set (s' := mk_slab _ _ _ _ _).
  assert (HnL : ∀ g, is_seg g → i ∉ L g).
  { intros g Hg. rewrite (si_in _ _ _ Hi g i Hg). pose proof (seg_not_free g Hg). naive_solver. }
  assert (Hok : others_kept i s s').
  { intros j Hj. split_and!; [done| | |done]; simpl; [by rewrite Hplg, decide_False|by rewrite Hcsg, decide_False]. }
  assert (Hlc : ∀ g, is_seg g → lcost s' (L g) = lcost s (L g))
    by (intros; apply (others_kept_lcost i); [done|by apply HnL]).
  pose proof (si_free_nodup _ _ _ Hi) as Hnd. rewrite Efr in Hnd. apply NoDup_app in Hnd as (Hnd&Hdis&_).
  exists s'. split; [done|]. split; [|split_and!; [done|simpl; by rewrite Hplg, decide_True by done
    |unfold cost_at; simpl; by rewrite Hcsg, decide_True by done|done| |simpl; lia|done]].
  2:{ unfold gen_of. simpl. by rewrite Hk. }
  split; [simpl; lia|simpl; lia|apply Hi| | |done| | | |apply Hi| | |].
  - intros g Hg. rewrite Hlc by done. by apply (si_list _ _ _ Hi).
  - intros g j Hg. rewrite (si_in _ _ _ Hi g j Hg), not_elem_of_singleton.
    change (seg_of s' j) with (seg_of s j). pose proof (seg_not_free g Hg). split; [|set_solver].
    intros [Ej _]. split; [done|congruence].
  - intros j. change (seg_of s' j) with (seg_of s j). simpl. pose proof (si_free _ _ _ Hi j) as Hj.
    rewrite Efr, elem_of_app, list_elem_of_singleton in Hj. rewrite not_elem_of_singleton.
    split; [|set_solver]. intros Hjf. assert (j ≠ i) by (intros ->; apply (Hdis i Hjf); by left). set_solver.
  - intros j g Ej _. apply (si_seg _ _ _ Hi j g Ej). set_solver.
  - intros j Ej Hjf. simpl in *. rewrite Hplg. case_decide; [by eexists|]. apply (si_live _ _ _ Hi); [done|].
    rewrite Efr. set_solver.
  - intros j d. simpl. rewrite Hcsg. case_decide; [naive_solver|]. apply Hi.
  - intros j ->%elem_of_singleton. by eexists.
  - unfold live_sum. rewrite !Hlc by (unfold is_seg; lia). apply Hi.
Qed.

Lemma alloc_grow s L (p : P) c :
  slab_inv ∅ s L → 0 ≤ c → Z.of_nat (length (links s)) < NIL → last (free s) = None →
  ∃ i s', alloc p c s = Some (i, s') ∧ allocated s L p c i s'.
Proof.
  intros Hi Hc Hmax El. destruct (si_len _ _ _ Hi) as [Elp Elc]. unfold alloc. rewrite El.
  apply last_None in El. set (n := Z.of_nat (length (links s))).
  assert (En : (n + 1 -w 1) mod U32 = n).
  { unfold NIL, u32_max in Hmax. fold n in Hmax. assert (0 ≤ n) by (unfold n; lia).
    rewrite u64_sub_small by (unfold U64, U32 in *; lia).
    rewrite Z.mod_small; [lia|]. lia. }
  rewrite En. set (s' := mk_slab _ _ _ _ _).
  assert (Hnone : vget (links s) n = None).
  { unfold vget. destruct (Z.leb_spec 0 n); [|done]. apply lookup_ge_None_2. unfold n. lia. }
  assert (Hsg : ∀ j, seg_of s' j = if decide (j = n) then Some FREE else seg_of s j).
  { intros j. unfold seg_of. simpl. rewrite vget_snoc. fold n. by case_decide. }
  assert (HnL : ∀ g, is_seg g → n ∉ L g).
  { intros g Hg [Ej _]%(si_in _ _ _ Hi g n Hg). unfold seg_of in Ej. by rewrite Hnone in Ej. }
  assert (Hok : others_kept n s s').
  { intros j Hj. rewrite Hsg, decide_False by done. unfold gen_of. simpl. rewrite !vget_snoc, Elp, Elc.
    fold n. by rewrite !decide_False. }
  assert (Hlc : ∀ g, is_seg g → lcost s' (L g) = lcost s (L g))
    by (intros; apply (others_kept_lcost n); [done|by apply HnL]).
  exists n, s'. split; [done|]. split; [|split_and!; [done|simpl; rewrite vget_snoc, Elp; by rewrite decide_True
    |unfold cost_at; simpl; rewrite vget_snoc, Elc; by rewrite decide_True|done| |simpl; rewrite length_app; simpl; unfold n; lia|done]].
  2:{ unfold gen_of. simpl. rewrite vget_snoc, decide_True by done. by rewrite Hnone. }
  assert (Hlk : ∀ j, j ≠ n → lk s' j = lk s j)
    by (intros j Hj; unfold lk; simpl; by rewrite vget_snoc, decide_False).
  split; [simpl; rewrite !length_app; simpl; lia|simpl; rewrite length_app; simpl; lia|apply Hi| | |apply Hi| | | | | | |].
  - intros g Hg. rewrite Hlc by done. destruct (si_list _ _ _ Hi g Hg) as (l&Hl&Hd&Hcl). exists l.
    split; [done|]. split; [|done]. eapply dll_ext; [|exact Hd]. intros j Hj. apply Hlk. intros ->. by apply (HnL g).
  - intros g j Hg. rewrite (si_in _ _ _ Hi g j Hg), Hsg, not_elem_of_singleton.
    case_decide as E; [subst; split; [|naive_solver]|set_solver].
    intros [Ej _]. unfold seg_of in Ej. by rewrite Hnone in Ej.
  - intros j. rewrite Hsg, not_elem_of_singleton. simpl. rewrite (si_free _ _ _ Hi j).
    case_decide as E; [subst; split; [|naive_solver]|set_solver].
    intros [Ej _]. unfold seg_of in Ej. by rewrite Hnone in Ej.
  - intros j g. rewrite Hsg. case_decide; [set_solver|]. intros Ej _. apply (si_seg _ _ _ Hi j g Ej). set_solver.
  - intros j. rewrite Hsg. simpl. rewrite vget_snoc, Elp. fold n. case_decide; [by eexists|]. apply Hi.
  - intros j g. unfold gen_of. simpl. rewrite vget_snoc. fold n. case_decide; [|apply Hi].
    simpl. intros [= <-]. unfold is_u32, U32. lia.
  - intros j d. simpl. rewrite vget_snoc, Elc. fold n. case_decide; [naive_solver|]. apply Hi.
  - intros j ->%elem_of_singleton. rewrite Hsg, decide_True by done. by eexists.
  - unfold live_sum. rewrite !Hlc by (unfold is_seg; lia). apply Hi.
Qed.

Lemma alloc_slab s L (p : P) c :
  slab_inv ∅ s L → 0 ≤ c → (free s = [] → Z.of_nat (length (links s)) < NIL) →
  ∃ i s', alloc p c s = Some (i, s') ∧ allocated s L p c i s'.
Proof.
  intros Hi Hc Hmax. destruct (last (free s)) as [i|] eqn:El.
  - destruct (alloc_reuse s L p c i) as (s'&?&?); [done..|]. by exists i, s'.
  - apply alloc_grow; [done..| |done]. by apply Hmax, last_None.
Qed.
(** A slot in transit goes to the free stack under a new generation. *)
Lemma release_slab X s L i :
  slab_inv X s L → i ∈ X →
  ∃ p s', release i s = Some (p, s') ∧ vget (payload s) i = Some (Some p) ∧
    slab_inv (X ∖ {[i]}) s' L ∧ others_kept i s s' ∧
    gen_of s' i = (λ g, u32_add g 1) <$> gen_of s i ∧ node_costs s' = node_costs s ∧ seg_of s' i = Some FREE ∧
    length (links s') = length (links s).
Proof.
  intros Hi HiX. destruct (si_X _ _ _ Hi i HiX) as [g0 Hg0]. destruct (seg_vget _ _ _ Hg0) as (k&Hk&_).
  assert (Hif : i ∉ free s) by (rewrite (si_free _ _ _ Hi); tauto).
  destruct (si_live _ _ _ Hi i ltac:(by eexists) Hif) as [p Hp].
  assert (HnL : ∀ g, is_seg g → i ∉ L g) by (intros g Hg; rewrite (si_in _ _ _ Hi g i Hg); tauto).
  unfold release. rewrite Hk. simpl.
  destruct (vset_spec _ _ (mk_link (l_prev k) (l_next k) FREE (u32_add (l_generation k) 1)) _ Hk) as (ls&->&Hlen&Hls). simpl.
  rewrite Hp. simpl. destruct (vset_spec _ _ None _ Hp) as (pl&->&Hpl&Hplg). simpl. set (s' := mk_slab _ _ _ _ _).
  assert (Hsg : ∀ j, seg_of s' j = if decide (j = i) then Some FREE else seg_of s j)
    by (intros j; unfold seg_of; simpl; rewrite Hls; by case_decide).
  assert (Hlk : ∀ j, lk s' j = lk s j)
    by (intros j; unfold lk; simpl; rewrite Hls; case_decide; [subst; by rewrite Hk|done]).
  exists p, s'. split; [done|]. split; [done|]. split.
  - split; [simpl; rewrite Hpl, Hlen; apply Hi|simpl; rewrite Hlen; apply Hi|apply Hi| | | | | | | |apply Hi| |apply Hi].
    + intros g Hg. destruct (si_list _ _ _ Hi g Hg) as (l&?&?&?). exists l. split; [done|]. split; [|done].
      eapply dll_ext; [|done]. intros; apply Hlk.
    + intros g j Hg. rewrite (si_in _ _ _ Hi g j Hg), Hsg, not_elem_of_difference, elem_of_singleton.
      pose proof (seg_not_free g Hg). case_decide; naive_solver.
    + simpl. apply NoDup_app. split_and!; [apply Hi|set_solver|apply NoDup_singleton].
    + intros j. simpl. rewrite elem_of_app, list_elem_of_singleton, (si_free _ _ _ Hi j), Hsg, not_elem_of_difference, elem_of_singleton.
      case_decide; naive_solver.
    + intros j g. rewrite Hsg, not_elem_of_difference, elem_of_singleton. case_decide; [naive_solver|].
      intros Ej [?|?]; [by apply (si_seg _ _ _ Hi j g)|done].
    + intros j. rewrite Hsg. simpl. rewrite Hplg, not_elem_of_app, list_elem_of_singleton.
      case_decide; [naive_solver|]. intros ? [? _]. by apply (si_live _ _ _ Hi).
    + intros j g. unfold gen_of. simpl. rewrite Hls. case_decide; [|apply Hi]. simpl. intros [= <-].
      apply Z.mod_pos_bound. unfold U32. lia.
    + intros j Hj. rewrite Hsg. case_decide; [by eexists|]. apply (si_X _ _ _ Hi). set_solver.
  - split_and!; [|unfold gen_of; simpl; by rewrite Hls, decide_True, Hk by done|done|by rewrite Hsg, decide_True|done].
    intros j Hj. rewrite Hsg, decide_False by done. unfold gen_of. simpl. by rewrite Hls, Hplg, !decide_False by done.
Qed.

Lemma slab_inv_ext X s L L' : (∀ g, is_seg g → L' g = L g) → slab_inv X s L → slab_inv X s L'.
Proof.
  intros HL Hi. destruct Hi as [H1 H2 H3 H4 H5 H6 H7 H8 H9 H10 H11 H12 H13]. split; try done.
  - intros g Hg. rewrite HL by done. by apply H4.
  - intros g i Hg. rewrite HL by done. by apply H5.
  - unfold live_sum in *. by rewrite !HL by (unfold is_seg; lia).
Qed.

Lemma lcost_set s s' i c ids :
  NoDup ids → (∀ j, cost_at s' j = if decide (j = i) then c else cost_at s j) →
  lcost s' ids = if decide (i ∈ ids) then lcost s ids - cost_at s i + c else lcost s ids.
Proof.
  intros Hnd Hc. induction Hnd as [|j ids Hj Hnd IH]; [done|]. simpl. rewrite IH, Hc.
  destruct (decide (j = i)) as [->|].
  - rewrite decide_False, decide_True by set_solver. lia.
  - destruct (decide (i ∈ ids)); [rewrite decide_True by set_solver|rewrite decide_False by set_solver]; lia.
Qed.

Lemma set_cost_slab X s L g i c :
  slab_inv X s L → is_seg g → i ∈ L g → 0 ≤ c → live_sum s L - cost_at s i + c < U64 →
  ∃ s', set_cost i c s = Some s' ∧ slab_inv X s' L ∧ links s' = links s ∧ payload s' = payload s ∧
    (∀ j, cost_at s' j = if decide (j = i) then c else cost_at s j) ∧
    live_sum s' L = live_sum s L - cost_at s i + c.
Proof.
  intros Hi Hg Hin Hc Hlt. pose proof Hin as [Ei _]%(si_in _ _ _ Hi g i Hg).
  destruct (seg_vget _ _ _ Ei) as (k&Hk&Hkg). unfold set_cost. rewrite Hk. simpl.
  rewrite (cost_vget _ _ _ i Hi) by (by eexists). simpl.
  destruct (vset_spec _ _ c _ (cost_vget _ _ _ i Hi ltac:(by eexists))) as (cs&->&Hlc&Hcs). simpl. rewrite Hkg.
  destruct (set_list_spec _ _ _ g (λ li, mk_slist (sl_head li) (sl_tail li) (sl_cost li -w cost_at s i +w c)) Hi Hg)
    as (l&li&Hl&->&Hlil&Hli). simpl. set (s' := mk_slab _ _ _ _ _).
  assert (Hca : ∀ j, cost_at s' j = if decide (j = i) then c else cost_at s j)
    by (intros j; unfold cost_at; simpl; rewrite Hcs; by case_decide).
  assert (HLc : ∀ h, is_seg h → lcost s' (L h) = if decide (h = g) then lcost s (L h) - cost_at s i + c else lcost s (L h)).
  { intros h Hh. destruct (si_list _ _ _ Hi h Hh) as (lh&_&(Hnd&_)&_). rewrite (lcost_set s s' i c _ Hnd Hca).
    destruct (decide (h = g)) as [->|Hne]; [by rewrite decide_True|].
    rewrite decide_False; [done|]. intros Hin'. by apply Hne, (L_disjoint _ _ _ h g i Hi). }
  assert (Hsum : live_sum s' L = live_sum s L - cost_at s i + c).
  { unfold live_sum. rewrite !HLc by (unfold is_seg; lia).
    apply seg_cases in Hg as [->|[->| ->]]; simpl; repeat (rewrite decide_True by done || rewrite decide_False by lia); lia. }
  exists s'. split; [done|]. split; [|done].
  destruct (si_list _ _ _ Hi g Hg) as (l0&Hl0&Hd0&Hc0). rewrite Hl in Hl0. injection Hl0 as <-.
  pose proof (lcost_le_sum _ _ _ g Hi Hg). pose proof (si_sum _ _ _ Hi). pose proof (cost_at_nonneg _ _ _ i Hi).
  assert (Hge : cost_at s i ≤ lcost s (L g)).
  { apply list_elem_of_split in Hin as (l1&l2&E). rewrite E, lcost_app. simpl.
    pose proof (lcost_nonneg _ _ _ l1 Hi). pose proof (lcost_nonneg _ _ _ l2 Hi). lia. }
  split; try apply Hi; [simpl; rewrite Hlc; apply Hi|done| | |by rewrite Hsum].
  - intros h Hh. simpl. rewrite Hli, HLc by done. destruct (decide (h = g)) as [->|].
    + eexists. split; [done|]. split; [exact Hd0|]. simpl. rewrite Hc0.
      rewrite u64_sub_small, u64_add_small by lia. lia.
    + by apply (si_list _ _ _ Hi).
  - intros j d. simpl. rewrite Hcs. case_decide; [naive_solver|]. apply Hi.
Qed.

Lemma move_front_slab s L g i l1 l2 :
  slab_inv ∅ s L → is_seg g → L g = l1 ++ i :: l2 →
  ∃ s', move_front g i s = Some s' ∧ slab_inv ∅ s' (upd L g (i :: l1 ++ l2)) ∧ same_nodes s s' ∧
    ∀ j, seg_of s' j = seg_of s j.
Proof.
  intros Hi Hg HL. assert (Hin : i ∈ L g) by (rewrite HL; set_solver).
  pose proof Hin as [Ei _]%(si_in _ _ _ Hi g i Hg). destruct (seg_vget _ _ _ Ei) as (k&Hk&Hkg).
  destruct (si_list _ _ _ Hi g Hg) as (l&Hl&Hd&_). unfold move_front. rewrite Hl. simpl. rewrite Hk. simpl.
  destruct (negb (sl_head l =? i) || negb (l_seg k =? g)) eqn:Eb.
  - destruct (unlink_slab _ _ _ g i l1 l2 Hi Hg HL) as (s1&->&Hi1&Hsn1&Hsg1). simpl.
    pose proof (cost_at_nonneg _ _ _ i Hi). pose proof (si_sum _ _ _ Hi).
    destruct (push_front_slab _ s1 _ g i Hi1 Hg) as (s2&->&Hi2&Hsn2&Hsg2); [set_solver| |].
    { rewrite live_sum_upd, HL, (live_sum_same s s1), !lcost_app, !(same_nodes_lcost s s1), (same_nodes_cost s s1) by done.
      simpl. lia. }
    exists s2. split; [done|]. split; [|split; [by eapply same_nodes_trans|]].
    + replace (({[i]} ∪ ∅) ∖ {[i]}) with (∅ : gset Z) in Hi2 by set_solver.
      eapply slab_inv_ext; [|exact Hi2]. intros h Hh. unfold upd. repeat case_decide; congruence.
    + intros j. destruct (decide (j = i)) as [->|Hne]; [by rewrite Hsg2, decide_True by done|].
      by rewrite Hsg2, decide_False, Hsg1.
  - apply orb_false_iff in Eb as [Eh%negb_false_iff%Z.eqb_eq _].
    pose proof (slot_range _ _ _ i Hi ltac:(by eexists)) as Hr.
    assert (l1 = []) as ->.
    { destruct Hd as (Hnd&Hhd&_&_). rewrite Eh, onil_slot, HL in Hhd by lia. rewrite HL in Hnd.
      destruct l1 as [|j l1]; [done|]. simpl in Hhd. injection Hhd as ->.
      apply NoDup_cons in Hnd as [Hn _]. exfalso. apply Hn. apply elem_of_app. right. by left. }
    exists s. split; [done|]. split; [|split; [apply same_nodes_refl|done]].
    eapply slab_inv_ext; [|exact Hi]. intros h Hh. unfold upd. case_decide; [subst; by rewrite HL|done].
Qed.
(** ** Node ids *)

Lemma split_join g i : is_u32 g → is_u32 i → split (join g i) = (g, i).
Proof.
  intros Hg Hi. unfold split, join, is_u32, U32 in *. change u32_max with (Z.ones 32).
  assert (Hl : Z.shiftr i 32 = 0) by (rewrite Z.shiftr_div_pow2 by lia; apply Z.div_small; lia). f_equal.
  - rewrite Z.shiftr_lor, Z.shiftr_shiftl_l, Hl, Z.lor_0_r by lia. by rewrite Z.sub_diag, Z.shiftl_0_r.
  - rewrite Z.land_ones by lia. rewrite <- Z.land_ones, Z.land_lor_distr_l, !Z.land_ones by lia.
    rewrite Z.shiftl_mul_pow2 by lia. rewrite Z.mod_mul by lia. rewrite Z.lor_0_l. apply Z.mod_small. lia.
Qed.

Lemma join_split node : 0 ≤ node → join (split node).1 (split node).2 = node.
Proof.
  intros Hn. unfold split, join. simpl. change u32_max with (Z.ones 32). rewrite Z.land_ones by lia.
  rewrite Z.shiftr_div_pow2, Z.shiftl_mul_pow2 by lia.
  rewrite <- Z.lxor_lor, <- Z.add_nocarry_lxor; [|apply Z.bits_inj'..].
  - pose proof (Z.div_mod node (2 ^ 32)). lia.
  - intros m Hm. rewrite Z.land_spec, Z.bits_0. destruct (Z.lt_ge_cases m 32).
    + rewrite Z.mul_pow2_bits_low by lia. done.
    + rewrite Z.mod_pow2_bits_high by lia. by rewrite andb_false_r.
  - intros m Hm. rewrite Z.land_spec, Z.bits_0. destruct (Z.lt_ge_cases m 32).
    + rewrite Z.mul_pow2_bits_low by lia. done.
    + rewrite Z.mod_pow2_bits_high by lia. by rewrite andb_false_r.
Qed.

Lemma id_Some s i node : id i s = Some node ↔ ∃ g, gen_of s i = Some g ∧ node = join g i.
Proof. unfold id, gen_of. destruct (vget (links s) i) as [l|]; simpl; naive_solver. Qed.

Lemma slot_u32 X s L i : slab_inv X s L → is_Some (seg_of s i) → is_u32 i.
Proof. intros Hi Hs. pose proof (slot_range _ _ _ _ Hi Hs). unfold is_u32, NIL, u32_max in *. lia. Qed.

Lemma gen_is_seg s i : is_Some (gen_of s i) ↔ is_Some (seg_of s i).
Proof. unfold gen_of, seg_of. by rewrite !fmap_is_Some. Qed.

(** An id resolves exactly while its slot is in a list under that generation. *)
Lemma resolve_spec s L node i :
  slab_inv ∅ s L → 0 ≤ node →
  resolve node s = Some i ↔ id i s = Some node ∧ ∃ g, is_seg g ∧ i ∈ L g.
Proof.
  intros Hi Hn. unfold resolve. split.
  - destruct (split node) as [gen slot] eqn:Es. destruct (vget (links s) slot) as [l|] eqn:El; [|done]. simpl.
    destruct (Z.eqb_spec (l_seg l) FREE) as [|Hf]; [done|]. destruct (Z.eqb_spec (l_generation l) gen) as [<-|]; [|done].
    simpl. intros [= <-]. split.
    + apply id_Some. exists (l_generation l). unfold gen_of. rewrite El. split; [done|].
      rewrite <- (join_split node) by done. by rewrite Es.
    + assert (E : seg_of s slot = Some (l_seg l)) by (unfold seg_of; by rewrite El).
      destruct (si_seg _ _ _ Hi slot _ E (not_elem_of_empty _)) as [Hg|]; [|done].
      exists (l_seg l). split; [done|]. by apply (si_in _ _ _ Hi).
  - intros [(gen&Hgen&->)%id_Some (g&Hg&Hin)]. pose proof Hin as [Eg _]%(si_in _ _ _ Hi g i Hg).
    rewrite split_join by (apply (si_gen _ _ _ Hi i gen Hgen) || (eapply slot_u32; [done|by eexists])).
    unfold gen_of, seg_of in *. destruct (vget (links s) i) as [l|]; [|done]. simpl in *. simplify_eq.
    pose proof (seg_not_free _ Hg). destruct (Z.eqb_spec (l_seg l) FREE); [done|]. by rewrite Z.eqb_refl.
Qed.

Lemma join_inj g g' i i' : is_u32 g → is_u32 g' → is_u32 i → is_u32 i' → join g i = join g' i' → g = g' ∧ i = i'.
Proof.
  intros ???? E. assert (E2 : split (join g i) = split (join g' i')) by (by rewrite E).
  rewrite !split_join in E2 by done. by simplify_eq.
Qed.

Lemma u32_succ_ne g : is_u32 g → u32_add g 1 ≠ g.
Proof.
  unfold is_u32, u32_add, U32. intros Hg. destruct (Z.eq_dec g (2 ^ 32 - 1)) as [->|]; [done|].
  rewrite Z.mod_small by lia. lia.
Qed.

(** A node is taken out: its list loses it and its id is dead. *)
Lemma remove_node s L g i l1 l2 node :
  slab_inv ∅ s L → is_seg g → L g = l1 ++ i :: l2 → id i s = Some node →
  ∃ s1 p s2, unlink i s = Some s1 ∧ release i s1 = Some (p, s2) ∧ vget (payload s) i = Some (Some p) ∧
    slab_inv ∅ s2 (upd L g (l1 ++ l2)) ∧ others_kept i s s2 ∧ node_costs s2 = node_costs s ∧
    length (links s2) = length (links s) ∧ gen_of s2 i = (λ x, u32_add x 1) <$> gen_of s i ∧ seg_of s2 i = Some FREE.
Proof.
  intros Hi Hg HL Hid. destruct (unlink_slab _ _ _ g i l1 l2 Hi Hg HL) as (s1&Hu&Hi1&Hsn&Hsg).
  destruct (release_slab _ s1 _ i Hi1) as (p&s2&Hr&Hp&Hi2&Hok&Hgen&Hcs&Hs2&Hlen); [set_solver|].
  destruct Hsn as (Ep&Ec&Ef&El&Eg). exists s1, p, s2. split; [done|]. split; [done|].
  rewrite Ep in Hp. split; [done|]. split.
  { by replace (({[i]} ∪ ∅) ∖ {[i]}) with (∅ : gset Z) in Hi2 by set_solver. }
  split; [|split_and!; [congruence|congruence|by rewrite Hgen, Eg|done]].
  intros j Hj. destruct (Hok j Hj) as (E1&E2&E3&E4). rewrite E1, E2, E3, E4, Ep, Ec, Eg, Hsg. done.
Qed.

(** a node's id dies with the node and only with it. After the node [i] of a
    list is unlinked and released its id no longer resolves, not even once the slot
    is taken for another node; every other id resolves as it did. *)
Theorem slab_stale_id_ignored s L g i l1 l2 node :
  slab_inv ∅ s L → is_seg g → L g = l1 ++ i :: l2 → id i s = Some node → 0 ≤ node →
  ∃ s1 p s2, unlink i s = Some s1 ∧ release i s1 = Some (p, s2) ∧
    slab_inv ∅ s2 (upd L g (l1 ++ l2)) ∧ resolve node s2 = None ∧
    (∀ node', 0 ≤ node' → node' ≠ node → resolve node' s2 = resolve node' s) ∧
    (∀ q c h i' s3, 0 ≤ c → is_seg h → Z.of_nat (length (links s2)) < NIL →
       live_sum s2 (upd L g (l1 ++ l2)) + c < U64 → alloc q c s2 = Some (i', s3) →
       ∃ s4, push_front h i' s3 = Some s4 ∧ resolve node s4 = None).
Proof.
  intros Hi Hg HL Hid Hn. assert (Hin : i ∈ L g) by (rewrite HL; set_solver).
  destruct (remove_node _ _ _ _ _ _ _ Hi Hg HL Hid) as (s1&p&s2&Hu&Hr&_&Hi2&Hok&_&Hlen&Hgen&Hsf).
  pose proof Hid as (gen&Hg0&->)%id_Some. rewrite Hg0 in Hgen. simpl in Hgen.
  pose proof (si_gen _ _ _ Hi i gen Hg0) as Hgu. assert (Hiu : is_u32 i) by (eapply slot_u32; [exact Hi2|by eexists]).
  exists s1, p, s2. split; [done|]. split; [done|]. split; [done|].
  assert (Hdead : ∀ s' L', slab_inv ∅ s' L' → gen_of s' i = Some (u32_add gen 1) → resolve (join gen i) s' = None).
  { intros s' L' Hi' Hg'. destruct (resolve (join gen i) s') as [j|] eqn:E; [|done].
    apply (resolve_spec _ _ _ _ Hi' Hn) in E as [(gj&Hgj&E)%id_Some _].
    apply join_inj in E as [-> ->]; [|done|by eapply Hi'|done|eapply slot_u32; [exact Hi'|apply gen_is_seg; by eexists]].
    rewrite Hg' in Hgj. injection Hgj as Hgj. by apply u32_succ_ne in Hgu. }
  split; [by eapply Hdead|]. split.
  - intros node' Hn' Hne. apply option_eq. intros j. rewrite (resolve_spec s2 _ node' j Hi2 Hn'), (resolve_spec s L node' j Hi Hn').
    destruct (decide (j = i)) as [->|Hj].
    { split.
      - intros [_ (h&Hh&[E _]%(si_in _ _ _ Hi2 h i Hh))]. rewrite Hsf in E. injection E as <-. by apply seg_not_free in Hh.
      - intros [(gj&Hgj&->)%id_Some _]. congruence. }
    destruct (Hok j Hj) as (Egen&_&_&Eseg).
    assert (Hmem : ∀ h, is_seg h → j ∈ upd L g (l1 ++ l2) h ↔ j ∈ L h)
      by (intros h Hh; by rewrite (si_in _ _ _ Hi2 h j Hh), (si_in _ _ _ Hi h j Hh), Eseg).
    rewrite !id_Some, Egen. split; intros [? (h&Hh&Hjh)]; (split; [done|]); exists h; split; [done| |done|];
      by apply Hmem.
  - intros q c h i' s3 Hc Hh Hmax Hsum Hal.
    destruct (alloc_slab s2 _ q c Hi2 Hc (λ _, Hmax)) as (i2&s3'&Hal'&Hi3&_&_&Hcost&Hok3&Hgen3&_&_).
    rewrite Hal in Hal'. injection Hal' as <- <-.
    destruct (push_front_slab _ s3 _ h i' Hi3 Hh) as (s4&->&Hi4&Hsn4&_); [set_solver| |].
    { rewrite Hcost. replace (live_sum s3 _) with (live_sum s2 (upd L g (l1 ++ l2))); [done|].
      unfold live_sum. f_equal; [f_equal|]; symmetry; eapply others_kept_lcost; [done| |done| |done|];
        rewrite (si_in _ _ _ Hi3) by (unfold is_seg; lia); set_solver. }
    exists s4. split; [done|]. replace ({[i']} ∖ {[i']}) with (∅ : gset Z) in Hi4 by set_solver.
    eapply Hdead; [exact Hi4|]. destruct Hsn4 as (_&_&_&_&->).
    destruct (decide (i = i')) as [->|Hne]; [by rewrite Hgen3, Hgen|]. destruct (Hok3 i Hne) as (->&_). done.
Qed.
Lemma slab_inv_new : slab_inv ∅ (new (P:=P)) (λ _, []).
Proof.
  split; simpl; try done.
  - intros g Hg. exists EMPTY. split; [|split; [apply dll_nil|done]].
    by apply seg_cases in Hg as [->|[->| ->]].
  - intros g i _. unfold seg_of. simpl. rewrite vget_nil. split; [by intros ?%elem_of_nil|by intros [? _]].
  - constructor.
  - intros i. unfold seg_of. simpl. rewrite vget_nil. split; [by intros ?%elem_of_nil|by intros [? _]].
  - intros i g. unfold seg_of. simpl. by rewrite vget_nil.
  - intros i. unfold seg_of. simpl. rewrite vget_nil. by intros [? ?].
  - intros i g. unfold gen_of. simpl. by rewrite vget_nil.
  - intros i c. by rewrite vget_nil.
Qed.

(** [clear] starts the generations over. Whatever the slab held, the first
    node taken after [clear] has the id 0, the id the first node of the slab had,
    so an id kept across [clear] does resolve. *)
Theorem slab_clear_revives_ids s (p : P) c g :
  is_seg g → 0 ≤ c < U64 →
  ∃ s1 s2, alloc p c (clear s) = Some (0, s1) ∧ push_front g 0 s1 = Some s2 ∧
    id 0 s2 = Some 0 ∧ resolve 0 s2 = Some 0 ∧ slab_inv ∅ s2 (upd (λ _, []) g [0]).
Proof.
  intros Hg Hc. destruct (alloc_grow (clear s) (λ _, []) p c) as (i&s1&Ha&Hi&_&_&Hcost&_);
    [apply slab_inv_new|lia|done|done|].
  assert (i = 0) as -> by (vm_compute in Ha; by injection Ha).
  destruct (push_front_slab _ s1 _ g 0 Hi Hg) as (s2&Hp&Hi2&Hsn&_);
    [set_solver|unfold live_sum; simpl; rewrite Hcost; lia|].
  replace ({[0]} ∖ {[0]}) with (∅ : gset Z) in Hi2 by set_solver.
  assert (Hid : id 0 s2 = Some 0).
  { apply id_Some. destruct Hsn as (_&_&_&_&->). exists 0. split; [|done].
    vm_compute in Ha. by injection Ha as <-. }
  exists s1, s2. split; [done|]. split; [done|]. split; [done|]. split; [|done].
  apply (resolve_spec s2 _ 0 0 Hi2); [lia|]. split; [done|]. exists g. split; [done|]. rewrite upd_eq. by left.
Qed.
End Ops.

Lemma slab_stale_id_ignored_witness :
  ∃ s s1 s2, (('(i, s0) ← alloc 77 3 (new (P:=Z)); push_front 1 i s0) = Some s) ∧
    unlink 0 s = Some s1 ∧ release 0 s1 = Some (77, s2) ∧ resolve 0 s = Some 0 ∧ resolve 0 s2 = None.
Proof.
  destruct (alloc_grow (new (P:=Z)) (λ _, []) 77 3) as (i&s0&Ha&Hi&_); [apply slab_inv_new|lia|done|done|].
  assert (i = 0) as -> by (vm_compute in Ha; by injection Ha).
  destruct (push_front_slab _ s0 _ 1 0 Hi) as (s&Hp&Hi2&_);
    [unfold is_seg; lia|set_solver|vm_compute in Ha; injection Ha as <-; vm_compute; reflexivity|].
  replace ({[0]} ∖ {[0]}) with (∅ : gset Z) in Hi2 by set_solver.
  assert (Hc : ('(i, s0) ← alloc 77 3 (new (P:=Z)); s ← push_front 1 i s0; s1 ← unlink 0 s; '(p, s2) ← release 0 s1;
    Some (id 0 s, resolve 0 s, p)) = Some (Some 0, Some 0, 77)) by (vm_compute; reflexivity).
  rewrite Ha in Hc. cbn [mbind option_bind] in Hc. rewrite Hp in Hc. cbn [mbind option_bind] in Hc.
  assert (Hid : id 0 s = Some 0).
  { destruct (unlink 0 s) as [s1|]; [|done]. simpl in Hc. destruct (release 0 s1) as [[p s2]|]; [|done]. by injection Hc. }
  destruct (slab_stale_id_ignored s _ 1 0 [] [] 0 Hi2) as (s1&p&s2&Hu&Hr&_&Hres&_);
    [unfold is_seg; lia|by rewrite upd_eq|exact Hid|lia|].
  rewrite Hu in Hc. cbn [mbind option_bind] in Hc. rewrite Hr in Hc. cbn [mbind option_bind] in Hc. injection Hc as _ Hres0 ->.
  exists s, s1, s2. rewrite Ha. cbn [mbind option_bind]. auto.
Defined.

Lemma slab_clear_revives_ids_witness :
  ∃ s1 s2, alloc 5 2 (clear (new (P:=Z))) = Some (0, s1) ∧ push_front 0 0 s1 = Some s2 ∧ resolve 0 s2 = Some 0.
Proof.
  destruct (slab_clear_revives_ids (new (P:=Z)) 5 2 0) as (s1&s2&H1&H2&_&H3&_).
  - split; lia.
  - split; [lia|vm_compute; reflexivity].
  - exists s1, s2. split; [exact H1|]. split; [exact H2|exact H3].
Defined.
