(* ===== verification/Nodes.v ===== *)
(** * What a [Slab] holds, as a map from node ids

    The shard names its entries by node id.  [resident s] is the map from the live
    node ids to their hash and cost; the composite steps the shard policies take
    (admit a node, move it, drop it, change its cost) are stated on it. *)

From S2P Require Import Prelude Dll Slab.

Lemma filter_forall {A} (Q : A → Prop) `{∀ x, Decision (Q x)} (l : list A) : Forall Q l → filter Q l = l.
Proof. induction 1; [done|]. rewrite filter_cons_True by done. congruence. Qed.

Section Nodes.
Implicit Types (s : Slab Z) (L : Z → list Z) (i j g h : Z).

Definition live_slots s : list Z :=
  filter (λ i, seg_of s i ≠ Some FREE) (seqZ 0 (Z.of_nat (length (links s)))).

(** The id, hash and cost of a slot. *)
Definition entry s i : Z * (Z * Z) :=
  (default 0 (id i s), (default 0 (mjoin (vget (payload s) i)), cost_at s i)).

Definition resident s : gmap Z (Z * Z) := list_to_map (entry s <$> live_slots s).

Definition all_slots L : list Z := L 0 ++ L 1 ++ L 2.

Lemma elem_of_all_slots L i : i ∈ all_slots L ↔ ∃ g, is_seg g ∧ i ∈ L g.
Proof.
  unfold all_slots, is_seg. rewrite !elem_of_app. split.
  - intros [?|[?|?]]; [exists 0|exists 1|exists 2]; split; lia || done.
  - intros (g&Hg&Hi). assert (g = 0 ∨ g = 1 ∨ g = 2) as [->|[->| ->]] by lia; auto.
Qed.

Lemma live_slots_perm s L : slab_inv ∅ s L → live_slots s ≡ₚ all_slots L.
Proof.
  intros Hi. assert (Hnd : ∀ g, is_seg g → NoDup (L g)).
  { intros g Hg. by destruct (si_list _ _ _ Hi g Hg) as (?&_&(?&_)&_). }
  assert (Hdis : ∀ g h i, is_seg g → is_seg h → g ≠ h → i ∈ L g → i ∉ L h)
    by (intros g h i Hg Hh Hne Hig Hih; by apply Hne, (L_disjoint _ _ _ g h i Hi)).
  apply NoDup_Permutation.
  - apply NoDup_filter, NoDup_seqZ.
  - unfold all_slots. apply NoDup_app. split_and!; [apply Hnd; unfold is_seg; lia| |].
    + intros i H0 [H1|H1]%elem_of_app; revert H1; apply (Hdis 0); unfold is_seg; lia || done.
    + apply NoDup_app. split_and!; [apply Hnd; unfold is_seg; lia| |apply Hnd; unfold is_seg; lia].
      intros i H0. apply (Hdis 1); unfold is_seg; lia || done.
  - intros i. rewrite elem_of_all_slots. unfold live_slots. rewrite list_elem_of_filter, elem_of_seqZ. split.
    + intros [Hs Hr]. destruct (vget_lt (links s) i) as [l Hl]; [lia|].
      assert (E : seg_of s i = Some (l_seg l)) by (unfold seg_of; by rewrite Hl).
      destruct (si_seg _ _ _ Hi i _ E (not_elem_of_empty _)) as [Hg|Hf]; [|congruence].
      exists (l_seg l). split; [done|]. by apply (si_in _ _ _ Hi).
    + intros (g&Hg&[E _]%(si_in _ _ _ Hi g i Hg)). pose proof (seg_not_free _ Hg). rewrite E.
      split; [congruence|]. destruct (seg_vget _ _ _ E) as (l&Hl&_). apply vget_Some in Hl. lia.
Qed.

(** A live slot is what its id says. *)
Definition node_is s i node h c : Prop :=
  id i s = Some node ∧ vget (payload s) i = Some (Some h) ∧ cost_at s i = c.

Lemma slot_node s L i : slab_inv ∅ s L → i ∈ all_slots L → ∃ node h, node_is s i node h (cost_at s i) ∧
  entry s i = (node, (h, cost_at s i)) ∧ 0 ≤ node < U64.
Proof.
  intros Hi (g&Hg&Hin)%elem_of_all_slots. pose proof Hin as [E _]%(si_in _ _ _ Hi g i Hg).
  assert (Hnf : i ∉ free s) by (rewrite (si_free _ _ _ Hi); pose proof (seg_not_free _ Hg); naive_solver).
  destruct (si_live _ _ _ Hi i ltac:(by eexists) Hnf) as [p Hp].
  destruct (proj2 (gen_is_seg s i)) as [gen Hgen]; [by eexists|].
  pose proof (si_gen _ _ _ Hi i gen Hgen) as Hgu. pose proof (slot_u32 _ _ _ i Hi ltac:(by eexists)) as Hiu.
  assert (Hid : id i s = Some (join gen i)) by (apply id_Some; eauto).
  exists (join gen i), p. split; [done|]. unfold entry. rewrite Hid, Hp. split; [done|].
  unfold join, is_u32, U32, U64 in *. assert (H0 : 0 ≤ Z.lor (Z.shiftl gen 32) i)
    by (apply Z.lor_nonneg; split; [apply Z.shiftl_nonneg; lia|lia]).
  split; [done|]. rewrite <- (Z.mod_small i (2 ^ 32)) by lia. rewrite <- Z.land_ones by lia.
  destruct (Z.eq_dec (Z.lor (Z.shiftl gen 32) (Z.land i (Z.ones 32))) 0) as [->|Hne]; [done|].
  rewrite Z.land_ones, (Z.mod_small i) in * by lia.
  apply Z.log2_lt_pow2; [lia|]. rewrite Z.log2_lor by (lia || (apply Z.shiftl_nonneg; lia)).
  apply Z.max_lub_lt.
  - destruct (Z.eq_dec gen 0) as [->|]; [done|]. rewrite Z.log2_shiftl by lia.
    assert (Z.log2 gen < 32) by (apply Z.log2_lt_pow2; lia). lia.
  - destruct (Z.eq_dec i 0) as [->|]; [done|]. assert (Z.log2 i < 32) by (apply Z.log2_lt_pow2; lia). lia.
Qed.

Lemma id_slot_inj s L i j node :
  slab_inv ∅ s L → is_Some (seg_of s i) → is_Some (seg_of s j) →
  id i s = Some node → id j s = Some node → i = j.
Proof.
  intros Hi Hsi Hsj (g&Hg&->)%id_Some (g'&Hg'&E)%id_Some.
  apply join_inj in E as [_ ?]; [done|eapply si_gen..|eapply slot_u32|eapply slot_u32]; done.
Qed.

Lemma slot_live s L i : slab_inv ∅ s L → i ∈ all_slots L → is_Some (seg_of s i).
Proof. intros Hi (g&Hg&[E _]%(si_in _ _ _ Hi g i Hg))%elem_of_all_slots. by eexists. Qed.

Lemma entries_NoDup s L : slab_inv ∅ s L → NoDup (entry s <$> all_slots L).*1.
Proof.
  intros Hi. rewrite <- list_fmap_compose. apply NoDup_fmap_2_strong.
  - intros i j Hii Hjj E. destruct (slot_node s L i Hi Hii) as (n1&h1&(Hid1&_)&E1&_).
    destruct (slot_node s L j Hi Hjj) as (n2&h2&(Hid2&_)&E2&_). change ((entry s i).1 = (entry s j).1) in E. rewrite E1, E2 in E. simpl in E. subst.
    by eapply (id_slot_inj s L); [|eapply slot_live|eapply slot_live| |].
  - rewrite <- (live_slots_perm s L Hi). apply NoDup_filter, NoDup_seqZ.
Qed.

Lemma resident_all s L : slab_inv ∅ s L → resident s = list_to_map (entry s <$> all_slots L).
Proof.
  intros Hi. pose proof (live_slots_perm s L Hi) as Hp. pose proof (entries_NoDup s L Hi) as Hnd.
  symmetry. apply list_to_map_proper; [done|]. by rewrite Hp.
Qed.

Lemma resident_lookup s L node h c :
  slab_inv ∅ s L →
  resident s !! node = Some (h, c) ↔ ∃ i, i ∈ all_slots L ∧ node_is s i node h c.
Proof.
  intros Hi. rewrite (resident_all s L Hi), <- elem_of_list_to_map by (by apply entries_NoDup).
  rewrite list_elem_of_fmap. split.
  - intros (i&E&Hin). exists i. split; [done|]. destruct (slot_node s L i Hi Hin) as (n'&h'&Hn&E'&_).
    rewrite E' in E. by simplify_eq.
  - intros (i&Hin&Hn). exists i. split; [|done]. destruct (slot_node s L i Hi Hin) as (n'&h'&Hn'&E'&_).
    rewrite E'. destruct Hn as (?&?&?), Hn' as (?&?&_). by simplify_eq.
Qed.

Lemma resident_sum s L : slab_inv ∅ s L → wsum snd (resident s) = live_sum s L.
Proof.
  intros Hi. rewrite (resident_all s L Hi), <- msum_fmap, <- list_to_map_fmap.
  assert (Hk : (prod_map Datatypes.id snd <$> (entry s <$> all_slots L)).*1 = (entry s <$> all_slots L).*1)
    by (rewrite <- list_fmap_compose; by apply list_fmap_ext).
  rewrite msum_list by (rewrite Hk; by apply entries_NoDup).
  transitivity (lcost s (all_slots L)).
  - clear Hk Hi. induction (all_slots L) as [|i l IH]; [done|]. simpl. f_equal. exact IH.
  - unfold all_slots, live_sum. rewrite !lcost_app. lia.
Qed.

Lemma resident_fit s L : slab_inv ∅ s L → costs_fit (snd <$> resident s).
Proof.
  intros Hi. split.
  - intros node c. rewrite lookup_fmap. destruct (resident s !! node) as [[h d]|] eqn:E; [|done]. simpl. intros [= <-].
    apply (resident_lookup s L _ _ _ Hi) in E as (i&_&_&_&<-). by eapply cost_at_nonneg.
  - rewrite msum_fmap, (resident_sum s L Hi). apply Hi.
Qed.

(** ** The steps of a shard policy, on [resident] *)

Lemma resident_char s L (m : gmap Z (Z * Z)) :
  slab_inv ∅ s L →
  (∀ node h c, m !! node = Some (h, c) ↔ ∃ i, i ∈ all_slots L ∧ node_is s i node h c) →
  resident s = m.
Proof.
  intros Hi Hm. apply map_eq. intros node. apply option_eq. intros [h c].
  by rewrite (resident_lookup s L _ _ _ Hi), Hm.
Qed.

Lemma node_is_kept i j s s' node h c : others_kept i s s' → j ≠ i → node_is s' j node h c ↔ node_is s j node h c.
Proof.
  intros Ho Hj. destruct (Ho j Hj) as (Eg&Ep&Ec&_). unfold node_is, cost_at.
  by rewrite Ep, Ec, !id_Some, Eg.
Qed.

Lemma node_is_same s s' i node h c : same_nodes s s' → node_is s' i node h c ↔ node_is s i node h c.
Proof. intros (Ep&Ec&_&_&Eg). unfold node_is, cost_at. by rewrite Ep, Ec, !id_Some, Eg. Qed.

(** Slots move between lists: the nodes stay. *)
Lemma resident_moved s s' L L' :
  slab_inv ∅ s L → slab_inv ∅ s' L' → same_nodes s s' → (∀ i, i ∈ all_slots L' ↔ i ∈ all_slots L) →
  resident s' = resident s.
Proof.
  intros Hi Hi' Hsn Hall. apply (resident_char s' L'); [done|]. intros node h c.
  rewrite (resident_lookup s L _ _ _ Hi). split; intros (i&Hin&Hn); exists i;
    (split; [by apply Hall|by apply (node_is_same s s')]).
Qed.

Lemma all_slots_upd L g l i : is_seg g →
  i ∈ all_slots (upd L g l) ↔ i ∈ l ∨ ∃ h, is_seg h ∧ h ≠ g ∧ i ∈ L h.
Proof.
  intros Hg. rewrite elem_of_all_slots. split.
  - intros (h&Hh&Hin). destruct (decide (h = g)) as [->|Hne]; [rewrite upd_eq in Hin; auto|].
    rewrite upd_ne in Hin by done. eauto.
  - intros [Hin|(h&Hh&Hne&Hin)]; [exists g; by rewrite upd_eq|]. exists h. by rewrite upd_ne.
Qed.

Lemma all_slots_split L g l1 l2 i j : is_seg g → L g = l1 ++ i :: l2 →
  j ∈ all_slots L ↔ j = i ∨ j ∈ l1 ++ l2 ∨ ∃ h, is_seg h ∧ h ≠ g ∧ j ∈ L h.
Proof.
  intros Hg HL. rewrite elem_of_all_slots. split.
  - intros (h&Hh&Hin). destruct (decide (h = g)) as [->|Hne]; [|eauto 10].
    rewrite HL in Hin. set_solver.
  - intros [->|[Hin|(h&Hh&Hne&Hin)]]; [exists g|exists g|by exists h]; (split; [done|]); rewrite HL; set_solver.
Qed.

(** [unlink] then [push_front] to list [h]. *)
Lemma node_move s L g h i l1 l2 :
  slab_inv ∅ s L → is_seg g → is_seg h → L g = l1 ++ i :: l2 →
  ∃ s1 s2, unlink i s = Some s1 ∧ push_front h i s1 = Some s2 ∧
    slab_inv ∅ s2 (upd (upd L g (l1 ++ l2)) h (i :: upd L g (l1 ++ l2) h)) ∧
    resident s2 = resident s ∧ same_nodes s s2 ∧ same_nodes s s1 ∧
    slab_inv {[i]} s1 (upd L g (l1 ++ l2)).
Proof.
  intros Hi Hg Hh HL. destruct (unlink_slab _ _ _ g i l1 l2 Hi Hg HL) as (s1&Hu&Hi1&Hsn1&_).
  pose proof (si_sum _ _ _ Hi). pose proof (cost_at_nonneg _ _ _ i Hi).
  replace ({[i]} ∪ ∅) with ({[i]} : gset Z) in Hi1 by set_solver.
  destruct (push_front_slab _ s1 _ h i Hi1 Hh) as (s2&Hp&Hi2&Hsn2&_); [set_solver| |].
  { rewrite live_sum_upd, HL, (live_sum_same s s1), !lcost_app, !(same_nodes_lcost s s1), (same_nodes_cost s s1) by done.
    simpl. lia. }
  replace ({[i]} ∖ {[i]}) with (∅ : gset Z) in Hi2 by set_solver.
  pose proof (same_nodes_trans _ _ _ Hsn1 Hsn2) as Hsn.
  exists s1, s2. split_and!; try done. eapply resident_moved; [exact Hi|exact Hi2|done|].
  intros j. rewrite (all_slots_split L g l1 l2 i j Hg HL), all_slots_upd, elem_of_cons by done. split.
  - intros [[->|Hj]|(h'&Hh'&Hne&Hj)]; [auto| |].
    + destruct (decide (h = g)) as [->|Hne]; [rewrite upd_eq in Hj; auto|]. rewrite upd_ne in Hj by done. right; right; eauto.
    + destruct (decide (h' = g)) as [->|Hne']; [rewrite upd_eq in Hj; auto|]. rewrite upd_ne in Hj by done. right; right; eauto.
  - intros [->|[Hj|(h'&Hh'&Hne&Hj)]]; [auto| |].
    + destruct (decide (h = g)) as [->|Hne]; [rewrite upd_eq; auto|]. right. exists g. by rewrite upd_eq.
    + destruct (decide (h = h')) as [->|Hne']; [rewrite upd_ne by done; auto|]. right. exists h'. by rewrite upd_ne.
Qed.

(** [unlink] then [release]. *)
Lemma node_drop s L g i l1 l2 :
  slab_inv ∅ s L → is_seg g → L g = l1 ++ i :: l2 →
  ∃ s1 node h s2, unlink i s = Some s1 ∧ id i s1 = Some node ∧ vget (payload s1) i = Some (Some h) ∧
    vget (node_costs s1) i = Some (cost_at s i) ∧ release i s1 = Some (h, s2) ∧
    slab_inv ∅ s2 (upd L g (l1 ++ l2)) ∧ same_nodes s s1 ∧ node_costs s2 = node_costs s ∧
    id i s = Some node ∧
    resident s !! node = Some (h, cost_at s i) ∧ resident s2 = delete node (resident s) ∧
    length (links s2) = length (links s).
Proof.
  intros Hi Hg HL. assert (Hall : i ∈ all_slots L) by (eapply all_slots_split; eauto).
  destruct (slot_node s L i Hi Hall) as (node&h&Hn&_). pose proof Hn as (Hid&Hp&_).
  destruct (unlink_slab _ _ _ g i l1 l2 Hi Hg HL) as (s0&Hu0&Hi0&Hsn&_).
  destruct (remove_node _ _ _ _ _ _ _ Hi Hg HL Hid) as (s1&h'&s2&Hu&Hr&Hp'&Hi2&Hok&Ec&Elen&Hgen&Hsf).
  rewrite Hu in Hu0. injection Hu0 as <-. rewrite Hp' in Hp. injection Hp as <-.
  assert (Hres : resident s !! node = Some (h', cost_at s i)) by (apply (resident_lookup s L); [done|]; by exists i).
  exists s1, node, h', s2. split; [done|]. pose proof Hsn as (E1&E2&_&_&E5).
  split; [apply id_Some; rewrite E5; by apply id_Some|]. split; [by rewrite E1|].
  split; [rewrite E2; apply (cost_vget _ _ _ i Hi); by eapply slot_live|]. split_and!; try done.
  apply (resident_char s2 (upd L g (l1 ++ l2))); [done|]. intros n' h'' c.
  rewrite lookup_delete_Some, (resident_lookup s L _ _ _ Hi).
  assert (Hns : i ∉ all_slots (upd L g (l1 ++ l2))).
  { intros (h0&Hh0&Hin)%elem_of_all_slots. apply (si_in _ _ _ Hi2 h0 i Hh0) in Hin as [E _].
    rewrite Hsf in E. injection E as <-. by apply seg_not_free in Hh0. }
  split.
  - intros [Hne (j&Hj&Hnj)]. assert (j ≠ i) by (intros ->; destruct Hnj as (?&_); congruence).
    exists j. split; [|by eapply node_is_kept]. apply (all_slots_split L g l1 l2 i j Hg HL) in Hj.
    rewrite all_slots_upd by done. naive_solver.
  - intros (j&Hj&Hnj). assert (j ≠ i) by (by intros ->).
    apply (node_is_kept i j s s2) in Hnj; [|done..].
    assert (Hj' : j ∈ all_slots L).
    { apply (all_slots_split L g l1 l2 i j Hg HL). rewrite all_slots_upd in Hj by done. naive_solver. }
    split; [|by exists j]. intros ->. destruct Hnj as (Hidj&_).
    apply H. symmetry. by eapply (id_slot_inj s L); [|eapply slot_live|eapply slot_live| |].
Qed.

Lemma resident_size s L : slab_inv ∅ s L → size (resident s) = length (all_slots L).
Proof.
  intros Hi. rewrite (resident_all s L Hi), map_size_list_to_map by (by apply entries_NoDup). by rewrite length_fmap.
Qed.

(** With nothing to reuse, every slot is live. *)
Lemma full_size s L : slab_inv ∅ s L → free s = [] → length (links s) = size (resident s).
Proof.
  intros Hi Hf. rewrite (resident_size s L Hi), <- (live_slots_perm s L Hi). unfold live_slots.
  rewrite filter_forall, length_seqZ; [lia|].
  apply Forall_forall. intros i Hin E. assert (Hif : i ∈ free s) by (apply (si_free _ _ _ Hi); set_solver).
  rewrite Hf in Hif. set_solver.
Qed.

(** [alloc] then [push_front] to list [g]: a node under an id no other has. *)
Lemma node_admit s L g h c :
  slab_inv ∅ s L → is_seg g → 0 ≤ c → live_sum s L + c < U64 → Z.of_nat (size (resident s)) < NIL →
  ∃ i s1 s2 node, alloc h c s = Some (i, s1) ∧ push_front g i s1 = Some s2 ∧ id i s2 = Some node ∧
    slab_inv ∅ s2 (upd L g (i :: L g)) ∧
    resident s !! node = None ∧ resident s2 = <[node := (h, c)]> (resident s) ∧ cost_at s2 i = c ∧
    0 ≤ i ∧ i ∉ all_slots L ∧
    Z.of_nat (length (links s2)) = Z.max (Z.of_nat (length (links s))) (i + 1) ∧ id i s1 = Some node.
Proof.
  intros Hi Hg Hc Hlt Hsz. destruct (alloc_slab s L h c Hi Hc) as (i&s1&Ha&Hi1&Hni&Hp&Hcost&Hok&Hgen&Hlen&_).
  { intros Hf. by rewrite (full_size s L Hi Hf). }
  assert (HnL : i ∉ all_slots L) by (intros (h'&Hh'&Hin)%elem_of_all_slots; by apply (Hni h')).
  destruct (push_front_slab _ s1 _ g i Hi1 Hg) as (s2&Hpf&Hi2&Hsn&_); [set_solver| |].
  { rewrite Hcost. replace (live_sum s1 L) with (live_sum s L); [done|].
    unfold live_sum. f_equal; [f_equal|]; symmetry; eapply others_kept_lcost; try done; apply Hni; unfold is_seg; lia. }
  replace ({[i]} ∖ {[i]}) with (∅ : gset Z) in Hi2 by set_solver.
  assert (Hall : i ∈ all_slots (upd L g (i :: L g))) by (apply all_slots_upd; [done|]; left; by left).
  destruct (slot_node s2 _ i Hi2 Hall) as (node&h'&Hn&_&Hr). pose proof Hsn as (E1&E2&_&E4&E5).
  pose proof Hn as (Hid&Hp'&_). rewrite E1, Hp in Hp'. injection Hp' as <-.
  pose proof (slot_range _ _ _ i Hi2 ltac:(by eapply slot_live)) as Hir.
  assert (Hout : ∀ j h' c', j ∈ all_slots L → node_is s j node h' c' → False).
  { intros j h' c' Hj Hnj. assert (j ≠ i) by (by intros ->).
    apply (node_is_kept i j s s1), (node_is_same s1 s2) in Hnj; [|done..]. destruct Hnj as (Hidj&_).
    apply H. apply (id_slot_inj s2 _ j i node Hi2); try done; [|by eapply slot_live].
    eapply slot_live; [exact Hi2|]. apply all_slots_upd; [done|]. apply elem_of_all_slots in Hj as (g'&Hg'&Hj).
    destruct (decide (g' = g)) as [->|]; [left; by right|right; eauto]. }
  exists i, s1, s2, node. split_and!; try done; try lia.
  - destruct (resident s !! node) as [[h' c']|] eqn:E; [|done]. exfalso.
    apply (resident_lookup s L _ _ _ Hi) in E as (j&Hj&Hnj). by eapply Hout.
  - apply (resident_char s2 _ _ Hi2). intros n' h' c'.
    rewrite lookup_insert_Some, (resident_lookup s L _ _ _ Hi). split.
    + intros [[<- [= <- <-]]|[Hne (j&Hj&Hnj)]].
      * exists i. split; [done|]. split_and!; [done|by rewrite E1|]. by rewrite (same_nodes_cost s1 s2).
      * exists j. assert (j ≠ i) by (by intros ->). split.
        { apply all_slots_upd; [done|]. apply elem_of_all_slots in Hj as (g'&Hg'&Hj).
          destruct (decide (g' = g)) as [->|]; [left; by right|right; eauto]. }
        apply (node_is_same s1 s2); [done|]. by apply (node_is_kept i j s s1).
    + intros (j&Hj&Hnj). destruct (decide (j = i)) as [->|Hne].
      * left. destruct Hnj as (Hid'&Hp'&Hc'). rewrite (same_nodes_cost s1 s2), Hcost in Hc' by done.
        rewrite E1, Hp in Hp'. by simplify_eq.
      * apply (node_is_same s1 s2), (node_is_kept i j s s1) in Hnj; [|done..].
        assert (Hj' : j ∈ all_slots L).
        { apply all_slots_upd in Hj; [|done]. apply elem_of_all_slots. destruct Hj as [[->|Hj]%elem_of_cons|(g'&?&?&?)]; [done| |]; eauto. }
        right. split; [|eauto]. intros ->. by eapply Hout.
  - by rewrite (same_nodes_cost s1 s2).
  - apply id_Some. rewrite <- E5. by apply id_Some.
Qed.

Lemma node_cost s L g i c node h :
  slab_inv ∅ s L → is_seg g → i ∈ L g → 0 ≤ c → live_sum s L - cost_at s i + c < U64 →
  node_is s i node h (cost_at s i) →
  ∃ s', set_cost i c s = Some s' ∧ slab_inv ∅ s' L ∧ links s' = links s ∧ payload s' = payload s ∧
    resident s' = <[node := (h, c)]> (resident s).
Proof.
  intros Hi Hg Hin Hc Hlt (Hid&Hp&_).
  destruct (set_cost_slab _ _ _ g i c Hi Hg Hin Hc Hlt) as (s'&Hs&Hi'&El&Ep&Hca&_).
  exists s'. split_and!; try done. assert (Hall : i ∈ all_slots L) by (apply elem_of_all_slots; eauto).
  apply (resident_char s' L _ Hi'). intros n' h' c'. rewrite lookup_insert_Some, (resident_lookup s L _ _ _ Hi).
  assert (Hni : ∀ j, id j s' = id j s) by (intros j; unfold id; by rewrite El).
  split.
  - intros [[<- [= <- <-]]|[Hne (j&Hj&Hnj)]].
    + exists i. split; [done|]. split_and!; [by rewrite Hni|by rewrite Ep|]. by rewrite Hca, decide_True.
    + exists j. split; [done|]. destruct Hnj as (E1&E2&E3). unfold node_is. rewrite Hni, Ep, Hca, decide_False; [done|].
      intros ->. congruence.
  - intros (j&Hj&E1&E2&E3). rewrite Hni in E1. rewrite Ep in E2. rewrite Hca in E3. case_decide as Ej.
    + subst j. left. by simplify_eq.
    + right. split; [|by exists j]. intros ->. apply Ej.
      by eapply (id_slot_inj s L); [|eapply slot_live|eapply slot_live| |].
Qed.

(** A node moves to the front of its own list. *)
Lemma node_front s L g i l1 l2 :
  slab_inv ∅ s L → is_seg g → L g = l1 ++ i :: l2 →
  ∃ s', move_front g i s = Some s' ∧ slab_inv ∅ s' (upd L g (i :: l1 ++ l2)) ∧
    resident s' = resident s ∧ same_nodes s s'.
Proof.
  intros Hi Hg HL. destruct (move_front_slab s L g i l1 l2 Hi Hg HL) as (s'&Hm&Hi'&Hsn&_).
  exists s'. split_and!; try done. eapply resident_moved; [exact Hi|exact Hi'|done|].
  intros j. rewrite (all_slots_split L g l1 l2 i j Hg HL), all_slots_upd, elem_of_cons by done. tauto.
Qed.

(** A live id resolves to its slot, any other to none. *)
Lemma resolve_live s L node h c :
  slab_inv ∅ s L → 0 ≤ node → resident s !! node = Some (h, c) →
  ∃ i g l1 l2, resolve node s = Some i ∧ is_seg g ∧ L g = l1 ++ i :: l2 ∧ seg_of s i = Some g ∧ node_is s i node h c.
Proof.
  intros Hi Hn (i&Hin&Hni)%(resident_lookup s L _ _ _ Hi). pose proof Hin as (g&Hg&Hig)%elem_of_all_slots.
  pose proof Hig as (l1&l2&E)%list_elem_of_split. exists i, g, l1, l2. pose proof Hni as (Hid&_).
  split_and!; try done; [apply (resolve_spec s L _ _ Hi Hn); eauto|by apply (si_in _ _ _ Hi g i Hg)].
Qed.

Lemma resolve_stale s L node :
  slab_inv ∅ s L → 0 ≤ node → resident s !! node = None → resolve node s = None.
Proof.
  intros Hi Hn Hr. destruct (resolve node s) as [i|] eqn:E; [|done].
  apply (resolve_spec s L _ _ Hi Hn) in E as [Hid (g&Hg&Hin)].
  assert (Hall : i ∈ all_slots L) by (apply elem_of_all_slots; eauto).
  destruct (slot_node s L i Hi Hall) as (n'&h&Hni&_). pose proof Hni as (Hid'&_). rewrite Hid in Hid'. injection Hid' as <-.
  assert (resident s !! node = Some (h, cost_at s i)) by (apply (resident_lookup s L); eauto). congruence.
Qed.

Lemma tail_slot X s L g l :
  slab_inv X s L → is_seg g → vget (lists s) g = Some l →
  (sl_tail l = NIL ∧ L g = []) ∨ (sl_tail l ≠ NIL ∧ ∃ l1, L g = l1 ++ [sl_tail l]).
Proof.
  intros Hi Hg Hl. destruct (si_list _ _ _ Hi g Hg) as (l'&Hl'&(Hnd&_&Ht&_)&_). rewrite Hl in Hl'. injection Hl' as <-.
  destruct (decide (sl_tail l = NIL)) as [E|E].
  - left. split; [done|]. rewrite (proj2 (onil_None _) E) in Ht. symmetry in Ht. by apply last_None in Ht.
  - right. split; [done|]. assert (Ho : onil (sl_tail l) = Some (sl_tail l)) by (by apply onil_Some).
    rewrite Ho in Ht. symmetry in Ht. by apply last_Some in Ht.
Qed.

Lemma list_cost X s L g l : slab_inv X s L → is_seg g → vget (lists s) g = Some l → sl_cost l = lcost s (L g).
Proof. intros Hi Hg Hl. destruct (si_list _ _ _ Hi g Hg) as (l'&Hl'&_&Hc). rewrite Hl in Hl'. by injection Hl' as <-. Qed.

(** No list is longer than the slab. *)
Lemma seg_length s L g : slab_inv ∅ s L → is_seg g → (length (L g) ≤ length (links s))%nat.
Proof.
  intros Hi Hg. pose proof (live_slots_perm s L Hi) as Hp%Permutation_length. unfold all_slots in Hp.
  rewrite !length_app in Hp.
  assert (length (live_slots s) ≤ length (links s))%nat.
  { unfold live_slots. etrans; [apply length_filter|]. rewrite length_seqZ. lia. }
  apply seg_cases in Hg as [->|[->| ->]]; lia.
Qed.

Lemma live_payload X s L i g : slab_inv X s L → is_seg g → i ∈ L g → ∃ h, vget (payload s) i = Some (Some h).
Proof.
  intros Hi Hg [E ?]%(si_in _ _ _ Hi g i Hg). apply (si_live _ _ _ Hi i); [by eexists|].
  rewrite (si_free _ _ _ Hi). pose proof (seg_not_free _ Hg). naive_solver.
Qed.

Lemma resident_ids s L : slab_inv ∅ s L → map_Forall (λ node _, 0 ≤ node < NO_NODE) (resident s).
Proof.
  intros Hi node [h c] (i&Hin&Hid&_)%(resident_lookup s L _ _ _ Hi).
  destruct (slot_node s L i Hi Hin) as (n'&h'&(Hid'&_)&_&Hr). rewrite Hid in Hid'. injection Hid' as <-.
  assert (node ≠ NO_NODE); [|unfold NO_NODE in *; u64_lia]. intros ->.
  apply id_Some in Hid as (gen&Hge&E). pose proof (si_gen _ _ _ Hi i gen Hge) as Hgu.
  pose proof (slot_range _ _ _ i Hi (slot_live s L i Hi Hin)) as Hir.
  assert (Es : split NO_NODE = (gen, i)) by (rewrite E; apply split_join; [done|unfold is_u32, NIL, u32_max in *; lia]).
  vm_compute in Es. injection Es as _ <-. unfold NIL, u32_max in Hir. vm_compute in Hir. naive_solver.
Qed.
End Nodes.
