(* ===== verification/ReadRing.v ===== *)
(** * The lossy read ring of a shard ([hpolicy::ReadRing])

    Hits push node ids while they hold the shard's read lock, so several pushes
    interleave; the shard's writer drains the ring with the write lock held, so no
    push is half done then.  [pusher_step] is one atomic access of [push]; the pushes
    of many threads are an interleaving of such steps. *)

From stdpp Require Import relations.
From S2P Require Import Prelude Slab.

Definition RING : Z := 256.

Record ReadRing := mk_ring { slots : list Z; cursor : Z }.

Definition ring_new : ReadRing := mk_ring (replicate (Z.to_nat RING) 0) 0.

(** A call to [push] between two of its atomic accesses. *)
Inductive Pusher :=
  | P_start (node : Z)
  | P_claim (node : Z)
  | P_store (node i : Z)
  | P_done (node : Z) (ok : bool).

Definition pusher_step (p : Pusher) (r : ReadRing) : option (Pusher * ReadRing) :=
  match p with
  | P_start node =>
      if node =? NO_NODE then Some (P_done node true, r)
      else if RING <=? cursor r then Some (P_done node false, r)
      else Some (P_claim node, r)
  | P_claim node =>
      let i := cursor r in
      let r' := mk_ring (slots r) (cursor r +w 1) in
      if i <? RING then Some (P_store node i, r') else Some (P_done node false, r')
  | P_store node i =>
      ss ← vset (slots r) i (node +w 1);
      Some (P_done node true, mk_ring ss (cursor r))
  | P_done _ _ => None
  end.

(** A push that nothing interrupts. *)
Definition push (node : Z) (r : ReadRing) : option (bool * ReadRing) :=
  if node =? NO_NODE then Some (true, r)
  else if RING <=? cursor r then Some (false, r)
  else
    let i := cursor r in
    let r' := mk_ring (slots r) (cursor r +w 1) in
    if i <? RING then
      ss ← vset (slots r') i (node +w 1);
      Some (true, mk_ring ss (cursor r'))
    else Some (false, r').

(** The nodes handed to [f], in order, and the ring after. *)
Definition drain (r : ReadRing) : list Z * ReadRing :=
  let n := Z.to_nat (Z.min (cursor r) RING) in
  (omap (λ v, if v =? 0 then None else Some (v -w 1)) (take n (slots r)),
   mk_ring (replicate (length (take n (slots r))) 0 ++ drop n (slots r)) 0).

Inductive ring_step : list Pusher * ReadRing → list Pusher * ReadRing → Prop :=
  | ring_step_intro ps k p r p' r' :
      ps !! k = Some p → pusher_step p r = Some (p', r') → ring_step (ps, r) (<[k:=p']> ps, r').

(** [push] is the three steps of one pusher. *)
Lemma push_is_steps node r ok r' :
  push node r = Some (ok, r') → rtc ring_step ([P_start node], r) ([P_done node ok], r').
Proof.
  unfold push. intros H.
  assert (Hs : ∀ p p' r1 r2, pusher_step p r1 = Some (p', r2) → ring_step ([p], r1) ([p'], r2))
    by (intros p p' r1 r2 E; by apply (ring_step_intro [p] 0 p r1 p' r2)).
  destruct (node =? NO_NODE) eqn:E1; [simplify_eq; apply rtc_once, Hs; simpl; by rewrite E1|].
  destruct (RING <=? cursor r) eqn:E2; [simplify_eq; apply rtc_once, Hs; simpl; by rewrite E1, E2|].
  eapply rtc_l; [apply Hs; simpl; by rewrite E1, E2|].
  destruct (cursor r <? RING) eqn:E3; [|simplify_eq; apply rtc_once, Hs; simpl; by rewrite E3].
  eapply rtc_l; [apply Hs; simpl; by rewrite E3|].
  apply bind_Some in H as (ss&Hss&[= <- <-]). apply rtc_once, Hs. simpl in *. by rewrite Hss.
Qed.

(** ** Ownership of the claimed slots *)

Definition claimed (p : Pusher) : Prop := match p with P_start _ | P_claim _ => False | _ => True end.
#[global] Instance claimed_dec p : Decision (claimed p).
Proof. destruct p; simpl; apply _. Defined.

Definition recorded (p : Pusher) : option Z :=
  match p with P_done node true => if node =? NO_NODE then None else Some node | _ => None end.

Definition node_of (p : Pusher) : Z :=
  match p with P_start n | P_claim n | P_store n _ | P_done n _ => n end.

(** What slot [i] holds, given the pusher that claimed it. *)
Definition slot_matches (p : Pusher) (i : nat) (v : Z) : Prop :=
  (∃ n, p = P_store n (Z.of_nat i) ∧ n ≠ NO_NODE ∧ v = 0) ∨
  (∃ n, p = P_done n true ∧ n ≠ NO_NODE ∧ v = n + 1).

(** [own !! i] is the pusher that claimed slot [i]. *)
Record ring_inv (own : list nat) (ps : list Pusher) (r : ReadRing) : Prop := {
  ri_len : length (slots r) = Z.to_nat RING;
  ri_own_len : Z.of_nat (length own) = Z.min (cursor r) RING;
  ri_cursor : 0 ≤ cursor r ≤ Z.of_nat (length (filter claimed ps));
  ri_nodup : NoDup own;
  ri_own i k : own !! i = Some k → ∃ p v, ps !! k = Some p ∧ slots r !! i = Some v ∧ slot_matches p i v;
  ri_store k n i : ps !! k = Some (P_store n i) → 0 ≤ i ∧ own !! Z.to_nat i = Some k;
  ri_done k p : ps !! k = Some p → is_Some (recorded p) → k ∈ own;
  ri_false k n : ps !! k = Some (P_done n false) → RING ≤ cursor r;
  ri_claim k n : ps !! k = Some (P_claim n) → n ≠ NO_NODE;
  ri_zero i v : (length own ≤ i)%nat → slots r !! i = Some v → v = 0;
  ri_nodes k p : ps !! k = Some p → is_u64 (node_of p);
}.

Lemma insert_split {A} (l : list A) k x y :
  l !! k = Some x → ∃ l1 l2, l = l1 ++ x :: l2 ∧ length l1 = k ∧ <[k:=y]> l = l1 ++ y :: l2.
Proof.
  intros Hk. exists (take k l), (drop (S k) l). pose proof (lookup_lt_Some _ _ _ Hk).
  split; [by rewrite take_drop_middle|]. split; [rewrite length_take; lia|]. by apply insert_take_drop.
Qed.

Lemma claimed_insert ps k p p' :
  ps !! k = Some p → ¬ claimed p →
  length (filter claimed (<[k:=p']> ps)) = ((if decide (claimed p') then 1 else 0) + length (filter claimed ps))%nat.
Proof.
  intros Hk Hc. destruct (insert_split ps k p p' Hk) as (l1&l2&->&_&->).
  rewrite !filter_app, !length_app, !filter_cons. rewrite (decide_False (P:=claimed p)) by done.
  destruct (decide (claimed p')); simpl; lia.
Qed.

Lemma claimed_kept ps k p p' :
  ps !! k = Some p → claimed p → claimed p' →
  length (filter claimed (<[k:=p']> ps)) = length (filter claimed ps).
Proof.
  intros Hk Hc Hc'. destruct (insert_split ps k p p' Hk) as (l1&l2&->&_&->).
  rewrite !filter_app, !length_app, !filter_cons. rewrite !decide_True by done. simpl. lia.
Qed.

Lemma own_claimed own ps r i k p : ring_inv own ps r → own !! i = Some k → ps !! k = Some p → claimed p.
Proof.
  intros Hi Ho Hp. destruct (ri_own _ _ _ Hi i k Ho) as (p0&v&Hp0&_&Hm). rewrite Hp in Hp0. injection Hp0 as <-.
  by destruct Hm as [(n&->&_)|(n&->&_)].
Qed.

(** A step of a pusher without a slot that claims none. *)
Lemma inv_quiet own ps r k p p' c' :
  ring_inv own ps r → ps !! k = Some p → ¬ claimed p →
  (c' = cursor r ∨ (c' = cursor r + 1 ∧ RING ≤ cursor r ∧ claimed p')) →
  recorded p' = None → (∀ n i, p' ≠ P_store n i) → (∀ n, p' = P_done n false → RING ≤ cursor r) →
  (∀ n, p' = P_claim n → n ≠ NO_NODE) → node_of p' = node_of p →
  ring_inv own (<[k:=p']> ps) (mk_ring (slots r) c').
Proof.
  intros Hi Hk Hnc Hc Hrec Hst Hfalse Hclaim Hnode.
  assert (Hko : ∀ i, own !! i ≠ Some k) by (intros i Ho; by eapply Hnc, own_claimed).
  pose proof (ri_cursor _ _ _ Hi). pose proof (claimed_insert ps k p p' Hk Hnc) as Hcnt.
  assert (Hps : ∀ j q, <[k:=p']> ps !! j = Some q → (j = k ∧ q = p') ∨ (j ≠ k ∧ ps !! j = Some q))
    by (intros j q [(<-&->&_)|?]%list_lookup_insert_Some; naive_solver).
  split; simpl.
  - apply Hi.
  - rewrite (ri_own_len _ _ _ Hi). lia.
  - rewrite Hcnt. destruct (decide (claimed p')); [lia|]. destruct Hc as [->|(_&_&?)]; [lia|done].
  - apply Hi.
  - intros i j Ho. destruct (ri_own _ _ _ Hi i j Ho) as (q&v&Hq&Hv&Hm). exists q, v. split; [|done].
    rewrite list_lookup_insert_ne; [done|]. intros ->. by eapply Hko.
  - intros j n i [[-> E]|[_ E]]%Hps; [by destruct (Hst n i)|by eapply ri_store].
  - intros j q [[-> ->]|[_ E]]%Hps Hr; [rewrite Hrec in Hr; by destruct Hr|by eapply ri_done].
  - intros j n [[-> E]|[_ E]]%Hps; [symmetry in E; pose proof (Hfalse n E); lia|].
    pose proof (ri_false _ _ _ Hi j n E). lia.
  - intros j n [[-> E]|[_ E]]%Hps; [by apply Hclaim|by eapply ri_claim].
  - apply Hi.
  - intros j q [[-> ->]|[_ E]]%Hps; [rewrite Hnode; apply (ri_nodes _ _ _ Hi _ _ Hk)|apply (ri_nodes _ _ _ Hi _ _ E)].
Qed.

(** [fetch_add] gives the pusher the next slot. *)
Lemma inv_claim own ps r k n :
  ring_inv own ps r → ps !! k = Some (P_claim n) → cursor r < RING →
  ring_inv (own ++ [k]) (<[k:=P_store n (cursor r)]> ps) (mk_ring (slots r) (cursor r + 1)).
Proof.
  intros Hi Hk Hlt. set (p' := P_store n (cursor r)).
  assert (Hko : k ∉ own).
  { intros [i Ho]%list_elem_of_lookup. by apply (own_claimed _ _ _ i k (P_claim n)) in Hi. }
  pose proof (ri_cursor _ _ _ Hi) as Hc. pose proof (claimed_insert ps k _ p' Hk (λ H, H)) as Hcnt. simpl in Hcnt.
  pose proof (ri_own_len _ _ _ Hi) as Hol. pose proof (ri_len _ _ _ Hi) as Hlen.
  assert (Hps : ∀ j q, <[k:=p']> ps !! j = Some q → (j = k ∧ q = p') ∨ (j ≠ k ∧ ps !! j = Some q))
    by (intros j q [(<-&->&_)|?]%list_lookup_insert_Some; naive_solver).
  split; simpl.
  - done.
  - rewrite length_app. simpl. lia.
  - rewrite Hcnt. lia.
  - apply NoDup_app. split_and!; [apply Hi|set_solver|apply NoDup_singleton].
  - intros i j [Ho|[Hge Ho]]%lookup_app_Some.
    + destruct (ri_own _ _ _ Hi i j Ho) as (q&v&Hq&Hv&Hm). exists q, v. split; [|done].
      rewrite list_lookup_insert_ne; [done|]. intros ->. apply Hko. by eapply list_elem_of_lookup_2.
    + apply list_lookup_singleton_Some in Ho as [? <-]. assert (i = length own) as -> by lia.
      destruct (lookup_lt_is_Some_2 (slots r) (length own)) as [v Hv]; [rewrite Hlen; lia|].
      exists p', v. split; [apply list_lookup_insert_eq; by eapply lookup_lt_Some|]. split; [done|].
      left. exists n. split; [unfold p'; f_equal; lia|]. split; [by eapply ri_claim|]. by eapply (ri_zero _ _ _ Hi).
  - intros j m i [[-> [= -> ->]]|[_ E]]%Hps.
    + split; [lia|]. apply lookup_app_Some. right. replace (Z.to_nat (cursor r)) with (length own) by lia.
      by rewrite Nat.sub_diag.
    + destruct (ri_store _ _ _ Hi j m i E) as [? Ho]. split; [done|]. by apply lookup_app_l_Some.
  - intros j q [[-> ->]|[_ E]]%Hps Hr; [by destruct Hr|]. apply elem_of_app. left. by eapply ri_done.
  - intros j m [[-> ?]|[_ E]]%Hps; [done|]. pose proof (ri_false _ _ _ Hi j m E). lia.
  - intros j m [[-> ?]|[_ E]]%Hps; [done|]. by eapply ri_claim.
  - intros i v Hge Hv. rewrite length_app in Hge. simpl in Hge. eapply (ri_zero _ _ _ Hi i); [lia|done].
  - intros j q [[-> ->]|[_ E]]%Hps; [simpl; by apply (ri_nodes _ _ _ Hi k (P_claim n))|apply (ri_nodes _ _ _ Hi _ _ E)].
Qed.

(** The store publishes the node in the claimed slot. *)
Lemma inv_store own ps r k n i :
  ring_inv own ps r → ps !! k = Some (P_store n i) →
  ∃ ss, vset (slots r) i (n +w 1) = Some ss ∧
    ring_inv own (<[k:=P_done n true]> ps) (mk_ring ss (cursor r)).
Proof.
  intros Hi Hk. set (p' := P_done n true). destruct (ri_store _ _ _ Hi k n i Hk) as [Hi0 Ho].
  destruct (ri_own _ _ _ Hi _ _ Ho) as (q&v&Hq&Hv&Hm). rewrite Hk in Hq. injection Hq as <-.
  destruct Hm as [(n'&[= -> E]&Hn&->)|(?&?&_)]; [|done]. rewrite Z2Nat.id in E by done.
  assert (Hn1 : n' +w 1 = n' + 1).
  { pose proof (ri_nodes _ _ _ Hi k _ Hk). simpl in *. apply u64_add_small; [u64_lia|lia|].
    unfold NO_NODE in Hn. u64_lia. }
  exists (<[Z.to_nat i:=n'+1]> (slots r)). split.
  { unfold vset, vget. destruct (Z.leb_spec 0 i); [|lia]. by rewrite Hv, Hn1. }
  assert (Hps : ∀ j q, <[k:=p']> ps !! j = Some q → (j = k ∧ q = p') ∨ (j ≠ k ∧ ps !! j = Some q))
    by (intros j q [(<-&->&_)|?]%list_lookup_insert_Some; naive_solver).
  split; simpl.
  - rewrite length_insert. apply Hi.
  - apply Hi.
  - rewrite (claimed_kept ps k (P_store n' i)) by done. apply Hi.
  - apply Hi.
  - intros i' j Hoj. destruct (decide (j = k)) as [->|Hne].
    + assert (i' = Z.to_nat i) as -> by (eapply NoDup_lookup; [apply Hi|done|done]).
      exists p', (n' + 1). split; [apply list_lookup_insert_eq; by eapply lookup_lt_Some|].
      split; [apply list_lookup_insert_eq; by eapply lookup_lt_Some|]. right. by exists n'.
    + destruct (ri_own _ _ _ Hi i' j Hoj) as (q&v&Hq&Hv'&Hm). exists q, v.
      rewrite !list_lookup_insert_ne; [done| |done]. intros <-. congruence.
  - intros j m i' [[-> ?]|[_ E']]%Hps; [done|]. by eapply ri_store.
  - intros j q [[-> ->]|[_ E']]%Hps Hr; [by eapply list_elem_of_lookup_2|by eapply ri_done].
  - intros j m [[-> ?]|[_ E']]%Hps; [done|]. by eapply ri_false.
  - intros j m [[-> ?]|[_ E']]%Hps; [done|]. by eapply ri_claim.
  - intros i' v Hge Hv'. rewrite list_lookup_insert_ne in Hv'; [by eapply (ri_zero _ _ _ Hi)|].
    apply lookup_lt_Some in Ho. lia.
  - intros j q [[-> ->]|[_ E']]%Hps; [by apply (ri_nodes _ _ _ Hi k _ Hk)|apply (ri_nodes _ _ _ Hi _ _ E')].
Qed.

Lemma ring_inv_step own ps r ps' r' :
  ring_inv own ps r → Z.of_nat (length ps) < u64_max → ring_step (ps, r) (ps', r') →
  ∃ own', ring_inv own' ps' r'.
Proof.
  intros Hi Hlt Hs. inversion Hs as [? k p ? p' ? Hk Hst]; subst.
  pose proof (ri_cursor _ _ _ Hi) as Hc.
  assert (Hf : cursor r ≤ Z.of_nat (length ps)) by (etrans; [apply Hc|]; apply inj_le, length_filter).
  assert (Hc1 : cursor r +w 1 = cursor r + 1) by (apply u64_add_small; unfold u64_max in *; lia). clear Hc Hf.
  destruct r as [ss c]. simpl in *. destruct p as [n|n|n i|n ok]; simpl in Hst; [| | |done].
  - destruct (Z.eqb_spec n NO_NODE) as [->|Hn]; [simplify_eq|destruct (Z.leb_spec RING c); simplify_eq];
      exists own; eapply (inv_quiet own ps (mk_ring ss c)); eauto; try done; simpl; naive_solver.
  - rewrite Hc1 in Hst. destruct (Z.ltb_spec c RING); simplify_eq.
    + exists (own ++ [k]). by apply (inv_claim own ps (mk_ring ss c)).
    + exists own. eapply (inv_quiet own ps (mk_ring ss c)); eauto; try done; simpl; naive_solver.
  - destruct (inv_store own ps _ k n i Hi Hk) as (ss'&E&Hi'). simpl in E. rewrite E in Hst. simpl in Hst.
    simplify_eq. by exists own.
Qed.

Lemma ring_inv_start (nodes : list Z) : Forall is_u64 nodes → ring_inv [] (P_start <$> nodes) ring_new.
Proof.
  intros Hn. split; unfold ring_new; cbn [slots cursor]; try done.
  - split; [done|]. lia.
  - constructor.
  - intros k n i (?&?&_)%list_lookup_fmap_Some. done.
  - intros k p (?&->&_)%list_lookup_fmap_Some [? ?]. done.
  - intros k n (?&?&_)%list_lookup_fmap_Some. done.
  - intros k n (?&?&_)%list_lookup_fmap_Some. done.
  - intros i v _ [-> _]%lookup_replicate. done.
  - intros k p (n&->&Hl)%list_lookup_fmap_Some. simpl. by eapply Forall_lookup_1 in Hn.
Qed.

Lemma ring_inv_steps own ps r ps' r' :
  ring_inv own ps r → Z.of_nat (length ps) < u64_max → rtc ring_step (ps, r) (ps', r') →
  ∃ own', ring_inv own' ps' r'.
Proof.
  intros Hi Hlt Hs. remember (ps, r) as x eqn:Ex. remember (ps', r') as y eqn:Ey.
  revert own ps r Ex Hi Hlt. induction Hs as [x|x [ps1 r1] y Hs1 _ IH]; intros own ps r Ex Hi Hlt.
  - subst. injection Ex as -> ->. eauto.
  - subst. destruct (ring_inv_step _ _ _ _ _ Hi Hlt Hs1) as [own1 Hi1]. eapply (IH eq_refl own1 ps1 r1); try done.
    inversion Hs1; subst. by rewrite length_insert.
Qed.

(** ** What a drain hands over *)

Section Indices.
Context {A B : Type} (f : A → option B).

Definition at_index (l : list A) (k : nat) : option B := l !! k ≫= f.

Lemma omap_indices (l : list A) : omap f l = omap (at_index l) (seq 0 (length l)).
Proof.
  induction l as [|x l IH] using rev_ind; [done|].
  rewrite length_app, seq_app, !omap_app. simpl. f_equal.
  - rewrite IH. apply list_omap_ext, Forall_Forall2_diag, Forall_forall. intros k [_ Hk]%elem_of_seq.
    unfold at_index. by rewrite lookup_app_l.
  - unfold at_index. rewrite list_lookup_middle by done. done.
Qed.

Lemma omap_some_only (g : nat → option B) (l : list nat) :
  omap g l = omap g (filter (λ k, is_Some (g k)) l).
Proof.
  induction l as [|k l IH]; [done|]. rewrite filter_cons. simpl.
  destruct (decide (is_Some (g k))) as [[b Hb]|Hn]; simpl.
  - rewrite Hb. by f_equal.
  - destruct (g k); [exfalso; eauto|done].
Qed.

(** The values at the indices of [own], when [own] lists those that have one. *)
Lemma omap_own (l : list A) (own : list nat) :
  NoDup own → (∀ k, k ∈ own ↔ is_Some (at_index l k)) → omap (at_index l) own ≡ₚ omap f l.
Proof.
  intros Hnd Hown. rewrite (omap_indices l), (omap_some_only (at_index l) (seq _ _)).
  apply omap_Permutation, NoDup_Permutation; [done|by apply NoDup_filter, NoDup_seq|].
  intros k. rewrite list_elem_of_filter, Hown, elem_of_seq. split; [|tauto]. intros Hs. split; [done|].
  split; [lia|]. destruct Hs as [b (x&Hx&_)%bind_Some]. apply lookup_lt_Some in Hx. lia.
Qed.
End Indices.

Definition finished (ps : list Pusher) : Prop := Forall (λ p, ∃ n ok, p = P_done n ok) ps.

(** Reading the slots back gives the nodes stored in them. *)
Lemma decode_slots (g : nat → option Z) (own : list nat) :
  Forall (λ k, ∃ n, g k = Some n ∧ 0 ≤ n < NO_NODE) own →
  omap (λ v, if v =? 0 then None else Some (v -w 1)) ((λ k, default 0 (g k) + 1) <$> own) = omap g own.
Proof.
  induction 1 as [|k own (n&Hk&Hu) _ IH]; [done|]. simpl. rewrite Hk. simpl.
  destruct (Z.eqb_spec (n + 1) 0); [lia|]. rewrite u64_sub_small by (unfold NO_NODE in Hu; u64_lia).
  simpl. f_equal; [lia|]. exact IH.
Qed.

Lemma own_recorded own ps r i k :
  ring_inv own ps r → finished ps → own !! i = Some k →
  ∃ n, at_index recorded ps k = Some n ∧ slots r !! i = Some (n + 1) ∧ 0 ≤ n < NO_NODE.
Proof.
  intros Hi Hfin Ho. destruct (ri_own _ _ _ Hi i k Ho) as (p&v&Hp&Hv&Hm).
  pose proof (ri_nodes _ _ _ Hi _ _ Hp) as Hu. destruct (Forall_lookup_1 _ _ _ _ Hfin Hp) as (n&ok&->).
  destruct Hm as [(?&?&_)|(n'&[= -> ->]&Hn&->)]; [done|]. exists n'. unfold at_index. rewrite Hp. simpl.
  destruct (Z.eqb_spec n' NO_NODE); [done|]. split_and!; try done; simpl in Hu; unfold NO_NODE in *; u64_lia.
Qed.

Lemma drained own ps r :
  ring_inv own ps r → finished ps → drain r = (omap (at_index recorded ps) own, ring_new).
Proof.
  intros Hi Hfin. pose proof (ri_own_len _ _ _ Hi) as Hol. pose proof (ri_len _ _ _ Hi) as Hlen.
  unfold drain. replace (Z.to_nat (Z.min (cursor r) RING)) with (length own) by lia.
  assert (Htake : take (length own) (slots r) = (λ k, default 0 (at_index recorded ps k) + 1) <$> own).
  { apply list_eq. intros i. rewrite lookup_take, list_lookup_fmap. case_decide as Hlt.
    - destruct (lookup_lt_is_Some_2 own i Hlt) as [k Hk].
      destruct (own_recorded _ _ _ i k Hi Hfin Hk) as (n&Hr&->&_). rewrite Hk. simpl. by rewrite Hr.
    - by rewrite lookup_ge_None_2 by lia. }
  f_equal.
  - rewrite Htake. apply decode_slots. apply Forall_lookup. intros i k Hk.
    destruct (own_recorded _ _ _ i k Hi Hfin Hk) as (n&?&_&?). eauto.
  - unfold ring_new. f_equal. symmetry. apply replicate_as_Forall_2.
    + rewrite length_app, length_replicate, length_take, length_drop. lia.
    + apply Forall_app. split; [apply Forall_replicate_eq|]. apply Forall_lookup. intros i v Hv.
      rewrite lookup_drop in Hv. symmetry. eapply (ri_zero _ _ _ Hi); [|exact Hv]. lia.
Qed.

Lemma own_is_recorded own ps r k : ring_inv own ps r → finished ps → k ∈ own ↔ is_Some (at_index recorded ps k).
Proof.
  intros Hi Hfin. split.
  - intros [i Ho]%list_elem_of_lookup. destruct (own_recorded _ _ _ i k Hi Hfin Ho) as (n&->&_). by eexists.
  - intros [n (p&Hp&Hr)%bind_Some]. eapply (ri_done _ _ _ Hi); [done|by eexists].
Qed.

(** however the pushes of any number of hits interleave, once they have returned
    a drain hands over, each exactly once, the nodes of the pushes that returned
    [true] (the pushes of [NO_NODE] apart, which record nothing), and leaves an empty
    ring; a push returns [false] only when the ring took [RING] reads. *)
Theorem readring_keeps_reads (nodes : list Z) ps r :
  Forall is_u64 nodes → Z.of_nat (length nodes) < u64_max →
  rtc ring_step (P_start <$> nodes, ring_new) (ps, r) → finished ps →
  ∃ out, drain r = (out, ring_new) ∧ out ≡ₚ omap recorded ps ∧
    (Exists (λ p, ∃ n, p = P_done n false) ps → Z.of_nat (length out) = RING).
Proof.
  intros Hn Hlt Hs Hfin. destruct (ring_inv_steps _ _ _ _ _ (ring_inv_start nodes Hn)
    ltac:(by rewrite length_fmap) Hs) as [own Hi].
  pose proof (own_is_recorded own ps r) as Hown.
  exists (omap (at_index recorded ps) own). split; [by apply drained|]. split.
  - apply omap_own; [apply Hi|]. intros k. by apply Hown.
  - intros (p&Hp&n&->)%Exists_exists. apply list_elem_of_lookup in Hp as [k Hk].
    pose proof (ri_false _ _ _ Hi k n Hk). rewrite <- (Z.min_r (cursor r) RING), <- (ri_own_len _ _ _ Hi) by done.
    f_equal. assert (Hall : Forall (λ k, is_Some (at_index recorded ps k)) own)
      by (apply Forall_forall; intros j Hj; by apply Hown).
    clear -Hall. induction Hall as [|j own [b Hb] _ IH]; [done|]. simpl. rewrite Hb. simpl. by f_equal.
Qed.

Lemma readring_keeps_reads_witness :
  ∃ out, drain (mk_ring (<[0%nat:=8]> (<[1%nat:=6]> (slots ring_new))) 2) = (out, ring_new) ∧ out ≡ₚ [5; 7].
Proof.
  destruct (readring_keeps_reads [5; 7] [P_done 5 true; P_done 7 true]
    (mk_ring (<[0%nat:=8]> (<[1%nat:=6]> (slots ring_new))) 2)) as (out&Hd&Hp&_).
  - repeat constructor; vm_compute; congruence.
  - vm_compute. reflexivity.
  - eapply rtc_l; [apply (ring_step_intro _ 0 (P_start 5)); reflexivity|].
    eapply rtc_l; [apply (ring_step_intro _ 1 (P_start 7)); reflexivity|].
    eapply rtc_l; [apply (ring_step_intro _ 1 (P_claim 7)); reflexivity|].
    eapply rtc_l; [apply (ring_step_intro _ 0 (P_claim 5)); reflexivity|].
    eapply rtc_l; [apply (ring_step_intro _ 0 (P_store 5 1)); reflexivity|].
    eapply rtc_l; [apply (ring_step_intro _ 1 (P_store 7 0)); reflexivity|].
    vm_compute. apply rtc_refl.
  - repeat constructor; eauto.
  - exists out. split; [exact Hd|exact Hp].
Defined.
