(* ===== verification/ShardPolicy.v ===== *)
(** * The policies a shard owns: the [hpolicy::ShardPolicy] trait

    A shard names its entries to the policy by node id.  [ShardPolicyLaws] is what the
    shard relies on: which nodes the policy holds ([nodes], id to hash and cost) and
    what every operation does to them. *)

From S2P Require Import Prelude Slab Nodes ReadRing.

(** An entry the policy wants removed: its hash and its node id. *)
Definition Victim : Type := Z * Z.

(** [None] is a panic; the list is what the operation pushes to [out]. *)
Class ShardPolicy (S : Type) := {
  sp_admit (hash cost : Z) : S → option (Z * list Victim * S);
  sp_update (node cost : Z) : S → option S;
  sp_remove (node : Z) : S → option S;
  sp_evict (cost_to_free : Z) : S → option (list Victim * S);
  sp_apply_reads (ring : ReadRing) : S → option (ReadRing * S);
  sp_touch (node : Z) : S → option S;
  sp_apply_read (node : Z) : S → option S;
  sp_clear : S → S;
}.

(** Distinct nodes of [m], named with their hashes. *)
Definition victims_ok (m : gmap Z (Z * Z)) (out : list Victim) : Prop :=
  NoDup out.*2 ∧ Forall (λ v, ∃ c, m !! v.2 = Some (v.1, c)) out.

Definition drop_nodes (out : list Victim) (m : gmap Z (Z * Z)) : gmap Z (Z * Z) :=
  foldl (λ m v, delete v.2 m) m out.

Definition node_sum (m : gmap Z (Z * Z)) : Z := wsum snd m.

Definition is_node (node : Z) : Prop := 0 ≤ node < NO_NODE.

Class ShardPolicyLaws (S : Type) `{!ShardPolicy S} := {
  shard_wf : S → Prop;
  nodes : S → gmap Z (Z * Z);
  nodes_fit s : shard_wf s → costs_fit (snd <$> nodes s);
  nodes_ids s : shard_wf s → map_Forall (λ node _, is_node node) (nodes s);
  sp_admit_law s hash cost :
    shard_wf s → 0 ≤ cost → node_sum (nodes s) + cost < U64 → Z.of_nat (size (nodes s)) < NIL →
    ∃ node out s', sp_admit hash cost s = Some (node, out, s') ∧ shard_wf s' ∧ is_node node ∧
      nodes s !! node = None ∧ victims_ok (<[node := (hash, cost)]> (nodes s)) out ∧
      nodes s' = drop_nodes out (<[node := (hash, cost)]> (nodes s));
  sp_update_law s node hash cost0 cost :
    shard_wf s → nodes s !! node = Some (hash, cost0) → 0 ≤ cost →
    node_sum (nodes s) - cost0 + cost < U64 →
    ∃ s', sp_update node cost s = Some s' ∧ shard_wf s' ∧ nodes s' = <[node := (hash, cost)]> (nodes s);
  sp_remove_law s node :
    shard_wf s → 0 ≤ node → ∃ s', sp_remove node s = Some s' ∧ shard_wf s' ∧ nodes s' = delete node (nodes s);
  sp_evict_law s cost :
    shard_wf s → 0 ≤ cost → cost < U64 →
    ∃ out s', sp_evict cost s = Some (out, s') ∧ shard_wf s' ∧ victims_ok (nodes s) out ∧
      nodes s' = drop_nodes out (nodes s);
  sp_apply_reads_law s ring :
    shard_wf s →
    ∃ ring' s', sp_apply_reads ring s = Some (ring', s') ∧ shard_wf s' ∧ nodes s' = nodes s ∧
      (ring' = (drain ring).2 ∨ ring' = ring);
  sp_touch_law s node :
    shard_wf s → 0 ≤ node → ∃ s', sp_touch node s = Some s' ∧ shard_wf s' ∧ nodes s' = nodes s;
  sp_apply_read_law s node :
    shard_wf s → 0 ≤ node → ∃ s', sp_apply_read node s = Some s' ∧ shard_wf s' ∧ nodes s' = nodes s;
  sp_clear_law s : shard_wf s → shard_wf (sp_clear s) ∧ nodes (sp_clear s) = ∅;
}.
#[global] Hint Mode ShardPolicyLaws ! - : typeclass_instances.

(** [evict] stops short only when nothing is left. *)
Class ShardEvictsEnough (S : Type) `{ShardPolicyLaws S} :=
  shard_evicts_enough s cost out s' :
    shard_wf s → 0 ≤ cost → cost < U64 → sp_evict cost s = Some (out, s') →
    cost ≤ node_sum (nodes s) - node_sum (nodes s') ∨ nodes s' = ∅.

(** ** Victim lists *)

Section Victims.
Implicit Types (m : gmap Z (Z * Z)) (out : list Victim).

Lemma victims_ok_nil m : victims_ok m [].
Proof. split; constructor. Qed.

Lemma victims_ok_cons m out hash node c :
  m !! node = Some (hash, c) → victims_ok (delete node m) out → victims_ok m ((hash, node) :: out).
Proof.
  intros Hm [Hnd Hall]. split.
  - simpl. constructor; [|done]. intros ([h' n']&E&Hin)%list_elem_of_fmap. simpl in E. subst n'.
    eapply Forall_forall in Hall as [c' Hc]; [|exact Hin]. simpl in Hc. by rewrite lookup_delete_eq in Hc.
  - constructor; [by exists c|]. eapply Forall_impl; [exact Hall|]. intros v [c' Hc].
    apply lookup_delete_Some in Hc as [_ ?]. eauto.
Qed.

Lemma drop_nodes_app out1 out2 m : drop_nodes (out1 ++ out2) m = drop_nodes out2 (drop_nodes out1 m).
Proof. unfold drop_nodes. apply foldl_app. Qed.

Lemma drop_nodes_lookup out m node v :
  drop_nodes out m !! node = Some v ↔ m !! node = Some v ∧ node ∉ out.*2.
Proof.
  revert m. induction out as [|[h n] out IH]; intros m; simpl; [set_solver|].
  rewrite IH, lookup_delete_Some, not_elem_of_cons. simpl. naive_solver.
Qed.

Lemma victims_ok_app m out1 out2 :
  victims_ok m out1 → victims_ok (drop_nodes out1 m) out2 → victims_ok m (out1 ++ out2).
Proof.
  intros [Hnd1 Hall1] [Hnd2 Hall2]. split.
  - rewrite fmap_app. apply NoDup_app. split_and!; [done| |done].
    intros n Hn1 ([h' n']&->&Hin)%list_elem_of_fmap. eapply Forall_forall in Hall2 as [c Hc]; [|exact Hin].
    by apply drop_nodes_lookup in Hc as [_ ?].
  - apply Forall_app. split; [done|]. eapply Forall_impl; [exact Hall2|].
    intros v [c Hc]. apply drop_nodes_lookup in Hc as [? _]. eauto.
Qed.

Lemma node_sum_delete m node h c : m !! node = Some (h, c) → node_sum m = c + node_sum (delete node m).
Proof. intros Hm. unfold node_sum. by rewrite (wsum_delete snd m node (h, c) Hm). Qed.

Lemma node_sum_insert_fresh m node h c : m !! node = None → node_sum (<[node:=(h, c)]> m) = c + node_sum m.
Proof. intros Hm. unfold node_sum. rewrite wsum_insert, delete_id by done. done. Qed.

Lemma node_sum_insert m node h c h0 c0 :
  m !! node = Some (h0, c0) → node_sum (<[node:=(h, c)]> m) = node_sum m - c0 + c.
Proof.
  intros Hm. unfold node_sum. rewrite wsum_insert, (wsum_delete snd m node _ Hm). simpl. lia.
Qed.

Lemma drop_nodes_fit out m : costs_fit (snd <$> m) → costs_fit (snd <$> drop_nodes out m) ∧ node_sum (drop_nodes out m) ≤ node_sum m.
Proof.
  revert m. induction out as [|[h n] out IH]; intros m Hf; simpl; [done|].
  assert (Hd : costs_fit (snd <$> delete n m)) by (rewrite fmap_delete; by apply costs_fit_delete).
  destruct (IH _ Hd) as [? ?]. split; [done|]. destruct (m !! n) as [[h' c]|] eqn:E.
  - rewrite (node_sum_delete m n h' c E). destruct Hf as [Hf _].
    assert (0 ≤ c) by (apply (Hf n); by rewrite lookup_fmap, E). lia.
  - by rewrite delete_id in * by done.
Qed.

Lemma drop_nodes_size m out : victims_ok m out → (size (drop_nodes out m) + length out = size m)%nat.
Proof.
  revert m. induction out as [|[h n] out IH]; intros m [Hnd Hall]; simpl; [lia|].
  apply Forall_cons in Hall as [[c Hc] Hall]. simpl in *. apply NoDup_cons in Hnd as [Hn Hnd].
  assert (Hok : victims_ok (delete n m) out).
  { split; [done|]. apply Forall_forall. intros v Hv. eapply Forall_forall in Hall as [c' Hc']; [|exact Hv].
    exists c'. rewrite lookup_delete_ne; [done|]. intros ->. apply Hn, list_elem_of_fmap. by exists v. }
  pose proof (IH _ Hok). rewrite (map_size_delete_S m n (h, c) Hc). lia.
Qed.
End Victims.

(** ** Slabs of hashes *)

(** [payload[i].expect("live slot")]. *)
Definition hash_of (i : Z) (s : Slab Z) : option Z := mjoin (vget (payload s) i).

(** The nodes named in [vs] left the slab and nothing else did. *)
Definition dropped (s : Slab Z) (vs : list Victim) (s' : Slab Z) : Prop :=
  victims_ok (resident s) vs ∧ resident s' = drop_nodes vs (resident s) ∧
  length (links s') = length (links s).

Lemma dropped_refl s s' : resident s' = resident s → length (links s') = length (links s) → dropped s [] s'.
Proof. intros. split; [apply victims_ok_nil|]. done. Qed.

Lemma dropped_trans s1 vs1 s2 vs2 s3 : dropped s1 vs1 s2 → dropped s2 vs2 s3 → dropped s1 (vs1 ++ vs2) s3.
Proof.
  intros (Hv1&E1&Hl1) (Hv2&E2&Hl2). rewrite E1 in Hv2, E2. split; [by apply victims_ok_app|].
  split; [by rewrite E2, drop_nodes_app|congruence].
Qed.

Lemma dropped_sum s vs s' L : slab_inv ∅ s L → dropped s vs s' →
  0 ≤ node_sum (resident s') ≤ node_sum (resident s) ∧ node_sum (resident s) < U64.
Proof.
  intros Hi (_&->&_). pose proof (resident_fit s L Hi) as Hf. destruct (drop_nodes_fit vs _ Hf) as [Hf' ?].
  apply costs_fit_nonneg in Hf'. destruct Hf as [_ Hlt]. rewrite msum_fmap in *. unfold node_sum in *. lia.
Qed.

Lemma hash_of_live s L g i l1 l2 : slab_inv ∅ s L → is_seg g → L g = l1 ++ i :: l2 → ∃ h, hash_of i s = Some h.
Proof.
  intros Hi Hg HL. destruct (live_payload _ _ _ i g Hi Hg) as [h Hh]; [rewrite HL; set_solver|].
  exists h. unfold hash_of. by rewrite Hh.
Qed.
