(* ===== verification/HTinyLfu.v ===== *)
(** * W-TinyLFU on node handles ([hpolicy::HTinyLfu]) *)

From S2P Require Import Prelude Float Slab Nodes Sketch ReadRing ShardPolicy.

Definition WINDOW : Z := 0.
Definition PROBATION : Z := 1.
Definition PROTECTED : Z := 2.

Record HTinyLfu := mk_htl {
  slab : Slab Z;
  sketch : Sketch;
  window_target : Z;
  main_capacity : Z;
  prot_capacity : Z;
}.

Definition new (capacity : Z) : HTinyLfu :=
  let window_target := if capacity =? 0 then 0 else Z.max (scaled f64_001 capacity) 1 in
  let main := capacity -sat window_target in
  let prot_capacity := if main =? 0 then 0 else main -sat Z.max (scaled f64_020 main) 1 in
  mk_htl Slab.new (sketch_new (Z.max (capacity *w 10) 100)) window_target main prot_capacity.

Definition with_slab (s : Slab Z) (p : HTinyLfu) : HTinyLfu :=
  mk_htl s (sketch p) (window_target p) (main_capacity p) (prot_capacity p).

Definition with_sketch (k : Sketch) (p : HTinyLfu) : HTinyLfu :=
  mk_htl (slab p) k (window_target p) (main_capacity p) (prot_capacity p).

(** The [while] of [maintain]; [fuel] bounds its turns. *)
Fixpoint maintain_loop (fuel : nat) (prot : Z) (s : Slab Z) : option (Slab Z) :=
  match fuel with
  | O => None
  | S fuel =>
      l ← vget (lists s) PROTECTED;
      if prot <? sl_cost l then
        let t := sl_tail l in
        if t =? NIL then Some s
        else
          s1 ← unlink t s;
          s2 ← push_front PROBATION t s1;
          maintain_loop fuel prot s2
      else Some s
  end.

Definition slab_fuel (s : Slab Z) : nat := S (length (links s)).

Definition maintain (p : HTinyLfu) : option HTinyLfu :=
  s ← maintain_loop (slab_fuel (slab p)) (prot_capacity p) (slab p);
  Some (with_slab s p).

(** The private [touch(&mut self, i)]. *)
Definition touch_slot (i : Z) (p : HTinyLfu) : option HTinyLfu :=
  l ← vget (links (slab p)) i;
  if l_seg l =? WINDOW then s ← move_front WINDOW i (slab p); Some (with_slab s p)
  else if l_seg l =? PROBATION then
    s1 ← unlink i (slab p);
    s2 ← push_front PROTECTED i s1;
    maintain (with_slab s2 p)
  else s ← move_front PROTECTED i (slab p); Some (with_slab s p).

Definition touch_node (node : Z) (p : HTinyLfu) : option HTinyLfu :=
  match resolve node (slab p) with
  | Some i =>
      h ← hash_of i (slab p);
      k ← increment h (sketch p);
      touch_slot i (with_sketch k p)
  | None => Some p
  end.

(** The victim pushed to [out] and the slab after. *)
Definition drop_node (i : Z) (s : Slab Z) : option (Victim * Slab Z) :=
  node ← id i s;
  '(hash, s') ← release i s;
  Some ((hash, node), s').

(** One turn of the loop of [admit_key], for the window's tail [cand]. *)
Definition admit_turn (cand : Z) (p : HTinyLfu) : option (list Victim * HTinyLfu) :=
  s1 ← unlink cand (slab p);
  lp ← vget (lists s1) PROBATION;
  lq ← vget (lists s1) PROTECTED;
  let main_cost := sl_cost lp +w sl_cost lq in
  c ← vget (node_costs s1) cand;
  if main_cost +w c <=? main_capacity p then
    s2 ← push_front PROBATION cand s1; Some ([], with_slab s2 p)
  else
    let victim := if sl_tail lp =? NIL then sl_tail lq else sl_tail lp in
    adm ← (if victim =? NIL then Some true
           else hc ← hash_of cand s1; hv ← hash_of victim s1;
                ec ← estimate hc (sketch p); ev ← estimate hv (sketch p);
                Some (ev <=? ec));
    if (adm : bool) then s2 ← push_front PROBATION cand s1; Some ([], with_slab s2 p)
    else '(v, s2) ← drop_node cand s1; Some ([v], with_slab s2 p).

Fixpoint admit_loop (fuel : nat) (p : HTinyLfu) : option (list Victim * HTinyLfu) :=
  match fuel with
  | O => None
  | S fuel =>
      l ← vget (lists (slab p)) WINDOW;
      if window_target p <? sl_cost l then
        let cand := sl_tail l in
        if cand =? NIL then Some ([], p)
        else
          '(vs, p1) ← admit_turn cand p;
          '(vs', p2) ← admit_loop fuel p1;
          Some (vs ++ vs', p2)
      else Some ([], p)
  end.

Definition admit_key (hash cost : Z) (p : HTinyLfu) : option (Z * list Victim * HTinyLfu) :=
  k ← increment hash (sketch p);
  '(i, s1) ← alloc hash cost (slab p);
  s2 ← push_front WINDOW i s1;
  node ← id i s2;
  '(out, p') ← admit_loop (slab_fuel s2) (with_slab s2 (with_sketch k p));
  Some (node, out, p').

(** The [while cost_to_free > 0] over the tail of one segment. *)
Fixpoint drain_seg (fuel : nat) (seg cost_to_free : Z) (s : Slab Z) : option (list Victim * Z * Slab Z) :=
  match fuel with
  | O => None
  | S fuel =>
      if 0 <? cost_to_free then
        l ← vget (lists s) seg;
        let t := sl_tail l in
        if t =? NIL then Some ([], cost_to_free, s)
        else
          c ← vget (node_costs s) t;
          s1 ← unlink t s;
          '(v, s2) ← drop_node t s1;
          '(vs, left_over, s3) ← drain_seg fuel seg (cost_to_free -sat c) s2;
          Some (v :: vs, left_over, s3)
      else Some ([], cost_to_free, s)
  end.

Definition evict_nodes (cost_to_free : Z) (p : HTinyLfu) : option (list Victim * HTinyLfu) :=
  p1 ← maintain p;
  '(vs1, c1, s1) ← drain_seg (slab_fuel (slab p1)) PROBATION cost_to_free (slab p1);
  '(vs2, _, s2) ← drain_seg (slab_fuel s1) PROTECTED c1 s1;
  Some (vs1 ++ vs2, with_slab s2 p1).

Definition update (node cost : Z) (p : HTinyLfu) : option HTinyLfu :=
  match resolve node (slab p) with
  | Some i =>
      h ← hash_of i (slab p);
      k ← increment h (sketch p);
      s ← set_cost i cost (slab p);
      touch_slot i (with_slab s (with_sketch k p))
  | None => Some p
  end.

Definition remove (node : Z) (p : HTinyLfu) : option HTinyLfu :=
  match resolve node (slab p) with
  | Some i => s1 ← unlink i (slab p); '(_, s2) ← release i s1; Some (with_slab s2 p)
  | None => Some p
  end.

Fixpoint touch_nodes (ns : list Z) (p : HTinyLfu) : option HTinyLfu :=
  match ns with [] => Some p | node :: ns => p1 ← touch_node node p; touch_nodes ns p1 end.

Definition apply_reads (ring : ReadRing) (p : HTinyLfu) : option (ReadRing * HTinyLfu) :=
  let '(ns, ring') := drain ring in
  p' ← touch_nodes ns p;
  Some (ring', p').

Definition clear (p : HTinyLfu) : HTinyLfu :=
  mk_htl (Slab.clear (slab p)) (sketch_clear (sketch p)) (window_target p) (main_capacity p) (prot_capacity p).

#[global] Instance htinylfu_policy : ShardPolicy HTinyLfu := {
  sp_admit := admit_key;
  sp_update := update;
  sp_remove := remove;
  sp_evict := evict_nodes;
  sp_apply_reads := apply_reads;
  sp_touch := λ _ p, Some p;
  sp_apply_read := touch_node;
  sp_clear := clear;
}.

(** ** Every operation on the nodes held *)

Definition sketch_ok (k : Sketch) : Prop := rows_ok (mask k) (counters k).

Lemma window_seg : is_seg WINDOW.
Proof. unfold is_seg, WINDOW. lia. Qed.
Lemma probation_seg : is_seg PROBATION.
Proof. unfold is_seg, PROBATION. lia. Qed.
Lemma protected_seg : is_seg PROTECTED.
Proof. unfold is_seg, PROTECTED. lia. Qed.
#[local] Hint Resolve window_seg probation_seg protected_seg : core.

(** [maintain] shortens the protected segment from its tail. *)
Lemma htl_maintain_loop_spec fuel prot s L :
  slab_inv ∅ s L → (length (L PROTECTED) < fuel)%nat → 0 ≤ prot →
  ∃ s' L', maintain_loop fuel prot s = Some s' ∧ slab_inv ∅ s' L' ∧ dropped s [] s' ∧
    L' WINDOW = L WINDOW ∧ L' PROTECTED ++ L' PROBATION = L PROTECTED ++ L PROBATION ∧
    lcost s' (L' PROTECTED) ≤ prot ∧ same_nodes s s'.
Proof.
  revert s L. induction fuel as [|fuel IH]; intros s L Hi Hf Hp; [lia|]. cbn [maintain_loop].
  destruct (list_vget _ _ _ _ Hi protected_seg) as [l Hl]. rewrite Hl. cbn [mbind option_bind].
  pose proof (list_cost _ _ _ _ _ Hi protected_seg Hl) as Hc.
  assert (Hstop : lcost s (L PROTECTED) ≤ prot → ∃ s' L', Some s = Some s' ∧ slab_inv ∅ s' L' ∧ dropped s [] s' ∧
    L' WINDOW = L WINDOW ∧ L' PROTECTED ++ L' PROBATION = L PROTECTED ++ L PROBATION ∧
    lcost s' (L' PROTECTED) ≤ prot ∧ same_nodes s s').
  { intros. exists s, L. do 2 (split; [done|]). split; [by apply dropped_refl|].
    do 3 (split; [done|]). apply same_nodes_refl. }
  destruct (Z.ltb_spec prot (sl_cost l)); [|apply Hstop; lia].
  destruct (tail_slot _ _ _ _ _ Hi protected_seg Hl) as [[-> E]|[Hne [l1 E]]].
  - rewrite Z.eqb_refl. apply Hstop. rewrite E. simpl. lia.
  - destruct (Z.eqb_spec (sl_tail l) NIL); [done|]. set (t := sl_tail l) in *.
    destruct (node_move s L PROTECTED PROBATION t l1 [] Hi protected_seg probation_seg E)
      as (s1&s2&->&Hpf&Hi2&Hr&Hsn&_). cbn [mbind option_bind]. rewrite Hpf. cbn [mbind option_bind].
    rewrite app_nil_r in Hi2. set (L2 := upd _ _ _) in Hi2.
    assert (EP : L2 PROTECTED = l1) by (unfold L2; rewrite upd_ne, upd_eq by done; done).
    assert (EB : L2 PROBATION = t :: L PROBATION) by (unfold L2; rewrite upd_eq, upd_ne by done; done).
    destruct (IH s2 L2 Hi2) as (s'&L'&Hm&Hi'&Hd&EW&EM&Hle&Hsn').
    { rewrite EP, E, length_app in *. simpl in Hf. lia. }
    { done. }
    exists s', L'. split; [done|]. split; [done|]. split.
    { eapply (dropped_trans s [] s2 []); [|done]. apply dropped_refl; [done|apply Hsn]. }
    split; [by rewrite EW; unfold L2; rewrite !upd_ne by done|].
    split; [rewrite EM, EP, EB, E; by rewrite <- app_assoc|]. split; [done|by eapply same_nodes_trans].
Qed.

Definition htl_wf (p : HTinyLfu) : Prop :=
  (∃ L, slab_inv ∅ (slab p) L) ∧ sketch_ok (sketch p) ∧ 0 ≤ prot_capacity p ∧ 0 ≤ window_target p.

Lemma htl_maintain_spec p L :
  slab_inv ∅ (slab p) L → 0 ≤ prot_capacity p →
  ∃ s' L', maintain p = Some (with_slab s' p) ∧ slab_inv ∅ s' L' ∧ dropped (slab p) [] s' ∧
    L' WINDOW = L WINDOW ∧ L' PROTECTED ++ L' PROBATION = L PROTECTED ++ L PROBATION ∧
    lcost s' (L' PROTECTED) ≤ prot_capacity p ∧ same_nodes (slab p) s'.
Proof.
  intros Hi Hp. unfold maintain.
  destruct (htl_maintain_loop_spec (slab_fuel (slab p)) (prot_capacity p) _ _ Hi) as (s'&L'&->&?).
  - pose proof (seg_length _ _ _ Hi protected_seg). unfold slab_fuel. lia.
  - done.
  - exists s', L'. auto.
Qed.

(** A hit moves a node; which nodes are held does not change. *)
Lemma touch_slot_spec p L g i l1 l2 :
  slab_inv ∅ (slab p) L → 0 ≤ prot_capacity p → is_seg g → L g = l1 ++ i :: l2 →
  ∃ s' L', touch_slot i p = Some (with_slab s' p) ∧ slab_inv ∅ s' L' ∧ resident s' = resident (slab p).
Proof.
  intros Hi Hp Hg HL. assert (Hin : i ∈ L g) by (rewrite HL; set_solver).
  pose proof Hin as [E _]%(si_in _ _ _ Hi g i Hg). destruct (seg_vget _ _ _ E) as (l&Hl&Hlg).
  unfold touch_slot. rewrite Hl. cbn [mbind option_bind]. rewrite Hlg.
  apply seg_cases in Hg as Hc. destruct (node_front _ L g i l1 l2 Hi Hg HL) as (s'&Hm&Hi'&Hr&_).
  destruct Hc as [->|[->| ->]]; cbn [Z.eqb WINDOW PROBATION].
  - change 0 with WINDOW in Hm. rewrite Hm. eexists _, _. split; [done|]. split; done.
  - destruct (node_move _ L 1 PROTECTED i l1 l2 Hi Hg protected_seg HL) as (s1&s2&->&Hpf&Hi2&Hr2&_).
    cbn [mbind option_bind Pos.eqb]. rewrite Hpf. cbn [mbind option_bind].
    destruct (htl_maintain_spec (with_slab s2 p) _ Hi2 Hp) as (s3&L3&->&Hi3&(_&E3&_)&_).
    eexists _, _. split; [done|]. split; [done|]. by rewrite E3.
  - change 2 with PROTECTED in Hm. cbn [Pos.eqb]. rewrite Hm. eexists _, _. split; [done|]. split; done.
Qed.

Lemma drop_node_spec s L g i l1 l2 :
  slab_inv ∅ s L → is_seg g → L g = l1 ++ i :: l2 →
  ∃ s1 v s2, unlink i s = Some s1 ∧ drop_node i s1 = Some (v, s2) ∧
    slab_inv ∅ s2 (upd L g (l1 ++ l2)) ∧ dropped s [v] s2 ∧ node_costs s2 = node_costs s ∧
    resident s !! v.2 = Some (v.1, cost_at s i) ∧ id i s = Some v.2.
Proof.
  intros Hi Hg HL. destruct (node_drop s L g i l1 l2 Hi Hg HL)
    as (s1&node&h&s2&Hu&Hid&_&_&Hr&Hi2&_&Hc&Hid0&Hres&Hdel&Hlen).
  exists s1, (h, node), s2. split; [done|]. unfold drop_node. rewrite Hid. cbn [mbind option_bind]. rewrite Hr.
  do 2 (split; [done|]). split; [|done]. split; [|done]. eapply victims_ok_cons; [done|apply victims_ok_nil].
Qed.

(** A candidate is dropped only when it does not fit in the main segments and the
    sketch has seen the tail it would displace more often. *)
Definition lost_test (p : HTinyLfu) (L : Z → list Z) (cand : Z) : Prop :=
  ∃ victim hc hv ec ev,
    last (if decide (L PROBATION = []) then L PROTECTED else L PROBATION) = Some victim ∧
    hash_of cand (slab p) = Some hc ∧ hash_of victim (slab p) = Some hv ∧
    estimate hc (sketch p) = Some ec ∧ estimate hv (sketch p) = Some ev ∧ ec < ev ∧
    main_capacity p < lcost (slab p) (L PROBATION) + lcost (slab p) (L PROTECTED) + cost_at (slab p) cand.

Lemma admit_test p s1 L1 cand X :
  slab_inv X s1 L1 → sketch_ok (sketch p) → (∃ h, vget (payload s1) cand = Some (Some h)) →
  ∃ lp lq, vget (lists s1) PROBATION = Some lp ∧ vget (lists s1) PROTECTED = Some lq ∧
    sl_cost lp = lcost s1 (L1 PROBATION) ∧ sl_cost lq = lcost s1 (L1 PROTECTED) ∧
    let victim := if sl_tail lp =? NIL then sl_tail lq else sl_tail lp in
    ∃ adm, (if victim =? NIL then Some true
            else hc ← hash_of cand s1; hv ← hash_of victim s1;
                 ec ← estimate hc (sketch p); ev ← estimate hv (sketch p); Some (ev <=? ec)) = Some adm ∧
      (adm = false ↔ ∃ victim hc hv ec ev,
         last (if decide (L1 PROBATION = []) then L1 PROTECTED else L1 PROBATION) = Some victim ∧
         hash_of cand s1 = Some hc ∧ hash_of victim s1 = Some hv ∧
         estimate hc (sketch p) = Some ec ∧ estimate hv (sketch p) = Some ev ∧ ec < ev).
Proof.
  intros Hi Hk [hc Hc].
  destruct (list_vget _ _ _ _ Hi probation_seg) as [lp Hlp], (list_vget _ _ _ _ Hi protected_seg) as [lq Hlq].
  exists lp, lq. split; [done|]. split; [done|].
  split; [by apply (list_cost X s1 L1)|]. split; [by apply (list_cost X s1 L1)|]. intros victim.
  assert (Hv : victim = NIL ∧
    last (if decide (L1 PROBATION = []) then L1 PROTECTED else L1 PROBATION) = None ∨ victim ≠ NIL ∧
    last (if decide (L1 PROBATION = []) then L1 PROTECTED else L1 PROBATION) = Some victim ∧
    ∃ hv, vget (payload s1) victim = Some (Some hv)).
  { unfold victim. destruct (tail_slot _ _ _ _ _ Hi probation_seg Hlp) as [[E0 E]|[Hne [l1 E]]].
    - rewrite E0, Z.eqb_refl, decide_True by done.
      destruct (tail_slot _ _ _ _ _ Hi protected_seg Hlq) as [[E1 E2]|[Hne [l2 E2]]]; [left; by rewrite E2|right].
      split; [done|]. rewrite E2, last_snoc. split; [done|].
      eapply live_payload; [exact Hi|apply protected_seg|]. rewrite E2. set_solver.
    - destruct (Z.eqb_spec (sl_tail lp) NIL); [done|]. right. split; [done|].
      rewrite decide_False by (rewrite E; by destruct l1). rewrite E, last_snoc. split; [done|].
      eapply live_payload; [exact Hi|apply probation_seg|]. rewrite E. set_solver. }
  destruct Hv as [[-> Hnone]|(Hne&Hlast&hv&Hv)].
  { rewrite Z.eqb_refl. exists true. split; [done|]. split; [done|]. rewrite Hnone. by intros (?&?&?&?&?&?&_). }
  destruct (Z.eqb_spec victim NIL); [done|]. unfold hash_of. rewrite Hc, Hv. cbn [mjoin option_join mbind option_bind].
  destruct (sketch_estimate_ok hc _ Hk) as [ec Hec], (sketch_estimate_ok hv _ Hk) as [ev Hev]. rewrite Hec, Hev.
  exists (ev <=? ec). split; [done|]. rewrite Z.leb_gt, Hlast. split.
  - intros Hlt. exists victim, hc, hv, ec, ev. rewrite Hv. auto 10.
  - intros (v'&hc'&hv'&ec'&ev'&[= <-]&[= <-]&E&Hec'&Hev'&Hlt). rewrite Hv in E. cbn in E. simplify_eq. lia.
Qed.

Lemma admit_turn_spec p L l1 cand :
  slab_inv ∅ (slab p) L → sketch_ok (sketch p) → L WINDOW = l1 ++ [cand] →
  ∃ vs s' L', admit_turn cand p = Some (vs, with_slab s' p) ∧ slab_inv ∅ s' L' ∧ L' WINDOW = l1 ∧
    L' PROTECTED = L PROTECTED ∧ dropped (slab p) vs s' ∧
    ((¬ lost_test p L cand ∧ vs = [] ∧ L' PROBATION = cand :: L PROBATION) ∨
     (lost_test p L cand ∧ (∃ v, vs = [v] ∧ id cand (slab p) = Some v.2) ∧ L' PROBATION = L PROBATION)).
Proof.
  intros Hi Hk HL. unfold admit_turn.
  destruct (node_move _ L WINDOW PROBATION cand l1 [] Hi window_seg probation_seg HL)
    as (s1&s2&Hu&Hpf&Hi2&Hr&Hsn&Hsn1&Hi1). rewrite app_nil_r in *. rewrite Hu. cbn [mbind option_bind].
  destruct (drop_node_spec _ L WINDOW cand l1 [] Hi window_seg HL) as (s1'&v&s3&Hu'&Hdn&Hi3&Hd&_&_&Hidc).
  rewrite Hu in Hu'. injection Hu' as <-. rewrite app_nil_r in Hi3.
  pose proof Hsn1 as (Ep&Ec&_&El&_). assert (Hin : cand ∈ L WINDOW) by (rewrite HL; set_solver).
  destruct (admit_test p s1 _ cand _ Hi1 Hk) as (lp&lq&->&->&Hcp&Hcq&adm&Hadm&Hlost).
  { rewrite Ep. by apply (live_payload ∅ (slab p) L cand WINDOW). }
  cbn [mbind option_bind]. rewrite upd_ne in Hcp, Hcq, Hlost by done. rewrite (upd_ne L WINDOW l1 PROTECTED) in Hlost by done.
  assert (Hcc : vget (node_costs s1) cand = Some (cost_at (slab p) cand)).
  { rewrite Ec. apply (cost_vget _ _ _ cand Hi). apply (si_in _ _ _ Hi WINDOW cand window_seg) in Hin as [? _]. by eexists. }
  rewrite Hcc. cbn [mbind option_bind]. rewrite !(same_nodes_lcost (slab p) s1) in * by done.
  assert (Hsum : sl_cost lp +w sl_cost lq +w cost_at (slab p) cand =
    lcost (slab p) (L PROBATION) + lcost (slab p) (L PROTECTED) + cost_at (slab p) cand).
  { rewrite Hcp, Hcq. pose proof (lcost_nonneg _ _ _ (L PROBATION) Hi). pose proof (lcost_nonneg _ _ _ (L PROTECTED) Hi).
    pose proof (lcost_nonneg _ _ _ l1 Hi). pose proof (cost_at_nonneg _ _ _ cand Hi).
    pose proof (si_sum _ _ _ Hi) as Hs. unfold live_sum in Hs. change (L 0) with (L WINDOW) in Hs.
    rewrite HL, lcost_app in Hs. simpl in Hs. change (L 1) with (L PROBATION) in Hs. change (L 2) with (L PROTECTED) in Hs.
    rewrite (u64_add_small (lcost _ _)) by lia. rewrite u64_add_small; lia. }
  rewrite Hsum. unfold hash_of in Hlost. rewrite Ep in Hlost.
  assert (Hkeep : ¬ lost_test p L cand → ∃ vs s' L',
    (s2 ← push_front PROBATION cand s1; Some ([], with_slab s2 p)) = Some (vs, with_slab s' p) ∧
    slab_inv ∅ s' L' ∧ L' WINDOW = l1 ∧ L' PROTECTED = L PROTECTED ∧ dropped (slab p) vs s' ∧
    ((¬ lost_test p L cand ∧ vs = [] ∧ L' PROBATION = cand :: L PROBATION) ∨
     (lost_test p L cand ∧ (∃ v, vs = [v] ∧ id cand (slab p) = Some v.2) ∧ L' PROBATION = L PROBATION))).
  { intros Hnl. rewrite Hpf. eexists [], s2, _. split; [done|]. split; [done|].
    split; [by rewrite upd_ne, upd_eq by done|]. split; [by rewrite !upd_ne by done|].
    split; [apply dropped_refl; [done|apply Hsn]|]. left. by rewrite upd_eq, upd_ne by done. }
  destruct (Z.leb_spec (lcost (slab p) (L PROBATION) + lcost (slab p) (L PROTECTED) + cost_at (slab p) cand) (main_capacity p)).
  { apply Hkeep. intros (?&?&?&?&?&?&?&?&?&?&?&?). lia. }
  rewrite Hadm. cbn [mbind option_bind]. destruct adm.
  { apply Hkeep. intros (v'&hc&hv&ec&ev&H1&H2&H3&H4&H5&H6&_). by discriminate (proj2 Hlost); eauto 20. }
  rewrite Hdn. cbn [mbind option_bind]. eexists [v], s3, _. split; [done|]. split; [exact Hi3|].
  split; [by rewrite upd_eq|]. split; [by rewrite upd_ne by done|]. split; [done|]. right.
  split; [|split; [by exists v|by rewrite upd_ne by done]].
  destruct (proj1 Hlost eq_refl) as (v'&hc&hv&ec&ev&H1&H2&H3&H4&H5&H6). exists v', hc, hv, ec, ev.
  unfold hash_of. auto 20.
Qed.

Lemma admit_loop_spec fuel p L :
  slab_inv ∅ (slab p) L → sketch_ok (sketch p) → 0 ≤ window_target p → (length (L WINDOW) < fuel)%nat →
  ∃ vs s' L', admit_loop fuel p = Some (vs, with_slab s' p) ∧ slab_inv ∅ s' L' ∧
    dropped (slab p) vs s' ∧ lcost s' (L' WINDOW) ≤ window_target p.
Proof.
  revert p L. induction fuel as [|fuel IH]; intros p L Hi Hk Hw Hf; [lia|]. cbn [admit_loop].
  destruct (list_vget _ _ _ _ Hi window_seg) as [l Hl]. rewrite Hl. cbn [mbind option_bind].
  pose proof (list_cost _ _ _ _ _ Hi window_seg Hl) as Hc.
  assert (Hstop : lcost (slab p) (L WINDOW) ≤ window_target p → ∃ vs s' L', Some ([], p) = Some (vs, with_slab s' p) ∧
    slab_inv ∅ s' L' ∧ dropped (slab p) vs s' ∧ lcost s' (L' WINDOW) ≤ window_target p).
  { intros. exists [], (slab p), L. split; [by destruct p|]. split; [done|]. split; [by apply dropped_refl|done]. }
  destruct (Z.ltb_spec (window_target p) (sl_cost l)); [|apply Hstop; lia].
  destruct (tail_slot _ _ _ _ _ Hi window_seg Hl) as [[-> E]|[Hne [l1 E]]].
  - rewrite Z.eqb_refl. apply Hstop. rewrite E. simpl. lia.
  - destruct (Z.eqb_spec (sl_tail l) NIL); [done|].
    destruct (admit_turn_spec p L l1 _ Hi Hk E) as (vs&s1&L1&->&Hi1&EW&_&Hd&_). cbn [mbind option_bind].
    destruct (IH (with_slab s1 p) L1) as (vs'&s2&L2&->&Hi2&Hd2&Hle); try done.
    { rewrite EW. rewrite E, length_app in Hf. simpl in Hf. lia. }
    exists (vs ++ vs'), s2, L2. split; [done|]. split; [done|]. split; [by eapply dropped_trans|done].
Qed.

(** One segment is drained from its tail until enough is freed or it is empty. *)
Lemma drain_seg_spec fuel seg c s L :
  slab_inv ∅ s L → is_seg seg → (length (L seg) < fuel)%nat → 0 ≤ c →
  ∃ vs c' s' L', drain_seg fuel seg c s = Some (vs, c', s') ∧ slab_inv ∅ s' L' ∧ dropped s vs s' ∧
    (∀ h, h ≠ seg ∨ c = 0 → L' h = L h) ∧ L' seg `prefix_of` L seg ∧ (c' = 0 ∨ L' seg = []) ∧
    c' = c -sat (node_sum (resident s) - node_sum (resident s')).
Proof.
  revert c s L. induction fuel as [|fuel IH]; intros c s L Hi Hg Hf Hc; [lia|]. cbn [drain_seg].
  assert (Hstop : c = 0 ∨ L seg = [] → ∃ vs c' s' L', Some ([], c, s) = Some (vs, c', s') ∧ slab_inv ∅ s' L' ∧ dropped s vs s' ∧
    (∀ h, h ≠ seg ∨ c = 0 → L' h = L h) ∧ L' seg `prefix_of` L seg ∧ (c' = 0 ∨ L' seg = []) ∧
    c' = c -sat (node_sum (resident s) - node_sum (resident s'))).
  { intros. exists [], c, s, L. do 2 (split; [done|]). split; [by apply dropped_refl|].
    do 3 (split; [done|]). unfold sat_sub. lia. }
  destruct (Z.ltb_spec 0 c); [|apply Hstop; lia].
  destruct (list_vget _ _ _ _ Hi Hg) as [l Hl]. rewrite Hl. cbn [mbind option_bind].
  destruct (tail_slot _ _ _ _ _ Hi Hg Hl) as [[-> E]|[Hne [l1 E]]]; [rewrite Z.eqb_refl; auto|].
  destruct (Z.eqb_spec (sl_tail l) NIL); [done|]. set (t := sl_tail l) in *.
  assert (Hin : t ∈ L seg) by (rewrite E; set_solver).
  rewrite (cost_vget _ _ _ t Hi) by (apply (si_in _ _ _ Hi seg t Hg) in Hin as [? _]; by eexists).
  cbn [mbind option_bind]. pose proof (cost_at_nonneg _ _ _ t Hi) as Hct.
  destruct (drop_node_spec s L seg t l1 [] Hi Hg E) as (s1&v&s2&->&Hdn&Hi2&Hd&_&Hv&_). cbn [mbind option_bind].
  rewrite Hdn. cbn [mbind option_bind]. rewrite app_nil_r in Hi2.
  destruct (IH (c -sat cost_at s t) s2 _ Hi2 Hg) as (vs&c'&s3&L3&->&Hi3&Hd3&Ho&Hpre&Hend&Hc').
  { rewrite upd_eq. rewrite E, length_app in Hf. simpl in Hf. lia. }
  { unfold sat_sub. lia. }
  cbn [mbind option_bind]. exists (v :: vs), c', s3, L3. split; [done|]. split; [done|].
  split; [by eapply (dropped_trans s [v] s2 vs s3)|]. split; [intros h [Hh|?]; [by rewrite Ho, upd_ne by auto|lia]|].
  rewrite upd_eq in Hpre. split; [etrans; [exact Hpre|rewrite E; by eexists]|]. split; [done|].
  rewrite Hc', sat_sub_add; [|done|pose proof (dropped_sum _ _ _ _ Hi2 Hd3); lia]. f_equal.
  pose proof Hd as (_&Er&_). simpl in Er. rewrite Er. rewrite (node_sum_delete _ _ _ _ Hv). lia.
Qed.

Lemma evict_nodes_spec p L c :
  slab_inv ∅ (slab p) L → 0 ≤ prot_capacity p → 0 ≤ c →
  ∃ vs s' L', evict_nodes c p = Some (vs, with_slab s' p) ∧ slab_inv ∅ s' L' ∧ dropped (slab p) vs s' ∧
    L' WINDOW = L WINDOW ∧ L' PROTECTED ++ L' PROBATION `prefix_of` L PROTECTED ++ L PROBATION ∧
    (c ≤ node_sum (resident (slab p)) - node_sum (resident s') ∨ L' PROBATION = [] ∧ L' PROTECTED = []).
Proof.
  intros Hi Hp Hc. unfold evict_nodes.
  destruct (htl_maintain_spec p L Hi Hp) as (s1&L1&->&Hi1&Hd1&EW&EM&_&_). cbn [mbind option_bind].
  change (slab (with_slab s1 p)) with s1.
  destruct (drain_seg_spec (slab_fuel s1) PROBATION c s1 L1 Hi1 probation_seg) as (vs2&c2&s2&L2&->&Hi2&Hd2&Ho2&Hpre2&Hend2&Hc2).
  { pose proof (seg_length _ _ _ Hi1 probation_seg). unfold slab_fuel. lia. }
  { done. }
  cbn [mbind option_bind].
  destruct (drain_seg_spec (slab_fuel s2) PROTECTED c2 s2 L2 Hi2 protected_seg) as (vs3&c3&s3&L3&->&Hi3&Hd3&Ho3&Hpre3&Hend3&Hc3).
  { pose proof (seg_length _ _ _ Hi2 protected_seg). unfold slab_fuel. lia. }
  { subst c2. unfold sat_sub. lia. }
  cbn [mbind option_bind]. exists (vs2 ++ vs3), s3, L3. split; [done|]. split; [done|].
  assert (Hd : dropped (slab p) (vs2 ++ vs3) s3)
    by (eapply (dropped_trans _ [] s1); [done|]; by eapply dropped_trans).
  split; [done|]. split; [by rewrite Ho3, Ho2, EW by auto|].
  pose proof Hd1 as (_&Er1&_). simpl in Er1. rewrite <- Er1.
  pose proof (dropped_sum _ _ _ _ Hi1 Hd2). pose proof (dropped_sum _ _ _ _ Hi2 Hd3).
  assert (EP : L2 PROTECTED = L1 PROTECTED) by (apply Ho2; auto). assert (EB : L3 PROBATION = L2 PROBATION) by (apply Ho3; auto).
  unfold sat_sub in *. split.
  - rewrite <- EM, EB. destruct Hend2 as [E0|E0].
    + rewrite (Ho3 PROTECTED), EP by auto. by apply prefix_app.
    + rewrite E0, app_nil_r. etrans; [exact Hpre3|]. rewrite EP. by apply prefix_app_r.
  - destruct Hend3 as [E3|E3]; [left; lia|]. destruct Hend2 as [E2|E2]; [left; lia|]. right. by rewrite EB.
Qed.

Lemma touch_node_spec p node :
  htl_wf p → 0 ≤ node → ∃ p', touch_node node p = Some p' ∧ htl_wf p' ∧ resident (slab p') = resident (slab p).
Proof.
  intros ([L Hi]&Hk&Hp&Hw) Hn. unfold touch_node.
  destruct (resident (slab p) !! node) as [[h c]|] eqn:E.
  - destruct (resolve_live _ _ _ _ _ Hi Hn E) as (i&g&l1&l2&->&Hg&HL&_).
    destruct (hash_of_live _ _ _ _ _ _ Hi Hg HL) as [h' ->]. cbn [mbind option_bind].
    destruct (sketch_increment_ok h' _ Hk) as (k&->&Hk'). cbn [mbind option_bind].
    destruct (touch_slot_spec (with_sketch k p) L g i l1 l2 Hi Hp Hg HL) as (s'&L'&->&Hi'&Hr).
    eexists. split; [done|]. split; [|done]. split; [by exists L'|done].
  - rewrite (resolve_stale _ _ _ Hi Hn E). exists p. split; [done|]. split; [|done]. split; [by exists L|done].
Qed.

Lemma touch_nodes_spec ns p :
  htl_wf p → Forall (λ n, 0 ≤ n) ns →
  ∃ p', touch_nodes ns p = Some p' ∧ htl_wf p' ∧ resident (slab p') = resident (slab p).
Proof.
  intros Hwf Hns. revert p Hwf. induction Hns as [|n ns Hn _ IH]; intros p Hwf; simpl; [by exists p|].
  destruct (touch_node_spec p n Hwf Hn) as (p1&->&Hwf1&E1). cbn [mbind option_bind].
  destruct (IH p1 Hwf1) as (p2&->&Hwf2&E2). exists p2. split; [done|]. split; [done|]. congruence.
Qed.

Lemma drain_nonneg r : Forall (λ n, 0 ≤ n) (drain r).1.
Proof.
  simpl. apply Forall_forall. intros n (v&_&Hv)%list_elem_of_omap. destruct (v =? 0); [done|]. injection Hv as <-.
  unfold u64_sub. apply Z.mod_pos_bound. done.
Qed.

Lemma htl_admit p hash cost :
  htl_wf p → 0 ≤ cost → node_sum (resident (slab p)) + cost < U64 → Z.of_nat (size (resident (slab p))) < NIL →
  ∃ node out p' L', admit_key hash cost p = Some (node, out, p') ∧ htl_wf p' ∧ is_node node ∧
    resident (slab p) !! node = None ∧ victims_ok (<[node := (hash, cost)]> (resident (slab p))) out ∧
    resident (slab p') = drop_nodes out (<[node := (hash, cost)]> (resident (slab p))) ∧
    slab_inv ∅ (slab p') L' ∧ lcost (slab p') (L' WINDOW) ≤ window_target p ∧
    window_target p' = window_target p ∧ main_capacity p' = main_capacity p.
Proof.
  intros ([L Hi]&Hk&Hp&Hw) Hc Hsum Hsz. unfold admit_key.
  destruct (sketch_increment_ok hash _ Hk) as (k&->&Hk'). cbn [mbind option_bind].
  destruct (node_admit (slab p) L WINDOW hash cost Hi window_seg Hc) as (i&s1&s2&node&->&Hpf&Hid&Hi2&Hfresh&Hr&_).
  { unfold node_sum in Hsum. by rewrite <- (resident_sum _ _ Hi). }
  { done. }
  cbn [mbind option_bind]. rewrite Hpf. cbn [mbind option_bind]. rewrite Hid. cbn [mbind option_bind].
  set (p2 := with_slab s2 (with_sketch k p)).
  destruct (admit_loop_spec (slab_fuel s2) p2 _ Hi2 Hk' Hw) as (vs&s3&L3&->&Hi3&(Hv&Hr3&_)&Hle).
  { pose proof (seg_length _ _ _ Hi2 window_seg). unfold slab_fuel. lia. }
  cbn [mbind option_bind]. exists node, vs, (with_slab s3 p2), L3. split; [done|].
  split; [split; [by exists L3|done]|]. simpl in Hv, Hr3. rewrite Hr in Hv, Hr3.
  split; [|done]. apply (resident_ids s2 _ Hi2 node (hash, cost)). by rewrite Hr, lookup_insert_eq.
Qed.

Lemma htl_update p node hash cost0 cost :
  htl_wf p → resident (slab p) !! node = Some (hash, cost0) → 0 ≤ cost →
  node_sum (resident (slab p)) - cost0 + cost < U64 →
  ∃ p', update node cost p = Some p' ∧ htl_wf p' ∧
    resident (slab p') = <[node := (hash, cost)]> (resident (slab p)).
Proof.
  intros ([L Hi]&Hk&Hp&Hw) Hres Hc Hsum. pose proof (resident_ids _ _ Hi node _ Hres) as Hn. simpl in Hn.
  unfold update. destruct (resolve_live _ _ _ _ _ Hi (proj1 Hn) Hres) as (i&g&l1&l2&->&Hg&HL&_&Hni).
  destruct (hash_of_live _ _ _ _ _ _ Hi Hg HL) as [h' ->]. cbn [mbind option_bind].
  destruct (sketch_increment_ok h' _ Hk) as (k&->&Hk'). cbn [mbind option_bind]. pose proof Hni as (_&_&Hcost).
  destruct (node_cost (slab p) L g i cost node hash Hi Hg) as (s1&->&Hi1&_&_&Hr1).
  { rewrite HL. set_solver. } { done. }
  { unfold node_sum in Hsum. rewrite <- (resident_sum _ _ Hi). lia. } { by rewrite Hcost. }
  cbn [mbind option_bind].
  destruct (touch_slot_spec (with_slab s1 (with_sketch k p)) L g i l1 l2 Hi1 Hp Hg HL) as (s2&L2&->&Hi2&Hr2).
  eexists. split; [done|]. split; [split; [by exists L2|done]|]. simpl in *. by rewrite Hr2.
Qed.

Lemma htl_remove p node :
  htl_wf p → 0 ≤ node →
  ∃ p', remove node p = Some p' ∧ htl_wf p' ∧ resident (slab p') = delete node (resident (slab p)).
Proof.
  intros ([L Hi]&Hk&Hp&Hw) Hn. unfold remove. destruct (resident (slab p) !! node) as [[h c]|] eqn:E.
  - destruct (resolve_live _ _ _ _ _ Hi Hn E) as (i&g&l1&l2&->&Hg&HL&_&(Hid&_)).
    destruct (node_drop _ L g i l1 l2 Hi Hg HL) as (s1&n'&h'&s2&->&_&_&_&Hr&Hi2&_&_&Hid'&_&Hdel&_).
    cbn [mbind option_bind]. rewrite Hr. cbn [mbind option_bind]. rewrite Hid in Hid'. injection Hid' as <-.
    eexists. split; [done|]. split; [split; [by eexists|done]|done].
  - rewrite (resolve_stale _ _ _ Hi Hn E), delete_id by done. exists p. split; [done|]. split; [|done].
    split; [by exists L|done].
Qed.

Lemma htl_clear p : htl_wf p → htl_wf (clear p) ∧ resident (slab (clear p)) = ∅.
Proof.
  intros (_&Hk&Hp&Hw). split; [|done]. split; [exists (λ _, []); apply slab_inv_new|]. split; [|done].
  unfold sketch_ok. simpl. unfold zeros. by apply rows_ok_map.
Qed.

#[global] Instance htinylfu_laws : ShardPolicyLaws HTinyLfu.
Proof.
  refine {| shard_wf := htl_wf; nodes p := resident (slab p) |}.
  - intros p ([L Hi]&_). by eapply resident_fit.
  - intros p ([L Hi]&_). by eapply resident_ids.
  - intros p hash cost Hwf Hc Hs Hz. destruct (htl_admit p hash cost Hwf Hc Hs Hz) as (node&out&p'&L'&?&?&?&?&?&?&_).
    exists node, out, p'. auto 10.
  - apply htl_update.
  - apply htl_remove.
  - intros p c ([L Hi]&Hk&Hp&Hw) Hc _. destruct (evict_nodes_spec p L c Hi Hp Hc) as (vs&s'&L'&He&Hi'&(Hv&Hr&_)&_).
    exists vs, (with_slab s' p). split; [done|]. split; [split; [by exists L'|done]|done].
  - intros p ring Hwf. unfold sp_apply_reads, htinylfu_policy, apply_reads. pose proof (drain_nonneg ring) as Hd.
    destruct (drain ring) as [ns ring']. destruct (touch_nodes_spec ns p Hwf Hd) as (p'&->&Hwf'&E).
    exists ring', p'. do 3 (split; [done|]). by left.
  - intros p node Hwf _. by exists p.
  - intros p node Hwf Hn. by apply touch_node_spec.
  - apply htl_clear.
Defined.

(** the admission test. The window's tail [cand] leaves the window for the front of
    the probation segment, unless it does not fit in the main segments and the sketch
    estimates the tail it would displace (of probation, else of protected) strictly
    higher; then, and only then, it is dropped and named as the victim. *)
Theorem htinylfu_admission_test p L l1 cand :
  slab_inv ∅ (slab p) L → sketch_ok (sketch p) → L WINDOW = l1 ++ [cand] →
  ∃ vs s' L', admit_turn cand p = Some (vs, with_slab s' p) ∧ slab_inv ∅ s' L' ∧
    victims_ok (resident (slab p)) vs ∧ resident s' = drop_nodes vs (resident (slab p)) ∧
    L' WINDOW = l1 ∧ L' PROTECTED = L PROTECTED ∧
    ((¬ lost_test p L cand ∧ vs = [] ∧ L' PROBATION = cand :: L PROBATION) ∨
     (lost_test p L cand ∧ (∃ v, vs = [v] ∧ id cand (slab p) = Some v.2) ∧ L' PROBATION = L PROBATION)).
Proof.
  intros Hi Hk HL. destruct (admit_turn_spec p L l1 cand Hi Hk HL) as (vs&s'&L'&?&?&?&?&(?&?&_)&?).
  exists vs, s', L'. auto 10.
Qed.

(** [evict_nodes] takes from the back of protected ++ probation and never from the
    window. It frees the asked cost or leaves the main segments empty; with them empty
    it frees nothing at all, however much the window holds. *)
Theorem htinylfu_evict_effect p L c :
  slab_inv ∅ (slab p) L → 0 ≤ prot_capacity p → 0 ≤ c →
  ∃ vs p' L', evict_nodes c p = Some (vs, p') ∧ slab_inv ∅ (slab p') L' ∧
    victims_ok (resident (slab p)) vs ∧ resident (slab p') = drop_nodes vs (resident (slab p)) ∧
    L' WINDOW = L WINDOW ∧ L' PROTECTED ++ L' PROBATION `prefix_of` L PROTECTED ++ L PROBATION ∧
    (c ≤ node_sum (resident (slab p)) - node_sum (resident (slab p')) ∨ L' PROBATION = [] ∧ L' PROTECTED = []) ∧
    (L PROBATION = [] → L PROTECTED = [] → vs = []).
Proof.
  intros Hi Hp Hc. destruct (evict_nodes_spec p L c Hi Hp Hc) as (vs&s'&L'&He&Hi'&(Hv&Hr&_)&EW&Hpre&Hend).
  exists vs, (with_slab s' p), L'. do 7 (split; [done|]). intros E1 E2. rewrite E1, E2 in Hpre.
  apply prefix_nil_inv, app_eq_nil in Hpre as [E3 E4].
  pose proof (drop_nodes_size _ _ Hv) as Hsz. rewrite <- Hr, (resident_size _ _ Hi), (resident_size _ _ Hi') in Hsz.
  unfold all_slots in Hsz. change 0 with WINDOW in Hsz. change 1 with PROBATION in Hsz. change 2 with PROTECTED in Hsz.
  rewrite EW, E1, E2, E3, E4 in Hsz. destruct vs; [done|]. rewrite !length_app in Hsz. simpl in Hsz. lia.
Qed.

Lemma htl_wf_new capacity : htl_wf (new capacity).
Proof.
  split; [exists (λ _, []); apply slab_inv_new|]. split; [apply rows_ok_new|]. unfold new. simpl. split.
  - destruct (_ =? 0); [lia|]. unfold sat_sub. lia.
  - destruct (capacity =? 0); lia.
Qed.

Lemma htl_one capacity node h c : node_sum (drop_nodes [] (<[node:=(h, c)]> (resident (slab (new capacity))))) = c.
Proof.
  change (resident (slab (new capacity))) with (∅ : gmap Z (Z * Z)). cbn [drop_nodes foldl].
  rewrite node_sum_insert_fresh by done. unfold node_sum. rewrite wsum_empty. lia.
Qed.

Lemma htinylfu_admission_test_witness :
  ∃ L vs s', slab_inv ∅ (slab (new 100)) L ∧
    (∃ i s1 s2, alloc 7 3 (slab (new 100)) = Some (i, s1) ∧ push_front WINDOW i s1 = Some s2 ∧
      admit_turn i (with_slab s2 (new 100)) = Some (vs, with_slab s' (new 100)) ∧ vs = []).
Proof.
  exists (λ _, []). destruct (node_admit (slab (new 100)) (λ _, []) WINDOW 7 3 slab_inv_new window_seg)
    as (i&s1&s2&node&Ha&Hp&_&Hi2&_); [lia|vm_compute; reflexivity|vm_compute; reflexivity|].
  destruct (htinylfu_admission_test (with_slab s2 (new 100)) _ [] i Hi2) as (vs&s'&L'&Ht&_&_&_&_&_&Hor).
  - apply (rows_ok_new 1000).
  - by rewrite upd_eq.
  - exists vs, s'. split; [apply slab_inv_new|]. exists i, s1, s2. split; [done|]. split; [done|]. split; [done|].
    destruct Hor as [(_&->&_)|((v&?&?&?&?&E&_)&_)]; [done|]. rewrite !upd_ne in E by done. done.
Defined.

Lemma htinylfu_evict_effect_witness :
  ∃ p vs p' L, ('(node, _, p) ← admit_key 7 1 (new 100); update node 1000 p) = Some p ∧
    slab_inv ∅ (slab p) L ∧ node_sum (resident (slab p)) = 1000 ∧ evict_nodes 900 p = Some (vs, p') ∧ vs = [].
Proof.
  destruct (htl_admit (new 100) 7 1 (htl_wf_new 100)) as (node&out&p1&L1&Ha&Hwf1&Hn&_&_&Hr1&_);
    [lia|vm_compute; reflexivity|vm_compute; reflexivity|].
  assert (Hc : ('(node, out, p) ← admit_key 7 1 (new 100); p2 ← update node 1000 p; '(vs, _) ← evict_nodes 900 p2;
    Some (out, sl_tail <$> vget (lists (slab p2)) PROBATION, sl_tail <$> vget (lists (slab p2)) PROTECTED)) =
    Some ([], Some NIL, Some NIL)) by (vm_compute; reflexivity).
  rewrite Ha in Hc. cbn [mbind option_bind] in Hc.
  assert (out = []) as ->.
  { destruct (update node 1000 p1) as [p2|]; [|done]. cbn [mbind option_bind] in Hc.
    destruct (evict_nodes 900 p2) as [[? ?]|]; [|done]. by injection Hc. }
  destruct (htl_update p1 node 7 1 1000 Hwf1) as (p2&Hu&((L2&Hi2)&_&Hp2&_)&Hr2).
  { rewrite Hr1. apply lookup_insert_eq. } { lia. }
  { rewrite Hr1, htl_one. u64_lia. }
  rewrite Hu in Hc. cbn [mbind option_bind] in Hc.
  destruct (htinylfu_evict_effect p2 L2 900 Hi2 Hp2) as (vs&p'&L'&He&_&_&_&_&_&_&Hnone); [lia|].
  rewrite He in Hc. cbn [mbind option_bind] in Hc. injection Hc as EB EP.
  exists p2, vs, p', L2. rewrite Ha. cbn [mbind option_bind]. split; [done|]. split; [done|]. split.
  { rewrite Hr2, (node_sum_insert _ _ _ _ 7 1); rewrite Hr1; [by rewrite htl_one|apply lookup_insert_eq]. }
  split; [done|]. apply Hnone.
  - destruct (list_vget _ _ _ _ Hi2 probation_seg) as [l Hl]. rewrite Hl in EB. injection EB as EB.
    destruct (tail_slot _ _ _ _ _ Hi2 probation_seg Hl) as [[_ ?]|[? _]]; done.
  - destruct (list_vget _ _ _ _ Hi2 protected_seg) as [l Hl]. rewrite Hl in EP. injection EP as EP.
    destruct (tail_slot _ _ _ _ _ Hi2 protected_seg Hl) as [[_ ?]|[? _]]; done.
Defined.
