(* ===== verification/HS3Fifo.v ===== *)
(** * S3-FIFO on node handles ([hpolicy::HS3Fifo]) *)

From S2P Require Import Prelude Slab Nodes ReadRing ShardPolicy.

Definition SMALL : Z := 0.
Definition MAIN : Z := 1.

Record HS3Fifo := mk_hs3 {
  slab : Slab Z;
  freq : list Z;
  small_target : Z;
  ghost : gset Z;
  ghost_order : list Z;
  ghost_cap : Z;
}.

Definition new (capacity : Z) : HS3Fifo :=
  mk_hs3 Slab.new [] (Z.max (capacity / 10) 1) ∅ [] (Z.max capacity 1).

Definition with_slab (s : Slab Z) (p : HS3Fifo) : HS3Fifo :=
  mk_hs3 s (freq p) (small_target p) (ghost p) (ghost_order p) (ghost_cap p).

Definition with_freq (f : list Z) (p : HS3Fifo) : HS3Fifo :=
  mk_hs3 (slab p) f (small_target p) (ghost p) (ghost_order p) (ghost_cap p).

Definition get_freq (i : Z) (p : HS3Fifo) : option Z := vget (freq p) i.

Definition set_freq (i f : Z) (p : HS3Fifo) : option HS3Fifo :=
  fs ← vset (freq p) i f; Some (with_freq fs p).

Definition bump (i : Z) (p : HS3Fifo) : option HS3Fifo :=
  f ← get_freq i p;
  if f <? 3 then set_freq i (f + 1) p else Some p.

Definition remember (hash : Z) (p : HS3Fifo) : HS3Fifo :=
  let '(g, o) :=
    if ghost_cap p <=? Z.of_nat (length (ghost_order p)) then
      match ghost_order p with
      | old :: o => (ghost p ∖ {[old]}, o)
      | [] => (ghost p, [])
      end
    else (ghost p, ghost_order p) in
  let '(g, o) := if decide (hash ∈ g) then (g, o) else ({[hash]} ∪ g, o ++ [hash]) in
  mk_hs3 (slab p) (freq p) (small_target p) g o (ghost_cap p).

(** The victim, its cost and the policy after. *)
Definition drop_node (i : Z) (p : HS3Fifo) : option (Victim * Z * HS3Fifo) :=
  cost ← vget (node_costs (slab p)) i;
  node ← id i (slab p);
  '(hash, s) ← release i (slab p);
  Some ((hash, node), cost, with_slab s p).

Definition evict_small (p : HS3Fifo) : option (list Victim * Z * HS3Fifo) :=
  l ← vget (lists (slab p)) SMALL;
  let t := sl_tail l in
  s1 ← unlink t (slab p);
  let p1 := with_slab s1 p in
  f ← get_freq t p1;
  if 1 <? f then
    p2 ← set_freq t 0 p1;
    s2 ← push_front MAIN t (slab p2);
    Some ([], 0, with_slab s2 p2)
  else
    hash ← hash_of t (slab p1);
    '(v, cost, p2) ← drop_node t p1;
    Some ([v], cost, remember hash p2).

Definition evict_main (p : HS3Fifo) : option (list Victim * Z * HS3Fifo) :=
  l ← vget (lists (slab p)) MAIN;
  let t := sl_tail l in
  s1 ← unlink t (slab p);
  let p1 := with_slab s1 p in
  f ← get_freq t p1;
  if 0 <? f then
    p2 ← set_freq t (f - 1) p1;
    s2 ← push_front MAIN t (slab p2);
    Some ([], 0, with_slab s2 p2)
  else
    '(v, cost, p2) ← drop_node t p1;
    Some ([v], cost, p2).

Definition admit_key (hash cost : Z) (p : HS3Fifo) : option (Z * HS3Fifo) :=
  let '(seg, g) := if decide (hash ∈ ghost p) then (MAIN, ghost p ∖ {[hash]}) else (SMALL, ghost p) in
  let p := mk_hs3 (slab p) (freq p) (small_target p) g (ghost_order p) (ghost_cap p) in
  '(i, s1) ← alloc hash cost (slab p);
  let p1 := with_slab s1 p in
  p2 ← (if Z.of_nat (length (freq p1)) <=? i then Some (with_freq (freq p1 ++ [0]) p1) else set_freq i 0 p1);
  s2 ← push_front seg i (slab p2);
  node ← id i s2;
  Some (node, with_slab s2 p2).

Definition update (node cost : Z) (p : HS3Fifo) : option HS3Fifo :=
  match resolve node (slab p) with
  | Some i => s ← set_cost i cost (slab p); Some (with_slab s p)
  | None => Some p
  end.

Definition remove (node : Z) (p : HS3Fifo) : option HS3Fifo :=
  match resolve node (slab p) with
  | Some i => s1 ← unlink i (slab p); '(_, s2) ← release i s1; Some (with_slab s2 p)
  | None => Some p
  end.

(** One turn of the loop of [evict]; [None] inside is the [break]. *)
Definition evict_turn (p : HS3Fifo) : option (option (list Victim * Z * HS3Fifo)) :=
  small ← vget (lists (slab p)) SMALL;
  main ← vget (lists (slab p)) MAIN;
  if negb (sl_tail small =? NIL) && ((small_target p <? sl_cost small) || (sl_tail main =? NIL))
  then r ← evict_small p; Some (Some r)
  else if negb (sl_tail main =? NIL) then r ← evict_main p; Some (Some r)
  else Some None.

Fixpoint evict_loop (fuel : nat) (cost_to_free freed : Z) (p : HS3Fifo) : option (list Victim * HS3Fifo) :=
  match fuel with
  | O => None
  | S fuel =>
      if freed <? cost_to_free then
        turn ← evict_turn p;
        match turn with
        | None => Some ([], p)
        | Some (vs, cost, p1) =>
            '(vs', p2) ← evict_loop fuel cost_to_free (freed +w cost) p1;
            Some (vs ++ vs', p2)
        end
      else Some ([], p)
  end.

(** Four turns per slot are enough: a node is promoted once and rotates at most three
    times before it is dropped. *)
Definition evict (cost_to_free : Z) (p : HS3Fifo) : option (list Victim * HS3Fifo) :=
  evict_loop (S (4 * length (links (slab p)))) cost_to_free 0 p.

(** [touch], under the read lock, and [apply_read]. *)
Definition touch (node : Z) (p : HS3Fifo) : option HS3Fifo :=
  match resolve node (slab p) with Some i => bump i p | None => Some p end.

Definition clear (p : HS3Fifo) : HS3Fifo :=
  mk_hs3 (Slab.clear (slab p)) (freq p) (small_target p) ∅ [] (ghost_cap p).

#[global] Instance hs3fifo_policy : ShardPolicy HS3Fifo := {
  sp_admit := λ hash cost p, '(node, p') ← admit_key hash cost p; Some (node, [], p');
  sp_update := update;
  sp_remove := remove;
  sp_evict := evict;
  sp_apply_reads := λ ring p, Some (ring, p);
  sp_touch := touch;
  sp_apply_read := touch;
  sp_clear := clear;
}.

(** ** Invariant *)

(** What a turn of [evict] uses up: a node of the small queue is promoted or dropped, a
    node of the main queue loses a unit of frequency or is dropped. *)
Definition node_weight (fs : list Z) (i : Z) : Z := 1 + default 0 (vget fs i).
Definition main_weight (fs : list Z) (ids : list Z) : Z := foldr (λ i w, node_weight fs i + w) 0 ids.
Definition weight (fs : list Z) (L : Z → list Z) : Z := 2 * Z.of_nat (length (L SMALL)) + main_weight fs (L MAIN).

Record hs3_inv (p : HS3Fifo) (L : Z → list Z) : Prop := {
  h3_slab : slab_inv ∅ (slab p) L;
  h3_two : L 2 = [];
  h3_len : (length (links (slab p)) ≤ length (freq p))%nat;
  h3_freq : Forall (λ f, 0 ≤ f ≤ 3) (freq p);
  h3_ghost : ghost p ⊆ list_to_set (ghost_order p);
  h3_order : Z.of_nat (length (ghost_order p)) ≤ ghost_cap p;
  h3_cap : 1 ≤ ghost_cap p;
}.

Lemma small_seg : is_seg SMALL.
Proof. unfold is_seg, SMALL. lia. Qed.
Lemma main_seg : is_seg MAIN.
Proof. unfold is_seg, MAIN. lia. Qed.
#[local] Hint Resolve small_seg main_seg : core.

Lemma main_weight_ext fs fs' ids : (∀ i, i ∈ ids → vget fs' i = vget fs i) → main_weight fs' ids = main_weight fs ids.
Proof.
  induction ids as [|i ids IH]; intros He; [done|]. simpl. rewrite IH by (intros j Hj; apply He; by right).
  unfold node_weight. rewrite He; [done|by left].
Qed.

Lemma main_weight_app fs ids js : main_weight fs (ids ++ js) = main_weight fs ids + main_weight fs js.
Proof. induction ids as [|i ids IH]; simpl; [done|]. rewrite IH. lia. Qed.

Lemma node_weight_bounds fs i : Forall (λ f, 0 ≤ f ≤ 3) fs → 1 ≤ node_weight fs i ≤ 4.
Proof.
  intros Hf. unfold node_weight, vget. destruct (0 <=? i); [|simpl; lia].
  destruct (fs !! Z.to_nat i) as [f|] eqn:E; [|simpl; lia]. pose proof (Forall_lookup_1 _ _ _ _ Hf E). simpl in *. lia.
Qed.

Lemma main_weight_le fs ids : Forall (λ f, 0 ≤ f ≤ 3) fs → 0 ≤ main_weight fs ids ≤ 4 * Z.of_nat (length ids).
Proof.
  intros Hf. induction ids as [|i ids IH]; cbn [main_weight foldr length]; [lia|].
  change (foldr _ _ ids) with (main_weight fs ids). pose proof (node_weight_bounds fs i Hf). lia.
Qed.

Lemma weight_fuel p L : hs3_inv p L → 0 ≤ weight (freq p) L ≤ 4 * Z.of_nat (length (links (slab p))).
Proof.
  intros Hi. unfold weight. pose proof (main_weight_le _ (L MAIN) (h3_freq _ _ Hi)).
  pose proof (live_slots_perm _ _ (h3_slab _ _ Hi)) as Hp%Permutation_length. unfold all_slots in Hp.
  rewrite !length_app, (h3_two _ _ Hi) in Hp. change (L 0) with (L SMALL) in Hp. change (L 1) with (L MAIN) in Hp. simpl in Hp.
  assert (length (live_slots (slab p)) ≤ length (links (slab p)))%nat.
  { unfold live_slots. etrans; [apply length_filter|]. rewrite length_seqZ. lia. }
  lia.
Qed.

Lemma Forall_vset fs i f fs' : Forall (λ f, 0 ≤ f ≤ 3) fs → 0 ≤ f ≤ 3 → vset fs i f = Some fs' → Forall (λ f, 0 ≤ f ≤ 3) fs'.
Proof.
  intros Hf Hr. unfold vset. destruct (vget fs i); [|done]. intros [= <-]. by apply Forall_insert.
Qed.

(** A live slot has a frequency. *)
Lemma freq_live p L g i : hs3_inv p L → is_seg g → i ∈ L g → ∃ f, get_freq i p = Some f ∧ 0 ≤ f ≤ 3.
Proof.
  intros Hi Hg [E _]%(si_in _ _ _ (h3_slab _ _ Hi) g i Hg). destruct (seg_vget _ _ _ E) as (l&Hl&_).
  apply vget_Some in Hl. pose proof (h3_len _ _ Hi). destruct (vget_lt (freq p) i) as [f Hf]; [lia|].
  exists f. split; [done|]. unfold vget in Hf. destruct (0 <=? i); [|done]. by apply (Forall_lookup_1 _ _ _ _ (h3_freq _ _ Hi) Hf).
Qed.

Lemma set_freq_spec p i f f0 : get_freq i p = Some f0 → Forall (λ f, 0 ≤ f ≤ 3) (freq p) → 0 ≤ f ≤ 3 →
  ∃ fs, set_freq i f p = Some (with_freq fs p) ∧ length fs = length (freq p) ∧ Forall (λ f, 0 ≤ f ≤ 3) fs ∧
    ∀ j, vget fs j = if decide (j = i) then Some f else vget (freq p) j.
Proof.
  intros Hg Hf Hr. destruct (vset_spec _ _ f _ Hg) as (fs&E&Hl&Hj). exists fs. unfold set_freq. rewrite E.
  split; [done|]. split; [done|]. split; [by eapply Forall_vset|done].
Qed.

(** [remember] keeps the ghosts bounded. *)
Lemma remember_ghosts p hash :
  ghost p ⊆ list_to_set (ghost_order p) → Z.of_nat (length (ghost_order p)) ≤ ghost_cap p → 1 ≤ ghost_cap p →
  ghost (remember hash p) ⊆ list_to_set (ghost_order (remember hash p)) ∧
  Z.of_nat (length (ghost_order (remember hash p))) ≤ ghost_cap p ∧ hash ∈ ghost (remember hash p).
Proof.
  intros Hg Ho Hc. unfold remember.
  destruct (Z.leb_spec (ghost_cap p) (Z.of_nat (length (ghost_order p)))).
  - destruct (ghost_order p) as [|old o] eqn:E; [simpl in *; lia|]. simpl in Ho. case_decide; simpl.
    + split; [set_solver|]. split; [lia|done].
    + rewrite length_app. simpl. split; [set_solver|]. split; [lia|set_solver].
  - case_decide; simpl; [done|]. rewrite length_app. simpl. split; [set_solver|]. split; [lia|set_solver].
Qed.

Lemma hs3_inv_slab p L s' L' :
  hs3_inv p L → slab_inv ∅ s' L' → L' 2 = [] → length (links s') = length (links (slab p)) → hs3_inv (with_slab s' p) L'.
Proof. intros [] ???. split; simpl; try done. congruence. Qed.

Lemma hs3_inv_freq p L fs :
  hs3_inv p L → length fs = length (freq p) → Forall (λ f, 0 ≤ f ≤ 3) fs → hs3_inv (with_freq fs p) L.
Proof. intros [] ??. split; simpl; try done. congruence. Qed.

Lemma hs3_inv_remember p L hash : hs3_inv p L → hs3_inv (remember hash p) L.
Proof.
  intros []. destruct (remember_ghosts p hash) as (?&?&_); [done..|].
  assert (slab (remember hash p) = slab p ∧ freq (remember hash p) = freq p ∧ ghost_cap (remember hash p) = ghost_cap p) as (E1&E2&E3).
  { unfold remember. repeat case_match; done. }
  split; rewrite ?E1, ?E2, ?E3; done.
Qed.

Lemma remember_same hash p : slab (remember hash p) = slab p ∧ freq (remember hash p) = freq p ∧
  small_target (remember hash p) = small_target p ∧ ghost_cap (remember hash p) = ghost_cap p.
Proof. unfold remember. repeat case_match; done. Qed.

(** ** One turn *)

(** The tail [t] of queue [g] is dropped. *)
Lemma hs3_drop p L g l1 t :
  hs3_inv p L → is_seg g → L g = l1 ++ [t] →
  ∃ s1 v s2, unlink t (slab p) = Some s1 ∧ hash_of t s1 = Some v.1 ∧
    drop_node t (with_slab s1 p) = Some (v, cost_at (slab p) t, with_slab s2 p) ∧
    hs3_inv (with_slab s2 p) (upd L g l1) ∧ dropped (slab p) [v] s2 ∧
    cost_at (slab p) t = node_sum (resident (slab p)) - node_sum (resident s2).
Proof.
  intros Hi Hg HL. destruct (node_drop _ L g t l1 [] (h3_slab _ _ Hi) Hg HL)
    as (s1&node&h&s2&Hu&Hid&Hp&Hc&Hr&Hi2&_&_&_&Hres&Hdel&Hlen). rewrite app_nil_r in Hi2.
  exists s1, (h, node), s2. split; [done|]. split; [unfold hash_of; by rewrite Hp|].
  split; [unfold drop_node; simpl; rewrite Hc; simpl; rewrite Hid; simpl; by rewrite Hr|].
  split; [apply (hs3_inv_slab p L); try done|].
  { unfold upd. case_decide as E; [|apply Hi]. subst g. rewrite (h3_two _ _ Hi) in HL. by destruct l1. }
  split; [split; [eapply victims_ok_cons; [exact Hres|apply victims_ok_nil]|done]|].
  rewrite Hdel, (node_sum_delete _ _ _ _ Hres). lia.
Qed.

(** The tail [t] of queue [g] goes to the front of the main queue with frequency [f]. *)
Lemma hs3_requeue p L g l1 t f :
  hs3_inv p L → is_seg g → g ≠ 2 → L g = l1 ++ [t] → 0 ≤ f ≤ 3 →
  ∃ s1 p2 s2 L', unlink t (slab p) = Some s1 ∧ set_freq t f (with_slab s1 p) = Some p2 ∧
    push_front MAIN t (slab p2) = Some s2 ∧ hs3_inv (with_slab s2 p2) L' ∧
    dropped (slab p) [] s2 ∧ resident s2 = resident (slab p) ∧
    L' = upd (upd L g l1) MAIN (t :: upd L g l1 MAIN) ∧ small_target p2 = small_target p ∧
    ∀ j, vget (freq p2) j = if decide (j = t) then Some f else vget (freq p) j.
Proof.
  intros Hi Hg Hg2 HL Hf. destruct (node_move _ L g MAIN t l1 [] (h3_slab _ _ Hi) Hg main_seg HL)
    as (s1&s2&Hu&Hpf&Hi2&Hr&Hsn&_). rewrite app_nil_r in Hi2.
  destruct (freq_live p L g t Hi Hg) as (f0&Hf0&_); [rewrite HL; set_solver|].
  destruct (set_freq_spec (with_slab s1 p) t f f0 Hf0 (h3_freq _ _ Hi) Hf) as (fs&Hsf&Hlf&Hall&Hget).
  exists s1, (with_freq fs (with_slab s1 p)), s2. eexists. split; [done|]. split; [done|]. split; [done|].
  split; [|split; [by apply dropped_refl; [|apply Hsn]|done]].
  apply (hs3_inv_slab (with_freq fs p) L); [by apply hs3_inv_freq|done| |apply Hsn].
  rewrite !upd_ne by done. apply Hi.
Qed.

Definition turn_ok (p : HS3Fifo) (L : Z → list Z) (vs : list Victim) (cost : Z) (p' : HS3Fifo) (L' : Z → list Z) : Prop :=
  hs3_inv p' L' ∧ dropped (slab p) vs (slab p') ∧
  cost = node_sum (resident (slab p)) - node_sum (resident (slab p')) ∧
  weight (freq p') L' < weight (freq p) L.

Lemma tail_nodup p L g l1 t : hs3_inv p L → is_seg g → L g = l1 ++ [t] → t ∉ l1.
Proof.
  intros Hi Hg HL. destruct (si_list _ _ _ (h3_slab _ _ Hi) g Hg) as (?&_&(Hnd&_)&_). rewrite HL in Hnd.
  apply NoDup_app in Hnd as (_&Hd&_). intros Hin. apply (Hd t Hin). by left.
Qed.

Lemma evict_small_spec p L l1 t l :
  hs3_inv p L → vget (lists (slab p)) SMALL = Some l → sl_tail l = t → L SMALL = l1 ++ [t] →
  ∃ vs cost p' L', evict_small p = Some (vs, cost, p') ∧ turn_ok p L vs cost p' L'.
Proof.
  intros Hi Hl Ht HL. unfold evict_small. rewrite Hl. cbn [mbind option_bind]. rewrite Ht.
  assert (Hin : t ∈ L SMALL) by (rewrite HL; set_solver).
  destruct (freq_live p L SMALL t Hi small_seg Hin) as (f&Hf&Hfr).
  destruct (hs3_drop p L SMALL l1 t Hi small_seg HL) as (s1&v&s2&Hu&Hh&Hd&Hi2&Hdr&Hcost).
  rewrite Hu. cbn [mbind option_bind]. change (get_freq t (with_slab s1 p)) with (get_freq t p). rewrite Hf.
  cbn [mbind option_bind]. destruct (Z.ltb_spec 1 f).
  - destruct (hs3_requeue p L SMALL l1 t 0 Hi small_seg) as (s1'&p2&s3&L'&Hu'&Hsf&Hpf&Hi3&Hd3&Hr3&EL&_&Hget); [done..|lia|].
    rewrite Hu in Hu'. injection Hu' as <-. rewrite Hsf. cbn [mbind option_bind]. rewrite Hpf. cbn [mbind option_bind].
    eexists [], 0, _, L'. split; [done|]. split; [done|]. split; [done|]. split; [simpl; rewrite Hr3; lia|].
    assert (HtM : t ∉ L MAIN) by (intros HtM; by apply (L_disjoint _ _ _ SMALL MAIN t (h3_slab _ _ Hi)) in HtM).
    unfold weight. subst L'. rewrite upd_eq, !upd_ne, upd_eq by done. rewrite (upd_ne L SMALL l1 MAIN) by done.
    rewrite HL, length_app. cbn [main_weight foldr length freq with_slab]. change (foldr _ 0 (L MAIN)) with (main_weight (freq p2) (L MAIN)).
    rewrite (main_weight_ext (freq p)).
    { unfold node_weight. rewrite Hget, decide_True by done. simpl. lia. }
    intros j Hj. rewrite Hget, decide_False; [done|]. by intros ->.
  - cbn [slab with_slab]. rewrite Hh. cbn [mbind option_bind]. rewrite Hd. cbn [mbind option_bind].
    destruct (remember_same v.1 (with_slab s2 p)) as (Es&Ef&_).
    eexists [v], _, _, (upd L SMALL l1). split; [done|]. split; [by apply hs3_inv_remember|].
    rewrite Es, Ef. split; [done|]. split; [done|]. unfold weight. rewrite upd_eq, upd_ne by done.
    cbn [freq with_slab]. rewrite HL, length_app. simpl. lia.
Qed.

Lemma evict_main_spec p L l1 t l :
  hs3_inv p L → vget (lists (slab p)) MAIN = Some l → sl_tail l = t → L MAIN = l1 ++ [t] →
  ∃ vs cost p' L', evict_main p = Some (vs, cost, p') ∧ turn_ok p L vs cost p' L'.
Proof.
  intros Hi Hl Ht HL. unfold evict_main. rewrite Hl. cbn [mbind option_bind]. rewrite Ht.
  assert (Hin : t ∈ L MAIN) by (rewrite HL; set_solver). pose proof (tail_nodup _ _ _ _ _ Hi main_seg HL) as Hnt.
  destruct (freq_live p L MAIN t Hi main_seg Hin) as (f&Hf&Hfr).
  destruct (hs3_drop p L MAIN l1 t Hi main_seg HL) as (s1&v&s2&Hu&Hh&Hd&Hi2&Hdr&Hcost).
  rewrite Hu. cbn [mbind option_bind]. change (get_freq t (with_slab s1 p)) with (get_freq t p). rewrite Hf.
  cbn [mbind option_bind]. unfold weight. destruct (Z.ltb_spec 0 f).
  - destruct (hs3_requeue p L MAIN l1 t (f - 1) Hi main_seg) as (s1'&p2&s3&L'&Hu'&Hsf&Hpf&Hi3&Hd3&Hr3&EL&_&Hget); [done..|lia|].
    rewrite Hu in Hu'. injection Hu' as <-. rewrite Hsf. cbn [mbind option_bind]. rewrite Hpf. cbn [mbind option_bind].
    eexists [], 0, _, L'. split; [done|]. split; [done|]. split; [done|]. split; [simpl; rewrite Hr3; lia|].
    unfold weight. subst L'. rewrite !upd_eq, !upd_ne by done.
    rewrite HL, main_weight_app. cbn [main_weight foldr freq with_slab]. change (foldr _ 0 l1) with (main_weight (freq p2) l1).
    rewrite (main_weight_ext (freq p)).
    { unfold node_weight. rewrite Hget, decide_True by done. unfold get_freq in Hf. rewrite Hf. simpl. lia. }
    intros j Hj. rewrite Hget, decide_False; [done|]. by intros ->.
  - rewrite Hd. cbn [mbind option_bind]. eexists [v], _, _, (upd L MAIN l1). split; [done|]. split; [done|].
    split; [done|]. split; [done|]. unfold weight. rewrite upd_eq, upd_ne by done. cbn [freq with_slab].
    rewrite HL, main_weight_app. cbn [main_weight foldr]. pose proof (node_weight_bounds (freq p) t (h3_freq _ _ Hi)). lia.
Qed.

Lemma hs3_evict_turn_spec p L :
  hs3_inv p L →
  (evict_turn p = Some None ∧ resident (slab p) = ∅) ∨
  ∃ vs cost p' L', evict_turn p = Some (Some (vs, cost, p')) ∧ turn_ok p L vs cost p' L'.
Proof.
  intros Hi. pose proof (h3_slab _ _ Hi) as Hs. unfold evict_turn.
  destruct (list_vget _ _ _ _ Hs small_seg) as [ls Hls], (list_vget _ _ _ _ Hs main_seg) as [lm Hlm].
  rewrite Hls, Hlm. cbn [mbind option_bind].
  destruct (tail_slot _ _ _ _ _ Hs small_seg Hls) as [[E1 EL1]|[Hn1 [l1 EL1]]],
    (tail_slot _ _ _ _ _ Hs main_seg Hlm) as [[E2 EL2]|[Hn2 [l2 EL2]]].
  - left. rewrite E1, E2, Z.eqb_refl. split; [done|]. rewrite (resident_all _ L Hs). unfold all_slots.
    change (L 0) with (L SMALL). change (L 1) with (L MAIN). by rewrite EL1, EL2, (h3_two _ _ Hi).
  - right. rewrite E1, Z.eqb_refl. destruct (Z.eqb_spec (sl_tail lm) NIL); [done|]. cbn [negb andb].
    destruct (evict_main_spec p L l2 _ lm Hi Hlm eq_refl EL2) as (vs&c&p'&L'&->&?). cbn [mbind option_bind]. eauto 10.
  - right. rewrite E2, Z.eqb_refl. destruct (Z.eqb_spec (sl_tail ls) NIL); [done|]. cbn [negb andb]. rewrite orb_true_r.
    destruct (evict_small_spec p L l1 _ ls Hi Hls eq_refl EL1) as (vs&c&p'&L'&->&?). cbn [mbind option_bind]. eauto 10.
  - right. destruct (Z.eqb_spec (sl_tail ls) NIL); [done|]. destruct (Z.eqb_spec (sl_tail lm) NIL); [done|].
    cbn [negb andb]. rewrite orb_false_r. destruct (small_target p <? sl_cost ls).
    + destruct (evict_small_spec p L l1 _ ls Hi Hls eq_refl EL1) as (vs&c&p'&L'&->&?). cbn [mbind option_bind]. eauto 10.
    + destruct (evict_main_spec p L l2 _ lm Hi Hlm eq_refl EL2) as (vs&c&p'&L'&->&?). cbn [mbind option_bind]. eauto 10.
Qed.

(** ** The operations *)

Lemma evict_loop_spec fuel c freed p L :
  hs3_inv p L → weight (freq p) L < Z.of_nat fuel → 0 ≤ freed → freed + node_sum (resident (slab p)) < U64 →
  ∃ vs p' L', evict_loop fuel c freed p = Some (vs, p') ∧ hs3_inv p' L' ∧ dropped (slab p) vs (slab p') ∧
    (c ≤ freed + (node_sum (resident (slab p)) - node_sum (resident (slab p'))) ∨ resident (slab p') = ∅).
Proof.
  revert freed p L. induction fuel as [|fuel IH]; intros freed p L Hi Hf Hfr Hlt.
  { pose proof (weight_fuel p L Hi). lia. }
  cbn [evict_loop]. destruct (Z.ltb_spec freed c).
  2:{ exists [], p, L. split; [done|]. split; [done|]. split; [by apply dropped_refl|]. left. lia. }
  destruct (hs3_evict_turn_spec p L Hi) as [[-> E]|(vs&cost&p1&L1&->&Hi1&Hd1&Hc1&Hw)]; cbn [mbind option_bind].
  { exists [], p, L. split; [done|]. split; [done|]. split; [by apply dropped_refl|]. by right. }
  pose proof (dropped_sum _ _ _ _ (h3_slab _ _ Hi) Hd1) as [? ?].
  rewrite u64_add_small by lia.
  destruct (IH (freed + cost) p1 L1 Hi1) as (vs'&p2&L2&->&Hi2&Hd2&Hend); [lia..|]. cbn [mbind option_bind].
  exists (vs ++ vs'), p2, L2. split; [done|]. split; [done|]. split; [by eapply dropped_trans|].
  destruct Hend as [?|?]; [left; lia|by right].
Qed.

Definition hs3_wf (p : HS3Fifo) : Prop := ∃ L, hs3_inv p L.

Lemma hs3_evict p c :
  hs3_wf p → ∃ vs p', evict c p = Some (vs, p') ∧ hs3_wf p' ∧ dropped (slab p) vs (slab p') ∧
    (c ≤ node_sum (resident (slab p)) - node_sum (resident (slab p')) ∨ resident (slab p') = ∅).
Proof.
  intros [L Hi]. unfold evict. pose proof (weight_fuel p L Hi).
  pose proof (dropped_sum _ _ _ _ (h3_slab _ _ Hi) (dropped_refl (slab p) (slab p) eq_refl eq_refl)).
  destruct (evict_loop_spec (S (4 * length (links (slab p)))) c 0 p L Hi) as (vs&p'&L'&->&Hi'&Hd&Hend); [lia..|].
  exists vs, p'. split; [done|]. split; [by exists L'|]. split; [done|]. destruct Hend; [left; lia|by right].
Qed.

Lemma freq_alloc p (s1 : Slab Z) i :
  (length (links s1) ≤ Nat.max (length (freq p)) (S (Z.to_nat i)))%nat → 0 ≤ i →
  i ≤ Z.of_nat (length (freq p)) → Forall (λ f, 0 ≤ f ≤ 3) (freq p) →
  ∃ fs, (if Z.of_nat (length (freq p)) <=? i then Some (with_freq (freq p ++ [0]) p) else set_freq i 0 p) =
      Some (with_freq fs p) ∧ (length (links s1) ≤ length fs)%nat ∧ Forall (λ f, 0 ≤ f ≤ 3) fs.
Proof.
  intros Hlen Hi0 Hle Hf. destruct (Z.leb_spec (Z.of_nat (length (freq p))) i).
  - exists (freq p ++ [0]). split; [done|]. rewrite length_app. simpl. split; [lia|]. apply Forall_app. split; [done|].
    repeat constructor; lia.
  - destruct (vget_lt (freq p) i) as [f0 Hf0]; [lia|].
    destruct (set_freq_spec p i 0 f0 Hf0 Hf) as (fs&->&Hl&Hall&_); [lia|]. exists fs. split; [done|]. split; [lia|done].
Qed.

Lemma hs3_admit p hash cost :
  hs3_wf p → 0 ≤ cost → node_sum (resident (slab p)) + cost < U64 → Z.of_nat (size (resident (slab p))) < NIL →
  ∃ node p', admit_key hash cost p = Some (node, p') ∧ hs3_wf p' ∧ is_node node ∧
    resident (slab p) !! node = None ∧ resident (slab p') = <[node := (hash, cost)]> (resident (slab p)) ∧
    ghost p' = ghost p ∖ {[hash]} ∧
    (∃ i, resolve node (slab p') = Some i ∧ seg_of (slab p') i = Some (if decide (hash ∈ ghost p) then MAIN else SMALL)).
Proof.
  intros [L Hi] Hc Hsum Hsz. unfold admit_key.
  set (seg := if decide (hash ∈ ghost p) then MAIN else SMALL).
  replace (if decide (hash ∈ ghost p) then (MAIN, ghost p ∖ {[hash]}) else (SMALL, ghost p)) with (seg, ghost p ∖ {[hash]})
    by (unfold seg; case_decide; [done|f_equal; set_solver]).
  set (p0 := mk_hs3 _ _ _ _ _ _). assert (Hseg : is_seg seg) by (unfold seg; case_decide; auto).
  assert (Hi0 : hs3_inv p0 L) by (destruct Hi; split; simpl; try done; set_solver).
  destruct (node_admit (slab p0) L seg hash cost (h3_slab _ _ Hi0) Hseg Hc)
    as (i&s1&s2&node&Ha&Hpf&Hid&Hi2&Hfresh&Hr&_&Hir&_&Hlen&_).
  { unfold node_sum in Hsum. by rewrite <- (resident_sum _ _ (h3_slab _ _ Hi0)). } { done. }
  rewrite Ha. cbn [mbind option_bind]. pose proof (h3_len _ _ Hi0) as Hfl.
  change (slab p0) with (slab p) in *. change (freq p0) with (freq p) in *.
  assert (Hli : i < Z.of_nat (length (links s2)) ∧ i ≤ Z.of_nat (length (links (slab p)))).
  { split; [lia|]. unfold alloc in Ha. destruct (last (free (slab p))) as [j|] eqn:El.
    - assert (Hj : j ∈ free (slab p)) by (apply last_Some in El as [? ->]; set_solver).
      apply (si_free _ _ _ (h3_slab _ _ Hi0)) in Hj as [(l&Hl&_)%seg_vget _]. apply vget_Some in Hl.
      apply bind_Some in Ha as (?&_&(?&_&[= <- _])%bind_Some). simpl in Hl. lia.
    - injection Ha as <- _. unfold u64_sub. etrans; [apply Z.mod_le; [apply Z.mod_pos_bound|]; done|].
      etrans; [apply Z.mod_le; [lia|done]|simpl; lia]. }
  destruct (freq_alloc (with_slab s1 p0) s2 i) as (fs&->&Hfs&Hall); [simpl; lia|done|simpl; lia|apply Hi0|].
  cbn [mbind option_bind slab with_freq with_slab]. rewrite Hpf. cbn [mbind option_bind]. rewrite Hid. cbn [mbind option_bind].
  eexists node, _. split; [done|]. split; [|split; [|split; [done|split; [done|split; [done|]]]]].
  - eexists. destruct Hi0. split; [exact Hi2| |done|done|done|done|done]. rewrite upd_ne; [done|]. unfold seg. by case_decide.
  - apply (resident_ids s2 _ Hi2 node (hash, cost)). by rewrite Hr, lookup_insert_eq.
  - exists i. cbn [slab with_slab]. assert (Hn : is_node node).
    { apply (resident_ids s2 _ Hi2 node (hash, cost)). by rewrite Hr, lookup_insert_eq. }
    assert (Hin : i ∈ upd L seg (i :: L seg) seg) by (rewrite upd_eq; by left). split.
    + apply (resolve_spec s2 _ node i Hi2); [apply Hn|]. split; [done|]. by exists seg.
    + by apply (si_in _ _ _ Hi2 seg i Hseg) in Hin as [? _].
Qed.

Lemma hs3_update p node hash cost0 cost :
  hs3_wf p → resident (slab p) !! node = Some (hash, cost0) → 0 ≤ cost →
  node_sum (resident (slab p)) - cost0 + cost < U64 →
  ∃ p', update node cost p = Some p' ∧ hs3_wf p' ∧
    resident (slab p') = <[node := (hash, cost)]> (resident (slab p)).
Proof.
  intros [L Hi] Hres Hc Hsum. pose proof (h3_slab _ _ Hi) as Hs. pose proof (resident_ids _ _ Hs node _ Hres) as Hn. simpl in Hn.
  unfold update. destruct (resolve_live _ _ _ _ _ Hs (proj1 Hn) Hres) as (i&g&l1&l2&->&Hg&HL&_&Hni).
  pose proof Hni as (_&_&Hcost).
  destruct (node_cost (slab p) L g i cost node hash Hs Hg) as (s1&->&Hi1&El&_&Hr1).
  { rewrite HL. set_solver. } { done. }
  { unfold node_sum in Hsum. rewrite <- (resident_sum _ _ Hs). lia. } { by rewrite Hcost. }
  cbn [mbind option_bind]. eexists. split; [done|]. split; [|done]. exists L.
  apply (hs3_inv_slab p L); [done|done|apply Hi|by rewrite El].
Qed.

Lemma hs3_remove p node :
  hs3_wf p → 0 ≤ node →
  ∃ p', remove node p = Some p' ∧ hs3_wf p' ∧ resident (slab p') = delete node (resident (slab p)).
Proof.
  intros [L Hi] Hn. pose proof (h3_slab _ _ Hi) as Hs. unfold remove.
  destruct (resident (slab p) !! node) as [[h c]|] eqn:E.
  - destruct (resolve_live _ _ _ _ _ Hs Hn E) as (i&g&l1&l2&->&Hg&HL&_&(Hid&_)).
    destruct (node_drop _ L g i l1 l2 Hs Hg HL) as (s1&n'&h'&s2&->&_&_&_&Hr&Hi2&_&_&Hid'&_&Hdel&Hlen).
    cbn [mbind option_bind]. rewrite Hr. cbn [mbind option_bind]. rewrite Hid in Hid'. injection Hid' as <-.
    eexists. split; [done|]. split; [|done]. eexists. eapply (hs3_inv_slab p L); [done|exact Hi2| |done].
    unfold upd. case_decide as E2; [|apply Hi]. subst g. rewrite (h3_two _ _ Hi) in HL. by destruct l1.
  - rewrite (resolve_stale _ _ _ Hs Hn E), delete_id by done. exists p. split; [done|]. split; [by exists L|done].
Qed.

Lemma hs3_touch p node :
  hs3_wf p → 0 ≤ node → ∃ p', touch node p = Some p' ∧ hs3_wf p' ∧ resident (slab p') = resident (slab p).
Proof.
  intros [L Hi] Hn. pose proof (h3_slab _ _ Hi) as Hs. unfold touch. destruct (resolve node (slab p)) as [i|] eqn:E.
  - apply (resolve_spec _ _ _ _ Hs Hn) in E as [_ (g&Hg&Hin)]. unfold bump.
    destruct (freq_live p L g i Hi Hg Hin) as (f&Hf&Hr). rewrite Hf. cbn [mbind option_bind].
    destruct (Z.ltb_spec f 3); [|exists p; split; [done|]; split; [by exists L|done]].
    destruct (set_freq_spec p i (f + 1) f Hf (h3_freq _ _ Hi)) as (fs&->&Hl&Hall&_); [lia|].
    eexists. split; [done|]. split; [|done]. exists L. by apply hs3_inv_freq.
  - exists p. split; [done|]. split; [by exists L|done].
Qed.

Lemma hs3_clear p : hs3_wf p → hs3_wf (clear p) ∧ resident (slab (clear p)) = ∅.
Proof.
  intros [L []]. split; [|done]. exists (λ _, []). split; simpl; try done; [apply slab_inv_new|lia|lia].
Qed.

Lemma hs3_wf_new capacity : hs3_wf (new capacity).
Proof. exists (λ _, []). split; simpl; try done; [apply slab_inv_new|lia|lia]. Qed.

#[global] Instance hs3fifo_laws : ShardPolicyLaws HS3Fifo.
Proof.
  refine {| shard_wf := hs3_wf; nodes p := resident (slab p) |}.
  - intros p [L Hi]. by eapply resident_fit, Hi.
  - intros p [L Hi]. by eapply resident_ids, Hi.
  - intros p hash cost Hwf Hc Hs Hz. destruct (hs3_admit p hash cost Hwf Hc Hs Hz) as (node&p'&E&?&?&?&?&_).
    exists node, [], p'. cbn [sp_admit hs3fifo_policy]. rewrite E. do 4 (split; [done|]). split; [apply victims_ok_nil|done].
  - apply hs3_update.
  - apply hs3_remove.
  - intros p c Hwf _ _. destruct (hs3_evict p c Hwf) as (vs&p'&E&Hwf'&(Hv&Hr&_)&_). by exists vs, p'.
  - intros p ring Hwf. exists ring, p. do 3 (split; [done|]). by right.
  - intros p node Hwf Hn. by apply hs3_touch.
  - intros p node Hwf Hn. by apply hs3_touch.
  - apply hs3_clear.
Defined.

#[global] Instance hs3fifo_enough : ShardEvictsEnough HS3Fifo.
Proof.
  intros p c out p' Hwf _ _ E. destruct (hs3_evict p c Hwf) as (vs&p2&E2&_&_&Hend).
  cbn [sp_evict hs3fifo_policy] in E. rewrite E in E2. by simplify_eq.
Qed.

(** ** Properties *)

Lemma size_list_to_set_le (l : list Z) : (size (list_to_set l : gset Z) ≤ length l)%nat.
Proof.
  induction l as [|x l IH]; [by rewrite list_to_set_nil, size_empty|]. rewrite list_to_set_cons. simpl.
  destruct (decide (x ∈ (list_to_set l : gset Z))).
  - replace ({[x]} ∪ list_to_set l) with (list_to_set l : gset Z) by set_solver. lia.
  - rewrite size_union by set_solver. rewrite size_singleton. lia.
Qed.

(** C39: [evict] returns within the turns allowed, whatever the frequencies; its victims
    are distinct resident nodes under their hashes, exactly they leave the policy, and
    it stops before freeing the asked cost only when nothing is resident. The ghosts
    stay within the capacity. *)
Theorem hs3fifo_evict_complete p c :
  hs3_wf p →
  ∃ vs p', evict c p = Some (vs, p') ∧ hs3_wf p' ∧ victims_ok (resident (slab p)) vs ∧
    resident (slab p') = drop_nodes vs (resident (slab p)) ∧
    (c ≤ node_sum (resident (slab p)) - node_sum (resident (slab p')) ∨ resident (slab p') = ∅) ∧
    Z.of_nat (size (ghost p')) ≤ ghost_cap p'.
Proof.
  intros Hwf. destruct (hs3_evict p c Hwf) as (vs&p'&E&Hwf'&(Hv&Hr&_)&Hend). exists vs, p'.
  do 5 (split; [done|]). destruct Hwf' as [L' Hi']. pose proof (h3_order _ _ Hi').
  assert (size (ghost p') ≤ length (ghost_order p'))%nat; [|lia].
  etrans; [apply subseteq_size, (h3_ghost _ _ Hi')|apply size_list_to_set_le].
Qed.

(** An entry that falls out of the small queue comes back into the main queue: when
    [evict_small] drops a node, admitting its hash again puts it in the main queue, and
    a hash that is no ghost goes to the small queue. *)
Theorem hs3fifo_ghost_to_main p v cost0 p1 cost :
  hs3_wf p → evict_small p = Some ([v], cost0, p1) → 0 ≤ cost →
  hs3_wf p1 → node_sum (resident (slab p1)) + cost < U64 → Z.of_nat (size (resident (slab p1))) < NIL →
  v.1 ∈ ghost p1 ∧
  ∀ hash, ∃ node p2 i, admit_key hash cost p1 = Some (node, p2) ∧ resolve node (slab p2) = Some i ∧
    seg_of (slab p2) i = Some (if decide (hash ∈ ghost p1) then MAIN else SMALL) ∧ hash ∉ ghost p2.
Proof.
  intros [L Hi] He Hc Hwf1 Hsum Hsz. split.
  - unfold evict_small in He. apply bind_Some in He as (l&_&(s1&_&(f&_&He)%bind_Some)%bind_Some).
    destruct (1 <? f); [by apply bind_Some in He as (?&_&(?&_&?)%bind_Some)|].
    apply bind_Some in He as (h&Hh&([[v' c'] p2]&Hd&[= -> -> <-])%bind_Some).
    assert (v.1 = h ∧ ghost p2 = ghost p ∧ ghost_order p2 = ghost_order p ∧ ghost_cap p2 = ghost_cap p) as [-> (E1&E2&E3)].
    { unfold drop_node in Hd. apply bind_Some in Hd as (c&_&(n&_&([h' s]&Hr&[= <- _ <-])%bind_Some)%bind_Some).
      split; [|done]. simpl. unfold hash_of in Hh. unfold release in Hr. simpl in Hr.
      apply bind_Some in Hr as (?&_&(?&_&(o&Ho&(?&_&(q&Hq&[= <- _])%bind_Some)%bind_Some)%bind_Some)%bind_Some).
      simpl in Hh. rewrite Ho in Hh. simpl in Hh. congruence. }
    destruct Hi. eapply remember_ghosts; rewrite ?E1, ?E2, ?E3; done.
  - intros hash. destruct (hs3_admit p1 hash cost Hwf1 Hc Hsum Hsz) as (node&p2&E&_&_&_&_&Eg&i&?&?).
    exists node, p2, i. do 3 (split; [done|]). rewrite Eg. set_solver.
Qed.

Lemma hs3fifo_evict_complete_witness :
  ∃ p1 vs p', admit_key 7 3 (new 20) = Some (0, p1) ∧ evict 2 p1 = Some (vs, p') ∧ vs = [(7, 0)] ∧
    Z.of_nat (size (ghost p')) ≤ ghost_cap p'.
Proof.
  destruct (hs3_admit (new 20) 7 3 (hs3_wf_new 20)) as (n&p1&Ha&Hwf&_); [lia|vm_compute; reflexivity|vm_compute; reflexivity|].
  assert (Hc : ('(n, p) ← admit_key 7 3 (new 20); '(vs, _) ← evict 2 p; Some (n, vs)) = Some (0, [(7, 0)]))
    by (vm_compute; reflexivity).
  rewrite Ha in Hc. cbn [mbind option_bind] in Hc.
  destruct (hs3fifo_evict_complete p1 2 Hwf) as (vs&p'&He&_&_&_&_&Hg).
  rewrite He in Hc. cbn [mbind option_bind] in Hc. injection Hc as -> ->. exists p1, [(7, 0)], p'. auto.
Defined.

Lemma hs3fifo_ghost_to_main_witness :
  ∃ p1 p2 p3 i, admit_key 7 3 (new 20) = Some (0, p1) ∧ evict_small p1 = Some ([(7, 0)], 3, p2) ∧
    (∃ node, admit_key 7 5 p2 = Some (node, p3) ∧ resolve node (slab p3) = Some i) ∧ seg_of (slab p3) i = Some MAIN.
Proof.
  destruct (hs3_admit (new 20) 7 3 (hs3_wf_new 20)) as (n&p1&Ha&[L1 Hi1]&_); [lia|vm_compute; reflexivity|vm_compute; reflexivity|].
  assert (Hc : ('(n, p) ← admit_key 7 3 (new 20); '(vs, c, p2) ← evict_small p;
    Some (n, vs, c, sl_tail <$> vget (lists (slab p)) SMALL, node_sum (resident (slab p2)), size (resident (slab p2)))) =
    Some (0, [(7, 0)], 3, Some 0, 0, 0%nat)) by (vm_compute; reflexivity).
  rewrite Ha in Hc. cbn [mbind option_bind] in Hc.
  destruct (list_vget _ _ _ _ (h3_slab _ _ Hi1) small_seg) as [l Hl].
  destruct (tail_slot _ _ _ _ _ (h3_slab _ _ Hi1) small_seg Hl) as [[Ht _]|[_ [l1 EL]]].
  { destruct (evict_small p1) as [[[? ?] ?]|]; [|done]. cbn [mbind option_bind] in Hc. rewrite Hl in Hc.
    injection Hc as _ _ _ E _ _. rewrite Ht in E. done. }
  destruct (evict_small_spec p1 L1 l1 _ l Hi1 Hl eq_refl EL) as (vs&c&p2&L2&He&Hi2&_).
  rewrite He in Hc. cbn [mbind option_bind] in Hc. injection Hc as -> -> -> _ Hsum Hsz.
  destruct (hs3fifo_ghost_to_main p1 (7, 0) 3 p2 5) as [Hg Hadm].
  - by exists L1.
  - exact He.
  - lia.
  - by exists L2.
  - rewrite Hsum. vm_compute. reflexivity.
  - rewrite Hsz. vm_compute. reflexivity.
  - destruct (Hadm 7) as (node&p3&i&H1&H2&H3&_). exists p1, p2, p3, i. split; [done|]. split; [done|].
    split; [by exists node|]. rewrite H3. simpl in Hg. by rewrite decide_True by done.
Defined.
