(* ===== verification/Builtin.v ===== *)
(** * The built-in policies, dispatched by [match] ([hpolicy::Builtin], [select]) *)

From S2P Require Import Prelude Slab Nodes ReadRing ShardPolicy.
From S2P Require Import HTinyLfu HS3Fifo.

Inductive Builtin :=
  | B_TinyLfu (p : HTinyLfu.HTinyLfu)
  | B_S3Fifo (p : HS3Fifo.HS3Fifo).

Inductive BuiltinChoice := TinyLfu | S3Fifo.

(** How a hit reaches the shard's built-in policy, if there is one. *)
Inductive BuiltinReads := R_None | R_Ring | R_Freq.

#[global] Instance builtin_reads_eq : EqDecision BuiltinReads.
Proof. solve_decision. Defined.

Definition builtin (choice : BuiltinChoice) (shard_capacity : Z) : Builtin :=
  match choice with
  | TinyLfu => B_TinyLfu (HTinyLfu.new shard_capacity)
  | S3Fifo => B_S3Fifo (HS3Fifo.new shard_capacity)
  end.

Definition reads (choice : BuiltinChoice) : BuiltinReads :=
  match choice with TinyLfu => R_Ring | S3Fifo => R_Freq end.

#[global] Instance builtin_policy : ShardPolicy Builtin := {
  sp_admit hash cost b := match b with
    | B_TinyLfu p => '(node, out, p') ← sp_admit hash cost p; Some (node, out, B_TinyLfu p')
    | B_S3Fifo p => '(node, out, p') ← sp_admit hash cost p; Some (node, out, B_S3Fifo p')
    end;
  sp_update node cost b := match b with
    | B_TinyLfu p => B_TinyLfu <$> sp_update node cost p
    | B_S3Fifo p => B_S3Fifo <$> sp_update node cost p
    end;
  sp_remove node b := match b with
    | B_TinyLfu p => B_TinyLfu <$> sp_remove node p
    | B_S3Fifo p => B_S3Fifo <$> sp_remove node p
    end;
  sp_evict cost b := match b with
    | B_TinyLfu p => '(out, p') ← sp_evict cost p; Some (out, B_TinyLfu p')
    | B_S3Fifo p => '(out, p') ← sp_evict cost p; Some (out, B_S3Fifo p')
    end;
  sp_apply_reads ring b := match b with
    | B_TinyLfu p => '(ring', p') ← sp_apply_reads ring p; Some (ring', B_TinyLfu p')
    | B_S3Fifo p => '(ring', p') ← sp_apply_reads ring p; Some (ring', B_S3Fifo p')
    end;
  sp_touch node b := match b with
    | B_TinyLfu p => B_TinyLfu <$> sp_touch node p
    | B_S3Fifo p => B_S3Fifo <$> sp_touch node p
    end;
  sp_apply_read node b := match b with
    | B_TinyLfu p => B_TinyLfu <$> sp_apply_read node p
    | B_S3Fifo p => B_S3Fifo <$> sp_apply_read node p
    end;
  sp_clear b := match b with
    | B_TinyLfu p => B_TinyLfu (sp_clear p)
    | B_S3Fifo p => B_S3Fifo (sp_clear p)
    end;
}.

Definition builtin_wf (b : Builtin) : Prop :=
  match b with B_TinyLfu p => shard_wf p | B_S3Fifo p => shard_wf p end.

Definition builtin_nodes (b : Builtin) : gmap Z (Z * Z) :=
  match b with B_TinyLfu p => nodes p | B_S3Fifo p => nodes p end.

(** Both policies discharge the contract, so the dispatch does. *)
#[global] Instance builtin_laws : ShardPolicyLaws Builtin.
Proof.
  refine {| shard_wf := builtin_wf; nodes := builtin_nodes |}.
  - intros [p|p]; apply nodes_fit.
  - intros [p|p]; apply nodes_ids.
  - intros [p|p] hash cost Hwf Hc Hs Hz; destruct (sp_admit_law p hash cost Hwf Hc Hs Hz) as (node&out&p'&E&?);
      [exists node, out, (B_TinyLfu p')|exists node, out, (B_S3Fifo p')]; cbn [sp_admit builtin_policy]; by rewrite E.
  - intros [p|p] node h c0 c Hwf Hn Hc Hs; destruct (sp_update_law p node h c0 c Hwf Hn Hc Hs) as (p'&E&?);
      [exists (B_TinyLfu p')|exists (B_S3Fifo p')]; cbn [sp_update builtin_policy]; by rewrite E.
  - intros [p|p] node Hwf Hn; destruct (sp_remove_law p node Hwf Hn) as (p'&E&?);
      [exists (B_TinyLfu p')|exists (B_S3Fifo p')]; cbn [sp_remove builtin_policy]; by rewrite E.
  - intros [p|p] c Hwf Hc Hl; destruct (sp_evict_law p c Hwf Hc Hl) as (out&p'&E&?);
      [exists out, (B_TinyLfu p')|exists out, (B_S3Fifo p')]; cbn [sp_evict builtin_policy]; by rewrite E.
  - intros [p|p] ring Hwf; destruct (sp_apply_reads_law p ring Hwf) as (ring'&p'&E&?);
      [exists ring', (B_TinyLfu p')|exists ring', (B_S3Fifo p')]; cbn [sp_apply_reads builtin_policy]; by rewrite E.
  - intros [p|p] node Hwf Hn; destruct (sp_touch_law p node Hwf Hn) as (p'&E&?);
      [exists (B_TinyLfu p')|exists (B_S3Fifo p')]; cbn [sp_touch builtin_policy]; by rewrite E.
  - intros [p|p] node Hwf Hn; destruct (sp_apply_read_law p node Hwf Hn) as (p'&E&?);
      [exists (B_TinyLfu p')|exists (B_S3Fifo p')]; cbn [sp_apply_read builtin_policy]; by rewrite E.
  - intros [p|p] Hwf; by apply (sp_clear_law p).
Defined.

Lemma builtin_wf_new choice capacity : builtin_wf (builtin choice capacity) ∧ builtin_nodes (builtin choice capacity) = ∅.
Proof. destruct choice; (split; [|done]); [apply HTinyLfu.htl_wf_new|apply HS3Fifo.hs3_wf_new]. Qed.
