(* ===== verification/Timer.v ===== *)
(** * The TTL timer wheel of a shard ([cache/src/task/timer.rs])

    Timers live in an arena and hang in one doubly linked list per slot.  [now] is
    the reading of the clock at the call.  The wheel is proved to keep, for every
    armed timer, the absolute tick it fires at ([due_tick]): [schedule] sets it,
    nothing else changes it, and [advance] fires exactly the timers whose tick has
    passed. *)

From S2P Require Import Prelude Dll Arena.

Record Timer (Index : Type) := mk_timer {
  t_laps : Z;
  t_key_hash : Z;
  t_slot_index : Z;
  t_prev : option Index;
  t_next : option Index;
}.
Arguments mk_timer {Index}.
Arguments t_laps {Index}.
Arguments t_key_hash {Index}.
Arguments t_slot_index {Index}.
Arguments t_prev {Index}.
Arguments t_next {Index}.

Record WSlot (Index : Type) := mk_wslot { ws_head : option Index; ws_tail : option Index }.
Arguments mk_wslot {Index}.
Arguments ws_head {Index}.
Arguments ws_tail {Index}.

Record TimerWheel (Index : Type) (A : Type → Type) := mk_wheel {
  w_slots : list (WSlot Index);
  w_timers : A (Timer Index);
  wheel_len : Z;
  current_tick : Z;
  tick_ns : Z;
  last_advanced : Z;
  next_due : Z;
}.
Arguments mk_wheel {Index A}.
Arguments w_slots {Index A}.
Arguments w_timers {Index A}.
Arguments wheel_len {Index A}.
Arguments current_tick {Index A}.
Arguments tick_ns {Index A}.
Arguments last_advanced {Index A}.
Arguments next_due {Index A}.

(** [u64::div_ceil]. *)
Definition div_ceil (a b : Z) : Z := (a + b - 1) / b.

Section Code.
Context {Index : Type} {A : Type → Type} `{Arena Index A}.
Implicit Types (w : TimerWheel Index A) (i : Index) (t : Timer Index).

Definition set_tprev (v : option Index) t : Timer Index := mk_timer (t_laps t) (t_key_hash t) (t_slot_index t) v (t_next t).
Definition set_tnext (v : option Index) t : Timer Index := mk_timer (t_laps t) (t_key_hash t) (t_slot_index t) (t_prev t) v.
Definition set_laps (v : Z) t : Timer Index := mk_timer v (t_key_hash t) (t_slot_index t) (t_prev t) (t_next t).

Definition with_timers a w : TimerWheel Index A :=
  mk_wheel (w_slots w) a (wheel_len w) (current_tick w) (tick_ns w) (last_advanced w) (next_due w).
Definition with_slots ss w : TimerWheel Index A :=
  mk_wheel ss (w_timers w) (wheel_len w) (current_tick w) (tick_ns w) (last_advanced w) (next_due w).

Definition new (wheel_size tick_duration_ns now : Z) : TimerWheel Index A :=
  mk_wheel [] arena_new wheel_size 0 (Z.max tick_duration_ns 1) now u64_max.

Definition update_timer i (f : Timer Index → Timer Index) w : option (TimerWheel Index A) :=
  a ← arena_update i f (w_timers w); Some (with_timers a w).

Definition update_slot (s : Z) (f : WSlot Index → WSlot Index) w : option (TimerWheel Index A) :=
  sl ← vget (w_slots w) s; ss ← vset (w_slots w) s (f sl); Some (with_slots ss w).

(** The ticks until a timer for [expires_at] fires. *)
Definition ticks_until (expires_at : Z) w : Z :=
  Z.max (div_ceil (expires_at -sat last_advanced w) (tick_ns w)) 1.

(** The first timer allocates the slots. *)
Definition start_slots (now : Z) w : TimerWheel Index A :=
  match w_slots w with
  | [] => mk_wheel (replicate (Z.to_nat (wheel_len w)) (mk_wslot None None)) (w_timers w) (wheel_len w)
            (current_tick w) (tick_ns w) now (next_due w)
  | _ => w
  end.

Definition schedule (now key_hash expires_at : Z) w : option (Index * TimerWheel Index A) :=
  let w := start_slots now w in
  let ticks := ticks_until expires_at w in
  let offset := ticks - 1 in
  if wheel_len w =? 0 then None
  else
    let laps := offset / wheel_len w in
    let slot := (current_tick w +w offset) mod wheel_len w in
    sl ← vget (w_slots w) slot;
    let '(index, a) := arena_insert (mk_timer laps key_hash slot None (ws_head sl)) (w_timers w) in
    let w1 := with_timers a w in
    w2 ← match ws_head sl with
         | Some old_head => update_timer old_head (set_tprev (Some index)) w1
         | None => Some w1
         end;
    w3 ← update_slot slot (λ sl, mk_wslot (Some index) (ws_tail sl)) w2;
    sl' ← vget (w_slots w3) slot;
    w4 ← match ws_tail sl' with
         | None => update_slot slot (λ sl, mk_wslot (ws_head sl) (Some index)) w3
         | Some _ => Some w3
         end;
    let due := last_advanced w4 +sat (ticks *w tick_ns w4) in
    Some (index, mk_wheel (w_slots w4) (w_timers w4) (wheel_len w4) (current_tick w4) (tick_ns w4)
                   (last_advanced w4) (Z.min (next_due w4) due)).

Definition unlink (slot_index : Z) (prev next : option Index) w : option (TimerWheel Index A) :=
  w1 ← match prev with
       | Some p => update_timer p (set_tnext next) w
       | None => update_slot slot_index (λ sl, mk_wslot next (ws_tail sl)) w
       end;
  match next with
  | Some n => update_timer n (set_tprev prev) w1
  | None => update_slot slot_index (λ sl, mk_wslot (ws_head sl) prev) w1
  end.

Definition cancel i w : option (TimerWheel Index A) :=
  let '(removed, a) := arena_remove i (w_timers w) in
  match removed with
  | Some t => unlink (t_slot_index t) (t_prev t) (t_next t) (with_timers a w)
  | None => Some (with_timers a w)
  end.

Definition is_armed i w : bool := bool_decide (is_Some (arena_get i (w_timers w))).

Definition clear w : TimerWheel Index A :=
  mk_wheel (replicate (length (w_slots w)) (mk_wslot None None)) (arena_clear (w_timers w)) (wheel_len w)
    (current_tick w) (tick_ns w) (last_advanced w) u64_max.

(** The walk along one slot's list; [fuel] bounds it. *)
Fixpoint sweep_list (fuel : nat) (slot passes : Z) (current_opt : option Index) w
    : option (list Z * TimerWheel Index A) :=
  match current_opt with
  | None => Some ([], w)
  | Some current_index =>
      match fuel with
      | O => None
      | S fuel =>
          timer ← arena_get current_index (w_timers w);
          let next_opt := t_next timer in
          if passes <=? t_laps timer then
            w1 ← update_timer current_index (λ t, set_laps (t_laps t - passes) t) w;
            sweep_list fuel slot passes next_opt w1
          else
            let '(removed, a) := arena_remove current_index (w_timers w) in
            timer ← removed;
            w1 ← unlink slot (t_prev timer) (t_next timer) (with_timers a w);
            '(hs, w2) ← sweep_list fuel slot passes next_opt w1;
            Some (t_key_hash timer :: hs, w2)
      end
  end.

(** The visits slot [slot_index] gets when the wheel moves [ticks_due] ticks from [start]. *)
Definition passes_of (wheel_len start ticks_due slot_index : Z) : Z :=
  let full_laps := ticks_due / wheel_len in
  let remainder := ticks_due mod wheel_len in
  let start_slot := start mod wheel_len in
  let rel := (slot_index +w wheel_len -w start_slot) mod wheel_len in
  full_laps + (if rel <? remainder then 1 else 0).

Fixpoint sweep_slots (start ticks_due : Z) (slot_indices : list Z) w : option (list Z * TimerWheel Index A) :=
  match slot_indices with
  | [] => Some ([], w)
  | s :: rest =>
      let passes := passes_of (wheel_len w) start ticks_due s in
      '(hs, w1) ← (if passes =? 0 then Some ([], w)
                   else sl ← vget (w_slots w) s;
                        sweep_list (arena_len (w_timers w)) s passes (ws_head sl) w);
      '(hs', w2) ← sweep_slots start ticks_due rest w1;
      Some (hs ++ hs', w2)
  end.

(** The search for the first slot from the current tick on that holds a timer. *)
Fixpoint find_due (offs : list Z) w : option Z :=
  match offs with
  | [] => Some u64_max
  | off :: offs =>
      sl ← vget (w_slots w) ((current_tick w +w off) mod wheel_len w);
      match ws_head sl with
      | Some _ => Some (last_advanced w +w (off + 1) *w tick_ns w)
      | None => find_due offs w
      end
  end.

Definition advance (now : Z) w : option (list Z * TimerWheel Index A) :=
  match w_slots w with
  | [] => Some ([], w)
  | _ =>
      let ticks_due := (now -sat last_advanced w) / tick_ns w in
      if ticks_due =? 0 then Some ([], w)
      else
        let start := current_tick w in
        let w1 := mk_wheel (w_slots w) (w_timers w) (wheel_len w) (current_tick w +w ticks_due) (tick_ns w)
                    (last_advanced w +w ticks_due *w tick_ns w) (next_due w) in
        '(fired, w2) ← sweep_slots start ticks_due (seqZ 0 (wheel_len w1)) w1;
        next ← find_due (seqZ 0 (wheel_len w2)) w2;
        Some (fired, mk_wheel (w_slots w2) (w_timers w2) (wheel_len w2) (current_tick w2) (tick_ns w2)
                       (last_advanced w2) next)
  end.
End Code.

(** ** Ticks *)

(** The tick a timer in slot [s] with [l] laps to go fires at. *)
Definition due_tick (wheel_len current s l : Z) : Z := current + (s - current) mod wheel_len + l * wheel_len.

Lemma passes_of_small W ct n s :
  1 ≤ W → 2 * W < U64 → 0 ≤ s < W → 0 ≤ ct →
  passes_of W ct n s = n / W + (if (s - ct) mod W <? n mod W then 1 else 0).
Proof.
  intros HW HU Hs Hc. unfold passes_of. pose proof (Z.mod_pos_bound ct W ltac:(lia)).
  rewrite u64_add_small, u64_sub_small by lia. do 2 f_equal.
  replace (s + W - ct mod W) with (s - ct mod W + 1 * W) by lia. rewrite Z.mod_add by lia.
  by rewrite Zminus_mod_idemp_r.
Qed.

(** A timer outlasts [n] ticks exactly when its tick is not among them, and keeps it. *)
Lemma passes_due W ct n s l :
  1 ≤ W → 2 * W < U64 → 0 ≤ s < W → 0 ≤ ct → 0 ≤ n → 0 ≤ l →
  let p := passes_of W ct n s in
  0 ≤ p ∧ (p ≤ l ↔ ct + n ≤ due_tick W ct s l) ∧ due_tick W (ct + n) s (l - p) = due_tick W ct s l.
Proof.
  intros HW HU Hs Hc Hn Hl p. unfold p. rewrite passes_of_small by done. clear p.
  pose proof (Z.mod_pos_bound (s - ct) W ltac:(lia)) as Hr. pose proof (Z.mod_pos_bound n W ltac:(lia)) as Hm.
  pose proof (Z.div_mod n W ltac:(lia)) as En. pose proof (Z.div_pos n W Hn ltac:(lia)) as Hq.
  unfold due_tick. set (r := (s - ct) mod W) in *. set (m := n mod W) in *. set (q := n / W) in *.
  assert (Er : (s - (ct + n)) mod W = if r <? m then r - m + W else r - m).
  { replace (s - (ct + n)) with ((s - ct) - n) by lia. rewrite Zminus_mod. fold r m.
    destruct (Z.ltb_spec r m); [|apply Z.mod_small; lia].
    symmetry. apply (Z.mod_unique _ _ (-1)); lia. }
  rewrite Er. destruct (Z.ltb_spec r m); (split; [lia|]); (split; [nia|nia]).
Qed.

Lemma div_ceil_bounds a b : 1 ≤ b → 0 ≤ a → a ≤ div_ceil a b * b < a + b ∧ 0 ≤ div_ceil a b.
Proof.
  intros Hb Ha. unfold div_ceil. pose proof (Z.div_mod (a + b - 1) b ltac:(lia)) as E.
  pose proof (Z.mod_pos_bound (a + b - 1) b ltac:(lia)). pose proof (Z.div_pos (a + b - 1) b ltac:(lia) ltac:(lia)). nia.
Qed.

(** ** The invariant *)

Section Inv.
Context {Index : Type} {A : Type → Type} `{EqDecision Index} `{!Arena Index A}.
Implicit Types (w : TimerWheel Index A) (i j : Index) (t : Timer Index) (Ls : Z → list Index).

Definition lkt (a : A (Timer Index)) i : option (option Index * option Index) :=
  (λ t, (t_prev t, t_next t)) <$> arena_get i a.
Definition tdat (a : A (Timer Index)) i : option (Z * Z * Z) :=
  (λ t, (t_key_hash t, t_slot_index t, t_laps t)) <$> arena_get i a.

(** [Ls s] is the list of slot [s]; every live timer is in its slot's. *)
Record wheel_inv w Ls : Prop := {
  wi_slot s sl : vget (w_slots w) s = Some sl → dll (lkt (w_timers w)) (ws_head sl) (ws_tail sl) (Ls s);
  wi_in s i : is_Some (vget (w_slots w) s) → i ∈ Ls s ↔ ∃ h l, tdat (w_timers w) i = Some (h, s, l);
  wi_live i h s l : tdat (w_timers w) i = Some (h, s, l) → is_Some (vget (w_slots w) s) ∧ 0 ≤ l;
}.

(** The parameters: the slots are allocated or not, and the tick count is within the
    clock. *)
Record wheel_ok w : Prop := {
  wo_len : w_slots w = [] ∧ current_tick w = 0 ∨ Z.of_nat (length (w_slots w)) = wheel_len w;
  wo_wheel : 1 ≤ wheel_len w ∧ 2 * wheel_len w < U64;
  wo_tick : 1 ≤ tick_ns w < U64;
  wo_clock : 0 ≤ current_tick w ∧ current_tick w * tick_ns w ≤ last_advanced w ∧ last_advanced w + wheel_len w < U64;
}.

(** A clock reading the wheel can work with: the slots ahead of it can be numbered. *)
Definition clock_ok w (now : Z) : Prop := 0 ≤ now ∧ now + wheel_len w < U64.

(** The hash of an armed timer and the tick it fires at. *)
Definition armed w i : option (Z * Z) :=
  (λ '(h, s, l), (h, due_tick (wheel_len w) (current_tick w) s l)) <$> tdat (w_timers w) i.

(** The clock reading at which tick [d] is over. *)
Definition deadline w (d : Z) : Z := last_advanced w + (d - current_tick w + 1) * tick_ns w.

Definition wheel_wf w : Prop :=
  (∃ Ls, wheel_inv w Ls) ∧ wheel_ok w ∧ ∀ i h d, armed w i = Some (h, d) → next_due w ≤ deadline w d.

Definition same_static w w' : Prop :=
  wheel_len w' = wheel_len w ∧ current_tick w' = current_tick w ∧ tick_ns w' = tick_ns w ∧
  last_advanced w' = last_advanced w ∧ next_due w' = next_due w ∧ length (w_slots w') = length (w_slots w).

Definition upd_at (Ls : Z → list Index) (s : Z) (l : list Index) : Z → list Index :=
  λ s', if decide (s' = s) then l else Ls s'.
End Inv.

Section Proofs.
Context {Index : Type} {A : Type → Type} `{ArenaLaws Index A}.
Implicit Types (w : TimerWheel Index A) (i j : Index) (t : Timer Index) (Ls : Z → list Index).

Lemma same_static_refl w : same_static w w.
Proof. by repeat split. Qed.

Lemma same_static_trans w1 w2 w3 : same_static w1 w2 → same_static w2 w3 → same_static w1 w3.
Proof. intros (?&?&?&?&?&?) (?&?&?&?&?&?). split_and!; congruence. Qed.

(** [match o { Some(i) => timers[i] = f(..), None => slots[s] = hf(..) }]. *)
Lemma relink_timer (o : option Index) s f (g : option Index * option Index → option Index * option Index) hf w sl :
  (∀ t, t_key_hash (f t) = t_key_hash t ∧ t_slot_index (f t) = t_slot_index t ∧ t_laps (f t) = t_laps t) →
  (∀ t, (t_prev (f t), t_next (f t)) = g (t_prev t, t_next t)) →
  (∀ i, o = Some i → is_Some (arena_get i (w_timers w))) → vget (w_slots w) s = Some sl →
  ∃ w', match o with Some i => update_timer i f w | None => update_slot s hf w end = Some w' ∧
    same_static w w' ∧ (∀ j, tdat (w_timers w') j = tdat (w_timers w) j) ∧
    (∀ j, lkt (w_timers w') j = if decide (Some j = o) then g <$> lkt (w_timers w) j else lkt (w_timers w) j) ∧
    (∀ s', vget (w_slots w') s' = if decide (s' = s ∧ o = None) then Some (hf sl) else vget (w_slots w) s').
Proof.
  intros Hf Hg Hlive Hsl. destruct o as [i|].
  - destruct (Hlive i eq_refl) as [t Ht]. unfold update_timer.
    destruct (arena_update_spec i f _ t Ht) as (a&->&Hget&_). simpl. eexists. split; [done|].
    split; [by repeat split|]. split; [|split].
    + intros j. unfold tdat. simpl. rewrite Hget. case_decide; [|done]. subst. rewrite Ht. simpl.
      by destruct (Hf t) as (->&->&->).
    + intros j. unfold lkt. simpl. rewrite Hget. destruct (decide (j = i)) as [->|].
      * rewrite decide_True by done. rewrite Ht. simpl. by rewrite Hg.
      * by rewrite decide_False by congruence.
    + intros s'. by rewrite decide_False by (by intros [_ ?]).
  - unfold update_slot. rewrite Hsl. simpl. destruct (vset_spec _ _ (hf sl) _ Hsl) as (ss&->&Hlen&Hss). simpl.
    eexists. split; [done|]. split; [by repeat split|]. split; [done|]. split; [done|].
    intros s'. simpl. rewrite Hss. destruct (decide (s' = s)); [by rewrite decide_True by done|].
    by rewrite decide_False by tauto.
Qed.

Lemma live_in w Ls s i : wheel_inv w Ls → is_Some (vget (w_slots w) s) → i ∈ Ls s → is_Some (arena_get i (w_timers w)).
Proof.
  intros Hi Hs (h&l&E)%(wi_in _ _ Hi s i Hs). unfold tdat in E. destruct (arena_get i (w_timers w)); [eauto|done].
Qed.

(** A timer removed from the arena is taken out of its slot's list. *)
Lemma unlink_timer w Ls s l1 i l2 t a :
  wheel_inv w Ls → is_Some (vget (w_slots w) s) → Ls s = l1 ++ i :: l2 → arena_get i (w_timers w) = Some t →
  (∀ j, arena_get j a = if decide (j = i) then None else arena_get j (w_timers w)) →
  ∃ w', unlink s (t_prev t) (t_next t) (with_timers a w) = Some w' ∧ wheel_inv w' (upd_at Ls s (l1 ++ l2)) ∧
    same_static w w' ∧ ∀ j, tdat (w_timers w') j = if decide (j = i) then None else tdat (w_timers w) j.
Proof.
  intros Hi [sl Hsl] HL Ht Ha. pose proof (wi_slot _ _ Hi s sl Hsl) as Hd. rewrite HL in Hd.
  pose proof (dll_node _ _ _ _ _ _ Hd) as Hn. unfold lkt in Hn. rewrite Ht in Hn. simpl in Hn. injection Hn as -> ->.
  assert (Hni : i ∉ l1 ++ l2).
  { destruct Hd as (Hnd&_). apply NoDup_app in Hnd as (_&Hdis&[? _]%NoDup_cons). rewrite elem_of_app.
    intros [Hx|?]; [|done]. apply (Hdis i Hx). by left. }
  assert (Hlive : ∀ j, j ∈ l1 ++ l2 → is_Some (arena_get j a)).
  { intros j Hj. rewrite Ha, decide_False by (by intros ->). eapply (live_in w Ls s); [done|by eexists|].
    rewrite HL. set_solver. }
  unfold unlink.
  destruct (relink_timer (last l1) s (set_tnext (head l2)) (λ pn, (pn.1, head l2)) (λ sl, mk_wslot (head l2) (ws_tail sl))
    (with_timers a w) sl) as (w1&->&Hst1&Hdat1&Hlk1&Hsl1); [done|done| |done|].
  { intros j Hj. apply Hlive. apply elem_of_app. left. by apply last_Some_elem_of. }
  cbn [mbind option_bind].
  destruct (relink_timer (head l2) s (set_tprev (last l1)) (λ pn, (last l1, pn.2)) (λ sl, mk_wslot (ws_head sl) (last l1))
    w1 (if decide (last l1 = None) then mk_wslot (head l2) (ws_tail sl) else sl)) as (w2&->&Hst2&Hdat2&Hlk2&Hsl2); [done|done| | |].
  { intros j Hj. assert (Hj2 : is_Some (tdat (w_timers w1) j)).
    { rewrite Hdat1. unfold tdat. apply fmap_is_Some, Hlive, elem_of_app. right. destruct l2; simplify_eq/=. by left. }
    unfold tdat in Hj2. by apply fmap_is_Some in Hj2. }
  { rewrite Hsl1. destruct (decide (last l1 = None)); [by rewrite decide_True|by rewrite decide_False by tauto]. }
  exists w2. split; [done|].
  assert (Hdat : ∀ j, tdat (w_timers w2) j = if decide (j = i) then None else tdat (w_timers w) j).
  { intros j. rewrite Hdat2, Hdat1. unfold tdat. cbn [w_timers with_timers]. rewrite Ha. by destruct (decide (j = i)). }
  assert (Hlk : ∀ j, j ≠ i → lkt (w_timers w2) j =
    relink_prev (head l2) (last l1) (relink_next (last l1) (head l2) (lkt (w_timers w))) j).
  { intros j Hj. rewrite Hlk2. unfold relink_prev, relink_next. rewrite Hlk1.
    assert (lkt (w_timers (with_timers a w)) j = lkt (w_timers w) j) as ->; [|done].
    unfold lkt. simpl. by rewrite Ha, decide_False. }
  assert (Hslots : ∀ s', is_Some (vget (w_slots w2) s') ↔ is_Some (vget (w_slots w) s')).
  { intros s'. rewrite Hsl2, Hsl1. simpl. destruct (decide (s' = s)) as [->|].
    - rewrite Hsl. repeat case_decide; split; eauto.
    - by rewrite !decide_False by tauto. }
  split; [|split; [by eapply same_static_trans|done]].
  split.
  - intros s' sl' Hs'. unfold upd_at. destruct (decide (s' = s)) as [->|Hne].
    + assert (ws_head sl' = unlink_head (ws_head sl) (last l1) (head l2) ∧
              ws_tail sl' = unlink_tail (ws_tail sl) (last l1) (head l2)) as [-> ->].
      { rewrite Hsl2 in Hs'. simpl in Hs'. rewrite Hsl1 in Hs'. simpl in Hs'. rewrite Hsl in Hs'. unfold unlink_head, unlink_tail.
        destruct (last l1), (head l2); repeat case_decide; naive_solver. }
      eapply dll_unlink; [exact Hd|]. intros j Hj. apply Hlk. by intros ->.
    + rewrite Hsl2, decide_False, Hsl1, decide_False in Hs' by tauto.
      eapply dll_ext; [|by apply (wi_slot _ _ Hi)]. intros j Hj.
      assert (Hjs : ∀ k, k ∈ Ls s → k ≠ j).
      { intros k (hk&lk'&Ek)%(wi_in _ _ Hi s k ltac:(by eexists)) ->.
        apply (wi_in _ _ Hi s' j ltac:(by eexists)) in Hj as (?&?&Ej). congruence. }
      rewrite Hlk by (intros ->; apply (Hjs i); [rewrite HL; set_solver|done]).
      rewrite HL in Hjs. unfold relink_prev. rewrite decide_False.
      * apply relink_next_ne. intros E%eq_sym%last_Some_elem_of. apply (Hjs j); [set_solver|done].
      * intros E. apply (Hjs j); [|done]. destruct l2; simplify_eq/=. set_solver.
  - intros s' j Hs'%Hslots. unfold upd_at. rewrite Hdat. destruct (decide (s' = s)) as [->|Hne].
    + pose proof (wi_in _ _ Hi s j Hs') as Hin. rewrite HL in Hin. destruct (decide (j = i)) as [->|Ej].
      * split; [done|]. by intros (?&?&?).
      * rewrite <- Hin. set_solver.
    + rewrite (wi_in _ _ Hi s' j Hs'). destruct (decide (j = i)) as [->|Ej]; [|done]. split; [|by intros (?&?&?)].
      intros (h&l&E). assert (Hii : i ∈ Ls s) by (rewrite HL; set_solver).
      apply (wi_in _ _ Hi s i ltac:(by eexists)) in Hii as (?&?&E'). congruence.
  - intros j h s' l. rewrite Hdat. destruct (decide (j = i)); [done|]. rewrite Hslots. apply Hi.
Qed.

Lemma wheel_inv_static w w' Ls :
  wheel_inv w Ls → w_slots w' = w_slots w → w_timers w' = w_timers w → wheel_inv w' Ls.
Proof. intros [H1 H2 H3] E1 E2. split; rewrite E1, E2; done. Qed.

(** A new timer at the front of slot [s]. *)
Lemma insert_timer w Ls s sl h l index a :
  wheel_inv w Ls → vget (w_slots w) s = Some sl → 0 ≤ l →
  arena_insert (mk_timer l h s None (ws_head sl)) (w_timers w) = (index, a) →
  ∃ w4, (w2 ← match ws_head sl with
              | Some old_head => update_timer old_head (set_tprev (Some index)) (with_timers a w)
              | None => Some (with_timers a w)
              end;
         w3 ← update_slot s (λ sl, mk_wslot (Some index) (ws_tail sl)) w2;
         sl' ← vget (w_slots w3) s;
         match ws_tail sl' with
         | None => update_slot s (λ sl, mk_wslot (ws_head sl) (Some index)) w3
         | Some _ => Some w3
         end) = Some w4 ∧
    wheel_inv w4 (upd_at Ls s (index :: Ls s)) ∧ same_static w w4 ∧
    ∀ j, tdat (w_timers w4) j = if decide (j = index) then Some (h, s, l) else tdat (w_timers w) j.
Proof.
  intros Hi Hsl Hl Hins. pose proof (wi_slot _ _ Hi s sl Hsl) as Hd.
  set (t0 := mk_timer l h s None (ws_head sl)) in *.
  assert (Ha : ∀ j, arena_get j a = if decide (j = index) then Some t0 else arena_get j (w_timers w)).
  { intros j. pose proof (arena_insert_get _ t0 (w_timers w) j) as E. by rewrite Hins in E. }
  assert (Hnew : arena_get index (w_timers w) = None).
  { pose proof (arena_insert_not_live t0 (w_timers w)) as E. by rewrite Hins in E. }
  assert (Hni : index ∉ Ls s).
  { intros Hin. destruct (live_in w Ls s index Hi ltac:(by eexists) Hin). congruence. }
  assert (Hdat0 : ∀ j, tdat a j = if decide (j = index) then Some (h, s, l) else tdat (w_timers w) j).
  { intros j. unfold tdat. rewrite Ha. by destruct (decide (j = index)). }
  assert (E2 : ∃ w2, match ws_head sl with
      | Some old_head => update_timer old_head (set_tprev (Some index)) (with_timers a w)
      | None => Some (with_timers a w) end = Some w2 ∧ same_static w w2 ∧ w_slots w2 = w_slots w ∧
      (∀ j, tdat (w_timers w2) j = tdat a j) ∧
      (∀ j, lkt (w_timers w2) j = relink_prev (ws_head sl) (Some index) (lkt a) j)).
  { destruct (ws_head sl) as [o|] eqn:Eh.
    - destruct (dll_hd_cons _ _ _ _ o Hd eq_refl) as [ids' Hids].
      destruct (live_in w Ls s o Hi ltac:(by eexists)) as [t Ht]; [rewrite Hids; by left|].
      assert (Hot : arena_get o a = Some t) by (rewrite Ha, decide_False; [done|]; intros ->; congruence).
      unfold update_timer. destruct (arena_update_spec o (set_tprev (Some index)) a t Hot) as (a2&E&Hget&_).
      cbn [w_timers with_timers]. rewrite E. cbn [mbind option_bind]. eexists. split; [done|]. split; [by repeat split|]. split; [done|].
      cbn [w_timers with_timers]. split; intros j; unfold tdat, lkt, relink_prev; rewrite Hget.
      + destruct (decide (j = o)) as [->|]; [by rewrite Hot|done].
      + destruct (decide (j = o)) as [->|]; [rewrite decide_True by done; by rewrite Hot|].
        by rewrite decide_False by congruence.
    - eexists. split; [done|]. split; [by repeat split|]. split; [done|]. split; [done|].
      intros j. unfold relink_prev. by rewrite decide_False. }
  destruct E2 as (w2&->&Hst2&Esl2&Hdat2&Hlk2). cbn [mbind option_bind].
  destruct (vset_spec _ _ (mk_wslot (Some index) (ws_tail sl)) _ Hsl) as (ss&Ess&Hlen&Hss).
  assert (E3 : update_slot s (λ sl, mk_wslot (Some index) (ws_tail sl)) w2 = Some (with_slots ss w2))
    by (unfold update_slot; rewrite Esl2, Hsl; simpl; by rewrite Ess).
  rewrite E3. cbn [mbind option_bind w_slots with_slots].
  rewrite Hss, decide_True by done. cbn [mbind option_bind ws_tail].
  set (tl := match ws_tail sl with Some t => Some t | None => Some index end).
  assert (E4 : ∃ ss', match ws_tail sl with
      | Some _ => Some (with_slots ss w2)
      | None => update_slot s (λ sl, mk_wslot (ws_head sl) (Some index)) (with_slots ss w2)
      end = Some (with_slots ss' w2) ∧ length ss' = length ss ∧
      ∀ s', vget ss' s' = if decide (s' = s) then Some (mk_wslot (Some index) tl) else vget (w_slots w) s').
  { unfold tl. destruct (ws_tail sl) as [t|] eqn:Et; [by exists ss|]. unfold update_slot. cbn [w_slots with_slots].
    assert (Es : vget ss s = Some (mk_wslot (Some index) None)) by (by rewrite Hss, decide_True).
    rewrite Es. cbn [mbind option_bind ws_head]. destruct (vset_spec _ _ (mk_wslot (Some index) (Some index)) _ Es) as (ss'&->&Hl'&Hss').
    exists ss'. split; [done|]. split; [done|]. intros s'. rewrite Hss'. destruct (decide (s' = s)); [done|]. by rewrite Hss, decide_False. }
  destruct E4 as (ss'&E4&Hlen'&Hss'). exists (with_slots ss' w2). split; [by destruct (ws_tail sl)|].
  destruct Hst2 as (?&?&?&?&?&?). split; [|split; [|by intros j; simpl; rewrite Hdat2, Hdat0]].
  2:{ split_and!; simpl; try done. congruence. }
  assert (Hslots : ∀ s', is_Some (vget ss' s') ↔ is_Some (vget (w_slots w) s')).
  { intros s'. rewrite Hss'. destruct (decide (s' = s)) as [->|]; [rewrite Hsl; split; eauto|done]. }
  split; cbn [w_slots w_timers with_slots].
  - intros s' sl'. rewrite Hss'. unfold upd_at. destruct (decide (s' = s)) as [->|Hne].
    + intros [= <-]. cbn [ws_head ws_tail]. eapply dll_push_front; [exact Hd|done| |].
      * rewrite Hlk2. unfold relink_prev. rewrite decide_False.
        { unfold lkt. by rewrite Ha, decide_True. }
        intros E%eq_sym. destruct (dll_hd_cons _ _ _ _ index Hd E) as [? Hids]. rewrite Hids in Hni. set_solver.
      * intros j Hj. rewrite Hlk2. unfold relink_prev.
        assert (lkt a j = lkt (w_timers w) j) as ->; [|done]. unfold lkt. by rewrite Ha, decide_False by (by intros ->).
    + intros Hs'. eapply dll_ext; [|by apply (wi_slot _ _ Hi)]. intros j Hj.
      pose proof (live_in w Ls s' j Hi ltac:(by eexists) Hj) as [tj Htj].
      rewrite Hlk2. unfold relink_prev. rewrite decide_False.
      * unfold lkt. rewrite Ha, decide_False; [done|]. intros ->. congruence.
      * intros E%eq_sym. destruct (dll_hd_cons _ _ _ _ j Hd E) as [ids Hids].
        assert (Hjs : j ∈ Ls s) by (rewrite Hids; by left).
        apply (wi_in _ _ Hi s j ltac:(by eexists)) in Hjs as (?&?&E1).
        apply (wi_in _ _ Hi s' j ltac:(by eexists)) in Hj as (?&?&E2). congruence.
  - intros s' j Hs'%Hslots. rewrite Hdat2, Hdat0. unfold upd_at.
    assert (Hold : tdat (w_timers w) index = None) by (unfold tdat; by rewrite Hnew).
    destruct (decide (s' = s)) as [->|Hne]; rewrite ?elem_of_cons, (wi_in _ _ Hi _ j Hs');
      destruct (decide (j = index)) as [->|]; rewrite ?Hold; naive_solver.
  - intros j h' s' l'. rewrite Hdat2, Hdat0, Hslots. destruct (decide (j = index)); [|apply Hi].
    intros [= <- <- <-]. split; [by eexists|done].
Qed.

Lemma armed_static w w' i :
  wheel_len w' = wheel_len w → current_tick w' = current_tick w →
  tdat (w_timers w') i = tdat (w_timers w) i → armed w' i = armed w i.
Proof. intros E1 E2 E3. unfold armed. by rewrite E1, E2, E3. Qed.

Lemma no_timers w Ls i : wheel_inv w Ls → w_slots w = [] → tdat (w_timers w) i = None.
Proof.
  intros Hi E. destruct (tdat (w_timers w) i) as [[[h s] l]|] eqn:Ed; [|done].
  apply (wi_live _ _ Hi) in Ed as [[sl Hsl] _]. rewrite E, vget_nil in Hsl. done.
Qed.

Lemma start_slots_spec now w :
  wheel_wf w → clock_ok w now →
  let w0 := start_slots now w in
  wheel_wf w0 ∧ Z.of_nat (length (w_slots w0)) = wheel_len w ∧ wheel_len w0 = wheel_len w ∧
  current_tick w0 = current_tick w ∧ tick_ns w0 = tick_ns w ∧ next_due w0 = next_due w ∧
  (∀ i, armed w0 i = armed w i) ∧ last_advanced w0 = (if decide (w_slots w = []) then now else last_advanced w).
Proof.
  intros ([Ls Hi]&Hok&Hdue) Hn w0. destruct (wo_wheel _ Hok) as [HW HU].
  unfold w0, start_slots. destruct (w_slots w) as [|sl ss] eqn:E.
  - cbn [w_slots wheel_len current_tick tick_ns next_due last_advanced]. rewrite decide_True by done.
    assert (Hnone : ∀ i, tdat (w_timers w) i = None) by (intros i; by eapply no_timers).
    split; [|split_and!; try done; [rewrite length_replicate; lia]].
    split; [|split].
    + exists (λ _, []). split; cbn [w_slots w_timers].
      * intros s sl. unfold vget. destruct (0 <=? s); [|done]. intros [-> _]%lookup_replicate. apply dll_nil.
      * intros s i _. rewrite Hnone. split; [by intros ?%elem_of_nil|by intros (?&?&?)].
      * intros i h s l. by rewrite Hnone.
    + destruct (wo_len _ Hok) as [[_ E0]|E0]; [|rewrite E in E0; simpl in E0; lia].
      destruct Hok. split; simpl; try done; [right; rewrite length_replicate; lia|]. rewrite E0. destruct Hn. lia.
    + intros i h d. unfold armed. simpl. by rewrite Hnone.
  - rewrite decide_False by done. split; [split; [by exists Ls|done]|]. split; [|done].
    destruct (wo_len _ Hok) as [[E0 _]|E0]; [congruence|done].
Qed.

Lemma slot_at w s : wheel_ok w → Z.of_nat (length (w_slots w)) = wheel_len w → 0 ≤ s < wheel_len w → is_Some (vget (w_slots w) s).
Proof. intros Hok Hlen Hs. apply vget_lt. lia. Qed.

Lemma schedule_spec now h e w :
  wheel_wf w → clock_ok w now → is_u64 e →
  let w0 := start_slots now w in
  ∃ i w', schedule now h e w = Some (i, w') ∧ wheel_wf w' ∧ armed w i = None ∧
    (∀ j, armed w' j = if decide (j = i) then Some (h, current_tick w + ticks_until e w0 - 1) else armed w j) ∧
    wheel_len w' = wheel_len w ∧ tick_ns w' = tick_ns w ∧ current_tick w' = current_tick w ∧
    last_advanced w' = last_advanced w0.
Proof.
  intros Hwf Hn He w0. destruct (start_slots_spec now w Hwf Hn) as (Hwf0&Hlen0&EW&Ec&Et&End&Harm0&_).
  fold w0 in Hwf0, Hlen0, EW, Ec, Et, End, Harm0. destruct Hwf0 as ([Ls Hi]&Hok&Hdue).
  pose proof (wo_wheel _ Hok) as [HW HU]. pose proof (wo_tick _ Hok) as Htk. pose proof (wo_clock _ Hok) as (Hct&Hctl&Hla).
  unfold schedule. fold w0. set (ticks := ticks_until e w0). destruct (Z.eqb_spec (wheel_len w0) 0); [lia|].
  assert (Htb : 1 ≤ ticks ∧ (ticks - 1) * tick_ns w0 ≤ Z.max 0 (e - last_advanced w0)).
  { unfold ticks, ticks_until. destruct (div_ceil_bounds (e -sat last_advanced w0) (tick_ns w0)) as [? ?];
      [lia|unfold sat_sub; lia|]. unfold sat_sub in *. destruct (Z.max_spec (div_ceil (Z.max 0 (e - last_advanced w0)) (tick_ns w0)) 1) as [[? ->]|[? ->]]; nia. }
  assert (Hadd : current_tick w0 +w (ticks - 1) = current_tick w0 + (ticks - 1)).
  { apply u64_add_small; [lia|lia|]. unfold is_u64 in He. nia. }
  rewrite Hadd. set (off := ticks - 1) in *. set (s := (current_tick w0 + off) mod wheel_len w0).
  assert (Hs : 0 ≤ s < wheel_len w0) by (apply Z.mod_pos_bound; lia).
  destruct (slot_at w0 s Hok ltac:(lia) Hs) as [sl Hsl]. rewrite Hsl. cbn [mbind option_bind].
  destruct (arena_insert _ (w_timers w0)) as [index a] eqn:Eins.
  assert (Hl : 0 ≤ off / wheel_len w0) by (apply Z.div_pos; lia).
  destruct (insert_timer w0 Ls s sl h _ index a Hi Hsl Hl Eins) as (w4&E4&Hi4&Hst4&Hdat4).
  apply bind_Some in E4 as (w2&->&(w3&E3&(sl'&Esl'&E4)%bind_Some)%bind_Some). cbn [mbind option_bind].
  rewrite E3. cbn [mbind option_bind]. rewrite Esl'. cbn [mbind option_bind]. rewrite E4. cbn [mbind option_bind].
  destruct Hst4 as (F1&F2&F3&F4&F5&F6). eexists index, _. split; [done|].
  assert (Hdt : due_tick (wheel_len w0) (current_tick w0) s (off / wheel_len w0) = current_tick w0 + off).
  { unfold due_tick, s. rewrite Zminus_mod_idemp_l. replace (current_tick w0 + off - current_tick w0) with off by lia.
    pose proof (Z.div_mod off (wheel_len w0) ltac:(lia)). lia. }
  set (w' := mk_wheel _ _ _ _ _ _ _).
  assert (Harm : ∀ j, armed w' j = if decide (j = index) then Some (h, current_tick w + ticks - 1) else armed w j).
  { intros j. destruct (decide (j = index)).
    - unfold armed. cbn [w_timers wheel_len current_tick w']. rewrite Hdat4, decide_True by done.
      simpl. rewrite F1, F2, Hdt. do 2 f_equal. unfold off. lia.
    - rewrite <- Harm0. apply armed_static; [done..|]. simpl. by rewrite Hdat4, decide_False. }
  split; [|split; [|split; [done|split_and!; simpl; congruence]]].
  - split; [eexists; by eapply wheel_inv_static|]. split.
    + destruct Hok. split; simpl; rewrite ?F1, ?F2, ?F3, ?F4; try done. right. lia.
    + intros j h' d. rewrite Harm. unfold deadline. cbn [next_due last_advanced current_tick tick_ns w'].
      rewrite F2, F3, F4, F5. destruct (decide (j = index)).
      * intros [= <- <-]. rewrite Ec. etrans; [apply Z.le_min_r|]. unfold sat_add.
        etrans; [apply Z.le_min_r|]. unfold u64_mul. pose proof (Z.mod_le (ticks * tick_ns w0) U64). unfold U64 in *. nia.
      * intros Hj. etrans; [apply Z.le_min_l|]. rewrite <- Harm0 in Hj. apply (Hdue j h' d Hj).
  - rewrite <- Harm0. unfold armed, tdat. pose proof (arena_insert_not_live (mk_timer (off / wheel_len w0) h s None (ws_head sl)) (w_timers w0)) as E.
    rewrite Eins in E. simpl in E. by rewrite E.
Qed.

Lemma cancel_spec i w :
  wheel_wf w → ∃ w', cancel i w = Some w' ∧ wheel_wf w' ∧ same_static w w' ∧
    ∀ j, armed w' j = if decide (j = i) then None else armed w j.
Proof.
  intros ([Ls Hi]&Hok&Hdue). unfold cancel. pose proof (arena_remove_fst _ (w_timers w) i) as Efst.
  pose proof (arena_remove_get _ (w_timers w) i) as Eget. destruct (arena_remove i (w_timers w)) as [r a]. simpl in Efst, Eget.
  assert (Hend : ∀ w' Ls', wheel_inv w' Ls' → same_static w w' →
    (∀ j, tdat (w_timers w') j = if decide (j = i) then None else tdat (w_timers w) j) →
    wheel_wf w' ∧ same_static w w' ∧ ∀ j, armed w' j = if decide (j = i) then None else armed w j).
  { intros w' Ls' Hi' Hst Hdat. pose proof Hst as (F1&F2&F3&F4&F5&F6).
    assert (Harm : ∀ j, armed w' j = if decide (j = i) then None else armed w j).
    { intros j. unfold armed. rewrite Hdat, F1, F2. by destruct (decide (j = i)). }
    split; [|done]. split; [by exists Ls'|]. split.
    - destruct Hok as [Hl ???]. split; rewrite ?F1, ?F2, ?F3, ?F4; try done. destruct Hl as [[E ?]|?]; [left|right; lia].
      split; [|done]. rewrite E in F6. by destruct (w_slots w').
    - intros j h d. rewrite Harm. destruct (decide (j = i)); [done|]. unfold deadline. rewrite F2, F3, F4, F5. apply Hdue. }
  destruct r as [t|].
  - symmetry in Efst. assert (Ed : tdat (w_timers w) i = Some (t_key_hash t, t_slot_index t, t_laps t)) by (unfold tdat; by rewrite Efst).
    pose proof (proj1 (wi_live _ _ Hi _ _ _ _ Ed)) as Hs.
    assert (Hin : i ∈ Ls (t_slot_index t)) by (apply (wi_in _ _ Hi); eauto).
    apply list_elem_of_split in Hin as (l1&l2&HL).
    destruct (unlink_timer w Ls _ l1 i l2 t a Hi Hs HL Efst Eget) as (w'&->&Hi'&Hst&Hdat).
    exists w'. split; [done|]. by eapply Hend.
  - eexists. split; [done|]. apply (Hend _ Ls); [|by repeat split|].
    + assert (Hg : ∀ j, arena_get j a = arena_get j (w_timers w)).
      { intros j. rewrite Eget. destruct (decide (j = i)) as [->|]; congruence. }
      split; cbn [w_slots w_timers with_timers]; unfold tdat.
      * intros s sl Hs. eapply dll_ext; [|by apply (wi_slot _ _ Hi)]. intros j _. unfold lkt. by rewrite Hg.
      * intros s j Hs. rewrite Hg. by apply Hi.
      * intros j h s l. rewrite Hg. apply Hi.
    + intros j. unfold tdat. cbn [w_timers with_timers]. rewrite Eget. by destruct (decide (j = i)).
Qed.

Lemma clear_spec w : wheel_wf w → wheel_wf (clear w) ∧ ∀ i, armed (clear w) i = None.
Proof.
  intros (_&Hok&_). assert (Hnone : ∀ i, tdat (w_timers (clear w)) i = None).
  { intros i. unfold tdat. simpl. by rewrite arena_clear_get. }
  assert (Harm : ∀ i, armed (clear w) i = None) by (intros i; unfold armed; by rewrite Hnone).
  split; [|done]. split; [|split].
  - exists (λ _, []). split.
    + intros s sl. unfold vget. simpl. destruct (0 <=? s); [|done]. intros [-> _]%lookup_replicate. apply dll_nil.
    + intros s i _. rewrite Hnone. split; [by intros ?%elem_of_nil|by intros (?&?&?)].
    + intros i h s l. by rewrite Hnone.
  - destruct Hok as [Hl ???]. split; simpl; try done. rewrite length_replicate. destruct Hl as [[-> ?]|?]; [by left|by right].
  - intros i h d. by rewrite Harm.
Qed.

(** ** The sweep *)

(** [hs] names, one by one, the timers that [Q] holds of, by their hashes. *)
Definition lists_hashes (Q : Index → Z → Prop) (hs : list Z) : Prop :=
  ∃ js, NoDup js ∧ Forall2 Q js hs ∧ ∀ j h, Q j h → j ∈ js.

Lemma lists_hashes_nil (Q : Index → Z → Prop) : (∀ j h, ¬ Q j h) → lists_hashes Q [].
Proof. intros Hn. exists []. split; [constructor|]. split; [constructor|]. intros j h HQ. by destruct (Hn j h). Qed.

Lemma lists_hashes_ext (Q Q' : Index → Z → Prop) hs : (∀ j h, Q j h ↔ Q' j h) → lists_hashes Q hs → lists_hashes Q' hs.
Proof.
  intros He (js&Hnd&HF&Hin). exists js. split; [done|]. split; [|intros j h ?%He; eauto].
  eapply Forall2_impl; [exact HF|]. intros j h. by rewrite He.
Qed.

Lemma lists_hashes_cons (Q Q' : Index → Z → Prop) i h hs :
  lists_hashes Q hs → (∀ h', ¬ Q i h') → (∀ j h', Q' j h' ↔ (j = i ∧ h' = h) ∨ Q j h') → lists_hashes Q' (h :: hs).
Proof.
  intros (js&Hnd&HF&Hin) Hn He. exists (i :: js). split; [constructor; [|done]|split].
  - intros Hi. destruct (list_elem_of_lookup_1 _ _ Hi) as [k Hk]. destruct (Forall2_lookup_l _ _ _ _ _ HF Hk) as (h'&_&HQ). by apply (Hn h').
  - constructor; [apply He; by left|]. eapply Forall2_impl; [exact HF|]. intros j h' ?. apply He. by right.
  - intros j h' [[-> _]|HQ]%He; [by left|right; eauto].
Qed.

Lemma lists_hashes_app (Q1 Q2 Q : Index → Z → Prop) hs1 hs2 :
  lists_hashes Q1 hs1 → lists_hashes Q2 hs2 → (∀ j h1 h2, Q1 j h1 → Q2 j h2 → False) →
  (∀ j h, Q j h ↔ Q1 j h ∨ Q2 j h) → lists_hashes Q (hs1 ++ hs2).
Proof.
  intros (js1&Hnd1&HF1&Hin1) (js2&Hnd2&HF2&Hin2) Hdis He. exists (js1 ++ js2). split; [|split].
  - apply NoDup_app. split; [done|]. split; [|done]. intros j Hj1 Hj2.
    destruct (list_elem_of_lookup_1 _ _ Hj1) as [k1 Hk1]. destruct (list_elem_of_lookup_1 _ _ Hj2) as [k2 Hk2].
    destruct (Forall2_lookup_l _ _ _ _ _ HF1 Hk1) as (h1&_&HQ1). destruct (Forall2_lookup_l _ _ _ _ _ HF2 Hk2) as (h2&_&HQ2). eauto.
  - apply Forall2_app; (eapply Forall2_impl; [done|]); intros j h ?; apply He; auto.
  - intros j h [?|?]%He; apply elem_of_app; eauto.
Qed.

Lemma lists_hashes_elem (Q : Index → Z → Prop) hs :
  lists_hashes Q hs → (∀ j h1 h2, Q j h1 → Q j h2 → h1 = h2) → ∀ h, h ∈ hs ↔ ∃ j, Q j h.
Proof.
  intros (js&_&HF&Hin) Hfun h. split.
  - intros [k Hk]%list_elem_of_lookup. destruct (Forall2_lookup_r _ _ _ _ _ HF Hk) as (j&_&?). eauto.
  - intros [j HQ]. destruct (list_elem_of_lookup_1 _ _ (Hin j h HQ)) as [k Hk].
    destruct (Forall2_lookup_l _ _ _ _ _ HF Hk) as (h'&Hh'&HQ'). rewrite (Hfun j h h' HQ HQ'). by eapply list_elem_of_lookup_2.
Qed.

(** What is left of a timer after [passes] visits. *)
Definition after_passes (passes : Z) (d : Z * Z * Z) : option (Z * Z * Z) :=
  let '(h, s, l) := d in if passes <=? l then Some (h, s, l - passes) else None.

Lemma spend_laps w Ls i t passes :
  wheel_inv w Ls → arena_get i (w_timers w) = Some t → passes ≤ t_laps t →
  ∃ w', update_timer i (λ t, set_laps (t_laps t - passes) t) w = Some w' ∧ wheel_inv w' Ls ∧ same_static w w' ∧
    (∀ j, tdat (w_timers w') j = if decide (j = i) then Some (t_key_hash t, t_slot_index t, t_laps t - passes) else tdat (w_timers w) j).
Proof.
  intros Hi Ht Hle. unfold update_timer. destruct (arena_update_spec i (λ t, set_laps (t_laps t - passes) t) _ t Ht) as (a&->&Hget&_).
  cbn [mbind option_bind]. eexists. split; [done|].
  assert (Hdat : ∀ j, tdat a j = if decide (j = i) then Some (t_key_hash t, t_slot_index t, t_laps t - passes) else tdat (w_timers w) j).
  { intros j. unfold tdat. rewrite Hget. by destruct (decide (j = i)). }
  assert (Hd0 : tdat (w_timers w) i = Some (t_key_hash t, t_slot_index t, t_laps t)) by (unfold tdat; by rewrite Ht).
  split; [|split; [by repeat split|exact Hdat]]. split; cbn [w_slots w_timers with_timers].
  - intros s sl Hs. eapply dll_ext; [|by apply (wi_slot _ _ Hi)]. intros j _. unfold lkt. rewrite Hget.
    destruct (decide (j = i)) as [->|]; [by rewrite Ht|done].
  - intros s j Hs. rewrite (wi_in _ _ Hi s j Hs), Hdat. destruct (decide (j = i)) as [->|]; [|done]. rewrite Hd0. naive_solver.
  - intros j h s l. rewrite Hdat. destruct (decide (j = i)) as [->|]; [|apply Hi]. intros [= <- <- <-].
    split; [by apply (wi_live _ _ Hi _ _ _ _ Hd0)|lia].
Qed.

Lemma sweep_list_spec fuel s passes w Ls l1 l2 :
  wheel_inv w Ls → is_Some (vget (w_slots w) s) → Ls s = l1 ++ l2 → (length l2 ≤ fuel)%nat →
  ∃ hs w' Ls', sweep_list fuel s passes (head l2) w = Some (hs, w') ∧ wheel_inv w' Ls' ∧ same_static w w' ∧
    (∀ j, tdat (w_timers w') j = if decide (j ∈ l2) then tdat (w_timers w) j ≫= after_passes passes else tdat (w_timers w) j) ∧
    lists_hashes (λ j h, ∃ l, j ∈ l2 ∧ tdat (w_timers w) j = Some (h, s, l) ∧ l < passes) hs.
Proof.
  revert w Ls l1 l2. induction fuel as [|fuel IH]; intros w Ls l1 l2 Hi Hs HL Hf.
  all: destruct l2 as [|i l2]; [exists [], w, Ls; split; [done|]; split; [done|]; split; [apply same_static_refl|];
    split; [intros j; by rewrite decide_False by apply not_elem_of_nil|apply lists_hashes_nil; by intros j h (?&?%elem_of_nil&_)]|].
  { simpl in Hf. lia. }
  simpl in Hf. cbn [sweep_list head]. destruct (live_in w Ls s i Hi Hs) as [t Ht]; [rewrite HL; set_solver|]. rewrite Ht. cbn [mbind option_bind].
  destruct Hs as [sl Hsl]. pose proof (wi_slot _ _ Hi s sl Hsl) as Hd. rewrite HL in Hd.
  pose proof (dll_node _ _ _ _ _ _ Hd) as Hn. unfold lkt in Hn. rewrite Ht in Hn. simpl in Hn. injection Hn as Hp Hq. rewrite Hq.
  assert (Hni : i ∉ l2) by (destruct Hd as (Hnd&_); by apply NoDup_app in Hnd as (_&_&[? _]%NoDup_cons)).
  assert (Hd0 : tdat (w_timers w) i = Some (t_key_hash t, s, t_laps t)).
  { assert (Hin : i ∈ Ls s) by (rewrite HL; set_solver). apply (wi_in _ _ Hi s i ltac:(by eexists)) in Hin as (h&l&E).
    rewrite E. unfold tdat in E. rewrite Ht in E. simpl in E. congruence. }
  assert (Hts : t_slot_index t = s) by (unfold tdat in Hd0; rewrite Ht in Hd0; simpl in Hd0; congruence).
  destruct (Z.leb_spec passes (t_laps t)) as [Hle|Hlt].
  - destruct (spend_laps w Ls i t passes Hi Ht Hle) as (w1&->&Hi1&Hst1&Hdat1). cbn [mbind option_bind].
    destruct (IH w1 Ls (l1 ++ [i]) l2 Hi1) as (hs&w2&Ls2&E&Hi2&Hst2&Hdat2&Hhs); [|by rewrite <- app_assoc|lia|].
    { destruct Hst1 as (_&_&_&_&_&F). apply vget_Some in Hsl. apply vget_lt. lia. }
    exists hs, w2, Ls2. split; [done|]. split; [done|]. split; [by eapply same_static_trans|]. split.
    + intros j. rewrite Hdat2, Hdat1. destruct (decide (j = i)) as [->|Hne].
      * rewrite decide_False by done. rewrite decide_True by (by left). rewrite Hd0. simpl. destruct (Z.leb_spec passes (t_laps t)); [|lia].
        by rewrite Hts.
      * destruct (decide (j ∈ l2)); [rewrite decide_True by (by right)|rewrite decide_False by set_solver]; done.
    + eapply lists_hashes_ext; [|exact Hhs]. intros j h. split.
      * intros (l&Hj&E'&?). rewrite Hdat1, decide_False in E' by (by intros ->). exists l. split; [by right|done].
      * intros (l&[->|Hj]%elem_of_cons&E'&?); [rewrite Hd0 in E'; injection E' as _ <-; lia|].
        exists l. rewrite Hdat1, decide_False by (by intros ->). done.
  - pose proof (arena_remove_fst _ (w_timers w) i) as Efst. pose proof (arena_remove_get _ (w_timers w) i) as Eget.
    destruct (arena_remove i (w_timers w)) as [r a]. simpl in Efst, Eget. rewrite Ht in Efst. subst r. cbn [mbind option_bind].
    destruct (unlink_timer w Ls s l1 i l2 t a Hi ltac:(by eexists) HL Ht Eget) as (w1&E1&Hi1&Hst1&Hdat1).
    rewrite Hp, Hq in E1. rewrite Hp, Hq, E1. cbn [mbind option_bind].
    destruct (IH w1 _ l1 l2 Hi1) as (hs&w2&Ls2&->&Hi2&Hst2&Hdat2&Hhs).
    { destruct Hst1 as (_&_&_&_&_&F). apply vget_Some in Hsl. apply vget_lt. lia. }
    { unfold upd_at. by rewrite decide_True. } { lia. }
    cbn [mbind option_bind]. exists (t_key_hash t :: hs), w2, Ls2. split; [done|]. split; [done|].
    split; [by eapply same_static_trans|]. split.
    + intros j. rewrite Hdat2, Hdat1. destruct (decide (j = i)) as [->|Hne].
      * rewrite decide_False by done. rewrite decide_True by (by left). rewrite Hd0. simpl. destruct (Z.leb_spec passes (t_laps t)); [lia|done].
      * destruct (decide (j ∈ l2)); [rewrite decide_True by (by right)|rewrite decide_False by set_solver]; done.
    + eapply (lists_hashes_cons _ _ i); [exact Hhs|by intros h (l&?&_)|]. intros j h. split.
      * intros (l&[->|Hj]%elem_of_cons&E'&?); [left; rewrite Hd0 in E'; naive_solver|right].
        exists l. rewrite Hdat1, decide_False by (by intros ->). done.
      * intros [[-> ->]|(l&Hj&E'&?)]; [exists (t_laps t); split; [by left|done]|].
        rewrite Hdat1, decide_False in E' by (by intros ->). exists l. split; [by right|done].
Qed.

Lemma sweep_slot_spec s passes w Ls :
  wheel_inv w Ls → is_Some (vget (w_slots w) s) →
  ∃ hs w' Ls', (if passes =? 0 then Some ([], w)
      else sl ← vget (w_slots w) s; sweep_list (arena_len (w_timers w)) s passes (ws_head sl) w) = Some (hs, w') ∧
    wheel_inv w' Ls' ∧ same_static w w' ∧
    (∀ j h s' l, tdat (w_timers w) j = Some (h, s', l) → s' = s → tdat (w_timers w') j = after_passes passes (h, s', l)) ∧
    (∀ j, (∀ h l, tdat (w_timers w) j ≠ Some (h, s, l)) → tdat (w_timers w') j = tdat (w_timers w) j) ∧
    lists_hashes (λ j h, ∃ l, tdat (w_timers w) j = Some (h, s, l) ∧ l < passes) hs.
Proof.
  intros Hi [sl Hsl]. destruct (Z.eqb_spec passes 0) as [->|Hne].
  - exists [], w, Ls. split; [done|]. split; [done|]. split; [apply same_static_refl|]. split; [|split; [done|]].
    + intros j h s' l E ->. rewrite E. simpl. pose proof (wi_live _ _ Hi _ _ _ _ E) as [_ ?].
      destruct (Z.leb_spec 0 l); [|lia]. by rewrite Z.sub_0_r.
    + apply lists_hashes_nil. intros j h (l&E&?). pose proof (wi_live _ _ Hi _ _ _ _ E). lia.
  - rewrite Hsl. cbn [mbind option_bind]. pose proof (wi_slot _ _ Hi s sl Hsl) as Hd.
    assert (Hh : ws_head sl = head (Ls s)) by (by destruct Hd as (_&->&_)). rewrite Hh.
    destruct (sweep_list_spec (arena_len (w_timers w)) s passes w Ls [] (Ls s) Hi) as (hs&w'&Ls'&->&Hi'&Hst&Hdat&Hhs);
      [by eexists|done| |].
    { apply arena_len_live; [by destruct Hd|]. intros i Hin. by eapply live_in; [|by eexists|]. }
    exists hs, w', Ls'. split; [done|]. split; [done|]. split; [done|].
    assert (Hin : ∀ j, j ∈ Ls s ↔ ∃ h l, tdat (w_timers w) j = Some (h, s, l)) by (intros j; apply (wi_in _ _ Hi); by eexists).
    split; [|split].
    + intros j h s' l E ->. rewrite Hdat, decide_True by (apply Hin; eauto). by rewrite E.
    + intros j Hn. rewrite Hdat, decide_False; [done|]. intros (h&l&E)%Hin. by apply (Hn h l).
    + eapply lists_hashes_ext; [|exact Hhs]. intros j h. split; [intros (l&_&?); eauto|]. intros (l&E&?). exists l. split; [apply Hin; eauto|done].
Qed.

Lemma static_slot w w' s : same_static w w' → is_Some (vget (w_slots w) s) → is_Some (vget (w_slots w') s).
Proof. intros (_&_&_&_&_&F) [sl Hsl]. apply vget_Some in Hsl. apply vget_lt. lia. Qed.

Lemma sweep_slots_spec start n ss w Ls :
  wheel_inv w Ls → NoDup ss → Forall (λ s, is_Some (vget (w_slots w) s)) ss →
  ∃ hs w' Ls', sweep_slots start n ss w = Some (hs, w') ∧ wheel_inv w' Ls' ∧ same_static w w' ∧
    (∀ j h s l, tdat (w_timers w) j = Some (h, s, l) →
       tdat (w_timers w') j = if decide (s ∈ ss) then after_passes (passes_of (wheel_len w) start n s) (h, s, l) else Some (h, s, l)) ∧
    (∀ j, tdat (w_timers w) j = None → tdat (w_timers w') j = None) ∧
    lists_hashes (λ j h, ∃ s l, s ∈ ss ∧ tdat (w_timers w) j = Some (h, s, l) ∧ l < passes_of (wheel_len w) start n s) hs.
Proof.
  intros Hi Hnd. revert w Ls Hi. induction Hnd as [|s ss Hns Hnd IH]; intros w Ls Hi Hall; cbn [sweep_slots].
  - exists [], w, Ls. split; [done|]. split; [done|]. split; [apply same_static_refl|]. split; [|split; [done|]].
    + intros j h s l E. by rewrite decide_False by apply not_elem_of_nil.
    + apply lists_hashes_nil. by intros j h (?&?&?%elem_of_nil&_).
  - apply Forall_cons in Hall as [Hs Hall].
    destruct (sweep_slot_spec s (passes_of (wheel_len w) start n s) w Ls Hi Hs) as (hs&w1&Ls1&->&Hi1&Hst1&Hin1&Hout1&Hhs1).
    cbn [mbind option_bind]. pose proof Hst1 as (EW&_).
    destruct (IH w1 Ls1 Hi1) as (hs2&w2&Ls2&->&Hi2&Hst2&Hdat2&Hnone2&Hhs2).
    { eapply Forall_impl; [exact Hall|]. intros s'. by apply static_slot. }
    cbn [mbind option_bind]. rewrite EW in Hdat2, Hhs2. exists (hs ++ hs2), w2, Ls2. split; [done|]. split; [done|].
    split; [by eapply same_static_trans|].
    assert (Hkeep : ∀ j h s' l, s' ≠ s → tdat (w_timers w1) j = Some (h, s', l) ↔ tdat (w_timers w) j = Some (h, s', l)).
    { intros j h s' l Hne. destruct (tdat (w_timers w) j) as [[[h0 s0] l0]|] eqn:E.
      - destruct (decide (s0 = s)) as [->|Hs0].
        + rewrite (Hin1 j _ _ _ E eq_refl). unfold after_passes. destruct (_ <=? _); naive_solver.
        + rewrite Hout1, E; [done|]. rewrite E. naive_solver.
      - rewrite Hout1, E; [done|]. by rewrite E. }
    split; [|split].
    + intros j h s' l E. destruct (decide (s' = s)) as [->|Hne].
      * rewrite decide_True by (by left). pose proof (Hin1 j _ _ _ E eq_refl) as E1. rewrite <- E1.
        unfold after_passes in E1. destruct (_ <=? _); [|by rewrite E1; apply Hnone2].
        rewrite (Hdat2 j _ _ _ E1), decide_False by done. by rewrite E1.
      * rewrite (Hdat2 j h s' l) by (by apply Hkeep).
        destruct (decide (s' ∈ ss)); [rewrite decide_True by (by right)|rewrite decide_False by set_solver]; done.
    + intros j E. apply Hnone2. rewrite Hout1; [done|]. by rewrite E.
    + eapply lists_hashes_app; [exact Hhs1|exact Hhs2| |].
      * intros j h1 h2 (l1&E1&_) (s'&l2&Hs'&E2&_). apply Hkeep in E2; [congruence|]. by intros ->.
      * intros j h. split.
        -- intros (s'&l&[->|Hs']%elem_of_cons&E&?); [left; eauto|right]. exists s', l. split; [done|]. split; [|done].
           apply Hkeep; [|done]. by intros ->.
        -- intros [(l&E&?)|(s'&l&Hs'&E&?)]; [exists s, l; split; [by left|done]|].
           exists s', l. split; [by right|]. split; [|done]. apply Hkeep; [|done]. by intros ->.
Qed.

(** The search for the next due slot gives a bound on every timer's deadline. *)
Lemma find_due_spec w Ls k n :
  wheel_inv w Ls → wheel_ok w → Z.of_nat (length (w_slots w)) = wheel_len w → 0 ≤ k → k + Z.of_nat n ≤ wheel_len w →
  ∃ d, find_due (seqZ k (Z.of_nat n)) w = Some d ∧
    ∀ i h s l, tdat (w_timers w) i = Some (h, s, l) → k ≤ (s - current_tick w) mod wheel_len w < k + Z.of_nat n →
      d ≤ last_advanced w + ((s - current_tick w) mod wheel_len w + 1) * tick_ns w.
Proof.
  intros Hi Hok Hlen. revert k. induction n as [|n IH]; intros k Hk Hkn.
  { exists u64_max. split; [done|]. intros. lia. }
  rewrite seqZ_cons by lia. cbn [find_due]. replace (Z.pred (Z.of_nat (S n))) with (Z.of_nat n) by lia.
  replace (Z.succ k) with (k + 1) by lia.
  pose proof (wo_wheel _ Hok) as [HW HU]. pose proof (wo_clock _ Hok) as (Hct&Hctl&Hla). pose proof (wo_tick _ Hok) as Htk.
  assert (current_tick w ≤ last_advanced w) by nia.
  rewrite (u64_add_small (current_tick w) k) by lia. set (sk := (current_tick w + k) mod wheel_len w).
  assert (Hsk : 0 ≤ sk < wheel_len w) by (apply Z.mod_pos_bound; lia).
  destruct (slot_at w sk Hok Hlen Hsk) as [sl Hsl]. rewrite Hsl. cbn [mbind option_bind].
  pose proof (wi_slot _ _ Hi sk sl Hsl) as Hd. destruct (ws_head sl) as [i0|] eqn:Eh.
  - eexists. split; [done|]. intros i h s l _ Hr. unfold u64_add, u64_mul.
    etrans; [apply Z.mod_le; [|done]; pose proof (Z.mod_pos_bound ((k + 1) * tick_ns w) U64 ltac:(done)); nia|].
    pose proof (Z.mod_le ((k + 1) * tick_ns w) U64 ltac:(nia) ltac:(done)). nia.
  - destruct (IH (k + 1)) as (d&->&Hd'); [lia|lia|]. exists d. split; [done|]. intros i h s l E Hr.
    apply (Hd' i h s l E). destruct (decide ((s - current_tick w) mod wheel_len w = k)) as [Ek|]; [exfalso|lia].
    assert (s = sk).
    { pose proof (wi_live _ _ Hi _ _ _ _ E) as [[sl' Hs'%vget_Some] _]. unfold sk. rewrite <- Ek, Zplus_mod_idemp_r.
      replace (current_tick w + (s - current_tick w)) with s by lia. symmetry. apply Z.mod_small. lia. }
    subst s. assert (Hin : i ∈ Ls sk) by (apply (wi_in _ _ Hi sk i ltac:(by eexists)); eauto).
    destruct Hd as (_&Hd&_). destruct (Ls sk); [by apply elem_of_nil in Hin|done].
Qed.

(** How far [advance] moves the clock of the wheel. *)
Definition advanced_to (now : Z) w : Z :=
  match w_slots w with
  | [] => last_advanced w
  | _ => last_advanced w + (now -sat last_advanced w) / tick_ns w * tick_ns w
  end.

(** The slot and laps of a timer are in range, so its deadline lies ahead. *)
Lemma timer_range w Ls i h s l :
  wheel_inv w Ls → wheel_ok w → tdat (w_timers w) i = Some (h, s, l) →
  0 ≤ s < wheel_len w ∧ 0 ≤ l ∧ current_tick w ≤ due_tick (wheel_len w) (current_tick w) s l.
Proof.
  intros Hi Hok E. pose proof (wi_live _ _ Hi _ _ _ _ E) as [[sl Hs%vget_Some] Hl]. pose proof (wo_wheel _ Hok).
  destruct (wo_len _ Hok) as [[E0 _]|E0]; [rewrite E0 in Hs; simpl in Hs; lia|].
  pose proof (Z.mod_pos_bound (s - current_tick w) (wheel_len w) ltac:(lia)). unfold due_tick. split; [lia|]. split; [lia|nia].
Qed.

Lemma armed_Some w i h d : armed w i = Some (h, d) ↔
  ∃ s l, tdat (w_timers w) i = Some (h, s, l) ∧ d = due_tick (wheel_len w) (current_tick w) s l.
Proof. unfold armed. destruct (tdat (w_timers w) i) as [[[h0 s] l]|]; simpl; naive_solver. Qed.

Lemma deadline_ahead w i h d : wheel_wf w → armed w i = Some (h, d) → last_advanced w < deadline w d.
Proof.
  intros ([Ls Hi]&Hok&_) (s&l&E&->)%armed_Some. pose proof (timer_range w Ls i h s l Hi Hok E). pose proof (wo_tick _ Hok).
  unfold deadline. nia.
Qed.

(** What [advance] promises of the wheel after and the hashes it returns. *)
Definition advanced (now : Z) w (fired : list Z) w' : Prop :=
  wheel_wf w' ∧ wheel_len w' = wheel_len w ∧ tick_ns w' = tick_ns w ∧ last_advanced w' = advanced_to now w ∧
  (∀ i h d, armed w i = Some (h, d) →
     deadline w' d = deadline w d ∧ armed w' i = if decide (deadline w d ≤ last_advanced w') then None else Some (h, d)) ∧
  (∀ i, armed w i = None → armed w' i = None) ∧
  lists_hashes (λ i h, ∃ d, armed w i = Some (h, d) ∧ deadline w d ≤ last_advanced w') fired.

Lemma advanced_none now w : wheel_wf w → advanced_to now w = last_advanced w → advanced now w [] w.
Proof.
  intros Hwf Est. split; [done|]. do 2 (split; [done|]). split; [done|]. split; [|split; [done|]].
  - intros i h d Ha. split; [done|]. rewrite decide_False; [done|]. pose proof (deadline_ahead w i h d Hwf Ha). lia.
  - apply lists_hashes_nil. intros i h (d&Ha&?). pose proof (deadline_ahead w i h d Hwf Ha). lia.
Qed.

(** The ticks to move, when there are some. *)
Lemma ticks_due_bounds now w :
  wheel_ok w → clock_ok w now → (now -sat last_advanced w) / tick_ns w ≠ 0 →
  let n := (now -sat last_advanced w) / tick_ns w in
  0 < n ∧ last_advanced w + n * tick_ns w ≤ now ∧ n *w tick_ns w = n * tick_ns w ∧
  last_advanced w +w n *w tick_ns w = last_advanced w + n * tick_ns w ∧ current_tick w +w n = current_tick w + n ∧
  (current_tick w + n) * tick_ns w ≤ last_advanced w + n * tick_ns w.
Proof.
  intros Hok [Hn0 HnU] Hne n. pose proof (wo_wheel _ Hok) as [HW HU].
  pose proof (wo_clock _ Hok) as (Hct&Hctl&Hla). pose proof (wo_tick _ Hok) as Htk.
  assert (0 ≤ n) by (unfold n; apply Z.div_pos; unfold sat_sub; lia).
  assert (n * tick_ns w ≤ now -sat last_advanced w) by (unfold n; rewrite Z.mul_comm; apply Z.mul_div_le; lia).
  fold n in Hne. assert (Hb : 0 < n ∧ last_advanced w + n * tick_ns w ≤ now) by (unfold sat_sub in *; nia).
  assert (Em : n *w tick_ns w = n * tick_ns w) by (unfold u64_mul; apply Z.mod_small; nia).
  split; [lia|]. split; [lia|]. split; [done|]. rewrite Em. rewrite (u64_add_small (last_advanced w)), (u64_add_small (current_tick w)) by nia.
  split; [done|]. split; [done|nia].
Qed.

(** The wheel after the sweep of every slot. *)
Lemma swept_spec n w w1 Ls :
  wheel_inv w Ls → wheel_ok w → Z.of_nat (length (w_slots w)) = wheel_len w → 0 < n →
  w_slots w1 = w_slots w → w_timers w1 = w_timers w → wheel_len w1 = wheel_len w → current_tick w1 = current_tick w + n →
  ∃ fired w2 Ls2, sweep_slots (current_tick w) n (seqZ 0 (wheel_len w)) w1 = Some (fired, w2) ∧ wheel_inv w2 Ls2 ∧ same_static w1 w2 ∧
    (∀ i h d, armed w i = Some (h, d) → armed w2 i = if decide (d < current_tick w + n) then None else Some (h, d)) ∧
    (∀ i, armed w i = None → armed w2 i = None) ∧
    lists_hashes (λ i h, ∃ d, armed w i = Some (h, d) ∧ d < current_tick w + n) fired.
Proof.
  intros Hi Hok Hlen Hn E1 E2 E3 E4. pose proof (wo_wheel _ Hok) as [HW HU]. pose proof (wo_clock _ Hok) as (Hct&_).
  destruct (sweep_slots_spec (current_tick w) n (seqZ 0 (wheel_len w)) w1 Ls) as (fired&w2&Ls2&->&Hi2&Hst2&Hdat2&Hnone2&Hhs2).
  { by apply (wheel_inv_static w). } { apply NoDup_seqZ. }
  { apply Forall_forall. intros s Hs%elem_of_seqZ. rewrite E1. apply vget_lt. lia. }
  rewrite E2, E3 in *. pose proof Hst2 as (F1&F2&_). rewrite E3 in F1. rewrite E4 in F2.
  assert (Hr : ∀ i h s l, tdat (w_timers w) i = Some (h, s, l) → s ∈ seqZ 0 (wheel_len w) ∧
    (passes_of (wheel_len w) (current_tick w) n s ≤ l ↔ current_tick w + n ≤ due_tick (wheel_len w) (current_tick w) s l) ∧
    due_tick (wheel_len w) (current_tick w + n) s (l - passes_of (wheel_len w) (current_tick w) n s) = due_tick (wheel_len w) (current_tick w) s l).
  { intros i h s l E. destruct (timer_range w Ls i h s l Hi Hok E) as (?&?&_).
    destruct (passes_due (wheel_len w) (current_tick w) n s l) as (_&?&?); [lia..|]. split; [apply elem_of_seqZ; lia|done]. }
  exists fired, w2, Ls2. split; [done|]. split; [done|]. split; [done|]. split; [|split].
  - intros i h d (s&l&E&->)%armed_Some. destruct (Hr i h s l E) as (Hm&Hp&Hp2).
    unfold armed. rewrite (Hdat2 i h s l E), decide_True by done. unfold after_passes.
    destruct (Z.leb_spec (passes_of (wheel_len w) (current_tick w) n s) l) as [Hle|Hgt].
    + rewrite decide_False by lia. simpl. by rewrite F1, F2, Hp2.
    + rewrite decide_True by lia. done.
  - intros i Ha. unfold armed in *. destruct (tdat (w_timers w) i) eqn:E; [done|]. by rewrite (Hnone2 i E).
  - eapply lists_hashes_ext; [|exact Hhs2]. intros i h. split.
    + intros (s&l&_&E&?). destruct (Hr i h s l E) as (_&?&_). eexists _. split; [apply armed_Some; eauto|]. lia.
    + intros (d&(s&l&E&->)%armed_Some&?). destruct (Hr i h s l E) as (?&?&_). exists s, l. split; [done|]. split; [done|lia].
Qed.

Lemma advance_spec now w :
  wheel_wf w → clock_ok w now → ∃ fired w', advance now w = Some (fired, w') ∧ advanced now w fired w'.
Proof.
  intros Hwf Hnow. pose proof Hwf as ([Ls Hi]&Hok&_). unfold advance. destruct (w_slots w) as [|sl0 ss0] eqn:Esl.
  { exists [], w. split; [done|]. apply advanced_none; [done|]. unfold advanced_to. by rewrite Esl. }
  rewrite <- Esl. set (n := (now -sat last_advanced w) / tick_ns w).
  assert (Hto : advanced_to now w = last_advanced w + n * tick_ns w) by (unfold advanced_to; by rewrite Esl).
  destruct (Z.eqb_spec n 0) as [En|Hn0].
  { exists [], w. split; [done|]. apply advanced_none; [done|]. rewrite Hto, En. lia. }
  assert (Hlen : Z.of_nat (length (w_slots w)) = wheel_len w).
  { destruct (wo_len _ Hok) as [[E0 _]|E0]; [rewrite Esl in E0; done|done]. }
  destruct (ticks_due_bounds now w Hok Hnow Hn0) as (Hn&Hle&_&Ela&Ect&Hcl). fold n in Hn, Hle, Ela, Ect, Hcl. rewrite Ela, Ect.
  set (w1 := mk_wheel _ _ _ _ _ _ _). pose proof (wo_wheel _ Hok) as [HW HU]. pose proof (wo_tick _ Hok) as Htk.
  destruct (swept_spec n w w1 Ls Hi Hok Hlen Hn) as (fired&w2&Ls2&Esw&Hi2&Hst2&Harm&Hnone&Hhs); [done..|].
  change (wheel_len w1) with (wheel_len w). rewrite Esw. cbn [mbind option_bind].
  pose proof Hst2 as (F1&F2&F3&F4&_&F6). simpl in F1, F2, F3, F4, F6.
  assert (Hok2 : wheel_ok w2).
  { destruct Hnow. pose proof (wo_clock _ Hok). split; rewrite ?F1, ?F2, ?F3, ?F4; [right; lia|done|done|nia]. }
  destruct (find_due_spec w2 Ls2 0 (Z.to_nat (wheel_len w)) Hi2 Hok2) as (d&Efd&Hfd); [lia..|].
  rewrite Z2Nat.id in Efd by lia. rewrite F1, Efd. cbn [mbind option_bind]. eexists fired, _. split; [done|].
  set (w' := mk_wheel _ _ _ _ _ _ _).
  assert (Harm' : ∀ i, armed w' i = armed w2 i) by (intros i; apply armed_static; by simpl).
  assert (Hdl : ∀ d, deadline w' d = deadline w d) by (intros d'; unfold deadline, w'; simpl; rewrite F2, F3, F4; nia).
  assert (Hdue : ∀ d', deadline w d' ≤ last_advanced w' ↔ d' < current_tick w + n)
    by (intros d'; unfold w'; simpl; rewrite F4; unfold deadline; nia).
  split; [|split; [done|split; [exact F3|split; [by rewrite Hto|split; [|split]]]]].
  - split; [exists Ls2; by apply (wheel_inv_static w2)|]. split.
    + destruct Hok2 as [B1 B2 B3 B4]. rewrite F1 in B1, B2, B4. by split.
    + intros i h d' Ha. rewrite Harm' in Ha. apply armed_Some in Ha as (s&l&E&->).
      pose proof (wi_live _ _ Hi2 _ _ _ _ E) as [_ Hl]. rewrite F1 in *.
      pose proof (Z.mod_pos_bound (s - current_tick w2) (wheel_len w) ltac:(lia)) as Hmb.
      unfold w' at 1. cbn [next_due]. etrans; [apply (Hfd i h s l E); lia|].
      unfold deadline, due_tick, w'. simpl. rewrite F3. apply Z.add_le_mono_l, Z.mul_le_mono_nonneg_r; [lia|nia].
  - intros i h d' Ha. split; [done|]. rewrite Harm', (Harm i h d' Ha).
    destruct (decide (d' < current_tick w + n)); [rewrite decide_True by (by apply Hdue)|rewrite decide_False by (by rewrite Hdue)]; done.
  - intros i Ha. rewrite Harm'. by apply Hnone.
  - eapply lists_hashes_ext; [|exact Hhs]. intros i h. split; intros (d'&?&?); exists d'; (split; [done|]); by apply Hdue.
Qed.

Lemma advanced_to_bounds now w : wheel_ok w → last_advanced w ≤ advanced_to now w ≤ Z.max now (last_advanced w).
Proof.
  intros Hok. pose proof (wo_tick _ Hok). unfold advanced_to. destruct (w_slots w); [lia|].
  pose proof (Z.mul_div_le (now -sat last_advanced w) (tick_ns w) ltac:(lia)).
  pose proof (Z.div_pos (now -sat last_advanced w) (tick_ns w) ltac:(unfold sat_sub; lia) ltac:(lia)). unfold sat_sub in *. nia.
Qed.
End Proofs.

(** ** Firing *)

Section Firing.
Context {Index : Type} {A : Type → Type} `{ArenaLaws Index A}.
Implicit Types (w : TimerWheel Index A) (i j : Index).

Lemma wheel_wf_new n tk now :
  1 ≤ n → 2 * n < U64 → tk < U64 → 0 ≤ now → now + n < U64 →
  wheel_wf (new n tk now : TimerWheel Index A) ∧ ∀ i, armed (new n tk now : TimerWheel Index A) i = None.
Proof.
  intros. assert (Hnone : ∀ i, tdat (w_timers (new n tk now : TimerWheel Index A)) i = None).
  { intros i. unfold tdat. simpl. by rewrite arena_get_new. }
  assert (Harm : ∀ i, armed (new n tk now : TimerWheel Index A) i = None) by (intros i; unfold armed; by rewrite Hnone).
  split; [|done]. split; [|split; [split; simpl; [by left|lia..]|intros i h d; by rewrite Harm]].
  exists (λ _, []). split.
  - intros s sl. unfold vget. simpl. by destruct (0 <=? s).
  - intros s i [? Hs]. unfold vget in Hs. simpl in Hs. by destruct (0 <=? s).
  - intros i h s l. by rewrite Hnone.
Qed.

(** A tick is over once the clock has reached its end. *)
Lemma advanced_to_deadline w i h d now :
  wheel_wf w → armed w i = Some (h, d) → deadline w d ≤ advanced_to now w ↔ deadline w d ≤ now.
Proof.
  intros Hwf Ha. pose proof (deadline_ahead w i h d Hwf Ha) as Hahead. destruct Hwf as ([Ls Hi]&Hok&_).
  pose proof (wo_tick _ Hok) as Htk. pose proof (advanced_to_bounds now w Hok) as Hb.
  apply armed_Some in Ha as (s&l&E&_). destruct (wi_live _ _ Hi i h s l E) as [[sl Hsl] _].
  split; [lia|]. intros Hle. unfold advanced_to. destruct (w_slots w) as [|sl0 ss]; [unfold vget in Hsl; simpl in Hsl; by destruct (0 <=? s)|].
  unfold deadline, sat_sub in *. rewrite Z.max_r by lia. set (k := d - current_tick w + 1) in *.
  assert (k ≤ (now - last_advanced w) / tick_ns w) by (apply Z.div_le_lower_bound; lia). nia.
Qed.

(** The end of the tick a timer for [e] is put in: at or after [e], within one tick. *)
Lemma ticks_until_deadline e w :
  wheel_ok w → let d := current_tick w + ticks_until e w - 1 in
  e ≤ deadline w d < Z.max e (last_advanced w + 1) + tick_ns w.
Proof.
  intros Hok d. pose proof (wo_tick _ Hok) as Htk. unfold deadline, d.
  replace (current_tick w + ticks_until e w - 1 - current_tick w + 1) with (ticks_until e w) by lia.
  unfold ticks_until. destruct (div_ceil_bounds (e -sat last_advanced w) (tick_ns w)) as [? ?]; [lia|unfold sat_sub; lia|].
  unfold sat_sub in *. destruct (Z.max_spec (div_ceil (Z.max 0 (e - last_advanced w)) (tick_ns w)) 1) as [[? ->]|[? ->]]; nia.
Qed.

(** C32: a timer scheduled for [e] is armed under a new index, leaves the other timers as
    they are, and is due at the end of a tick that is not before [e] and less than one
    tick after it (after the wheel's own clock when [e] has passed).  The next call of
    [advance] returns, names (by hash, once each) exactly the armed timers whose deadline
    the clock has reached, disarms them, and keeps all others with the same deadline. *)
Theorem timer_fires_on_time now h e w :
  wheel_wf w → clock_ok w now → is_u64 e →
  ∃ i w' d, schedule now h e w = Some (i, w') ∧ armed w i = None ∧ armed w' i = Some (h, d) ∧
    (∀ j, j ≠ i → armed w' j = armed w j) ∧
    e ≤ deadline w' d < Z.max e (last_advanced w' + 1) + tick_ns w' ∧
    ∀ now', clock_ok w' now' → ∃ fired w'', advance now' w' = Some (fired, w'') ∧ wheel_wf w'' ∧
      lists_hashes (λ j h', ∃ d', armed w' j = Some (h', d') ∧ deadline w' d' ≤ now') fired ∧
      (∀ j h' d', armed w' j = Some (h', d') →
         deadline w'' d' = deadline w' d' ∧ is_armed j w'' = bool_decide (now' < deadline w' d')).
Proof.
  intros Hwf Hn He. destruct (start_slots_spec now w Hwf Hn) as (Hwf0&_&_&Ec0&Et0&_).
  destruct (schedule_spec now h e w Hwf Hn He) as (i&w'&E&Hwf'&Hi&Harm&_&Ht&Hc&Hla).
  pose proof (ticks_until_deadline e (start_slots now w) ltac:(apply Hwf0)) as Hd.
  exists i, w', (current_tick w + ticks_until e (start_slots now w) - 1). split; [done|]. split; [done|].
  split; [by rewrite Harm, decide_True by done|]. split; [intros j ?; by rewrite Harm, decide_False by done|]. split.
  { unfold deadline in *. rewrite Ec0, Et0 in Hd. rewrite Hc, Ht, Hla. lia. }
  intros now' Hn'. destruct (advance_spec now' w' Hwf' Hn') as (fired&w''&E'&Hwf''&_&_&Hto&Hkeep&_&Hfired).
  exists fired, w''. split; [done|]. split; [done|]. rewrite Hto in *. split.
  - eapply lists_hashes_ext; [|exact Hfired]. intros j h'.
    split; intros (d'&Ha&?); exists d'; (split; [done|]); by apply (advanced_to_deadline w' j h' d').
  - intros j h' d' Ha. destruct (Hkeep j h' d' Ha) as [? Ha'']. split; [done|].
    pose proof (advanced_to_deadline w' j h' d' now' Hwf' Ha) as Hiff.
    unfold is_armed. unfold armed, tdat in Ha''. apply bool_decide_ext. case_decide as Hdue.
    + split; [|lia]. intros [t Et]. by rewrite Et in Ha''.
    + split; [lia|]. intros _. destruct (arena_get j (w_timers w'')) eqn:Et; [done|]. done.
Qed.

(** while the clock reads less than [next_due] the wheel can be left alone: an
    [advance] would fire nothing and keep every timer's deadline.  (The shard reads
    [next_due] without its lock to skip the call.) *)
Theorem timer_skip_is_safe now w :
  wheel_wf w → clock_ok w now → now < next_due w →
  ∃ w', advance now w = Some ([], w') ∧ wheel_wf w' ∧
    ∀ i, armed w' i = armed w i ∧ ∀ h d, armed w i = Some (h, d) → deadline w' d = deadline w d.
Proof.
  intros Hwf Hn Hlt. destruct (advance_spec now w Hwf Hn) as (fired&w'&E&Hwf'&_&_&Hto&Hkeep&Hnone&Hfired).
  assert (Hlate : ∀ i h d, armed w i = Some (h, d) → ¬ deadline w d ≤ last_advanced w').
  { intros i h d Ha. rewrite Hto, (advanced_to_deadline w i h d now Hwf Ha). destruct Hwf as (_&_&Hdue). specialize (Hdue i h d Ha). lia. }
  assert (fired = []) as ->.
  { destruct Hfired as (js&_&HF&_). inversion HF as [|j h ?? (d&Ha&Hd)]; [done|]. by destruct (Hlate j h d Ha). }
  exists w'. split; [done|]. split; [done|]. intros i. split.
  - destruct (armed w i) as [[h d]|] eqn:Ha; [|by apply Hnone]. destruct (Hkeep i h d Ha) as [_ ->].
    by rewrite decide_False by (by apply (Hlate i h d Ha)).
  - intros h d Ha. by destruct (Hkeep i h d Ha).
Qed.
End Firing.

(** A wheel of 4 slots of 10 ns, started at 0, with a timer for 15: it is due at 20, so
    the advance at 17 leaves it armed and the one at 20 fires it. *)
Lemma timer_fires_on_time_witness :
  ∃ i (w' : TimerWheel nat counter_arena) d,
    schedule 0 7 15 (new 4 10 0) = Some (i, w') ∧ armed w' i = Some (7, d) ∧ deadline w' d = 20 ∧
    (∃ fired w'', advance 17 w' = Some (fired, w'') ∧ 7 ∉ fired ∧ is_armed i w'' = true) ∧
    (∃ fired w'', advance 20 w' = Some (fired, w'') ∧ 7 ∈ fired ∧ is_armed i w'' = false).
Proof.
  destruct (wheel_wf_new (A:=counter_arena) 4 10 0) as [Hwf Hnone]; [lia|unfold U64; lia..|lia|unfold U64; lia|].
  destruct (timer_fires_on_time 0 7 15 (new 4 10 0 : TimerWheel nat counter_arena)) as (i&w'&d&E&_&Ha&Hother&_&Hadv);
    [done|unfold clock_ok, U64; simpl; lia|unfold is_u64, U64; lia|].
  exists i, w', d. split; [done|]. split; [done|].
  assert ((λ '(j, v), (armed v j, (λ hd, deadline v hd.2) <$> armed v j, wheel_len v)) <$>
    schedule 0 7 15 (new 4 10 0 : TimerWheel nat counter_arena) = Some (Some (7, 1), Some 20, 4)) as Eo by (vm_compute; reflexivity).
  rewrite E in Eo. simpl in Eo. rewrite Ha in Eo. simpl in Eo. injection Eo as Ed Edl Ewl. split; [done|].
  split.
  - destruct (Hadv 17) as (fired&w''&E'&_&Hf&Hk); [unfold clock_ok, U64; lia|]. exists fired, w''. split; [done|].
    destruct (Hk i 7 d Ha) as [_ ->]. rewrite Edl. split; [|done].
    rewrite (lists_hashes_elem _ _ Hf) by (intros; naive_solver). intros (j&d'&Hj&Hd').
    destruct (decide (j = i)) as [->|Hne]; [rewrite Ha in Hj; injection Hj as <-; lia|]. rewrite Hother, Hnone in Hj by done. done.
  - destruct (Hadv 20) as (fired&w''&E'&_&Hf&Hk); [unfold clock_ok, U64; lia|]. exists fired, w''. split; [done|].
    destruct (Hk i 7 d Ha) as [_ ->]. rewrite Edl. split; [|done].
    rewrite (lists_hashes_elem _ _ Hf) by (intros; naive_solver). exists i, d. by rewrite Edl.
Defined.

Lemma timer_skip_is_safe_witness :
  ∃ w1 w2 : TimerWheel nat counter_arena, snd <$> schedule 0 7 35 (new 4 10 0) = Some w1 ∧
    next_due w1 = 40 ∧ advance 39 w1 = Some ([], w2) ∧ armed w2 0%nat = Some (7, 3).
Proof.
  destruct (wheel_wf_new (A:=counter_arena) 4 10 0) as [Hwf _]; [lia|unfold U64; lia..|lia|unfold U64; lia|].
  destruct (schedule_spec 0 7 35 (new 4 10 0 : TimerWheel nat counter_arena)) as (i&w1&E&Hwf1&_);
    [done|unfold clock_ok, U64; simpl; lia|unfold is_u64, U64; lia|].
  assert ((λ '(j, v), (wheel_len v, next_due v, armed v 0%nat)) <$>
    schedule 0 7 35 (new 4 10 0 : TimerWheel nat counter_arena) = Some (4, 40, Some (7, 3))) as Eo by (vm_compute; reflexivity).
  rewrite E in Eo. simpl in Eo. injection Eo as Ewl End Ea.
  destruct (timer_skip_is_safe 39 w1) as (w2&E2&_&Hk); [done|unfold clock_ok, U64; lia|lia|].
  exists w1, w2. split; [by rewrite E|]. split; [done|]. split; [done|]. destruct (Hk 0%nat) as [-> _]. done.
Defined.
