(* ===== verification/ReadLog.v ===== *)
(** * The read log of a shard ([cache/src/task/read_log.rs])

    A bounded queue of the reads a key-based policy has not seen.  Hits push while they
    hold the shard's read lock, so several pushes interleave; the shard's writer drains
    the log with the write lock held, so no push is under way then.  [lpusher_step] is
    one atomic access of [push]; positions are [usize] and wrap. *)

From stdpp Require Import relations.
From S2P Require Import Prelude.

Definition SLOTS : Z := 256.

(** [val] is [None] while the cell is uninitialised. *)
Record LSlot (K : Type) := mk_lslot { seq : Z; val : option (K * Z) }.
Arguments mk_lslot {K}.
Arguments seq {K}.
Arguments val {K}.

Record ReadLog (K : Type) := mk_log { lslots : list (LSlot K); tail : Z; head : Z }.
Arguments mk_log {K}.
Arguments lslots {K}.
Arguments tail {K}.
Arguments head {K}.

Section Code.
Context {K : Type}.
Implicit Types (lg : ReadLog K) (rd : K * Z).

Definition new : ReadLog K := mk_log ((λ i, mk_lslot i None) <$> seqZ 0 SLOTS) 0 0.

Definition slot_of (pos : Z) : Z := Z.land pos (SLOTS - 1).

(** [(a as isize).wrapping_sub(b as isize)]. *)
Definition signed_diff (a b : Z) : Z := let d := a -w b in if d <? 2 ^ 63 then d else d - U64.

(** A call of [push] between two of its atomic accesses. *)
Inductive LPusher :=
  | L_load (rd : K * Z)
  | L_seq (rd : K * Z) (pos : Z)
  | L_cas (rd : K * Z) (pos : Z)
  | L_write (rd : K * Z) (pos : Z)
  | L_publish (rd : K * Z) (pos : Z)
  | L_done (rd : K * Z) (ok : bool).

(** [weak] is a spurious failure of [compare_exchange_weak]. *)
Definition lpusher_step (weak : bool) (p : LPusher) lg : option (LPusher * ReadLog K) :=
  match p with
  | L_load rd => Some (L_seq rd (tail lg), lg)
  | L_seq rd pos =>
      slot ← vget (lslots lg) (slot_of pos);
      let diff := signed_diff (seq slot) pos in
      if diff =? 0 then Some (L_cas rd pos, lg)
      else if diff <? 0 then Some (L_done rd false, lg)
      else Some (L_load rd, lg)
  | L_cas rd pos =>
      if negb weak && (tail lg =? pos) then Some (L_write rd pos, mk_log (lslots lg) (pos +w 1) (head lg))
      else Some (L_seq rd (tail lg), lg)
  | L_write rd pos =>
      slot ← vget (lslots lg) (slot_of pos);
      ss ← vset (lslots lg) (slot_of pos) (mk_lslot (seq slot) (Some rd));
      Some (L_publish rd pos, mk_log ss (tail lg) (head lg))
  | L_publish rd pos =>
      slot ← vget (lslots lg) (slot_of pos);
      ss ← vset (lslots lg) (slot_of pos) (mk_lslot (pos +w 1) (val slot));
      Some (L_done rd true, mk_log ss (tail lg) (head lg))
  | L_done _ _ => None
  end.

Inductive log_step : list LPusher * ReadLog K → list LPusher * ReadLog K → Prop :=
  | log_step_intro weak ps k p lg p' lg' :
      ps !! k = Some p → lpusher_step weak p lg = Some (p', lg') → log_step (ps, lg) (<[k:=p']> ps, lg').

(** A push that nothing interrupts: five accesses at most. *)
Fixpoint push_run (fuel : nat) (p : LPusher) lg : option (bool * ReadLog K) :=
  match p, fuel with
  | L_done _ ok, _ => Some (ok, lg)
  | _, O => None
  | _, S fuel => '(p', lg') ← lpusher_step false p lg; push_run fuel p' lg'
  end.

Definition push rd lg : option (bool * ReadLog K) := push_run 5 (L_load rd) lg.

(** Reading a cell moves the value out; reading an empty one is [None]. *)
Fixpoint drain_loop (fuel : nat) (pos : Z) (ss : list (LSlot K)) : option (list (K * Z) * Z * list (LSlot K)) :=
  match fuel with
  | O => None
  | S fuel =>
      slot ← vget ss (slot_of pos);
      if seq slot =? pos +w 1 then
        rd ← val slot;
        ss' ← vset ss (slot_of pos) (mk_lslot (pos +w SLOTS) None);
        '(rds, pos', ss'') ← drain_loop fuel (pos +w 1) ss';
        Some (rd :: rds, pos', ss'')
      else Some ([], pos, ss)
  end.

(** The reads handed to [f], in order, and the log after; [S (length slots)] turns see
    every slot once and stop. *)
Definition drain lg : option (list (K * Z) * ReadLog K) :=
  '(rds, pos, ss) ← drain_loop (S (length (lslots lg))) (head lg) (lslots lg);
  Some (rds, mk_log ss (tail lg) pos).
End Code.
Arguments LPusher : clear implicits.

(** ** Positions *)

(** The position [off] pushes after [h]. *)
Definition posn (h off : Z) : Z := (h + off) mod U64.

Lemma posn_slot h off : slot_of (posn h off) = (h + off) mod SLOTS.
Proof.
  unfold slot_of, posn, SLOTS. change (256 - 1) with (Z.ones 8). rewrite Z.land_ones by lia.
  change (2 ^ 8) with 256. apply Z.mod_mod_divide. exists (2 ^ 56). reflexivity.
Qed.

Lemma posn_slot_bound h off : 0 ≤ slot_of (posn h off) < SLOTS.
Proof. rewrite posn_slot. apply Z.mod_pos_bound. unfold SLOTS. lia. Qed.

Lemma slot_inj h o1 o2 : 0 ≤ o1 < SLOTS → 0 ≤ o2 < SLOTS → slot_of (posn h o1) = slot_of (posn h o2) → o1 = o2.
Proof.
  rewrite !posn_slot. unfold SLOTS. intros H1 H2 E.
  pose proof (Z.div_mod (h + o1) 256 ltac:(lia)). pose proof (Z.div_mod (h + o2) 256 ltac:(lia)).
  assert ((h + o1) / 256 = (h + o2) / 256 ∨ (h + o1) / 256 ≠ (h + o2) / 256) as [|] by lia; lia.
Qed.

Lemma posn_inj h o1 o2 : 0 ≤ o1 ≤ SLOTS → 0 ≤ o2 ≤ SLOTS → posn h o1 = posn h o2 → o1 = o2.
Proof.
  unfold posn, SLOTS. intros H1 H2 E.
  pose proof (Z.div_mod (h + o1) U64 ltac:(u64_lia)). pose proof (Z.div_mod (h + o2) U64 ltac:(u64_lia)).
  assert ((h + o1) / U64 = (h + o2) / U64 ∨ (h + o1) / U64 ≠ (h + o2) / U64) as [|] by lia; u64_lia.
Qed.

Lemma posn_0 h : is_u64 h → posn h 0 = h.
Proof. unfold posn, is_u64. intros. rewrite Z.mod_small; lia. Qed.

Lemma posn_add h off n : posn h off +w n = posn h (off + n).
Proof. unfold posn, u64_add. rewrite Zplus_mod_idemp_l. f_equal. lia. Qed.

Lemma posn_posn h off n : posn (posn h off) n = posn h (off + n).
Proof. apply posn_add. Qed.

Lemma signed_diff_posn h o1 o2 : - 2 ^ 63 ≤ o1 - o2 < 2 ^ 63 → signed_diff (posn h o1) (posn h o2) = o1 - o2.
Proof.
  intros Hd. unfold signed_diff, u64_sub, posn. rewrite <- Zminus_mod. replace (h + o1 - (h + o2)) with (o1 - o2) by lia.
  destruct (Z.ltb_spec (o1 - o2) 0).
  - replace ((o1 - o2) mod U64) with (o1 - o2 + U64) by (apply (Z.mod_unique _ _ (-1)); u64_lia).
    destruct (Z.ltb_spec (o1 - o2 + U64) (2 ^ 63)); u64_lia.
  - rewrite Z.mod_small by u64_lia. destruct (Z.ltb_spec (o1 - o2) (2 ^ 63)); lia.
Qed.

(** ** Ownership of the positions *)

Section Inv.
Context {K : Type}.
Implicit Types (lg : ReadLog K) (rd : K * Z) (ps : list (LPusher K)).

Definition cell lg (h : Z) (off : Z) : option (LSlot K) := vget (lslots lg) (slot_of (posn h off)).

(** The slot at [off], given the pusher that took the position. *)
Definition cell_matches (h off : Z) (p : LPusher K) (sl : LSlot K) : Prop :=
  (∃ rd, p = L_write rd (posn h off) ∧ sl = mk_lslot (posn h off) None) ∨
  (∃ rd, p = L_publish rd (posn h off) ∧ sl = mk_lslot (posn h off) (Some rd)) ∨
  (∃ rd, p = L_done rd true ∧ sl = mk_lslot (posn h (off + 1)) (Some rd)).

(** [own !! i] is the pusher that took the position [i] after [h]. *)
Record log_inv (h : Z) (own : list nat) ps lg : Prop := {
  li_len : length (lslots lg) = Z.to_nat SLOTS;
  li_head : head lg = h ∧ is_u64 h;
  li_tail : tail lg = posn h (Z.of_nat (length own));
  li_room : Z.of_nat (length own) ≤ SLOTS;
  li_nodup : NoDup own;
  li_own i k : own !! i = Some k →
    ∃ p sl, ps !! k = Some p ∧ cell lg h (Z.of_nat i) = Some sl ∧ cell_matches h (Z.of_nat i) p sl;
  li_free off : Z.of_nat (length own) ≤ off < SLOTS → cell lg h off = Some (mk_lslot (posn h off) None);
  li_hold k p : ps !! k = Some p →
    match p with
    | L_load _ => True
    | L_seq _ pos => ∃ off, 0 ≤ off ≤ Z.of_nat (length own) ∧ pos = posn h off
    | L_cas _ pos => ∃ off, 0 ≤ off ≤ Z.of_nat (length own) ∧ off < SLOTS ∧ pos = posn h off
    | L_write _ _ | L_publish _ _ | L_done _ true => k ∈ own
    | L_done _ false => Z.of_nat (length own) = SLOTS
    end;
}.

(** No push under way and nothing logged. *)
Definition log_idle lg : Prop := log_inv (head lg) [] [] lg.

Lemma log_idle_new : log_idle (new (K:=K)).
Proof.
  split; try done.
  - constructor.
  - intros off [H0 H1]. cbn [length] in H0. unfold cell, new, vget. cbn [lslots head]. pose proof (posn_slot_bound 0 off) as Hb.
    destruct (Z.leb_spec 0 (slot_of (posn 0 off))); [|lia].
    assert (Ep : slot_of (posn 0 off) = off) by (rewrite posn_slot; rewrite Z.mod_small; unfold SLOTS in *; lia).
    rewrite Ep, list_lookup_fmap. rewrite lookup_seqZ_lt by lia. cbn [fmap option_fmap option_map]. rewrite Z2Nat.id by lia. unfold posn. by rewrite Z.mod_small by (unfold SLOTS, U64 in *; lia).
Qed.

Lemma log_inv_start lg (rds : list (K * Z)) : log_idle lg → log_inv (head lg) [] (L_load <$> rds) lg.
Proof. intros [H1 H2 H3 H4 H5 H6 H7 H8]. split; try done. intros k p (rd&->&_)%list_lookup_fmap_Some. done. Qed.

(** A step that takes no position and touches no slot. *)
Lemma log_inv_quiet h own ps lg k p p' :
  log_inv h own ps lg → ps !! k = Some p → k ∉ own →
  match p' with
  | L_load _ => True
  | L_seq _ pos => ∃ off, 0 ≤ off ≤ Z.of_nat (length own) ∧ pos = posn h off
  | L_cas _ pos => ∃ off, 0 ≤ off ≤ Z.of_nat (length own) ∧ off < SLOTS ∧ pos = posn h off
  | L_done _ false => Z.of_nat (length own) = SLOTS
  | _ => False
  end → log_inv h own (<[k:=p']> ps) lg.
Proof.
  intros Hi Hk Hn Hp. destruct Hi as [H1 H2 H3 H4 H5 H6 H7 H8]. split; try done.
  - intros i j Ho. destruct (H6 i j Ho) as (q&sl&Hq&Hrest). exists q, sl. split; [|done].
    rewrite list_lookup_insert_ne; [done|]. intros ->. apply Hn. by eapply list_elem_of_lookup_2.
  - intros j q [(<-&<-&_)|[_ Hq]]%list_lookup_insert_Some; [|by apply H8 in Hq].
    destruct p' as [| | | | |? []]; try done.
Qed.

Lemma not_owner h own ps lg k p :
  log_inv h own ps lg → ps !! k = Some p →
  match p with L_load _ | L_seq _ _ | L_cas _ _ | L_done _ false => True | _ => False end → k ∉ own.
Proof.
  intros Hi Hk Hp [i Ho]%list_elem_of_lookup. destruct (li_own _ _ _ _ Hi i k Ho) as (q&sl&Hq&_&Hm).
  rewrite Hk in Hq. injection Hq as <-. by destruct Hm as [(?&->&_)|[(?&->&_)|(?&->&_)]].
Qed.

(** The exchange takes the next position. *)
Lemma log_inv_claim h own ps lg k rd :
  log_inv h own ps lg → ps !! k = Some (L_cas rd (tail lg)) →
  log_inv h (own ++ [k]) (<[k:=L_write rd (tail lg)]> ps) (mk_log (lslots lg) (tail lg +w 1) (head lg)).
Proof.
  intros Hi Hk. pose proof (not_owner _ _ _ _ _ _ Hi Hk I) as Hn.
  destruct (li_hold _ _ _ _ Hi k _ Hk) as (off&Hoff&Hlt&Epos). rewrite (li_tail _ _ _ _ Hi) in *.
  apply posn_inj in Epos; [|pose proof (li_room _ _ _ _ Hi); lia|lia]. destruct Hi as [H1 H2 H3 H4 H5 H6 H7 H8].
  assert (Hlen : Z.of_nat (length (own ++ [k])) = Z.of_nat (length own) + 1) by (rewrite length_app; simpl; lia).
  split; simpl.
  - done.
  - done.
  - by rewrite posn_add, Hlen.
  - lia.
  - apply NoDup_app. split_and!; [done|set_solver|apply NoDup_singleton].
  - intros i j [Ho|[Hge Ho]]%lookup_app_Some.
    + destruct (H6 i j Ho) as (q&sl&Hq&Hrest). exists q, sl. split; [|done].
      rewrite list_lookup_insert_ne; [done|]. intros ->. apply Hn. by eapply list_elem_of_lookup_2.
    + apply list_lookup_singleton_Some in Ho as [? <-]. assert (i = length own) as -> by lia.
      eexists _, _. split; [apply list_lookup_insert_eq; by eapply lookup_lt_Some|]. split; [apply (H7 (Z.of_nat (length own))); lia|].
      left. by exists rd.
  - intros o Ho. apply H7. lia.
  - intros j q [(<-&<-&_)|[Hne Hq]]%list_lookup_insert_Some; [set_solver|]. apply H8 in Hq.
    destruct q as [|? q|? q| | |? []]; try done; [..|lia]; try (apply elem_of_app; by left);
      rewrite Hlen; destruct Hq as (o&?&?); exists o; (split; [lia|done]).
Qed.

(** A step of the owner of position [off] on its slot. *)
Lemma log_inv_own_step h own ps lg k p p' i sl sl' :
  log_inv h own ps lg → own !! i = Some k → ps !! k = Some p → cell lg h (Z.of_nat i) = Some sl →
  cell_matches h (Z.of_nat i) p' sl' →
  ∃ ss, vset (lslots lg) (slot_of (posn h (Z.of_nat i))) sl' = Some ss ∧
    log_inv h own (<[k:=p']> ps) (mk_log ss (tail lg) (head lg)).
Proof.
  intros Hi Ho Hk Hc Hm. pose proof (lookup_lt_Some _ _ _ Ho) as Hlt. pose proof (li_room _ _ _ _ Hi) as Hroom.
  destruct (vset_spec _ _ sl' _ Hc) as (ss&Ess&Hlen&Hget). exists ss. split; [done|].
  assert (Hcell : ∀ o, 0 ≤ o < SLOTS → cell (mk_log ss (tail lg) (head lg)) h o = if decide (o = Z.of_nat i) then Some sl' else cell lg h o).
  { intros o Hb. unfold cell. simpl. rewrite Hget. destruct (decide (o = Z.of_nat i)) as [->|Hne]; [by rewrite decide_True by done|].
    rewrite decide_False; [done|]. intros E. apply Hne. apply (slot_inj h); [lia|lia|done]. }
  destruct Hi as [H1 H2 H3 H4 H5 H6 H7 H8]. split; simpl; try done.
  - by rewrite Hlen.
  - intros i' j Ho'. pose proof (lookup_lt_Some _ _ _ Ho'). rewrite Hcell by lia. destruct (decide (j = k)) as [->|Hne].
    + assert (i' = i) as -> by (by eapply NoDup_lookup). exists p', sl'.
      split; [apply list_lookup_insert_eq; by eapply lookup_lt_Some|]. by rewrite decide_True by done.
    + destruct (H6 i' j Ho') as (q&s&Hq&Hs&Hrest). exists q, s. rewrite list_lookup_insert_ne by done. split; [done|].
      rewrite decide_False; [done|]. intros ?%Nat2Z.inj. subst i'. congruence.
  - intros o Hb. rewrite Hcell by lia. rewrite decide_False by lia. by apply H7.
  - intros j q [(<-&<-&_)|[Hne Hq]]%list_lookup_insert_Some; [|by apply H8 in Hq].
    apply (list_elem_of_lookup_2 _ _ _) in Ho. by destruct Hm as [(?&->&_)|[(?&->&_)|(?&->&_)]].
Qed.

(** What the sequence number of a seen position says. *)
Lemma seen_diff h own ps lg off :
  log_inv h own ps lg → 0 ≤ off ≤ Z.of_nat (length own) →
  ∃ sl, vget (lslots lg) (slot_of (posn h off)) = Some sl ∧
    let d := signed_diff (seq sl) (posn h off) in
    (d = 0 → off < SLOTS) ∧ (d < 0 → Z.of_nat (length own) = SLOTS).
Proof.
  intros Hi Hoff. pose proof (li_room _ _ _ _ Hi) as Hroom.
  assert (Hsq : ∀ o, 0 ≤ o < SLOTS → ∃ sl, cell lg h o = Some sl ∧ (seq sl = posn h o ∨ seq sl = posn h (o + 1))).
  { intros o Ho. destruct (decide (o < Z.of_nat (length own))) as [Hlt|Hge].
    - destruct (lookup_lt_is_Some_2 own (Z.to_nat o)) as [k Hk]; [lia|]. destruct (li_own _ _ _ _ Hi _ _ Hk) as (p&sl&_&Hc&Hm).
      rewrite Z2Nat.id in Hc, Hm by lia. exists sl. split; [done|].
      destruct Hm as [(?&_&->)|[(?&_&->)|(?&_&->)]]; simpl; auto.
    - eexists. split; [apply (li_free _ _ _ _ Hi); lia|]. by left. }
  destruct (decide (off < SLOTS)) as [Hlt|Hge].
  - destruct (Hsq off) as (sl&Hc&Hs); [lia|]. exists sl. split; [done|]. split; [done|]. intros Hneg. exfalso.
    destruct Hs as [Hs|Hs]; rewrite Hs, signed_diff_posn in Hneg; lia.
  - assert (off = SLOTS) as -> by lia. destruct (Hsq 0) as (sl&Hc&Hs); [unfold SLOTS; lia|]. exists sl.
    assert (Eq : slot_of (posn h SLOTS) = slot_of (posn h 0)).
    { rewrite !posn_slot. replace (h + SLOTS) with (h + 0 + 1 * SLOTS) by lia. apply Z.mod_add. unfold SLOTS. lia. }
    rewrite Eq. split; [done|]. split; [|lia]. intros E. exfalso.
    destruct Hs as [Hs|Hs]; rewrite Hs, signed_diff_posn in E; unfold SLOTS in *; lia.
Qed.

Lemma log_inv_step h own ps lg ps' lg' :
  log_inv h own ps lg → log_step (ps, lg) (ps', lg') → ∃ new, log_inv h (own ++ new) ps' lg'.
Proof.
  intros Hi Hs. inversion Hs as [weak ? k p ? p' ? Hk Hst]; subst.
  pose proof (li_hold _ _ _ _ Hi k p Hk) as Hh.
  assert (Hq : ∀ q, k ∉ own → log_inv h own (<[k:=q]> ps) lg → ∃ new, log_inv h (own ++ new) (<[k:=q]> ps) lg)
    by (intros q _ ?; exists []; by rewrite app_nil_r).
  destruct p as [rd|rd pos|rd pos|rd pos|rd pos|rd ok]; simpl in Hst; [| | | | |done].
  - pose proof (not_owner _ _ _ _ _ _ Hi Hk I) as Hn. simplify_eq. apply Hq; [done|]. eapply log_inv_quiet; [done..|].
    exists (Z.of_nat (length own)). split; [lia|]. apply (li_tail _ _ _ _ Hi).
  - pose proof (not_owner _ _ _ _ _ _ Hi Hk I) as Hn. destruct Hh as (off&Hoff&->).
    destruct (seen_diff _ _ _ _ off Hi Hoff) as (sl&Hsl&H0&Hneg). rewrite Hsl in Hst. simpl in Hst.
    destruct (Z.eqb_spec (signed_diff (seq sl) (posn h off)) 0) as [E|_];
      [|destruct (Z.ltb_spec (signed_diff (seq sl) (posn h off)) 0) as [E|_]]; simplify_eq; (apply Hq; [done|]);
      (eapply log_inv_quiet; [done..|]); [|by auto|done]. exists off. split; [lia|]. split; [by apply H0|done].
  - pose proof (not_owner _ _ _ _ _ _ Hi Hk I) as Hn. destruct (negb weak && (tail lg =? pos)) eqn:E; simplify_eq.
    + apply andb_true_iff in E as [_ E%Z.eqb_eq]. subst pos. exists [k]. by apply log_inv_claim.
    + apply Hq; [done|]. eapply log_inv_quiet; [done..|]. exists (Z.of_nat (length own)). split; [lia|]. apply (li_tail _ _ _ _ Hi).
  - apply list_elem_of_lookup in Hh as [i Ho]. destruct (li_own _ _ _ _ Hi i k Ho) as (q&sl&Hq'&Hc&Hm).
    rewrite Hk in Hq'. injection Hq' as <-. destruct Hm as [(rd'&[= <- ->]&->)|[(?&?&_)|(?&?&_)]]; [|done..].
    destruct (log_inv_own_step h own ps lg k _ (L_publish rd (posn h (Z.of_nat i))) i _ (mk_lslot (posn h (Z.of_nat i)) (Some rd)) Hi Ho Hk Hc)
      as (ss&Ess&Hi'); [right; left; by exists rd|].
    unfold cell in Hc. rewrite Hc in Hst. simpl in Hst. rewrite Ess in Hst. simpl in Hst. simplify_eq. exists []. by rewrite app_nil_r.
  - apply list_elem_of_lookup in Hh as [i Ho]. destruct (li_own _ _ _ _ Hi i k Ho) as (q&sl&Hq'&Hc&Hm).
    rewrite Hk in Hq'. injection Hq' as <-. destruct Hm as [(?&?&_)|[(rd'&[= <- ->]&->)|(?&?&_)]]; [done| |done].
    destruct (log_inv_own_step h own ps lg k _ (L_done rd true) i _ (mk_lslot (posn h (Z.of_nat i + 1)) (Some rd)) Hi Ho Hk Hc)
      as (ss&Ess&Hi'); [right; right; by exists rd|].
    unfold cell in Hc. rewrite Hc in Hst. simpl in Hst. rewrite posn_add, Ess in Hst. simpl in Hst. simplify_eq. exists []. by rewrite app_nil_r.
Qed.

Lemma log_inv_steps h own ps lg ps' lg' :
  log_inv h own ps lg → rtc log_step (ps, lg) (ps', lg') → ∃ new, log_inv h (own ++ new) ps' lg'.
Proof.
  intros Hi Hs. remember (ps, lg) as x eqn:Ex. remember (ps', lg') as y eqn:Ey.
  revert own ps lg Ex Hi. induction Hs as [x|x [ps1 lg1] y Hs1 _ IH]; intros own ps lg Ex Hi.
  - subst. injection Ex as -> ->. exists []. by rewrite app_nil_r.
  - subst. destruct (log_inv_step _ _ _ _ _ _ Hi Hs1) as [n1 Hi1].
    destruct (IH eq_refl (own ++ n1) ps1 lg1 eq_refl Hi1) as [n2 Hi2]. exists (n1 ++ n2). by rewrite app_assoc.
Qed.
End Inv.

(** ** What a drain hands over *)

Section Drain.
Context {K : Type}.
Implicit Types (lg : ReadLog K) (rds : list (K * Z)) (ss : list (LSlot K)) (ps : list (LPusher K)).

(** From [h] on, the slots hold the published reads [rds] and are free after them. *)
Record holds (h : Z) rds ss : Prop := {
  h_len : length ss = Z.to_nat SLOTS;
  h_room : Z.of_nat (length rds) ≤ SLOTS;
  h_full i rd : rds !! i = Some rd → vget ss (slot_of (posn h (Z.of_nat i))) = Some (mk_lslot (posn h (Z.of_nat i + 1)) (Some rd));
  h_free o : Z.of_nat (length rds) ≤ o < SLOTS → vget ss (slot_of (posn h o)) = Some (mk_lslot (posn h o) None);
}.

Lemma holds_next h rd rds ss :
  is_u64 h → holds h (rd :: rds) ss →
  ∃ ss', vset ss (slot_of h) (mk_lslot (posn h SLOTS) None) = Some ss' ∧ holds (posn h 1) rds ss'.
Proof.
  intros Hu [H1 H2 H3 H4]. assert (E0 : posn h 0 = h) by (by apply posn_0).
  pose proof (H3 0%nat rd eq_refl) as Hc. change (Z.of_nat 0) with 0 in Hc. rewrite E0 in Hc. cbn [length] in H2, H4.
  destruct (vset_spec _ _ (mk_lslot (posn h SLOTS) None) _ Hc) as (ss'&->&Hlen&Hget). exists ss'. split; [done|].
  assert (Hne : ∀ o, 1 ≤ o < SLOTS → slot_of (posn h o) ≠ slot_of h).
  { intros o Ho E. rewrite <- E0 in E at 2. apply slot_inj in E; unfold SLOTS in *; lia. }
  split.
  - by rewrite Hlen.
  - lia.
  - intros i rd' Hi. pose proof (lookup_lt_Some _ _ _ Hi). rewrite !posn_posn, Hget.
    rewrite decide_False by (apply Hne; unfold SLOTS in *; lia).
    specialize (H3 (S i) rd' Hi). rewrite Nat2Z.inj_succ in H3. unfold Z.succ in H3.
    replace (1 + Z.of_nat i) with (Z.of_nat i + 1) by lia. rewrite H3. do 3 f_equal. lia.
  - intros o Ho. rewrite posn_posn, Hget. destruct (decide (o = SLOTS - 1)) as [->|].
    + rewrite decide_True; [do 2 f_equal|]. rewrite posn_slot. rewrite <- E0 at 2. rewrite posn_slot.
      replace (h + (1 + (SLOTS - 1))) with (h + 0 + 1 * SLOTS) by lia. apply Z.mod_add. unfold SLOTS. lia.
    + rewrite decide_False by (apply Hne; lia). apply H4. lia.
Qed.

Lemma drain_loop_spec rds h ss fuel :
  is_u64 h → holds h rds ss → (length rds < fuel)%nat →
  ∃ ss', drain_loop fuel h ss = Some (rds, posn h (Z.of_nat (length rds)), ss') ∧ holds (posn h (Z.of_nat (length rds))) [] ss'.
Proof.
  revert h ss fuel. induction rds as [|rd rds IH]; intros h ss fuel Hu Hh Hf; (destruct fuel as [|fuel]; [simpl in Hf; lia|]);
    assert (E0 : posn h 0 = h) by (by apply posn_0); cbn [drain_loop].
  - pose proof (h_free _ _ _ Hh 0 ltac:(unfold SLOTS; simpl; lia)) as Hc. rewrite E0 in Hc. rewrite Hc. cbn [mbind option_bind seq].
    assert (E1 : h +w 1 = posn h 1) by (rewrite <- E0 at 1; by rewrite posn_add).
    rewrite E1. cbn [length]. change (Z.of_nat 0) with 0. rewrite E0. destruct (Z.eqb_spec h (posn h 1)) as [E|_]; [|by eauto].
    exfalso. rewrite <- E0 in E at 1. apply posn_inj in E; unfold SLOTS in *; lia.
  - pose proof (h_full _ _ _ Hh 0%nat rd eq_refl) as Hc. change (Z.of_nat 0) with 0 in Hc. rewrite E0 in Hc. rewrite Hc.
    cbn [mbind option_bind seq val]. assert (E1 : h +w 1 = posn h 1) by (rewrite <- E0 at 1; by rewrite posn_add).
    rewrite E1. change (0 + 1) with 1. rewrite Z.eqb_refl.
    assert (ES : h +w SLOTS = posn h SLOTS) by (rewrite <- E0 at 1; by rewrite posn_add). rewrite ES.
    destruct (holds_next h rd rds ss Hu Hh) as (ss1&->&Hh1). cbn [mbind option_bind].
    destruct (IH (posn h 1) ss1 fuel) as (ss'&->&Hh'); [unfold posn; apply Z.mod_pos_bound; u64_lia|done|simpl in Hf; lia|].
    cbn [mbind option_bind]. exists ss'. rewrite posn_posn in *. cbn [length].
    replace (Z.of_nat (S (length rds))) with (1 + Z.of_nat (length rds)) by lia. done.
Qed.

Lemma holds_idle h ss t : is_u64 h → holds h [] ss → t = h → log_idle (mk_log ss t h).
Proof.
  intros Hu [H1 _ _ H4] ->. split; try done.
  - simpl. by rewrite posn_0.
  - constructor.
Qed.

Definition log_finished ps : Prop := Forall (λ p, ∃ rd ok, p = L_done rd ok) ps.

(** The read of pusher [k]. *)
Definition read_at ps (k : nat) : option (K * Z) :=
  match ps !! k with Some (L_done rd true) => Some rd | _ => None end.

Lemma finished_holds h own ps lg :
  log_inv h own ps lg → log_finished ps →
  holds h (omap (read_at ps) own) (lslots lg) ∧ length (omap (read_at ps) own) = length own ∧
  ∀ k, k ∈ own ↔ is_Some (read_at ps k).
Proof.
  intros Hi Hfin.
  assert (Hr : ∀ i k, own !! i = Some k → ∃ rd, read_at ps k = Some rd ∧
    cell lg h (Z.of_nat i) = Some (mk_lslot (posn h (Z.of_nat i + 1)) (Some rd))).
  { intros i k Ho. destruct (li_own _ _ _ _ Hi i k Ho) as (p&sl&Hp&Hc&Hm). unfold read_at. rewrite Hp.
    destruct (Forall_lookup_1 _ _ _ _ Hfin Hp) as (rd&ok&->). destruct Hm as [(?&?&_)|[(?&?&_)|(rd'&[= -> ->]&->)]]; [done..|]. eauto. }
  assert (length (omap (read_at ps) own) = length own ∧
    ∀ i, omap (read_at ps) own !! i = own !! i ≫= read_at ps) as [Hlen Hlk].
  { assert (Hall : Forall (λ k, is_Some (read_at ps k)) own).
    { apply Forall_lookup. intros i k Ho. destruct (Hr i k Ho) as (rd&->&_). by eexists. }
    clear -Hall. induction Hall as [|k own [rd Hk] _ [IHl IHk]]; [done|]. simpl. rewrite Hk. simpl. split; [by f_equal|].
    intros [|i]; simpl; [done|apply IHk]. }
  split; [|split; [done|]].
  - split; [apply Hi|rewrite Hlen; apply Hi| |rewrite Hlen; apply Hi].
    intros i rd. rewrite Hlk. intros (k&Ho&Hk)%bind_Some. destruct (Hr i k Ho) as (rd'&Hk'&?).
    rewrite Hk in Hk'. by injection Hk' as <-.
  - intros k. split; [intros [i Ho]%list_elem_of_lookup; destruct (Hr i k Ho) as (rd&->&_); by eexists|].
    intros [rd Hk]. unfold read_at in Hk. destruct (ps !! k) as [p|] eqn:Ep; [|done].
    destruct p as [| | | | |rd' []]; try done. by apply (li_hold _ _ _ _ Hi k _ Ep).
Qed.

Lemma drain_finished h own ps lg :
  log_inv h own ps lg → log_finished ps →
  ∃ lg', drain lg = Some (omap (read_at ps) own, lg') ∧ log_idle lg'.
Proof.
  intros Hi Hfin. destruct (finished_holds h own ps lg Hi Hfin) as (Hh&Hlen&_). destruct (li_head _ _ _ _ Hi) as [Eh Hu].
  unfold drain. rewrite Eh. destruct (drain_loop_spec _ h (lslots lg) (S (length (lslots lg))) Hu Hh) as (ss'&->&Hh').
  { rewrite Hlen, (h_len _ _ _ Hh). pose proof (h_room _ _ _ Hh). lia. }
  cbn [mbind option_bind]. eexists. split; [done|]. apply holds_idle; [apply Z.mod_pos_bound; u64_lia|done|].
  rewrite Hlen. apply (li_tail _ _ _ _ Hi).
Qed.

(** take any interleaving of pushes (spurious failures of the exchange included),
    from a drained log, at whatever position its counters have reached.  Once all have
    returned, a drain terminates and hands over exactly the reads of the pushes that
    returned [true], each once; a push that had returned before another started comes
    before it; a push was refused only if the log took [SLOTS] reads; and the log
    is drained again. *)
Theorem readlog_keeps_reads (rds : list (K * Z)) ps1 ps lg0 lg1 lg :
  log_idle lg0 → rtc log_step (L_load <$> rds, lg0) (ps1, lg1) → rtc log_step (ps1, lg1) (ps, lg) → log_finished ps →
  ∃ order lg', drain lg = Some (omap (read_at ps) order, lg') ∧ log_idle lg' ∧ NoDup order ∧
    (∀ k, k ∈ order ↔ is_Some (read_at ps k)) ∧
    (∀ a b rd, is_Some (read_at ps1 a) → ps1 !! b = Some (L_load rd) → b ∈ order →
       ∃ l1 l2 l3, order = l1 ++ a :: l2 ++ b :: l3) ∧
    (Exists (λ p, ∃ rd, p = L_done rd false) ps → Z.of_nat (length order) = SLOTS).
Proof.
  intros Hidle Hs1 Hs Hfin. destruct (log_inv_steps _ _ _ _ _ _ (log_inv_start lg0 rds Hidle) Hs1) as [own1 Hi1].
  rewrite app_nil_l in Hi1. destruct (log_inv_steps _ _ _ _ _ _ Hi1 Hs) as [own2 Hi].
  destruct (drain_finished _ _ _ _ Hi Hfin) as (lg'&Hd&Hidle'). exists (own1 ++ own2), lg'.
  split; [done|]. split; [done|]. split; [apply Hi|]. split; [apply (finished_holds _ _ _ _ Hi Hfin)|]. split.
  - intros a b rd [rda Ha] Hb Hin. assert (Ha1 : a ∈ own1).
    { unfold read_at in Ha. destruct (ps1 !! a) as [p|] eqn:Ep; [|done]. destruct p as [| | | | |? []]; try done.
      apply (li_hold _ _ _ _ Hi1 a _ Ep). }
    pose proof (not_owner _ _ _ _ _ _ Hi1 Hb I). apply elem_of_app in Hin as [?|Hb2]; [done|].
    apply list_elem_of_split in Ha1 as (l1&l2&->). apply list_elem_of_split in Hb2 as (l3&l4&->).
    exists l1, (l2 ++ l3), l4. by rewrite <- !app_assoc.
  - intros (p&Hp&rd&->)%Exists_exists. apply list_elem_of_lookup in Hp as [k Hk]. apply (li_hold _ _ _ _ Hi k _ Hk).
Qed.

(** An uninterrupted push is such an interleaving. *)
Lemma push_run_steps fuel p lg ok lg' :
  push_run fuel p lg = Some (ok, lg') → ∃ rd, rtc log_step ([p], lg) ([L_done rd ok], lg').
Proof.
  revert p lg. induction fuel as [|fuel IH]; intros p lg E.
  - destruct p; simpl in E; simplify_eq. eexists. apply rtc_refl.
  - destruct p as [rd|rd pos|rd pos|rd pos|rd pos|rd ok']; cbn [push_run] in E;
      try (apply bind_Some in E as ([p' lg1]&Hst&E); destruct (IH p' lg1 E) as [rd' Hs]; exists rd';
           eapply rtc_l; [exact (log_step_intro false [_] 0 _ lg p' lg1 eq_refl Hst)|exact Hs]).
    simplify_eq. eexists. apply rtc_refl.
Qed.
End Drain.

Lemma readlog_keeps_reads_witness :
  ∃ lg lg' : ReadLog nat, snd <$> (r ← push (7%nat, 3) new; push (8%nat, 4) r.2) = Some lg ∧
    drain lg = Some ([(7%nat, 3); (8%nat, 4)], lg') ∧ log_idle lg'.
Proof.
  assert (∃ lg1, push (7%nat, 3) new = Some (true, lg1)) as [lg1 E1] by (eexists; vm_compute; reflexivity).
  assert (∃ lg, push (8%nat, 4) lg1 = Some (true, lg)) as [lg E2]
    by (vm_compute in E1; injection E1 as <-; eexists; vm_compute; reflexivity).
  exists lg. rewrite E1. cbn [mbind option_bind snd]. rewrite E2. cbn [fmap option_fmap option_map snd].
  assert (∃ lg', drain lg = Some ([(7%nat, 3); (8%nat, 4)], lg')) as [lg' Ed].
  { vm_compute in E1. injection E1 as <-. vm_compute in E2. injection E2 as <-. eexists. vm_compute. reflexivity. }
  exists lg'. split; [done|]. split; [done|].
  set (two := λ p q, [p; q] : list (LPusher nat)).
  assert (Hs1 : rtc log_step (two (L_load (7%nat, 3)) (L_load (8%nat, 4)), new) (two (L_done (7%nat, 3) true) (L_load (8%nat, 4)), lg1)).
  { vm_compute in E1. injection E1 as <-. do 5 (eapply rtc_l; [eapply (log_step_intro false _ 0); reflexivity|]). vm_compute. apply rtc_refl. }
  assert (Hs2 : rtc log_step (two (L_done (7%nat, 3) true) (L_load (8%nat, 4)), lg1) (two (L_done (7%nat, 3) true) (L_done (8%nat, 4) true), lg)).
  { vm_compute in E1. injection E1 as <-. vm_compute in E2. injection E2 as <-.
    do 5 (eapply rtc_l; [eapply (log_step_intro false _ 1); reflexivity|]). vm_compute. apply rtc_refl. }
  destruct (readlog_keeps_reads [(7%nat, 3); (8%nat, 4)] _ _ new lg1 lg (log_idle_new (K:=nat)) Hs1 Hs2) as (order&lg''&Hd&Hidle&_).
  - repeat constructor; eauto.
  - rewrite Ed in Hd. congruence.
Defined.

(** ** The log between calls *)

Section Logged.
Context {K : Type}.
Implicit Types (lg : ReadLog K) (rds : list (K * Z)).

(** No push is under way and the reads [rds] are logged. *)
Definition logged lg rds : Prop :=
  is_u64 (head lg) ∧ holds (head lg) rds (lslots lg) ∧ tail lg = posn (head lg) (Z.of_nat (length rds)).

Lemma logged_idle lg : log_idle lg → logged lg [].
Proof.
  intros [H1 [_ H2] H3 _ _ _ H7 _]. split; [done|]. split; [|done].
  split; [done|simpl; unfold SLOTS; lia|done|exact H7].
Qed.

Lemma logged_new : logged (new (K:=K)) [].
Proof. apply logged_idle, log_idle_new. Qed.

Lemma logged_drain lg rds : logged lg rds → ∃ lg', drain lg = Some (rds, lg') ∧ logged lg' [].
Proof.
  intros (Hu&Hh&Ht). unfold drain.
  destruct (drain_loop_spec rds (head lg) (lslots lg) (S (length (lslots lg))) Hu Hh) as (ss'&->&Hh').
  { rewrite (h_len _ _ _ Hh). pose proof (h_room _ _ _ Hh). lia. }
  cbn [mbind option_bind]. eexists. split; [done|]. split; [apply Z.mod_pos_bound; u64_lia|]. split; [done|].
  cbn [tail head length]. rewrite Ht. change (Z.of_nat 0) with 0. rewrite posn_0; [done|apply Z.mod_pos_bound; u64_lia].
Qed.

(** A push appends, or changes nothing and says so when [SLOTS] reads are logged. *)
Lemma logged_push lg rds rd :
  logged lg rds →
  if decide (Z.of_nat (length rds) = SLOTS) then push rd lg = Some (false, lg)
  else ∃ lg', push rd lg = Some (true, lg') ∧ logged lg' (rds ++ [rd]).
Proof.
  intros (Hu&Hh&Ht). set (h := head lg) in *. set (n := Z.of_nat (length rds)) in *. pose proof (h_room _ _ _ Hh) as Hroom.
  fold n in Hroom. unfold push. cbn [push_run lpusher_step mbind option_bind]. rewrite Ht. case_decide as Hfull.
  - assert (Hc : vget (lslots lg) (slot_of (posn h n)) = vget (lslots lg) (slot_of (posn h 0))).
    { rewrite !posn_slot, Hfull. f_equal. replace (h + SLOTS) with (h + 0 + 1 * SLOTS) by lia. apply Z.mod_add. unfold SLOTS. lia. }
    destruct (lookup_lt_is_Some_2 rds 0) as [rd0 H0]; [unfold n, SLOTS in Hfull; lia|].
    pose proof (h_full _ _ _ Hh 0%nat rd0 H0) as Hc0. change (Z.of_nat 0) with 0 in Hc0. rewrite Hc, Hc0. cbn [mbind option_bind seq].
    rewrite signed_diff_posn, Hfull by (unfold SLOTS in *; lia). done.
  - assert (Hlt : n < SLOTS) by lia. pose proof (h_free _ _ _ Hh n ltac:(lia)) as Hc. rewrite Hc. cbn [mbind option_bind seq].
    rewrite signed_diff_posn, Z.sub_diag by lia. cbn [Z.eqb push_run lpusher_step mbind option_bind negb andb]. rewrite Ht, Z.eqb_refl.
    cbn [mbind option_bind push_run lpusher_step lslots]. rewrite Hc. cbn [mbind option_bind seq].
    destruct (vset_spec _ _ (mk_lslot (posn h n) (Some rd)) _ Hc) as (ss1&->&Hl1&Hg1). cbn [mbind option_bind lslots tail head push_run lpusher_step].
    assert (Hc1 : vget ss1 (slot_of (posn h n)) = Some (mk_lslot (posn h n) (Some rd))) by (by rewrite Hg1, decide_True by done).
    rewrite Hc1. cbn [mbind option_bind val]. rewrite posn_add.
    destruct (vset_spec _ _ (mk_lslot (posn h (n + 1)) (Some rd)) _ Hc1) as (ss2&->&Hl2&Hg2). cbn [mbind option_bind].
    eexists. split; [done|]. split; [done|]. cbn [head tail lslots]. rewrite length_app. cbn [length]. split; [|f_equal; lia].
    assert (Hget : ∀ o, 0 ≤ o < SLOTS → vget ss2 (slot_of (posn h o)) =
      if decide (o = n) then Some (mk_lslot (posn h (n + 1)) (Some rd)) else vget (lslots lg) (slot_of (posn h o))).
    { intros o Ho. rewrite Hg2, Hg1. destruct (decide (o = n)) as [->|Hne]; [by rewrite decide_True by done|].
      assert (slot_of (posn h o) ≠ slot_of (posn h n)) by (intros E; apply slot_inj in E; [done|lia|lia]). by rewrite !decide_False by done. }
    split.
    + rewrite Hl2, Hl1. apply (h_len _ _ _ Hh).
    + rewrite length_app. simpl. lia.
    + intros i rd' [Hi|[Hge Hi]]%lookup_app_Some.
      * pose proof (lookup_lt_Some _ _ _ Hi). rewrite Hget, decide_False by lia. by apply (h_full _ _ _ Hh).
      * apply list_lookup_singleton_Some in Hi as [? <-]. rewrite Hget by lia. rewrite decide_True by lia. do 3 f_equal. lia.
    + intros o. rewrite length_app. cbn [length]. intros Ho. rewrite Hget, decide_False by lia. apply (h_free _ _ _ Hh). lia.
Qed.
End Logged.
