(* ===== verification/Entry.v ===== *)
(** * Cache entries and their clocks ([entry.rs], [time.rs], [rng.rs])

    [now] is the reading of the precise clock at the call, in nanoseconds since the
    cache epoch; a [Duration] is its number of nanoseconds, which [as u64] truncates. *)

From S2P Require Import Prelude Slab.

(** [d.as_nanos() as u64]. *)
Definition nanos (d : Z) : Z := d mod U64.

(** ** The coarse clock *)

Definition CoarseClock : Type := Z.

Definition refresh (now : Z) (_ : CoarseClock) : CoarseClock := now.

Definition clock_now (now : Z) (c : CoarseClock) : Z := if c =? 0 then now else c.

(** ** The generator of [rng.rs]: a Weyl sequence *)

Definition WEYL_CONSTANT : Z := 0x9E3779B97F4A7C15.

Definition FastRng : Type := Z.

Definition rng_new (seed : Z) : FastRng := if seed =? 0 then 1 else seed.

Definition next_weyl (r : FastRng) : Z * FastRng := (r, r +w WEYL_CONSTANT).

Definition should_run (denominator_pow2 : Z) (r : FastRng) : bool * FastRng :=
  let mask := (denominator_pow2 - 1) mod U32 in
  let '(x, r') := next_weyl r in (Z.land x mask =? 0, r').

(** ** Entries *)

Record CacheEntry (V Handle : Type) := mk_entry {
  value : V;
  cost : Z;
  expires_at : Z;
  last_accessed : Z;
  node : Z;
  key_hash : Z;
  ttl_timer_handle : option Handle;
}.
Arguments mk_entry {V Handle}.
Arguments value {V Handle}.
Arguments cost {V Handle}.
Arguments expires_at {V Handle}.
Arguments last_accessed {V Handle}.
Arguments node {V Handle}.
Arguments key_hash {V Handle}.
Arguments ttl_timer_handle {V Handle}.

Section Code.
Context {V Handle : Type}.
Implicit Types (e : CacheEntry V Handle) (v : V) (ttl tti : option Z).

Definition new (now : Z) v (c : Z) ttl tti : CacheEntry V Handle :=
  let now := match ttl, tti with None, None => 0 | _, _ => now end in
  let expires := match ttl with Some d => now +w nanos d | None => 0 end in
  let accessed := match tti with Some _ => now | None => 0 end in
  mk_entry v c expires accessed NO_NODE 0 None.

Definition new_with_expiry (now : Z) v (c : Z) (expires : option Z) tti : CacheEntry V Handle :=
  let expires_at_nanos := match expires with Some d => nanos d | None => 0 end in
  let last_accessed_nanos := match tti with Some _ => now | None => 0 end in
  mk_entry v c expires_at_nanos last_accessed_nanos NO_NODE 0 None.

Definition new_with_custom_expiry (now : Z) v (c expires : Z) tti : CacheEntry V Handle :=
  let accessed := match tti with Some _ => now | None => 0 end in
  mk_entry v c expires accessed NO_NODE 0 None.

Definition new_with_cost v (c : Z) : CacheEntry V Handle := mk_entry v c 0 0 NO_NODE 0 None.

Definition set_accessed (t : Z) e : CacheEntry V Handle :=
  mk_entry (value e) (cost e) (expires_at e) t (node e) (key_hash e) (ttl_timer_handle e).
Definition set_node (n : Z) e : CacheEntry V Handle :=
  mk_entry (value e) (cost e) (expires_at e) (last_accessed e) n (key_hash e) (ttl_timer_handle e).
Definition set_value v e : CacheEntry V Handle :=
  mk_entry v (cost e) (expires_at e) (last_accessed e) (node e) (key_hash e) (ttl_timer_handle e).
Definition set_timer (h : option Handle) e : CacheEntry V Handle :=
  mk_entry (value e) (cost e) (expires_at e) (last_accessed e) (node e) (key_hash e) h.
Definition set_hash (h : Z) e : CacheEntry V Handle :=
  mk_entry (value e) (cost e) (expires_at e) (last_accessed e) (node e) h (ttl_timer_handle e).

Definition update_last_accessed (now : Z) e : CacheEntry V Handle := set_accessed now e.

Definition update_last_accessed_coarse (now : Z) (clock : CoarseClock) e : CacheEntry V Handle :=
  set_accessed (clock_now now clock) e.

Definition is_expired_at e tti (expires now_nanos : Z) : bool :=
  if (0 <? expires) && (expires <=? now_nanos) then true
  else match tti with
       | Some time_to_idle => last_accessed e +w nanos time_to_idle <=? now_nanos
       | None => false
       end.

Definition is_expired (now : Z) tti e : bool :=
  if (expires_at e =? 0) && bool_decide (tti = None) then false
  else is_expired_at e tti (expires_at e) now.

Definition is_expired_coarse (now : Z) tti (clock : CoarseClock) e : bool :=
  if (expires_at e =? 0) && bool_decide (tti = None) then false
  else is_expired_at e tti (expires_at e) (clock_now now clock).
End Code.

(** ** Expiry *)

Section Proofs.
Context {V Handle : Type}.
Implicit Types (e : CacheEntry V Handle) (v : V) (ttl tti : option Z).

(** [t + d] is a clock reading, and not the reading 0 that stands for no expiry. *)
Definition limit_fits (t : Z) (d : option Z) : Prop :=
  match d with Some d => 0 ≤ d ∧ 0 < t + d < U64 | None => True end.

(** Whether the limit [d] counted from [t] is over. *)
Definition limit_over (t : Z) (d : option Z) (now : Z) : bool :=
  match d with Some d => t + d <=? now | None => false end.

Lemma limit_fits_add t d : 0 ≤ t → 0 ≤ d → t + d < U64 → t +w nanos d = t + d.
Proof. intros. unfold nanos. rewrite (Z.mod_small d) by lia. apply u64_add_small; lia. Qed.

Lemma is_expired_spec now tti e :
  is_expired now tti e = is_expired_at e tti (expires_at e) now.
Proof.
  unfold is_expired, is_expired_at. destruct (Z.eqb_spec (expires_at e) 0) as [->|]; [|done].
  by destruct tti.
Qed.

(** an entry made at [t] and last read at [a] expires exactly when its time to live
    from [t] or its time to idle from [a] is over.  On the coarse clock, which lags
    the precise one by at most [lag], it expires no earlier, and at most [lag] later. *)
Theorem entry_expires_on_time v c t ttl tti a now clock lag :
  0 ≤ t ≤ a → a ≤ now → limit_fits t ttl → limit_fits a tti →
  let e : CacheEntry V Handle := update_last_accessed a (new t v c ttl tti) in
  is_expired now tti e = limit_over t ttl now || limit_over a tti now ∧
  (now - lag ≤ clock ≤ now →
     (is_expired_coarse now tti clock e = true → is_expired now tti e = true) ∧
     (is_expired (now - lag) tti e = true → is_expired_coarse now tti clock e = true)).
Proof.
  intros Ht Ha Httl Htti e.
  assert (Hspec : ∀ n, is_expired n tti e = limit_over t ttl n || limit_over a tti n).
  { intros n. rewrite is_expired_spec. unfold is_expired_at, e, new, update_last_accessed, set_accessed. simpl.
    unfold limit_over. destruct ttl as [d|], tti as [d'|]; simpl in *.
    - rewrite !limit_fits_add by lia. destruct (Z.ltb_spec 0 (t + d)); [|lia]. simpl. by destruct (t + d <=? n).
    - rewrite !limit_fits_add by lia. destruct (Z.ltb_spec 0 (t + d)); [|lia]. simpl. by destruct (t + d <=? n).
    - by rewrite limit_fits_add by lia.
    - done. }
  assert (Hmono : ∀ n n', n ≤ n' → is_expired n tti e = true → is_expired n' tti e = true).
  { intros n n' Hn. rewrite !Hspec. unfold limit_over. rewrite !orb_true_iff. destruct ttl, tti; rewrite ?Z.leb_le; intuition lia. }
  split; [apply Hspec|]. intros Hc.
  change (is_expired_coarse now tti clock e) with (is_expired (clock_now now clock) tti e).
  assert (now - lag ≤ clock_now now clock ≤ now) by (unfold clock_now; destruct (clock =? 0); lia).
  split; apply Hmono; lia.
Qed.

(** The expiry time is a wrapping sum.  A time to live of [2^64 - now] nanoseconds or
    more, [Duration::MAX] among them, wraps: the entry is made already expired, or, when
    the sum is exactly [2^64], never expires. *)
Theorem entry_huge_ttl_wraps v c t d now :
  0 < t < U64 → t ≤ now → U64 ≤ t + nanos d → 
  let e : CacheEntry V Handle := new t v c (Some d) None in
  is_expired now None e = negb (t + nanos d =? U64).
Proof.
  intros Ht Hn Hd e. rewrite is_expired_spec. unfold is_expired_at, e, new. simpl.
  assert (0 ≤ nanos d < U64) by (apply Z.mod_pos_bound; u64_lia).
  replace (t +w nanos d) with (t + nanos d - U64) by (unfold u64_add; apply (Z.mod_unique _ _ 1); lia).
  destruct (Z.eqb_spec (t + nanos d) U64) as [E|]; simpl.
  - by replace (0 <? t + nanos d - U64) with false by lia.
  - replace (0 <? t + nanos d - U64) with true by lia. by replace (t + nanos d - U64 <=? now) with true by lia.
Qed.
End Proofs.

Lemma entry_expires_on_time_witness :
  is_expired 19 (Some 5) (update_last_accessed 15 (new 10 tt 1 (Some 100) (Some 5)) : CacheEntry unit unit) = false ∧
  is_expired 20 (Some 5) (update_last_accessed 15 (new 10 tt 1 (Some 100) (Some 5)) : CacheEntry unit unit) = true.
Proof.
  destruct (entry_expires_on_time (Handle:=unit) tt 1 10 (Some 100) (Some 5) 15 19 19 0) as [-> _];
    [lia|lia|simpl; u64_lia|simpl; u64_lia|].
  destruct (entry_expires_on_time (Handle:=unit) tt 1 10 (Some 100) (Some 5) 15 20 20 0) as [-> _];
    [lia|lia|simpl; u64_lia|simpl; u64_lia|]. done.
Defined.

(** [Duration::MAX] is [u64::MAX] seconds and 999,999,999 nanoseconds. *)
Definition DURATION_MAX : Z := u64_max * 1000000000 + 999999999.

Lemma entry_huge_ttl_wraps_witness :
  is_expired 1000 None (new 1000 tt 1 (Some DURATION_MAX) None : CacheEntry unit unit) = true.
Proof.
  rewrite (entry_huge_ttl_wraps (Handle:=unit) tt 1 1000 DURATION_MAX 1000); [reflexivity|u64_lia|lia|].
  vm_compute. discriminate.
Defined.
