(* ===== verification/HashTable.v ===== *)
(** * [hashbrown::HashTable], the table of a shard

    A third-party table: it stores each element under the hash given when it was
    inserted.  [find] and the like stop at an element that satisfies the predicate;
    they test every element under the given hash and may test others.  [HashTableLaws]
    states this documented behaviour over [ht_elems], the elements with their hashes in
    some order; [list_table] is an instance. *)

From S2P Require Import Prelude.

Class HashTable (HT : Type → Type) := {
  ht_new : ∀ {T}, HT T;
  ht_len : ∀ {T}, HT T → nat;
  ht_iter : ∀ {T}, HT T → list T;
  (** [find]. *)
  ht_find : ∀ {T}, Z → (T → bool) → HT T → option T;
  (** [find_entry], then [remove]. *)
  ht_take : ∀ {T}, Z → (T → bool) → HT T → option (T * HT T);
  (** [find_mut], or an occupied [entry]: the element and the write through the
      reference. *)
  ht_find_mut : ∀ {T}, Z → (T → bool) → HT T → option (T * (T → HT T));
  (** An insert through a vacant [entry]; the function is the rehasher. *)
  ht_insert : ∀ {T}, Z → T → (T → Z) → HT T → HT T;
  ht_clear : ∀ {T}, HT T → HT T;
}.

Class HashTableLaws (HT : Type → Type) `{!HashTable HT} := {
  ht_elems : ∀ {T}, HT T → list (Z * T);
  ht_new_law T : ht_elems (ht_new (T:=T)) = [];
  ht_len_law T (t : HT T) : ht_len t = length (ht_elems t);
  ht_iter_law T (t : HT T) : ht_iter t ≡ₚ (ht_elems t).*2;
  ht_find_law T h f (t : HT T) :
    match ht_find h f t with
    | Some x => f x = true ∧ ∃ h', (h', x) ∈ ht_elems t
    | None => ∀ x, (h, x) ∈ ht_elems t → f x = false
    end;
  ht_take_law T h f (t : HT T) :
    match ht_take h f t with
    | Some (x, t') => f x = true ∧ ∃ h', ht_elems t ≡ₚ (h', x) :: ht_elems t'
    | None => ∀ x, (h, x) ∈ ht_elems t → f x = false
    end;
  ht_find_mut_law T h f (t : HT T) :
    match ht_find_mut h f t with
    | Some (x, write) => f x = true ∧ ∃ h' rest, ht_elems t ≡ₚ (h', x) :: rest ∧ ∀ y, ht_elems (write y) ≡ₚ (h', y) :: rest
    | None => ∀ x, (h, x) ∈ ht_elems t → f x = false
    end;
  (** The table may rehash, so the function has to give every element its hash. *)
  ht_insert_law T h (x : T) hasher (t : HT T) :
    hasher x = h → (∀ h' y, (h', y) ∈ ht_elems t → hasher y = h') →
    ht_elems (ht_insert h x hasher t) ≡ₚ (h, x) :: ht_elems t;
  ht_clear_law T (t : HT T) : ht_elems (ht_clear t) = [];
}.

(** ** A list of hashed elements *)

Definition list_table (T : Type) : Type := list (Z * T).

Section ListTable.
Context {T : Type}.
Implicit Types (t : list_table T) (x : T) (f : T → bool).

Definition lt_matches (h : Z) f (hx : Z * T) : bool := (hx.1 =? h) && f hx.2.

Fixpoint lt_take (h : Z) f t : option (T * list_table T) :=
  match t with
  | [] => None
  | hx :: t => if lt_matches h f hx then Some (hx.2, t)
               else '(y, t') ← lt_take h f t; Some (y, hx :: t')
  end.

Fixpoint lt_find_mut (h : Z) f t : option (T * (T → list_table T)) :=
  match t with
  | [] => None
  | hx :: t => if lt_matches h f hx then Some (hx.2, λ y, (hx.1, y) :: t)
               else '(y, write) ← lt_find_mut h f t; Some (y, λ y, hx :: write y)
  end.

Lemma lt_matches_false h f x : lt_matches h f (h, x) = false → f x = false.
Proof. unfold lt_matches. simpl. by rewrite Z.eqb_refl. Qed.

Lemma lt_take_law h f t :
  match lt_take h f t with
  | Some (x, t') => f x = true ∧ ∃ h', t ≡ₚ (h', x) :: t'
  | None => ∀ x, (h, x) ∈ t → f x = false
  end.
Proof.
  induction t as [|[h0 y] t IH]; simpl; [by intros x ?%elem_of_nil|].
  destruct (lt_matches h f (h0, y)) eqn:E.
  - apply andb_true_iff in E as [_ ?]. split; [done|]. by exists h0.
  - destruct (lt_take h f t) as [[x t']|]; simpl.
    + destruct IH as [? [h' Hp]]. split; [done|]. exists h'. rewrite Hp. apply Permutation_swap.
    + intros x [[= <- <-]|?]%elem_of_cons; [by eapply lt_matches_false|by apply IH].
Qed.

Lemma lt_find_mut_law h f t :
  match lt_find_mut h f t with
  | Some (x, write) => f x = true ∧ ∃ h' rest, t ≡ₚ (h', x) :: rest ∧ ∀ y, write y ≡ₚ (h', y) :: rest
  | None => ∀ x, (h, x) ∈ t → f x = false
  end.
Proof.
  induction t as [|[h0 y] t IH]; simpl; [by intros x ?%elem_of_nil|].
  destruct (lt_matches h f (h0, y)) eqn:E.
  - apply andb_true_iff in E as [_ ?]. split; [done|]. by exists h0, t.
  - destruct (lt_find_mut h f t) as [[x write]|]; simpl.
    + destruct IH as [? (h'&rest&Hp&Hp')]. split; [done|]. exists h', ((h0, y) :: rest).
      split; [|intros z]; [rewrite Hp|rewrite Hp']; apply Permutation_swap.
    + intros x [[= <- <-]|?]%elem_of_cons; [by eapply lt_matches_false|by apply IH].
Qed.
End ListTable.

#[global] Instance list_hash_table : HashTable list_table := {
  ht_new _ := [];
  ht_len _ t := length t;
  ht_iter _ t := t.*2;
  ht_find _ h f t := fst <$> lt_take h f t;
  ht_take _ := lt_take;
  ht_find_mut _ := lt_find_mut;
  ht_insert _ h x _ t := (h, x) :: t;
  ht_clear _ _ := [];
}.

#[global] Instance list_table_laws : HashTableLaws list_table.
Proof.
  refine {| ht_elems T (t : list_table T) := t |}; try done.
  - intros T h f t. simpl. pose proof (lt_take_law h f t) as Hl. destruct (lt_take h f t) as [[x t']|]; simpl; [|done].
    destruct Hl as [? [h' Hp]]. split; [done|]. exists h'. rewrite Hp. by left.
  - intros. apply lt_take_law.
  - intros. apply lt_find_mut_law.
Defined.
