(* ===== verification/Store.v ===== *)
(** * A shard of the store ([cache/src/store.rs])

    [ShardMap] is a shard's table of entries, its cost, its policy (a [CachePolicy], or
    a built-in one that names entries by node), the reads not yet applied to the policy
    and the timer wheel.  [None] is a panic; [now] is the clock reading of the call, and
    [notified] collects the calls of the eviction listener. *)

From S2P Require Import Prelude Arena Policy Slab ReadRing ShardPolicy Builtin.
From S2P Require Timer ReadLog.
From S2P Require Import Entry HashTable.

(** The cache's hasher. *)
Class StoreHash (K : Type) := hash_key : K → Z.

Record ShardCounters := mk_counters {
  inserts : Z;
  keys_admitted : Z;
  total_cost_added : Z;
  evicted_by_capacity : Z;
  cost_delta : Z;
}.

Definition counters_new : ShardCounters := mk_counters 0 0 0 0 0.

Inductive DeferredRead (K : Type) := D_Key (k : K) (c : Z) | D_Node (n : Z).
Arguments D_Key {K}.
Arguments D_Node {K}.

Inductive ExpiredBy := Ttl | Tti.
#[global] Instance expired_by_eq : EqDecision ExpiredBy.
Proof. solve_decision. Defined.

(** Nanoseconds of grace for stale reads and of idle time; [notify] says whether there
    is a listener. *)
Record EvictCtx := mk_ctx { notify : bool; grace_ns : Z; tti_ns : Z }.

Record ShardMap (K V P Index : Type) (A HT : Type → Type) := mk_shard_map {
  table : HT (K * CacheEntry V Index)%type;
  sm_cost : Z;
  budget : Z;
  policy : P;
  sm_reads : ReadLog.ReadLog K;
  ctx : EvictCtx;
  sm_builtin : option Builtin;
  ring : ReadRing;
  victims : list Victim;
  local : ShardCounters;
  wheel : Timer.TimerWheel Index A;
  notified : list (K * V);
}.
Arguments mk_shard_map {K V P Index A HT}.
Arguments table {K V P Index A HT}.
Arguments sm_cost {K V P Index A HT}.
Arguments budget {K V P Index A HT}.
Arguments policy {K V P Index A HT}.
Arguments sm_reads {K V P Index A HT}.
Arguments ctx {K V P Index A HT}.
Arguments sm_builtin {K V P Index A HT}.
Arguments ring {K V P Index A HT}.
Arguments victims {K V P Index A HT}.
Arguments local {K V P Index A HT}.
Arguments wheel {K V P Index A HT}.
Arguments notified {K V P Index A HT}.

Section Code.
Context {K V P Index : Type} {A HT : Type → Type}.
Context `{EqDecision K} `{!CachePolicy K P} `{!Arena Index A} `{!HashTable HT} `{!StoreHash K}.
Notation entry := (CacheEntry V Index).
Notation shard_map := (ShardMap K V P Index A HT).
Implicit Types (sm : shard_map) (e : entry) (k : K).

(** ** Field updates *)

Definition with_table t sm : shard_map :=
  mk_shard_map t (sm_cost sm) (budget sm) (policy sm) (sm_reads sm) (ctx sm) (sm_builtin sm) (ring sm) (victims sm) (local sm) (wheel sm) (notified sm).
Definition with_cost c sm : shard_map :=
  mk_shard_map (table sm) c (budget sm) (policy sm) (sm_reads sm) (ctx sm) (sm_builtin sm) (ring sm) (victims sm) (local sm) (wheel sm) (notified sm).
Definition with_policy p sm : shard_map :=
  mk_shard_map (table sm) (sm_cost sm) (budget sm) p (sm_reads sm) (ctx sm) (sm_builtin sm) (ring sm) (victims sm) (local sm) (wheel sm) (notified sm).
Definition with_reads rs sm : shard_map :=
  mk_shard_map (table sm) (sm_cost sm) (budget sm) (policy sm) rs (ctx sm) (sm_builtin sm) (ring sm) (victims sm) (local sm) (wheel sm) (notified sm).
Definition with_builtin b sm : shard_map :=
  mk_shard_map (table sm) (sm_cost sm) (budget sm) (policy sm) (sm_reads sm) (ctx sm) (Some b) (ring sm) (victims sm) (local sm) (wheel sm) (notified sm).
Definition with_ring r sm : shard_map :=
  mk_shard_map (table sm) (sm_cost sm) (budget sm) (policy sm) (sm_reads sm) (ctx sm) (sm_builtin sm) r (victims sm) (local sm) (wheel sm) (notified sm).
Definition with_victims vs sm : shard_map :=
  mk_shard_map (table sm) (sm_cost sm) (budget sm) (policy sm) (sm_reads sm) (ctx sm) (sm_builtin sm) (ring sm) vs (local sm) (wheel sm) (notified sm).
Definition with_local c sm : shard_map :=
  mk_shard_map (table sm) (sm_cost sm) (budget sm) (policy sm) (sm_reads sm) (ctx sm) (sm_builtin sm) (ring sm) (victims sm) c (wheel sm) (notified sm).
Definition with_wheel w sm : shard_map :=
  mk_shard_map (table sm) (sm_cost sm) (budget sm) (policy sm) (sm_reads sm) (ctx sm) (sm_builtin sm) (ring sm) (victims sm) (local sm) w (notified sm).
Definition with_notified ns sm : shard_map :=
  mk_shard_map (table sm) (sm_cost sm) (budget sm) (policy sm) (sm_reads sm) (ctx sm) (sm_builtin sm) (ring sm) (victims sm) (local sm) (wheel sm) ns.

(** ** [ShardedStore::new]: the share of a shard, and its map *)

Definition shard_budget (num_shards capacity : Z) : Z :=
  if capacity =? u64_max then u64_max else Z.max (capacity / num_shards) 1.

Definition shard_map_new (num_shards timer_wheel_size timer_tick_duration capacity : Z) (p : P)
    (choice : option (BuiltinChoice * Z)) (c : EvictCtx) (now : Z) : shard_map :=
  mk_shard_map ht_new 0 (shard_budget num_shards capacity) p ReadLog.new c
    ((λ '(ch, cap), builtin ch cap) <$> choice) ring_new [] counters_new
    (Timer.new timer_wheel_size (nanos timer_tick_duration) now) [].

(** [get_shard]: the index of a key's shard. *)
Definition shard_index (num_shards hash : Z) : Z := Z.land hash (num_shards - 1).

Definition counter_add (c n : Z) : Z := c +w n.

(** ** Expiry *)

Definition is_idle e (now tti : Z) : bool := (0 <? tti) && (last_accessed e +sat tti <=? now).

Definition expired_by e (now grace tti : Z) : option ExpiredBy :=
  if (0 <? expires_at e) && (expires_at e +sat grace <=? now) then Some Ttl
  else if is_idle e now tti then
    Some (if (0 <? expires_at e) && (expires_at e <=? now) then Ttl else Tti)
  else None.

(** ** Lookups *)

Definition len sm : nat := ht_len (table sm).

Definition is_empty sm : bool := bool_decide (ht_len (table sm) = 0%nat).

Definition iter sm : list (K * entry) := ht_iter (table sm).

Definition keys sm : list K := fst <$> ht_iter (table sm).

Definition key_is k (ke : K * entry) : bool := bool_decide (k = ke.1).

Definition get_key_value_hashed k (hash : Z) sm : option (K * entry) := ht_find hash (key_is k) (table sm).

Definition get_key_value k sm : option (K * entry) := get_key_value_hashed k (hash_key k) sm.

Definition get k sm : option entry := snd <$> get_key_value k sm.

Definition contains_key k sm : bool := bool_decide (is_Some (get_key_value k sm)).

(** [get_mut], then the write [f] through the reference. *)
Definition get_mut k (f : entry → entry) sm : option (entry * shard_map) :=
  '((kk, e), write) ← ht_find_mut (hash_key k) (key_is k) (table sm);
  Some (e, with_table (write (kk, f e)) sm).

Definition touch_read (nd : Z) sm : option shard_map :=
  match sm_builtin sm with
  | Some b => b' ← sp_touch nd b; Some (with_builtin b' sm)
  | None => Some sm
  end.

(** ** Timers *)

Definition arm (now hash : Z) e sm : option (entry * shard_map) :=
  let e := set_hash hash e in
  if 0 <? expires_at e then
    '(h, w) ← Timer.schedule now hash (expires_at e +sat grace_ns (ctx sm)) (wheel sm);
    Some (set_timer (Some h) e, with_wheel w sm)
  else Some (e, sm).

Definition disarm e sm : option shard_map :=
  match ttl_timer_handle e with
  | Some h => w ← Timer.cancel h (wheel sm); Some (with_wheel w sm)
  | None => Some sm
  end.

(** ** Taking entries out *)

Definition take k sm : option (option (K * entry) * shard_map) :=
  match ht_take (hash_key k) (key_is k) (table sm) with
  | Some ((key, e), t) => sm' ← disarm e (with_table t sm); Some (Some (key, e), sm')
  | None => Some (None, sm)
  end.

Definition take_victim (v : Victim) sm : option (option (K * entry) * shard_map) :=
  match ht_take v.1 (λ ke, node ke.2 =? v.2) (table sm) with
  | Some ((key, e), t) => sm' ← disarm e (with_table t sm); Some (Some (key, e), sm')
  | None => Some (None, sm)
  end.

(** ** Reads *)

Fixpoint access_all (rds : list (K * Z)) (p : P) : option P :=
  match rds with
  | [] => Some p
  | (k, c) :: rds => p' ← on_access k c p; access_all rds p'
  end.

Definition apply_reads sm : option shard_map :=
  match sm_builtin sm with
  | Some b => '(r, b') ← sp_apply_reads (ring sm) b; Some (with_builtin b' (with_ring r sm))
  | None =>
      '(rds, lg) ← ReadLog.drain (sm_reads sm);
      p ← access_all rds (policy sm);
      Some (with_policy p (with_reads lg sm))
  end.

Definition apply_deferred (read : DeferredRead K) sm : option shard_map :=
  sm ← apply_reads sm;
  match read with
  | D_Key k c => p ← on_access k c (policy sm); Some (with_policy p sm)
  | D_Node n => match sm_builtin sm with
                | Some b => b' ← sp_apply_read n b; Some (with_builtin b' sm)
                | None => Some sm
                end
  end.

Definition forget k e sm : option shard_map :=
  match sm_builtin sm with
  | Some b => b' ← sp_remove (node e) b; Some (with_builtin b' sm)
  | None => p ← on_remove k (policy sm); Some (with_policy p sm)
  end.

(** ** Inserts *)

(** The entry a key had, and the table with the new one. *)
Definition put k e (hash : Z) sm : option entry * shard_map :=
  match ht_find_mut hash (λ ke, bool_decide (ke.1 = k)) (table sm) with
  | Some ((kk, old), write) => (Some old, with_table (write (kk, e)) sm)
  | None => (None, with_table (ht_insert hash (k, e) (λ ke, hash_key ke.1) (table sm)) sm)
  end.

(** The counts are [evicted] and [freed]. *)
Definition account_eviction k e (ef : Z * Z) sm : (Z * Z) * shard_map :=
  let sm := with_cost (sm_cost sm -w cost e) sm in
  let ef := (ef.1 +w 1, ef.2 +w cost e) in
  (ef, if notify (ctx sm) then with_notified (notified sm ++ [(k, value e)]) sm else sm).

(** The victims of an admission: the policy is told of each. *)
Fixpoint take_admission_victims (vs : list K) (ef : Z * Z) sm : option ((Z * Z) * shard_map) :=
  match vs with
  | [] => Some (ef, sm)
  | v :: vs =>
      '(taken, sm) ← take v sm;
      match taken with
      | Some (k, e) =>
          p ← on_remove v (policy sm);
          let '(ef, sm) := account_eviction k e ef (with_policy p sm) in
          take_admission_victims vs ef sm
      | None => take_admission_victims vs ef sm
      end
  end.

(** The victims of an eviction. *)
Fixpoint take_keys (vs : list K) (ef : Z * Z) sm : option ((Z * Z) * shard_map) :=
  match vs with
  | [] => Some (ef, sm)
  | v :: vs =>
      '(taken, sm) ← take v sm;
      match taken with
      | Some (k, e) => let '(ef, sm) := account_eviction k e ef sm in take_keys vs ef sm
      | None => take_keys vs ef sm
      end
  end.

Fixpoint take_victims (vs : list Victim) (ef : Z * Z) sm : option ((Z * Z) * shard_map) :=
  match vs with
  | [] => Some (ef, sm)
  | v :: vs =>
      '(taken, sm) ← take_victim v sm;
      match taken with
      | Some (k, e) => let '(ef, sm) := account_eviction k e ef sm in take_victims vs ef sm
      | None => take_victims vs ef sm
      end
  end.

(** [self.cost] after a replaced entry left and [c] came. *)
Definition replace_cost (old : option entry) (c : Z) sm : shard_map :=
  let sm := match old with Some o => with_cost (sm_cost sm -w cost o) sm | None => sm end in
  with_cost (sm_cost sm +w c) sm.

Definition count_evicted (evicted : Z) sm : shard_map :=
  if 0 <? evicted then
    let c := local sm in
    with_local (mk_counters (inserts c) (keys_admitted c) (total_cost_added c) (counter_add (evicted_by_capacity c) evicted) (cost_delta c)) sm
  else sm.

Definition insert_policy k e (hash : Z) sm : option (option entry * shard_map) :=
  let c := cost e in
  sm ← apply_reads sm;
  '(decision, p) ← on_admit k c (policy sm);
  let '(old, sm) := put k e hash (with_policy p sm) in
  let sm := replace_cost old c sm in
  '(ef, sm) ← match decision with
              | AdmitAndEvict vs => take_admission_victims vs (0, 0) sm
              | _ => Some ((0, 0), sm)
              end;
  '(ef, sm) ← (if budget sm <? sm_cost sm then
                 '(vs, _, p) ← evict (sm_cost sm -w budget sm) (policy sm);
                 take_keys vs ef (with_policy p sm)
               else Some (ef, sm));
  Some (old, count_evicted ef.1 sm).

(** The policy and table step of [insert_builtin]: the replaced entry, if any, and the
    admission's victims. *)
Definition builtin_put k e (hash : Z) (b : Builtin) sm : option (option entry * list Victim * shard_map) :=
  match ht_find_mut hash (λ ke, bool_decide (ke.1 = k)) (table sm) with
  | Some ((kk, slot), write) =>
      let e := set_node (node slot) e in
      b' ← sp_update (node slot) (cost e) b;
      Some (Some slot, [], with_builtin b' (with_table (write (kk, e)) sm))
  | None =>
      '(nd, out, b') ← sp_admit hash (cost e) b;
      Some (None, out, with_builtin b' (with_table (ht_insert hash (k, set_node nd e) (λ ke, hash_key ke.1) (table sm)) sm))
  end.

Definition insert_builtin k e (hash : Z) sm : option (option entry * shard_map) :=
  let c := cost e in
  let vs := victims sm in
  b ← sm_builtin sm;
  '(r, b) ← sp_apply_reads (ring sm) b;
  '(old, out, sm) ← builtin_put k e hash b (with_ring r (with_victims [] sm));
  let sm := replace_cost old c sm in
  '(ef, sm) ← take_victims (vs ++ out) (0, 0) sm;
  '(ef, sm) ← (if budget sm <? sm_cost sm then
                 b ← sm_builtin sm;
                 '(out, b) ← sp_evict (sm_cost sm -w budget sm) b;
                 take_victims out ef (with_builtin b sm)
               else Some (ef, sm));
  Some (old, count_evicted ef.1 (with_victims [] sm)).

Definition insert_inner (now : Z) k e (hash : Z) (count : bool) sm : option (option entry * shard_map) :=
  let before := sm_cost sm in
  let c := cost e in
  '(e, sm) ← arm now hash e sm;
  '(old, sm) ← (if bool_decide (is_Some (sm_builtin sm)) then insert_builtin k e hash sm else insert_policy k e hash sm);
  sm ← match old with Some o => disarm o sm | None => Some sm end;
  let l := local sm in
  let l := if count then mk_counters (counter_add (inserts l) 1) (counter_add (keys_admitted l) 1) (counter_add (total_cost_added l) c)
                           (evicted_by_capacity l) (cost_delta l) else l in
  let l := mk_counters (inserts l) (keys_admitted l) (total_cost_added l) (evicted_by_capacity l)
             (counter_add (cost_delta l) (sm_cost sm -w before)) in
  Some (old, with_local l sm).

Definition insert_hashed (now : Z) k e (hash : Z) sm : option (option entry * shard_map) := insert_inner now k e hash true sm.

Definition insert (now : Z) k e sm : option (option entry * shard_map) := insert_inner now k e (hash_key k) true sm.

(** ** Removals *)

Definition remove_entry k sm : option (option (K * entry) * shard_map) :=
  sm ← apply_reads sm;
  '(taken, sm) ← take k sm;
  match taken with
  | Some (key, e) =>
      sm ← forget key e (with_cost (sm_cost sm -w cost e) sm);
      Some (Some (key, e), sm)
  | None => Some (None, sm)
  end.

Definition remove k sm : option (option entry * shard_map) :=
  '(taken, sm) ← remove_entry k sm; Some (option_map snd taken, sm).

Definition clear sm : option shard_map :=
  let l := local sm in
  let l := mk_counters (inserts l) (keys_admitted l) (total_cost_added l) (evicted_by_capacity l)
             (counter_add (cost_delta l) (0 -w sm_cost sm)) in
  let sm := with_cost 0 (with_local l (with_wheel (Timer.clear (wheel sm)) (with_table (ht_clear (table sm)) sm))) in
  match sm_builtin sm with
  | Some b => Some (with_builtin (sp_clear b) sm)
  | None => p ← Policy.clear (policy sm); Some (with_policy p sm)
  end.

Fixpoint insert_all (now : Z) (entries : list (K * entry)) sm : option shard_map :=
  match entries with
  | [] => Some sm
  | (k, e) :: entries => '(_, sm) ← insert_inner now k e (hash_key k) false sm; insert_all now entries sm
  end.

Definition replace_all (now : Z) (entries : list (K * entry)) sm : option shard_map :=
  sm ← clear sm; insert_all now entries sm.

(** ** Expiry sweeps *)

(** The entries under [hash] past a limit; [fuel] bounds them. *)
Fixpoint remove_expired (fuel : nat) (hash now : Z) sm : option (list (K * entry * ExpiredBy) * shard_map) :=
  let grace := grace_ns (ctx sm) in
  let tti := tti_ns (ctx sm) in
  match ht_take hash (λ ke, (key_hash ke.2 =? hash) && bool_decide (is_Some (expired_by ke.2 now grace tti))) (table sm) with
  | None => Some ([], sm)
  | Some ((key, e), t) =>
      match fuel with
      | O => None
      | S fuel =>
          by_ ← expired_by e now grace tti;
          sm ← disarm e (with_cost (sm_cost sm -w cost e) (with_table t sm));
          sm ← forget key e sm;
          '(out, sm) ← remove_expired fuel hash now sm;
          Some ((key, e, by_) :: out, sm)
      end
  end.

Fixpoint remove_hashes (hashes : list Z) (now : Z) sm : option (list (K * entry * ExpiredBy) * shard_map) :=
  match hashes with
  | [] => Some ([], sm)
  | hash :: hashes =>
      '(out, sm) ← remove_expired (len sm) hash now sm;
      '(out', sm) ← remove_hashes hashes now sm;
      Some (out ++ out', sm)
  end.

Definition remove_expired_hashes (hashes : list Z) (now : Z) sm : option (list (K * entry * ExpiredBy) * shard_map) :=
  sm ← apply_reads sm; remove_hashes hashes now sm.

Definition expire_all (now : Z) sm : option (list (K * entry * ExpiredBy) * shard_map) :=
  let past := filter (λ ke, is_Some (expired_by ke.2 now (grace_ns (ctx sm)) (tti_ns (ctx sm)))) (ht_iter (table sm)) in
  remove_expired_hashes ((λ ke, key_hash ke.2) <$> past) now sm.

Definition idle_hashes (now : Z) sm : list Z :=
  (λ ke, key_hash ke.2) <$> filter (λ ke, is_idle ke.2 now (tti_ns (ctx sm)) = true) (ht_iter (table sm)).

(** The entry under [hash] whose timer fired early, armed again. *)
Definition rearm (now hash : Z) sm : option shard_map :=
  let fired (ke : K * entry) := (key_hash ke.2 =? hash) &&
    match ttl_timer_handle ke.2 with Some h => negb (Timer.is_armed h (wheel sm)) | None => false end in
  match ht_find_mut hash fired (table sm) with
  | Some ((kk, e), write) =>
      '(h, w) ← Timer.schedule now hash (expires_at e +sat grace_ns (ctx sm)) (wheel sm);
      Some (with_wheel w (with_table (write (kk, set_timer (Some h) e)) sm))
  | None => Some sm
  end.

Fixpoint expire_fired (fired : list Z) (now : Z) sm : option (list (K * entry * ExpiredBy) * shard_map) :=
  match fired with
  | [] => Some ([], sm)
  | hash :: fired =>
      '(out, sm) ← remove_expired (len sm) hash now sm;
      sm ← rearm now hash sm;
      '(out', sm) ← expire_fired fired now sm;
      Some (out ++ out', sm)
  end.

Definition expire_due (now : Z) sm : option (list (K * entry * ExpiredBy) * shard_map) :=
  '(fired, w) ← Timer.advance now (wheel sm);
  let sm := with_wheel w sm in
  match fired with
  | [] => Some ([], sm)
  | _ => sm ← apply_reads sm; expire_fired fired now sm
  end.

(** [Shard::ttl_is_due]: the due time is the wheel's. *)
Definition ttl_is_due (now : Z) sm : bool := Timer.next_due (wheel sm) <=? now.
End Code.
