(* ===== verification/ShardTable.v ===== *)
(** * The table of a shard as a list of entries

    [table_holds t L]: the table holds the entries [L], each stored under its key's
    hash.  Each table operation the shard uses is specified on [L], up to order. *)

From S2P Require Import Prelude HashTable Entry Store.

Section Table.
Context {K V Index : Type} {HT : Type → Type}.
Context `{Countable K} `{!HashTable HT} `{!HashTableLaws HT} `{!StoreHash K}.
Notation entry := (CacheEntry V Index).
Notation item := (K * entry)%type.
Implicit Types (t : HT item) (L : list item) (k : K) (e : entry) (ke : item).

Definition hashed ke : Z * item := (hash_key ke.1, ke).

Record table_holds t L : Prop := {
  th_elems : ht_elems t ≡ₚ hashed <$> L;
  th_nodup : NoDup L.*1;
  th_hash : Forall (λ ke, key_hash ke.2 = hash_key ke.1) L;
}.

Lemma table_holds_perm t L L' : L ≡ₚ L' → table_holds t L → table_holds t L'.
Proof. intros Hp [H1 H2 H3]. split; by rewrite <- Hp. Qed.

Lemma table_holds_new : table_holds (ht_new (T:=item)) [].
Proof. split; [by rewrite ht_new_law|constructor|constructor]. Qed.

Lemma table_holds_clear t L : table_holds t L → table_holds (ht_clear t) [].
Proof. intros _. split; [by rewrite ht_clear_law|constructor|constructor]. Qed.

Lemma table_holds_len t L : table_holds t L → ht_len t = length L.
Proof. intros [H1 _ _]. by rewrite ht_len_law, H1, length_fmap. Qed.

Lemma table_holds_iter t L : table_holds t L → ht_iter t ≡ₚ L.
Proof. intros [H1 _ _]. rewrite ht_iter_law, H1, <- list_fmap_compose. by rewrite list_fmap_id. Qed.

Lemma table_holds_in t L h ke : table_holds t L → (h, ke) ∈ ht_elems t ↔ h = hash_key ke.1 ∧ ke ∈ L.
Proof.
  intros [H1 _ _]. rewrite H1, list_elem_of_fmap. unfold hashed. split.
  - intros (ke'&[= -> ->]&?). done.
  - intros [-> ?]. eauto.
Qed.

(** The elements the table tests include all those under the hash. *)
Lemma table_miss t L h (f : item → bool) :
  table_holds t L → (∀ x, (h, x) ∈ ht_elems t → f x = false) → ∀ ke, ke ∈ L → hash_key ke.1 = h → f ke = false.
Proof. intros Ht Hf ke Hin <-. apply Hf. by apply (table_holds_in t L). Qed.

Lemma table_hit t L h ke els :
  table_holds t L → ht_elems t ≡ₚ (h, ke) :: els →
  ∃ L', L ≡ₚ ke :: L' ∧ h = hash_key ke.1 ∧ els ≡ₚ hashed <$> L'.
Proof.
  intros Ht Hp. assert (h = hash_key ke.1 ∧ ke ∈ L) as [-> Hin].
  { apply (table_holds_in t L _ _ Ht). rewrite Hp. by left. }
  apply elem_of_Permutation in Hin as [L' HL]. exists L'. split; [done|]. split; [done|].
  apply (Permutation_cons_inv (a:=hashed ke)). change (hashed ke :: (hashed <$> L')) with (hashed <$> (ke :: L')).
  rewrite <- HL, <- (th_elems _ _ Ht). by rewrite Hp.
Qed.

Lemma take_any t L h (f : item → bool) :
  table_holds t L →
  match ht_take h f t with
  | Some (ke, t') => f ke = true ∧ ∃ L', L ≡ₚ ke :: L' ∧ table_holds t' L'
  | None => ∀ ke, ke ∈ L → hash_key ke.1 = h → f ke = false
  end.
Proof.
  intros Ht. pose proof (ht_take_law _ h f t) as Hl. destruct (ht_take h f t) as [[ke t']|]; [|by apply (table_miss t)].
  destruct Hl as [? [h' Hp]]. split; [done|]. destruct (table_hit t L h' ke _ Ht Hp) as (L'&HL&_&He). exists L'. split; [done|].
  destruct (table_holds_perm _ _ _ HL Ht) as [_ Hnd Hh]. split; [done|by apply NoDup_cons in Hnd as [_ ?]|by apply Forall_cons in Hh as [_ ?]].
Qed.

Lemma find_mut_any t L h (f : item → bool) :
  table_holds t L →
  match ht_find_mut h f t with
  | Some (ke, write) => f ke = true ∧ ∃ L', L ≡ₚ ke :: L' ∧
      ∀ e, key_hash e = hash_key ke.1 → table_holds (write (ke.1, e)) ((ke.1, e) :: L')
  | None => ∀ ke, ke ∈ L → hash_key ke.1 = h → f ke = false
  end.
Proof.
  intros Ht. pose proof (ht_find_mut_law _ h f t) as Hl. destruct (ht_find_mut h f t) as [[ke write]|]; [|by apply (table_miss t)].
  destruct Hl as (?&h'&rest&Hp&Hw). split; [done|]. destruct (table_hit t L h' ke _ Ht Hp) as (L'&HL&->&He). exists L'. split; [done|].
  intros e Hk. destruct (table_holds_perm _ _ _ HL Ht) as [_ Hnd Hh]. apply Forall_cons in Hh as [_ Hh]. split.
  - rewrite Hw, He. done.
  - done.
  - by constructor.
Qed.

Lemma insert_fresh t L k e :
  table_holds t L → k ∉ L.*1 → key_hash e = hash_key k →
  table_holds (ht_insert (hash_key k) (k, e) (λ ke, hash_key ke.1) t) ((k, e) :: L).
Proof.
  intros Ht Hk He. split.
  - rewrite ht_insert_law; [by rewrite (th_elems _ _ Ht)|done|].
    intros h' y Hy. by apply (table_holds_in t L _ _ Ht) in Hy as [-> _].
  - constructor; [done|apply Ht].
  - constructor; [done|apply Ht].
Qed.

Lemma item_unique t L k e e' : table_holds t L → (k, e) ∈ L → (k, e') ∈ L → e = e'.
Proof.
  intros Ht H1 H2. pose proof (th_nodup _ _ Ht) as Hnd.
  apply (elem_of_list_to_map_1 L k e Hnd) in H1. apply (elem_of_list_to_map_1 L k e' Hnd) in H2. congruence.
Qed.

(** A lookup by key is the lookup in the map of the entries. *)
Lemma find_key t L k :
  table_holds t L → ht_find (hash_key k) (key_is k) t = (λ e, (k, e)) <$> ((list_to_map L : gmap K entry) !! k).
Proof.
  intros Ht. pose proof (ht_find_law _ (hash_key k) (key_is k) t) as Hl. destruct (ht_find _ _ t) as [[k' e]|].
  - destruct Hl as [->%bool_decide_eq_true [h' Hin]]. apply (table_holds_in t L _ _ Ht) in Hin as [_ Hin].
    by rewrite (elem_of_list_to_map_1 L _ e (th_nodup _ _ Ht) Hin).
  - destruct (list_to_map L !! k) as [e|] eqn:E; [|done]. apply elem_of_list_to_map_2 in E.
    pose proof (table_miss t L _ _ Ht Hl _ E eq_refl) as Hf. unfold key_is in Hf. simpl in Hf. by apply bool_decide_eq_false in Hf.
Qed.

Lemma get_spec {P A} (sm : ShardMap K V P Index A HT) L k :
  table_holds (table sm) L → get k sm = (list_to_map L : gmap K entry) !! k.
Proof.
  intros Ht. unfold get, get_key_value, get_key_value_hashed. rewrite (find_key _ L k Ht). by destruct (list_to_map L !! k).
Qed.

(** A key is in at most one place: taking it out of the list takes it out of the map. *)
Lemma perm_cons_map L k e L' :
  NoDup L.*1 → L ≡ₚ (k, e) :: L' →
  (list_to_map L : gmap K entry) !! k = Some e ∧ k ∉ L'.*1 ∧ (list_to_map L' : gmap K entry) = delete k (list_to_map L).
Proof.
  intros Hnd HL. assert (Hnd' : NoDup ((k, e) :: L').*1) by (by rewrite <- HL).
  rewrite (list_to_map_proper _ _ Hnd HL). apply NoDup_cons in Hnd' as [Hk _].
  split; [by simplify_map_eq|]. split; [done|]. simpl. by rewrite delete_insert_id by (by apply not_elem_of_list_to_map_1).
Qed.

(** [put]: the entry the key had, and the entries after. *)
Lemma put_spec {P A} (sm : ShardMap K V P Index A HT) L k e :
  table_holds (table sm) L → key_hash e = hash_key k →
  ∃ old t, put k e (hash_key k) sm = (old, with_table t sm) ∧ old = (list_to_map L : gmap K entry) !! k ∧
    (∃ L', table_holds t ((k, e) :: L') ∧ L ≡ₚ ((λ o, (k, o)) <$> option_list old) ++ L').
Proof.
  intros Ht He. unfold put. pose proof (find_mut_any (table sm) L (hash_key k) (λ ke, bool_decide (ke.1 = k)) Ht) as Hm.
  destruct (ht_find_mut _ _ _) as [[[kk o] write]|].
  - destruct Hm as (Hk%bool_decide_eq_true&L'&HL&Hw). simpl in *. subst kk. eexists _, _. split; [done|].
    destruct (perm_cons_map L k o L' (th_nodup _ _ Ht) HL) as (->&_&_). split; [done|]. exists L'. split; [by apply Hw|done].
  - assert (Hk : k ∉ L.*1).
    { intros ([k' e']&->&Hin)%list_elem_of_fmap. specialize (Hm _ Hin eq_refl). simpl in Hm. by apply bool_decide_eq_false in Hm. }
    eexists _, _. split; [done|]. split; [symmetry; by apply not_elem_of_list_to_map_1|]. exists L. split; [by apply insert_fresh|done].
Qed.
End Table.
