(* ===== verification/ShardTimers.v ===== *)
(** * The timers of a shard's entries

    [wheel_owns grace w es late]: the wheel's armed timers are those of the entries
    [es], each for its entry's hash and not due before the entry's expiry (plus the
    grace period); the entries [late] have a timer that fired.  Between calls of the
    shard no entry is late. *)

From S2P Require Import Prelude Arena Timer.
From S2P Require Import Entry.

(** ** Indices are never handed out twice *)

Section Issued.
Context {Index : Type} {A : Type → Type} `{ArenaLaws Index A}.
Implicit Types (w : TimerWheel Index A) (i : Index).

Definition issued w i : Prop := arena_issued (w_timers w) i.

Lemma armed_issued w i : is_Some (armed w i) → issued w i.
Proof.
  intros [[h d] E]. unfold armed, tdat in E. destruct (arena_get i (w_timers w)) as [t|] eqn:Et; [|done].
  by eapply arena_get_issued.
Qed.

Lemma update_timer_issued i f w w' j : update_timer i f w = Some w' → issued w' j ↔ issued w j.
Proof.
  unfold update_timer, arena_update, issued. intros E. apply bind_Some in E as (a&(x&_&[= <-])%bind_Some&[= <-]). simpl.
  apply arena_set_issued.
Qed.

Lemma update_slot_issued s f w w' j : update_slot s f w = Some w' → issued w' j ↔ issued w j.
Proof.
  unfold update_slot, issued. intros E. by apply bind_Some in E as (sl&_&(ss&_&[= <-])%bind_Some).
Qed.

Lemma unlink_issued s p n w w' j : unlink s p n w = Some w' → issued w' j ↔ issued w j.
Proof.
  unfold unlink. intros E. apply bind_Some in E as (w1&E1&E2).
  assert (issued w1 j ↔ issued w j) as <- by (destruct p; [by eapply update_timer_issued|by eapply update_slot_issued]).
  destruct n; [by eapply update_timer_issued|by eapply update_slot_issued].
Qed.

Lemma cancel_issued i w w' j : cancel i w = Some w' → issued w' j ↔ issued w j.
Proof.
  unfold cancel. pose proof (arena_remove_issued _ (w_timers w) i j) as Hr. destruct (arena_remove i (w_timers w)) as [r a].
  simpl in Hr. change (arena_issued a j) with (issued (with_timers a w) j) in Hr. rewrite <- Hr.
  destruct r as [t|]; [apply unlink_issued|]. by intros [= <-].
Qed.

Lemma sweep_list_issued fuel s passes o w hs w' j : sweep_list fuel s passes o w = Some (hs, w') → issued w' j ↔ issued w j.
Proof.
  revert o w hs. induction fuel as [|fuel IH]; intros o w hs E; (destruct o as [i|]; cbn [sweep_list] in E; [|by simplify_eq]); [done|].
  apply bind_Some in E as (t&_&E). destruct (passes <=? t_laps t).
  - apply bind_Some in E as (w1&E1&E). by rewrite (IH _ _ _ E), (update_timer_issued _ _ _ _ _ E1).
  - pose proof (arena_remove_issued _ (w_timers w) i j) as Hr. destruct (arena_remove i (w_timers w)) as [r a]. simpl in Hr.
    apply bind_Some in E as (t'&_&(w1&E1&([hs2 w2]&E2&[= _ <-])%bind_Some)%bind_Some).
    rewrite (IH _ _ _ E2), (unlink_issued _ _ _ _ _ _ E1). exact Hr.
Qed.

Lemma sweep_slots_issued start n ss w hs w' j : sweep_slots start n ss w = Some (hs, w') → issued w' j ↔ issued w j.
Proof.
  revert w hs. induction ss as [|s ss IH]; intros w hs E; cbn [sweep_slots] in E; [by simplify_eq|].
  apply bind_Some in E as ([hs1 w1]&E1&([hs2 w2]&E2&[= _ <-])%bind_Some). rewrite (IH _ _ E2).
  destruct (_ =? 0); [by simplify_eq|]. apply bind_Some in E1 as (sl&_&E1). by eapply sweep_list_issued.
Qed.

Lemma advance_issued now w fired w' j : advance now w = Some (fired, w') → issued w' j ↔ issued w j.
Proof.
  unfold advance. intros E. destruct (w_slots w) as [|sl0 ss0] eqn:Es; [by simplify_eq|]. rewrite <- Es in E.
  destruct (_ =? 0); [by simplify_eq|]. apply bind_Some in E as ([f w2]&E2&(nx&_&[= _ <-])%bind_Some).
  by eapply sweep_slots_issued in E2.
Qed.

(** The number of slots. *)
Lemma update_timer_slots i f w w' : update_timer i f w = Some w' → w_slots w' = w_slots w.
Proof. unfold update_timer. intros E. by apply bind_Some in E as (a&_&[= <-]). Qed.

Lemma update_slot_slots s f w w' : update_slot s f w = Some w' → length (w_slots w') = length (w_slots w).
Proof.
  unfold update_slot. intros E. apply bind_Some in E as (sl&_&(ss&Hs&[= <-])%bind_Some). simpl. unfold vset in Hs.
  destruct (vget (w_slots w) s); simplify_eq. apply length_insert.
Qed.

Lemma unlink_slots s p n w w' : unlink s p n w = Some w' → length (w_slots w') = length (w_slots w).
Proof.
  unfold unlink. intros E. apply bind_Some in E as (w1&E1&E2). transitivity (length (w_slots w1)).
  - destruct n; [by rewrite (update_timer_slots _ _ _ _ E2)|by eapply update_slot_slots].
  - destruct p; [by rewrite (update_timer_slots _ _ _ _ E1)|by eapply update_slot_slots].
Qed.

Lemma sweep_list_slots fuel s passes o w hs w' : sweep_list fuel s passes o w = Some (hs, w') → length (w_slots w') = length (w_slots w).
Proof.
  revert o w hs. induction fuel as [|fuel IH]; intros o w hs E; (destruct o as [i|]; cbn [sweep_list] in E; [|by simplify_eq]); [done|].
  apply bind_Some in E as (t&_&E). destruct (passes <=? t_laps t).
  - apply bind_Some in E as (w1&E1&E). by rewrite (IH _ _ _ E), (update_timer_slots _ _ _ _ E1).
  - destruct (arena_remove i (w_timers w)) as [r a].
    apply bind_Some in E as (t'&_&(w1&E1&([hs2 w2]&E2&[= _ <-])%bind_Some)%bind_Some).
    by rewrite (IH _ _ _ E2), (unlink_slots _ _ _ _ _ E1).
Qed.

Lemma sweep_slots_slots start n ss w hs w' : sweep_slots start n ss w = Some (hs, w') → length (w_slots w') = length (w_slots w).
Proof.
  revert w hs. induction ss as [|s ss IH]; intros w hs E; cbn [sweep_slots] in E; [by simplify_eq|].
  apply bind_Some in E as ([hs1 w1]&E1&([hs2 w2]&E2&[= _ <-])%bind_Some). rewrite (IH _ _ E2).
  destruct (_ =? 0); [by simplify_eq|]. apply bind_Some in E1 as (sl&_&E1). by eapply sweep_list_slots.
Qed.

Lemma advance_slots now w fired w' : advance now w = Some (fired, w') → length (w_slots w') = length (w_slots w).
Proof.
  unfold advance. intros E. destruct (w_slots w) as [|sl0 ss0] eqn:Es; [simplify_eq; by rewrite Es|]. rewrite <- Es in *.
  destruct (_ =? 0); [by simplify_eq|]. apply bind_Some in E as ([f w2]&E2&(nx&_&[= _ <-])%bind_Some).
  by eapply sweep_slots_slots in E2.
Qed.

Lemma schedule_issued now h e w i w' : schedule now h e w = Some (i, w') → ¬ issued w i ∧ ∀ j, issued w' j ↔ j = i ∨ issued w j.
Proof.
  unfold schedule. set (w0 := start_slots now w).
  assert (Ew0 : ∀ j, issued w0 j ↔ issued w j) by (intros j; unfold w0, start_slots, issued; by destruct (w_slots w)).
  destruct (wheel_len w0 =? 0); [done|]. intros E. apply bind_Some in E as (sl&_&E).
  set (t := mk_timer _ _ _ _ _) in E. pose proof (arena_insert_fresh _ t (w_timers w0)) as Hfr.
  pose proof (arena_insert_issued _ t (w_timers w0)) as Hiss. destruct (arena_insert t (w_timers w0)) as [i0 a]. simpl in Hfr, Hiss.
  apply bind_Some in E as (w2&E2&(w3&E3&(sl'&_&(w4&E4&[= <- <-])%bind_Some)%bind_Some)%bind_Some).
  split; [by rewrite <- Ew0|]. intros j. rewrite <- Ew0. change (issued w4 j ↔ j = i0 ∨ issued w0 j).
  assert (issued w4 j ↔ issued w3 j) as -> by (destruct (ws_tail sl'); [by simplify_eq|by eapply update_slot_issued]).
  rewrite (update_slot_issued _ _ _ _ _ E3).
  assert (issued w2 j ↔ arena_issued a j) as -> by (destruct (ws_head sl); [by eapply update_timer_issued in E2|by simplify_eq]).
  apply Hiss.
Qed.
End Issued.

(** ** Ownership *)

Section Owns.
Context {V Index : Type} {A : Type → Type} `{ArenaLaws Index A}.
Notation entry := (CacheEntry V Index).
Notation timer_wheel := (TimerWheel Index A).
Implicit Types (w : timer_wheel) (e : entry) (es late : list entry) (i : Index) (grace : Z).

Definition handles es : list Index := omap ttl_timer_handle es.

Definition entry_armed grace w e : Prop :=
  match ttl_timer_handle e with
  | None => expires_at e = 0
  | Some i => 0 < expires_at e ∧ ∃ d, armed w i = Some (key_hash e, d) ∧ expires_at e +sat grace ≤ deadline w d
  end.

Definition entry_late w e : Prop :=
  0 < expires_at e ∧ ∃ i, ttl_timer_handle e = Some i ∧ armed w i = None ∧ issued w i.

Record wheel_owns grace w es late : Prop := {
  wn_wf : wheel_wf w;
  wn_nodup : NoDup (handles (es ++ late));
  wn_armed : Forall (entry_armed grace w) es;
  wn_only i : is_Some (armed w i) → i ∈ handles es;
  wn_late : Forall (entry_late w) late;
}.

(** Once the slots are allocated the wheel's clock is moved by [advance] only. *)
Definition keeps_time w w' : Prop :=
  w_slots w ≠ [] → w_slots w' ≠ [] ∧ last_advanced w' = last_advanced w ∧ tick_ns w' = tick_ns w.

Lemma wheel_owns_perm grace w es es' late late' :
  es ≡ₚ es' → late ≡ₚ late' → wheel_owns grace w es late → wheel_owns grace w es' late'.
Proof.
  intros Hp Hl [H1 H2 H3 H4 H5]. split; [done|unfold handles in *; by rewrite <- Hp, <- Hl|by rewrite <- Hp| |by rewrite <- Hl].
  intros i Hi. unfold handles in *. rewrite <- Hp. by apply H4.
Qed.

(** A late entry may be left out: its timer is gone. *)
Lemma wheel_owns_drop_late grace w es e late : wheel_owns grace w es (e :: late) → wheel_owns grace w es late.
Proof.
  intros [H1 H2 H3 H4 H5]. apply Forall_cons in H5 as [_ H5]. split; try done. unfold handles in *.
  rewrite omap_app in *. simpl in H2. destruct (ttl_timer_handle e) as [i|]; [|done]. apply NoDup_app in H2 as (?&Hd&[_ ?]%NoDup_cons).
  apply NoDup_app. split_and!; [done| |done]. intros j Hj ?. apply (Hd j Hj). by right.
Qed.

Lemma armed_slots w i h d : wheel_wf w → armed w i = Some (h, d) → w_slots w ≠ [].
Proof.
  intros ([Ls Hi]&_&_) (s&l&Hd&_)%armed_Some E. destruct (wi_live _ _ Hi _ _ _ _ Hd) as [[sl Hs] _]. rewrite E in Hs. by rewrite vget_nil in Hs.
Qed.

Lemma in_handles es e i : e ∈ es → ttl_timer_handle e = Some i → i ∈ handles es.
Proof. intros He Hi. apply list_elem_of_omap. eauto. Qed.

Lemma schedule_keeps now h x w i w' j h' d :
  wheel_wf w → clock_ok w now → is_u64 x → schedule now h x w = Some (i, w') → armed w j = Some (h', d) →
  armed w' j = Some (h', d) ∧ deadline w' d = deadline w d.
Proof.
  intros Hwf Hn Hx E Ha. destruct (start_slots_spec now w Hwf Hn) as (_&_&_&_&_&_&_&Ela).
  destruct (schedule_spec now h x w Hwf Hn Hx) as (i'&w''&E'&_&Hi&Harm&_&Ht&Hc&Hla). rewrite E in E'. injection E' as <- <-.
  split; [rewrite Harm, decide_False; [done|congruence]|]. unfold deadline. rewrite Ht, Hc, Hla, Ela. destruct (decide (w_slots w = [])) as [E0|]; [|done].
  exfalso. destruct Hwf as ([Ls Hinv]&_&_). apply armed_Some in Ha as (s&l&Hd&_). destruct (wi_live _ _ Hinv _ _ _ _ Hd) as [[sl Hs] _].
  rewrite E0 in Hs. by rewrite vget_nil in Hs.
Qed.

Lemma owns_schedule grace now hash x w es late :
  wheel_owns grace w es late → clock_ok w now → 0 < x < U64 → 0 ≤ grace →
  ∃ i w', schedule now hash (x +sat grace) w = Some (i, w') ∧ wheel_len w' = wheel_len w ∧ keeps_time w w' ∧
    ∀ e, key_hash e = hash → expires_at e = x → wheel_owns grace w' (set_timer (Some i) e :: es) late.
Proof.
  intros [Hwf Hnd Harm Honly Hlate] Hn Hx Hg. assert (Hxg : is_u64 (x +sat grace)) by (unfold sat_add; u64_lia).
  destruct (start_slots_spec now w Hwf Hn) as (Hwf0&_&_&Ec0&Et0&_).
  destruct (schedule_spec now hash (x +sat grace) w Hwf Hn Hxg) as (i&w'&E&Hwf'&Hi&Ha&Hlen&Htk&Hct&Hla).
  destruct (schedule_issued _ _ _ _ _ _ E) as [Hfresh Hiss].
  pose proof (ticks_until_deadline (x +sat grace) (start_slots now w) ltac:(apply Hwf0)) as [Hd _]. rewrite Ec0 in Hd.
  exists i, w'. split; [done|]. split; [done|]. split.
  { intros Hne. destruct (start_slots_spec now w Hwf Hn) as (_&_&_&_&_&_&_&Ela). rewrite decide_False in Ela by done. split; [|by rewrite Hla].
    eapply (armed_slots w' i); [done|]. by rewrite Ha, decide_True by done. }
  intros e He Hxe.
  assert (Hall : ∀ j, j ∈ handles (es ++ late) → j ≠ i).
  { intros j Hj ->. apply Hfresh. unfold handles in Hj. rewrite omap_app in Hj. apply elem_of_app in Hj as [Hj|Hj]; apply list_elem_of_omap in Hj as (e'&Hin&Ej).
    - eapply Forall_forall in Harm; [|exact Hin]. unfold entry_armed in Harm. rewrite Ej in Harm. destruct Harm as (_&d&Hj&_).
      apply armed_issued. by rewrite Hj.
    - eapply Forall_forall in Hlate as (_&j&Ej'&_&?); [|exact Hin]. congruence. }
  split.
  - done.
  - cbn [app]. unfold handles. simpl. constructor; [|done]. intros Hin. by apply (Hall i).
  - constructor.
    + unfold entry_armed, set_timer. simpl. split; [lia|]. eexists. split; [rewrite Ha, decide_True by done; by rewrite He|].
      unfold deadline in *. rewrite Hct, Htk, Hla. rewrite Ec0, Et0 in Hd. by rewrite Hxe.
    + eapply Forall_impl; [exact Harm|]. intros e' He'. unfold entry_armed in *. destruct (ttl_timer_handle e') as [j|]; [|done].
      destruct He' as (?&d&Hj&?). split; [done|]. exists d. destruct (schedule_keeps _ _ _ _ _ _ _ _ _ Hwf Hn Hxg E Hj) as [-> ->]. done.
  - intros j. rewrite Ha. destruct (decide (j = i)) as [->|]; [intros _; by left|]. intros Hj. right. by apply Honly.
  - eapply Forall_impl; [exact Hlate|]. intros e' (?&j&Ej&Hj&Hji). split; [done|]. exists j. split; [done|]. split.
    + rewrite Ha, decide_False; [done|]. intros ->. done.
    + apply Hiss. by right.
Qed.

(** [disarm] on the wheel. *)
Definition cancel_of e w : option timer_wheel :=
  match ttl_timer_handle e with Some h => cancel h w | None => Some w end.

Lemma cancel_keeps i w :
  wheel_wf w → ∃ w', cancel i w = Some w' ∧ wheel_wf w' ∧ wheel_len w' = wheel_len w ∧ keeps_time w w' ∧
    (∀ j, armed w' j = if decide (j = i) then None else armed w j) ∧ (∀ j, issued w' j ↔ issued w j) ∧ (∀ d, deadline w' d = deadline w d).
Proof.
  intros Hwf. destruct (cancel_spec i w Hwf) as (w'&E&Hwf'&Hst&Harm). exists w'. destruct Hst as (F1&F2&F3&F4&_&F6). split; [done|]. split; [done|].
  split; [done|]. split; [intros Hne; split; [|done]; intros E0; rewrite E0 in F6; by destruct (w_slots w)|]. split; [done|]. split; [intros j; by eapply cancel_issued|]. intros d. unfold deadline. by rewrite F2, F3, F4.
Qed.

(** Ownership after a cancel of a timer none of the kept entries has. *)
Lemma owns_after_cancel grace i w w' es late :
  wheel_wf w' → (∀ j, armed w' j = if decide (j = i) then None else armed w j) → (∀ j, issued w' j ↔ issued w j) →
  (∀ d, deadline w' d = deadline w d) → i ∉ handles es → NoDup (handles (es ++ late)) → Forall (entry_armed grace w) es →
  (∀ j, is_Some (armed w j) → j ≠ i → j ∈ handles es) → Forall (entry_late w) late → wheel_owns grace w' es late.
Proof.
  intros Hwf' Harm Hiss Hdl Hi Hnd Hes Honly Hlate. split; try done.
  - apply Forall_forall. intros e He. eapply Forall_forall in Hes; [|exact He]. unfold entry_armed in *.
    destruct (ttl_timer_handle e) as [j|] eqn:Ej; [|done]. destruct Hes as (?&d&Hj&?). split; [done|]. exists d.
    rewrite Harm, Hdl, decide_False; [done|]. intros ->. apply Hi. by eapply in_handles.
  - intros j. rewrite Harm. destruct (decide (j = i)); [by intros [? ?]|]. intros Hj. by apply Honly.
  - eapply Forall_impl; [exact Hlate|]. intros e (?&j&?&Hj&?). split; [done|]. exists j. split; [done|].
    rewrite Harm, Hiss, Hj. by destruct (decide (j = i)).
Qed.

Lemma owns_disarm grace e w es late :
  wheel_owns grace w (e :: es) late →
  ∃ w', cancel_of e w = Some w' ∧ wheel_owns grace w' es late ∧ wheel_len w' = wheel_len w ∧ keeps_time w w'.
Proof.
  intros [Hwf Hnd Harm Honly Hlate]. apply Forall_cons in Harm as [He Harm]. unfold cancel_of, handles in *. cbn [app omap list_omap] in Hnd, Honly.
  destruct (ttl_timer_handle e) as [i|] eqn:Ei; [|exists w; do 3 (split; [done|]); by intros ?].
  destruct (cancel_keeps i w Hwf) as (w'&E&Hwf'&?&?&Ha&Hiss&Hdl). exists w'. split; [done|]. split; [|done].
  apply NoDup_cons in Hnd as [Hni Hnd]. apply (owns_after_cancel grace i w); try done.
  - intros Hin. apply Hni. unfold handles in Hin. rewrite omap_app. apply elem_of_app. by left.
  - intros j Hj Hne. by apply Honly, elem_of_cons in Hj as [?|?].
Qed.

Lemma owns_disarm_late grace e w es late :
  wheel_owns grace w es (e :: late) →
  ∃ w', cancel_of e w = Some w' ∧ wheel_owns grace w' es late ∧ wheel_len w' = wheel_len w ∧ keeps_time w w'.
Proof.
  intros Ho. pose proof (wheel_owns_drop_late _ _ _ _ _ Ho) as [Hwf Hnd Harm Honly Hlate]. destruct Ho as [_ Hnd' _ _ Hl].
  apply Forall_cons in Hl as [(_&i&Ei&Hi&_) _]. unfold cancel_of. rewrite Ei.
  destruct (cancel_keeps i w Hwf) as (w'&E&Hwf'&?&?&Ha&Hiss&Hdl). exists w'. split; [done|]. split; [|done].
  apply (owns_after_cancel grace i w); try done.
  - intros Hin. unfold handles in *. rewrite omap_app in Hnd'. apply NoDup_app in Hnd' as (_&Hd&_). apply (Hd i Hin). simpl. rewrite Ei. by left.
  - intros j Hj _. by apply Honly.
Qed.

Lemma owns_clear grace w es : wheel_owns grace w es [] → wheel_owns grace (clear w) [] [] ∧ wheel_len (clear w) = wheel_len w.
Proof.
  intros [Hwf _ _ _ _]. destruct (clear_spec w Hwf) as [Hwf' Ha]. split; [|done]. split; try done; [constructor|].
  intros i [? Hi]. by rewrite Ha in Hi.
Qed.

Lemma owns_new grace n tk now :
  1 ≤ n → 2 * n < U64 → tk < U64 → 0 ≤ now → now + n < U64 → wheel_owns grace (Timer.new n tk now : timer_wheel) [] [].
Proof.
  intros. destruct (wheel_wf_new (A:=A) n tk now) as [Hwf Ha]; [done..|]. split; try done; [constructor|].
  intros i [? Hi]. by rewrite Ha in Hi.
Qed.

(** Whether the entry's timer is over by [to]. *)
Definition timer_due w (to : Z) e : bool :=
  match ttl_timer_handle e ≫= armed w with Some (_, d) => bool_decide (deadline w d ≤ to) | None => false end.

Lemma hashes_of_due w to js fired :
  Forall2 (λ i h, ∃ d, armed w i = Some (h, d) ∧ deadline w d ≤ to) js fired → fired = omap (λ i, fst <$> armed w i) js.
Proof. induction 1 as [|i h js fired (d&E&_) _ IH]; [done|]. simpl. rewrite E. simpl. by f_equal. Qed.

(** The fired hashes are those of the entries whose timers are over. *)
Lemma fired_late grace w es to fired :
  wheel_owns grace w es [] → lists_hashes (λ i h, ∃ d, armed w i = Some (h, d) ∧ deadline w d ≤ to) fired →
  fired ≡ₚ key_hash <$> filter (λ e, timer_due w to e = true) es.
Proof.
  intros [_ Hnd Harm Honly _] (js&Hjs&HF&Hin). rewrite app_nil_r in Hnd. pose proof (hashes_of_due w to js fired HF) as ->.
  set (late := filter (λ e, timer_due w to e = true) es).
  assert (Hdue : ∀ e, e ∈ late → ∃ i d, e ∈ es ∧ ttl_timer_handle e = Some i ∧ armed w i = Some (key_hash e, d) ∧ deadline w d ≤ to).
  { intros e [Hd He]%list_elem_of_filter. eapply Forall_forall in Harm; [|exact He]. unfold timer_due, entry_armed in *.
    destruct (ttl_timer_handle e) as [i|]; [|done]. simpl in Hd. destruct Harm as (_&d&Ea&_). rewrite Ea in Hd. apply bool_decide_eq_true in Hd. eauto 10. }
  assert (Hjl : js ≡ₚ handles late).
  { apply NoDup_Permutation; [done| |].
    - unfold late, handles in *. clear -Hnd. induction es as [|e es IH]; [done|]. simpl in Hnd. rewrite filter_cons.
      destruct (ttl_timer_handle e) as [i|] eqn:Ei; [apply NoDup_cons in Hnd as [Hi Hnd]|]; destruct (decide _); simpl; rewrite ?Ei; auto.
      constructor; [|auto]. intros Hin. apply Hi. apply list_elem_of_omap in Hin as (e'&[_ He']%list_elem_of_filter&?). apply list_elem_of_omap. eauto.
    - intros i. split.
      + intros [k Hk]%list_elem_of_lookup. destruct (Forall2_lookup_l _ _ _ _ _ HF Hk) as (h&_&d&Ea&Hd).
        assert (Hh : i ∈ handles es) by (apply Honly; by rewrite Ea). apply list_elem_of_omap in Hh as (e&He&Ei). apply list_elem_of_omap.
        exists e. split; [|done]. apply list_elem_of_filter. split; [|done]. unfold timer_due. rewrite Ei. simpl. rewrite Ea. by apply bool_decide_eq_true.
      + intros (e&He&Ei)%list_elem_of_omap. destruct (Hdue e He) as (i'&d&_&Ei'&Ea&Hd). rewrite Ei in Ei'. injection Ei' as <-.
        apply (Hin i (key_hash e)). eauto. }
  rewrite Hjl. unfold handles. clear -Hdue. clearbody late. induction late as [|e late IH]; [done|]. simpl.
  destruct (Hdue e) as (i&d&_&Ei&Ea&_); [by left|]. rewrite Ei. simpl. rewrite Ea. simpl. constructor. apply IH. intros e' He'. apply Hdue. by right.
Qed.

Lemma owns_advance grace now w es :
  wheel_owns grace w es [] → clock_ok w now →
  ∃ fired w' es' late, advance now w = Some (fired, w') ∧ wheel_len w' = wheel_len w ∧ tick_ns w' = tick_ns w ∧
    es ≡ₚ es' ++ late ∧ wheel_owns grace w' es' late ∧ fired ≡ₚ key_hash <$> late ∧
    (fired ≠ [] → w_slots w' ≠ []) ∧ (w_slots w' ≠ [] → now < last_advanced w' + tick_ns w').
Proof.
  intros Ho Hn. pose proof Ho as [Hwf Hnd Harm Honly _]. rewrite app_nil_r in Hnd.
  destruct (advance_spec now w Hwf Hn) as (fired&w'&E&Hwf'&Hlen&Htk&Hto&Hkeep&Hnone&Hfired).
  set (due := λ e, timer_due w (last_advanced w') e = true).
  exists fired, w', (filter (λ e, ¬ due e) es), (filter due es). split; [done|]. split; [done|]. split; [done|].
  assert (Hp : es ≡ₚ filter (λ e, ¬ due e) es ++ filter due es).
  { clear. induction es as [|e es IH]; [done|]. rewrite !filter_cons. destruct (decide (due e)).
    - rewrite decide_False by tauto. by rewrite <- Permutation_middle, <- IH.
    - rewrite decide_True by done. cbn [app]. by rewrite <- IH. }
  split; [done|].
  assert (Hent : ∀ e, e ∈ es → match ttl_timer_handle e with
    | None => expires_at e = 0 ∧ ¬ due e
    | Some i => 0 < expires_at e ∧ ∃ d, armed w i = Some (key_hash e, d) ∧ expires_at e +sat grace ≤ deadline w d ∧
        (due e ↔ deadline w d ≤ last_advanced w') end).
  { intros e He. eapply Forall_forall in Harm; [|exact He]. unfold entry_armed, due, timer_due in *. destruct (ttl_timer_handle e) as [i|]; [|done].
    destruct Harm as (?&d&Ea&?). split; [done|]. exists d. split; [done|]. split; [done|]. simpl. rewrite Ea. apply bool_decide_eq_true. }
  split; [|split; [by apply (fired_late grace)|]].
  - split; [done| | | |].
    + unfold handles in *. by rewrite <- Hp.
    + apply Forall_forall. intros e [Hd He]%list_elem_of_filter. specialize (Hent e He). unfold entry_armed.
      destruct (ttl_timer_handle e) as [i|]; [|by destruct Hent]. destruct Hent as (?&d&Ea&?&Hdue). split; [done|]. exists d.
      destruct (Hkeep i _ d Ea) as [-> ->]. rewrite decide_False by (by rewrite <- Hdue). done.
    + intros i [[h d] Ea']. destruct (armed w i) as [[h0 d0]|] eqn:Ea; [|by rewrite Hnone in Ea'].
      assert (Hh : i ∈ handles es) by (apply Honly; by rewrite Ea). apply list_elem_of_omap in Hh as (e&He&Ei). apply list_elem_of_omap.
      exists e. split; [|done]. apply list_elem_of_filter. split; [|done]. specialize (Hent e He). rewrite Ei in Hent.
      destruct Hent as (_&d1&Ea1&_&Hdue). rewrite Ea in Ea1. injection Ea1 as -> ->. rewrite Hdue.
      destruct (Hkeep i _ d1 Ea) as [_ Ek]. rewrite Ek in Ea'. by destruct (decide (deadline w d1 ≤ last_advanced w')).
    + apply Forall_forall. intros e [Hd He]%list_elem_of_filter. specialize (Hent e He). unfold entry_late.
      destruct (ttl_timer_handle e) as [i|]; [|by destruct Hent]. destruct Hent as (?&d&Ea&?&Hdue). split; [done|]. exists i. split; [done|].
      destruct (Hkeep i _ d Ea) as [_ ->]. rewrite decide_True by (by apply Hdue). split; [done|]. apply (advance_issued _ _ _ _ _ E).
      apply armed_issued. by rewrite Ea.
  - pose proof (advance_slots _ _ _ _ E) as Hsl. destruct (w_slots w) as [|sl0 ss0] eqn:Es.
    { unfold advance in E. rewrite Es in E. simplify_eq. split; [done|]. by rewrite Es. }
    pose proof (wo_tick _ (proj1 (proj2 Hwf))) as Htp. split.
    + intros _ E0. by rewrite E0 in Hsl.
    + intros _. rewrite Hto, Htk. unfold advanced_to. rewrite Es. unfold sat_sub. destruct (Z.max_spec 0 (now - last_advanced w)) as [[? ->]|[? ->]].
      * pose proof (Z.mod_pos_bound (now - last_advanced w) (tick_ns w) ltac:(lia)). pose proof (Z.div_mod (now - last_advanced w) (tick_ns w) ltac:(lia)). lia.
      * rewrite Z.div_0_l by lia. lia.
Qed.

(** With the clock within a tick of [now], no armed timer is due yet. *)
Lemma armed_ahead w now i h d : wheel_wf w → now < last_advanced w + tick_ns w → armed w i = Some (h, d) → now < deadline w d.
Proof.
  intros Hwf Hnow Ha. pose proof (deadline_ahead w i h d Hwf Ha) as Hd. pose proof (wo_tick _ (proj1 (proj2 Hwf))).
  unfold deadline in *. set (k := d - current_tick w + 1) in *. assert (1 ≤ k) by nia. nia.
Qed.
End Owns.
