(* ===== verification/ShardInv.v ===== *)
(** * The invariant of a shard ([ShardMap], [cache/src/store.rs])

    A shard is described by the list [L] of its entries.  [body] relates the table, the
    cost and the timers to [L] ([X] are entries on their way out, not yet disarmed);
    [policy_ok] relates the policy, or the built-in policy's nodes, to [L].  The costs
    are at most [cmax], and the number of entries times [cmax] is a [u64]. *)

From S2P Require Import Prelude Arena Policy Slab ReadRing ShardPolicy Builtin.
From S2P Require Timer ReadLog.
From S2P Require Import Entry HashTable Store ShardTable ShardTimers.

Section Inv.
Context {K V P Index : Type} {A HT : Type → Type}.
Context `{Countable K} `{!CachePolicy K P} `{!PolicyLaws K P} `{EqDecision Index} `{!Arena Index A} `{!ArenaLaws Index A}.
Context `{!HashTable HT} `{!HashTableLaws HT} `{!StoreHash K}.
Notation entry := (CacheEntry V Index).
Notation item := (K * entry)%type.
Notation shard_map := (ShardMap K V P Index A HT).
Implicit Types (sm : shard_map) (L : list item) (X : list entry) (k : K) (e : entry) (exact : Prop) (cmax : Z).

Definition kcosts L : list (K * Z) := (λ ke, (ke.1, cost ke.2)) <$> L.
Definition knodes L : list (Z * (Z * Z)) := (λ ke, (node ke.2, (key_hash ke.2, cost ke.2))) <$> L.

Definition item_ok cmax (ke : item) : Prop := 0 ≤ cost ke.2 ≤ cmax ∧ is_u64 (expires_at ke.2).

Definition room cmax (n : nat) : Prop := Z.of_nat n * cmax < U64.

Record body cmax sm L X : Prop := {
  b_table : table_holds (table sm) L;
  b_items : Forall (item_ok cmax) L;
  b_room : room cmax (S (length L));
  b_cmax : 0 ≤ cmax;
  b_cost : sm_cost sm = costs (kcosts L);
  b_wheel : wheel_owns (grace_ns (ctx sm)) (wheel sm) (L.*2 ++ X) [];
  b_ctx : 0 ≤ grace_ns (ctx sm);
}.

(** The reads of the log were of entries the table had, at most of ones it lost. *)
Definition reads_ok exact cmax (lg : ReadLog.ReadLog K) L : Prop :=
  ∃ rds, ReadLog.logged lg rds ∧
    Forall (λ kc, 0 ≤ kc.2 ≤ cmax ∧ (exact → ∀ e, (kc.1, e) ∈ L → cost e = kc.2)) rds.

(** The policy follows the keys of the table, with their costs if it is [exact]. *)
Definition map_agrees exact cmax (m : gmap K Z) L : Prop :=
  (∀ k, is_Some (m !! k) ↔ k ∈ L.*1) ∧ map_Forall (λ _ c, 0 ≤ c ≤ cmax) m ∧ (exact → m = list_to_map (kcosts L)).

Definition policy_agrees exact cmax (p : P) L : Prop := policy_wf p ∧ map_agrees exact cmax (tracked p) L.

(** The built-in policy's nodes are those of the entries. *)
Definition builtin_agrees (b : Builtin) L : Prop :=
  shard_wf b ∧ NoDup (node <$> L.*2) ∧ nodes b = list_to_map (knodes L) ∧ Z.of_nat (length L) < NIL.

Definition policy_ok exact cmax sm L : Prop :=
  match sm_builtin sm with
  | Some b => builtin_agrees b L
  | None => policy_agrees exact cmax (policy sm) L ∧ reads_ok exact cmax (sm_reads sm) L
  end.

(** The shard between two calls. *)
Record shard_inv exact cmax sm L : Prop := {
  si_body : body cmax sm L [];
  si_policy : policy_ok exact cmax sm L;
  si_victims : victims sm = [];
  si_budget : 0 ≤ budget sm < U64;
}.

(** ** Costs *)

Lemma kcosts_keys L : (kcosts L).*1 = L.*1.
Proof. unfold kcosts. by rewrite <- list_fmap_compose. Qed.

Lemma costs_perm (xs ys : list (K * Z)) : xs ≡ₚ ys → costs xs = costs ys.
Proof. induction 1 as [|[k c] xs ys _ IH|[k1 c1] [k2 c2] xs|xs ys zs _ IH1 _ IH2]; rewrite ?costs_cons; lia. Qed.

Lemma kcosts_perm L L' : L ≡ₚ L' → costs (kcosts L) = costs (kcosts L').
Proof. intros Hp. apply costs_perm. unfold kcosts. by rewrite Hp. Qed.

Lemma kcosts_cons k e L : costs (kcosts ((k, e) :: L)) = cost e + costs (kcosts L).
Proof. done. Qed.

Lemma kcosts_bound cmax L : Forall (item_ok cmax) L → 0 ≤ costs (kcosts L) ≤ Z.of_nat (length L) * cmax.
Proof.
  induction 1 as [|[k e] L [Hc _] _ IH]; [done|]. rewrite kcosts_cons. cbn [length]. simpl in Hc. lia.
Qed.

Lemma room_S cmax n : 0 ≤ cmax → room cmax (S n) → room cmax n.
Proof. unfold room. nia. Qed.

Lemma body_cost_bound cmax sm L X : body cmax sm L X → 0 ≤ sm_cost sm < U64 ∧ costs (kcosts L) + cmax < U64.
Proof.
  intros [_ Hit Hr Hc -> _ _]. pose proof (kcosts_bound cmax L Hit). unfold room in Hr. nia.
Qed.

(** ** Evicting an entry *)

(** What an eviction leaves alone, and what it tells the listener. *)
Record evicts sm sm' (ev : list item) : Prop := {
  ev_policy : policy sm' = policy sm;
  ev_reads : sm_reads sm' = sm_reads sm;
  ev_builtin : sm_builtin sm' = sm_builtin sm;
  ev_ring : ring sm' = ring sm;
  ev_budget : budget sm' = budget sm;
  ev_ctx : ctx sm' = ctx sm;
  ev_victims : victims sm' = victims sm;
  ev_local : local sm' = local sm;
  ev_len : Timer.wheel_len (wheel sm') = Timer.wheel_len (wheel sm);
  ev_told : notified sm' = notified sm ++ (if notify (ctx sm) then (λ ke, (ke.1, value ke.2)) <$> ev else []);
}.

Lemma evicts_refl sm : evicts sm sm [].
Proof. split; try done. destruct (notify (ctx sm)); by rewrite app_nil_r. Qed.

Lemma evicts_trans sm1 sm2 sm3 ev1 ev2 : evicts sm1 sm2 ev1 → evicts sm2 sm3 ev2 → evicts sm1 sm3 (ev1 ++ ev2).
Proof.
  intros [] []. split; try congruence. rewrite ev_told1, ev_told0, ev_ctx0, fmap_app, <- app_assoc. by destruct (notify (ctx sm1)).
Qed.

Lemma body_weaken cmax sm L L' X k e : body cmax sm L X → L ≡ₚ (k, e) :: L' → Forall (item_ok cmax) L' ∧ item_ok cmax (k, e) ∧ room cmax (S (length L')).
Proof.
  intros Hb HL. pose proof (b_items _ _ _ _ Hb) as Hit. pose proof (b_room _ _ _ _ Hb) as Hr. rewrite HL in Hit, Hr.
  apply Forall_cons in Hit as [? ?]. split; [done|]. split; [done|]. by apply room_S; [apply Hb|].
Qed.

(** [disarm] after the entry left the table. *)
Lemma disarm_spec cmax sm L L' X k e t :
  body cmax sm L X → L ≡ₚ (k, e) :: L' → table_holds t L' →
  ∃ w, disarm e (with_table t sm) = Some (with_wheel w (with_table t sm)) ∧
    wheel_owns (grace_ns (ctx sm)) w (L'.*2 ++ X) [] ∧ Timer.wheel_len w = Timer.wheel_len (wheel sm).
Proof.
  intros Hb HL Ht. assert (Ho : wheel_owns (grace_ns (ctx sm)) (wheel sm) (e :: L'.*2 ++ X) []).
  { eapply wheel_owns_perm; [|done|apply Hb]. by rewrite HL. }
  destruct (owns_disarm _ _ _ _ _ Ho) as (w&E&Hw&Hl&_). unfold cancel_of in E. unfold disarm. cbn [wheel with_table].
  destruct (ttl_timer_handle e) as [h|].
  - rewrite E. exists w. done.
  - injection E as <-. exists (wheel sm). split; [|done]. by destruct sm.
Qed.

Lemma evict_step cmax sm L L' X k e t ef :
  body cmax sm L X → L ≡ₚ (k, e) :: L' → table_holds t L' →
  ∃ sm1 sm2, disarm e (with_table t sm) = Some sm1 ∧ account_eviction k e ef sm1 = ((ef.1 +w 1, ef.2 +w cost e), sm2) ∧
    body cmax sm2 L' X ∧ evicts sm sm2 [(k, e)].
Proof.
  intros Hb HL Ht. destruct (disarm_spec cmax sm L L' X k e t Hb HL Ht) as (w&->&Hw&Hl).
  destruct (body_weaken _ _ _ _ _ _ _ Hb HL) as (Hit&[Hc _]&Hr). eexists _, _. split; [done|]. split; [done|].
  pose proof (body_cost_bound _ _ _ _ Hb) as [Hcb _]. pose proof (b_cost _ _ _ _ Hb) as Hcost. rewrite (kcosts_perm _ _ HL), kcosts_cons in Hcost.
  pose proof (kcosts_bound cmax L' Hit). simpl in Hc.
  assert (Ecost : sm_cost sm -w cost e = costs (kcosts L')) by (rewrite u64_sub_small; lia).
  pose proof (b_cmax _ _ _ _ Hb). pose proof (b_ctx _ _ _ _ Hb). split.
  - destruct sm; simpl in *; destruct (notify _); split; simpl; done.
  - destruct sm; simpl in *; destruct (notify _) eqn:En; split; simpl; rewrite ?En; try done; by rewrite app_nil_r.
Qed.

(** A victim named by key is in the table. *)
Lemma take_found cmax sm L X v :
  body cmax sm L X → v ∈ L.*1 →
  ∃ e t L', ht_take (hash_key v) (key_is v) (table sm) = Some ((v, e), t) ∧ L ≡ₚ (v, e) :: L' ∧ table_holds t L'.
Proof.
  intros Hb ([k e]&->&Hin)%list_elem_of_fmap. simpl. pose proof (take_any (table sm) L (hash_key k) (key_is k) (b_table _ _ _ _ Hb)) as Ht.
  destruct (ht_take _ _ _) as [[[k' e'] t]|].
  - destruct Ht as [Hk%bool_decide_eq_true (L'&HL&Ht)]. simpl in Hk. subst k'. by exists e', t, L'.
  - specialize (Ht _ Hin eq_refl). by apply bool_decide_eq_false in Ht.
Qed.

(** The loops over victims evict them all. *)
Lemma take_keys_spec cmax vs ef sm L X :
  body cmax sm L X → NoDup vs → (∀ v, v ∈ vs → v ∈ L.*1) → is_u64 ef.1 →
  ∃ f sm' ev L', take_keys vs ef sm = Some ((ef.1 +w Z.of_nat (length vs), f), sm') ∧ ev.*1 = vs ∧ L ≡ₚ ev ++ L' ∧
    body cmax sm' L' X ∧ evicts sm sm' ev.
Proof.
  revert ef sm L. induction vs as [|v vs IH]; intros ef sm L Hb Hnd Hin Hef; cbn [take_keys].
  - exists ef.2, sm, [], L. split; [|split; [done|split; [done|split; [done|apply evicts_refl]]]].
    destruct ef as [a b]. simpl in *. do 3 f_equal. unfold u64_add. rewrite Z.add_0_r, Z.mod_small; [done|u64_lia].
  - apply NoDup_cons in Hnd as [Hv Hnd]. destruct (take_found cmax sm L X v Hb) as (e&t&L1&Et&HL1&Ht); [apply Hin; by left|].
    unfold take. rewrite Et. destruct (evict_step cmax sm L L1 X v e t ef Hb HL1 Ht) as (sm1&sm2&->&Ea&Hb2&Hev). cbn [mbind option_bind].
    rewrite Ea. destruct (IH (ef.1 +w 1, ef.2 +w cost e) sm2 L1 Hb2 Hnd) as (f&sm'&ev&L'&E&Hk&HL'&Hb'&Hev'); [|apply u64_add_range|].
    { intros v' Hv'. assert (Hin' : v' ∈ L.*1) by (apply Hin; by right). rewrite HL1 in Hin'. apply elem_of_cons in Hin' as [->|?]; done. }
    exists f, sm', ((v, e) :: ev), L'. rewrite E. split.
    + do 3 f_equal. cbn [fst length]. unfold u64_add. rewrite Zplus_mod_idemp_l. f_equal. lia.
    + split; [by rewrite fmap_cons, Hk|]. split; [by rewrite HL1, HL'|]. split; [done|]. by apply (evicts_trans sm sm2 sm' [(v, e)]).
Qed.

(** The policy, told of a key it does not follow, follows what it did. *)
Definition policy_same (p p' : P) : Prop := policy_wf p' ∧ tracked p' = tracked p.

Lemma body_with_policy cmax sm L X p : body cmax sm L X → body cmax (with_policy p sm) L X.
Proof. intros []. by split. Qed.

Lemma take_admission_victims_spec cmax vs ef sm L X :
  body cmax sm L X → NoDup vs → (∀ v, v ∈ vs → v ∈ L.*1) → is_u64 ef.1 → policy_wf (policy sm) →
  (∀ v, v ∈ vs → tracked (policy sm) !! v = None) →
  ∃ f sm' ev L' p, take_admission_victims vs ef sm = Some ((ef.1 +w Z.of_nat (length vs), f), sm') ∧ ev.*1 = vs ∧ L ≡ₚ ev ++ L' ∧
    body cmax sm' L' X ∧ policy_same (policy sm) p ∧ evicts (with_policy p sm) sm' ev.
Proof.
  revert ef sm L. induction vs as [|v vs IH]; intros ef sm L Hb Hnd Hin Hef Hpw Hun; cbn [take_admission_victims].
  - exists ef.2, sm, [], L, (policy sm). split; [|split; [done|split; [done|split; [done|split; [done|]]]]].
    + destruct ef as [a b]. simpl in *. do 3 f_equal. unfold u64_add. rewrite Z.add_0_r, Z.mod_small; [done|u64_lia].
    + assert (with_policy (policy sm) sm = sm) as -> by (by destruct sm). apply evicts_refl.
  - apply NoDup_cons in Hnd as [Hv Hnd]. destruct (take_found cmax sm L X v Hb) as (e&t&L1&Et&HL1&Ht); [apply Hin; by left|].
    unfold take. rewrite Et. destruct (remove_law (policy sm) v Hpw) as (p&Ep&Hpw'&Htr).
    rewrite delete_id in Htr by (apply Hun; by left).
    destruct (evict_step cmax (with_policy p sm) L L1 X v e t ef (body_with_policy _ _ _ _ _ Hb) HL1 Ht) as (sm1&sm2&Ed&Ea&Hb2&Hev).
    destruct (disarm_spec cmax sm L L1 X v e t Hb HL1 Ht) as (w&Ed'&_&_). rewrite Ed'. cbn [mbind option_bind].
    cbn [policy with_wheel with_table]. rewrite Ep. cbn [mbind option_bind].
    assert (with_policy p (with_wheel w (with_table t sm)) = sm1) as ->.
    { clear -Ed Ed'. destruct sm. unfold disarm in *. cbn in *. destruct (ttl_timer_handle e).
      - apply bind_Some in Ed as (w1&E1&[= <-]). rewrite E1 in Ed'. simpl in Ed'. by simplify_eq.
      - unfold with_policy, with_wheel, with_table in *. cbn in *. by simplify_eq. }
    rewrite Ea. pose proof (ev_policy _ _ _ Hev) as Hp2. cbn [policy with_policy] in Hp2.
    destruct (IH (ef.1 +w 1, ef.2 +w cost e) sm2 L1 Hb2 Hnd) as (f&sm'&ev&L'&p'&E&Hk&HL'&Hb'&[Hw' Ht']&Hev').
    { intros v' Hv'. assert (Hin' : v' ∈ L.*1) by (apply Hin; by right). rewrite HL1 in Hin'. apply elem_of_cons in Hin' as [->|?]; done. }
    { apply u64_add_range. } { by rewrite Hp2. } { intros v' Hv'. rewrite Hp2, Htr. apply Hun. by right. }
    exists f, sm', ((v, e) :: ev), L', p'. rewrite E. split.
    + do 3 f_equal. cbn [fst length]. unfold u64_add. rewrite Zplus_mod_idemp_l. f_equal. lia.
    + split; [by rewrite fmap_cons, Hk|]. split; [by rewrite HL1, HL'|]. split; [done|]. split; [split; [done|by rewrite Ht', Hp2, Htr]|].
      apply (evicts_trans _ (with_policy p' sm2) sm' [(v, e)]); [|done].
      destruct Hev. split; cbn [with_policy policy sm_reads sm_builtin ring budget ctx victims local wheel notified] in *; done.
Qed.
End Inv.
