(* ===== verification/ShardInsert.v ===== *)
(** * Inserts through a key-based policy ([ShardMap::insert_policy])

    The entries after an insert are those before with the new one in place of the one
    its key had, less the evicted ones; the policy follows exactly the keys left. *)

From S2P Require Import Prelude Arena Policy Slab ReadRing ShardPolicy Builtin.
From S2P Require Timer ReadLog.
From S2P Require Import Entry HashTable Store ShardTable ShardTimers ShardInv.

Section Agrees.
Context {K V Index : Type} `{Countable K}.
Notation entry := (CacheEntry V Index).
Notation item := (K * entry)%type.
Implicit Types (L : list item) (k : K) (e : entry) (exact : Prop) (cmax : Z) (m : gmap K Z).

Lemma map_agrees_perm exact cmax m L L' : NoDup L.*1 → L ≡ₚ L' → map_agrees exact cmax m L → map_agrees exact cmax m L'.
Proof.
  intros Hnd Hp (H1&H2&H3). split; [intros k; by rewrite H1, Hp|]. split; [done|]. intros Hex. rewrite (H3 Hex).
  apply list_to_map_proper; [by rewrite kcosts_keys|]. unfold kcosts. by rewrite Hp.
Qed.

(** A victim list leaves both. *)
Lemma map_agrees_without exact cmax m L ev L' :
  NoDup L.*1 → L ≡ₚ ev ++ L' → map_agrees exact cmax m L → map_agrees exact cmax (without ev.*1 m) L'.
Proof.
  intros Hnd Hp Hm. assert (Hnd' : NoDup (ev ++ L').*1) by (by rewrite <- Hp).
  apply (map_agrees_perm _ _ _ _ _ Hnd Hp) in Hm as (H1&H2&H3). split; [|split].
  - intros k. rewrite lookup_without. specialize (H1 k). rewrite fmap_app, elem_of_app in H1. rewrite fmap_app, NoDup_app in Hnd'.
    destruct Hnd' as (_&Hd&_). destruct (decide (k ∈ ev.*1)) as [Hk|Hk]; [|tauto]. split; [by intros [? ?]|]. intros. by destruct (Hd k Hk).
  - intros k c. rewrite lookup_without. destruct (decide (k ∈ ev.*1)); [done|]. apply H2.
  - intros Hex. rewrite (H3 Hex). unfold kcosts at 1. rewrite fmap_app. rewrite <- (kcosts_keys ev). apply list_to_map_without.
    change (NoDup (kcosts ev ++ kcosts L').*1). unfold kcosts. rewrite <- fmap_app. change (NoDup (kcosts (ev ++ L')).*1). by rewrite kcosts_keys.
Qed.

Lemma map_agrees_put exact cmax m L old rest k e c :
  L ≡ₚ ((λ o, (k, o)) <$> option_list old) ++ rest → NoDup L.*1 → k ∉ rest.*1 → 0 ≤ c ≤ cmax → (exact → c = cost e) →
  map_agrees exact cmax m L → map_agrees exact cmax (<[k:=c]> m) ((k, e) :: rest).
Proof.
  intros Hp Hnd Hk Hc Hce (H1&H2&H3). split; [|split].
  - intros j. destruct (decide (j = k)) as [->|Hne].
    + rewrite lookup_insert_eq. split; [intros _; by left|by eexists].
    + rewrite lookup_insert_ne by done. rewrite H1, Hp, fmap_app, elem_of_app, fmap_cons, elem_of_cons. simpl.
      destruct old as [o|]; simpl; [rewrite list_elem_of_singleton|rewrite elem_of_nil]; tauto.
  - intros j d [[<- <-]|[? Hj]]%lookup_insert_Some; [done|by apply (H2 j)].
  - intros Hex. rewrite (Hce Hex), (H3 Hex). change (kcosts ((k, e) :: rest)) with ((k, cost e) :: kcosts rest).
    assert (Hp' : kcosts L ≡ₚ kcosts (((λ o, (k, o)) <$> option_list old) ++ rest)) by (unfold kcosts; by rewrite Hp).
    assert (Hnd' : NoDup (kcosts L).*1) by (by rewrite kcosts_keys). rewrite (list_to_map_proper _ _ Hnd' Hp'). destruct old as [o|]; simpl; [|done]. by rewrite insert_insert_eq.
Qed.

Lemma msum_bound cmax m : map_Forall (λ _ c, 0 ≤ c ≤ cmax) m → 0 ≤ msum m ≤ Z.of_nat (size m) * cmax.
Proof.
  induction m as [|k c m Hk IH] using map_ind; intros Hm; [done|].
  apply map_Forall_insert in Hm as [Hc Hm]; [|done]. specialize (IH Hm). rewrite msum_insert, map_size_insert_None by done. lia.
Qed.

Lemma agrees_size exact cmax m L : map_agrees exact cmax m L → (size m ≤ length L)%nat.
Proof.
  intros (H1&_&_). rewrite <- length_map_to_list, <- (length_fmap fst), <- (length_fmap fst L). apply submseteq_length, NoDup_submseteq; [apply NoDup_fst_map_to_list|].
  intros k ([k' c]&->&Hin%elem_of_map_to_list)%list_elem_of_fmap. simpl. apply H1. by rewrite Hin.
Qed.

(** Costs bounded by [cmax] never overflow the policy's totals. *)
Lemma agrees_fits exact cmax m L k c :
  map_agrees exact cmax m L → 0 ≤ c ≤ cmax → room cmax (S (length L)) → cost_fits m k c.
Proof.
  intros Hm Hc Hr. pose proof (agrees_size _ _ _ _ Hm) as Hs. destruct Hm as (_&Hb&_). split; [lia|].
  assert (Hd : map_Forall (λ _ c, 0 ≤ c ≤ cmax) (delete k m)) by (by apply map_Forall_delete).
  pose proof (msum_bound cmax _ Hd). pose proof (map_size_delete k m) as Hsz.
  assert ((size (delete k m) ≤ size m)%nat) by (rewrite Hsz; destruct (m !! k); simpl; lia). unfold room in Hr. nia.
Qed.
End Agrees.

Section Reads.
Context {K V P Index : Type} {A HT : Type → Type}.
Context `{Countable K} `{!CachePolicy K P} `{!PolicyLaws K P} `{EqDecision Index} `{!Arena Index A} `{!ArenaLaws Index A}.
Context `{!HashTable HT} `{!HashTableLaws HT} `{!StoreHash K}.
Notation entry := (CacheEntry V Index).
Notation item := (K * entry)%type.
Notation shard_map := (ShardMap K V P Index A HT).
Implicit Types (sm : shard_map) (L : list item) (X : list entry) (k : K) (e : entry) (exact : Prop) (cmax : Z).

Lemma access_spec exact cmax (p : P) L k c :
  policy_agrees exact cmax p L → 0 ≤ c ≤ cmax → (exact → ∀ e, (k, e) ∈ L → cost e = c) → room cmax (S (length L)) →
  ∃ p', on_access k c p = Some p' ∧ policy_agrees exact cmax p' L.
Proof.
  intros [Hw Hm] Hc Hex Hr. destruct (access_law p k c Hw) as (p'&E&Hw'&Ht); [by eapply agrees_fits|].
  exists p'. split; [done|]. split; [done|]. destruct Ht as [->|[Hk ->]]; [done|]. destruct Hm as (H1&H2&H3). split; [|split].
  - intros j. rewrite <- H1. destruct (decide (j = k)) as [->|]; [|by rewrite lookup_insert_ne by done]. rewrite lookup_insert_eq. split; [done|by eexists].
  - by apply map_Forall_insert_2.
  - intros He. rewrite <- (H3 He). apply insert_id. apply H1 in Hk as ([k' e]&->&Hin)%list_elem_of_fmap. simpl in *.
    rewrite <- (Hex He e Hin). destruct (tracked p !! k') as [c'|] eqn:Ec.
    + f_equal. rewrite (H3 He) in Ec. apply elem_of_list_to_map_2 in Ec. apply list_elem_of_fmap in Ec as ([k2 e2]&[= -> ->]&Hin2). simpl.
      rewrite (Hex He e Hin). by apply (Hex He).
    + exfalso. assert (is_Some (tracked p !! k')) as [? ?]; [|congruence]. apply H1. apply list_elem_of_fmap. by exists (k', e).
Qed.

Lemma access_all_spec exact cmax rds (p : P) L :
  policy_agrees exact cmax p L →
  Forall (λ kc, 0 ≤ kc.2 ≤ cmax ∧ (exact → ∀ e, (kc.1, e) ∈ L → cost e = kc.2)) rds → room cmax (S (length L)) →
  ∃ p', access_all rds p = Some p' ∧ policy_agrees exact cmax p' L.
Proof.
  revert p. induction rds as [|[k c] rds IH]; intros p Hp Hall Hr; simpl; [eauto|]. apply Forall_cons in Hall as [[Hc Hex] Hall]. simpl in Hc, Hex.
  destruct (access_spec exact cmax p L k c Hp Hc Hex Hr) as (p1&->&Hp1). simpl. by apply IH.
Qed.

(** What the application of reads leaves alone. *)
Record quiet sm sm' : Prop := {
  q_table : table sm' = table sm;
  q_cost : sm_cost sm' = sm_cost sm;
  q_budget : budget sm' = budget sm;
  q_ctx : ctx sm' = ctx sm;
  q_victims : victims sm' = victims sm;
  q_local : local sm' = local sm;
  q_wheel : wheel sm' = wheel sm;
  q_told : notified sm' = notified sm;
  q_kind : is_Some (sm_builtin sm') ↔ is_Some (sm_builtin sm);
}.

Lemma quiet_refl sm : quiet sm sm.
Proof. by split. Qed.

Lemma body_quiet cmax sm sm' L X : quiet sm sm' → body cmax sm L X → body cmax sm' L X.
Proof. intros [] []. split; rewrite ?q_table0, ?q_cost0, ?q_ctx0, ?q_wheel0; done. Qed.

(** Reads change neither which keys or nodes the policy follows nor, if it is exact,
    their costs; the log is empty after. *)
Lemma apply_reads_spec exact cmax sm L :
  policy_ok exact cmax sm L → room cmax (S (length L)) →
  ∃ sm', apply_reads sm = Some sm' ∧ policy_ok exact cmax sm' L ∧ quiet sm sm' ∧
    (sm_builtin sm = None → ReadLog.logged (sm_reads sm') []).
Proof.
  unfold policy_ok, apply_reads. intros Hp Hr. destruct (sm_builtin sm) as [b|] eqn:Eb.
  - destruct Hp as (Hw&Hnd&Hn&Hl). destruct (sp_apply_reads_law b (ring sm) Hw) as (r&b'&->&Hw'&Hn'&_). cbn [mbind option_bind].
    eexists. split; [done|]. split; [cbn; split_and!; try done; by rewrite Hn'|]. split; [|done]. split; done.
  - destruct Hp as [Hp (rds&Hlg&Hall)]. destruct (ReadLog.logged_drain _ _ Hlg) as (lg&->&Hlg'). cbn [mbind option_bind].
    destruct (access_all_spec exact cmax rds (policy sm) L Hp Hall Hr) as (p'&->&Hp'). cbn [mbind option_bind].
    eexists. split; [done|]. cbn [sm_builtin with_policy with_reads policy sm_reads]. rewrite Eb. split; [split; [done|]|].
    + exists []. split; [done|constructor].
    + by split.
Qed.
End Reads.

Section Insert.
Context {K V P Index : Type} {A HT : Type → Type}.
Context `{Countable K} `{!CachePolicy K P} `{!PolicyLaws K P} `{EqDecision Index} `{!Arena Index A} `{!ArenaLaws Index A}.
Context `{!HashTable HT} `{!HashTableLaws HT} `{!StoreHash K}.
Notation entry := (CacheEntry V Index).
Notation item := (K * entry)%type.
Notation shard_map := (ShardMap K V P Index A HT).
Implicit Types (sm : shard_map) (L : list item) (X : list entry) (k : K) (e : entry) (exact : Prop) (cmax : Z).

(** What a call leaves alone outside its entries and its policy. *)
Record effects sm sm' (ev : list item) : Prop := {
  ef_budget : budget sm' = budget sm;
  ef_ctx : ctx sm' = ctx sm;
  ef_victims : victims sm' = victims sm;
  ef_local : local sm' = local sm;
  ef_len : Timer.wheel_len (wheel sm') = Timer.wheel_len (wheel sm);
  ef_told : notified sm' = notified sm ++ (if notify (ctx sm) then (λ ke, (ke.1, value ke.2)) <$> ev else []);
  ef_kind : is_Some (sm_builtin sm') ↔ is_Some (sm_builtin sm);
}.

Lemma effects_evicts sm sm' ev : evicts sm sm' ev → effects sm sm' ev.
Proof. intros [Hp Hr Hb Hri Hbu Hc Hv Hl Hw Ht]. split; try done. by rewrite Hb. Qed.

Lemma effects_quiet sm sm' : quiet sm sm' → effects sm sm' [].
Proof. intros [Ht Hc Hb Hx Hv Hl Hw Hn Hk]. split; try done; [by rewrite Hw|]. rewrite Hn. destruct (notify _); by rewrite app_nil_r. Qed.

Lemma effects_trans sm1 sm2 sm3 ev1 ev2 : effects sm1 sm2 ev1 → effects sm2 sm3 ev2 → effects sm1 sm3 (ev1 ++ ev2).
Proof.
  intros [] []. split; try congruence; [|by etrans]. rewrite ef_told1, ef_told0, ef_ctx0, fmap_app, <- app_assoc. by destruct (notify (ctx sm1)).
Qed.

Lemma effects_policy sm p : effects sm (with_policy p sm) [].
Proof. split; try done. cbn. destruct (notify _); by rewrite app_nil_r. Qed.

(** The entry goes in, the one its key had is in flight, and the cost follows. *)
Lemma put_body cmax sm L k e :
  body cmax sm L [e] → key_hash e = hash_key k → item_ok cmax (k, e) → room cmax (S (S (length L))) →
  ∃ old rest sm1, put k e (hash_key k) sm = (old, sm1) ∧ old = (list_to_map L : gmap K entry) !! k ∧
    L ≡ₚ ((λ o, (k, o)) <$> option_list old) ++ rest ∧ k ∉ rest.*1 ∧
    body cmax (replace_cost old (cost e) sm1) ((k, e) :: rest) (option_list old) ∧
    evicts sm (replace_cost old (cost e) sm1) [].
Proof.
  intros Hb He Hit Hr. destruct (put_spec sm L k e (b_table _ _ _ _ Hb) He) as (old&t&->&Hold&rest&Ht&HL).
  exists old, rest, (with_table t sm). split; [done|]. split; [done|]. split; [done|].
  split; [by apply th_nodup, NoDup_cons in Ht as [? _]|].
  pose proof (body_cost_bound _ _ _ _ Hb) as [_ Hcb]. destruct Hb as [_ Hits Hr0 Hc0 Hcost Hw Hg].
  pose proof Hit as [Hc _]. simpl in Hc. rewrite (kcosts_perm _ _ HL) in *. rewrite HL in Hits. apply Forall_app in Hits as [Hito Hitr].
  pose proof (kcosts_bound _ _ Hitr) as Hkb.
  assert (Esum : costs (kcosts (((λ o, (k, o)) <$> option_list old) ++ rest)) = match old with Some o => cost o | None => 0 end + costs (kcosts rest))
    by (by destruct old). rewrite Esum in Hcost, Hcb.
  assert (Ecost : sm_cost (replace_cost old (cost e) (with_table t sm)) = cost e + costs (kcosts rest)).
  { unfold replace_cost. destruct old as [o|]; cbn [sm_cost with_cost with_table]; rewrite Hcost; simpl in Hito |- *.
    - apply Forall_cons in Hito as [[Ho _] _]. simpl in Ho. rewrite u64_sub_small, u64_add_small; lia.
    - rewrite u64_add_small; lia. }
  split.
  - split.
    + by destruct old.
    + by constructor.
    + cbn [length]. unfold room in *. apply Permutation_length in HL. rewrite length_app, length_fmap in HL. cbn in HL |- *. nia.
    + done.
    + by rewrite Ecost.
    + assert (Hwp : wheel_owns (grace_ns (ctx sm)) (wheel sm) (((k, e) :: rest).*2 ++ option_list old) []).
      { eapply wheel_owns_perm; [|done|exact Hw]. rewrite HL, fmap_app, fmap_cons. destruct old as [o|]; cbn [option_list fmap list_fmap app].
        - change ((o :: rest.*2) ++ [e] ≡ₚ (e :: rest.*2) ++ [o]). rewrite <- !Permutation_cons_append. apply Permutation_swap.
        - by rewrite app_nil_r, <- Permutation_cons_append. }
      by destruct old.
    + by destruct old.
  - destruct old; split; try done; cbn; destruct (notify _); by rewrite app_nil_r.
Qed.

(** The eviction down to the budget: nothing if the cost is within it. *)
Lemma evict_policy_spec exact cmax sm L X ef :
  body cmax sm L X → policy_agrees exact cmax (policy sm) L → is_u64 ef.1 → 0 ≤ budget sm →
  ∃ f sm' ev L',
    (if budget sm <? sm_cost sm then
       '(vs, _, p) ← evict (sm_cost sm -w budget sm) (policy sm); take_keys vs ef (with_policy p sm)
     else Some (ef, sm)) = Some ((ef.1 +w Z.of_nat (length ev), f), sm') ∧
    L ≡ₚ ev ++ L' ∧ body cmax sm' L' X ∧ policy_agrees exact cmax (policy sm') L' ∧ effects sm sm' ev ∧
    sm_reads sm' = sm_reads sm ∧ (exact → EvictsEnough K P → sm_cost sm' ≤ budget sm).
Proof.
  intros Hb Hp Hef Hbud. pose proof (body_cost_bound _ _ _ _ Hb) as [Hcb _]. destruct (Z.ltb_spec (budget sm) (sm_cost sm)) as [Hlt|Hle].
  - rewrite u64_sub_small by lia. destruct Hp as [Hpw Hm]. destruct (evict_law (policy sm) (sm_cost sm - budget sm) Hpw) as (vs&f0&p&E&Hpw'&Hev); [lia|].
    rewrite E. cbn [mbind option_bind]. pose proof Hev as (Hnd&Hin&Htr&Hf0).
    destruct (take_keys_spec cmax vs ef (with_policy p sm) L X (body_with_policy _ _ _ _ _ Hb) Hnd) as (f&sm'&ev&L'&Et&Hvs&HL&Hb'&Hev').
    { intros v Hv. apply Hm. by apply Hin. } { done. }
    exists f, sm', ev, L'. rewrite Et, <- Hvs, length_fmap. split; [done|]. split; [done|]. split; [done|].
    assert (Hm' : map_agrees exact cmax (tracked p) L').
    { rewrite Htr, <- Hvs. eapply map_agrees_without; [apply (th_nodup _ _ (b_table _ _ _ _ Hb))|done|done]. }
    split; [rewrite (ev_policy _ _ _ Hev'); by split|]. split; [by apply (effects_trans _ (with_policy p sm) _ [] ev); [apply effects_policy|apply effects_evicts]|].
    split; [by rewrite (ev_reads _ _ _ Hev')|]. intros Hex Hen. assert (Hn : 0 ≤ sm_cost sm - budget sm) by lia.
    pose proof (evicts_enough _ _ _ _ _ Hpw Hn E) as Henough.
    destruct Hm as (_&_&Hm). destruct Hm' as (_&_&Hm'). rewrite (Hm Hex) in Hf0. rewrite (Hm' Hex) in Hf0, Henough.
    pose proof (th_nodup _ _ (b_table _ _ _ _ Hb)) as Hnd1. pose proof (th_nodup _ _ (b_table _ _ _ _ Hb')) as Hnd2.
    rewrite !msum_list in Hf0 by (by rewrite kcosts_keys). rewrite (b_cost _ _ _ _ Hb) in Henough.
    rewrite (b_cost _ _ _ _ Hb'). destruct Henough as [?|E0%list_to_map_empty_inv]; [lia|]. rewrite E0, costs_nil. lia.
  - exists ef.2, sm, [], L. split; [|split; [done|split; [done|split; [done|split; [by apply effects_quiet, quiet_refl|split; [done|lia]]]]]].
    destruct ef as [a b]. simpl in *. do 3 f_equal. unfold u64_add. rewrite Z.add_0_r, Z.mod_small; [done|u64_lia].
Qed.

(** The counters after [n] evictions. *)
Definition counted (n : nat) sm : ShardCounters := local (count_evicted (0 +w Z.of_nat n) sm).

Lemma insert_policy_spec exact cmax sm L k e :
  (exact → ExactCosts K P) → body cmax sm L [e] → sm_builtin sm = None → policy_ok exact cmax sm L →
  key_hash e = hash_key k → item_ok cmax (k, e) → room cmax (S (S (length L))) → 0 ≤ budget sm →
  ∃ old rest ev L' sm', insert_policy k e (hash_key k) sm = Some (old, sm') ∧ old = (list_to_map L : gmap K entry) !! k ∧
    L ≡ₚ ((λ o, (k, o)) <$> option_list old) ++ rest ∧ k ∉ rest.*1 ∧ (k, e) :: rest ≡ₚ ev ++ L' ∧
    body cmax sm' L' (option_list old) ∧ policy_ok exact cmax sm' L' ∧
    effects sm (with_local (local sm) sm') ev ∧ local sm' = counted (length ev) sm ∧
    (exact → EvictsEnough K P → sm_cost sm' ≤ budget sm).
Proof.
  intros Hexc Hb Hbn Hpok Hk Hit Hr Hbud. unfold insert_policy.
  destruct (apply_reads_spec exact cmax sm L Hpok (b_room _ _ _ _ Hb)) as (sm1&->&Hpok1&Hq&Hlg). specialize (Hlg Hbn). cbn [mbind option_bind].
  assert (Hbn1 : sm_builtin sm1 = None).
  { apply eq_None_not_Some. rewrite (q_kind _ _ Hq), Hbn. by intros [? ?]. }
  unfold policy_ok in Hpok1. rewrite Hbn1 in Hpok1. destruct Hpok1 as [[Hpw Hm] _].
  assert (Hfit : cost_fits (tracked (policy sm1)) k (cost e)) by (eapply agrees_fits; [done|apply Hit|apply Hb]).
  destruct (admit_law (policy sm1) k (cost e) Hpw Hfit) as (d&p2&c'&Ead&Hpw2&Hnd&Hvin&Hc'&Htr2). rewrite Ead. cbn [mbind option_bind].
  assert (Hc'b : 0 ≤ c' ≤ cmax) by (destruct Hc' as [->|Hc']; [apply Hit|]; destruct Hm as (_&Hmb&_); by apply (Hmb k)).
  destruct (put_body cmax (with_policy p2 sm1) L k e) as (old&rest&sm2&Eput&Hold&HL&Hkr&Hb3&Hev3);
    [by apply body_with_policy, (body_quiet _ sm)|done|done|done|]. rewrite Eput. set (sm3 := replace_cost old (cost e) sm2) in *.
  replace (match d with AdmitAndEvict vs => take_admission_victims vs (0, 0) sm3 | _ => Some ((0, 0), sm3) end)
    with (take_admission_victims (decision_victims d) (0, 0) sm3) by (by destruct d).
  pose proof (th_nodup _ _ (b_table _ _ _ _ Hb)) as HndL.
  assert (Hm3 : map_agrees False cmax (<[k:=c']> (tracked (policy sm1))) ((k, e) :: rest)).
  { eapply map_agrees_put; [done..|]. destruct Hm as (?&?&_). by split_and!. }
  assert (Hpol3 : policy sm3 = p2) by (by rewrite (ev_policy _ _ _ Hev3)).
  destruct (take_admission_victims_spec cmax (decision_victims d) (0, 0) sm3 _ _ Hb3 Hnd) as (f1&sm4&ev1&L3&p3&->&Hvs1&HL3&Hb4&[Hpw3 Htr3]&Hev4).
  { intros v Hv. apply Hm3. by apply Hvin. } { simpl. u64_lia. } { by rewrite Hpol3. }
  { intros v Hv. rewrite Hpol3, Htr2, lookup_without. by rewrite decide_True by done. }
  cbn [mbind option_bind fst]. rewrite Hpol3 in Htr3.
  assert (Hp4 : policy_agrees exact cmax (policy sm4) L3).
  { rewrite (ev_policy _ _ _ Hev4). cbn [policy with_policy]. split; [done|]. rewrite Htr3. pose proof (th_nodup _ _ (b_table _ _ _ _ Hb3)) as Hnd3.
    rewrite <- Hvs1 in Htr2. rewrite Htr2. destruct (map_agrees_without _ _ _ _ _ _ Hnd3 HL3 Hm3) as (?&?&_). split; [done|]. split; [done|].
    intros Hex. rewrite <- Htr2. specialize (Hexc Hex). rewrite (exact_costs _ _ _ _ _ Hpw Hfit Ead), <- Hvs1.
    eapply (map_agrees_without exact cmax); [exact Hnd3|exact HL3| |done]. eapply map_agrees_put; [done|done|done|apply Hit|done|done]. }
  assert (Hef4 : effects sm sm4 ev1).
  { apply (effects_trans _ (with_policy p3 sm3) _ [] ev1); [|by apply effects_evicts].
    apply (effects_trans _ sm3 _ [] []); [|apply effects_policy]. apply (effects_trans _ (with_policy p2 sm1) _ [] []); [|by apply effects_evicts].
    apply (effects_trans _ sm1 _ [] []); [by apply effects_quiet|apply effects_policy]. }
  destruct (evict_policy_spec exact cmax sm4 L3 (option_list old) (0 +w Z.of_nat (length (decision_victims d)), f1) Hb4 Hp4)
    as (f2&sm5&ev2&L5&->&HL5&Hb5&Hp5&Hef5&Hrd5&Hcap); [apply u64_add_range|by rewrite (ef_budget _ _ _ Hef4)|]. cbn [mbind option_bind fst].
  pose proof (effects_trans _ _ _ _ _ Hef4 Hef5) as Hef.
  exists old, rest, (ev1 ++ ev2), L5. eexists. split; [done|]. split; [done|]. split; [done|]. split; [done|].
  split; [by rewrite HL3, HL5, app_assoc|].
  assert (Ecnt : 0 +w Z.of_nat (length (decision_victims d)) +w Z.of_nat (length ev2) = 0 +w Z.of_nat (length (ev1 ++ ev2))).
  { rewrite length_app, <- Hvs1, length_fmap. unfold u64_add. rewrite Zplus_mod_idemp_l. f_equal. lia. }
  rewrite Ecnt. clear Ecnt. unfold counted, count_evicted. rewrite <- (ef_local _ _ _ Hef). set (n := 0 +w _).
  assert (Hlg5 : ReadLog.logged (sm_reads sm5) []).
  { rewrite Hrd5, (ev_reads _ _ _ Hev4). cbn [sm_reads with_policy]. by rewrite (ev_reads _ _ _ Hev3). }
  assert (Hbn5 : sm_builtin sm5 = None).
  { apply eq_None_not_Some. rewrite (ef_kind _ _ _ Hef), Hbn. by intros [? ?]. }
  assert (Hpok5 : policy_agrees exact cmax (policy sm5) L5 ∧ reads_ok exact cmax (sm_reads sm5) L5) by (split; [done|]; exists []; split; [done|constructor]).
  rewrite <- (ef_budget _ _ _ Hef4). destruct Hb5, Hef. destruct (0 <? n); unfold policy_ok; cbn [with_local sm_builtin policy sm_reads local]; rewrite Hbn5;
    (split; [by split|]); (split; [done|]); (split; [by split|]); by split.
Qed.
End Insert.
