(* ===== verification/ShardBuiltin.v ===== *)
(** * Inserts through a built-in policy ([ShardMap::insert_builtin])

    The policy's nodes are those of the table's entries, so the victims it names by
    hash and node are found, and no key is needed. *)

From S2P Require Import Prelude Arena Policy Slab Nodes ReadRing ShardPolicy HS3Fifo Builtin.
From S2P Require Timer ReadLog.
From S2P Require Import Entry HashTable Store ShardTable ShardTimers ShardInv ShardInsert.

Section Nodes.
Context {K V Index : Type} `{Countable K}.
Notation entry := (CacheEntry V Index).
Notation item := (K * entry)%type.
Implicit Types (L : list item) (k : K) (e : entry).

Definition node_map L : gmap Z (Z * Z) := list_to_map (knodes L).

Lemma knodes_ids L : (knodes L).*1 = node <$> L.*2.
Proof. unfold knodes. by rewrite <- !list_fmap_compose. Qed.

Lemma node_map_perm L L' : NoDup (node <$> L.*2) → L ≡ₚ L' → node_map L = node_map L'.
Proof. intros Hnd Hp. apply list_to_map_proper; [by rewrite knodes_ids|]. unfold knodes. by rewrite Hp. Qed.

Lemma node_map_cons k e L : node_map ((k, e) :: L) = <[node e := (key_hash e, cost e)]> (node_map L).
Proof. done. Qed.

Lemma node_map_None L n : n ∉ node <$> L.*2 → node_map L !! n = None.
Proof. intros Hn. apply not_elem_of_list_to_map_1. by rewrite knodes_ids. Qed.

Lemma node_sum_map L : NoDup (node <$> L.*2) → node_sum (node_map L) = costs (kcosts L).
Proof.
  induction L as [|[k e] L IH]; [done|]. intros Hnd. cbn [fmap list_fmap] in Hnd. apply NoDup_cons in Hnd as [Hn Hnd].
  rewrite node_map_cons, kcosts_cons, node_sum_insert_fresh by (by apply node_map_None). by rewrite IH.
Qed.

Lemma node_map_size L : NoDup (node <$> L.*2) → size (node_map L) = length L.
Proof.
  induction L as [|[k e] L IH]; [done|]. intros Hnd. cbn [fmap list_fmap] in Hnd. apply NoDup_cons in Hnd as [Hn Hnd].
  rewrite node_map_cons, map_size_insert_None by (by apply node_map_None). by rewrite IH.
Qed.

(** A node of the map is an entry of the list. *)
Lemma node_map_Some L n h c :
  node_map L !! n = Some (h, c) → ∃ k e, (k, e) ∈ L ∧ node e = n ∧ key_hash e = h ∧ cost e = c.
Proof.
  intros Hn. apply elem_of_list_to_map_2 in Hn. apply list_elem_of_fmap in Hn as ([k e]&[= -> -> ->]&?). eauto 6.
Qed.

Lemma same_node L k1 e1 k2 e2 : NoDup (node <$> L.*2) → (k1, e1) ∈ L → (k2, e2) ∈ L → node e1 = node e2 → (k1, e1) = (k2, e2).
Proof.
  intros Hnd [i Hi]%list_elem_of_lookup [j Hj]%list_elem_of_lookup E. rewrite <- list_fmap_compose in Hnd.
  assert (i = j) as ->; [|congruence]. eapply NoDup_lookup; [exact Hnd| |]; rewrite list_lookup_fmap; [by rewrite Hi|rewrite Hj; simpl; by rewrite E].
Qed.
End Nodes.

Section Owns.
Context {V Index : Type} {A : Type → Type} `{ArenaLaws Index A}.
Implicit Types (w : Timer.TimerWheel Index A) (e : CacheEntry V Index).

(** The node of an entry is no concern of its timer. *)
Lemma owns_set_node grace w n e es late : wheel_owns grace w (e :: es) late → wheel_owns grace w (set_node n e :: es) late.
Proof. intros [H1 H2 H3 H4 H5]. apply Forall_cons in H3 as [? ?]. split; try done. by constructor. Qed.
End Owns.

Section Builtin.
Context {K V P Index : Type} {A HT : Type → Type}.
Context `{Countable K} `{!CachePolicy K P} `{!PolicyLaws K P} `{EqDecision Index} `{!Arena Index A} `{!ArenaLaws Index A}.
Context `{!HashTable HT} `{!HashTableLaws HT} `{!StoreHash K}.
Notation entry := (CacheEntry V Index).
Notation item := (K * entry)%type.
Notation shard_map := (ShardMap K V P Index A HT).
Implicit Types (sm : shard_map) (L : list item) (X : list entry) (k : K) (e : entry) (cmax : Z) (b : Builtin).

Lemma take_victim_found cmax sm L X h n :
  body cmax sm L X → NoDup (node <$> L.*2) → (∃ c, node_map L !! n = Some (h, c)) →
  ∃ k e t L', ht_take h (λ ke, node ke.2 =? n) (table sm) = Some ((k, e), t) ∧ node e = n ∧ L ≡ₚ (k, e) :: L' ∧ table_holds t L'.
Proof.
  intros Hb Hnd [c (k&e&Hin&En&Eh&_)%node_map_Some].
  pose proof (take_any (table sm) L h (λ ke, node ke.2 =? n) (b_table _ _ _ _ Hb)) as Ht. destruct (ht_take _ _ _) as [[[k' e'] t]|].
  - destruct Ht as [Hn%Z.eqb_eq (L'&HL&Ht)]. by exists k', e', t, L'.
  - pose proof (th_hash _ _ (b_table _ _ _ _ Hb)) as Hh. eapply Forall_forall in Hh; [|exact Hin]. simpl in Hh.
    specialize (Ht _ Hin). simpl in Ht. rewrite En, Z.eqb_refl in Ht. symmetry in Eh. rewrite Hh in Eh. by discriminate (Ht (eq_sym Eh)).
Qed.

Lemma take_victims_spec cmax out ef sm L X :
  body cmax sm L X → NoDup (node <$> L.*2) → victims_ok (node_map L) out → is_u64 ef.1 →
  ∃ f sm' ev L', take_victims out ef sm = Some ((ef.1 +w Z.of_nat (length ev), f), sm') ∧ L ≡ₚ ev ++ L' ∧
    body cmax sm' L' X ∧ evicts sm sm' ev ∧ NoDup (node <$> L'.*2) ∧ node_map L' = drop_nodes out (node_map L).
Proof.
  revert ef sm L. induction out as [|[h n] out IH]; intros ef sm L Hb Hnd Hv Hef; cbn [take_victims].
  - exists ef.2, sm, [], L. split; [|split; [done|split; [done|split; [apply evicts_refl|done]]]].
    destruct ef as [a b]. simpl in *. do 3 f_equal. unfold u64_add. rewrite Z.add_0_r, Z.mod_small; [done|u64_lia].
  - destruct Hv as [Hnv Hall]. apply Forall_cons in Hall as [Hv Hall]. apply NoDup_cons in Hnv as [Hn Hnv]. cbn [fst snd] in *.
    destruct (take_victim_found cmax sm L X h n Hb Hnd Hv) as (k&e&t&L1&Et&En&HL1&Ht).
    unfold take_victim. cbn [fst snd]. rewrite Et. destruct (evict_step cmax sm L L1 X k e t ef Hb HL1 Ht) as (sm1&sm2&->&Ea&Hb2&Hev). cbn [mbind option_bind].
    rewrite Ea. assert (Hnd1 : NoDup (node <$> ((k, e) :: L1).*2)) by (by rewrite <- HL1).
    assert (Em : node_map L1 = delete n (node_map L)).
    { rewrite (node_map_perm L _ Hnd HL1), node_map_cons, En. cbn [fmap list_fmap] in Hnd1. apply NoDup_cons in Hnd1 as [Hn1 _]. simpl in Hn1.
      rewrite delete_insert_id; [done|]. apply node_map_None. by rewrite <- En. }
    cbn [fmap list_fmap] in Hnd1. apply NoDup_cons in Hnd1 as [_ Hnd1].
    destruct (IH (ef.1 +w 1, ef.2 +w cost e) sm2 L1 Hb2 Hnd1) as (f&sm'&ev&L'&->&HL'&Hb'&Hev'&Hnd'&Em').
    { split; [done|]. apply Forall_forall. intros v Hv'. eapply Forall_forall in Hall as [c Hc]; [|exact Hv']. exists c. rewrite Em, lookup_delete_ne; [done|].
      intros E. apply Hn. apply list_elem_of_fmap. by exists v. }
    { apply u64_add_range. }
    exists f, sm', ((k, e) :: ev), L'. split.
    + do 3 f_equal. cbn [fst length]. unfold u64_add. rewrite Zplus_mod_idemp_l. f_equal. lia.
    + split; [by rewrite HL1, HL'|]. split; [done|]. split; [by apply (evicts_trans sm sm2 sm' [(k, e)])|]. split; [done|]. by rewrite Em', Em.
Qed.

(** The nodes a victim list leaves are those of the entries it leaves. *)
Lemma body_with_builtin cmax sm L X b : body cmax sm L X → body cmax (with_builtin b sm) L X.
Proof. intros []. by split. Qed.

(** The entry [e], which a fresh or the old node is given, goes in. *)
Lemma builtin_put_spec cmax sm L k e b :
  body cmax sm L [e] → builtin_agrees b L → key_hash e = hash_key k → item_ok cmax (k, e) →
  room cmax (S (S (length L))) → Z.of_nat (S (length L)) < NIL →
  ∃ old out rest n sm1 b', builtin_put k e (hash_key k) b sm = Some (old, out, with_builtin b' sm1) ∧
    old = (list_to_map L : gmap K entry) !! k ∧ L ≡ₚ ((λ o, (k, o)) <$> option_list old) ++ rest ∧ k ∉ rest.*1 ∧
    body cmax (replace_cost old (cost e) sm1) ((k, set_node n e) :: rest) (option_list old) ∧ evicts sm (replace_cost old (cost e) sm1) [] ∧
    shard_wf b' ∧ NoDup (node <$> ((k, set_node n e) :: rest).*2) ∧ victims_ok (node_map ((k, set_node n e) :: rest)) out ∧
    nodes b' = drop_nodes out (node_map ((k, set_node n e) :: rest)).
Proof.
  intros Hb (Hw&Hnd&Hn&Hlen) Hk Hit Hr Hl. change (list_to_map (knodes L)) with (node_map L) in Hn.
  assert (Hbn : ∀ n, body cmax sm L [set_node n e]).
  { intros n. destruct Hb as [B1 B2 B3 B4 B5 B6 B7]. split; try done. eapply wheel_owns_perm; [apply Permutation_cons_append|done|].
    apply owns_set_node. eapply wheel_owns_perm; [symmetry; apply Permutation_cons_append|done|done]. }
  pose proof (body_cost_bound _ _ _ _ Hb) as [_ Hcb]. pose proof Hit as [Hce _]. simpl in Hce.
  pose proof (find_mut_any (table sm) L (hash_key k) (λ ke, bool_decide (ke.1 = k)) (b_table _ _ _ _ Hb)) as Hm.
  unfold builtin_put. destruct (ht_find_mut (hash_key k) _ (table sm)) as [[[kk o] write]|] eqn:Ef.
  - destruct Hm as (Hkk%bool_decide_eq_true&L'&HL&_). simpl in Hkk. subst kk.
    destruct (put_body cmax sm L k (set_node (node o) e) (Hbn _) Hk Hit Hr) as (old&rest&sm1&Eput&Hold&HLr&Hkr&Hb1&Hev1).
    unfold put in Eput. rewrite Ef in Eput. injection Eput as <- <-. change (L ≡ₚ (k, o) :: rest) in HLr.
    assert (HndL : NoDup (node <$> ((k, o) :: rest).*2)) by (by rewrite <- HLr). cbn [fmap list_fmap] in HndL. apply NoDup_cons in HndL as [Hno Hndr].
    assert (Eno : nodes b !! node o = Some (key_hash o, cost o)).
    { rewrite Hn, (node_map_perm L _ Hnd HLr), node_map_cons. by rewrite lookup_insert_eq. }
    assert (Eho : key_hash o = key_hash e).
    { rewrite Hk. pose proof (th_hash _ _ (b_table _ _ _ _ Hb)) as Hh. rewrite HLr in Hh. by apply Forall_cons in Hh as [? _]. }
    assert (Eko : costs (kcosts L) = cost o + costs (kcosts rest)) by (rewrite (kcosts_perm _ _ HLr); apply kcosts_cons).
    pose proof (b_items _ _ _ _ Hb) as Hits. rewrite HLr in Hits. apply Forall_cons in Hits as [[Hco _] Hitr]. simpl in Hco. pose proof (kcosts_bound _ _ Hitr).
    destruct (sp_update_law b (node o) (key_hash o) (cost o) (cost e) Hw Eno) as (b'&Eu&Hw'&Hn'); [lia|rewrite Hn, node_sum_map by done; lia|].
    cbn [cost set_node]. rewrite Eu. cbn [mbind option_bind]. exists (Some o), [], rest, (node o), (with_table (write (k, set_node (node o) e)) sm), b'. split; [done|]. split; [done|]. split; [done|].
    split; [done|]. split; [done|]. split; [done|]. split; [done|]. split; [cbn [fmap list_fmap]; by constructor|]. split; [apply victims_ok_nil|].
    rewrite Hn', Hn, (node_map_perm L _ Hnd HLr), !node_map_cons, insert_insert_eq. cbn [set_node node key_hash cost]. by rewrite Eho.
  - destruct (sp_admit_law b (hash_key k) (cost e) Hw) as (n&out&b'&Ead&Hw'&_&Hfr&Hv&Hn');
      [lia|rewrite Hn, node_sum_map by done; lia|rewrite Hn, node_map_size by done; lia|].
    rewrite Ead. cbn [mbind option_bind].
    destruct (put_body cmax sm L k (set_node n e) (Hbn _) Hk Hit Hr) as (old&rest&sm1&Eput&Hold&HLr&Hkr&Hb1&Hev1).
    unfold put in Eput. rewrite Ef in Eput. injection Eput as <- <-. change (L ≡ₚ rest) in HLr.
    assert (Hndr : NoDup (node <$> rest.*2)) by (by rewrite <- HLr).
    assert (Em : <[n:=(hash_key k, cost e)]> (nodes b) = node_map ((k, set_node n e) :: rest)).
    { rewrite node_map_cons, Hn, (node_map_perm L _ Hnd HLr). cbn [set_node node key_hash cost]. by rewrite Hk. }
    rewrite Em in Hv, Hn'. eexists None, out, rest, n, _, b'. split; [done|]. split; [done|]. split; [done|]. split; [done|]. split; [done|]. split; [done|].
    split; [done|]. split; [|done]. cbn [fmap list_fmap]. constructor; [|done]. simpl. intros Hin. rewrite Hn, (node_map_perm L _ Hnd HLr) in Hfr.
    apply not_elem_of_list_to_map_2 in Hfr. by rewrite knodes_ids in Hfr.
Qed.

Lemma effects_builtin sm b b' : sm_builtin sm = Some b → effects sm (with_builtin b' sm) [].
Proof. intros Eb. split; try done. cbn. destruct (notify _); by rewrite app_nil_r. Qed.

(** The built-in policy whose evictions are complete. *)
Definition is_s3 b : Prop := match b with B_S3Fifo _ => True | B_TinyLfu _ => False end.

Lemma s3_admit h c b n out b' : sp_admit h c b = Some (n, out, b') → is_s3 b → is_s3 b'.
Proof. destruct b as [p|p]; cbn [sp_admit builtin_policy]; [done|]. intros E _. by apply bind_Some in E as ([[n' o'] p']&_&[= _ _ <-]). Qed.

Lemma s3_update n c b b' : sp_update n c b = Some b' → is_s3 b → is_s3 b'.
Proof. destruct b as [p|p]; cbn [sp_update builtin_policy]; [done|]. intros E _. by apply fmap_Some in E as (p'&_&->). Qed.

Lemma s3_apply_reads r b r' b' : sp_apply_reads r b = Some (r', b') → is_s3 b → is_s3 b'.
Proof. destruct b as [p|p]; cbn [sp_apply_reads builtin_policy]; [done|]. intros E _. by apply bind_Some in E as ([r1 p']&_&[= _ <-]). Qed.

Lemma s3_put k e h b sm old out sm' :
  builtin_put k e h b sm = Some (old, out, sm') → is_s3 b → ∃ b', sm_builtin sm' = Some b' ∧ is_s3 b'.
Proof.
  unfold builtin_put. intros E Hs. destruct (ht_find_mut h _ (table sm)) as [[[kk o] write]|].
  - apply bind_Some in E as (b'&Eu&[= _ _ <-]). exists b'. split; [done|]. by eapply s3_update.
  - apply bind_Some in E as ([[n o'] b']&Ea&[= _ _ <-]). exists b'. split; [done|]. by eapply s3_admit.
Qed.

Lemma s3_evict_enough b c out b' :
  is_s3 b → shard_wf b → 0 ≤ c < U64 → sp_evict c b = Some (out, b') → c ≤ node_sum (nodes b) - node_sum (nodes b') ∨ nodes b' = ∅.
Proof.
  destruct b as [p|p]; [done|]. intros _ Hw Hc E. cbn [sp_evict builtin_policy] in E. apply bind_Some in E as ([o p']&E&[= <- <-]).
  apply (shard_evicts_enough p c o p'); [done|lia|lia|done].
Qed.

(** The eviction down to the budget. *)
Lemma evict_builtin_spec cmax sm L X ef b :
  body cmax sm L X → sm_builtin sm = Some b → builtin_agrees b L → is_u64 ef.1 → 0 ≤ budget sm →
  ∃ f sm' ev L' b',
    (if budget sm <? sm_cost sm then
       b ← sm_builtin sm; '(out, b) ← sp_evict (sm_cost sm -w budget sm) b; take_victims out ef (with_builtin b sm)
     else Some (ef, sm)) = Some ((ef.1 +w Z.of_nat (length ev), f), sm') ∧
    L ≡ₚ ev ++ L' ∧ body cmax sm' L' X ∧ sm_builtin sm' = Some b' ∧ builtin_agrees b' L' ∧ effects sm sm' ev ∧
    (is_s3 b → sm_cost sm' ≤ budget sm).
Proof.
  intros Hb Ebn (Hw&Hnd&Hn&Hlen) Hef Hbud. change (list_to_map (knodes L)) with (node_map L) in Hn.
  pose proof (body_cost_bound _ _ _ _ Hb) as [Hcb _]. destruct (Z.ltb_spec (budget sm) (sm_cost sm)) as [Hlt|Hle].
  - rewrite u64_sub_small, Ebn by lia. cbn [mbind option_bind].
    destruct (sp_evict_law b (sm_cost sm - budget sm) Hw) as (out&b'&E&Hw'&Hv&Hn'); [lia|lia|]. rewrite E. cbn [mbind option_bind].
    rewrite Hn in Hv, Hn'. destruct (take_victims_spec cmax out ef (with_builtin b' sm) L X (body_with_builtin _ _ _ _ _ Hb) Hnd Hv Hef)
      as (f&sm'&ev&L'&->&HL&Hb'&Hev&Hnd'&Em).
    exists f, sm', ev, L', b'. split; [done|]. split; [done|]. split; [done|]. split; [by rewrite (ev_builtin _ _ _ Hev)|].
    assert (Hlen' : (length L' ≤ length L)%nat) by (rewrite HL, length_app; lia).
    split; [split; [done|]; split; [done|]; split; [by rewrite Hn', <- Em|lia]|]. split.
    + apply (effects_trans _ (with_builtin b' sm) _ [] ev); [by eapply effects_builtin|by apply effects_evicts].
    + intros Hs. assert (Hc : 0 ≤ sm_cost sm - budget sm < U64) by lia. pose proof (s3_evict_enough b _ out b' Hs Hw Hc E) as Henough.
      rewrite Hn', <- Em, Hn, !node_sum_map in Henough by done. rewrite (b_cost _ _ _ _ Hb) in Henough. rewrite (b_cost _ _ _ _ Hb').
      destruct Henough as [?|E0]; [lia|]. assert (length L' = 0%nat) as ->%nil_length_inv by (by rewrite <- node_map_size, E0). simpl. lia.
  - exists ef.2, sm, [], L, b. split; [|split; [done|split; [done|split; [done|split; [done|split; [by apply effects_quiet, quiet_refl|lia]]]]]].
    destruct ef as [a c]. simpl in *. do 3 f_equal. unfold u64_add. rewrite Z.add_0_r, Z.mod_small; [done|u64_lia].
Qed.

Lemma replace_cost_builtin old c b sm : replace_cost old c (with_builtin b sm) = with_builtin b (replace_cost old c sm).
Proof. by destruct old. Qed.

Lemma insert_builtin_spec cmax sm L k e b :
  body cmax sm L [e] → sm_builtin sm = Some b → builtin_agrees b L → victims sm = [] →
  key_hash e = hash_key k → item_ok cmax (k, e) → room cmax (S (S (length L))) → Z.of_nat (S (length L)) < NIL → 0 ≤ budget sm →
  ∃ old rest n ev L' sm' b', insert_builtin k e (hash_key k) sm = Some (old, sm') ∧ old = (list_to_map L : gmap K entry) !! k ∧
    L ≡ₚ ((λ o, (k, o)) <$> option_list old) ++ rest ∧ k ∉ rest.*1 ∧ (k, set_node n e) :: rest ≡ₚ ev ++ L' ∧
    body cmax sm' L' (option_list old) ∧ sm_builtin sm' = Some b' ∧ builtin_agrees b' L' ∧
    effects sm (with_local (local sm) sm') ev ∧ local sm' = counted (length ev) sm ∧ (is_s3 b → sm_cost sm' ≤ budget sm).
Proof.
  intros Hb Ebn (Hw&Hnd&Hn&Hlen) Hvs Hk Hit Hr Hl Hbud. unfold insert_builtin. rewrite Ebn, Hvs. cbn [mbind option_bind].
  destruct (sp_apply_reads_law b (ring sm) Hw) as (r&b1&Er&Hw1&Hn1&_). rewrite Er. cbn [mbind option_bind].
  set (sm0 := with_ring r (with_victims [] sm)). assert (Hb0 : body cmax sm0 L [e]) by (by destruct Hb).
  assert (Hq0 : effects sm sm0 []) by (split; try done; cbn; destruct (notify _); by rewrite app_nil_r).
  destruct (builtin_put_spec cmax sm0 L k e b1 Hb0) as (old&out&rest&n&sm1&b2&Ep&Hold&HLr&Hkr&Hb1&Hev1&Hw2&Hnd2&Hv2&Hn2);
    [split; [done|]; split; [done|]; split; [by rewrite Hn1|done]|done..|].
  rewrite Ep. cbn [mbind option_bind]. rewrite replace_cost_builtin, app_nil_l. set (sm2 := replace_cost old (cost e) sm1) in *.
  set (L2 := (k, set_node n e) :: rest) in *. assert (Hb2 : body cmax (with_builtin b2 sm2) L2 (option_list old)) by (by apply body_with_builtin).
  destruct (take_victims_spec cmax out (0, 0) _ _ _ Hb2 Hnd2 Hv2) as (f1&sm3&ev1&L3&->&HL3&Hb3&Hev3&Hnd3&Hn3); [simpl; u64_lia|]. cbn [mbind option_bind fst].
  assert (Ebn3 : sm_builtin sm3 = Some b2) by (by rewrite (ev_builtin _ _ _ Hev3)).
  assert (Hlen3 : (length L3 ≤ S (length L))%nat).
  { apply Permutation_length in HL3, HLr. rewrite length_app in HL3, HLr. unfold L2 in HL3. cbn [length] in HL3. lia. }
  assert (Hb23 : builtin_agrees b2 L3) by (split; [done|]; split; [done|]; split; [by rewrite Hn2, <- Hn3|lia]).
  assert (Ebsm2 : sm_builtin sm2 = Some b) by (by rewrite (ev_builtin _ _ _ Hev1)).
  assert (Hef3 : effects sm sm3 ev1).
  { apply (effects_trans _ (with_builtin b2 sm2) _ [] ev1); [|by apply effects_evicts]. apply (effects_trans _ sm2 _ [] []); [|by eapply effects_builtin].
    apply (effects_trans _ sm0 _ [] []); [done|by apply effects_evicts]. }
  destruct (evict_builtin_spec cmax sm3 L3 (option_list old) (0 +w Z.of_nat (length ev1), f1) b2 Hb3 Ebn3 Hb23)
    as (f2&sm4&ev2&L4&b4&->&HL4&Hb4&Ebn4&Hag4&Hef4&Hcap); [apply u64_add_range|by rewrite (ef_budget _ _ _ Hef3)|]. cbn [mbind option_bind fst].
  pose proof (effects_trans _ _ _ _ _ Hef3 Hef4) as Hef.
  exists old, rest, n, (ev1 ++ ev2), L4. eexists _, b4. split; [done|]. split; [done|]. split; [done|]. split; [done|].
  split; [change (L2 ≡ₚ (ev1 ++ ev2) ++ L4); by rewrite HL3, HL4, app_assoc|].
  assert (Ecnt : 0 +w Z.of_nat (length ev1) +w Z.of_nat (length ev2) = 0 +w Z.of_nat (length (ev1 ++ ev2))).
  { rewrite length_app. unfold u64_add. rewrite Zplus_mod_idemp_l. f_equal. lia. }
  rewrite Ecnt. clear Ecnt. unfold counted, count_evicted. rewrite <- (ef_local _ _ _ Hef). set (m := 0 +w _).
  rewrite <- (ef_budget _ _ _ Hef3). assert (Hs3 : is_s3 b → is_s3 b2).
  { intros Hs. destruct (s3_put _ _ _ _ _ _ _ _ Ep) as (b'&E'&?); [by eapply s3_apply_reads|]. cbn in E'. congruence. }
  destruct Hb4, Hef. destruct (0 <? m); cbn [with_local with_victims sm_builtin local sm_cost budget];
    (split; [by split|]); (split; [done|]); (split; [done|]); (split; [split; try done; cbn; by rewrite Hvs|]); (split; [done|]); intros Hs; by apply Hcap, Hs3.
Qed.
End Builtin.
