(* ===== verification/Shard.v ===== *)
(** * A shard as a map with bounded cost: inserts, lookups, removals *)

From S2P Require Import Prelude Arena Policy Slab ReadRing ShardPolicy Builtin.
From S2P Require Timer ReadLog.
From S2P Require Import Entry HashTable Store ShardTable ShardTimers ShardInv ShardInsert ShardBuiltin.

Section Shard.
Context {K V P Index : Type} {A HT : Type → Type}.
Context `{Countable K} `{!CachePolicy K P} `{!PolicyLaws K P} `{EqDecision Index} `{!Arena Index A} `{!ArenaLaws Index A}.
Context `{!HashTable HT} `{!HashTableLaws HT} `{!StoreHash K}.
Notation entry := (CacheEntry V Index).
Notation item := (K * entry)%type.
Notation shard_map := (ShardMap K V P Index A HT).
Implicit Types (sm : shard_map) (L : list item) (X : list entry) (k : K) (e : entry) (exact : Prop) (cmax : Z).

(** The same value, cost and times. *)
Definition same_data e e' : Prop :=
  value e' = value e ∧ cost e' = cost e ∧ expires_at e' = expires_at e ∧ last_accessed e' = last_accessed e.

(** The clock reading fits the shard's wheel. *)
Definition clock_fits sm (now : Z) : Prop := Timer.clock_ok (wheel sm) now.

(** An entry as the constructors make it, with a cost and an expiry in range. *)
Definition fresh_entry cmax e : Prop :=
  ttl_timer_handle e = None ∧ 0 ≤ cost e ≤ cmax ∧ is_u64 (expires_at e).

(** There is room for another entry. *)
Definition has_room cmax sm L : Prop :=
  room cmax (S (S (length L))) ∧ (is_Some (sm_builtin sm) → Z.of_nat (S (length L)) < NIL).

Lemma arm_spec cmax sm L now k e :
  body cmax sm L [] → clock_fits sm now → fresh_entry cmax e →
  ∃ e1 sm1, arm now (hash_key k) e sm = Some (e1, sm1) ∧ body cmax sm1 L [e1] ∧ evicts sm sm1 [] ∧
    same_data e e1 ∧ key_hash e1 = hash_key k ∧ node e1 = node e ∧ sm_cost sm1 = sm_cost sm.
Proof.
  intros Hb Hn (Hh&_&He). destruct Hb as [B1 B2 B3 B4 B5 B6 B7]. rewrite app_nil_r in B6. unfold arm.
  assert (Hev : ∀ w, Timer.wheel_len w = Timer.wheel_len (wheel sm) → evicts sm (with_wheel w sm) [])
    by (intros w Hl; split; try done; cbn; destruct (notify _); by rewrite app_nil_r).
  cbn [expires_at set_hash]. destruct (Z.ltb_spec 0 (expires_at e)) as [Hpos|Hz].
  - destruct (owns_schedule (grace_ns (ctx sm)) now (hash_key k) (expires_at e) (wheel sm) L.*2 [] B6 Hn) as (i&w&->&Hl&_&Ho); [u64_lia|done|].
    cbn [mbind option_bind]. eexists _, _. split; [done|]. split; [|split; [by apply Hev|done]].
    split; try done. eapply wheel_owns_perm; [apply Permutation_cons_append|done|]. by apply Ho.
  - exists (set_hash (hash_key k) e), sm. split; [done|]. split; [|split; [|done]].
    + split; try done. eapply wheel_owns_perm; [apply Permutation_cons_append|done|]. destruct B6 as [O1 O2 O3 O4 O5]. split; try done.
      * unfold handles in *. cbn. by rewrite Hh.
      * constructor; [|done]. unfold entry_armed. cbn. rewrite Hh. u64_lia.
      * unfold handles in *. cbn. by rewrite Hh.
    + apply evicts_refl.
Qed.

(** The replaced entry's timer goes last. *)
Lemma disarm_old cmax sm L old :
  body cmax sm L (option_list old) →
  ∃ sm', match old with Some o => disarm o sm | None => Some sm end = Some sm' ∧ body cmax sm' L [] ∧ evicts sm sm' [] ∧
    sm_cost sm' = sm_cost sm ∧ table sm' = table sm.
Proof.
  intros Hb. destruct old as [o|]; [|exists sm; split; [done|]; split; [done|]; split; [apply evicts_refl|done]].
  destruct Hb as [B1 B2 B3 B4 B5 B6 B7]. simpl in B6. apply (wheel_owns_perm _ _ _ (o :: L.*2) _ []) in B6; [|symmetry; apply Permutation_cons_append|done].
  destruct (owns_disarm _ _ _ _ _ B6) as (w&E&Hw&Hl&_). unfold disarm, cancel_of in *. destruct (ttl_timer_handle o) as [h|].
  - rewrite E. cbn [mbind option_bind]. eexists. split; [done|]. split; [split; try done; by rewrite app_nil_r|]. split; [|done].
    split; try done. cbn. destruct (notify _); by rewrite app_nil_r.
  - injection E as <-. exists sm. split; [done|]. split; [split; try done; by rewrite app_nil_r|]. split; [apply evicts_refl|done].
Qed.

(** ** Insert *)

(** What an insert of [e] under [k] did: [old] was replaced by [e'], and the entries
    [ev] were evicted, the new one perhaps among them. *)
Record inserted sm k e (count : bool) (old : option entry) (ev : list item) sm' L' : Prop := {
  in_old : old = get k sm;
  in_entry : ∃ e', same_data e e' ∧ NoDup ev.*1 ∧
    (∀ j, get j sm' = if decide (j ∈ ev.*1) then None else if decide (j = k) then Some e' else get j sm) ∧
    Forall (λ ke, if decide (ke.1 = k) then ke.2 = e' else get ke.1 sm = Some ke.2) ev;
  in_cost : sm_cost sm' = costs (kcosts L');
  in_told : notified sm' = notified sm ++ (if notify (ctx sm) then (λ ke, (ke.1, value ke.2)) <$> ev else []);
  in_local : local sm' =
    let l := counted (length ev) sm in
    mk_counters (if count then inserts l +w 1 else inserts l) (if count then keys_admitted l +w 1 else keys_admitted l)
      (if count then total_cost_added l +w cost e else total_cost_added l) (evicted_by_capacity l)
      (cost_delta l +w (sm_cost sm' -w sm_cost sm));
  in_same : budget sm' = budget sm ∧ ctx sm' = ctx sm ∧ (is_Some (sm_builtin sm') ↔ is_Some (sm_builtin sm)) ∧
    Timer.wheel_len (wheel sm') = Timer.wheel_len (wheel sm);
}.

(** The map after the put and the evictions. *)
Lemma inserted_get L k e' old rest ev L' :
  NoDup L.*1 → L ≡ₚ ((λ o, (k, o)) <$> option_list old) ++ rest → k ∉ rest.*1 → (k, e') :: rest ≡ₚ ev ++ L' →
  let m : gmap K entry := list_to_map L in
  NoDup ev.*1 ∧ (∀ j, (list_to_map L' : gmap K entry) !! j = if decide (j ∈ ev.*1) then None else if decide (j = k) then Some e' else m !! j) ∧
  Forall (λ ke, if decide (ke.1 = k) then ke.2 = e' else m !! ke.1 = Some ke.2) ev.
Proof.
  intros Hnd HL Hk HL' m.
  assert (Hndr : NoDup ((k, e') :: rest).*1).
  { rewrite HL, fmap_app in Hnd. apply NoDup_app in Hnd as (_&_&?). by constructor. }
  assert (Hm : list_to_map ((k, e') :: rest) = <[k:=e']> m).
  { unfold m. rewrite (list_to_map_proper _ _ Hnd HL). destruct old; cbn; [by rewrite insert_insert_eq|done]. }
  assert (Hnd2 : NoDup (ev ++ L').*1) by (by rewrite <- HL').
  assert (Em : list_to_map (ev ++ L') = <[k:=e']> m) by (rewrite <- Hm; symmetry; by apply list_to_map_proper).
  pose proof Hnd2 as Hnd3. rewrite fmap_app in Hnd3. apply NoDup_app in Hnd3 as (Hnev&Hdis&HnL').
  split; [done|]. split.
  - intros j. assert (Ej : (<[k:=e']> m : gmap K entry) !! j = if decide (j = k) then Some e' else m !! j).
    { destruct (decide (j = k)) as [->|]; [by rewrite lookup_insert_eq|by rewrite lookup_insert_ne]. }
    destruct (decide (j ∈ ev.*1)) as [Hj|Hj]; [apply not_elem_of_list_to_map_1; by apply Hdis|].
    rewrite <- Ej, <- Em, list_to_map_app, lookup_union_r; [done|by apply not_elem_of_list_to_map_1].
  - apply Forall_forall. intros [j x] Hin. assert (Hj : (list_to_map (ev ++ L') : gmap K entry) !! j = Some x).
    { apply elem_of_list_to_map_1; [done|]. apply elem_of_app. by left. }
    rewrite Em in Hj. cbn [fst snd]. destruct (decide (j = k)) as [->|]; [rewrite lookup_insert_eq in Hj; congruence|by rewrite lookup_insert_ne in Hj].
Qed.

(** The stored entry may differ from [e] in its node only. *)
Lemma insert_any_spec exact cmax sm L k e :
  (exact → ExactCosts K P) → body cmax sm L [e] → policy_ok exact cmax sm L → victims sm = [] →
  key_hash e = hash_key k → item_ok cmax (k, e) → has_room cmax sm L → 0 ≤ budget sm →
  ∃ old rest n ev L' sm',
    (if bool_decide (is_Some (sm_builtin sm)) then insert_builtin k e (hash_key k) sm else insert_policy k e (hash_key k) sm) = Some (old, sm') ∧
    old = (list_to_map L : gmap K entry) !! k ∧
    L ≡ₚ ((λ o, (k, o)) <$> option_list old) ++ rest ∧ k ∉ rest.*1 ∧ (k, set_node n e) :: rest ≡ₚ ev ++ L' ∧
    body cmax sm' L' (option_list old) ∧ policy_ok exact cmax sm' L' ∧
    effects sm (with_local (local sm) sm') ev ∧ local sm' = counted (length ev) sm ∧
    (sm_builtin sm = None → exact → EvictsEnough K P → sm_cost sm' ≤ budget sm) ∧
    (∀ b, sm_builtin sm = Some b → is_s3 b → sm_cost sm' ≤ budget sm).
Proof.
  intros Hexc Hb Hp Hv Hk Hit [Hr Hl] Hbud. destruct (sm_builtin sm) as [b|] eqn:Eb.
  - rewrite bool_decide_eq_true_2 by done. assert (Hag : builtin_agrees b L) by (unfold policy_ok in Hp; by rewrite Eb in Hp).
    destruct (insert_builtin_spec cmax sm L k e b) as (old&rest&n&ev&L'&sm'&b'&E&H1&H2&H3&H4&H5&H6&H7&H8&H9&H10); [done..|by apply Hl|done|].
    exists old, rest, n, ev, L', sm'. do 6 (split; [done|]). split; [unfold policy_ok; by rewrite H6|]. do 2 (split; [done|]).
    split; [done|]. by intros ? [= <-].
  - rewrite bool_decide_eq_false_2 by (by intros [? ?]).
    destruct (insert_policy_spec exact cmax sm L k e) as (old&rest&ev&L'&sm'&E&H1&H2&H3&H4&H5&H6&H7&H8&H9); [done..|].
    exists old, rest, (node e), ev, L', sm'. assert (set_node (node e) e = e) as -> by (by destruct e). do 9 (split; [done|]). done.
Qed.

Lemma insert_inner_spec exact cmax sm L now k e count :
  (exact → ExactCosts K P) → shard_inv exact cmax sm L → clock_fits sm now → fresh_entry cmax e → has_room cmax sm L →
  ∃ old ev sm' L', insert_inner now k e (hash_key k) count sm = Some (old, sm') ∧ shard_inv exact cmax sm' L' ∧
    inserted sm k e count old ev sm' L' ∧ (length L' ≤ S (length L))%nat ∧
    (sm_builtin sm = None → exact → EvictsEnough K P → sm_cost sm' ≤ budget sm) ∧
    (∀ b, sm_builtin sm = Some b → is_s3 b → sm_cost sm' ≤ budget sm).
Proof.
  intros Hexc [Hb Hp Hv Hbud] Hn Hf Hroom. unfold insert_inner.
  destruct (arm_spec cmax sm L now k e Hb Hn Hf) as (e1&sm1&->&Hb1&Hev1&Hsd&Hk1&Hn1&Hc1). cbn [mbind option_bind].
  pose proof Hev1 as [Q1 Q2 Q3 Q4 Q5 Q6 Q7 Q8 Q9 Q10].
  assert (Hp1 : policy_ok exact cmax sm1 L) by (unfold policy_ok in *; by rewrite Q1, Q2, Q3).
  assert (Hit1 : item_ok cmax (k, e1)) by (destruct Hf as (_&?&?); destruct Hsd as (_&E1&E2&_); split; simpl; [by rewrite E1|by rewrite E2]).
  destruct (insert_any_spec exact cmax sm1 L k e1) as (old&rest&n&ev&L'&sm2&E&Hold&HL&Hkr&HL'&Hb2&Hp2&Hef&Hloc&Hcap1&Hcap2);
    [done|done|done|by rewrite Q7|done|done|unfold has_room in *; by rewrite Q3|rewrite Q5; lia|].
  rewrite E. cbn [mbind option_bind]. destruct (disarm_old cmax sm2 L' old Hb2) as (sm3&->&Hb3&Hev3&Hc3&_). cbn [mbind option_bind].
  pose proof Hev3 as [R1 R2 R3 R4 R5 R6 R7 R8 R9 R10]. pose proof Hef as [F1 F2 F3 F4 F5 F6 F7]. cbn [with_local budget ctx victims wheel notified sm_builtin] in *.
  pose proof (th_nodup _ _ (b_table _ _ _ _ Hb)) as HndL.
  destruct (inserted_get L k (set_node n e1) old rest ev L' HndL HL Hkr HL') as (Hnev&Hget&Hin).
  eexists old, ev, _, L'. split; [done|]. set (l' := mk_counters _ _ _ _ _).
  assert (Hb4 : body cmax (with_local l' sm3) L' []) by (by destruct Hb3).
  pose proof (b_table _ _ _ _ Hb) as Htab. pose proof (b_table _ _ _ _ Hb4) as Htab4.
  split; [split; [done| |cbn; congruence|cbn; rewrite R5, F1, Q5; done]|].
  { unfold policy_ok in *. cbn [with_local sm_builtin policy sm_reads]. by rewrite R1, R2, R3. }
  split; [split|split].
  - by rewrite (get_spec sm L k Htab).
  - exists (set_node n e1). split; [done|]. split; [done|]. split; [intros j; by rewrite (get_spec _ L' j Htab4), (get_spec sm L j Htab), Hget|].
    eapply Forall_impl; [exact Hin|]. intros [j x]. cbn [fst snd]. by rewrite (get_spec sm L j Htab).
  - apply Hb3.
  - cbn [with_local notified]. rewrite R10, F6, Q10, Q6, <- !app_assoc. destruct (notify (ctx sm)), (notify (ctx sm2)); by rewrite ?app_nil_r.
  - cbn [with_local local sm_cost]. unfold l'. rewrite R8, Hloc, Hc3. unfold counted, count_evicted, counter_add.
    assert (cost e1 = cost e) as Ece by (by destruct Hsd as (_&?&_)). destruct (0 <? _); cbn; rewrite Q8; by destruct count.
  - cbn. split_and!; [congruence|congruence|rewrite R3; congruence|congruence].
  - apply Permutation_length in HL, HL'. rewrite length_app in HL, HL'. cbn [length] in HL'. lia.
  - cbn [with_local sm_cost]. rewrite Hc3. rewrite Q3, Q5 in *. done.
Qed.
End Shard.
