(* ===== verification/ShardRemove.v ===== *)
(** * Removals from a shard ([remove_entry], [clear], [remove_expired])

    [swept cmax sm L es late] is the shard in the middle of a sweep: the timers of the
    entries [late] have fired and not been set again. *)

From S2P Require Import Prelude Arena Policy Slab ReadRing ShardPolicy Builtin.
From S2P Require Timer ReadLog.
From S2P Require Import Entry HashTable Store ShardTable ShardTimers ShardInv ShardInsert ShardBuiltin.

Section Remove.
Context {K V P Index : Type} {A HT : Type → Type}.
Context `{Countable K} `{!CachePolicy K P} `{!PolicyLaws K P} `{EqDecision Index} `{!Arena Index A} `{!ArenaLaws Index A}.
Context `{!HashTable HT} `{!HashTableLaws HT} `{!StoreHash K}.
Notation entry := (CacheEntry V Index).
Notation item := (K * entry)%type.
Notation shard_map := (ShardMap K V P Index A HT).
Implicit Types (sm : shard_map) (L : list item) (es late : list entry) (k : K) (e : entry) (exact : Prop) (cmax : Z).

Record swept cmax sm L es late : Prop := {
  sw_table : table_holds (table sm) L;
  sw_items : Forall (item_ok cmax) L;
  sw_room : room cmax (S (length L));
  sw_cmax : 0 ≤ cmax;
  sw_cost : sm_cost sm = costs (kcosts L);
  sw_wheel : wheel_owns (grace_ns (ctx sm)) (wheel sm) es late;
  sw_split : L.*2 ≡ₚ es ++ late;
  sw_ctx : 0 ≤ grace_ns (ctx sm);
}.

Lemma swept_body cmax sm L : body cmax sm L [] ↔ swept cmax sm L L.*2 [].
Proof.
  split.
  - intros [B1 B2 B3 B4 B5 B6 B7]. rewrite app_nil_r in B6. split; try done. by rewrite app_nil_r.
  - intros [B1 B2 B3 B4 B5 B6 _ B7]. split; try done. by rewrite app_nil_r.
Qed.

Lemma swept_done cmax sm L es : swept cmax sm L es [] → body cmax sm L [].
Proof.
  intros [B1 B2 B3 B4 B5 B6 B7 B8]. rewrite app_nil_r in B7. split; try done. rewrite app_nil_r. by eapply wheel_owns_perm; [symmetry; apply B7|done|].
Qed.

(** An entry leaves the table, the cost and the wheel. *)
Lemma drop_step cmax sm L L' es late k e t :
  swept cmax sm L es late → L ≡ₚ (k, e) :: L' → table_holds t L' →
  ∃ w es' late', cancel_of e (wheel sm) = Some w ∧ Timer.wheel_len w = Timer.wheel_len (wheel sm) ∧ keeps_time (wheel sm) w ∧
    swept cmax (with_cost (sm_cost sm -w cost e) (with_wheel w (with_table t sm))) L' es' late' ∧
    ((es ≡ₚ e :: es' ∧ late' = late) ∨ (es' = es ∧ late ≡ₚ e :: late')).
Proof.
  intros [B1 B2 B3 B4 B5 B6 B7 B8] HL Ht.
  assert (∃ w es' late', cancel_of e (wheel sm) = Some w ∧ wheel_owns (grace_ns (ctx sm)) w es' late' ∧
    Timer.wheel_len w = Timer.wheel_len (wheel sm) ∧ keeps_time (wheel sm) w ∧ ((es ≡ₚ e :: es' ∧ late' = late) ∨ (es' = es ∧ late ≡ₚ e :: late')))
    as (w&es'&late'&E&Hw&Hl&Hkt&Hsplit).
  { assert (Hin : e ∈ es ++ late) by (rewrite <- B7, HL; by left). apply elem_of_app in Hin as [[es' Hes]%elem_of_Permutation|[late' Hlate]%elem_of_Permutation].
    - assert (B6' : wheel_owns (grace_ns (ctx sm)) (wheel sm) (e :: es') late) by (by eapply wheel_owns_perm).
      destruct (owns_disarm _ _ _ _ _ B6') as (w&?&?&?&?). exists w, es', late. do 4 (split; [done|]). by left.
    - assert (B6' : wheel_owns (grace_ns (ctx sm)) (wheel sm) es (e :: late')) by (by eapply wheel_owns_perm).
      destruct (owns_disarm_late _ _ _ _ _ B6') as (w&?&?&?&?). exists w, es, late'. do 4 (split; [done|]). by right. }
  exists w, es', late'. split; [done|]. split; [done|]. split; [done|]. split; [|done].
  rewrite HL in B2. apply Forall_cons in B2 as [[Hc _] B2]. simpl in Hc. rewrite (kcosts_perm _ _ HL), kcosts_cons in B5.
  pose proof (kcosts_bound _ _ B2). assert (Hlen : length L = S (length L')) by (by rewrite HL). unfold room in B3. rewrite Hlen in B3. split.
  - done.
  - done.
  - unfold room. nia.
  - done.
  - cbn [with_cost sm_cost]. rewrite u64_sub_small; nia.
  - done.
  - apply (Permutation_cons_inv (a:=e)). change (e :: L'.*2) with ((k, e) :: L').*2. rewrite <- HL, B7.
    destruct Hsplit as [[-> ->]|[-> ->]]; [done|]. by rewrite Permutation_middle.
  - done.
Qed.

(** [disarm] is [cancel_of] on the shard's wheel. *)
Lemma disarm_cancel e sm : disarm e sm = (w ← cancel_of e (wheel sm); Some (with_wheel w sm)).
Proof. unfold disarm, cancel_of. destruct (ttl_timer_handle e); [done|]. by destruct sm. Qed.

(** ** The policy forgets *)

Lemma reads_ok_sub exact cmax lg L L' : (∀ ke, ke ∈ L' → ke ∈ L) → reads_ok exact cmax lg L → reads_ok exact cmax lg L'.
Proof.
  intros Hs (rds&Hl&Hall). exists rds. split; [done|]. eapply Forall_impl; [exact Hall|]. intros [k c] [? Hex]. split; [done|].
  intros He e Hin. apply (Hex He). by apply Hs.
Qed.

Lemma forget_spec exact cmax sm L L' k e :
  policy_ok exact cmax sm L → NoDup L.*1 → L ≡ₚ (k, e) :: L' →
  ∃ sm', forget k e sm = Some sm' ∧ policy_ok exact cmax sm' L' ∧ quiet sm sm'.
Proof.
  intros Hp Hnd HL. unfold forget, policy_ok in *. destruct (sm_builtin sm) as [b|] eqn:Eb.
  - destruct Hp as (Hw&Hndn&Hn&Hlen). change (list_to_map (knodes L)) with (node_map L) in Hn.
    assert (Hndn' : NoDup (node <$> ((k, e) :: L').*2)) by (by rewrite <- HL). cbn [fmap list_fmap] in Hndn'. apply NoDup_cons in Hndn' as [Hne Hndn'].
    rewrite (node_map_perm L _ Hndn HL), node_map_cons in Hn.
    assert (Hid : is_node (node e)).
    { pose proof (nodes_ids b Hw) as Hids. rewrite Hn in Hids. apply map_Forall_insert in Hids as [? _]; [done|by apply node_map_None]. }
    destruct (sp_remove_law b (node e) Hw) as (b'&->&Hw'&Hn'); [apply Hid|]. cbn [mbind option_bind]. eexists. split; [done|]. split; [|by split].
    cbn. split; [done|]. split; [done|]. assert (Hl : length L = S (length L')) by (by rewrite HL). split; [|lia].
    change (list_to_map (knodes L')) with (node_map L'). rewrite Hn', Hn. apply delete_insert_id. by apply node_map_None.
  - destruct Hp as [[Hw Hm] Hr]. destruct (remove_law (policy sm) k Hw) as (p&->&Hw'&Ht). cbn [mbind option_bind]. eexists. split; [done|].
    cbn [with_policy sm_builtin policy sm_reads]. rewrite Eb. split; [split; [split; [done|]|]|].
    + rewrite Ht. pose proof (map_agrees_without exact cmax _ L [(k, e)] L' Hnd HL Hm) as Hm'. cbn in Hm'. by rewrite without_cons, without_nil in Hm'.
    + eapply reads_ok_sub; [|done]. intros ke Hin. rewrite HL. by right.
    + by split.
Qed.

Lemma swept_quiet cmax sm sm' L es late : quiet sm sm' → swept cmax sm L es late → swept cmax sm' L es late.
Proof. intros [Q1 Q2 Q3 Q4 Q5 Q6 Q7 Q8 Q9] []. split; by rewrite ?Q1, ?Q2, ?Q4, ?Q7. Qed.

(** What a removal leaves alone. *)
Record removes sm sm' : Prop := {
  rm_budget : budget sm' = budget sm;
  rm_ctx : ctx sm' = ctx sm;
  rm_victims : victims sm' = victims sm;
  rm_local : local sm' = local sm;
  rm_len : Timer.wheel_len (wheel sm') = Timer.wheel_len (wheel sm);
  rm_time : keeps_time (wheel sm) (wheel sm');
  rm_told : notified sm' = notified sm;
  rm_kind : is_Some (sm_builtin sm') ↔ is_Some (sm_builtin sm);
}.

Lemma removes_refl sm : removes sm sm.
Proof. by split. Qed.

Lemma removes_quiet sm sm' : quiet sm sm' → removes sm sm'.
Proof. intros [Q1 Q2 Q3 Q4 Q5 Q6 Q7 Q8 Q9]. split; try done; rewrite Q7; [done|by intros ?]. Qed.

Lemma removes_trans sm1 sm2 sm3 : removes sm1 sm2 → removes sm2 sm3 → removes sm1 sm3.
Proof.
  intros [] []. split; try congruence; [|by etrans]. intros Hne.
  destruct (rm_time0 Hne) as (Hne'&<-&<-). by apply rm_time1.
Qed.

Lemma removes_drop sm w t c : Timer.wheel_len w = Timer.wheel_len (wheel sm) → keeps_time (wheel sm) w → removes sm (with_cost c (with_wheel w (with_table t sm))).
Proof. intros. by split. Qed.

Lemma shard_inv_swept exact cmax sm sm' L es :
  0 ≤ budget sm < U64 → victims sm = [] → removes sm sm' → swept cmax sm' L es [] → policy_ok exact cmax sm' L → shard_inv exact cmax sm' L.
Proof. intros ?? [] Hs Hp. split; [by eapply swept_done|done|congruence|congruence]. Qed.

(** ** [remove_entry] *)

Lemma remove_entry_spec exact cmax sm L k :
  shard_inv exact cmax sm L →
  ∃ sm' L', remove_entry k sm = Some ((λ e, (k, e)) <$> get k sm, sm') ∧ shard_inv exact cmax sm' L' ∧ removes sm sm' ∧
    L ≡ₚ ((λ e, (k, e)) <$> option_list (get k sm)) ++ L' ∧
    (∀ j, get j sm' = if decide (j = k) then None else get j sm).
Proof.
  intros [Hb Hp Hv Hbud]. unfold remove_entry. destruct (apply_reads_spec exact cmax sm L Hp (b_room _ _ _ _ Hb)) as (sm1&->&Hp1&Hq&_). cbn [mbind option_bind].
  pose proof (b_table _ _ _ _ Hb) as Ht. rewrite (get_spec sm L k Ht). pose proof (th_nodup _ _ Ht) as Hnd.
  assert (Hs1 : swept cmax sm1 L L.*2 []) by (by eapply swept_quiet, swept_body).
  unfold take. pose proof (take_any (table sm1) L (hash_key k) (key_is k) (sw_table _ _ _ _ _ Hs1)) as Htk. destruct (ht_take _ _ _) as [[[k' e] t]|].
  - destruct Htk as [Hk%bool_decide_eq_true (L'&HL&Ht')]. simpl in Hk. subst k'.
    destruct (perm_cons_map L k e L' Hnd HL) as (Eg&Hk'&Em). rewrite Eg. rewrite disarm_cancel. cbn [with_table wheel].
    destruct (drop_step cmax sm1 L L' L.*2 [] k e t Hs1 HL Ht') as (w&es'&late'&->&Hl&Hkt&Hs2&Hsp). cbn [mbind option_bind].
    assert (late' = []) as -> by (destruct Hsp as [[_ ?]|[_ E]]; [done|by apply Permutation_nil_cons in E]).
    set (sm2 := with_cost _ _) in *. assert (Hp2 : policy_ok exact cmax sm2 L) by (unfold policy_ok in *; by cbn).
    destruct (forget_spec exact cmax sm2 L L' k e Hp2 Hnd HL) as (sm3&Ef&Hp3&Hq3). cbn [sm_cost with_wheel with_table] in *. fold sm2. rewrite Ef.
    cbn [mbind option_bind]. assert (Hrm : removes sm sm3).
    { eapply removes_trans; [by apply removes_quiet|]. eapply removes_trans; [|by apply removes_quiet]. by apply removes_drop. }
    assert (Hs3 : swept cmax sm3 L' es' []) by (by eapply swept_quiet). exists sm3, L'. split; [done|].
    split; [by apply (shard_inv_swept exact cmax sm _ L' es')|]. split; [done|]. split; [done|].
    intros j. rewrite (get_spec sm3 L' j (sw_table _ _ _ _ _ Hs3)), (get_spec sm L j Ht), Em.
    destruct (decide (j = k)) as [->|]; [by rewrite lookup_delete_eq|by rewrite lookup_delete_ne].
  - assert (Hn : (list_to_map L : gmap K entry) !! k = None).
    { apply not_elem_of_list_to_map_1. intros ([k' e']&->&Hin)%list_elem_of_fmap. specialize (Htk _ Hin eq_refl). by apply bool_decide_eq_false in Htk. }
    rewrite Hn. cbn [mbind option_bind]. exists sm1, L. split; [done|].
    split; [apply (shard_inv_swept exact cmax sm _ L L.*2); try done; by apply removes_quiet|]. split; [by apply removes_quiet|]. split; [done|].
    intros j. rewrite (get_spec sm1 L j (sw_table _ _ _ _ _ Hs1)), (get_spec sm L j Ht). destruct (decide (j = k)) as [->|]; done.
Qed.

(** ** [clear] *)

Lemma shard_inv_empty exact cmax sm : shard_inv exact cmax sm [] → ∀ j, get j sm = None.
Proof. intros [Hb _ _ _] j. by rewrite (get_spec sm [] j (b_table _ _ _ _ Hb)). Qed.

Lemma shard_clear_spec exact cmax sm L :
  shard_inv exact cmax sm L →
  ∃ sm', Store.clear sm = Some sm' ∧ shard_inv exact cmax sm' [] ∧ (∀ j, get j sm' = None) ∧ sm_cost sm' = 0 ∧
    budget sm' = budget sm ∧ ctx sm' = ctx sm ∧ notified sm' = notified sm ∧ Timer.wheel_len (wheel sm') = Timer.wheel_len (wheel sm) ∧
    (is_Some (sm_builtin sm') ↔ is_Some (sm_builtin sm)) ∧ cost_delta (local sm') = cost_delta (local sm) +w (0 -w sm_cost sm).
Proof.
  intros [[B1 B2 B3 B4 B5 B6 B7] Hp Hv Hbud]. rewrite app_nil_r in B6. unfold Store.clear. cbn [sm_builtin with_cost with_local with_wheel with_table policy].
  destruct (owns_clear _ _ _ B6) as [Ho Hl]. pose proof (table_holds_clear _ _ B1) as Ht.
  assert (Hr1 : room cmax 1) by (unfold room in *; nia).
  unfold policy_ok in Hp. destruct (sm_builtin sm) as [b|] eqn:Eb.
  - destruct Hp as (Hw&_&_&_). destruct (sp_clear_law b Hw) as [Hw' Hn']. eexists. split; [done|].
    match goal with |- shard_inv _ _ ?s _ ∧ _ => assert (Hi : shard_inv exact cmax s []) end.
    { split; [by split| |done|done]. unfold policy_ok. cbn. split; [done|]. split; [constructor|]. split; [done|vm_compute; reflexivity]. }
    split; [exact Hi|]. split; [exact (shard_inv_empty _ _ _ Hi)|]. by split_and!.
  - destruct Hp as [[Hw Hm] Hr]. destruct (clear_law (policy sm) Hw) as (p&->&Hw'&Ht'). cbn [mbind option_bind]. eexists. split; [done|].
    match goal with |- shard_inv _ _ ?s _ ∧ _ => assert (Hi : shard_inv exact cmax s []) end.
    { split; [by split| |done|done]. unfold policy_ok. cbn [with_policy with_cost with_local with_wheel with_table sm_builtin policy sm_reads]. rewrite Eb. split.
      - split; [done|]. rewrite Ht'. split; [intros k; rewrite lookup_empty; split; [by intros [? ?]|by intros ?%elem_of_nil]|].
        split; [apply map_Forall_empty|done].
      - eapply reads_ok_sub; [|done]. by intros ke ?%elem_of_nil. }
    split; [exact Hi|]. split; [exact (shard_inv_empty _ _ _ Hi)|]. cbn. rewrite Eb. by split_and!.
Qed.
End Remove.
