(* ===== verification/ShardExpiry.v ===== *)
(** * Expiry sweeps of a shard ([expire_due], [expire_all], [remove_expired])

    A sweep removes exactly the entries past a limit (of [expire_due]: those under the hash of a timer
    that is due) and leaves no entry without a live timer, also when several keys share a hash.  On a shard
    that meets its invariant no timer fires before its entry is past its limit, so none is armed again. *)

From S2P Require Import Prelude Arena Policy Slab ReadRing ShardPolicy Builtin.
From S2P Require Timer ReadLog.
From S2P Require Import Entry HashTable Store ShardTable ShardTimers ShardInv ShardInsert ShardBuiltin ShardRemove Shard.

Section Expiry.
Context {K V P Index : Type} {A HT : Type → Type}.
Context `{Countable K} `{!CachePolicy K P} `{!PolicyLaws K P} `{EqDecision Index} `{!Arena Index A} `{!ArenaLaws Index A}.
Context `{!HashTable HT} `{!HashTableLaws HT} `{!StoreHash K}.
Notation entry := (CacheEntry V Index).
Notation item := (K * entry)%type.
Notation shard_map := (ShardMap K V P Index A HT).
Implicit Types (sm : shard_map) (L : list item) (es late : list entry) (k : K) (e : entry) (exact : Prop) (cmax : Z).

(** The limits of the shard's context. *)
Definition past sm (now : Z) e : option ExpiredBy := expired_by e now (grace_ns (ctx sm)) (tti_ns (ctx sm)).

Definition past_list sm (now : Z) (out : list (K * entry * ExpiredBy)) : Prop :=
  Forall (λ x, past sm now x.1.2 = Some x.2) out.

(** [remove_expired] takes all entries under the hash past a limit; [late] entries may
    be among them. *)
Lemma remove_expired_spec exact cmax fuel hash now sm L es late :
  swept cmax sm L es late → policy_ok exact cmax sm L → (length L ≤ fuel)%nat →
  ∃ out sm' L' es' late', remove_expired fuel hash now sm = Some (out, sm') ∧ L ≡ₚ out.*1 ++ L' ∧
    swept cmax sm' L' es' late' ∧ policy_ok exact cmax sm' L' ∧ removes sm sm' ∧ (past_list sm now out ∧ Forall (λ x, key_hash x.1.2 = hash) out) ∧
    (∀ k e, (k, e) ∈ L' → hash_key k = hash → past sm now e = None) ∧ late' ⊆+ late.
Proof.
  revert sm L es late. induction fuel as [|fuel IH]; intros sm L es late Hs Hp Hf; cbn [remove_expired];
    set (f := λ ke : item, (key_hash ke.2 =? hash) && bool_decide (is_Some (expired_by ke.2 now (grace_ns (ctx sm)) (tti_ns (ctx sm)))));
    pose proof (take_any (table sm) L hash f (sw_table _ _ _ _ _ Hs)) as Htk; destruct (ht_take hash f (table sm)) as [[[k e] t]|] eqn:Et.
  - destruct Htk as (_&L'&HL&_). apply Permutation_length in HL. simpl in HL. lia.
  - exists [], sm, L, es, late. split; [done|]. split; [done|]. split; [done|]. split; [done|]. split; [apply removes_refl|]. split; [by split; constructor|].
    split; [|done]. intros k e Hin Hh. specialize (Htk _ Hin Hh). unfold f in Htk. simpl in Htk. pose proof (sw_table _ _ _ _ _ Hs) as [_ _ Hkh].
    eapply Forall_forall in Hkh; [|exact Hin]. simpl in Hkh. rewrite Hkh, Hh, Z.eqb_refl in Htk. apply bool_decide_eq_false in Htk. by apply eq_None_not_Some.
  - destruct Htk as (Hfk&L'&HL&Ht'). unfold f in Hfk. simpl in Hfk. apply andb_true_iff in Hfk as [Hkh%Z.eqb_eq [by_ Hby]%bool_decide_eq_true].
    rewrite Hby. cbn [mbind option_bind]. destruct (drop_step cmax sm L L' es late k e t Hs HL Ht') as (w&es1&late1&Ec&Hl&Hkt&Hs1&Hsp).
    rewrite disarm_cancel. cbn [with_cost with_table wheel]. rewrite Ec. cbn [mbind option_bind].
    change (with_wheel w (with_cost (sm_cost sm -w cost e) (with_table t sm))) with (with_cost (sm_cost sm -w cost e) (with_wheel w (with_table t sm))).
    set (sm1 := with_cost _ _) in *. assert (Hp1 : policy_ok exact cmax sm1 L) by (unfold policy_ok in *; by cbn).
    pose proof (th_nodup _ _ (sw_table _ _ _ _ _ Hs)) as Hnd.
    destruct (forget_spec exact cmax sm1 L L' k e Hp1 Hnd HL) as (sm2&->&Hp2&Hq2). cbn [mbind option_bind].
    destruct (IH sm2 L' es1 late1) as (out&sm3&L3&es3&late3&->&HL3&Hs3&Hp3&Hrm3&[Hpast Hhs]&Hrest&Hlate);
      [by eapply swept_quiet|done|rewrite HL in Hf; simpl in Hf; lia|]. cbn [mbind option_bind].
    assert (Hrm2 : removes sm sm2) by (eapply removes_trans; [by apply (removes_drop sm w t)|by apply removes_quiet]).
    assert (Hctx : ctx sm2 = ctx sm) by (by apply Hrm2).
    eexists ((k, e, by_) :: out), sm3, L3, es3, late3. split; [done|]. split; [cbn; by rewrite HL, HL3|]. split; [done|]. split; [done|].
    split; [by eapply removes_trans|]. unfold past_list, past in *. rewrite Hctx in *. split; [by split; constructor|]. split; [done|].
    etrans; [exact Hlate|]. destruct Hsp as [[_ ->]|[_ ->]]; [done|]. by apply submseteq_cons.
  - exists [], sm, L, es, late. split; [done|]. split; [done|]. split; [done|]. split; [done|]. split; [apply removes_refl|]. split; [by split; constructor|].
    split; [|done]. intros k e Hin Hh. specialize (Htk _ Hin Hh). unfold f in Htk. simpl in Htk. pose proof (sw_table _ _ _ _ _ Hs) as [_ _ Hkh].
    eapply Forall_forall in Hkh; [|exact Hin]. simpl in Hkh. rewrite Hkh, Hh, Z.eqb_refl in Htk. apply bool_decide_eq_false in Htk. by apply eq_None_not_Some.
Qed.

(** A new timer handle is no concern of the policy. *)
Lemma policy_ok_timer exact cmax sm k e h L :
  policy_ok exact cmax sm ((k, e) :: L) → policy_ok exact cmax sm ((k, set_timer h e) :: L).
Proof.
  unfold policy_ok. destruct (sm_builtin sm) as [b|]; [done|]. intros [Hp (rds&Hl&Hall)]. split; [done|]. exists rds. split; [done|].
  eapply Forall_impl; [exact Hall|]. intros [k' c] [? Hex]. split; [done|]. intros He e' [[= -> ->]|Hin]%elem_of_cons; [apply (Hex He e); by left|].
  apply (Hex He). by right.
Qed.

Lemma policy_ok_perm exact cmax sm L L' : NoDup L.*1 → L ≡ₚ L' → policy_ok exact cmax sm L → policy_ok exact cmax sm L'.
Proof.
  intros Hnd HL. unfold policy_ok. destruct (sm_builtin sm) as [b|].
  - intros (?&Hndn&Hn&?). split; [done|]. split; [by rewrite <- HL|]. split; [|by rewrite <- HL].
    rewrite Hn. apply (node_map_perm L L' Hndn HL).
  - intros [[? Hm] Hr]. split; [split; [done|]; by eapply map_agrees_perm|]. eapply reads_ok_sub; [|done]. intros ke. by rewrite HL.
Qed.

(** [rearm] gives the one late entry it finds a new timer; if it finds none, none under
    the hash is late. *)
Lemma rearm_spec exact cmax now hash sm L es late :
  swept cmax sm L es late → policy_ok exact cmax sm L → Timer.clock_ok (wheel sm) now →
  ∃ sm' L' es' late', rearm now hash sm = Some sm' ∧ swept cmax sm' L' es' late' ∧ policy_ok exact cmax sm' L' ∧ removes sm sm' ∧
    ((sm' = sm ∧ L' = L ∧ es' = es ∧ late' = late ∧ hash ∉ key_hash <$> late) ∨
     (∃ k e i R, L ≡ₚ (k, e) :: R ∧ L' = (k, set_timer (Some i) e) :: R ∧ late ≡ₚ e :: late' ∧ es' = set_timer (Some i) e :: es ∧ key_hash e = hash)).
Proof.
  intros Hs Hp Hn. unfold rearm.
  set (fired := λ ke : item, (key_hash ke.2 =? hash) && match ttl_timer_handle ke.2 with Some h => negb (Timer.is_armed h (wheel sm)) | None => false end).
  pose proof (find_mut_any (table sm) L hash fired (sw_table _ _ _ _ _ Hs)) as Hm.
  pose proof (sw_wheel _ _ _ _ _ Hs) as Ho. pose proof Ho as [_ _ Harm _ Hlt].
  assert (Hbig : ∀ i, Timer.is_armed i (wheel sm) = true ↔ is_Some (Timer.armed (wheel sm) i)).
  { intros i. unfold Timer.is_armed. rewrite bool_decide_eq_true. unfold Timer.armed, Timer.tdat. destruct (arena_get i _) as [t|]; simpl; [|done].
    split; intros; by eexists. }
  destruct (ht_find_mut hash fired (table sm)) as [[[k e] write]|].
  - destruct Hm as (Hf&R&HL&Hw). unfold fired in Hf. simpl in Hf, Hw. apply andb_true_iff in Hf as [Hh%Z.eqb_eq Hf].
    destruct (ttl_timer_handle e) as [i0|] eqn:Ei0; [|done]. apply negb_true_iff in Hf.
    assert (Hlate : e ∈ late).
    { assert (Hin : e ∈ es ++ late) by (rewrite <- (sw_split _ _ _ _ _ Hs), HL; by left). apply elem_of_app in Hin as [Hin|?]; [exfalso|done].
      eapply Forall_forall in Harm; [|exact Hin]. unfold entry_armed in Harm. rewrite Ei0 in Harm. destruct Harm as (_&d&Ea&_).
      assert (Timer.is_armed i0 (wheel sm) = true) by (apply Hbig; by rewrite Ea). congruence. }
    apply elem_of_Permutation in Hlate as [late' Hlate].
    assert (Ho' : wheel_owns (grace_ns (ctx sm)) (wheel sm) es late') by (eapply wheel_owns_drop_late; by eapply wheel_owns_perm).
    rewrite Hlate in Hlt. apply Forall_cons in Hlt as [(Hpos&_) _].
    pose proof (sw_items _ _ _ _ _ Hs) as Hit. rewrite HL in Hit. apply Forall_cons in Hit as [[Hc He] Hit]. simpl in Hc, He.
    destruct (owns_schedule (grace_ns (ctx sm)) now hash (expires_at e) (wheel sm) es late' Ho' Hn) as (i&w&->&Hl&Hkt&How); [u64_lia|apply Hs|].
    cbn [mbind option_bind]. set (e' := set_timer (Some i) e) in *.
    pose proof (th_hash _ _ (sw_table _ _ _ _ _ Hs)) as Hhs. rewrite HL in Hhs. apply Forall_cons in Hhs as [Hkh _]. simpl in Hkh.
    eexists _, ((k, e') :: R), (e' :: es), late'. split; [done|]. split; [|split; [|split]].
    + split.
      * by apply Hw.
      * by constructor.
      * pose proof (sw_room _ _ _ _ _ Hs) as Hr. by rewrite HL in Hr.
      * apply Hs.
      * cbn [sm_cost with_wheel with_table]. rewrite (sw_cost _ _ _ _ _ Hs). by rewrite (kcosts_perm _ _ HL).
      * by apply How.
      * cbn [app fmap list_fmap]. constructor. apply (Permutation_cons_inv (a:=e)). change (e :: R.*2) with ((k, e) :: R).*2.
        rewrite <- HL, (sw_split _ _ _ _ _ Hs), Hlate. by rewrite Permutation_middle.
      * apply Hs.
    + apply policy_ok_timer. apply (policy_ok_perm _ _ _ L); [apply (th_nodup _ _ (sw_table _ _ _ _ _ Hs))|done|]. by unfold policy_ok in *.
    + by split.
    + right. by exists k, e, i, R.
  - exists sm, L, es, late. split; [done|]. split; [done|]. split; [done|]. split; [apply removes_refl|]. left. split_and!; try done.
    intros (e&Eh&Hin)%list_elem_of_fmap. eapply Forall_forall in Hlt as (_&i&Ei&Ea&_); [|exact Hin].
    assert (Hin2 : e ∈ L.*2) by (rewrite (sw_split _ _ _ _ _ Hs); apply elem_of_app; by right).
    apply list_elem_of_fmap in Hin2 as ([k e2]&->&HinL). pose proof (th_hash _ _ (sw_table _ _ _ _ _ Hs)) as Hhs. eapply Forall_forall in Hhs; [|exact HinL].
    simpl in *. specialize (Hm _ HinL). simpl in Hm. rewrite <- Hhs, <- Eh in Hm. specialize (Hm eq_refl). unfold fired in Hm. simpl in Hm.
    rewrite <- Eh, Z.eqb_refl, Ei in Hm. simpl in Hm. apply negb_false_iff, Hbig in Hm. rewrite Ea in Hm. by destruct Hm.
Qed.

(** ** The timers that fire *)

(** The timer of [e] is due at [now]. *)
Definition timer_reached (w : Timer.TimerWheel Index A) (now : Z) e : Prop :=
  ∃ i d, ttl_timer_handle e = Some i ∧ Timer.armed w i = Some (key_hash e, d) ∧ Timer.deadline w d ≤ now.

(** A timer of the shard is due no sooner than its entry is past its limit. *)
Lemma reached_past sm now es e : wheel_owns (grace_ns (ctx sm)) (wheel sm) es [] → e ∈ es → timer_reached (wheel sm) now e → past sm now e = Some Ttl.
Proof.
  intros [_ _ Harm _ _] He (i&d&Ei&Ea&Hd). eapply Forall_forall in Harm; [|exact He]. unfold entry_armed in Harm. rewrite Ei in Harm.
  destruct Harm as (Hpos&d'&Ea'&Hd'). rewrite Ea in Ea'. injection Ea' as <-. unfold past, expired_by.
  destruct (Z.ltb_spec 0 (expires_at e)); [|lia]. destruct (Z.leb_spec (expires_at e +sat grace_ns (ctx sm)) now); [done|lia].
Qed.

(** What [advance] leaves late is what was due. *)
Lemma late_reached grace now w es fired w' es' late :
  wheel_owns grace w es [] → Timer.clock_ok w now → Timer.advance now w = Some (fired, w') → es ≡ₚ es' ++ late → wheel_owns grace w' es' late →
  ∀ e, e ∈ es → e ∈ late ↔ timer_reached w now e.
Proof.
  intros [Hwf _ Harm _ _] Hn E Hp [_ _ Harm' _ Hlate'] e He.
  destruct (Timer.advance_spec now w Hwf Hn) as (fired0&w0&E0&_&_&_&Hto&Hkeep&_&_). rewrite E in E0. injection E0 as <- <-.
  eapply Forall_forall in Harm; [|exact He]. unfold entry_armed in Harm. split.
  - intros Hin. eapply Forall_forall in Hlate'; [|exact Hin]. destruct Hlate' as (Hpos&i&Ei&Ea'&_). rewrite Ei in Harm. destruct Harm as (_&d&Ea&_).
    exists i, d. split; [done|]. split; [done|]. destruct (Hkeep i _ d Ea) as [_ Ek]. rewrite Ea' in Ek. case_decide as Hd; [|done].
    apply (Timer.advanced_to_deadline w i (key_hash e) d now Hwf Ea). by rewrite <- Hto.
  - intros (i&d&Ei&Ea&Hd). rewrite Hp in He. apply elem_of_app in He as [He|]; [exfalso|done]. eapply Forall_forall in Harm'; [|exact He].
    unfold entry_armed in Harm'. rewrite Ei in Harm'. destruct Harm' as (_&d'&Ea'&_). destruct (Hkeep i _ d Ea) as [_ Ek]. rewrite Ea' in Ek.
    rewrite decide_True in Ek; [done|]. rewrite Hto. by apply (Timer.advanced_to_deadline w i (key_hash e) d now Hwf Ea).
Qed.

(** The sweep takes all entries past a limit under the hashes that fired; every late one is among them, so no timer is armed again. *)
Lemma expire_fired_spec exact cmax now F sm L es late :
  swept cmax sm L es late → policy_ok exact cmax sm L → Timer.clock_ok (wheel sm) now → key_hash <$> late ⊆+ F →
  Forall (λ e, is_Some (past sm now e)) late →
  ∃ out sm' L' es', expire_fired F now sm = Some (out, sm') ∧ swept cmax sm' L' es' [] ∧ policy_ok exact cmax sm' L' ∧ removes sm sm' ∧
    L ≡ₚ out.*1 ++ L' ∧ (past_list sm now out ∧ Forall (λ x, key_hash x.1.2 ∈ F) out) ∧
    (∀ k e, (k, e) ∈ L' → hash_key k ∈ F → past sm now e = None).
Proof.
  revert sm L es late. induction F as [|hash F IH]; intros sm L es late Hs Hp Hn Hsub Hpl; cbn [expire_fired].
  - apply submseteq_nil_r, fmap_nil_inv in Hsub as ->. exists [], sm, L, es. split; [done|]. split; [done|]. split; [done|].
    split; [apply removes_refl|]. split; [done|]. split; [by split; constructor|]. by intros k e _ ?%elem_of_nil.
  - unfold len. rewrite (table_holds_len _ _ (sw_table _ _ _ _ _ Hs)).
    destruct (remove_expired_spec exact cmax (length L) hash now sm L es late Hs Hp) as (out1&sm1&L1&es1&late1&->&HL1&Hs1&Hp1&Hrm1&[Hpast1 Hh1]&Hrest1&Hl1); [done|].
    cbn [mbind option_bind]. assert (Hn1 : Timer.clock_ok (wheel sm1) now) by (unfold Timer.clock_ok in *; by rewrite (rm_len _ _ Hrm1)).
    assert (Hpl1 : Forall (λ e, is_Some (past sm now e)) late1) by (rewrite Forall_forall in *; intros e He; by apply Hpl, (elem_of_submseteq _ _ _ He Hl1)).
    assert (Hno : hash ∉ key_hash <$> late1).
    { intros (e&Eh&Hin)%list_elem_of_fmap. assert (Hin2 : e ∈ L1.*2) by (rewrite (sw_split _ _ _ _ _ Hs1); apply elem_of_app; by right).
      apply list_elem_of_fmap in Hin2 as ([k e2]&->&HinL). pose proof (th_hash _ _ (sw_table _ _ _ _ _ Hs1)) as Hhs. eapply Forall_forall in Hhs; [|exact HinL].
      eapply Forall_forall in Hpl1; [|exact Hin]. simpl in *. rewrite (Hrest1 k e2 HinL) in Hpl1 by congruence. by destruct Hpl1. }
    destruct (rearm_spec exact cmax now hash sm1 L1 es1 late1 Hs1 Hp1 Hn1) as (sm2&L2&es2&late2&->&_&_&_&Hcase). cbn [mbind option_bind].
    destruct Hcase as [(->&_)|(k&e&i&R&_&_&Hl2&_&Hh)]; [|exfalso; apply Hno; rewrite Hl2, <- Hh; by left].
    assert (Hsub2 : key_hash <$> late1 ⊆+ F).
    { assert (Hsub1 : key_hash <$> late1 ⊆+ hash :: F) by (etrans; [by apply fmap_submseteq|done]).
      apply submseteq_cons_r in Hsub1 as [?|(l'&Hl'&?)]; [done|]. exfalso. apply Hno. rewrite Hl'. by left. }
    assert (Hctx : ctx sm1 = ctx sm) by (by apply Hrm1).
    destruct (IH sm1 L1 es1 late1 Hs1 Hp1 Hn1 Hsub2) as (out&sm'&L'&es'&->&Hs'&Hp'&Hrm'&HL'&[Hpast' Hh']&Hrest');
      [unfold past in *; by rewrite Hctx|]. cbn [mbind option_bind]. unfold past_list, past in *. rewrite Hctx in *.
    exists (out1 ++ out), sm', L', es'. split; [done|]. split; [done|]. split; [done|]. split; [by eapply removes_trans|].
    split; [by rewrite HL1, HL', (fmap_app fst out1 out), app_assoc|]. split; [split; apply Forall_app; split; try done|].
    + eapply Forall_impl; [exact Hh1|]. intros x ->. by left.
    + eapply Forall_impl; [exact Hh'|]. intros x ?. by right.
    + intros k e Hin [Hk|Hk]%elem_of_cons; [|by eapply Hrest']. apply (Hrest1 k e); [|done]. rewrite HL'. apply elem_of_app. by right.
Qed.

(** ** [remove_hashes], with no timer late *)

Lemma swept_nil_late exact cmax sm L es : swept cmax sm L es [] → policy_ok exact cmax sm L → victims sm = [] → 0 ≤ budget sm < U64 → shard_inv exact cmax sm L.
Proof. intros Hs Hp Hv Hb. split; [by eapply swept_done|done|done|done]. Qed.

Lemma remove_hashes_spec exact cmax now hashes sm L es :
  swept cmax sm L es [] → policy_ok exact cmax sm L →
  ∃ out sm' L' es', remove_hashes hashes now sm = Some (out, sm') ∧ L ≡ₚ out.*1 ++ L' ∧
    swept cmax sm' L' es' [] ∧ policy_ok exact cmax sm' L' ∧ removes sm sm' ∧ past_list sm now out ∧
    (∀ k e, (k, e) ∈ L' → hash_key k ∈ hashes → past sm now e = None).
Proof.
  revert sm L es. induction hashes as [|hash hashes IH]; intros sm L es Hs Hp; cbn [remove_hashes].
  - exists [], sm, L, es. split; [done|]. split; [done|]. split; [done|]. split; [done|]. split; [apply removes_refl|]. split; [constructor|].
    by intros k e _ ?%elem_of_nil.
  - unfold len. rewrite (table_holds_len _ _ (sw_table _ _ _ _ _ Hs)).
    destruct (remove_expired_spec exact cmax (length L) hash now sm L es [] Hs Hp) as (out1&sm1&L1&es1&late1&->&HL1&Hs1&Hp1&Hrm1&[Hpast1 _]&Hrest1&Hl1); [done|].
    cbn [mbind option_bind]. apply submseteq_nil_r in Hl1 as ->.
    destruct (IH sm1 L1 es1 Hs1 Hp1) as (out2&sm2&L2&es2&->&HL2&Hs2&Hp2&Hrm2&Hpast2&Hrest2). cbn [mbind option_bind].
    assert (Hctx : ctx sm1 = ctx sm) by (by apply Hrm1). unfold past_list, past in *. rewrite Hctx in *.
    exists (out1 ++ out2), sm2, L2, es2. split; [done|]. split; [by rewrite HL1, HL2, (fmap_app fst out1 out2), app_assoc|].
    split; [done|]. split; [done|]. split; [by eapply removes_trans|]. split; [by apply Forall_app|].
    intros k e Hin [Hk|Hk]%elem_of_cons; [|by eapply Hrest2]. apply (Hrest1 k e); [|done]. rewrite HL2. apply elem_of_app. by right.
Qed.

(** What a sweep by hashes did: of each entry, returned as past a limit or kept. *)
Lemma remove_expired_hashes_spec exact cmax now hashes sm L :
  shard_inv exact cmax sm L →
  ∃ out sm' L', remove_expired_hashes hashes now sm = Some (out, sm') ∧ shard_inv exact cmax sm' L' ∧ removes sm sm' ∧
    NoDup out.*1.*1 ∧ L ≡ₚ out.*1 ++ L' ∧ past_list sm now out ∧
    (∀ k e, (k, e) ∈ L' → hash_key k ∈ hashes → past sm now e = None).
Proof.
  intros [Hb Hp Hv Hbud]. unfold remove_expired_hashes.
  destruct (apply_reads_spec exact cmax sm L Hp (b_room _ _ _ _ Hb)) as (sm1&->&Hp1&Hq&_). cbn [mbind option_bind].
  assert (Hs1 : swept cmax sm1 L L.*2 []) by (by eapply swept_quiet, swept_body).
  destruct (remove_hashes_spec exact cmax now hashes sm1 L L.*2 Hs1 Hp1) as (out&sm2&L2&es2&->&HL&Hs2&Hp2&Hrm&Hpast&Hrest).
  pose proof (removes_trans _ _ _ (removes_quiet _ _ Hq) Hrm) as Hrm2. assert (Hctx : ctx sm1 = ctx sm) by apply Hq.
  exists out, sm2, L2. split; [done|]. split; [by apply (shard_inv_swept exact cmax sm _ L2 es2)|]. split; [done|].
  unfold past_list, past in *. rewrite Hctx in *. split; [|done].
  pose proof (th_nodup _ _ (b_table _ _ _ _ Hb)) as Hnd. rewrite HL, fmap_app in Hnd. by apply NoDup_app in Hnd as [? _].
Qed.

(** The lookups before and after, when [out] left and [L'] stayed. *)
Lemma get_split sm sm' L L' (out : list (K * entry * ExpiredBy)) k :
  table_holds (table sm) L → table_holds (table sm') L' → L ≡ₚ out.*1 ++ L' →
  get k sm' = (if decide (k ∈ out.*1.*1) then None else get k sm) ∧ (∀ e by_, (k, e, by_) ∈ out → get k sm = Some e).
Proof.
  intros Ht Ht' HL. pose proof (th_nodup _ _ Ht) as Hnd. rewrite (get_spec sm L k Ht), (get_spec sm' L' k Ht').
  assert (Hnd' : NoDup (out.*1 ++ L').*1) by (by rewrite <- HL). rewrite (list_to_map_proper _ _ Hnd HL). split.
  - rewrite fmap_app in Hnd'. apply NoDup_app in Hnd' as (_&Hd&_). rewrite list_to_map_app. destruct (decide (k ∈ out.*1.*1)) as [Hk|Hk].
    + apply not_elem_of_list_to_map_1. by apply Hd.
    + rewrite lookup_union_r; [done|]. by apply not_elem_of_list_to_map_1.
  - intros e by_ Hin. apply elem_of_list_to_map_1; [done|]. apply elem_of_app. left. apply list_elem_of_fmap. by exists (k, e, by_).
Qed.

(** ** [expire_due] *)

(** A timer under [hash] is due. *)
Definition hash_reached sm L (now hash : Z) : Prop := ∃ k e, (k, e) ∈ L ∧ key_hash e = hash ∧ timer_reached (wheel sm) now e.

Lemma expire_due_spec exact cmax sm L now :
  shard_inv exact cmax sm L → clock_fits sm now →
  ∃ out sm' L', expire_due now sm = Some (out, sm') ∧ shard_inv exact cmax sm' L' ∧
    L ≡ₚ out.*1 ++ L' ∧ (past_list sm now out ∧ Forall (λ x, hash_reached sm L now (key_hash x.1.2)) out) ∧
    (∀ k e, (k, e) ∈ L' → hash_reached sm L now (hash_key k) → past sm now e = None) ∧
    (budget sm' = budget sm ∧ ctx sm' = ctx sm ∧ local sm' = local sm ∧ notified sm' = notified sm) ∧
    (∀ k e, (k, e) ∈ L' → match ttl_timer_handle e with
       | None => expires_at e = 0
       | Some i => ∃ d, Timer.armed (wheel sm') i = Some (hash_key k, d) ∧
           expires_at e +sat grace_ns (ctx sm) ≤ Timer.deadline (wheel sm') d ∧ now < Timer.deadline (wheel sm') d
       end).
Proof.
  intros [Hb Hp Hv Hbud] Hn. unfold expire_due. pose proof (proj1 (swept_body _ _ _) Hb) as Hs. pose proof (sw_wheel _ _ _ _ _ Hs) as Ho.
  destruct (owns_advance _ now _ _ Ho Hn) as (fired&w&es&late&Ead&Hl&_&Hsplit&How&Hfired&Hne&Hcur). rewrite Ead. cbn [mbind option_bind].
  pose proof (late_reached _ _ _ _ _ _ _ _ Ho Hn Ead Hsplit How) as Hlr.
  assert (Hhr : ∀ h, h ∈ fired ↔ hash_reached sm L now h).
  { intros h. rewrite Hfired, list_elem_of_fmap. split.
    - intros (e&->&Hin). assert (Hin2 : e ∈ L.*2) by (rewrite Hsplit; apply elem_of_app; by right).
      pose proof Hin2 as ([k e2]&->&HinL)%list_elem_of_fmap. exists k, e2. split; [done|]. split; [done|]. by apply Hlr.
    - intros (k&e&Hin&<-&Hr). assert (Hin2 : e ∈ L.*2) by (apply list_elem_of_fmap; by exists (k, e)). exists e. split; [done|]. by apply Hlr. }
  assert (Hlp : Forall (λ e, is_Some (past sm now e)) late).
  { apply Forall_forall. intros e Hin. assert (Hin2 : e ∈ L.*2) by (rewrite Hsplit; apply elem_of_app; by right).
    rewrite (reached_past sm now L.*2 e Ho Hin2); [done|]. by apply Hlr. }
  assert (Hend : ∀ sm2 L2 es2, swept cmax sm2 L2 es2 [] → ctx sm2 = ctx sm → (Timer.w_slots (wheel sm2) ≠ [] → now < Timer.last_advanced (wheel sm2) + Timer.tick_ns (wheel sm2)) →
    ∀ k e, (k, e) ∈ L2 → match ttl_timer_handle e with None => expires_at e = 0 | Some i => ∃ d, Timer.armed (wheel sm2) i = Some (hash_key k, d) ∧
      expires_at e +sat grace_ns (ctx sm) ≤ Timer.deadline (wheel sm2) d ∧ now < Timer.deadline (wheel sm2) d end).
  { intros sm2 L2 es2 Hs2 Hc2 Hcur2 k e Hin. pose proof (sw_wheel _ _ _ _ _ Hs2) as [Hwf _ Harm _ _]. rewrite Hc2 in Harm.
    assert (He : e ∈ es2) by (rewrite <- (app_nil_r es2), <- (sw_split _ _ _ _ _ Hs2); apply list_elem_of_fmap; by exists (k, e)).
    eapply Forall_forall in Harm; [|exact He]. pose proof (th_hash _ _ (sw_table _ _ _ _ _ Hs2)) as Hh. eapply Forall_forall in Hh; [|exact Hin]. simpl in Hh.
    unfold entry_armed in Harm. destruct (ttl_timer_handle e) as [i|]; [|done]. destruct Harm as (_&d&Ea&Hd). rewrite Hh in Ea. exists d. split; [done|]. split; [done|].
    eapply armed_ahead; [done| |done]. apply Hcur2. by eapply armed_slots. }
  assert (Hs1 : swept cmax (with_wheel w sm) L es late) by (destruct Hs; by split).
  assert (Hp1 : policy_ok exact cmax (with_wheel w sm) L) by (unfold policy_ok in *; by cbn).
  destruct fired as [|h0 fired0] eqn:Ef.
  - assert (late = []) as -> by (apply Permutation_nil in Hfired; by apply fmap_nil_inv in Hfired).
    exists [], (with_wheel w sm), L. split; [done|]. split; [by apply (swept_nil_late exact cmax _ L es)|]. split; [done|]. split; [by split; constructor|].
    split; [by intros k e _ ?%Hhr%elem_of_nil|]. split; [done|]. by apply (Hend _ _ es).
  - rewrite <- Ef in *. destruct (apply_reads_spec exact cmax (with_wheel w sm) L Hp1) as (sm2&->&Hp2&Hq2&_); [apply Hb|]. cbn [mbind option_bind].
    assert (Hw2 : wheel sm2 = w) by (by rewrite (q_wheel _ _ Hq2)). assert (Hctx : ctx sm2 = ctx sm) by (by rewrite (q_ctx _ _ Hq2)).
    destruct (expire_fired_spec exact cmax now fired sm2 L es late) as (out&sm3&L3&es3&->&Hs3&Hp3&Hrm&HL&[Hpast Hh]&Hrest);
      [by eapply swept_quiet|done|unfold Timer.clock_ok in *; by rewrite Hw2, Hl|by rewrite Hfired|unfold past in *; by rewrite Hctx|].
    pose proof Hq2 as [Q1 Q2 Q3 Q4 Q5 Q6 Q7 Q8 Q9]. pose proof Hrm as [R1 R2 R3 R4 R5 R6 R7 R8].
    cbn [with_wheel budget ctx victims local notified sm_builtin] in *. unfold past_list, past in *. rewrite Hctx in *.
    exists out, sm3, L3. split; [done|]. split; [apply (swept_nil_late exact cmax _ L3 es3); [done|done|congruence|by rewrite R1, Q3]|].
    split; [done|]. split; [split; [done|]; eapply Forall_impl; [exact Hh|]; intros x; apply Hhr|]. split; [intros k e Hin Hr%Hhr; by eapply Hrest|].
    split; [split_and!; congruence|].
    apply (Hend _ _ es3); [done|congruence|]. intros _. rewrite Hw2 in R6. destruct R6 as (Hne3&->&->); [apply Hne; by rewrite Ef|]. apply Hcur, Hne. by rewrite Ef.
Qed.
End Expiry.
