(* ===== verification/ShardProps.v ===== *)
(** * What a shard promises

    The theorems about [ShardMap] as a whole: an insert is a map update followed by
    evictions, which keep the cost within the budget when the policy does its part;
    removals and expiry sweeps take out exactly what they say. *)

From S2P Require Import Prelude Arena LruList Policy Slab ReadRing ShardPolicy HS3Fifo HTinyLfu Builtin.
From S2P Require Timer ReadLog Lru Fifo.
From S2P Require Import Entry HashTable Store ShardTable ShardTimers ShardInv ShardInsert ShardBuiltin Shard ShardRemove ShardExpiry.

Section Props.
Context {K V P Index : Type} {A HT : Type → Type}.
Context `{Countable K} `{!CachePolicy K P} `{!PolicyLaws K P} `{EqDecision Index} `{!Arena Index A} `{!ArenaLaws Index A}.
Context `{!HashTable HT} `{!HashTableLaws HT} `{!StoreHash K}.
Notation entry := (CacheEntry V Index).
Notation item := (K * entry)%type.
Notation shard_map := (ShardMap K V P Index A HT).
Implicit Types (sm : shard_map) (L : list item) (k : K) (e : entry) (exact : Prop) (cmax : Z).

(** A new shard is empty and keeps the invariant. *)
Lemma shard_inv_new exact cmax n ws tick cap (p : P) choice c now :
  policy_wf p → tracked p = ∅ → 0 ≤ cmax < U64 → 1 ≤ n → 0 ≤ cap < U64 → 1 ≤ ws → 2 * ws < U64 → 0 ≤ now → now + ws < U64 → 0 ≤ grace_ns c →
  shard_inv exact cmax (shard_map_new n ws tick cap p choice c now : shard_map) [].
Proof.
  intros Hpw Ht Hc Hn Hcap Hws1 Hws2 Hnow Hnw Hg.
  assert (Hw : wheel_owns (V:=V) (grace_ns c) (Timer.new ws (nanos tick) now : Timer.TimerWheel Index A) [] []).
  { apply owns_new; try done. unfold nanos. apply Z.mod_pos_bound. u64_lia. }
  split.
  - split; try done; [apply table_holds_new|unfold room; cbn; lia|lia].
  - unfold policy_ok, shard_map_new. cbn [sm_builtin policy sm_reads]. destruct choice as [[ch cp]|]; cbn [fmap option_fmap option_map].
    + destruct (builtin_wf_new ch cp) as [Hb Hbn]. split; [done|]. split; [constructor|]. split; [done|vm_compute; reflexivity].
    + split; [split; [done|]|exists []; split; [apply ReadLog.logged_new|constructor]]. rewrite Ht.
      split; [intros k; rewrite lookup_empty; split; [by intros [? ?]|by intros ?%elem_of_nil]|]. split; [apply map_Forall_empty|done].
  - done.
  - cbn. unfold shard_budget. destruct (cap =? u64_max); [u64_lia|].
    assert (0 ≤ cap / n ≤ cap) by (split; [apply Z.div_pos; lia|apply Z.div_le_upper_bound; nia]). lia.
Qed.

(** C6: an insert returns and keeps the shard's invariant, for every policy that meets
    its contract and for the built-in ones.  It returns the entry the key had; then
    every lookup is as if the map had been updated with the new entry and the
    evicted entries removed; an evicted entry was in the updated map; the listener is
    told of exactly the evicted entries, in order; the shard's cost is the sum of its
    entries' costs; the counters count the insert, its cost, the evictions and the
    change of the cost. *)
Theorem shard_insert_updates cmax sm L now k e :
  shard_inv False cmax sm L → clock_fits sm now → fresh_entry cmax e → has_room cmax sm L →
  ∃ old ev sm' L', insert now k e sm = Some (old, sm') ∧ shard_inv False cmax sm' L' ∧ inserted sm k e true old ev sm' L'.
Proof.
  intros Hi Hn Hf Hr. destruct (insert_inner_spec False cmax sm L now k e true) as (old&ev&sm'&L'&?&?&?&_); [done..|]. by exists old, ev, sm', L'.
Qed.

(** C15: with a key-based policy that records the costs it is told and evicts enough (LRU,
    Random, SIEVE and S3-FIFO are such), the shard's cost is within its budget when an
    insert returns. *)
Theorem shard_capacity_policy `{!ExactCosts K P} `{!EvictsEnough K P} cmax sm L now k e :
  shard_inv True cmax sm L → sm_builtin sm = None → clock_fits sm now → fresh_entry cmax e → has_room cmax sm L →
  ∃ old sm' L', insert now k e sm = Some (old, sm') ∧ shard_inv True cmax sm' L' ∧
    costs (kcosts L') = sm_cost sm' ∧ sm_cost sm' ≤ budget sm'.
Proof.
  intros Hi Hb Hn Hf Hr. destruct (insert_inner_spec True cmax sm L now k e true) as (old&ev&sm'&L'&E&Hi'&[I1 I2 I3 I4 I5 I6]&_&Hcap&_); [done..|].
  exists old, sm', L'. split; [done|]. split; [done|]. split; [done|]. destruct I6 as (->&_). by apply Hcap.
Qed.

(** C16: with the built-in S3-FIFO policy the shard's cost is within its budget when an
    insert returns. *)
Theorem shard_capacity_s3fifo cmax sm L now k e p :
  shard_inv False cmax sm L → sm_builtin sm = Some (B_S3Fifo p) → clock_fits sm now → fresh_entry cmax e → has_room cmax sm L →
  ∃ old sm' L', insert now k e sm = Some (old, sm') ∧ shard_inv False cmax sm' L' ∧
    costs (kcosts L') = sm_cost sm' ∧ sm_cost sm' ≤ budget sm'.
Proof.
  intros Hi Hb Hn Hf Hr. destruct (insert_inner_spec False cmax sm L now k e true) as (old&ev&sm'&L'&E&Hi'&[I1 I2 I3 I4 I5 I6]&_&_&Hcap); [done..|].
  exists old, sm', L'. split; [done|]. split; [done|]. split; [done|]. destruct I6 as (->&_). by apply (Hcap _ Hb).
Qed.

(** a removal returns what a lookup would have and takes exactly that key out, its
    cost with it; the invariant is kept. *)
Theorem shard_remove_takes_key exact cmax sm L k :
  shard_inv exact cmax sm L →
  ∃ sm' L', remove k sm = Some (get k sm, sm') ∧ shard_inv exact cmax sm' L' ∧
    (∀ j, get j sm' = if decide (j = k) then None else get j sm) ∧
    sm_cost sm' = sm_cost sm - match get k sm with Some e => cost e | None => 0 end ∧
    notified sm' = notified sm.
Proof.
  intros Hi. destruct (remove_entry_spec exact cmax sm L k Hi) as (sm'&L'&E&Hi'&Hrm&HL&Hget). exists sm', L'. unfold remove. rewrite E. cbn [mbind option_bind].
  split; [by destruct (get k sm)|]. split; [done|]. split; [done|]. split; [|apply Hrm].
  destruct Hi as [Hb _ _ _], Hi' as [Hb' _ _ _]. rewrite (b_cost _ _ _ _ Hb), (b_cost _ _ _ _ Hb'), (kcosts_perm _ _ HL).
  assert (costs (kcosts (((λ e, (k, e)) <$> option_list (get k sm)) ++ L')) = match get k sm with Some e => cost e | None => 0 end + costs (kcosts L'))
    as -> by (by destruct (get k sm)). lia.
Qed.

(** [expire_all] returns exactly the entries past their time to live (plus the grace
    period) or their time to idle, each with the limit that ended it, and keeps every
    other entry as it is. *)
Theorem shard_expire_all_exact exact cmax sm L now :
  shard_inv exact cmax sm L →
  ∃ out sm' L', expire_all now sm = Some (out, sm') ∧ shard_inv exact cmax sm' L' ∧ NoDup out.*1.*1 ∧
    ∀ k, match get k sm with
         | None => get k sm' = None ∧ k ∉ out.*1.*1
         | Some e => match past sm now e with
                     | Some by_ => (k, e, by_) ∈ out ∧ get k sm' = None
                     | None => k ∉ out.*1.*1 ∧ get k sm' = Some e
                     end
         end.
Proof.
  intros Hi. unfold expire_all. set (hashes := _ <$> _). pose proof Hi as [Hb _ _ _]. pose proof (b_table _ _ _ _ Hb) as Ht.
  destruct (remove_expired_hashes_spec exact cmax now hashes sm L Hi) as (out&sm'&L'&E&Hi'&_&Hnd&HL&Hpast&Hrest).
  exists out, sm', L'. split; [done|]. split; [done|]. split; [done|]. destruct Hi' as [Hb' _ _ _]. pose proof (b_table _ _ _ _ Hb') as Ht'. intros k.
  destruct (get_split sm sm' L L' out k Ht Ht' HL) as [Hget Hout].
  assert (Hin : k ∈ out.*1.*1 → ∃ e by_, (k, e, by_) ∈ out ∧ get k sm = Some e ∧ past sm now e = Some by_).
  { intros ([k1 e]&->&([[k2 e2] by_]&[= <- <-]&Hx)%list_elem_of_fmap)%list_elem_of_fmap. exists e, by_. split; [done|].
    split; [by apply (Hout e by_)|]. by eapply Forall_forall in Hpast; [|exact Hx]. }
  destruct (get k sm) as [e|] eqn:Eg.
  - assert (HinL : (k, e) ∈ L) by (apply elem_of_list_to_map_2; by rewrite <- (get_spec sm L k Ht)).
    destruct (past sm now e) as [by_|] eqn:Ep.
    + assert (Hk : k ∈ out.*1.*1).
      { destruct (decide (k ∈ out.*1.*1)) as [|Hn]; [done|]. exfalso.
        assert (HinL' : (k, e) ∈ L') by (apply elem_of_list_to_map_2; by rewrite <- (get_spec sm' L' k Ht')).
        assert (Hh : hash_key k ∈ hashes); [|by rewrite (Hrest k e HinL' Hh) in Ep].
        pose proof (th_hash _ _ Ht) as Hkh. eapply Forall_forall in Hkh; [|exact HinL]. simpl in Hkh. apply list_elem_of_fmap. exists (k, e). split; [done|].
        apply list_elem_of_filter. split; [cbn; unfold past in Ep; by rewrite Ep|]. by rewrite (table_holds_iter _ _ Ht). }
      destruct (Hin Hk) as (e1&by1&Hx&[= <-]&Ep1). rewrite Ep in Ep1. injection Ep1 as <-. split; [done|]. by rewrite Hget, decide_True.
    + assert (Hk : k ∉ out.*1.*1) by (intros Hk; destruct (Hin Hk) as (e1&by1&_&[= <-]&Ep1); congruence). split; [done|]. by rewrite Hget, decide_False.
  - assert (Hk : k ∉ out.*1.*1) by (intros Hk; by destruct (Hin Hk) as (?&?&_&?&_)). split; [|done]. by rewrite Hget, decide_False.
Qed.

(** A timer under [hash] is due at [now]. *)
Definition hash_due sm (now hash : Z) : Prop := ∃ k e, get k sm = Some e ∧ hash_key k = hash ∧ timer_reached (wheel sm) now e.

Lemma hash_due_reached sm L now hash : table_holds (table sm) L → hash_due sm now hash ↔ hash_reached sm L now hash.
Proof.
  intros Ht. unfold hash_due, hash_reached. pose proof (th_nodup _ _ Ht) as Hnd. pose proof (th_hash _ _ Ht) as Hh. rewrite Forall_forall in Hh.
  split; intros (k&e&H1&H2&H3); exists k, e; rewrite (get_spec sm L k Ht), <- elem_of_list_to_map in * by done; specialize (Hh (k, e) ltac:(done)); simpl in Hh;
    (split; [done|]); (split; [congruence|done]).
Qed.

(** C18: [expire_due] returns exactly the entries past a limit under the hash of a timer that is due, each with the limit that ended it; it removes those and leaves
    every other as it is.  Among them is every entry whose own timer is due.  Afterwards every entry with a time to live has a timer that is armed
    for its hash, not due before its expiry and still ahead of the clock, also if keys share a hash. *)
Theorem shard_expire_due_sweeps exact cmax sm L now :
  shard_inv exact cmax sm L → clock_fits sm now →
  ∃ out sm' L', expire_due now sm = Some (out, sm') ∧ shard_inv exact cmax sm' L' ∧
    (∀ k e by_, (k, e, by_) ∈ out ↔ get k sm = Some e ∧ past sm now e = Some by_ ∧ hash_due sm now (hash_key k)) ∧
    (∀ k, get k sm' = if decide (k ∈ out.*1.*1) then None else get k sm) ∧
    (∀ k e, get k sm = Some e → timer_reached (wheel sm) now e → (k, e, Ttl) ∈ out ∧ get k sm' = None) ∧
    (∀ k e, get k sm' = Some e →
       match ttl_timer_handle e with
       | None => expires_at e = 0
       | Some i => ∃ d, Timer.armed (wheel sm') i = Some (hash_key k, d) ∧
           expires_at e +sat grace_ns (ctx sm) ≤ Timer.deadline (wheel sm') d ∧ now < Timer.deadline (wheel sm') d
       end).
Proof.
  intros Hi Hn. destruct (expire_due_spec exact cmax sm L now Hi Hn) as (out&sm'&L'&E&Hi'&HL&[Hpast Hhash]&Hrest&_&Htimers).
  pose proof (b_table _ _ _ _ (si_body _ _ _ _ Hi)) as Ht. pose proof (b_table _ _ _ _ (si_body _ _ _ _ Hi')) as Ht'.
  pose proof (th_nodup _ _ Ht) as Hnd. pose proof (th_hash _ _ Ht) as Hkh. unfold past_list in Hpast. rewrite Forall_forall in Hkh. rewrite Forall_forall in Hpast. rewrite Forall_forall in Hhash.
  assert (Hg : ∀ k e, get k sm = Some e ↔ (k, e) ∈ L) by (intros k e; by rewrite (get_spec sm L k Ht), elem_of_list_to_map).
  assert (Hout : ∀ k e by_, (k, e, by_) ∈ out ↔ get k sm = Some e ∧ past sm now e = Some by_ ∧ hash_due sm now (hash_key k)).
  { intros k e by_. rewrite (hash_due_reached sm L) by done. split.
    - intros Hin. destruct (get_split sm sm' L L' out k Ht Ht' HL) as [_ Hge]. specialize (Hge e by_ Hin). split; [done|]. split; [exact (Hpast _ Hin)|].
      apply Hg in Hge. specialize (Hkh _ Hge). specialize (Hhash _ Hin). simpl in *. by rewrite <- Hkh.
    - intros (Hge&Hp&Hd). apply Hg in Hge. rewrite HL in Hge. apply elem_of_app in Hge as [([[k1 e1] by1]&[= <- <-]&Hin)%list_elem_of_fmap|Hin].
      + specialize (Hpast _ Hin). simpl in Hpast. rewrite Hp in Hpast. by injection Hpast as ->.
      + by rewrite (Hrest k e Hin Hd) in Hp. }
  assert (Hget : ∀ k, get k sm' = if decide (k ∈ out.*1.*1) then None else get k sm) by (intros k; apply (get_split sm sm' L L' out k Ht Ht' HL)).
  exists out, sm', L'. split; [done|]. split; [done|]. split; [exact Hout|]. split; [exact Hget|]. split.
  - intros k e Hge Hr. assert (Hin : (k, e, Ttl) ∈ out).
    { apply Hout. split; [done|]. split; [|by exists k, e]. apply (reached_past sm now L.*2); [|apply list_elem_of_fmap; exists (k, e); by rewrite <- Hg|done].
      by apply (sw_wheel cmax sm L), swept_body, Hi. }
    split; [done|]. rewrite Hget, decide_True; [done|]. apply list_elem_of_fmap. exists (k, e). split; [done|]. apply list_elem_of_fmap. by exists (k, e, Ttl).
  - intros k e Hge. apply Htimers. rewrite (get_spec sm' L' k Ht') in Hge. by apply elem_of_list_to_map_2.
Qed.
End Props.

(** ** Concrete shards *)

(** Both are LRU lists underneath; the instances go by the name. *)
#[local] Typeclasses Opaque Lru.LruPolicy Fifo.Fifo.

#[local] Instance nat_store_hash : StoreHash nat := λ k, Z.of_nat k.

Definition lru_shard : ShardMap nat nat (Lru.LruPolicy nat counter_arena nat) nat counter_arena list_table :=
  shard_map_new 1 4 10 100 Lru.new None (mk_ctx true 0 0) 0.
Definition fifo_shard : ShardMap nat nat (Fifo.Fifo nat counter_arena nat) nat counter_arena list_table :=
  shard_map_new 1 4 10 100 Fifo.new None (mk_ctx true 0 0) 0.
Definition builtin_shard (ch : BuiltinChoice) : ShardMap nat nat (Lru.LruPolicy nat counter_arena nat) nat counter_arena list_table :=
  shard_map_new 1 4 10 100 Lru.new (Some (ch, 100)) (mk_ctx true 0 0) 0.

(** An entry of cost [c] without limits, and one that expires at [x]. *)
Definition plain (v : nat) (c : Z) : CacheEntry nat nat := Entry.new 0 v c None None.
Definition until (v : nat) (c x : Z) : CacheEntry nat nat := new_with_custom_expiry 0 v c x None.

(** the documentation promises that capacity holds when an insert returns; two policies
    break it.  FIFO keeps the first cost of a key inserted again: after 1 (90), 1 again (1), 2 (90) and
    3 (50) it evicts key 1, which it takes for 90, and the shard of budget 100 holds 140.  An entry in
    the window of the built-in W-TinyLFU that is inserted again with a larger cost is not
    evicted, and the shard of budget 100 holds 1000. *)
Example shard_over_budget :
  (r ← insert 0 1%nat (plain 0 90) fifo_shard; r ← insert 0 1%nat (plain 0 1) r.2; r ← insert 0 2%nat (plain 0 90) r.2;
   r ← insert 0 3%nat (plain 0 50) r.2; Some (sm_cost r.2, budget r.2)) = Some (140, 100) ∧
  (r ← insert 0 1%nat (plain 0 1) (builtin_shard TinyLfu); r ← insert 0 1%nat (plain 0 1000) r.2;
   Some (sm_cost r.2, budget r.2)) = Some (1000, 100).
Proof. split; vm_compute; reflexivity. Qed.

(** The invariant of the concrete shards, and the side conditions of their inserts. *)
Lemma lru_shard_inv exact : shard_inv exact 100 lru_shard [].
Proof.
  apply shard_inv_new; try done; try u64_lia. exists []. apply Repr_new.
Qed.

Lemma builtin_shard_inv ch : shard_inv False 100 (builtin_shard ch) [].
Proof.
  apply shard_inv_new; try done; try u64_lia. exists []. apply Repr_new.
Qed.

Lemma room_small {P} `{!CachePolicy nat P} (sm : ShardMap nat nat P nat counter_arena list_table) L : (length L ≤ 5)%nat → has_room 100 sm L.
Proof. intros Hl. split; [unfold room, U64; lia|]. intros _. change NIL with 4294967295. lia. Qed.

Lemma plain_fresh v c : 0 ≤ c ≤ 100 → fresh_entry 100 (plain v c).
Proof. intros Hc. split; [done|]. split; [done|]. cbn. u64_lia. Qed.

Lemma clock_small {P} `{!CachePolicy nat P} (sm : ShardMap nat nat P nat counter_arena list_table) now :
  Timer.wheel_len (wheel sm) = 4 → 0 ≤ now < 1000 → clock_fits sm now.
Proof. intros Hl Hn. unfold clock_fits, Timer.clock_ok. rewrite Hl. u64_lia. Qed.

(** Two inserts of 60 in the LRU shard of 100: the second evicts the first. *)
Lemma shard_insert_updates_witness :
  ∃ sm1 old ev sm2 L, snd <$> insert 0 1%nat (plain 10 60) lru_shard = Some sm1 ∧
    insert 0 2%nat (plain 20 60) sm1 = Some (old, sm2) ∧ inserted sm1 2%nat (plain 20 60) true old ev sm2 L ∧
    (value <$> get 1%nat sm2, value <$> get 2%nat sm2, notified sm2, sm_cost sm2) = (None, Some 20%nat, [(1%nat, 10%nat)], 60).
Proof.
  destruct (insert_inner_spec False 100 lru_shard [] 0 1%nat (plain 10 60) true) as (old1&ev1&sm1&L1&E1&Hi1&[_ _ _ _ _ (_&_&_&Hl1)]&Hlen1&_);
    [done|apply lru_shard_inv|by apply clock_small|by apply plain_fresh|by apply room_small; simpl; lia|].
  destruct (shard_insert_updates 100 sm1 L1 0 2%nat (plain 20 60) Hi1) as (old&ev&sm2&L2&E2&_&Hins);
    [by apply clock_small|by apply plain_fresh|apply room_small; simpl in Hlen1; lia|].
  exists sm1, old, ev, sm2, L2. change (insert 0 1%nat (plain 10 60) lru_shard = Some (old1, sm1)) in E1. rewrite E1.
  do 3 (split; [done|]).
  assert ((r ← insert 0 1%nat (plain 10 60) lru_shard; r ← insert 0 2%nat (plain 20 60) r.2;
    Some (value <$> get 1%nat r.2, value <$> get 2%nat r.2, notified r.2, sm_cost r.2)) =
    Some (None, Some 20%nat, [(1%nat, 10%nat)], 60)) as Eo by (vm_compute; reflexivity).
  rewrite E1 in Eo. cbn [mbind option_bind snd] in Eo. rewrite E2 in Eo. cbn [mbind option_bind snd] in Eo. by injection Eo as -> -> -> ->.
Defined.

Lemma shard_capacity_policy_witness :
  ∃ sm1 old sm2, snd <$> insert 0 1%nat (plain 10 60) lru_shard = Some sm1 ∧
    insert 0 2%nat (plain 20 60) sm1 = Some (old, sm2) ∧ sm_cost sm2 ≤ budget sm2 ∧ budget sm2 = 100.
Proof.
  destruct (insert_inner_spec True 100 lru_shard [] 0 1%nat (plain 10 60) true) as (old1&ev1&sm1&L1&E1&Hi1&[_ _ _ _ _ (Hb1&_&Hk1&Hl1)]&Hlen1&_);
    [intros _; apply _|apply lru_shard_inv|by apply clock_small|by apply plain_fresh|by apply room_small; simpl; lia|].
  destruct (shard_capacity_policy 100 sm1 L1 0 2%nat (plain 20 60) Hi1) as (old&sm2&L2&E2&_&_&Hcap);
    [apply eq_None_not_Some; rewrite Hk1; by intros [? ?]|by apply clock_small|by apply plain_fresh|apply room_small; simpl in Hlen1; lia|].
  exists sm1, old, sm2. change (insert 0 1%nat (plain 10 60) lru_shard = Some (old1, sm1)) in E1. rewrite E1. do 3 (split; [done|]).
  assert ((r ← insert 0 1%nat (plain 10 60) lru_shard; r ← insert 0 2%nat (plain 20 60) r.2; Some (budget r.2)) = Some 100) as Eo by (vm_compute; reflexivity).
  rewrite E1 in Eo. cbn [mbind option_bind snd] in Eo. rewrite E2 in Eo. cbn [mbind option_bind snd] in Eo. by injection Eo as ->.
Defined.

Lemma shard_capacity_s3fifo_witness :
  ∃ p sm1 old sm2, snd <$> insert 0 1%nat (plain 10 60) (builtin_shard S3Fifo) = Some sm1 ∧ sm_builtin sm1 = Some (B_S3Fifo p) ∧
    insert 0 2%nat (plain 20 60) sm1 = Some (old, sm2) ∧ sm_cost sm2 ≤ budget sm2 ∧ budget sm2 = 100.
Proof.
  destruct (insert_inner_spec False 100 (builtin_shard S3Fifo) [] 0 1%nat (plain 10 60) true) as (old1&ev1&sm1&L1&E1&Hi1&[_ _ _ _ _ (Hb1&_&Hk1&Hl1)]&Hlen1&_);
    [done|apply builtin_shard_inv|by apply clock_small|by apply plain_fresh|by apply room_small; simpl; lia|].
  change (insert 0 1%nat (plain 10 60) (builtin_shard S3Fifo) = Some (old1, sm1)) in E1.
  assert ((r ← insert 0 1%nat (plain 10 60) (builtin_shard S3Fifo); Some (match sm_builtin r.2 with Some (B_S3Fifo _) => true | _ => false end)) = Some true)
    as Es by (vm_compute; reflexivity).
  rewrite E1 in Es. cbn [mbind option_bind snd] in Es. destruct (sm_builtin sm1) as [[p|p]|] eqn:Eb; [done| |done]. exists p, sm1.
  destruct (shard_capacity_s3fifo 100 sm1 L1 0 2%nat (plain 20 60) p Hi1 Eb) as (old&sm2&L2&E2&_&_&Hcap);
    [by apply clock_small|by apply plain_fresh|apply room_small; simpl in Hlen1; lia|].
  exists old, sm2. rewrite E1. do 4 (split; [done|]).
  assert ((r ← insert 0 1%nat (plain 10 60) (builtin_shard S3Fifo); r ← insert 0 2%nat (plain 20 60) r.2; Some (budget r.2)) = Some 100) as Eo by (vm_compute; reflexivity).
  rewrite E1 in Eo. cbn [mbind option_bind snd] in Eo. rewrite E2 in Eo. cbn [mbind option_bind snd] in Eo. by injection Eo as ->.
Defined.

Lemma shard_remove_takes_key_witness :
  ∃ sm1 sm2, snd <$> insert 0 1%nat (plain 10 60) lru_shard = Some sm1 ∧ remove 1%nat sm1 = Some (get 1%nat sm1, sm2) ∧
    value <$> get 1%nat sm1 = Some 10%nat ∧ get 1%nat sm2 = None.
Proof.
  destruct (insert_inner_spec False 100 lru_shard [] 0 1%nat (plain 10 60) true) as (old1&ev1&sm1&L1&E1&Hi1&_);
    [done|apply lru_shard_inv|by apply clock_small|by apply plain_fresh|by apply room_small; simpl; lia|].
  change (insert 0 1%nat (plain 10 60) lru_shard = Some (old1, sm1)) in E1.
  destruct (shard_remove_takes_key False 100 sm1 L1 1%nat Hi1) as (sm2&L2&E2&_&Hg&_). exists sm1, sm2. rewrite E1. split; [done|]. split; [done|].
  assert ((r ← insert 0 1%nat (plain 10 60) lru_shard; Some (value <$> get 1%nat r.2)) = Some (Some 10%nat)) as Eo by (vm_compute; reflexivity).
  rewrite E1 in Eo. cbn [mbind option_bind snd] in Eo. injection Eo as ->. split; [done|]. by rewrite Hg.
Defined.

(** An entry that expires at 15 and one without limits: at 20 the first is returned and
    the second stays. *)
Lemma shard_expire_all_exact_witness :
  ∃ sm1 out sm2, snd <$> (r ← insert 0 1%nat (until 10 6 15) lru_shard; insert 0 2%nat (plain 20 6) r.2) = Some sm1 ∧
    expire_all 20 sm1 = Some (out, sm2) ∧ get 1%nat sm2 = None ∧ get 2%nat sm2 = get 2%nat sm1 ∧ is_Some (get 2%nat sm1).
Proof.
  destruct (insert_inner_spec False 100 lru_shard [] 0 1%nat (until 10 6 15) true) as (old1&ev1&sm1&L1&E1&Hi1&[_ _ _ _ _ (_&_&_&Hl1)]&Hlen1&_);
    [done|apply lru_shard_inv|by apply clock_small|split; [done|split; [done|cbn; u64_lia]]|by apply room_small; simpl; lia|].
  destruct (insert_inner_spec False 100 sm1 L1 0 2%nat (plain 20 6) true) as (old2&ev2&sm2&L2&E2&Hi2&_);
    [done|done|by apply clock_small|by apply plain_fresh|apply room_small; simpl in Hlen1; lia|].
  destruct (shard_expire_all_exact False 100 sm2 L2 20 Hi2) as (out&sm3&L3&E3&_&_&Hall).
  change (insert 0 1%nat (until 10 6 15) lru_shard = Some (old1, sm1)) in E1. change (insert 0 2%nat (plain 20 6) sm1 = Some (old2, sm2)) in E2.
  exists sm2, out, sm3. rewrite E1. cbn [mbind option_bind snd]. rewrite E2. split; [done|]. split; [done|].
  assert ((r ← insert 0 1%nat (until 10 6 15) lru_shard; r ← insert 0 2%nat (plain 20 6) r.2;
    Some (past r.2 20 <$> get 1%nat r.2, past r.2 20 <$> get 2%nat r.2)) = Some (Some (Some Ttl), Some None)) as Eo by (vm_compute; reflexivity).
  rewrite E1 in Eo. cbn [mbind option_bind snd] in Eo. rewrite E2 in Eo. cbn [mbind option_bind snd] in Eo. injection Eo as Ea Eb.
  pose proof (Hall 1%nat) as H1. pose proof (Hall 2%nat) as H2. destruct (get 1%nat sm2) as [e1|]; [|done]. destruct (get 2%nat sm2) as [e2|]; [|done].
  simpl in Ea, Eb. injection Ea as Ea. injection Eb as Eb. rewrite Ea in H1. rewrite Eb in H2. destruct H1 as [_ ->], H2 as [_ ->]. done.
Defined.

Lemma shard_expire_due_sweeps_witness :
  ∃ sm1 out sm2, snd <$> insert 0 1%nat (until 10 6 15) lru_shard = Some sm1 ∧
    expire_due 20 sm1 = Some (out, sm2) ∧ get 1%nat sm2 = None ∧ is_Some (get 1%nat sm1).
Proof.
  destruct (insert_inner_spec False 100 lru_shard [] 0 1%nat (until 10 6 15) true) as (old1&ev1&sm1&L1&E1&Hi1&[_ _ _ _ _ (_&_&_&Hl1)]&Hlen1&_);
    [done|apply lru_shard_inv|by apply clock_small|split; [done|split; [done|cbn; u64_lia]]|by apply room_small; simpl; lia|].
  destruct (shard_expire_due_sweeps False 100 sm1 L1 20 Hi1) as (out&sm2&L2&E2&_&Hk&Htimers); [by apply clock_small|].
  change (insert 0 1%nat (until 10 6 15) lru_shard = Some (old1, sm1)) in E1. exists sm1, out, sm2. rewrite E1. split; [done|]. split; [done|].
  assert ((r ← insert 0 1%nat (until 10 6 15) lru_shard; s ← expire_due 20 r.2; Some (bool_decide (is_Some (get 1%nat r.2)), bool_decide (is_Some (get 1%nat s.2)))) =
    Some (true, false)) as Eo by (vm_compute; reflexivity).
  rewrite E1 in Eo. cbn [mbind option_bind snd] in Eo. rewrite E2 in Eo. cbn [mbind option_bind snd] in Eo. injection Eo as Ea%bool_decide_eq_true Eb%bool_decide_eq_false.
  split; [by apply eq_None_not_Some|done].
Defined.
