(* ===== verification/Threads.v ===== *)
(** * Pools of threads

    The callers that interleave on a shared object are a list, indexed by thread; a
    step changes one of them.  Invariants count callers with [total]: the sum of a
    weight over the pool. *)

From S2P Require Import Prelude.

Section Total.
Context {T : Type}.
Implicit Types (ps : list T) (p q : T) (w : T → Z) (k j : nat).

Definition total w ps : Z := foldr (λ p s, w p + s) 0 ps.

Lemma total_cons w p ps : total w (p :: ps) = w p + total w ps.
Proof. done. Qed.

Lemma total_app w ps qs : total w (ps ++ qs) = total w ps + total w qs.
Proof. induction ps as [|p ps IH]; [done|]. rewrite <- app_comm_cons, !total_cons, IH. lia. Qed.

Lemma total_snoc w ps p : total w (ps ++ [p]) = total w ps + w p.
Proof. rewrite total_app, total_cons. change (total w []) with 0. lia. Qed.

(** A thread moves from [p] to [q]. *)
Lemma total_insert w ps k p q : ps !! k = Some p → total w (<[k:=q]> ps) = total w ps - w p + w q.
Proof.
  revert k. induction ps as [|r ps IH]; intros [|k] Hk; try done; simpl in Hk.
  - injection Hk as ->. change (<[0%nat:=q]> (p :: ps)) with (q :: ps). rewrite !total_cons. lia.
  - change (<[S k:=q]> (r :: ps)) with (r :: <[k:=q]> ps). rewrite !total_cons, (IH k Hk). lia.
Qed.

Lemma total_nonneg w ps : (∀ p, 0 ≤ w p) → 0 ≤ total w ps.
Proof. intros Hw. induction ps as [|p ps IH]; [done|]. rewrite total_cons. specialize (Hw p). lia. Qed.

Lemma total_elem w ps k p : (∀ p, 0 ≤ w p) → ps !! k = Some p → w p ≤ total w ps.
Proof.
  intros Hw. revert k. induction ps as [|q ps IH]; intros [|k] Hk; try done; simpl in Hk; rewrite total_cons.
  - injection Hk as ->. pose proof (total_nonneg w ps Hw). lia.
  - specialize (IH k Hk). specialize (Hw q). lia.
Qed.

(** Two threads that count make two. *)
Lemma total_two w ps k j p q :
  (∀ p, 0 ≤ w p) → ps !! k = Some p → ps !! j = Some q → k ≠ j → w p + w q ≤ total w ps.
Proof.
  intros Hw Hk Hj Hne.
  assert (Ed : total w ps = w p + total w (delete k ps)).
  { clear -Hk. revert k Hk. induction ps as [|r ps IH]; intros [|k] Hk; try done; simpl in Hk.
    - by injection Hk as ->.
    - change (delete (S k) (r :: ps)) with (r :: delete k ps). rewrite !total_cons, (IH k Hk). lia. }
  assert (∃ i, delete k ps !! i = Some q) as [i Hi].
  { destruct (decide (j < k)%nat).
    - exists j. by rewrite list_lookup_delete_lt.
    - exists (pred j). rewrite list_lookup_delete_ge by lia. by replace (S (pred j)) with j by lia. }
  pose proof (total_elem w _ i q Hw Hi). lia.
Qed.

Lemma total_pos w ps : 0 < total w ps → ∃ k p, ps !! k = Some p ∧ 0 < w p.
Proof.
  induction ps as [|p ps IH]; [done|]. rewrite total_cons. intros Hp.
  destruct (decide (0 < w p)); [by exists 0%nat, p|]. destruct IH as (k&q&?&?); [lia|]. by exists (S k), q.
Qed.

Lemma total_zero w ps : (∀ k p, ps !! k = Some p → w p = 0) → total w ps = 0.
Proof.
  induction ps as [|p ps IH]; [done|]. intros Hz. rewrite total_cons, (Hz 0%nat p eq_refl), IH; [done|].
  intros k q Hk. by apply (Hz (S k)).
Qed.
End Total.

(** Another thread's pc is not touched. *)
Lemma insert_other {T} (ps : list T) k j p q : <[k:=q]> ps !! j = Some p → (j = k ∧ p = q) ∨ (j ≠ k ∧ ps !! j = Some p).
Proof.
  intros H. destruct (decide (j = k)) as [->|]; [left|right].
  - apply list_lookup_insert_Some in H as [(_&->&_)|[? _]]; done.
  - by rewrite list_lookup_insert_ne in H by done.
Qed.

(** ** Sums over threads and their cells

    A weight may also look at what a thread owns in a shared map: [isum n f] sums [f] over
    the threads below [n]. *)

Definition isum (n : nat) (f : nat → Z) : Z := foldr (λ i s, f i + s) 0 (seq 0 n).

Section Isum.
Implicit Types (f g : nat → Z) (n i k : nat).

Lemma isum_mono n f g : (∀ i, (i < n)%nat → f i ≤ g i) → isum n f ≤ isum n g.
Proof.
  unfold isum. intros H. assert (Hs : ∀ i, i ∈ seq 0 n → f i ≤ g i) by (intros i Hi%elem_of_seq; apply H; lia).
  clear H. induction (seq 0 n) as [|i l IH]; simpl; [done|]. pose proof (Hs i ltac:(by left)).
  pose proof (IH ltac:(intros j Hj; apply Hs; by right)). lia.
Qed.

Lemma isum_ext n f g : (∀ i, (i < n)%nat → f i = g i) → isum n f = isum n g.
Proof. intros H. apply Z.le_antisymm; apply isum_mono; intros i Hi; rewrite H; done. Qed.

Lemma isum_zero n f : (∀ i, (i < n)%nat → f i = 0) → isum n f = 0.
Proof.
  intros H. rewrite (isum_ext n f (λ _, 0) H). unfold isum. by induction (seq 0 n).
Qed.

Lemma isum_nonneg n f : (∀ i, (i < n)%nat → 0 ≤ f i) → 0 ≤ isum n f.
Proof. intros H. rewrite <- (isum_zero n (λ _, 0)) by done. by apply isum_mono. Qed.

(** One thread's weight changes. *)
Lemma isum_change n f g k : (k < n)%nat → (∀ i, (i < n)%nat → i ≠ k → g i = f i) → isum n g = isum n f - f k + g k.
Proof.
  unfold isum. intros Hk H. assert (Hs : ∀ i, i ∈ seq 0 n → i ≠ k → g i = f i) by (intros i Hi%elem_of_seq; apply H; lia).
  assert (Hin : k ∈ seq 0 n) by (apply elem_of_seq; lia). pose proof (NoDup_seq 0 n) as Hnd. clear H Hk.
  induction (seq 0 n) as [|i l IH]; [by apply elem_of_nil in Hin|]. apply NoDup_cons in Hnd as [Hi Hnd]. simpl.
  apply elem_of_cons in Hin as [->|Hin].
  - assert (foldr (λ i s, g i + s) 0 l = foldr (λ i s, f i + s) 0 l) as ->; [|lia].
    clear IH Hnd. induction l as [|j l IH]; [done|]. simpl. rewrite Hs, IH; [done| |set_solver|set_solver|set_solver].
    intros i0 Hi0. apply Hs. set_solver.
  - rewrite IH; [|set_solver|done|done]. rewrite (Hs i) by set_solver. lia.
Qed.
End Isum.
