(* ===== verification/Loader.v ===== *)
(** * Loads and their waiters ([cache/src/loader.rs])

    A [LoadFuture] is shared by the caller that runs the loader and by every thread or
    task that waits for it.  [caller_step] is one atomic access, or one critical section
    with no access outside the lock, of a waiter ([load_value_blocking] of
    [handles/sync.rs], [poll]), of [complete] and [fail], or of [drop_load]; [load_step]
    interleaves any number of them.  A set of threads holds the pending wakes: the
    token of [unpark], or a [Waker] that was woken. *)

From stdpp Require Import relations.
From S2P Require Import Prelude Threads.

Inductive Waiter := W_Sync (thread : nat) | W_Async (waker : nat).

Inductive State (V : Type) := Computing | Complete (v : V) | Panicked | Dropped.
Arguments Computing {V}.
Arguments Complete {V}.
Arguments Panicked {V}.
Arguments Dropped {V}.

Record Inner (V : Type) := mk_inner { state : State V; waiters : list Waiter }.
Arguments mk_inner {V}.
Arguments state {V}.
Arguments waiters {V}.

(** [locked] is the state of the mutex around [inner]. *)
Record LoadFuture (V : Type) := mk_load { inner : Inner V; locked : bool; leader : option nat; started : bool; dropped : bool }.
Arguments mk_load {V}.
Arguments inner {V}.
Arguments locked {V}.
Arguments leader {V}.
Arguments started {V}.
Arguments dropped {V}.

(** What [run] of a load does: the loader of the cache runs on the caller's thread, or as a
    task.  [None] is a panic. *)
Inductive Loader (K V : Type) := L_Sync (f : K → option (V * Z)) | L_Async (f : K → option (V * Z)).
Arguments L_Sync {K V}.
Arguments L_Async {K V}.

Section Code.
Context {V : Type}.
Notation future := (LoadFuture V).
Implicit Types (f : future) (v : V) (i : Inner V) (ts : gset nat) (k : nat) (st : State V).

Definition waiter_id (w : Waiter) : nat := match w with W_Sync t | W_Async t => t end.

Definition wake (w : Waiter) ts : gset nat :=
  match w with W_Sync thread => {[thread]} ∪ ts | W_Async waker => {[waker]} ∪ ts end.

Definition finish st i ts : Inner V * gset nat := (mk_inner st [], foldl (λ ts w, wake w ts) ts (waiters i)).

Definition queued : future := mk_load (mk_inner Computing []) false None false false.

Definition new (leader : option nat) : future := mk_load (mk_inner Computing []) false leader true false.

Definition claim f : bool * future := (negb (started f), mk_load (inner f) (locked f) (leader f) true (dropped f)).

Definition is_dropped f : bool := dropped f.

Definition with_inner i f : future := mk_load i (locked f) (leader f) (started f) (dropped f).
Definition with_locked b f : future := mk_load (inner f) b (leader f) (started f) (dropped f).
Definition with_dropped b f : future := mk_load (inner f) (locked f) (leader f) (started f) b.
Definition with_leader l f : future := mk_load (inner f) (locked f) l (started f) (dropped f).

(** [drop_load_locked], and the same under the lock of [drop_load] and of [poll]. *)
Definition drop_load_locked f ts : future * gset nat :=
  let '(i, ts) := finish Dropped (inner f) ts in (with_inner i f, ts).

Definition is_computing st : bool := match st with Computing => true | _ => false end.

(** A call between two of its steps. *)
Inductive Caller :=
  | S_lock | S_look | S_push | S_test | S_park
  | A_poll | A_look | A_push | A_test | A_pending
  | C_lock (st : State V) | C_finish (st : State V)
  | D_store | D_try | D_finish
  | Returned (v : V) | Panics | Ended.

Implicit Types (p : Caller) (ps : list Caller).

(** The loop at the end of [load_value_blocking], with [inner] locked: what it does with
    the state it sees. *)
Definition sync_look f ts : Caller * future * gset nat :=
  match state (inner f) with
  | Complete v => (Returned v, with_locked false f, ts)
  | Panicked | Dropped => (Panics, with_locked false f, ts)
  | Computing => if is_dropped f then let '(f, ts) := drop_load_locked f ts in (S_look, f, ts) else (S_push, f, ts)
  end.

Definition sync_wait_step k p f ts : option (Caller * future * gset nat) :=
  match p with
  | S_lock => if locked f then None else Some (S_look, with_locked true f, ts)
  | S_look => Some (sync_look f ts)
  | S_push => Some (S_test, with_locked false (with_inner (mk_inner (state (inner f)) (waiters (inner f) ++ [W_Sync k])) f), ts)
  | S_test => Some (if is_dropped f then S_lock else S_park, f, ts)
  | S_park => if decide (k ∈ ts) then Some (S_lock, f, ts ∖ {[k]}) else None
  | _ => None
  end.

(** [poll], with [inner] locked. *)
Definition poll_look f ts : Caller * future * gset nat :=
  match state (inner f) with
  | Complete v => (Returned v, with_locked false f, ts)
  | Panicked | Dropped => (Panics, with_locked false f, ts)
  | Computing =>
      if is_dropped f then let '(f, ts) := drop_load_locked f ts in (Panics, with_locked false f, ts) else (A_push, f, ts)
  end.

(** A task that returned [Pending] is polled again when its waker was woken. *)
Definition poll_step k p f ts : option (Caller * future * gset nat) :=
  match p with
  | A_poll => if locked f then Some (A_pending, f, {[k]} ∪ ts) else Some (A_look, with_locked true f, ts)
  | A_look => Some (poll_look f ts)
  | A_push => Some (A_test, with_locked false (with_inner (mk_inner (state (inner f)) (waiters (inner f) ++ [W_Async k])) f), ts)
  | A_test => Some (A_pending, f, if is_dropped f then {[k]} ∪ ts else ts)
  | A_pending => if decide (k ∈ ts) then Some (A_poll, f, ts ∖ {[k]}) else None
  | _ => None
  end.

(** [complete] ([C_lock (Complete v)]) and [fail] ([C_lock Panicked]). *)
Definition complete_step p f ts : option (Caller * future * gset nat) :=
  match p with
  | C_lock st => if locked f then None else Some (C_finish st, with_locked true f, ts)
  | C_finish st => let '(i, ts) := finish st (inner f) ts in Some (Ended, with_locked false (with_inner i f), ts)
  | _ => None
  end.

Definition drop_load_step p f ts : option (Caller * future * gset nat) :=
  match p with
  | D_store => Some (D_try, with_dropped true f, ts)
  | D_try => if locked f then Some (Ended, f, ts) else Some (D_finish, with_locked true f, ts)
  | D_finish =>
      let '(f, ts) := if is_computing (state (inner f)) then drop_load_locked f ts else (f, ts) in
      Some (Ended, with_locked false f, ts)
  | _ => None
  end.

Definition caller_step k p f ts : option (Caller * future * gset nat) :=
  match p with
  | S_lock | S_look | S_push | S_test | S_park => sync_wait_step k p f ts
  | A_poll | A_look | A_push | A_test | A_pending => poll_step k p f ts
  | C_lock _ | C_finish _ => complete_step p f ts
  | D_store | D_try | D_finish => drop_load_step p f ts
  | Returned _ | Panics | Ended => None
  end.

Definition system : Type := list Caller * future * gset nat.

(** [park] and an executor may also wake for no reason. *)
Inductive load_step : system → system → Prop :=
  | load_step_caller ps f ts k p p' f' ts' :
      ps !! k = Some p → caller_step k p f ts = Some (p', f', ts') → load_step (ps, f, ts) (<[k:=p']> ps, f', ts')
  | load_step_spurious ps f ts k p p' :
      ps !! k = Some p → (p, p') ∈ [(S_park, S_lock); (A_pending, A_poll)] → load_step (ps, f, ts) (<[k:=p']> ps, f, ts).
End Code.

(** ** No waiter sleeps through the end of a load *)

Section Proofs.
Context {V : Type}.
Notation future := (LoadFuture V).
Implicit Types (f : future) (v : V) (i : Inner V) (ts : gset nat) (k j : nat) (st : State V).
Implicit Types (p q : Caller (V:=V)) (ps : list (Caller (V:=V))) (s : system (V:=V)).

Definition holds p : Z := match p with S_look | S_push | A_look | A_push | C_finish _ | D_finish => 1 | _ => 0 end.

(** Pushing: the state was seen to be [Computing], and the lock is held since. *)
Definition pushing p : Prop := p = S_push ∨ p = A_push.

(** Parked, or about to. *)
Definition waits p : Prop := match p with S_test | S_park | A_test | A_pending => True | _ => False end.

Definition asleep ts k p : Prop := (p = S_park ∨ p = A_pending) ∧ k ∉ ts.

(** Waiting or dropping, and not asleep. *)
Definition active ts k p : Prop :=
  match p with
  | S_lock | S_look | S_push | S_test | A_poll | A_look | A_push | A_test | C_finish _ | D_try | D_finish => True
  | S_park | A_pending => k ∈ ts
  | C_lock _ | D_store | Returned _ | Panics | Ended => False
  end.

(** The load was finished, or its task was dropped. *)
Definition load_ended f : Prop := state (inner f) ≠ Computing ∨ dropped f = true.

(** A completer's outcome is not [Computing]. *)
Definition caller_ok p : Prop := match p with C_lock st | C_finish st => st ≠ Computing | _ => True end.

Record load_inv ps f ts : Prop := {
  li_lock : total holds ps = if locked f then 1 else 0;
  li_waits k p : ps !! k = Some p → waits p → k ∈ ts ∨ k ∈ waiter_id <$> waiters (inner f);
  li_empty : state (inner f) ≠ Computing → waiters (inner f) = [];
  li_push k p : ps !! k = Some p → pushing p → state (inner f) = Computing;
  li_ok k p : ps !! k = Some p → caller_ok p;
  li_drop : dropped f = true → state (inner f) = Computing → ∃ k p, ps !! k = Some p ∧ active ts k p;
}.

Lemma holds_nonneg p : 0 ≤ holds p.
Proof. by destruct p. Qed.

Lemma holds_active ts k p : 0 < holds p → active ts k p.
Proof. by destruct p. Qed.

Lemma wake_elem w ts j : j ∈ wake w ts ↔ j = waiter_id w ∨ j ∈ ts.
Proof. destruct w; simpl; set_solver. Qed.

(** [finish] wakes every waiter. *)
Lemma finish_wakes st i ts j : j ∈ (finish st i ts).2 ↔ j ∈ ts ∨ j ∈ waiter_id <$> waiters i.
Proof.
  simpl. generalize (waiters i) as ws. intros ws. revert ts. induction ws as [|w ws IH]; intros ts; simpl; [set_solver|].
  rewrite IH, wake_elem, elem_of_cons. tauto.
Qed.

(** A step of thread [k] takes no wake from another thread, whose pushes stay until woken;
    and the future moves on only. *)
Record moves k f ts f' ts' : Prop := {
  mv_ts j : j ≠ k → j ∈ ts → j ∈ ts';
  mv_waits j : j ≠ k → j ∈ ts ∨ j ∈ waiter_id <$> waiters (inner f) → j ∈ ts' ∨ j ∈ waiter_id <$> waiters (inner f');
  mv_empty : (state (inner f) ≠ Computing → waiters (inner f) = []) → state (inner f') ≠ Computing → waiters (inner f') = [];
  mv_state : state (inner f') = Computing → state (inner f) = Computing;
}.

Lemma moves_refl k f b ts : moves k f ts (with_locked b f) ts.
Proof. by split. Qed.

(** The weight of the lock, seen from one step. *)
Definition lock_weight f : Z := if locked f then 1 else 0.

Ltac step_cases :=
  repeat match goal with
  | H : context [decide ?P] |- _ => destruct (decide P)
  | H : context [if locked ?f then _ else _] |- _ => destruct (locked f) eqn:?
  | H : context [match state ?i with _ => _ end] |- _ => destruct (state i) eqn:?
  | H : context [is_dropped ?f] |- _ => unfold is_dropped in H; destruct (dropped f) eqn:?
  end; simplify_eq/=.

Lemma finish_moves k st f ts b :
  st ≠ Computing → moves k f ts (with_locked b (with_inner (finish st (inner f) ts).1 f)) (finish st (inner f) ts).2.
Proof.
  intros Hst. split; cbn [inner with_locked with_inner].
  - intros j _ Hj. rewrite finish_wakes. by left.
  - intros j _ Hj. rewrite finish_wakes. by left.
  - done.
  - done.
Qed.

Lemma push_moves k w f ts b :
  state (inner f) = Computing → moves k f ts (with_locked b (with_inner (mk_inner (state (inner f)) (waiters (inner f) ++ [w])) f)) ts.
Proof.
  intros Hst. split; cbn; try done. intros j _ [?|Hj]; [by left|]. right. rewrite fmap_app. set_solver.
Qed.

Lemma caller_step_moves k p f ts p' f' ts' :
  caller_ok p → caller_step k p f ts = Some (p', f', ts') → (pushing p → state (inner f) = Computing) → moves k f ts f' ts'.
Proof.
  intros Hok H Hpush. destruct p; simpl in H; unfold sync_look, poll_look, drop_load_locked, is_computing in H; step_cases;
    try (by split; set_solver); try (by apply push_moves, Hpush; unfold pushing; auto);
    try (by apply (finish_moves k _ f ts false)).
  all: try (by apply (finish_moves k Dropped f ts (locked f))).
Qed.

(** What the step does to the lock, and where the thread that took it stands. *)
Record lands k p f ts p' f' ts' : Prop := {
  la_lock : lock_weight f' = lock_weight f - holds p + holds p';
  la_waits : (waits p → k ∈ ts ∨ k ∈ waiter_id <$> waiters (inner f)) → waits p' → k ∈ ts' ∨ k ∈ waiter_id <$> waiters (inner f');
  la_push : pushing p' → state (inner f') = Computing;
  la_ok : caller_ok p';
  la_held : state (inner f) ≠ state (inner f') → holds p = 1;
  la_drop : dropped f' = true → state (inner f') = Computing → active ts' k p' ∨ (p = D_try ∧ locked f = true) ∨ dropped f = true ∧ ¬ active ts k p;
}.

Lemma caller_step_lands k p f ts p' f' ts' :
  caller_ok p → caller_step k p f ts = Some (p', f', ts') → (0 < holds p → locked f = true) → lands k p f ts p' f' ts'.
Proof.
  intros Hok H Hl. destruct p; simpl in H; unfold sync_look, poll_look, drop_load_locked, is_computing in H; step_cases;
    first [specialize (Hl ltac:(done)) | clear Hl]; split; unfold lock_weight, pushing, finish in *; cbn in *; rewrite ?Hl, ?fmap_app; try done; try (by intuition); try (intros; congruence); try lia; try (intros; set_solver);
    try (match goal with E : locked _ = _ |- _ => by rewrite E end).
Qed.

Lemma two_holders ps f ts k j p q :
  load_inv ps f ts → ps !! k = Some p → ps !! j = Some q → k ≠ j → holds p = 1 → holds q = 1 → False.
Proof.
  intros Hi Hk Hj Hne Hp Hq. pose proof (total_two holds ps k j p q holds_nonneg Hk Hj Hne). pose proof (li_lock _ _ _ Hi). destruct (locked f); lia.
Qed.

Lemma holder_locked ps f ts k p : load_inv ps f ts → ps !! k = Some p → 0 < holds p → locked f = true.
Proof.
  intros Hi Hk Hp. pose proof (total_elem holds ps k p holds_nonneg Hk). pose proof (li_lock _ _ _ Hi). destruct (locked f); [done|lia].
Qed.

(** The holder of the lock, when it is taken. *)
Lemma locked_holder ps f ts : load_inv ps f ts → locked f = true → ∃ k p, ps !! k = Some p ∧ 0 < holds p.
Proof. intros Hi Hl. apply total_pos. rewrite (li_lock _ _ _ Hi), Hl. lia. Qed.

Lemma active_kept k j q f ts f' ts' : moves k f ts f' ts' → j ≠ k → active ts j q → active ts' j q.
Proof. intros Hm Hne. pose proof (mv_ts _ _ _ _ _ Hm j Hne). destruct q; simpl; auto. Qed.

Lemma load_inv_caller ps f ts k p p' f' ts' :
  load_inv ps f ts → ps !! k = Some p → caller_step k p f ts = Some (p', f', ts') → load_inv (<[k:=p']> ps) f' ts'.
Proof.
  intros Hi Hk H. pose proof (li_ok _ _ _ Hi k p Hk) as Hok.
  assert (Hm : moves k f ts f' ts') by (by eapply caller_step_moves; [done|done|]; intros; eapply li_push).
  destruct (caller_step_lands k p f ts p' f' ts' Hok H) as [A1 A2 A3 A4 A5 A6]; [by intros; eapply holder_locked|].
  assert (Hkl : <[k:=p']> ps !! k = Some p') by (apply list_lookup_insert_eq; by eapply lookup_lt_Some).
  split.
  - rewrite (total_insert holds ps k p p' Hk), (li_lock _ _ _ Hi). unfold lock_weight in A1. lia.
  - intros j q [[-> ->]|[Hne Hj]]%insert_other Hw; [apply A2; [by apply (li_waits _ _ _ Hi)|done]|].
    apply (mv_waits _ _ _ _ _ Hm j Hne). by apply (li_waits _ _ _ Hi j q).
  - apply (mv_empty _ _ _ _ _ Hm), Hi.
  - intros j q [[-> ->]|[Hne Hj]]%insert_other Hp; [by apply A3|]. pose proof (li_push _ _ _ Hi j q Hj Hp) as Hc.
    destruct (state (inner f')) eqn:E; [done|..]; exfalso; apply (two_holders ps f ts k j p q Hi Hk Hj); try done;
      try (apply A5; congruence); by destruct Hp as [->| ->].
  - intros j q [[-> ->]|[Hne Hj]]%insert_other; [done|by apply (li_ok _ _ _ Hi j)].
  - intros Hd Hc. destruct (A6 Hd Hc) as [Ha|[[-> Hl]|[Hd' Hna]]]; [by exists k, p'|..].
    + destruct (locked_holder _ _ _ Hi Hl) as (j&q&Hj&Hq). assert (j ≠ k) by (intros ->; rewrite Hk in Hj; by injection Hj as <-).
      exists j, q. rewrite list_lookup_insert_ne by done. split; [done|by apply holds_active].
    + destruct (li_drop _ _ _ Hi Hd' (mv_state _ _ _ _ _ Hm Hc)) as (j&q&Hj&Ha). assert (Hne : j ≠ k) by (intros ->; rewrite Hk in Hj; by injection Hj as <-).
      exists j, q. rewrite list_lookup_insert_ne by done. split; [done|by eapply active_kept].
Qed.

Lemma load_inv_spurious ps f ts k p p' :
  load_inv ps f ts → ps !! k = Some p → (p, p') ∈ [(S_park, S_lock); (A_pending, A_poll)] → load_inv (<[k:=p']> ps) f ts.
Proof.
  intros Hi Hk Hp. assert (E : holds p = 0 ∧ holds p' = 0 ∧ ¬ waits p' ∧ ¬ pushing p' ∧ caller_ok p' ∧ active ts k p').
  { unfold pushing. apply elem_of_cons in Hp as [[= -> ->]|Hp%list_elem_of_singleton]; [|injection Hp as -> ->];
      (do 2 (split; [done|])); (split; [tauto|]); (split; [by intros [?|?]|]); done. }
  destruct E as (E1&E2&E3&E4&E5&E6). split.
  - rewrite (total_insert holds ps k p p' Hk), (li_lock _ _ _ Hi). lia.
  - intros j q [[-> ->]|[Hne Hj]]%insert_other; [done|by apply (li_waits _ _ _ Hi j)].
  - apply Hi.
  - intros j q [[-> ->]|[Hne Hj]]%insert_other; [done|by apply (li_push _ _ _ Hi j)].
  - intros j q [[-> ->]|[Hne Hj]]%insert_other; [done|by apply (li_ok _ _ _ Hi j)].
  - intros Hd Hc. exists k, p'. split; [|done]. apply list_lookup_insert_eq. by eapply lookup_lt_Some.
Qed.

Definition load_starts p : Prop :=
  match p with S_lock | A_poll | D_store => True | C_lock st => st ≠ Computing | _ => False end.

Lemma load_inv_start ps f : Forall load_starts ps → locked f = false → dropped f = false → inner f = mk_inner Computing [] → load_inv ps f ∅.
Proof.
  intros Hs Hl Hd Hin. rewrite Forall_lookup in Hs. split.
  - rewrite Hl. apply total_zero. intros k p Hk. specialize (Hs k p Hk). by destruct p.
  - intros k p Hk. specialize (Hs k p Hk). by destruct p.
  - by rewrite Hin.
  - by rewrite Hin.
  - intros k p Hk. specialize (Hs k p Hk). by destruct p.
  - by rewrite Hd.
Qed.

Lemma load_inv_reached s s' : rtc load_step s s' → load_inv s.1.1 s.1.2 s.2 → load_inv s'.1.1 s'.1.2 s'.2.
Proof.
  induction 1 as [|x y z Hs _ IH]; [done|]. intros Hi. apply IH. destruct Hs as [ps f ts k p p' f' ts' Hk H|ps f ts k p p' Hk H]; simpl in *.
  - by apply (load_inv_caller ps f ts k p).
  - by apply (load_inv_spurious ps f ts k p).
Qed.

(** Only a thread that waits for the lock or that is asleep cannot step. *)
Lemma active_steps ts k p f : active ts k p → locked f = false ∨ 0 < holds p → is_Some (caller_step k p f ts).
Proof.
  intros Ha Hl. destruct p; simpl in *; try done; try (by rewrite decide_True); try (by eexists); destruct Hl as [Hl|Hl]; try done; try (by rewrite Hl).
  all: try (by destruct (finish st (inner f) ts)); by destruct (if is_computing _ then _ else _).
Qed.

(** C19: no caller sleeps through the end of a load.  Threads that wait in
    [load_value_blocking], tasks that poll, [complete], [fail] and [drop_load] interleave
    in any way on a new load, wakes without reason included.  Once the load was completed, has
    failed or was dropped, no waiter is asleep without a pending wake, or some caller is on its way to
    wake it and can take a step; so when all callers came to rest none is asleep. *)
Theorem load_wakes_waiters ps0 (f0 : future) ps f ts :
  Forall load_starts ps0 → f0 = queued ∨ (∃ l, f0 = new l) →
  rtc load_step (ps0, f0, ∅) (ps, f, ts) → load_ended f →
  (∀ k p, ps !! k = Some p → ¬ asleep ts k p) ∨
  (∃ k p, ps !! k = Some p ∧ active ts k p ∧ is_Some (caller_step k p f ts)).
Proof.
  intros Hs Hf Hr He. assert (Hi : load_inv ps f ts).
  { apply (load_inv_reached _ _ Hr). apply load_inv_start; [done|..]; by destruct Hf as [->|[l ->]]. }
  assert (Hstep : (∃ k p, ps !! k = Some p ∧ active ts k p) → ∃ k p, ps !! k = Some p ∧ active ts k p ∧ is_Some (caller_step k p f ts)).
  { intros (k&p&Hk&Ha). destruct (locked f) eqn:El.
    - destruct (locked_holder _ _ _ Hi El) as (j&q&Hj&Hq). pose proof (holds_active ts j q Hq). exists j, q. split; [done|]. split; [done|]. apply active_steps; auto.
    - exists k, p. split; [done|]. split; [done|]. apply active_steps; auto. }
  destruct (is_computing (state (inner f))) eqn:Ec.
  { assert (Hc : state (inner f) = Computing) by (by destruct (state (inner f))). right. apply Hstep, (li_drop _ _ _ Hi); [|done]. by destruct He. }
  left. intros k p Hk [Hp Hts]. assert (Hne : state (inner f) ≠ Computing) by (intros Hc; by rewrite Hc in Ec).
  destruct (li_waits _ _ _ Hi k p Hk) as [|Hin]; [by destruct Hp as [->| ->]|done|]. rewrite (li_empty _ _ _ Hi Hne) in Hin. by apply elem_of_nil in Hin.
Qed.
End Proofs.

Lemma load_step_at {V} k (p p' : Caller (V:=V)) ps ps' f ts f' ts' :
  ps !! k = Some p → caller_step k p f ts = Some (p', f', ts') → ps' = <[k:=p']> ps → load_step (ps, f, ts) (ps', f', ts').
Proof. intros Hk H ->. by apply (load_step_caller ps f ts k p). Qed.

(** A thread parks on a load whose task is then dropped: it sleeps, and the dropper can step. *)
Lemma load_wakes_waiters_witness :
  ∃ (f : LoadFuture nat) ts k p, rtc load_step ([S_lock; D_store], queued, ∅) ([S_park; D_try], f, ts) ∧
    dropped f = true ∧ asleep ts 0%nat (S_park (V:=nat)) ∧
    [S_park; D_try] !! k = Some p ∧ active ts k p ∧ is_Some (caller_step k p f ts).
Proof.
  set (f1 := with_locked false (with_inner (mk_inner Computing [W_Sync 0]) queued) : LoadFuture nat).
  assert (Hr : rtc load_step ([S_lock; D_store], queued, ∅) ([S_park; D_try], with_dropped true f1, ∅)).
  { apply (rtc_l _ _ ([S_look; D_store], with_locked true queued, ∅)); [by apply (load_step_at 0 S_lock S_look _ _ _ _ _ _)|].
    apply (rtc_l _ _ ([S_push; D_store], with_locked true queued, ∅)); [by apply (load_step_at 0 S_look S_push _ _ _ _ _ _)|].
    apply (rtc_l _ _ ([S_test; D_store], f1, ∅)); [by apply (load_step_at 0 S_push S_test _ _ _ _ _ _)|].
    apply (rtc_l _ _ ([S_park; D_store], f1, ∅)); [by apply (load_step_at 0 S_test S_park _ _ _ _ _ _)|].
    apply rtc_once. by apply (load_step_at 1 D_store D_try _ _ _ _ _ _). }
  destruct (load_wakes_waiters [S_lock; D_store] queued _ _ _ ltac:(by repeat constructor) (or_introl eq_refl) Hr (or_intror eq_refl)) as [Hn|(k&p&?&?&?)].
  - exfalso. apply (Hn 0%nat S_park); [done|]. split; [by left|set_solver].
  - exists (with_dropped true f1), ∅, k, p. split; [done|]. split; [done|]. split; [split; [by left|set_solver]|done].
Defined.
