(* ===== verification/Refresh.v ===== *)
(** * The queue of stale refreshes ([RefreshQueue], [cache/src/shared.rs])

    A read of a stale entry queues a refresh; at most [limit] refreshes run at a time.
    Any thread that queues one, or whose refresh ends, may pump the queue
    ([start_refreshes]); [pumping] keeps the others out, and a thread that finds it set
    leaves the work to the check its owner makes after clearing it.  [refresh_step] is one atomic access of a
    thread; the channel between [tx] and [rx] is a FIFO whose sends and receives are
    atomic.  A load is an index into the heap of futures. *)

From stdpp Require Import relations.
From S2P Require Import Prelude Threads.
From S2P Require Loader.

(** [isize] sums. *)
Definition I63 : Z := 2 ^ 63.
Definition isize_add (a b : Z) : Z := (a + b + I63) mod U64 - I63.

Lemma isize_add_small a b : - I63 ≤ a + b < I63 → isize_add a b = a + b.
Proof. intros H. unfold isize_add. rewrite Z.mod_small; [lia|]. unfold I63, U64 in *. lia. Qed.

Record RefreshQueue (K : Type) := mk_queue { items : list (K * nat); limit : Z; running : Z; waiting : Z; pumping : bool }.
Arguments mk_queue {K}.
Arguments items {K}.
Arguments limit {K}.
Arguments running {K}.
Arguments waiting {K}.
Arguments pumping {K}.

Section Code.
Context {K V : Type}.
Notation queue := (RefreshQueue K).
Notation heap := (list (Loader.LoadFuture V)).
Implicit Types (q : queue) (h : heap) (key : K) (f : nat).

Definition queue_new (limit : Z) : queue := mk_queue [] limit 0 0 false.

Definition with_items xs q : queue := mk_queue xs (limit q) (running q) (waiting q) (pumping q).
Definition with_running n q : queue := mk_queue (items q) (limit q) n (waiting q) (pumping q).
Definition with_waiting n q : queue := mk_queue (items q) (limit q) (running q) n (pumping q).
Definition with_pumping b q : queue := mk_queue (items q) (limit q) (running q) (waiting q) b.

Definition claim_slot q : option queue :=
  if running q <? limit q then Some (with_running (running q +w 1) q) else None.

Definition free_slot q : queue := with_running (running q -w 1) q.

(** [future.claim()]. *)
Definition claim_load f h : option (bool * heap) :=
  l ← (h !! f : option (Loader.LoadFuture V)); Some ((Loader.claim l).1, <[f:=(Loader.claim l).2]> h).

(** A thread: between two accesses of [enqueue_refresh], [start_refreshes] or
    [more_can_start]; running a refresh, which ends with [refresh_done]; or in a miss
    of [fetch_with] that takes a load still in the queue, and then runs it. *)
Inductive Refresher :=
  | R_send (key : K) (f : nat) | R_count
  | R_start | R_slot | R_recv | R_empty | R_received (key : K) (f : nat) | R_claim (key : K) (f : nat) | R_taken
  | R_release | R_more_waiting | R_more_running
  | R_job (key : K) (f : nat)
  | R_miss (f : nat) | R_inline (f : nat)
  | R_end.

Implicit Types (p : Refresher) (ps : list Refresher).

(** [start_refreshes]: the new pc, the refresh it starts on another thread, and the shared state. *)
Definition start_refreshes_step p q h : option (Refresher * option (K * nat) * queue * heap) :=
  match p with
  | R_start => Some (if pumping q then R_end else R_slot, None, with_pumping true q, h)
  | R_slot => match claim_slot q with Some q' => Some (R_recv, None, q', h) | None => Some (R_release, None, q, h) end
  | R_recv => match items q with
              | (key, f) :: xs => Some (R_received key f, None, with_items xs q, h)
              | [] => Some (R_empty, None, q, h)
              end
  | R_empty => Some (R_release, None, free_slot q, h)
  | R_received key f => Some (R_claim key f, None, with_waiting (isize_add (waiting q) (-1)) q, h)
  | R_claim key f => '(ok, h') ← claim_load f h; Some (if (ok : bool) then (R_slot, Some (key, f), q, h') else (R_taken, None, q, h'))
  | R_taken => Some (R_slot, None, free_slot q, h)
  | R_release => Some (R_more_waiting, None, with_pumping false q, h)
  | _ => None
  end.

Definition more_can_start_step p q : option Refresher :=
  match p with
  | R_more_waiting => Some (if 0 <? waiting q then R_more_running else R_end)
  | R_more_running => Some (if running q <? limit q then R_start else R_end)
  | _ => None
  end.

Definition enqueue_refresh_step p q : option (Refresher * queue) :=
  match p with
  | R_send key f => Some (R_count, with_items (items q ++ [(key, f)]) q)
  | R_count => Some (R_start, with_waiting (isize_add (waiting q) 1) q)
  | _ => None
  end.

(** The claim of [load_value_blocking]: the pc, and the load it runs. *)
Definition take_queued_step p h : option (Refresher * option nat * heap) :=
  match p with
  | R_miss f => '(ok, h') ← claim_load f h; Some (if (ok : bool) then (R_inline f, Some f, h') else (R_end, None, h'))
  | R_inline f => Some (R_end, None, h)
  | _ => None
  end.

(** The pc, a refresh started on another thread, the load handed to the loader, the state. *)
Definition refresh_step p q h : option (Refresher * option Refresher * option nat * queue * heap) :=
  match p with
  | R_send _ _ | R_count => option_map (λ '(p, q), (p, None, None, q, h)) (enqueue_refresh_step p q)
  | R_more_waiting | R_more_running => option_map (λ p, (p, None, None, q, h)) (more_can_start_step p q)
  | R_job _ _ => Some (R_start, None, None, free_slot q, h)
  | R_miss _ | R_inline _ => option_map (λ '(p, run, h), (p, None, run, q, h)) (take_queued_step p h)
  | R_end => None
  | _ => option_map (λ '(p, job, q, h), (p, option_map (λ kf, R_job kf.1 kf.2) job, option_map snd job, q, h)) (start_refreshes_step p q h)
  end.

(** A call of [start_refreshes], [enqueue_refresh] or [refresh_done] that nothing interrupts: the
    refreshes it starts. *)
Fixpoint run_refresher (fuel : nat) p q h : option (queue * heap * list (K * nat)) :=
  match p, fuel with
  | R_end, _ => Some (q, h, [])
  | _, O => None
  | _, S fuel =>
      match refresh_step p q h with
      | Some (p, job, _, q, h) =>
          let started := match job with Some (R_job key f) => [(key, f)] | _ => [] end in
          option_map (λ '(q, h, jobs), (q, h, started ++ jobs)) (run_refresher fuel p q h)
      | None => None
      end
  end.

(** Threads, queue, futures, and the loads handed to the loader so far. *)
Definition system : Type := list Refresher * queue * heap * list nat.

Inductive pool_step : system → system → Prop :=
  | pool_step_intro ps q h ran k p p' job run q' h' :
      ps !! k = Some p → refresh_step p q h = Some (p', job, run, q', h') →
      pool_step (ps, q, h, ran) (<[k:=p']> ps ++ option_list job, q', h', ran ++ option_list run).
End Code.
Arguments Refresher : clear implicits.

(** ** Counting *)

Section Proofs.
Context {K V : Type}.
Notation queue := (RefreshQueue K).
Notation heap := (list (Loader.LoadFuture V)).
Implicit Types (q : queue) (h : heap) (f : nat) (p : Refresher K) (ps : list (Refresher K)) (ran : list nat) (B : Z).

Definition has_slot p : Z := match p with R_recv | R_empty | R_received _ _ | R_claim _ _ | R_taken | R_job _ _ => 1 | _ => 0 end.
Definition pumps p : Z := match p with R_slot | R_recv | R_empty | R_received _ _ | R_claim _ _ | R_taken | R_release => 1 | _ => 0 end.
Definition sends p : Z := match p with R_send _ _ => 1 | _ => 0 end.
Definition counts p : Z := match p with R_count => 1 | _ => 0 end.
Definition received p : Z := match p with R_received _ _ => 1 | _ => 0 end.
Definition comes p : Z := match p with R_start | R_more_waiting | R_more_running => 1 | _ => 0 end.
Definition is_job p : Z := match p with R_job _ _ => 1 | _ => 0 end.

(** [B] bounds what was ever sent. *)
Record queue_inv B ps q : Prop := {
  qi_running : running q = total has_slot ps;
  qi_limit : running q ≤ limit q < U64;
  qi_pump : total pumps ps = if pumping q then 1 else 0;
  qi_waiting : waiting q = Z.of_nat (length (items q)) - total counts ps + total received ps;
  qi_bound : Z.of_nat (length (items q)) + total counts ps + 2 * total sends ps ≤ B;
  qi_work : items q ≠ [] → running q < limit q → 0 < total counts ps + total pumps ps + total comes ps;
}.

Lemma total_step (w : Refresher K → Z) ps k p p' job :
  ps !! k = Some p →
  total w (<[k:=p']> ps ++ option_list job) = total w ps - w p + w p' + match job with Some r => w r | None => 0 end.
Proof.
  intros Hk. rewrite total_app, (total_insert w ps k p p' Hk). destruct job as [r|]; [|change (total w (option_list None)) with 0; lia].
  change (total w (option_list (Some r))) with (w r + 0). lia.
Qed.

Lemma weight_elem (w : Refresher K → Z) ps k p : (∀ r, w r = 0 ∨ w r = 1) → ps !! k = Some p → w p ≤ total w ps.
Proof. intros Hw Hk. apply (total_elem w ps k p); [|done]. intros r. destruct (Hw r); lia. Qed.

Lemma weight_nonneg (w : Refresher K → Z) ps : (∀ r, w r = 0 ∨ w r = 1) → 0 ≤ total w ps.
Proof. intros Hw. apply total_nonneg. intros r. destruct (Hw r); lia. Qed.

Lemma received_pumps ps : total received ps ≤ total pumps ps.
Proof. induction ps as [|p ps IH]; [done|]. rewrite !total_cons. destruct p; simpl; lia. Qed.

Ltac refresh_cases :=
  repeat match goal with
  | H : context [match claim_slot ?q with _ => _ end] |- _ => destruct (claim_slot q) eqn:?; simpl in H
  | H : option_map _ ?o = Some _ |- _ => destruct o as [?|] eqn:?; simpl in H
  | H : (let '(_, _) := ?x in _) = _ |- _ => destruct x; simpl in H
  | H : context [if ?b then _ else _] |- _ => destruct b eqn:?; simpl in H
  | H : context [match items ?q with _ => _ end] |- _ => destruct (items q) as [|[??] ?] eqn:?; simpl in H
  | H : _ ≫= _ = Some _ |- _ => apply bind_Some in H as (?&?&H)
  | H : Some _ = Some _ |- _ => injection H as H; subst
  | H : None = Some _ |- _ => discriminate H
  end; simplify_eq/=.

Lemma queue_inv_step B ps q h k p p' job run q' h' :
  2 * B + 4 < U64 → queue_inv B ps q → ps !! k = Some p → refresh_step p q h = Some (p', job, run, q', h') →
  queue_inv B (<[k:=p']> ps ++ option_list job) q' ∧ limit q' = limit q.
Proof.
  intros HB [I1 I2 I3 I4 I5 I6] Hk H.
  pose proof (weight_elem has_slot ps k p ltac:(by intros []; auto) Hk) as Es.
  pose proof (weight_elem pumps ps k p ltac:(by intros []; auto) Hk) as Ep.
  pose proof (weight_elem counts ps k p ltac:(by intros []; auto) Hk) as Ec.
  pose proof (weight_elem sends ps k p ltac:(by intros []; auto) Hk) as En.
  pose proof (weight_nonneg counts ps ltac:(by intros []; auto)) as Nc.
  pose proof (weight_nonneg sends ps ltac:(by intros []; auto)) as Nn.
  pose proof (weight_elem comes ps k p ltac:(by intros []; auto) Hk) as Em.
  pose proof (weight_nonneg received ps ltac:(by intros []; auto)) as Nr.
  pose proof (received_pumps ps) as Rp. unfold U64 in *.
  assert (Hw : ∀ d, - 1 ≤ d ≤ 1 → isize_add (waiting q) d = waiting q + d).
  { intros d Hd. apply isize_add_small. destruct (pumping q); unfold I63; lia. }
  assert (Hst : ∀ w, total w (<[k:=p']> ps ++ option_list job) = total w ps - w p + w p' + match job with Some r => w r | None => 0 end)
    by (intros; by apply total_step).
  assert (Hq : items q = [] ∨ 1 ≤ Z.of_nat (length (items q))) by (destruct (items q); [by left|right; simpl; lia]).
  destruct (pumping q) eqn:Epump; destruct p; simpl in *; unfold claim_slot, free_slot, claim_load in *; refresh_cases.
  all: split; [|done]; split; rewrite ?Hst; simpl; rewrite ?length_app, ?Hw, ?u64_sub_small, ?u64_add_small by (unfold U64; lia);
    simpl in *; rewrite ?Epump; unfold U64;
    try (match goal with E : items _ = _ |- _ => rewrite ?E end); simpl; try lia.
  all: intros Hne Hlt; try (specialize (I6 Hne ltac:(lia))); try lia.
  destruct Hq; [done|lia].
Qed.

(** ** Each load is run once *)

Definition log_inv h ran : Prop := NoDup ran ∧ ∀ f, f ∈ ran → ∃ l, h !! f = Some l ∧ Loader.started l = true.

Lemma claim_load_spec f h ok h' ran :
  claim_load f h = Some (ok, h') → log_inv h ran → log_inv h' (ran ++ if ok then [f] else []).
Proof.
  unfold claim_load. intros (l&Hl&[= <- <-])%bind_Some [Hnd Hst].
  assert (Hkeep : ∀ g, g ∈ ran ∨ g = f → ∃ l', <[f:=(Loader.claim l).2]> h !! g = Some l' ∧ Loader.started l' = true).
  { intros g Hg. destruct (decide (g = f)) as [->|Hne].
    - exists (Loader.claim l).2. split; [|done]. apply list_lookup_insert_eq. by eapply lookup_lt_Some.
    - rewrite list_lookup_insert_ne by done. apply Hst. by destruct Hg. }
  cbn [Loader.claim fst]. destruct (Loader.started l) eqn:El; cbn [negb].
  - rewrite app_nil_r. split; [done|]. intros g Hg. apply Hkeep. by left.
  - split; [|intros g Hg; apply Hkeep; set_solver]. apply NoDup_app. split; [done|]. split; [|apply NoDup_singleton].
    intros g Hg ->%list_elem_of_singleton. destruct (Hst f Hg) as (l'&Hl'&E). congruence.
Qed.

Lemma refresh_step_log p q h p' job run q' h' ran :
  refresh_step p q h = Some (p', job, run, q', h') → log_inv h ran → log_inv h' (ran ++ option_list run).
Proof.
  assert (Hsame : log_inv h ran → log_inv h (ran ++ option_list None)) by (by rewrite app_nil_r).
  intros H. destruct p; simpl in H; refresh_cases; try exact Hsame.
  all: intros Hl; match goal with E : claim_load _ _ = Some _ |- _ => pose proof (claim_load_spec _ _ _ _ _ E Hl) as Hc end; exact Hc.
Qed.

(** ** What a pool of threads does *)

Definition pool_starts p : Prop := match p with R_send _ _ | R_miss _ => True | _ => False end.

(** Nothing left to do in the queue: refreshes and loads may run on. *)
Definition at_rest p : Prop := match p with R_job _ _ | R_inline _ | R_miss _ | R_end => True | _ => False end.

Lemma queue_inv_start ps lim : Forall pool_starts ps → 0 ≤ lim < U64 → queue_inv (2 * Z.of_nat (length ps)) ps (queue_new lim).
Proof.
  intros Hs Hl. rewrite Forall_lookup in Hs.
  assert (Hz : ∀ w, (∀ p, pool_starts p → w p = 0) → total w ps = 0) by (intros w Hw; apply total_zero; eauto).
  assert (Hn : total sends ps ≤ Z.of_nat (length ps)).
  { clear. induction ps as [|p ps IH]; [done|]. rewrite total_cons. cbn [length]. destruct p; simpl; lia. }
  split; simpl; rewrite ?(Hz has_slot), ?(Hz pumps), ?(Hz counts), ?(Hz received) by (by intros []); try done; lia.
Qed.

Lemma pool_inv_reached B lim ps0 q0 h0 ran0 ps q h ran :
  2 * B + 4 < U64 → rtc pool_step (ps0, q0, h0, ran0) (ps, q, h, ran) →
  queue_inv B ps0 q0 → limit q0 = lim → log_inv h0 ran0 → queue_inv B ps q ∧ limit q = lim ∧ log_inv h ran.
Proof.
  intros HB Hr. remember (ps0, q0, h0, ran0) as s eqn:Es. remember (ps, q, h, ran) as s' eqn:Es'. revert ps0 q0 h0 ran0 Es.
  induction Hr as [s|s1 s2 s3 Hs _ IH]; intros ps0 q0 h0 ran0 ->; [by simplify_eq|]. intros Hi Hl Hlog.
  inversion Hs as [? ? ? ? k p p' job run q' h' Hk H]; subst. destruct (queue_inv_step B ps0 q0 h0 k p p' job run q' h' HB Hi Hk H) as [Hi' Hl'].
  apply (IH eq_refl _ _ _ _ eq_refl Hi' Hl'). by eapply refresh_step_log.
Qed.

Lemma jobs_slots ps : total is_job ps ≤ total has_slot ps.
Proof. induction ps as [|p ps IH]; [done|]. rewrite !total_cons. destruct p; simpl; lia. Qed.

Lemma rest_slots ps : Forall at_rest ps → total is_job ps = total has_slot ps.
Proof. induction 1 as [|p ps Hp _ IH]; [done|]. rewrite !total_cons, IH. by destruct p. Qed.

Lemma rest_works ps : Forall at_rest ps → total counts ps + total pumps ps + total comes ps = 0.
Proof. induction 1 as [|p ps Hp _ IH]; [done|]. rewrite !total_cons. destruct p; simpl in *; try done; lia. Qed.

(** C31: however threads interleave that queue refreshes, pump the queue, end refreshes or
    take queued loads for a miss, no more than [limit] refreshes run at a time, and
    each load is handed to the loader at most once. *)
Theorem refresh_slots_bounded ps0 lim (h0 : heap) ps q h ran :
  Forall pool_starts ps0 → 0 ≤ lim < U64 → 4 * Z.of_nat (length ps0) + 4 < U64 →
  rtc pool_step (ps0, queue_new lim, h0, []) (ps, q, h, ran) →
  total is_job ps ≤ lim ∧ NoDup ran.
Proof.
  intros Hs Hl HB Hr. destruct (pool_inv_reached (2 * Z.of_nat (length ps0)) lim _ _ _ _ _ _ _ _ ltac:(lia) Hr) as (Hi&El&Hn&_);
    [by apply queue_inv_start|done|by split; [constructor|intros ? ?%elem_of_nil]|].
  split; [|done]. destruct Hi as [I1 I2 _ _ _ _]. pose proof (jobs_slots ps). lia.
Qed.

(** C20: no refresh is forgotten.  When every thread came to rest, so that only loads run
    on, a refresh is still queued only if [limit] refreshes are running: the end of any
    of them pumps the queue again. *)
Theorem refresh_none_left ps0 lim (h0 : heap) ps q h ran :
  Forall pool_starts ps0 → 0 ≤ lim < U64 → 4 * Z.of_nat (length ps0) + 4 < U64 →
  rtc pool_step (ps0, queue_new lim, h0, []) (ps, q, h, ran) →
  Forall at_rest ps → items q ≠ [] → total is_job ps = lim ∧ running q = lim.
Proof.
  intros Hs Hl HB Hr Hrest Hne. destruct (pool_inv_reached (2 * Z.of_nat (length ps0)) lim _ _ _ _ _ _ _ _ ltac:(lia) Hr) as (Hi&El&_);
    [by apply queue_inv_start|done|by split; [constructor|intros ? ?%elem_of_nil]|].
  destruct Hi as [I1 I2 _ _ _ I6]. rewrite (rest_slots ps Hrest). pose proof (rest_works ps Hrest).
  destruct (decide (running q < limit q)) as [Hlt|]; [specialize (I6 Hne Hlt); lia|lia].
Qed.
End Proofs.

(** One slot, two stale keys: two threads queue their refreshes and the first pumps the queue; the second
    refresh waits for the first to end. *)
Definition demo_start : list (Refresher nat) := [R_send 1%nat 0%nat; R_send 2%nat 1%nat].

Definition demo_heap : list (Loader.LoadFuture nat) := [Loader.queued; Loader.queued].

(** The thread at [k] steps. *)
Definition pool_run (k : nat) (s : system (K:=nat) (V:=nat)) : option (system (K:=nat) (V:=nat)) :=
  let '(ps, q, h, ran) := s in
  match ps !! k with
  | Some p => match refresh_step p q h with
              | Some (p', job, run, q', h') => Some (<[k:=p']> ps ++ option_list job, q', h', ran ++ option_list run)
              | None => None
              end
  | None => None
  end.

Lemma pool_run_steps ks s s' : foldl (λ o k, o ≫= pool_run k) (Some s) ks = Some s' → rtc pool_step s s'.
Proof.
  revert s. induction ks as [|k ks IH]; intros s; cbn [foldl mbind option_bind]; [by intros [= ->]|].
  destruct (pool_run k s) as [s1|] eqn:E; [|intros Hf; exfalso; revert Hf; clear; by induction ks].
  intros Hf. apply (rtc_l _ _ s1); [|by apply IH]. clear -E. destruct s as [[[ps q] h] ran]. unfold pool_run in E.
  destruct (ps !! k) as [p|] eqn:Ek; [|done]. destruct (refresh_step p q h) as [[[[[p' job] run] q'] h']|] eqn:Es; [|done].
  injection E as <-. by apply (pool_step_intro _ _ _ _ k p).
Qed.

Definition demo_schedule : list nat := [0; 1; 0; 0; 0; 0; 0; 0; 1; 1; 0; 0; 0; 0]%nat.

Lemma refresh_slots_bounded_witness :
  ∃ ps q h ran, rtc pool_step (demo_start, queue_new 1, demo_heap, []) (ps, q, h, ran) ∧ ran = [0%nat] ∧ total is_job ps ≤ 1 ∧ NoDup ran.
Proof.
  destruct (foldl (λ o k, o ≫= pool_run k) (Some (demo_start, queue_new 1, demo_heap, [])) demo_schedule) as [[[[ps q] h] ran]|] eqn:E;
    [|vm_compute in E; discriminate].
  pose proof (pool_run_steps _ _ _ E) as Hr. exists ps, q, h, ran. split; [done|]. split; [vm_compute in E; by simplify_eq|].
  apply (refresh_slots_bounded demo_start 1 demo_heap ps q h ran); [by repeat constructor|u64_lia|vm_compute; reflexivity|done].
Defined.

Lemma refresh_none_left_witness :
  ∃ ps q h ran, rtc pool_step (demo_start, queue_new 1, demo_heap, []) (ps, q, h, ran) ∧ items q = [(2%nat, 1%nat)] ∧ total is_job ps = 1.
Proof.
  destruct (foldl (λ o k, o ≫= pool_run k) (Some (demo_start, queue_new 1, demo_heap, [])) demo_schedule) as [[[[ps q] h] ran]|] eqn:E;
    [|vm_compute in E; discriminate].
  pose proof (pool_run_steps _ _ _ E) as Hr. exists ps, q, h, ran. split; [done|].
  assert (Hq : items q = [(2%nat, 1%nat)] ∧ Forall at_rest ps) by (vm_compute in E; simplify_eq; split; [done|by repeat constructor]).
  destruct Hq as [Hq Hrest]. split; [done|].
  apply (refresh_none_left demo_start 1 demo_heap ps q h ran); [by repeat constructor|u64_lia|vm_compute; reflexivity|done|done|by rewrite Hq].
Defined.
