(* ===== verification/Janitor.v ===== *)
(** * Starting the janitor ([ensure_janitor], [cache/src/shared.rs])

    A cache that had no need of a janitor when it was built starts one on the first
    [insert_with_ttl].  [ensure_step] is one atomic access of a call to [ensure_janitor], or the critical
    section of [start_janitor]; a janitor is the number of its start. *)

From stdpp Require Import relations.
From S2P Require Import Prelude Threads.

(** The closure of [Unstarted] starts the next janitor. *)
Inductive JanitorState := Unstarted | Running (janitor : nat) | Stopped.

(** [spawned] lists the janitor threads started, [told] those that were told to stop. *)
Record Shared := mk_shared { janitor : JanitorState; janitor_running : bool; locked : bool; spawned : list nat; told : list nat }.

(** What [build] leaves: a running janitor, or none yet. *)
Definition built (needs_janitor : bool) : Shared :=
  if needs_janitor then mk_shared (Running 0) true false [0%nat] [] else mk_shared Unstarted false false [] [].

Inductive Ensurer := E_load | E_try_lock | E_start | E_done.

(** The critical section of [start_janitor]: the state is replaced by [Stopped] to look at it. *)
Definition start_janitor (s : Shared) : Shared :=
  match janitor s with
  | Unstarted => mk_shared (Running (length (spawned s))) true false (spawned s ++ [length (spawned s)]) (told s)
  | _ => mk_shared Stopped true false (spawned s) (told s)
  end.

Definition ensure_step (p : Ensurer) (s : Shared) : option (Ensurer * Shared) :=
  match p with
  | E_load => Some (if janitor_running s then E_done else E_try_lock, s)
  | E_try_lock =>
      Some (if locked s then (E_done, s) else (E_start, mk_shared (janitor s) (janitor_running s) true (spawned s) (told s)))
  | E_start => Some (E_done, start_janitor s)
  | E_done => None
  end.

(** A call that nothing interrupts. *)
Definition ensure_janitor (s : Shared) : Shared :=
  if janitor_running s then s else if locked s then s else start_janitor s.

(** [Drop for CacheShared]. *)
Definition drop_shared (s : Shared) : Shared :=
  mk_shared Stopped (janitor_running s) (locked s) (spawned s) (match janitor s with Running j => told s ++ [j] | _ => told s end).

Inductive ensure_steps : list Ensurer * Shared → list Ensurer * Shared → Prop :=
  | ensure_steps_intro ps s k p p' s' : ps !! k = Some p → ensure_step p s = Some (p', s') → ensure_steps (ps, s) (<[k:=p']> ps, s').

(** Every janitor thread started was told to stop. *)
Definition all_stopped (s : Shared) : Prop := ∀ j, j ∈ spawned s → j ∈ told s.

Definition in_section (p : Ensurer) : Z := match p with E_start => 1 | _ => 0 end.

(** At most one janitor was started, and none while the state is [Unstarted]. *)
Record janitor_inv (ps : list Ensurer) (s : Shared) : Prop := {
  ji_lock : total in_section ps = if locked s then 1 else 0;
  ji_spawned : spawned s = match janitor s with Unstarted => [] | _ => [0%nat] end;
  ji_running : ∀ j, janitor s = Running j → j = 0%nat;
}.

Lemma in_section_nonneg p : 0 ≤ in_section p.
Proof. by destruct p. Qed.

Lemma janitor_inv_step ps s k p p' s' :
  janitor_inv ps s → ps !! k = Some p → ensure_step p s = Some (p', s') → janitor_inv (<[k:=p']> ps) s'.
Proof.
  intros [Hl Hs Hr] Hk H. pose proof (total_elem in_section ps k p in_section_nonneg Hk) as He.
  assert (Hw : ∀ q, total in_section (<[k:=q]> ps) = total in_section ps - in_section p + in_section q) by (intros; by apply total_insert).
  assert (Hst : ∀ b, spawned (start_janitor s) = match janitor (start_janitor s) with Unstarted => b | _ => [0%nat] end)
    by (intros b; unfold start_janitor; rewrite Hs; by destruct (janitor s)).
  assert (Hrun : ∀ j, janitor (start_janitor s) = Running j → j = 0%nat)
    by (intros j; unfold start_janitor; rewrite Hs; by destruct (janitor s); intros [= <-]).
  assert (Hlk : locked (start_janitor s) = false) by (unfold start_janitor; by destruct (janitor s)).
  destruct p; simpl in H; [destruct (janitor_running s)|destruct (locked s) eqn:El|destruct (locked s) eqn:El|]; simplify_eq;
    (split; [rewrite Hw; simpl in *; rewrite ?El, ?Hlk; lia|try done; try apply Hst|try done]).
Qed.

Lemma janitor_inv_reached ps s ps' s' : rtc ensure_steps (ps, s) (ps', s') → janitor_inv ps s → janitor_inv ps' s'.
Proof.
  intros H. remember (ps, s) as x eqn:Ex. remember (ps', s') as y eqn:Ey. revert ps s Ex. induction H as [|x y z Hs _ IH]; intros ps s ->; [by simplify_eq|].
  intros Hi. inversion Hs; subst. apply (IH eq_refl _ _ eq_refl). by eapply janitor_inv_step.
Qed.

(** C37: however calls of [ensure_janitor] interleave, one janitor is started at most.  But when
    two first calls race, the second may find the janitor running and replace its state
    by [Stopped]: then dropping the cache does not stop the janitor thread, whereas calls that
    do not overlap leave a janitor that the drop stops. *)
Theorem janitor_start_race :
  (∀ n needs ps s, rtc ensure_steps (replicate n E_load, built needs) (ps, s) → (length (spawned s) ≤ 1)%nat) ∧
  (∀ n needs, all_stopped (drop_shared (Nat.iter n ensure_janitor (built needs)))) ∧
  (∃ s, rtc ensure_steps ([E_load; E_load], built false) ([E_done; E_done], s) ∧ ¬ all_stopped (drop_shared s)).
Proof.
  split; [|split].
  - intros n needs ps s Hr. assert (Hi : janitor_inv ps s); [|destruct Hi as [_ -> _]; destruct (janitor s); simpl; lia].
    apply (janitor_inv_reached _ _ _ _ Hr). split; [|by destruct needs|by destruct needs; intros j [= <-]].
    rewrite total_zero; [by destruct needs|]. by intros k p [-> _]%lookup_replicate.
  - intros n needs. assert (H : Nat.iter n ensure_janitor (built needs) ∈ [built needs; ensure_janitor (built needs)]).
    { induction n as [|n IH]; simpl; [by left|]. apply elem_of_cons in IH as [-> | ->%list_elem_of_singleton]; [by right; left|].
      assert (ensure_janitor (ensure_janitor (built needs)) = ensure_janitor (built needs)) as -> by (by destruct needs). by right; left. }
    apply elem_of_cons in H as [-> | ->%list_elem_of_singleton]; destruct needs; intros j Hj; vm_compute in Hj |- *; set_solver.
  - exists (mk_shared Stopped true false [0%nat] []). split.
    + set (s0 := built false). set (s1 := mk_shared Unstarted false true [] []). set (s2 := start_janitor s1).
      set (s3 := mk_shared (Running 0) true true [0%nat] []).
      assert (Hstep : ∀ k p p' ps ps' s s', ps !! k = Some p → ensure_step p s = Some (p', s') → ps' = <[k:=p']> ps → ensure_steps (ps, s) (ps', s'))
        by (intros k p p' ps ps' s s' Hk H ->; by apply (ensure_steps_intro ps s k p)).
      apply (rtc_l _ _ ([E_try_lock; E_load], s0)); [by apply (Hstep 0%nat E_load E_try_lock)|].
      apply (rtc_l _ _ ([E_try_lock; E_try_lock], s0)); [by apply (Hstep 1%nat E_load E_try_lock)|].
      apply (rtc_l _ _ ([E_start; E_try_lock], s1)); [by apply (Hstep 0%nat E_try_lock E_start)|].
      apply (rtc_l _ _ ([E_done; E_try_lock], s2)); [by apply (Hstep 0%nat E_start E_done)|].
      apply (rtc_l _ _ ([E_done; E_start], s3)); [by apply (Hstep 1%nat E_try_lock E_start)|].
      apply rtc_once. by apply (Hstep 1%nat E_start E_done).
    + intros Ha. specialize (Ha 0%nat ltac:(by left)). vm_compute in Ha. by apply elem_of_nil in Ha.
Qed.

Lemma janitor_start_race_witness :
  ∃ s, rtc ensure_steps ([E_load; E_load], built false) ([E_done; E_done], s) ∧ (length (spawned s) ≤ 1)%nat ∧ ¬ all_stopped (drop_shared s).
Proof.
  destruct janitor_start_race as (Hone&_&s&Hr&Hn). exists s. split; [done|]. split; [|done]. by apply (Hone 2%nat false [E_done; E_done]).
Defined.
