(* ===== verification/Metrics.v ===== *)
(** * The metrics of a cache ([cache/src/metrics.rs])

    Counters are striped by thread: a thread adds to its own stripe, and a read sums the
    stripes modulo [2^64].  [stripe] is the calling thread's stripe; the counters kept by the
    shards ([ShardCounters]) are passed where the code reads them. *)

From Stdlib Require Import SpecFloat.
From S2P Require Import Prelude Float.
From S2P Require Store.

Definition COUNTER_STRIPES : Z := 64.

(** The stripe of the [n]-th thread that asks for one. *)
Definition counter_stripe (n : Z) : Z := Z.land n (COUNTER_STRIPES - 1).

(** ** Striped counters *)

Definition StripedCounter : Type := list Z.

Definition sc_new : StripedCounter := replicate (Z.to_nat COUNTER_STRIPES) 0.

(** The value before and the counter after. *)
Definition sc_fetch_add (stripe n : Z) (c : StripedCounter) : option (Z * StripedCounter) :=
  old ← vget c stripe; c' ← vset c stripe (old +w n); Some (old, c').

Definition sc_fetch_sub (stripe n : Z) (c : StripedCounter) : option (Z * StripedCounter) :=
  old ← vget c stripe; c' ← vset c stripe (old -w n); Some (old, c').

(** The wrapping sum of a list of [u64]s. *)
Definition wrapping_sum (xs : list Z) : Z := foldl u64_add 0 xs.

Definition sc_load (c : StripedCounter) : Z := wrapping_sum c.

(** ** The metrics *)

Record Metrics := mk_metrics {
  hits : list Z;
  misses : list Z;
  stripe_mask : Z;
  m_inserts : StripedCounter;
  updates : StripedCounter;
  invalidations : StripedCounter;
  m_evicted_by_capacity : StripedCounter;
  evicted_by_ttl : StripedCounter;
  evicted_by_tti : StripedCounter;
  m_keys_admitted : StripedCounter;
  keys_rejected : StripedCounter;
  current_cost : StripedCounter;
  m_total_cost_added : StripedCounter;
  created_at : Z;
}.

(** [n.next_power_of_two()] on 64 bits, which wraps to 0 in release builds. *)
Definition next_power_of_two (n : Z) : Z := 2 ^ Z.log2_up n mod U64.

Definition metrics_new (now num_stripes : Z) : Metrics :=
  let num_stripes := next_power_of_two (Z.max num_stripes 1) in
  let stripes := replicate (Z.to_nat num_stripes) 0 in
  mk_metrics stripes stripes (num_stripes - 1) sc_new sc_new sc_new sc_new sc_new sc_new sc_new sc_new sc_new sc_new now.

Section Code.
Implicit Types (m : Metrics) (shards : list Store.ShardCounters).

Definition with_hits xs m : Metrics :=
  mk_metrics xs (misses m) (stripe_mask m) (m_inserts m) (updates m) (invalidations m) (m_evicted_by_capacity m) (evicted_by_ttl m) (evicted_by_tti m)
    (m_keys_admitted m) (keys_rejected m) (current_cost m) (m_total_cost_added m) (created_at m).
Definition with_misses xs m : Metrics :=
  mk_metrics (hits m) xs (stripe_mask m) (m_inserts m) (updates m) (invalidations m) (m_evicted_by_capacity m) (evicted_by_ttl m) (evicted_by_tti m)
    (m_keys_admitted m) (keys_rejected m) (current_cost m) (m_total_cost_added m) (created_at m).
Definition with_updates c m : Metrics :=
  mk_metrics (hits m) (misses m) (stripe_mask m) (m_inserts m) c (invalidations m) (m_evicted_by_capacity m) (evicted_by_ttl m) (evicted_by_tti m)
    (m_keys_admitted m) (keys_rejected m) (current_cost m) (m_total_cost_added m) (created_at m).
Definition with_invalidations c m : Metrics :=
  mk_metrics (hits m) (misses m) (stripe_mask m) (m_inserts m) (updates m) c (m_evicted_by_capacity m) (evicted_by_ttl m) (evicted_by_tti m)
    (m_keys_admitted m) (keys_rejected m) (current_cost m) (m_total_cost_added m) (created_at m).
Definition with_ttl c m : Metrics :=
  mk_metrics (hits m) (misses m) (stripe_mask m) (m_inserts m) (updates m) (invalidations m) (m_evicted_by_capacity m) c (evicted_by_tti m)
    (m_keys_admitted m) (keys_rejected m) (current_cost m) (m_total_cost_added m) (created_at m).
Definition with_tti c m : Metrics :=
  mk_metrics (hits m) (misses m) (stripe_mask m) (m_inserts m) (updates m) (invalidations m) (m_evicted_by_capacity m) (evicted_by_ttl m) c
    (m_keys_admitted m) (keys_rejected m) (current_cost m) (m_total_cost_added m) (created_at m).
Definition with_current_cost c m : Metrics :=
  mk_metrics (hits m) (misses m) (stripe_mask m) (m_inserts m) (updates m) (invalidations m) (m_evicted_by_capacity m) (evicted_by_ttl m) (evicted_by_tti m)
    (m_keys_admitted m) (keys_rejected m) c (m_total_cost_added m) (created_at m).

(** The shards' counters, summed by [f]. *)
Definition local_sum (f : Store.ShardCounters → Z) shards : Z := wrapping_sum (f <$> shards).

Definition current_cost_total shards m : Z := sc_load (current_cost m) +w local_sum Store.cost_delta shards.

Definition record_hits (stripe n : Z) m : option Metrics :=
  '(_, xs) ← sc_fetch_add (Z.land stripe (stripe_mask m)) n (hits m); Some (with_hits xs m).

Definition record_misses (stripe n : Z) m : option Metrics :=
  '(_, xs) ← sc_fetch_add (Z.land stripe (stripe_mask m)) n (misses m); Some (with_misses xs m).

Record MetricsSnapshot := mk_snapshot {
  s_hits : Z; s_misses : Z; hit_ratio : spec_float; s_inserts : Z; s_updates : Z; s_invalidations : Z; s_evicted_by_capacity : Z;
  s_evicted_by_ttl : Z; s_evicted_by_tti : Z; s_keys_admitted : Z; s_keys_rejected : Z; s_current_cost : Z; s_total_cost_added : Z; uptime_secs : Z;
}.

(** [now] and [created_at] are readings of a monotonic clock, in nanoseconds. *)
Definition snapshot (now : Z) shards m : MetricsSnapshot :=
  let h := wrapping_sum (hits m) in
  let ms := wrapping_sum (misses m) in
  let total_lookups := h +w ms in
  mk_snapshot h ms
    (if total_lookups =? 0 then S754_zero false else f64_div (f64_of_u64 h) (f64_of_u64 total_lookups))
    (sc_load (m_inserts m) +w local_sum Store.inserts shards)
    (sc_load (updates m))
    (sc_load (invalidations m))
    (sc_load (m_evicted_by_capacity m) +w local_sum Store.evicted_by_capacity shards)
    (sc_load (evicted_by_ttl m))
    (sc_load (evicted_by_tti m))
    (sc_load (m_keys_admitted m) +w local_sum Store.keys_admitted shards)
    (sc_load (keys_rejected m))
    (current_cost_total shards m)
    (sc_load (m_total_cost_added m) +w local_sum Store.total_cost_added shards)
    ((now - created_at m) / 1000000000).
End Code.

(** ** Sums modulo [2^64] *)

Definition zsum (xs : list Z) : Z := foldr Z.add 0 xs.

Lemma zsum_cons x xs : zsum (x :: xs) = x + zsum xs.
Proof. done. Qed.

Lemma wrapping_sum_from a xs : foldl u64_add a xs mod U64 = (a + zsum xs) mod U64.
Proof.
  revert a. induction xs as [|x xs IH]; intros a; cbn [foldl]; [f_equal; unfold zsum; simpl; lia|].
  rewrite IH, zsum_cons. unfold u64_add. rewrite Zplus_mod_idemp_l. f_equal. lia.
Qed.

Lemma wrapping_sum_mod xs : wrapping_sum xs = zsum xs mod U64.
Proof.
  assert (is_u64 (wrapping_sum xs)) as Hr.
  { unfold wrapping_sum. destruct xs as [|x xs _] using rev_ind; [vm_compute; split; congruence|]. rewrite foldl_app. apply u64_add_range. }
  rewrite <- (Z.mod_small (wrapping_sum xs) U64) by exact Hr. apply (wrapping_sum_from 0).
Qed.

Lemma zsum_insert xs i x y : xs !! i = Some x → zsum (<[i:=y]> xs) = zsum xs - x + y.
Proof.
  revert i. induction xs as [|z xs IH]; intros [|i] Hi; try done; simpl in Hi.
  - injection Hi as ->. change (<[0%nat:=y]> (x :: xs)) with (y :: xs). rewrite !zsum_cons. lia.
  - change (<[S i:=y]> (z :: xs)) with (z :: <[i:=y]> xs). rewrite !zsum_cons, (IH i Hi). lia.
Qed.

Lemma vset_zsum xs i x y xs' : vget xs i = Some x → vset xs i y = Some xs' → zsum xs' = zsum xs - x + y.
Proof.
  intros Hx. unfold vset. rewrite Hx. intros [= <-]. apply zsum_insert. unfold vget in Hx. by destruct (0 <=? i).
Qed.

(** An add on any stripe is an add to the value read. *)
Lemma sc_add_load stripe n c old c' : sc_fetch_add stripe n c = Some (old, c') → sc_load c' = sc_load c +w n.
Proof.
  unfold sc_fetch_add. intros (o&Ho&(c1&Hc&[= <- <-])%bind_Some)%bind_Some. unfold sc_load. rewrite !wrapping_sum_mod, (vset_zsum _ _ _ _ _ Ho Hc).
  unfold u64_add. rewrite Zplus_mod_idemp_l, Zplus_mod_idemp_r. f_equal. lia.
Qed.

Lemma sc_sub_load stripe n c old c' : sc_fetch_sub stripe n c = Some (old, c') → sc_load c' = sc_load c -w n.
Proof.
  unfold sc_fetch_sub. intros (o&Ho&(c1&Hc&[= <- <-])%bind_Some)%bind_Some. unfold sc_load. rewrite !wrapping_sum_mod, (vset_zsum _ _ _ _ _ Ho Hc).
  unfold u64_sub. rewrite Zplus_mod_idemp_r, Zminus_mod_idemp_l. f_equal. lia.
Qed.

Lemma sc_new_load : sc_load sc_new = 0.
Proof. vm_compute. reflexivity. Qed.

(** A stripe of 64 is in range. *)
Lemma counter_stripe_range n : 0 ≤ n → 0 ≤ counter_stripe n < COUNTER_STRIPES.
Proof.
  intros Hn. unfold counter_stripe, COUNTER_STRIPES. change (64 - 1) with (Z.ones 6). rewrite Z.land_ones by lia. by apply Z.mod_pos_bound.
Qed.

Definition counter_ok (c : StripedCounter) : Prop := length c = Z.to_nat COUNTER_STRIPES.

Lemma sc_add_ok stripe n c : 0 ≤ stripe < COUNTER_STRIPES → counter_ok c →
  ∃ old c', sc_fetch_add stripe n c = Some (old, c') ∧ counter_ok c'.
Proof.
  intros Hs Hc. unfold sc_fetch_add. destruct (vget_lt c stripe) as [x Hx]; [rewrite Hc; unfold COUNTER_STRIPES in *; lia|].
  destruct (vset_spec c stripe (x +w n) x Hx) as (c'&E&Hl&_). rewrite Hx. cbn [mbind option_bind]. rewrite E. exists x, c'. split; [done|].
  unfold counter_ok. by rewrite Hl.
Qed.

Lemma sc_sub_ok stripe n c : 0 ≤ stripe < COUNTER_STRIPES → counter_ok c →
  ∃ old c', sc_fetch_sub stripe n c = Some (old, c') ∧ counter_ok c'.
Proof.
  intros Hs Hc. unfold sc_fetch_sub. destruct (vget_lt c stripe) as [x Hx]; [rewrite Hc; unfold COUNTER_STRIPES in *; lia|].
  destruct (vset_spec c stripe (x -w n) x Hx) as (c'&E&Hl&_). rewrite Hx. cbn [mbind option_bind]. rewrite E. exists x, c'. split; [done|].
  unfold counter_ok. by rewrite Hl.
Qed.
