(* ===== verification/Ledger.v ===== *)
(** * The cost ledger of a shard

    A shard adds every change of its cost to its counter [cost_delta], except the cost of
    entries it hands out, which the caller takes off a cache-wide counter.  The lemmas here
    follow the [ledger], the difference between the two, through every operation of
    [ShardMap]; they hold whenever the operation returns, whatever the policy does. *)

From S2P Require Import Prelude Arena Policy Slab ReadRing ShardPolicy Builtin.
From S2P Require Timer ReadLog.
From S2P Require Import Entry HashTable Store.

(** ** Equality modulo [2^64] *)

Definition eqm (a b : Z) : Prop := a mod U64 = b mod U64.
Infix "≡ₘ" := eqm (at level 70).

#[global] Instance eqm_equiv : Equivalence eqm.
Proof. split; unfold eqm; [done|congruence..]. Qed.

#[global] Instance eqm_add : Proper (eqm ==> eqm ==> eqm) Z.add.
Proof. intros a a' Ha b b' Hb. unfold eqm in *. by rewrite Zplus_mod, Ha, Hb, <- Zplus_mod. Qed.

#[global] Instance eqm_sub : Proper (eqm ==> eqm ==> eqm) Z.sub.
Proof. intros a a' Ha b b' Hb. unfold eqm in *. by rewrite Zminus_mod, Ha, Hb, <- Zminus_mod. Qed.

Lemma eqm_add_w a b : a +w b ≡ₘ a + b.
Proof. apply Z.mod_mod. u64_lia. Qed.

Lemma eqm_sub_w a b : a -w b ≡ₘ a - b.
Proof. apply Z.mod_mod. u64_lia. Qed.

Lemma eqm_eq a b : a = b → a ≡ₘ b.
Proof. by intros ->. Qed.

(** Replaces the wrapping operations by the ideal ones. *)
Ltac eqm_ideal := rewrite ?eqm_add_w, ?eqm_sub_w.
Ltac eqm_lia := repeat (rewrite eqm_add_w || rewrite eqm_sub_w); apply eqm_eq; lia.

(** Takes a run of binds apart. *)
Ltac unbind :=
  repeat match goal with
  | H : _ ≫= _ = Some _ |- _ => let x := fresh "r" in let E := fresh "E" in apply bind_Some in H as (x&E&H)
  | H : (let '(_, _) := ?x in _) = Some _ |- _ => destruct x eqn:?; cbn [fst snd] in H
  | H : Some _ = Some _ |- _ => injection H as H
  | H : None = Some _ |- _ => discriminate H
  | H : (_, _) = (_, _) |- _ => injection H as H
  | p : (_ * _)%type |- _ => destruct p; cbn [fst snd] in *
  end; subst.

Section Ledger.
Context {K V P Index : Type} {A HT : Type → Type}.
Context `{EqDecision K} `{!CachePolicy K P} `{!Arena Index A} `{!HashTable HT} `{!StoreHash K}.
Notation entry := (CacheEntry V Index).
Notation shard_map := (ShardMap K V P Index A HT).
Implicit Types (sm : shard_map) (e : entry) (k : K).

Definition ledger sm : Z := cost_delta (local sm) - sm_cost sm.

(** Neither the cost nor the counters change. *)
Definition unbilled sm sm' : Prop := sm_cost sm' = sm_cost sm ∧ local sm' = local sm.

#[global] Instance unbilled_trans : PreOrder unbilled.
Proof. split; [done|]. intros x y z [E1 E2] [E3 E4]. split; congruence. Qed.

Lemma unbilled_ledger sm sm' : unbilled sm sm' → ledger sm' = ledger sm.
Proof. unfold ledger. by intros [-> ->]. Qed.

Lemma disarm_unbilled e sm sm' : disarm e sm = Some sm' → unbilled sm sm'.
Proof. unfold disarm. destruct (ttl_timer_handle e); intros H; unbind; done. Qed.

Lemma arm_unbilled now hash e sm e' sm' : arm now hash e sm = Some (e', sm') → unbilled sm sm' ∧ cost e' = cost e.
Proof. unfold arm. destruct (0 <? _); intros H; unbind; done. Qed.

Lemma take_unbilled k sm o sm' : take k sm = Some (o, sm') → unbilled sm sm'.
Proof.
  unfold take. destruct (ht_take _ _ _) as [[[key e] t]|]; intros H; unbind; [|done].
  by apply disarm_unbilled in E as [? ?].
Qed.

Lemma take_victim_unbilled v sm o sm' : take_victim v sm = Some (o, sm') → unbilled sm sm'.
Proof.
  unfold take_victim. destruct (ht_take _ _ _) as [[[key e] t]|]; intros H; unbind; [|done].
  by apply disarm_unbilled in E as [? ?].
Qed.

Lemma apply_reads_unbilled sm sm' : apply_reads sm = Some sm' → unbilled sm sm'.
Proof. unfold apply_reads. destruct (sm_builtin sm); intros H; unbind; done. Qed.

Lemma apply_deferred_unbilled rd sm sm' : apply_deferred rd sm = Some sm' → unbilled sm sm'.
Proof.
  unfold apply_deferred. intros H; unbind. apply apply_reads_unbilled in E. etrans; [exact E|].
  destruct rd; [unbind; done|]. destruct (sm_builtin r); unbind; done.
Qed.

Lemma touch_read_unbilled nd sm sm' : touch_read nd sm = Some sm' → unbilled sm sm'.
Proof. unfold touch_read. destruct (sm_builtin sm); intros H; unbind; done. Qed.

Lemma get_mut_unbilled k f sm e sm' : get_mut k f sm = Some (e, sm') → unbilled sm sm'.
Proof. unfold get_mut. intros H; unbind. done. Qed.

Lemma forget_unbilled k e sm sm' : forget k e sm = Some sm' → unbilled sm sm'.
Proof. unfold forget. destruct (sm_builtin sm); intros H; unbind; done. Qed.

Lemma account_eviction_local k e ef sm : local (account_eviction k e ef sm).2 = local sm.
Proof. unfold account_eviction. cbn. by destruct (notify _). Qed.

Lemma take_keys_local vs ef sm r : take_keys vs ef sm = Some r → local r.2 = local sm.
Proof.
  revert ef sm. induction vs as [|v vs IH]; intros ef sm; cbn [take_keys]; [by intros [= <-]|]. intros H. apply bind_Some in H as ([taken sm1]&E&H).
  apply take_unbilled in E as [_ E]. destruct taken as [[k e]|].
  - pose proof (account_eviction_local k e ef sm1) as Ea. destruct (account_eviction k e ef sm1) as [ef2 sm2]. apply IH in H. simpl in Ea. congruence.
  - apply IH in H. congruence.
Qed.

Lemma take_admission_victims_local vs ef sm r : take_admission_victims vs ef sm = Some r → local r.2 = local sm.
Proof.
  revert ef sm. induction vs as [|v vs IH]; intros ef sm; cbn [take_admission_victims]; [by intros [= <-]|]. intros H. apply bind_Some in H as ([taken sm1]&E&H).
  apply take_unbilled in E as [_ E]. destruct taken as [[k e]|].
  - apply bind_Some in H as (p&_&H). pose proof (account_eviction_local k e ef (with_policy p sm1)) as Ea.
    destruct (account_eviction k e ef (with_policy p sm1)) as [ef2 sm2]. apply IH in H. simpl in Ea. congruence.
  - apply IH in H. congruence.
Qed.

Lemma take_victims_local vs ef sm r : take_victims vs ef sm = Some r → local r.2 = local sm.
Proof.
  revert ef sm. induction vs as [|v vs IH]; intros ef sm; cbn [take_victims]; [by intros [= <-]|]. intros H. apply bind_Some in H as ([taken sm1]&E&H).
  apply take_victim_unbilled in E as [_ E]. destruct taken as [[k e]|].
  - pose proof (account_eviction_local k e ef sm1) as Ea. destruct (account_eviction k e ef sm1) as [ef2 sm2]. apply IH in H. simpl in Ea. congruence.
  - apply IH in H. congruence.
Qed.

Lemma replace_cost_local old c sm : local (replace_cost old c sm) = local sm.
Proof. by destruct old. Qed.

Lemma count_evicted_delta n sm : cost_delta (local (count_evicted n sm)) = cost_delta (local sm).
Proof. unfold count_evicted. by destruct (0 <? n). Qed.

Lemma put_local k e hash sm : local (put k e hash sm).2 = local sm.
Proof. unfold put. by destruct (ht_find_mut _ _ _) as [[[? ?] ?]|]. Qed.

Lemma insert_policy_delta k e hash sm old sm' :
  insert_policy k e hash sm = Some (old, sm') → cost_delta (local sm') = cost_delta (local sm).
Proof.
  unfold insert_policy. intros H. apply bind_Some in H as (sm1&E1&H). apply apply_reads_unbilled in E1 as [_ E1].
  apply bind_Some in H as ([d p]&_&H). pose proof (put_local k e hash (with_policy p sm1)) as Ep. destruct (put k e hash (with_policy p sm1)) as [o sm2].
  apply bind_Some in H as ([ef sm3]&E3&H). apply bind_Some in H as ([ef' sm4]&E4&H). injection H as _ <-.
  assert (L3 : local sm3 = local sm2).
  { destruct d; try (injection E3 as _ <-; apply replace_cost_local).
    apply take_admission_victims_local in E3. cbn [snd] in E3. by rewrite E3, replace_cost_local. }
  assert (L4 : local sm4 = local sm3).
  { destruct (budget sm3 <? sm_cost sm3); [|by injection E4 as _ <-]. apply bind_Some in E4 as ([[vs f] p']&_&E4). by apply take_keys_local in E4. }
  rewrite count_evicted_delta. simpl in Ep. congruence.
Qed.

Lemma builtin_put_local k e hash b sm old out sm' : builtin_put k e hash b sm = Some (old, out, sm') → local sm' = local sm.
Proof. unfold builtin_put. destruct (ht_find_mut _ _ _) as [[[? ?] ?]|]; intros H; unbind; done. Qed.

Lemma insert_builtin_delta k e hash sm old sm' :
  insert_builtin k e hash sm = Some (old, sm') → cost_delta (local sm') = cost_delta (local sm).
Proof.
  unfold insert_builtin. intros H. apply bind_Some in H as (b&_&H). apply bind_Some in H as ([r b1]&_&H).
  apply bind_Some in H as ([[o out] sm1]&E1&H). apply builtin_put_local in E1.
  apply bind_Some in H as ([ef sm2]&E2&H). apply take_victims_local in E2. rewrite replace_cost_local in E2.
  apply bind_Some in H as ([ef' sm3]&E3&H). injection H as _ <-.
  assert (L3 : local sm3 = local sm2).
  { destruct (budget sm2 <? sm_cost sm2); [|by injection E3 as _ <-]. apply bind_Some in E3 as (b2&_&E3). apply bind_Some in E3 as ([out2 b3]&_&E3).
    by apply take_victims_local in E3. }
  rewrite count_evicted_delta. simpl in *. congruence.
Qed.

(** An insert books what it changes. *)
Lemma insert_inner_ledger now k e hash count sm old sm' :
  insert_inner now k e hash count sm = Some (old, sm') → ledger sm' ≡ₘ ledger sm.
Proof.
  unfold insert_inner. intros H. apply bind_Some in H as ([e1 sm1]&E1&H). apply arm_unbilled in E1 as [[C1 L1] _].
  apply bind_Some in H as ([o sm2]&E2&H).
  assert (D2 : cost_delta (local sm2) = cost_delta (local sm1)).
  { case_bool_decide; [by apply insert_builtin_delta in E2|by apply insert_policy_delta in E2]. }
  apply bind_Some in H as (sm3&E3&H). injection H as _ <-.
  assert (U3 : unbilled sm2 sm3) by (destruct o; [by apply disarm_unbilled in E3|by injection E3 as <-]). destruct U3 as [C3 L3].
  unfold ledger, counter_add. cbn [local with_local sm_cost cost_delta].
  assert (cost_delta (if count then mk_counters (counter_add (inserts (local sm3)) 1) (counter_add (keys_admitted (local sm3)) 1)
    (counter_add (total_cost_added (local sm3)) (cost e)) (evicted_by_capacity (local sm3)) (cost_delta (local sm3)) else local sm3) = cost_delta (local sm)) as E
    by (destruct count; simpl; congruence).
  unfold counter_add in E. rewrite E. eqm_lia.
Qed.

(** A removal leaves the cost of the entry to the caller. *)
Definition taken_cost (o : option (K * entry)) : Z := match o with Some ke => cost ke.2 | None => 0 end.

Lemma remove_entry_ledger k sm o sm' : remove_entry k sm = Some (o, sm') → ledger sm' ≡ₘ ledger sm + taken_cost o.
Proof.
  unfold remove_entry. intros H. apply bind_Some in H as (sm1&E1&H). apply apply_reads_unbilled in E1 as [C1 L1].
  apply bind_Some in H as ([taken sm2]&E2&H). apply take_unbilled in E2 as [C2 L2]. destruct taken as [[key e]|].
  - apply bind_Some in H as (sm3&E3&H). injection H as <- <-. apply forget_unbilled in E3 as [C3 L3]. simpl in C3, L3.
    unfold ledger, taken_cost. rewrite C3, L3, L2, L1, C2, C1. cbn [snd]. eqm_lia.
  - injection H as <- <-. unfold ledger, taken_cost. rewrite L2, L1, C2, C1. apply eqm_eq. lia.
Qed.

Lemma clear_ledger sm sm' : Store.clear sm = Some sm' → ledger sm' ≡ₘ ledger sm.
Proof.
  assert (H : ∀ x, sm_cost x = 0 → cost_delta (local x) = counter_add (cost_delta (local sm)) (0 -w sm_cost sm) → ledger x ≡ₘ ledger sm).
  { intros x Hc Hd. unfold ledger. rewrite Hc, Hd. unfold counter_add. eqm_lia. }
  unfold Store.clear. cbn [sm_builtin with_cost with_local with_wheel with_table]. destruct (sm_builtin sm); intros E; unbind; by apply H.
Qed.

(** ** Sweeps *)

Definition out_cost (out : list (K * entry * ExpiredBy)) : Z := foldr (λ x s, cost x.1.2 + s) 0 out.

Lemma out_cost_app out out' : out_cost (out ++ out') = out_cost out + out_cost out'.
Proof. induction out as [|x out IH]; [done|]. change (out_cost ((x :: out) ++ out')) with (cost x.1.2 + out_cost (out ++ out')). rewrite IH. simpl. lia. Qed.

Lemma remove_expired_ledger fuel hash now sm out sm' :
  remove_expired fuel hash now sm = Some (out, sm') → ledger sm' ≡ₘ ledger sm + out_cost out.
Proof.
  revert sm out. induction fuel as [|fuel IH]; intros sm out; cbn [remove_expired]; destruct (ht_take _ _ _) as [[[key e] t]|]; try done;
    try (intros [= <- <-]; apply eqm_eq; simpl; lia).
  intros H. apply bind_Some in H as (by_&_&H). apply bind_Some in H as (sm1&E1&H). apply disarm_unbilled in E1 as [C1 L1].
  apply bind_Some in H as (sm2&E2&H). apply forget_unbilled in E2 as [C2 L2]. apply bind_Some in H as ([out1 sm3]&E3&H). injection H as <- <-.
  rewrite (IH _ _ E3). unfold ledger. rewrite C2, L2, C1, L1. cbn [local sm_cost with_cost with_table out_cost foldr fst snd].
  change (foldr _ 0 out1) with (out_cost out1). eqm_lia.
Qed.

Lemma remove_hashes_ledger hashes now sm out sm' :
  remove_hashes hashes now sm = Some (out, sm') → ledger sm' ≡ₘ ledger sm + out_cost out.
Proof.
  revert sm out. induction hashes as [|h hashes IH]; intros sm out; cbn [remove_hashes]; [intros [= <- <-]; apply eqm_eq; simpl; lia|].
  intros H. apply bind_Some in H as ([o1 sm1]&E1&H). apply bind_Some in H as ([o2 sm2]&E2&H). injection H as <- <-.
  rewrite (IH _ _ E2), (remove_expired_ledger _ _ _ _ _ _ E1), out_cost_app. apply eqm_eq. lia.
Qed.

Lemma remove_expired_hashes_ledger hashes now sm out sm' :
  remove_expired_hashes hashes now sm = Some (out, sm') → ledger sm' ≡ₘ ledger sm + out_cost out.
Proof.
  unfold remove_expired_hashes. intros H. apply bind_Some in H as (sm1&E1&H). apply apply_reads_unbilled, unbilled_ledger in E1.
  rewrite (remove_hashes_ledger _ _ _ _ _ H), E1. done.
Qed.

Lemma expire_all_ledger now sm out sm' : expire_all now sm = Some (out, sm') → ledger sm' ≡ₘ ledger sm + out_cost out.
Proof. apply remove_expired_hashes_ledger. Qed.

Lemma rearm_unbilled now hash sm sm' : rearm now hash sm = Some sm' → unbilled sm sm'.
Proof. unfold rearm. destruct (ht_find_mut _ _ _) as [[[kk e] write]|]; intros H; unbind; done. Qed.

Lemma expire_fired_ledger fired now sm out sm' : expire_fired fired now sm = Some (out, sm') → ledger sm' ≡ₘ ledger sm + out_cost out.
Proof.
  revert sm out. induction fired as [|h fired IH]; intros sm out; cbn [expire_fired]; [intros [= <- <-]; apply eqm_eq; simpl; lia|].
  intros H. apply bind_Some in H as ([o1 sm1]&E1&H). apply bind_Some in H as (sm2&E2&H). apply rearm_unbilled, unbilled_ledger in E2.
  apply bind_Some in H as ([o3 sm3]&E3&H). injection H as <- <-.
  rewrite (IH _ _ E3), E2, (remove_expired_ledger _ _ _ _ _ _ E1), out_cost_app. apply eqm_eq. lia.
Qed.

Lemma expire_due_ledger now sm out sm' : expire_due now sm = Some (out, sm') → ledger sm' ≡ₘ ledger sm + out_cost out.
Proof.
  unfold expire_due. intros H. apply bind_Some in H as ([fired w]&_&H). destruct fired as [|h fired].
  - injection H as <- <-. apply eqm_eq. unfold ledger. simpl. lia.
  - apply bind_Some in H as (sm1&E1&H). apply apply_reads_unbilled, unbilled_ledger in E1. rewrite (expire_fired_ledger _ _ _ _ _ H), E1. done.
Qed.
End Ledger.
