(* ===== verification/Cache.v ===== *)
(** * The cache and its synchronous handle ([cache/src/handles/sync.rs], [shared.rs],
      [entry_api.rs], [task/janitor.rs])

    [CacheShared] holds the shards, the metrics, the loads under way and the settings.
    An operation is a function on it; it runs with the locks it takes, so operations do not overlap
    here (the parts that are written for overlap are modelled in [ReadRing], [ReadLog],
    [Loader], [Refresh] and [Janitor]).  [now] is the clock reading of a call and [me] the metrics stripe of the calling
    thread; [None] is a panic of the code.  [sent] collects what is handed to the listener's channel
    besides the evictions, which [Store.notified] collects. *)

From S2P Require Import Prelude Arena Policy Slab ReadRing ShardPolicy Builtin.
From S2P Require Timer ReadLog.
From S2P Require Import Entry HashTable Store Metrics.
From S2P Require Loader Refresh Janitor.

Inductive EvictionReason := Capacity | Expired | Invalidated.

Inductive ComputeResult (R : Type) := C_Ok (r : R) | C_Fail | C_NotFound.
Arguments C_Ok {R}.
Arguments C_Fail {R}.
Arguments C_NotFound {R}.

(** A shard: the map under its lock, and the generator of its maintenance draws. *)
Record Shard (K V P Index : Type) (A HT : Type → Type) := mk_shard { map : ShardMap K V P Index A HT; rng : FastRng }.
Arguments mk_shard {K V P Index A HT}.
Arguments map {K V P Index A HT}.
Arguments rng {K V P Index A HT}.

(** What the builder fixes.  [sender] tells whether there is a listener. *)
Record Settings (K V : Type) := mk_settings {
  capacity : Z;
  time_to_live : option Z;
  time_to_idle : option Z;
  stale_while_revalidate : option Z;
  loader : option (Loader.Loader K V);
  sender : bool;
  maintenance_on_introspection : bool;
  track_reads : bool;
  builtin_reads : BuiltinReads;
}.
Arguments mk_settings {K V}.
Arguments capacity {K V}.
Arguments time_to_live {K V}.
Arguments time_to_idle {K V}.
Arguments stale_while_revalidate {K V}.
Arguments loader {K V}.
Arguments sender {K V}.
Arguments maintenance_on_introspection {K V}.
Arguments track_reads {K V}.
Arguments builtin_reads {K V}.

(** [futures] is the heap of the loads; [spawned] the loads given to another thread, each with
    whether it is a refresh. *)
Record CacheShared (K V P Index : Type) (A HT : Type → Type) `{Countable K} := mk_cache {
  shards : list (Shard K V P Index A HT);
  clock : CoarseClock;
  metrics : Metrics;
  janitor : Janitor.Shared;
  settings : Settings K V;
  pending_loads : list (gmap K nat);
  futures : list (Loader.LoadFuture V);
  refreshes : Refresh.RefreshQueue K;
  spawned : list (K * nat * bool);
  sent : list (K * V * EvictionReason);
}.
Arguments mk_cache {K V P Index A HT _ _}.
Arguments shards {K V P Index A HT _ _}.
Arguments clock {K V P Index A HT _ _}.
Arguments metrics {K V P Index A HT _ _}.
Arguments janitor {K V P Index A HT _ _}.
Arguments settings {K V P Index A HT _ _}.
Arguments pending_loads {K V P Index A HT _ _}.
Arguments futures {K V P Index A HT _ _}.
Arguments refreshes {K V P Index A HT _ _}.
Arguments spawned {K V P Index A HT _ _}.
Arguments sent {K V P Index A HT _ _}.

Section Code.
Context {K V P Index : Type} {A HT : Type → Type}.
Context `{Countable K} `{!CachePolicy K P} `{!Arena Index A} `{!HashTable HT} `{!StoreHash K}.
Notation entry := (CacheEntry V Index).
Notation shard_map := (ShardMap K V P Index A HT).
Notation shard := (Shard K V P Index A HT).
Notation cache := (CacheShared K V P Index A HT).
Implicit Types (sm : shard_map) (e : entry) (k : K) (v : V) (c : cache) (now me : Z) (i : Z).

(** ** Field updates *)

Definition with_shards ss c : cache :=
  mk_cache ss (clock c) (metrics c) (janitor c) (settings c) (pending_loads c) (futures c) (refreshes c) (spawned c) (sent c).
Definition with_clock t c : cache :=
  mk_cache (shards c) t (metrics c) (janitor c) (settings c) (pending_loads c) (futures c) (refreshes c) (spawned c) (sent c).
Definition with_metrics m c : cache :=
  mk_cache (shards c) (clock c) m (janitor c) (settings c) (pending_loads c) (futures c) (refreshes c) (spawned c) (sent c).
Definition with_janitor j c : cache :=
  mk_cache (shards c) (clock c) (metrics c) j (settings c) (pending_loads c) (futures c) (refreshes c) (spawned c) (sent c).
Definition with_pending ps c : cache :=
  mk_cache (shards c) (clock c) (metrics c) (janitor c) (settings c) ps (futures c) (refreshes c) (spawned c) (sent c).
Definition with_futures fs c : cache :=
  mk_cache (shards c) (clock c) (metrics c) (janitor c) (settings c) (pending_loads c) fs (refreshes c) (spawned c) (sent c).
Definition with_refreshes q c : cache :=
  mk_cache (shards c) (clock c) (metrics c) (janitor c) (settings c) (pending_loads c) (futures c) q (spawned c) (sent c).
Definition with_spawned l c : cache :=
  mk_cache (shards c) (clock c) (metrics c) (janitor c) (settings c) (pending_loads c) (futures c) (refreshes c) l (sent c).
Definition with_sent l c : cache :=
  mk_cache (shards c) (clock c) (metrics c) (janitor c) (settings c) (pending_loads c) (futures c) (refreshes c) (spawned c) l.

Definition ttl c : option Z := time_to_live (settings c).
Definition tti c : option Z := time_to_idle (settings c).

(** ** Shards *)

Definition num_shards c : Z := Z.of_nat (length (shards c)).

Definition get_shard_index_from_hash (hash : Z) c : Z := Z.land hash (num_shards c - 1).

(** [self.store.get_shard(key)]. *)
Definition get_shard k c : Z := shard_index (num_shards c) (hash_key k).

(** [f] under the lock of shard [i]. *)
Definition with_shard {R} i (f : shard_map → option (R * shard_map)) c : option (R * cache) :=
  s ← vget (shards c) i; '(r, sm) ← f (map s); ss ← vset (shards c) i (mk_shard sm (rng s)); Some (r, with_shards ss c).

(** The map of shard [i], read under its lock. *)
Definition shard_at i c : option shard_map := s ← vget (shards c) i; Some (map s).

Definition counters c : list ShardCounters := (λ s, local (map s)) <$> shards c.

(** ** Metrics *)

Definition on_metrics (f : Metrics → option Metrics) c : option cache := m ← f (metrics c); Some (with_metrics m c).

Definition count_update me c : option cache :=
  on_metrics (λ m, '(_, u) ← sc_fetch_add me 1 (updates m); Some (with_updates u m)) c.

Definition count_invalidation me c : option cache :=
  on_metrics (λ m, '(_, u) ← sc_fetch_add me 1 (invalidations m); Some (with_invalidations u m)) c.

Definition sub_current_cost me (n : Z) c : option cache :=
  on_metrics (λ m, '(_, u) ← sc_fetch_sub me n (current_cost m); Some (with_current_cost u m)) c.

(** [sender.try_send], to a listener if there is one. *)
Definition try_send k v (reason : EvictionReason) c : cache :=
  if sender (settings c) then with_sent (sent c ++ [(k, v, reason)]) c else c.

(** ** Reads *)

(** What a hit tells the entry and the policy; the read that must be applied under the
    write lock, if its log was full. *)
Definition on_hit now k e sm c : option (option (DeferredRead K) * shard_map) :=
  sm ← match tti c with
       | Some _ => '(_, sm) ← get_mut k (update_last_accessed_coarse now (clock c)) sm; Some sm
       | None => Some sm
       end;
  match builtin_reads (settings c) with
  | R_Ring => '(ok, r) ← ReadRing.push (node e) (ring sm); Some (if (ok : bool) then None else Some (D_Node (node e)), with_ring r sm)
  | R_Freq => sm ← touch_read (node e) sm; Some (None, sm)
  | R_None =>
      if track_reads (settings c) then
        '(ok, lg) ← ReadLog.push (k, cost e) (sm_reads sm);
        Some (if (ok : bool) then None else Some (D_Key k (cost e)), with_reads lg sm)
      else Some (None, sm)
  end.

(** The lookup of [get], [fetch] and [multiget] under the read lock: a hit and its
    deferred read. *)
Definition lookup_hit now k (hash : Z) sm c : option (option (K * entry) * option (DeferredRead K) * shard_map) :=
  match get_key_value_hashed k hash sm with
  | Some (found_key, e) =>
      if is_expired_coarse now (tti c) (clock c) e then Some (None, None, sm)
      else '(deferred, sm) ← on_hit now found_key e sm c; Some (Some (found_key, e), deferred, sm)
  | None => Some (None, None, sm)
  end.

Definition apply_deferred_at i (deferred : option (DeferredRead K)) c : option cache :=
  match deferred with
  | Some read => '(_, c) ← with_shard i (λ sm, sm ← apply_deferred read sm; Some ((), sm)) c; Some c
  | None => Some c
  end.

(** The lookup, then the deferred read. *)
Definition read_hit now k c : option (option (K * entry) * cache) :=
  let hash := hash_key k in
  let i := get_shard_index_from_hash hash c in
  '(hd, c) ← with_shard i (λ sm, '(hit, deferred, sm) ← lookup_hit now k hash sm c; Some ((hit, deferred), sm)) c;
  c ← apply_deferred_at i hd.2 c;
  Some (hd.1, c).

Definition count_lookup {R} me (result : option R) c : option cache :=
  on_metrics (match result with Some _ => record_hits me 1 | None => record_misses me 1 end) c.

Definition get {R} now me k (f : V → R) c : option (option R * cache) :=
  '(hit, c) ← read_hit now k c;
  let result := (λ ke : K * entry, f (value ke.2)) <$> hit in
  c ← count_lookup me result c; Some (result, c).

Definition fetch now me k c : option (option V * cache) :=
  '(hit, c) ← read_hit now k c;
  let v := (λ ke : K * entry, value ke.2) <$> hit in
  c ← count_lookup me v c; Some (v, c).

Definition peek now k c : option (option V) :=
  sm ← shard_at (get_shard k c) c;
  Some match Store.get k sm with
       | Some e => if is_expired_coarse now (tti c) (clock c) e then None else Some (value e)
       | None => None
       end.

(** ** Inserts *)

Definition insert_entry now k e c : option cache :=
  let hash := hash_key k in
  '(_, c) ← with_shard (Z.land hash (num_shards c - 1)) (insert_hashed now k e hash) c; Some c.

Definition insert now k v (cst : Z) c : option cache := insert_entry now k (Entry.new now v cst (ttl c) (tti c)) c.

Definition ensure_janitor c : cache := with_janitor (Janitor.ensure_janitor (janitor c)) c.

Definition insert_with_ttl now k v (cst ttl : Z) c : option cache :=
  let c := ensure_janitor c in
  let expires_at := now +w nanos ttl in
  insert_entry now k (new_with_custom_expiry now v cst expires_at (tti c)) c.

(** ** The entry interface ([entry_api.rs]): the guard keeps the shard as it is between the
    two calls *)

Inductive CEntry := Occupied (k : K) | Vacant (k : K).

Definition entry_of k c : option CEntry :=
  sm ← shard_at (get_shard k c) c; Some (if contains_key k sm then Occupied k else Vacant k).

Definition occupied_get k c : option V := sm ← shard_at (get_shard k c) c; e ← Store.get k sm; Some (value e).

Definition vacant_insert now k v (cst : Z) c : option (V * cache) :=
  let e := Entry.new now v cst (ttl c) (tti c) in
  '(_, c) ← with_shard (get_shard k c) (Store.insert now k e) c; Some (v, c).

(** The closure of [or_insert_with] runs only for a vacant entry. *)
Definition or_insert_with now (en : CEntry) (default : unit → V) (cst : Z) c : option (V * cache) :=
  match en with
  | Occupied k => v ← occupied_get k c; Some (v, c)
  | Vacant k => vacant_insert now k (default ()) cst c
  end.

Definition or_insert now (en : CEntry) (default : V) (cst : Z) c : option (V * cache) :=
  match en with
  | Occupied k => v ← occupied_get k c; Some (v, c)
  | Vacant k => vacant_insert now k default cst c
  end.

(** ** Updates in place

    [exclusive] says that no other [Arc] to the value is alive. *)

Definition try_compute_val {R} (exclusive : bool) me k (f : V → R * V) c : option (ComputeResult R * cache) :=
  let i := get_shard k c in
  sm ← shard_at i c;
  match get_mut k (λ e, if exclusive then set_value (f (value e)).2 e else e) sm with
  | Some (e, sm') =>
      if exclusive then
        '(_, c) ← with_shard i (λ _, Some ((), sm')) c;
        c ← count_update me c;
        Some (C_Ok (f (value e)).1, c)
      else Some (C_Fail, c)
  | None => Some (C_NotFound, c)
  end.

Definition try_compute (exclusive : bool) me k (f : V → V) c : option (option bool * cache) :=
  '(r, c) ← try_compute_val exclusive me k (λ v, ((), f v)) c;
  Some (match r with C_Ok _ => Some true | C_Fail => Some false | C_NotFound => None end, c).

(** The loops: [tries] tells for each turn whether the value was exclusive; [None] when the
    loop still runs after them. *)
Fixpoint compute (tries : list bool) me k (f : V → V) c : option (option bool * cache) :=
  match tries with
  | [] => Some (None, c)
  | exclusive :: tries =>
      '(r, c) ← try_compute exclusive me k f c;
      match r with
      | Some true => Some (Some true, c)
      | Some false => compute tries me k f c
      | None => Some (Some false, c)
      end
  end.

Fixpoint compute_val {R} (tries : list bool) me k (f : V → R * V) c : option (option (ComputeResult R) * cache) :=
  match tries with
  | [] => Some (None, c)
  | exclusive :: tries =>
      '(r, c) ← try_compute_val exclusive me k f c;
      match r with
      | C_Fail => compute_val tries me k f c
      | _ => Some (Some r, c)
      end
  end.

(** ** Removals *)

(** The accounting of a removed entry. *)
Definition account_removed me k e c : option cache :=
  c ← count_invalidation me c;
  c ← sub_current_cost me (cost e) c;
  Some (try_send k (value e) Invalidated c).

Definition remove me k c : option (option V * cache) :=
  '(taken, c) ← with_shard (get_shard k c) (remove_entry k) c;
  match taken with
  | Some (found_key, e) => c ← account_removed me found_key e c; Some (Some (value e), c)
  | None => Some (None, c)
  end.

Definition invalidate me k c : option (bool * cache) :=
  '(r, c) ← remove me k c; Some (bool_decide (is_Some r), c).

(** [f] on the map of every shard. *)
Definition each_shard (f : shard_map → option shard_map) c : option cache :=
  ss ← mapM (λ s : shard, sm ← f (map s); Some (mk_shard sm (rng s))) (shards c); Some (with_shards ss c).

Definition clear c : option cache := each_shard Store.clear c.

(** ** Introspection *)

Definition flush_for_introspection c : option cache :=
  if maintenance_on_introspection (settings c) then each_shard apply_reads c else Some c.

Definition read_metrics now c : option (MetricsSnapshot * cache) :=
  c ← flush_for_introspection c; Some (snapshot now (counters c) (metrics c), c).

(** ** The janitor's passes *)

Fixpoint account_expired me (expired : list (K * entry * ExpiredBy)) c : option cache :=
  match expired with
  | [] => Some c
  | (k, e, by_) :: expired =>
      c ← on_metrics (λ m, match by_ with
                           | Ttl => '(_, u) ← sc_fetch_add me 1 (evicted_by_ttl m); Some (with_ttl u m)
                           | Tti => '(_, u) ← sc_fetch_add me 1 (evicted_by_tti m); Some (with_tti u m)
                           end) c;
      c ← sub_current_cost me (cost e) c;
      account_expired me expired (try_send k (value e) Expired c)
  end.

(** A sweep of shard [i], and its accounting. *)
Definition sweep_shard me i (sweep : shard_map → option (list (K * entry * ExpiredBy) * shard_map)) c : option cache :=
  '(expired, c) ← with_shard i sweep c; account_expired me expired c.

Fixpoint each_index (f : Z → cache → option cache) (is_ : list Z) c : option cache :=
  match is_ with
  | [] => Some c
  | i :: is_ => c ← f i c; each_index f is_ c
  end.

Definition indices c : list Z := Z.of_nat <$> seq 0 (length (shards c)).

Definition run_maintenance now me c : option cache :=
  let c := with_clock (refresh now (clock c)) c in
  each_index (λ i, sweep_shard me i (expire_all now)) (indices c) c.

Definition JANITOR_CHECKS_PER_TICK : Z := 2.

Definition perform_shard_maintenance i c : option cache :=
  '(_, c) ← with_shard i (λ sm, sm ← apply_reads sm; Some ((), sm)) c; Some c.

Definition cleanup_expired_for_shard now me i c : option cache :=
  sm ← shard_at i c;
  if ttl_is_due now sm then sweep_shard me i (expire_due now) c else Some c.

Definition cleanup_idle_for_shard now me i c : option cache :=
  let c := with_clock (refresh now (clock c)) c in
  sm ← shard_at i c;
  match idle_hashes now sm with
  | [] => Some c
  | hashes => sweep_shard me i (remove_expired_hashes hashes now) c
  end.

(** The checks of random shards: each pick is the index drawn and whether the shard's maintenance
    lock was free. *)
Fixpoint check_shards (denominator : Z) (picks : list (Z * bool)) c : option cache :=
  match picks with
  | [] => Some c
  | (i, free) :: picks =>
      s ← vget (shards c) i;
      let '(run, g) := should_run denominator (rng s) in
      ss ← vset (shards c) i (mk_shard (map s) g);
      let c := with_shards ss c in
      c ← (if run && free then perform_shard_maintenance i c else Some c);
      check_shards denominator picks c
  end.

Definition cleanup now me (denominator : Z) (picks : list (Z * bool)) c : option cache :=
  if num_shards c =? 0 then Some c
  else
    c ← check_shards denominator (firstn (Z.to_nat (Z.min JANITOR_CHECKS_PER_TICK (num_shards c))) picks) c;
    each_index (λ i c, c ← cleanup_expired_for_shard now me i c;
                       match tti c with Some _ => cleanup_idle_for_shard now me i c | None => Some c end) (indices c) c.

(** ** Loads *)

Definition loads_index k c : Z := Z.land (hash_key k) (Z.of_nat (length (pending_loads c)) - 1).

(** [pending_loads[index].lock()], then [f] on the map of loads. *)
Definition with_loads {R} k (f : gmap K nat → option (R * gmap K nat)) c : option (R * cache) :=
  m ← vget (pending_loads c) (loads_index k c); '(r, m) ← f m;
  ps ← vset (pending_loads c) (loads_index k c) m; Some (r, with_pending ps c).

Definition update_future (id : nat) (f : Loader.LoadFuture V → Loader.LoadFuture V) c : option cache :=
  l ← futures c !! id; Some (with_futures (<[id:=f l]> (futures c)) c).

(** [complete] and [fail], which find the lock free here; the wakes are those of [Loader.finish]. *)
Definition finish_load (id : nat) (st : Loader.State V) c : option cache :=
  update_future id (λ l, Loader.with_inner (Loader.finish st (Loader.inner l) ∅).1 l) c.

Definition forget_load k c : option cache := '(_, c) ← with_loads k (λ m, Some ((), delete k m)) c; Some c.

(** [None]: the loader panicked, and its caller resumes the panic. *)
Definition run_sync_load now (f : K → option (V * Z)) k (id : nat) c : option (option V * cache) :=
  match f k with
  | Some (v, cst) =>
      let e := Entry.new now v cst (ttl c) (tti c) in
      '(_, c) ← with_shard (get_shard k c) (Store.insert now k e) c;
      c ← forget_load k c;
      c ← finish_load id (Loader.Complete v) c;
      Some (Some v, c)
  | None =>
      c ← forget_load k c;
      c ← finish_load id Loader.Panicked c;
      Some (None, c)
  end.

(** [spawn_loader_task] hands the load to another thread or task, which [run_spawned] runs. *)
Definition spawn_loader_task k (id : nat) (refresh : bool) c : option cache :=
  match loader (settings c) with
  | Some _ => Some (with_spawned (spawned c ++ [(k, id, refresh)]) c)
  | None => None
  end.

Fixpoint spawn_all (jobs : list (K * nat)) c : option cache :=
  match jobs with
  | [] => Some c
  | (k, id) :: jobs => c ← spawn_loader_task k id true c; spawn_all jobs c
  end.

(** A call into the refresh queue; the loop takes a queued refresh each turn. *)
Definition pump (p : Refresh.Refresher K) c : option cache :=
  '(q, h, jobs) ← Refresh.run_refresher (10 * (length (Refresh.items (refreshes c)) + 3)) p (refreshes c) (futures c);
  spawn_all jobs (with_refreshes q (with_futures h c)).

Definition enqueue_refresh k (id : nat) c : option cache := pump (Refresh.R_send k id) c.

(** The task of the first load handed over: the load, then [refresh_done]. *)
Definition run_spawned now c : option cache :=
  match spawned c, loader (settings c) with
  | (k, id, refresh) :: rest, Some (Loader.L_Sync f | Loader.L_Async f) =>
      '(_, c) ← run_sync_load now f k id (with_spawned rest c);
      if (refresh : bool) then pump (Refresh.R_job k id) c else Some c
  | _, _ => Some c
  end.

(** The task of the first load handed over is dropped unfinished, as by a runtime that shuts down
    ([Drop for AsyncLoadGuard]); [free] tells whether the lock of the pending loads was free. *)
Definition drop_spawned (free : bool) c : option cache :=
  match spawned c with
  | [] => Some c
  | (k, id, refresh) :: rest =>
      c ← update_future id (λ l, Loader.with_dropped true (if Loader.is_computing (Loader.state (Loader.inner l))
                                                          then (Loader.drop_load_locked l ∅).1 else l)) (with_spawned rest c);
      c ← (if free then '(_, c) ← with_loads k (λ m, Some ((), if decide (m !! k = Some id) then delete k m else m)) c; Some c else Some c);
      if (refresh : bool) then pump (Refresh.R_job k id) c else Some c
  end.

Definition new_future (l : Loader.LoadFuture V) c : nat * cache := (length (futures c), with_futures (futures c ++ [l]) c).

(** The pending load of [k], unless its task was dropped. *)
Definition live_load k (m : gmap K nat) c : option (nat * Loader.LoadFuture V) :=
  match m !! k with
  | Some id => match futures c !! id with
               | Some l => if Loader.is_dropped l then None else Some (id, l)
               | None => None
               end
  | None => None
  end.

Definition trigger_background_load k c : option cache :=
  match loader (settings c) with
  | None => Some c
  | Some _ =>
      m ← vget (pending_loads c) (loads_index k c);
      match live_load k m c with
      | Some _ => Some c
      | None =>
          let '(id, c) := new_future Loader.queued c in
          '(_, c) ← with_loads k (λ m, Some ((), <[k:=id]> m)) c;
          enqueue_refresh k id c
      end
  end.

(** What a miss ends with: a value, a panic, or the wait of [Loader.sync_wait_step] on a
    load. *)
Inductive Loaded := Got (v : V) | LoaderPanicked | LoaderReentered | WaitsFor (id : nat).

(** The choice of the leader under the lock of the pending loads: the load, and
    whether the caller runs it. *)
Definition choose_leader me (tid : nat) (inline : bool) k c : option (nat * bool * cache) :=
  m ← vget (pending_loads c) (loads_index k c);
  match live_load k m c with
  | Some (id, l) =>
      let '(claimed, l) := Loader.claim l in
      if claimed then
        c ← on_metrics (record_misses me 1) c;
        let l := if inline then Loader.with_leader (match Loader.leader l with None => Some tid | some => some end) l else l in
        Some (id, true, with_futures (<[id:=l]> (futures c)) c)
      else c ← on_metrics (record_hits me 1) c; Some (id, false, c)
  | None =>
      c ← on_metrics (record_misses me 1) c;
      let '(id, c) := new_future (Loader.new (if inline then Some tid else None)) c in
      '(_, c) ← with_loads k (λ m, Some ((), <[k:=id]> m)) c;
      Some (id, true, c)
  end.

Definition load_value_blocking now me (tid : nat) k c : option (Loaded * cache) :=
  ld ← loader (settings c);
  let inline := match ld with Loader.L_Sync f => Some f | Loader.L_Async _ => None end in
  '(id, am_leader, c) ← choose_leader me tid (bool_decide (is_Some inline)) k c;
  if (am_leader : bool) then
    match inline with
    | Some f => '(r, c) ← run_sync_load now f k id c; Some (match r with Some v => Got v | None => LoaderPanicked end, c)
    | None => c ← spawn_loader_task k id false c; Some (WaitsFor id, c)
    end
  else
    l ← futures c !! id;
    Some (if decide (Loader.leader l = Some tid) then LoaderReentered else WaitsFor id, c).

(** What [fetch_with] sees under the read lock: a fresh hit, a stale one, or none. *)
Inductive Freshness := Fresh | Stale | Gone.

Definition freshness now e c : Freshness :=
  let fresh := if is_expired_coarse now (tti c) (clock c) e then Gone else Fresh in
  if expires_at e =? 0 then fresh
  else if now <? expires_at e then fresh
  else match stale_while_revalidate (settings c) with
       | Some grace_period => if now <? expires_at e +w nanos grace_period then Stale else Gone
       | None => Gone
       end.

(** The block under the read lock. *)
Definition fetch_hit now me k c : option (option (V * bool) * option (DeferredRead K) * cache) :=
  let hash := hash_key k in
  let i := get_shard_index_from_hash hash c in
  '(found, c) ← with_shard i (λ sm,
     match get_key_value_hashed k hash sm with
     | None => Some ((None, None), sm)
     | Some (found_key, e) =>
         match freshness now e c with
         | Fresh => '(deferred, sm) ← on_hit now found_key e sm c; Some ((Some (value e, false), deferred), sm)
         | Stale => Some ((Some (value e, true), None), sm)
         | Gone => Some ((None, None), sm)
         end
     end) c;
  c ← match found.1 with Some (_, false) => on_metrics (record_hits me 1) c | _ => Some c end;
  Some (found.1, found.2, c).

Definition fetch_with now me (tid : nat) k c : option (Loaded * cache) :=
  '(hit, deferred, c) ← fetch_hit now me k c;
  c ← apply_deferred_at (get_shard_index_from_hash (hash_key k) c) deferred c;
  match hit with
  | Some (v, stale) => c ← (if (stale : bool) then trigger_background_load k c else Some c); Some (Got v, c)
  | None => load_value_blocking now me tid k c
  end.

(** ** Bulk operations *)

Fixpoint multiget_fold now (ks : list K) (acc : gmap K V) c : option (gmap K V * cache) :=
  match ks with
  | [] => Some (acc, c)
  | k :: ks =>
      '(hit, c) ← read_hit now k c;
      multiget_fold now ks (match hit with Some (found_key, e) => <[found_key:=value e]> acc | None => acc end) c
  end.

(** The order is that of one worker. *)
Definition multiget now me (ks : list K) c : option (gmap K V * cache) :=
  let total_reqs := Z.of_nat (length ks) in
  '(final_map, c) ← multiget_fold now ks ∅ c;
  let hits := Z.of_nat (size final_map) in
  c ← on_metrics (record_hits me hits) c;
  c ← (if hits <? total_reqs then on_metrics (record_misses me (total_reqs - hits)) c else Some c);
  Some (final_map, c).

(** The items of shard [i], in their order. *)
Definition items_of_shard {T} (key : T → K) i (xs : list T) c : list T :=
  filter (λ x, hash_key (key x) mod num_shards c = i) xs.

Fixpoint insert_items now i (xs : list (K * V * Z)) c : option cache :=
  match xs with
  | [] => Some c
  | (k, v, cst) :: xs =>
      '(_, c) ← with_shard i (Store.insert now k (Entry.new now v cst (ttl c) (tti c))) c;
      insert_items now i xs c
  end.

Definition multi_insert now (xs : list (K * V * Z)) c : option cache :=
  each_index (λ i c, insert_items now i (items_of_shard (λ x, x.1.1) i xs c) c) (indices c) c.

Fixpoint remove_items me i (ks : list K) c : option (list (K * V) * cache) :=
  match ks with
  | [] => Some ([], c)
  | k :: ks =>
      '(e, c) ← with_shard i (Store.remove k) c;
      match e with
      | Some e =>
          c ← account_removed me k e c;
          '(removed, c) ← remove_items me i ks c;
          Some ((k, value e) :: removed, c)
      | None => remove_items me i ks c
      end
  end.

Fixpoint remove_shards me (is_ : list Z) (ks : list K) c : option (list (K * V) * cache) :=
  match is_ with
  | [] => Some ([], c)
  | i :: is_ =>
      '(removed, c) ← remove_items me i (items_of_shard (λ k, k) i ks c) c;
      '(removed', c) ← remove_shards me is_ ks c;
      Some (removed ++ removed', c)
  end.

Definition multi_remove me (ks : list K) c : option (list (K * V) * cache) := remove_shards me (indices c) ks c.

Definition multi_invalidate me (ks : list K) c : option cache := '(_, c) ← multi_remove me ks c; Some c.
End Code.
