(* ===== verification/CacheCost.v ===== *)
(** * The cost metric of a cache

    [Metrics::current_cost_total] adds a cache-wide counter to the [cost_delta] of every
    shard.  It equals the cost of what the shards hold, modulo [2^64], after any sequence
    of calls: every operation that changes a shard's cost books the change on one of the two. *)

From S2P Require Import Prelude Arena Policy Slab ReadRing ShardPolicy Builtin.
From S2P Require Timer ReadLog.
From S2P Require Import Entry HashTable Store Metrics Ledger Cache.
From S2P Require Loader Refresh Janitor.

Section Cost.
Context {K V P Index : Type} {A HT : Type → Type}.
Context `{Countable K} `{!CachePolicy K P} `{!Arena Index A} `{!HashTable HT} `{!StoreHash K}.
Notation entry := (CacheEntry V Index).
Notation shard_map := (ShardMap K V P Index A HT).
Notation shard := (Shard K V P Index A HT).
Notation cache := (CacheShared K V P Index A HT).
Implicit Types (sm : shard_map) (e : entry) (k : K) (v : V) (c : cache) (now me : Z) (i : Z).

(** What the shards hold. *)
Definition held c : Z := zsum ((λ s, sm_cost (map s)) <$> shards c).

(** The metric minus what is held. *)
Definition balance c : Z := sc_load (current_cost (metrics c)) + zsum ((λ s, ledger (map s)) <$> shards c).

Lemma balance_metric c : current_cost_total (counters c) (metrics c) ≡ₘ balance c + held c.
Proof.
  unfold current_cost_total, local_sum, balance, held, counters. rewrite <- list_fmap_compose, (wrapping_sum_mod (_ <$> _)).
  rewrite eqm_add_w. assert (Hm : ∀ z, z mod U64 ≡ₘ z) by (intros; apply Z.mod_mod; u64_lia). rewrite Hm. apply eqm_eq.
  assert (∀ ss : list shard, zsum ((cost_delta ∘ (λ s, local (map s))) <$> ss) =
    zsum ((λ s, ledger (map s)) <$> ss) + zsum ((λ s, sm_cost (map s)) <$> ss)) as ->; [|lia].
  induction ss as [|s ss IH]; [done|]. rewrite !fmap_cons, !zsum_cons, IH. unfold ledger, compose. lia.
Qed.

(** ** The building blocks *)

Lemma with_shard_balance {R} (d : R → Z) i (f : shard_map → option (R * shard_map)) c r c' :
  (∀ sm r sm', f sm = Some (r, sm') → ledger sm' ≡ₘ ledger sm + d r) →
  with_shard i f c = Some (r, c') → balance c' ≡ₘ balance c + d r.
Proof.
  intros Hf. unfold with_shard. intros Hw. apply bind_Some in Hw as (s&Hs&Hw). apply bind_Some in Hw as ([r1 sm]&E&Hw).
  apply bind_Some in Hw as (ss&Hss&[= <- <-]). unfold balance. cbn [metrics shards with_shards].
  assert (Hz : zsum ((λ s, ledger (map s)) <$> ss) = zsum ((λ s, ledger (map s)) <$> shards c) - ledger (map s) + ledger sm).
  { unfold vset in Hss. rewrite Hs in Hss. injection Hss as <-. rewrite list_fmap_insert. apply (zsum_insert _ _ (ledger (map s))).
    rewrite list_lookup_fmap. unfold vget in Hs. destruct (0 <=? i); [by rewrite Hs|done]. }
  rewrite Hz, (Hf _ _ _ E). apply eqm_eq. lia.
Qed.

(** The same when the shard's books do not change. *)
Lemma with_shard_same {R} i (f : shard_map → option (R * shard_map)) c r c' :
  (∀ sm r sm', f sm = Some (r, sm') → ledger sm' ≡ₘ ledger sm) → with_shard i f c = Some (r, c') → balance c' ≡ₘ balance c.
Proof.
  intros Hf Hw. rewrite (with_shard_balance (λ _, 0) i f c r c'); [apply eqm_eq; lia| |done].
  intros sm r1 sm' E. rewrite (Hf _ _ _ E). apply eqm_eq. lia.
Qed.

Lemma on_metrics_balance f c c' :
  (∀ m m', f m = Some m' → current_cost m' = current_cost m) → on_metrics f c = Some c' → balance c' = balance c.
Proof. intros Hf. unfold on_metrics. intros Hm. apply bind_Some in Hm as (m&E&[= <-]). unfold balance. cbn. by rewrite (Hf _ _ E). Qed.

Lemma record_hits_cost me n m m' : record_hits me n m = Some m' → current_cost m' = current_cost m.
Proof. unfold record_hits. intros Hr. unbind. done. Qed.

Lemma record_misses_cost me n m m' : record_misses me n m = Some m' → current_cost m' = current_cost m.
Proof. unfold record_misses. intros Hr. unbind. done. Qed.

Lemma count_lookup_balance {R} me (r : option R) c c' : count_lookup me r c = Some c' → balance c' = balance c.
Proof. apply on_metrics_balance. intros m m'. destruct r; [apply record_hits_cost|apply record_misses_cost]. Qed.

Lemma count_update_balance me c c' : count_update me c = Some c' → balance c' = balance c.
Proof. apply on_metrics_balance. intros m m' Hr. unbind. done. Qed.

Lemma count_invalidation_balance me c c' : count_invalidation me c = Some c' → balance c' = balance c.
Proof. apply on_metrics_balance. intros m m' Hr. unbind. done. Qed.

Lemma sub_current_cost_balance me n c c' : sub_current_cost me n c = Some c' → balance c' ≡ₘ balance c - n.
Proof.
  unfold sub_current_cost, on_metrics. intros Hm. apply bind_Some in Hm as (m&E&[= <-]). apply bind_Some in E as ([old u]&E&[= <-]).
  unfold balance. cbn [metrics with_metrics with_current_cost current_cost shards]. rewrite (sc_sub_load _ _ _ _ _ E). eqm_lia.
Qed.

Lemma try_send_balance k v r c : balance (try_send k v r c) = balance c.
Proof. unfold try_send. by destruct (sender (settings c)). Qed.

Lemma each_shard_balance (f : shard_map → option shard_map) c c' :
  (∀ sm sm', f sm = Some sm' → ledger sm' ≡ₘ ledger sm) → each_shard f c = Some c' → balance c' ≡ₘ balance c.
Proof.
  intros Hf. unfold each_shard. intros He. apply bind_Some in He as (ss&E&[= <-]). unfold balance. cbn [metrics shards with_shards].
  assert (zsum ((λ s, ledger (map s)) <$> ss) ≡ₘ zsum ((λ s, ledger (map s)) <$> shards c)) as Hz; [|by rewrite Hz].
  apply mapM_Some in E. induction E as [|s s' l l' Es _ IH]; [done|]. apply bind_Some in Es as (sm&Es&[= <-]).
  rewrite !fmap_cons, !zsum_cons, IH, (Hf _ _ Es). done.
Qed.

Lemma each_index_balance (f : Z → cache → option cache) is_ c c' :
  (∀ i c c', f i c = Some c' → balance c' ≡ₘ balance c) → each_index f is_ c = Some c' → balance c' ≡ₘ balance c.
Proof.
  intros Hf. revert c. induction is_ as [|i is_ IH]; intros c; cbn [each_index]; [by intros [= <-]|].
  intros He. apply bind_Some in He as (c1&E&He). by rewrite (IH _ He), (Hf _ _ _ E).
Qed.

(** ** Reads *)

Lemma on_hit_ledger now k e sm c d sm' : on_hit now k e sm c = Some (d, sm') → ledger sm' = ledger sm.
Proof.
  unfold on_hit. intros Ho. apply bind_Some in Ho as (sm1&E1&Ho).
  assert (U1 : unbilled sm sm1).
  { destruct (tti c); [|by injection E1 as <-]. apply bind_Some in E1 as ([e1 sm2]&E1&[= <-]). by eapply get_mut_unbilled. }
  rewrite <- (unbilled_ledger _ _ U1). destruct (builtin_reads (settings c)).
  - destruct (track_reads (settings c)); unbind; done.
  - unbind. done.
  - apply bind_Some in Ho as (sm2&E2&[= _ <-]). by apply unbilled_ledger; eapply touch_read_unbilled.
Qed.

Lemma lookup_hit_ledger now k hash sm c h d sm' : lookup_hit now k hash sm c = Some (h, d, sm') → ledger sm' = ledger sm.
Proof.
  unfold lookup_hit. destruct (get_key_value_hashed _ _ _) as [[kk e]|]; [|by intros [= _ _ <-]].
  destruct (is_expired_coarse _ _ _ _); [by intros [= _ _ <-]|]. intros Hl. apply bind_Some in Hl as ([d1 sm1]&E&[= _ _ <-]).
  by eapply on_hit_ledger.
Qed.

Lemma apply_deferred_at_balance i d c c' : apply_deferred_at i d c = Some c' → balance c' ≡ₘ balance c.
Proof.
  unfold apply_deferred_at. destruct d as [rd|]; [|by intros [= <-]]. intros Ha. apply bind_Some in Ha as ([[] c1]&E&[= <-]).
  eapply with_shard_same; [|exact E]. intros sm [] sm' Es. apply bind_Some in Es as (sm1&Es&[= <-]).
  apply apply_deferred_unbilled, unbilled_ledger in Es. by rewrite Es.
Qed.

Lemma read_hit_balance now k c h c' : read_hit now k c = Some (h, c') → balance c' ≡ₘ balance c.
Proof.
  unfold read_hit. intros Hr. apply bind_Some in Hr as ([[h1 d] c1]&E&Hr). apply bind_Some in Hr as (c2&E2&[= _ <-]).
  rewrite (apply_deferred_at_balance _ _ _ _ E2). eapply with_shard_same; [|exact E]. intros sm r sm' Es.
  apply bind_Some in Es as ([[h2 d2] sm1]&Es&[= _ <-]). by rewrite (lookup_hit_ledger _ _ _ _ _ _ _ _ Es).
Qed.

Lemma get_balance {R} now me k (f : V → R) c r c' : get now me k f c = Some (r, c') → balance c' ≡ₘ balance c.
Proof.
  unfold get. intros Hg. apply bind_Some in Hg as ([h c1]&E&Hg). apply bind_Some in Hg as (c2&E2&[= _ <-]).
  rewrite (count_lookup_balance _ _ _ _ E2). by eapply read_hit_balance.
Qed.

Lemma fetch_balance now me k c r c' : fetch now me k c = Some (r, c') → balance c' ≡ₘ balance c.
Proof.
  unfold fetch. intros Hg. apply bind_Some in Hg as ([h c1]&E&Hg). apply bind_Some in Hg as (c2&E2&[= _ <-]).
  rewrite (count_lookup_balance _ _ _ _ E2). by eapply read_hit_balance.
Qed.

(** ** Writes *)

Lemma insert_shard_balance now k e hash count i c r c' :
  with_shard i (insert_inner now k e hash count) c = Some (r, c') → balance c' ≡ₘ balance c.
Proof. apply with_shard_same. intros sm o sm'. apply insert_inner_ledger. Qed.

Lemma insert_entry_balance now k e c c' : insert_entry now k e c = Some c' → balance c' ≡ₘ balance c.
Proof. unfold insert_entry. intros Hi. apply bind_Some in Hi as ([r c1]&E&[= <-]). by eapply insert_shard_balance. Qed.

Lemma insert_balance now k v cst c c' : insert now k v cst c = Some c' → balance c' ≡ₘ balance c.
Proof. apply insert_entry_balance. Qed.

Lemma insert_with_ttl_balance now k v cst ttl c c' : insert_with_ttl now k v cst ttl c = Some c' → balance c' ≡ₘ balance c.
Proof. apply (insert_entry_balance now k _ (ensure_janitor c)). Qed.

Lemma vacant_insert_balance now k v cst c r c' : vacant_insert now k v cst c = Some (r, c') → balance c' ≡ₘ balance c.
Proof. unfold vacant_insert. intros Hi. apply bind_Some in Hi as ([o c1]&E&[= _ <-]). by eapply insert_shard_balance. Qed.

Lemma or_insert_balance now en v cst c r c' : or_insert now en v cst c = Some (r, c') → balance c' ≡ₘ balance c.
Proof. destruct en; cbn [or_insert]; [intros Ho; unbind; done|apply vacant_insert_balance]. Qed.

Lemma try_compute_val_balance {R} x me k (f : V → R * V) c r c' : try_compute_val x me k f c = Some (r, c') → balance c' ≡ₘ balance c.
Proof.
  unfold try_compute_val. intros Ht. apply bind_Some in Ht as (sm&Esm&Ht). destruct (get_mut _ _ _) as [[e sm']|] eqn:Eg; [|by injection Ht as _ <-].
  destruct x; [|by injection Ht as _ <-]. apply bind_Some in Ht as ([[] c1]&E&Ht). apply bind_Some in Ht as (c2&E2&[= _ <-]).
  rewrite (count_update_balance _ _ _ E2). apply get_mut_unbilled, unbilled_ledger in Eg.
  unfold shard_at in Esm. apply bind_Some in Esm as (s&Es&[= <-]).
  unfold with_shard in E. rewrite Es in E. cbn [mbind option_bind] in E. apply bind_Some in E as (ss&Ess&[= <-]).
  unfold balance. cbn [metrics shards with_shards]. unfold vset in Ess. rewrite Es in Ess. injection Ess as <-.
  rewrite list_fmap_insert, (zsum_insert _ _ (ledger (map s))); [cbn [map]; rewrite Eg; apply eqm_eq; lia|].
  rewrite list_lookup_fmap. unfold vget in Es. destruct (0 <=? _); [by rewrite Es|done].
Qed.

Lemma compute_balance tries me k (f : V → V) c r c' : compute tries me k f c = Some (r, c') → balance c' ≡ₘ balance c.
Proof.
  revert c. induction tries as [|x tries IH]; intros c; cbn [compute]; [by intros [= _ <-]|]. intros Hc. apply bind_Some in Hc as ([o c1]&E&Hc).
  unfold try_compute in E. apply bind_Some in E as ([o1 c2]&E&[= _ <-]). apply try_compute_val_balance in E.
  destruct o as [[]|]; [by injection Hc as _ <-|by rewrite (IH _ Hc)|by injection Hc as _ <-].
Qed.

Lemma account_removed_balance me k e c c' : account_removed me k e c = Some c' → balance c' ≡ₘ balance c - cost e.
Proof.
  unfold account_removed. intros Ha. apply bind_Some in Ha as (c1&E1&Ha). apply bind_Some in Ha as (c2&E2&[= <-]).
  rewrite try_send_balance, (sub_current_cost_balance _ _ _ _ E2), (count_invalidation_balance _ _ _ E1). done.
Qed.

Lemma remove_balance me k c r c' : remove me k c = Some (r, c') → balance c' ≡ₘ balance c.
Proof.
  unfold remove. intros Hr. apply bind_Some in Hr as ([taken c1]&E&Hr). apply (with_shard_balance taken_cost) in E; [|intros sm o sm'; apply remove_entry_ledger].
  destruct taken as [[kk e]|]; [|injection Hr as _ <-; rewrite E; apply eqm_eq; simpl; lia].
  apply bind_Some in Hr as (c2&E2&[= _ <-]). rewrite (account_removed_balance _ _ _ _ _ E2), E. apply eqm_eq. simpl. lia.
Qed.

Lemma clear_balance c c' : clear c = Some c' → balance c' ≡ₘ balance c.
Proof. apply each_shard_balance, clear_ledger. Qed.

Lemma flush_balance c c' : flush_for_introspection c = Some c' → balance c' ≡ₘ balance c.
Proof.
  unfold flush_for_introspection. destruct (maintenance_on_introspection _); [|by intros [= <-]].
  apply each_shard_balance. intros sm sm' E. by rewrite (unbilled_ledger _ _ (apply_reads_unbilled _ _ E)).
Qed.

(** ** Maintenance *)

Lemma account_expired_balance me out c c' : account_expired me out c = Some c' → balance c' ≡ₘ balance c - out_cost out.
Proof.
  revert c. induction out as [|[[k e] by_] out IH]; intros c; cbn [account_expired]; [intros [= <-]; apply eqm_eq; simpl; lia|].
  intros Ha. apply bind_Some in Ha as (c1&E1&Ha). apply bind_Some in Ha as (c2&E2&Ha).
  apply on_metrics_balance in E1; [|intros m m' Hm; destruct by_; unbind; done].
  rewrite (IH _ Ha), try_send_balance, (sub_current_cost_balance _ _ _ _ E2), E1. cbn [out_cost foldr fst snd].
  change (foldr _ 0 out) with (out_cost out). apply eqm_eq. lia.
Qed.

Lemma sweep_shard_balance me i sweep c c' :
  (∀ sm out sm', sweep sm = Some (out, sm') → ledger sm' ≡ₘ ledger sm + out_cost out) →
  sweep_shard me i sweep c = Some c' → balance c' ≡ₘ balance c.
Proof.
  intros Hs. unfold sweep_shard. intros Hr. apply bind_Some in Hr as ([out c1]&E&Hr). apply (with_shard_balance out_cost) in E; [|done].
  rewrite (account_expired_balance _ _ _ _ Hr), E. apply eqm_eq. lia.
Qed.

Lemma run_maintenance_balance now me c c' : run_maintenance now me c = Some c' → balance c' ≡ₘ balance c.
Proof.
  unfold run_maintenance. intros Hr. apply each_index_balance in Hr; [done|]. intros i c1 c2. apply sweep_shard_balance. intros. by eapply expire_all_ledger.
Qed.

Lemma check_shards_balance d picks c c' : check_shards d picks c = Some c' → balance c' ≡ₘ balance c.
Proof.
  revert c. induction picks as [|[i free] picks IH]; intros c; cbn [check_shards]; [by intros [= <-]|]. intros Hc.
  apply bind_Some in Hc as (s&Es&Hc). destruct (should_run d (rng s)) as [run g]. apply bind_Some in Hc as (ss&Ess&Hc). apply bind_Some in Hc as (c1&E1&Hc).
  rewrite (IH _ Hc). assert (Hb : balance (with_shards ss c) = balance c).
  { unfold balance. cbn [metrics shards with_shards]. unfold vset in Ess. rewrite Es in Ess. injection Ess as <-.
    rewrite list_fmap_insert, (zsum_insert _ _ (ledger (map s))); [cbn [map]; lia|].
    rewrite list_lookup_fmap. unfold vget in Es. destruct (0 <=? _); [by rewrite Es|done]. }
  destruct (run && free); [|injection E1 as <-; by rewrite Hb]. unfold perform_shard_maintenance in E1.
  apply bind_Some in E1 as ([[] c3]&E1&[= <-]). rewrite <- Hb. eapply with_shard_same; [|exact E1].
  intros sm [] sm' Ea. apply bind_Some in Ea as (sm1&Ea&[= <-]). by rewrite (unbilled_ledger _ _ (apply_reads_unbilled _ _ Ea)).
Qed.

Lemma cleanup_balance now me d picks c c' : cleanup now me d picks c = Some c' → balance c' ≡ₘ balance c.
Proof.
  unfold cleanup. destruct (num_shards c =? 0); [by intros [= <-]|]. intros Hc. apply bind_Some in Hc as (c1&E1&Hc).
  rewrite <- (check_shards_balance _ _ _ _ E1). eapply each_index_balance; [|exact Hc]. clear. intros i c c' Hc.
  apply bind_Some in Hc as (c1&E1&Hc). assert (B1 : balance c1 ≡ₘ balance c).
  { unfold cleanup_expired_for_shard in E1. apply bind_Some in E1 as (sm&_&E1). destruct (ttl_is_due now sm); [|by injection E1 as <-].
    revert E1. apply sweep_shard_balance. intros. by eapply expire_due_ledger. }
  rewrite <- B1. destruct (tti c1); [|by injection Hc as <-]. unfold cleanup_idle_for_shard in Hc. apply bind_Some in Hc as (sm&_&Hc).
  destruct (idle_hashes now sm) as [|h hs]; [by injection Hc as <-|]. apply sweep_shard_balance in Hc; [done|].
  intros. by eapply remove_expired_hashes_ledger.
Qed.

(** ** Loads *)

Lemma with_loads_balance {R} k (f : gmap K nat → option (R * gmap K nat)) c r c' : with_loads k f c = Some (r, c') → balance c' = balance c.
Proof. unfold with_loads. intros Hw. unbind. done. Qed.

Lemma finish_load_balance id st c c' : finish_load id st c = Some c' → balance c' = balance c.
Proof. unfold finish_load, update_future. intros Hf. unbind. done. Qed.

Lemma forget_load_balance k c c' : forget_load k c = Some c' → balance c' = balance c.
Proof. unfold forget_load. intros Hf. apply bind_Some in Hf as ([[] c1]&E&[= <-]). by eapply with_loads_balance. Qed.

Lemma run_sync_load_balance now f k id c r c' : run_sync_load now f k id c = Some (r, c') → balance c' ≡ₘ balance c.
Proof.
  unfold run_sync_load. destruct (f k) as [[v cst]|]; intros Hr.
  - apply bind_Some in Hr as ([o c1]&E1&Hr). apply bind_Some in Hr as (c2&E2&Hr). apply bind_Some in Hr as (c3&E3&[= _ <-]).
    rewrite (finish_load_balance _ _ _ _ E3), (forget_load_balance _ _ _ E2). by eapply insert_shard_balance.
  - apply bind_Some in Hr as (c2&E2&Hr). apply bind_Some in Hr as (c3&E3&[= _ <-]).
    by rewrite (finish_load_balance _ _ _ _ E3), (forget_load_balance _ _ _ E2).
Qed.

Lemma spawn_loader_task_balance k id b c c' : spawn_loader_task k id b c = Some c' → balance c' = balance c.
Proof. unfold spawn_loader_task. destruct (loader _); [by intros [= <-]|done]. Qed.

Lemma pump_balance p c c' : pump p c = Some c' → balance c' = balance c.
Proof.
  unfold pump. intros Hp. apply bind_Some in Hp as ([[q h] jobs]&_&Hp). change (balance c) with (balance (with_refreshes q (with_futures h c))).
  revert Hp. generalize (with_refreshes q (with_futures h c)). induction jobs as [|[k id] jobs IH]; intros c0; cbn [spawn_all]; [by intros [= <-]|].
  intros Hs. apply bind_Some in Hs as (c1&E&Hs). by rewrite (IH _ Hs), (spawn_loader_task_balance _ _ _ _ _ E).
Qed.

Lemma run_spawned_balance now c c' : run_spawned now c = Some c' → balance c' ≡ₘ balance c.
Proof.
  unfold run_spawned. destruct (spawned c) as [|[[k id] refresh] rest]; [by intros [= <-]|].
  assert (Hrun : ∀ f, ('(_, c0) ← run_sync_load now f k id (with_spawned rest c); if refresh then pump (Refresh.R_job k id) c0 else Some c0) = Some c' →
    balance c' ≡ₘ balance c).
  { intros f Hr. apply bind_Some in Hr as ([o c1]&E&Hr). apply run_sync_load_balance in E. change (balance c) with (balance (with_spawned rest c)).
    rewrite <- E. destruct refresh; [by rewrite (pump_balance _ _ _ Hr)|by injection Hr as <-]. }
  destruct (loader (settings c)) as [[f|f]|]; [apply Hrun|apply Hrun|by intros [= <-]].
Qed.

Lemma drop_spawned_balance free c c' : drop_spawned free c = Some c' → balance c' = balance c.
Proof.
  unfold drop_spawned. destruct (spawned c) as [|[[k id] refresh] rest]; [by intros [= <-]|]. intros Hd.
  apply bind_Some in Hd as (c1&E1&Hd). apply bind_Some in Hd as (c2&E2&Hd).
  assert (B1 : balance c1 = balance c) by (unfold update_future in E1; unbind; done).
  assert (B2 : balance c2 = balance c1).
  { destruct free; [|by injection E2 as <-]. apply bind_Some in E2 as ([[] c3]&E2&[= <-]). by eapply with_loads_balance. }
  rewrite <- B1, <- B2. destruct refresh; [by rewrite (pump_balance _ _ _ Hd)|by injection Hd as <-].
Qed.

Lemma trigger_background_load_balance k c c' : trigger_background_load k c = Some c' → balance c' = balance c.
Proof.
  unfold trigger_background_load. destruct (loader _); [|by intros [= <-]]. intros Ht. apply bind_Some in Ht as (m&_&Ht).
  destruct (live_load k m c); [by injection Ht as <-|]. cbn [new_future] in Ht. apply bind_Some in Ht as ([[] c1]&E&Ht).
  rewrite (pump_balance _ _ _ Ht). by rewrite (with_loads_balance _ _ _ _ _ E).
Qed.

Lemma choose_leader_balance me tid inline k c r c' : choose_leader me tid inline k c = Some (r, c') → balance c' = balance c.
Proof.
  unfold choose_leader. intros Hc. apply bind_Some in Hc as (m&_&Hc). destruct (live_load k m c) as [[id l]|].
  - cbn [Loader.claim] in Hc. destruct (negb (Loader.started l)); apply bind_Some in Hc as (c1&E&[= _ <-]);
      (apply on_metrics_balance in E; [exact E|]; intros; first [by eapply record_misses_cost|by eapply record_hits_cost]).
  - apply bind_Some in Hc as (c1&E&Hc). apply on_metrics_balance in E; [|intros; by eapply record_misses_cost].
    cbn [new_future] in Hc. apply bind_Some in Hc as ([[] c2]&E2&[= _ <-]). by rewrite (with_loads_balance _ _ _ _ _ E2).
Qed.

Lemma load_value_blocking_balance now me tid k c r c' : load_value_blocking now me tid k c = Some (r, c') → balance c' ≡ₘ balance c.
Proof.
  unfold load_value_blocking. intros Hl. apply bind_Some in Hl as (ld&_&Hl). apply bind_Some in Hl as ([[id am] c1]&E&Hl).
  rewrite <- (choose_leader_balance _ _ _ _ _ _ _ E). destruct am.
  - destruct ld as [f|f].
    + apply bind_Some in Hl as ([o c2]&E2&[= _ <-]). by eapply run_sync_load_balance.
    + apply bind_Some in Hl as (c2&E2&[= _ <-]). by rewrite (spawn_loader_task_balance _ _ _ _ _ E2).
  - apply bind_Some in Hl as (l&_&[= _ <-]). done.
Qed.

Lemma fetch_hit_balance now me k c h d c' : fetch_hit now me k c = Some (h, d, c') → balance c' ≡ₘ balance c.
Proof.
  unfold fetch_hit. intros Hf. apply bind_Some in Hf as ([[h1 d1] c1]&E&Hf). apply bind_Some in Hf as (c2&E2&[= _ _ <-]).
  assert (B1 : balance c1 ≡ₘ balance c).
  { eapply with_shard_same; [|exact E]. intros sm r sm' Es. cbn beta in Es. destruct (get_key_value_hashed _ _ _) as [[kk e]|]; [|by injection Es as _ <-].
    destruct (freshness now e c); [|by injection Es as _ <-..]. apply bind_Some in Es as ([d2 sm1]&Es&[= _ <-]). by rewrite (on_hit_ledger _ _ _ _ _ _ _ Es). }
  rewrite <- B1. cbn [fst snd] in E2. destruct h1 as [[v []]|]; [by injection E2 as <-| |by injection E2 as <-].
  apply on_metrics_balance in E2; [by rewrite E2|]. intros m m'. apply record_hits_cost.
Qed.

Lemma fetch_with_balance now me tid k c r c' : fetch_with now me tid k c = Some (r, c') → balance c' ≡ₘ balance c.
Proof.
  unfold fetch_with. intros Hf. apply bind_Some in Hf as ([[h d] c1]&E1&Hf). apply bind_Some in Hf as (c2&E2&Hf).
  rewrite <- (fetch_hit_balance _ _ _ _ _ _ _ E1), <- (apply_deferred_at_balance _ _ _ _ E2). destruct h as [[v stale]|].
  - apply bind_Some in Hf as (c3&E3&[= _ <-]). destruct stale; [|by injection E3 as <-]. by rewrite (trigger_background_load_balance _ _ _ E3).
  - by eapply load_value_blocking_balance.
Qed.

(** ** Bulk operations *)

Lemma multiget_balance now me ks c r c' : multiget now me ks c = Some (r, c') → balance c' ≡ₘ balance c.
Proof.
  unfold multiget. intros Hm. apply bind_Some in Hm as ([m c1]&E1&Hm). apply bind_Some in Hm as (c2&E2&Hm). apply bind_Some in Hm as (c3&E3&[= _ <-]).
  assert (B1 : balance c1 ≡ₘ balance c).
  { revert E1. generalize (∅ : gmap K V). clear. revert c. induction ks as [|k ks IH]; intros c acc; cbn [multiget_fold]; [by intros [= _ <-]|].
    intros Hf. apply bind_Some in Hf as ([h c2]&E&Hf). by rewrite (IH _ _ Hf), (read_hit_balance _ _ _ _ _ E). }
  rewrite <- B1. apply on_metrics_balance in E2; [|intros m0 m'; apply record_hits_cost]. rewrite <- E2.
  destruct (_ <? _); [|by injection E3 as <-]. apply on_metrics_balance in E3; [by rewrite E3|intros m0 m'; apply record_misses_cost].
Qed.

Lemma multi_insert_balance now xs c c' : multi_insert now xs c = Some c' → balance c' ≡ₘ balance c.
Proof.
  unfold multi_insert. apply each_index_balance. clear c c'. intros i c c'. generalize (items_of_shard (λ x : K * V * Z, x.1.1) i xs c). intros ys.
  revert c. induction ys as [|[[k v] cst] ys IH]; intros c; cbn [insert_items]; [by intros [= <-]|].
  intros Hi. apply bind_Some in Hi as ([o c1]&E&Hi). rewrite (IH _ Hi). by eapply insert_shard_balance.
Qed.

Lemma remove_items_balance me i ks c r c' : remove_items me i ks c = Some (r, c') → balance c' ≡ₘ balance c.
Proof.
  revert c r. induction ks as [|k ks IH]; intros c r; cbn [remove_items]; [by intros [= _ <-]|].
  intros Hr. apply bind_Some in Hr as ([o c1]&E&Hr).
  apply (with_shard_balance (λ o : option entry, match o with Some e => cost e | None => 0 end)) in E.
  2:{ intros sm o1 sm' Es. apply bind_Some in Es as ([t sm1]&Es&[= <- <-]). rewrite (remove_entry_ledger _ _ _ _ Es). by destruct t as [[? ?]|]. }
  destruct o as [e|]; [|rewrite (IH _ _ Hr), E; apply eqm_eq; lia].
  apply bind_Some in Hr as (c2&E2&Hr). apply bind_Some in Hr as ([rs c3]&E3&[= _ <-]).
  rewrite (IH _ _ E3), (account_removed_balance _ _ _ _ _ E2), E. apply eqm_eq. lia.
Qed.

Lemma multi_remove_balance me ks c r c' : multi_remove me ks c = Some (r, c') → balance c' ≡ₘ balance c.
Proof.
  unfold multi_remove. generalize (indices c). intros is_. revert c r. induction is_ as [|i is_ IH]; intros c r; cbn [remove_shards]; [by intros [= _ <-]|].
  intros Hr. apply bind_Some in Hr as ([r1 c1]&E1&Hr). apply bind_Some in Hr as ([r2 c2]&E2&[= _ <-]).
  by rewrite (IH _ _ E2), (remove_items_balance _ _ _ _ _ _ E1).
Qed.

(** ** Sequences of calls *)

(** A call on the cache or a pass of its threads, with its inputs. *)
Inductive CacheCall :=
  | Call_get (now me : Z) (k : K)
  | Call_fetch (now me : Z) (k : K)
  | Call_fetch_with (now me : Z) (tid : nat) (k : K)
  | Call_run_spawned (now : Z)
  | Call_drop_spawned (free : bool)
  | Call_insert (now : Z) (k : K) (v : V) (cst : Z)
  | Call_insert_with_ttl (now : Z) (k : K) (v : V) (cst ttl : Z)
  | Call_or_insert (now : Z) (k : K) (v : V) (cst : Z)
  | Call_compute (me : Z) (tries : list bool) (k : K) (f : V → V)
  | Call_remove (me : Z) (k : K)
  | Call_clear
  | Call_metrics (now : Z)
  | Call_run_maintenance (now me : Z)
  | Call_cleanup (now me denominator : Z) (picks : list (Z * bool))
  | Call_multiget (now me : Z) (ks : list K)
  | Call_multi_insert (now : Z) (xs : list (K * V * Z))
  | Call_multi_remove (me : Z) (ks : list K).

Definition run_call (x : CacheCall) c : option cache :=
  match x with
  | Call_get now me k => snd <$> get now me k (λ v, v) c
  | Call_fetch now me k => snd <$> fetch now me k c
  | Call_fetch_with now me tid k => snd <$> fetch_with now me tid k c
  | Call_run_spawned now => run_spawned now c
  | Call_drop_spawned free => drop_spawned free c
  | Call_insert now k v cst => insert now k v cst c
  | Call_insert_with_ttl now k v cst ttl => insert_with_ttl now k v cst ttl c
  | Call_or_insert now k v cst => en ← entry_of k c; snd <$> or_insert now en v cst c
  | Call_compute me tries k f => snd <$> compute tries me k f c
  | Call_remove me k => snd <$> remove me k c
  | Call_clear => clear c
  | Call_metrics now => snd <$> read_metrics now c
  | Call_run_maintenance now me => run_maintenance now me c
  | Call_cleanup now me d picks => cleanup now me d picks c
  | Call_multiget now me ks => snd <$> multiget now me ks c
  | Call_multi_insert now xs => multi_insert now xs c
  | Call_multi_remove me ks => snd <$> multi_remove me ks c
  end.

Fixpoint run_calls (xs : list CacheCall) c : option cache :=
  match xs with
  | [] => Some c
  | x :: xs => c ← run_call x c; run_calls xs c
  end.

Lemma run_call_balance x c c' : run_call x c = Some c' → balance c' ≡ₘ balance c.
Proof.
  destruct x; cbn [run_call]; try (intros ([? ?]&E&->)%fmap_Some; cbn [snd]; revert E).
  - apply get_balance.
  - apply fetch_balance.
  - apply fetch_with_balance.
  - apply run_spawned_balance.
  - intros E. by rewrite (drop_spawned_balance _ _ _ E).
  - apply insert_balance.
  - apply insert_with_ttl_balance.
  - intros Ho. apply bind_Some in Ho as (en&_&Ho). apply fmap_Some in Ho as ([r c1]&E&->). by eapply or_insert_balance.
  - apply compute_balance.
  - apply remove_balance.
  - apply clear_balance.
  - unfold read_metrics. intros E. apply bind_Some in E as (c1&E&[= _ <-]). by apply flush_balance.
  - apply run_maintenance_balance.
  - apply cleanup_balance.
  - apply multiget_balance.
  - apply multi_insert_balance.
  - apply multi_remove_balance.
Qed.

Lemma run_calls_balance xs c c' : run_calls xs c = Some c' → balance c' ≡ₘ balance c.
Proof.
  revert c. induction xs as [|x xs IH]; intros c; cbn [run_calls]; [by intros [= <-]|]. intros Hr. apply bind_Some in Hr as (c1&E&Hr).
  by rewrite (IH _ Hr), (run_call_balance _ _ _ E).
Qed.

(** What [build] starts from: counters at zero and empty shards. *)
Definition new_books c : Prop :=
  current_cost (metrics c) = sc_new ∧ Forall (λ s, sm_cost (map s) = 0 ∧ local (map s) = counters_new) (shards c).

(** C17: after any sequence of calls on a new cache, whatever its policies and settings are, the cost that
    [metrics] reports is what its shards hold, modulo [2^64]. *)
Theorem cache_cost_metric xs c c' :
  new_books c → run_calls xs c = Some c' →
  current_cost_total (counters c') (metrics c') = held c' mod U64.
Proof.
  intros [Hm Hs] Hr. assert (Hb : balance c' ≡ₘ 0).
  { rewrite (run_calls_balance _ _ _ Hr). apply eqm_eq. unfold balance. rewrite Hm, sc_new_load. induction Hs as [|s ss [Hc Hl] _ IH]; [done|].
    rewrite fmap_cons, zsum_cons. unfold ledger at 1. rewrite Hc, Hl. simpl. exact IH. }
  pose proof (balance_metric c') as E. rewrite Hb in E. unfold eqm in E. rewrite Z.add_0_l in E. rewrite <- E, Z.mod_small; [done|].
  apply u64_add_range.
Qed.
End Cost.
