(* ===== verification/Builder.v ===== *)
(** * Building a cache ([cache/src/builder/mod.rs], [ShardedStore::new])

    A [CacheBuilder] collects the settings; [build_shared_core] makes the shards and the
    shared state from them.  Durations are in nanoseconds.  [None] is a panic, an error is a
    value.  The seeds of the shards' generators and the number of processors are
    arguments. *)

From Stdlib Require Import SpecFloat.
From S2P Require Import Prelude Float Arena Policy Slab ReadRing ShardPolicy Builtin.
From S2P Require Timer ReadLog.
From S2P Require Import Entry HashTable Store Metrics Ledger Cache CacheCost.
From S2P Require Loader Refresh Janitor LruList Lru.

Inductive BuildError := ZeroCapacity | ZeroShards | SpawnerRequired.

Inductive TimerWheelMode := Default | HighPrecisionShortLived | LowPrecisionLongLived.

Definition RESPONSIVE : Z := 16.
Definition THROUGHPUT : Z := 64.
Definition LOW_OVERHEAD : Z := 256.
Definition MIN_COST_PER_SHARD : Z := 64.

Definition milli : Z := 1000000.
Definition second : Z := 1000000000.

(** [x.clamp(lo, hi)], with [lo <= hi]. *)
Definition clamp (x lo hi : Z) : Z := Z.max lo (Z.min x hi).

(** [x.ceil() as u64]. *)
Definition ceil_as_u64 (x : spec_float) : Z :=
  match x with
  | S754_finite false m e =>
      Z.min u64_max (if 0 <=? e then Z.pos m * 2 ^ e else (Z.pos m + 2 ^ (- e) - 1) / 2 ^ (- e))
  | S754_infinity false => u64_max
  | _ => 0
  end.

(** [policy_factory] gives the policy of its [i]-th call. *)
Record CacheBuilder (K V P : Type) := mk_builder {
  b_capacity : Z;
  b_shards : Z;
  b_time_to_live : option Z;
  b_time_to_idle : option Z;
  b_stale : option Z;
  janitor_tick_interval : option Z;
  timer_wheel_tick_duration : option Z;
  b_wheel_size : option Z;
  listener : bool;
  policy_factory : option (nat → P);
  builtin_choice : BuiltinChoice;
  b_loader : option (Loader.Loader K V);
  b_spawner : bool;
  maintenance_probability_denominator : Z;
  b_introspection : bool;
  b_max_refreshes : Z;
  shards_set : bool;
}.
Arguments mk_builder {K V P}.
Arguments b_capacity {K V P}.
Arguments b_shards {K V P}.
Arguments b_time_to_live {K V P}.
Arguments b_time_to_idle {K V P}.
Arguments b_stale {K V P}.
Arguments janitor_tick_interval {K V P}.
Arguments timer_wheel_tick_duration {K V P}.
Arguments b_wheel_size {K V P}.
Arguments listener {K V P}.
Arguments policy_factory {K V P}.
Arguments builtin_choice {K V P}.
Arguments b_loader {K V P}.
Arguments b_spawner {K V P}.
Arguments maintenance_probability_denominator {K V P}.
Arguments b_introspection {K V P}.
Arguments b_max_refreshes {K V P}.
Arguments shards_set {K V P}.

Section Settings.
Context {K V P : Type}.
Notation builder := (CacheBuilder K V P).
Implicit Types (b : builder).

Definition builder_new (cpus : Z) : builder :=
  mk_builder u64_max (next_power_of_two (Z.max (cpus * 8) 1)) None None None None None None false None S3Fifo None false RESPONSIVE false 32 false.

Definition capacity (capacity : Z) b : builder :=
  mk_builder (capacity) (b_shards b) (b_time_to_live b) (b_time_to_idle b) (b_stale b) (janitor_tick_interval b) (timer_wheel_tick_duration b) (b_wheel_size b) (listener b) (policy_factory b) (builtin_choice b) (b_loader b) (b_spawner b) (maintenance_probability_denominator b) (b_introspection b) (b_max_refreshes b) (shards_set b).

Definition unbounded b : builder :=
  mk_builder (u64_max) (b_shards b) (b_time_to_live b) (b_time_to_idle b) (b_stale b) (janitor_tick_interval b) (timer_wheel_tick_duration b) (b_wheel_size b) (listener b) (policy_factory b) (builtin_choice b) (b_loader b) (b_spawner b) (maintenance_probability_denominator b) (b_introspection b) (b_max_refreshes b) (shards_set b).

Definition shards (n : Z) b : builder :=
  mk_builder (b_capacity b) (next_power_of_two (Z.max n 1)) (b_time_to_live b) (b_time_to_idle b) (b_stale b) (janitor_tick_interval b) (timer_wheel_tick_duration b) (b_wheel_size b) (listener b) (policy_factory b) (builtin_choice b) (b_loader b) (b_spawner b) (maintenance_probability_denominator b) (b_introspection b) (b_max_refreshes b) (true).

Definition time_to_live (duration : Z) b : builder :=
  mk_builder (b_capacity b) (b_shards b) (Some duration) (b_time_to_idle b) (b_stale b) (janitor_tick_interval b) (timer_wheel_tick_duration b) (b_wheel_size b) (listener b) (policy_factory b) (builtin_choice b) (b_loader b) (b_spawner b) (maintenance_probability_denominator b) (b_introspection b) (b_max_refreshes b) (shards_set b).

Definition time_to_idle (duration : Z) b : builder :=
  mk_builder (b_capacity b) (b_shards b) (b_time_to_live b) (Some duration) (b_stale b) (janitor_tick_interval b) (timer_wheel_tick_duration b) (b_wheel_size b) (listener b) (policy_factory b) (builtin_choice b) (b_loader b) (b_spawner b) (maintenance_probability_denominator b) (b_introspection b) (b_max_refreshes b) (shards_set b).

Definition eviction_listener b : builder :=
  mk_builder (b_capacity b) (b_shards b) (b_time_to_live b) (b_time_to_idle b) (b_stale b) (janitor_tick_interval b) (timer_wheel_tick_duration b) (b_wheel_size b) (true) (policy_factory b) (builtin_choice b) (b_loader b) (b_spawner b) (maintenance_probability_denominator b) (b_introspection b) (b_max_refreshes b) (shards_set b).

Definition cache_policy_factory (factory : nat → P) b : builder :=
  mk_builder (b_capacity b) (b_shards b) (b_time_to_live b) (b_time_to_idle b) (b_stale b) (janitor_tick_interval b) (timer_wheel_tick_duration b) (b_wheel_size b) (listener b) (Some factory) (builtin_choice b) (b_loader b) (b_spawner b) (maintenance_probability_denominator b) (b_introspection b) (b_max_refreshes b) (shards_set b).

Definition s3fifo b : builder :=
  mk_builder (b_capacity b) (b_shards b) (b_time_to_live b) (b_time_to_idle b) (b_stale b) (janitor_tick_interval b) (timer_wheel_tick_duration b) (b_wheel_size b) (listener b) (None) (S3Fifo) (b_loader b) (b_spawner b) (maintenance_probability_denominator b) (b_introspection b) (b_max_refreshes b) (shards_set b).

Definition tinylfu b : builder :=
  mk_builder (b_capacity b) (b_shards b) (b_time_to_live b) (b_time_to_idle b) (b_stale b) (janitor_tick_interval b) (timer_wheel_tick_duration b) (b_wheel_size b) (listener b) (None) (TinyLfu) (b_loader b) (b_spawner b) (maintenance_probability_denominator b) (b_introspection b) (b_max_refreshes b) (shards_set b).

Definition null_policy (null : P) b : builder := cache_policy_factory (λ _, null) b.

Definition loader (f : K → option (V * Z)) b : builder :=
  mk_builder (b_capacity b) (b_shards b) (b_time_to_live b) (b_time_to_idle b) (b_stale b) (janitor_tick_interval b) (timer_wheel_tick_duration b) (b_wheel_size b) (listener b) (policy_factory b) (builtin_choice b) (Some (Loader.L_Sync f)) (b_spawner b) (maintenance_probability_denominator b) (b_introspection b) (b_max_refreshes b) (shards_set b).

Definition async_loader (f : K → option (V * Z)) b : builder :=
  mk_builder (b_capacity b) (b_shards b) (b_time_to_live b) (b_time_to_idle b) (b_stale b) (janitor_tick_interval b) (timer_wheel_tick_duration b) (b_wheel_size b) (listener b) (policy_factory b) (builtin_choice b) (Some (Loader.L_Async f)) (b_spawner b) (maintenance_probability_denominator b) (b_introspection b) (b_max_refreshes b) (shards_set b).

Definition spawner b : builder :=
  mk_builder (b_capacity b) (b_shards b) (b_time_to_live b) (b_time_to_idle b) (b_stale b) (janitor_tick_interval b) (timer_wheel_tick_duration b) (b_wheel_size b) (listener b) (policy_factory b) (builtin_choice b) (b_loader b) (true) (maintenance_probability_denominator b) (b_introspection b) (b_max_refreshes b) (shards_set b).

Definition with_janitor_tick_interval (duration : Z) b : builder :=
  mk_builder (b_capacity b) (b_shards b) (b_time_to_live b) (b_time_to_idle b) (b_stale b) (Some duration) (timer_wheel_tick_duration b) (b_wheel_size b) (listener b) (policy_factory b) (builtin_choice b) (b_loader b) (b_spawner b) (maintenance_probability_denominator b) (b_introspection b) (b_max_refreshes b) (shards_set b).

Definition timer_mode (mode : TimerWheelMode) b : builder :=
  let '(size, duration) := match mode with
                           | Default => (60, 1 * second)
                           | HighPrecisionShortLived => (100, 10 * milli)
                           | LowPrecisionLongLived => (120, 30 * second)
                           end in
  mk_builder (b_capacity b) (b_shards b) (b_time_to_live b) (b_time_to_idle b) (b_stale b) (janitor_tick_interval b) (Some duration) (Some size) (listener b) (policy_factory b) (builtin_choice b) (b_loader b) (b_spawner b) (maintenance_probability_denominator b) (b_introspection b) (b_max_refreshes b) (shards_set b).

Definition timer_tick_duration (duration : Z) b : builder :=
  mk_builder (b_capacity b) (b_shards b) (b_time_to_live b) (b_time_to_idle b) (b_stale b) (janitor_tick_interval b) (Some duration) (b_wheel_size b) (listener b) (policy_factory b) (builtin_choice b) (b_loader b) (b_spawner b) (maintenance_probability_denominator b) (b_introspection b) (b_max_refreshes b) (shards_set b).

Definition timer_wheel_size (size : Z) b : builder :=
  mk_builder (b_capacity b) (b_shards b) (b_time_to_live b) (b_time_to_idle b) (b_stale b) (janitor_tick_interval b) (timer_wheel_tick_duration b) (Some size) (listener b) (policy_factory b) (builtin_choice b) (b_loader b) (b_spawner b) (maintenance_probability_denominator b) (b_introspection b) (b_max_refreshes b) (shards_set b).

(** The assertion panics. *)
Definition maintenance_chance (denominator : Z) b : option builder :=
  if 0 <? denominator then Some (mk_builder (b_capacity b) (b_shards b) (b_time_to_live b) (b_time_to_idle b) (b_stale b) (janitor_tick_interval b) (timer_wheel_tick_duration b) (b_wheel_size b) (listener b) (policy_factory b) (builtin_choice b) (b_loader b) (b_spawner b) (2 ^ Z.log2_up denominator mod U32) (b_introspection b) (b_max_refreshes b) (shards_set b)) else None.

Definition maintenance_on_introspection (enabled : bool) b : builder :=
  mk_builder (b_capacity b) (b_shards b) (b_time_to_live b) (b_time_to_idle b) (b_stale b) (janitor_tick_interval b) (timer_wheel_tick_duration b) (b_wheel_size b) (listener b) (policy_factory b) (builtin_choice b) (b_loader b) (b_spawner b) (maintenance_probability_denominator b) (enabled) (b_max_refreshes b) (shards_set b).

Definition max_concurrent_refreshes (limit : Z) b : option builder :=
  if 0 <? limit then Some (mk_builder (b_capacity b) (b_shards b) (b_time_to_live b) (b_time_to_idle b) (b_stale b) (janitor_tick_interval b) (timer_wheel_tick_duration b) (b_wheel_size b) (listener b) (policy_factory b) (builtin_choice b) (b_loader b) (b_spawner b) (maintenance_probability_denominator b) (b_introspection b) (limit) (shards_set b)) else None.

Definition stale_while_revalidate (duration : Z) b : builder :=
  mk_builder (b_capacity b) (b_shards b) (b_time_to_live b) (b_time_to_idle b) (Some duration) (janitor_tick_interval b) (timer_wheel_tick_duration b) (b_wheel_size b) (listener b) (policy_factory b) (builtin_choice b) (b_loader b) (b_spawner b) (maintenance_probability_denominator b) (b_introspection b) (b_max_refreshes b) (shards_set b).

Definition validate b : option BuildError :=
  if b_capacity b =? 0 then Some ZeroCapacity else if b_shards b =? 0 then Some ZeroShards else None.

(** ** The derived settings *)

Definition janitor_tick b : Z :=
  match janitor_tick_interval b with
  | Some tick => tick
  | None => match b_time_to_idle b with Some tti => clamp (tti / 2) milli second | None => second end
  end.

Definition clock_tick b : Z :=
  match b_time_to_idle b with
  | Some tti => clamp (tti / 2) milli (Z.max (janitor_tick b) milli)
  | None => janitor_tick b
  end.

(** The sum of the durations panics when it overflows. *)
Definition idle_limit b : option (option Z) :=
  match b_time_to_idle b with
  | Some tti => if tti + clock_tick b <=? DURATION_MAX then Some (Some (tti + clock_tick b)) else None
  | None => Some None
  end.

Definition is_power_of_two (n : Z) : bool := n =? next_power_of_two n.

(** The shards in use: the default number is reduced for a small capacity. *)
Definition shard_count b : Z :=
  if negb (shards_set b) && negb (b_capacity b =? u64_max) then
    let max_shards := Z.max (b_capacity b / MIN_COST_PER_SHARD) 1 in
    let max_shards := if is_power_of_two max_shards then max_shards else next_power_of_two max_shards / 2 in
    Z.min (b_shards b) max_shards
  else b_shards b.

Definition has_custom_policy b : bool := bool_decide (is_Some (policy_factory b)).

Definition builtin_capacity b : option Z :=
  if negb (has_custom_policy b) && negb (b_capacity b =? u64_max)
  then Some (ceil_as_u64 (f64_div (f64_of_u64 (b_capacity b)) (f64_of_u64 (shard_count b)))) else None.

Definition needs_janitor b : bool :=
  bool_decide (is_Some (b_time_to_live b)) || bool_decide (is_Some (b_time_to_idle b)) || negb (b_capacity b =? u64_max) || has_custom_policy b.

(** [tokio] is the feature that brings a spawner of its own. *)
Definition find_spawner (tokio : bool) b : option BuildError :=
  match b_loader b with
  | Some (Loader.L_Async _) => if b_spawner b || tokio then None else Some SpawnerRequired
  | _ => None
  end.
End Settings.

Section Build.
Context {K V P Index : Type} {A HT : Type → Type}.
Context `{Countable K} `{!CachePolicy K P} `{!Arena Index A} `{!HashTable HT}.
Notation builder := (CacheBuilder K V P).
Notation shard := (Shard K V P Index A HT).
Notation cache := (CacheShared K V P Index A HT).
Implicit Types (b : builder).

(** [ShardedStore::new]: a shard per policy. *)
Definition store_new (now num_shards timer_wheel_size timer_tick_duration capacity : Z) (policies : list P)
    (choice : option (BuiltinChoice * Z)) (ctx : EvictCtx) (seeds : nat → Z) : list shard :=
  imap (λ i p, mk_shard (shard_map_new num_shards timer_wheel_size timer_tick_duration capacity p choice ctx now) (rng_new (seeds i))) policies.

(** The factory is called once per shard. *)
Definition policies (null : P) b : list P := default (λ _, null) (policy_factory b) <$> seq 0 (Z.to_nat (shard_count b)).

Definition build_store (now : Z) (idle : option Z) (null : P) (seeds : nat → Z) b : list shard :=
  let wheel_tick := default second (timer_wheel_tick_duration b) in
  let wheel_size := default 60 (b_wheel_size b) in
  let ctx := mk_ctx (listener b) (default 0 (nanos <$> b_stale b)) (default 0 (nanos <$> idle)) in
  store_new now (shard_count b) wheel_size wheel_tick (b_capacity b) (policies null b) ((λ c, (builtin_choice b, c)) <$> builtin_capacity b) ctx seeds.

Definition build_shared_core (tokio : bool) (now : Z) (null : P) (seeds : nat → Z) b : option (BuildError + cache) :=
  match find_spawner tokio b with
  | Some err => Some (inl err)
  | None =>
      idle ← idle_limit b;
      let n := shard_count b in
      let cache_policy := policies null b in
      let store := build_store now idle null seeds b in
      let set := mk_settings (b_capacity b) (b_time_to_live b) idle (b_stale b) (b_loader b) (listener b) (b_introspection b)
                   (existsb uses_access_events cache_policy)
                   (match builtin_capacity b with Some _ => reads (builtin_choice b) | None => R_None end) in
      Some (inr (mk_cache store 0 (metrics_new now n) (Janitor.built (needs_janitor b)) set
                   (replicate (Z.to_nat n) ∅) [] (Refresh.queue_new (b_max_refreshes b)) [] []))
  end.

Definition build (tokio : bool) (now : Z) (null : P) (seeds : nat → Z) b : option (BuildError + cache) :=
  match validate b with
  | Some err => Some (inl err)
  | None => build_shared_core tokio now null seeds b
  end.
End Build.

(** ** What the builder makes *)

Section Proofs.
Context {K V P Index : Type} {A HT : Type → Type}.
Context `{Countable K} `{!CachePolicy K P} `{!Arena Index A} `{!HashTable HT} `{!StoreHash K}.
Notation builder := (CacheBuilder K V P).
Notation cache := (CacheShared K V P Index A HT).
Implicit Types (b : builder) (c : cache).

(** A power of two that fits. *)
Definition pow2 (n : Z) : Prop := ∃ p, n = 2 ^ p ∧ 0 ≤ p < 64.

Lemma pow2_next n : 1 ≤ n ≤ 2 ^ 63 → pow2 (next_power_of_two n) ∧ n ≤ next_power_of_two n.
Proof.
  intros Hn. assert (Hl : 0 ≤ Z.log2_up n ≤ 63).
  { split; [apply Z.log2_up_nonneg|]. change 63 with (Z.log2_up (2 ^ 63)). apply Z.log2_up_le_mono. lia. }
  assert (Hp : 2 ^ Z.log2_up n ≤ 2 ^ 63) by (apply Z.pow_le_mono_r; lia).
  unfold next_power_of_two. rewrite Z.mod_small by (pose proof (Z.pow_pos_nonneg 2 (Z.log2_up n)); unfold U64; lia).
  split; [by exists (Z.log2_up n); split; [|lia]|]. destruct (decide (n = 1)) as [->|]; [done|]. apply Z.log2_up_spec. lia.
Qed.

Lemma pow2_pos n : pow2 n → 1 ≤ n < U64.
Proof.
  intros (p&->&Hp). split; [|unfold U64; apply Z.pow_lt_mono_r; lia]. pose proof (Z.pow_pos_nonneg 2 p). lia.
Qed.

Lemma pow2_min n m : pow2 n → pow2 m → pow2 (Z.min n m).
Proof. intros ? ?. by destruct (Z.min_spec n m) as [[_ ->]|[_ ->]]. Qed.

(** [hash & (n - 1)] is an index. *)
Lemma pow2_mask h n : pow2 n → 0 ≤ Z.land h (n - 1) < n.
Proof.
  intros (p&->&Hp). replace (2 ^ p - 1) with (Z.ones p) by (rewrite Z.ones_equiv; lia). rewrite Z.land_ones by lia.
  apply Z.mod_pos_bound. apply Z.pow_pos_nonneg; lia.
Qed.

(** Half the next power of two, for a number that is none. *)
Lemma pow2_half n : 1 ≤ n ≤ 2 ^ 63 → is_power_of_two n = false → pow2 (next_power_of_two n / 2) ∧ next_power_of_two n / 2 ≤ n.
Proof.
  intros Hn Hp. destruct (pow2_next n Hn) as [(p&E&Hpr) Hle]. rewrite E in *. unfold is_power_of_two in Hp. rewrite E in Hp.
  destruct (decide (p = 0)) as [->|]; [exfalso; simpl in *; lia|].
  assert (E2 : 2 ^ p = 2 * 2 ^ (p - 1)) by (rewrite <- Z.pow_succ_r by lia; f_equal; lia).
  rewrite E2, (Z.mul_comm 2), Z.div_mul by lia. split; [by exists (p - 1); split; [|lia]|].
  assert (Hl : p = Z.log2_up n).
  { unfold next_power_of_two in E. rewrite Z.mod_small in E; [by apply (Z.pow_inj_r 2) in E; [|lia|apply Z.log2_up_nonneg|lia]|].
    assert (Z.log2_up n ≤ 63) by (change 63 with (Z.log2_up (2 ^ 63)); apply Z.log2_up_le_mono; lia).
    pose proof (Z.log2_up_nonneg n). split; [apply Z.pow_nonneg; lia|]. unfold U64. apply Z.pow_lt_mono_r; lia. }
  destruct (decide (n = 1)) as [->|]; [by rewrite Hl in *|]. pose proof (Z.log2_up_spec n ltac:(lia)) as [Hlo _]. rewrite <- Hl in Hlo. rewrite <- Z.sub_1_r in Hlo. lia.
Qed.

(** The number of shards; by default it is at most the capacity. *)
Lemma shard_count_spec b : pow2 (b_shards b) → 0 < b_capacity b < U64 →
  pow2 (shard_count b) ∧ (shards_set b = false → b_capacity b ≠ u64_max → shard_count b ≤ b_capacity b).
Proof.
  intros Hs Hc. unfold shard_count. destruct (shards_set b); [done|]. destruct (Z.eqb_spec (b_capacity b) u64_max); [done|]. cbn [negb andb].
  set (m := Z.max (b_capacity b / MIN_COST_PER_SHARD) 1).
  assert (Hm : 1 ≤ m ≤ b_capacity b ∧ m ≤ 2 ^ 63).
  { unfold m, MIN_COST_PER_SHARD. pose proof (Z.div_le_upper_bound (b_capacity b) 64 (b_capacity b) ltac:(lia) ltac:(lia)).
    pose proof (Z.div_lt_upper_bound (b_capacity b) 64 (2 ^ 58) ltac:(lia) ltac:(unfold U64 in *; lia)). lia. }
  set (m' := if is_power_of_two m then m else next_power_of_two m / 2).
  assert (Hm' : pow2 m' ∧ m' ≤ m).
  { unfold m'. destruct (is_power_of_two m) eqn:E; [|by apply pow2_half; [lia|]]. unfold is_power_of_two in E. apply Z.eqb_eq in E.
    split; [rewrite E; by apply pow2_next; lia|lia]. }
  destruct Hm' as [Hp Hle]. split; [by apply pow2_min|]. intros _ _. lia.
Qed.

(** The budgets of all shards. *)
Definition total_budget c : Z := zsum ((λ s, budget (map s)) <$> Cache.shards c).

Lemma zsum_const {T} (f : T → Z) x (xs : list T) : Forall (λ t, f t = x) xs → zsum (f <$> xs) = Z.of_nat (length xs) * x.
Proof. induction 1 as [|t xs E _ IH]; [done|]. rewrite fmap_cons, zsum_cons, IH, E. cbn [length]. lia. Qed.

(** a configuration is refused exactly for a zero capacity, zero shards or an async loader
    without a spawner.  Otherwise the cache is built: empty, its books at zero, every hash
    with a shard of its own.  The budgets of the shards add up to the capacity at
    most, unless the caller set more shards than the capacity: every shard may then
    hold a cost of 1, more than the capacity in all. *)
Theorem build_spec tokio now (null : P) seeds b :
  pow2 (b_shards b) ∨ b_shards b = 0 → 0 ≤ b_capacity b < U64 → (∀ t, b_time_to_idle b = Some t → t + clock_tick b ≤ DURATION_MAX) →
  let err := b_capacity b = 0 ∨ b_shards b = 0 ∨ (∃ f, b_loader b = Some (Loader.L_Async f)) ∧ b_spawner b = false ∧ tokio = false in
  match build tokio now null seeds b with
  | None => False
  | Some (inl _) => err
  | Some (inr c) => ¬ err ∧
      let c : cache := c in
      num_shards c = shard_count b ∧ new_books c ∧ (∀ k, 0 ≤ get_shard k c < num_shards c) ∧
      (b_capacity b < u64_max →
         (shard_count b ≤ b_capacity b → total_budget c ≤ b_capacity b) ∧
         (b_capacity b < shard_count b → total_budget c = shard_count b) ∧
         (shards_set b = false → shard_count b ≤ b_capacity b))
  end.
Proof.
  intros Hs Hc Ht err. unfold build, validate. destruct (Z.eqb_spec (b_capacity b) 0); [by left|]. destruct (Z.eqb_spec (b_shards b) 0); [by right; left|].
  destruct Hs as [Hs|]; [|done]. unfold build_shared_core, find_spawner.
  assert (Hi : ∃ idle, idle_limit b = Some idle).
  { unfold idle_limit. destruct (b_time_to_idle b) as [t|]; [|by eexists]. specialize (Ht t eq_refl). destruct (Z.leb_spec (t + clock_tick b) DURATION_MAX); [by eexists|lia]. }
  destruct Hi as [idle ->]. cbn [mbind option_bind]. destruct (shard_count_spec b Hs ltac:(lia)) as [Hp Hle]. pose proof (pow2_pos _ Hp) as Hn.
  assert (Hbuilt : ∀ c : cache, Cache.shards c = build_store now idle null seeds b →
    current_cost (metrics c) = sc_new → ¬ err →
    ¬ err ∧ num_shards c = shard_count b ∧ new_books c ∧ (∀ k, 0 ≤ get_shard k c < num_shards c) ∧
      (b_capacity b < u64_max →
         (shard_count b ≤ b_capacity b → total_budget c ≤ b_capacity b) ∧
         (b_capacity b < shard_count b → total_budget c = shard_count b) ∧
         (shards_set b = false → shard_count b ≤ b_capacity b))).
  { intros c Hsh Hmet Herr. split; [done|].
    assert (Hnum : num_shards c = shard_count b) by (unfold num_shards; rewrite Hsh; unfold build_store, store_new, policies; rewrite length_imap, length_fmap, length_seq; lia).
    assert (Hall : ∀ s, s ∈ Cache.shards c → sm_cost (map s) = 0 ∧ local (map s) = counters_new ∧ budget (map s) = shard_budget (shard_count b) (b_capacity b)).
    { intros s Hin. rewrite Hsh in Hin. unfold build_store, store_new in Hin. apply list_elem_of_lookup in Hin as (i&Hi). rewrite list_lookup_imap in Hi.
      destruct (_ !! i); [|done]. by injection Hi as <-. }
    split; [done|]. split; [split; [done|]; apply Forall_forall; intros s Hin; by destruct (Hall s Hin) as (?&?&_)|].
    split; [intros k; unfold get_shard, shard_index; rewrite Hnum; by apply pow2_mask|]. intros Hbd.
    assert (Hb : total_budget c = shard_count b * Z.max (b_capacity b / shard_count b) 1).
    { unfold total_budget. rewrite (zsum_const _ (shard_budget (shard_count b) (b_capacity b))).
      - unfold num_shards in Hnum. rewrite Hnum. unfold shard_budget. by destruct (Z.eqb_spec (b_capacity b) u64_max); [lia|].
      - apply Forall_forall. intros s Hin. by apply Hall. }
    rewrite Hb. split; [|split].
    - intros Hcap. pose proof (Z.mul_div_le (b_capacity b) (shard_count b) ltac:(lia)). pose proof (Z.div_le_lower_bound (b_capacity b) (shard_count b) 1 ltac:(lia) ltac:(lia)). nia.
    - intros Hcap. rewrite Z.div_small by lia. lia.
    - intros Hset. apply Hle; [done|lia]. }
  destruct (b_loader b) as [[f|f]|] eqn:El.
  - apply Hbuilt; [done|done|]. intros [?|[?|([? ?]&_)]]; congruence.
  - destruct (b_spawner b || tokio) eqn:Esp.
    + apply Hbuilt; [done|done|]. apply orb_true_iff in Esp. intros [?|[?|(_&?&?)]]; [done|done|]. destruct Esp; congruence.
    + apply orb_false_iff in Esp as [? ?]. right. right. split; [by exists f|done].
  - apply Hbuilt; [done|done|]. intros [?|[?|([? ?]&_)]]; congruence.
Qed.
End Proofs.

(** ** A small cache *)

#[local] Instance demo_hash : StoreHash nat := λ k, Z.of_nat k.

Definition demo_policy : Type := Lru.LruPolicy nat counter_arena nat.

(** Two shards of 50 with the default policy, and a loader. *)
Definition demo_config : CacheBuilder nat nat demo_policy :=
  loader (λ k, Some (k, 7)) (eviction_listener (shards 2 (capacity 100 (builder_new 1)))).

Definition demo_build : option (BuildError + CacheShared nat nat demo_policy nat counter_arena list_table) :=
  build false 1000 Lru.new (λ _, 1) demo_config.

Definition demo_cache : option (CacheShared nat nat demo_policy nat counter_arena list_table) :=
  match demo_build with Some (inr c) => Some c | _ => None end.

(** Sixty of a kind in shard 1, of which one is evicted, a load, a removal. *)
Definition demo_calls : list (CacheCall (K:=nat) (V:=nat)) :=
  [Call_insert 1000 1%nat 10%nat 30; Call_insert 1000 3%nat 30%nat 30; Call_fetch_with 1000 0 0%nat 4%nat; Call_insert 1000 6%nat 60%nat 5;
   Call_get 1000 3 4%nat; Call_remove 2 6%nat].

Lemma cache_cost_metric_witness :
  ∃ c c', demo_cache = Some c ∧ run_calls demo_calls c = Some c' ∧ current_cost_total (counters c') (metrics c') = held c' mod U64 ∧
    held c' = 37.
Proof.
  destruct demo_cache as [c|] eqn:E; [|vm_compute in E; discriminate].
  assert (Hb : new_books c) by (vm_compute in E; injection E as <-; split; [reflexivity|repeat constructor]).
  destruct (run_calls demo_calls c) as [c'|] eqn:Er; [|exfalso; revert Er; vm_compute in E; injection E as <-; vm_compute; discriminate].
  exists c, c'. split; [done|]. split; [done|]. split; [by apply (cache_cost_metric demo_calls c)|].
  assert ((c ← demo_cache; c' ← run_calls demo_calls c; Some (held c')) = Some 37) as Eh by (vm_compute; reflexivity).
  rewrite E in Eh. cbn [mbind option_bind] in Eh. rewrite Er in Eh. by injection Eh.
Defined.

Lemma build_spec_witness :
  ∃ c : CacheShared nat nat demo_policy nat counter_arena list_table,
    demo_build = Some (inr c) ∧ num_shards c = 2 ∧ total_budget c ≤ 100 ∧ (∀ k, 0 ≤ get_shard k c < 2).
Proof.
  pose proof (build_spec (HT:=list_table) (A:=counter_arena) (Index:=nat) false 1000 Lru.new (λ _, 1) demo_config) as Hs. fold demo_build in Hs.
  destruct demo_build as [[err|c]|] eqn:E; [vm_compute in E; discriminate| |vm_compute in E; discriminate].
  destruct Hs as (_&Hn&_&Hk&Hb); [left; exists 1; split; [reflexivity|lia]|vm_compute; split; congruence|done|].
  change (shard_count demo_config) with 2 in *. rewrite Hn in Hk. exists c. split; [done|]. split; [done|]. split; [|done].
  apply Hb; [vm_compute; reflexivity|vm_compute; discriminate].
Defined.
