(* ===== verification/ShardRead.v ===== *)
(** * What a hit does to a shard ([on_hit] of [handles/sync.rs], [apply_deferred])

    A hit stamps the entry and hands the read to the ring, to the log or to the policy; the
    entries are otherwise as they were. *)

From S2P Require Import Prelude Arena Policy Slab ReadRing ShardPolicy Builtin.
From S2P Require Timer ReadLog.
From S2P Require Import Entry HashTable Store ShardTable ShardTimers ShardInv ShardInsert ShardRemove ShardExpiry Cache.

(** ** The ring between two calls *)

Definition ring_ok (r : ReadRing) : Prop := length (slots r) = Z.to_nat RING ∧ 0 ≤ cursor r.

Lemma ring_ok_new : ring_ok ring_new.
Proof. split; [by vm_compute|done]. Qed.

Lemma ring_ok_push nd r : ring_ok r → ∃ ok r', ReadRing.push nd r = Some (ok, r') ∧ ring_ok r'.
Proof.
  intros [Hl Hc]. unfold ReadRing.push. destruct (nd =? NO_NODE); [by exists true, r|]. destruct (Z.leb_spec RING (cursor r)); [by exists false, r|].
  destruct (Z.ltb_spec (cursor r) RING); [|lia].
  destruct (vget_lt (slots r) (cursor r)) as [x Hx]; [rewrite Hl; unfold RING in *; lia|].
  destruct (vset_spec (slots r) (cursor r) (nd +w 1) x Hx) as (ss&E&Hs&_). cbn [slots cursor]. rewrite E. cbn [mbind option_bind].
  eexists true, _. split; [done|]. split; [cbn; congruence|]. cbn. apply u64_add_range.
Qed.

Lemma ring_ok_drain r : ring_ok r → ring_ok (ReadRing.drain r).2.
Proof.
  intros [Hl Hc]. split; [|done]. cbn [ReadRing.drain snd slots]. rewrite length_app, length_replicate, length_take, length_drop. lia.
Qed.

Section Read.
Context {K V P Index : Type} {A HT : Type → Type}.
Context `{Countable K} `{!CachePolicy K P} `{!PolicyLaws K P} `{EqDecision Index} `{!Arena Index A} `{!ArenaLaws Index A}.
Context `{!HashTable HT} `{!HashTableLaws HT} `{!StoreHash K}.
Notation entry := (CacheEntry V Index).
Notation item := (K * entry)%type.
Notation shard_map := (ShardMap K V P Index A HT).
Notation cache := (CacheShared K V P Index A HT).
Implicit Types (sm : shard_map) (L : list item) (k : K) (e : entry) (exact : Prop) (cmax now : Z) (c : cache).

(** The shard between two calls, its ring included. *)
Definition shard_ok exact cmax sm : Prop := (∃ L, shard_inv exact cmax sm L) ∧ ring_ok (ring sm).

(** Only the entry of [k] changed, by [g]; no cost, no count, no notice. *)
Record reads_only (g : entry → entry) k sm sm' : Prop := {
  ro_get j : Store.get j sm' = if decide (j = k) then g <$> Store.get j sm else Store.get j sm;
  ro_cost : sm_cost sm' = sm_cost sm;
  ro_local : local sm' = local sm;
  ro_told : notified sm' = notified sm;
  ro_kind : is_Some (sm_builtin sm') ↔ is_Some (sm_builtin sm);
}.

Lemma reads_only_refl k sm : reads_only (λ e, e) k sm sm.
Proof. split; try done. intros j. case_decide; [by destruct (Store.get j sm)|done]. Qed.

Lemma reads_only_trans g k sm1 sm2 sm3 : reads_only g k sm1 sm2 → reads_only (λ e, e) k sm2 sm3 → reads_only g k sm1 sm3.
Proof.
  intros [] []. split; try congruence; [|by rewrite ro_kind1]. intros j. rewrite ro_get1, !ro_get0. case_decide; [by destruct (Store.get j sm1)|done].
Qed.

(** Nothing of the table, the cost or the counters changes. *)
Lemma reads_only_quiet k sm sm' : quiet sm sm' → reads_only (λ e, e) k sm sm'.
Proof.
  intros []. split; try done. intros j. unfold Store.get, get_key_value, get_key_value_hashed. rewrite q_table.
  case_decide; [by destruct (ht_find _ _ _)|done].
Qed.

Lemma shard_inv_quiet exact cmax sm sm' L : shard_inv exact cmax sm L → quiet sm sm' → policy_ok exact cmax sm' L → shard_inv exact cmax sm' L.
Proof. intros [] Hq Hp. split; [by eapply body_quiet|done|by rewrite (q_victims _ _ Hq)|by rewrite (q_budget _ _ Hq)]. Qed.

(** ** The stamp of a hit *)

Lemma owns_accessed grace w t e es late :
  wheel_owns grace w (e :: es) late → wheel_owns grace w (set_accessed t e :: es) late.
Proof. intros [H1 H2 H3 H4 H5]. apply Forall_cons in H3 as [? ?]. split; try done. by constructor. Qed.

Lemma policy_ok_accessed exact cmax sm k e t L :
  policy_ok exact cmax sm ((k, e) :: L) → policy_ok exact cmax sm ((k, set_accessed t e) :: L).
Proof.
  unfold policy_ok. destruct (sm_builtin sm) as [b|]; [done|]. intros [Hp (rds&Hl&Hall)]. split; [done|]. exists rds. split; [done|].
  eapply Forall_impl; [exact Hall|]. intros [k' n] [? Hex]. split; [done|]. intros He e' [[= -> ->]|Hin]%elem_of_cons; [apply (Hex He e); by left|].
  apply (Hex He). by right.
Qed.

Lemma policy_ok_table exact cmax sm t L : policy_ok exact cmax (with_table t sm) L ↔ policy_ok exact cmax sm L.
Proof. done. Qed.

(** [get_mut] of an entry that is there, to stamp it. *)
Lemma stamp_spec exact cmax sm k e t :
  shard_ok exact cmax sm → Store.get k sm = Some e →
  ∃ e0 sm', get_mut k (set_accessed t) sm = Some (e0, sm') ∧ shard_ok exact cmax sm' ∧ reads_only (set_accessed t) k sm sm' ∧
    Store.get k sm' = Some (set_accessed t e) ∧ sm_reads sm' = sm_reads sm ∧ ring sm' = ring sm ∧ sm_builtin sm' = sm_builtin sm.
Proof.
  intros [[L Hi] Hr] Hg. pose proof Hi as [Hb Hp Hv Hbud]. pose proof (b_table _ _ _ _ Hb) as Ht. rewrite (get_spec sm L k Ht) in Hg.
  unfold get_mut. pose proof (find_mut_any (table sm) L (hash_key k) (key_is k) Ht) as Hm. destruct (ht_find_mut _ _ _) as [[[kk e0] write]|].
  2:{ exfalso. apply elem_of_list_to_map_2 in Hg. specialize (Hm _ Hg eq_refl). by apply bool_decide_eq_false in Hm. }
  destruct Hm as [Hk (R&HL&Hw)]. apply bool_decide_eq_true in Hk. simpl in Hk. subst kk. cbn [mbind option_bind fst] in *.
  pose proof (table_holds_perm _ _ _ HL Ht) as Ht1. pose proof (th_hash _ _ Ht1) as Hh. apply Forall_cons in Hh as [Hh _]. simpl in Hh.
  assert (e0 = e) as ->.
  { apply elem_of_list_to_map_2 in Hg. rewrite HL in Hg. apply elem_of_cons in Hg as [[= ->]|Hin]; [done|]. exfalso.
    pose proof (th_nodup _ _ Ht1) as Hnd. apply NoDup_cons in Hnd as [Hnd _]. apply Hnd. apply list_elem_of_fmap. by exists (k, e). }
  pose proof (Hw (set_accessed t e) Hh) as Ht2.
  assert (Hg2 : ∀ j, Store.get j (with_table (write (k, set_accessed t e)) sm) = if decide (j = k) then set_accessed t <$> Store.get j sm else Store.get j sm).
  { intros j. rewrite (get_spec (with_table _ sm) _ j Ht2), (get_spec sm _ j Ht1). simpl. case_decide as Hj; [subst j; by rewrite !lookup_insert_eq|].
    by rewrite !lookup_insert_ne by done. }
  exists e, (with_table (write (k, set_accessed t e)) sm). split; [done|]. split; [|split; [by split|split; [|done]]].
  - split; [|done]. exists ((k, set_accessed t e) :: R). split; try done.
    + destruct Hb as [_ Hit Hrm Hcm Hc Hwh Hcx]. rewrite HL in Hit, Hrm. apply Forall_cons in Hit as [Hi1 Hit]. split; try done; [by constructor|..].
      * cbn [sm_cost with_table]. rewrite Hc. by rewrite (kcosts_perm _ _ HL).
      * cbn [fmap list_fmap snd app]. apply owns_accessed. eapply wheel_owns_perm; [|done|exact Hwh]. by rewrite HL.
    + apply policy_ok_accessed, (policy_ok_perm exact cmax sm L); [by apply th_nodup in Ht|done|done].
  - rewrite Hg2, decide_True by done. rewrite (get_spec sm L k Ht), Hg. done.
Qed.

(** ** The read, noted *)

(** The settings fit the shard: a log of keys is for a policy that names entries by key. *)
Definition reads_match (set : Settings K V) sm : Prop :=
  match builtin_reads set with R_None => sm_builtin sm = None | _ => is_Some (sm_builtin sm) end.

(** What a deferred read may say. *)
Definition deferred_ok exact cmax sm (d : option (DeferredRead K)) : Prop :=
  match d with
  | None => True
  | Some (D_Node n) => 0 ≤ n
  | Some (D_Key k n) => sm_builtin sm = None ∧ 0 ≤ n ≤ cmax ∧ (exact → ∀ e, Store.get k sm = Some e → cost e = n)
  end.

Lemma get_in sm L k e : table_holds (table sm) L → Store.get k sm = Some e ↔ (k, e) ∈ L.
Proof.
  intros Ht. rewrite (get_spec sm L k Ht). split; [apply elem_of_list_to_map_2|]. apply elem_of_list_to_map_1. apply Ht.
Qed.

(** A node of an entry is a node of the built-in policy. *)
Lemma entry_node exact cmax sm L k e b : shard_inv exact cmax sm L → sm_builtin sm = Some b → (k, e) ∈ L → 0 ≤ node e.
Proof.
  intros [_ Hp _ _] Hb Hin. unfold policy_ok in Hp. rewrite Hb in Hp. destruct Hp as (Hw&Hnd&Hn&_).
  pose proof (nodes_ids b Hw (node e) (key_hash e, cost e)) as Hid. apply Hid. rewrite Hn. apply elem_of_list_to_map_1.
  - unfold knodes. rewrite <- list_fmap_compose. by rewrite <- list_fmap_compose in Hnd.
  - apply list_elem_of_fmap. by exists (k, e).
Qed.

Lemma shard_inv_with_ring exact cmax sm L r : shard_inv exact cmax sm L → shard_inv exact cmax (with_ring r sm) L.
Proof. intros [[] ? ? ?]. by split. Qed.

Lemma note_spec exact cmax sm k e set :
  shard_ok exact cmax sm → Store.get k sm = Some e → reads_match set sm →
  ∃ d sm', (match builtin_reads set with
            | R_Ring => '(ok, r) ← ReadRing.push (node e) (ring sm); Some (if (ok : bool) then None else Some (D_Node (node e)), with_ring r sm)
            | R_Freq => sm ← touch_read (node e) sm; Some (None, sm)
            | R_None =>
                if track_reads set then
                  '(ok, lg) ← ReadLog.push (k, cost e) (sm_reads sm);
                  Some (if (ok : bool) then None else Some (D_Key k (cost e)), with_reads lg sm)
                else Some (None, sm)
            end) = Some (d, sm') ∧
    shard_ok exact cmax sm' ∧ reads_only (λ e, e) k sm sm' ∧ deferred_ok exact cmax sm' d.
Proof.
  intros [[L Hi] Hr] Hg Hset. pose proof Hi as [Hb Hp Hv Hbud]. pose proof (b_table _ _ _ _ Hb) as Ht. pose proof Hg as Hin. rewrite (get_in sm L k e Ht) in Hin.
  pose proof (b_items _ _ _ _ Hb) as Hit. eapply Forall_forall in Hit as [Hc _]; [|exact Hin]. simpl in Hc.
  assert (Hexc : exact → ∀ e', (k, e') ∈ L → cost e' = cost e) by (intros _ e' He'; by rewrite (item_unique (table sm) L k e' e Ht He' Hin)).
  unfold reads_match in Hset. destruct (builtin_reads set).
  - destruct (track_reads set); [|exists None, sm; split; [done|]; split; [by split; [exists L|]|]; split; [apply reads_only_refl|done]].
    unfold policy_ok in Hp. rewrite Hset in Hp. destruct Hp as [Hp (rds&Hl&Hall)]. pose proof (ReadLog.logged_push _ _ (k, cost e) Hl) as Hpush.
    assert (Hd : deferred_ok exact cmax sm (Some (D_Key k (cost e)))) by (split; [done|]; split; [done|]; intros _ e' He'; congruence).
    case_decide.
    + rewrite Hpush. cbn [mbind option_bind]. eexists _, _. split; [done|]. assert (with_reads (sm_reads sm) sm = sm) as -> by (by destruct sm).
      split; [by split; [exists L|]|]. split; [apply reads_only_refl|done].
    + destruct Hpush as (lg&->&Hlg). cbn [mbind option_bind]. eexists _, _. split; [done|]. split; [|split; [by apply reads_only_quiet|done]].
      split; [|done]. exists L. apply (shard_inv_quiet exact cmax sm _ L Hi); [by split|]. unfold policy_ok. cbn [sm_builtin with_reads policy sm_reads]. rewrite Hset. split; [done|].
      exists (rds ++ [(k, cost e)]). split; [done|]. apply Forall_app. split; [done|]. constructor; [by split|constructor].
  - destruct (ring_ok_push (node e) (ring sm) Hr) as (ok&r&->&Hr'). cbn [mbind option_bind]. destruct Hset as [b Hbu]. eexists _, _. split; [done|].
    split; [split; [exists L; by apply shard_inv_with_ring|done]|]. split; [by apply reads_only_quiet|].
    destruct ok; [done|]. cbn. by eapply entry_node.
  - destruct Hset as [b Hbu]. unfold touch_read. rewrite Hbu. unfold policy_ok in Hp. rewrite Hbu in Hp. destruct Hp as (Hw&Hnd&Hn&Hlen).
    destruct (sp_touch_law b (node e) Hw ltac:(by eapply entry_node)) as (b'&->&Hw'&Hn'). cbn [mbind option_bind]. eexists _, _. split; [done|].
    assert (Hq : quiet sm (with_builtin b' sm)) by (by split; rewrite ?Hbu).
    split; [|split; [by apply reads_only_quiet|done]]. split; [|done]. exists L. apply (shard_inv_quiet exact cmax sm _ L Hi Hq).
    unfold policy_ok. cbn [sm_builtin with_builtin]. split; [done|]. split; [done|]. by rewrite Hn'.
Qed.

(** ** The deferred read *)

Lemma apply_reads_ring exact cmax sm L sm' : policy_ok exact cmax sm L → ring_ok (ring sm) → apply_reads sm = Some sm' → ring_ok (ring sm').
Proof.
  unfold apply_reads, policy_ok. intros Hp Hr. destruct (sm_builtin sm) as [b|].
  - destruct Hp as (Hw&_). destruct (sp_apply_reads_law b (ring sm) Hw) as (r&b'&->&_&_&Hring). cbn [mbind option_bind]. intros [= <-].
    cbn [ring with_builtin with_ring]. destruct Hring as [->| ->]; [by apply ring_ok_drain|done].
  - intros Ha. apply bind_Some in Ha as ([rds lg]&_&Ha). apply bind_Some in Ha as (p&_&[= <-]). done.
Qed.

Lemma deferred_spec exact cmax sm d k :
  shard_ok exact cmax sm → deferred_ok exact cmax sm (Some d) →
  ∃ sm', apply_deferred d sm = Some sm' ∧ shard_ok exact cmax sm' ∧ reads_only (λ e, e) k sm sm'.
Proof.
  intros [[L Hi] Hr] Hd. pose proof Hi as [Hb Hp Hv Hbud]. pose proof (b_table _ _ _ _ Hb) as Ht. pose proof (b_room _ _ _ _ Hb) as Hrm.
  destruct (apply_reads_spec exact cmax sm L Hp Hrm) as (sm1&E1&Hp1&Hq1&_). pose proof (apply_reads_ring exact cmax sm L sm1 Hp Hr E1) as Hr1.
  pose proof (shard_inv_quiet exact cmax sm sm1 L Hi Hq1 Hp1) as Hi1. unfold apply_deferred. rewrite E1. cbn [mbind option_bind].
  assert (Hdone : ∀ sm', quiet sm1 sm' → ring sm' = ring sm1 → policy_ok exact cmax sm' L → shard_ok exact cmax sm' ∧ reads_only (λ e, e) k sm sm').
  { intros sm' Hq' Hr' Hp'. split; [split; [exists L; by eapply shard_inv_quiet|by rewrite Hr']|].
    eapply reads_only_trans; [by apply reads_only_quiet|by apply reads_only_quiet]. }
  destruct d as [k1 n|n].
  - destruct Hd as (Hbn&Hn&Hex). assert (Hex' : exact → ∀ e, (k1, e) ∈ L → cost e = n) by (intros He e Hin; apply (Hex He); by apply (get_in sm L)).
    assert (Eb : sm_builtin sm1 = None) by (apply eq_None_not_Some; rewrite (q_kind _ _ Hq1), Hbn; by intros [? ?]).
    unfold policy_ok in Hp1. rewrite Eb in Hp1. destruct Hp1 as [Hpa Hrd]. destruct (access_spec exact cmax (policy sm1) L k1 n Hpa Hn Hex' Hrm) as (p'&->&Hpa').
    cbn [mbind option_bind]. eexists. split; [done|]. apply Hdone; [by split|done|]. unfold policy_ok. cbn [sm_builtin with_policy policy sm_reads]. by rewrite Eb.
  - destruct (sm_builtin sm1) as [b|] eqn:Eb.
    + unfold policy_ok in Hp1. rewrite Eb in Hp1. destruct Hp1 as (Hw&Hnd&Hn&Hlen). destruct (sp_apply_read_law b n Hw Hd) as (b'&->&Hw'&Hn').
      cbn [mbind option_bind]. eexists. split; [done|]. apply Hdone; [by split; rewrite ?Eb|done|]. unfold policy_ok. cbn [sm_builtin with_builtin].
      split; [done|]. split; [done|]. by rewrite Hn'.
    + exists sm1. split; [done|]. apply Hdone; [apply quiet_refl|done|done].
Qed.
End Read.
