(* ===== verification/CacheRead.v ===== *)
(** * Reading a cache

    [content] is what the cache holds under a key.  [get], [fetch] and [peek] return it
    while it has not expired, and change nothing else than the time of the last access, the notes
    for the policy and the counts of hits and misses. *)

From S2P Require Import Prelude Arena Policy Slab ReadRing ShardPolicy Builtin.
From S2P Require Timer ReadLog.
From S2P Require Import Entry HashTable Store Metrics ShardTable ShardInv ShardInsert Cache CacheCost ShardRead.
From S2P Require Loader Refresh Janitor Lru.
From S2P Require Import Shard ShardProps.

Section Read.
Context {K V P Index : Type} {A HT : Type → Type}.
Context `{Countable K} `{!CachePolicy K P} `{!PolicyLaws K P} `{EqDecision Index} `{!Arena Index A} `{!ArenaLaws Index A}.
Context `{!HashTable HT} `{!HashTableLaws HT} `{!StoreHash K}.
Notation entry := (CacheEntry V Index).
Notation shard_map := (ShardMap K V P Index A HT).
Notation shard := (Shard K V P Index A HT).
Notation cache := (CacheShared K V P Index A HT).
Implicit Types (sm : shard_map) (k j : K) (e : entry) (exact : Prop) (cmax now me i : Z) (c : cache) (s : shard).

(** ** The state between two calls *)

Definition stripes_ok (m : Metrics) (xs : list Z) : Prop := ∀ me, 0 ≤ Z.land me (stripe_mask m) < Z.of_nat (length xs).

Record cache_inv exact cmax c : Prop := {
  ci_index k : 0 ≤ get_shard k c < num_shards c;
  ci_shards : Forall (λ s, shard_ok exact cmax (map s) ∧ reads_match (settings c) (map s)) (shards c);
  ci_hits : stripes_ok (metrics c) (hits (metrics c));
  ci_misses : stripes_ok (metrics c) (misses (metrics c));
}.

Definition content k c : option entry := sm ← shard_at (get_shard k c) c; Store.get k sm.

(** What a read of [k] returns: the content, while the coarse clock lets it live. *)
Definition live now k c : option entry :=
  match content k c with
  | Some e => if is_expired_coarse now (tti c) (clock c) e then None else Some e
  | None => None
  end.

(** What a hit does to the entry. *)
Definition stamp now c e : entry :=
  match tti c with Some _ => update_last_accessed_coarse now (clock c) e | None => e end.

(** ** Writing a shard back *)

Definition put_shard i sm c : cache := with_shards (alter (λ s, mk_shard sm (rng s)) (Z.to_nat i) (shards c)) c.

Lemma with_shard_eq {R} i (f : shard_map → option (R * shard_map)) c s r sm :
  vget (shards c) i = Some s → f (map s) = Some (r, sm) → with_shard i f c = Some (r, put_shard i sm c).
Proof.
  intros Hs Hf. unfold with_shard. rewrite Hs. cbn [mbind option_bind]. rewrite Hf. cbn [mbind option_bind]. unfold vset. rewrite Hs. cbn [mbind option_bind].
  do 2 f_equal. unfold put_shard. f_equal.
  rewrite list_insert_alter. apply list_alter_ext; [|done]. intros x Hx. unfold vget in Hs. destruct (0 <=? i); [congruence|done].
Qed.

Lemma vget_put i sm c s (z : Z) : vget (shards c) i = Some s → 
  vget (shards (put_shard i sm c)) z = if decide (z = i) then Some (mk_shard sm (rng s)) else vget (shards c) z.
Proof.
  intros Hs. unfold put_shard, vget in *. cbn [shards with_shards]. destruct (Z.leb_spec 0 i); [|done]. destruct (Z.leb_spec 0 z).
  - destruct (decide (z = i)) as [->|]; [rewrite list_lookup_alter_eq, Hs; done|]. rewrite list_lookup_alter_ne by lia. done.
  - by rewrite decide_False by lia.
Qed.

Lemma put_num i sm c : num_shards (put_shard i sm c) = num_shards c.
Proof. unfold num_shards, put_shard. cbn [shards with_shards]. by rewrite length_alter. Qed.

Lemma put_get_shard k i sm c : get_shard k (put_shard i sm c) = get_shard k c.
Proof. unfold get_shard. by rewrite put_num. Qed.

Lemma content_put j i sm c s : vget (shards c) i = Some s →
  content j (put_shard i sm c) = if decide (get_shard j c = i) then Store.get j sm else content j c.
Proof.
  intros Hs. unfold content, shard_at. rewrite put_get_shard, (vget_put _ _ _ s _ Hs). by destruct (decide (get_shard j c = i)).
Qed.

Lemma put_inv exact cmax i sm c s : cache_inv exact cmax c → vget (shards c) i = Some s → shard_ok exact cmax sm → reads_match (settings c) sm →
  cache_inv exact cmax (put_shard i sm c).
Proof.
  intros [H1 H2 H3 H4] Hs Hok Hrm. split; try done; [intros k; by rewrite put_get_shard, put_num|].
  apply Forall_alter; [done|]. by intros.
Qed.

(** A shard's cost that stays leaves the sum as it is. *)
Lemma held_put i sm c s : vget (shards c) i = Some s → sm_cost sm = sm_cost (map s) → held (put_shard i sm c) = held c.
Proof.
  intros Hs Hc. unfold held, put_shard. cbn [shards with_shards].
  assert ((λ s : shard, sm_cost (map s)) <$> alter (λ s, mk_shard sm (rng s)) (Z.to_nat i) (shards c) = (λ s : shard, sm_cost (map s)) <$> shards c) as ->; [|done].
  apply list_eq. intros j. rewrite !list_lookup_fmap. destruct (decide (j = Z.to_nat i)) as [->|]; [|by rewrite list_lookup_alter_ne by done].
  rewrite list_lookup_alter_eq. unfold vget in Hs. destruct (0 <=? i); [|done]. rewrite Hs. simpl. by rewrite Hc.
Qed.

Lemma own_shard exact cmax c k : cache_inv exact cmax c →
  ∃ s, vget (shards c) (get_shard k c) = Some s ∧ shard_ok exact cmax (map s) ∧ reads_match (settings c) (map s) ∧ content k c = Store.get k (map s).
Proof.
  intros [Hi Hs _ _]. destruct (vget_lt (shards c) (get_shard k c) (Hi k)) as [s Es]. exists s. split; [done|].
  assert (Hin : s ∈ shards c) by (unfold vget in Es; destruct (0 <=? _); [by eapply list_elem_of_lookup_2|done]).
  eapply Forall_forall in Hs as [? ?]; [|exact Hin]. split; [done|]. split; [done|]. unfold content, shard_at. by rewrite Es.
Qed.

(** ** The read of one key *)

(** What a read may change. *)
Record read_effect now k (hit : bool) c c' : Prop := {
  re_content j : content j c' = if decide (j = k) then (if hit then stamp now c <$> content j c else content j c) else content j c;
  re_held : held c' = held c;
  re_clock : clock c' = clock c;
  re_settings : settings c' = settings c;
  re_loads : (pending_loads c', futures c', refreshes c', Cache.spawned c') = (pending_loads c, futures c, refreshes c, Cache.spawned c);
  re_sent : sent c' = sent c;
}.

(** A shard that was only read from is written back. *)
Lemma put_effect now k (hit : bool) c s sm i (g : entry → entry) : 
  vget (shards c) i = Some s → get_shard k c = i → reads_only g k (map s) sm → (∀ e, g e = if hit then stamp now c e else e) →
  read_effect now k hit c (put_shard i sm c).
Proof.
  intros Hs Hk [Hg Hc _ _ _] Hgs. split; try done; [|by apply (held_put _ _ _ s)].
  intros j. rewrite (content_put _ _ _ _ s Hs). case_decide as Hj.
  - rewrite Hg. assert (Hcj : content j c = Store.get j (map s)) by (unfold content, shard_at; by rewrite Hj, Hs). rewrite Hcj.
    case_decide; [|done]. destruct (Store.get j (map s)) as [e|]; simpl; [rewrite Hgs|]; by destruct hit.
  - case_decide as Hjk; [subst j; congruence|done].
Qed.

Lemma effect_trans now k (hit : bool) c1 c2 c3 : read_effect now k hit c1 c2 → read_effect now k false c2 c3 → read_effect now k hit c1 c3.
Proof.
  intros [] []. split; try congruence. intros j. rewrite re_content1, !re_content0. by case_decide.
Qed.

Lemma reads_match_kind (set : Settings K V) sm sm' : (is_Some (sm_builtin sm') ↔ is_Some (sm_builtin sm)) → reads_match set sm → reads_match set sm'.
Proof.
  intros Hk. unfold reads_match. destruct (builtin_reads set); [|by rewrite Hk..]. intros Hn. apply eq_None_not_Some. rewrite Hk, Hn. by intros [? ?].
Qed.

Lemma on_hit_spec exact cmax now k e sm c :
  shard_ok exact cmax sm → reads_match (settings c) sm → Store.get k sm = Some e →
  ∃ d sm', on_hit now k e sm c = Some (d, sm') ∧ shard_ok exact cmax sm' ∧ reads_match (settings c) sm' ∧
    reads_only (stamp now c) k sm sm' ∧ deferred_ok exact cmax sm' d.
Proof.
  intros Hok Hrm Hg. unfold on_hit.
  assert (Hst : ∃ sm1, match tti c with Some _ => '(_, sm) ← (get_mut k (update_last_accessed_coarse now (clock c)) sm : option (entry * shard_map)); Some sm | None => Some sm end = Some sm1 ∧
    shard_ok exact cmax sm1 ∧ reads_only (stamp now c) k sm sm1 ∧ Store.get k sm1 = Some (stamp now c e) ∧
    sm_builtin sm1 = sm_builtin sm ∧ ring sm1 = ring sm ∧ sm_reads sm1 = sm_reads sm).
  { unfold stamp. destruct (tti c).
    - destruct (stamp_spec exact cmax sm k e (clock_now now (clock c)) Hok Hg) as (e0&sm1&E&Hok1&Hro&Hg1&?&?&?).
      exists sm1. change (get_mut k (update_last_accessed_coarse now (clock c)) sm) with (get_mut k (set_accessed (clock_now now (clock c))) sm). rewrite E. done.
    - exists sm. split; [done|]. split; [done|]. split; [apply reads_only_refl|]. done. }
  destruct Hst as (sm1&->&Hok1&Hro1&Hg1&Eb&Er&El). cbn [mbind option_bind].
  assert (Hrm1 : reads_match (settings c) sm1) by (unfold reads_match in *; by rewrite Eb).
  destruct (note_spec exact cmax sm1 k (stamp now c e) (settings c) Hok1 Hg1 Hrm1) as (d&sm2&E&Hok2&Hro2&Hd).
  assert (Hsame : node (stamp now c e) = node e ∧ cost (stamp now c e) = cost e) by (unfold stamp; by destruct (tti c)).
  destruct Hsame as [Hnode Hcost]. rewrite Hnode, Hcost in E. exists d, sm2. split; [exact E|]. split; [done|].
  split; [by apply (reads_match_kind _ sm1); [apply Hro2|]|]. split; [by eapply reads_only_trans|done].
Qed.

(** The lookup of [get], [fetch] and [multiget]. *)
Lemma read_hit_spec exact cmax now k c :
  cache_inv exact cmax c →
  ∃ c', read_hit now k c = Some ((λ e, (k, e)) <$> live now k c, c') ∧ cache_inv exact cmax c' ∧ metrics c' = metrics c ∧
    read_effect now k (bool_decide (is_Some (live now k c))) c c'.
Proof.
  intros Hi. destruct (own_shard _ _ c k Hi) as (s&Es&Hok&Hrm&Hcon). unfold read_hit.
  change (get_shard_index_from_hash (hash_key k) c) with (get_shard k c).
  assert (Hmiss : lookup_hit now k (hash_key k) (map s) c = Some (None, None, map s) → live now k c = None →
    ∃ c', read_hit now k c = Some ((λ e, (k, e)) <$> live now k c, c') ∧ cache_inv exact cmax c' ∧ metrics c' = metrics c ∧
      read_effect now k (bool_decide (is_Some (live now k c))) c c').
  { intros El ->. exists (put_shard (get_shard k c) (map s) c). unfold read_hit.
    erewrite (with_shard_eq _ _ c s (None, None) (map s) Es); [|cbn beta; by rewrite El]. cbn [mbind option_bind apply_deferred_at fst snd fmap option_fmap option_map].
    split; [done|]. split; [by eapply put_inv|]. split; [done|]. eapply put_effect; [done|done|apply reads_only_refl|done]. }
  change (get_shard_index_from_hash (hash_key k) c) with (get_shard k c) in Hmiss.
  unfold lookup_hit in *. unfold live in *. rewrite Hcon in *. unfold Store.get, get_key_value in Hcon, Hmiss |- *.
  destruct (get_key_value_hashed k (hash_key k) (map s)) as [[kk e]|] eqn:Eg; cbn [fmap option_fmap option_map snd] in *; [|by apply Hmiss].
  destruct (is_expired_coarse now (tti c) (clock c) e) eqn:Ex; [by apply Hmiss|]. clear Hmiss.
  assert (kk = k) as ->.
  { unfold get_key_value_hashed in Eg. destruct Hok as [[L HL] _]. pose proof (find_key _ L k (b_table _ _ _ _ (si_body _ _ _ _ HL))) as Hf.
    rewrite Hf in Eg. by destruct (list_to_map L !! k); simplify_eq/=. }
  assert (Hg : Store.get k (map s) = Some e) by (unfold Store.get, get_key_value; by rewrite Eg).
  destruct (on_hit_spec exact cmax now k e (map s) c Hok Hrm Hg) as (d&sm1&Eh&Hok1&Hrm1&Hro1&Hd).
  erewrite (with_shard_eq _ _ c s (Some (k, e), d) sm1 Es); [|cbn beta; rewrite Eg, Ex, Eh; done]. cbn [mbind option_bind fst snd].
  set (c1 := put_shard (get_shard k c) sm1 c).
  assert (Hi1 : cache_inv exact cmax c1) by (by eapply put_inv).
  assert (He1 : read_effect now k true c c1) by (by eapply put_effect).
  rewrite bool_decide_eq_true_2 by (by eexists). destruct d as [d|]; cbn [apply_deferred_at mbind option_bind]; [|by exists c1].
  destruct (deferred_spec exact cmax sm1 d k Hok1 Hd) as (sm2&Ed&Hok2&Hro2).
  assert (Es1 : vget (shards c1) (get_shard k c) = Some (mk_shard sm1 (rng s))) by (unfold c1; by rewrite (vget_put _ _ _ s _ Es), decide_True).
  erewrite (with_shard_eq _ _ c1 _ tt sm2 Es1); [|cbn beta; cbn [map]; rewrite Ed; done]. cbn [mbind option_bind].
  exists (put_shard (get_shard k c) sm2 c1). split; [done|]. split; [|split; [done|]].
  - eapply put_inv; [done|done|done|]. by apply (reads_match_kind _ sm1); [apply Hro2|].
  - eapply effect_trans; [exact He1|]. eapply put_effect; [exact Es1|by unfold c1; rewrite put_get_shard|exact Hro2|done].
Qed.

(** ** Counting the lookup *)

Lemma record_hits_spec me n m : stripes_ok m (hits m) →
  ∃ m', record_hits me n m = Some m' ∧ stripes_ok m' (hits m') ∧ stripe_mask m' = stripe_mask m ∧ misses m' = misses m ∧
    wrapping_sum (hits m') = wrapping_sum (hits m) +w n.
Proof.
  intros Hs. unfold record_hits. destruct (vget_lt (hits m) _ (Hs me)) as [x Hx].
  destruct (vset_spec (hits m) _ (x +w n) x Hx) as (xs&E&Hl&_). unfold sc_fetch_add. rewrite Hx. cbn [mbind option_bind]. rewrite E. cbn [mbind option_bind].
  eexists. split; [done|]. split; [intros me'; unfold with_hits; cbn [stripe_mask hits]; rewrite Hl; apply Hs|]. split; [done|]. split; [done|].
  apply (sc_add_load (Z.land me (stripe_mask m)) n (hits m) x). unfold sc_fetch_add. rewrite Hx. cbn [mbind option_bind]. by rewrite E.
Qed.

Lemma record_misses_spec me n m : stripes_ok m (misses m) →
  ∃ m', record_misses me n m = Some m' ∧ stripes_ok m' (misses m') ∧ stripe_mask m' = stripe_mask m ∧ hits m' = hits m ∧
    wrapping_sum (misses m') = wrapping_sum (misses m) +w n.
Proof.
  intros Hs. unfold record_misses. destruct (vget_lt (misses m) _ (Hs me)) as [x Hx].
  destruct (vset_spec (misses m) _ (x +w n) x Hx) as (xs&E&Hl&_). unfold sc_fetch_add. rewrite Hx. cbn [mbind option_bind]. rewrite E. cbn [mbind option_bind].
  eexists. split; [done|]. split; [intros me'; unfold with_misses; cbn [stripe_mask misses]; rewrite Hl; apply Hs|]. split; [done|]. split; [done|].
  apply (sc_add_load (Z.land me (stripe_mask m)) n (misses m) x). unfold sc_fetch_add. rewrite Hx. cbn [mbind option_bind]. by rewrite E.
Qed.

(** One hit or one miss was counted. *)
Definition counted (hit : bool) (m m' : Metrics) : Prop :=
  wrapping_sum (hits m') = wrapping_sum (hits m) +w (if hit then 1 else 0) ∧
  wrapping_sum (misses m') = wrapping_sum (misses m) +w (if hit then 0 else 1).

Lemma wrapping_sum_0 xs : wrapping_sum xs = wrapping_sum xs +w 0.
Proof. unfold u64_add. rewrite !wrapping_sum_mod, Z.add_0_r, Z.mod_mod; [done|u64_lia]. Qed.

Lemma count_lookup_spec {R} exact cmax me (r : option R) c :
  cache_inv exact cmax c →
  ∃ m, count_lookup me r c = Some (with_metrics m c) ∧ cache_inv exact cmax (with_metrics m c) ∧ counted (bool_decide (is_Some r)) (metrics c) m.
Proof.
  intros [H1 H2 H3 H4]. unfold count_lookup, on_metrics. destruct r.
  - destruct (record_hits_spec me 1 (metrics c) H3) as (m&->&Hh&Hm&Hs&Hw). exists m. split; [done|]. split; [|split; [done|rewrite Hs; apply wrapping_sum_0]].
    split; try done. intros me'. cbn [metrics with_metrics]. rewrite Hs, Hm. apply H4.
  - destruct (record_misses_spec me 1 (metrics c) H4) as (m&->&Hh&Hm&Hs&Hw). exists m. split; [done|]. split; [|split; [rewrite Hs; apply wrapping_sum_0|done]].
    split; try done. intros me'. cbn [metrics with_metrics]. rewrite Hs, Hm. apply H3.
Qed.

(** C7: [get] and [fetch] return, for every policy that meets its contract, what the
    cache holds under the key while the coarse clock lets it live, and [peek] sees the
    same.  A hit moves the time of the last access, with a time to idle; nothing else of the
    content changes, no cost and no other key; one hit or one miss is counted; and the
    invariant is kept, so that reads may follow one another. *)
Theorem cache_reads_content exact cmax now me k c :
  cache_inv exact cmax c →
  let r := value <$> live now k c in
  let hit := bool_decide (is_Some r) in
  peek now k c = Some r ∧
  ∃ c', fetch now me k c = Some (r, c') ∧ get now me k (λ v, v) c = Some (r, c') ∧
    cache_inv exact cmax c' ∧ read_effect now k hit c c' ∧ counted hit (metrics c) (metrics c').
Proof.
  intros Hi r hit. split.
  - destruct (own_shard _ _ c k Hi) as (s&Es&_&_&Hcon). unfold r, live, peek, shard_at. rewrite Es, Hcon. cbn [mbind option_bind].
    destruct (Store.get k (map s)) as [e|]; [|done]. by destruct (is_expired_coarse _ _ _ _).
  - destruct (read_hit_spec exact cmax now k c Hi) as (c1&E&Hi1&Hm&He).
    assert (Hhit : bool_decide (is_Some (live now k c)) = hit) by (unfold hit, r; by destruct (live now k c)). rewrite Hhit in He.
    destruct (count_lookup_spec exact cmax me r c1 Hi1) as (m&Ec&Hi2&Hcnt). exists (with_metrics m c1).
    assert (Hr : (λ ke : K * entry, value ke.2) <$> ((λ e, (k, e)) <$> live now k c) = r) by (unfold r; by destruct (live now k c)).
    split; [|split; [|split; [done|split]]].
    + unfold fetch. rewrite E. cbn [mbind option_bind]. rewrite Hr, Ec. done.
    + unfold get. rewrite E. cbn [mbind option_bind]. rewrite Hr, Ec. done.
    + destruct He. by split.
    + rewrite <- Hm. exact Hcnt.
Qed.
End Read.

(** ** A cache of one LRU shard *)

#[local] Typeclasses Opaque Lru.LruPolicy.
#[local] Existing Instance nat_store_hash.

Definition one_cache : Type := CacheShared nat nat (Lru.LruPolicy nat counter_arena nat) nat counter_arena list_table.

Definition one_shard (sm : ShardMap nat nat (Lru.LruPolicy nat counter_arena nat) nat counter_arena list_table) : one_cache :=
  mk_cache [mk_shard sm 1] 0 (metrics_new 0 1) (Janitor.built true) (mk_settings 100 None (Some 1000) None None false false true R_None)
    [∅] [] (Refresh.queue_new 1) [] [].

Lemma one_shard_inv sm : shard_ok False 100 sm → sm_builtin sm = None → cache_inv False 100 (one_shard sm).
Proof.
  intros Hok Hb. split.
  - intros k. unfold get_shard, shard_index, num_shards. cbn. rewrite Z.land_0_r. lia.
  - apply Forall_singleton. by split.
  - intros me. change (stripe_mask (metrics (one_shard sm))) with 0. rewrite Z.land_0_r. by vm_compute.
  - intros me. change (stripe_mask (metrics (one_shard sm))) with 0. rewrite Z.land_0_r. by vm_compute.
Qed.

Lemma cache_reads_content_witness :
  ∃ c c' : one_cache, cache_inv False 100 c ∧ fetch 5 3 1%nat c = Some (Some 10%nat, c') ∧ cache_inv False 100 c' ∧
    last_accessed <$> content 1%nat c = Some 0 ∧ last_accessed <$> content 1%nat c' = Some 5 ∧ peek 5 2%nat c' = Some None.
Proof.
  destruct (insert_inner_spec False 100 lru_shard [] 0 1%nat (plain 10 60) true) as (old&ev&sm&L&E&Hi&_);
    [done|apply lru_shard_inv|by apply clock_small|by apply plain_fresh|by apply room_small; simpl; lia|].
  change (Store.insert 0 1%nat (plain 10 60) lru_shard = Some (old, sm)) in E.
  assert ((r ← Store.insert 0 1%nat (plain 10 60) lru_shard;
    Some (ring r.2, sm_builtin r.2, last_accessed <$> content 1%nat (one_shard r.2), live 5 1%nat (one_shard r.2))) =
    Some (ring_new, None, Some 0, Some (set_hash 1 (plain 10 60)))) as Eo by (vm_compute; reflexivity).
  rewrite E in Eo. cbn [mbind option_bind snd] in Eo. injection Eo as Er Eb Ea El.
  assert (Hok : shard_ok False 100 sm) by (split; [by exists L|rewrite Er; apply ring_ok_new]).
  pose proof (one_shard_inv sm Hok Eb) as Hc. destruct (cache_reads_content False 100 5 3 1%nat (one_shard sm) Hc) as (_&c'&Ef&_&Hc'&He&_).
  exists (one_shard sm), c'. rewrite El in Ef. split; [done|]. split; [done|]. split; [done|]. split; [done|]. split.
  - rewrite (re_content _ _ _ _ _ He), El, decide_True by done. cbn [fmap option_fmap option_map]. 
    unfold live in El. destruct (content 1%nat (one_shard sm)) as [e|]; [|done]. reflexivity.
  - destruct (cache_reads_content False 100 5 3 2%nat c' Hc') as [-> _]. unfold live. rewrite (re_content _ _ _ _ _ He), decide_False by done.
    assert ((r ← Store.insert 0 1%nat (plain 10 60) lru_shard; Some (bool_decide (is_Some (content 2%nat (one_shard r.2))))) = Some false) as E2 by (vm_compute; reflexivity).
    rewrite E in E2. cbn [mbind option_bind snd] in E2. injection E2 as E2%bool_decide_eq_false. apply eq_None_not_Some in E2. by rewrite E2.
Defined.
