(* ===== verification/WaitQueue.v ===== *)
(** * The intrusive wait list ([channels/src/sync/wait_queue.rs])

    Nodes belong to their waiters; the list holds pointers.  A pointer is an address
    in a heap of nodes, and an operation that follows a pointer to no node is undefined
    behaviour, [None].  [wl_rep] reads the list as a sequence of addresses; the lemmas
    say what each operation does to that sequence. *)

From S2P Require Import Prelude Dll.

Definition WAITING : Z := 0.
Definition WOKEN : Z := 1.

Inductive Waiter := Thread (t : nat) | Task (w : nat).

#[global] Instance Waiter_eq_dec : EqDecision Waiter.
Proof. solve_decision. Defined.

(** Whose wake it is. *)
Definition waiter_of (w : Waiter) : nat := match w with Thread t | Task t => t end.

Record WaiterNode := mk_node {
  prev : option nat; next : option nat; is_writer : bool; linked : bool; waiter : option Waiter; state : Z
}.

Definition new_sync (is_writer : bool) (current : nat) : WaiterNode := mk_node None None is_writer false (Some (Thread current)) WAITING.
Definition new_task (is_writer : bool) (waker : nat) : WaiterNode := mk_node None None is_writer false (Some (Task waker)) WAITING.

Record ListInner := mk_list { head : option nat; tail : option nat; writers : Z; len : Z }.

(** [locked] is the spinlock around the list. *)
Record WaitList := mk_wait_list { locked : bool; inner : ListInner }.

Definition wait_list_new : WaitList := mk_wait_list false (mk_list None None 0 0).

Notation heap := (gmap nat WaiterNode).
Implicit Types (h : heap) (l : ListInner) (n : WaiterNode) (p q node : nat).

(** ** Operations *)

Definition set_prev v n : WaiterNode := mk_node v (next n) (is_writer n) (linked n) (waiter n) (state n).
Definition set_next v n : WaiterNode := mk_node (prev n) v (is_writer n) (linked n) (waiter n) (state n).
Definition set_linked b n : WaiterNode := mk_node (prev n) (next n) (is_writer n) b (waiter n) (state n).
Definition set_waiter w st n : WaiterNode := mk_node (prev n) (next n) (is_writer n) (linked n) w st.

(** [( *p).field = v]. *)
Definition write (f : WaiterNode → WaiterNode) p h : option heap :=
  n ← h !! p; Some (<[p:=f n]> h).

Definition is_empty l : bool := len l =? 0.
Definition queued_writers l : Z := writers l.

Definition link_back node h l : option (heap * ListInner) :=
  h ← write (λ n, set_linked true (set_next None (set_prev (tail l) n))) node h;
  '(h, hd) ← match tail l with
             | None => Some (h, Some node)
             | Some t => h ← write (set_next (Some node)) t h; Some (h, head l)
             end;
  n ← h !! node;
  Some (h, mk_list hd (Some node) (if is_writer n then writers l +w 1 else writers l) (len l +w 1)).

Definition unlink node h l : option (bool * heap * ListInner) :=
  n ← h !! node;
  if negb (linked n) then Some (false, h, l)
  else
    '(h, hd) ← match prev n with
               | None => Some (h, next n)
               | Some p => h ← write (set_next (next n)) p h; Some (h, head l)
               end;
    '(h, tl) ← match next n with
               | None => Some (h, prev n)
               | Some q => h ← write (set_prev (prev n)) q h; Some (h, tail l)
               end;
    h ← write (λ n, set_linked false (set_next None (set_prev None n))) node h;
    Some (true, h, mk_list hd tl (if is_writer n then writers l -w 1 else writers l) (len l -w 1)).

Definition is_linked node h : option bool := linked <$> h !! node.
Definition next_of node h : option (option nat) := next <$> h !! node.
Definition rearm node (w : Waiter) h : option heap := write (set_waiter (Some w) WAITING) node h.
Definition take_and_mark_woken node h : option (option Waiter * heap) :=
  n ← h !! node; Some (waiter n, <[node:=set_waiter None WOKEN n]> h).

(** The walk along [next]; the list has no more nodes than the heap, so its size bounds it. *)
Fixpoint first_writer_from (fuel : nat) (cur : option nat) h : option (option nat) :=
  match cur, fuel with
  | None, _ => Some None
  | Some p, O => None
  | Some p, S fuel => n ← h !! p; if is_writer n then Some (Some p) else first_writer_from fuel (next n) h
  end.
Definition first_writer h l : option (option nat) := first_writer_from (size h) (head l) h.

(** ** The list a wait list holds *)

Definition links h : nat → option (option nat * option nat) := λ p, (λ n, (prev n, next n)) <$> h !! p.

Definition is_writer_at h p : bool := match h !! p with Some n => is_writer n | None => false end.

Record wl_rep h l (xs : list nat) : Prop := {
  wr_dll : dll (links h) (head l) (tail l) xs;
  wr_linked p n : h !! p = Some n → linked n = bool_decide (p ∈ xs);
  wr_len : len l = Z.of_nat (length xs);
  wr_writers : writers l = Z.of_nat (length (filter (λ p, is_writer_at h p = true) xs));
  wr_small : Z.of_nat (length xs) < U64;
}.

(** What the list operations leave alone. *)
Definition payload n : bool * option Waiter * Z := (is_writer n, waiter n, state n).
Definition same_payload h h' : Prop := ∀ p, payload <$> h !! p = payload <$> h' !! p.

#[export] Instance same_payload_equiv : Equivalence same_payload.
Proof. split; [done|by intros ?? H p; rewrite H|intros ??? H1 H2 p; by rewrite H1]. Qed.

Lemma write_spec f p h n : h !! p = Some n → write f p h = Some (<[p:=f n]> h).
Proof. unfold write. by intros ->. Qed.

Lemma write_payload f p h h' : (∀ n, payload (f n) = payload n) → write f p h = Some h' → same_payload h h'.
Proof.
  intros Hf (n&Hn&[= <-])%bind_Some q. destruct (decide (q = p)) as [->|].
  - by rewrite lookup_insert_eq, Hn; simpl; rewrite Hf.
  - by rewrite lookup_insert_ne.
Qed.

Lemma same_payload_writer h h' p : same_payload h h' → is_writer_at h' p = is_writer_at h p.
Proof. intros H. specialize (H p). unfold is_writer_at. unfold payload in H. destruct (h !! p), (h' !! p); simpl in H; congruence. Qed.

Lemma same_payload_some h h' p n : same_payload h h' → h !! p = Some n → ∃ n', h' !! p = Some n' ∧ payload n' = payload n.
Proof. intros H Hn. specialize (H p). rewrite Hn in H. destruct (h' !! p) as [n'|]; cbn in H; [|done]. exists n'. split; [done|]. congruence. Qed.

Lemma links_insert h p n q : links (<[p:=n]> h) q = if decide (q = p) then Some (prev n, next n) else links h q.
Proof. unfold links. case_decide; subst; [by rewrite lookup_insert_eq|by rewrite lookup_insert_ne]. Qed.

Lemma writers_payload h h' (xs : list nat) : same_payload h h' → filter (λ p, is_writer_at h' p = true) xs = filter (λ p, is_writer_at h p = true) xs.
Proof. intros H. apply list_filter_iff. intros p. by rewrite (same_payload_writer h h'). Qed.

Lemma dll_push_back {I} `{EqDecision I} (lk lk' : I → option (option I * option I)) hd tl ids i :
  dll lk hd tl ids → i ∉ ids → lk' i = Some (tl, None) → (∀ j, j ∈ ids → lk' j = relink_next tl (Some i) lk j) →
  dll lk' (match tl with Some _ => hd | None => Some i end) (Some i) (ids ++ [i]).
Proof.
  intros (Hnd&->&->&Hs) Hi Hlk Hext. split; [|split; [|split]].
  - apply NoDup_app. split; [done|]. split; [|apply NoDup_singleton]. intros j Hj ->%list_elem_of_singleton. done.
  - destruct ids as [|j ids]; [done|]. simpl. destruct (last (j :: ids)) eqn:E; [done|]. by apply last_None in E.
  - by rewrite last_snoc.
  - apply dseg_app. split.
    + simpl. eapply dseg_ext; [exact Hext|]. by eapply dseg_relink_next.
    + simpl. by rewrite last_or_None.
Qed.

(** ** What the operations do to the list *)

Lemma wl_rep_lookup h l xs p : wl_rep h l xs → p ∈ xs → ∃ n, h !! p = Some n ∧ linked n = true.
Proof.
  intros [(_&_&_&Hs) Hl _ _ _] Hp. destruct (dseg_live _ _ _ _ p Hs Hp) as [x Hx]. unfold links in Hx.
  destruct (h !! p) as [n|] eqn:E; [|done]. exists n. split; [done|]. rewrite (Hl p n E). by apply bool_decide_eq_true.
Qed.

Lemma link_back_spec h l xs node n :
  wl_rep h l xs → h !! node = Some n → node ∉ xs → Z.of_nat (length xs) + 1 < U64 →
  ∃ h' l', link_back node h l = Some (h', l') ∧ wl_rep h' l' (xs ++ [node]) ∧ same_payload h h'.
Proof.
  intros Hr Hn Hx Hlen. destruct Hr as [Hd Hl Elen Ewr _].
  set (n1 := set_linked true (set_next None (set_prev (tail l) n))). set (h1 := <[node:=n1]> h).
  assert (E1 : write (λ n, set_linked true (set_next None (set_prev (tail l) n))) node h = Some h1) by exact (write_spec _ node h n Hn).
  assert (P1 : same_payload h h1) by (by apply (write_payload (λ n, set_linked true (set_next None (set_prev (tail l) n))) node)).
  assert (Htl : match tail l with Some t => t ∈ xs ∧ t ≠ node ∧ ∃ m, h1 !! t = Some m | None => xs = [] end).
  { destruct (tail l) as [t|] eqn:Et; [|by eapply dll_tl_None]. destruct (dll_tl_snoc _ _ _ _ t Hd eq_refl) as [ys ->].
    assert (t ≠ node) by set_solver. split; [set_solver|]. split; [done|]. unfold h1. rewrite lookup_insert_ne by done.
    destruct Hd as (_&_&_&Hs). destruct (dseg_live _ _ _ _ t Hs ltac:(set_solver)) as [x Hx']. unfold links in Hx'. destruct (h !! t); [by eexists|done]. }
  set (h2 := match tail l with None => h1 | Some t => match h1 !! t with Some m => <[t:=set_next (Some node) m]> h1 | None => h1 end end).
  set (hd := match tail l with None => Some node | Some _ => head l end).
  assert (E2 : match tail l with None => Some (h1, Some node) | Some t => h ← write (set_next (Some node)) t h1; Some (h, head l) end = Some (h2, hd)).
  { unfold h2, hd. destruct (tail l) as [t|]; [|done]. destruct Htl as (_&_&m&Hm). by rewrite (write_spec _ _ _ m Hm), Hm. }
  assert (P2 : same_payload h h2).
  { rewrite P1. unfold h2. destruct (tail l) as [t|]; [|done]. destruct Htl as (_&_&m&Hm). rewrite Hm.
    by apply (write_payload (set_next (Some node)) t); [|by apply write_spec]. }
  assert (Hn2 : h2 !! node = Some n1).
  { unfold h2. destruct (tail l) as [t|]; [|by apply lookup_insert_eq]. destruct Htl as (_&Hne&m&Hm). rewrite Hm, lookup_insert_ne by done. by apply lookup_insert_eq. }
  exists h2, (mk_list hd (Some node) (if is_writer n1 then writers l +w 1 else writers l) (len l +w 1)).
  split; [unfold link_back; rewrite E1; cbn [mbind option_bind]; rewrite E2; cbn [mbind option_bind]; by rewrite Hn2|].
  split; [|done]. split.
  - apply (dll_push_back (links h)); [done|done|unfold links; by rewrite Hn2|].
    intros j Hj. assert (j ≠ node) by (by intros ->). unfold h2, relink_next.
    destruct (tail l) as [t|]; [destruct Htl as (_&Hne&m&Hm); rewrite Hm, links_insert|].
    + unfold h1 in Hm. rewrite lookup_insert_ne in Hm by done. unfold h1. rewrite !links_insert. destruct (decide (j = t)) as [->|]; simpl.
      * rewrite decide_True by done. unfold links. by rewrite Hm.
      * by rewrite !decide_False by congruence.
    + unfold h1. rewrite links_insert, decide_False by done. by rewrite decide_False.
  - intros p m Hp. unfold h2 in Hp. assert (Hnode : p = node → linked m = true).
    { intros ->. fold h2 in Hp. rewrite Hn2 in Hp. by injection Hp as <-. }
    destruct (decide (p = node)) as [->|Hne]; [rewrite Hnode by done; symmetry; apply bool_decide_eq_true; set_solver|].
    assert (Hm : ∃ m0, h !! p = Some m0 ∧ linked m = linked m0).
    { destruct (tail l) as [t|]; [destruct Htl as (_&_&mt&Hmt); rewrite Hmt in Hp|].
      - destruct (decide (p = t)) as [->|]; [rewrite lookup_insert_eq in Hp; injection Hp as <-; exists mt; split; [|done]|rewrite lookup_insert_ne in Hp by done; exists m; split; [|done]].
        all: unfold h1 in *; by rewrite lookup_insert_ne in * by done.
      - unfold h1 in Hp. rewrite lookup_insert_ne in Hp by done. by exists m. }
    destruct Hm as (m0&Hm0&->). rewrite (Hl p m0 Hm0). apply bool_decide_ext. set_solver.
  - simpl. rewrite Elen, length_app, u64_add_small by lia. simpl. lia.
  - simpl. rewrite (writers_payload h h2) by done. rewrite filter_app, length_app, filter_cons, filter_nil.
    assert (Ew : is_writer_at h node = is_writer n) by (unfold is_writer_at; by rewrite Hn).
    assert (length (filter (λ p, is_writer_at h p = true) xs) ≤ length xs)%nat by apply length_filter.
    rewrite Ew, Ewr. destruct (is_writer n); simpl; [rewrite u64_add_small by lia|]; lia.
  - rewrite length_app. simpl. lia.
Qed.

Lemma unlink_free h l xs node n : wl_rep h l xs → h !! node = Some n → node ∉ xs → unlink node h l = Some (false, h, l).
Proof.
  intros Hr Hn Hx. unfold unlink. rewrite Hn. cbn [mbind option_bind].
  by rewrite (wr_linked _ _ _ Hr node n Hn), bool_decide_eq_false_2 by done.
Qed.

(** The heap after the node between [l1] and [l2] was taken out. *)
Lemma unlink_heap h pv nx node n :
  h !! node = Some n → prev n = pv → next n = nx → pv ≠ Some node → nx ≠ Some node →
  (∀ p, pv = Some p → is_Some (h !! p)) → (∀ q, nx = Some q → is_Some (h !! q)) →
  ∃ h1 h2 h3,
    (∀ (hd : option nat), match pv with None => Some (h, nx) | Some p => h ← write (set_next nx) p h; Some (h, hd) end
      = Some (h1, match pv with None => nx | Some _ => hd end)) ∧
    (∀ (tl : option nat), match nx with None => Some (h1, pv) | Some q => h ← write (set_prev pv) q h1; Some (h, tl) end
      = Some (h2, match nx with None => pv | Some _ => tl end)) ∧
    write (λ n, set_linked false (set_next None (set_prev None n))) node h2 = Some h3 ∧
    same_payload h h3 ∧ (∀ p m, h3 !! p = Some m → ∃ m0, h !! p = Some m0 ∧ linked m = if decide (p = node) then false else linked m0) ∧
    (∀ j, j ≠ node → links h3 j = relink_prev nx pv (relink_next pv nx (links h)) j).
Proof.
  intros Hn Ep En Hpn Hnn Hp Hq.
  set (h1 := match pv with None => h | Some p => match h !! p with Some m => <[p:=set_next nx m]> h | None => h end end).
  set (h2 := match nx with None => h1 | Some q => match h1 !! q with Some m => <[q:=set_prev pv m]> h1 | None => h1 end end).
  assert (E1 : ∀ hd, match pv with None => Some (h, nx) | Some p => h ← write (set_next nx) p h; Some (h, hd) end
      = Some (h1, match pv with None => nx | Some _ => hd end)).
  { intros hd. unfold h1. destruct pv as [p|]; [|done]. destruct (Hp p eq_refl) as [m Hm]. by rewrite (write_spec _ _ _ m Hm), Hm. }
  assert (P1 : same_payload h h1).
  { unfold h1. destruct pv as [p|]; [|done]. destruct (Hp p eq_refl) as [m Hm]. rewrite Hm. by apply (write_payload (set_next nx) p); [|by apply write_spec]. }
  assert (Hs1 : ∀ q, nx = Some q → is_Some (h1 !! q)).
  { intros q Eq. destruct (Hq q Eq) as [m Hm]. destruct (same_payload_some h h1 q m P1 Hm) as (m'&?&_). by exists m'. }
  assert (E2 : ∀ tl, match nx with None => Some (h1, pv) | Some q => h ← write (set_prev pv) q h1; Some (h, tl) end
      = Some (h2, match nx with None => pv | Some _ => tl end)).
  { intros tl. unfold h2. destruct nx as [q|]; [|done]. destruct (Hs1 q eq_refl) as [m Hm]. by rewrite (write_spec _ _ _ m Hm), Hm. }
  assert (P2 : same_payload h h2).
  { rewrite P1. unfold h2. destruct nx as [q|]; [|done]. destruct (Hs1 q eq_refl) as [m Hm]. rewrite Hm. by apply (write_payload (set_prev pv) q); [|by apply write_spec]. }
  destruct (same_payload_some h h2 node n P2 Hn) as (n2&Hn2&_).
  exists h1, h2, (<[node:=set_linked false (set_next None (set_prev None n2))]> h2).
  split; [exact E1|]. split; [exact E2|]. split; [exact (write_spec _ node h2 n2 Hn2)|].
  split; [rewrite P2; by apply (write_payload (λ n, set_linked false (set_next None (set_prev None n))) node); [|by apply (write_spec (λ n, set_linked false (set_next None (set_prev None n))))]|].
  assert (L1 : ∀ p m, h1 !! p = Some m → ∃ m0, h !! p = Some m0 ∧ linked m = linked m0).
  { intros p m. unfold h1. destruct pv as [p'|]; [|by eauto]. destruct (Hp p' eq_refl) as [m' Hm']. rewrite Hm'.
    intros [[<- <-]|[? ?]]%lookup_insert_Some; eauto. }
  assert (L2 : ∀ p m, h2 !! p = Some m → ∃ m0, h !! p = Some m0 ∧ linked m = linked m0).
  { intros p m. unfold h2. destruct nx as [q|]; [|by apply L1]. destruct (Hs1 q eq_refl) as [m' Hm']. rewrite Hm'.
    intros [[<- <-]|[? ?]]%lookup_insert_Some; [by destruct (L1 q m' Hm') as (m0&?&?); eauto|by apply L1]. }
  split.
  - intros p m [[<- <-]|[Hne Hm]]%lookup_insert_Some; [exists n; split; [done|]; by rewrite decide_True|].
    destruct (L2 p m Hm) as (m0&?&->). exists m0. split; [done|]. by rewrite decide_False by congruence.
  - intros j Hj. rewrite links_insert, decide_False by done. unfold h2, relink_prev, relink_next.
    assert (K1 : links h1 j = if decide (Some j = pv) then (λ pn, (pn.1, nx)) <$> links h j else links h j).
    { unfold h1. destruct pv as [p|]; [|by rewrite decide_False]. destruct (Hp p eq_refl) as [m Hm]. rewrite Hm, links_insert.
      destruct (decide (j = p)) as [->|]; [|by rewrite decide_False by congruence]. rewrite decide_True by done. unfold links. by rewrite Hm. }
    destruct nx as [q|]; [|by rewrite decide_False, K1 by done]. destruct (Hs1 q eq_refl) as [m Hm]. rewrite Hm, links_insert.
    destruct (decide (j = q)) as [->|]; [|by rewrite (decide_False (P:=Some j = Some q)), K1 by congruence].
    rewrite (decide_True (P:=Some q = Some q)) by done. rewrite <- K1. unfold links. by rewrite Hm.
Qed.

Lemma wl_unlink_spec h l xs node n :
  wl_rep h l xs → h !! node = Some n → node ∈ xs →
  ∃ h' l', unlink node h l = Some (true, h', l') ∧ wl_rep h' l' (filter (λ p, p ≠ node) xs) ∧ same_payload h h'.
Proof.
  intros Hr Hn Hx. destruct Hr as [Hd Hl Elen Ewr Hsm]. apply list_elem_of_split in Hx as (l1&l2&->).
  pose proof (dll_node _ _ _ _ _ _ Hd) as Hln. unfold links in Hln. rewrite Hn in Hln. injection Hln as Ep En.
  pose proof Hd as (Hnd&_&_&Hs). apply NoDup_app in Hnd as (Hnd1&Hdis&[Hn2 Hnd2]%NoDup_cons).
  assert (Hlive : ∀ p, p ∈ l1 ++ node :: l2 → is_Some (h !! p)).
  { intros p Hp. destruct (dseg_live _ _ _ _ p Hs Hp) as [x Hxp]. unfold links in Hxp. by destruct (h !! p). }
  assert (Hpm : ∀ p, last l1 = Some p → p ∈ l1) by (intros p Hp; by apply last_Some_elem_of).
  assert (Hqm : ∀ q, hd_error l2 = Some q → q ∈ l2) by (intros q Hq; destruct l2; [done|injection Hq as ->; by left]).
  destruct (unlink_heap h (last l1) (hd_error l2) node n Hn Ep En) as (h1&h2&h3&E1&E2&E3&P3&L3&K3).
  { intros Hp%Hpm. apply (Hdis node Hp). by left. }
  { intros Hq%Hqm. done. }
  { intros p Hp%Hpm. apply Hlive. set_solver. }
  { intros q Hq%Hqm. apply Hlive. set_solver. }
  assert (Ef : filter (λ p, p ≠ node) (l1 ++ node :: l2) = l1 ++ l2).
  { rewrite filter_app, filter_cons_False, !filter_notin; [done|done| |by intros []]. intros Hp. apply (Hdis node Hp). by left. }
  exists h3. eexists. split; [unfold unlink; rewrite Hn; cbn [mbind option_bind]; rewrite (Hl node n Hn), bool_decide_eq_true_2 by set_solver;
    cbn [negb]; rewrite Ep, En, E1; cbn [mbind option_bind]; rewrite E2; cbn [mbind option_bind]; rewrite E3; reflexivity|].
  split; [|done]. rewrite Ef. split.
  - apply (dll_unlink (links h) _ _ _ l1 node l2); [done|]. intros j Hj. apply K3. intros ->. apply elem_of_app in Hj as [Hj|Hj]; [|done].
    apply (Hdis node Hj). by left.
  - intros p m Hm. destruct (L3 p m Hm) as (m0&Hm0&->). case_decide as Ed; subst.
    + symmetry. apply bool_decide_eq_false. intros [Hj|Hj]%elem_of_app; [|done]. apply (Hdis node Hj). by left.
    + rewrite (Hl p m0 Hm0). apply bool_decide_ext. set_solver.
  - simpl. rewrite Elen, !length_app in *. simpl in *. rewrite u64_sub_small by lia. lia.
  - simpl. rewrite (writers_payload h h3) by done. rewrite Ewr, !filter_app, filter_cons.
    assert (Ew : is_writer_at h node = is_writer n) by (unfold is_writer_at; by rewrite Hn).
    pose proof (length_filter (λ p, is_writer_at h p = true) l1). pose proof (length_filter (λ p, is_writer_at h p = true) l2).
    rewrite !length_app in *. simpl in Hsm. rewrite Ew. destruct (is_writer n); simpl; [rewrite u64_sub_small by lia|]; lia.
  - rewrite !length_app in *. simpl in Hsm. lia.
Qed.

Lemma wl_rep_head h l xs : wl_rep h l xs → head l = hd_error xs.
Proof. by intros [(_&->&_) _ _ _ _]. Qed.

Lemma wl_rep_is_empty h l xs : wl_rep h l xs → is_empty l = bool_decide (xs = []).
Proof. intros [_ _ E _ _]. unfold is_empty. rewrite E. by destruct xs. Qed.

(** Another node in place of one with the same links, or of one not in the list. *)
Lemma wl_rep_insert h l xs p n :
  wl_rep h l xs → linked n = bool_decide (p ∈ xs) →
  (p ∈ xs → ∃ m, h !! p = Some m ∧ prev n = prev m ∧ next n = next m ∧ is_writer n = is_writer m) → wl_rep (<[p:=n]> h) l xs.
Proof.
  intros [Hd Hl E1 E2 Hs] Hb Hin. assert (Hw : ∀ q, q ∈ xs → is_writer_at (<[p:=n]> h) q = is_writer_at h q).
  { intros q Hq. unfold is_writer_at. destruct (decide (q = p)) as [->|]; [|by rewrite lookup_insert_ne].
    destruct (Hin Hq) as (m&Hm&_&_&E). by rewrite lookup_insert_eq, Hm. }
  split; [|intros q m [[<- <-]|[? ?]]%lookup_insert_Some; eauto|done| |done].
  - eapply dll_ext; [|done]. intros q Hq. rewrite links_insert. destruct (decide (q = p)) as [->|]; [|done].
    destruct (Hin Hq) as (m&Hm&->&->&_). unfold links. by rewrite Hm.
  - rewrite E2. do 2 f_equal. clear -Hw. induction xs as [|q xs IH]; [done|]. rewrite !filter_cons, Hw by (by left).
    rewrite IH by (intros; apply Hw; by right). done.
Qed.

Lemma wl_rep_delete h l xs p : wl_rep h l xs → p ∉ xs → wl_rep (delete p h) l xs.
Proof.
  intros [Hd Hl E1 E2 Hs] Hp. assert (Hk : ∀ q, q ∈ xs → delete p h !! q = h !! q) by (intros q Hq; apply lookup_delete_ne; set_solver).
  split; [|by intros q m [? ?]%lookup_delete_Some; eauto|done| |done].
  - eapply dll_ext; [|done]. intros q Hq. unfold links. by rewrite Hk.
  - rewrite E2. do 2 f_equal. clear -Hk. unfold is_writer_at. induction xs as [|q xs IH]; [done|]. rewrite !filter_cons, Hk by (by left).
    rewrite IH by (intros; apply Hk; by right). done.
Qed.

Lemma wl_rearm_spec h l xs node n w :
  wl_rep h l xs → h !! node = Some n →
  ∃ h', rearm node w h = Some h' ∧ h' = <[node:=set_waiter (Some w) WAITING n]> h ∧ wl_rep h' l xs.
Proof.
  intros Hr Hn. eexists. split; [exact (write_spec _ node h n Hn)|]. split; [done|].
  apply wl_rep_insert; [done|apply (wr_linked _ _ _ Hr node n Hn)|]. intros _. by exists n.
Qed.

Lemma take_and_mark_woken_spec h l xs node n :
  wl_rep h l xs → h !! node = Some n →
  ∃ h', take_and_mark_woken node h = Some (waiter n, h') ∧ h' = <[node:=set_waiter None WOKEN n]> h ∧ wl_rep h' l xs.
Proof.
  intros Hr Hn. unfold take_and_mark_woken. rewrite Hn. eexists. split; [done|]. split; [done|].
  apply wl_rep_insert; [done|apply (wr_linked _ _ _ Hr node n Hn)|]. intros _. by exists n.
Qed.

(** The first writer in list order. *)
Lemma first_writer_spec h l xs : wl_rep h l xs → first_writer h l = Some (hd_error (filter (λ p, is_writer_at h p = true) xs)).
Proof.
  intros Hr. unfold first_writer. rewrite (wl_rep_head _ _ _ Hr). destruct Hr as [(Hnd&_&_&Hs) _ _ _ _].
  assert (Hlen : (length xs ≤ size h)%nat).
  { rewrite <- size_dom, <- (size_list_to_set (C:=gset nat) xs) by done. apply subseteq_size. intros p Hp%elem_of_list_to_set.
    apply elem_of_dom. destruct (dseg_live _ _ _ _ p Hs Hp) as [x Hx]. unfold links in Hx. by destruct (h !! p). }
  clear Hnd. revert Hs Hlen. generalize (size h) as fuel, (@None nat) at 1 as pv. induction xs as [|p xs IH]; intros fuel pv Hs Hf; [by destruct fuel|].
  destruct fuel as [|fuel]; [simpl in Hf; lia|]. destruct Hs as [Hp Hs]. unfold links in Hp. destruct (h !! p) as [n|] eqn:En; [|done].
  injection Hp as _ Hnx. cbn [first_writer_from hd_error]. rewrite En. cbn [mbind option_bind].
  assert (Ew : is_writer_at h p = is_writer n) by (unfold is_writer_at; by rewrite En). rewrite filter_cons, Ew.
  destruct (is_writer n); [done|]. rewrite Hnx, first_or_None. apply (IH fuel (Some p)); [done|simpl in Hf; lia].
Qed.
