(* ===== verification/Mutex.v ===== *)
(** * The hybrid mutex ([channels/src/sync/mutex.rs])

    Threads ([lock], [try_lock]) and tasks ([lock_async]) contend for one word.  A
    waiter that loses spins, then links a node in the wait list, sets [HAS_QUEUED], looks
    at the word again and sleeps; [unlock] clears [LOCKED] first and then wakes the head
    of the list, which contends again.  [caller_step] is one atomic access of a caller,
    together with accesses to data the spinlock of the list protects; [mutex_step]
    interleaves any number of callers.  The node of a caller is at its own index
    in the heap. *)

From stdpp Require Import relations.
From S2P Require Import Prelude Threads WaitQueue.
From S2P Require Dll.

Definition LOCKED : Z := 1.
Definition HAS_QUEUED : Z := Z.shiftl 1 1.
Definition SPIN_YIELDS : nat := 100.
Definition POLL_ATTEMPTS : nat := 4.

(** The word and the wait list. *)
Record HybridMutex := mk_mutex { word : Z; waiters : WaitList }.

Definition mutex_new : HybridMutex := mk_mutex 0 wait_list_new.

(** [!x] on a [usize]. *)
Definition unot (x : Z) : Z := u64_max - x.

Implicit Types (m : HybridMutex) (h : heap) (ts : gset nat) (k j : nat) (xs : list nat).

Definition with_word s m : HybridMutex := mk_mutex s (waiters m).
Definition with_list b l m : HybridMutex := mk_mutex (word m) (mk_wait_list b l).
Definition release m : HybridMutex := with_list false (inner (waiters m)) m.
Definition locked_by m : bool := negb (Z.land (word m) LOCKED =? 0).
Definition queued m : bool := negb (Z.land (word m) HAS_QUEUED =? 0).

(** Who called [try_acquire]: [try_lock], the fast paths of [lock] and [lock_async], a
    turn of the spin loop ([linked]: the node is in the list), an attempt of [poll]
    ([node]: the future has a node). *)
Inductive Attempt := T_try | T_lock | T_async | T_spin (left : nat) (linked : bool) | T_poll (left : nat) (node : bool).

Inductive Kind := Sync | Async.

Inductive Caller :=
  | Idle
  | Try (a : Attempt) | Try_cas (a : Attempt) (s : Z)
  | Q_lock (c : Kind) (linked : bool) | Q_flag (c : Kind) | Q_load (c : Kind) | Q_cas (c : Kind) (s : Z)
  | Fin_lock (c : Kind) | Q_fix (c : Kind)
  | W_wait | W_park
  | A_pending | D_lock | D_fix | D_state
  | Held | U_and | U_lock | U_fix | U_wake (w : Waiter).

Implicit Types (p q : Caller) (ps : list Caller) (a : Attempt) (c : Kind).

(** After [try_acquire]: [linked] nodes are unlinked first; a node that was never linked dies with its frame. *)
Definition try_ok k a h : Caller * heap :=
  match a with
  | T_try | T_lock | T_async => (Held, h)
  | T_spin _ linked => if linked then (Fin_lock Sync, h) else (Held, delete k h)
  | T_poll _ node => if node then (Fin_lock Async, h) else (Held, h)
  end.

Definition try_fail k a h : Caller * heap :=
  match a with
  | T_try => (Idle, h)
  | T_lock => (Try (T_spin SPIN_YIELDS false), <[k:=new_sync true k]> h)
  | T_async => (Try (T_poll POLL_ATTEMPTS false), h)
  | T_spin (S (S n)) linked => (Try (T_spin (S n) linked), h)
  | T_spin _ linked => (Q_lock Sync linked, h)
  | T_poll (S (S n)) node => (Try (T_poll (S n) node), h)
  | T_poll _ node => (Q_lock Async node, h)
  end.

Definition fix_flags m : HybridMutex :=
  with_word (if is_empty (inner (waiters m)) then Z.land (word m) (unot HAS_QUEUED) else Z.lor (word m) HAS_QUEUED) m.

Notation step_result := (option (Caller * HybridMutex * heap * gset nat)).

Definition try_step k p m h ts : step_result :=
  match p with
  | Try a =>
      if Z.land (word m) LOCKED =? 0 then Some (Try_cas a (word m), m, h, ts)
      else let '(p, h) := try_fail k a h in Some (p, m, h, ts)
  | Try_cas a s =>
      if word m =? s then let '(p, h) := try_ok k a h in Some (p, with_word (Z.lor s LOCKED) m, h, ts)
      else let '(p, h) := try_fail k a h in Some (p, m, h, ts)
  | _ => None
  end.

(** The future's node is allocated before the list is locked. *)
Definition queue_node k c (linked : bool) h : heap :=
  match c with Async => if linked then h else <[k:=new_task true k]> h | Sync => h end.

Definition handle c k : Waiter := match c with Sync => Thread k | Async => Task k end.

(** The list is locked from [Q_lock] on. *)
Definition queue_step k p m h ts : step_result :=
  match p with
  | Q_lock c linked =>
      if locked (waiters m) then None
      else
        h ← rearm k (handle c k) (queue_node k c linked h);
        already ← match c with Sync => Some linked | Async => is_linked k h end;
        '(h, l) ← (if (already : bool) then Some (h, inner (waiters m)) else link_back k h (inner (waiters m)));
        Some (Q_flag c, with_list true l m, h, ts)
  | Q_flag c => Some (Q_load c, with_word (Z.lor (word m) HAS_QUEUED) m, h, ts)
  | Q_load c =>
      if Z.land (word m) LOCKED =? 0 then Some (Q_cas c (word m), m, h, ts)
      else Some (match c with Sync => W_wait | Async => A_pending end, release m, h, ts)
  | Q_cas c s =>
      if word m =? s then
        '(_, h, l) ← unlink k h (inner (waiters m));
        Some (Q_fix c, with_list true l (with_word (Z.lor s LOCKED) m), h, ts)
      else Some (Q_load c, m, h, ts)
  | Fin_lock c =>
      if locked (waiters m) then None
      else
        '(was, h, l) ← unlink k h (inner (waiters m));
        match c, was with
        | Async, false => Some (Held, with_list false l m, delete k h, ts)
        | _, _ => Some (Q_fix c, with_list true l m, h, ts)
        end
  | Q_fix c => Some (Held, release (fix_flags m), delete k h, ts)
  | _ => None
  end.

Definition wait_step k p m h ts : step_result :=
  match p with
  | W_wait => n ← h !! k; Some (if state n =? WAITING then W_park else Try (T_spin SPIN_YIELDS true), m, h, ts)
  | W_park => if decide (k ∈ ts) then Some (W_wait, m, h, ts ∖ {[k]}) else None
  | A_pending => if decide (k ∈ ts) then Some (Try (T_poll POLL_ATTEMPTS true), m, h, ts ∖ {[k]}) else None
  | _ => None
  end.

(** A dropped future that was woken passes the wake on. *)
Definition drop_step k p m h ts : step_result :=
  match p with
  | D_lock =>
      if locked (waiters m) then None
      else '(was, h, l) ← unlink k h (inner (waiters m)); Some (if (was : bool) then D_fix else D_state, with_list was l m, h, ts)
  | D_fix => Some (D_state, release (fix_flags m), h, ts)
  | D_state => n ← h !! k; Some (if state n =? WOKEN then U_lock else Idle, m, delete k h, ts)
  | _ => None
  end.

Definition unlock_step k p m h ts : step_result :=
  match p with
  | Held => Some (U_and, m, h, ts)
  | U_and => Some (if queued m then U_lock else Idle, with_word (Z.land (word m) (unot LOCKED)) m, h, ts)
  | U_lock =>
      if locked (waiters m) then None
      else match head (inner (waiters m)) with
           | None => Some (U_fix, with_list true (inner (waiters m)) m, h, ts)
           | Some hd =>
               '(w, h) ← take_and_mark_woken hd h;
               Some (match w with Some w => U_wake w | None => Idle end, m, h, ts)
           end
  | U_fix => Some (Idle, release (fix_flags m), h, ts)
  | U_wake w => Some (Idle, m, h, {[waiter_of w]} ∪ ts)
  | _ => None
  end.

Definition caller_step k p m h ts : step_result :=
  match p with
  | Idle => None
  | Try _ | Try_cas _ _ => try_step k p m h ts
  | Q_lock _ _ | Q_flag _ | Q_load _ | Q_cas _ _ | Fin_lock _ | Q_fix _ => queue_step k p m h ts
  | W_wait | W_park | A_pending => wait_step k p m h ts
  | D_lock | D_fix | D_state => drop_step k p m h ts
  | Held | U_and | U_lock | U_fix | U_wake _ => unlock_step k p m h ts
  end.

Definition system : Type := list Caller * HybridMutex * heap * gset nat.

(** What a caller may also do: call [lock], [try_lock] or [lock_async]; wake for no reason; drop a
    future that waits. *)
Definition caller_may p q : Prop :=
  (p, q) ∈ [(Idle, Try T_try); (Idle, Try T_lock); (Idle, Try T_async);
            (W_park, W_wait); (A_pending, Try (T_poll POLL_ATTEMPTS true)); (A_pending, D_lock)].

Inductive mutex_step : system → system → Prop :=
  | mutex_step_caller ps m h ts k p p' m' h' ts' :
      ps !! k = Some p → caller_step k p m h ts = Some (p', m', h', ts') → mutex_step (ps, m, h, ts) (<[k:=p']> ps, m', h', ts')
  | mutex_step_choice ps m h ts k p p' :
      ps !! k = Some p → caller_may p p' → mutex_step (ps, m, h, ts) (<[k:=p']> ps, m, h, ts).

(** ** The invariant *)

(** Callers with the lock, callers with the list's spinlock, and what each has in the heap: no node,
    a node of its own, or a linked node. *)
Definition holds p : Z := match p with Held | U_and | Q_fix _ | Fin_lock _ => 1 | _ => 0 end.
Definition in_list p : Z := match p with Q_flag _ | Q_load _ | Q_cas _ _ | Q_fix _ | D_fix | U_fix => 1 | _ => 0 end.

Inductive place := No_node | Own_node | Linked.

Definition attempt_place a : place :=
  match a with T_spin _ false => Own_node | T_spin _ true | T_poll _ true => Linked | _ => No_node end.

Definition place_of p : place :=
  match p with
  | Try a | Try_cas a _ => attempt_place a
  | Q_lock Sync false | Q_fix _ | D_fix | D_state => Own_node
  | Q_lock Async false => No_node
  | Q_lock _ true | Q_flag _ | Q_load _ | Q_cas _ _ | Fin_lock _ | W_wait | W_park | A_pending | D_lock => Linked
  | Idle | Held | U_and | U_lock | U_fix | U_wake _ => No_node
  end.

Definition asleep ts k p : Prop := (p = W_park ∨ p = A_pending) ∧ k ∉ ts.

(** Consumed: the handle was taken, and its owner contends again or will. *)
Definition woken h k : Prop := ∃ n, h !! k = Some n ∧ waiter n = None.

Definition node_ok k n : Prop := (state n = WAITING ∧ ∃ w, waiter n = Some w ∧ waiter_of w = k) ∨ (state n = WOKEN ∧ waiter n = None).

(** Between arming its node and letting the list go. *)
Definition armed p : Prop := match p with Q_flag _ | Q_load _ | Q_cas _ _ => True | _ => False end.

(** A compare-and-swap expects a word that was seen unlocked. *)
Definition cas_ok p : Prop := match p with Try_cas _ s | Q_cas _ s => Z.land s LOCKED = 0 | _ => True end.

(** On its way to wake the head of the list, or to look at the word again. *)
Definition responsible h j p : Prop :=
  match p with Q_flag _ | Q_load _ | Q_cas _ _ | U_lock => True | D_fix | D_state => woken h j | _ => False end.

Definition placed h xs k (pl : place) : Prop :=
  match pl with
  | No_node => h !! k = None
  | Own_node => ∃ n, h !! k = Some n ∧ node_ok k n ∧ k ∉ xs
  | Linked => ∃ n, h !! k = Some n ∧ node_ok k n ∧ k ∈ xs
  end.

(** Why a linked waiter is not forgotten. *)
Definition reason ps m h xs : Prop :=
  locked_by m = true ∨ (∃ j p, ps !! j = Some p ∧ responsible h j p) ∨ (∃ i, hd_error xs = Some i ∧ woken h i).

Record mutex_inv ps m h ts xs : Prop := {
  mi_word : 0 ≤ word m < 4;
  mi_lock : total holds ps = if locked_by m then 1 else 0;
  mi_list : total in_list ps = if locked (waiters m) then 1 else 0;
  mi_rep : wl_rep h (inner (waiters m)) xs;
  mi_place k p : ps !! k = Some p → placed h xs k (place_of p);
  mi_in k : k ∈ xs → (k < length ps)%nat;
  mi_flag : queued m = true ∨ xs = [] ∨ ∃ j c, ps !! j = Some (Q_flag c);
  mi_reason : xs ≠ [] → reason ps m h xs;
  mi_wake k p : ps !! k = Some p → asleep ts k p → woken h k → ∃ j w, ps !! j = Some (U_wake w) ∧ waiter_of w = k;
  mi_armed k p : ps !! k = Some p → armed p → ¬ woken h k;
  mi_cas k p : ps !! k = Some p → cas_ok p;
  mi_small : Z.of_nat (length ps) < U64 - 1;
}.

Lemma word_cases s : 0 ≤ s < 4 → s = 0 ∨ s = 1 ∨ s = 2 ∨ s = 3.
Proof. lia. Qed.

(** What the operations on the word do. *)
Lemma word_ops m : 0 ≤ word m < 4 →
  (let m' := with_word (Z.lor (word m) LOCKED) m in 0 ≤ word m' < 4 ∧ locked_by m' = true ∧ queued m' = queued m) ∧
  (let m' := with_word (Z.lor (word m) HAS_QUEUED) m in 0 ≤ word m' < 4 ∧ locked_by m' = locked_by m ∧ queued m' = true) ∧
  (let m' := with_word (Z.land (word m) (unot LOCKED)) m in 0 ≤ word m' < 4 ∧ locked_by m' = false ∧ queued m' = queued m) ∧
  (let m' := with_word (Z.land (word m) (unot HAS_QUEUED)) m in 0 ≤ word m' < 4 ∧ locked_by m' = locked_by m ∧ queued m' = false).
Proof.
  destruct m as [s wl]. unfold locked_by, queued. cbn [word with_word]. intros [->|[->|[->| ->]]]%word_cases; vm_compute; naive_solver.
Qed.

Lemma fix_flags_spec m h xs : 0 ≤ word m < 4 → wl_rep h (inner (waiters m)) xs →
  0 ≤ word (fix_flags m) < 4 ∧ locked_by (fix_flags m) = locked_by m ∧ waiters (fix_flags m) = waiters m ∧ (queued (fix_flags m) = true ∨ xs = []).
Proof.
  intros Hw Hr. destruct (word_ops m Hw) as (_&(?&?&?)&_&(?&?&?)). unfold fix_flags. rewrite (wl_rep_is_empty _ _ _ Hr).
  case_bool_decide; (split; [done|]); (split; [done|]); (split; [done|]); auto.
Qed.

Lemma locked_by_land m : (Z.land (word m) LOCKED =? 0) = negb (locked_by m).
Proof. unfold locked_by. by rewrite negb_involutive. Qed.

(** ** One step *)

Definition b2z (b : bool) : Z := if b then 1 else 0.

(** Another caller's node after a step of [k]: its handle may have been taken, by a step that holds it now. *)
Definition kept m h xs p' h' j : Prop :=
  payload <$> h' !! j = payload <$> h !! j ∨
  (locked (waiters m) = false ∧ j ∈ xs ∧ ∃ w n, p' = U_wake w ∧ waiter_of w = j ∧ h' !! j = Some n ∧ waiter n = None ∧ state n = WOKEN ∧ is_Some (h !! j)).

(** What a step of caller [k] from [p] to [p'] must establish. *)
Record moves k p p' m h ts xs m' h' ts' xs' : Prop := {
  mv_word : 0 ≤ word m' < 4;
  mv_lock : b2z (locked_by m') = b2z (locked_by m) - holds p + holds p';
  mv_list : b2z (locked (waiters m')) = b2z (locked (waiters m)) - in_list p + in_list p';
  mv_rep : wl_rep h' (inner (waiters m')) xs';
  mv_place : placed h' xs' k (place_of p');
  mv_in j : j ≠ k → (j ∈ xs' ↔ j ∈ xs);
  mv_kept j : j ≠ k → kept m h xs p' h' j;
  mv_flag : queued m' = true ∨ xs' = [] ∨ (∃ c, p' = Q_flag c) ∨ (queued m' = queued m ∧ (xs = [] → xs' = []) ∧ ∀ c, p ≠ Q_flag c);
  mv_reason :
    locked_by m' = true ∨ responsible h' k p' ∨ (∃ i, hd_error xs' = Some i ∧ woken h' i) ∨ xs' = [] ∨
    (p = U_and ∧ xs' = xs ∧ queued m = false) ∨
    (locked_by m' = locked_by m ∧ ¬ responsible h k p ∧ (xs = [] → xs' = []) ∧ ∀ i, hd_error xs = Some i → woken h i → hd_error xs' = Some i ∧ woken h' i);
  mv_ts j : j ≠ k → j ∈ ts → j ∈ ts';
  mv_token w : p = U_wake w → waiter_of w ∈ ts';
  mv_asleep : asleep ts' k p' → ¬ woken h' k;
  mv_armed : armed p' → ¬ woken h' k;
  mv_cas : cas_ok p';
}.

Lemma mutex_holds_nonneg p : 0 ≤ holds p.
Proof. by destruct p. Qed.

Lemma in_list_nonneg p : 0 ≤ in_list p.
Proof. by destruct p. Qed.

Lemma armed_in_list p : armed p → in_list p = 1.
Proof. by destruct p. Qed.

Lemma list_locked ps m h ts xs k p : mutex_inv ps m h ts xs → ps !! k = Some p → in_list p = 1 → locked (waiters m) = true.
Proof.
  intros Hi Hk Hp. pose proof (total_elem in_list ps k p in_list_nonneg Hk). pose proof (mi_list _ _ _ _ _ Hi). destruct (locked _); [done|lia].
Qed.

Lemma mutex_locked ps m h ts xs k p : mutex_inv ps m h ts xs → ps !! k = Some p → holds p = 1 → locked_by m = true.
Proof.
  intros Hi Hk Hp. pose proof (total_elem holds ps k p mutex_holds_nonneg Hk). pose proof (mi_lock _ _ _ _ _ Hi). destruct (locked_by m); [done|lia].
Qed.

Lemma payload_some (n n' : WaiterNode) : payload <$> Some n' = payload <$> Some n → is_writer n' = is_writer n ∧ waiter n' = waiter n ∧ state n' = state n.
Proof. unfold payload. intros [= -> -> ->]. done. Qed.

Lemma kept_woken m h xs p' h' j : kept m h xs p' h' j → woken h j → woken h' j.
Proof.
  intros [E|(_&_&w&n&_&_&Hn&Hw&_)] (n0&Hn0&Hw0); [|by exists n]. rewrite Hn0 in E.
  destruct (h' !! j) as [n'|] eqn:En; [|done]. exists n'. split; [done|]. apply payload_some in E as (?&?&?). congruence.
Qed.

Lemma kept_woken_inv m h xs p' h' j : kept m h xs p' h' j → woken h' j → woken h j ∨ ∃ w, p' = U_wake w ∧ waiter_of w = j ∧ locked (waiters m) = false.
Proof.
  intros [E|(Hl&_&w&n&Hp&Hj&_)] (n0&Hn0&Hw0); [left|right; by exists w]. rewrite Hn0 in E.
  destruct (h !! j) as [n'|] eqn:En; [|done]. exists n'. split; [done|]. apply payload_some in E as (?&?&?). congruence.
Qed.

Lemma kept_placed m h xs p' h' xs' j pl : kept m h xs p' h' j → (j ∈ xs' ↔ j ∈ xs) → placed h xs j pl → placed h' xs' j pl.
Proof.
  intros Hk Hx. assert (Hs : ∀ n, h !! j = Some n → node_ok j n → ∃ n', h' !! j = Some n' ∧ node_ok j n').
  { intros n Hn Ho. destruct Hk as [E|(_&_&w&n'&_&_&Hn'&Hw&Hs&_)]; [|exists n'; split; [done|by right]].
    rewrite Hn in E. destruct (h' !! j) as [n'|] eqn:En; [|done]. exists n'. split; [done|]. unfold node_ok in *.
    apply payload_some in E as (_&E2&E3). by rewrite E2, E3. }
  destruct pl; simpl.
  - intros Hn. destruct Hk as [E|(_&_&w&n&_&_&_&_&_&Hs')]; [rewrite Hn in E; by destruct (h' !! j)|]. by rewrite Hn in Hs'; destruct Hs'.
  - intros (n&Hn&Ho&Hj). destruct (Hs n Hn Ho) as (n'&?&?). exists n'. by rewrite Hx.
  - intros (n&Hn&Ho&Hj). destruct (Hs n Hn Ho) as (n'&?&?). exists n'. by rewrite Hx.
Qed.

Lemma inv_moves ps m h ts xs k p p' m' h' ts' xs' :
  mutex_inv ps m h ts xs → ps !! k = Some p → moves k p p' m h ts xs m' h' ts' xs' → mutex_inv (<[k:=p']> ps) m' h' ts' xs'.
Proof.
  intros Hi Hk Hm. assert (Hlt : (k < length ps)%nat) by (by eapply lookup_lt_Some).
  assert (Hkk : <[k:=p']> ps !! k = Some p') by (by apply list_lookup_insert_eq).
  assert (Hother : ∀ j q, j ≠ k → ps !! j = Some q → <[k:=p']> ps !! j = Some q) by (intros j q Hne Hj; by rewrite list_lookup_insert_ne).
  destruct Hm as [M1 M2 M3 M4 M5 M6 M7 M8 M9 M10 M11 M12 M13 M14]. unfold b2z in *. split.
  - done.
  - rewrite (total_insert holds ps k p p' Hk), (mi_lock _ _ _ _ _ Hi). lia.
  - rewrite (total_insert in_list ps k p p' Hk), (mi_list _ _ _ _ _ Hi). lia.
  - done.
  - intros j q [[-> ->]|[Hne Hj]]%insert_other; [done|]. eapply kept_placed; [by apply M7|by apply M6|by apply (mi_place _ _ _ _ _ Hi)].
  - intros j Hj. rewrite length_insert. destruct (decide (j = k)) as [->|]; [done|]. apply (mi_in _ _ _ _ _ Hi). by apply M6.
  - destruct M8 as [?|[?|[[c ->]|(Eq&Ex&Hnf)]]]; [by left|by right; left|right; right; by exists k, c|].
    destruct (mi_flag _ _ _ _ _ Hi) as [?|[?|(j&c&Hj)]]; [left; congruence|right; left; auto|].
    right; right. exists j, c. apply Hother; [|done]. intros ->. rewrite Hk in Hj. injection Hj as ->. by apply (Hnf c).
  - intros Hne. destruct M9 as [?|[?|[?|[?|[(->&->&Hq)|(El&Hr&Ex&Hh)]]]]]; [by left|right; left; by exists k, p'|by right; right|done| |].
    + destruct (mi_flag _ _ _ _ _ Hi) as [?|[?|(j&c&Hj)]]; [congruence|done|]. right; left. exists j, (Q_flag c). split; [|done].
      apply Hother; [|done]. intros ->. congruence.
    + destruct (mi_reason _ _ _ _ _ Hi) as [?|[(j&q&Hj&Hq)|(i&Hh0&Hw)]]; [naive_solver|left; congruence| |].
      * assert (j ≠ k) by (intros ->; congruence). right; left. exists j, q. split; [by apply Hother|].
        destruct q; simpl in *; try done; by apply (kept_woken m h xs p' h' j (M7 j ltac:(done))).
      * right; right. exists i. by apply Hh.
  - intros j q [[-> ->]|[Hne Hj]]%insert_other Has Hw; [by destruct (M12 Has)|].
    destruct (kept_woken_inv m h xs p' h' j (M7 j Hne) Hw) as [Hw0|(w&->&?&_)]; [|by exists k, w].
    assert (Has0 : asleep ts j q) by (destruct Has as [? Hn]; split; [done|]; intros Hin; by apply Hn, M10).
    destruct (mi_wake _ _ _ _ _ Hi j q Hj Has0 Hw0) as (i&w&Hi'&Hwi). destruct (decide (i = k)) as [->|]; [|exists i, w; split; [by apply Hother|done]].
    exfalso. apply Has. rewrite <- Hwi. apply M11. congruence.
  - intros j q [[-> ->]|[Hne Hj]]%insert_other Ha; [by apply M13|]. intros Hw.
    destruct (kept_woken_inv m h xs p' h' j (M7 j Hne) Hw) as [Hw0|(_&_&_&Hl)]; [by apply (mi_armed _ _ _ _ _ Hi j q Hj Ha)|].
    pose proof (list_locked _ _ _ _ _ j q Hi Hj (armed_in_list q Ha)). congruence.
  - intros j q [[-> ->]|[Hne Hj]]%insert_other; [done|by apply (mi_cas _ _ _ _ _ Hi j)].
  - rewrite length_insert. apply Hi.
Qed.

(** Steps that change neither the word nor the list nor the heap. *)
Lemma moves_quiet ps k p p' m h ts ts' xs :
  mutex_inv ps m h ts xs → ps !! k = Some p →
  holds p' = holds p → in_list p' = in_list p → place_of p' = place_of p → (∀ c, p ≠ Q_flag c) → ¬ responsible h k p ∨ responsible h k p' →
  (∀ j, j ≠ k → j ∈ ts → j ∈ ts') → (∀ w, p = U_wake w → waiter_of w ∈ ts') → (asleep ts' k p' ∨ armed p' → ¬ woken h k) → cas_ok p' →
  moves k p p' m h ts xs m h ts' xs.
Proof.
  intros Hi Hk Eh El Ep Hf Hr Hts Htok Has Hcas. split; auto.
  - apply Hi.
  - lia.
  - lia.
  - apply Hi.
  - rewrite Ep. by apply (mi_place _ _ _ _ _ Hi).
  - intros j _. by left.
  - right. right. right. done.
  - destruct Hr as [Hr|Hr]; [|by right; left]. do 5 right. auto.
Qed.

(** A caller whose node is no longer, or not yet, in the list. *)
Lemma moves_node ps k p p' m h h' ts xs :
  mutex_inv ps m h ts xs → ps !! k = Some p →
  holds p' = holds p → in_list p' = in_list p → (∀ c, p ≠ Q_flag c) → ¬ responsible h k p ∨ responsible h' k p' →
  (∀ j, j ≠ k → h' !! j = h !! j) → k ∉ xs → placed h' xs k (place_of p') → wl_rep h' (inner (waiters m)) xs →
  (∀ w, p ≠ U_wake w) → ¬ asleep ts k p' → ¬ armed p' → cas_ok p' →
  moves k p p' m h ts xs m h' ts xs.
Proof.
  intros Hi Hk Eh El Hf Hr Hh Hx Hp Hrep Htok Has Har Hcas. split; auto; try done.
  - apply Hi.
  - lia.
  - lia.
  - intros j Hj. left. by rewrite Hh.
  - right. right. right. done.
  - destruct Hr as [Hr|Hr]; [|by right; left]. do 5 right. split; [done|]. split; [done|]. split; [done|].
    intros i Hi' (n&Hn&Hw). split; [done|]. exists n. rewrite Hh; [done|]. intros ->. apply Hx. destruct xs; [done|]. injection Hi' as ->. by left.
  - intros w Hw. by destruct (Htok w).
Qed.

Lemma not_in_list h l xs k : wl_rep h l xs → h !! k = None → k ∉ xs.
Proof. intros Hr Hn Hx. destruct (wl_rep_lookup _ _ _ k Hr Hx) as (n&?&_). congruence. Qed.

(** A fresh node, or the end of one. *)
Lemma wl_rep_fresh h l xs k n : wl_rep h l xs → k ∉ xs → linked n = false → wl_rep (<[k:=n]> h) l xs.
Proof. intros Hr Hx Hl. apply wl_rep_insert; [done|by rewrite Hl, bool_decide_eq_false_2|done]. Qed.

Lemma try_fail_moves ps k a p p' m h h' ts xs :
  mutex_inv ps m h ts xs → ps !! k = Some p → p = Try a ∨ (∃ s, p = Try_cas a s) → try_fail k a h = (p', h') →
  moves k p p' m h ts xs m h' ts xs.
Proof.
  intros Hi Hk Hp H. pose proof (mi_place _ _ _ _ _ Hi k p Hk) as Hpl.
  assert (Hq : place_of p' = place_of p → h' = h → moves k p p' m h ts xs m h' ts xs).
  { intros E ->. assert (holds p' = 0 ∧ in_list p' = 0 ∧ ¬ asleep ts k p' ∧ ¬ armed p' ∧ cas_ok p') as (?&?&?&?&?).
    { unfold asleep. destruct a as [| | |[|[|n]] b|[|[|n]] b]; injection H as <-; simpl; naive_solver. }
    apply (moves_quiet ps); try done; destruct Hp as [->|[s ->]]; try done; try (by left; intros []); tauto. }
  assert (Epl : place_of p = attempt_place a) by (by destruct Hp as [->|[s ->]]). rewrite Epl in *.
  destruct a as [| | |[|[|n]] b|[|[|n]] b]; injection H as <- <-; try (apply Hq; [done|done]); try (apply Hq; [by destruct b|done]).
  simpl in Hpl. assert (Hx : k ∉ xs) by (by eapply not_in_list; [apply (mi_rep _ _ _ _ _ Hi)|]).
  apply (moves_node ps); try done; try (by destruct Hp as [->|[s ->]]); try (by intros []).
  - left. destruct Hp as [->|[s ->]]; by intros [].
  - intros j Hj. by apply lookup_insert_ne.
  - exists (new_sync true k). split; [apply lookup_insert_eq|]. split; [|done]. left. by eauto.
  - apply wl_rep_fresh; [apply Hi|done|done].
  - intros [[?|?] _]; done.
Qed.

Lemma try_ok_moves ps k a p' m h h' ts xs :
  mutex_inv ps m h ts xs → ps !! k = Some (Try_cas a (word m)) → try_ok k a h = (p', h') →
  moves k (Try_cas a (word m)) p' m h ts xs (with_word (Z.lor (word m) LOCKED) m) h' ts xs.
Proof.
  intros Hi Hk H. destruct (word_ops m (mi_word _ _ _ _ _ Hi)) as ((W1&W2&W3)&_). pose proof (mi_rep _ _ _ _ _ Hi) as Hrep.
  assert (Hfree : locked_by m = false).
  { pose proof (mi_cas _ _ _ _ _ Hi k _ Hk) as Hc. simpl in Hc. unfold locked_by. by rewrite Hc. }
  pose proof (mi_place _ _ _ _ _ Hi k _ Hk) as Hpl. simpl in Hpl.
  assert (Hp : holds p' = 1 ∧ in_list p' = 0 ∧ ¬ asleep ts k p' ∧ ¬ armed p' ∧ cas_ok p' ∧
    (h' = h ∨ (h' = delete k h ∧ k ∉ xs)) ∧ placed h' xs k (place_of p')).
  { unfold asleep. destruct a as [| | |n [|]|n [|]]; injection H as <- <-; simpl in *; (split; [done|]); (split; [done|]);
      (split; [naive_solver|]); (split; [tauto|]); (split; [done|]); try (split; [by left|done]).
    destruct Hpl as (n0&?&?&?). split; [by right|apply lookup_delete_eq]. }
  destruct Hp as (P1&P2&P3&P4&P5&P6&P7). split; auto; try done.
  - rewrite W2, Hfree, P1. done.
  - rewrite P2. simpl. lia.
  - destruct P6 as [->|[-> ?]]; [done|by apply wl_rep_delete].
  - intros j Hj. left. destruct P6 as [->|[-> ?]]; [done|by rewrite lookup_delete_ne].
  - do 3 right. by rewrite W3.
Qed.

(** ** Inside the list's spinlock *)

(** The lock of the list, taken or let go, with everything else as it was. *)
Lemma unlocked_in_list ps m h ts xs k p : mutex_inv ps m h ts xs → ps !! k = Some p → locked (waiters m) = false → in_list p = 0.
Proof.
  intros Hi Hk Hl. pose proof (total_elem in_list ps k p in_list_nonneg Hk). pose proof (mi_list _ _ _ _ _ Hi). rewrite Hl in *.
  pose proof (in_list_nonneg p). lia.
Qed.

Lemma linked_bound ps m h ts xs : mutex_inv ps m h ts xs → (length xs ≤ length ps)%nat.
Proof.
  intros Hi. destruct (mi_rep _ _ _ _ _ Hi) as [(Hnd&_) _ _ _ _]. rewrite <- (length_seq (length ps) 0).
  apply submseteq_length, NoDup_submseteq; [done|]. intros k Hk. apply elem_of_seq. pose proof (mi_in _ _ _ _ _ Hi k Hk). lia.
Qed.

Lemma armed_not_woken h k n w : h !! k = Some n → waiter n = Some w → ¬ woken h k.
Proof. intros Hn Hw (n'&Hn'&Hw'). congruence. Qed.

(** Arming the node and linking it. *)
Lemma q_lock_moves ps k c linked m h ts xs :
  mutex_inv ps m h ts xs → ps !! k = Some (Q_lock c linked) → locked (waiters m) = false →
  ∃ p' m' h' ts' xs', queue_step k (Q_lock c linked) m h ts = Some (p', m', h', ts') ∧ moves k (Q_lock c linked) p' m h ts xs m' h' ts' xs'.
Proof.
  intros Hi Hk El. unfold queue_step. rewrite El. pose proof (mi_rep _ _ _ _ _ Hi) as Hrep.
  pose proof (mi_place _ _ _ _ _ Hi k _ Hk) as Hpl. set (h0 := queue_node k c linked h) in *.
  assert (H0 : ∃ n, h0 !! k = Some n ∧ wl_rep h0 (inner (waiters m)) xs ∧ WaitQueue.linked n = linked ∧ (k ∈ xs ↔ linked = true)).
  { assert (Hin : ∀ n, h !! k = Some n → WaitQueue.linked n = bool_decide (k ∈ xs)) by (intros n; apply (wr_linked _ _ _ Hrep)).
    destruct c, linked; simpl in Hpl; unfold h0; simpl.
    - destruct Hpl as (n&Hn&_&Hx). exists n. by rewrite (Hin n Hn), bool_decide_eq_true_2.
    - destruct Hpl as (n&Hn&_&Hx). exists n. by rewrite (Hin n Hn), bool_decide_eq_false_2.
    - destruct Hpl as (n&Hn&_&Hx). exists n. by rewrite (Hin n Hn), bool_decide_eq_true_2.
    - assert (Hx : k ∉ xs) by (by eapply not_in_list). exists (new_task true k). rewrite lookup_insert_eq. split; [done|]. split; [by apply wl_rep_fresh|done]. }
  destruct H0 as (n&Hn&Hr0&Hlk&Hx). destruct (wl_rearm_spec h0 _ xs k n (handle c k) Hr0 Hn) as (h1&E1&->&Hr1). rewrite E1. cbn [mbind option_bind].
  set (h1 := <[k:=set_waiter (Some (handle c k)) WAITING n]> h0) in *.
  assert (Hh1 : ∀ j, j ≠ k → h1 !! j = h !! j).
  { intros j Hj. unfold h1, h0. rewrite lookup_insert_ne by done. destruct c, linked; simpl; try done. by rewrite lookup_insert_ne. }
  assert (Hn1 : h1 !! k = Some (set_waiter (Some (handle c k)) WAITING n)) by apply lookup_insert_eq.
  assert (Eal : match c with Sync => Some linked | Async => is_linked k h1 end = Some linked).
  { destruct c; [done|]. unfold is_linked. rewrite Hn1. simpl. by rewrite Hlk. }
  rewrite Eal. cbn [mbind option_bind].
  assert (Hl : ∃ h2 l2 xs', (if linked then Some (h1, inner (waiters m)) else link_back k h1 (inner (waiters m))) = Some (h2, l2) ∧
    wl_rep h2 l2 xs' ∧ same_payload h1 h2 ∧ k ∈ xs' ∧ xs' ≠ [] ∧ (∀ j, j ≠ k → (j ∈ xs' ↔ j ∈ xs))).
  { destruct linked.
    - exists h1, (inner (waiters m)), xs. destruct Hx as [_ Hx]. specialize (Hx eq_refl). do 4 (split; [done|]). split; [|done]. by intros ->; apply elem_of_nil in Hx.
    - destruct (link_back_spec h1 _ xs k _ Hr1 Hn1) as (h2&l2&E&Hr2&Hs2); [by intros ?%Hx| |].
      { pose proof (linked_bound _ _ _ _ _ Hi). pose proof (mi_small _ _ _ _ _ Hi). lia. }
      exists h2, l2, (xs ++ [k]). split; [done|]. split; [done|]. split; [done|]. split; [set_solver|]. split; [by destruct xs|]. set_solver. }
  destruct Hl as (h2&l2&xs'&E2&Hr2&Hs2&Hk2&Hne&Hj2). rewrite E2. cbn [mbind option_bind].
  destruct (same_payload_some h1 h2 k _ Hs2 Hn1) as (n2&Hn2&Hp2). pose proof Hp2 as [= _ Hw2 Hst2].
  assert (Hnw : ¬ woken h2 k) by (by eapply armed_not_woken).
  do 4 eexists. exists xs'. split; [done|]. split; try done.
  - apply Hi.
  - simpl. unfold locked_by. simpl. lia.
  - simpl. by rewrite El.
  - exists n2. split; [done|]. split; [|done]. left. split; [done|]. exists (handle c k). split; [done|]. by destruct c.
  - intros j Hj. left. by rewrite <- Hs2, Hh1.
  - right. right. left. by exists c.
  - right. by left.
Qed.

Lemma place_linked ps m h ts xs k p : mutex_inv ps m h ts xs → ps !! k = Some p → place_of p = Linked → ∃ n, h !! k = Some n ∧ node_ok k n ∧ k ∈ xs.
Proof. intros Hi Hk Hp. pose proof (mi_place _ _ _ _ _ Hi k p Hk) as H. by rewrite Hp in H. Qed.

(** Unlinking the caller's own node; no other node's handle changes. *)
Lemma unlink_own ps m h ts xs k p :
  mutex_inv ps m h ts xs → ps !! k = Some p → place_of p = Linked →
  ∃ h' l' n, unlink k h (inner (waiters m)) = Some (true, h', l') ∧ wl_rep h' l' (filter (λ i, i ≠ k) xs) ∧ same_payload h h' ∧
    h' !! k = Some n ∧ node_ok k n ∧ k ∉ filter (λ i, i ≠ k) xs ∧ (∀ j, j ≠ k → (j ∈ filter (λ i, i ≠ k) xs ↔ j ∈ xs)) ∧ k ∈ xs.
Proof.
  intros Hi Hk Hp. destruct (place_linked _ _ _ _ _ k p Hi Hk Hp) as (n&Hn&Ho&Hx).
  destruct (wl_unlink_spec h _ xs k n (mi_rep _ _ _ _ _ Hi) Hn Hx) as (h'&l'&E&Hr&Hs).
  destruct (same_payload_some h h' k n Hs Hn) as (n'&Hn'&Hp'). exists h', l', n'. do 4 (split; [done|]).
  split; [|split; [|split; [|done]]].
  - unfold node_ok in *. destruct (payload_some n n') as (_&Ew&Es); [cbn; by rewrite Hp'|]. by rewrite Ew, Es.
  - rewrite list_elem_of_filter. tauto.
  - intros j Hj. rewrite list_elem_of_filter. tauto.
Qed.

Lemma same_payload_woken h h' k : same_payload h h' → woken h k → woken h' k.
Proof.
  intros Hs (n&Hn&Hw). destruct (same_payload_some h h' k n Hs Hn) as (n'&Hn'&Hp'). exists n'. split; [done|].
  destruct (payload_some n n') as (_&->&_); [cbn; by rewrite Hp'|done].
Qed.

Ltac inv_facts Hi Hk :=
  pose proof (mi_word _ _ _ _ _ Hi); pose proof (mi_rep _ _ _ _ _ Hi); pose proof (mi_place _ _ _ _ _ Hi _ _ Hk).

Lemma q_flag_moves ps k c m h ts xs :
  mutex_inv ps m h ts xs → ps !! k = Some (Q_flag c) →
  moves k (Q_flag c) (Q_load c) m h ts xs (with_word (Z.lor (word m) HAS_QUEUED) m) h ts xs.
Proof.
  intros Hi Hk. inv_facts Hi Hk. destruct (word_ops m (mi_word _ _ _ _ _ Hi)) as (_&(W1&W2&W3)&_). split; try done.
  - rewrite W2. simpl. lia.
  - simpl. lia.
  - intros j _. by left.
  - by left.
  - right. by left.
  - intros _. by apply (mi_armed _ _ _ _ _ Hi k _ Hk).
  - intros _. by apply (mi_armed _ _ _ _ _ Hi k _ Hk).
Qed.

Lemma q_load_moves ps k c p' m h ts m' h' ts' xs :
  mutex_inv ps m h ts xs → ps !! k = Some (Q_load c) → queue_step k (Q_load c) m h ts = Some (p', m', h', ts') →
  moves k (Q_load c) p' m h ts xs m' h' ts' xs.
Proof.
  intros Hi Hk H. inv_facts Hi Hk. pose proof (mi_armed _ _ _ _ _ Hi k _ Hk I) as Har. simpl in H. rewrite locked_by_land in H.
  destruct (locked_by m) eqn:El; cbn [negb] in H; injection H as <- <- <- <-.
  - pose proof (list_locked _ _ _ _ _ k _ Hi Hk eq_refl) as Hl. split; try done; try (by destruct c).
    + change (locked_by (release m)) with (locked_by m). by rewrite El; destruct c.
    + rewrite Hl. by destruct c.
    + intros j _. by left.
    + right. right. right. split; [done|]. split; [done|]. by intros ? [=].
    + left. done.
  - apply (moves_quiet ps); try done; [by right|]. simpl. pose proof (locked_by_land m) as E. rewrite El in E. apply Z.eqb_eq in E. exact E.
Qed.

Lemma q_cas_moves ps k c s p' m h ts m' h' ts' xs :
  mutex_inv ps m h ts xs → ps !! k = Some (Q_cas c s) → queue_step k (Q_cas c s) m h ts = Some (p', m', h', ts') →
  ∃ xs', moves k (Q_cas c s) p' m h ts xs m' h' ts' xs'.
Proof.
  intros Hi Hk H. pose proof (mi_cas _ _ _ _ _ Hi k _ Hk) as Hc. simpl in H, Hc. destruct (Z.eqb_spec (word m) s) as [<-|Hne].
  - destruct (unlink_own _ _ _ _ _ k _ Hi Hk eq_refl) as (h1&l1&n&E&Hr&Hs&Hn&Ho&Hx&Hj&Hin). rewrite E in H. cbn [mbind option_bind] in H. injection H as <- <- <- <-.
    destruct (word_ops m (mi_word _ _ _ _ _ Hi)) as ((W1&W2&W3)&_).
    pose proof (list_locked _ _ _ _ _ k _ Hi Hk eq_refl) as Hl.
    exists (filter (λ i, i ≠ k) xs). split; try done.
    + change (locked_by (with_list true l1 (with_word (Z.lor (word m) LOCKED) m))) with (locked_by (with_word (Z.lor (word m) LOCKED) m)).
      rewrite W2. unfold locked_by. by rewrite Hc.
    + by rewrite Hl.
    + by exists n.
    + intros j _. left. by rewrite <- Hs.
    + right. right. right. split; [exact W3|]. split; [by intros ->|]. by intros ? [=].
    + left. exact W2.
    + by intros [[?|?] _].
  - injection H as <- <- <- <-. exists xs. apply (moves_quiet ps); try done; [by right|].
    intros _. by apply (mi_armed _ _ _ _ _ Hi k _ Hk).
Qed.

Lemma fin_lock_moves ps k c p' m h ts m' h' ts' xs :
  mutex_inv ps m h ts xs → ps !! k = Some (Fin_lock c) → queue_step k (Fin_lock c) m h ts = Some (p', m', h', ts') →
  ∃ xs', moves k (Fin_lock c) p' m h ts xs m' h' ts' xs'.
Proof.
  intros Hi Hk H. simpl in H. destruct (locked (waiters m)) eqn:El; [done|].
  destruct (unlink_own _ _ _ _ _ k _ Hi Hk eq_refl) as (h1&l1&n&E&Hr&Hs&Hn&Ho&Hx&Hj&Hin). rewrite E in H. cbn [mbind option_bind] in H.
  assert (Hd : p' = Q_fix c ∧ m' = with_list true l1 m ∧ h' = h1 ∧ ts' = ts) by (destruct c; by injection H as <- <- <- <-).
  destruct Hd as (->&->&->&->). exists (filter (λ i, i ≠ k) xs). split; try done.
  - apply Hi.
  - simpl. unfold locked_by. simpl. lia.
  - simpl. by rewrite El.
  - by exists n.
  - intros j _. left. by rewrite <- Hs.
  - right. right. right. split; [done|]. split; [by intros ->|]. by intros ? [=].
  - left. change (locked_by (with_list true l1 m)) with (locked_by m). by apply (mutex_locked _ _ _ _ _ k _ Hi Hk).
  - by intros [[?|?] _].
Qed.

(** [fix_flags] by the holder of the list, which lets it go; its own node, if any, is not linked. *)
Lemma fix_moves ps k p p' m h h' ts xs :
  mutex_inv ps m h ts xs → ps !! k = Some p → in_list p = 1 → in_list p' = 0 → holds p' = holds p → (∀ c, p ≠ Q_flag c) → (∀ w, p ≠ U_wake w) →
  k ∉ xs → (∀ j, j ≠ k → h' !! j = h !! j) → placed h' xs k (place_of p') → wl_rep h' (inner (waiters m)) xs →
  ¬ responsible h k p ∨ responsible h' k p' → ¬ asleep ts k p' → ¬ armed p' → cas_ok p' →
  moves k p p' m h ts xs (release (fix_flags m)) h' ts xs.
Proof.
  intros Hi Hk Hl Hl' Hh Hf Hw Hx Hj Hp Hr Hres Has Har Hcas.
  destruct (fix_flags_spec m h xs (mi_word _ _ _ _ _ Hi) (mi_rep _ _ _ _ _ Hi)) as (F1&F2&F3&F4).
  assert (Elb : locked_by (release (fix_flags m)) = locked_by m) by exact F2.
  pose proof (list_locked _ _ _ _ _ k p Hi Hk Hl) as Hlk. split; try done.
  - rewrite Elb. lia.
  - rewrite Hlk. simpl. lia.
  - intros j Hjk. left. by rewrite Hj.
  - destruct F4 as [?|?]; [by left|by right; left].
  - destruct Hres as [Hres|?]; [|by right; left]. do 5 right. split; [exact Elb|]. split; [done|]. split; [done|].
    intros i Hi' (n&Hn&Hwn). split; [done|]. exists n. rewrite Hj; [done|]. intros ->. apply Hx. destruct xs; [done|]. injection Hi' as ->. by left.
  - intros w E. by destruct (Hw w).
Qed.

Lemma q_fix_moves ps k c m h ts xs :
  mutex_inv ps m h ts xs → ps !! k = Some (Q_fix c) → moves k (Q_fix c) Held m h ts xs (release (fix_flags m)) (delete k h) ts xs.
Proof.
  intros Hi Hk. pose proof (mi_place _ _ _ _ _ Hi k _ Hk) as (n&?&?&Hx). apply (fix_moves ps); try done.
  - intros j Hj. by rewrite lookup_delete_ne.
  - apply lookup_delete_eq.
  - apply wl_rep_delete; [apply Hi|done].
  - left. by intros [].
  - by intros [[?|?] _].
  - by intros [].
Qed.

Lemma queue_moves ps k p p' m h ts m' h' ts' xs :
  mutex_inv ps m h ts xs → ps !! k = Some p → queue_step k p m h ts = Some (p', m', h', ts') →
  ∃ xs', moves k p p' m h ts xs m' h' ts' xs'.
Proof.
  intros Hi Hk H. destruct p; try done.
  - destruct (locked (waiters m)) eqn:El; [by simpl in H; rewrite El in H|].
    destruct (q_lock_moves _ _ _ _ _ _ _ _ Hi Hk El) as (p1&m1&h1&ts1&xs1&E&Hm). rewrite E in H. injection H as <- <- <- <-. by exists xs1.
  - injection H as <- <- <- <-. exists xs. by eapply q_flag_moves.
  - exists xs. by eapply q_load_moves.
  - by eapply q_cas_moves.
  - by eapply fin_lock_moves.
  - injection H as <- <- <- <-. exists xs. by eapply q_fix_moves.
Qed.

Lemma try_moves ps k p p' m h ts m' h' ts' xs :
  mutex_inv ps m h ts xs → ps !! k = Some p → try_step k p m h ts = Some (p', m', h', ts') → moves k p p' m h ts xs m' h' ts' xs.
Proof.
  intros Hi Hk H. destruct p; try done; simpl in H.
  - destruct (Z.eqb_spec (Z.land (word m) LOCKED) 0) as [El|].
    + injection H as <- <- <- <-. apply (moves_quiet ps); try done; [by left; intros []|by intros [[[?|?] _]|[]]].
    + destruct (try_fail k a h) eqn:Ef. injection H as <- <- <- <-. eapply try_fail_moves; eauto.
  - destruct (Z.eqb_spec (word m) s) as [<-|].
    + destruct (try_ok k a h) eqn:Ef. injection H as <- <- <- <-. by eapply try_ok_moves.
    + destruct (try_fail k a h) eqn:Ef. injection H as <- <- <- <-. eapply try_fail_moves; eauto.
Qed.

Lemma wait_moves ps k p p' m h ts m' h' ts' xs :
  mutex_inv ps m h ts xs → ps !! k = Some p → wait_step k p m h ts = Some (p', m', h', ts') → moves k p p' m h ts xs m' h' ts' xs.
Proof.
  intros Hi Hk H. destruct p; try done; simpl in H.
  - apply bind_Some in H as (n&Hn&[= <- <- <- <-]). destruct (place_linked _ _ _ _ _ k _ Hi Hk eq_refl) as (n'&Hn'&Ho&_). simplify_eq.
    destruct (Z.eqb_spec (state n) WAITING) as [E|]; apply (moves_quiet ps); try done; try (by left; intros []); [|by intros [[[?|?] _]|[]]].
    intros _. destruct Ho as [(_&w&Hw&_)|[E' _]]; [by eapply armed_not_woken|by rewrite E in E'].
  - case_decide; [|done]. injection H as <- <- <- <-. apply (moves_quiet ps); try done; [by left; intros []|set_solver|by intros [[[?|?] _]|[]]].
  - case_decide; [|done]. injection H as <- <- <- <-. apply (moves_quiet ps); try done; [by left; intros []|set_solver|by intros [[[?|?] _]|[]]].
Qed.

Lemma node_ok_woken h k n : h !! k = Some n → node_ok k n → woken h k ∧ state n = WOKEN ∨ ¬ woken h k ∧ state n = WAITING.
Proof. intros Hn [(Hs&w&Hw&_)|[Hs Hw]]; [right; split; [by eapply armed_not_woken|done]|left; split; [by exists n|done]]. Qed.

Lemma drop_moves ps k p p' m h ts m' h' ts' xs :
  mutex_inv ps m h ts xs → ps !! k = Some p → drop_step k p m h ts = Some (p', m', h', ts') → ∃ xs', moves k p p' m h ts xs m' h' ts' xs'.
Proof.
  intros Hi Hk H. destruct p; try done; simpl in H.
  - destruct (locked (waiters m)) eqn:El; [done|].
    destruct (unlink_own _ _ _ _ _ k _ Hi Hk eq_refl) as (h1&l1&n&E&Hr&Hs&Hn&Ho&Hx&Hj&Hin). rewrite E in H. injection H as <- <- <- <-.
    exists (filter (λ i, i ≠ k) xs). split; try done.
    + apply Hi.
    + simpl. unfold locked_by. simpl. lia.
    + simpl. by rewrite El.
    + by exists n.
    + intros j _. left. by rewrite <- Hs.
    + right. right. right. split; [done|]. split; [by intros ->|]. by intros ? [=].
    + destruct (node_ok_woken h1 k n Hn Ho) as [[Hwk _]|[Hwk _]]; [by right; left|]. do 5 right.
      split; [done|]. split; [by intros []|]. split; [by intros ->|]. intros i Hi' Hwi.
      assert (i ≠ k) by (intros ->; by apply Hwk, (same_payload_woken h)). split; [|by apply (same_payload_woken h)].
      destruct xs as [|x xs]; [done|]. injection Hi' as ->. by rewrite filter_cons_True.
    + by intros [[?|?] _].
  - injection H as <- <- <- <-. exists xs. pose proof (mi_place _ _ _ _ _ Hi k _ Hk) as (n&Hn&Ho&Hx).
    apply (fix_moves ps); try done; [by exists n|apply Hi| |by intros [[?|?] _]|by intros []].
    destruct (node_ok_woken h k n Hn Ho) as [[Hwk _]|[Hwk _]]; [by right|by left].
  - apply bind_Some in H as (n&Hn&[= <- <- <- <-]). exists xs. pose proof (mi_place _ _ _ _ _ Hi k _ Hk) as (n'&Hn'&Ho&Hx). simplify_eq.
    assert (Hd : placed (delete k h) xs k No_node) by apply lookup_delete_eq.
    assert (Hrd : wl_rep (delete k h) (inner (waiters m)) xs) by (apply wl_rep_delete; [apply Hi|done]).
    destruct (node_ok_woken h k n Hn Ho) as [[Hwk ->]|[Hwk ->]]; cbn [Z.eqb WOKEN WAITING Pos.eqb].
    all: apply (moves_node ps); try done; try (by intros j Hj; rewrite lookup_delete_ne); try (by intros [[?|?] _]); try (by intros []); try (by right); by left.
Qed.

Lemma unlock_moves ps k p p' m h ts m' h' ts' xs :
  mutex_inv ps m h ts xs → ps !! k = Some p → unlock_step k p m h ts = Some (p', m', h', ts') → ∃ xs', moves k p p' m h ts xs m' h' ts' xs'.
Proof.
  intros Hi Hk H. exists xs. pose proof (mi_place _ _ _ _ _ Hi k _ Hk) as Hpl. pose proof (mi_rep _ _ _ _ _ Hi) as Hrep. destruct p; try done; simpl in H, Hpl.
  - injection H as <- <- <- <-. apply (moves_quiet ps); try done; [by left; intros []|by intros [[[?|?] _]|[]]].
  - injection H as <- <- <- <-. destruct (word_ops m (mi_word _ _ _ _ _ Hi)) as (_&_&(W1&W2&W3)&_).
    pose proof (mutex_locked _ _ _ _ _ k _ Hi Hk eq_refl) as El. split; try done; try (by destruct (queued m)).
    + rewrite W2, El. by destruct (queued m).
    + simpl. destruct (queued m); simpl; lia.
    + intros j _. by left.
    + right. right. right. split; [exact W3|]. split; [done|]. by intros ? [=].
    + destruct (queued m) eqn:Eq; [by right; left|]. do 4 right. by left.
    + destruct (queued m); by intros [[?|?] _].
  - destruct (locked (waiters m)) eqn:El; [done|]. rewrite (wl_rep_head _ _ _ Hrep) in H.
    destruct xs as [|i xs]; cbn [hd_error] in H.
    + injection H as <- <- <- <-. split; try done.
      * apply Hi.
      * simpl. unfold locked_by. simpl. lia.
      * simpl. by rewrite El.
      * intros j _. by left.
      * right. by left.
      * do 3 right. by left.
      * by intros [[?|?] _].
    + destruct (wl_rep_lookup _ _ _ i Hrep) as (n&Hn&_); [by left|]. assert (Hik : i ≠ k) by congruence.
      destruct (take_and_mark_woken_spec h _ _ i n Hrep Hn) as (h1&E&->&Hr1). rewrite E in H. cbn [mbind option_bind] in H. injection H as <- <- <- <-.
      assert (Hoi : node_ok i n).
      { destruct (ps !! i) as [pi|] eqn:Ei; [|apply lookup_ge_None_1 in Ei; pose proof (mi_in _ _ _ _ _ Hi i ltac:(by left)); lia].
        pose proof (mi_place _ _ _ _ _ Hi i pi Ei) as Hp. destruct (place_of pi); simpl in Hp; [congruence|destruct Hp as (?&?&?&Hp); set_solver|].
        destruct Hp as (n'&Hn'&Ho&_). by simplify_eq. }
      assert (Hd : holds (match waiter n with Some w => U_wake w | None => Idle end) = 0 ∧ in_list (match waiter n with Some w => U_wake w | None => Idle end) = 0 ∧
        place_of (match waiter n with Some w => U_wake w | None => Idle end) = No_node) by (by destruct (waiter n)). destruct Hd as (D1&D2&D3).
      split; try done; try (by destruct (waiter n)).
      * apply Hi.
      * rewrite D1. simpl. lia.
      * rewrite D2. simpl. lia.
      * rewrite D3. simpl. by rewrite lookup_insert_ne.
      * intros j Hj. destruct (decide (j = i)) as [->|]; [|by left; rewrite lookup_insert_ne]. destruct Hoi as [(Hst&w&Hw&Hwi)|[Hst Hw]].
        -- right. split; [done|]. split; [by left|]. rewrite Hw. exists w, (set_waiter None WOKEN n). rewrite lookup_insert_eq. by rewrite Hn.
        -- left. rewrite lookup_insert_eq, Hn. simpl. unfold payload, set_waiter. simpl. by rewrite Hst, Hw.
      * right. right. right. split; [done|]. split; [done|]. by intros ? [=].
      * right. right. left. exists i. split; [done|]. exists (set_waiter None WOKEN n). by rewrite lookup_insert_eq.
      * destruct (waiter n); by intros [[?|?] _].
  - injection H as <- <- <- <-. assert (Hx : k ∉ xs) by (by eapply not_in_list). apply (fix_moves ps); try done; [by left; intros []|by intros [[?|?] _]|by intros []].
  - injection H as <- <- <- <-. apply (moves_quiet ps); try done; [by left; intros []|set_solver|intros w' [= ->]; set_solver|by intros [[[?|?] _]|[]]].
Qed.

Lemma caller_moves ps k p p' m h ts m' h' ts' xs :
  mutex_inv ps m h ts xs → ps !! k = Some p → caller_step k p m h ts = Some (p', m', h', ts') → ∃ xs', moves k p p' m h ts xs m' h' ts' xs'.
Proof.
  intros Hi Hk H. destruct p; try done; simpl in H; fold (queue_step k) in *;
    first [by exists xs; eapply try_moves|by eapply queue_moves|by exists xs; eapply wait_moves|by eapply drop_moves|by eapply unlock_moves].
Qed.

Lemma choice_moves ps k p p' m h ts xs :
  mutex_inv ps m h ts xs → ps !! k = Some p → caller_may p p' → moves k p p' m h ts xs m h ts xs.
Proof.
  intros Hi Hk Hp. unfold caller_may in Hp. rewrite !elem_of_cons, elem_of_nil in Hp.
  destruct Hp as [[= -> ->]|[[= -> ->]|[[= -> ->]|[[= -> ->]|[[= -> ->]|[[= -> ->]|[]]]]]]];
    apply (moves_quiet ps); try done; try (by left; intros []); by intros [[[?|?] _]|[]].
Qed.

Lemma mutex_inv_start ps : Forall (eq Idle) ps → Z.of_nat (length ps) < U64 - 1 → mutex_inv ps mutex_new ∅ ∅ [].
Proof.
  intros Hs Hl. rewrite Forall_lookup in Hs. split; try done.
  - apply total_zero. intros k p Hk. by rewrite <- (Hs k p Hk).
  - apply total_zero. intros k p Hk. by rewrite <- (Hs k p Hk).
  - split; try done. apply Dll.dll_nil.
  - intros k p Hk. by rewrite <- (Hs k p Hk).
  - by intros k ?%elem_of_nil.
  - right. by left.
  - intros k p Hk [[?|?] _]; by rewrite <- (Hs k p Hk) in *.
  - intros k p Hk. by rewrite <- (Hs k p Hk).
  - intros k p Hk. by rewrite <- (Hs k p Hk).
Qed.

Lemma mutex_inv_reached s s' : rtc mutex_step s s' → (∃ xs, mutex_inv s.1.1.1 s.1.1.2 s.1.2 s.2 xs) → ∃ xs, mutex_inv s'.1.1.1 s'.1.1.2 s'.1.2 s'.2 xs.
Proof.
  induction 1 as [|x y z Hs _ IH]; [done|]. intros [xs Hi]. apply IH. destruct Hs as [ps m h ts k p p' m' h' ts' Hk H|ps m h ts k p p' Hk H]; simpl in *.
  - destruct (caller_moves _ _ _ _ _ _ _ _ _ _ _ Hi Hk H) as [xs' Hm]. exists xs'. by eapply inv_moves.
  - exists xs. eapply inv_moves; [done|done|]. by apply (choice_moves ps).
Qed.

Lemma mutex_inv_run ps0 ps m h ts :
  Forall (eq Idle) ps0 → Z.of_nat (length ps0) < U64 - 1 → rtc mutex_step (ps0, mutex_new, ∅, ∅) (ps, m, h, ts) → ∃ xs, mutex_inv ps m h ts xs.
Proof. intros Hs Hl Hr. apply (mutex_inv_reached _ _ Hr). exists []. by apply mutex_inv_start. Qed.

(** ** What the mutex promises *)

(** Waiting for the spinlock of the list, which is never held across a wait. *)
Definition wants_list p : Prop := match p with Q_lock _ _ | Fin_lock _ | D_lock | U_lock => True | _ => False end.

Definition awake ts k p : Prop := p ≠ Idle ∧ ¬ asleep ts k p.

Lemma awake_steps ps m h ts xs k p :
  mutex_inv ps m h ts xs → ps !! k = Some p → awake ts k p → ¬ wants_list p ∨ locked (waiters m) = false → is_Some (caller_step k p m h ts).
Proof.
  intros Hi Hk [Hne Has] Hl. pose proof (mi_rep _ _ _ _ _ Hi) as Hrep. pose proof (mi_place _ _ _ _ _ Hi k p Hk) as Hpl.
  assert (Hl' : wants_list p → locked (waiters m) = false) by tauto.
  assert (Hun : place_of p = Linked → ∃ h' l', unlink k h (inner (waiters m)) = Some (true, h', l')).
  { intros E. destruct (unlink_own _ _ _ _ _ k p Hi Hk E) as (h'&l'&_&E'&_). by exists h', l'. }
  destruct p; simpl in *; try done; try (by eexists).
  - case_match; [by eexists|]. by destruct (try_fail k a h).
  - case_match; [by destruct (try_ok k a h)|by destruct (try_fail k a h)].
  - destruct (q_lock_moves _ _ _ _ _ _ _ _ Hi Hk (Hl' I)) as (p1&m1&h1&ts1&xs1&E&_). by eexists.
  - case_match; by eexists.
  - case_match; [|by eexists]. destruct (Hun eq_refl) as (h'&l'&->). by eexists.
  - rewrite (Hl' I). destruct (Hun eq_refl) as (h'&l'&->). destruct c; by eexists.
  - destruct Hpl as (n&->&_). by eexists.
  - case_decide; [by eexists|]. exfalso. apply Has. split; [by left|done].
  - case_decide; [by eexists|]. exfalso. apply Has. split; [by right|done].
  - rewrite (Hl' I). destruct (Hun eq_refl) as (h'&l'&->). by eexists.
  - destruct Hpl as (n&->&_). by eexists.
  - rewrite (Hl' I), (wl_rep_head _ _ _ Hrep). destruct xs as [|i xs]; [by eexists|]. cbn [hd_error].
    destruct (wl_rep_lookup _ _ _ i Hrep) as (n&Hn&_); [by left|]. destruct (take_and_mark_woken_spec h _ _ i n Hrep Hn) as (h1&->&_). by eexists.
Qed.

Lemma list_holder_steps ps m h ts xs :
  mutex_inv ps m h ts xs → locked (waiters m) = true → ∃ j q, ps !! j = Some q ∧ awake ts j q ∧ is_Some (caller_step j q m h ts).
Proof.
  intros Hi Hl. destruct (total_pos in_list ps) as (j&q&Hj&Hq); [rewrite (mi_list _ _ _ _ _ Hi), Hl; lia|]. exists j, q. split; [done|].
  assert (Ha : awake ts j q) by (split; [by intros ->|by intros [[->| ->] _]]). split; [done|].
  apply (awake_steps ps m h ts xs); try done. left. by destruct q; intros [].
Qed.

(** An awake caller steps, or waits for the spinlock of the list, whose holder steps. *)
Lemma awake_progress ps m h ts xs j q :
  mutex_inv ps m h ts xs → ps !! j = Some q → awake ts j q → ∃ i p, ps !! i = Some p ∧ awake ts i p ∧ is_Some (caller_step i p m h ts).
Proof.
  intros Hi Hj Ha. destruct (locked (waiters m)) eqn:El; [by eapply list_holder_steps|]. exists j, q. split; [done|]. split; [done|].
  apply (awake_steps ps m h ts xs); auto.
Qed.

Lemma responsible_awake h ts j q : responsible h j q → awake ts j q.
Proof. intros H. split; [by intros ->|by intros [[->| ->] _]]. Qed.

Lemma asleep_dec ts k p : asleep ts k p ∨ ¬ asleep ts k p.
Proof. unfold asleep. destruct (decide (k ∈ ts)); destruct p; naive_solver. Qed.

(** A linked waiter sleeps only while some caller is awake. *)
Lemma asleep_someone_awake ps m h ts xs k p :
  mutex_inv ps m h ts xs → ps !! k = Some p → asleep ts k p → ∃ j q, ps !! j = Some q ∧ awake ts j q.
Proof.
  intros Hi Hk Has. assert (Hp : place_of p = Linked) by (by destruct Has as [[->| ->] _]).
  destruct (place_linked _ _ _ _ _ k p Hi Hk Hp) as (n&Hn&Ho&Hx).
  destruct (mi_reason _ _ _ _ _ Hi) as [Hl|[(j&q&Hj&Hr)|(i&Hh&Hw)]]; [by intros ->; apply elem_of_nil in Hx|..].
  - destruct (total_pos holds ps) as (j&q&Hj&Hq); [rewrite (mi_lock _ _ _ _ _ Hi), Hl; lia|]. exists j, q. split; [done|].
    split; [by intros ->|by intros [[->| ->] _]].
  - exists j, q. split; [done|]. by eapply responsible_awake.
  - assert (Hix : i ∈ xs) by (destruct xs; [done|]; injection Hh as ->; by left).
    destruct (lookup_lt_is_Some_2 ps i (mi_in _ _ _ _ _ Hi i Hix)) as [q Hq].
    destruct (asleep_dec ts i q) as [Has'|Hna].
    + destruct (mi_wake _ _ _ _ _ Hi i q Hq Has' Hw) as (j&w&Hj&_). exists j, (U_wake w). split; [done|]. split; [done|by intros [[?|?] _]].
    + exists i, q. split; [done|]. split; [|done]. intros ->. pose proof (mi_place _ _ _ _ _ Hi i _ Hq) as Hn0. simpl in Hn0.
        destruct Hw as (n0&Hn1&_). congruence.
Qed.

(** The guard exists, or is being dropped. *)
Definition owns p : Prop := p = Held ∨ p = U_and.

(** C34: mutual exclusion and memory safety.  However threads and tasks interleave in [lock], [try_lock],
    [lock_async], spurious wakes, dropped futures and [unlock], at most one of them has the guard, and
    the word says locked while one has; and no step follows a pointer to a freed node, so that every caller that is not asleep
    can step, or waits for the spinlock of the list while it is taken. *)
Theorem mutex_exclusion ps0 ps m h ts :
  Forall (eq Idle) ps0 → Z.of_nat (length ps0) < U64 - 1 → rtc mutex_step (ps0, mutex_new, ∅, ∅) (ps, m, h, ts) →
  (∀ j k p q, ps !! j = Some p → ps !! k = Some q → owns p → owns q → j = k) ∧
  (∀ k p, ps !! k = Some p → owns p → locked_by m = true) ∧
  (∀ k p, ps !! k = Some p → awake ts k p → is_Some (caller_step k p m h ts) ∨ (wants_list p ∧ locked (waiters m) = true)).
Proof.
  intros Hs Hl Hr. destruct (mutex_inv_run _ _ _ _ _ Hs Hl Hr) as [xs Hi].
  assert (Ho : ∀ p, owns p → holds p = 1) by (by intros p [->| ->]). split; [|split].
  - intros j k p q Hj Hk Hp%Ho Hq%Ho. destruct (decide (j = k)) as [|Hne]; [done|].
    pose proof (total_two holds ps j k p q mutex_holds_nonneg Hj Hk Hne). pose proof (mi_lock _ _ _ _ _ Hi). destruct (locked_by m); lia.
  - intros k p Hk Hp%Ho. by eapply mutex_locked.
  - intros k p Hk Ha. destruct (locked (waiters m)) eqn:El; [|left; apply (awake_steps ps m h ts xs); auto].
    assert (wants_list p ∨ ¬ wants_list p) as [|] by (destruct p; simpl; tauto); [by right|left; apply (awake_steps ps m h ts xs); auto].
Qed.

(** C5: no wake is lost.  In any interleaving, a thread parked in [lock] or a task pending in
    [lock_async] that was not woken sleeps only while some other caller is awake and can step: the holder, a
    caller that is about to wake the head of the list, or a woken waiter that contends again,
    also when a woken task is dropped.  So when all callers came to rest, none sleeps. *)
Theorem mutex_no_lost_wakeup ps0 ps m h ts k p :
  Forall (eq Idle) ps0 → Z.of_nat (length ps0) < U64 - 1 → rtc mutex_step (ps0, mutex_new, ∅, ∅) (ps, m, h, ts) →
  ps !! k = Some p → asleep ts k p → ∃ j q, ps !! j = Some q ∧ awake ts j q ∧ is_Some (caller_step j q m h ts).
Proof.
  intros Hs Hl Hr Hk Has. destruct (mutex_inv_run _ _ _ _ _ Hs Hl Hr) as [xs Hi].
  destruct (asleep_someone_awake _ _ _ _ _ k p Hi Hk Has) as (j&q&Hj&Ha). by eapply awake_progress.
Qed.

(** ** A run *)

(** Caller [k] steps, or makes a choice. *)
Inductive turn := Turn (k : nat) | Choose (k : nat) (p : Caller).

#[global] Instance Attempt_eq_dec : EqDecision Attempt.
Proof. solve_decision. Defined.
#[global] Instance Kind_eq_dec : EqDecision Kind.
Proof. solve_decision. Defined.
#[global] Instance Caller_eq_dec : EqDecision Caller.
Proof. solve_decision. Defined.

Definition mutex_turn (s : system) (t : turn) : option system :=
  let '(ps, m, h, ts) := s in
  match t with
  | Turn k => p ← ps !! k; '(p', m', h', ts') ← caller_step k p m h ts; Some (<[k:=p']> ps, m', h', ts')
  | Choose k p' => p ← ps !! k;
      if bool_decide ((p, p') ∈ [(Idle, Try T_try); (Idle, Try T_lock); (Idle, Try T_async);
            (W_park, W_wait); (A_pending, Try (T_poll POLL_ATTEMPTS true)); (A_pending, D_lock)])
      then Some (<[k:=p']> ps, m, h, ts) else None
  end.

Fixpoint mutex_run (s : system) (turns : list turn) : option system :=
  match turns with [] => Some s | t :: turns => s ← mutex_turn s t; mutex_run s turns end.

Lemma mutex_run_steps s turns s' : mutex_run s turns = Some s' → rtc mutex_step s s'.
Proof.
  revert s. induction turns as [|t turns IH]; intros s; cbn [mutex_run]; [by intros [= ->]|].
  intros (s1&H1&H2)%bind_Some. apply (rtc_l _ _ s1); [|by apply IH]. destruct s as [[[ps m] h] ts]. destruct t as [k|k p']; cbn [mutex_turn] in H1.
  - apply bind_Some in H1 as (p&Hk&H1). apply bind_Some in H1 as ([[[p1 m1] h1] ts1]&Hst&[= <-]). by apply (mutex_step_caller ps m h ts k p).
  - apply bind_Some in H1 as (p&Hk&H1). case_bool_decide as Hc; [|done]. injection H1 as <-. by apply (mutex_step_choice ps m h ts k p).
Qed.

(** Caller 0 takes the lock, caller 1 waits in [lock_async]. *)
Definition demo_turns : list turn :=
  [Choose 0 (Try T_try); Turn 0; Turn 0; Choose 1 (Try T_async)] ++ replicate 8 (Turn 1).

Definition demo_end : system := default ([], mutex_new, ∅, ∅) (mutex_run ([Idle; Idle], mutex_new, ∅, ∅) demo_turns).

Lemma demo_reached : rtc mutex_step ([Idle; Idle], mutex_new, ∅, ∅) demo_end.
Proof. apply (mutex_run_steps _ demo_turns). by vm_compute. Qed.

Lemma mutex_exclusion_witness :
  ∃ ps m h ts, rtc mutex_step ([Idle; Idle], mutex_new, ∅, ∅) (ps, m, h, ts) ∧ ps = [Held; A_pending] ∧ owns Held ∧ locked_by m = true.
Proof.
  destruct demo_end as [[[ps m] h] ts] eqn:E. exists ps, m, h, ts. pose proof demo_reached as Hr. rewrite E in Hr. split; [done|].
  assert (Eps : ps = [Held; A_pending]) by (apply (f_equal (λ s : system, s.1.1.1)) in E; revert E; vm_compute; congruence).
  split; [done|]. split; [by left|].
  destruct (mutex_exclusion [Idle; Idle] ps m h ts ltac:(by repeat constructor) ltac:(done) Hr) as (_&Hl&_).
  apply (Hl 0%nat Held); [by rewrite Eps|by left].
Defined.

Lemma mutex_no_lost_wakeup_witness :
  ∃ ps m h ts, rtc mutex_step ([Idle; Idle], mutex_new, ∅, ∅) (ps, m, h, ts) ∧ asleep ts 1%nat A_pending ∧ ps !! 1%nat = Some A_pending ∧
    ∃ j q, ps !! j = Some q ∧ awake ts j q ∧ is_Some (caller_step j q m h ts).
Proof.
  destruct demo_end as [[[ps m] h] ts] eqn:E. exists ps, m, h, ts. pose proof demo_reached as Hr. rewrite E in Hr. split; [done|].
  assert (Eps : ps = [Held; A_pending]) by (apply (f_equal (λ s : system, s.1.1.1)) in E; revert E; vm_compute; congruence).
  assert (Ets : ts = ∅) by (apply (f_equal (λ s : system, s.2)) in E; cbn [snd] in E; rewrite <- E; by vm_compute).
  assert (Has : asleep ts 1%nat A_pending) by (rewrite Ets; split; [by right|set_solver]).
  split; [done|]. split; [by rewrite Eps|].
  apply (mutex_no_lost_wakeup [Idle; Idle] ps m h ts 1%nat A_pending ltac:(by repeat constructor) ltac:(done) Hr); [by rewrite Eps|done].
Defined.
