(* ===== verification/Ring.v ===== *)
(** * Rings of slots ([channels/src/internal/unsynchronized_ring.rs])

    A buffer of [2^p] slots, indexed by counters that wrap at [2^64] and are masked.  A
    slot holds an initialised value or [None]: writing a slot initialises it and reading
    moves the value out, so that reading an uninitialised slot is undefined behaviour.
    [ring_rep] reads the slots from [head] on as a queue; [channels/src/spsc/shared.rs]
    has the same slots under other indices. *)

From S2P Require Import Prelude.

Section Slots.
Context {T : Type}.
Implicit Types (buf : list (option T)) (xs : list T) (x : T) (mask head i : Z).

(** [write] and [assume_init_read] on the slot [i & mask]. *)
Definition write_slot i mask x buf : option (list (option T)) := vset buf (Z.land i mask) (Some x).
Definition read_slot i mask buf : option (T * list (option T)) :=
  o ← vget buf (Z.land i mask); x ← o; buf' ← vset buf (Z.land i mask) None; Some (x, buf').

(** [n.next_power_of_two()], for [n] up to [2^63]. *)
Definition next_power_of_two (n : Z) : Z := 2 ^ Z.log2_up n.

Record ring_rep buf mask head xs : Prop := {
  rr_mask : ∃ p, 0 ≤ p ≤ 63 ∧ mask + 1 = 2 ^ p;
  rr_buf : Z.of_nat (length buf) = mask + 1;
  rr_head : is_u64 head;
  rr_len : Z.of_nat (length xs) ≤ mask + 1;
  rr_slot (i : nat) : Z.of_nat i < mask + 1 → vget buf (Z.land (head +w Z.of_nat i) mask) = Some (xs !! i);
}.

Lemma next_power_of_two_spec n : 0 < n ≤ 2 ^ 63 → ∃ p, 0 ≤ p ≤ 63 ∧ next_power_of_two n = 2 ^ p ∧ n ≤ 2 ^ p.
Proof.
  intros Hn. exists (Z.log2_up n). pose proof (Z.log2_up_nonneg n). pose proof (Z.log2_up_le_pow2 n 63 ltac:(lia)).
  split; [split; [done|]; tauto|]. split; [done|]. destruct (decide (n = 1)) as [->|]; [done|]. apply Z.log2_up_spec. lia.
Qed.

(** A masked counter is the counter modulo the number of slots. *)
Lemma masked mask head (i : nat) : (∃ p, 0 ≤ p ≤ 63 ∧ mask + 1 = 2 ^ p) → Z.land (head +w Z.of_nat i) mask = (head + Z.of_nat i) mod (mask + 1).
Proof.
  intros (p&Hp&Em). assert (mask = Z.ones p) as -> by (rewrite Z.ones_equiv; lia). rewrite Z.land_ones by lia. rewrite Em.
  unfold u64_add. apply Z.mod_mod_divide.
  exists (2 ^ (64 - p)). unfold U64. rewrite <- Z.pow_add_r by lia. f_equal. lia.
Qed.

Lemma masked_0 mask head : is_u64 head → Z.land head mask = Z.land (head +w Z.of_nat 0) mask.
Proof. intros Hh. f_equal. unfold is_u64 in Hh. rewrite u64_add_small; simpl; lia. Qed.

Lemma mod_shift_inj n head i j : 0 < n → 0 ≤ i < n → 0 ≤ j < n → (head + i) mod n = (head + j) mod n → i = j.
Proof.
  intros Hn Hi Hj E. assert (Ed : (i - j) mod n = 0).
  { replace (i - j) with ((head + i) - (head + j)) by lia. by rewrite Zminus_mod, E, Z.sub_diag, Zmod_0_l. }
  destruct (Z.eq_dec i j) as [|Hne]; [done|]. exfalso. apply Z.mod_divide in Ed; [|lia]. destruct Ed as [q Hq].
  destruct (Z.lt_trichotomy q 0) as [?|[->|?]]; nia.
Qed.

Lemma masked_lt mask i : (∃ p, 0 ≤ p ≤ 63 ∧ mask + 1 = 2 ^ p) → 0 ≤ i → 0 ≤ Z.land i mask < mask + 1.
Proof.
  intros (p&Hp&Em) Hi. assert (mask = Z.ones p) as -> by (rewrite Z.ones_equiv; lia). rewrite Z.land_ones, Em by lia.
  apply Z.mod_pos_bound. lia.
Qed.

Lemma ring_rep_new n : (∃ p, 0 ≤ p ≤ 63 ∧ n = 2 ^ p) → ring_rep (replicate (Z.to_nat n) None) (n - 1) 0 [].
Proof.
  intros (p&Hp&->). assert (0 < 2 ^ p) by lia. assert (Hm : ∃ q, 0 ≤ q ≤ 63 ∧ 2 ^ p - 1 + 1 = 2 ^ q) by (exists p; split; [done|lia]). split; [done| |by vm_compute|simpl; lia|].
  - rewrite length_replicate. lia.
  - intros i Hi. pose proof (masked_lt _ (0 +w Z.of_nat i) Hm ltac:(apply u64_add_range)) as Hlt. unfold vget. destruct (Z.leb_spec 0 (Z.land (0 +w Z.of_nat i) (2 ^ p - 1))); [|lia].
    rewrite lookup_replicate_2 by lia. done.
Qed.

Lemma ring_rep_tail buf mask head xs : ring_rep buf mask head xs → (head +w Z.of_nat (length xs)) -w head = Z.of_nat (length xs).
Proof.
  intros [(p&Hp&Em) _ Hh Hl _]. rewrite Em in Hl. assert (2 ^ p ≤ 2 ^ 63) by (apply Z.pow_le_mono_r; lia). unfold is_u64 in Hh.
  unfold u64_sub, u64_add. rewrite Zminus_mod_idemp_l. rewrite Z.mod_small; unfold U64 in *; lia.
Qed.

Lemma ring_rep_write buf mask head xs x :
  ring_rep buf mask head xs → Z.of_nat (length xs) < mask + 1 →
  ∃ buf', write_slot (head +w Z.of_nat (length xs)) mask x buf = Some buf' ∧ ring_rep buf' mask head (xs ++ [x]).
Proof.
  intros [Hm Hb Hh Hl Hs] Hlt. destruct (vset_spec buf _ (Some x) _ (Hs (length xs) Hlt)) as (buf'&E&El&Hg). exists buf'. split; [done|].
  assert (Hp0 : 0 < mask + 1) by lia. split; [done|congruence|done|rewrite length_app; simpl; lia|]. intros i Hi. rewrite Hg. case_decide as Ed.
  - rewrite !masked in Ed by done. apply mod_shift_inj in Ed; [|lia|lia|lia]. assert (i = length xs) as -> by lia. by rewrite list_lookup_middle.
  - rewrite Hs by done. f_equal. destruct (decide (i = length xs)) as [->|]; [done|].
    destruct (decide (i < length xs)%nat); [by rewrite lookup_app_l|]. rewrite !lookup_ge_None_2; [done|rewrite length_app; simpl; lia|lia].
Qed.

Lemma ring_rep_read buf mask head x xs :
  ring_rep buf mask head (x :: xs) → ∃ buf', read_slot head mask buf = Some (x, buf') ∧ ring_rep buf' mask (head +w 1) xs.
Proof.
  intros [Hm Hb Hh Hl Hs]. simpl in Hl. assert (Hp0 : 0 < mask + 1) by lia. pose proof (Hs 0%nat ltac:(lia)) as H0. rewrite <- masked_0 in H0 by done.
  unfold read_slot. rewrite H0. cbn [mbind option_bind lookup list_lookup].
  destruct (vset_spec buf _ None _ H0) as (buf'&E&El&Hg). rewrite E. exists buf'. split; [done|].
  split; [done|congruence|apply u64_add_range|lia|]. intros i Hi.
  assert (Ei : (head +w 1) +w Z.of_nat i = head +w Z.of_nat (S i)).
  { unfold u64_add. rewrite Zplus_mod_idemp_l. f_equal. lia. }
  rewrite Ei, Hg, (masked_0 mask head Hh). case_decide as Ed.
  - rewrite !masked in Ed by done. destruct (decide (Z.of_nat (S i) < mask + 1)); [apply mod_shift_inj in Ed; lia|].
    rewrite lookup_ge_None_2; [done|lia].
  - destruct (decide (Z.of_nat (S i) < mask + 1)) as [Hlt|Hge]; [by rewrite (Hs (S i) Hlt)|].
    exfalso. apply Ed. rewrite !masked by done. assert (Z.of_nat (S i) = mask + 1) as -> by lia.
    replace (head + (mask + 1)) with (head + Z.of_nat 0 + 1 * (mask + 1)) by (simpl; lia). by rewrite Z_mod_plus_full.
Qed.
End Slots.

(** ** The ring under a lock *)

Module Unsync.
Section Code.
Context {T : Type}.
Implicit Types (xs : list T) (x val : T).

Record UnsynchronizedRingBuffer := mk_ring { buffer : list (option T); mask : Z; head : Z; tail : Z }.
Implicit Types r : UnsynchronizedRingBuffer.

(** [None] is the failed assertion. *)
Definition new (capacity : Z) : option UnsynchronizedRingBuffer :=
  if 0 <? capacity then
    let cap := next_power_of_two capacity in Some (mk_ring (replicate (Z.to_nat cap) None) (cap -w 1) 0 0)
  else None.

Definition capacity r : Z := mask r +w 1.
Definition len r : Z := tail r -w head r.
Definition is_empty r : bool := head r =? tail r.
Definition is_full r : bool := len r =? capacity r.

(** [inl] is [Ok], [inr val] is [Err(val)]. *)
Definition push val r : option ((unit + T) * UnsynchronizedRingBuffer) :=
  if is_full r then Some (inr val, r)
  else
    b ← write_slot (tail r) (mask r) val (buffer r);
    Some (inl (), mk_ring b (mask r) (head r) (tail r +w 1)).

Definition pop r : option (option T * UnsynchronizedRingBuffer) :=
  if is_empty r then Some (None, r)
  else
    '(val, b) ← read_slot (head r) (mask r) (buffer r);
    Some (Some val, mk_ring b (mask r) (head r +w 1) (tail r)).

(** The loop pops once more than there are values; what it dropped is returned. *)
Fixpoint clear_loop (fuel : nat) r : option (list T * UnsynchronizedRingBuffer) :=
  match fuel with
  | O => None
  | S fuel =>
      '(o, r) ← pop r;
      match o with
      | Some x => '(xs, r) ← clear_loop fuel r; Some (x :: xs, r)
      | None => Some ([], r)
      end
  end.

Definition clear r : option (list T * UnsynchronizedRingBuffer) := clear_loop (S (Z.to_nat (len r))) r.

(** ** A bounded queue *)

Record holds r xs : Prop := {
  h_rep : ring_rep (buffer r) (mask r) (head r) xs;
  h_tail : tail r = head r +w Z.of_nat (length xs);
}.

Lemma new_spec cap : 0 < cap ≤ 2 ^ 63 → ∃ r, new cap = Some r ∧ holds r [] ∧ mask r + 1 = next_power_of_two cap.
Proof.
  intros Hc. unfold new. destruct (Z.ltb_spec 0 cap); [|lia]. eexists. split; [done|].
  destruct (next_power_of_two_spec cap Hc) as (p&Hp&Ep&Hle). assert (Hpp : 2 ^ p ≤ 2 ^ 63) by (apply Z.pow_le_mono_r; lia).
  rewrite Ep, u64_sub_small by (unfold U64; lia). split; [|simpl; lia].
  split; simpl; [apply ring_rep_new; by exists p|by vm_compute].
Qed.

Lemma holds_mask r xs : holds r xs → Z.of_nat (length xs) ≤ mask r + 1 ∧ 0 < mask r + 1 ≤ 2 ^ 63.
Proof.
  intros [[(p&Hp&->) _ _ Hl _] _]. assert (2 ^ p ≤ 2 ^ 63) by (apply Z.pow_le_mono_r; lia). lia.
Qed.

Lemma capacity_spec r xs : holds r xs → capacity r = mask r + 1.
Proof. intros Hh. destruct (holds_mask r xs Hh). unfold capacity. rewrite u64_add_small; unfold U64; lia. Qed.

Lemma len_spec r xs : holds r xs → len r = Z.of_nat (length xs).
Proof. intros [Hr Ht]. unfold len. rewrite Ht. by eapply ring_rep_tail. Qed.

Lemma is_empty_spec r xs : holds r xs → is_empty r = bool_decide (xs = []).
Proof.
  intros Hh. pose proof (len_spec r xs Hh) as Hl. destruct Hh as [Hr Ht]. unfold is_empty, len in *. pose proof (rr_head _ _ _ _ Hr) as Hhd.
  destruct (Z.eqb_spec (head r) (tail r)) as [E|E].
  - rewrite <- E in Hl. unfold u64_sub in Hl. rewrite Z.sub_diag, Zmod_0_l in Hl. destruct xs; [done|]. simpl in Hl. lia.
  - case_bool_decide as Ex; [|done]. subst xs. exfalso. apply E. rewrite Ht. unfold is_u64 in Hhd. rewrite u64_add_small; simpl; lia.
Qed.

Lemma is_full_spec r xs : holds r xs → is_full r = (Z.of_nat (length xs) =? mask r + 1).
Proof. intros Hh. unfold is_full. by rewrite (len_spec r xs), (capacity_spec r xs). Qed.

Lemma ring_push_spec val r xs : holds r xs →
  if Z.of_nat (length xs) =? mask r + 1 then push val r = Some (inr val, r)
  else ∃ r', push val r = Some (inl (), r') ∧ holds r' (xs ++ [val]) ∧ mask r' = mask r.
Proof.
  intros Hh. unfold push. rewrite (is_full_spec r xs Hh). destruct (Z.eqb_spec (Z.of_nat (length xs)) (mask r + 1)) as [|Hne]; [done|].
  destruct (holds_mask r xs Hh) as [Hle Hm]. destruct Hh as [Hr Ht]. destruct (ring_rep_write _ _ _ _ val Hr) as (b&E&Hr'); [lia|].
  rewrite Ht, E. eexists. split; [done|]. split; [|done]. split; simpl; [done|].
  rewrite length_app. simpl. unfold u64_add. rewrite Zplus_mod_idemp_l. f_equal. lia.
Qed.

Lemma pop_spec r xs : holds r xs →
  match xs with
  | [] => pop r = Some (None, r)
  | x :: xs => ∃ r', pop r = Some (Some x, r') ∧ holds r' xs ∧ mask r' = mask r
  end.
Proof.
  intros Hh. unfold pop. rewrite (is_empty_spec r xs Hh). destruct xs as [|x xs]; [done|]. rewrite bool_decide_eq_false_2 by done.
  destruct Hh as [Hr Ht]. destruct (ring_rep_read _ _ _ _ _ Hr) as (b&E&Hr'). rewrite E. eexists. split; [done|]. split; [|done]. split; simpl; [done|].
  rewrite Ht. simpl. unfold u64_add. rewrite Zplus_mod_idemp_l. f_equal. lia.
Qed.

Lemma clear_loop_S fuel r :
  clear_loop (S fuel) r = '(o, r) ← pop r; match o with Some x => '(xs, r) ← clear_loop fuel r; Some (x :: xs, r) | None => Some ([], r) end.
Proof. done. Qed.

Lemma ring_clear_spec r xs : holds r xs → ∃ r', clear r = Some (xs, r') ∧ holds r' [] ∧ mask r' = mask r.
Proof.
  intros Hh. unfold clear. rewrite (len_spec r xs Hh), Nat2Z.id. revert r Hh. induction xs as [|x xs IH]; intros r Hh; rewrite clear_loop_S.
  - rewrite (pop_spec r [] Hh). by exists r.
  - destruct (pop_spec r (x :: xs) Hh) as (r1&->&Hh1&Em). destruct (IH r1 Hh1) as (r2&E&Hh2&Em2). cbn [mbind option_bind length].
    rewrite E. exists r2. split; [done|]. split; [done|congruence].
Qed.

Inductive op := Push (val : T) | Pop | Len | Is_empty | Is_full | Clear.
Inductive ret := R_push (r : unit + T) | R_pop (o : option T) | R_len (n : Z) | R_bool (b : bool) | R_dropped (xs : list T).

Definition ring_op (o : op) r : option (ret * UnsynchronizedRingBuffer) :=
  match o with
  | Push val => '(v, r) ← push val r; Some (R_push v, r)
  | Pop => '(v, r) ← pop r; Some (R_pop v, r)
  | Len => Some (R_len (len r), r)
  | Is_empty => Some (R_bool (is_empty r), r)
  | Is_full => Some (R_bool (is_full r), r)
  | Clear => '(xs, r) ← clear r; Some (R_dropped xs, r)
  end.

Fixpoint ring_ops (os : list op) r : option (list ret * UnsynchronizedRingBuffer) :=
  match os with
  | [] => Some ([], r)
  | o :: os => '(v, r) ← ring_op o r; '(vs, r) ← ring_ops os r; Some (v :: vs, r)
  end.

(** The queue of at most [cap] values. *)
Definition queue_op (cap : Z) (o : op) xs : ret * list T :=
  match o with
  | Push val => if Z.of_nat (length xs) =? cap then (R_push (inr val), xs) else (R_push (inl ()), xs ++ [val])
  | Pop => match xs with [] => (R_pop None, []) | x :: xs => (R_pop (Some x), xs) end
  | Len => (R_len (Z.of_nat (length xs)), xs)
  | Is_empty => (R_bool (bool_decide (xs = [])), xs)
  | Is_full => (R_bool (Z.of_nat (length xs) =? cap), xs)
  | Clear => (R_dropped xs, [])
  end.

Fixpoint queue_ops (cap : Z) (os : list op) xs : list ret * list T :=
  match os with
  | [] => ([], xs)
  | o :: os => let '(v, xs) := queue_op cap o xs in let '(vs, xs) := queue_ops cap os xs in (v :: vs, xs)
  end.

Lemma ring_op_spec o r xs : holds r xs →
  ∃ r', ring_op o r = Some ((queue_op (mask r + 1) o xs).1, r') ∧ holds r' (queue_op (mask r + 1) o xs).2 ∧ mask r' = mask r.
Proof.
  intros Hh. destruct o; simpl.
  - pose proof (ring_push_spec val r xs Hh) as Hp. destruct (_ =? _); [rewrite Hp; by exists r|destruct Hp as (r'&->&?&?); by exists r'].
  - pose proof (pop_spec r xs Hh) as Hp. destruct xs as [|x xs]; [rewrite Hp; by exists r|destruct Hp as (r'&->&?&?); by exists r'].
  - rewrite (len_spec r xs Hh). by exists r.
  - rewrite (is_empty_spec r xs Hh). by exists r.
  - rewrite (is_full_spec r xs Hh). by exists r.
  - destruct (ring_clear_spec r xs Hh) as (r'&->&?&?). by exists r'.
Qed.

(** C35: the ring refines a bounded queue.  A ring made for [cap] values holds the next power of
    two; any sequence of pushes, pops, queries and clears returns what the queue of that size
    returns, reads no uninitialised slot and overwrites no value, also when the indices wrap at [2^64]; a
    clear drops exactly the values that were left. *)
Theorem unsync_ring_refines cap (os : list op) :
  0 < cap ≤ 2 ^ 63 →
  ∃ r0 r, new cap = Some r0 ∧ ring_ops os r0 = Some ((queue_ops (next_power_of_two cap) os []).1, r) ∧
    holds r (queue_ops (next_power_of_two cap) os []).2.
Proof.
  intros Hc. destruct (new_spec cap Hc) as (r0&E0&Hh&Em). exists r0. rewrite E0, <- Em. clear E0 Em.
  assert (Hgo : ∀ xs r, holds r xs → mask r = mask r0 → ∃ r', ring_ops os r = Some ((queue_ops (mask r0 + 1) os xs).1, r') ∧ holds r' (queue_ops (mask r0 + 1) os xs).2).
  { clear Hh. induction os as [|o os IH]; intros xs r Hh Em; [by exists r|]. cbn [ring_ops queue_ops].
    destruct (ring_op_spec o r xs Hh) as (r1&E1&Hh1&Em1). rewrite E1, Em in *. cbn [mbind option_bind]. destruct (queue_op (mask r0 + 1) o xs) as [v xs1]. simpl in *.
    destruct (IH xs1 r1 Hh1 ltac:(congruence)) as (r2&E2&Hh2). rewrite E2. cbn [mbind option_bind]. destruct (queue_ops (mask r0 + 1) os xs1) as [vs xs2]. by exists r2. }
  destruct (Hgo [] r0 Hh eq_refl) as (r&?&?). by exists r.
Qed.
End Code.
End Unsync.

Lemma unsync_ring_refines_witness :
  ∃ r0 r : Unsync.UnsynchronizedRingBuffer (T:=nat), Unsync.new 2 = Some r0 ∧
    Unsync.ring_ops [Unsync.Push 1%nat; Unsync.Push 2%nat; Unsync.Push 3%nat; Unsync.Pop; Unsync.Push 4%nat; Unsync.Clear] r0 =
      Some ([Unsync.R_push (inl ()); Unsync.R_push (inl ()); Unsync.R_push (inr 3%nat); Unsync.R_pop (Some 1%nat); Unsync.R_push (inl ()); Unsync.R_dropped [2%nat; 4%nat]], r).
Proof.
  destruct (Unsync.unsync_ring_refines 2 [Unsync.Push 1%nat; Unsync.Push 2%nat; Unsync.Push 3%nat; Unsync.Pop; Unsync.Push 4%nat; Unsync.Clear] ltac:(lia))
    as (r0&r&H1&H2&_). by exists r0, r.
Defined.
