(* ===== verification/MpmcCore.v ===== *)
(** * The core of the bounded MPMC channel ([channels/src/mpmc_v2/core.rs])

    One mutex protects the ring, its cached length, the four queues of parked
    waiters and the handle counts.  A waiter in a queue points to its state cell, which lives
    in its owner's frame or future: an index into the map of live cells, so that using the cell of a
    finished owner is undefined behaviour, [None].  An operation here is one critical
    section; threads that were woken are added to a set of pending wakes. *)

From S2P Require Import Prelude.
From S2P Require Import Ring.

Definition STATE_WAITING : Z := 0.
Definition STATE_SUCCESS_SPACE : Z := 3.
Definition STATE_CLOSED_BUFFERED : Z := 1.
Definition STATE_CLOSED_RENDEZVOUS : Z := 5.
Definition STATE_CANCELLED : Z := 8.

Inductive TrySendError (T : Type) := Full (item : T) | Closed (item : T).
Arguments Full {T}.
Arguments Closed {T}.
Inductive TryRecvError := Empty | Disconnected.
Inductive BatchSendErrorReason := B_Full | B_Closed.

Record MpmcChannelInternal (T : Type) := mk_channel {
  queue : Unsync.UnsynchronizedRingBuffer (T:=T);
  queue_len : Z;
  waiting_sync_senders : list nat;
  waiting_async_senders : list nat;
  waiting_sync_receivers : list nat;
  waiting_async_receivers : list nat;
  sender_count : Z;
  receiver_count : Z;
}.
Arguments mk_channel {T}.
Arguments queue {T}.
Arguments queue_len {T}.
Arguments waiting_sync_senders {T}.
Arguments waiting_async_senders {T}.
Arguments waiting_sync_receivers {T}.
Arguments waiting_async_receivers {T}.
Arguments sender_count {T}.
Arguments receiver_count {T}.

Notation cells_map := (gmap nat Z).

(** A blocked thread, or a task with a future. *)
Inductive Kind := Sync | Async.

#[global] Instance Kind_eq_dec : EqDecision Kind.
Proof. solve_decision. Defined.

Section Code.
Context {T : Type}.
Notation channel := (MpmcChannelInternal T).
Implicit Types (c : channel) (cells : cells_map) (ts : gset nat) (item : T) (k w : nat) (ws : list nat) (cap : Z).

Definition with_queue q n c : channel :=
  mk_channel q n (waiting_sync_senders c) (waiting_async_senders c) (waiting_sync_receivers c) (waiting_async_receivers c) (sender_count c) (receiver_count c).
Definition with_senders ss sa c : channel :=
  mk_channel (queue c) (queue_len c) ss sa (waiting_sync_receivers c) (waiting_async_receivers c) (sender_count c) (receiver_count c).
Definition with_receivers rs ra c : channel :=
  mk_channel (queue c) (queue_len c) (waiting_sync_senders c) (waiting_async_senders c) rs ra (sender_count c) (receiver_count c).
Definition with_counts s r c : channel :=
  mk_channel (queue c) (queue_len c) (waiting_sync_senders c) (waiting_async_senders c) (waiting_sync_receivers c) (waiting_async_receivers c) s r.

Definition len c : Z := queue_len c.
Definition is_empty c : bool := queue_len c =? 0.
Definition is_full cap c : bool := if cap =? 0 then queue_len c =? 1 else queue_len c =? cap.

Definition push_back item c : option ((unit + T) * channel) :=
  '(r, q) ← Unsync.push item (queue c);
  Some (match r with inl _ => (inl (), with_queue q (queue_len c +w 1) c) | inr x => (inr x, with_queue q (queue_len c) c) end).

(** [push_back(item).ok().expect(..)]. *)
Definition push_expect item c : option channel :=
  '(r, c) ← push_back item c; match r with inl _ => Some c | inr _ => None end.

Definition pop_front c : option (option T * channel) :=
  '(o, q) ← Unsync.pop (queue c);
  Some (match o with Some x => (Some x, with_queue q (queue_len c -w 1) c) | None => (None, with_queue q (queue_len c) c) end).

Fixpoint drain_loop (n : nat) (q : Unsync.UnsynchronizedRingBuffer (T:=T)) : option (list T * Unsync.UnsynchronizedRingBuffer (T:=T)) :=
  match n with
  | O => Some ([], q)
  | S n => '(o, q) ← Unsync.pop q; '(xs, q) ← drain_loop n q; Some (option_list o ++ xs, q)
  end.

(** What [drain_into] appends to [out]. *)
Definition drain_into (count : Z) c : option (list T * channel) :=
  '(xs, q) ← drain_loop (Z.to_nat count) (queue c); Some (xs, with_queue q (queue_len c -w count) c).

Definition shared_new cap : option channel :=
  q ← Unsync.new cap; Some (mk_channel q 0 [] [] [] [] 1 1).

(** [compare_exchange] on the cell of waiter [k]. *)
Definition cas_cell k (old new : Z) cells : option (bool * cells_map) :=
  s ← cells !! k; Some (if s =? old then (true, <[k:=new]> cells) else (false, cells)).

(** The scan for a waiter still waiting, which is taken out of the queue. *)
Fixpoint claim ws cells : option (option nat * list nat * cells_map) :=
  match ws with
  | [] => Some (None, [], cells)
  | w :: ws =>
      '(ok, cells) ← cas_cell w STATE_WAITING STATE_SUCCESS_SPACE cells;
      if (ok : bool) then Some (Some w, ws, cells)
      else '(r, ws, cells) ← claim ws cells; Some (r, w :: ws, cells)
  end.

(** The scan of the batch send, which drops the waiters it passes. *)
Fixpoint pop_claim ws cells : option (option nat * list nat * cells_map) :=
  match ws with
  | [] => Some (None, [], cells)
  | w :: ws =>
      '(ok, cells) ← cas_cell w STATE_WAITING STATE_SUCCESS_SPACE cells;
      if (ok : bool) then Some (Some w, ws, cells) else pop_claim ws cells
  end.

(** A receiver to hand an item to: tasks first; none when the buffer is full. *)
Definition claim_receiver scan cap c cells : option (option nat * channel * cells_map) :=
  if is_full cap c then Some (None, c, cells)
  else
    '(r, ra, cells) ← (scan (waiting_async_receivers c) cells : option (option nat * list nat * cells_map));
    let c := with_receivers (waiting_sync_receivers c) ra c in
    match r with
    | Some w => Some (Some w, c, cells)
    | None =>
        '(r, rs, cells) ← (scan (waiting_sync_receivers c) cells : option (option nat * list nat * cells_map));
        Some (r, with_receivers rs (waiting_async_receivers c) c, cells)
    end.

Definition claim_sender c cells : option (option nat * channel * cells_map) :=
  '(r, sa, cells) ← claim (waiting_async_senders c) cells;
  let c := with_senders (waiting_sync_senders c) sa c in
  match r with
  | Some w => Some (Some w, c, cells)
  | None =>
      '(r, ss, cells) ← claim (waiting_sync_senders c) cells;
      Some (r, with_senders ss (waiting_async_senders c) c, cells)
  end.

Definition wake_opt (r : option nat) ts : gset nat := match r with Some w => {[w]} ∪ ts | None => ts end.

Definition try_send_core cap item c cells ts : option ((unit + TrySendError T) * channel * cells_map * gset nat) :=
  if receiver_count c =? 0 then Some (inr (Closed item), c, cells, ts)
  else
    '(r, c, cells) ← claim_receiver claim cap c cells;
    match r with
    | Some w => c ← push_expect item c; Some (inl (), c, cells, wake_opt (Some w) ts)
    | None =>
        if cap =? 0 then Some (inr (Full item), c, cells, ts)
        else if len c <? cap then c ← push_expect item c; Some (inl (), c, cells, ts)
        else Some (inr (Full item), c, cells, ts)
    end.

Definition try_recv_core cap c cells ts : option ((T + TryRecvError) * channel * cells_map * gset nat) :=
  '(o, c) ← pop_front c;
  match o with
  | Some item =>
      if 0 <? cap then '(r, c, cells) ← claim_sender c cells; Some (inl item, c, cells, wake_opt r ts)
      else Some (inl item, c, cells, ts)
  | None => Some (inr (if sender_count c =? 0 then Disconnected else Empty), c, cells, ts)
  end.

(** The loop of the batch send over [items], the rest of the iterator; the items sent. *)
Fixpoint send_loop cap (items : list T) c cells ts : option (nat * channel * cells_map * gset nat) :=
  match items with
  | [] => Some (0%nat, c, cells, ts)
  | item :: items =>
      '(r, c, cells) ← claim_receiver pop_claim cap c cells;
      let again c cells ts := '(n, c, cells, ts) ← send_loop cap items c cells ts; Some (S n, c, cells, ts) in
      match r with
      | Some w => c ← push_expect item c; again c cells (wake_opt (Some w) ts)
      | None =>
          if cap =? 0 then Some (0%nat, c, cells, ts)
          else if len c <? cap then c ← push_expect item c; again c cells ts
          else Some (0%nat, c, cells, ts)
      end
  end.

(** [items] are the next [limit] items; the result counts how many were sent. *)
Definition try_send_batch_core cap (items : list T) c cells ts : option (nat * option BatchSendErrorReason * channel * cells_map * gset nat) :=
  match items with
  | [] => Some (0%nat, None, c, cells, ts)
  | _ =>
      if receiver_count c =? 0 then Some (0%nat, Some B_Closed, c, cells, ts)
      else
        '(n, c, cells, ts) ← send_loop cap items c cells ts;
        Some (n, if bool_decide (n = length items) then None else Some B_Full, c, cells, ts)
  end.

(** Up to [n] senders woken. *)
Fixpoint wake_senders (n : nat) c cells ts : option (channel * cells_map * gset nat) :=
  match n with
  | O => Some (c, cells, ts)
  | S n =>
      '(r, c, cells) ← claim_sender c cells;
      match r with Some w => wake_senders n c cells (wake_opt (Some w) ts) | None => Some (c, cells, ts) end
  end.

Definition try_recv_batch_core cap (max : Z) c cells ts : option ((list T + TryRecvError) * channel * cells_map * gset nat) :=
  if max =? 0 then Some (inl [], c, cells, ts)
  else
    let from_buffer := Z.min max (len c) in
    '(out, c) ← (if 0 <? from_buffer then drain_into from_buffer c else Some ([], c));
    '(c, cells, ts) ← (if (0 <? cap) && (0 <? from_buffer) then wake_senders (Z.to_nat (from_buffer +w (max -w from_buffer))) c cells ts
                       else Some (c, cells, ts));
    Some (if from_buffer =? 0 then inr (if sender_count c =? 0 then Disconnected else Empty) else inl out, c, cells, ts).

(** ** Closing a handle ([close_internal] of [mpmc_v2/mod.rs]) *)

(** The loop over a queue: every waiting waiter gets [state]; those that did are to be woken. *)
Fixpoint mark_all (state : Z) ws cells : option (list nat * cells_map) :=
  match ws with
  | [] => Some ([], cells)
  | w :: ws =>
      '(ok, cells) ← cas_cell w STATE_WAITING state cells;
      '(to_wake, cells) ← mark_all state ws cells;
      Some (if (ok : bool) then w :: to_wake else to_wake, cells)
  end.

Definition close_sender c cells : option (list nat * channel * cells_map) :=
  let c := with_counts (sender_count c -w 1) (receiver_count c) c in
  if sender_count c =? 0 then
    '(w1, cells) ← mark_all STATE_CLOSED_BUFFERED (waiting_sync_receivers c) cells;
    '(w2, cells) ← mark_all STATE_CLOSED_BUFFERED (waiting_async_receivers c) cells;
    Some (w1 ++ w2, c, cells)
  else Some ([], c, cells).

Definition close_receiver cap c cells : option (list nat * channel * cells_map) :=
  let c := with_counts (sender_count c) (receiver_count c -w 1) c in
  let closed_state := if receiver_count c =? 0 then (if cap =? 0 then STATE_CLOSED_RENDEZVOUS else STATE_CLOSED_BUFFERED) else STATE_SUCCESS_SPACE in
  let some_of ws := if receiver_count c =? 0 then ws else take 1 ws in
  '(w1, cells) ← mark_all closed_state (some_of (waiting_sync_senders c)) cells;
  '(w2, cells) ← mark_all closed_state (some_of (waiting_async_senders c)) cells;
  Some (w1 ++ w2, c, cells).
End Code.

(** ** What the buffer holds *)

Section Buffer.
Context {T : Type}.
Notation channel := (MpmcChannelInternal T).
Implicit Types (c : channel) (cells : cells_map) (ts : gset nat) (item x : T) (xs : list T) (cap : Z) (ws : list nat).

Record buffer_ok cap c xs : Prop := {
  bo_holds : Unsync.holds (queue c) xs;
  bo_mask : Unsync.mask (queue c) + 1 = next_power_of_two cap;
  bo_len : queue_len c = Z.of_nat (length xs);
  bo_cap : Z.of_nat (length xs) ≤ cap;
}.

(** Everything but the buffer. *)
Definition same_buffer c c' : Prop := queue c' = queue c ∧ queue_len c' = queue_len c.

Lemma same_buffer_ok cap c c' xs : same_buffer c c' → buffer_ok cap c xs → buffer_ok cap c' xs.
Proof. intros [E1 E2] [H1 H2 H3 H4]. split; rewrite ?E1, ?E2; done. Qed.

Lemma buffer_full cap c xs : 0 < cap → buffer_ok cap c xs → is_full cap c = (Z.of_nat (length xs) =? cap).
Proof. intros Hc Hb. unfold is_full. destruct (Z.eqb_spec cap 0); [lia|]. by rewrite (bo_len _ _ _ Hb). Qed.

Lemma push_expect_spec cap c xs item :
  0 < cap ≤ 2 ^ 63 → buffer_ok cap c xs → Z.of_nat (length xs) < cap →
  ∃ q n, push_expect item c = Some (with_queue q n c) ∧ buffer_ok cap (with_queue q n c) (xs ++ [item]).
Proof.
  intros Hc [Hh Hm Hl Hle] Hlt. unfold push_expect, push_back. pose proof (Unsync.ring_push_spec item _ _ Hh) as Hp.
  destruct (next_power_of_two_spec cap Hc) as (p&Hp63&Ep&Hge). rewrite Hm, Ep in Hp.
  destruct (Z.eqb_spec (Z.of_nat (length xs)) (2 ^ p)); [lia|]. destruct Hp as (q&->&Hq&Em).
  exists q, (queue_len c +w 1). split; [done|]. split; simpl; [done|by rewrite Em|..]; rewrite length_app; simpl; [|lia].
  rewrite Hl, u64_add_small; unfold U64; lia.
Qed.

Lemma pop_front_spec cap c xs :
  0 < cap ≤ 2 ^ 63 → buffer_ok cap c xs →
  ∃ q n, pop_front c = Some (hd_error xs, with_queue q n c) ∧ buffer_ok cap (with_queue q n c) (tail xs).
Proof.
  intros Hc [Hh Hm Hl Hle]. unfold pop_front. pose proof (Unsync.pop_spec _ _ Hh) as Hp. destruct xs as [|x xs].
  - rewrite Hp. exists (queue c), (queue_len c). split; [done|]. by split.
  - destruct Hp as (q&->&Hq&Em). exists q, (queue_len c -w 1). split; [done|]. simpl in *. split; simpl; [done|by rewrite Em| |lia].
    rewrite Hl, u64_sub_small; unfold U64; lia.
Qed.

Lemma mpmc_drain_loop_spec n (q : Unsync.UnsynchronizedRingBuffer) xs :
  Unsync.holds q xs → ∃ q', drain_loop n q = Some (take n xs, q') ∧ Unsync.holds q' (drop n xs) ∧ Unsync.mask q' = Unsync.mask q.
Proof.
  revert q xs. induction n as [|n IH]; intros q xs Hh; cbn [drain_loop]; [by exists q|].
  pose proof (Unsync.pop_spec _ _ Hh) as Hp. destruct xs as [|x xs].
  - rewrite Hp. cbn [mbind option_bind]. destruct (IH q [] Hh) as (q'&->&Hh'&Em). rewrite take_nil, drop_nil in *. by exists q'.
  - destruct Hp as (q1&->&Hh1&Em1). cbn [mbind option_bind]. destruct (IH q1 xs Hh1) as (q'&->&Hh'&Em). exists q'. split; [done|]. split; [done|congruence].
Qed.

Lemma drain_into_spec cap c xs (n : Z) :
  0 < cap ≤ 2 ^ 63 → buffer_ok cap c xs → 0 ≤ n ≤ Z.of_nat (length xs) →
  ∃ q m, drain_into n c = Some (take (Z.to_nat n) xs, with_queue q m c) ∧ buffer_ok cap (with_queue q m c) (drop (Z.to_nat n) xs).
Proof.
  intros Hc [Hh Hm Hl Hle] Hn. unfold drain_into. destruct (mpmc_drain_loop_spec (Z.to_nat n) _ _ Hh) as (q&->&Hh'&Em).
  exists q, (queue_len c -w n). split; [done|]. split; simpl; [done|by rewrite Em|..]; rewrite length_drop; [|lia].
  rewrite Hl, u64_sub_small; [lia|lia|unfold U64; lia].
Qed.

Lemma shared_new_spec cap : 0 < cap ≤ 2 ^ 63 → ∃ c, shared_new cap = Some c ∧ buffer_ok cap c [] ∧
  waiting_sync_senders c = [] ∧ waiting_async_senders c = [] ∧ waiting_sync_receivers c = [] ∧ waiting_async_receivers c = [] ∧ sender_count c = 1 ∧ receiver_count c = 1.
Proof.
  intros Hc. destruct (Unsync.new_spec (T:=T) cap Hc) as (q&E&Hq&Em). unfold shared_new. rewrite E. eexists. split; [done|]. split; [|done].
  split; simpl; [done|done|done|lia].
Qed.

(** Scans and closing leave the buffer alone. *)
Lemma claim_receiver_buffer scan cap c cells r c' cells' : claim_receiver scan cap c cells = Some (r, c', cells') → same_buffer c c'.
Proof.
  unfold claim_receiver. destruct (is_full cap c); [by intros [= <- <- <-]|]. intros ([[o ra] cl]&_&H)%bind_Some.
  destruct o as [w|]; [by injection H as <- <- <-|]. apply bind_Some in H as ([[o rs] cl']&_&[= <- <- <-]). done.
Qed.

Lemma claim_sender_buffer c cells r c' cells' : claim_sender c cells = Some (r, c', cells') → same_buffer c c'.
Proof.
  unfold claim_sender. intros ([[o sa] cl]&_&H)%bind_Some. destruct o as [w|]; [by injection H as <- <- <-|].
  apply bind_Some in H as ([[o ss] cl']&_&[= <- <- <-]). done.
Qed.

Lemma wake_senders_buffer n c cells ts c' cells' ts' : wake_senders n c cells ts = Some (c', cells', ts') → same_buffer c c'.
Proof.
  revert c cells ts. induction n as [|n IH]; intros c cells ts; cbn [wake_senders]; [by intros [= <- <- <-]|].
  intros ([[r c1] cl1]&E&H)%bind_Some. apply claim_sender_buffer in E as [E1 E2]. destruct r as [w|].
  - apply IH in H as [E3 E4]. split; congruence.
  - injection H as <- <- <-. done.
Qed.

Lemma close_sender_buffer c cells ws c' cells' : close_sender c cells = Some (ws, c', cells') → same_buffer c c'.
Proof.
  unfold close_sender. destruct (_ =? _); [|by intros [= <- <- <-]]. intros ([w1 cl]&_&H)%bind_Some. apply bind_Some in H as ([w2 cl2]&_&[= <- <- <-]). done.
Qed.

Lemma close_receiver_buffer cap c cells ws c' cells' : close_receiver cap c cells = Some (ws, c', cells') → same_buffer c c'.
Proof. unfold close_receiver. intros ([w1 cl]&_&H)%bind_Some. apply bind_Some in H as ([w2 cl2]&_&[= <- <- <-]). done. Qed.

Lemma push_expect_buffer cap c c' xs item :
  0 < cap ≤ 2 ^ 63 → buffer_ok cap c xs → Z.of_nat (length xs) < cap → push_expect item c = Some c' → buffer_ok cap c' (xs ++ [item]).
Proof. intros Hc Hb Hl E. destruct (push_expect_spec cap c xs item Hc Hb Hl) as (q&n&E'&Hb'). rewrite E' in E. by injection E as <-. Qed.

(** A claim of a receiver means that there is room. *)
Lemma claim_receiver_room scan cap c cells w c' cells' xs :
  0 < cap → buffer_ok cap c xs → claim_receiver scan cap c cells = Some (Some w, c', cells') → Z.of_nat (length xs) < cap.
Proof.
  intros Hc Hb. unfold claim_receiver. rewrite (buffer_full cap c xs Hc Hb). pose proof (bo_cap _ _ _ Hb).
  destruct (Z.eqb_spec (Z.of_nat (length xs)) cap); [by intros [=]|lia].
Qed.

Lemma try_send_core_buffer cap item c cells ts r c' cells' ts' xs :
  0 < cap ≤ 2 ^ 63 → buffer_ok cap c xs → try_send_core cap item c cells ts = Some (r, c', cells', ts') →
  match r with
  | inl _ => buffer_ok cap c' (xs ++ [item])
  | inr e => buffer_ok cap c' xs ∧ (e = Closed item ∧ receiver_count c = 0 ∨ e = Full item ∧ Z.of_nat (length xs) = cap)
  end.
Proof.
  intros Hc Hb. unfold try_send_core. destruct (Z.eqb_spec (receiver_count c) 0); [by intros [= <- <- <- <-]; auto|].
  intros ([[o c1] cl1]&E&H)%bind_Some. pose proof (claim_receiver_buffer _ _ _ _ _ _ _ E) as Hs.
  pose proof (same_buffer_ok cap _ _ xs Hs Hb) as Hb1. destruct o as [w|].
  - pose proof (claim_receiver_room _ _ _ _ _ _ _ xs (proj1 Hc) Hb E). apply bind_Some in H as (c2&E2&[= <- <- <- <-]). by eapply push_expect_buffer.
  - destruct (Z.eqb_spec cap 0); [lia|]. unfold len in H. rewrite (bo_len _ _ _ Hb1) in H. pose proof (bo_cap _ _ _ Hb). destruct (Z.ltb_spec (Z.of_nat (length xs)) cap).
    + apply bind_Some in H as (c2&E2&[= <- <- <- <-]). by eapply push_expect_buffer.
    + injection H as <- <- <- <-. split; [done|]. right. split; [done|lia].
Qed.

Lemma try_recv_core_buffer cap c cells ts r c' cells' ts' xs :
  0 < cap ≤ 2 ^ 63 → buffer_ok cap c xs → try_recv_core cap c cells ts = Some (r, c', cells', ts') →
  buffer_ok cap c' (tail xs) ∧ match r with inl x => hd_error xs = Some x | inr e => xs = [] ∧ (e = Disconnected ↔ sender_count c = 0) end.
Proof.
  intros Hc Hb. unfold try_recv_core. destruct (pop_front_spec cap c xs Hc Hb) as (q&n&->&Hb1). cbn [mbind option_bind].
  destruct xs as [|x xs]; cbn [hd_error].
  - intros [= <- <- <- <-]. split; [done|]. split; [done|]. cbn [sender_count with_queue]. destruct (Z.eqb_spec (sender_count c) 0); naive_solver.
  - destruct (Z.ltb_spec 0 cap); [|lia]. intros ([[o c1] cl1]&E&[= <- <- <- <-])%bind_Some. split; [|done].
    eapply same_buffer_ok; [by eapply claim_sender_buffer|done].
Qed.

Lemma send_loop_buffer cap items c cells ts n c' cells' ts' xs :
  0 < cap ≤ 2 ^ 63 → buffer_ok cap c xs → send_loop cap items c cells ts = Some (n, c', cells', ts') →
  buffer_ok cap c' (xs ++ take n items) ∧ (n ≤ length items)%nat.
Proof.
  intros Hc. revert c cells ts n xs. induction items as [|item items IH]; intros c cells ts n xs Hb; cbn [send_loop].
  - intros [= <- <- <- <-]. rewrite take_nil, app_nil_r. done.
  - intros ([[o c1] cl1]&E&H)%bind_Some. pose proof (claim_receiver_buffer _ _ _ _ _ _ _ E) as Hs.
    pose proof (same_buffer_ok cap _ _ xs Hs Hb) as Hb1.
    assert (Hagain : ∀ c2 cl2 ts2, Z.of_nat (length xs) < cap → push_expect item c1 = Some c2 →
      ('(n, c, cells, ts) ← send_loop cap items c2 cl2 ts2; Some (S n, c, cells, ts)) = Some (n, c', cells', ts') →
      buffer_ok cap c' (xs ++ take n (item :: items)) ∧ (n ≤ length (item :: items))%nat).
    { intros c2 cl2 ts2 Hl E2 ([[[m c3] cl3] ts3]&E3&[= <- <- <- <-])%bind_Some.
      destruct (IH _ _ _ _ (xs ++ [item]) ltac:(by eapply push_expect_buffer) E3) as [Hb3 Hle]. rewrite <- app_assoc in Hb3. simpl. split; [done|lia]. }
    destruct o as [w|].
    + apply bind_Some in H as (c2&E2&H). eapply Hagain; [by apply (claim_receiver_room _ _ _ _ _ _ _ xs (proj1 Hc) Hb E)|done|exact H].
    + destruct (Z.eqb_spec cap 0); [lia|]. unfold len in H. rewrite (bo_len _ _ _ Hb1) in H. destruct (Z.ltb_spec (Z.of_nat (length xs)) cap).
      * apply bind_Some in H as (c2&E2&H). by eapply Hagain.
      * injection H as <- <- <- <-. simpl. rewrite app_nil_r. split; [done|lia].
Qed.

Lemma try_send_batch_core_buffer cap items c cells ts n e c' cells' ts' xs :
  0 < cap ≤ 2 ^ 63 → buffer_ok cap c xs → try_send_batch_core cap items c cells ts = Some (n, e, c', cells', ts') →
  buffer_ok cap c' (xs ++ take n items) ∧ (n ≤ length items)%nat.
Proof.
  intros Hc Hb. unfold try_send_batch_core. destruct items as [|item items]; [intros [= <- <- <- <- <-]; by rewrite take_nil, app_nil_r|].
  destruct (_ =? _); [intros [= <- <- <- <- <-]; simpl; rewrite app_nil_r; split; [done|lia]|].
  intros ([[[m c1] cl1] ts1]&E&[= <- <- <- <- <-])%bind_Some. by eapply send_loop_buffer.
Qed.

Lemma try_recv_batch_core_buffer cap max c cells ts r c' cells' ts' xs :
  0 < cap ≤ 2 ^ 63 → 0 ≤ max → buffer_ok cap c xs → try_recv_batch_core cap max c cells ts = Some (r, c', cells', ts') →
  match r with
  | inl out => out = take (Z.to_nat max) xs ∧ buffer_ok cap c' (drop (Z.to_nat max) xs)
  | inr e => xs = [] ∧ buffer_ok cap c' xs
  end.
Proof.
  intros Hc Hmax Hb. unfold try_recv_batch_core. destruct (Z.eqb_spec max 0) as [->|]; [by intros [= <- <- <- <-]|].
  unfold len. rewrite (bo_len _ _ _ Hb). set (fb := Z.min max (Z.of_nat (length xs))).
  assert (Hfb : 0 ≤ fb ≤ Z.of_nat (length xs)) by lia.
  assert (Et : take (Z.to_nat fb) xs = take (Z.to_nat max) xs ∧ drop (Z.to_nat fb) xs = drop (Z.to_nat max) xs).
  { destruct (decide (max ≤ Z.of_nat (length xs))); [by replace fb with max by lia|]. rewrite !take_ge, !drop_ge by lia. done. }
  destruct Et as [Et Ed].
  assert (E1 : ∃ c1, (if 0 <? fb then drain_into fb c else Some ([], c)) = Some (take (Z.to_nat fb) xs, c1) ∧ buffer_ok cap c1 (drop (Z.to_nat fb) xs)).
  { destruct (Z.ltb_spec 0 fb); [destruct (drain_into_spec cap c xs fb Hc Hb Hfb) as (q&m&->&?); by exists (with_queue q m c)|].
    replace fb with 0 by lia. by exists c. }
  destruct E1 as (c1&->&Hb1). cbn [mbind option_bind]. intros ([[c2 cl2] ts2]&E2&[= <- <- <- <-])%bind_Some.
  assert (Hb2 : buffer_ok cap c2 (drop (Z.to_nat fb) xs)).
  { destruct ((0 <? cap) && (0 <? fb)); [|by injection E2 as <- <- <-]. eapply same_buffer_ok; [by eapply wake_senders_buffer|done]. }
  destruct (Z.eqb_spec fb 0) as [Ez|]; [|by rewrite Et, <- Ed]. assert (xs = []) as -> by (destruct xs; [done|simpl in *; lia]).
  by rewrite drop_nil in Hb2.
Qed.
End Buffer.

(** ** What the scans do to the queues and the cells *)

Section Scans.
Context {T : Type}.
Notation channel := (MpmcChannelInternal T).
Implicit Types (c : channel) (cells : cells_map) (ts : gset nat) (ws : list nat) (w v k : nat) (d : Kind) (cap : Z).

Definition senders d c : list nat := match d with Sync => waiting_sync_senders c | Async => waiting_async_senders c end.
Definition receivers d c : list nat := match d with Sync => waiting_sync_receivers c | Async => waiting_async_receivers c end.

(** No pointer dangles. *)
Definition live cells ws : Prop := ∀ w, w ∈ ws → is_Some (cells !! w).

Definition scan_ok ws cells (r : option nat) ws' cells' : Prop :=
  ws' `sublist_of` ws ∧ (∀ v, v ∈ ws → cells' !! v = Some STATE_WAITING → v ∈ ws') ∧
  match r with
  | None => cells' = cells ∧ ∀ v, v ∈ ws → cells !! v ≠ Some STATE_WAITING
  | Some w => w ∈ ws ∧ cells !! w = Some STATE_WAITING ∧ cells' = <[w:=STATE_SUCCESS_SPACE]> cells ∧ (NoDup ws → w ∉ ws')
  end.

Lemma cas_cell_spec k old new cells s : cells !! k = Some s →
  cas_cell k old new cells = Some (if s =? old then (true, <[k:=new]> cells) else (false, cells)).
Proof. unfold cas_cell. by intros ->. Qed.

Lemma claim_spec ws cells : live cells ws → ∃ r ws' cells', claim ws cells = Some (r, ws', cells') ∧ scan_ok ws cells r ws' cells'.
Proof.
  induction ws as [|w ws IH]; intros Hl; cbn [claim].
  - exists None, [], cells. split; [done|]. split; [done|]. split; [by intros v ?%elem_of_nil|]. split; [done|by intros v ?%elem_of_nil].
  - destruct (Hl w ltac:(by left)) as [s Hs]. rewrite (cas_cell_spec _ _ _ _ s Hs). destruct (Z.eqb_spec s STATE_WAITING) as [->|Hne]; cbn [mbind option_bind].
    + exists (Some w), ws, (<[w:=STATE_SUCCESS_SPACE]> cells). split; [done|]. split; [by constructor|]. split.
      * intros v [->|Hv]%elem_of_cons; [by rewrite lookup_insert_eq|done].
      * split; [by left|]. split; [done|]. split; [done|]. by intros [? _]%NoDup_cons.
    + destruct IH as (r&ws'&cells'&E&Hsub&Hkeep&Hr); [intros v Hv; apply Hl; by right|]. rewrite E. exists r, (w :: ws'), cells'. split; [done|].
      assert (Hw : ∀ v, v ∈ w :: ws → cells' !! v = Some STATE_WAITING → v ∈ w :: ws').
      { intros v [->|Hv]%elem_of_cons Hc; [by left|right; auto]. }
      split; [by constructor|]. split; [done|]. destruct r as [w'|].
      * destruct Hr as (?&?&?&Hnd). split; [by right|]. split; [done|]. split; [done|]. intros [Hn Hnd']%NoDup_cons.
        rewrite not_elem_of_cons. split; [by intros ->|by apply Hnd].
      * destruct Hr as [-> Hr]. split; [done|]. intros v [->|Hv]%elem_of_cons; [congruence|by apply Hr].
Qed.

Lemma pop_claim_spec ws cells : live cells ws → ∃ r ws' cells', pop_claim ws cells = Some (r, ws', cells') ∧ scan_ok ws cells r ws' cells'.
Proof.
  induction ws as [|w ws IH]; intros Hl; cbn [pop_claim].
  - exists None, [], cells. split; [done|]. split; [done|]. split; [by intros v ?%elem_of_nil|]. split; [done|by intros v ?%elem_of_nil].
  - destruct (Hl w ltac:(by left)) as [s Hs]. rewrite (cas_cell_spec _ _ _ _ s Hs). destruct (Z.eqb_spec s STATE_WAITING) as [->|Hne]; cbn [mbind option_bind].
    + exists (Some w), ws, (<[w:=STATE_SUCCESS_SPACE]> cells). split; [done|]. split; [by constructor|]. split.
      * intros v [->|Hv]%elem_of_cons; [by rewrite lookup_insert_eq|done].
      * split; [by left|]. split; [done|]. split; [done|]. by intros [? _]%NoDup_cons.
    + destruct IH as (r&ws'&cells'&E&Hsub&Hkeep&Hr); [intros v Hv; apply Hl; by right|]. rewrite E. exists r, ws', cells'. split; [done|].
      split; [by constructor|]. split.
      * intros v [->|Hv]%elem_of_cons Hc; [|auto]. destruct r as [w'|].
        -- destruct Hr as (?&?&->&_). apply lookup_insert_Some in Hc as [[<- ?]|[_ ?]]; [done|congruence].
        -- destruct Hr as [-> _]. congruence.
      * destruct r as [w'|].
        -- destruct Hr as (?&?&?&Hnd). split; [by right|]. split; [done|]. split; [done|]. intros [Hn Hnd']%NoDup_cons. by apply Hnd.
        -- destruct Hr as [-> Hr]. split; [done|]. intros v [->|Hv]%elem_of_cons; [congruence|by apply Hr].
Qed.

(** A claim over the two queues of a side. *)
Record claimed (side : Kind → channel → list nat) c cells (r : option nat) c' cells' : Prop := {
  cl_sub d : side d c' `sublist_of` side d c;
  cl_keep d v : v ∈ side d c → cells' !! v = Some STATE_WAITING → v ∈ side d c';
  cl_who : match r with
    | None => cells' = cells ∧ ∀ d v, v ∈ side d c → cells !! v ≠ Some STATE_WAITING
    | Some w => cells !! w = Some STATE_WAITING ∧ cells' = <[w:=STATE_SUCCESS_SPACE]> cells ∧
        ∃ d, w ∈ side d c ∧ (NoDup (side d c) → w ∉ side d c')
    end;
}.

Definition same_receivers c c' : Prop := ∀ d, receivers d c' = receivers d c.
Definition same_senders c c' : Prop := ∀ d, senders d c' = senders d c.
Definition same_counts c c' : Prop := sender_count c' = sender_count c ∧ receiver_count c' = receiver_count c.

(** Either scan of a batch or of a single send. *)
Definition is_scan scan : Prop := ∀ ws cells, live cells ws → ∃ r ws' cells', scan ws cells = Some (r, ws', cells') ∧ scan_ok ws cells r ws' cells'.

Lemma claim_receiver_spec scan cap c cells :
  is_scan scan → (∀ d, live cells (receivers d c)) →
  ∃ r c' cells', claim_receiver scan cap c cells = Some (r, c', cells') ∧ same_senders c c' ∧ same_counts c c' ∧
    (is_full cap c = true ∧ r = None ∧ c' = c ∧ cells' = cells ∨ is_full cap c = false ∧ claimed receivers c cells r c' cells').
Proof.
  intros Hscan Hl. unfold claim_receiver. destruct (is_full cap c); [exists None, c, cells; split; [done|]; split; [done|]; split; [done|]; by left|].
  destruct (Hscan (waiting_async_receivers c) cells (Hl Async)) as (r&ra&cl&E&Hsub&Hkeep&Hr). rewrite E. cbn [mbind option_bind].
  destruct r as [w|].
  - destruct Hr as (Hw&Hc&->&Hnd). eexists _, _, _. split; [done|]. split; [by intros []|]. split; [done|]. right. split; [done|]. split.
    + intros []; simpl; done.
    + intros [] v Hv Hv0; simpl in *; auto.
    + split; [done|]. split; [done|]. by exists Async.
  - destruct Hr as [-> Hr]. destruct (Hscan (waiting_sync_receivers c) cells (Hl Sync)) as (r2&rs&cl2&E2&Hsub2&Hkeep2&Hr2).
    cbn [waiting_sync_receivers with_receivers]. rewrite E2. cbn [mbind option_bind]. eexists _, _, _. split; [done|]. split; [by intros []|]. split; [done|]. right. split; [done|].
    assert (Hcl : ∀ v, cl2 !! v = Some STATE_WAITING → cells !! v = Some STATE_WAITING).
    { intros v. destruct r2 as [w|]; [|by destruct Hr2 as [-> _]]. destruct Hr2 as (_&_&->&_). by intros [[<- ?]|[_ ?]]%lookup_insert_Some. }
    split.
    + intros []; simpl; done.
    + intros [] v Hv Hv0; simpl in *; auto.
    + destruct r2 as [w|]; [destruct Hr2 as (Hw&Hc&->&Hnd); split; [done|]; split; [done|]; by exists Sync|].
      destruct Hr2 as [-> Hr2]. split; [done|]. intros []; done.
Qed.

Lemma claim_sender_spec c cells :
  (∀ d, live cells (senders d c)) →
  ∃ r c' cells', claim_sender c cells = Some (r, c', cells') ∧ same_receivers c c' ∧ same_counts c c' ∧ claimed senders c cells r c' cells'.
Proof.
  intros Hl. unfold claim_sender.
  destruct (claim_spec (waiting_async_senders c) cells (Hl Async)) as (r&ra&cl&E&Hsub&Hkeep&Hr). rewrite E. cbn [mbind option_bind].
  destruct r as [w|].
  - destruct Hr as (Hw&Hc&->&Hnd). eexists _, _, _. split; [done|]. split; [by intros []|]. split; [done|]. split.
    + intros []; simpl; done.
    + intros [] v Hv Hv0; simpl in *; auto.
    + split; [done|]. split; [done|]. by exists Async.
  - destruct Hr as [-> Hr]. destruct (claim_spec (waiting_sync_senders c) cells (Hl Sync)) as (r2&rs&cl2&E2&Hsub2&Hkeep2&Hr2).
    cbn [waiting_sync_senders with_senders]. rewrite E2. cbn [mbind option_bind]. eexists _, _, _. split; [done|]. split; [by intros []|]. split; [done|].
    assert (Hcl : ∀ v, cl2 !! v = Some STATE_WAITING → cells !! v = Some STATE_WAITING).
    { intros v. destruct r2 as [w|]; [|by destruct Hr2 as [-> _]]. destruct Hr2 as (_&_&->&_). by intros [[<- ?]|[_ ?]]%lookup_insert_Some. }
    split.
    + intros []; simpl; done.
    + intros [] v Hv Hv0; simpl in *; auto.
    + destruct r2 as [w|]; [destruct Hr2 as (Hw&Hc&->&Hnd); split; [done|]; split; [done|]; by exists Sync|].
      destruct Hr2 as [-> Hr2]. split; [done|]. intros []; done.
Qed.
End Scans.

(** ** Cells hold states of a buffered channel *)

Section Values.
Context {T : Type}.
Notation channel := (MpmcChannelInternal T).
Implicit Types (c : channel) (cells : cells_map) (ts : gset nat) (ws : list nat) (cap : Z).

Definition buffered_states : list Z := [STATE_WAITING; STATE_CLOSED_BUFFERED; STATE_SUCCESS_SPACE; STATE_CANCELLED].
Record values_ok cells : Prop := { values_all : map_Forall (λ _ s, s ∈ buffered_states) cells }.

Lemma values_ok_insert cells k s : s ∈ buffered_states → values_ok cells → values_ok (<[k:=s]> cells).
Proof. intros Hs [Hv]. split. by apply map_Forall_insert_2. Qed.

Lemma values_ok_delete cells k : values_ok cells → values_ok (delete k cells).
Proof. intros [Hv]. split. by apply map_Forall_delete. Qed.

Lemma cas_cell_values k old new cells ok cells' :
  new ∈ buffered_states → values_ok cells → cas_cell k old new cells = Some (ok, cells') → values_ok cells'.
Proof.
  intros Hn Hv. unfold cas_cell. intros (s&_&H)%bind_Some. destruct (_ =? _); injection H as <- <-; [by apply values_ok_insert|done].
Qed.

Lemma scan_values scan ws cells r ws' cells' :
  scan = claim ∨ scan = pop_claim → values_ok cells → scan ws cells = Some (r, ws', cells') → values_ok cells'.
Proof.
  intros Hscan. assert (Hst : STATE_SUCCESS_SPACE ∈ buffered_states) by (by repeat constructor).
  revert cells r ws'. induction ws as [|w ws IH]; intros cells r ws' Hv H; destruct Hscan as [-> | ->]; cbn [claim pop_claim] in H;
    try (by injection H as <- <- <-); apply bind_Some in H as ([ok cl]&E&H); pose proof (cas_cell_values _ _ _ _ _ _ Hst Hv E) as Hv1;
    destruct ok; try (by injection H as <- <- <-).
  - apply bind_Some in H as ([[r1 ws1] cl1]&E1&[= <- <- <-]). by eapply IH.
  - by eapply IH.
Qed.

Lemma claim_receiver_values scan cap c cells r c' cells' :
  scan = claim ∨ scan = pop_claim → values_ok cells → claim_receiver scan cap c cells = Some (r, c', cells') → values_ok cells'.
Proof.
  intros Hs Hv. unfold claim_receiver. destruct (is_full cap c); [by intros [= <- <- <-]|]. intros ([[o ra] cl]&E&H)%bind_Some.
  pose proof (scan_values _ _ _ _ _ _ Hs Hv E) as Hv1. destruct o as [w|]; [by injection H as <- <- <-|].
  apply bind_Some in H as ([[o rs] cl']&E2&[= <- <- <-]). by eapply scan_values.
Qed.

Lemma claim_sender_values c cells r c' cells' : values_ok cells → claim_sender c cells = Some (r, c', cells') → values_ok cells'.
Proof.
  intros Hv. unfold claim_sender. intros ([[o ra] cl]&E&H)%bind_Some.
  pose proof (scan_values _ _ _ _ _ _ (or_introl eq_refl) Hv E) as Hv1. destruct o as [w|]; [by injection H as <- <- <-|].
  apply bind_Some in H as ([[o rs] cl']&E2&[= <- <- <-]). eapply scan_values; [by left|done|done].
Qed.

Lemma try_send_core_values cap (item : T) c cells ts r c' cells' ts' :
  values_ok cells → try_send_core cap item c cells ts = Some (r, c', cells', ts') → values_ok cells'.
Proof.
  intros Hv. unfold try_send_core. destruct (_ =? _); [by intros [= <- <- <- <-]|]. intros ([[o c1] cl1]&E&H)%bind_Some.
  pose proof (claim_receiver_values _ _ _ _ _ _ _ (or_introl eq_refl) Hv E). destruct o as [w|].
  - by apply bind_Some in H as (c2&E2&[= <- <- <- <-]).
  - destruct (_ =? _); [by injection H as <- <- <- <-|]. destruct (_ <? _); [|by injection H as <- <- <- <-].
    by apply bind_Some in H as (c2&E2&[= <- <- <- <-]).
Qed.

Lemma try_recv_core_values cap c cells ts r c' cells' ts' :
  values_ok cells → try_recv_core cap c cells ts = Some (r, c', cells', ts') → values_ok cells'.
Proof.
  intros Hv. unfold try_recv_core. intros ([o c1]&_&H)%bind_Some. destruct o as [x|]; [|by injection H as <- <- <- <-].
  destruct (_ <? _); [|by injection H as <- <- <- <-]. apply bind_Some in H as ([[r1 c2] cl]&E&[= <- <- <- <-]). by eapply claim_sender_values.
Qed.

Lemma send_loop_values cap items c cells ts n c' cells' ts' :
  values_ok cells → send_loop cap items c cells ts = Some (n, c', cells', ts') → values_ok cells'.
Proof.
  revert c cells ts n. induction items as [|item items IH]; intros c cells ts n Hv; cbn [send_loop]; [by intros [= <- <- <- <-]|].
  intros ([[o c1] cl1]&E&H)%bind_Some. pose proof (claim_receiver_values _ _ _ _ _ _ _ (or_intror eq_refl) Hv E). destruct o as [w|].
  - apply bind_Some in H as (c2&E2&H). apply bind_Some in H as ([[[m c3] cl3] ts3]&E3&[= <- <- <- <-]). by eapply IH.
  - destruct (_ =? _); [by injection H as <- <- <- <-|]. destruct (_ <? _); [|by injection H as <- <- <- <-].
    apply bind_Some in H as (c2&E2&H). apply bind_Some in H as ([[[m c3] cl3] ts3]&E3&[= <- <- <- <-]). by eapply IH.
Qed.

Lemma wake_senders_values n c cells ts c' cells' ts' : values_ok cells → wake_senders n c cells ts = Some (c', cells', ts') → values_ok cells'.
Proof.
  revert c cells ts. induction n as [|n IH]; intros c cells ts Hv; cbn [wake_senders]; [by intros [= <- <- <-]|].
  intros ([[r c1] cl1]&E&H)%bind_Some. pose proof (claim_sender_values _ _ _ _ _ Hv E). destruct r; [by eapply IH|by injection H as <- <- <-].
Qed.

Lemma mark_all_values s ws cells r cells' : s ∈ buffered_states → values_ok cells → mark_all s ws cells = Some (r, cells') → values_ok cells'.
Proof.
  intros Hs. revert cells r. induction ws as [|w ws IH]; intros cells r Hv; cbn [mark_all]; [by intros [= <- <-]|].
  intros ([ok cl]&E&H)%bind_Some. pose proof (cas_cell_values _ _ _ _ _ _ Hs Hv E). apply bind_Some in H as ([r1 cl1]&E1&[= <- <-]). by eapply IH.
Qed.

Lemma close_sender_values c cells ws c' cells' : values_ok cells → close_sender c cells = Some (ws, c', cells') → values_ok cells'.
Proof.
  intros Hv. unfold close_sender. destruct (_ =? _); [|by intros [= <- <- <-]]. intros ([w1 cl]&E1&H)%bind_Some. apply bind_Some in H as ([w2 cl2]&E2&[= <- <- <-]).
  eapply mark_all_values; [|eapply mark_all_values; [| |exact E1]|exact E2]; [by repeat constructor|by repeat constructor|done].
Qed.

Lemma close_receiver_values cap c cells ws c' cells' : cap ≠ 0 → values_ok cells → close_receiver cap c cells = Some (ws, c', cells') → values_ok cells'.
Proof.
  intros Hc Hv. unfold close_receiver. destruct (Z.eqb_spec cap 0); [done|]. intros ([w1 cl]&E1&H)%bind_Some. apply bind_Some in H as ([w2 cl2]&E2&[= <- <- <-]).
  assert (Hst : (if receiver_count (with_counts (sender_count c) (receiver_count c -w 1) c) =? 0 then STATE_CLOSED_BUFFERED else STATE_SUCCESS_SPACE) ∈ buffered_states)
    by (destruct (_ =? _); by repeat constructor).
  eapply mark_all_values; [exact Hst|eapply mark_all_values; [exact Hst| |exact E1]|exact E2]. done.
Qed.
End Values.
