(* ===== verification/Mpmc.v ===== *)
(** * The bounded MPMC channel under concurrency ([channels/src/mpmc_v2/])

    A caller is one call of the channel: a blocking send or receive of [sync_impl.rs], a
    [SendFuture] or [RecvFuture] of [async_impl.rs] with the task that polls it, [recv_timeout],
    the batch and close operations.  [caller_step] is one critical section of the channel's
    mutex ([Mutex] has its mutual exclusion) or one access to the caller's state cell.
    [mpmc_step] interleaves callers; the values put into and taken out of the channel are logged in order. *)

From stdpp Require Import relations.
From S2P Require Import Prelude Ring MpmcCore.

(** What a call returned: the items it sent or received; an error; [Ok] without having
    sent (a rendezvous flag); a panic. *)
Inductive outcome (T : Type) := Sent (xs : list T) | Got (xs : list T) | Failed | Handed | Panicked | Ended.
Arguments Sent {T}.
Arguments Got {T}.
Arguments Failed {T}.
Arguments Handed {T}.
Arguments Panicked {T}.
Arguments Ended {T}.

Inductive Caller (T : Type) :=
  | S_try (d : Kind) (item : T) | S_reg (d : Kind) (item : T) | S_wait (d : Kind) (item : T) | S_refresh (item : T)
  | S_park (d : Kind) (item : T) | S_final (d : Kind) (item : T) (st : Z)
  | R_try (d : Kind) | R_reg (d : Kind) | R_wait (d : Kind) | R_park (d : Kind) | R_final (d : Kind) (st : Z)
  | T_first | T_reg | T_second | T_loop | T_cas | T_unlink | T_last | T_park | T_check | T_try
  | B_send (items : list T) | B_recv (max : Z)
  | K_sender | K_receiver | K_wake (ws : list nat) | K_clone_sender | K_clone_receiver
  | D_cas (sender : bool) | D_unlink (sender : bool)
  | Done (r : outcome T).
Arguments S_try {T}.
Arguments S_reg {T}.
Arguments S_wait {T}.
Arguments S_refresh {T}.
Arguments S_park {T}.
Arguments S_final {T}.
Arguments R_try {T}.
Arguments R_reg {T}.
Arguments R_wait {T}.
Arguments R_park {T}.
Arguments R_final {T}.
Arguments T_first {T}.
Arguments T_reg {T}.
Arguments T_second {T}.
Arguments T_loop {T}.
Arguments T_cas {T}.
Arguments T_unlink {T}.
Arguments T_last {T}.
Arguments T_park {T}.
Arguments T_check {T}.
Arguments T_try {T}.
Arguments B_send {T}.
Arguments B_recv {T}.
Arguments K_sender {T}.
Arguments K_receiver {T}.
Arguments K_wake {T}.
Arguments K_clone_sender {T}.
Arguments K_clone_receiver {T}.
Arguments D_cas {T}.
Arguments D_unlink {T}.
Arguments Done {T}.

Section Code.
Context {T : Type}.
Notation channel := (MpmcChannelInternal T).
Implicit Types (c : channel) (cells : cells_map) (ts : gset nat) (item : T) (k w : nat) (ws : list nat) (cap : Z).
Implicit Types (p q : Caller T) (ps : list (Caller T)) (d : Kind).

Notation step_result := (option (Caller T * channel * cells_map * gset nat)).

(** [position] and [remove]; [retain]. *)
Definition remove_first k ws : list nat :=
  match list_find (λ w, w = k) ws with Some (pos, _) => delete pos ws | None => ws end.
Definition retain_others k ws : list nat := filter (λ w, w ≠ k) ws.

Definition unlink_sender d k c : channel :=
  match d with
  | Sync => with_senders (remove_first k (waiting_sync_senders c)) (waiting_async_senders c) c
  | Async => with_senders (waiting_sync_senders c) (remove_first k (waiting_async_senders c)) c
  end.
Definition retain_receiver d k c : channel :=
  match d with
  | Sync => with_receivers (retain_others k (waiting_sync_receivers c)) (waiting_async_receivers c) c
  | Async => with_receivers (waiting_sync_receivers c) (retain_others k (waiting_async_receivers c)) c
  end.

Definition nonempty ws : bool := match ws with [] => false | _ => true end.

(** A call is over: its frame, or its future, and so its cell are gone. *)
Definition finish (r : outcome T) k c cells ts : step_result := Some (Done r, c, delete k cells, ts).

Definition sender_may_go cap c : bool :=
  negb (is_full cap c) &&
  (nonempty (waiting_async_receivers c) || nonempty (waiting_sync_receivers c) || ((0 <? cap) && (len c <? cap))).

Definition receiver_may_go cap c : bool :=
  negb (Unsync.is_empty (queue c)) || ((cap =? 0) && (nonempty (waiting_sync_senders c) || nonempty (waiting_async_senders c))).

(** [RecvFuture] asks the cached length instead. *)
Definition task_may_go cap c : bool :=
  negb (is_empty c) || ((cap =? 0) && (nonempty (waiting_sync_senders c) || nonempty (waiting_async_senders c))).

(** [send_sync] and [SendFuture::poll].  A cell is in the map while its owner is
    registered; [S_wait] is the test of the cell, [S_park] a parked thread or a pending task. *)
Definition send_step cap k p c cells ts : step_result :=
  match p with
  | S_try d item =>
      '(r, c, cells, ts) ← try_send_core cap item c cells ts;
      match r with
      | inl _ => finish (Sent [item]) k c cells ts
      | inr (Closed _) => finish Failed k c cells ts
      | inr (Full item) => Some (S_reg d item, c, cells, ts)
      end
  | S_reg d item =>
      if sender_may_go cap c then Some (S_try d item, c, cells, ts)
      else if receiver_count c =? 0 then finish Failed k c cells ts
      else
        let cells := <[k:=STATE_WAITING]> cells in
        match d with
        | Sync => Some (S_wait Sync item, with_senders (waiting_sync_senders c ++ [k]) (waiting_async_senders c) c, cells, ts)
        | Async => Some (S_park Async item, with_senders (waiting_sync_senders c) (waiting_async_senders c ++ [k]) c, cells, ts)
        end
  | S_wait d item =>
      st ← cells !! k;
      Some (if negb (Z.land st 1 =? 0) then S_final d item st else match d with Sync => S_park Sync item | Async => S_refresh item end, c, cells, ts)
  | S_refresh item => Some (S_park Async item, c, cells, if bool_decide (k ∈ waiting_async_senders c) then ts else {[k]} ∪ ts)
  | S_park d item => if decide (k ∈ ts) then Some (S_wait d item, c, cells, ts ∖ {[k]}) else None
  | S_final d item st =>
      st' ← match d with Sync => cells !! k | Async => Some st end;
      if Z.land st' 2 =? 0 then finish Failed k (unlink_sender d k c) cells ts
      else if match d with Sync => negb (Z.land st' 4 =? 0) | Async => false end then finish Handed k c cells ts
      else Some (S_try d item, unlink_sender d k c, delete k cells, ts)
  | _ => None
  end.

(** [recv_sync] and [RecvFuture::poll]: a task that is polled while its cell says waiting tries
    again, with its waiter still in the queue. *)
Definition recv_step cap k p c cells ts : step_result :=
  match p with
  | R_try d =>
      '(r, c, cells, ts) ← try_recv_core cap c cells ts;
      match r with
      | inl item => finish (Got [item]) k c cells ts
      | inr Disconnected => finish Failed k c cells ts
      | inr Empty => Some (R_reg d, c, cells, ts)
      end
  | R_reg Sync =>
      if receiver_may_go cap c then Some (R_try Sync, c, cells, ts)
      else if sender_count c =? 0 then finish Failed k c cells ts
      else Some (R_wait Sync, with_receivers (waiting_sync_receivers c ++ [k]) (waiting_async_receivers c) c, <[k:=STATE_WAITING]> cells, ts)
  | R_reg Async =>
      if task_may_go cap c then Some (R_try Async, c, cells, ts)
      else if sender_count c =? 0 then finish Failed k c cells ts
      else if bool_decide (k ∈ waiting_async_receivers c) then Some (R_park Async, c, cells, ts)
      else Some (R_park Async, with_receivers (waiting_sync_receivers c) (waiting_async_receivers c ++ [k]) c, <[k:=STATE_WAITING]> cells, ts)
  | R_wait d =>
      st ← cells !! k;
      Some (if negb (Z.land st 1 =? 0) then R_final d st else match d with Sync => R_park Sync | Async => R_try Async end, c, cells, ts)
  | R_park d => if decide (k ∈ ts) then Some (R_wait d, c, cells, ts ∖ {[k]}) else None
  | R_final d st =>
      st' ← match d with Sync => cells !! k | Async => Some st end;
      if Z.land st' 2 =? 0 then finish Failed k (retain_receiver d k c) cells ts else Some (R_try d, c, delete k cells, ts)
  | _ => None
  end.

(** The receive of [recv_timeout_sync]; [on_empty] is the arm of [Empty]. *)
Definition timed_recv cap k (on_empty : Caller T) c cells ts : step_result :=
  '(r, c, cells, ts) ← try_recv_core cap c cells ts;
  match r with
  | inl item => finish (Got [item]) k c cells ts
  | inr Disconnected => finish Failed k c cells ts
  | inr Empty => match on_empty with Done r => finish r k c cells ts | p => Some (p, c, cells, ts) end
  end.

(** [recv_timeout_sync]; [T_loop] goes on to [T_cas] when the time is over. *)
Definition timeout_step cap k p c cells ts : step_result :=
  match p with
  | T_first => timed_recv cap k T_reg c cells ts
  | T_reg =>
      let cells' := <[k:=STATE_WAITING]> cells in
      if receiver_may_go cap c then Some (T_second, c, cells', ts)
      else if sender_count c =? 0 then finish Failed k c cells' ts
      else Some (T_loop, with_receivers (waiting_sync_receivers c ++ [k]) (waiting_async_receivers c) c, cells', ts)
  | T_second => timed_recv cap k T_loop c cells ts
  | T_loop => Some (T_park, c, cells, ts)
  | T_park => Some (T_check, c, cells, ts ∖ {[k]})
  | T_check => st ← cells !! k; Some (if negb (Z.land st 1 =? 0) then T_try else T_loop, c, cells, ts)
  | T_try => timed_recv cap k T_loop c cells ts
  | T_cas => '(ok, cells) ← cas_cell k STATE_WAITING STATE_CANCELLED cells; Some (if (ok : bool) then T_unlink else T_last, c, cells, ts)
  | T_unlink => finish Failed k (retain_receiver Sync k c) cells ts
  | T_last => timed_recv cap k (Done Panicked) c cells ts
  | _ => None
  end.

(** [try_send_batch], [try_recv_batch], [close], [clone] and the drop of a future that is registered. *)
Definition other_step cap k p c cells ts : step_result :=
  match p with
  | B_send items => '(n, _, c, cells, ts) ← try_send_batch_core cap items c cells ts; finish (Sent (take n items)) k c cells ts
  | B_recv max =>
      '(r, c, cells, ts) ← try_recv_batch_core cap max c cells ts;
      match r with inl out => finish (Got out) k c cells ts | inr _ => finish Failed k c cells ts end
  | K_sender => '(ws, c, cells) ← close_sender c cells; Some (K_wake ws, c, cells, ts)
  | K_receiver => '(ws, c, cells) ← close_receiver cap c cells; Some (K_wake ws, c, cells, ts)
  | K_wake (w :: ws) => Some (K_wake ws, c, cells, {[w]} ∪ ts)
  | K_wake [] => finish Ended k c cells ts
  | K_clone_sender => finish Ended k (with_counts (sender_count c +w 1) (receiver_count c) c) cells ts
  | K_clone_receiver => finish Ended k (with_counts (sender_count c) (receiver_count c +w 1) c) cells ts
  | D_cas sender => '(_, cells) ← cas_cell k STATE_WAITING STATE_CANCELLED cells; Some (D_unlink sender, c, cells, ts)
  | D_unlink sender =>
      finish Ended k (if (sender : bool) then with_senders (waiting_sync_senders c) (retain_others k (waiting_async_senders c)) c
                      else retain_receiver Async k c) cells ts
  | _ => None
  end.

Definition caller_step cap k p c cells ts : step_result :=
  match p with
  | S_try _ _ | S_reg _ _ | S_wait _ _ | S_refresh _ | S_park _ _ | S_final _ _ _ => send_step cap k p c cells ts
  | R_try _ | R_reg _ | R_wait _ | R_park _ | R_final _ _ => recv_step cap k p c cells ts
  | T_first | T_reg | T_second | T_loop | T_cas | T_unlink | T_last | T_park | T_check | T_try => timeout_step cap k p c cells ts
  | B_send _ | B_recv _ | K_sender | K_receiver | K_wake _ | K_clone_sender | K_clone_receiver | D_cas _ | D_unlink _ => other_step cap k p c cells ts
  | Done _ => None
  end.

(** What else happens: the time of a [recv_timeout] is over, a thread unparks, or a send is polled, for
    no reason; and, in a [wild] run, a pending receive is polled for no reason or a
    pending future is dropped. *)
Definition caller_may (wild : bool) p q : Prop :=
  match p, q with
  | T_loop, T_cas => True
  | S_park d item, S_wait d' item' => d = d' ∧ item = item'
  | R_park Sync, R_wait Sync => True
  | R_park Async, R_wait Async => wild = true
  | S_park Async _, D_cas true => wild = true
  | R_park Async, D_cas false => wild = true
  | _, _ => False
  end.

(** The items a finished call sent or received. *)
Definition sent p : list T := match p with Done (Sent xs) => xs | _ => [] end.
Definition got p : list T := match p with Done (Got xs) => xs | _ => [] end.

Definition system : Type := list (Caller T) * channel * cells_map * gset nat * list T * list T.

Inductive mpmc_step (wild : bool) cap : system → system → Prop :=
  | mpmc_step_caller ps c cells ts put out k p p' c' cells' ts' :
      ps !! k = Some p → caller_step cap k p c cells ts = Some (p', c', cells', ts') →
      mpmc_step wild cap (ps, c, cells, ts, put, out) (<[k:=p']> ps, c', cells', ts', put ++ sent p', out ++ got p')
  | mpmc_step_choice ps c cells ts put out k p p' :
      ps !! k = Some p → caller_may wild p p' → mpmc_step wild cap (ps, c, cells, ts, put, out) (<[k:=p']> ps, c, cells, ts, put, out).

(** A call before its first step. *)
Definition starts p : Prop :=
  match p with
  | S_try _ _ | R_try _ | T_first | B_send _ | K_sender | K_receiver | K_clone_sender | K_clone_receiver => True
  | B_recv max => 0 ≤ max
  | _ => False
  end.
End Code.

(** ** The channel is a FIFO queue *)

Section Fifo.
Context {T : Type}.
Notation channel := (MpmcChannelInternal T).
Implicit Types (c : channel) (cells : cells_map) (ts : gset nat) (k : nat) (cap : Z) (p : Caller T) (ps : list (Caller T)) (xs put out : list T).

Record fifo_inv cap ps c cells put out : Prop := {
  fi_buffer : ∃ xs, buffer_ok cap c xs ∧ put = out ++ xs;
  fi_values : values_ok cells;
  fi_handed k : ps !! k ≠ Some (Done Handed);
  fi_max k max : ps !! k = Some (B_recv max) → 0 ≤ max;
}.

(** What a step puts in and takes out. *)
Definition step_effect cap c cells p' c' cells' : Prop :=
  (∀ xs, buffer_ok cap c xs → ∃ xs', buffer_ok cap c' xs' ∧ xs ++ sent p' = got p' ++ xs') ∧ values_ok cells' ∧ p' ≠ Done Handed ∧ (∀ max, p' ≠ B_recv max).

Lemma effect_quiet cap c cells p' c' cells' :
  same_buffer c c' → values_ok cells' → sent p' = [] → got p' = [] → p' ≠ Done Handed → (∀ max, p' ≠ B_recv max) → step_effect cap c cells p' c' cells'.
Proof.
  intros Hs Hv E1 E2 Hh Hm. split; [|done]. intros xs Hb. exists xs. rewrite E1, E2, app_nil_r. split; [by apply (same_buffer_ok cap c)|done].
Qed.

Lemma finish_effect cap c cells c1 cells1 r k ts p' c' cells' ts' :
  finish r k c1 cells1 ts = Some (p', c', cells', ts') → values_ok cells1 → r ≠ Handed →
  (∀ xs, buffer_ok cap c xs → ∃ xs', buffer_ok cap c1 xs' ∧ xs ++ sent (Done r) = got (Done r) ++ xs') → step_effect cap c cells p' c' cells'.
Proof.
  unfold finish. intros [= <- <- <- <-] Hv Hr Hb. split; [exact Hb|]. split; [by apply values_ok_delete|]. split; [by intros [=]|done].
Qed.

Lemma recv_effect cap c cells ts r c1 cells1 ts1 xs :
  0 < cap ≤ 2 ^ 63 → buffer_ok cap c xs → try_recv_core cap c cells ts = Some (r, c1, cells1, ts1) →
  match r with inl x => ∃ xs', buffer_ok cap c1 xs' ∧ xs = x :: xs' | inr _ => buffer_ok cap c1 xs end.
Proof.
  intros Hc Hb E. destruct (try_recv_core_buffer _ _ _ _ _ _ _ _ _ Hc Hb E) as [Hb1 Hr]. destruct r as [x|e].
  - exists (tail xs). split; [done|]. destruct xs; [done|]. by injection Hr as ->.
  - by destruct Hr as [-> _].
Qed.

Lemma land_states s : s ∈ buffered_states → Z.land s 4 = 0.
Proof. unfold buffered_states. rewrite !elem_of_cons, elem_of_nil. intros [->|[->|[->|[->|[]]]]]; done. Qed.

Lemma send_step_effect cap k p c cells ts p' c' cells' ts' :
  0 < cap ≤ 2 ^ 63 → values_ok cells → send_step cap k p c cells ts = Some (p', c', cells', ts') → step_effect cap c cells p' c' cells'.
Proof.
  intros Hc Hv H. destruct p; try done; simpl in H.
  - apply bind_Some in H as ([[[r c1] cl1] ts1]&E&H). pose proof (try_send_core_values _ _ _ _ _ _ _ _ _ Hv E) as Hv1.
    assert (Hb : ∀ xs, buffer_ok cap c xs → _) by (intros xs Hb; exact (try_send_core_buffer _ _ _ _ _ _ _ _ _ _ Hc Hb E)).
    destruct r as [|[it|it]].
    + eapply finish_effect; [exact H|done|done|]. intros xs Hx. exists (xs ++ [item]). split; [by apply Hb|done].
    + injection H as <- <- <- <-. split; [|done]. intros xs Hx. exists xs. destruct (Hb xs Hx). by rewrite app_nil_r.
    + eapply finish_effect; [exact H|done|done|]. intros xs Hx. exists xs. destruct (Hb xs Hx). by rewrite app_nil_r.
  - destruct (sender_may_go cap c); [injection H as <- <- <- <-; by apply effect_quiet|].
    destruct (_ =? _); [eapply finish_effect; [exact H|done|done|]; intros xs Hx; exists xs; by rewrite app_nil_r|].
    assert (values_ok (<[k:=STATE_WAITING]> cells)) by (apply values_ok_insert; [by repeat constructor|done]).
    destruct d; injection H as <- <- <- <-; by apply effect_quiet.
  - apply bind_Some in H as (st&_&[= <- <- <- <-]). apply effect_quiet; try done; by destruct (negb _), d.
  - injection H as <- <- <- <-. by apply effect_quiet.
  - case_decide; [|done]. injection H as <- <- <- <-. by apply effect_quiet.
  - apply bind_Some in H as (st'&Hst&H). destruct (Z.land st' 2 =? 0).
    + eapply finish_effect; [exact H|done|done|]. intros xs Hx. exists xs. rewrite app_nil_r. split; [|done]. eapply same_buffer_ok; [|done]. by destruct d.
    + destruct d; [|injection H as <- <- <- <-; apply effect_quiet; try done; by apply values_ok_delete].
      rewrite (land_states st') in H by (by apply (values_all _ Hv k)). injection H as <- <- <- <-. apply effect_quiet; try done. by apply values_ok_delete.
Qed.

Lemma timed_recv_effect cap k q c cells ts p' c' cells' ts' :
  0 < cap ≤ 2 ^ 63 → values_ok cells → (q = Done Panicked ∨ q = T_reg ∨ q = T_loop) →
  timed_recv cap k q c cells ts = Some (p', c', cells', ts') → step_effect cap c cells p' c' cells'.
Proof.
  intros Hc Hv Hq H. unfold timed_recv in H. apply bind_Some in H as ([[[r c1] cl1] ts1]&E&H). pose proof (try_recv_core_values _ _ _ _ _ _ _ _ Hv E) as Hv1.
  assert (Hb : ∀ xs, buffer_ok cap c xs → _) by (intros xs Hb; exact (recv_effect _ _ _ _ _ _ _ _ _ Hc Hb E)).
  destruct r as [x|[|]].
  - eapply finish_effect; [exact H|done|done|]. intros xs Hx. destruct (Hb xs Hx) as (xs'&?&->). exists xs'. by rewrite app_nil_r.
  - destruct Hq as [->|[->| ->]]; [eapply finish_effect; [exact H|done|done|]; intros xs Hx; exists xs; rewrite app_nil_r; split; [by apply Hb|done]|..];
      injection H as <- <- <- <-; (split; [|done]); intros xs Hx; exists xs; rewrite app_nil_r; (split; [by apply Hb|done]).
  - eapply finish_effect; [exact H|done|done|]; intros xs Hx; exists xs; rewrite app_nil_r; split; [by apply Hb|done].
Qed.

Lemma recv_step_effect cap k p c cells ts p' c' cells' ts' :
  0 < cap ≤ 2 ^ 63 → values_ok cells → recv_step cap k p c cells ts = Some (p', c', cells', ts') → step_effect cap c cells p' c' cells'.
Proof.
  intros Hc Hv H. destruct p; try done; simpl in H.
  - apply bind_Some in H as ([[[r c1] cl1] ts1]&E&H). pose proof (try_recv_core_values _ _ _ _ _ _ _ _ Hv E) as Hv1.
    assert (Hb : ∀ xs, buffer_ok cap c xs → _) by (intros xs Hb; exact (recv_effect _ _ _ _ _ _ _ _ _ Hc Hb E)).
    destruct r as [x|[|]].
    + eapply finish_effect; [exact H|done|done|]. intros xs Hx. destruct (Hb xs Hx) as (xs'&?&->). exists xs'. by rewrite app_nil_r.
    + injection H as <- <- <- <-. split; [|done]. intros xs Hx. exists xs. rewrite app_nil_r. split; [by apply Hb|done].
    + eapply finish_effect; [exact H|done|done|]. intros xs Hx. exists xs. rewrite app_nil_r. split; [by apply Hb|done].
  - assert (values_ok (<[k:=STATE_WAITING]> cells)) by (apply values_ok_insert; [by repeat constructor|done]).
    destruct d.
    + destruct (receiver_may_go cap c); [injection H as <- <- <- <-; by apply effect_quiet|].
      destruct (_ =? _); [eapply finish_effect; [exact H|done|done|]; intros xs Hx; exists xs; by rewrite app_nil_r|].
      injection H as <- <- <- <-. by apply effect_quiet.
    + destruct (task_may_go cap c); [injection H as <- <- <- <-; by apply effect_quiet|].
      destruct (_ =? _); [eapply finish_effect; [exact H|done|done|]; intros xs Hx; exists xs; by rewrite app_nil_r|].
      case_bool_decide; injection H as <- <- <- <-; by apply effect_quiet.
  - apply bind_Some in H as (st&_&[= <- <- <- <-]). apply effect_quiet; try done; by destruct (negb _), d.
  - case_decide; [|done]. injection H as <- <- <- <-. by apply effect_quiet.
  - apply bind_Some in H as (st'&Hst&H). destruct (Z.land st' 2 =? 0).
    + eapply finish_effect; [exact H|done|done|]. intros xs Hx. exists xs. rewrite app_nil_r. split; [|done]. eapply same_buffer_ok; [|done]. by destruct d.
    + injection H as <- <- <- <-. apply effect_quiet; try done. by apply values_ok_delete.
Qed.

Lemma timeout_step_effect cap k p c cells ts p' c' cells' ts' :
  0 < cap ≤ 2 ^ 63 → values_ok cells → timeout_step cap k p c cells ts = Some (p', c', cells', ts') → step_effect cap c cells p' c' cells'.
Proof.
  intros Hc Hv H. assert (Hv0 : values_ok (<[k:=STATE_WAITING]> cells)) by (apply values_ok_insert; [by repeat constructor|done]).
  destruct p; try done; simpl in H.
  - eapply timed_recv_effect; [done|done| |exact H]; auto.
  - destruct (receiver_may_go cap c); [injection H as <- <- <- <-; by apply effect_quiet|].
    destruct (_ =? _); [eapply finish_effect; [exact H|done|done|]; intros xs Hx; exists xs; by rewrite app_nil_r|].
    injection H as <- <- <- <-. by apply effect_quiet.
  - eapply timed_recv_effect; [done|done| |exact H]; auto.
  - injection H as <- <- <- <-. by apply effect_quiet.
  - apply bind_Some in H as ([ok cl]&E&[= <- <- <- <-]). apply effect_quiet; try done; try (by destruct ok).
    eapply cas_cell_values; [|exact Hv|exact E]. by repeat constructor.
  - eapply finish_effect; [exact H|done|done|]. intros xs Hx. exists xs. rewrite app_nil_r. split; [by apply (same_buffer_ok cap c)|done].
  - eapply timed_recv_effect; [done|done| |exact H]; auto.
  - injection H as <- <- <- <-. by apply effect_quiet.
  - apply bind_Some in H as (st&_&[= <- <- <- <-]). apply effect_quiet; try done; by destruct (negb _).
  - eapply timed_recv_effect; [done|done| |exact H]; auto.
Qed.

Lemma other_step_effect cap k p c cells ts p' c' cells' ts' :
  0 < cap ≤ 2 ^ 63 → values_ok cells → (∀ max, p = B_recv max → 0 ≤ max) → other_step cap k p c cells ts = Some (p', c', cells', ts') → step_effect cap c cells p' c' cells'.
Proof.
  intros Hc Hv Hm H. destruct p; try done; simpl in H.
  - apply bind_Some in H as ([[[[n e] c1] cl1] ts1]&E&H). eapply finish_effect; [exact H| |done|].
    + unfold try_send_batch_core in E. destruct items; [by injection E as <- <- <- <- <-|]. destruct (_ =? _); [by injection E as <- <- <- <- <-|].
      apply bind_Some in E as ([[[m c2] cl2] ts2]&E2&[= <- <- <- <- <-]). by eapply send_loop_values.
    + intros xs Hx. destruct (try_send_batch_core_buffer _ _ _ _ _ _ _ _ _ _ xs Hc Hx E) as [? _]. by exists (xs ++ take n items).
  - apply bind_Some in H as ([[[r c1] cl1] ts1]&E&H).
    assert (Hv1 : values_ok cl1).
    { unfold try_recv_batch_core in E. destruct (max =? 0); [by injection E as <- <- <- <-|]. apply bind_Some in E as ([o c2]&_&E).
      apply bind_Some in E as ([[c3 cl3] ts3]&E3&[= <- <- <- <-]). destruct ((0 <? cap) && _); [by eapply wake_senders_values|by injection E3 as <- <- <-]. }
    assert (Hb : ∀ xs, buffer_ok cap c xs → _) by (intros xs Hb; exact (try_recv_batch_core_buffer _ _ _ _ _ _ _ _ _ _ Hc (Hm max eq_refl) Hb E)).
    destruct r as [o|e]; (eapply finish_effect; [exact H|done|done|]); intros xs Hx; specialize (Hb xs Hx).
    + destruct Hb as [-> Hb]. exists (drop (Z.to_nat max) xs). simpl. rewrite app_nil_r, take_drop. done.
    + exists xs. rewrite app_nil_r. by destruct Hb.
  - apply bind_Some in H as ([[ws c1] cl1]&E&[= <- <- <- <-]). apply effect_quiet; try done; [by eapply close_sender_buffer|by eapply close_sender_values].
  - apply bind_Some in H as ([[ws c1] cl1]&E&[= <- <- <- <-]). apply effect_quiet; try done; [by eapply close_receiver_buffer|]. eapply close_receiver_values; [|done|exact E]. lia.
  - destruct ws as [|w ws].
    + eapply finish_effect; [exact H|done|done|]. intros xs Hx. exists xs. by rewrite app_nil_r.
    + injection H as <- <- <- <-. by apply effect_quiet.
  - eapply finish_effect; [exact H|done|done|]. intros xs Hx. exists xs. rewrite app_nil_r. split; [by apply (same_buffer_ok cap c)|done].
  - eapply finish_effect; [exact H|done|done|]. intros xs Hx. exists xs. rewrite app_nil_r. split; [by apply (same_buffer_ok cap c)|done].
  - apply bind_Some in H as ([ok cl]&E&[= <- <- <- <-]). apply effect_quiet; try done. eapply cas_cell_values; [|exact Hv|exact E]. by repeat constructor.
  - eapply finish_effect; [exact H|done|done|]. intros xs Hx. exists xs. rewrite app_nil_r. split; [|done]. eapply same_buffer_ok; [|done]. by destruct sender.
Qed.

Lemma caller_step_effect cap k p c cells ts p' c' cells' ts' :
  0 < cap ≤ 2 ^ 63 → values_ok cells → (∀ max, p = B_recv max → 0 ≤ max) → caller_step cap k p c cells ts = Some (p', c', cells', ts') → step_effect cap c cells p' c' cells'.
Proof.
  intros Hc Hv Hm H. destruct p; try done; cbn [caller_step] in H;
    first [by eapply send_step_effect|by eapply recv_step_effect|by eapply timeout_step_effect|by eapply other_step_effect].
Qed.

Lemma fifo_inv_reached wild cap (s s' : system) :
  0 < cap ≤ 2 ^ 63 → rtc (mpmc_step wild cap) s s' →
  fifo_inv cap s.1.1.1.1.1 s.1.1.1.1.2 s.1.1.1.2 s.1.2 s.2 → fifo_inv cap s'.1.1.1.1.1 s'.1.1.1.1.2 s'.1.1.1.2 s'.1.2 s'.2.
Proof.
  intros Hc. induction 1 as [|x y z Hs _ IH]; [done|]. intros Hi. apply IH. clear IH.
  destruct Hs as [ps c cells ts put out k p p' c' cells' ts' Hk H|ps c cells ts put out k p p' Hk H]; simpl in *; destruct Hi as [(xs&Hb&->) Hv Hh Hm].
  - destruct (caller_step_effect cap k p c cells ts p' c' cells' ts' Hc Hv ltac:(by intros max ->; apply (Hm k)) H) as (He&Hv'&Hh'&Hm').
    destruct (He xs Hb) as (xs'&Hb'&E). split; [|done|..].
    + exists xs'. split; [done|]. by rewrite <- !app_assoc, <- E.
    + intros j Hj. destruct (decide (j = k)) as [->|]; [|rewrite list_lookup_insert_ne in Hj by done; by apply (Hh j)].
      rewrite list_lookup_insert_eq in Hj by (by eapply lookup_lt_Some). congruence.
    + intros j max Hj. destruct (decide (j = k)) as [->|]; [|rewrite list_lookup_insert_ne in Hj by done; by apply (Hm j)].
      rewrite list_lookup_insert_eq in Hj by (by eapply lookup_lt_Some). injection Hj as ->. by destruct (Hm' max).
  - split; [by exists xs|done|..]; intros j.
    + intros Hj. destruct (decide (j = k)) as [->|]; [|rewrite list_lookup_insert_ne in Hj by done; by apply (Hh j)].
      rewrite list_lookup_insert_eq in Hj by (by eapply lookup_lt_Some). injection Hj as ->. by destruct p as [| | | |[]| | | | |[]| | | | | | | | | | | | | | | | | | | | |].
    + intros max Hj. destruct (decide (j = k)) as [->|]; [|rewrite list_lookup_insert_ne in Hj by done; by apply (Hm j)].
      rewrite list_lookup_insert_eq in Hj by (by eapply lookup_lt_Some). injection Hj as ->. by destruct p as [| | | |[]| | | | |[]| | | | | | | | | | | | | | | | | | | | |].
Qed.

(** C1: the bounded channel is a FIFO queue, whatever interleaves.  Blocking and [recv_timeout] calls,
    futures that are polled at any time or dropped, batches, closes and clones: the items taken out, in order,
    followed by what the buffer holds, are the items put in, in order; so each item sent is
    received at most once and none is lost, the buffer never exceeds the capacity, and no call
    reports a success it did not have. *)
Theorem mpmc_fifo wild cap ps0 (c0 : channel) ps c cells ts put out :
  0 < cap ≤ 2 ^ 63 → shared_new cap = Some c0 → Forall starts ps0 →
  rtc (mpmc_step wild cap) (ps0, c0, ∅, ∅, [], []) (ps, c, cells, ts, put, out) →
  (∃ xs, Unsync.holds (queue c) xs ∧ put = out ++ xs ∧ len c = Z.of_nat (length xs) ∧ Z.of_nat (length xs) ≤ cap) ∧
  (∀ k, ps !! k ≠ Some (Done Handed)).
Proof.
  intros Hc E0 Hs Hr. rewrite Forall_lookup in Hs. destruct (shared_new_spec (T:=T) cap Hc) as (c1&E1&Hb&_). rewrite E1 in E0. injection E0 as ->.
  destruct (fifo_inv_reached _ _ _ _ Hc Hr) as [(xs&Hbx&Ep) _ Hh _]; simpl in *.
  - split; [by exists []|split; apply map_Forall_empty|..].
    + intros k Hk. by specialize (Hs k _ Hk).
    + intros k max Hk. by specialize (Hs k _ Hk).
  - split; [|done]. exists xs. destruct Hbx as [? _ ? ?]. done.
Qed.
End Fifo.
