(* ===== verification/MpmcLive.v ===== *)
(** * Nobody sleeps while the bounded channel has work ([channels/src/mpmc_v2/])

    The runs considered here have no [recv_timeout], drop no future and poll no receive
    whose waiter still waits (the runs at the end of the file show what goes wrong otherwise).  The invariant
    counts: while a receiver waits, there are at least as many receivers on their way as
    items in the buffer; while a sender waits, at least as many senders on their way as free places. *)

From stdpp Require Import relations.
From S2P Require Import Prelude Threads Ring MpmcCore Mpmc.

Section Live.
Context {T : Type}.
Notation channel := (MpmcChannelInternal T).
Implicit Types (c : channel) (cells : cells_map) (ts : gset nat) (k j : nat) (ws pend : list nat) (cap a b : Z) (d : Kind).
Implicit Types (p q : Caller T) (ps : list (Caller T)).

(** ** Who waits, who comes *)

Definition recv_reg d p : Prop := match p with R_wait d' | R_park d' | R_final d' _ => d' = d | _ => False end.
Definition send_reg d p : Prop :=
  match p with S_wait d' _ | S_park d' _ | S_final d' _ _ => d' = d | S_refresh _ => d = Async | _ => False end.

(** A receiver that will look at the buffer before it sleeps; a sender likewise. *)
Definition is_success (s : option Z) : Z := if decide (s = Some STATE_SUCCESS_SPACE) then 1 else 0.
Definition recv_weight p (s : option Z) : Z :=
  match p with R_try _ | R_reg _ => 1 | R_wait _ | R_park _ | R_final _ _ => is_success s | _ => 0 end.
Definition send_weight p (s : option Z) : Z :=
  match p with S_try _ _ | S_reg _ _ => 1 | S_wait _ _ | S_refresh _ | S_park _ _ | S_final _ _ _ => is_success s | _ => 0 end.
Definition one_if (b : bool) (s : option Z) : Z := if b then 1 else 0.
Definition closes_sender p : option Z → Z := one_if (match p with K_sender => true | _ => false end).
Definition closes_receiver p : option Z → Z := one_if (match p with K_receiver => true | _ => false end).
Definition clones_sender p : option Z → Z := one_if (match p with K_clone_sender => true | _ => false end).
Definition clones_receiver p : option Z → Z := one_if (match p with K_clone_receiver => true | _ => false end).

Definition weigh (w : Caller T → option Z → Z) ps cells : Z :=
  isum (length ps) (λ i, match ps !! i with Some p => w p (cells !! i) | None => 0 end).

Definition waits_in (side : Kind → channel → list nat) c cells : Prop := ∃ d k, k ∈ side d c ∧ cells !! k = Some STATE_WAITING.

(** The cell of a caller, and its place in the queue. *)
Definition own c cells k p : Prop :=
  match p with
  | S_try _ _ | S_reg _ _ | R_try _ | R_reg _ => cells !! k = None
  | S_wait d _ | S_park d _ => ∃ s, cells !! k = Some s ∧ (s = 0 ∧ k ∈ senders d c ∨ s = 1 ∨ s = 3)
  | S_refresh _ => ∃ s, cells !! k = Some s ∧ (s = 0 ∧ k ∈ senders Async c ∨ s = 1 ∨ s = 3)
  | S_final _ _ st | R_final _ st => cells !! k = Some st ∧ (st = 1 ∨ st = 3)
  | R_wait d => ∃ s, cells !! k = Some s ∧ (s = 0 ∧ d = Sync ∧ k ∈ receivers d c ∨ s = 1 ∨ s = 3)
  | R_park d => ∃ s, cells !! k = Some s ∧ (s = 0 ∧ k ∈ receivers d c ∨ s = 1 ∨ s = 3)
  | B_recv max => 0 ≤ max < U64
  | T_first | T_reg | T_second | T_loop | T_cas | T_unlink | T_last | T_park | T_check | T_try | D_cas _ | D_unlink _ => False
  | _ => True
  end.

(** Asleep, or about to be without looking at its cell again. *)
Definition drowsy p : Prop := match p with S_park _ _ | S_refresh _ | R_park _ => True | _ => False end.
Definition tasked p : Prop := match p with R_try Async | R_reg Async | R_wait Async | R_park Async | R_final Async _ => True | _ => False end.
Definition to_wake ps k : Prop := ∃ j ws, ps !! j = Some (K_wake ws) ∧ k ∈ ws.

(** [pend] lists the waiters marked in the current critical section and not yet woken. *)
Record live_inv cap a b pend ps c cells ts : Prop := {
  lv_buffer : ∃ xs, buffer_ok cap c xs;
  lv_recv d k : k ∈ receivers d c → ∃ p, ps !! k = Some p ∧ recv_reg d p;
  lv_send d k : k ∈ senders d c → ∃ p, ps !! k = Some p ∧ send_reg d p;
  lv_nodup d : NoDup (receivers d c) ∧ NoDup (senders d c);
  lv_own k p : ps !! k = Some p → own c cells k p;
  lv_gone d k : k ∈ receivers d c → cells !! k = Some STATE_SUCCESS_SPACE → k ∈ pend;
  lv_rwait : waits_in receivers c cells → len c + a ≤ weigh recv_weight ps cells;
  lv_swait : waits_in senders c cells → cap - len c + b ≤ weigh send_weight ps cells;
  lv_rclosed : sender_count c = 0 → ¬ waits_in receivers c cells;
  lv_sclosed : receiver_count c = 0 → ¬ waits_in senders c cells;
  lv_wake k p : ps !! k = Some p → drowsy p → k ∉ ts → cells !! k ≠ Some STATE_WAITING → k ∈ pend ∨ to_wake ps k;
  lv_quiet k p : ps !! k = Some p → tasked p → cells !! k ≠ Some STATE_CLOSED_BUFFERED →
    ¬ to_wake ps k ∧ (p ≠ R_park Async ∨ cells !! k = Some STATE_WAITING → k ∉ ts);
  lv_scount : weigh closes_sender ps cells ≤ sender_count c ∧ sender_count c + weigh clones_sender ps cells < U64;
  lv_rcount : weigh closes_receiver ps cells ≤ receiver_count c ∧ receiver_count c + weigh clones_receiver ps cells < U64;
}.

(** ** Weights *)

Lemma weigh_self w ps k p p' cells cells' :
  ps !! k = Some p → (∀ j, j ≠ k → cells' !! j = cells !! j) →
  weigh w (<[k:=p']> ps) cells' = weigh w ps cells - w p (cells !! k) + w p' (cells' !! k).
Proof.
  intros Hk Hc. unfold weigh. rewrite length_insert. pose proof (lookup_lt_Some _ _ _ Hk) as Hlt.
  rewrite (isum_change _ (λ i, match ps !! i with Some p => w p (cells !! i) | None => 0 end) _ k Hlt).
  - by rewrite Hk, list_lookup_insert_eq.
  - intros i _ Hi. rewrite list_lookup_insert_ne by done. by rewrite Hc.
Qed.

Lemma weigh_cell w ps j q s cells : ps !! j = Some q → weigh w ps (<[j:=s]> cells) = weigh w ps cells - w q (cells !! j) + w q (Some s).
Proof.
  intros Hj. unfold weigh. pose proof (lookup_lt_Some _ _ _ Hj) as Hlt.
  rewrite (isum_change _ (λ i, match ps !! i with Some p => w p (cells !! i) | None => 0 end) _ j Hlt).
  - by rewrite Hj, lookup_insert_eq.
  - intros i _ Hi. by rewrite lookup_insert_ne.
Qed.

Lemma weigh_mono w ps cells cells' :
  (∀ k p, ps !! k = Some p → w p (cells !! k) ≤ w p (cells' !! k)) → weigh w ps cells ≤ weigh w ps cells'.
Proof. intros H. apply isum_mono. intros i Hi. destruct (ps !! i) eqn:E; [by apply H|done]. Qed.

Lemma weigh_const w ps cells cells' : (∀ p s s', w p s = w p s') → weigh w ps cells = weigh w ps cells'.
Proof. intros H. apply isum_ext. intros i _. destruct (ps !! i); [apply H|done]. Qed.

Lemma weigh_nonneg w ps cells : (∀ p s, 0 ≤ w p s) → 0 ≤ weigh w ps cells.
Proof. intros H. apply isum_nonneg. intros i _. by destruct (ps !! i). Qed.

Lemma weigh_zero w ps cells : (∀ k p, ps !! k = Some p → w p (cells !! k) = 0) → weigh w ps cells = 0.
Proof. intros H. apply isum_zero. intros i _. destruct (ps !! i) eqn:E; [by apply H|done]. Qed.

Lemma recv_weight_nonneg p s : 0 ≤ recv_weight p s.
Proof. unfold recv_weight, is_success. destruct p; try case_decide; lia. Qed.

Lemma send_weight_nonneg p s : 0 ≤ send_weight p s.
Proof. unfold send_weight, is_success. destruct p; try case_decide; lia. Qed.

(** ** What leaves the callers where they are *)

(** Slack only matters while somebody waits. *)
Lemma live_slack cap a a' b b' pend ps c cells ts :
  (a' ≤ a ∨ ¬ waits_in receivers c cells) → (b' ≤ b ∨ ¬ waits_in senders c cells) → live_inv cap a b pend ps c cells ts → live_inv cap a' b' pend ps c cells ts.
Proof.
  intros Ha Hb Hi. split; try apply Hi.
  - intros Hw. pose proof (lv_rwait _ _ _ _ _ _ _ _ Hi Hw). destruct Ha; [lia|done].
  - intros Hw. pose proof (lv_swait _ _ _ _ _ _ _ _ Hi Hw). destruct Hb; [lia|done].
Qed.

(** A waiting cell is set: its owner is on its way if there is space, or done for if the channel closed. *)
Lemma mark_inv cap a b pend ps c cells ts w q s :
  live_inv cap a b pend ps c cells ts → ps !! w = Some q → cells !! w = Some STATE_WAITING →
  s = STATE_CLOSED_BUFFERED ∨ s = STATE_SUCCESS_SPACE →
  live_inv cap (a + recv_weight q (Some s)) (b + send_weight q (Some s)) (w :: pend) ps c (<[w:=s]> cells) ts.
Proof.
  intros Hi Hq Hw Hs. assert (Hs0 : s ≠ STATE_WAITING) by (by destruct Hs as [-> | ->]).
  assert (Hown := lv_own _ _ _ _ _ _ _ _ Hi w q Hq).
  assert (Hwait : ∀ side, waits_in side c (<[w:=s]> cells) → waits_in side c cells).
  { intros side (d&k&Hk&Hc). exists d, k. split; [done|]. apply lookup_insert_Some in Hc as [[_ Hc]|[_ Hc]]; [congruence|done]. }
  assert (Hr0 : recv_weight q (cells !! w) = 0).
  { rewrite Hw. destruct q; simpl in *; try done; rewrite Hw in Hown; naive_solver. }
  assert (Hs00 : send_weight q (cells !! w) = 0).
  { rewrite Hw. destruct q; simpl in *; try done; rewrite Hw in Hown; naive_solver. }
  split; try apply Hi.
  - intros k p Hk. pose proof (lv_own _ _ _ _ _ _ _ _ Hi k p Hk) as Ho. destruct (decide (k = w)) as [->|].
    + assert (p = q) as -> by congruence. unfold own in *. rewrite Hw in Ho. rewrite lookup_insert_eq.
      destruct q; try done; try (destruct Ho as [? [-> | ->]]; done); exists s; (split; [done|]); unfold STATE_CLOSED_BUFFERED, STATE_SUCCESS_SPACE in Hs; tauto.
    + unfold own in *. by rewrite lookup_insert_ne.
  - intros d k Hk Hc. apply lookup_insert_Some in Hc as [[-> _]|[_ Hc]]; [by left|right]. by eapply (lv_gone _ _ _ _ _ _ _ _ Hi).
  - intros Hx%Hwait. rewrite (weigh_cell _ _ _ q) by done. pose proof (lv_rwait _ _ _ _ _ _ _ _ Hi Hx). lia.
  - intros Hx%Hwait. rewrite (weigh_cell _ _ _ q) by done. pose proof (lv_swait _ _ _ _ _ _ _ _ Hi Hx). lia.
  - intros H0 Hx%Hwait. by apply (lv_rclosed _ _ _ _ _ _ _ _ Hi).
  - intros H0 Hx%Hwait. by apply (lv_sclosed _ _ _ _ _ _ _ _ Hi).
  - intros k p Hk Hd Ht Hc. destruct (decide (k = w)) as [->|]; [left; by left|]. rewrite lookup_insert_ne in Hc by done.
    destruct (lv_wake _ _ _ _ _ _ _ _ Hi k p Hk Hd Ht Hc); [left; by right|by right].
  - intros k p Hk Hp Hc. destruct (decide (k = w)) as [->|].
    + rewrite lookup_insert_eq in *. assert (p = q) as -> by congruence.
      destruct (lv_quiet _ _ _ _ _ _ _ _ Hi w q Hq Hp ltac:(by rewrite Hw)) as [? Hts]. split; [done|]. intros [?|[= ?]]; [|done]. apply Hts. by left.
    + rewrite lookup_insert_ne in * by done. by apply (lv_quiet _ _ _ _ _ _ _ _ Hi).
Qed.

(** Waiters that no longer wait are taken out of the queues. *)
Record thinner c c' cells : Prop := {
  th_buffer : same_buffer c c';
  th_counts : same_counts c c';
  th_recv d : receivers d c' `sublist_of` receivers d c;
  th_send d : senders d c' `sublist_of` senders d c;
  th_recv_keep d v : v ∈ receivers d c → cells !! v = Some STATE_WAITING → v ∈ receivers d c';
  th_send_keep d v : v ∈ senders d c → cells !! v = Some STATE_WAITING → v ∈ senders d c';
}.

Lemma thin_inv cap a b pend ps c c' cells ts :
  live_inv cap a b pend ps c cells ts → thinner c c' cells → live_inv cap a b pend ps c' cells ts.
Proof.
  intros Hi [Hb [Hc1 Hc2] Hr Hs Hrk Hsk]. assert (Hlen : len c' = len c) by apply Hb.
  assert (Hre : ∀ d v, v ∈ receivers d c' → v ∈ receivers d c) by (intros d v Hv; by eapply elem_of_sublist).
  assert (Hse : ∀ d v, v ∈ senders d c' → v ∈ senders d c) by (intros d v Hv; by eapply elem_of_sublist).
  assert (Hwr : waits_in receivers c' cells → waits_in receivers c cells) by (intros (d&k&?&?); exists d, k; auto).
  assert (Hws : waits_in senders c' cells → waits_in senders c cells) by (intros (d&k&?&?); exists d, k; auto).
  split; rewrite ?Hc1, ?Hc2, ?Hlen; try apply Hi.
  - destruct (lv_buffer _ _ _ _ _ _ _ _ Hi) as [xs Hx]. exists xs. by apply (same_buffer_ok cap c).
  - intros d k Hk. apply (lv_recv _ _ _ _ _ _ _ _ Hi). auto.
  - intros d k Hk. apply (lv_send _ _ _ _ _ _ _ _ Hi). auto.
  - intros d. destruct (lv_nodup _ _ _ _ _ _ _ _ Hi d). split; [eapply (sublist_NoDup _ (receivers d c))|eapply (sublist_NoDup _ (senders d c))]; auto.
  - intros k p Hk. pose proof (lv_own _ _ _ _ _ _ _ _ Hi k p Hk) as Ho. unfold own in *.
    destruct p; try exact Ho; destruct Ho as (s&Hcs&Ho); exists s; (split; [done|]); (destruct Ho as [Ho|?]; [left; destruct_and?; subst s; auto|by right]).
  - intros d k Hk. apply (lv_gone _ _ _ _ _ _ _ _ Hi d). auto.
  - intros Hx. apply (lv_rwait _ _ _ _ _ _ _ _ Hi). auto.
  - intros Hx. apply (lv_swait _ _ _ _ _ _ _ _ Hi). auto.
  - intros H0 Hx. apply (lv_rclosed _ _ _ _ _ _ _ _ Hi); auto.
  - intros H0 Hx. apply (lv_sclosed _ _ _ _ _ _ _ _ Hi); auto.
Qed.

(** A marked waiter is woken. *)
Lemma wake_pend cap a b pend ps c cells ts w :
  live_inv cap a b (w :: pend) ps c cells ts → cells !! w ≠ Some STATE_WAITING →
  (∀ d, w ∈ receivers d c → cells !! w ≠ Some STATE_SUCCESS_SPACE) →
  (∀ p, ps !! w = Some p → tasked p → cells !! w ≠ Some STATE_CLOSED_BUFFERED → p = R_park Async) →
  live_inv cap a b pend ps c cells ({[w]} ∪ ts).
Proof.
  intros Hi Hw Hg Ht. split; try apply Hi.
  - intros d k Hk Hc. pose proof (lv_gone _ _ _ _ _ _ _ _ Hi d k Hk Hc) as [->|]%elem_of_cons; [|done]. by destruct (Hg d).
  - intros k p Hk Hd [Hkw Hkt]%not_elem_of_union Hc. pose proof (lv_wake _ _ _ _ _ _ _ _ Hi k p Hk Hd Hkt Hc) as [[->|]%elem_of_cons|]; [set_solver|by left|by right].
  - intros k p Hk Hp Hc. destruct (lv_quiet _ _ _ _ _ _ _ _ Hi k p Hk Hp Hc) as [Hq Hq']. split; [done|]. intros Hor [->%elem_of_singleton|]%elem_of_union; [|by apply Hq'].
    destruct Hor as [Hne|]; [|done]. by apply Hne, Ht.
Qed.

Lemma live_receivers cap a b pend ps c cells ts d : live_inv cap a b pend ps c cells ts → live cells (receivers d c).
Proof.
  intros Hi w Hw. destruct (lv_recv _ _ _ _ _ _ _ _ Hi d w Hw) as (p&Hp&Hr). pose proof (lv_own _ _ _ _ _ _ _ _ Hi w p Hp) as Ho.
  destruct p; try done; [(destruct Ho as (s&Hs&_); by exists s)..|]. destruct Ho as [-> _]. by eexists.
Qed.

Lemma live_senders cap a b pend ps c cells ts d : live_inv cap a b pend ps c cells ts → live cells (senders d c).
Proof.
  intros Hi w Hw. destruct (lv_send _ _ _ _ _ _ _ _ Hi d w Hw) as (p&Hp&Hr). pose proof (lv_own _ _ _ _ _ _ _ _ Hi w p Hp) as Ho.
  destruct p; try done; [(destruct Ho as (s&Hs&_); by exists s)..|]. destruct Ho as [-> _]. by eexists.
Qed.

Lemma waiting_receiver cap a b pend ps c cells ts w d :
  live_inv cap a b pend ps c cells ts → w ∈ receivers d c → cells !! w = Some STATE_WAITING →
  ∃ q, ps !! w = Some q ∧ recv_reg d q ∧ (tasked q → q = R_park Async) ∧ recv_weight q (Some STATE_SUCCESS_SPACE) = 1.
Proof.
  intros Hi Hw Hc. destruct (lv_recv _ _ _ _ _ _ _ _ Hi d w Hw) as (q&Hq&Hr). exists q. split; [done|]. split; [done|].
  pose proof (lv_own _ _ _ _ _ _ _ _ Hi w q Hq) as Ho. destruct q as [| | | | | | | |[]|[]|? ?| | | | | | | | | | | | | | | | | | | |]; try done; simpl in *;
    rewrite Hc in Ho; naive_solver.
Qed.

Lemma waiting_sender cap a b pend ps c cells ts w d :
  live_inv cap a b pend ps c cells ts → w ∈ senders d c → cells !! w = Some STATE_WAITING →
  ∃ q, ps !! w = Some q ∧ send_reg d q ∧ ¬ tasked q ∧ send_weight q (Some STATE_SUCCESS_SPACE) = 1.
Proof.
  intros Hi Hw Hc. destruct (lv_send _ _ _ _ _ _ _ _ Hi d w Hw) as (q&Hq&Hr). exists q. split; [done|]. split; [done|].
  destruct q; try done; (split; [by intros []|by vm_compute]).
Qed.

Lemma recv_reg_kind d d' q : recv_reg d q → recv_reg d' q → d = d'.
Proof. destruct q; simpl; congruence || done. Qed.

Lemma reg_sides d d' q : recv_reg d q → send_reg d' q → False.
Proof. by destruct q. Qed.

(** A scan, which wakes whom it claimed. *)
Lemma claimed_receiver cap a b ps c cells ts r c' cells' :
  live_inv cap a b [] ps c cells ts → same_buffer c c' → same_senders c c' → same_counts c c' → claimed receivers c cells r c' cells' →
  match r with
  | Some w => live_inv cap (a + 1) b [] ps c' cells' ({[w]} ∪ ts)
  | None => cells' = cells ∧ ¬ waits_in receivers c' cells ∧ live_inv cap a b [] ps c' cells ts
  end.
Proof.
  intros Hi Hb Hs Hc [Hsub Hkeep Hwho].
  assert (Hth : thinner c c' cells').
  { split; try done; [intros d; by rewrite (Hs d)|intros d v; by rewrite (Hs d)]. }
  destruct r as [w|].
  - destruct Hwho as (Hw&->&d&Hin&Hout). destruct (waiting_receiver _ _ _ _ _ _ _ _ _ _ Hi Hin Hw) as (q&Hq&Hr&Ht&Hwt).
    pose proof (mark_inv _ _ _ _ _ _ _ _ _ _ _ Hi Hq Hw (or_intror eq_refl)) as Hm. apply (thin_inv _ _ _ _ _ _ _ _ _ Hm) in Hth as Hm'.
    rewrite Hwt in Hm'. apply wake_pend; [|by rewrite lookup_insert_eq|..].
    + eapply live_slack; [by left|left|exact Hm']. pose proof (send_weight_nonneg q (Some STATE_SUCCESS_SPACE)). lia.
    + intros d' Hd'. exfalso. assert (d' = d) as ->.
      { pose proof (elem_of_sublist _ _ _ Hd' (Hsub d')) as Hd0. destruct (lv_recv _ _ _ _ _ _ _ _ Hi d' w Hd0) as (q'&Hq'&Hr').
        assert (q' = q) as -> by congruence. by eapply recv_reg_kind. }
      apply Hout; [apply (lv_nodup _ _ _ _ _ _ _ _ Hi)|done].
    + intros p Hp Htp _. assert (p = q) as -> by congruence. by apply Ht.
  - destruct Hwho as [-> Hno]. split; [done|]. split; [|by eapply thin_inv]. intros (d&k&Hk&Hkw). apply (Hno d k); [|done]. by eapply elem_of_sublist.
Qed.

Lemma claimed_sender cap a b ps c cells ts r c' cells' :
  live_inv cap a b [] ps c cells ts → same_buffer c c' → same_receivers c c' → same_counts c c' → claimed senders c cells r c' cells' →
  match r with
  | Some w => live_inv cap a (b + 1) [] ps c' cells' ({[w]} ∪ ts)
  | None => cells' = cells ∧ ¬ waits_in senders c' cells ∧ live_inv cap a b [] ps c' cells ts
  end.
Proof.
  intros Hi Hb Hs Hc [Hsub Hkeep Hwho].
  assert (Hth : thinner c c' cells').
  { split; try done; [intros d; by rewrite (Hs d)|intros d v; by rewrite (Hs d)]. }
  destruct r as [w|].
  - destruct Hwho as (Hw&->&d&Hin&Hout). destruct (waiting_sender _ _ _ _ _ _ _ _ _ _ Hi Hin Hw) as (q&Hq&Hr&Ht&Hwt).
    pose proof (mark_inv _ _ _ _ _ _ _ _ _ _ _ Hi Hq Hw (or_intror eq_refl)) as Hm. apply (thin_inv _ _ _ _ _ _ _ _ _ Hm) in Hth as Hm'.
    rewrite Hwt in Hm'. apply wake_pend; [|by rewrite lookup_insert_eq|..].
    + eapply live_slack; [left|by left|exact Hm']. pose proof (recv_weight_nonneg q (Some STATE_SUCCESS_SPACE)). lia.
    + intros d' Hd'. exfalso. rewrite (Hs d') in Hd'. destruct (lv_recv _ _ _ _ _ _ _ _ Hi d' w Hd') as (q'&Hq'&Hr').
      assert (q' = q) as -> by congruence. by eapply reg_sides.
    + intros p Hp Htp _. assert (p = q) as -> by congruence. done.
  - destruct Hwho as [-> Hno]. split; [done|]. split; [|by eapply thin_inv]. intros (d&k&Hk&Hkw). apply (Hno d k); [|done]. by eapply elem_of_sublist.
Qed.

(** Items come and go. *)
Lemma buffer_inv cap a b pend ps c (rb : Unsync.UnsynchronizedRingBuffer (T:=T)) (n : Z) cells ts (xs : list T) :
  live_inv cap a b pend ps c cells ts → buffer_ok cap (with_queue rb n c) xs →
  live_inv cap (a + len c - Z.of_nat (length xs)) (b + Z.of_nat (length xs) - len c) pend ps (with_queue rb n c) cells ts.
Proof.
  intros Hi Hb. assert (Hl : len (with_queue rb n c) = Z.of_nat (length xs)) by (apply Hb).
  split; rewrite ?Hl; try apply Hi.
  - by exists xs.
  - intros Hw. pose proof (lv_rwait _ _ _ _ _ _ _ _ Hi Hw). lia.
  - intros Hw. pose proof (lv_swait _ _ _ _ _ _ _ _ Hi Hw). lia.
Qed.

(** ** The critical sections *)

Lemma same_counts_trans c1 c2 c3 : same_counts c1 c2 → same_counts c2 c3 → same_counts c1 c3.
Proof. intros [] []. split; congruence. Qed.

Lemma push_live cap a b ps c cells ts (item : T) :
  0 < cap ≤ 2 ^ 63 → live_inv cap a b [] ps c cells ts → len c < cap →
  ∃ c', push_expect item c = Some c' ∧ same_counts c c' ∧ live_inv cap (a - 1) (b + 1) [] ps c' cells ts.
Proof.
  intros Hc Hi Hl. destruct (lv_buffer _ _ _ _ _ _ _ _ Hi) as [xs Hb]. assert (Hlx : len c = Z.of_nat (length xs)) by apply Hb.
  destruct (push_expect_spec cap c xs item Hc Hb ltac:(lia)) as (rb&n&->&Hb'). eexists. split; [done|]. split; [done|].
  pose proof (buffer_inv _ _ _ _ _ _ _ _ _ _ _ Hi Hb') as Hi'. eapply live_slack; [left|left|exact Hi']; rewrite length_app; simpl; lia.
Qed.

Lemma send_one scan cap a b ps c cells ts (item : T) :
  0 < cap ≤ 2 ^ 63 → is_scan scan → live_inv cap a b [] ps c cells ts →
  ∃ r c1 cells1, claim_receiver scan cap c cells = Some (r, c1, cells1) ∧ same_counts c c1 ∧
    match r with
    | Some w => ∃ c2, push_expect item c1 = Some c2 ∧ same_counts c c2 ∧ live_inv cap a (b + 1) [] ps c2 cells1 ({[w]} ∪ ts)
    | None => live_inv cap a b [] ps c1 cells1 ts ∧
        (len c1 < cap → ∃ c2, push_expect item c1 = Some c2 ∧ same_counts c c2 ∧ live_inv cap a (b + 1) [] ps c2 cells1 ts)
    end.
Proof.
  intros Hc Hscan Hi. destruct (lv_buffer _ _ _ _ _ _ _ _ Hi) as [xs Hb]. assert (Hlx : len c = Z.of_nat (length xs)) by apply Hb.
  pose proof (bo_cap _ _ _ Hb) as Hle. pose proof (buffer_full _ _ _ (proj1 Hc) Hb) as Hf.
  destruct (claim_receiver_spec scan cap c cells Hscan (λ d, live_receivers _ _ _ _ _ _ _ _ d Hi)) as (r&c1&cells1&E&Hss&Hsc&Hor).
  exists r, c1, cells1. split; [done|]. split; [done|].
  pose proof (claim_receiver_buffer _ _ _ _ _ _ _ E) as Hsb. assert (Hl1 : len c1 = len c) by apply Hsb.
  destruct Hor as [(Hfull&->&->&->)|(Hfull&Hcl)].
  - split; [done|]. intros Hlt. rewrite Hf in Hfull. lia.
  - rewrite Hf in Hfull. pose proof (claimed_receiver _ _ _ _ _ _ _ _ _ _ Hi Hsb Hss Hsc Hcl) as Hx. destruct r as [w|].
    + destruct (push_live _ _ _ _ _ _ _ item Hc Hx ltac:(lia)) as (c2&E2&Hs2&Hi2). exists c2. split; [exact E2|]. split; [by eapply same_counts_trans|].
      by replace (a + 1 - 1) with a in Hi2 by lia.
    + destruct Hx as (->&Hno&Hx). split; [done|]. intros Hlt.
      assert (Hx' : live_inv cap (a + 1) b [] ps c1 cells ts) by (eapply live_slack; [by right|by left|exact Hx]).
      destruct (push_live _ _ _ _ _ _ _ item Hc Hx' Hlt) as (c2&E2&Hs2&Hi2).
      exists c2. split; [exact E2|]. split; [by eapply same_counts_trans|]. by replace (a + 1 - 1) with a in Hi2 by lia.
Qed.

Lemma claim_is_scan : is_scan claim.
Proof. exact claim_spec. Qed.

Lemma pop_claim_is_scan : is_scan pop_claim.
Proof. exact pop_claim_spec. Qed.

Lemma try_send_core_live cap a b ps c cells ts (item : T) :
  0 < cap ≤ 2 ^ 63 → live_inv cap a b [] ps c cells ts →
  ∃ r c' cells' ts', try_send_core cap item c cells ts = Some (r, c', cells', ts') ∧ same_counts c c' ∧
    live_inv cap a (match r with inl _ => b + 1 | _ => b end) [] ps c' cells' ts' ∧ (match r with inr (Closed _) => receiver_count c' = 0 | _ => True end).
Proof.
  intros Hc Hi. unfold try_send_core. destruct (Z.eqb_spec (receiver_count c) 0); [by do 4 eexists|].
  destruct (send_one claim _ _ _ _ _ _ _ item Hc claim_is_scan Hi) as (r&c1&cells1&->&Hs1&Hr). cbn [mbind option_bind]. destruct r as [w|].
  - destruct Hr as (c2&->&Hs2&Hi2). by do 4 eexists.
  - destruct Hr as [Hi1 Hr]. destruct (Z.eqb_spec cap 0); [lia|]. destruct (Z.ltb_spec (len c1) cap); [|by do 4 eexists].
    destruct (Hr ltac:(done)) as (c2&->&Hs2&Hi2). by do 4 eexists.
Qed.

Lemma send_loop_live cap a b ps (items : list T) c cells ts :
  0 < cap ≤ 2 ^ 63 → live_inv cap a b [] ps c cells ts →
  ∃ n c' cells' ts', send_loop cap items c cells ts = Some (n, c', cells', ts') ∧ same_counts c c' ∧ live_inv cap a b [] ps c' cells' ts'.
Proof.
  intros Hc. revert c cells ts. induction items as [|item items IH]; intros c cells ts Hi; cbn [send_loop]; [by do 4 eexists|].
  assert (Hweak : ∀ c2 cells2 ts2, live_inv cap a (b + 1) [] ps c2 cells2 ts2 → live_inv cap a b [] ps c2 cells2 ts2).
  { intros c2 cells2 ts2. apply live_slack; left; lia. }
  destruct (send_one pop_claim _ _ _ _ _ _ _ item Hc pop_claim_is_scan Hi) as (r&c1&cells1&->&Hs1&Hr). cbn [mbind option_bind]. destruct r as [w|].
  - destruct Hr as (c2&->&Hs2&Hi2). cbn [mbind option_bind]. destruct (IH _ _ (wake_opt (Some w) ts) (Hweak _ _ _ Hi2)) as (n&c3&cells3&ts3&->&Hs3&Hi3).
    do 4 eexists. split; [done|]. split; [by eapply same_counts_trans|done].
  - destruct Hr as [Hi1 Hr]. destruct (Z.eqb_spec cap 0); [lia|]. destruct (Z.ltb_spec (len c1) cap); [|by do 4 eexists].
    destruct (Hr ltac:(done)) as (c2&->&Hs2&Hi2). cbn [mbind option_bind]. destruct (IH _ _ ts (Hweak _ _ _ Hi2)) as (n1&c3&cells3&ts3&->&Hs3&Hi3).
    do 4 eexists. split; [done|]. split; [by eapply same_counts_trans|done].
Qed.

Lemma claim_sender_live cap a b ps c cells ts :
  live_inv cap a b [] ps c cells ts →
  ∃ r c' cells', claim_sender c cells = Some (r, c', cells') ∧ same_counts c c' ∧ same_buffer c c' ∧
    live_inv cap a (b + 1) [] ps c' cells' (wake_opt r ts) ∧ (r = None → ¬ waits_in senders c' cells').
Proof.
  intros Hi. destruct (claim_sender_spec c cells (λ d, live_senders _ _ _ _ _ _ _ _ d Hi)) as (r&c1&cells1&E&Hss&Hsc&Hcl).
  pose proof (claim_sender_buffer _ _ _ _ _ E) as Hsb. exists r, c1, cells1. split; [done|]. split; [done|]. split; [done|].
  pose proof (claimed_sender _ _ _ _ _ _ _ _ _ _ Hi Hsb Hss Hsc Hcl) as Hx. destruct r as [w|]; [done|].
  destruct Hx as (->&Hno&Hx). split; [|done]. eapply live_slack; [by left|by right|done].
Qed.

Lemma try_recv_core_live cap a b ps c cells ts :
  0 < cap ≤ 2 ^ 63 → live_inv cap a b [] ps c cells ts →
  ∃ r c' cells' ts', try_recv_core cap c cells ts = Some (r, c', cells', ts') ∧ same_counts c c' ∧
    live_inv cap (match r with inl _ => a + 1 | _ => a end) b [] ps c' cells' ts' ∧ (match r with inr Disconnected => sender_count c' = 0 | _ => True end).
Proof.
  intros Hc Hi. unfold try_recv_core. destruct (lv_buffer _ _ _ _ _ _ _ _ Hi) as [xs Hb]. assert (Hlx : len c = Z.of_nat (length xs)) by apply Hb.
  destruct (pop_front_spec cap c xs Hc Hb) as (rb&n&->&Hb'). pose proof (buffer_inv _ _ _ _ _ _ _ _ _ _ _ Hi Hb') as Hi'. cbn [mbind option_bind].
  destruct xs as [|x xs]; simpl in *.
  - do 4 eexists. split; [done|]. split; [done|]. split; [eapply live_slack; [left|left|exact Hi']; lia|]. by destruct (Z.eqb_spec (sender_count c) 0).
  - destruct (Z.ltb_spec 0 cap); [|lia].
    destruct (claim_sender_live _ _ _ _ _ _ _ Hi') as (r&c2&cells2&->&Hs2&_&Hi2&_). cbn [mbind option_bind]. do 4 eexists. split; [done|]. split; [done|].
    split; [|done]. eapply live_slack; [left|left|exact Hi2]; lia.
Qed.

Lemma wake_senders_live cap a b ps n c cells ts :
  live_inv cap a (b - Z.of_nat n) [] ps c cells ts →
  ∃ c' cells' ts', wake_senders n c cells ts = Some (c', cells', ts') ∧ same_counts c c' ∧ live_inv cap a b [] ps c' cells' ts'.
Proof.
  revert c cells ts b. induction n as [|n IH]; intros c cells ts b Hi; cbn [wake_senders].
  - do 3 eexists. split; [done|]. split; [done|]. by replace (b - Z.of_nat 0) with b in Hi by lia.
  - destruct (claim_sender_live _ _ _ _ _ _ _ Hi) as (r&c2&cells2&->&Hs2&_&Hi2&Hno). cbn [mbind option_bind]. destruct r as [w|].
    + destruct (IH c2 cells2 (wake_opt (Some w) ts) b) as (c3&cells3&ts3&->&Hs3&Hi3); [by replace (b - Z.of_nat n) with (b - Z.of_nat (S n) + 1) by lia|].
      do 3 eexists. split; [done|]. split; [by eapply same_counts_trans|done].
    + do 3 eexists. split; [done|]. split; [done|]. eapply live_slack; [by left|right; by apply Hno|exact Hi2].
Qed.

Lemma try_recv_batch_core_live cap b ps c cells ts max :
  0 < cap ≤ 2 ^ 63 → 0 ≤ max < U64 → live_inv cap 0 b [] ps c cells ts →
  ∃ r c' cells' ts', try_recv_batch_core cap max c cells ts = Some (r, c', cells', ts') ∧ same_counts c c' ∧ live_inv cap 0 b [] ps c' cells' ts'.
Proof.
  intros Hc Hm Hi. unfold try_recv_batch_core. destruct (Z.eqb_spec max 0); [by do 4 eexists|].
  destruct (lv_buffer _ _ _ _ _ _ _ _ Hi) as [xs Hb]. assert (Hlx : len c = Z.of_nat (length xs)) by apply Hb.
  set (fb := Z.min max (len c)). destruct (Z.ltb_spec 0 fb) as [Hlt|Hge].
  - destruct (drain_into_spec cap c xs fb Hc Hb ltac:(lia)) as (rb&n1&->&Hb'). pose proof (buffer_inv _ _ _ _ _ _ _ _ _ _ _ Hi Hb') as Hi'. rewrite length_drop in Hi'.
    cbn [mbind option_bind]. destruct (Z.ltb_spec 0 cap); [|lia]. cbn [andb].
    rewrite (u64_sub_small max fb), u64_add_small by lia. replace (fb + (max - fb)) with max by lia.
    destruct (wake_senders_live cap 0 b ps (Z.to_nat max) (with_queue rb n1 c) cells ts) as (c3&cells3&ts3&->&Hs3&Hi3).
    { eapply live_slack; [left|left|exact Hi']; lia. }
    cbn [mbind option_bind]. by do 4 eexists.
  - cbn [mbind option_bind]. rewrite andb_false_r. cbn [mbind option_bind]. by do 4 eexists.
Qed.

(** ** What a caller does with itself *)

(** Caller [k] goes from [p] to [p'] and changes its cell and its place in the queues only; a
    caller that closed a handle takes the marked waiters along, to wake them. *)
Record local cap ps pend k p p' c c' cells cells' ts ts' a a' b b' : Prop := {
  lo_buffer : same_buffer c c';
  lo_cells j : j ≠ k → cells' !! j = cells !! j;
  lo_recv d v : v ≠ k → (v ∈ receivers d c' ↔ v ∈ receivers d c);
  lo_send d v : v ≠ k → (v ∈ senders d c' ↔ v ∈ senders d c);
  lo_recv_k d : k ∈ receivers d c' → recv_reg d p';
  lo_send_k d : k ∈ senders d c' → send_reg d p';
  lo_nodup d : NoDup (receivers d c') ∧ NoDup (senders d c');
  lo_own : own c' cells' k p';
  lo_gone d : k ∈ receivers d c' → cells' !! k ≠ Some STATE_SUCCESS_SPACE;
  lo_rwait : len c + a' ≤ 0 ∨ a' ≤ a + recv_weight p' (cells' !! k) - recv_weight p (cells !! k) ∧ ∀ d, k ∈ receivers d c' → cells' !! k = Some STATE_WAITING → waits_in receivers c cells;
  lo_swait : cap - len c + b' ≤ 0 ∨ b' ≤ b + send_weight p' (cells' !! k) - send_weight p (cells !! k) ∧ ∀ d, k ∈ senders d c' → cells' !! k = Some STATE_WAITING → waits_in senders c cells;
  lo_rclosed : sender_count c' = 0 → ¬ waits_in receivers c cells ∧ ∀ d, k ∈ receivers d c' → cells' !! k ≠ Some STATE_WAITING;
  lo_sclosed : receiver_count c' = 0 → ¬ waits_in senders c cells ∧ ∀ d, k ∈ senders d c' → cells' !! k ≠ Some STATE_WAITING;
  lo_ts j : j ≠ k → j ∈ ts → j ∈ ts';
  lo_ts' j : j ≠ k → j ∈ ts' → j ∈ ts ∨ to_wake ps j;
  lo_drowsy : drowsy p' → k ∉ ts' → cells' !! k ≠ Some STATE_WAITING → drowsy p ∧ k ∉ ts ∧ cells !! k ≠ Some STATE_WAITING;
  lo_pend j : j ∈ pend → (∃ ws, p' = K_wake ws ∧ j ∈ ws) ∧ ∀ d, j ∈ receivers d c → cells !! j ≠ Some STATE_SUCCESS_SPACE;
  lo_list ws j : p = K_wake ws → j ∈ ws → j ∈ ts' ∨ ∃ ws', p' = K_wake ws' ∧ j ∈ ws';
  lo_list' ws' j : p' = K_wake ws' → j ∈ ws' → (∃ ws, p = K_wake ws ∧ j ∈ ws) ∨ (∀ q, ps !! j = Some q → tasked q → cells !! j = Some STATE_CLOSED_BUFFERED);
  lo_quiet : tasked p' → cells' !! k ≠ Some STATE_CLOSED_BUFFERED →
    tasked p ∧ cells !! k ≠ Some STATE_CLOSED_BUFFERED ∧ (p' ≠ R_park Async ∨ cells' !! k = Some STATE_WAITING → k ∉ ts');
  lo_scount : closes_sender p' None - closes_sender p None ≤ sender_count c' - sender_count c ∧ sender_count c' + clones_sender p' None ≤ sender_count c + clones_sender p None;
  lo_rcount : closes_receiver p' None - closes_receiver p None ≤ receiver_count c' - receiver_count c ∧ receiver_count c' + clones_receiver p' None ≤ receiver_count c + clones_receiver p None;
}.

Lemma to_wake_insert ps k p p' j : ps !! k = Some p → to_wake (<[k:=p']> ps) j → (∃ ws, p' = K_wake ws ∧ j ∈ ws) ∨ to_wake ps j.
Proof.
  intros Hk (i&ws&Hi&Hj). destruct (decide (i = k)) as [->|].
  - rewrite list_lookup_insert_eq in Hi by (by eapply lookup_lt_Some). injection Hi as ->. left. by exists ws.
  - rewrite list_lookup_insert_ne in Hi by done. right. by exists i, ws.
Qed.

Lemma to_wake_kept ps k p p' j : ps !! k = Some p → to_wake ps j → (∃ ws, p = K_wake ws ∧ j ∈ ws) ∨ to_wake (<[k:=p']> ps) j.
Proof.
  intros Hk (i&ws&Hi&Hj). destruct (decide (i = k)) as [->|]; [left; exists ws; split; [congruence|done]|].
  right. exists i, ws. by rewrite list_lookup_insert_ne.
Qed.

Lemma to_wake_here ps k p ws j : ps !! k = Some p → j ∈ ws → to_wake (<[k:=K_wake ws]> ps) j.
Proof. intros Hk Hj. exists k, ws. split; [|done]. apply list_lookup_insert_eq. by eapply lookup_lt_Some. Qed.

Lemma local_waits (side : Kind → channel → list nat) c c' cells cells' k :
  (∀ j, j ≠ k → cells' !! j = cells !! j) → (∀ d v, v ≠ k → (v ∈ side d c' ↔ v ∈ side d c)) →
  waits_in side c' cells' → waits_in side c cells ∨ ∃ d, k ∈ side d c' ∧ cells' !! k = Some STATE_WAITING.
Proof.
  intros Hc Hs (d&j&Hj&Hw). destruct (decide (j = k)) as [->|Hne]; [right; by exists d|]. left. exists d, j. rewrite <- Hs, <- Hc by done. done.
Qed.

Section Local.
Context cap ps pend k p p' c c' cells cells' ts ts' a a' b b'.
Context (Hi : live_inv cap a b pend ps c cells ts) (Hk : ps !! k = Some p) (Hl : local cap ps pend k p p' c c' cells cells' ts ts' a a' b b').

Notation "'nb' x" := (x _ _ _ _ _ _ _ _ Hi) (at level 10, only parsing).

Lemma lookup_after j q : <[k:=p']> ps !! j = Some q → j = k ∧ q = p' ∨ j ≠ k ∧ ps !! j = Some q.
Proof using Hk.
  intros H. destruct (decide (j = k)) as [->|]; [left|right; by rewrite list_lookup_insert_ne in H].
  rewrite list_lookup_insert_eq in H by (by eapply lookup_lt_Some). split; [done|congruence].
Qed.

Lemma local_own j q : j ≠ k → ps !! j = Some q → own c' cells' j q.
Proof using Hi Hl.
  intros Hj Hq. pose proof (nb lv_own j q Hq) as Ho. pose proof (lo_recv _ _ _ _ _ _ _ _ _ _ _ _ _ _ _ _ Hl) as Hr.
  pose proof (lo_send _ _ _ _ _ _ _ _ _ _ _ _ _ _ _ _ Hl) as Hs. pose proof (lo_cells _ _ _ _ _ _ _ _ _ _ _ _ _ _ _ _ Hl j Hj) as Hc.
  unfold own in *. rewrite Hc. destruct q; try exact Ho; destruct Ho as (s&Hs'&Ho); exists s; (split; [done|]);
    (destruct Ho as [Ho|?]; [left; destruct_and?; subst s; rewrite ?(Hr _ j Hj), ?(Hs _ j Hj); auto|by right]).
Qed.

Lemma local_wake j q : <[k:=p']> ps !! j = Some q → drowsy q → j ∉ ts' → cells' !! j ≠ Some STATE_WAITING → to_wake (<[k:=p']> ps) j.
Proof using Hi Hl Hk.
  intros Hq Hd Hts Hc. destruct (lookup_after j q Hq) as [[-> ->]|[Hne Hj]].
  - destruct (lo_drowsy _ _ _ _ _ _ _ _ _ _ _ _ _ _ _ _ Hl Hd Hts Hc) as (Hd0&Hts0&Hc0).
    destruct (nb lv_wake k p Hk Hd0 Hts0 Hc0) as [Hp|Hw].
    + destruct (lo_pend _ _ _ _ _ _ _ _ _ _ _ _ _ _ _ _ Hl k Hp) as [(ws&->&_) _]. done.
    + destruct (to_wake_kept ps k p p' k Hk Hw) as [(ws&->&_)|]; done.
  - rewrite (lo_cells _ _ _ _ _ _ _ _ _ _ _ _ _ _ _ _ Hl j Hne) in Hc.
    destruct (nb lv_wake j q Hj Hd ltac:(intros ?; apply Hts; by apply (lo_ts _ _ _ _ _ _ _ _ _ _ _ _ _ _ _ _ Hl)) Hc) as [Hp|Hw].
    + destruct (lo_pend _ _ _ _ _ _ _ _ _ _ _ _ _ _ _ _ Hl j Hp) as [(ws&->&Hin) _]. by eapply to_wake_here.
    + destruct (to_wake_kept ps k p p' j Hk Hw) as [(ws&Ep&Hin)|]; [|done].
      destruct (lo_list _ _ _ _ _ _ _ _ _ _ _ _ _ _ _ _ Hl ws j Ep Hin) as [?|(ws'&->&Hin')]; [done|]. by eapply to_wake_here.
Qed.

Lemma local_quiet j q : <[k:=p']> ps !! j = Some q → tasked q → cells' !! j ≠ Some STATE_CLOSED_BUFFERED →
  ¬ to_wake (<[k:=p']> ps) j ∧ (q ≠ R_park Async ∨ cells' !! j = Some STATE_WAITING → j ∉ ts').
Proof using Hi Hl Hk.
  intros Hq Hp Hc. destruct (lookup_after j q Hq) as [[-> ->]|[Hne Hj]].
  - destruct (lo_quiet _ _ _ _ _ _ _ _ _ _ _ _ _ _ _ _ Hl Hp Hc) as (Hp0&Hc0&Hts). split; [|done].
    intros [(ws&->&_)|Hw]%(to_wake_insert ps k p p' k Hk); [done|]. destruct (nb lv_quiet k p Hk Hp0 Hc0) as [Hno _]. by apply Hno.
  - rewrite (lo_cells _ _ _ _ _ _ _ _ _ _ _ _ _ _ _ _ Hl j Hne) in *. destruct (nb lv_quiet j q Hj Hp Hc) as [Hq1 Hq2]. split.
    + intros [(ws&Ep&Hin)|Hw]%(to_wake_insert ps k p p' j Hk); [|done].
      destruct (lo_list' _ _ _ _ _ _ _ _ _ _ _ _ _ _ _ _ Hl ws j Ep Hin) as [(ws0&->&Hin0)|Hcl]; [apply Hq1; by exists k, ws0|]. by apply Hc, (Hcl q).
    + intros Hor Hts. destruct (lo_ts' _ _ _ _ _ _ _ _ _ _ _ _ _ _ _ _ Hl j Hne Hts); [by apply Hq2|done].
Qed.

Lemma local_inv : live_inv cap a' b' [] (<[k:=p']> ps) c' cells' ts'.
Proof using Hi Hl Hk.
  pose proof (λ w, weigh_self w ps k p p' cells cells' Hk (lo_cells _ _ _ _ _ _ _ _ _ _ _ _ _ _ _ _ Hl)) as Hweigh.
  pose proof (local_waits receivers c c' cells cells' k (lo_cells _ _ _ _ _ _ _ _ _ _ _ _ _ _ _ _ Hl) (lo_recv _ _ _ _ _ _ _ _ _ _ _ _ _ _ _ _ Hl)) as Hwr.
  pose proof (local_waits senders c c' cells cells' k (lo_cells _ _ _ _ _ _ _ _ _ _ _ _ _ _ _ _ Hl) (lo_send _ _ _ _ _ _ _ _ _ _ _ _ _ _ _ _ Hl)) as Hws.
  assert (Hlen : len c' = len c) by apply (lo_buffer _ _ _ _ _ _ _ _ _ _ _ _ _ _ _ _ Hl).
  destruct Hl as [Hb Hcl Hr Hs Hrk Hsk Hnd Ho Hg Hrw Hsw Hrc Hsc _ _ _ Hpe _ _ _ [Hn1 Hn2] [Hm1 Hm2]]. split; rewrite ?Hlen.
  - destruct (nb lv_buffer) as [xs Hx]. exists xs. by apply (same_buffer_ok cap c).
  - intros d j Hj. destruct (decide (j = k)) as [->|Hne].
    + exists p'. rewrite list_lookup_insert_eq by (by eapply lookup_lt_Some). auto.
    + rewrite list_lookup_insert_ne by done. apply (nb lv_recv). by apply Hr.
  - intros d j Hj. destruct (decide (j = k)) as [->|Hne].
    + exists p'. rewrite list_lookup_insert_eq by (by eapply lookup_lt_Some). auto.
    + rewrite list_lookup_insert_ne by done. apply (nb lv_send). by apply Hs.
  - done.
  - intros j q [[-> ->]|[Hne Hj]]%lookup_after; [done|by apply local_own].
  - intros d j Hj Hc. exfalso. destruct (decide (j = k)) as [->|Hne]; [by eapply Hg|]. apply Hr in Hj; [|done]. rewrite Hcl in Hc by done.
    destruct (Hpe j (nb lv_gone d j Hj Hc)) as [_ Hno]. by apply (Hno d).
  - intros Hw%Hwr. pose proof (weigh_nonneg recv_weight (<[k:=p']> ps) cells' recv_weight_nonneg). destruct Hrw as [|[Ha Hkw]]; [lia|].
    assert (waits_in receivers c cells) as Hw0 by (destruct Hw as [|(d&?&?)]; [done|by eapply Hkw]). pose proof (nb lv_rwait Hw0). rewrite Hweigh. lia.
  - intros Hw%Hws. pose proof (weigh_nonneg send_weight (<[k:=p']> ps) cells' send_weight_nonneg). destruct Hsw as [|[Ha Hkw]]; [lia|].
    assert (waits_in senders c cells) as Hw0 by (destruct Hw as [|(d&?&?)]; [done|by eapply Hkw]). pose proof (nb lv_swait Hw0). rewrite Hweigh. lia.
  - intros H0 Hw%Hwr. destruct (Hrc H0) as [Hno Hkno]. destruct Hw as [|(d&?&?)]; [done|by eapply Hkno].
  - intros H0 Hw%Hws. destruct (Hsc H0) as [Hno Hkno]. destruct Hw as [|(d&?&?)]; [done|by eapply Hkno].
  - intros j q Hq Hd Hts Hc. right. by eapply local_wake.
  - apply local_quiet.
  - rewrite !Hweigh. destruct (nb lv_scount). unfold closes_sender, clones_sender, one_if in *. lia.
  - rewrite !Hweigh. destruct (nb lv_rcount). unfold closes_receiver, clones_receiver, one_if in *. lia.
Qed.
End Local.

(** Callers that close nothing, clone nothing and wake nobody. *)
Definition plain p : Prop :=
  match p with K_sender | K_receiver | K_wake _ | K_clone_sender | K_clone_receiver => False | _ => True end.

Lemma plain_counts p : plain p → closes_sender p None = 0 ∧ clones_sender p None = 0 ∧ closes_receiver p None = 0 ∧ clones_receiver p None = 0.
Proof. destruct p; try done; intros _; simpl; tauto. Qed.

Lemma plain_not_wake p ws : plain p → p ≠ K_wake ws.
Proof. by intros Hp ->. Qed.

Section Moves.
Context cap ps k p c cells ts a b.
Context (Hi : live_inv cap a b [] ps c cells ts) (Hk : ps !! k = Some p) (Hp : plain p).

Notation "'nb' x" := (x _ _ _ _ _ _ _ _ Hi) (at level 10, only parsing).

Lemma in_receivers d : k ∈ receivers d c → recv_reg d p.
Proof using Hi Hk. intros H. destruct (nb lv_recv d k H) as (q&Hq&?). congruence. Qed.

Lemma in_senders d : k ∈ senders d c → send_reg d p.
Proof using Hi Hk. intros H. destruct (nb lv_send d k H) as (q&Hq&?). congruence. Qed.

(** The caller looks, takes or gives itself a token; its cell stays. *)
Lemma stay_live p' ts' :
  plain p' → (∀ d, recv_reg d p → recv_reg d p') → (∀ d, send_reg d p → send_reg d p') → own c cells k p' →
  recv_weight p (cells !! k) ≤ recv_weight p' (cells !! k) → send_weight p (cells !! k) ≤ send_weight p' (cells !! k) →
  (drowsy p' → k ∉ ts' → cells !! k ≠ Some STATE_WAITING → drowsy p ∧ k ∉ ts) →
  (tasked p' → cells !! k ≠ Some STATE_CLOSED_BUFFERED → tasked p ∧ (p' ≠ R_park Async ∨ cells !! k = Some STATE_WAITING → k ∉ ts')) →
  (∀ j, j ≠ k → (j ∈ ts' ↔ j ∈ ts)) → live_inv cap a b [] (<[k:=p']> ps) c cells ts'.
Proof using Hi Hk Hp.
  intros Hp' Hr Hs Ho Hrw Hsw Hd Hq Hts. apply (local_inv _ _ _ _ _ _ _ _ _ _ _ _ _ _ _ _ Hi Hk).
  destruct (plain_counts p Hp) as (E1&E2&E3&E4). destruct (plain_counts p' Hp') as (F1&F2&F3&F4).
  split; rewrite ?E1, ?E2, ?E3, ?E4, ?F1, ?F2, ?F3, ?F4; try done; try lia.
  - intros d H. by apply Hr, in_receivers.
  - intros d H. by apply Hs, in_senders.
  - apply (nb lv_nodup).
  - intros d H Hc. by apply (nb lv_gone d k H), elem_of_nil in Hc.
  - right. split; [lia|]. intros d H Hc. by exists d, k.
  - right. split; [lia|]. intros d H Hc. by exists d, k.
  - intros H0. pose proof (nb lv_rclosed H0) as Hno. split; [done|]. intros d H Hc. apply Hno. by exists d, k.
  - intros H0. pose proof (nb lv_sclosed H0) as Hno. split; [done|]. intros d H Hc. apply Hno. by exists d, k.
  - intros j Hj. by rewrite Hts.
  - intros j Hj ?%Hts; [by left|done].
  - intros H1 H2 H3. destruct (Hd H1 H2 H3). done.
  - by intros j ?%elem_of_nil.
  - by intros ws j ->.
  - by intros ws j ->.
  - intros H1 H2. destruct (Hq H1 H2). done.
Qed.

(** The caller leaves the queues, and its cell is gone. *)
Lemma leave_live p' c' a' b' :
  plain p' → same_buffer c c' → same_counts c c' →
  (∀ d v, v ∈ receivers d c' ↔ v ∈ receivers d c ∧ v ≠ k) → (∀ d v, v ∈ senders d c' ↔ v ∈ senders d c ∧ v ≠ k) →
  (∀ d, NoDup (receivers d c') ∧ NoDup (senders d c')) → own c' (delete k cells) k p' →
  a' ≤ a + recv_weight p' None - recv_weight p (cells !! k) → b' ≤ b + send_weight p' None - send_weight p (cells !! k) → ¬ drowsy p' →
  (tasked p' → tasked p ∧ cells !! k ≠ Some STATE_CLOSED_BUFFERED ∧ k ∉ ts) →
  live_inv cap a' b' [] (<[k:=p']> ps) c' (delete k cells) ts.
Proof using Hi Hk Hp.
  intros Hp' Hb [Hc1 Hc2] Hr Hs Hnd Ho Hrw Hsw Hd Hq. apply (local_inv _ _ _ _ _ _ _ _ _ _ _ _ _ _ _ _ Hi Hk).
  destruct (plain_counts p Hp) as (E1&E2&E3&E4). destruct (plain_counts p' Hp') as (F1&F2&F3&F4).
  split; rewrite ?E1, ?E2, ?E3, ?E4, ?F1, ?F2, ?F3, ?F4, ?Hc1, ?Hc2, ?lookup_delete_eq; try done; try lia.
  - intros j Hj. by rewrite lookup_delete_ne.
  - intros d v Hv. rewrite Hr. tauto.
  - intros d v Hv. rewrite Hs. tauto.
  - intros d H%Hr. by destruct H.
  - intros d H%Hs. by destruct H.
  - right. split; [lia|]. done.
  - right. split; [lia|]. done.
  - intros H0. split; [by apply (nb lv_rclosed)|done].
  - intros H0. split; [by apply (nb lv_sclosed)|done].
  - by left.
  - by intros j ?%elem_of_nil.
  - by intros ws j ->.
  - by intros ws j ->.
  - intros H1 _. destruct (Hq H1) as (?&?&?). done.
Qed.

(** A call is over that was in no queue. *)
Lemma finish_live r :
  (∀ d, ¬ recv_reg d p) → (∀ d, ¬ send_reg d p) → recv_weight p (cells !! k) ≤ a → send_weight p (cells !! k) ≤ b →
  live_inv cap 0 0 [] (<[k:=Done r]> ps) c (delete k cells) ts.
Proof using Hi Hk Hp.
  intros Hr Hs Ha Hb. apply leave_live; try done; try (simpl; lia).
  - intros d v. split; [|tauto]. intros H. split; [done|]. intros ->. by apply (Hr d), in_receivers.
  - intros d v. split; [|tauto]. intros H. split; [done|]. intros ->. by apply (Hs d), in_senders.
  - apply (nb lv_nodup).
Qed.
End Moves.

(** ** Joining and leaving the queues *)

Lemma remove_first_spec k ws : NoDup ws → NoDup (remove_first k ws) ∧ ∀ v, v ∈ remove_first k ws ↔ v ∈ ws ∧ v ≠ k.
Proof.
  intros Hnd. unfold remove_first. destruct (list_find (λ w, w = k) ws) as [[pos y]|] eqn:E.
  - apply list_find_Some in E as (Hy&->&_). assert (∃ l1 l2, ws = l1 ++ k :: l2 ∧ delete pos ws = l1 ++ l2) as (l1&l2&Ew&->).
    { exists (take pos ws), (drop (S pos) ws). by rewrite take_drop_middle, delete_take_drop. }
    rewrite Ew in Hnd |- *.
    apply NoDup_app in Hnd as (H1&H2&H3). apply NoDup_cons in H3 as [H3 H4]. split.
    + apply NoDup_app. split; [done|]. split; [|done]. intros x Hx ?. apply (H2 x Hx). by right.
    + intros v. rewrite !elem_of_app, elem_of_cons. split; [|naive_solver]. intros [Hv|Hv]; (split; [auto|]); intros ->; [apply (H2 _ Hv); by left|done].
  - apply list_find_None in E. rewrite Forall_forall in E. split; [done|]. intros v. split; [|tauto]. intros Hv. split; [done|]. by apply E.
Qed.

Lemma retain_others_spec k ws : NoDup ws → NoDup (retain_others k ws) ∧ ∀ v, v ∈ retain_others k ws ↔ v ∈ ws ∧ v ≠ k.
Proof.
  intros Hnd. unfold retain_others. split; [by apply NoDup_filter|]. intros v. rewrite list_elem_of_filter. tauto.
Qed.

Section Queues.
Context cap ps k p c cells ts a b.
Context (Hi : live_inv cap a b [] ps c cells ts) (Hk : ps !! k = Some p).

Notation "'nb' x" := (x _ _ _ _ _ _ _ _ Hi) (at level 10, only parsing).

Lemma unlink_sender_live d p' a' b' :
  plain p → plain p' → send_reg d p → own (unlink_sender d k c) (delete k cells) k p' →
  a' ≤ a + recv_weight p' None - recv_weight p (cells !! k) → b' ≤ b + send_weight p' None - send_weight p (cells !! k) → ¬ drowsy p' → ¬ tasked p' →
  live_inv cap a' b' [] (<[k:=p']> ps) (unlink_sender d k c) (delete k cells) ts.
Proof using Hi Hk.
  intros Hp Hp' Hreg Ho Ha Hb Hd Ht. destruct (remove_first_spec k (senders d c)) as [Hn1 Hn2]; [apply (nb lv_nodup)|].
  assert (Hother : ∀ d', d' ≠ d → senders d' (unlink_sender d k c) = senders d' c) by (by intros [] ?; destruct d).
  assert (Hmine : senders d (unlink_sender d k c) = remove_first k (senders d c)) by (by destruct d).
  assert (Hrecv : ∀ d', receivers d' (unlink_sender d k c) = receivers d' c) by (by intros []; destruct d).
  apply (leave_live _ _ _ _ _ _ _ _ _ Hi Hk Hp); try done.
  - by destruct d.
  - by destruct d.
  - intros d' v. rewrite Hrecv. split; [|tauto]. intros H. split; [done|]. intros ->. eapply reg_sides; [|exact Hreg]. by eapply in_receivers.
  - intros d' v. destruct (decide (d' = d)) as [->|Hne]; [by rewrite Hmine|]. rewrite Hother by done. split; [|tauto]. intros H. split; [done|]. intros ->.
    apply Hne. pose proof (in_senders _ _ _ _ _ _ _ _ _ Hi Hk d' H) as Hr. clear -Hr Hreg. destruct p; simpl in *; congruence || done.
  - intros d'. rewrite Hrecv. split; [apply (nb lv_nodup)|]. destruct (decide (d' = d)) as [->|Hne]; [by rewrite Hmine|]. rewrite Hother by done. apply (nb lv_nodup).
Qed.

Lemma retain_receiver_live d r :
  plain p → recv_reg d p → recv_weight p (cells !! k) ≤ a → send_weight p (cells !! k) ≤ b →
  live_inv cap 0 0 [] (<[k:=Done r]> ps) (retain_receiver d k c) (delete k cells) ts.
Proof using Hi Hk.
  intros Hp Hreg Ha Hb. destruct (retain_others_spec k (receivers d c)) as [Hn1 Hn2]; [apply (nb lv_nodup)|].
  assert (Hother : ∀ d', d' ≠ d → receivers d' (retain_receiver d k c) = receivers d' c) by (by intros [] ?; destruct d).
  assert (Hmine : receivers d (retain_receiver d k c) = retain_others k (receivers d c)) by (by destruct d).
  assert (Hsend : ∀ d', senders d' (retain_receiver d k c) = senders d' c) by (by intros []; destruct d).
  apply (leave_live _ _ _ _ _ _ _ _ _ Hi Hk Hp); try done; try (simpl; lia).
  - by destruct d.
  - by destruct d.
  - intros d' v. destruct (decide (d' = d)) as [->|Hne]; [by rewrite Hmine|]. rewrite Hother by done. split; [|tauto]. intros H. split; [done|]. intros ->.
    apply Hne. eapply recv_reg_kind; [|exact Hreg]. by eapply in_receivers.
  - intros d' v. rewrite Hsend. split; [|tauto]. intros H. split; [done|]. intros ->. eapply reg_sides; [exact Hreg|]. by eapply in_senders.
  - intros d'. rewrite Hsend. split; [|apply (nb lv_nodup)]. destruct (decide (d' = d)) as [->|Hne]; [by rewrite Hmine|]. rewrite Hother by done. apply (nb lv_nodup).
Qed.

(** A full channel takes a sender into a queue, an empty one a receiver. *)
Lemma enqueue_sender_live d item p' c' :
  p = S_reg d item → p' = match d with Sync => S_wait Sync item | Async => S_park Async item end →
  same_buffer c c' → same_counts c c' → (∀ d', receivers d' c' = receivers d' c) → (∀ d', senders d' c' = if decide (d' = d) then senders d' c ++ [k] else senders d' c) →
  cap ≤ len c → receiver_count c ≠ 0 → live_inv cap a 0 [] (<[k:=p']> ps) c' (<[k:=STATE_WAITING]> cells) ts.
Proof using Hi Hk.
  intros Ep Ep' Hb [Hc1 Hc2] Hr Hs Hfull Hcount. assert (Hout : ∀ d', k ∉ senders d' c ∧ k ∉ receivers d' c).
  { intros d'. split; intros H; [apply (in_senders _ _ _ _ _ _ _ _ _ Hi Hk) in H|apply (in_receivers _ _ _ _ _ _ _ _ _ Hi Hk) in H]; by rewrite Ep in H. }
  assert (Hmine : ∀ d' v, v ∈ senders d' c' ↔ v ∈ senders d' c ∨ d' = d ∧ v = k).
  { intros d' v. rewrite Hs. case_decide; [rewrite elem_of_app, list_elem_of_singleton; naive_solver|naive_solver]. }
  apply (local_inv _ _ _ _ _ _ _ _ _ _ _ _ _ _ _ _ Hi Hk). rewrite Ep.
  split; rewrite ?Hc1, ?Hc2, ?lookup_insert_eq; try done; try (by subst p'; destruct d); try lia.
  - intros j Hj. by rewrite lookup_insert_ne.
  - intros d' v Hv. by rewrite Hr.
  - intros d' v Hv. rewrite Hmine. naive_solver.
  - intros d' H. rewrite Hr in H. by destruct (Hout d').
  - intros d' [H|[-> _]]%Hmine; [by destruct (Hout d')|]. by subst p'; destruct d.
  - intros d'. rewrite Hr, Hs. split; [apply (nb lv_nodup)|]. case_decide; [|apply (nb lv_nodup)]. apply NoDup_app. split; [apply (nb lv_nodup)|].
    split; [|apply NoDup_singleton]. intros x Hx ->%list_elem_of_singleton. by destruct (Hout d').
  - assert (k ∈ senders d c') by (apply Hmine; by right). subst p'; destruct d; simpl; rewrite lookup_insert_eq; eexists; (split; [done|by left]).
  - right. split; [subst p'; destruct d; simpl; lia|]. intros d' H. rewrite Hr in H. by destruct (Hout d').
  - intros H0. split; [by apply (nb lv_rclosed)|]. intros d' H. rewrite Hr in H. by destruct (Hout d').
  - by left.
  - by intros j ?%elem_of_nil.
  - subst p'; destruct d; unfold closes_sender, clones_sender, closes_receiver, clones_receiver, one_if; lia.
  - subst p'; destruct d; unfold closes_sender, clones_sender, closes_receiver, clones_receiver, one_if; lia.
Qed.

Lemma enqueue_receiver_live d p' c' :
  p = R_reg d → p' = match d with Sync => R_wait Sync | Async => R_park Async end →
  same_buffer c c' → same_counts c c' → (∀ d', senders d' c' = senders d' c) → (∀ d', receivers d' c' = if decide (d' = d) then receivers d' c ++ [k] else receivers d' c) →
  len c ≤ 0 → sender_count c ≠ 0 → live_inv cap 0 b [] (<[k:=p']> ps) c' (<[k:=STATE_WAITING]> cells) ts.
Proof using Hi Hk.
  intros Ep Ep' Hb [Hc1 Hc2] Hs Hr Hfull Hcount. assert (Hout : ∀ d', k ∉ senders d' c ∧ k ∉ receivers d' c).
  { intros d'. split; intros H; [apply (in_senders _ _ _ _ _ _ _ _ _ Hi Hk) in H|apply (in_receivers _ _ _ _ _ _ _ _ _ Hi Hk) in H]; by rewrite Ep in H. }
  assert (Hmine : ∀ d' v, v ∈ receivers d' c' ↔ v ∈ receivers d' c ∨ d' = d ∧ v = k).
  { intros d' v. rewrite Hr. case_decide; [rewrite elem_of_app, list_elem_of_singleton; naive_solver|naive_solver]. }
  pose proof (nb lv_own k p Hk) as Hown. rewrite Ep in Hown. simpl in Hown.
  apply (local_inv _ _ _ _ _ _ _ _ _ _ _ _ _ _ _ _ Hi Hk).
  split; rewrite ?Hc1, ?Hc2, ?lookup_insert_eq; try done; try (by subst p p'; destruct d); try lia.
  - intros j Hj. by rewrite lookup_insert_ne.
  - intros d' v Hv. rewrite Hmine. naive_solver.
  - intros d' v Hv. by rewrite Hs.
  - intros d' [H|[-> _]]%Hmine; [by destruct (Hout d')|]. by subst p'; destruct d.
  - intros d' H. rewrite Hs in H. by destruct (Hout d').
  - intros d'. rewrite Hr, Hs. split; [|apply (nb lv_nodup)]. case_decide; [|apply (nb lv_nodup)]. apply NoDup_app. split; [apply (nb lv_nodup)|].
    split; [|apply NoDup_singleton]. intros x Hx ->%list_elem_of_singleton. by destruct (Hout d').
  - assert (k ∈ receivers d c') by (apply Hmine; by right). subst p'; destruct d; simpl; rewrite lookup_insert_eq; eexists; (split; [done|by left]).
  - right. split; [subst p p'; destruct d; simpl; lia|]. intros d' H. rewrite Hs in H. by destruct (Hout d').
  - intros H0. split; [by apply (nb lv_sclosed)|]. intros d' H. rewrite Hs in H. by destruct (Hout d').
  - by left.
  - by intros j ?%elem_of_nil.
  - intros Ht _. subst p'. destruct d; [done|]. subst p. split; [done|]. split; [by rewrite Hown|]. intros _.
    apply (nb lv_quiet k _ Hk); [done|by rewrite Hown|by left].
  - subst p p'; destruct d; unfold closes_sender, clones_sender, closes_receiver, clones_receiver, one_if; lia.
  - subst p p'; destruct d; unfold closes_sender, clones_sender, closes_receiver, clones_receiver, one_if; lia.
Qed.
End Queues.

(** ** Every caller that is awake can go on, and keeps the invariant *)

Definition goes cap ps k (r : option (Caller T * channel * cells_map * gset nat)) : Prop :=
  ∃ p' c' cells' ts', r = Some (p', c', cells', ts') ∧ live_inv cap 0 0 [] (<[k:=p']> ps) c' cells' ts'.

Lemma goes_with cap ps k p' c' cells' ts' : live_inv cap 0 0 [] (<[k:=p']> ps) c' cells' ts' → goes cap ps k (Some (p', c', cells', ts')).
Proof. intros H. by exists p', c', cells', ts'. Qed.

(** Nobody waits to send to a closed channel, or to receive from one. *)
Lemma closed_send_slack cap a b b' ps c cells ts : receiver_count c = 0 → live_inv cap a b [] ps c cells ts → live_inv cap a b' [] ps c cells ts.
Proof. intros H Hi. eapply live_slack; [by left|right; by apply (lv_sclosed _ _ _ _ _ _ _ _ Hi)|exact Hi]. Qed.

Lemma closed_recv_slack cap a a' b ps c cells ts : sender_count c = 0 → live_inv cap a b [] ps c cells ts → live_inv cap a' b [] ps c cells ts.
Proof. intros H Hi. eapply live_slack; [right; by apply (lv_rclosed _ _ _ _ _ _ _ _ Hi)|by left|exact Hi]. Qed.

Lemma sender_may_not_go cap b ps c cells ts : 0 < cap → live_inv cap 0 b [] ps c cells ts → sender_may_go cap c = false → cap ≤ len c.
Proof.
  intros Hc Hi. destruct (lv_buffer _ _ _ _ _ _ _ _ Hi) as [xs Hb]. unfold sender_may_go. rewrite (buffer_full _ _ _ Hc Hb). rewrite <- (bo_len _ _ _ Hb).
  unfold len. destruct (Z.eqb_spec (queue_len c) cap), (Z.ltb_spec (queue_len c) cap), (Z.ltb_spec 0 cap); lia.
Qed.

Lemma is_success_vals : is_success (Some 3) = 1 ∧ is_success (Some 1) = 0 ∧ is_success None = 0.
Proof. by vm_compute. Qed.

Section Handlers.
Context cap ps k c cells ts.
Context (Hc : 0 < cap ≤ 2 ^ 63) (Hi : live_inv cap 0 0 [] ps c cells ts).

Notation "'nb' x" := (x _ _ _ _ _ _ _ _ Hi) (at level 10, only parsing).

Lemma S_try_goes d item : ps !! k = Some (S_try d item) → goes cap ps k (send_step cap k (S_try d item) c cells ts).
Proof using Hc Hi.
  intros Hk. cbn [send_step]. destruct (try_send_core_live _ _ _ _ _ _ _ item Hc Hi) as (r&c1&cells1&ts1&->&_&Hi1&Hr). cbn [mbind option_bind].
  destruct r as [|[x|x]]; apply goes_with.
  - apply (finish_live _ _ _ _ _ _ _ _ _ Hi1 Hk); simpl; done || lia.
  - apply (stay_live _ _ _ _ _ _ _ _ _ Hi1 Hk); simpl; try done. apply (lv_own _ _ _ _ _ _ _ _ Hi1 k _ Hk).
  - apply (finish_live _ _ _ _ _ _ _ _ _ (closed_send_slack _ _ _ 1 _ _ _ _ Hr Hi1) Hk); simpl; done || lia.
Qed.

Lemma S_reg_goes d item : ps !! k = Some (S_reg d item) → goes cap ps k (send_step cap k (S_reg d item) c cells ts).
Proof using Hc Hi.
  intros Hk. pose proof (nb lv_own k _ Hk) as Ho. cbn [send_step]. destruct (sender_may_go cap c) eqn:E.
  { apply goes_with, (stay_live _ _ _ _ _ _ _ _ _ Hi Hk); simpl; done. }
  pose proof (sender_may_not_go _ _ _ _ _ _ (proj1 Hc) Hi E) as Hfull. destruct (Z.eqb_spec (receiver_count c) 0) as [H0|H0].
  { apply goes_with, (finish_live _ _ _ _ _ _ _ _ _ (closed_send_slack _ _ _ 1 _ _ _ _ H0 Hi) Hk); simpl; done || lia. }
  destruct d; apply goes_with; eapply (enqueue_sender_live _ _ _ _ _ _ _ _ _ Hi Hk); try done; by intros [].
Qed.

Lemma S_wait_goes d item : ps !! k = Some (S_wait d item) → goes cap ps k (send_step cap k (S_wait d item) c cells ts).
Proof using Hc Hi.
  intros Hk. cbn [send_step]. destruct (nb lv_own k _ Hk) as (s&Hs&Hor). rewrite Hs. cbn [mbind option_bind]. apply goes_with.
  destruct Hor as [[-> Hin]|Hor].
  - cbn [Z.land Z.eqb negb]. destruct d; apply (stay_live _ _ _ _ _ _ _ _ _ Hi Hk); simpl; rewrite ?Hs; try done; try (by intros []); by exists 0; auto.
  - assert (negb (Z.land s 1 =? 0) = true) as -> by (by destruct Hor as [-> | ->]).
    apply (stay_live _ _ _ _ _ _ _ _ _ Hi Hk); simpl; rewrite ?Hs; done.
Qed.

Lemma S_refresh_goes item : ps !! k = Some (S_refresh item) → goes cap ps k (send_step cap k (S_refresh item) c cells ts).
Proof using Hc Hi.
  intros Hk. cbn [send_step]. pose proof (nb lv_own k _ Hk) as Ho. apply goes_with, (stay_live _ _ _ _ _ _ _ _ _ Hi Hk); try done.
  - intros _ Hts _. split; [done|]. case_bool_decide; set_solver.
  - intros j Hj. case_bool_decide; set_solver.
Qed.

Lemma S_park_goes d item ts' : ps !! k = Some (S_park d item) → (∀ j, j ≠ k → (j ∈ ts' ↔ j ∈ ts)) → live_inv cap 0 0 [] (<[k:=S_wait d item]> ps) c cells ts'.
Proof using Hc Hi. intros Hk Hts. pose proof (nb lv_own k _ Hk) as Ho. by apply (stay_live _ _ _ _ _ _ _ _ _ Hi Hk). Qed.

Lemma S_final_goes d item st : ps !! k = Some (S_final d item st) → goes cap ps k (send_step cap k (S_final d item st) c cells ts).
Proof using Hc Hi.
  intros Hk. cbn [send_step]. destruct (nb lv_own k _ Hk) as [Hs Hst].
  assert ((match d with Sync => cells !! k | Async => Some st end) = Some st) as -> by (by destruct d). cbn [mbind option_bind]. destruct Hst as [-> | ->].
  - apply goes_with, (unlink_sender_live _ _ _ _ _ _ _ _ _ Hi Hk); simpl; rewrite ?Hs; try done; by intros [].
  - change (Z.land 3 2 =? 0) with false. replace (match d with Sync => negb (Z.land 3 4 =? 0) | Async => false end) with false by (by destruct d).
    destruct is_success_vals as (E3&_&_).
    apply goes_with, (unlink_sender_live _ _ _ _ _ _ _ _ _ Hi Hk); simpl; rewrite ?Hs, ?E3, ?lookup_delete_eq; try done; by intros [].
Qed.

Lemma receiver_may_not_go : receiver_may_go cap c = false → len c ≤ 0.
Proof using Hc Hi.
  destruct (nb lv_buffer) as [xs Hb]. unfold receiver_may_go. rewrite (Unsync.is_empty_spec _ _ (bo_holds _ _ _ Hb)). intros [E _]%orb_false_elim.
  case_bool_decide as Ex; [|done]. unfold len. rewrite (bo_len _ _ _ Hb), Ex. done.
Qed.

Lemma task_may_not_go : task_may_go cap c = false → len c ≤ 0.
Proof using Hc Hi. unfold task_may_go, is_empty, len. intros [E _]%orb_false_elim. lia. Qed.

Lemma R_try_goes d : ps !! k = Some (R_try d) → goes cap ps k (recv_step cap k (R_try d) c cells ts).
Proof using Hc Hi.
  intros Hk. cbn [recv_step]. destruct (try_recv_core_live _ _ _ _ _ _ _ Hc Hi) as (r&c1&cells1&ts1&->&_&Hi1&Hr). cbn [mbind option_bind].
  destruct r as [x|[|]]; apply goes_with.
  - apply (finish_live _ _ _ _ _ _ _ _ _ Hi1 Hk); simpl; done || lia.
  - pose proof (lv_own _ _ _ _ _ _ _ _ Hi1 k _ Hk) as Ho. apply (stay_live _ _ _ _ _ _ _ _ _ Hi1 Hk); simpl; try done.
    intros Ht Hcl. destruct d; [done|]. split; [done|]. intros _. apply (lv_quiet _ _ _ _ _ _ _ _ Hi1 k _ Hk); [done|done|by left].
  - apply (finish_live _ _ _ _ _ _ _ _ _ (closed_recv_slack _ _ 1 _ _ _ _ _ Hr Hi1) Hk); simpl; done || lia.
Qed.

(** Another try, with the cell as it is. *)
Lemma R_again_live d p : ps !! k = Some p → p = R_reg d → live_inv cap 0 0 [] (<[k:=R_try d]> ps) c cells ts.
Proof using Hc Hi.
  intros Hk ->. pose proof (nb lv_own k _ Hk) as Ho. apply (stay_live _ _ _ _ _ _ _ _ _ Hi Hk); simpl; try done.
  intros Ht Hcl. destruct d; [done|]. split; [done|]. intros _. apply (nb lv_quiet k _ Hk); [done|done|by left].
Qed.

Lemma R_reg_goes d : ps !! k = Some (R_reg d) → goes cap ps k (recv_step cap k (R_reg d) c cells ts).
Proof using Hc Hi.
  intros Hk. pose proof (R_again_live d _ Hk eq_refl) as Hagain.
  assert (Hclosed : sender_count c = 0 → live_inv cap 0 0 [] (<[k:=Done Failed]> ps) c (delete k cells) ts).
  { intros H0. apply (finish_live _ _ _ _ _ _ _ _ _ (closed_recv_slack _ _ 1 _ _ _ _ _ H0 Hi) Hk); simpl; done || lia. }
  destruct d; cbn [recv_step].
  - destruct (receiver_may_go cap c) eqn:E; [by apply goes_with|]. destruct (Z.eqb_spec (sender_count c) 0); [apply goes_with; auto|].
    apply goes_with, (enqueue_receiver_live _ _ _ _ _ _ _ _ _ Hi Hk Sync); try done; [by intros []..|by apply receiver_may_not_go].
  - destruct (task_may_go cap c) eqn:E; [by apply goes_with|]. destruct (Z.eqb_spec (sender_count c) 0); [apply goes_with; auto|].
    rewrite bool_decide_eq_false_2 by (intros H; by apply (in_receivers _ _ _ _ _ _ _ _ _ Hi Hk Async) in H).
    apply goes_with, (enqueue_receiver_live _ _ _ _ _ _ _ _ _ Hi Hk Async); try done; [by intros []..|by apply task_may_not_go].
Qed.

Lemma R_wait_goes d : ps !! k = Some (R_wait d) → goes cap ps k (recv_step cap k (R_wait d) c cells ts).
Proof using Hc Hi.
  intros Hk. cbn [recv_step]. destruct (nb lv_own k _ Hk) as (s&Hs&Hor). rewrite Hs. cbn [mbind option_bind]. apply goes_with.
  destruct Hor as [(->&->&Hin)|Hor].
  - change (negb (Z.land 0 1 =? 0)) with false. apply (stay_live _ _ _ _ _ _ _ _ _ Hi Hk); simpl; rewrite ?Hs; try done. exists 0; auto.
  - assert (negb (Z.land s 1 =? 0) = true) as -> by (by destruct Hor as [-> | ->]).
    apply (stay_live _ _ _ _ _ _ _ _ _ Hi Hk); simpl; rewrite ?Hs; try done.
    intros Ht Hcl. destruct d; [done|]. split; [done|]. intros _. apply (nb lv_quiet k _ Hk); [done|by rewrite Hs|by left].
Qed.

Lemma R_park_goes d ts' : ps !! k = Some (R_park d) → d = Sync ∨ k ∈ ts → (∀ j, j ≠ k → (j ∈ ts' ↔ j ∈ ts)) → (d = Async → k ∉ ts') →
  live_inv cap 0 0 [] (<[k:=R_wait d]> ps) c cells ts'.
Proof using Hc Hi.
  intros Hk Hd Hts Hout. destruct (nb lv_own k _ Hk) as (s&Hs&Hor).
  apply (stay_live _ _ _ _ _ _ _ _ _ Hi Hk); try done.
  - exists s. split; [done|]. destruct Hor as [[-> Hin]|?]; [|by right]. destruct d; [by left|]. destruct Hd as [|Hd]; [done|]. exfalso.
    assert (Hq : k ∉ ts); [|done]. apply (nb lv_quiet k _ Hk); [done|by rewrite Hs|by right].
  - intros Ht Hcl. destruct d; [done|]. split; [done|]. intros _. by apply Hout.
Qed.

Lemma R_final_goes d st : ps !! k = Some (R_final d st) → goes cap ps k (recv_step cap k (R_final d st) c cells ts).
Proof using Hc Hi.
  intros Hk. cbn [recv_step]. destruct (nb lv_own k _ Hk) as [Hs Hst]. destruct is_success_vals as (E3&E1&_).
  assert ((match d with Sync => cells !! k | Async => Some st end) = Some st) as -> by (by destruct d). cbn [mbind option_bind]. destruct Hst as [-> | ->].
  - apply goes_with, (retain_receiver_live _ _ _ _ _ _ _ _ _ Hi Hk); simpl; rewrite ?Hs; done.
  - change (Z.land 3 2 =? 0) with false. cbn iota. assert (Hout : ∀ d', k ∉ receivers d' c).
    { intros d' H. by apply (nb lv_gone d' k H), elem_of_nil in Hs. }
    apply goes_with, (leave_live _ _ _ _ _ _ _ _ _ Hi Hk); simpl; rewrite ?Hs, ?E3, ?lookup_delete_eq; try done.
    + intros d' v. split; [|tauto]. intros H. split; [done|]. intros ->. by apply (Hout d').
    + intros d' v. split; [|tauto]. intros H. split; [done|]. intros ->. by apply (in_senders _ _ _ _ _ _ _ _ _ Hi Hk d') in H.
    + apply (nb lv_nodup).
    + by intros [].
    + intros Ht. destruct d; [done|]. split; [done|]. split; [done|]. apply (nb lv_quiet k _ Hk); [done|by rewrite Hs|by left].
Qed.

Lemma B_send_goes items : ps !! k = Some (B_send items) → goes cap ps k (other_step cap k (B_send items) c cells ts).
Proof using Hc Hi.
  intros Hk. cbn [other_step]. unfold try_send_batch_core. assert (Hfin : ∀ r c1 cells1 ts1, live_inv cap 0 0 [] ps c1 cells1 ts1 → goes cap ps k (finish r k c1 cells1 ts1)).
  { intros r c1 cells1 ts1 Hi1. apply goes_with, (finish_live _ _ _ _ _ _ _ _ _ Hi1 Hk); simpl; done || lia. }
  destruct items as [|item items]; [by apply Hfin|]. destruct (_ =? 0); [by apply Hfin|].
  destruct (send_loop_live _ _ _ _ (item :: items) _ _ _ Hc Hi) as (n&c1&cells1&ts1&->&_&Hi1). by apply Hfin.
Qed.

Lemma B_recv_goes max : ps !! k = Some (B_recv max) → goes cap ps k (other_step cap k (B_recv max) c cells ts).
Proof using Hc Hi.
  intros Hk. pose proof (nb lv_own k _ Hk) as Hm. cbn [other_step].
  destruct (try_recv_batch_core_live _ _ _ _ _ _ max Hc Hm Hi) as (r&c1&cells1&ts1&->&_&Hi1). cbn [mbind option_bind].
  destruct r; apply goes_with, (finish_live _ _ _ _ _ _ _ _ _ Hi1 Hk); simpl; done || lia.
Qed.
End Handlers.

(** ** Closing, cloning, waking *)

Lemma live_pend cap a b pend pend' ps c cells ts : (∀ j, j ∈ pend → j ∈ pend') → live_inv cap a b pend ps c cells ts → live_inv cap a b pend' ps c cells ts.
Proof.
  intros Hp Hi. split; try apply Hi.
  - intros d k Hk Hc. apply Hp. by eapply (lv_gone _ _ _ _ _ _ _ _ Hi).
  - intros k p Hk Hd Hts Hc. destruct (lv_wake _ _ _ _ _ _ _ _ Hi k p Hk Hd Hts Hc); [left; auto|by right].
Qed.

(** What marking the waiters of a queue does. *)
Record marked (s : Z) ws (ms : list nat) cells cells' : Prop := {
  mk_none v : v ∈ ws → cells' !! v ≠ Some STATE_WAITING;
  mk_same v : cells !! v ≠ Some STATE_WAITING → cells' !! v = cells !! v;
  mk_some v : is_Some (cells !! v) → is_Some (cells' !! v);
  mk_who v : v ∈ ms → v ∈ ws ∧ cells' !! v = Some s;
}.

Lemma mark_all_live cap a b ps s ws pend c cells ts :
  s = STATE_CLOSED_BUFFERED ∨ s = STATE_SUCCESS_SPACE → live_inv cap a b pend ps c cells ts → (∀ w, w ∈ ws → is_Some (ps !! w)) → live cells ws →
  ∃ ms cells', mark_all s ws cells = Some (ms, cells') ∧ live_inv cap a b (ms ++ pend) ps c cells' ts ∧ marked s ws ms cells cells'.
Proof.
  intros Hs. revert pend cells. induction ws as [|w ws IH]; intros pend cells Hi Hps Hl; cbn [mark_all].
  - exists [], cells. split; [done|]. split; [done|]. split; [by intros v ?%elem_of_nil|done|done|by intros v ?%elem_of_nil].
  - assert (Hs0 : s ≠ STATE_WAITING) by (by destruct Hs as [-> | ->]).
    destruct (Hl w ltac:(by left)) as [sw Hsw]. destruct (Hps w ltac:(by left)) as [q Hq]. rewrite (cas_cell_spec _ _ _ _ sw Hsw).
    destruct (Z.eqb_spec sw STATE_WAITING) as [->|Hne]; cbn [mbind option_bind].
    + pose proof (mark_inv _ _ _ _ _ _ _ _ _ _ _ Hi Hq Hsw Hs) as Hm.
      assert (Hm' : live_inv cap a b (w :: pend) ps c (<[w:=s]> cells) ts).
      { eapply live_slack; [left|left|exact Hm]; [pose proof (recv_weight_nonneg q (Some s))|pose proof (send_weight_nonneg q (Some s))]; lia. }
      destruct (IH (w :: pend) (<[w:=s]> cells) Hm') as (ms&cells'&->&Hi'&[H1 H2 H3 H4]).
      * intros v Hv. apply Hps. by right.
      * intros v Hv. destruct (decide (v = w)) as [->|]; [by rewrite lookup_insert_eq|rewrite lookup_insert_ne by done; apply Hl; by right].
      * assert (Hw : cells' !! w = Some s) by (rewrite H2, lookup_insert_eq; [done|rewrite lookup_insert_eq; congruence]).
        exists (w :: ms), cells'. split; [done|]. split; [eapply live_pend; [|exact Hi']; set_solver|]. split.
        -- intros v [->|Hv]%elem_of_cons; [congruence|by apply H1].
        -- intros v Hv. assert (v ≠ w) by congruence. rewrite H2; rewrite lookup_insert_ne by done; done.
        -- intros v Hv. apply H3. destruct (decide (v = w)) as [->|]; [by rewrite lookup_insert_eq|by rewrite lookup_insert_ne].
        -- intros v [->|Hv]%elem_of_cons; [split; [by left|done]|]. destruct (H4 v Hv). split; [by right|done].
    + destruct (IH pend cells Hi) as (ms&cells'&->&Hi'&[H1 H2 H3 H4]); [intros v Hv; apply Hps; by right|intros v Hv; apply Hl; by right|].
      exists ms, cells'. split; [done|]. split; [done|]. split; [|done..|].
      * intros v [->|Hv]%elem_of_cons; [|by apply H1]. rewrite H2; congruence.
      * intros v Hv. destruct (H4 v Hv). split; [by right|done].
Qed.

(** Two queues marked one after the other. *)
Lemma mark_both_live cap a b ps s ws1 ws2 c cells ts :
  s = STATE_CLOSED_BUFFERED ∨ s = STATE_SUCCESS_SPACE → live_inv cap a b [] ps c cells ts → (∀ w, w ∈ ws1 ++ ws2 → is_Some (ps !! w) ∧ is_Some (cells !! w)) →
  ∃ w1 w2 cells1 cells', mark_all s ws1 cells = Some (w1, cells1) ∧ mark_all s ws2 cells1 = Some (w2, cells') ∧
    live_inv cap a b (w1 ++ w2) ps c cells' ts ∧ marked s (ws1 ++ ws2) (w1 ++ w2) cells cells'.
Proof.
  intros Hs Hi Hws. assert (Hs0 : s ≠ STATE_WAITING) by (by destruct Hs as [-> | ->]).
  destruct (mark_all_live _ _ _ _ s ws1 _ _ _ _ Hs Hi) as (w1&cells1&E1&Hi1&[A1 A2 A3 A4]); [intros w Hw; apply Hws; set_solver|intros w Hw; apply Hws; set_solver|].
  destruct (mark_all_live _ _ _ _ s ws2 _ _ _ _ Hs Hi1) as (w2&cells2&E2&Hi2&[B1 B2 B3 B4]); [intros w Hw; apply Hws; set_solver|intros w Hw; apply A3, Hws; set_solver|].
  exists w1, w2, cells1, cells2. split; [done|]. split; [done|]. split; [eapply live_pend; [|exact Hi2]; set_solver|]. split.
  - intros v [Hv|Hv]%elem_of_app; [rewrite B2 by (by apply A1); by apply A1|by apply B1].
  - intros v Hv. rewrite B2, A2; [done|done|]. by rewrite A2.
  - intros v Hv. by apply B3, A3.
  - intros v [Hv|Hv]%elem_of_app; [destruct (A4 v Hv) as [? Hc]|destruct (B4 v Hv)]; (split; [set_solver|]); [|done]. rewrite B2; congruence.
Qed.

(** Callers that are in no queue and carry no item. *)
Definition aside p : Prop :=
  match p with K_sender | K_receiver | K_wake _ | K_clone_sender | K_clone_receiver | Done _ => True | _ => False end.

Lemma aside_light p s d : aside p → recv_weight p s = 0 ∧ send_weight p s = 0 ∧ ¬ recv_reg d p ∧ ¬ send_reg d p ∧ ¬ drowsy p ∧ ¬ tasked p.
Proof. destruct p; try done; intros _; simpl; tauto. Qed.

Lemma aside_live cap ps k p c cells ts pend p' c' cells' ts' :
  live_inv cap 0 0 pend ps c cells ts → ps !! k = Some p → aside p → aside p' → same_buffer c c' → same_receivers c c' → same_senders c c' →
  (∀ j, j ≠ k → cells' !! j = cells !! j) → (sender_count c' = 0 → ¬ waits_in receivers c cells) → (receiver_count c' = 0 → ¬ waits_in senders c cells) →
  (∀ j, j ∈ ts → j ∈ ts') → (∀ j, j ∈ ts' → j ∈ ts ∨ to_wake ps j) →
  (∀ j, j ∈ pend → (∃ ws, p' = K_wake ws ∧ j ∈ ws) ∧ ∀ d, j ∈ receivers d c → cells !! j ≠ Some STATE_SUCCESS_SPACE) →
  (∀ ws j, p = K_wake ws → j ∈ ws → j ∈ ts' ∨ ∃ ws', p' = K_wake ws' ∧ j ∈ ws') →
  (∀ ws' j, p' = K_wake ws' → j ∈ ws' → (∃ ws, p = K_wake ws ∧ j ∈ ws) ∨ (∀ q, ps !! j = Some q → tasked q → cells !! j = Some STATE_CLOSED_BUFFERED)) →
  closes_sender p' None - closes_sender p None ≤ sender_count c' - sender_count c ∧ sender_count c' + clones_sender p' None ≤ sender_count c + clones_sender p None →
  closes_receiver p' None - closes_receiver p None ≤ receiver_count c' - receiver_count c ∧ receiver_count c' + clones_receiver p' None ≤ receiver_count c + clones_receiver p None →
  live_inv cap 0 0 [] (<[k:=p']> ps) c' cells' ts'.
Proof.
  intros Hi Hk Hp Hp' Hb Hr Hs Hcl Hrc Hsc Hts Hts' Hpe Hl Hl' Hn Hm.
  assert (Hkr : ∀ d, k ∉ receivers d c').
  { intros d H. rewrite Hr in H. destruct (lv_recv _ _ _ _ _ _ _ _ Hi d k H) as (q&Hq&Hreg). assert (q = p) as -> by congruence. by destruct (aside_light p None d Hp) as (_&_&?&_). }
  assert (Hks : ∀ d, k ∉ senders d c').
  { intros d H. rewrite Hs in H. destruct (lv_send _ _ _ _ _ _ _ _ Hi d k H) as (q&Hq&Hreg). assert (q = p) as -> by congruence. by destruct (aside_light p None d Hp) as (_&_&_&?&_). }
  destruct (aside_light p (cells !! k) Sync Hp) as (E1&E2&_). destruct (aside_light p' (cells' !! k) Sync Hp') as (F1&F2&_&_&F3&F4).
  apply (local_inv _ _ _ _ _ _ _ _ _ _ _ _ _ _ _ _ Hi Hk). split; rewrite ?E1, ?E2, ?F1, ?F2; try done; try (by intros d ?%Hkr); try (by intros d ?%Hks).
  - intros d v _. by rewrite Hr.
  - intros d v _. by rewrite Hs.
  - intros d. rewrite Hr, Hs. apply (lv_nodup _ _ _ _ _ _ _ _ Hi).
  - by destruct p'.
  - right. split; [lia|]. by intros d ?%Hkr.
  - right. split; [lia|]. by intros d ?%Hks.
  - intros H0. split; [auto|]. by intros d ?%Hkr.
  - intros H0. split; [auto|]. by intros d ?%Hks.
  - auto.
  - auto.
Qed.

Lemma weigh_member (w : Caller T → option Z → Z) ps cells k p :
  (∀ q s, 0 ≤ w q s) → ps !! k = Some p → w p (cells !! k) ≤ weigh w ps cells.
Proof.
  intros Hw Hk. pose proof (weigh_self w ps k p p cells cells Hk ltac:(done)) as E.
  unfold weigh. pose proof (lookup_lt_Some _ _ _ Hk) as Hlt.
  rewrite (isum_change _ (λ i, if decide (i = k) then 0 else match ps !! i with Some q => w q (cells !! i) | None => 0 end) _ k Hlt).
  - rewrite Hk, decide_True by done. pose proof (isum_nonneg (length ps) (λ i, if decide (i = k) then 0 else match ps !! i with Some q => w q (cells !! i) | None => 0 end)) as Hn.
    assert (0 ≤ isum (length ps) (λ i, if decide (i = k) then 0 else match ps !! i with Some q => w q (cells !! i) | None => 0 end)); [|lia].
    apply Hn. intros i _. case_decide; [done|]. by destruct (ps !! i).
  - intros i _ Hi. by rewrite decide_False.
Qed.

Lemma one_if_nonneg (x : bool) (s : option Z) : 0 ≤ one_if x s.
Proof. by destruct x. Qed.

Section Closing.
Context cap ps k c cells ts.
Context (Hc : 0 < cap ≤ 2 ^ 63) (Hi : live_inv cap 0 0 [] ps c cells ts).

Notation "'nb' x" := (x _ _ _ _ _ _ _ _ Hi) (at level 10, only parsing).

(** The marked waiters of a side are callers with cells. *)
Lemma side_callers (ws : list nat) : (∀ w, w ∈ ws → ∃ d, w ∈ receivers d c ∨ w ∈ senders d c) → ∀ w, w ∈ ws → is_Some (ps !! w) ∧ is_Some (cells !! w).
Proof using Hi.
  intros H w Hw. destruct (H w Hw) as (d&[Hr|Hs]).
  - split; [|by apply (live_receivers _ _ _ _ _ _ _ _ d Hi)]. destruct (nb lv_recv d w Hr) as (q&->&_). by eexists.
  - split; [|by apply (live_senders _ _ _ _ _ _ _ _ d Hi)]. destruct (nb lv_send d w Hs) as (q&->&_). by eexists.
Qed.

Lemma K_sender_goes : ps !! k = Some K_sender → goes cap ps k (other_step cap k K_sender c cells ts).
Proof using Hc Hi.
  intros Hk. cbn [other_step]. destruct (nb lv_scount) as [Hn1 Hn2].
  pose proof (weigh_member closes_sender ps cells k _ (λ q s, one_if_nonneg _ s) Hk) as Hge. change (closes_sender K_sender (cells !! k)) with 1 in Hge.
  pose proof (weigh_nonneg clones_sender ps cells (λ q s, one_if_nonneg _ s)) as Hcl0.
  assert (Esc : sender_count c -w 1 = sender_count c - 1) by (apply u64_sub_small; lia).
  unfold close_sender. cbn [sender_count with_counts]. rewrite Esc. destruct (Z.eqb_spec (sender_count c - 1) 0) as [H0|H0].
  - destruct (mark_both_live _ _ _ _ STATE_CLOSED_BUFFERED (waiting_sync_receivers c) (waiting_async_receivers c) _ _ _ ltac:(by left) Hi) as (w1&w2&cells1&cells'&E1&E2&Hi2&[M1 M2 M3 M4]).
    { apply side_callers. intros w [Hw|Hw]%elem_of_app; [exists Sync|exists Async]; by left. }
    cbn [waiting_sync_receivers waiting_async_receivers with_counts]. rewrite E1. cbn [mbind option_bind]. rewrite E2. cbn [mbind option_bind].
    assert (Hno : ¬ waits_in receivers c cells').
    { intros ([]&v&Hv&Hvc); simpl in Hv; by apply (M1 v); [apply elem_of_app; auto|]. }
    assert (Hsc : receiver_count c = 0 → ¬ waits_in senders c cells') by (intros Hr0; by apply (lv_sclosed _ _ _ _ _ _ _ _ Hi2)).
    apply goes_with, (aside_live _ _ _ _ _ _ _ _ _ _ _ _ Hi2 Hk); cbn [sender_count receiver_count with_counts closes_sender clones_sender closes_receiver clones_receiver one_if]; try done; try lia.
    + by left.
    + intros j Hj. split; [by eexists|]. intros d _. destruct (M4 j Hj) as [_ ->]. done.
    + intros ws' j [= <-] Hj. right. intros q _ _. by apply M4.
  - assert (Hrc : sender_count c - 1 = 0 → ¬ waits_in receivers c cells) by done.
    assert (Hsc : receiver_count c = 0 → ¬ waits_in senders c cells) by apply (nb lv_sclosed).
    apply goes_with, (aside_live _ _ _ _ _ _ _ _ _ _ _ _ Hi Hk); cbn [sender_count receiver_count with_counts closes_sender clones_sender closes_receiver clones_receiver one_if]; try done; try lia.
    + by left.
    + by intros j ?%elem_of_nil.
    + by intros ws' j [= <-] ?%elem_of_nil.
Qed.

Lemma elem_of_take_1 (ws : list nat) w : w ∈ take 1 ws → w ∈ ws.
Proof. intros H. eapply elem_of_sublist; [exact H|apply sublist_take]. Qed.

Lemma K_receiver_goes : ps !! k = Some K_receiver → goes cap ps k (other_step cap k K_receiver c cells ts).
Proof using Hc Hi.
  intros Hk. cbn [other_step]. destruct (nb lv_rcount) as [Hn1 Hn2].
  pose proof (weigh_member closes_receiver ps cells k _ (λ q s, one_if_nonneg _ s) Hk) as Hge. change (closes_receiver K_receiver (cells !! k)) with 1 in Hge.
  pose proof (weigh_nonneg clones_receiver ps cells (λ q s, one_if_nonneg _ s)) as Hcl0.
  assert (Esc : receiver_count c -w 1 = receiver_count c - 1) by (apply u64_sub_small; lia).
  unfold close_receiver. cbn [receiver_count with_counts]. rewrite Esc. destruct (Z.eqb_spec cap 0); [lia|].
  set (st := if receiver_count c - 1 =? 0 then STATE_CLOSED_BUFFERED else STATE_SUCCESS_SPACE).
  set (some_of := λ ws : list nat, if receiver_count c - 1 =? 0 then ws else take 1 ws).
  assert (Hsub : ∀ ws v, v ∈ some_of ws → v ∈ ws) by (intros ws v; unfold some_of; destruct (_ =? 0); [done|apply elem_of_take_1]).
  destruct (mark_both_live _ _ _ _ st (some_of (waiting_sync_senders c)) (some_of (waiting_async_senders c)) _ _ _ ltac:(unfold st; destruct (_ =? 0); auto) Hi) as (w1&w2&cells1&cells'&E1&E2&Hi2&[M1 M2 M3 M4]).
  { apply side_callers. intros w [Hw%Hsub|Hw%Hsub]%elem_of_app; [exists Sync|exists Async]; by right. }
  cbv beta zeta. cbn [waiting_sync_senders waiting_async_senders with_counts]. unfold some_of in E1, E2. rewrite E1. cbn [mbind option_bind]. rewrite E2. cbn [mbind option_bind].
  assert (Hsend : ∀ j, j ∈ w1 ++ w2 → ∃ d, j ∈ senders d c).
  { intros j Hj. destruct (M4 j Hj) as [[Hw%Hsub|Hw%Hsub]%elem_of_app _]; [by exists Sync|by exists Async]. }
  assert (Hno : receiver_count c - 1 = 0 → ¬ waits_in senders c cells').
  { intros H0 ([]&v&Hv&Hvc); simpl in Hv; apply (M1 v); try done; apply elem_of_app; unfold some_of; rewrite (proj2 (Z.eqb_eq _ _) H0); auto. }
  assert (Hrc : sender_count c = 0 → ¬ waits_in receivers c cells') by (intros Hr0; by apply (lv_rclosed _ _ _ _ _ _ _ _ Hi2)).
  apply goes_with, (aside_live _ _ _ _ _ _ _ _ _ _ _ _ Hi2 Hk); cbn [sender_count receiver_count with_counts closes_sender clones_sender closes_receiver clones_receiver one_if]; try done; try lia.
  - by left.
  - intros j Hj. split; [by eexists|]. intros d Hd _. destruct (Hsend j Hj) as [d' Hd']. destruct (nb lv_recv d j Hd) as (q&Hq&Hr).
    destruct (nb lv_send d' j Hd') as (q'&Hq'&Hs). assert (q' = q) as -> by congruence. by eapply reg_sides.
  - intros ws' j [= <-] Hj. right. intros q Hq Ht. exfalso. destruct (Hsend j Hj) as [d' Hd']. destruct (nb lv_send d' j Hd') as (q'&Hq'&Hs).
    assert (q' = q) as -> by congruence. by destruct q.
Qed.

Lemma K_wake_goes ws : ps !! k = Some (K_wake ws) → goes cap ps k (other_step cap k (K_wake ws) c cells ts).
Proof using Hc Hi.
  intros Hk. assert (Hrc : sender_count c = 0 → ¬ waits_in receivers c cells) by apply (nb lv_rclosed).
  assert (Hsc : receiver_count c = 0 → ¬ waits_in senders c cells) by apply (nb lv_sclosed).
  destruct ws as [|w ws]; apply goes_with, (aside_live _ _ _ _ _ _ _ _ _ _ _ _ Hi Hk); cbn [closes_sender clones_sender closes_receiver clones_receiver one_if]; try done; try lia.
  - intros j Hj. by rewrite lookup_delete_ne.
  - by left.
  - by intros j ?%elem_of_nil.
  - by intros ws' j [= <-] ?%elem_of_nil.
  - set_solver.
  - intros j [->%elem_of_singleton|]%elem_of_union; [right; exists k, (w :: ws); split; [done|by left]|by left].
  - by intros j ?%elem_of_nil.
  - intros ws' j [= <-] [->|]%elem_of_cons; [left; set_solver|right; by eexists].
  - intros ws' j [= <-] Hj. left. eexists. split; [done|by right].
Qed.

Lemma K_clone_goes p : p = K_clone_sender ∨ p = K_clone_receiver → ps !! k = Some p → goes cap ps k (other_step cap k p c cells ts).
Proof using Hc Hi.
  intros Hp Hk. assert (Hrc : sender_count c = 0 → ¬ waits_in receivers c cells) by apply (nb lv_rclosed).
  assert (Hsc : receiver_count c = 0 → ¬ waits_in senders c cells) by apply (nb lv_sclosed).
  destruct (nb lv_scount) as [Hn1 Hn2]. destruct (nb lv_rcount) as [Hm1 Hm2].
  pose proof (weigh_nonneg closes_sender ps cells (λ q s, one_if_nonneg _ s)). pose proof (weigh_nonneg closes_receiver ps cells (λ q s, one_if_nonneg _ s)).
  destruct Hp as [-> | ->].
  - pose proof (weigh_member clones_sender ps cells k _ (λ q s, one_if_nonneg _ s) Hk) as Hge. change (clones_sender K_clone_sender (cells !! k)) with 1 in Hge.
    assert (E : sender_count c +w 1 = sender_count c + 1) by (apply u64_add_small; lia).
    apply goes_with, (aside_live _ _ _ _ _ _ _ _ _ _ _ _ Hi Hk); cbn [sender_count receiver_count with_counts closes_sender clones_sender closes_receiver clones_receiver one_if]; rewrite ?E; try done; try lia.
    + intros j Hj. by rewrite lookup_delete_ne.
    + by left.
    + by intros j ?%elem_of_nil.
  - pose proof (weigh_member clones_receiver ps cells k _ (λ q s, one_if_nonneg _ s) Hk) as Hge. change (clones_receiver K_clone_receiver (cells !! k)) with 1 in Hge.
    assert (E : receiver_count c +w 1 = receiver_count c + 1) by (apply u64_add_small; lia).
    apply goes_with, (aside_live _ _ _ _ _ _ _ _ _ _ _ _ Hi Hk); cbn [sender_count receiver_count with_counts closes_sender clones_sender closes_receiver clones_receiver one_if]; rewrite ?E; try done; try lia.
    + intros j Hj. by rewrite lookup_delete_ne.
    + by left.
    + by intros j ?%elem_of_nil.
Qed.
End Closing.

(** ** Runs without [recv_timeout] and dropped futures *)

Definition asleep ts k p : Prop := match p with S_park _ _ | R_park _ => k ∉ ts | _ => False end.
Definition finished p : Prop := match p with Done _ => True | _ => False end.
Definition tame p : Prop := match p with T_first => False | B_recv max => 0 ≤ max < U64 | _ => starts p end.

Lemma caller_goes cap ps k p c cells ts :
  0 < cap ≤ 2 ^ 63 → live_inv cap 0 0 [] ps c cells ts → ps !! k = Some p → ¬ finished p → ¬ asleep ts k p → goes cap ps k (caller_step cap k p c cells ts).
Proof.
  intros Hc Hi Hk Hf Ha. pose proof (lv_own _ _ _ _ _ _ _ _ Hi k p Hk) as Ho. destruct p; try done; cbn [caller_step].
  - by apply S_try_goes.
  - by apply S_reg_goes.
  - by apply S_wait_goes.
  - by apply S_refresh_goes.
  - cbn [send_step]. simpl in Ha. destruct (decide (k ∈ ts)); [|done]. apply goes_with, (S_park_goes _ _ _ _ _ _ Hc Hi); try done. set_solver.
  - by apply S_final_goes.
  - by apply R_try_goes.
  - by apply R_reg_goes.
  - by apply R_wait_goes.
  - cbn [recv_step]. simpl in Ha. destruct (decide (k ∈ ts)); [|done]. apply goes_with, (R_park_goes _ _ _ _ _ _ Hc Hi); try done; [by right|set_solver|set_solver].
  - by apply R_final_goes.
  - by apply B_send_goes.
  - by apply B_recv_goes.
  - by apply K_sender_goes.
  - by apply K_receiver_goes.
  - by apply K_wake_goes.
  - apply K_clone_goes; auto.
  - apply K_clone_goes; auto.
Qed.

Lemma step_live cap (s s' : system) :
  0 < cap ≤ 2 ^ 63 → mpmc_step false cap s s' →
  live_inv cap 0 0 [] s.1.1.1.1.1 s.1.1.1.1.2 s.1.1.1.2 s.1.1.2 → live_inv cap 0 0 [] s'.1.1.1.1.1 s'.1.1.1.1.2 s'.1.1.1.2 s'.1.1.2.
Proof.
  intros Hc [ps c cells ts put out k p p' c' cells' ts' Hk H|ps c cells ts put out k p p' Hk H] Hi; simpl in *.
  - destruct (caller_goes cap ps k p c cells ts Hc Hi Hk) as (q&c1&cells1&ts1&E&Hi1); [by intros Hf; destruct p; cbn in H|..|congruence].
    intros Ha. destruct p; try done; cbn in H; simpl in Ha; by rewrite decide_False in H.
  - pose proof (lv_own _ _ _ _ _ _ _ _ Hi k p Hk) as Ho. destruct p as [| | | |d item|? ? ?| | | |d|? ?| | | | | | | | | | | | | | | | | | | |]; try done.
    + destruct d, p'; cbn in H; try done; repeat case_match; try done; destruct H as [<- <-]; by apply (S_park_goes _ _ _ _ _ _ Hc Hi).
    + destruct d, p'; cbn in H; try done; repeat case_match; try done. apply (R_park_goes _ _ _ _ _ _ Hc Hi); try done. by left.
Qed.

Lemma live_start cap n m ps0 c0 :
  0 < cap ≤ 2 ^ 63 → shared_new cap = Some c0 → Forall tame ps0 →
  weigh closes_sender ps0 ∅ ≤ n ∧ n + weigh clones_sender ps0 ∅ < U64 → weigh closes_receiver ps0 ∅ ≤ m ∧ m + weigh clones_receiver ps0 ∅ < U64 →
  live_inv cap 0 0 [] ps0 (with_counts n m c0) ∅ ∅.
Proof.
  intros Hc E0 Hs Hn Hm. rewrite Forall_lookup in Hs. destruct (shared_new_spec (T:=T) cap Hc) as (c1&E1&Hb&E2&E3&E4&E5&_). rewrite E1 in E0. injection E0 as ->.
  assert (Hr : ∀ d, receivers d (with_counts n m c0) = []) by (by intros []).
  assert (Hsd : ∀ d, senders d (with_counts n m c0) = []) by (by intros []).
  split; try done.
  - exists []. by apply (same_buffer_ok cap c0).
  - intros d k. by rewrite Hr, elem_of_nil.
  - intros d k. by rewrite Hsd, elem_of_nil.
  - intros d. rewrite Hr, Hsd. split; apply NoDup_nil_2.
  - intros k p Hk. specialize (Hs k p Hk). destruct p; try done; apply lookup_empty.
  - intros (d&k&Hk&_). rewrite Hr in Hk. by apply elem_of_nil in Hk.
  - intros (d&k&Hk&_). rewrite Hsd in Hk. by apply elem_of_nil in Hk.
  - intros _ (d&k&Hk&_). rewrite Hr in Hk. by apply elem_of_nil in Hk.
  - intros _ (d&k&Hk&_). rewrite Hsd in Hk. by apply elem_of_nil in Hk.
  - intros k p Hk Hd. specialize (Hs k p Hk). by destruct p.
  - intros k p Hk _ _. split; [|by intros _ ?%elem_of_empty]. intros (j&ws&Hj&_). by specialize (Hs j _ Hj).
Qed.

Lemma live_reached cap (s s' : system) :
  0 < cap ≤ 2 ^ 63 → rtc (mpmc_step false cap) s s' →
  live_inv cap 0 0 [] s.1.1.1.1.1 s.1.1.1.1.2 s.1.1.1.2 s.1.1.2 → live_inv cap 0 0 [] s'.1.1.1.1.1 s'.1.1.1.1.2 s'.1.1.1.2 s'.1.1.2.
Proof. intros Hc. induction 1 as [|x y z Hs _ IH]; [done|]. intros Hi. by apply IH, (step_live cap x). Qed.

(** ** Everybody sleeps or is done *)

Section Rest.
Context cap ps c cells ts.
Context (Hi : live_inv cap 0 0 [] ps c cells ts) (Hall : ∀ k p, ps !! k = Some p → finished p ∨ asleep ts k p).

Notation "'nb' x" := (x _ _ _ _ _ _ _ _ Hi) (at level 10, only parsing).

Lemma asleep_waits k p : ps !! k = Some p → asleep ts k p → cells !! k = Some STATE_WAITING ∧ ∃ d, (recv_reg d p ∧ k ∈ receivers d c) ∨ (send_reg d p ∧ k ∈ senders d c).
Proof using Hi Hall.
  intros Hk Ha. pose proof (nb lv_own k p Hk) as Ho.
  assert (Hw : cells !! k = Some STATE_WAITING).
  { destruct (decide (cells !! k = Some STATE_WAITING)) as [|Hne]; [done|]. exfalso.
    destruct (nb lv_wake k p Hk) as [H|(j&ws&Hj&_)]; [by destruct p|by destruct p|done|by apply elem_of_nil in H|]. by destruct (Hall j _ Hj). }
  split; [done|]. destruct p as [| | | |d item|? ? ?| | | |d|? ?| | | | | | | | | | | | | | | | | | | |]; try done; simpl in Ho; rewrite Hw in Ho; exists d; [right|left]; naive_solver.
Qed.

Lemma rest_weights : weigh recv_weight ps cells = 0 ∧ weigh send_weight ps cells = 0.
Proof using Hi Hall.
  split; apply weigh_zero; intros k p Hk; (destruct (Hall k p Hk) as [Hf|Ha]; [by destruct p|]); destruct (asleep_waits k p Hk Ha) as [-> _]; by destruct p.
Qed.
End Rest.

(** C2: no wake-up is lost while no [recv_timeout] runs and no future is dropped or polled for no
    reason (a blocked thread may wake, and a send be polled, for none).  Any number of blocking
    and asynchronous sends and receives, batches, closes and clones, interleaved in any way: a caller that is neither finished nor
    asleep can always step, so none panics, blocks, or follows a dangling pointer; and when
    all callers are finished or asleep, a sleeping receiver faces an empty buffer
    and a sender that still lives, a sleeping sender a full buffer and a receiver that still lives. *)
Theorem mpmc_no_lost_wakeup cap n m ps0 (c0 : channel) ps c cells ts put out :
  0 < cap ≤ 2 ^ 63 → shared_new cap = Some c0 → Forall tame ps0 →
  weigh closes_sender ps0 ∅ ≤ n ∧ n + weigh clones_sender ps0 ∅ < U64 → weigh closes_receiver ps0 ∅ ≤ m ∧ m + weigh clones_receiver ps0 ∅ < U64 →
  rtc (mpmc_step false cap) (ps0, with_counts n m c0, ∅, ∅, [], []) (ps, c, cells, ts, put, out) →
  (∀ k p, ps !! k = Some p → ¬ finished p → ¬ asleep ts k p → is_Some (caller_step cap k p c cells ts)) ∧
  ((∀ k p, ps !! k = Some p → finished p ∨ asleep ts k p) → ∀ k p, ps !! k = Some p → asleep ts k p →
     match p with S_park _ _ => len c = cap ∧ receiver_count c ≠ 0 | _ => len c = 0 ∧ sender_count c ≠ 0 end).
Proof.
  intros Hc E0 Hs Hn Hm Hr. pose proof (live_reached _ _ _ Hc Hr (live_start cap n m ps0 c0 Hc E0 Hs Hn Hm)) as Hi. simpl in Hi. split.
  - intros k p Hk Hf Ha. destruct (caller_goes cap ps k p c cells ts Hc Hi Hk Hf Ha) as (p'&c'&cells'&ts'&->&_). by eexists.
  - intros Hall k p Hk Ha. destruct (asleep_waits _ _ _ _ _ Hi Hall k p Hk Ha) as (Hw&d&Hreg). destruct (rest_weights _ _ _ _ _ Hi Hall) as [W1 W2].
    destruct (lv_buffer _ _ _ _ _ _ _ _ Hi) as [xs Hb]. assert (Hlx : len c = Z.of_nat (length xs)) by apply Hb. pose proof (bo_cap _ _ _ Hb) as Hle.
    destruct p; try done; destruct Hreg as [[Hreg Hin]|[Hreg Hin]]; try done.
    + assert (Hws : waits_in senders c cells) by (by exists d, k). pose proof (lv_swait _ _ _ _ _ _ _ _ Hi Hws) as Hge. split; [lia|].
      intros Hz. by apply (lv_sclosed _ _ _ _ _ _ _ _ Hi).
    + assert (Hws : waits_in receivers c cells) by (by exists d, k). pose proof (lv_rwait _ _ _ _ _ _ _ _ Hi Hws) as Hge. split; [lia|].
      intros Hz. by apply (lv_rclosed _ _ _ _ _ _ _ _ Hi).
Qed.
End Live.

(** ** Runs of the bounded MPMC channel

    A run is a list of turns; [mpmc_run] executes it.  The runs below show the FIFO
    theorem at work, and what the channel does not promise: a [recv_timeout] whose item
    another receiver took, futures that are dropped or polled for no reason. *)

(** Caller [k] steps, or makes a choice. *)
Inductive turn := Turn (k : nat) | Choose (k : nat) (p : Caller Z).

#[global] Instance caller_may_dec wild (p q : Caller Z) : Decision (caller_may wild p q).
Proof. destruct p; cbn [caller_may]; try (right; exact id); repeat case_match; apply _. Defined.

Definition mpmc_turn wild cap (s : system (T:=Z)) (t : turn) : option (system (T:=Z)) :=
  let '(ps, c, cells, ts, put, out) := s in
  match t with
  | Turn k => p ← ps !! k; '(p', c', cells', ts') ← caller_step cap k p c cells ts; Some (<[k:=p']> ps, c', cells', ts', put ++ sent p', out ++ got p')
  | Choose k p' => p ← ps !! k; if decide (caller_may wild p p') then Some (<[k:=p']> ps, c, cells, ts, put, out) else None
  end.

Fixpoint mpmc_run wild cap (s : system (T:=Z)) (turns : list turn) : option system :=
  match turns with [] => Some s | t :: turns => s ← mpmc_turn wild cap s t; mpmc_run wild cap s turns end.

Lemma mpmc_run_steps wild cap s turns s' : mpmc_run wild cap s turns = Some s' → rtc (mpmc_step wild cap) s s'.
Proof.
  revert s. induction turns as [|t turns IH]; intros s; cbn [mpmc_run]; [by intros [= ->]|].
  intros (s1&H1&H2)%bind_Some. apply (rtc_l _ _ s1); [|by apply IH]. destruct s as [[[[[ps c] cells] ts] put] out]. destruct t as [k|k p']; cbn [mpmc_turn] in H1.
  - apply bind_Some in H1 as (p&Hk&H1). apply bind_Some in H1 as ([[[p1 c1] cl1] ts1]&Hst&[= <-]). by apply (mpmc_step_caller wild cap ps c cells ts put out k p).
  - apply bind_Some in H1 as (p&Hk&H1). destruct (decide (caller_may wild p p')) as [Hc|]; [|done]. injection H1 as <-. by apply (mpmc_step_choice wild cap ps c cells ts put out k p).
Qed.

(** The channel of capacity 1, and its state with other counts of handles. *)
Definition chan1 (s r : Z) : MpmcChannelInternal Z :=
  from_option (with_counts s r) (mk_channel (Unsync.mk_ring [] 0 0 0) 0 [] [] [] [] 0 0) (shared_new 1).

Definition start_of ps : system (T:=Z) := (ps, chan1 1 1, ∅, ∅, [], []).
Definition run_end wild ps turns : system (T:=Z) := default (start_of ps) (mpmc_run wild 1 (start_of ps) turns).

(** Sends 7 and 8 through one place. *)
Definition demo_fifo : list turn := [Turn 0; Turn 1; Turn 1; Turn 2; Turn 1; Turn 1; Turn 1; Turn 1].
Definition demo_callers : list (Caller Z) := [S_try Sync 7; S_try Async 8; R_try Sync].

Lemma chan1_new : shared_new 1 = Some (chan1 1 1).
Proof. by vm_compute. Qed.

Lemma run_end_reached wild ps turns : is_Some (mpmc_run wild 1 (start_of ps) turns) → rtc (mpmc_step wild 1) (start_of ps) (run_end wild ps turns).
Proof. intros [s E]. unfold run_end. rewrite E. by apply (mpmc_run_steps _ _ _ turns). Qed.

Lemma mpmc_fifo_witness :
  ∃ ps c cells ts put out, rtc (mpmc_step false 1) (demo_callers, chan1 1 1, ∅, ∅, [], []) (ps, c, cells, ts, put, out) ∧
    put = [7; 8] ∧ out = [7] ∧ ∃ xs, Unsync.holds (queue c) xs ∧ put = out ++ xs.
Proof.
  pose proof (run_end_reached false demo_callers demo_fifo ltac:(vm_compute; by eexists)) as Hr.
  destruct (run_end false demo_callers demo_fifo) as [[[[[ps c] cells] ts] put] out] eqn:E. exists ps, c, cells, ts, put, out. split; [done|].
  split; [apply (f_equal (λ s : system, s.1.2)) in E; revert E; vm_compute; congruence|].
  split; [apply (f_equal (λ s : system, s.2)) in E; revert E; vm_compute; congruence|].
  destruct (mpmc_fifo false 1 demo_callers (chan1 1 1) ps c cells ts put out ltac:(lia) chan1_new ltac:(by repeat constructor) Hr) as [(xs&Hq&Ep&_) _].
  by exists xs.
Defined.

(** A task and a thread wait for the one item of a sender, which closes. *)
Definition rest_turns : list turn := [Turn 0; Turn 0; Turn 1; Turn 1; Turn 1; Turn 2; Turn 0; Turn 0; Turn 0; Turn 0].
Definition rest_callers : list (Caller Z) := [R_try Async; R_try Sync; S_try Sync 7].

Lemma mpmc_no_lost_wakeup_witness :
  ∃ c cells ts put out, rtc (mpmc_step false 1) (rest_callers, with_counts 1 1 (chan1 1 1), ∅, ∅, [], []) ([Done (Got [7]); R_park Sync; Done (Sent [7])], c, cells, ts, put, out) ∧
    len c = 0 ∧ sender_count c ≠ 0.
Proof.
  pose proof (run_end_reached false rest_callers rest_turns ltac:(vm_compute; by eexists)) as Hr.
  destruct (run_end false rest_callers rest_turns) as [[[[[ps c] cells] ts] put] out] eqn:E.
  assert (Eps : ps = [Done (Got [7]); R_park Sync; Done (Sent [7])]) by (apply (f_equal (λ s : system, s.1.1.1.1.1)) in E; revert E; vm_compute; congruence).
  assert (Ets : 1%nat ∉ ts) by (apply (f_equal (λ s : system, bool_decide (1%nat ∈ s.1.1.2))) in E; simpl in E; apply (bool_decide_eq_false_1 _); rewrite <- E; by vm_compute).
  subst ps. exists c, cells, ts, put, out. split; [exact Hr|].
  destruct (mpmc_no_lost_wakeup 1 1 1 rest_callers (chan1 1 1) _ c cells ts put out ltac:(lia) chan1_new ltac:(by repeat constructor) ltac:(by vm_compute) ltac:(by vm_compute) Hr) as [_ Hrest].
  apply (Hrest ltac:(intros [|[|[|k]]] p Hk; [injection Hk as <-; by left|injection Hk as <-; by right|injection Hk as <-; by left|done]) 1%nat (R_park Sync)); done.
Defined.

(** ** What the channel does not promise *)

(** A [recv_timeout] registers, a send marks it and pushes, another receiver takes the item, the time is over. *)
Definition run_stolen : list turn := [Turn 0; Turn 0; Turn 1; Turn 2; Choose 0 T_cas; Turn 0; Turn 0].
Definition callers_stolen : list (Caller Z) := [T_first; S_try Sync 7; R_try Sync].

(** A [recv_timeout] finds the buffer filled and empty again: it waits without being registered. *)
Definition run_unlisted : list turn := [Turn 0; Turn 1; Turn 0; Turn 2; Turn 0; Turn 0; Turn 3].
Definition callers_unlisted : list (Caller Z) := [T_first; S_try Sync 7; R_try Sync; S_try Sync 8].

(** Two tasks wait; the second is polled, for no reason, when an item came for the first: its future
    is ready, and gone, while its waiter is still in the queue. *)
Definition run_repolled : list turn := [Turn 0; Turn 0; Turn 1; Turn 1; Turn 2; Choose 1 (R_wait Async); Turn 1; Turn 1].
Definition callers_repolled : list (Caller Z) := [R_try Async; R_try Async; S_try Sync 7; S_try Sync 8].

(** Two tasks wait to send; the one a receive woke is dropped. *)
Definition run_dropped : list turn := [Turn 0; Turn 1; Turn 1; Turn 2; Turn 2; Turn 3; Choose 1 (D_cas true); Turn 1; Turn 1].
Definition callers_dropped : list (Caller Z) := [S_try Sync 7; S_try Async 8; S_try Async 9; R_try Sync].

(** C36: four runs of a channel of capacity 1 that its documentation excludes.  (1) [recv_timeout]
    reaches its [unreachable!] and panics, when an item meant for it was taken by another
    receiver and its time is over.  (2) [recv_timeout] sleeps unregistered, so that it will time out, while an
    item lies in the buffer and all other calls are finished.  (3) a [RecvFuture] polled for no reason returns
    with its waiter still in the queue, so that the next send uses freed memory.
    (4) a woken [SendFuture] that is dropped does not pass the wake on: another sleeps, unwoken, while the buffer has room and a receiver exists. *)
Theorem mpmc_faults :
  (∃ ps c cells ts put out, rtc (mpmc_step false 1) (start_of callers_stolen) (ps, c, cells, ts, put, out) ∧ ps !! 0%nat = Some (Done Panicked)) ∧
  (∃ c cells ts put out, rtc (mpmc_step false 1) (start_of callers_unlisted) ([T_park; Done (Sent [7]); Done (Got [7]); Done (Sent [8])], c, cells, ts, put, out) ∧
     len c = 1 ∧ 0%nat ∉ ts ∧ waiting_sync_receivers c = []) ∧
  (∃ ps c cells ts put out, rtc (mpmc_step true 1) (start_of callers_repolled) (ps, c, cells, ts, put, out) ∧
     ps !! 3%nat = Some (S_try Sync 8) ∧ caller_step 1 3 (S_try Sync 8) c cells ts = None) ∧
  (∃ c cells ts put out, rtc (mpmc_step true 1) (start_of callers_dropped) ([Done (Sent [7]); Done Ended; S_park Async 9; Done (Got [7])], c, cells, ts, put, out) ∧
     len c = 0 ∧ receiver_count c = 1 ∧ 2%nat ∉ ts).
Proof.
  repeat split.
  - do 6 eexists. split; [apply (mpmc_run_steps _ _ _ run_stolen); by vm_compute|done].
  - do 5 eexists. split; [apply (mpmc_run_steps _ _ _ run_unlisted); by vm_compute|]. by vm_compute.
  - do 6 eexists. split; [apply (mpmc_run_steps _ _ _ run_repolled); by vm_compute|]. by vm_compute.
  - do 5 eexists. split; [apply (mpmc_run_steps _ _ _ run_dropped); by vm_compute|]. by vm_compute.
Qed.
