(* ===== verification/OneshotCore.v ===== *)
(** * The clonable one-shot channel ([channels/src/oneshot/core.rs], [mod.rs])

    One word holds the phase, whether the receiver is gone, and the number of senders.
    Any number of senders (a handle is cloned, dropped, or consumed by [send]) and the one
    receiver ([try_recv], its future, [close], drop) interleave; a step is one atomic access of
    one of them.  The receiver has one future at a time, and its calls do not overlap; but
    [try_recv] and [close] take [&self], so they may come while the future is pending.  A weak compare-and-swap may fail for no reason.  The value slot is [None] while uninitialised: reading
    it then is undefined behaviour and has no result.  The waker cell is [futures_util]'s
    [AtomicWaker]: registering and waking are atomic. *)

From stdpp Require Import relations.
From S2P Require Import Prelude Threads.

Definition STATE_EMPTY : Z := 0.
Definition STATE_WRITING : Z := 1.
Definition STATE_SENT : Z := 2.
Definition STATE_TAKEN : Z := 3.
Definition STATE_CLOSED : Z := 4.
Definition PHASE_MASK : Z := 7.
Definition RX_DROPPED : Z := Z.shiftl 1 3.
Definition COUNT_SHIFT : Z := 4.
Definition COUNT_UNIT : Z := Z.shiftl 1 COUNT_SHIFT.

Definition phase (word : Z) : Z := Z.land word PHASE_MASK.
Definition sender_count (word : Z) : Z := Z.shiftr word COUNT_SHIFT.
Definition with_phase (word new_phase : Z) : Z := Z.lor (Z.land word (u64_max - PHASE_MASK)) new_phase.
Definition rx_dropped (word : Z) : bool := negb (Z.land word RX_DROPPED =? 0).

Record OneShotShared (T : Type) := mk_shared { state : Z; value_slot : option T; receiver_waker : bool }.
Arguments mk_shared {T}.
Arguments state {T}.
Arguments value_slot {T}.
Arguments receiver_waker {T}.

(** How a sender's handle was used up: by a send that delivered, by one that gave its value back, or not. *)
Inductive Outcome (T : Type) := Unsent | Ok_sent | Err_closed (value : T) | Err_sent (value : T).
Arguments Unsent {T}.
Arguments Ok_sent {T}.
Arguments Err_closed {T}.
Arguments Err_sent {T}.

Inductive Sender (T : Type) :=
  | S_idle | S_send (value : T) | S_loop (value : T) (cur : Z) | S_check (value : T) | S_undo (value : T)
  | S_write (value : T) | S_publish (value : T) | S_wake
  | S_dec (r : Outcome T) | S_close (r : Outcome T) (cur : Z) | S_close_wake (r : Outcome T) | S_drop_value (r : Outcome T)
  | S_done (r : Outcome T).
Arguments S_idle {T}.
Arguments S_send {T}.
Arguments S_loop {T}.
Arguments S_check {T}.
Arguments S_undo {T}.
Arguments S_write {T}.
Arguments S_publish {T}.
Arguments S_wake {T}.
Arguments S_dec {T}.
Arguments S_close {T}.
Arguments S_close_wake {T}.
Arguments S_drop_value {T}.
Arguments S_done {T}.

(** Who called [try_recv]: the user, the first or second call of [poll_recv], or the user beside a pending future. *)
Inductive Mode := M_try | M_first | M_second | M_beside.

(** [R_pending]: a future is pending. [R_shut closed]: it is still pending, after the receiver itself closed the channel
    beside it: by [close] if [closed], which also set the handle's flag, else by a [try_recv] that found no sender left (the
    word says so, and any further [try_recv] answers [Disconnected] and changes nothing).
    The last two of the drop know whether a future is pending.  [R_done]: the handle was closed or dropped, and has no future. *)
Inductive Receiver :=
  | R_idle | R_load (m : Mode) | R_loop (m : Mode) (cur : Z) | R_take (m : Mode)
  | R_phase (second : bool) | R_register | R_pending
  | R_drop_loop (fut : bool) (cur : Z) | R_drop_value (fut : bool) | R_shut (closed : bool) | R_done.

Section Code.
Context {T : Type}.
Notation shared := (OneShotShared T).
Implicit Types (sh : shared) (value : T) (p q : Sender T) (rx : Receiver) (weak tk : bool) (ps : list (Sender T)).

Definition new : shared := mk_shared (Z.lor COUNT_UNIT STATE_EMPTY) None false.

Definition set_state w sh : shared := mk_shared w (value_slot sh) (receiver_waker sh).
Definition set_slot o sh : shared := mk_shared (state sh) o (receiver_waker sh).

(** [compare_exchange_weak]. *)
Definition cas weak cur sh : bool := negb weak && (state sh =? cur).

(** [AtomicWaker]; [tk] is the pending wake of the receiver's task. *)
Definition register sh : shared := mk_shared (state sh) (value_slot sh) true.
Definition wake sh tk : shared * bool := (mk_shared (state sh) (value_slot sh) false, receiver_waker sh || tk).

(** What a step adds to the history: a value published, received, or dropped in the channel. *)
Inductive event := E_sent (value : T) | E_got (value : T) | E_dropped (value : T).

Notation sender_result := (option (Sender T * shared * bool * option event)).

(** [send], which consumes the handle. *)
Definition send_step weak p sh tk : sender_result :=
  match p with
  | S_send v => Some (S_loop v (state sh), sh, tk, None)
  | S_loop v cur =>
      if rx_dropped cur then Some (S_dec (Err_closed v), sh, tk, None)
      else if negb (phase cur =? STATE_EMPTY) then Some (S_dec (Err_sent v), sh, tk, None)
      else if cas weak cur sh then Some (S_check v, set_state (with_phase cur STATE_WRITING) sh, tk, None)
      else Some (S_loop v (state sh), sh, tk, None)
  | S_check v => Some (if rx_dropped (state sh) then S_undo v else S_write v, sh, tk, None)
  | S_undo v => Some (S_dec (Err_closed v), set_state (state sh -w (STATE_WRITING - STATE_EMPTY)) sh, tk, None)
  | S_write v => Some (S_publish v, set_slot (Some v) sh, tk, None)
  | S_publish v => Some (S_wake, set_state (state sh +w (STATE_SENT - STATE_WRITING)) sh, tk, Some (E_sent v))
  | S_wake => let '(sh, tk) := wake sh tk in Some (S_dec Ok_sent, sh, tk, None)
  | _ => None
  end.

(** [decrement_senders], at the drop of a handle. *)
Definition dec_step weak p sh tk : sender_result :=
  match p with
  | S_dec r =>
      let prev := state sh in
      Some (if negb (sender_count prev =? 1) then S_done r else S_close r (prev -w COUNT_UNIT), set_state (prev -w COUNT_UNIT) sh, tk, None)
  | S_close r cur =>
      if phase cur =? STATE_EMPTY then
        if cas weak cur sh then Some (S_close_wake r, set_state (with_phase cur STATE_CLOSED) sh, tk, None)
        else Some (S_close r (state sh), sh, tk, None)
      else if phase cur =? STATE_SENT then
        if negb (rx_dropped cur) then Some (S_done r, sh, tk, None)
        else if cas weak cur sh then Some (S_drop_value r, set_state (with_phase cur STATE_TAKEN) sh, tk, None)
        else Some (S_close r (state sh), sh, tk, None)
      else Some (S_done r, sh, tk, None)
  | S_close_wake r => let '(sh, tk) := wake sh tk in Some (S_done r, sh, tk, None)
  | S_drop_value r => v ← value_slot sh; Some (S_done r, set_slot None sh, tk, Some (E_dropped v))
  | _ => None
  end.

Definition sender_step weak p sh tk : sender_result :=
  match p with
  | S_send _ | S_loop _ _ | S_check _ | S_undo _ | S_write _ | S_publish _ | S_wake => send_step weak p sh tk
  | S_dec _ | S_close _ _ | S_close_wake _ | S_drop_value _ => dec_step weak p sh tk
  | S_idle | S_done _ => None
  end.

Notation receiver_result := (option (Receiver * shared * bool * option event)).

(** What follows an answer [Empty] of [try_recv]. *)
Definition on_empty (m : Mode) : Receiver :=
  match m with M_try => R_idle | M_first => R_phase false | M_second => R_phase true | M_beside => R_pending end.

(** Any other answer ends the call, and the poll that made it; closing the channel beside a pending future does not end that. *)
Definition answered (m : Mode) : Receiver := match m with M_beside => R_pending | _ => R_idle end.
Definition shut (m : Mode) : Receiver := match m with M_beside => R_shut false | _ => R_idle end.

Definition try_recv_step weak rx sh tk : receiver_result :=
  match rx with
  | R_load m => Some (R_loop m (state sh), sh, tk, None)
  | R_loop m cur =>
      if phase cur =? STATE_SENT then
        if cas weak cur sh then Some (R_take m, set_state (with_phase cur STATE_TAKEN) sh, tk, None)
        else Some (R_loop m (state sh), sh, tk, None)
      else if (phase cur =? STATE_TAKEN) || (phase cur =? STATE_WRITING) then Some (on_empty m, sh, tk, None)
      else if phase cur =? STATE_CLOSED then Some (answered m, sh, tk, None)
      else if 0 <? sender_count cur then Some (on_empty m, sh, tk, None)
      else if cas weak cur sh then Some (shut m, set_state (with_phase cur STATE_CLOSED) sh, tk, None)
      else Some (R_loop m (state sh), sh, tk, None)
  | R_take m => v ← value_slot sh; Some (answered m, set_slot None sh, tk, Some (E_got v))
  | _ => None
  end.

(** [ReceiveFuture::poll] answers [Disconnected] when the handle was closed, and calls [poll_recv] when not. *)
Definition poll (closed : bool) : Receiver := if closed then R_done else R_load M_first.

(** The rest of [poll_recv]; a pending task runs when it was woken. *)
Definition poll_step rx sh tk : receiver_result :=
  match rx with
  | R_phase second =>
      Some (if phase (state sh) =? STATE_TAKEN then R_idle else if (second : bool) then R_pending else R_register, sh, tk, None)
  | R_register => Some (R_load M_second, register sh, tk, None)
  | R_pending => if (tk : bool) then Some (poll false, sh, false, None) else None
  | R_shut closed => if (tk : bool) then Some (poll closed, sh, false, None) else None
  | _ => None
  end.

(** [mark_receiver_dropped], after its [fetch_or]: called by the drop of the handle, or by [close]. *)
Definition drop_end (fut : bool) : Receiver := if fut then R_shut true else R_done.

Definition drop_step weak rx sh tk : receiver_result :=
  match rx with
  | R_drop_loop fut cur =>
      if phase cur =? STATE_EMPTY then
        if cas weak cur sh then Some (drop_end fut, set_state (with_phase cur STATE_CLOSED) sh, tk, None)
        else Some (R_drop_loop fut (state sh), sh, tk, None)
      else if phase cur =? STATE_SENT then
        if cas weak cur sh then Some (R_drop_value fut, set_state (with_phase cur STATE_TAKEN) sh, tk, None)
        else Some (R_drop_loop fut (state sh), sh, tk, None)
      else Some (drop_end fut, sh, tk, None)
  | R_drop_value fut => v ← value_slot sh; Some (drop_end fut, set_slot None sh, tk, Some (E_dropped v))
  | _ => None
  end.

Definition receiver_step weak rx sh tk : receiver_result :=
  match rx with
  | R_load _ | R_loop _ _ | R_take _ => try_recv_step weak rx sh tk
  | R_phase _ | R_register | R_pending | R_shut _ => poll_step rx sh tk
  | R_drop_loop _ _ | R_drop_value _ => drop_step weak rx sh tk
  | R_idle | R_done => None
  end.

(** The handle may be closed now (or dropped, without a future): whether a future is pending. *)
Definition may_close rx : option bool := match rx with R_idle => Some false | R_pending | R_shut false => Some true | _ => None end.

(** [mark_receiver_dropped], its [fetch_or]. *)
Definition mark_receiver_dropped fut sh : Receiver * shared :=
  (R_drop_loop fut (Z.lor (state sh) RX_DROPPED), set_state (Z.lor (state sh) RX_DROPPED) sh).

(** A pending future: whether its handle was closed. *)
Definition future_of rx : option bool := match rx with R_pending | R_shut false => Some false | R_shut true => Some true | _ => None end.

(** The values published, received and dropped, in order. *)
Record history := mk_history { sent : list T; got : list T; dropped : list T }.

Definition record (e : option event) (h : history) : history :=
  match e with
  | None => h
  | Some (E_sent v) => mk_history (sent h ++ [v]) (got h) (dropped h)
  | Some (E_got v) => mk_history (sent h) (got h ++ [v]) (dropped h)
  | Some (E_dropped v) => mk_history (sent h) (got h) (dropped h ++ [v])
  end.

Definition system : Type := list (Sender T) * Receiver * shared * bool * history.

(** Besides the steps: a handle is used to send, dropped or cloned ([increment_senders]); the receiver calls [try_recv],
    polls (a pending future for no reason, too), is closed or dropped; a pending future is dropped; [try_recv] and [close]
    are called beside a pending future. *)
Inductive oneshot_step : system → system → Prop :=
  | step_sender ps rx sh tk h weak k p p' sh' tk' e :
      ps !! k = Some p → sender_step weak p sh tk = Some (p', sh', tk', e) →
      oneshot_step (ps, rx, sh, tk, h) (<[k:=p']> ps, rx, sh', tk', record e h)
  | step_receiver ps rx sh tk h weak rx' sh' tk' e :
      receiver_step weak rx sh tk = Some (rx', sh', tk', e) → oneshot_step (ps, rx, sh, tk, h) (ps, rx', sh', tk', record e h)
  | step_send ps rx sh tk h k v : ps !! k = Some S_idle → oneshot_step (ps, rx, sh, tk, h) (<[k:=S_send v]> ps, rx, sh, tk, h)
  | step_drop ps rx sh tk h k : ps !! k = Some S_idle → oneshot_step (ps, rx, sh, tk, h) (<[k:=S_dec Unsent]> ps, rx, sh, tk, h)
  | step_clone ps rx sh tk h k : ps !! k = Some S_idle → oneshot_step (ps, rx, sh, tk, h) (ps ++ [S_idle], rx, set_state (state sh +w COUNT_UNIT) sh, tk, h)
  | step_recv ps sh tk h m : m = M_try ∨ m = M_first → oneshot_step (ps, R_idle, sh, tk, h) (ps, R_load m, sh, tk, h)
  | step_beside ps sh tk h : oneshot_step (ps, R_pending, sh, tk, h) (ps, R_load M_beside, sh, tk, h)
  | step_repoll ps rx sh tk h closed : future_of rx = Some closed → oneshot_step (ps, rx, sh, tk, h) (ps, poll closed, sh, tk, h)
  | step_forget ps rx sh tk h closed : future_of rx = Some closed → oneshot_step (ps, rx, sh, tk, h) (ps, if closed then R_done else R_idle, sh, tk, h)
  | step_receiver_close ps rx sh tk h fut :
      may_close rx = Some fut → oneshot_step (ps, rx, sh, tk, h) (ps, (mark_receiver_dropped fut sh).1, (mark_receiver_dropped fut sh).2, tk, h).
End Code.
Arguments event : clear implicits.
Arguments history : clear implicits.

(** ** The word *)

Definition word (n : Z) (r : bool) (ph : Z) : Z := n * 16 + (if r then 8 else 0) + ph.

Lemma land_small x m k : 0 ≤ k → 0 ≤ m < 2 ^ k → Z.land x m = Z.land (x mod 2 ^ k) m.
Proof.
  intros Hk Hm. rewrite <- Z.land_ones by done. rewrite <- Z.land_assoc, (Z.land_comm (Z.ones k)). by rewrite Z.land_ones, (Z.mod_small m) by lia.
Qed.

Lemma word_mod n r ph : 0 ≤ ph < 8 → word n r ph mod 16 = (if r then 8 else 0) + ph.
Proof. intros H. unfold word. rewrite <- Z.add_assoc, Z.add_comm, Z.mod_add by lia. apply Z.mod_small. destruct r; lia. Qed.

Lemma small_cases ph : 0 ≤ ph < 8 → ph ∈ [0; 1; 2; 3; 4; 5; 6; 7].
Proof. intros H. assert (ph = 0 ∨ ph = 1 ∨ ph = 2 ∨ ph = 3 ∨ ph = 4 ∨ ph = 5 ∨ ph = 6 ∨ ph = 7) as Hor by lia. set_solver. Qed.

Lemma phase_word n r ph : 0 ≤ ph < 8 → phase (word n r ph) = ph.
Proof.
  intros H. unfold phase. rewrite (land_small _ PHASE_MASK 4) by (done || lia). change (2 ^ 4) with 16. rewrite word_mod by done.
  pose proof (small_cases ph H) as Hc. rewrite !elem_of_cons, elem_of_nil in Hc.
  destruct Hc as [->|[->|[->|[->|[->|[->|[->|[->|[]]]]]]]]]; by destruct r.
Qed.

Lemma rx_dropped_word n r ph : 0 ≤ ph < 8 → rx_dropped (word n r ph) = r.
Proof.
  intros H. unfold rx_dropped. rewrite (land_small _ RX_DROPPED 4) by (done || (split; done)). change (2 ^ 4) with 16. rewrite word_mod by done.
  pose proof (small_cases ph H) as Hc. rewrite !elem_of_cons, elem_of_nil in Hc.
  destruct Hc as [->|[->|[->|[->|[->|[->|[->|[->|[]]]]]]]]]; by destruct r.
Qed.

Lemma sender_count_word n r ph : 0 ≤ ph < 8 → sender_count (word n r ph) = n.
Proof.
  intros H. unfold sender_count. rewrite Z.shiftr_div_pow2 by done. change (2 ^ COUNT_SHIFT) with 16. unfold word.
  rewrite <- Z.add_assoc, Z.add_comm, Z.div_add by lia. rewrite Z.div_small; [lia|]. destruct r; lia.
Qed.

Lemma with_phase_word n r ph ph' : 0 ≤ n < 2 ^ 60 → 0 ≤ ph < 8 → 0 ≤ ph' < 8 → with_phase (word n r ph) ph' = word n r ph'.
Proof.
  intros Hn H H'. unfold with_phase.
  assert (E : Z.land (word n r ph) (u64_max - PHASE_MASK) = word n r 0).
  { assert (u64_max - PHASE_MASK = Z.ldiff u64_max PHASE_MASK) as -> by done. assert (Z.land (word n r ph) u64_max = word n r ph) as Ew.
    { change u64_max with (Z.ones 64). rewrite Z.land_ones by done. apply Z.mod_small. unfold word. destruct r; lia. }
    assert (Z.land (word n r ph) (Z.ldiff u64_max PHASE_MASK) = Z.ldiff (word n r ph) PHASE_MASK) as ->.
    { rewrite <- Ew at 2. apply Z.bits_inj'. intros i Hi. rewrite !Z.land_spec, !Z.ldiff_spec, Z.land_spec. by rewrite andb_assoc. }
    change PHASE_MASK with (Z.ones 3). rewrite Z.ldiff_ones_r, Z.shiftr_div_pow2, Z.shiftl_mul_pow2 by done. change (2 ^ 3) with 8.
    unfold word. replace (n * 16 + (if r then 8 else 0) + ph) with (ph + (n * 2 + (if r then 1 else 0)) * 8) by (destruct r; lia).
    rewrite Z.div_add, Z.div_small by lia. destruct r; lia. }
  rewrite E. rewrite <- Z.add_nocarry_lor; [unfold word; lia|].
  rewrite Z.land_comm. apply Z.bits_inj'. intros i Hi. rewrite Z.land_spec, Z.bits_0. destruct (decide (i < 3)) as [Hlt|Hge].
  - apply andb_false_intro2. unfold word. replace (n * 16 + (if r then 8 else 0) + 0) with ((n * 2 + (if r then 1 else 0)) * 2 ^ 3) by (change (2 ^ 3) with 8; destruct r; lia).
    apply Z.mul_pow2_bits_low. lia.
  - apply andb_false_intro1. apply Z.bits_above_log2; [lia|]. destruct (decide (ph' = 0)) as [->|]; [simpl; lia|]. apply Z.log2_lt_pow2; [lia|].
    apply Z.lt_le_trans with (2 ^ 3); [lia|]. apply Z.pow_le_mono_r; lia.
Qed.

Lemma drop_word n r ph : 0 ≤ ph < 8 → Z.lor (word n r ph) RX_DROPPED = word n true ph.
Proof.
  intros H. pose proof (Z.add_lor_land (word n r ph) RX_DROPPED) as E. pose proof (rx_dropped_word n r ph H) as Er. unfold rx_dropped in Er.
  assert (El : Z.land (word n r ph) RX_DROPPED = if r then 8 else 0).
  { rewrite (land_small _ RX_DROPPED 4) by (done || (split; done)). change (2 ^ 4) with 16. rewrite word_mod by done.
    pose proof (small_cases ph H) as Hc. rewrite !elem_of_cons, elem_of_nil in Hc.
    destruct Hc as [->|[->|[->|[->|[->|[->|[->|[->|[]]]]]]]]]; by destruct r. }
  rewrite El in E. change RX_DROPPED with 8 in *. unfold word in *. destruct r; lia.
Qed.

(** ** The invariant *)

Section Inv.
Context {T : Type}.
Notation shared := (OneShotShared T).
Implicit Types (sh : shared) (v : T) (p q : Sender T) (rx : Receiver) (weak tk : bool) (ps : list (Sender T)) (h : history T) (k : nat) (n ph cur : Z).

(** Handles still counted; the writer; who may take the value; who is about to wake; who delivered. *)
Definition holds p : Z :=
  match p with S_idle | S_send _ | S_loop _ _ | S_check _ | S_undo _ | S_write _ | S_publish _ | S_wake | S_dec _ => 1 | _ => 0 end.
Definition writes p : Z := match p with S_check _ | S_undo _ | S_write _ | S_publish _ => 1 | _ => 0 end.
Definition pubs p : Z := match p with S_publish _ => 1 | _ => 0 end.
Definition takes p : Z := match p with S_drop_value _ => 1 | _ => 0 end.
Definition wakes p : Z := match p with S_wake | S_close_wake _ => 1 | _ => 0 end.
Definition late p : Z := match p with S_close _ _ | S_close_wake _ | S_drop_value _ => 1 | _ => 0 end.
Definition oks p : Z :=
  match p with
  | S_wake | S_dec Ok_sent | S_close Ok_sent _ | S_close_wake Ok_sent | S_drop_value Ok_sent | S_done Ok_sent => 1
  | _ => 0
  end.

Definition rx_takes rx : Z := match rx with R_take _ | R_drop_value _ => 1 | _ => 0 end.
Definition gone rx : bool := match rx with R_drop_loop _ _ | R_drop_value _ | R_shut true | R_done => true | _ => false end.
Definition registered rx : Prop := match rx with R_load M_second | R_loop M_second _ | R_phase true | R_pending => True | _ => False end.

Definition eqz (a b : Z) : Z := if a =? b then 1 else 0.
Definition filled sh : Z := match value_slot sh with Some _ => 1 | None => 0 end.

(** A wake has come or will come, or the value has not been published. *)
Definition good ph ps sh tk : Prop := tk = true ∨ receiver_waker sh = true ∧ (ph = 0 ∨ ph = 1 ∨ 0 < total wakes ps).

Definition expects rx ph : Prop :=
  match rx with
  | R_pending | R_load M_beside | R_loop M_beside _ | R_take M_beside => True
  | R_phase true => ph ≠ 3
  | R_loop M_second cur => phase cur = 0 ∨ phase cur = 1
  | _ => False
  end.

(** The last sender is about to close an empty channel, or to drop an unreceived value. *)
Definition closing ps : Prop := ∃ k r cur, ps !! k = Some (S_close r cur) ∧ phase cur = 0.
Definition reclaiming ps rx : Prop :=
  (∃ k r cur, ps !! k = Some (S_close r cur) ∧ phase cur = 2 ∧ rx_dropped cur = true) ∨ ∃ fut cur, rx = R_drop_loop fut cur ∧ (phase cur = 0 ∨ phase cur = 2).

Record oneshot_inv ph ps rx sh tk h : Prop := {
  oi_word : state sh = word (total holds ps) (gone rx) ph;
  oi_small : Z.of_nat (length ps) < 2 ^ 60;
  oi_ph : 0 ≤ ph ≤ 4;
  oi_writer : total writes ps = eqz ph 1;
  oi_taker : total takes ps + rx_takes rx ≤ eqz ph 3;
  oi_slot : filled sh = total pubs ps + (total takes ps + rx_takes rx) + eqz ph 2;
  oi_sent : Z.of_nat (length (sent h)) = eqz ph 2 + eqz ph 3;
  oi_hist : sent h = got h ++ dropped h ++ (if total pubs ps =? 0 then option_list (value_slot sh) else []);
  oi_pub k v : ps !! k = Some (S_publish v) → value_slot sh = Some v;
  oi_oks : total oks ps = Z.of_nat (length (sent h));
  oi_late : 0 < total late ps → total holds ps = 0;
  oi_empty : ph = 0 → total holds ps = 0 → closing ps;
  oi_leak : ph = 2 → gone rx = true → total holds ps = 0 → reclaiming ps rx;
  oi_cur m cur : rx = R_loop m cur → 0 ≤ phase cur ≤ 4 ∧ (phase cur = 3 → ph = 3);
  oi_shut : rx = R_shut false → ph = 4;
  oi_reg : registered rx → receiver_waker sh = true ∨ tk = true;
  oi_good : expects rx ph → good ph ps sh tk;
}.

Lemma holds_range p : 0 ≤ writes p ≤ holds p ∧ 0 ≤ pubs p ≤ writes p ∧ 0 ≤ takes p ≤ late p ∧ 0 ≤ wakes p ∧ 0 ≤ oks p ∧ 0 ≤ holds p ≤ 1.
Proof. destruct p as [| | | | | | | |[]|[]|[]|[]|[]]; simpl; lia. Qed.

Lemma total_le (w1 w2 : Sender T → Z) ps : (∀ p, w1 p ≤ w2 p) → total w1 ps ≤ total w2 ps.
Proof. intros H. induction ps as [|p ps IH]; [done|]. rewrite !total_cons. specialize (H p). lia. Qed.

Lemma total_ranges ps :
  0 ≤ total writes ps ≤ total holds ps ∧ 0 ≤ total pubs ps ≤ total writes ps ∧ 0 ≤ total takes ps ≤ total late ps ∧ 0 ≤ total wakes ps ∧
  0 ≤ total oks ps ∧ total holds ps ≤ Z.of_nat (length ps).
Proof.
  assert (total holds ps ≤ Z.of_nat (length ps)).
  { induction ps as [|p ps IH]; [done|]. rewrite total_cons. destruct (holds_range p) as (_&_&_&_&_&?). simpl length. lia. }
  repeat split; try done; try (apply total_nonneg; intros p; destruct (holds_range p) as (?&?&?&?&?&?); lia);
    apply total_le; intros p; destruct (holds_range p) as (?&?&?&?&?&?); lia.
Qed.

Lemma rx_takes_range rx : 0 ≤ rx_takes rx.
Proof. by destruct rx. Qed.

Lemma eqz_range a b : 0 ≤ eqz a b ≤ 1.
Proof. unfold eqz. destruct (_ =? _); lia. Qed.
End Inv.

(** What holds of every state, and what caller [k] weighs. *)
Ltac ranges Hi Hk :=
  match type of Hi with oneshot_inv ?ph ?ps ?rx ?sh ?tk ?h => pose proof (total_ranges ps) as (?&?&?&?&?&?); pose proof (rx_takes_range rx) end;
  match type of Hk with ?ps !! _ = Some ?p =>
    pose proof (total_elem holds ps _ p (λ q, proj1 (proj2 (proj2 (proj2 (proj2 (proj2 (holds_range q))))))) Hk)
  end.
