(* ===== verification/Oneshot.v ===== *)
(** * The clonable one-shot channel: moves, theorems and runs

    Every move of a sender and of the receiver keeps the invariant of [OneshotCore], so that
    of every reachable state: at most one value is sent, it is received or dropped once, and
    the receiver is woken. *)

From stdpp Require Import relations.
From S2P Require Import Prelude Threads OneshotCore.

(** ** A sender moves *)

Ltac os_lia := simpl; try done; unfold eqz, filled in *; cbn [Z.eqb Pos.eqb value_slot set_state set_slot] in *; try lia.

Section Senders.
Context {T : Type}.
Notation shared := (OneShotShared T).
Implicit Types (sh : shared) (v : T) (p q : Sender T) (rx : Receiver) (weak tk : bool) (ps : list (Sender T)) (h : history T) (k : nat) (n ph cur : Z).

Lemma closing_kept ps k p p' : ps !! k = Some p → (∀ r cur, p = S_close r cur → phase cur ≠ 0) → closing ps → closing (<[k:=p']> ps).
Proof.
  intros Hk Hp (j&r&cur&Hj&Hc). exists j, r, cur. split; [|done]. rewrite list_lookup_insert_ne; [done|]. intros ->. rewrite Hk in Hj. injection Hj as ->. by apply (Hp r cur).
Qed.

Lemma reclaiming_kept ps k p p' rx :
  ps !! k = Some p → (∀ r cur, p = S_close r cur → phase cur ≠ 2 ∨ rx_dropped cur = false) → reclaiming ps rx → reclaiming (<[k:=p']> ps) rx.
Proof.
  intros Hk Hp [(j&r&cur&Hj&Hc&Hr)|]; [|by right]. left. exists j, r, cur. split; [|done]. rewrite list_lookup_insert_ne; [done|]. intros ->. rewrite Hk in Hj.
  injection Hj as ->. destruct (Hp r cur eq_refl); congruence.
Qed.

(** The caller's own weights, once it moved. *)
Lemma sender_inv ph ph' ps k p p' rx sh sh' tk tk' h h' :
  oneshot_inv ph ps rx sh tk h → ps !! k = Some p →
  state sh' = word (total holds ps - holds p + holds p') (gone rx) ph' → 0 ≤ ph' ≤ 4 →
  eqz ph' 1 = eqz ph 1 - writes p + writes p' →
  total takes ps - takes p + takes p' + rx_takes rx ≤ eqz ph' 3 →
  filled sh' - filled sh = pubs p' - pubs p + (takes p' - takes p) + eqz ph' 2 - eqz ph 2 →
  Z.of_nat (length (sent h')) = eqz ph' 2 + eqz ph' 3 →
  sent h' = got h' ++ dropped h' ++ (if total pubs ps - pubs p + pubs p' =? 0 then option_list (value_slot sh') else []) →
  (∀ v, total pubs ps - pubs p + pubs p' ≠ 0 → value_slot sh = Some v → value_slot sh' = Some v) → (∀ v, p' = S_publish v → value_slot sh' = Some v) →
  oks p' - oks p = Z.of_nat (length (sent h')) - Z.of_nat (length (sent h)) →
  (late p < late p' → total holds ps - holds p + holds p' = 0) → 
  (ph' = 0 → total holds ps - holds p + holds p' = 0 → closing (<[k:=p']> ps)) →
  (ph' = 2 → gone rx = true → total holds ps - holds p + holds p' = 0 → reclaiming (<[k:=p']> ps) rx) →
  (3 ≤ ph → ph' = ph) → (registered rx → receiver_waker sh = true ∨ tk = true → receiver_waker sh' = true ∨ tk' = true) →
  (expects rx ph' → expects rx ph → good ph ps sh tk → good ph' (<[k:=p']> ps) sh' tk') →
  holds p' ≤ holds p →
  oneshot_inv ph' (<[k:=p']> ps) rx sh' tk' (h' : history T).
Proof.
  intros Hi Hk Hw Hph Hwr Htk Hsl Hse Hhi Hpub Hpub' Hok Hlate Hem Hle H3 Hrg Hgood Hho. destruct Hi as [I1 I2 I3 I4 I5 I6 I7 I8 I9 I10 I11 I12 I13 I14 I17 I15 I16].
  split; rewrite ?(total_insert _ _ _ _ _ Hk), ?length_insert; try done; try lia.
  - intros j v Hj. apply insert_other in Hj as [[-> Ep]|[Hne Hj]]; [by apply Hpub'|]. apply Hpub; [|by apply (I9 j)].
    pose proof (λ q, proj1 (proj1 (proj2 (holds_range q)))) as Hn. pose proof (total_elem pubs (<[k:=p']> ps) j _ Hn ltac:(by rewrite list_lookup_insert_ne)) as H.
    rewrite (total_insert _ _ _ _ _ Hk) in H. simpl in H. lia.
  - intros H. pose proof (total_elem late ps k p). pose proof (total_nonneg late ps). pose proof (holds_range p). pose proof (holds_range p').
    destruct (decide (late p < late p')); [by apply Hlate|].
    assert (0 < total late ps) by lia. specialize (I11 ltac:(lia)). pose proof (total_elem holds ps k p ltac:(intros q; destruct (holds_range q); lia) Hk). lia.
  - intros m cur Erx. destruct (I14 m cur Erx) as [? E3]. split; [done|]. intros E. rewrite H3; auto. rewrite (E3 E). lia.
  - intros E. rewrite H3; auto. rewrite (I17 E). lia.
  - intros Hr. apply Hrg; auto.
  - intros He. assert (expects rx ph) as He'; [|by apply Hgood; auto].
    destruct rx as [| | | |[]| | | | | |]; try done. simpl in *. intros ->. apply He, H3. lia.
Qed.

Lemma good_kept ph ph' ps k p p' sh sh' tk :
  ps !! k = Some p → wakes p ≤ wakes p' → receiver_waker sh' = receiver_waker sh → (ph' = 0 ∨ ph' = 1 ∨ ph' = ph ∨ wakes p < wakes p') →
  good ph ps sh tk → good ph' (<[k:=p']> ps) sh' tk.
Proof.
  intros Hk Hw Es Hph [->|[Hs Hor]]; [by left|]. right. rewrite Es, (total_insert _ _ _ _ _ Hk). split; [done|]. pose proof (total_ranges ps) as (_&_&_&?&_).
  destruct Hph as [->|[->|[->|?]]]; [by left|by right; left| |]; [destruct Hor as [?|[?|?]]; [by left|by right; left|]|]; right; right; lia.
Qed.

Definition same_weights p p' : Prop :=
  holds p' = holds p ∧ writes p' = writes p ∧ pubs p' = pubs p ∧ takes p' = takes p ∧ oks p' = oks p ∧ late p' ≤ late p ∧ wakes p ≤ wakes p'.

(** The caller looked at the word, or learned the answer. *)
Lemma sender_quiet ph ps k p p' rx sh tk h :
  oneshot_inv ph ps rx sh tk h → ps !! k = Some p → same_weights p p' → (∀ v, p' ≠ S_publish v) →
  (ph = 0 → closing ps → closing (<[k:=p']> ps)) → (ph = 2 → gone rx = true → reclaiming ps rx → reclaiming (<[k:=p']> ps) rx) →
  oneshot_inv ph (<[k:=p']> ps) rx sh tk h.
Proof.
  intros Hi Hk (E1&E2&E3&E4&E5&E6&E7) Hp Hcl Hre. apply (sender_inv ph ph ps k p p' rx sh sh tk tk h h Hi Hk); rewrite ?E1, ?E2, ?E3, ?E4, ?E5; try lia; try done;
    rewrite ?Z.sub_add; try apply Hi; try done.
  - intros v ->. by destruct (Hp v).
  - intros H0 H1. apply Hcl; [done|]. apply (oi_empty _ _ _ _ _ _ Hi); [done|]. lia.
  - intros H0 Hg H1. apply Hre; [done|done|]. apply (oi_leak _ _ _ _ _ _ Hi); [done|done|]. lia.
  - intros _ _. by apply (good_kept _ _ _ _ p); auto.
Qed.

(** [p] steps, and keeps the invariant. *)
Definition sender_goes weak ph ps k p rx sh tk h : Prop :=
  ∃ p' sh' tk' e ph', sender_step weak p sh tk = Some (p', sh', tk', e) ∧ oneshot_inv ph' (<[k:=p']> ps) rx sh' tk' (record e h).

Section Steps.
Context weak ph ps k rx sh tk h.
Context (Hi : oneshot_inv (T:=T) ph ps rx sh tk h).

Lemma ph_range : 0 ≤ ph < 8.
Proof using Hi. pose proof (oi_ph _ _ _ _ _ _ Hi). lia. Qed.

Lemma senders_range : 0 ≤ total holds ps < 2 ^ 60.
Proof using Hi. pose proof (total_ranges ps) as (?&?&?&?&?&?). pose proof (oi_small _ _ _ _ _ _ Hi). lia. Qed.

Lemma state_phase : phase (state sh) = ph.
Proof using Hi. rewrite (oi_word _ _ _ _ _ _ Hi). apply phase_word, ph_range. Qed.

Lemma state_dropped : rx_dropped (state sh) = gone rx.
Proof using Hi. rewrite (oi_word _ _ _ _ _ _ Hi). apply rx_dropped_word, ph_range. Qed.

Lemma state_count : sender_count (state sh) = total holds ps.
Proof using Hi. rewrite (oi_word _ _ _ _ _ _ Hi). apply sender_count_word, ph_range. Qed.

(** A successful exchange writes another phase. *)
Lemma cas_phase cur ph' : cas weak cur sh = true → 0 ≤ ph' < 8 → cur = state sh ∧ with_phase cur ph' = word (total holds ps) (gone rx) ph'.
Proof using Hi.
  unfold cas. intros [_ Ec]%andb_prop Hp. apply Z.eqb_eq in Ec as <-. split; [done|]. rewrite (oi_word _ _ _ _ _ _ Hi).
  apply with_phase_word; [apply senders_range|apply ph_range|done].
Qed.

(** The value in the slot when nothing was delivered yet. *)
Lemma slot_history : 0 < filled sh → total pubs ps = 0 → ∃ v, value_slot sh = Some v ∧ sent h = got h ++ dropped h ++ [v].
Proof using Hi.
  intros Hf Hp. pose proof (oi_hist _ _ _ _ _ _ Hi) as Hh. rewrite Hp in Hh. unfold filled in Hf. destruct (value_slot sh) as [v|]; [by exists v|lia].
Qed.

Lemma S_send_goes v : ps !! k = Some (S_send v) → sender_goes weak ph ps k (S_send v) rx sh tk h.
Proof using Hi. intros Hk. do 5 eexists. split; [done|]. apply (sender_quiet _ _ _ _ _ _ _ _ _ Hi Hk); try done; intros _; first [by apply (closing_kept _ _ _ _ Hk)|intros _; by apply (reclaiming_kept _ _ _ _ _ Hk)]. Qed.

Lemma S_loop_goes v cur : ps !! k = Some (S_loop v cur) → sender_goes weak ph ps k (S_loop v cur) rx sh tk h.
Proof using Hi.
  intros Hk. unfold sender_goes. cbn [sender_step send_step].
  assert (Hq : ∀ p', same_weights (S_loop v cur) p' → (∀ v, p' ≠ S_publish v) → oneshot_inv ph (<[k:=p']> ps) rx sh tk h).
  { intros p' Hw Hp. apply (sender_quiet _ _ _ _ _ _ _ _ _ Hi Hk); try done; intros _; first [by apply (closing_kept _ _ _ _ Hk)|intros _; by apply (reclaiming_kept _ _ _ _ _ Hk)]. }
  destruct (rx_dropped cur) eqn:Er; [do 5 eexists; split; [done|]; by apply Hq|].
  destruct (Z.eqb_spec (phase cur) STATE_EMPTY) as [Ep|]; [|do 5 eexists; split; [done|]; by apply Hq].
  cbn [negb]. destruct (cas weak cur sh) eqn:Ec; [|do 5 eexists; split; [done|]; by apply Hq].
  destruct (cas_phase cur STATE_WRITING Ec ltac:(done)) as [-> Ew]. rewrite state_phase in Ep. rewrite Ew. do 4 eexists. exists 1. split; [done|].
  pose proof (oi_writer _ _ _ _ _ _ Hi) as W. pose proof (oi_taker _ _ _ _ _ _ Hi) as Tk. pose proof (oi_slot _ _ _ _ _ _ Hi) as Sl. pose proof (oi_sent _ _ _ _ _ _ Hi) as Se.
  unfold STATE_EMPTY in Ep. subst ph. pose proof (total_ranges ps) as (?&?&?&?&?&?). pose proof (rx_takes_range rx).
  assert (0 < total holds ps) by (pose proof (total_elem holds ps k _ ltac:(intros q; destruct (holds_range q) as (?&?&?&?&?&?); lia) Hk); simpl in *; lia).
  apply (sender_inv 0 1 ps k _ _ rx sh _ tk tk h h Hi Hk); os_lia.
  - f_equal. lia.
  - rewrite !Z.sub_0_r, Z.add_0_r. apply Hi.
  - intros _ He Hg. eapply good_kept; [exact Hk|done|done|by right; left|exact Hg].
Qed.

Lemma S_check_goes v : ps !! k = Some (S_check v) → sender_goes weak ph ps k (S_check v) rx sh tk h.
Proof using Hi.
  intros Hk. do 5 eexists. split; [done|]. destruct (rx_dropped _);
    apply (sender_quiet _ _ _ _ _ _ _ _ _ Hi Hk); try done; intros _; first [by apply (closing_kept _ _ _ _ Hk)|intros _; by apply (reclaiming_kept _ _ _ _ _ Hk)].
Qed.

Lemma holds_elem p : ps !! k = Some p → holds p ≤ total holds ps.
Proof using. intros Hk. apply (total_elem holds ps k p); [|done]. intros q. destruct (holds_range q) as (?&?&?&?&?&?). lia. Qed.

Lemma writes_elem p : ps !! k = Some p → writes p ≤ total writes ps.
Proof using. intros Hk. apply (total_elem writes ps k p); [|done]. intros q. destruct (holds_range q) as (?&?&?&?&?&?). lia. Qed.

Lemma pubs_elem p : ps !! k = Some p → pubs p ≤ total pubs ps ∧ total pubs ps ≤ total writes ps - writes p + pubs p.
Proof using.
  intros Hk. split; [apply (total_elem pubs ps k p); [|done]; intros q; destruct (holds_range q) as (?&?&?&?&?&?); lia|].
  pose proof (total_le pubs writes (<[k:=S_idle]> ps) ltac:(intros q; destruct (holds_range q) as (?&?&?&?&?&?); lia)) as H.
  rewrite !(total_insert _ _ _ _ _ Hk) in H. simpl in H. lia.
Qed.

Lemma late_elem p : ps !! k = Some p → 0 < late p → total holds ps = 0.
Proof using Hi.
  intros Hk Hl. apply (oi_late _ _ _ _ _ _ Hi). pose proof (total_elem late ps k p ltac:(intros q; destruct (holds_range q) as (?&?&?&?&?&?); lia) Hk). lia.
Qed.

Lemma takes_elem p : ps !! k = Some p → takes p ≤ total takes ps.
Proof using. intros Hk. apply (total_elem takes ps k p); [|done]. intros q. destruct (holds_range q) as (?&?&?&?&?&?). by destruct q. Qed.

Lemma writer_phase p : ps !! k = Some p → writes p = 1 → ph = 1.
Proof using Hi. intros Hk Hw. pose proof (writes_elem p Hk). pose proof (oi_writer _ _ _ _ _ _ Hi) as W. unfold eqz in W. destruct (Z.eqb_spec ph 1); [done|lia]. Qed.

Lemma S_undo_goes v : ps !! k = Some (S_undo v) → sender_goes weak ph ps k (S_undo v) rx sh tk h.
Proof using Hi.
  intros Hk. pose proof (writer_phase _ Hk eq_refl) as E. pose proof (holds_elem _ Hk) as Hh. pose proof senders_range as Hr. pose proof (pubs_elem _ Hk) as [_ Hpb].
  do 4 eexists. exists 0. cbn [sender_step send_step]. split; [done|].
  assert (Ew : state sh -w (STATE_WRITING - STATE_EMPTY) = word (total holds ps) (gone rx) 0).
  { rewrite (oi_word _ _ _ _ _ _ Hi), E. change (STATE_WRITING - STATE_EMPTY) with 1. rewrite u64_sub_small; [unfold word; lia|..]; unfold word, U64; destruct (gone rx); lia. }
  rewrite Ew. pose proof (oi_writer _ _ _ _ _ _ Hi) as W. pose proof (oi_taker _ _ _ _ _ _ Hi) as Tk. pose proof (oi_slot _ _ _ _ _ _ Hi) as Sl. pose proof (oi_sent _ _ _ _ _ _ Hi) as Se.
  pose proof (total_ranges ps) as (?&?&?&?&?&?). pose proof (rx_takes_range rx). simpl in Hh, Hpb.
  apply (sender_inv ph 0 ps k _ _ rx sh _ tk tk h h Hi Hk); subst ph; os_lia.
  - f_equal. lia.
  - rewrite !Z.sub_0_r, Z.add_0_r. apply Hi.
  - intros _ He Hg. eapply good_kept; [exact Hk|done|done|by left|exact Hg].
Qed.

Lemma S_write_goes v : ps !! k = Some (S_write v) → sender_goes weak ph ps k (S_write v) rx sh tk h.
Proof using Hi.
  intros Hk. pose proof (writer_phase _ Hk eq_refl) as E. pose proof (holds_elem _ Hk) as Hh. pose proof (pubs_elem _ Hk) as [_ Hpb].
  do 4 eexists. exists 1. split; [done|].
  pose proof (oi_writer _ _ _ _ _ _ Hi) as W. pose proof (oi_taker _ _ _ _ _ _ Hi) as Tk. pose proof (oi_slot _ _ _ _ _ _ Hi) as Sl. pose proof (oi_sent _ _ _ _ _ _ Hi) as Se.
  pose proof (total_ranges ps) as (?&?&?&?&?&?). pose proof (rx_takes_range rx). simpl in Hh, Hpb. pose proof (oi_hist _ _ _ _ _ _ Hi) as Hs.
  pose proof (oi_word _ _ _ _ _ _ Hi) as Ew.
  assert (P0 : total pubs ps = 0) by (unfold eqz in *; subst ph; simpl in *; lia).
  assert (F0 : filled sh = 0) by (unfold eqz in *; subst ph; simpl in *; lia).
  assert (Ev : value_slot sh = None) by (unfold filled in F0; by destruct (value_slot sh)). rewrite P0, Ev in Hs.
  apply (sender_inv ph 1 ps k _ _ rx sh _ tk tk h h Hi Hk); subst ph; rewrite ?P0, ?Ev; os_lia.
  - rewrite Ew. f_equal. lia.
  - by intros v' [= ->].
  - intros _ He Hg. eapply good_kept; [exact Hk|done|done|by right; left|exact Hg].
Qed.

Lemma S_publish_goes v : ps !! k = Some (S_publish v) → sender_goes weak ph ps k (S_publish v) rx sh tk h.
Proof using Hi.
  intros Hk. pose proof (writer_phase _ Hk eq_refl) as E. pose proof (holds_elem _ Hk) as Hh. pose proof senders_range as Hr. pose proof (pubs_elem _ Hk) as [Hpa Hpb].
  do 4 eexists. exists 2. cbn [sender_step send_step]. split; [done|].
  assert (Ew : state sh +w (STATE_SENT - STATE_WRITING) = word (total holds ps) (gone rx) 2).
  { rewrite (oi_word _ _ _ _ _ _ Hi), E. change (STATE_SENT - STATE_WRITING) with 1. rewrite u64_add_small; [unfold word; lia|..]; unfold word, U64; destruct (gone rx); lia. }
  rewrite Ew. pose proof (oi_writer _ _ _ _ _ _ Hi) as W. pose proof (oi_taker _ _ _ _ _ _ Hi) as Tk. pose proof (oi_slot _ _ _ _ _ _ Hi) as Sl. pose proof (oi_sent _ _ _ _ _ _ Hi) as Se.
  pose proof (total_ranges ps) as (?&?&?&?&?&?). pose proof (rx_takes_range rx). simpl in Hh, Hpa, Hpb. pose proof (oi_hist _ _ _ _ _ _ Hi) as Hs.
  assert (P1 : total pubs ps = 1) by (unfold eqz in *; subst ph; simpl in *; lia).
  pose proof (oi_pub _ _ _ _ _ _ Hi k v Hk) as Ev. rewrite P1 in Hs. simpl in Hs.
  assert (Es : sent h = []) by (destruct (sent h); [done|unfold eqz in *; subst ph; simpl in *; lia]). rewrite Es in *. symmetry in Hs.
  apply app_eq_nil in Hs as [Eg Hs]. apply app_eq_nil in Hs as [Ed _].
  apply (sender_inv ph 2 ps k _ _ rx sh _ tk tk h (record (Some (E_sent v)) h) Hi Hk); subst ph; rewrite ?P1, ?Es, ?Eg, ?Ed; os_lia.
  - f_equal. lia.
  - by rewrite Es.
  - by rewrite Es, Eg, Ed, Ev.
  - by rewrite Es.
  - intros _ He Hg. eapply good_kept; [exact Hk|done|done|by right; right; right|exact Hg].
Qed.

Lemma S_wake_goes : ps !! k = Some S_wake → sender_goes weak ph ps k S_wake rx sh tk h.
Proof using Hi.
  intros Hk. do 4 eexists. exists ph. split; [done|]. pose proof (total_ranges ps) as (?&?&?&?&?&?). pose proof (holds_elem _ Hk) as Hh. simpl in Hh.
  pose proof (oi_writer _ _ _ _ _ _ Hi) as W. pose proof (oi_taker _ _ _ _ _ _ Hi) as Tk. pose proof (oi_sent _ _ _ _ _ _ Hi) as Se. pose proof (oi_ph _ _ _ _ _ _ Hi) as Hp.
  apply (sender_inv ph ph ps k _ _ rx sh _ tk _ h h Hi Hk); simpl; rewrite ?Z.sub_0_r, ?Z.add_0_r; try done; try lia; try apply Hi.
  - rewrite (oi_word _ _ _ _ _ _ Hi). f_equal. lia.
  - unfold filled. simpl. lia.
  - intros _ [-> | ->]; right; [done|apply orb_true_r].
  - intros _ _ [-> |[-> _]]; left; [apply orb_true_r|done].
Qed.

Lemma word_dec : 1 ≤ total holds ps → state sh -w COUNT_UNIT = word (total holds ps - 1) (gone rx) ph.
Proof using Hi.
  intros H1. pose proof senders_range. pose proof ph_range. rewrite (oi_word _ _ _ _ _ _ Hi). change COUNT_UNIT with 16.
  rewrite u64_sub_small; [unfold word; lia|..]; unfold word, U64; destruct (gone rx); lia.
Qed.

Lemma S_dec_goes r : ps !! k = Some (S_dec r) → sender_goes weak ph ps k (S_dec r) rx sh tk h.
Proof using Hi.
  intros Hk. pose proof (holds_elem _ Hk) as Hh. simpl in Hh. pose proof ph_range as Hpr. pose proof senders_range as Hsr.
  unfold sender_goes. cbn [sender_step dec_step]. rewrite word_dec, state_count by lia. do 4 eexists. exists ph. split; [done|].
  pose proof (total_ranges ps) as (?&?&?&?&?&?). pose proof (oi_writer _ _ _ _ _ _ Hi) as W. pose proof (oi_taker _ _ _ _ _ _ Hi) as Tk. pose proof (oi_sent _ _ _ _ _ _ Hi) as Se. pose proof (oi_ph _ _ _ _ _ _ Hi) as Hp.
  assert (Hpb : total pubs ps ≤ total holds ps - 1).
  { pose proof (total_le pubs holds (<[k:=S_done Unsent]> ps) ltac:(intros q; destruct (holds_range q) as (?&?&?&?&?&?); lia)) as Hx.
    rewrite !(total_insert _ _ _ _ _ Hk) in Hx. simpl in Hx. lia. }
  destruct (Z.eqb_spec (total holds ps) 1) as [E1|E1]; cbn [negb].
  - apply (sender_inv ph ph ps k _ _ rx sh _ tk tk h h Hi Hk); simpl; rewrite ?Z.sub_0_r, ?Z.add_0_r; try done; try lia; try apply Hi.
    + unfold filled. simpl. lia.
    + intros E0 _. exists k, r, (word (total holds ps - 1) (gone rx) ph). split; [by apply list_lookup_insert_eq; eapply lookup_lt_Some|]. by rewrite phase_word.
    + intros E0 Hg _. left. exists k, r, (word (total holds ps - 1) (gone rx) ph). split; [by apply list_lookup_insert_eq; eapply lookup_lt_Some|].
      by rewrite phase_word, rx_dropped_word.
    + intros _ _ Hg. eapply good_kept; [exact Hk|done|done|by right; right; left|exact Hg].
  - apply (sender_inv ph ph ps k _ _ rx sh _ tk tk h h Hi Hk); simpl; rewrite ?Z.sub_0_r, ?Z.add_0_r; try done; try lia; try apply Hi.
    + unfold filled. simpl. lia.
    + intros _ _ Hg. eapply good_kept; [exact Hk|done|done|by right; right; left|exact Hg].
Qed.

Lemma S_close_goes r cur : ps !! k = Some (S_close r cur) → sender_goes weak ph ps k (S_close r cur) rx sh tk h.
Proof using Hi.
  intros Hk. unfold sender_goes. cbn [sender_step dec_step]. pose proof (late_elem _ Hk eq_refl) as Hn. pose proof (pubs_elem _ Hk) as [_ Hpb].
  pose proof (oi_writer _ _ _ _ _ _ Hi) as W. pose proof (oi_taker _ _ _ _ _ _ Hi) as Tk. pose proof (oi_slot _ _ _ _ _ _ Hi) as Sl. pose proof (oi_sent _ _ _ _ _ _ Hi) as Se.
  pose proof (oi_ph _ _ _ _ _ _ Hi) as Hp. pose proof (total_ranges ps) as (?&?&?&?&?&?). pose proof (rx_takes_range rx).
  assert (Hlt : (k < length ps)%nat) by (by eapply lookup_lt_Some). assert (P0 : total pubs ps = 0) by lia.
  assert (Hagain : oneshot_inv ph (<[k:=S_close r (state sh)]> ps) rx sh tk h).
  { apply (sender_quiet _ _ _ _ _ _ _ _ _ Hi Hk); try done.
    - intros E0 _. exists k, r, (state sh). rewrite state_phase. split; [by apply list_lookup_insert_eq|done].
    - intros E0 Hg _. left. exists k, r, (state sh). rewrite state_phase, state_dropped. split; [by apply list_lookup_insert_eq|done]. }
  assert (Hdone : (phase cur ≠ 0) → (phase cur ≠ 2 ∨ rx_dropped cur = false) → oneshot_inv ph (<[k:=S_done r]> ps) rx sh tk h).
  { intros N0 N2. apply (sender_quiet _ _ _ _ _ _ _ _ _ Hi Hk); try done.
    - intros _. apply (closing_kept _ _ _ _ Hk). by intros r' cur' [= <- <-].
    - intros _ _. apply (reclaiming_kept _ _ _ _ _ Hk). by intros r' cur' [= <- <-]. }
  destruct (Z.eqb_spec (phase cur) STATE_EMPTY) as [Ep|N0].
  { destruct (cas weak cur sh) eqn:Ec; [|by do 5 eexists]. destruct (cas_phase cur STATE_CLOSED Ec ltac:(done)) as [-> Ew]. rewrite state_phase in Ep.
    rewrite Ew. do 4 eexists. exists 4. split; [done|]. unfold STATE_EMPTY in Ep. subst ph.
    apply (sender_inv 0 4 ps k _ _ rx sh _ tk tk h h Hi Hk); os_lia.
    - f_equal. lia.
    - rewrite !Z.sub_0_r, Z.add_0_r. apply Hi.
    - intros _ He Hg. eapply good_kept; [exact Hk|done|done|by right; right; right|exact Hg]. }
  destruct (Z.eqb_spec (phase cur) STATE_SENT) as [Ep|N2]; [|do 5 eexists; split; [done|]; apply Hdone; [done|by left]].
  destruct (rx_dropped cur) eqn:Er; cbn [negb]; [|do 5 eexists; split; [done|]; apply Hdone; [done|by right]].
  destruct (cas weak cur sh) eqn:Ec; [|by do 5 eexists]. destruct (cas_phase cur STATE_TAKEN Ec ltac:(done)) as [-> Ew]. rewrite state_phase in Ep. rewrite state_dropped in Er.
  rewrite Ew. do 4 eexists. exists 3. split; [done|]. unfold STATE_SENT in Ep. subst ph.
  apply (sender_inv 2 3 ps k _ _ rx sh _ tk tk h h Hi Hk); os_lia.
  - f_equal. lia.
  - rewrite !Z.sub_0_r, Z.add_0_r. apply Hi.
  - intros He. by destruct rx as [|[]|[]|[]|[]| | | | |[]|].
Qed.

Lemma S_close_wake_goes r : ps !! k = Some (S_close_wake r) → sender_goes weak ph ps k (S_close_wake r) rx sh tk h.
Proof using Hi.
  intros Hk. do 4 eexists. exists ph. split; [done|]. pose proof (total_ranges ps) as (?&?&?&?&?&?).
  pose proof (oi_writer _ _ _ _ _ _ Hi) as W. pose proof (oi_taker _ _ _ _ _ _ Hi) as Tk. pose proof (oi_sent _ _ _ _ _ _ Hi) as Se. pose proof (oi_ph _ _ _ _ _ _ Hi) as Hp.
  apply (sender_inv ph ph ps k _ _ rx sh _ tk _ h h Hi Hk); simpl; rewrite ?Z.sub_0_r, ?Z.add_0_r; try done; try lia; try apply Hi.
  - unfold filled. simpl. lia.
  - intros E0 Hn. apply (closing_kept _ _ _ _ Hk); [done|]. by apply (oi_empty _ _ _ _ _ _ Hi).
  - intros E0 Hg Hn. apply (reclaiming_kept _ _ _ _ _ Hk); [done|]. by apply (oi_leak _ _ _ _ _ _ Hi).
  - intros _ [-> | ->]; right; [done|apply orb_true_r].
  - intros _ _ [-> |[-> _]]; left; [apply orb_true_r|done].
Qed.

Lemma S_drop_value_goes r : ps !! k = Some (S_drop_value r) → sender_goes weak ph ps k (S_drop_value r) rx sh tk h.
Proof using Hi.
  intros Hk. pose proof (late_elem _ Hk eq_refl) as Hn. pose proof (pubs_elem _ Hk) as [_ Hpb]. pose proof (takes_elem _ Hk) as Ht. simpl in Ht.
  pose proof (oi_writer _ _ _ _ _ _ Hi) as W. pose proof (oi_taker _ _ _ _ _ _ Hi) as Tk. pose proof (oi_slot _ _ _ _ _ _ Hi) as Sl. pose proof (oi_sent _ _ _ _ _ _ Hi) as Se.
  pose proof (oi_ph _ _ _ _ _ _ Hi) as Hp. pose proof (total_ranges ps) as (?&?&?&?&?&?). pose proof (rx_takes_range rx).
  assert (E3 : ph = 3) by (unfold eqz in Tk; destruct (Z.eqb_spec ph 3); [done|lia]). assert (P0 : total pubs ps = 0) by lia.
  destruct slot_history as (v&Ev&Es); [unfold eqz in *; subst ph; simpl in *; lia|done|].
  unfold sender_goes. cbn [sender_step dec_step]. rewrite Ev. cbn [mbind option_bind]. do 4 eexists. exists 3. split; [done|].
  apply (sender_inv ph 3 ps k _ _ rx sh _ tk tk h (record (Some (E_dropped v)) h) Hi Hk); subst ph; rewrite ?P0, ?Ev; os_lia.
  - rewrite (oi_word _ _ _ _ _ _ Hi). f_equal. lia.
  - rewrite Es. by rewrite app_nil_r.
  - intros _ He Hg. eapply good_kept; [exact Hk|done|done|by right; right; left|exact Hg].
Qed.
End Steps.
End Senders.

(** ** The receiver moves *)

Section Receivers.
Context {T : Type}.
Notation shared := (OneShotShared T).
Implicit Types (sh : shared) (v : T) (p q : Sender T) (rx : Receiver) (weak tk : bool) (ps : list (Sender T)) (h : history T) (k : nat) (n ph cur : Z).

Lemma receiver_inv ph ph' ps rx rx' sh sh' tk tk' h (h' : history T) :
  oneshot_inv ph ps rx sh tk h →
  state sh' = word (total holds ps) (gone rx') ph' → 0 ≤ ph' ≤ 4 → eqz ph' 1 = eqz ph 1 →
  total takes ps + rx_takes rx' ≤ eqz ph' 3 →
  filled sh' - filled sh = rx_takes rx' - rx_takes rx + eqz ph' 2 - eqz ph 2 →
  sent h' = sent h → eqz ph' 2 + eqz ph' 3 = eqz ph 2 + eqz ph 3 →
  sent h = got h' ++ dropped h' ++ (if total pubs ps =? 0 then option_list (value_slot sh') else []) →
  (total pubs ps ≠ 0 → value_slot sh' = value_slot sh) → (ph' = 0 → ph = 0) →
  (ph' = 2 → gone rx' = true → total holds ps = 0 → reclaiming ps rx') →
  (∀ m cur, rx' = R_loop m cur → 0 ≤ phase cur ≤ 4 ∧ (phase cur = 3 → ph' = 3)) → (rx' = R_shut false → ph' = 4) →
  (registered rx' → receiver_waker sh' = true ∨ tk' = true) → (expects rx' ph' → good ph' ps sh' tk') →
  oneshot_inv ph' ps rx' sh' tk' h'.
Proof.
  intros Hi Hw Hph Hwr Htk Hsl Hse Hee Hhi Hpub Hem Hle Hcur Hsh Hrg Hgood. destruct Hi as [I1 I2 I3 I4 I5 I6 I7 I8 I9 I10 I11 I12 I13 I14 I17 I15 I16].
  split; rewrite ?Hse; try done; try lia.
  - intros k v Hk. rewrite Hpub; [by apply (I9 k)|]. pose proof (total_elem pubs ps k _ ltac:(intros q; destruct (holds_range q) as (?&?&?&?&?&?); lia) Hk) as H. simpl in H. lia.
  - intros H0. apply I12. auto.
Qed.

Lemma good_taken ps sh tk : good 2 ps sh tk → good 3 ps sh tk.
Proof. intros [->|[Hs [?|[?|?]]]]; [by left|done|done|]. right. split; [done|]. by right; right. Qed.

Section Steps.
Context weak ph ps rx sh tk h.
Context (Hi : oneshot_inv (T:=T) ph ps rx sh tk h).

Definition receiver_goes : Prop :=
  ∃ rx' sh' tk' e ph', receiver_step weak rx sh tk = Some (rx', sh', tk', e) ∧ oneshot_inv ph' ps rx' sh' tk' (record e h).

(** The receiver looked, or learned an answer. *)
Lemma receiver_quiet rx' tk' :
  gone rx' = gone rx → rx_takes rx' = rx_takes rx → (ph = 2 → gone rx = true → reclaiming ps rx → reclaiming ps rx') →
  (∀ m cur, rx' = R_loop m cur → 0 ≤ phase cur ≤ 4 ∧ (phase cur = 3 → ph = 3)) → (rx' = R_shut false → ph = 4) →
  (registered rx' → receiver_waker sh = true ∨ tk' = true) → (expects rx' ph → good ph ps sh tk') → oneshot_inv ph ps rx' sh tk' h.
Proof using Hi.
  intros Hg Ht Hre Hc Hs Hr Hx. apply (receiver_inv ph ph ps rx rx' sh sh tk tk' h h Hi); rewrite ?Hg, ?Ht; try done; try lia; try apply Hi.
  intros E2 Hgo Hn. apply Hre; [done|done|]. by apply (oi_leak _ _ _ _ _ _ Hi).
Qed.

(** [try_recv] reads the word. *)
Lemma reload m : rx = R_load m ∨ (∃ cur, rx = R_loop m cur) → oneshot_inv ph ps (R_loop m (state sh)) sh tk h.
Proof using Hi.
  intros Hrx. pose proof (state_phase _ _ _ _ _ _ Hi) as Ep. pose proof (oi_ph _ _ _ _ _ _ Hi).
  assert (Hreg : registered (R_loop m (state sh)) → receiver_waker sh = true ∨ tk = true).
  { intros Hr. apply (oi_reg _ _ _ _ _ _ Hi). destruct Hrx as [->|[cur ->]]; done. }
  apply receiver_quiet; try done.
  - destruct Hrx as [->|[cur ->]]; done.
  - destruct Hrx as [->|[cur ->]]; done.
  - by destruct Hrx as [->|[cur ->]].
  - intros m' cur [= <- <-]. by rewrite Ep.
  - intros He. destruct m; try done.
    + destruct (Hreg I) as [Hw| ->]; [|by left]. right. split; [done|]. simpl in He. rewrite Ep in He. tauto.
    + apply (oi_good _ _ _ _ _ _ Hi). by destruct Hrx as [->|[cur ->]].
Qed.

Lemma R_load_goes m : rx = R_load m → receiver_goes.
Proof using Hi. intros Erx. unfold receiver_goes. rewrite Erx. do 4 eexists. exists ph. split; [done|]. apply reload. by left. Qed.

(** An answer that ends the call. *)
Lemma idle_inv : gone rx = false → rx_takes rx = 0 → oneshot_inv ph ps R_idle sh tk h.
Proof using Hi. intros Hg Ht. apply receiver_quiet; rewrite ?Hg, ?Ht; done. Qed.

(** A pending future is as good as it was. *)
Lemma pending_inv : gone rx = false → rx_takes rx = 0 → expects rx ph → oneshot_inv ph ps R_pending sh tk h.
Proof using Hi.
  intros Hg Ht He. pose proof (oi_good _ _ _ _ _ _ Hi He) as Hgd. apply receiver_quiet; rewrite ?Hg, ?Ht; try done.
  intros _. destruct Hgd as [?|[? _]]; auto.
Qed.

Lemma no_takes : rx_takes rx = 0 → ph ≠ 3 → total takes ps = 0.
Proof using Hi.
  intros Ht Hp. pose proof (oi_taker _ _ _ _ _ _ Hi) as Tk. pose proof (total_ranges ps) as (_&_&?&_). unfold eqz in Tk. destruct (Z.eqb_spec ph 3); [done|]. lia.
Qed.

Lemma R_loop_goes m cur : rx = R_loop m cur → receiver_goes.
Proof using Hi.
  intros Erx. destruct (oi_cur _ _ _ _ _ _ Hi m cur Erx) as [Hcur H3]. pose proof (oi_slot _ _ _ _ _ _ Hi) as Sl.
  assert (Hagain : oneshot_inv ph ps (R_loop m (state sh)) sh tk h) by (apply reload; right; by exists cur).
  assert (Hidle : oneshot_inv ph ps (answered m) sh tk h) by (destruct m; [apply idle_inv..|apply pending_inv]; by rewrite Erx).
  assert (Hempty : phase cur = 0 ∨ phase cur = 1 ∨ phase cur = 3 → oneshot_inv ph ps (on_empty m) sh tk h).
  { intros Hp. destruct m; [done| | |done]; apply receiver_quiet; rewrite ?Erx; try done.
    - intros _. apply (oi_reg _ _ _ _ _ _ Hi). by rewrite Erx.
    - simpl. intros Hne. apply (oi_good _ _ _ _ _ _ Hi). rewrite Erx. simpl. destruct Hp as [?|[?|?]]; [by left|by right|]. exfalso. auto. }
  unfold receiver_goes. rewrite Erx. cbn [receiver_step try_recv_step]. pose proof (rx_takes_range rx) as Hrt.
  assert (Htr : rx_takes rx = 0) by (by rewrite Erx). pose proof (no_takes Htr) as Hnt. assert (Hg : gone rx = false) by (by rewrite Erx).
  destruct (Z.eqb_spec (phase cur) STATE_SENT) as [Ep|N2].
  { destruct (cas weak cur sh) eqn:Ec; [|by do 5 eexists]. destruct (cas_phase weak _ _ _ _ _ _ Hi cur STATE_TAKEN Ec ltac:(done)) as [-> Ew].
    rewrite (state_phase _ _ _ _ _ _ Hi) in Ep. rewrite Ew, Hg. do 4 eexists. exists 3. split; [done|]. unfold STATE_SENT in Ep. subst ph.
    apply (receiver_inv 2 3 ps rx _ sh _ tk tk h h Hi); rewrite ?Htr, ?(Hnt ltac:(done)); os_lia; [apply Hi|].
    destruct m; try done. intros _. apply good_taken, (oi_good _ _ _ _ _ _ Hi). by rewrite Erx. }
  destruct (Z.eqb_spec (phase cur) STATE_TAKEN) as [Ep|N3]; [do 5 eexists; split; [done|]; apply Hempty; auto|].
  destruct (Z.eqb_spec (phase cur) STATE_WRITING) as [Ep|N1]; [do 5 eexists; split; [done|]; apply Hempty; auto|]. cbn [orb].
  destruct (Z.eqb_spec (phase cur) STATE_CLOSED) as [Ep|N4]; [do 5 eexists; by split|].
  assert (E0 : phase cur = 0) by (unfold STATE_SENT, STATE_TAKEN, STATE_WRITING, STATE_CLOSED in *; lia).
  destruct (0 <? sender_count cur); [do 5 eexists; split; [done|]; apply Hempty; auto|].
  destruct (cas weak cur sh) eqn:Ec; [|by do 5 eexists]. destruct (cas_phase weak _ _ _ _ _ _ Hi cur STATE_CLOSED Ec ltac:(done)) as [-> Ew].
  rewrite (state_phase _ _ _ _ _ _ Hi) in E0. rewrite Ew, Hg. do 4 eexists. exists 4. split; [done|]. subst ph.
  apply (receiver_inv 0 4 ps rx _ sh _ tk tk h h Hi); rewrite ?Htr, ?(Hnt ltac:(done)); destruct m; os_lia; apply Hi.
Qed.

(** The value, for who may take it. *)
Lemma taken_value : rx_takes rx = 1 → ph = 3 ∧ total takes ps = 0 ∧ total pubs ps = 0 ∧ got h = [] ∧ dropped h = [] ∧ ∃ v, value_slot sh = Some v ∧ sent h = [v].
Proof using Hi.
  intros Ht. pose proof (oi_taker _ _ _ _ _ _ Hi) as Tk. pose proof (oi_slot _ _ _ _ _ _ Hi) as Sl. pose proof (oi_sent _ _ _ _ _ _ Hi) as Se.
  pose proof (oi_writer _ _ _ _ _ _ Hi) as W. pose proof (total_ranges ps) as (?&?&?&?&?&?). rewrite Ht in *.
  assert (E3 : ph = 3) by (unfold eqz in Tk; destruct (Z.eqb_spec ph 3); [done|lia]). subst ph. change (eqz 3 3) with 1 in *. change (eqz 3 2) with 0 in *. change (eqz 3 1) with 0 in *.
  assert (P0 : total pubs ps = 0) by lia. destruct (slot_history _ _ _ _ _ _ Hi) as (v&Ev&Es); [lia|done|].
  rewrite Es, !length_app in Se. simpl in Se. assert (got h = [] ∧ dropped h = []) as [Eg Ed].
  { destruct (got h), (dropped h); simpl in Se; try done; lia. }
  split; [done|]. split; [lia|]. split; [done|]. split; [done|]. split; [done|]. exists v. split; [done|]. by rewrite Es, Eg, Ed.
Qed.

Lemma R_take_goes m : rx = R_take m → receiver_goes.
Proof using Hi.
  intros Erx. destruct taken_value as (E3&Ht&Hp&Eg&Ed&v&Ev&Es); [by rewrite Erx|]. pose proof (oi_slot _ _ _ _ _ _ Hi) as Sl.
  unfold receiver_goes. rewrite Erx. cbn [receiver_step try_recv_step]. rewrite Ev. cbn [mbind option_bind]. do 4 eexists. exists 3. split; [done|]. subst ph.
  assert (Hgd : m = M_beside → good 3 ps sh tk) by (intros ->; apply (oi_good _ _ _ _ _ _ Hi); by rewrite Erx).
  assert (Et : rx_takes (answered m) = 0) by (by destruct m). assert (Eo : gone (answered m) = false) by (by destruct m).
  apply (receiver_inv 3 3 ps rx _ sh _ tk tk h (record (Some (E_got v)) h) Hi); rewrite ?Ht, ?Hp, ?Erx, ?Et, ?Eo; os_lia.
  - rewrite (oi_word _ _ _ _ _ _ Hi), Erx. done.
  - by rewrite Ev.
  - by rewrite Es, Eg, Ed.
  - by destruct m.
  - by destruct m.
  - destruct m; try done. intros _. destruct (Hgd eq_refl) as [?|[? _]]; auto.
  - destruct m; try done. intros _. by apply Hgd.
Qed.

Lemma R_drop_value_goes fut : rx = R_drop_value fut → receiver_goes.
Proof using Hi.
  intros Erx. destruct taken_value as (E3&Ht&Hp&Eg&Ed&v&Ev&Es); [by rewrite Erx|]. pose proof (oi_slot _ _ _ _ _ _ Hi) as Sl.
  unfold receiver_goes. rewrite Erx. cbn [receiver_step drop_step]. rewrite Ev. cbn [mbind option_bind]. do 4 eexists. exists 3. split; [done|]. subst ph.
  assert (Et : rx_takes (drop_end fut) = 0) by (by destruct fut). assert (Eo : gone (drop_end fut) = true) by (by destruct fut).
  apply (receiver_inv 3 3 ps rx _ sh _ tk tk h (record (Some (E_dropped v)) h) Hi); rewrite ?Ht, ?Hp, ?Erx, ?Et, ?Eo; os_lia.
  - rewrite (oi_word _ _ _ _ _ _ Hi), Erx. done.
  - by rewrite Ev.
  - by rewrite Es, Eg, Ed.
  - by destruct fut.
  - by destruct fut.
  - by destruct fut.
  - by destruct fut.
Qed.

Lemma R_phase_goes second : rx = R_phase second → receiver_goes.
Proof using Hi.
  intros Erx. unfold receiver_goes. rewrite Erx. cbn [receiver_step poll_step]. rewrite (state_phase _ _ _ _ _ _ Hi). do 4 eexists. exists ph. split; [done|].
  destruct (Z.eqb_spec ph STATE_TAKEN) as [E3|N3]; [apply idle_inv; by rewrite Erx|]. destruct second; apply receiver_quiet; rewrite ?Erx; try done.
  - intros _. apply (oi_reg _ _ _ _ _ _ Hi). by rewrite Erx.
  - intros _. apply (oi_good _ _ _ _ _ _ Hi). by rewrite Erx.
Qed.

Lemma R_register_goes : rx = R_register → receiver_goes.
Proof using Hi.
  intros Erx. unfold receiver_goes. rewrite Erx. do 4 eexists. exists ph. split; [done|].
  apply (receiver_inv ph ph ps rx _ sh _ tk tk h h Hi); rewrite ?Erx; try done; try apply Hi; try lia.
  - simpl. rewrite (oi_word _ _ _ _ _ _ Hi), Erx. done.
  - pose proof (oi_taker _ _ _ _ _ _ Hi) as Tk. by rewrite Erx in Tk.
  - unfold filled. simpl. lia.
  - by left.
Qed.

Lemma R_pending_goes : rx = R_pending → tk = true → receiver_goes.
Proof using Hi.
  intros Erx Et. unfold receiver_goes. rewrite Erx. cbn [receiver_step poll_step]. rewrite Et. do 4 eexists. exists ph. split; [done|].
  apply receiver_quiet; rewrite ?Erx; done.
Qed.

(** A future polled again. *)
Lemma poll_inv closed : future_of rx = Some closed → oneshot_inv ph ps (poll closed) sh false h ∧ oneshot_inv ph ps (poll closed) sh tk h.
Proof using Hi.
  intros Hf. assert (Hrx : rx = R_pending ∧ closed = false ∨ rx = R_shut closed) by (clear Hi; destruct rx as [| | | | | | | | |[]|]; naive_solver).
  assert (Ht : rx_takes rx = 0) by (by destruct Hrx as [[-> _]| ->]).
  assert (Hg : gone (poll closed) = gone rx) by (destruct Hrx as [[-> ->]| ->]; [done|by destruct closed]).
  assert (Hr : reclaiming ps rx → reclaiming ps (poll closed)) by (intros [?|(?&?&E&_)]; [by left|by destruct Hrx as [[-> _]| ->]]).
  split; apply receiver_quiet; rewrite ?Ht, ?Hg; auto; by destruct closed.
Qed.

Lemma R_shut_goes closed : rx = R_shut closed → tk = true → receiver_goes.
Proof using Hi.
  intros Erx Et. unfold receiver_goes. rewrite Erx. cbn [receiver_step poll_step]. rewrite Et. do 4 eexists. exists ph. split; [done|].
  apply poll_inv. rewrite Erx. by destruct closed.
Qed.

Lemma R_drop_loop_goes fut cur : rx = R_drop_loop fut cur → receiver_goes.
Proof using Hi.
  intros Erx. pose proof (oi_slot _ _ _ _ _ _ Hi) as Sl. pose proof (oi_taker _ _ _ _ _ _ Hi) as Tk.
  assert (Hagain : oneshot_inv ph ps (R_drop_loop fut (state sh)) sh tk h).
  { apply receiver_quiet; rewrite ?Erx; try done. intros E2 _ _. right. exists fut, (state sh). split; [done|]. right. by rewrite (state_phase _ _ _ _ _ _ Hi). }
  unfold receiver_goes. rewrite Erx. cbn [receiver_step drop_step]. pose proof (total_ranges ps) as (?&?&?&?&?&?).
  assert (Hg : gone rx = true) by (by rewrite Erx). assert (Htr : rx_takes rx = 0) by (by rewrite Erx). pose proof (no_takes Htr) as Hnt.
  destruct (Z.eqb_spec (phase cur) STATE_EMPTY) as [Ep|N0].
  { destruct (cas weak cur sh) eqn:Ec; [|by do 5 eexists]. destruct (cas_phase weak _ _ _ _ _ _ Hi cur STATE_CLOSED Ec ltac:(done)) as [-> Ew].
    rewrite (state_phase _ _ _ _ _ _ Hi) in Ep. rewrite Ew, Hg. do 4 eexists. exists 4. split; [done|]. unfold STATE_EMPTY in Ep. subst ph.
    apply (receiver_inv 0 4 ps rx _ sh _ tk tk h h Hi); rewrite ?Htr, ?(Hnt ltac:(done)); destruct fut; os_lia; apply Hi. }
  destruct (Z.eqb_spec (phase cur) STATE_SENT) as [Ep|N2].
  { destruct (cas weak cur sh) eqn:Ec; [|by do 5 eexists]. destruct (cas_phase weak _ _ _ _ _ _ Hi cur STATE_TAKEN Ec ltac:(done)) as [-> Ew].
    rewrite (state_phase _ _ _ _ _ _ Hi) in Ep. rewrite Ew, Hg. do 4 eexists. exists 3. split; [done|]. unfold STATE_SENT in Ep. subst ph.
    apply (receiver_inv 2 3 ps rx _ sh _ tk tk h h Hi); rewrite ?Htr, ?(Hnt ltac:(done)); os_lia. apply Hi. }
  do 4 eexists. exists ph. split; [done|]. apply receiver_quiet; rewrite ?Erx; try (by destruct fut).
  intros E2 _ [Hl|(fut'&cur'&[= <- <-]&[?|?])]; [by left|done..].
Qed.
End Steps.
End Receivers.

(** ** The channel *)

Section Channel.
Context {T : Type}.
Notation shared := (OneShotShared T).
Implicit Types (sh : shared) (v : T) (p q : Sender T) (rx : Receiver) (weak tk : bool) (ps : list (Sender T)) (h : history T) (k : nat) (n ph cur : Z).

Definition start : system (T:=T) := ([S_idle], R_idle, new, false, mk_history [] [] []).

(** A handle that is not used now; a receiver that waits for its waker. *)
Definition at_rest p : Prop := p = S_idle ∨ ∃ r, p = S_done r.
Definition asleep rx tk : Prop := is_Some (future_of rx) ∧ tk = false.

Definition is_receiver_dropped sh : bool := rx_dropped (state sh).
Definition is_sent sh : bool := let p := phase (state sh) in (p =? STATE_SENT) || (p =? STATE_TAKEN).

(** [Drop] of the shared state: the values it drops. *)
Definition drop_shared sh : option (list T) := if phase (state sh) =? STATE_SENT then v ← value_slot sh; Some [v] else Some [].

Lemma start_inv : oneshot_inv 0 [S_idle] R_idle (new (T:=T)) false (mk_history [] [] []).
Proof. split; rewrite ?total_cons; simpl; try done. by intros [|k] v. Qed.

Lemma sender_moves weak ph ps k p rx sh tk h :
  oneshot_inv ph ps rx sh tk h → ps !! k = Some p → ¬ at_rest p → sender_goes weak ph ps k p rx sh tk h.
Proof.
  intros Hi Hk Hr.
  destruct p; first [by destruct Hr; left|by destruct Hr; right; eexists|by eapply S_send_goes|by eapply S_loop_goes|by eapply S_check_goes|by eapply S_undo_goes
    |by eapply S_write_goes|by eapply S_publish_goes|by eapply S_wake_goes|by eapply S_dec_goes|by eapply S_close_goes|by eapply S_close_wake_goes|by eapply S_drop_value_goes].
Qed.

Lemma receiver_moves weak ph ps rx sh tk h :
  oneshot_inv ph ps rx sh tk h → rx ≠ R_idle → rx ≠ R_done → ¬ asleep rx tk → receiver_goes weak ps rx sh tk h.
Proof.
  intros Hi Hn Hd Ha.
  destruct rx; try done;
    try first [by eapply R_load_goes|by eapply R_loop_goes|by eapply R_take_goes|by eapply R_phase_goes|by eapply R_register_goes|by eapply R_drop_loop_goes|by eapply R_drop_value_goes].
  all: destruct tk; [|destruct Ha; split; [|done]; by eexists + by destruct closed; eexists].
  - by eapply R_pending_goes.
  - by eapply R_shut_goes.
Qed.

(** A handle is cloned. *)
Lemma clone_inv ph ps k rx sh tk h :
  oneshot_inv ph ps rx sh tk h → ps !! k = Some S_idle → Z.of_nat (length ps) + 1 < 2 ^ 60 →
  oneshot_inv ph (ps ++ [S_idle]) rx (set_state (state sh +w COUNT_UNIT) sh) tk h.
Proof.
  intros Hi Hk Hn. pose proof (senders_range _ _ _ _ _ _ Hi) as Hr. pose proof (oi_ph _ _ _ _ _ _ Hi) as Hp. pose proof (holds_elem _ _ _ Hk) as Hh. simpl in Hh.
  pose proof (total_ranges ps) as (?&?&?&?&?&?).
  assert (Ew : state sh +w COUNT_UNIT = word (total holds ps + 1) (gone rx) ph).
  { rewrite (oi_word _ _ _ _ _ _ Hi). change COUNT_UNIT with 16. rewrite u64_add_small; [unfold word; lia|..]; unfold word, U64; destruct (gone rx); lia. }
  destruct Hi as [I1 I2 I3 I4 I5 I6 I7 I8 I9 I10 I11 I12 I13 I14 I17 I15 I16]. split; rewrite ?total_snoc, ?length_app; simpl; rewrite ?Z.add_0_r; try done; try lia.
  - intros j v [Hj|[_ Hj]]%lookup_app_Some; [by apply (I9 j)|]. by destruct (j - length ps)%nat.
  - intros He. destruct (I16 He) as [?|[? [?|[?|?]]]]; [by left|right; split; [done|]..]; [by left|by right; left|]. right; right. rewrite total_snoc. simpl. lia.
Qed.

(** The receiver starts to close or drop its handle. *)
Lemma receiver_close_inv ph ps rx sh tk h fut :
  oneshot_inv ph ps rx sh tk h → may_close rx = Some fut →
  oneshot_inv ph ps (mark_receiver_dropped fut sh).1 (mark_receiver_dropped fut sh).2 tk h.
Proof.
  intros Hi Hm. pose proof (ph_range _ _ _ _ _ _ Hi) as Hp. pose proof (oi_ph _ _ _ _ _ _ Hi). pose proof (oi_taker _ _ _ _ _ _ Hi) as Ht.
  assert (Et : rx_takes rx = 0) by (by destruct rx). rewrite Et in Ht.
  assert (Ew : Z.lor (state sh) RX_DROPPED = word (total holds ps) true ph) by (rewrite (oi_word _ _ _ _ _ _ Hi); by apply drop_word).
  unfold mark_receiver_dropped. rewrite Ew. apply (receiver_inv ph ph ps rx _ sh _ tk tk h h Hi); rewrite ?Et; try done; try lia; try apply Hi; try (unfold filled; simpl; lia).
  intros E2 _ _. right. do 2 eexists. split; [done|]. right. by rewrite phase_word.
Qed.

Lemma oneshot_step_inv s s' :
  oneshot_step (T:=T) s s' → Z.of_nat (length s'.1.1.1.1) < 2 ^ 60 → (∃ ph, oneshot_inv ph s.1.1.1.1 s.1.1.1.2 s.1.1.2 s.1.2 s.2) → ∃ ph, oneshot_inv ph s'.1.1.1.1 s'.1.1.1.2 s'.1.1.2 s'.1.2 s'.2.
Proof.
  intros Hst Hn [ph Hi]. destruct Hst as [ps rx sh tk h weak k p p' sh' tk' e Hk Hst|ps rx sh tk h weak rx' sh' tk' e Hst|ps rx sh tk h k v Hk|ps rx sh tk h k Hk
    |ps rx sh tk h k Hk|ps sh tk h m Hm|ps sh tk h|ps rx sh tk h closed Hf|ps rx sh tk h closed Hf|ps rx sh tk h fut Hf]; simpl in *.
  - destruct (sender_moves weak _ _ _ _ _ _ _ _ Hi Hk) as (q&sh1&tk1&e1&ph1&E&Hi1); [by intros [->|[r ->]]|]. rewrite E in Hst. injection Hst as -> -> -> ->. by exists ph1.
  - destruct (receiver_moves weak _ _ _ _ _ _ Hi) as (q&sh1&tk1&e1&ph1&E&Hi1); [by intros ->|by intros ->|by intros [[? Hf] ->]; destruct rx|].
    rewrite E in Hst. injection Hst as -> -> -> ->. by exists ph1.
  - exists ph. apply (sender_quiet _ _ _ _ _ _ _ _ _ Hi Hk); try done; intros _; first [by apply (closing_kept _ _ _ _ Hk)|intros _; by apply (reclaiming_kept _ _ _ _ _ Hk)].
  - exists ph. apply (sender_quiet _ _ _ _ _ _ _ _ _ Hi Hk); try done; intros _; first [by apply (closing_kept _ _ _ _ Hk)|intros _; by apply (reclaiming_kept _ _ _ _ _ Hk)].
  - exists ph. apply (clone_inv _ _ k); [done..|]. rewrite length_app in Hn. simpl in Hn. lia.
  - exists ph. apply (receiver_quiet _ _ _ _ _ _ Hi); try done; by destruct Hm as [->| ->].
  - exists ph. apply (receiver_quiet _ _ _ _ _ _ Hi); try done; intros _; by apply (oi_good _ _ _ _ _ _ Hi).
  - exists ph. by apply (poll_inv _ _ _ _ _ _ Hi).
  - exists ph. destruct rx as [| | | | | | | | |[]|]; try done; simplify_eq/=; apply (receiver_quiet _ _ _ _ _ _ Hi); try done.
    intros _ _ [?|(?&?&[=]&_)]. by left.
  - exists ph. by apply (receiver_close_inv _ _ rx).
Qed.

Lemma oneshot_step_length s s' : oneshot_step (T:=T) s s' → (length s.1.1.1.1 ≤ length s'.1.1.1.1)%nat.
Proof. intros []; simpl; rewrite ?length_insert, ?length_app; lia. Qed.

Lemma oneshot_reached s : rtc oneshot_step start s → Z.of_nat (length s.1.1.1.1) < 2 ^ 60 → ∃ ph, oneshot_inv ph s.1.1.1.1 s.1.1.1.2 s.1.1.2 s.1.2 s.2.
Proof.
  revert s. refine (rtc_ind_r _ start _ _); [intros _; exists 0; apply start_inv|]. intros s1 s2 _ Hst IH Hn.
  apply (oneshot_step_inv s1); [done..|]. apply IH. pose proof (oneshot_step_length _ _ Hst). lia.
Qed.

Lemma rest_zero (w : Sender T → Z) ps : (∀ p, at_rest p → w p = 0) → (∀ k p, ps !! k = Some p → at_rest p) → total w ps = 0.
Proof.
  intros Hw Hr. induction ps as [|p ps IH]; [done|]. rewrite total_cons, (Hw p (Hr 0%nat p eq_refl)), IH; [done|]. intros k. apply (Hr (S k)).
Qed.

Lemma idle_exists ps : 0 < total holds ps → (∀ k p, ps !! k = Some p → at_rest p) → ∃ k, ps !! k = Some S_idle.
Proof.
  induction ps as [|p ps IH]; [done|]. rewrite total_cons. intros Hn Hr. destruct (Hr 0%nat p eq_refl) as [->|[r ->]]; [by exists 0%nat|].
  destruct IH as [k Hk]; [simpl in Hn; lia|intros k; apply (Hr (S k))|]. by exists (S k).
Qed.

(** C13: From creation, under any interleaving with any clones, at most one value is ever sent; exactly the [send]s that
    sent it answer [Ok], and the handles' [is_sent] and [is_closed] say whether it was sent and the receiver is gone; every value sent was received, or dropped, or is still in the slot, once; nobody gets stuck on
    an uninitialised slot; and once every handle is gone the value was received or dropped: none is left for the shared
    state's own [Drop]. *)
Theorem oneshot_delivers_once ps rx sh tk h :
  rtc oneshot_step start (ps, rx, sh, tk, h) → Z.of_nat (length ps) < 2 ^ 60 →
  (length (sent h) ≤ 1)%nat ∧ total oks ps = Z.of_nat (length (sent h)) ∧ is_sent sh = (0 <? Z.of_nat (length (sent h))) ∧ is_receiver_dropped sh = gone rx ∧
  (∃ left, sent h = got h ++ dropped h ++ left ∧ (left = [] ∨ left = option_list (value_slot sh))) ∧
  (∀ k p weak, ps !! k = Some p → ¬ at_rest p → is_Some (sender_step weak p sh tk)) ∧
  (∀ weak, rx ≠ R_idle → rx ≠ R_done → ¬ asleep rx tk → is_Some (receiver_step weak rx sh tk)) ∧
  ((∀ k p, ps !! k = Some p → ∃ r, p = S_done r) → rx = R_done → sent h = got h ++ dropped h ∧ value_slot sh = None ∧ drop_shared sh = Some []).
Proof.
  intros Hr Hn. destruct (oneshot_reached _ Hr Hn) as [ph Hi]. simpl in Hi. pose proof (oi_sent _ _ _ _ _ _ Hi) as Se. pose proof (oi_hist _ _ _ _ _ _ Hi) as Hh.
  split; [unfold eqz in Se; destruct (Z.eqb_spec ph 2), (Z.eqb_spec ph 3); lia|]. split; [apply Hi|].
  split; [unfold is_sent; rewrite (state_phase _ _ _ _ _ _ Hi), Se; unfold eqz, STATE_SENT, STATE_TAKEN; by destruct (Z.eqb_spec ph 2), (Z.eqb_spec ph 3); subst|].
  split; [apply (state_dropped _ _ _ _ _ _ Hi)|].
  split; [eexists; split; [exact Hh|]; destruct (total pubs ps =? 0); [by right|by left]|].
  split; [intros k p weak Hk Hp; destruct (sender_moves weak _ _ _ _ _ _ _ _ Hi Hk Hp) as (?&?&?&?&?&->&_); by eexists|].
  split; [intros weak H1 H2 H3; destruct (receiver_moves weak _ _ _ _ _ _ Hi H1 H2 H3) as (?&?&?&?&?&->&_); by eexists|].
  intros Hd ->. assert (Hrest : ∀ k p, ps !! k = Some p → at_rest p) by (intros k p Hk; right; by apply (Hd k)).
  assert (Hz : total holds ps = 0).
  { pose proof (senders_range _ _ _ _ _ _ Hi). destruct (decide (0 < total holds ps)) as [Hp|]; [|lia]. destruct (idle_exists ps Hp Hrest) as [k Hk]. by destruct (Hd k _ Hk). }
  pose proof (rest_zero pubs ps ltac:(by intros p [->|[r ->]]) Hrest) as Pz. pose proof (rest_zero takes ps ltac:(by intros p [->|[r ->]]) Hrest) as Tz.
  assert (N2 : ph ≠ 2).
  { intros E. destruct (oi_leak _ _ _ _ _ _ Hi E eq_refl Hz) as [(k&r&cur&Hk&_)|(fut&cur&[=]&_)]. by destruct (Hd k _ Hk). }
  pose proof (oi_slot _ _ _ _ _ _ Hi) as Sl. rewrite Pz, Tz in *. unfold eqz in Sl. simpl in Sl. destruct (Z.eqb_spec ph 2); [done|].
  assert (Ev : value_slot sh = None) by (unfold filled in Sl; by destruct (value_slot sh)). rewrite Ev in Hh. simpl in Hh. rewrite app_nil_r in Hh.
  split; [done|]. split; [done|]. unfold drop_shared. rewrite (state_phase _ _ _ _ _ _ Hi). by destruct (Z.eqb_spec ph STATE_SENT).
Qed.

(** C14: The receiver's task is not forgotten: it sleeps, with no sender in the middle of a call, only while nothing was
    sent and somebody still holds a sender, unless the receiver itself closed the channel while its future was pending: by
    [close], so that the word says the receiver is gone, or by a [try_recv] that found no sender left, so that the word says
    closed.  Then nobody promises a wake ([close_forgets] and [try_recv_forgets] below are runs that end so). *)
Theorem oneshot_no_lost_wakeup ps rx sh tk h :
  rtc oneshot_step start (ps, rx, sh, tk, h) → Z.of_nat (length ps) < 2 ^ 60 → (∀ k p, ps !! k = Some p → at_rest p) → asleep rx tk →
  (rx = R_pending ∧ sent h = [] ∧ ∃ k, ps !! k = Some S_idle) ∨
  ∃ closed, rx = R_shut closed ∧ if closed then is_receiver_dropped sh = true else phase (state sh) = STATE_CLOSED.
Proof.
  intros Hr Hn Hrest [[closed Hf] ->]. destruct (oneshot_reached _ Hr Hn) as [ph Hi]. simpl in Hi.
  destruct rx as [| | | | | | | | |closed'|]; try done; [left; split; [done|]|right; exists closed'; split; [done|]].
  2: { destruct closed'; [apply (state_dropped _ _ _ _ _ _ Hi)|]. rewrite (state_phase _ _ _ _ _ _ Hi). by apply (oi_shut _ _ _ _ _ _ Hi). }
  pose proof (rest_zero writes ps ltac:(by intros p [->|[r ->]]) Hrest) as Wz. pose proof (rest_zero wakes ps ltac:(by intros p [->|[r ->]]) Hrest) as Kz.
  pose proof (oi_writer _ _ _ _ _ _ Hi) as W. pose proof (oi_sent _ _ _ _ _ _ Hi) as Se. rewrite Wz in W.
  assert (E0 : ph = 0).
  { destruct (oi_good _ _ _ _ _ _ Hi I) as [?|[_ [?|[->|?]]]]; [done|done|done|lia]. }
  subst ph. split; [destruct (sent h); [done|simpl in Se; done || lia]|]. apply idle_exists; [|done]. pose proof (total_ranges ps) as (?&?&?&?&?&?).
  destruct (decide (total holds ps = 0)) as [Hz|]; [|lia]. destruct (oi_empty _ _ _ _ _ _ Hi eq_refl Hz) as (k&r&cur&Hk&_). by destruct (Hrest k _ Hk) as [|[? ?]].
Qed.
End Channel.

(** ** A run *)

Inductive turn := Send (k : nat) (value : Z) | Drop (k : nat) | Clone (k : nat) | Recv (m : Mode) | Close_receiver | Step (k : nat) | Step_receiver.

Definition oneshot_turn (s : system (T:=Z)) (t : turn) : option (system (T:=Z)) :=
  let '(ps, rx, sh, tk, h) := s in
  match t with
  | Send k v => match ps !! k with Some S_idle => Some (<[k:=S_send v]> ps, rx, sh, tk, h) | _ => None end
  | Drop k => match ps !! k with Some S_idle => Some (<[k:=S_dec Unsent]> ps, rx, sh, tk, h) | _ => None end
  | Clone k => match ps !! k with Some S_idle => Some (ps ++ [S_idle], rx, set_state (state sh +w COUNT_UNIT) sh, tk, h) | _ => None end
  | Recv m => match rx, m with R_idle, (M_try | M_first) | R_pending, M_beside => Some (ps, R_load m, sh, tk, h) | _, _ => None end
  | Close_receiver => fut ← may_close rx; Some (ps, (mark_receiver_dropped fut sh).1, (mark_receiver_dropped fut sh).2, tk, h)
  | Step k => p ← ps !! k; '(p', sh', tk', e) ← sender_step false p sh tk; Some (<[k:=p']> ps, rx, sh', tk', record e h)
  | Step_receiver => '(rx', sh', tk', e) ← receiver_step false rx sh tk; Some (ps, rx', sh', tk', record e h)
  end.

Fixpoint oneshot_run (s : system (T:=Z)) (turns : list turn) : option (system (T:=Z)) :=
  match turns with [] => Some s | t :: turns => s ← oneshot_turn s t; oneshot_run s turns end.

Lemma oneshot_turn_step s t s' : oneshot_turn s t = Some s' → oneshot_step s s'.
Proof.
  destruct s as [[[[ps rx] sh] tk] h]. destruct t as [k v|k|k|m| |k|]; cbn [oneshot_turn].
  - intros H. repeat case_match; simplify_eq. by constructor.
  - intros H. repeat case_match; simplify_eq. by constructor.
  - intros H. repeat case_match; simplify_eq. by apply (step_clone _ _ _ _ _ k).
  - intros H. destruct rx, m; simplify_eq; constructor; auto.
  - intros (fut&Hf&[= <-])%bind_Some. by constructor.
  - intros (p&Hk&([[[p1 sh1] tk1] e1]&Hst&[= <-])%bind_Some)%bind_Some. by apply (step_sender _ _ _ _ _ false k p).
  - intros ([[[p1 sh1] tk1] e1]&Hst&[= <-])%bind_Some. by apply (step_receiver _ _ _ _ _ false).
Qed.

Lemma oneshot_run_steps s turns s' : oneshot_run s turns = Some s' → rtc oneshot_step s s'.
Proof.
  revert s. induction turns as [|t turns IH]; intros s; cbn [oneshot_run]; [by intros [= ->]|].
  intros (s1&H1&H2)%bind_Some. apply (rtc_l _ _ s1); [by apply (oneshot_turn_step _ t)|by apply IH].
Qed.

(** The receiver goes between a sender's check and its publication: the last handle drops the value. *)
Definition reclaim_turns : list turn :=
  [Send 0 7; Step 0; Step 0; Step 0; Close_receiver; Step_receiver; Step 0; Step 0; Step 0; Step 0; Step 0; Step 0].

(** The receiver polls; of two clones that send, one wins, and wakes it. *)
Definition race_turns : list turn :=
  [Clone 0; Recv M_first] ++ replicate 7 Step_receiver ++ [Send 0 7; Send 1 8; Step 0] ++ replicate 6 (Step 1) ++
  replicate 4 Step_receiver ++ [Step 0; Step 0; Step 0; Step 1; Step 1; Close_receiver; Step_receiver].

(** The receiver polls; one of two handles goes. *)
Definition sleep_turns : list turn := [Clone 0; Recv M_first] ++ replicate 7 Step_receiver ++ [Drop 0; Step 0].

Definition run_end turns : system (T:=Z) := default start (oneshot_run start turns).

Lemma race_wins :
  run_end race_turns = ([S_done (Err_sent 7); S_done Ok_sent], R_done, mk_shared 11 None false, false, mk_history [8] [8] []).
Proof. by vm_compute. Qed.

(** The future is pending; its receiver is closed, and the last sender goes, without a wake: the future sleeps. *)
Definition close_turns : list turn :=
  [Recv M_first] ++ replicate 7 Step_receiver ++ [Close_receiver; Step_receiver; Drop 0; Step 0; Step 0].

(** So it does when the last sender has stopped counting, and [try_recv] closes the channel before that sender. *)
Definition beside_turns : list turn :=
  [Recv M_first] ++ replicate 7 Step_receiver ++ [Drop 0; Step 0; Recv M_beside; Step_receiver; Step_receiver; Step 0; Step 0].

Example close_forgets : run_end close_turns = ([S_done Unsent], R_shut true, mk_shared 12 None true, false, mk_history [] [] []).
Proof. by vm_compute. Qed.

Example try_recv_forgets : run_end beside_turns = ([S_done Unsent], R_shut false, mk_shared 4 None true, false, mk_history [] [] []).
Proof. by vm_compute. Qed.

Lemma oneshot_delivers_once_witness :
  ∃ ps rx sh tk h, rtc oneshot_step start (ps, rx, sh, tk, h) ∧ sent h = [7] ∧ dropped h = [7] ∧ sent h = got h ++ dropped h ∧ drop_shared sh = Some [].
Proof.
  assert (Hr : rtc oneshot_step start ([S_done Ok_sent], R_done, mk_shared 11 None false, false, mk_history [7] [] [7])).
  { apply (oneshot_run_steps start reclaim_turns). by vm_compute. }
  do 5 eexists. split; [exact Hr|]. split; [done|]. split; [done|].
  pose proof (oneshot_delivers_once _ _ _ _ _ Hr ltac:(done)) as (_&_&_&_&_&_&_&Hend).
  destruct Hend as (E&_&Ed); [intros [|k] p; [intros [= <-]; by eexists|done]|done|]. by split.
Defined.

Lemma oneshot_no_lost_wakeup_witness :
  ∃ ps sh h, rtc oneshot_step start (ps, R_pending, sh, false, h) ∧ length ps = 2%nat ∧ ∃ k, ps !! k = Some (S_idle (T:=Z)).
Proof.
  assert (Hr : rtc oneshot_step start ([S_done Unsent; S_idle], R_pending, mk_shared 16 None true, false, mk_history [] [] [] : history Z)).
  { apply (oneshot_run_steps start sleep_turns). by vm_compute. }
  do 3 eexists. split; [exact Hr|]. split; [done|].
  destruct (oneshot_no_lost_wakeup _ _ _ _ _ Hr ltac:(done)) as [(_&_&Hk)|(?&[=]&_)]; [|split; [by eexists|done]|exact Hk].
  intros [|[|k]] p; [intros [= <-]; right; by eexists|intros [= <-]; by left|done].
Defined.
