(* ===== verification/SpscCore.v ===== *)
(** * The bounded SPSC channel ([channels/src/spsc/shared.rs], [bounded_sync.rs], [bounded_async.rs])

    A lock-free ring: the producer alone writes [tail], the consumer alone writes [head],
    each trusts a private copy of the other's index and refreshes it before it reports
    full or empty.  A side that has to wait registers itself, looks again, and sleeps; the
    other side wakes it after it moved its index.  [producer_step] and [consumer_step] are
    one atomic access each (with the accesses to data that only the caller touches, or that
    one lock protects); the two interleave.  The calls of the handles are
    [try_send], [send], [send_batch], [try_send_batch], [SendFuture], [try_recv], [recv],
    [recv_timeout], [try_recv_batch], [ReceiveFuture], [close], drop and the conversions. *)

From S2P Require Import Prelude Ring.

(** ** Data *)

Record Ring (T : Type) := mk_ring { buf : list (option T); mask : Z; cap : Z; tail : Z; cached_head : Z; head : Z; cached_tail : Z }.
Arguments mk_ring {T}.
Arguments buf {T}.
Arguments mask {T}.
Arguments cap {T}.
Arguments tail {T}.
Arguments cached_head {T}.
Arguments head {T}.
Arguments cached_tail {T}.

Inductive WakeRef := Thread | Waker.
Inductive Role := Send | Recv.

(** A waiter's pointer to [notified] may be null; [true]: it is not. *)
Record SpscShared (T : Type) := mk_shared {
  ring : Ring T;
  sender_count : Z;
  receiver_count : Z;
  producer_dropped : bool;
  consumer_dropped : bool;
  producer_waiter : option (WakeRef * bool);
  consumer_waiter : option (WakeRef * bool);
  send_waiters : Z;
  recv_waiters : Z;
}.
Arguments mk_shared {T}.
Arguments ring {T}.
Arguments sender_count {T}.
Arguments receiver_count {T}.
Arguments producer_dropped {T}.
Arguments consumer_dropped {T}.
Arguments producer_waiter {T}.
Arguments consumer_waiter {T}.
Arguments send_waiters {T}.
Arguments recv_waiters {T}.

(** A side's own: its handle's [closed], the [notified] of the call it is in ([None]: it is
    gone with the call), and the token of its thread (or the pending wake of its task). *)
Record Local := mk_local { closed : bool; notified : option bool; token : bool }.

(** Which call a push belongs to; [again]: not its first attempt; [reg]: [is_registered]. *)
Inductive SendOp := O_try | O_send (again reg : bool) | O_poll (again reg : bool) | O_try_batch | O_batch (again reg : bool).

(** [left] pushes remain of a [write_batch], which wrote some; [sent] in the whole call. *)
Record SendFrame (T : Type) := mk_sf { op : SendOp; items : list T; left : nat; wrote : bool; sent : nat }.
Arguments mk_sf {T}.
Arguments op {T}.
Arguments items {T}.
Arguments left {T}.
Arguments wrote {T}.
Arguments sent {T}.

Inductive Reason := Full | Closed.
Inductive SendResult (T : Type) := Ok_sent (n : nat) | Err_send (r : Reason) (n : nat) (unsent : list T).
Arguments Ok_sent {T}.
Arguments Err_send {T}.

Inductive Producer (T : Type) :=
  | P_idle (r : option (SendResult T)) | P_look (f : SendFrame T)
  | P_push (f : SendFrame T) | P_refresh (f : SendFrame T) | P_write (f : SendFrame T) | P_publish (f : SendFrame T)
  | P_free (f : SendFrame T) | P_reason (f : SendFrame T) | P_register (f : SendFrame T) | P_unregister (f : SendFrame T) (ok : bool)
  | P_notify (f : SendFrame T) | P_wake (f : SendFrame T) | P_unpark (f : SendFrame T)
  | P_park (f : SendFrame T) | P_swap (f : SendFrame T) | P_pending (f : SendFrame T) | P_cancel
  | P_drop (gone : bool) | P_count (gone : bool) | P_close_wake (gone : bool) | P_close_unpark (gone : bool) | P_gone.
Arguments P_idle {T}.
Arguments P_look {T}.
Arguments P_push {T}.
Arguments P_refresh {T}.
Arguments P_write {T}.
Arguments P_publish {T}.
Arguments P_free {T}.
Arguments P_reason {T}.
Arguments P_register {T}.
Arguments P_unregister {T}.
Arguments P_notify {T}.
Arguments P_wake {T}.
Arguments P_unpark {T}.
Arguments P_park {T}.
Arguments P_swap {T}.
Arguments P_pending {T}.
Arguments P_cancel {T}.
Arguments P_drop {T}.
Arguments P_count {T}.
Arguments P_close_wake {T}.
Arguments P_close_unpark {T}.
Arguments P_gone {T}.

Inductive RecvOp := R_try | R_recv (timed again reg : bool) | R_poll (again reg : bool) | R_batch.

(** [last]: the pop after all senders were seen gone; [left] pops remain of a [read_batch] that has [got]. *)
Record RecvFrame (T : Type) := mk_rf { rop : RecvOp; last : bool; rleft : nat; got : list T }.
Arguments mk_rf {T}.
Arguments rop {T}.
Arguments last {T}.
Arguments rleft {T}.
Arguments got {T}.

Inductive RecvResult (T : Type) := Ok_got (xs : list T) | Err_empty | Err_disconnected | Err_timeout.
Arguments Ok_got {T}.
Arguments Err_empty {T}.
Arguments Err_disconnected {T}.
Arguments Err_timeout {T}.

(** What follows an [unregister]. *)
Inductive After (T : Type) := U_got (x : T) | U_last | U_disconnected | U_timeout.
Arguments U_got {T}.
Arguments U_last {T}.
Arguments U_disconnected {T}.
Arguments U_timeout {T}.

Inductive Consumer (T : Type) :=
  | C_idle (r : option (RecvResult T)) | C_pop (f : RecvFrame T) | C_refresh (f : RecvFrame T) | C_read (f : RecvFrame T) | C_advance (f : RecvFrame T) (x : T)
  | C_alive (f : RecvFrame T) | C_deadline (f : RecvFrame T) | C_register (f : RecvFrame T) | C_unregister (f : RecvFrame T) (a : After T)
  | C_notify (xs : list T) | C_wake (xs : list T) | C_unpark (xs : list T)
  | C_park (f : RecvFrame T) | C_swap (f : RecvFrame T) | C_pending (f : RecvFrame T) | C_cancel
  | C_drop (gone : bool) | C_count (gone : bool) | C_close_wake (gone : bool) | C_close_unpark (gone : bool) | C_gone.
Arguments C_idle {T}.
Arguments C_pop {T}.
Arguments C_refresh {T}.
Arguments C_read {T}.
Arguments C_advance {T}.
Arguments C_alive {T}.
Arguments C_deadline {T}.
Arguments C_register {T}.
Arguments C_unregister {T}.
Arguments C_notify {T}.
Arguments C_wake {T}.
Arguments C_unpark {T}.
Arguments C_park {T}.
Arguments C_swap {T}.
Arguments C_pending {T}.
Arguments C_cancel {T}.
Arguments C_drop {T}.
Arguments C_count {T}.
Arguments C_close_wake {T}.
Arguments C_close_unpark {T}.
Arguments C_gone {T}.

Section Code.
Context {T : Type}.
Implicit Types (s : SpscShared T) (r : Ring T) (f : SendFrame T) (g : RecvFrame T) (p : Producer T) (c : Consumer T) (l me peer : Local) (x : T) (xs : list T).

(** ** The ring *)

(** [None] is the failed assertion; [next_power_of_two] overflows to [0]. *)
Definition ring_new (capacity : Z) : option (Ring T) :=
  if 0 <? capacity then
    let phys := Z.max (if capacity <=? 2 ^ 63 then next_power_of_two capacity else 0) 2 in
    Some (mk_ring (replicate (Z.to_nat phys) None) (phys -w 1) capacity 0 0 0 0)
  else None.

Definition new_internal (capacity : Z) : option (SpscShared T) :=
  r ← ring_new capacity; Some (mk_shared r 1 1 false false None None 0 0).

Definition len r : Z := Z.min (tail r -w head r) (cap r).

Definition set_cached_head r : Ring T := mk_ring (buf r) (mask r) (cap r) (tail r) (head r) (head r) (cached_tail r).
Definition set_cached_tail r : Ring T := mk_ring (buf r) (mask r) (cap r) (tail r) (cached_head r) (head r) (tail r).
Definition set_buf b r : Ring T := mk_ring b (mask r) (cap r) (tail r) (cached_head r) (head r) (cached_tail r).
Definition set_tail t r : Ring T := mk_ring (buf r) (mask r) (cap r) t (cached_head r) (head r) (cached_tail r).
Definition set_head h r : Ring T := mk_ring (buf r) (mask r) (cap r) (tail r) (cached_head r) h (cached_tail r).

Definition cached_full r : bool := cap r <=? tail r -w cached_head r.
Definition cached_empty r : bool := head r =? cached_tail r.
Definition producer_free_space r : Z * Ring T := let r := set_cached_head r in (cap r -w (tail r -w cached_head r), r).

Definition with_ring r s : SpscShared T :=
  mk_shared r (sender_count s) (receiver_count s) (producer_dropped s) (consumer_dropped s) (producer_waiter s) (consumer_waiter s) (send_waiters s) (recv_waiters s).
Definition with_counts n m s : SpscShared T :=
  mk_shared (ring s) n m (producer_dropped s) (consumer_dropped s) (producer_waiter s) (consumer_waiter s) (send_waiters s) (recv_waiters s).
Definition with_dropped d e s : SpscShared T :=
  mk_shared (ring s) (sender_count s) (receiver_count s) d e (producer_waiter s) (consumer_waiter s) (send_waiters s) (recv_waiters s).

(** ** Waiters *)

Definition set_waiter (role : Role) (w : option (WakeRef * bool)) (n : Z) s : SpscShared T :=
  match role with
  | Send => mk_shared (ring s) (sender_count s) (receiver_count s) (producer_dropped s) (consumer_dropped s) w (consumer_waiter s) n (recv_waiters s)
  | Recv => mk_shared (ring s) (sender_count s) (receiver_count s) (producer_dropped s) (consumer_dropped s) (producer_waiter s) w (send_waiters s) n
  end.

Definition register role wake (has_notified : bool) s : SpscShared T := set_waiter role (Some (wake, has_notified)) 1 s.
Definition unregister role s : SpscShared T := set_waiter role None 0 s.

(** Up to the end of the critical section; [true]: there is somebody to wake.  A pointer whose call is over is dangling. *)
Definition wake_one role peer s : option (bool * Local * SpscShared T) :=
  match (match role with Send => producer_waiter s | Recv => consumer_waiter s end) with
  | None => Some (false, peer, s)
  | Some (_, ptr) =>
      let s := set_waiter role None 0 s in
      if (ptr : bool) then _ ← notified peer; Some (true, mk_local (closed peer) (Some true) (token peer), s)
      else Some (true, peer, s)
  end.

Definition wake l : Local := mk_local (closed l) (notified l) true.
Definition sleep_over l : Local := mk_local (closed l) (notified l) false.
Definition set_notified o l : Local := mk_local (closed l) o (token l).
Definition set_closed b l : Local := mk_local b (notified l) (token l).

(** ** The producer *)

Definition with_op o f : SendFrame T := mk_sf o (items f) (left f) (wrote f) (sent f).

Definition registered (o : SendOp) : bool := match o with O_send _ reg | O_poll _ reg | O_batch _ reg => reg | O_try | O_try_batch => false end.

(** How a call answers that finds the receiver gone: [send] drops its item. *)
Definition closed_result f : SendResult T :=
  match op f with O_send _ _ | O_poll _ _ => Err_send Closed 0 [] | O_try | O_try_batch | O_batch _ _ => Err_send Closed (sent f) (items f) end.

Definition abandon f : Producer T := if registered (op f) then P_unregister f false else P_idle (Some (closed_result f)).

(** After a [write_batch]. *)
Definition after_batch f : Producer T :=
  let f := mk_sf (op f) (items f) 0 false (sent f) in
  match items f with
  | [] => if registered (op f) then P_unregister f true else P_idle (Some (Ok_sent (sent f)))
  | _ :: _ => match op f with O_batch false _ => P_register f | O_batch true _ => P_look f | _ => P_reason f end
  end.

Definition batch_next f : Producer T :=
  match left f with O => if wrote f then P_notify f else after_batch f | S _ => P_push f end.

Definition push_ok f : Producer T :=
  match op f with
  | O_try => P_notify f
  | O_send _ reg | O_poll _ reg => if reg then P_unregister f true else P_notify f
  | O_try_batch | O_batch _ _ => batch_next (mk_sf (op f) (items f) (pred (left f)) true (S (sent f)))
  end.

(** [None] is [unreachable!]. *)
Definition push_full f : option (Producer T) :=
  match op f with
  | O_try => Some (P_idle (Some (Err_send Full 0 (items f))))
  | O_send false _ => Some (P_look (with_op (O_send true false) f))
  | O_send true reg => Some (if reg then P_park f else P_register f)
  | O_poll again _ => Some (if again then P_pending f else P_register f)
  | O_try_batch | O_batch _ _ => None
  end.

Definition after_notify f : Producer T :=
  match op f with O_try | O_send _ _ | O_poll _ _ => P_idle (Some (Ok_sent 1)) | O_try_batch | O_batch _ _ => after_batch f end.

Definition after_park f : Producer T :=
  match op f with O_send _ _ => P_swap f | O_batch _ reg => P_look (with_op (O_batch false reg) f) | _ => P_look f end.

Notation producer_result := (option (Producer T * Local * Local * SpscShared T * list T)).

(** A push, and what its call does next. *)
Definition push_step p me peer s : producer_result :=
  match p with
  | P_push f => Some (if cached_full (ring s) then P_refresh f else P_write f, me, peer, s, [])
  | P_refresh f =>
      let r := set_cached_head (ring s) in
      p ← (if cached_full r then push_full f else Some (P_write f)); Some (p, me, peer, with_ring r s, [])
  | P_write f =>
      x ← hd_error (items f); b ← write_slot (tail (ring s)) (mask (ring s)) x (buf (ring s));
      Some (P_publish (mk_sf (op f) (List.tl (items f)) (left f) (wrote f) (sent f)), me, peer, with_ring (set_buf b (ring s)) s, [x])
  | P_publish f => Some (push_ok f, me, peer, with_ring (set_tail (tail (ring s) +w 1) (ring s)) s, [])
  | P_free f =>
      let '(n, r) := producer_free_space (ring s) in
      Some (batch_next (mk_sf (op f) (items f) (Z.to_nat (Z.min (Z.of_nat (length (items f))) n)) false (sent f)), me, peer, with_ring r s, [])
  | _ => None
  end.

(** [consumer_dropped] is read, with the handle's own [closed] before it. *)
Definition look_step p me peer s : producer_result :=
  let d := consumer_dropped s in
  match p with
  | P_look f =>
      match op f with
      | O_try | O_send false _ => Some (if closed me || d then P_idle (Some (closed_result f)) else P_push f, me, peer, s, [])
      | O_send true _ => Some (if d then abandon f else P_push f, me, peer, s, [])
      | O_poll _ _ => Some (if closed me || d then abandon f else P_push f, me, peer, s, [])
      | O_try_batch => Some (if closed me || d then P_idle (Some (closed_result f)) else P_free f, me, peer, s, [])
      | O_batch false _ => Some (if d then abandon f else P_free f, me, peer, s, [])
      | O_batch true reg => Some (if d then P_look (with_op (O_batch false reg) f) else P_park f, me, peer, s, [])
      end
  | P_reason f => Some (P_idle (Some (Err_send (if d then Closed else Full) (sent f) (items f))), me, peer, s, [])
  | _ => None
  end.

Definition send_wait_step p me peer s : producer_result :=
  match p with
  | P_register f =>
      match op f with
      | O_send _ _ => Some (P_look (with_op (O_send true true) f), me, peer, register Send Thread true s, [])
      | O_poll _ _ => Some (P_look (with_op (O_poll true true) f), me, peer, register Send Waker false s, [])
      | O_batch _ _ => Some (P_free (with_op (O_batch true true) f), me, peer, register Send Thread false s, [])
      | O_try | O_try_batch => None
      end
  | P_unregister f ok =>
      Some (if ok : bool then match op f with O_batch _ _ => P_idle (Some (Ok_sent (sent f))) | _ => P_notify f end
            else P_idle (Some (closed_result f)), me, peer, unregister Send s, [])
  | P_park f => if token me then Some (after_park f, sleep_over me, peer, s, []) else None
  | P_swap f => was ← notified me; Some (P_look (with_op (O_send true (negb was)) f), set_notified (Some false) me, peer, s, [])
  | P_pending f => if token me then Some (P_look (with_op (O_poll false true) f), sleep_over me, peer, s, []) else None
  | P_cancel => Some (P_idle None, me, peer, unregister Send s, [])
  | _ => None
  end.

Definition send_wake_step p me peer s : producer_result :=
  match p with
  | P_notify f => Some (if negb (recv_waiters s =? 0) then P_wake f else after_notify f, me, peer, s, [])
  | P_wake f => '(w, peer, s) ← wake_one Recv peer s; Some (if (w : bool) then P_unpark f else after_notify f, me, peer, s, [])
  | P_unpark f => Some (after_notify f, me, wake peer, s, [])
  | _ => None
  end.

Definition producer_closed (gone : bool) : Producer T := if gone then P_gone else P_idle None.

(** [close_internal], after [closed] was set. *)
Definition send_close_step p me peer s : producer_result :=
  match p with
  | P_drop g => Some (P_count g, me, peer, with_dropped true (consumer_dropped s) s, [])
  | P_count g =>
      let n := sender_count s in
      Some (if n =? 1 then P_close_wake g else producer_closed g, me, peer, with_counts (n -w 1) (receiver_count s) s, [])
  | P_close_wake g => '(w, peer, s) ← wake_one Recv peer s; Some (if (w : bool) then P_close_unpark g else producer_closed g, me, peer, s, [])
  | P_close_unpark g => Some (producer_closed g, me, wake peer, s, [])
  | _ => None
  end.

(** The locals of a call die when it returns. *)
Definition leave_call p l : Local := match p with P_idle _ => set_notified None l | _ => l end.

(** The last component is what was put into the ring. *)
Definition producer_step p me peer s : producer_result :=
  '(p, me, peer, s, xs) ←
    match p with
    | P_idle _ | P_gone => None
    | P_look _ | P_reason _ => look_step p me peer s
    | P_push _ | P_refresh _ | P_write _ | P_publish _ | P_free _ => push_step p me peer s
    | P_register _ | P_unregister _ _ | P_park _ | P_swap _ | P_pending _ | P_cancel => send_wait_step p me peer s
    | P_notify _ | P_wake _ | P_unpark _ => send_wake_step p me peer s
    | P_drop _ | P_count _ | P_close_wake _ | P_close_unpark _ => send_close_step p me peer s
    end;
  Some (p, leave_call p me, peer, s, xs).

(** What a producer may also do: call, with a fresh [notified]; spin instead of registering; return from [park] for no reason; have its
    future polled or dropped; close, drop or convert its handle.  [wild] allows what the channel does not survive: [send_batch]
    through a closed handle, and the conversion of one. *)
Inductive SendChoice := Call_send (o : SendOp) (xs : list T) | Spin | Spurious | Drop_future | Close | Drop | Convert.

Definition fresh_call (o : SendOp) xs : bool :=
  match o with
  | O_try | O_send false false | O_poll false false => (length xs =? 1)%nat
  | O_try_batch => negb (length xs =? 0)%nat
  | O_batch false false => true
  | _ => false
  end.

Definition producer_choice (wild : bool) (ch : SendChoice) p me : option (Producer T * Local) :=
  match ch, p with
  | Call_send o xs, P_idle _ =>
      if fresh_call o xs && (wild || negb (closed me) || match o with O_batch _ _ => false | _ => true end)
      then Some (P_look (mk_sf o xs 0 false 0), set_notified (match o with O_send _ _ => Some false | _ => None end) me) else None
  | Spin, P_register f => match op f with O_send _ _ => Some (P_look f, me) | _ => None end
  | Spurious, P_park f => Some (after_park f, me)
  | Spurious, P_pending f => Some (P_look (with_op (O_poll false true) f), me)
  | Drop_future, P_pending _ => Some (P_cancel, me)
  | Close, P_idle _ => if closed me then None else Some (P_drop false, set_closed true me)
  | Drop, P_idle _ => Some (if closed me then P_gone else P_drop true, set_closed true me)
  | Convert, P_idle _ => if wild || negb (closed me) then Some (p, set_closed false me) else None
  | _, _ => None
  end.

(** ** The consumer *)

Definition with_rop o g : RecvFrame T := mk_rf o (last g) (rleft g) (got g).
Definition last_pop g : RecvFrame T := mk_rf (rop g) true (rleft g) (got g).

Definition rregistered (o : RecvOp) : bool := match o with R_recv _ _ reg | R_poll _ reg => reg | R_try | R_batch => false end.
Definition rdeaf (o : RecvOp) : RecvOp := match o with R_recv t a _ => R_recv t a false | R_poll a _ => R_poll a false | o => o end.

Definition pop_ok g x : Consumer T :=
  match rop g with
  | R_try => C_notify [x]
  | R_recv _ _ reg | R_poll _ reg => if reg then C_unregister g (U_got x) else C_notify [x]
  | R_batch => let g := mk_rf R_batch (last g) (pred (rleft g)) (got g ++ [x]) in match rleft g with O => C_notify (got g) | S _ => C_pop g end
  end.

Definition pop_none g : Consumer T :=
  match rop g, got g with
  | R_batch, _ :: _ => C_notify (got g)
  | o, _ =>
      if last g then if rregistered o then C_unregister g U_disconnected else C_idle (Some Err_disconnected)
      else match o with R_recv t false _ => C_pop (with_rop (R_recv t true false) g) | _ => C_alive g end
  end.

Definition wait_or_register g : Consumer T := if rregistered (rop g) then C_park g else C_register g.

Notation consumer_result := (option (Consumer T * Local * Local * SpscShared T * list T)).

Definition pop_step c me peer s : consumer_result :=
  match c with
  | C_pop g => Some (if cached_empty (ring s) then C_refresh g else C_read g, me, peer, s, [])
  | C_refresh g =>
      let r := set_cached_tail (ring s) in Some (if cached_empty r then pop_none g else C_read g, me, peer, with_ring r s, [])
  | C_read g => '(x, b) ← read_slot (head (ring s)) (mask (ring s)) (buf (ring s)); Some (C_advance g x, me, peer, with_ring (set_buf b (ring s)) s, [x])
  | C_advance g x => Some (pop_ok g x, me, peer, with_ring (set_head (head (ring s) +w 1) (ring s)) s, [])
  | _ => None
  end.

(** [senders_alive]. *)
Definition alive_step c me peer s : consumer_result :=
  match c with
  | C_alive g =>
      Some (if sender_count s =? 0 then match rop g with R_poll true _ => C_unregister g U_last | _ => C_pop (last_pop g) end
            else match rop g with
                 | R_try | R_batch => C_idle (Some Err_empty)
                 | R_recv timed _ _ => if timed then C_deadline g else wait_or_register g
                 | R_poll again _ => if again then C_pending g else C_register g
                 end, me, peer, s, [])
  | C_deadline g => Some (wait_or_register g, me, peer, s, [])
  | _ => None
  end.

Definition recv_wait_step c me peer s : consumer_result :=
  match c with
  | C_register g =>
      match rop g with
      | R_recv t _ _ => Some (C_pop (with_rop (R_recv t true true) g), me, peer, register Recv Thread true s, [])
      | R_poll _ _ => Some (C_pop (with_rop (R_poll true true) g), me, peer, register Recv Waker false s, [])
      | R_try | R_batch => None
      end
  | C_unregister g a =>
      Some (match a with
            | U_got x => C_notify [x]
            | U_last => C_pop (with_rop (rdeaf (rop g)) (last_pop g))
            | U_disconnected => C_idle (Some Err_disconnected)
            | U_timeout => C_idle (Some Err_timeout)
            end, me, peer, unregister Recv s, [])
  | C_park g => if token me then Some (C_swap g, sleep_over me, peer, s, []) else None
  | C_swap g =>
      was ← notified me;
      match rop g with R_recv t _ _ => Some (C_pop (with_rop (R_recv t true (negb was)) g), set_notified (Some false) me, peer, s, []) | _ => None end
  | C_pending g => if token me then Some (C_pop (with_rop (R_poll false true) g), sleep_over me, peer, s, []) else None
  | C_cancel => Some (C_idle None, me, peer, unregister Recv s, [])
  | _ => None
  end.

Definition recv_wake_step c me peer s : consumer_result :=
  match c with
  | C_notify xs => Some (if negb (send_waiters s =? 0) then C_wake xs else C_idle (Some (Ok_got xs)), me, peer, s, [])
  | C_wake xs => '(w, peer, s) ← wake_one Send peer s; Some (if (w : bool) then C_unpark xs else C_idle (Some (Ok_got xs)), me, peer, s, [])
  | C_unpark xs => Some (C_idle (Some (Ok_got xs)), me, wake peer, s, [])
  | _ => None
  end.

Definition consumer_closed (gone : bool) : Consumer T := if gone then C_gone else C_idle None.

Definition recv_close_step c me peer s : consumer_result :=
  match c with
  | C_drop g => Some (C_count g, me, peer, with_dropped (producer_dropped s) true s, [])
  | C_count g =>
      let n := receiver_count s in
      Some (if n =? 1 then C_close_wake g else consumer_closed g, me, peer, with_counts (sender_count s) (n -w 1) s, [])
  | C_close_wake g => '(w, peer, s) ← wake_one Send peer s; Some (if (w : bool) then C_close_unpark g else consumer_closed g, me, peer, s, [])
  | C_close_unpark g => Some (consumer_closed g, me, wake peer, s, [])
  | _ => None
  end.

Definition rleave_call c l : Local := match c with C_idle _ => set_notified None l | _ => l end.

(** The last component is what was taken out of the ring. *)
Definition consumer_step c me peer s : consumer_result :=
  '(c, me, peer, s, xs) ←
    match c with
    | C_idle _ | C_gone => None
    | C_pop _ | C_refresh _ | C_read _ | C_advance _ _ => pop_step c me peer s
    | C_alive _ | C_deadline _ => alive_step c me peer s
    | C_register _ | C_unregister _ _ | C_park _ | C_swap _ | C_pending _ | C_cancel => recv_wait_step c me peer s
    | C_notify _ | C_wake _ | C_unpark _ => recv_wake_step c me peer s
    | C_drop _ | C_count _ | C_close_wake _ | C_close_unpark _ => recv_close_step c me peer s
    end;
  Some (c, rleave_call c me, peer, s, xs).

Inductive RecvChoice := Call_recv (o : RecvOp) (max : nat) | R_spin | R_spurious | R_timeout | R_drop_future | R_close | R_drop | R_convert.

Definition fresh_recv (o : RecvOp) (max : nat) : bool :=
  match o with R_try | R_recv _ false false | R_poll false false => true | R_batch => negb (max =? 0)%nat | _ => false end.

(** A call through a closed handle answers [Disconnected] at once. *)
Definition consumer_choice (wild : bool) (ch : RecvChoice) c me : option (Consumer T * Local) :=
  match ch, c with
  | Call_recv o max, C_idle _ =>
      if fresh_recv o max then
        if closed me then Some (C_idle (Some Err_disconnected), me)
        else Some (C_pop (mk_rf o false max []), set_notified (match o with R_recv _ _ _ => Some false | _ => None end) me)
      else None
  | R_spin, C_register g => match rop g with R_recv false _ _ => Some (C_pop g, me) | _ => None end
  | R_spurious, C_park g => Some (C_swap g, me)
  | R_spurious, C_pending g => Some (C_pop (with_rop (R_poll false true) g), me)
  | R_timeout, C_deadline g =>
      Some (if rregistered (rop g) then (C_unregister g U_timeout, me) else (C_idle (Some Err_timeout), set_notified None me))
  | R_drop_future, C_pending _ => Some (C_cancel, me)
  | R_close, C_idle _ => if closed me then None else Some (C_drop false, set_closed true me)
  | R_drop, C_idle _ => Some (if closed me then C_gone else C_drop true, set_closed true me)
  | R_convert, C_idle _ => if wild || negb (closed me) then Some (c, set_closed false me) else None
  | _, _ => None
  end.

(** ** Interleaving *)

(** Both sides, what each owns, the channel, and what was put in and taken out so far. *)
Definition system : Type := Producer T * Local * (Consumer T * Local) * SpscShared T * (list T * list T).

Inductive spsc_step (wild : bool) : system → system → Prop :=
  | spsc_producer p lp c lc s put out p' lp' lc' s' xs :
      producer_step p lp lc s = Some (p', lp', lc', s', xs) → spsc_step wild (p, lp, (c, lc), s, (put, out)) (p', lp', (c, lc'), s', (put ++ xs, out))
  | spsc_consumer p lp c lc s put out c' lc' lp' s' xs :
      consumer_step c lc lp s = Some (c', lc', lp', s', xs) → spsc_step wild (p, lp, (c, lc), s, (put, out)) (p, lp', (c', lc'), s', (put, out ++ xs))
  | spsc_producer_choice p lp c lc s h ch p' lp' :
      producer_choice wild ch p lp = Some (p', lp') → spsc_step wild (p, lp, (c, lc), s, h) (p', lp', (c, lc), s, h)
  | spsc_consumer_choice p lp c lc s h ch c' lc' :
      consumer_choice wild ch c lc = Some (c', lc') → spsc_step wild (p, lp, (c, lc), s, h) (p, lp, (c', lc'), s, h).

Definition fresh : Local := mk_local false None false.
Definition start s : system := (P_idle None, fresh, (C_idle None, fresh), s, ([], [])).
End Code.
Arguments SendChoice : clear implicits.
Arguments system : clear implicits.
