(* ===== verification/SpscRing.v ===== *)
(** * The bounded SPSC channel: what its ring holds

    [ring_inv] reads the ring's slots and indices as a queue, in the middle of any access of
    either side: the indices wrap, the private copies lag behind, a value may be written and
    not published, or read and its slot not released.  Every step keeps it, so the channel is
    a FIFO queue. *)

From stdpp Require Import relations.
From S2P Require Import Prelude Ring SpscCore.

Section RingInv.
Context {T : Type}.
Implicit Types (s : SpscShared T) (r : Ring T) (f : SendFrame T) (g : RecvFrame T) (p : Producer T) (c : Consumer T) (l : Local) (x : T) (xs put out : list T) (n d e : Z).

Definition batch (o : SendOp) : bool := match o with O_try_batch | O_batch _ _ => true | _ => false end.

(** Written and not published; read and not released. *)
Definition unpublished p : Z := match p with P_publish _ => 1 | _ => 0 end.
Definition advancing c : Z := match c with C_advance _ _ => 1 | _ => 0 end.

(** Slots the producer found free and will fill; items the consumer found and will take. *)
Definition reserved p : Z :=
  match p with
  | P_push f | P_refresh f => if batch (op f) then Z.of_nat (left f) else 0
  | P_write f | P_publish f => if batch (op f) then Z.of_nat (left f) else 1
  | _ => 0
  end.
Definition promised c : Z := match c with C_read _ | C_advance _ _ => 1 | _ => 0 end.

(** The calls a frame can be in at each point. *)
Definition single f : Prop := batch (op f) = false ∧ length (items f) = 1%nat.
Definition chunk f (more : nat) : Prop := batch (op f) = true ∧ (1 ≤ left f ≤ more + length (items f))%nat.

Definition producer_wf p : Prop :=
  match p with
  | P_look f => single f ∨ batch (op f) = true ∧ (op f = O_try_batch ∨ (∃ b, op f = O_batch true b) → items f ≠ [])
  | P_push f | P_write f => single f ∨ chunk f 0
  | P_refresh f => single f
  | P_publish f => batch (op f) = false ∨ chunk f 1
  | P_free f => batch (op f) = true
  | P_reason f => op f = O_try_batch
  | P_register f => (∃ b, op f = O_batch false b) ∨ single f ∧ (op f = O_send true false ∨ ∃ b, op f = O_poll false b)
  | P_park f => (∃ b, op f = O_batch true b) ∧ items f ≠ [] ∨ single f ∧ op f = O_send true true
  | P_swap f => single f ∧ op f = O_send true true
  | P_pending f => single f ∧ ∃ b, op f = O_poll true b
  | _ => True
  end.

Definition consumer_wf c : Prop :=
  match c with
  | C_pop g | C_refresh g | C_read g | C_advance g _ => match rop g with R_batch => rleft g ≠ 0%nat | _ => got g = [] end
  | C_alive g => got g = [] ∧ match rop g with R_recv _ a _ => a = true | R_batch => rleft g ≠ 0%nat | _ => True end
  | C_deadline g => got g = [] ∧ ∃ reg, rop g = R_recv true true reg
  | C_register g => got g = [] ∧ ((∃ t, rop g = R_recv t true false) ∨ ∃ b, rop g = R_poll false b)
  | C_unregister g a => got g = [] ∧ match rop g, a with R_try, _ | R_batch, _ | R_recv _ _ _, U_last => False | _, _ => True end
  | C_park g | C_swap g => got g = [] ∧ ∃ t, rop g = R_recv t true true
  | C_pending g => got g = [] ∧ ∃ b, rop g = R_poll true b
  | _ => True
  end.

(** Where the next value to take is; how many the ring counts. *)
Definition front c r : Z := if advancing c =? 0 then head r else head r +w 1.
Definition counted p c xs : Z := Z.of_nat (length xs) - unpublished p + advancing c.

Record ring_inv p c s put out xs d e : Prop := {
  ri_rep : ring_rep (buf (ring s)) (mask (ring s)) (front c (ring s)) xs;
  ri_hist : put = out ++ xs;
  ri_cap : 0 < cap (ring s) ≤ mask (ring s) + 1;
  ri_head : is_u64 (head (ring s));
  ri_tail : tail (ring s) = head (ring s) +w counted p c xs;
  ri_n : unpublished p ≤ Z.of_nat (length xs);
  ri_ch : cached_head (ring s) = head (ring s) -w d;
  ri_d : 0 ≤ d ∧ counted p c xs + d + reserved p ≤ cap (ring s);
  ri_ct : cached_tail (ring s) = head (ring s) +w e;
  ri_e : promised c ≤ e ≤ counted p c xs;
  ri_p : producer_wf p;
  ri_c : consumer_wf c;
}.

Definition ring_ok p c s put out : Prop := ∃ xs d e, ring_inv p c s put out xs d e.

Lemma inv_range p c s put out xs d e :
  ring_inv p c s put out xs d e → 0 ≤ counted p c xs ≤ cap (ring s) ∧ cap (ring s) ≤ 2 ^ 63 ∧ 0 ≤ reserved p ∧ 0 ≤ advancing c ≤ 1 ∧ 0 ≤ unpublished p ≤ 1 ∧ 0 ≤ promised c.
Proof.
  intros []. destruct ri_rep0 as [(k&Hk&Em) _ _ _ _]. assert (2 ^ k ≤ 2 ^ 63) by (apply Z.pow_le_mono_r; lia).
  assert (0 ≤ reserved p) by (destruct p as [|f|f|f|f|f|f|f|f|f|f|f|f|f|f|f| | | | | |]; simpl; try destruct (batch (op f)); lia).
  assert (0 ≤ advancing c ≤ 1) by (destruct c; simpl; lia). assert (0 ≤ unpublished p ≤ 1) by (destruct p; simpl; lia). assert (0 ≤ promised c) by (destruct c; simpl; lia). lia.
Qed.

Lemma u64_dist a n m : is_u64 a → 0 ≤ n → 0 ≤ m → n + m < U64 → (a +w n) -w (a -w m) = n + m.
Proof.
  intros Ha Hn Hm Hl. unfold u64_sub, u64_add. rewrite Zminus_mod_idemp_l, Zminus_mod_idemp_r. replace (a + n - (a - m)) with (n + m) by lia. apply Z.mod_small. lia.
Qed.

Lemma ring_dist a n : is_u64 a → 0 ≤ n → n < U64 → (a +w n) -w a = n.
Proof. intros Ha Hn Hl. unfold u64_sub, u64_add. rewrite Zminus_mod_idemp_l. replace (a + n - a) with n by lia. apply Z.mod_small. lia. Qed.

Lemma u64_zero a n : is_u64 a → 0 ≤ n < U64 → (a =? a +w n) = (n =? 0).
Proof.
  intros Ha Hn. unfold is_u64 in Ha. destruct (Z.eqb_spec n 0) as [->|Hne].
  - rewrite u64_add_small by lia. apply Z.eqb_eq. lia.
  - apply Z.eqb_neq. unfold u64_add. destruct (decide (a + n < U64)); [rewrite Z.mod_small by lia; lia|].
    rewrite <- (Z_mod_plus_full _ (-1)), Z.mod_small by lia. lia.
Qed.

Lemma u64_shift a n m : (a +w n) +w m = a +w (n + m).
Proof. unfold u64_add. rewrite Zplus_mod_idemp_l. f_equal. lia. Qed.

Lemma u64_back a n : (a +w 1) -w (n + 1) = a -w n.
Proof. unfold u64_sub, u64_add. rewrite Zminus_mod_idemp_l. f_equal. lia. Qed.

Lemma u64_sub0 a : is_u64 a → a -w 0 = a.
Proof. unfold is_u64. intros H. rewrite u64_sub_small; lia. Qed.

Section Facts.
Context p c s put out xs d e.
Context (Hi : ring_inv p c s put out xs d e).

Lemma cached_full_iff : cached_full (ring s) = (cap (ring s) <=? counted p c xs + d).
Proof using Hi.
  pose proof (inv_range _ _ _ _ _ _ _ _ Hi). destruct Hi. unfold cached_full. rewrite ri_tail0, ri_ch0, u64_dist; [done|done|lia|lia|unfold U64; lia].
Qed.

Lemma cached_empty_iff : cached_empty (ring s) = (e =? 0).
Proof using Hi.
  pose proof (inv_range _ _ _ _ _ _ _ _ Hi). destruct Hi. unfold cached_empty. rewrite ri_ct0, u64_zero; [done|done|unfold U64; lia].
Qed.

Lemma tail_front : tail (ring s) = front c (ring s) +w (Z.of_nat (length xs) - unpublished p).
Proof using Hi.
  destruct Hi. rewrite ri_tail0. unfold counted, front. destruct c; simpl; rewrite ?u64_shift; f_equal; lia.
Qed.

(** The copy of the other's index is refreshed. *)
Lemma refreshed_head : counted p c xs + reserved p ≤ cap (ring s) → ring_inv p c (with_ring (set_cached_head (ring s)) s) put out xs 0 e.
Proof using Hi.
  intros Hr. destruct Hi. split; simpl; try done; [by rewrite u64_sub0|lia].
Qed.

Lemma refreshed_tail : promised c = 0 → ring_inv p c (with_ring (set_cached_tail (ring s)) s) put out xs d (counted p c xs).
Proof using Hi.
  intros Hp. pose proof (inv_range _ _ _ _ _ _ _ _ Hi). destruct Hi. split; simpl; try done. lia.
Qed.
End Facts.

(** A side moves between points that look the same to the ring. *)
Lemma producer_moves p p' c s s' put out xs d e :
  ring_inv p c s put out xs d e → ring s' = ring s → unpublished p' = unpublished p → reserved p' ≤ reserved p ∨ counted p c xs + d + reserved p' ≤ cap (ring s) → producer_wf p' →
  ring_inv p' c s' put out xs d e.
Proof.
  intros [] Er Eu Hr Hw. assert (Ec : counted p' c xs = counted p c xs) by (unfold counted; by rewrite Eu).
  split; rewrite ?Er, ?Ec; try done; [by rewrite Eu|]. destruct Hr; lia.
Qed.

Lemma consumer_moves p c c' s s' put out xs d e :
  ring_inv p c s put out xs d e → ring s' = ring s → advancing c' = advancing c → promised c' ≤ promised c ∨ promised c' ≤ e → consumer_wf c' →
  ring_inv p c' s' put out xs d e.
Proof.
  intros [] Er Ea Hr Hw. assert (Ec : counted p c' xs = counted p c xs) by (unfold counted; by rewrite Ea). assert (Ef : front c' (ring s) = front c (ring s)) by (unfold front; by rewrite Ea).
  split; rewrite ?Er, ?Ec, ?Ef; try done. destruct Hr; lia.
Qed.
End RingInv.

(** ** Steps *)

Section Steps.
Context {T : Type}.
Implicit Types (s : SpscShared T) (r : Ring T) (f : SendFrame T) (g : RecvFrame T) (p : Producer T) (c : Consumer T) (l me peer : Local) (x : T) (xs put out : list T) (n d e : Z).

Lemma set_waiter_ring role w n s : ring (set_waiter role w n s) = ring s.
Proof. by destruct role. Qed.

Lemma wake_one_ring role peer s b peer' s' : wake_one role peer s = Some (b, peer', s') → ring s' = ring s.
Proof.
  unfold wake_one. destruct (match role with Send => _ | Recv => _ end) as [[w []]|]; [destruct (notified peer); [|done]|..]; intros [= <- <- <-]; rewrite ?set_waiter_ring; done.
Qed.

Ltac spsc_wf := simpl in *; unfold single, chunk in *; simpl in *; naive_solver (done || lia).

(** Away from the ring. *)
Definition calm p : Prop := producer_wf p ∧ reserved p = 0 ∧ unpublished p = 0.

Lemma after_batch_wf f : batch (op f) = true → calm (after_batch f).
Proof.
  intros Hb. unfold after_batch. destruct (items f) eqn:Ei; [by simpl; destruct (registered (op f))|]. simpl in *.
  destruct (op f) as [| | | |[] b] eqn:Eo; simpl in *; try done; (split; [|done]); [right; done|left; by exists b].
Qed.

Lemma after_notify_wf f : calm (after_notify f).
Proof. unfold after_notify. destruct (op f) eqn:Eo; try done; apply after_batch_wf; by rewrite Eo. Qed.

Lemma abandon_wf f : calm (abandon f).
Proof. unfold abandon. by destruct (registered (op f)). Qed.

Lemma batch_next_wf f :
  batch (op f) = true → (left f ≤ length (items f))%nat → producer_wf (batch_next f) ∧ reserved (batch_next f) = Z.of_nat (left f) ∧ unpublished (batch_next f) = 0.
Proof.
  intros Hb Hl. unfold batch_next. destruct (left f) eqn:El.
  - destruct (wrote f); [done|]. by apply after_batch_wf.
  - simpl. rewrite Hb, El. split; [|done]. right. unfold chunk. rewrite El. split; [done|lia].
Qed.

Lemma push_step_ring p c me peer s put out xs d e p' me' peer' s' ys :
  ring_inv p c s put out xs d e → push_step p me peer s = Some (p', me', peer', s', ys) → ring_ok p' c s' (put ++ ys) out.
Proof.
  intros Hi Hst. pose proof (inv_range _ _ _ _ _ _ _ _ Hi) as Hr. pose proof (ri_d _ _ _ _ _ _ _ _ Hi) as Hd. pose proof (ri_p _ _ _ _ _ _ _ _ Hi) as Hw.
  destruct p as [| |f|f|f|f|f| | | | | | | | | | | | | | |]; try done; cbn [push_step] in Hst; simpl in Hw.
  - injection Hst as <- <- <- <- <-. rewrite app_nil_r. exists xs, d, e. rewrite (cached_full_iff _ _ _ _ _ _ _ _ Hi). cbn [reserved] in Hd.
    destruct (Z.leb_spec (cap (ring s)) (counted (P_push f) c xs + d)).
    + apply (producer_moves _ _ _ _ _ _ _ _ _ _ Hi); try done; [by left|]. destruct Hw as [|[Hb Hl]]; [done|]. rewrite Hb in Hd. lia.
    + apply (producer_moves _ _ _ _ _ _ _ _ _ _ Hi); try done. cbn [reserved]. destruct (batch (op f)); [by left|]. right. lia.
  - cbn [reserved] in Hd. destruct Hw as [Hb Hl]. rewrite Hb in Hd.
    pose proof (refreshed_head _ _ _ _ _ _ _ _ Hi ltac:(cbn [reserved]; rewrite Hb; lia)) as Hi1.
    pose proof (cached_full_iff _ _ _ _ _ _ _ _ Hi1) as Ef. simpl in Ef. apply bind_Some in Hst as (p1&Hp&[= <- <- <- <- <-]).
    rewrite app_nil_r. exists xs, 0, e. simpl in Hp. rewrite Ef in Hp.
    destruct (Z.leb_spec (cap (ring s)) (counted (P_refresh f) c xs + 0)).
    + apply (producer_moves _ _ _ _ _ _ _ _ _ _ Hi1); [done|..]; unfold push_full in Hp;
        destruct (op f) as [|[] [] |[] b| |] eqn:Eo; try done; injection Hp as <-; try done; try (by left); simpl; rewrite ?Eo; try (by left); unfold single; simpl; rewrite ?Eo; eauto 8.
    + injection Hp as <-. apply (producer_moves _ _ _ _ _ _ _ _ _ _ Hi1); try done; [|by left]. cbn [reserved]. rewrite Hb. right. simpl. lia.
  - apply bind_Some in Hst as (x&Hx&Hst). apply bind_Some in Hst as (b&Hb&[= <- <- <- <- <-]). cbn [reserved] in Hd. destruct (items f) as [|y ys] eqn:Ey; [done|]. injection Hx as ->.
    assert (Hr1 : 1 ≤ (if batch (op f) then Z.of_nat (left f) else 1)) by (destruct Hw as [[-> ?]|[-> ?]]; lia).
    unfold counted in Hd. simpl in Hd. pose proof (ri_cap _ _ _ _ _ _ _ _ Hi) as Hc.
    destruct (ring_rep_write _ _ _ _ x (ri_rep _ _ _ _ _ _ _ _ Hi)) as (b'&Eb'&Hr'); [lia|].
    rewrite (tail_front _ _ _ _ _ _ _ _ Hi) in Hb. simpl in Hb. rewrite Z.sub_0_r, Eb' in Hb. injection Hb as <-.
    exists (xs ++ [x]), d, e. assert (Ec : ∀ f', counted (P_publish f') c (xs ++ [x]) = counted (P_write f) c xs) by (intros f'; unfold counted; rewrite length_app; simpl; lia).
    destruct Hi. split; rewrite ?Ec; simpl; try done; [by rewrite ri_hist0, app_assoc|rewrite length_app; simpl; lia|].
    destruct Hw as [[Hb Hl]|[Hb Hl]]; [by left|right]. unfold chunk in *. simpl. rewrite Ey in Hl. simpl in Hl. split; [done|lia].
  - injection Hst as <- <- <- <- <-. rewrite app_nil_r. cbn [reserved] in Hd. exists xs, d, e.
    assert (Hp : producer_wf (push_ok f) ∧ unpublished (push_ok f) = 0 ∧ reserved (push_ok f) + 1 ≤ reserved (P_publish f)).
    { unfold push_ok. destruct Hw as [Hb|[Hb Hl]].
      - simpl. rewrite Hb. destruct (op f) as [|? []|? []| |]; try done; simpl; lia.
      - simpl. rewrite Hb. destruct (op f) eqn:Eo; try done;
          (destruct (batch_next_wf (mk_sf (op f) (items f) (pred (left f)) true (S (sent f)))) as (H1&H2&H3); [by rewrite Eo|simpl; lia|]);
          rewrite Eo in *; simpl in *; split; [done|split; [done|lia]|done|split; [done|lia]]. }
    destruct Hp as (H1&H2&H3). cbn [reserved] in H3.
    assert (Ec : counted (push_ok f) c xs = counted (P_publish f) c xs + 1) by (unfold counted; rewrite H2; simpl; lia).
    destruct Hi. split; rewrite ?Ec, ?H2; simpl; try done; try lia. by rewrite ri_tail0, u64_shift.
  - unfold producer_free_space in Hst. injection Hst as <- <- <- <- <-. rewrite app_nil_r.
    pose proof (refreshed_head _ _ _ _ _ _ _ _ Hi ltac:(simpl; lia)) as Hi1. exists xs, 0, e.
    set (n := Z.to_nat _). assert (Hn : Z.of_nat n = Z.min (Z.of_nat (length (items f))) (cap (ring s) - counted (P_free f) c xs)).
    { unfold n. destruct Hi1. simpl in *. rewrite ri_tail0, ring_dist; [|done|lia|unfold U64; lia]. rewrite u64_sub_small; [lia|lia|unfold U64; lia]. }
    destruct (batch_next_wf (mk_sf (op f) (items f) n false (sent f)) Hw ltac:(simpl; lia)) as (H1&H2&H3). simpl in H2.
    apply (producer_moves _ _ _ _ _ _ _ _ _ _ Hi1); try done. rewrite H2. right. simpl. lia.
Qed.


Lemma look_calm p me peer s p' me' peer' s' ys :
  producer_wf p → look_step p me peer s = Some (p', me', peer', s', ys) → ring s' = ring s ∧ ys = [] ∧ calm p' ∧ calm p.
Proof.
  intros Hw Hst. destruct p as [|f| | | | | |f| | | | | | | | | | | | | |]; try done; simpl in Hst, Hw; [|injection Hst as <- <- <- <- <-; done].
  pose proof (abandon_wf f) as Hg. destruct (op f) as [|[] b|[] b| |[] b] eqn:Eo; injection Hst as <- <- <- <- <-; (split; [done|]); (split; [done|]);
    (split; [|split; [simpl; rewrite Eo; done|done]]); destruct (consumer_dropped s), (closed me); simpl; try done; (split; [|simpl; rewrite ?Eo; done]); simpl; rewrite ?Eo.
  all: first [by left; destruct Hw as [?|[? _]]|done|by right; split; [done|intros [|[??]]]
    |left; split; [by eexists|]; destruct Hw as [[Hb _]|[_ Hne]]; [by rewrite Eo in Hb|apply Hne; right; by eexists]].
Qed.

Lemma wait_calm p me peer s p' me' peer' s' ys :
  producer_wf p → send_wait_step p me peer s = Some (p', me', peer', s', ys) → ring s' = ring s ∧ ys = [] ∧ calm p' ∧ calm p.
Proof.
  intros Hw Hst. destruct p as [| | | | | | | |f|f ok| | | |f|f|f| | | | | |]; try done; simpl in Hst, Hw.
  - destruct Hw as [[b Eo]|[Hs [Eo|[b Eo]]]]; rewrite Eo in Hst; injection Hst as <- <- <- <- <-; (split; [done|]); (split; [done|]); (split; [|split; [|done]; simpl; eauto 8]);
      (split; [|done]); simpl; [done|left; destruct Hs as [Hb Hl]; done..].
  - injection Hst as <- <- <- <- <-. split; [done|]. split; [done|]. split; [|done]. destruct ok; [|done]. by destruct (op f).
  - destruct (token me); [|done]. injection Hst as <- <- <- <- <-. split; [done|]. split; [done|]. split; [|split; [done|done]]. unfold after_park.
    destruct Hw as [[[b Eo] Hne]|[Hs Eo]]; rewrite Eo; (split; [|done]); simpl; [|done]. right. split; [done|]. intros [|[??]]; done.
  - apply bind_Some in Hst as (b&_&[= <- <- <- <- <-]). split; [done|]. split; [done|]. split; [|done]. split; [|done]. left. destruct Hw as [[Hb Hl] Eo]. done.
  - destruct (token me); [|done]. injection Hst as <- <- <- <- <-. split; [done|]. split; [done|]. split; [|split; [done|done]]. split; [|done]. left. destruct Hw as [[Hb Hl] Eo]. done.
  - injection Hst as <- <- <- <- <-. done.
Qed.

Lemma wake_calm p me peer s p' me' peer' s' ys :
  send_wake_step p me peer s = Some (p', me', peer', s', ys) → ring s' = ring s ∧ ys = [] ∧ calm p' ∧ calm p.
Proof.
  intros Hst. destruct p as [| | | | | | | | | |f|f|f| | | | | | | | |]; try done; simpl in Hst; pose proof (after_notify_wf f).
  - injection Hst as <- <- <- <- <-. split; [done|]. split; [done|]. split; [|done]. by destruct (recv_waiters s =? 0).
  - apply bind_Some in Hst as ([[w peer1] s1]&Hw&[= <- <- <- <- <-]). apply wake_one_ring in Hw. split; [done|]. split; [done|]. split; [|done]. by destruct w.
  - by injection Hst as <- <- <- <- <-.
Qed.

Lemma close_calm p me peer s p' me' peer' s' ys :
  send_close_step p me peer s = Some (p', me', peer', s', ys) → ring s' = ring s ∧ ys = [] ∧ calm p' ∧ calm p.
Proof.
  intros Hst. destruct p as [| | | | | | | | | | | | | | | | |b|b|b|b|]; try done; simpl in Hst.
  - by injection Hst as <- <- <- <- <-.
  - injection Hst as <- <- <- <- <-. split; [done|]. split; [done|]. split; [|done]. by destruct (sender_count s =? 1), b.
  - apply bind_Some in Hst as ([[w peer1] s1]&Hw&[= <- <- <- <- <-]). apply wake_one_ring in Hw. split; [done|]. split; [done|]. split; [|done]. by destruct w, b.
  - injection Hst as <- <- <- <- <-. split; [done|]. split; [done|]. split; [|done]. by destruct b.
Qed.

Lemma calm_moves p p' c s s' put out xs d e :
  ring_inv p c s put out xs d e → ring s' = ring s → calm p → calm p' → ring_inv p' c s' put out xs d e.
Proof.
  intros Hi Er (Hw&Hr&Hu) (Hw'&Hr'&Hu'). apply (producer_moves _ _ _ _ _ _ _ _ _ _ Hi); [done|congruence|left; lia|done].
Qed.

Lemma producer_ring p c me peer s put out p' me' peer' s' ys :
  ring_ok p c s put out → producer_step p me peer s = Some (p', me', peer', s', ys) → ring_ok p' c s' (put ++ ys) out.
Proof.
  intros (xs&d&e&Hi) Hst. pose proof (ri_p _ _ _ _ _ _ _ _ Hi) as Hw. apply bind_Some in Hst as ([[[[p1 me1] peer1] s1] ys1]&Hst&[= -> _ -> -> ->]).
  assert (Hc : ring s' = ring s ∧ ys = [] ∧ calm p' ∧ calm p → ring_ok p' c s' (put ++ ys) out).
  { intros (Er&->&Hp'&Hp). rewrite app_nil_r. exists xs, d, e. by apply (calm_moves p p' c s). }
  destruct p; try done;
    first [by eapply push_step_ring|apply Hc; first [by eapply look_calm|by eapply wait_calm|by eapply wake_calm|by eapply close_calm]].
Qed.

(** ** The consumer *)

Lemma pop_ok_wf g x : consumer_wf (C_advance g x) → consumer_wf (pop_ok g x) ∧ promised (pop_ok g x) = 0 ∧ advancing (pop_ok g x) = 0.
Proof.
  intros Hw. unfold pop_ok. simpl in Hw. destruct (rop g) as [|t a []|a []|] eqn:Eo; simpl; rewrite ?Eo; try done. destruct (rleft g) as [|[|n]]; simpl; done.
Qed.

Lemma pop_none_wf g : consumer_wf (C_refresh g) → consumer_wf (pop_none g) ∧ promised (pop_none g) = 0 ∧ advancing (pop_none g) = 0.
Proof.
  intros Hw. unfold pop_none. simpl in Hw. destruct (rop g) as [|t [] r|a r|] eqn:Eo, (got g) eqn:Eg; try done;
    destruct (last g); simpl; rewrite ?Eo, ?Eg; try done; destruct r; simpl; rewrite ?Eo, ?Eg; done.
Qed.

Lemma pop_step_ring p c me peer s put out xs d e c' me' peer' s' ys :
  ring_inv p c s put out xs d e → pop_step c me peer s = Some (c', me', peer', s', ys) → ring_ok p c' s' put (out ++ ys).
Proof.
  intros Hi Hst. pose proof (inv_range _ _ _ _ _ _ _ _ Hi) as Hr. pose proof (ri_e _ _ _ _ _ _ _ _ Hi) as He. pose proof (ri_c _ _ _ _ _ _ _ _ Hi) as Hw.
  destruct c as [|g|g|g|g x| | | | | | | | | | | | | | | |]; try done; cbn [pop_step] in Hst.
  - injection Hst as <- <- <- <- <-. rewrite app_nil_r. exists xs, d, e. rewrite (cached_empty_iff _ _ _ _ _ _ _ _ Hi). simpl in He.
    destruct (Z.eqb_spec e 0); apply (consumer_moves _ _ _ _ _ _ _ _ _ _ Hi); try done; simpl; lia.
  - injection Hst as <- <- <- <- <-. rewrite app_nil_r. pose proof (refreshed_tail _ _ _ _ _ _ _ _ Hi eq_refl) as Hi1. eexists xs, d, _.
    pose proof (cached_empty_iff _ _ _ _ _ _ _ _ Hi1) as Ee. simpl in Ee. rewrite Ee. destruct (Z.eqb_spec (counted p (C_refresh g) xs) 0).
    + destruct (pop_none_wf g Hw) as (H1&H2&H3). apply (consumer_moves _ _ _ _ _ _ _ _ _ _ Hi1); try done. lia.
    + apply (consumer_moves _ _ _ _ _ _ _ _ _ _ Hi1); try done. simpl. lia.
  - apply bind_Some in Hst as ([x b]&Hb&[= <- <- <- <- <-]). simpl in He. unfold counted in He. simpl in He. destruct xs as [|y xs]; [simpl in He; lia|].
    destruct (ring_rep_read _ _ _ _ _ (ri_rep _ _ _ _ _ _ _ _ Hi)) as (b'&Eb'&Hr'). unfold front in Eb'. simpl in Eb'. rewrite Eb' in Hb. injection Hb as -> ->.
    exists xs, d, e. assert (Ec : counted p (C_advance g x) xs = counted p (C_read g) (x :: xs)) by (unfold counted; simpl; lia).
    destruct Hi. split; rewrite ?Ec; simpl; try done; try lia; [by rewrite ri_hist0, <- app_assoc|simpl in He; lia].
  - injection Hst as <- <- <- <- <-. rewrite app_nil_r. destruct (pop_ok_wf g x Hw) as (H1&H2&H3). exists xs, (d + 1), (e - 1). simpl in He.
    assert (Ec : counted p (pop_ok g x) xs = counted p (C_advance g x) xs - 1) by (unfold counted; rewrite H3; simpl; lia).
    pose proof (tail_front _ _ _ _ _ _ _ _ Hi) as Et.
    destruct Hi. split; rewrite ?Ec, ?H2; unfold front; rewrite ?H3; simpl; try done; try lia.
    + apply u64_add_range.
    + rewrite ri_tail0, u64_shift. f_equal. lia.
    + by rewrite ri_ch0, u64_back.
    + rewrite ri_ct0, u64_shift. f_equal. lia.
Qed.

Definition rcalm c : Prop := consumer_wf c ∧ promised c = 0 ∧ advancing c = 0.

Lemma alive_calm c me peer s c' me' peer' s' ys :
  consumer_wf c → alive_step c me peer s = Some (c', me', peer', s', ys) → ring s' = ring s ∧ ys = [] ∧ rcalm c' ∧ rcalm c.
Proof.
  intros Hw Hst. destruct c as [| | | | |g|g| | | | | | | | | | | | | |]; try done; simpl in Hst; injection Hst as <- <- <- <- <-; (split; [done|]); (split; [done|]); (split; [|done]).
  - destruct Hw as [Eg Ho]. destruct (sender_count s =? 0); (destruct (rop g) as [|[] a []|[] r|] eqn:Eo; try done); unfold wait_or_register; simpl; rewrite ?Eo; (split; [|done]); simpl; rewrite ?Eo; simpl; subst; eauto 8.
  - destruct Hw as [Eg [r Eo]]. unfold wait_or_register. rewrite Eo. destruct r; (split; [|done]); simpl; eauto.
Qed.

Lemma recv_wait_calm c me peer s c' me' peer' s' ys :
  consumer_wf c → recv_wait_step c me peer s = Some (c', me', peer', s', ys) → ring s' = ring s ∧ ys = [] ∧ rcalm c' ∧ rcalm c.
Proof.
  intros Hc Hst. assert (Hw := Hc). destruct c as [| | | | | | |g|g a| | | |g|g|g| | | | | |]; try done; simpl in Hst, Hw.
  - destruct Hw as [Eg [[t Eo]|[b Eo]]]; rewrite Eo in Hst; injection Hst as <- <- <- <- <-; (split; [done|]); (split; [done|]); (split; [|split; [|done]; simpl; eauto 8]); (split; [|done]); done.
  - injection Hst as <- <- <- <- <-. split; [done|]. split; [done|]. split; [|done]. destruct a; try done. destruct Hw as [Eg Ho]. (split; [|done]). simpl. by destruct (rop g).
  - destruct (token me); [|done]. injection Hst as <- <- <- <- <-. split; [done|]. split; [done|]. split; by split.
  - destruct (proj2 Hw) as [t Eo]. rewrite Eo in Hst. apply bind_Some in Hst as (b&_&[= <- <- <- <- <-]). split; [done|]. split; [done|]. split; [split; [apply Hw|done]|by split].
  - destruct (token me); [|done]. injection Hst as <- <- <- <- <-. split; [done|]. split; [done|]. split; [split; [apply Hw|done]|by split].
  - by injection Hst as <- <- <- <- <-.
Qed.

Lemma recv_wake_calm c me peer s c' me' peer' s' ys :
  recv_wake_step c me peer s = Some (c', me', peer', s', ys) → ring s' = ring s ∧ ys = [] ∧ rcalm c' ∧ rcalm c.
Proof.
  intros Hst. destruct c; try done; simpl in Hst.
  - injection Hst as <- <- <- <- <-. split; [done|]. split; [done|]. split; [|done]. by destruct (send_waiters s =? 0).
  - apply bind_Some in Hst as ([[w peer1] s1]&Hw&[= <- <- <- <- <-]). apply wake_one_ring in Hw. split; [done|]. split; [done|]. split; [|done]. by destruct w.
  - by injection Hst as <- <- <- <- <-.
Qed.

Lemma recv_close_calm c me peer s c' me' peer' s' ys :
  recv_close_step c me peer s = Some (c', me', peer', s', ys) → ring s' = ring s ∧ ys = [] ∧ rcalm c' ∧ rcalm c.
Proof.
  intros Hst. destruct c as [| | | | | | | | | | | | | | | |b|b|b|b|]; try done; simpl in Hst.
  - by injection Hst as <- <- <- <- <-.
  - injection Hst as <- <- <- <- <-. split; [done|]. split; [done|]. split; [|done]. by destruct (receiver_count s =? 1), b.
  - apply bind_Some in Hst as ([[w peer1] s1]&Hw&[= <- <- <- <- <-]). apply wake_one_ring in Hw. split; [done|]. split; [done|]. split; [|done]. by destruct w, b.
  - injection Hst as <- <- <- <- <-. split; [done|]. split; [done|]. split; [|done]. by destruct b.
Qed.

Lemma rcalm_moves p c c' s s' put out xs d e :
  ring_inv p c s put out xs d e → ring s' = ring s → rcalm c → rcalm c' → ring_inv p c' s' put out xs d e.
Proof.
  intros Hi Er (Hw&Hr&Hu) (Hw'&Hr'&Hu'). apply (consumer_moves _ _ _ _ _ _ _ _ _ _ Hi); [done|congruence|left; lia|done].
Qed.

Lemma consumer_ring p c me peer s put out c' me' peer' s' ys :
  ring_ok p c s put out → consumer_step c me peer s = Some (c', me', peer', s', ys) → ring_ok p c' s' put (out ++ ys).
Proof.
  intros (xs&d&e&Hi) Hst. pose proof (ri_c _ _ _ _ _ _ _ _ Hi) as Hw. apply bind_Some in Hst as ([[[[c1 me1] peer1] s1] ys1]&Hst&[= -> _ -> -> ->]).
  assert (Hc : ring s' = ring s ∧ ys = [] ∧ rcalm c' ∧ rcalm c → ring_ok p c' s' put (out ++ ys)).
  { intros (Er&->&Hp'&Hp). rewrite app_nil_r. exists xs, d, e. by apply (rcalm_moves p c c' s). }
  destruct c; try done;
    first [by eapply pop_step_ring|apply Hc; first [by eapply alive_calm|by eapply recv_wait_calm|by eapply recv_wake_calm|by eapply recv_close_calm]].
Qed.

(** ** Choices *)

Lemma producer_choice_calm wild ch p me p' me' : producer_wf p → producer_choice wild ch p me = Some (p', me') → calm p' ∧ calm p.
Proof.
  intros Hw Hst. destruct ch as [o xs| | | | | |], p as [r|f|f|f|f|f|f|f|f|f ok|f|f|f|f|f|f| |b|b|b|b|]; try done; simpl in Hst, Hw.
  - destruct (_ && _) eqn:Eg; [|done]. injection Hst as <- <-. split; [|done]. apply andb_prop in Eg as [Eg _]. split; [|done]. simpl.
    destruct o as [|[] []|[] []| |[] []]; try done; simpl in Eg; first [left; split; [done|by apply Nat.eqb_eq]|right; split; [done|]].
    + intros _ ->. done.
    + intros [|[??]]; done.
  - destruct Hw as [[b Eo]|[Hs [Eo|[b Eo]]]]; rewrite Eo in Hst; try done. injection Hst as <- <-. split; [split; [by left|done]|]. split; [|done]. simpl. auto.
  - injection Hst as <- <-. split; [|done]. unfold after_park. destruct Hw as [[[b Eo] Hne]|[Hs Eo]]; rewrite Eo; (split; [|done]); simpl; [|done]. right. split; [done|]. intros [|[??]]; done.
  - injection Hst as <- <-. split; [|done]. split; [|done]. left. destruct Hw as [[Hb Hl] Eo]. done.
  - injection Hst as <- <-. done.
  - destruct (closed me); [done|]. by injection Hst as <- <-.
  - injection Hst as <- <-. by destruct (closed me).
  - destruct (_ || _); [|done]. by injection Hst as <- <-.
Qed.

Lemma consumer_choice_calm wild ch c me c' me' : consumer_wf c → consumer_choice (T:=T) wild ch c me = Some (c', me') → rcalm c' ∧ rcalm c.
Proof.
  intros Hw Hst. destruct ch as [o n| | | | | | |], c as [r|g|g|g|g x|g|g|g|g a|ys|ys|ys|g|g|g| |b|b|b|b|]; try done; simpl in Hst, Hw.
  - destruct (fresh_recv o n) eqn:Ef; [|done]. destruct (closed me); injection Hst as <- <-; [done|]. split; [|done]. split; [|done].
    destruct o as [|[] [] []|[] []|]; try done. simpl in *. by apply Nat.eqb_neq, negb_true_iff.
  - destruct Hw as [Eg [[t Eo]|[b Eo]]]; rewrite Eo in Hst; try done. destruct t; [done|]. injection Hst as <- <-. split; [split; [simpl; by rewrite Eo|done]|]. split; [simpl; eauto|done].
  - by injection Hst as <- <-.
  - destruct Hw as [Eg [b Eo]]. injection Hst as <- <-. split; [|by repeat split; eauto]. done.
  - destruct Hw as [Eg [r Eo]]. rewrite Eo in Hst. simpl in Hst. destruct r; injection Hst as <- <-; (split; [|repeat split; simpl; eauto]); [|done]. split; [simpl; by rewrite Eo|done].
  - by injection Hst as <- <-.
  - destruct (closed me); [done|]. by injection Hst as <- <-.
  - injection Hst as <- <-. by destruct (closed me).
  - destruct (_ || _); [|done]. by injection Hst as <- <-.
Qed.

Lemma new_ring capacity s : 0 < capacity ≤ 2 ^ 63 → new_internal capacity = Some s → ring_ok (P_idle None) (C_idle None) s [] [] ∧ cap (ring s) = capacity.
Proof.
  intros Hc. unfold new_internal, ring_new. destruct (Z.ltb_spec 0 capacity); [|lia]. destruct (Z.leb_spec capacity (2 ^ 63)); [|lia]. intros [= <-]. split; [|done].
  destruct (next_power_of_two_spec capacity Hc) as (k&Hk&Ek&Hle). rewrite Ek.
  assert (Hm : ∃ q, 0 ≤ q ≤ 63 ∧ Z.max (2 ^ k) 2 = 2 ^ q).
  { destruct (decide (k = 0)) as [->|]; [by exists 1|]. exists k. split; [done|]. assert (2 ^ 1 ≤ 2 ^ k) by (apply Z.pow_le_mono_r; lia). lia. }
  assert (Hu : Z.max (2 ^ k) 2 ≤ 2 ^ 63) by (destruct Hm as (q&Hq&->); apply Z.pow_le_mono_r; lia).
  exists [], 0, 0. split; simpl; try done; try lia; rewrite ?u64_sub_small by (unfold U64; lia); [by apply ring_rep_new|lia|unfold counted; simpl; lia].
Qed.

Lemma producer_cap p c me peer s put out p' me' peer' s' ys :
  ring_ok p c s put out → producer_step p me peer s = Some (p', me', peer', s', ys) → cap (ring s') = cap (ring s).
Proof.
  intros (xs&d&e&Hi) Hst. pose proof (ri_p _ _ _ _ _ _ _ _ Hi) as Hw. apply bind_Some in Hst as ([[[[p1 me1] peer1] s1] ys1]&Hst&[= -> _ -> -> ->]).
  destruct p as [| |f|f|f|f|f| | | | | | | | | | | | | | |]; try done;
    try (apply (f_equal cap); first [by eapply look_calm|by eapply wait_calm|by eapply wake_calm|by eapply close_calm]); cbn [push_step] in Hst.
  - by injection Hst as <- <- <- <- <-.
  - by apply bind_Some in Hst as (p1&Hp&[= <- <- <- <- <-]).
  - apply bind_Some in Hst as (x&Hx&Hst). by apply bind_Some in Hst as (b&Hb&[= <- <- <- <- <-]).
  - by injection Hst as <- <- <- <- <-.
  - by injection Hst as <- <- <- <- <-.
Qed.

Lemma consumer_cap p c me peer s put out c' me' peer' s' ys :
  ring_ok p c s put out → consumer_step c me peer s = Some (c', me', peer', s', ys) → cap (ring s') = cap (ring s).
Proof.
  intros (xs&d&e&Hi) Hst. pose proof (ri_c _ _ _ _ _ _ _ _ Hi) as Hw. apply bind_Some in Hst as ([[[[c1 me1] peer1] s1] ys1]&Hst&[= -> _ -> -> ->]).
  destruct c as [|g|g|g|g x| | | | | | | | | | | | | | | |]; try done;
    try (apply (f_equal cap); first [by eapply alive_calm|by eapply recv_wait_calm|by eapply recv_wake_calm|by eapply recv_close_calm]); cbn [pop_step] in Hst;
    try by injection Hst as <- <- <- <- <-.
  by apply bind_Some in Hst as ([x b]&Hb&[= <- <- <- <- <-]).
Qed.

Definition sys_ring (capacity : Z) (t : system T) : Prop := let '(p, _, (c, _), s, (put, out)) := t in ring_ok p c s put out ∧ cap (ring s) = capacity.

Lemma spsc_ring wild capacity t t' : spsc_step wild t t' → sys_ring capacity t → sys_ring capacity t'.
Proof.
  intros [p lp c lc s put out p' lp' lc' s' xs Hst|p lp c lc s put out c' lc' lp' s' xs Hst|p lp c lc s [put out] ch p' lp' Hch|p lp c lc s [put out] ch c' lc' Hch]; simpl; intros [Hok Hc].
  - split; [by eapply producer_ring|]. rewrite <- Hc. by eapply producer_cap.
  - split; [by eapply consumer_ring|]. rewrite <- Hc. by eapply consumer_cap.
  - split; [|done]. destruct Hok as (xs&d&e&Hi). destruct (producer_choice_calm _ _ _ _ _ _ (ri_p _ _ _ _ _ _ _ _ Hi) Hch). exists xs, d, e. by apply (calm_moves p p' c s).
  - split; [|done]. destruct Hok as (xs&d&e&Hi). destruct (consumer_choice_calm _ _ _ _ _ _ (ri_c _ _ _ _ _ _ _ _ Hi) Hch). exists xs, d, e. by apply (rcalm_moves p c c' s).
Qed.
End Steps.
