(* ===== verification/Spsc.v ===== *)
(** * The bounded SPSC channel is a FIFO queue

    Who holds a pointer to whose [notified], that no step of either side is stuck, and the
    refinement theorem. *)

From stdpp Require Import relations.
From S2P Require Import Prelude Ring SpscCore SpscRing.

(** ** Pointers to [notified] *)

Section Notes.
Context {T : Type}.
Implicit Types (s : SpscShared T) (f : SendFrame T) (g : RecvFrame T) (p : Producer T) (c : Consumer T) (l me peer : Local) (x : T) (xs put out : list T).

(** The slot of a side holds a pointer to the [notified] of the call it is in; the call has a [notified] and is not
    registered; no pointer. *)
Inductive Note := Pointing | Fresh | Free.

Definition send_note (o : SendOp) : Note := match o with O_send again reg => if again && reg then Pointing else Fresh | _ => Free end.
Definition recv_note (o : RecvOp) : Note := match o with R_recv _ again reg => if again && reg then Pointing else Fresh | _ => Free end.

Definition producer_note p : Note :=
  match p with
  | P_look f | P_push f | P_refresh f | P_write f | P_publish f | P_register f | P_unregister f _ | P_park f | P_swap f => send_note (op f)
  | _ => Free
  end.

Definition consumer_note c : Note :=
  match c with
  | C_pop g | C_refresh g | C_read g | C_advance g _ | C_alive g | C_deadline g | C_register g | C_unregister g _ | C_park g | C_swap g => recv_note (rop g)
  | _ => Free
  end.

Definition points (w : option (WakeRef * bool)) : bool := match w with Some (_, b) => b | None => false end.

(** [notified] is set exactly when the waiter was taken. *)
Definition note_ok (m : Note) (o : option bool) (w : option (WakeRef * bool)) : Prop :=
  match m with
  | Pointing => o = Some false ∧ (∃ k, w = Some (k, true)) ∨ o = Some true ∧ w = None
  | Fresh => o = Some false ∧ points w = false
  | Free => points w = false
  end.

Definition notes p lp c lc s : Prop := note_ok (producer_note p) (notified lp) (producer_waiter s) ∧ note_ok (consumer_note c) (notified lc) (consumer_waiter s).

Lemma note_free m o w : note_ok m o w → m ≠ Pointing → points w = false.
Proof. destruct m; simpl; tauto. Qed.

(** The peer is woken. *)
Lemma wake_one_goes m role peer s :
  note_ok m (notified peer) (match role with Send => producer_waiter s | Recv => consumer_waiter s end) →
  ∃ b peer' s', wake_one role peer s = Some (b, peer', s') ∧ note_ok m (notified peer') None ∧ closed peer' = closed peer ∧ token peer' = token peer ∧
    (s' = set_waiter role None 0 s ∧ b = true ∨ s' = s ∧ b = false ∧ match role with Send => producer_waiter s | Recv => consumer_waiter s end = None).
Proof.
  intros Hn. unfold wake_one. destruct (match role with Send => _ | Recv => _ end) as [[k []]|] eqn:Ew.
  - destruct m; simpl in Hn; [|by destruct Hn|done]. destruct Hn as [[-> _]|[_ ?]]; [|done]. do 3 eexists. split; [done|]. split; [by right|]. auto.
  - do 3 eexists. split; [done|]. split; [|auto]. destruct m; simpl in *; [|tauto|done]. destruct Hn as [[_ [? ?]]|[_ ?]]; done.
  - do 3 eexists. split; [done|]. split; [done|auto 8].
Qed.

Lemma wake_one_ok m role peer s b peer' s' :
  note_ok m (notified peer) (match role with Send => producer_waiter s | Recv => consumer_waiter s end) → wake_one role peer s = Some (b, peer', s') →
  note_ok m (notified peer') (match role with Send => producer_waiter s' | Recv => consumer_waiter s' end) ∧
  match role with Send => consumer_waiter s' = consumer_waiter s | Recv => producer_waiter s' = producer_waiter s end.
Proof.
  intros Hn Hw. destruct (wake_one_goes m role peer s Hn) as (b1&peer1&s1&E&Hn1&_&_&Hs). rewrite E in Hw. injection Hw as -> -> ->.
  destruct Hs as [[-> _]|(->&_&Ew)]; destruct role; simpl; rewrite ?Ew; done.
Qed.

Lemma note_abandon f o w : note_ok (send_note (op f)) o w → note_ok (producer_note (abandon f)) o w.
Proof. unfold abandon. destruct (op f) as [|[] []|a []| |a []] eqn:Eo; simpl; rewrite ?Eo; simpl; tauto. Qed.

Lemma note_after_batch f o w : batch (op f) = true → points w = false → note_ok (producer_note (after_batch f)) o w.
Proof. unfold after_batch. intros Hb Hw. destruct (items f), (op f) as [| | | |[] []] eqn:Eo; try done; simpl; by rewrite ?Eo. Qed.

Lemma note_after_notify f o w : points w = false → note_ok (producer_note (after_notify f)) o w.
Proof. intros Hw. unfold after_notify. destruct (op f) eqn:Eo; try done; apply note_after_batch; by rewrite ?Eo. Qed.

Lemma note_batch_next f o w : batch (op f) = true → points w = false → note_ok (producer_note (batch_next f)) o w.
Proof.
  intros Hb Hw. unfold batch_next. destruct (left f); [destruct (wrote f); [done|by apply note_after_batch]|]. simpl. by destruct (op f).
Qed.

Lemma push_notes p me peer s p' me' peer' s' ys :
  producer_wf p → note_ok (producer_note p) (notified me) (producer_waiter s) → push_step p me peer s = Some (p', me', peer', s', ys) →
  note_ok (producer_note p') (notified me') (producer_waiter s') ∧ peer' = peer ∧ consumer_waiter s' = consumer_waiter s.
Proof.
  intros Hw Hp Hst. destruct p as [| |f|f|f|f|f| | | | | | | | | | | | | | |]; try done; cbn [push_step] in Hst.
  - injection Hst as <- <- <- <- <-. by destruct (cached_full _).
  - apply bind_Some in Hst as (p1&Hq&[= <- <- <- <- <-]). split; [|done]. simpl in *. destruct (cached_full _); [|by injection Hq as <-]. unfold push_full in Hq.
    destruct (op f) as [|[] []|[] []| |] eqn:Eo; try done; injection Hq as <-; simpl in *; rewrite ?Eo; simpl; tauto.
  - apply bind_Some in Hst as (x&Hx&Hst). by apply bind_Some in Hst as (b&Hb&[= <- <- <- <- <-]).
  - injection Hst as <- <- <- <- <-. split; [|done]. simpl in *. unfold push_ok. destruct (op f) as [|[] []|a []| |a b] eqn:Eo; simpl in *; rewrite ?Eo; simpl; try tauto; by apply note_batch_next.
  - injection Hst as <- <- <- <- <-. split; [|done]. simpl in Hw. apply note_batch_next; [done|]. simpl in *. by destruct (op f).
Qed.


Lemma look_notes p me peer s p' me' peer' s' ys :
  note_ok (producer_note p) (notified me) (producer_waiter s) → look_step p me peer s = Some (p', me', peer', s', ys) →
  note_ok (producer_note p') (notified me') (producer_waiter s') ∧ peer' = peer ∧ consumer_waiter s' = consumer_waiter s.
Proof.
  intros Hp Hst. destruct p as [|f| | | | | |f| | | | | | | | | | | | | |]; try done; cbn [look_step] in Hst; simpl in Hp; [|by injection Hst as <- <- <- <- <-].
  pose proof (note_abandon f _ _ Hp) as Hg.
  destruct (op f) as [|[] []|[] b| |[] b] eqn:Eo; injection Hst as <- <- <- <- <-; (split; [|done]); destruct (consumer_dropped s), (closed me); simpl; rewrite ?Eo; simpl in *; try done; tauto.
Qed.

Lemma wait_notes p me peer s p' me' peer' s' ys :
  producer_wf p → note_ok (producer_note p) (notified me) (producer_waiter s) → send_wait_step p me peer s = Some (p', me', peer', s', ys) →
  note_ok (producer_note p') (notified me') (producer_waiter s') ∧ peer' = peer ∧ consumer_waiter s' = consumer_waiter s.
Proof.
  intros Hw Hp Hst. destruct p as [| | | | | | | |f|f ok| | | |f|f|f| | | | | |]; try done; simpl in Hst, Hw, Hp.
  - destruct Hw as [[b Eo]|[Hs [Eo|[b Eo]]]]; rewrite Eo in Hst, Hp; injection Hst as <- <- <- <- <-; (split; [|done]); simpl in *; [done| |done]. left. split; [tauto|by eexists].
  - injection Hst as <- <- <- <- <-. split; [|done]. simpl. destruct ok; [|done]. by destruct (op f).
  - destruct (token me); [|done]. injection Hst as <- <- <- <- <-. split; [|done]. unfold after_park. destruct Hw as [[[b Eo] Hne]|[Hs Eo]]; rewrite Eo in *; simpl; rewrite ?Eo; done.
  - destruct Hw as [Hs Eo]. rewrite Eo in *. apply bind_Some in Hst as (b&Hb&[= <- <- <- <- <-]). split; [|done]. simpl in *.
    destruct Hp as [[Ho Hw]|[Ho Hw]]; rewrite Ho in Hb; injection Hb as <-; simpl; [by left|]. by rewrite Hw.
  - destruct (token me); [|done]. injection Hst as <- <- <- <- <-. done.
  - by injection Hst as <- <- <- <- <-.
Qed.

Lemma wake_notes m p me peer s p' me' peer' s' ys :
  note_ok m (notified peer) (consumer_waiter s) → note_ok (producer_note p) (notified me) (producer_waiter s) → 
  send_wake_step p me peer s = Some (p', me', peer', s', ys) ∨ send_close_step p me peer s = Some (p', me', peer', s', ys) →
  note_ok (producer_note p') (notified me') (producer_waiter s') ∧ note_ok m (notified peer') (consumer_waiter s').
Proof.
  intros Hm Hp Hor. destruct Hor as [Hst|Hst]; destruct p as [| | | | | | | | | |f|f|f| | | | |b|b|b|b|]; try done; simpl in Hst, Hp.
  - injection Hst as <- <- <- <- <-. split; [|done]. destruct (negb _); [done|]. by apply note_after_notify.
  - apply bind_Some in Hst as ([[w peer1] s1]&Hw&[= <- <- <- <- <-]). destruct (wake_one_ok m Recv _ _ _ _ _ Hm Hw) as [Hm' Ew]. simpl in Ew, Hm'. rewrite Ew. split; [|done].
    destruct w; [done|]. by apply note_after_notify.
  - injection Hst as <- <- <- <- <-. split; [|done]. by apply note_after_notify.
  - by injection Hst as <- <- <- <- <-.
  - injection Hst as <- <- <- <- <-. split; [|done]. by destruct (sender_count s =? 1), b.
  - apply bind_Some in Hst as ([[w peer1] s1]&Hw&[= <- <- <- <- <-]). destruct (wake_one_ok m Recv _ _ _ _ _ Hm Hw) as [Hm' Ew]. simpl in Ew, Hm'. rewrite Ew. split; [|done].
    by destruct w, b.
  - injection Hst as <- <- <- <- <-. split; [|done]. by destruct b.
Qed.

Lemma producer_notes p c me peer s p' me' peer' s' ys :
  producer_wf p → notes p me c peer s → producer_step p me peer s = Some (p', me', peer', s', ys) → notes p' me' c peer' s'.
Proof.
  intros Hw [Hp Hc] Hst. apply bind_Some in Hst as ([[[[p1 me1] peer1] s1] ys1]&Hst&[= -> <- -> -> ->]).
  assert (Hk : note_ok (producer_note p') (notified me1) (producer_waiter s') ∧ note_ok (consumer_note c) (notified peer') (consumer_waiter s') → notes p' (leave_call p' me1) c peer' s').
  { intros [H1 H2]. split; [|done]. by destruct p'. }
  assert (Hq : note_ok (producer_note p') (notified me1) (producer_waiter s') ∧ peer' = peer ∧ consumer_waiter s' = consumer_waiter s → notes p' (leave_call p' me1) c peer' s').
  { intros (H1&->&Ew). apply Hk. by rewrite Ew. }
  destruct p; try done;
    first [by apply Hq; first [by eapply push_notes|by eapply look_notes|by eapply wait_notes]|by apply Hk; eapply wake_notes; [done|done|]; first [by left|by right]].
Qed.

Lemma pop_notes c me peer s c' me' peer' s' ys :
  consumer_wf c → note_ok (consumer_note c) (notified me) (consumer_waiter s) → pop_step c me peer s = Some (c', me', peer', s', ys) ∨ alive_step c me peer s = Some (c', me', peer', s', ys) →
  note_ok (consumer_note c') (notified me') (consumer_waiter s') ∧ peer' = peer ∧ producer_waiter s' = producer_waiter s.
Proof.
  intros Hw Hc Hor. destruct Hor as [Hst|Hst]; destruct c as [r|g|g|g|g x|g|g|g|g a|ys'|ys'|ys'|g|g|g| |b|b|b|b|]; try done; cbn [pop_step alive_step] in Hst; simpl in Hc.
  - injection Hst as <- <- <- <- <-. by destruct (cached_empty _).
  - injection Hst as <- <- <- <- <-. split; [|done]. destruct (cached_empty _); [|done]. unfold pop_none.
    destruct (rop g) as [|t [] []|[] []|] eqn:Eo, (got g) eqn:Eg, (last g); simpl in *; rewrite ?Eo; simpl; try done; tauto.
  - by apply bind_Some in Hst as ([x b]&Hb&[= <- <- <- <- <-]).
  - injection Hst as <- <- <- <- <-. split; [|done]. unfold pop_ok. destruct (rop g) as [|t [] []|[] []|] eqn:Eo; simpl in *; rewrite ?Eo; simpl; try done; try tauto. by destruct (pred (rleft g)).
  - injection Hst as <- <- <- <- <-. split; [|done]. unfold wait_or_register. destruct (sender_count s =? 0), (rop g) as [|[] [] []|[] []|] eqn:Eo; simpl in *; rewrite ?Eo; simpl; try done; tauto.
  - injection Hst as <- <- <- <- <-. split; [|done]. unfold wait_or_register. destruct (rregistered (rop g)); done.
Qed.

Lemma recv_wait_notes c me peer s c' me' peer' s' ys :
  consumer_wf c → note_ok (consumer_note c) (notified me) (consumer_waiter s) → recv_wait_step c me peer s = Some (c', me', peer', s', ys) →
  note_ok (consumer_note c') (notified me') (consumer_waiter s') ∧ peer' = peer ∧ producer_waiter s' = producer_waiter s.
Proof.
  intros Hw Hc Hst. destruct c as [r|g|g|g|g x|g|g|g|g a|ys'|ys'|ys'|g|g|g| |b|b|b|b|]; try done; simpl in Hst, Hw, Hc.
  - destruct Hw as [Eg [[t Eo]|[b Eo]]]; rewrite Eo in Hst, Hc; injection Hst as <- <- <- <- <-; (split; [|done]); simpl in *; [|done]. left. split; [tauto|by eexists].
  - injection Hst as <- <- <- <- <-. split; [|done]. destruct a; try done. destruct Hw as [_ Ho]. simpl. by destruct (rop g) as [|t [] r| |].
  - destruct (token me); [|done]. by injection Hst as <- <- <- <- <-.
  - destruct Hw as [Eg [t Eo]]. rewrite Eo in *. apply bind_Some in Hst as (b&Hb&[= <- <- <- <- <-]). split; [|done]. simpl in *.
    destruct Hc as [[Ho Hw]|[Ho Hw]]; rewrite Ho in Hb; injection Hb as <-; simpl; [by left|]. by rewrite Hw.
  - destruct (token me); [|done]. by injection Hst as <- <- <- <- <-.
  - by injection Hst as <- <- <- <- <-.
Qed.

Lemma recv_wake_notes m c me peer s c' me' peer' s' ys :
  note_ok m (notified peer) (producer_waiter s) → note_ok (consumer_note c) (notified me) (consumer_waiter s) →
  recv_wake_step c me peer s = Some (c', me', peer', s', ys) ∨ recv_close_step c me peer s = Some (c', me', peer', s', ys) →
  note_ok (consumer_note c') (notified me') (consumer_waiter s') ∧ note_ok m (notified peer') (producer_waiter s').
Proof.
  intros Hm Hc Hor. destruct Hor as [Hst|Hst]; destruct c as [r|g|g|g|g x|g|g|g|g a|ys'|ys'|ys'|g|g|g| |b|b|b|b|]; try done; simpl in Hst, Hc.
  - injection Hst as <- <- <- <- <-. split; [|done]. by destruct (negb _).
  - apply bind_Some in Hst as ([[w peer1] s1]&Hw&[= <- <- <- <- <-]). destruct (wake_one_ok m Send _ _ _ _ _ Hm Hw) as [Hm' Ew]. simpl in Ew, Hm'. rewrite Ew. split; [|done].
    by destruct w.
  - by injection Hst as <- <- <- <- <-.
  - by injection Hst as <- <- <- <- <-.
  - injection Hst as <- <- <- <- <-. split; [|done]. by destruct (receiver_count s =? 1), b.
  - apply bind_Some in Hst as ([[w peer1] s1]&Hw&[= <- <- <- <- <-]). destruct (wake_one_ok m Send _ _ _ _ _ Hm Hw) as [Hm' Ew]. simpl in Ew, Hm'. rewrite Ew. split; [|done].
    by destruct w, b.
  - injection Hst as <- <- <- <- <-. split; [|done]. by destruct b.
Qed.

Lemma consumer_notes p c me peer s c' me' peer' s' ys :
  consumer_wf c → notes p peer c me s → consumer_step c me peer s = Some (c', me', peer', s', ys) → notes p peer' c' me' s'.
Proof.
  intros Hw [Hp Hc] Hst. apply bind_Some in Hst as ([[[[c1 me1] peer1] s1] ys1]&Hst&[= -> <- -> -> ->]).
  assert (Hk : note_ok (consumer_note c') (notified me1) (consumer_waiter s') ∧ note_ok (producer_note p) (notified peer') (producer_waiter s') → notes p peer' c' (rleave_call c' me1) s').
  { intros [H1 H2]. split; [done|]. by destruct c'. }
  assert (Hq : note_ok (consumer_note c') (notified me1) (consumer_waiter s') ∧ peer' = peer ∧ producer_waiter s' = producer_waiter s → notes p peer' c' (rleave_call c' me1) s').
  { intros (H1&->&Ew). apply Hk. by rewrite Ew. }
  destruct c; try done;
    first [by apply Hq; first [by eapply recv_wait_notes|by eapply pop_notes; [done|done|]; first [by left|by right]]|by apply Hk; eapply recv_wake_notes; [done|done|]; first [by left|by right]].
Qed.

Lemma producer_choice_notes wild ch p me c peer s p' me' :
  producer_wf p → notes p me c peer s → producer_choice wild ch p me = Some (p', me') → notes p' me' c peer s ∧ token me' = token me.
Proof.
  intros Hw [Hp Hc] Hst.
  destruct ch as [o xs| | | | | |], p as [r|f|f|f|f|f|f|f|f|f ok|f|f|f|f|f|f| |b|b|b|b|]; try done; simpl in Hst, Hw, Hp.
  - destruct (_ && _) eqn:Eg; [|done]. injection Hst as <- <-. split; [|done]. split; [|done]. destruct o as [|[] []|[] []| |[] []]; done.
  - destruct (op f) eqn:Eo; try done. injection Hst as <- <-. split; [|done]. split; [|done]. simpl. by rewrite Eo.
  - injection Hst as <- <-. split; [|done]. split; [|done]. unfold after_park. destruct Hw as [[[b Eo] Hne]|[Hs Eo]]; rewrite Eo in *; simpl; rewrite ?Eo; done.
  - by injection Hst as <- <-.
  - by injection Hst as <- <-.
  - destruct (closed me); [done|]. by injection Hst as <- <-.
  - injection Hst as <- <-. by destruct (closed me).
  - destruct (_ || _); [|done]. by injection Hst as <- <-.
Qed.

Lemma consumer_choice_notes wild ch p c me peer s c' me' :
  consumer_wf c → notes p peer c me s → consumer_choice wild ch c me = Some (c', me') → notes p peer c' me' s ∧ token me' = token me.
Proof.
  intros Hw [Hp Hc] Hst. destruct ch as [o n| | | | | | |], c as [r|g|g|g|g x|g|g|g|g a|ys'|ys'|ys'|g|g|g| |b|b|b|b|]; try done; simpl in Hst, Hw, Hc.
  - destruct (fresh_recv o n) eqn:Ef; [|done]. destruct (closed me); injection Hst as <- <-; [done|]. split; [|done]. split; [done|]. by destruct o as [|t [] []|[] []|].
  - destruct (rop g) as [|[] ? ?| |] eqn:Eo; try done. injection Hst as <- <-. split; [|done]. split; [done|]. simpl. by rewrite Eo.
  - by injection Hst as <- <-.
  - by injection Hst as <- <-.
  - destruct Hw as [Eg [r Eo]]. rewrite Eo in *. simpl in *. destruct r; injection Hst as <- <-; (split; [|done]); (split; [done|]); simpl in *; rewrite ?Eo; simpl; tauto.
  - by injection Hst as <- <-.
  - destruct (closed me); [done|]. by injection Hst as <- <-.
  - injection Hst as <- <-. by destruct (closed me).
  - destruct (_ || _); [|done]. by injection Hst as <- <-.
Qed.
End Notes.

(** ** No step is stuck *)

Section Progress.
Context {T : Type}.
Implicit Types (s : SpscShared T) (f : SendFrame T) (g : RecvFrame T) (p : Producer T) (c : Consumer T) (l me peer : Local) (x : T) (xs put out : list T).

Definition producer_at_rest p l : Prop :=
  match p with P_idle _ | P_gone => True | P_park _ | P_pending _ => token l = false | _ => False end.
Definition consumer_at_rest c l : Prop :=
  match c with C_idle _ | C_gone => True | C_park _ | C_pending _ => token l = false | _ => False end.

Lemma producer_goes p c me peer s put out : ring_ok p c s put out → notes p me c peer s → ¬ producer_at_rest p me → is_Some (producer_step p me peer s).
Proof.
  intros (xs&d&e&Hi) [Hp Hc] Hr. pose proof (ri_p _ _ _ _ _ _ _ _ Hi) as Hw. pose proof (inv_range _ _ _ _ _ _ _ _ Hi) as Hrg. pose proof (ri_d _ _ _ _ _ _ _ _ Hi) as Hd.
  destruct p as [r|f|f|f|f|f|f|f|f|f ok|f|f|f|f|f|f| |b|b|b|b|]; try (by exfalso; apply Hr); unfold producer_step; cbn [look_step push_step send_wait_step send_wake_step send_close_step]; try by eexists.
  - by destruct (op f) as [|[] ?|? ?| |[] ?]; eexists.
  - destruct Hw as [Hb Hl]. destruct (cached_full _); [|by eexists]. unfold push_full. destruct (op f) as [|[] ?|? ?| |[] ?]; try done; by eexists.
  - assert (Hne : items f ≠ []) by (intros E; destruct Hw as [[_ Hl]|[_ Hl]]; rewrite E in Hl; simpl in Hl; lia). destruct (items f) as [|x ys]; [done|]. simpl.
    assert (Hr1 : 1 ≤ (if batch (op f) then Z.of_nat (left f) else 1)) by (destruct Hw as [[-> ?]|[-> ?]]; lia).
    unfold counted in Hd. simpl in Hd. pose proof (ri_cap _ _ _ _ _ _ _ _ Hi) as Hcp.
    destruct (ring_rep_write _ _ _ _ x (ri_rep _ _ _ _ _ _ _ _ Hi)) as (b'&Eb'&_); [lia|].
    rewrite (tail_front _ _ _ _ _ _ _ _ Hi). simpl. rewrite Z.sub_0_r, Eb'. by eexists.
  - destruct Hw as [[b Eo]|[_ [Eo|[b Eo]]]]; rewrite Eo; by eexists.
  - destruct (wake_one_goes (consumer_note c) Recv peer s Hc) as (b&peer'&s'&->&_). by eexists.
  - simpl in Hr. destruct (token me); [by eexists|done].
  - destruct Hw as [_ Eo]. simpl in Hp. rewrite Eo in Hp. destruct Hp as [[-> _]|[-> _]]; by eexists.
  - simpl in Hr. destruct (token me); [by eexists|done].
  - destruct (wake_one_goes (consumer_note c) Recv peer s Hc) as (b'&peer'&s'&->&_). by eexists.
Qed.

Lemma consumer_goes p c me peer s put out : ring_ok p c s put out → notes p peer c me s → ¬ consumer_at_rest c me → is_Some (consumer_step c me peer s).
Proof.
  intros (xs&d&e&Hi) [Hp Hc] Hr. pose proof (ri_c _ _ _ _ _ _ _ _ Hi) as Hw. pose proof (inv_range _ _ _ _ _ _ _ _ Hi) as Hrg. pose proof (ri_e _ _ _ _ _ _ _ _ Hi) as He.
  destruct c as [r|g|g|g|g x|g|g|g|g a|ys|ys|ys|g|g|g| |b|b|b|b|]; try (by exfalso; apply Hr); unfold consumer_step; cbn [pop_step alive_step recv_wait_step recv_wake_step recv_close_step]; try by eexists.
  - simpl in He. unfold counted in He. simpl in He. destruct xs as [|y xs]; [simpl in He; lia|].
    destruct (ring_rep_read _ _ _ _ _ (ri_rep _ _ _ _ _ _ _ _ Hi)) as (b'&Eb'&Hr'). unfold front in Eb'. simpl in Eb'. rewrite Eb'. by eexists.
  - destruct Hw as [_ [[t Eo]|[b Eo]]]; rewrite Eo; by eexists.
  - destruct (wake_one_goes (producer_note p) Send peer s Hp) as (b'&peer'&s'&->&_). by eexists.
  - simpl in Hr. destruct (token me); [by eexists|done].
  - destruct Hw as [_ [t Eo]]. simpl in Hc. rewrite Eo in *. destruct Hc as [[-> _]|[-> _]]; by eexists.
  - simpl in Hr. destruct (token me); [by eexists|done].
  - destruct (wake_one_goes (producer_note p) Send peer s Hp) as (b'&peer'&s'&->&_). by eexists.
Qed.

(** ** The queue *)

Definition sys_notes (t : system T) : Prop := let '(p, lp, (c, lc), s, _) := t in notes p lp c lc s.

Lemma spsc_notes wild capacity t t' : spsc_step wild t t' → sys_ring capacity t → sys_notes t → sys_notes t'.
Proof.
  intros [p lp c lc s put out p' lp' lc' s' xs Hst|p lp c lc s put out c' lc' lp' s' xs Hst|p lp c lc s [put out] ch p' lp' Hch|p lp c lc s [put out] ch c' lc' Hch]; simpl; intros [(ys&d&e&Hi) _] Hn;
    pose proof (ri_p _ _ _ _ _ _ _ _ Hi) as Hwp; pose proof (ri_c _ _ _ _ _ _ _ _ Hi) as Hwc.
  - by eapply producer_notes.
  - by eapply consumer_notes.
  - by eapply producer_choice_notes.
  - by eapply consumer_choice_notes.
Qed.

Lemma spsc_base wild capacity s t :
  0 < capacity ≤ 2 ^ 63 → new_internal capacity = Some s → rtc (spsc_step (T:=T) wild) (start s) t → sys_ring capacity t ∧ sys_notes t.
Proof.
  intros Hc Hnew. revert t. refine (rtc_ind_r _ _ _ _).
  - destruct (new_ring capacity s Hc Hnew) as [Hok Hcap]. split; [done|]. unfold new_internal, ring_new in Hnew.
    destruct (Z.ltb_spec 0 capacity); [|lia]. by injection Hnew as <-.
  - intros t1 t2 _ Hst [H1 H2]. split; [by eapply spsc_ring|by eapply spsc_notes].
Qed.

(** C3: In every interleaving of the producer's and the consumer's calls (blocking, timed, polled at any time or dropped, batches, closes,
    conversions), the channel is a FIFO queue: what was taken out is a prefix of what was put in, at most the capacity is in between,
    [len] counts it when no access is under way; and no side gets stuck (on a slot that is not initialised, the [unreachable!], or a dangling [notified]). *)
Theorem spsc_fifo wild capacity s p lp c lc s' put out :
  0 < capacity ≤ 2 ^ 63 → new_internal capacity = Some s → rtc (spsc_step wild) (start s) (p, lp, (c, lc), s', (put, out)) →
  (∃ xs, put = out ++ xs ∧ Z.of_nat (length xs) ≤ capacity ∧ (producer_at_rest p lp → consumer_at_rest c lc → len (ring s') = Z.of_nat (length xs))) ∧
  0 ≤ len (ring s') ≤ capacity ∧
  (¬ producer_at_rest p lp → is_Some (producer_step p lp lc s')) ∧ (¬ consumer_at_rest c lc → is_Some (consumer_step c lc lp s')).
Proof.
  intros Hc Hnew Hr. destruct (spsc_base wild capacity s _ Hc Hnew Hr) as [[Hok Hcap] Hn].
  split; [|split; [|split; [intros; by eapply producer_goes|intros; by eapply consumer_goes]]].
  - destruct Hok as (xs&d&e&Hi). pose proof (inv_range _ _ _ _ _ _ _ _ Hi) as Hrg. pose proof (ri_d _ _ _ _ _ _ _ _ Hi) as Hd. exists xs. split; [apply Hi|].
    assert (Hl : Z.of_nat (length xs) ≤ capacity).
    { unfold counted in Hd. rewrite Hcap in Hd. destruct p as [r|f|f|f|f|f|f|f|f|f ok|f|f|f|f|f|f| |b|b|b|b|]; simpl in Hd, Hrg; try lia.
      pose proof (ri_p _ _ _ _ _ _ _ _ Hi) as Hw. simpl in Hw. destruct Hw as [Hb|[Hb Hl]]; rewrite Hb in Hd; lia. }
    split; [done|]. intros Hp Hcc. unfold len. rewrite (ri_tail _ _ _ _ _ _ _ _ Hi), ring_dist; [|apply Hi|lia|unfold U64; lia]. unfold counted in *. destruct p, c; try done; simpl in *; lia.
  - destruct Hok as (xs&d&e&Hi). pose proof (inv_range _ _ _ _ _ _ _ _ Hi) as Hrg. unfold len. rewrite (ri_tail _ _ _ _ _ _ _ _ Hi), ring_dist; [lia|apply Hi|lia|unfold U64; lia].
Qed.
End Progress.
