(* ===== verification/SpscLive.v ===== *)
(** * The bounded SPSC channel loses no wake-up

    A side that waits registered itself, then saw the ring full (or empty) and the other
    handle alive.  [good] keeps that: until its token comes, it is registered and what it
    saw is still so, or the other side is on its way to wake it.  Handles are not converted once
    closed, nor is [send_batch] called on one (the runs at the end of the file show what follows then). *)

From stdpp Require Import relations.
From S2P Require Import Prelude Ring SpscCore SpscRing Spsc.

Section Live.
Context {T : Type}.
Implicit Types (s : SpscShared T) (r : Ring T) (f : SendFrame T) (g : RecvFrame T) (p : Producer T) (c : Consumer T) (l me peer lp lc : Local) (x : T) (xs put out : list T).

(** Published values that were not taken. *)
Definition occupied s : Z := tail (ring s) -w head (ring s).

(** About to set the other's token; to wake it after an index moved; to wake it after a close. *)
Definition p_unparks p : Prop := match p with P_unpark _ | P_close_unpark _ => True | _ => False end.
Definition c_unparks c : Prop := match c with C_unpark _ | C_close_unpark _ => True | _ => False end.

Definition p_moved p : Prop :=
  match p with
  | P_push f | P_write f | P_publish f => batch (op f) = true ∧ wrote f = true
  | P_unregister f ok => ok = true ∧ batch (op f) = false
  | P_notify _ | P_wake _ => True
  | _ => False
  end.
Definition c_moved c : Prop :=
  match c with
  | C_pop g | C_refresh g | C_read g | C_advance g _ => got g ≠ []
  | C_unregister _ (U_got _) | C_notify _ | C_wake _ => True
  | _ => False
  end.

Definition p_closing p : Prop := match p with P_close_wake _ => True | _ => False end.
Definition c_closing c : Prop := match c with C_count _ | C_close_wake _ => True | _ => False end.

(** Registered in this attempt; and saw the receiver alive since; and saw no room. *)
Definition second (o : SendOp) : bool := match o with O_send true true | O_poll true _ | O_batch true _ => true | _ => false end.
Definition second_batch (o : SendOp) : bool := match o with O_batch true _ => true | _ => false end.
Definition second_single (o : SendOp) : bool := match o with O_send true true | O_poll true _ => true | _ => false end.

Definition p_listens p : Prop :=
  match p with
  | P_look f | P_push f | P_refresh f | P_free f | P_write f | P_publish f | P_park f | P_pending f => second (op f) = true
  | P_notify f | P_wake f | P_unpark f => second_batch (op f) = true
  | _ => False
  end.
Definition p_saw_alive p : Prop :=
  match p with P_park _ | P_pending _ => True | P_push f | P_refresh f => second_single (op f) = true | _ => False end.
Definition p_saw_full p : Prop :=
  match p with
  | P_park _ | P_pending _ => True
  | P_look f => second_batch (op f) = true
  | P_push f | P_write f => second_batch (op f) = true ∧ (left f < length (items f))%nat
  | P_publish f => second_batch (op f) = true ∧ (left f ≤ length (items f))%nat
  | P_notify f | P_wake f | P_unpark f => second_batch (op f) = true ∧ items f ≠ []
  | _ => False
  end.

Definition rsecond g : Prop := last g = false ∧ match rop g with R_recv _ true true | R_poll true _ => True | _ => False end.
Definition c_listens c : Prop :=
  match c with C_pop g | C_refresh g | C_alive g | C_deadline g => rsecond g | C_park _ | C_pending _ => True | _ => False end.
Definition c_saw_empty c : Prop := match c with C_alive g | C_deadline g => rsecond g | C_park _ | C_pending _ => True | _ => False end.
Definition c_saw_alive c : Prop := match c with C_deadline g => rsecond g | C_park _ | C_pending _ => True | _ => False end.

Definition good l (unparks : Prop) (w : option (WakeRef * bool)) (need : Prop) : Prop := token l = true ∨ unparks ∨ (w ≠ None ∧ need).

(** A handle is counted until it is closed; only an open handle is in a call. *)
Definition producer_live p lp s : Prop :=
  match p with
  | P_drop _ | P_count _ => closed lp = true ∧ sender_count s = 1
  | P_close_wake _ | P_close_unpark _ | P_gone => closed lp = true ∧ sender_count s = 0
  | P_idle _ => sender_count s = if closed lp then 0 else 1
  | P_look f => (sender_count s = if closed lp then 0 else 1) ∧ (closed lp = true → match op f with O_try | O_send false _ | O_poll _ false | O_try_batch => True | _ => False end)
  | _ => closed lp = false ∧ sender_count s = 1
  end.

Definition consumer_live c lc s : Prop :=
  match c with
  | C_drop _ => closed lc = true ∧ receiver_count s = 1 ∧ consumer_dropped s = false
  | C_count _ => closed lc = true ∧ receiver_count s = 1 ∧ consumer_dropped s = true
  | C_close_wake _ | C_close_unpark _ | C_gone => closed lc = true ∧ receiver_count s = 0 ∧ consumer_dropped s = true
  | C_idle _ => if closed lc then receiver_count s = 0 ∧ consumer_dropped s = true else receiver_count s = 1 ∧ consumer_dropped s = false
  | _ => closed lc = false ∧ receiver_count s = 1 ∧ consumer_dropped s = false
  end.

(** What a [Disconnected] says. *)
Definition consumer_end c lc s : Prop :=
  match c with
  | C_pop g | C_refresh g | C_read g | C_advance g _ => last g = true → sender_count s = 0
  | C_alive g | C_deadline g | C_register g | C_park g | C_swap g | C_pending g => last g = false
  | C_unregister _ U_last => sender_count s = 0
  | C_unregister _ U_disconnected => sender_count s = 0 ∧ occupied s = 0
  | C_idle (Some Err_disconnected) => closed lc = true ∨ sender_count s = 0 ∧ occupied s = 0
  | _ => True
  end.

Definition flags s : Prop :=
  send_waiters s = (if producer_waiter s then 1 else 0) ∧ recv_waiters s = (if consumer_waiter s then 1 else 0).

Record p_good p lp c s : Prop := {
  pg_listens : p_listens p → good lp (c_unparks c) (producer_waiter s) True;
  pg_full : p_saw_full p → good lp (c_unparks c) (producer_waiter s) (occupied s + reserved p = cap (ring s) ∨ c_moved c);
  pg_alive : p_saw_alive p → good lp (c_unparks c) (producer_waiter s) (consumer_dropped s = false ∨ c_closing c);
}.

Record c_good c lc p s : Prop := {
  cg_listens : c_listens c → good lc (p_unparks p) (consumer_waiter s) True;
  cg_empty : c_saw_empty c → good lc (p_unparks p) (consumer_waiter s) (occupied s = 0 ∨ p_moved p);
  cg_alive : c_saw_alive c → good lc (p_unparks p) (consumer_waiter s) (sender_count s ≠ 0 ∨ p_closing p);
}.

Record live p lp c lc s : Prop := {
  lv_p : producer_live p lp s;
  lv_c : consumer_live c lc s;
  lv_end : consumer_end c lc s;
  lv_flags : flags s;
  lv_pg : p_good p lp c s;
  lv_cg : c_good c lc p s;
}.

Lemma good_mono l l' (u u' : Prop) w w' (n n' : Prop) :
  good l u w n → (token l = true → token l' = true) → (u → token l' = true ∨ u') → (w ≠ None → n → token l' = true ∨ u' ∨ w' ≠ None ∧ n') → good l' u' w' n'.
Proof. unfold good. tauto. Qed.

(** What the consumer waits for is kept by a step of the producer that moves no index, closes nothing and wakes nobody;
    or moves an index; or closes; or wakes. *)
Lemma c_good_kept c lc lc' p p' s s' :
  c_good c lc p s → (token lc = true → token lc' = true) → (p_unparks p → token lc' = true ∨ p_unparks p') →
  (consumer_waiter s ≠ None → token lc' = true ∨ p_unparks p' ∨ (consumer_waiter s' ≠ None ∧ (occupied s = 0 ∨ p_moved p → occupied s' = 0 ∨ p_moved p') ∧ (sender_count s ≠ 0 ∨ p_closing p → sender_count s' ≠ 0 ∨ p_closing p'))) →
  c_good c lc' p' s'.
Proof.
  intros [] Ht Hu Hw. split; intros H; [eapply good_mono; [by apply cg_listens0|done|done|]|eapply good_mono; [by apply cg_empty0|done|done|]|eapply good_mono; [by apply cg_alive0|done|done|]]; intros Hn; specialize (Hw Hn); tauto.
Qed.

Lemma p_good_kept p lp lp' c c' s s' :
  p_good p lp c s → cap (ring s') = cap (ring s) → (token lp = true → token lp' = true) → (c_unparks c → token lp' = true ∨ c_unparks c') →
  (producer_waiter s ≠ None → token lp' = true ∨ c_unparks c' ∨ (producer_waiter s' ≠ None ∧ (occupied s' = occupied s ∨ c_moved c') ∧ (c_moved c → c_moved c') ∧ (consumer_dropped s = false ∨ c_closing c → consumer_dropped s' = false ∨ c_closing c'))) →
  p_good p lp' c' s'.
Proof.
  intros [] Ec Ht Hu Hw. split; intros H; [eapply good_mono; [by apply pg_listens0|done|done|]|eapply good_mono; [by apply pg_full0|done|done|]|eapply good_mono; [by apply pg_alive0|done|done|]]; intros Hn; specialize (Hw Hn); try tauto.
  rewrite Ec. intros Ho. destruct Hw as [?|[?|(?&[->|?]&?&?)]]; tauto.
Qed.

Lemma consumer_live_kept c lc lc' s s' :
  consumer_live c lc s → closed lc' = closed lc → receiver_count s' = receiver_count s → consumer_dropped s' = consumer_dropped s → consumer_live c lc' s'.
Proof. intros H E1 E2 E3. destruct c; simpl in *; by rewrite ?E1, ?E2, ?E3. Qed.

Lemma consumer_end_kept c lc lc' s s' :
  consumer_end c lc s → closed lc' = closed lc → (sender_count s = 0 → sender_count s' = 0 ∧ occupied s' = occupied s) → consumer_end c lc' s'.
Proof.
  intros H E1 E2. destruct c as [[[]|]|g|g|g|g x|g|g|g|g []|ys|ys|ys|g|g|g| |b|b|b|b|]; simpl in *; rewrite ?E1; try done; try (intros Hl; by apply E2, H).
  - destruct H as [?|[H1 H2]]; [by left|right]. destruct (E2 H1). split; congruence.
  - by apply E2.
  - destruct H as [H1 H2]. destruct (E2 H1). split; congruence.
Qed.

Lemma live_producer p p' me me' c peer peer' s s' :
  live p me c peer s → closed peer' = closed peer → receiver_count s' = receiver_count s → consumer_dropped s' = consumer_dropped s →
  (sender_count s = 0 → sender_count s' = 0 ∧ occupied s' = occupied s) → flags s' → producer_live p' me' s' → p_good p' me' c s' → c_good c peer' p' s' → live p' me' c peer' s'.
Proof. intros [] E1 E2 E3 E4 Hf Hp Hpg Hcg. split; try done; [by eapply consumer_live_kept|by eapply consumer_end_kept]. Qed.

(** The producer moved no index, woke nobody and closed nothing. *)
Lemma live_quiet p p' me me' c peer s s' :
  live p me c peer s → (receiver_count s', consumer_dropped s', sender_count s') = (receiver_count s, consumer_dropped s, sender_count s) →
  (consumer_waiter s', recv_waiters s', occupied s', cap (ring s')) = (consumer_waiter s, recv_waiters s, occupied s, cap (ring s)) →
  send_waiters s' = (if producer_waiter s' then 1 else 0) →
  ¬ p_unparks p → (p_moved p → p_moved p') → ¬ p_closing p → producer_live p' me' s' → p_good p' me' c s' → live p' me' c peer s'.
Proof.
  intros Hl [= E1 E2 E3] [= E4 E5 E6 E7] Hf H1 H2 H3 Hp Hpg. apply (live_producer p p' me me' c peer peer s s'); try done.
  - by rewrite E3, E6.
  - split; [done|]. rewrite E5, E4. apply Hl.
  - apply (c_good_kept c peer peer p p' s s'); [apply Hl|done|done|]. intros Hw. right. right. rewrite E3, E4, E6. split; [done|]. tauto.
Qed.

(** What the producer saw, when only its point in the code changed. *)
Lemma p_good_same p p' lp lp' c s s' :
  p_good p lp c s → token lp' = token lp → (producer_waiter s', consumer_dropped s', occupied s', cap (ring s')) = (producer_waiter s, consumer_dropped s, occupied s, cap (ring s)) →
  (p_listens p' → p_listens p) → (p_saw_full p' → p_saw_full p ∧ reserved p' = reserved p ∨ p_listens p ∧ occupied s + reserved p' = cap (ring s)) →
  (p_saw_alive p' → p_saw_alive p ∨ p_listens p ∧ consumer_dropped s = false) → p_good p' lp' c s'.
Proof.
  intros [] Et [= E1 E2 E3 E4] H1 H2 H3. split; intros H.
  - specialize (pg_listens0 (H1 H)). unfold good in *. by rewrite Et, E1.
  - rewrite E1, E3, E4. unfold good. rewrite Et. destruct (H2 H) as [[Hf ->]|[Hf Ho]]; [by apply pg_full0|]. destruct (pg_listens0 Hf) as [?|[?|[? _]]]; tauto.
  - rewrite E1, E2. unfold good. rewrite Et. destruct (H3 H) as [Hf|[Hf Ho]]; [by apply pg_alive0|]. destruct (pg_listens0 Hf) as [?|[?|[? _]]]; tauto.
Qed.

Lemma p_good_none p lp c s : ¬ p_listens p → ¬ p_saw_full p → ¬ p_saw_alive p → p_good p lp c s.
Proof. by split. Qed.

(** Closes what a point of the code excludes. *)
Ltac no_point := try done; try (by intros []).

(** ** The producer's steps *)

Lemma look_live p me c peer s p' me' peer' s' ys :
  producer_wf p' → live p me c peer s → look_step p me peer s = Some (p', me', peer', s', ys) → live p' me' c peer' s'.
Proof.
  intros Hw Hl Hst. pose proof (lv_p _ _ _ _ _ Hl) as Hp. pose proof (lv_pg _ _ _ _ _ Hl) as Hg. pose proof (proj1 (lv_flags _ _ _ _ _ Hl)) as Hf.
  destruct p as [|f| | | | | |f| | | | | | | | | | | | | |]; try done; cbn [look_step] in Hst; simpl in Hp.
  - assert (Hq : ∀ q, producer_live q me s → (p_listens q → p_listens (P_look f)) → (p_saw_full q → p_saw_full (P_look f) ∧ reserved q = 0) →
      (p_saw_alive q → p_listens (P_look f) ∧ consumer_dropped s = false) → live q me c peer s).
    { intros q H1 H2 H3 H4. apply (live_quiet (P_look f) q me me c peer s s Hl); no_point. apply (p_good_same (P_look f) q me me c s s Hg); try done; [by left; apply H3|by right; apply H4]. }
    destruct Hp as [Hs Hc]. assert (Hi : ∀ o, live (P_idle o) me c peer s) by (intros o; apply Hq; no_point).
    assert (Hgu : closed me = false ∨ registered (op f) = false → live (abandon f) me c peer s).
    { intros Hor. unfold abandon. destruct (registered (op f)); [|apply Hi]. destruct Hor as [Hm|]; [|done]. apply Hq; try done. simpl. by rewrite Hm in Hs. }
    destruct (consumer_dropped s) eqn:Ed, (closed me) eqn:Ec; destruct (op f) as [|[] []|[] []| |[] []] eqn:Eo; simpl in *; try (by specialize (Hc eq_refl)); injection Hst as <- <- <- <- <-;
      first [by apply Hi|by apply Hgu; auto|by apply Hq; simpl; rewrite ?Eo, ?Ec; simpl; naive_solver].
  - injection Hst as <- <- <- <- <-. apply (live_quiet (P_reason f) _ me me c peer s s Hl); no_point. simpl. destruct Hp as [-> ->]. done.
Qed.

Lemma occupied_counted p c s put out xs d e : ring_inv p c s put out xs d e → occupied s = counted p c xs.
Proof.
  intros Hi. pose proof (inv_range _ _ _ _ _ _ _ _ Hi). unfold occupied. rewrite (ri_tail _ _ _ _ _ _ _ _ Hi), ring_dist; [done|apply Hi|lia|unfold U64; lia].
Qed.

(** After a [write_batch] that has no more room, or has sent everything. *)
Lemma batch_next_live f c lp s :
  closed lp = false → sender_count s = 1 → batch (op f) = true →
  producer_live (batch_next f) lp s ∧ ¬ p_saw_alive (batch_next f) ∧ (p_listens (batch_next f) → second_batch (op f) = true) ∧
  (p_saw_full (batch_next f) → second_batch (op f) = true ∧ ((left f < length (items f))%nat ∨ (left f = 0%nat ∧ wrote f = true ∧ items f ≠ []))) .
Proof.
  intros Hc Hs Hb. unfold batch_next. destruct (left f) as [|n] eqn:El.
  - destruct (wrote f) eqn:Ewr; simpl; [rewrite Hc; split; [done|]; split; [by intros []|]; split; [done|]; intros [? ?]; auto|]. unfold after_batch. destruct (items f) as [|x ys] eqn:Ei; [simpl; destruct (registered (op f)); simpl; rewrite ?Hc; (split; [done|]); repeat (split; [by intros []|]); by intros []|].
    destruct (op f) as [| | | |[] b] eqn:Eo; simpl; rewrite ?Hc, ?Eo; simpl; try done; (split; [done|]); (split; [by intros []|]); (split; [done|]); try done. intros _. split; [done|]. left. lia.
  - simpl. rewrite El. split; [done|]. split; [intros H; destruct (op f); done|]. split; [by destruct (op f)|]. intros [? ?]. split; [done|]. by left.
Qed.

Lemma ring_push_live p me c peer s put out xs d e p' me' peer' s' ys :
  ring_inv p c s put out xs d e → producer_wf p' → live p me c peer s → push_step p me peer s = Some (p', me', peer', s', ys) → live p' me' c peer' s'.
Proof.
  intros Hi Hw Hl Hst. pose proof (lv_p _ _ _ _ _ Hl) as Hp. pose proof (lv_pg _ _ _ _ _ Hl) as Hg. pose proof (proj1 (lv_flags _ _ _ _ _ Hl)) as Hf.
  pose proof (inv_range _ _ _ _ _ _ _ _ Hi) as Hr. pose proof (ri_d _ _ _ _ _ _ _ _ Hi) as Hd. pose proof (occupied_counted _ _ _ _ _ _ _ _ Hi) as Ho.
  destruct p as [r|f|f|f|f|f|f|f|f|f ok|f|f|f|f|f|f| |b|b|b|b|]; try done; cbn [push_step] in Hst; simpl in Hp.
  - injection Hst as <- <- <- <- <-. destruct (cached_full (ring s)); apply (live_quiet (P_push f) _ me me c peer s s Hl); no_point.
    + intros [H _]. by rewrite (proj1 Hw) in H.
    + apply (p_good_same (P_push f) _ me me c s s Hg); no_point. by left.
    + apply (p_good_same (P_push f) _ me me c s s Hg); no_point. intros [H1 H2]. left. split; [done|]. simpl. by destruct (op f).
  - apply bind_Some in Hst as (p1&Hq&[= <- <- <- <- <-]). pose proof (ri_p _ _ _ _ _ _ _ _ Hi) as [Hb Hn]. simpl in Hb.
    assert (Hlive : producer_live p1 me s ∧ (p_listens p1 → p_listens (P_refresh f)) ∧ (p_saw_full p1 → p_listens (P_refresh f) ∧ occupied s + reserved p1 = cap (ring s)) ∧ (p_saw_alive p1 → p_saw_alive (P_refresh f))).
    { unfold cached_full in Hq. simpl in Hq. fold (occupied s) in Hq. rewrite Ho in *. destruct Hp as [Hc Hs]. destruct (Z.leb_spec (cap (ring s)) (counted (P_refresh f) c xs)).
      - unfold push_full in Hq. destruct (op f) as [|[] []|[] b| |] eqn:Eo; try done; injection Hq as <-; simpl; rewrite ?Eo, ?Hc, ?Hs; simpl; try naive_solver; (split; [done|]); (split; [done|]); (split; [intros _; split; [done|lia]|done]).
      - injection Hq as <-. simpl. rewrite Hc, Hs. split; [done|]. split; [done|]. split; [|done]. intros [H1 _]. by destruct (op f). }
    destruct Hlive as (H1&H2&H3&H4). apply (live_quiet (P_refresh f) _ me me c peer s _ Hl); no_point. apply (p_good_same (P_refresh f) _ me me c s _ Hg); no_point; [by right; apply H3|by left; apply H4].
  - apply bind_Some in Hst as (x&Hx&Hst). apply bind_Some in Hst as (b&Hb&[= <- <- <- <- <-]). destruct (items f) as [|y zs] eqn:Ei; [done|].
    apply (live_quiet (P_write f) _ me me c peer s _ Hl); no_point. apply (p_good_same (P_write f) _ me me c s _ Hg); no_point.
    intros [H1 H2]. left. split; [|done]. simpl in *. rewrite Ei. simpl. split; [done|lia].
  - injection Hst as <- <- <- <- <-. destruct Hp as [Hc Hs]. pose proof (ri_p _ _ _ _ _ _ _ _ Hi) as Hwf. simpl in Hwf. cbn [reserved] in Hd.
    assert (Hpos : batch (op f) = true → (1 ≤ left f)%nat) by (intros Hb; destruct Hwf as [Hb'|[_ Hch]]; [congruence|lia]).
    assert (Eo : occupied (with_ring (set_tail (tail (ring s) +w 1) (ring s)) s) = occupied s + 1).
    { unfold occupied at 1. simpl. rewrite (ri_tail _ _ _ _ _ _ _ _ Hi), u64_shift, ring_dist; [lia|apply Hi|lia|].
      destruct (batch (op f)); [specialize (Hpos eq_refl)|]; unfold U64; lia. }
    assert (Hm : p_moved (push_ok f)).
    { unfold push_ok. destruct (op f) as [|a []|a []| |a b] eqn:Eop; simpl; rewrite ?Eop; try done; unfold batch_next; simpl; destruct (pred (left f)); done. }
    apply (live_producer (P_publish f) _ me me c peer peer s _ Hl); try done; [simpl; lia|apply Hl| | |].
    + unfold push_ok. destruct (op f) as [|a []|a []| |a b] eqn:Eop; simpl; try done;
        (destruct (batch_next_live (mk_sf (op f) (items f) (pred (left f)) true (S (sent f))) c me (with_ring (set_tail (tail (ring s) +w 1) (ring s)) s) Hc Hs) as [H _];
          [simpl; by rewrite Eop|by rewrite Eop in H]).
    + destruct (batch (op f)) eqn:Hb; [|unfold push_ok; destruct (op f) as [|a []|a []| |a b] eqn:Eop; try done; apply p_good_none; simpl; rewrite ?Eop; simpl; no_point; naive_solver].
      specialize (Hpos eq_refl). set (f' := mk_sf (op f) (items f) (pred (left f)) true (S (sent f))).
      assert (Ep : push_ok f = batch_next f') by (unfold push_ok, f'; by destruct (op f)). rewrite Ep.
      destruct (batch_next_live f' c me s Hc Hs Hb) as (_&H1&H2&H3).
      destruct Hg as [G1 G2 _]. assert (Hb2 : second_batch (op f) = true → second (op f) = true) by (by destruct (op f) as [|[] []| | |[]]).
      split; [|intros Hf'|done].
      * intros Hli. apply (good_mono me me (c_unparks c) _ (producer_waiter s) _ True _); [|done|by right|by right; right]. apply G1. simpl. by apply Hb2, H2.
      * destruct (H3 Hf') as [Hs2 Hlt]. rewrite Eo. simpl in *. apply (good_mono me me (c_unparks c) _ (producer_waiter s) _ (occupied s + reserved (P_publish f) = cap (ring s) ∨ c_moved c) _); [|done|by right|].
        { apply G2. simpl. split; [done|]. destruct Hlt as [?|(?&_&Hne)]; [lia|]. destruct (items f); [done|]. simpl in *. lia. }
        intros Hn [Hcap|?]; right; right; (split; [done|]); [left|by right]. simpl in Hcap. rewrite Hb in Hcap.
        assert (Er : reserved (batch_next f') = Z.of_nat (pred (left f))) by (apply batch_next_wf; [done|simpl; destruct Hwf as [|[_ ?]]; [congruence|lia]]).
        rewrite Er. lia.
    + apply (c_good_kept c peer peer (P_publish f) _ s _ (lv_cg _ _ _ _ _ Hl)); [done|by intros []|]. intros Hn. right. right. split; [done|]. split; [by right|]. simpl. intros [|[]]. by left.
  - injection Hst as <- <- <- <- <-. destruct Hp as [Hc Hs]. pose proof (ri_p _ _ _ _ _ _ _ _ Hi) as Hb. simpl in Hb.
    unfold producer_free_space. set (n := Z.to_nat _). set (f' := mk_sf (op f) (items f) n false (sent f)).
    assert (En : Z.of_nat n = Z.min (Z.of_nat (length (items f))) (cap (ring s) - occupied s)).
    { unfold n. simpl. fold (occupied s). rewrite Ho. rewrite u64_sub_small; [|lia|unfold U64; lia]. lia. }
    destruct (batch_next_live f' c me s Hc Hs Hb) as (H0&H1&H2&H3). assert (Hb2 : second_batch (op f) = true → second (op f) = true) by (by destruct (op f) as [|[] []| | |[]]).
    assert (Er : reserved (batch_next f') = Z.of_nat n) by (apply batch_next_wf; [done|simpl; lia]).
    apply (live_quiet (P_free f) _ me me c peer s _ Hl); no_point. apply (p_good_same (P_free f) _ me me c s _ Hg); no_point.
    + intros Hq. simpl. by apply Hb2, H2.
    + intros Hq. right. destruct (H3 Hq) as [Hs2 Hlt]. simpl. split; [by apply Hb2|]. rewrite Er. simpl in Hlt. destruct Hlt as [?|(?&?&?)]; [lia|done].
Qed.

Lemma send_wait_live p me c peer s p' me' peer' s' ys :
  producer_wf p → notes p me c peer s → live p me c peer s → send_wait_step p me peer s = Some (p', me', peer', s', ys) → live p' me' c peer' s'.
Proof.
  intros Hw [Hno _] Hl Hst. pose proof (lv_p _ _ _ _ _ Hl) as Hp. pose proof (lv_pg _ _ _ _ _ Hl) as Hg. pose proof (proj1 (lv_flags _ _ _ _ _ Hl)) as Hf.
  destruct p as [r|f|f|f|f|f|f|f|f|f ok|f|f|f|f|f|f| |b|b|b|b|]; try done; simpl in Hst, Hw, Hp; try (destruct Hp as [Hc Hs]).
  - assert (Hreg : ∀ q w b, producer_live q me (register Send w b s) → ¬ p_saw_full q → ¬ p_saw_alive q → live q me c peer (register Send w b s)).
    { intros q w b H1 H2 H3. apply (live_quiet (P_register f) q me me c peer s _ Hl); no_point. split; [|done..]. intros _. right. right. done. }
    destruct Hw as [[b Eo]|[Hs' [Eo|[b Eo]]]]; rewrite Eo in Hst; injection Hst as <- <- <- <- <-; apply Hreg; no_point; simpl; by rewrite Hc, Hs.
  - injection Hst as <- <- <- <- <-. apply (live_quiet (P_unregister f ok) _ me me c peer s _ Hl); no_point.
    + intros [-> Hb]. simpl in Hb. by destruct (op f).
    + destruct ok; [destruct (op f)|]; simpl; by rewrite Hc, Hs.
    + apply p_good_none; (destruct ok; [|by intros []]); destruct (op f) as [|[] []|[] []| |] eqn:Eo; simpl; rewrite ?Eo; simpl; no_point; naive_solver.
  - destruct (token me); [|done]. injection Hst as <- <- <- <- <-. unfold after_park.
    destruct Hw as [[[b Eo] Hne]|[Hs' Eo]]; rewrite Eo; apply (live_quiet (P_park f) _ me _ c peer s _ Hl); no_point; simpl; rewrite ?Hc, ?Hs; no_point; by apply p_good_none.
  - destruct Hw as [Hs' Eo]. apply bind_Some in Hst as (b&Hb&[= <- <- <- <- <-]). apply (live_quiet (P_swap f) _ me _ c peer s s Hl); no_point; simpl; rewrite ?Hc, ?Hs; no_point.
    split; no_point. simpl. intros Hli. simpl in Hno. rewrite Eo, Hb in Hno. right. right. split; [|done]. destruct Hno as [[_ [k ->]]|[[= ->] _]]; done.
  - destruct (token me); [|done]. injection Hst as <- <- <- <- <-. apply (live_quiet (P_pending f) _ me _ c peer s _ Hl); no_point; simpl; rewrite ?Hc, ?Hs; no_point; by apply p_good_none.
  - injection Hst as <- <- <- <- <-. apply (live_quiet P_cancel _ me _ c peer s _ Hl); no_point; simpl; rewrite ?Hc, ?Hs; no_point.
Qed.

(** [wake_one], and what the flags and the waiter say. *)
Lemma wake_one_recv m peer s b peer' s' :
  note_ok m (notified peer) (consumer_waiter s) → flags s → wake_one Recv peer s = Some (b, peer', s') →
  closed peer' = closed peer ∧ token peer' = token peer ∧ flags s' ∧ (s' = set_waiter Recv None 0 s ∧ b = true ∨ s' = s ∧ b = false ∧ consumer_waiter s = None).
Proof.
  intros Hn Hf Hw. destruct (wake_one_goes m Recv peer s Hn) as (b1&peer1&s1&E&_&Ec&Et&Hs). rewrite E in Hw. injection Hw as -> -> ->. split; [done|]. split; [done|]. split; [|done].
  destruct Hs as [[-> _]|[-> _]]; [|done]. split; [apply Hf|done].
Qed.

Lemma wake_one_send m peer s b peer' s' :
  note_ok m (notified peer) (producer_waiter s) → flags s → wake_one Send peer s = Some (b, peer', s') →
  closed peer' = closed peer ∧ token peer' = token peer ∧ flags s' ∧ (s' = set_waiter Send None 0 s ∧ b = true ∨ s' = s ∧ b = false ∧ producer_waiter s = None).
Proof.
  intros Hn Hf Hw. destruct (wake_one_goes m Send peer s Hn) as (b1&peer1&s1&E&_&Ec&Et&Hs). rewrite E in Hw. injection Hw as -> -> ->. split; [done|]. split; [done|]. split; [|done].
  destruct Hs as [[-> _]|[-> _]]; [|done]. split; [done|apply Hf].
Qed.

Lemma after_notify_live f me s :
  closed me = false → sender_count s = 1 →
  producer_live (after_notify f) me s ∧ reserved (after_notify f) = 0 ∧ ¬ p_saw_alive (after_notify f) ∧ (p_listens (after_notify f) → second_batch (op f) = true) ∧
  (p_saw_full (after_notify f) → second_batch (op f) = true ∧ items f ≠ []).
Proof.
  intros Hc Hs. destruct (batch (op f)) eqn:Hb; [|unfold after_notify; destruct (op f); try done; simpl; rewrite Hc, Hs; by repeat (split; no_point)].
  assert (Ea : after_notify f = after_batch f) by (unfold after_notify; by destruct (op f)). rewrite Ea. split; [|split; [by apply after_batch_wf|]].
  - unfold after_batch. destruct (items f); [destruct (registered _); simpl; by rewrite Hc, Hs|]. destruct (op f) as [| | | |[]]; simpl; by rewrite ?Hc, ?Hs.
  - unfold after_batch. destruct (items f) as [|x ys] eqn:Ei; [simpl; destruct (registered (op f)); by repeat (split; no_point)|]. destruct (op f) as [| | | |[] b] eqn:Eo; simpl; by repeat (split; no_point).
Qed.

(** The producer stands where it stood, and has nobody to wake. *)
Lemma send_wake_live p me c peer s p' me' peer' s' ys :
  notes p me c peer s → live p me c peer s → send_wake_step p me peer s = Some (p', me', peer', s', ys) → live p' me' c peer' s'.
Proof.
  intros [_ Hno] Hl Hst. pose proof (lv_p _ _ _ _ _ Hl) as Hp. pose proof (lv_pg _ _ _ _ _ Hl) as Hg. pose proof (lv_flags _ _ _ _ _ Hl) as Hf.
  destruct p as [r|f|f|f|f|f|f|f|f|f ok|f|f|f|f|f|f| |b|b|b|b|]; try done; simpl in Hst, Hp; destruct Hp as [Hc Hs]; destruct (after_notify_live f me s Hc Hs) as (A0&A1&A2&A3&A4);
    (assert (Hb2 : second_batch (op f) = true → second (op f) = true) by (by destruct (op f) as [|[] []| | |[]])).
  - injection Hst as <- <- <- <- <-. destruct (Z.eqb_spec (recv_waiters s) 0) as [Ez|Hne]; simpl.
    + apply (live_producer (P_notify f) _ me me c peer peer s s Hl); no_point.
      * apply (p_good_same (P_notify f) _ me me c s s Hg); no_point. intros Hq. left. split; [by apply A4|done].
      * apply (c_good_kept c peer peer (P_notify f) _ s s (lv_cg _ _ _ _ _ Hl)); no_point. rewrite (proj2 Hf) in Ez. by destruct (consumer_waiter s).
    + apply (live_quiet (P_notify f) _ me me c peer s s Hl); no_point; [apply Hf|]. apply (p_good_same (P_notify f) _ me me c s s Hg); no_point. by left.
  - apply bind_Some in Hst as ([[w peer1] s1]&Hwk&[= <- <- <- <- <-]). destruct (wake_one_recv _ _ _ _ _ _ Hno Hf Hwk) as (Ec&Et&Hf'&[[-> ->]|(->&->&Ew)]).
    + apply (live_producer (P_wake f) _ me me c peer peer1 s _ Hl); no_point.
      * apply (p_good_same (P_wake f) _ me me c s _ Hg); no_point. by left.
      * apply (c_good_kept c peer peer1 (P_wake f) _ s _ (lv_cg _ _ _ _ _ Hl)); [by rewrite Et|by intros []|]. intros _. by right; left.
    + apply (live_producer (P_wake f) _ me me c peer peer1 s _ Hl); no_point.
      * apply (p_good_same (P_wake f) _ me me c s _ Hg); no_point. intros Hq. left. split; [by apply A4|done].
      * apply (c_good_kept c peer peer1 (P_wake f) _ s _ (lv_cg _ _ _ _ _ Hl)); [by rewrite Et|by intros []|]. by rewrite Ew.
  - injection Hst as <- <- <- <- <-. apply (live_producer (P_unpark f) _ me me c peer (wake peer) s _ Hl); no_point.
    + apply (p_good_same (P_unpark f) _ me me c s _ Hg); no_point. intros Hq. left. split; [by apply A4|done].
    + apply (c_good_kept c peer (wake peer) (P_unpark f) _ s _ (lv_cg _ _ _ _ _ Hl)); [done|by left|by left].
Qed.

Lemma send_close_live p me c peer s p' me' peer' s' ys :
  notes p me c peer s → live p me c peer s → send_close_step p me peer s = Some (p', me', peer', s', ys) → live p' me' c peer' s'.
Proof.
  intros [_ Hno] Hl Hst. pose proof (lv_p _ _ _ _ _ Hl) as Hp. pose proof (lv_flags _ _ _ _ _ Hl) as Hf.
  destruct p as [r|f|f|f|f|f|f|f|f|f ok|f|f|f|f|f|f| |b|b|b|b|]; try done; simpl in Hst, Hp; destruct Hp as [Hc Hs].
  - injection Hst as <- <- <- <- <-. apply (live_quiet (P_drop b) _ me me c peer s _ Hl); no_point. apply Hf.
  - rewrite Hs in Hst. injection Hst as <- <- <- <- <-. apply (live_producer (P_count b) _ me me c peer peer s _ Hl); no_point; try (by rewrite Hs).
    apply (c_good_kept c peer peer (P_count b) _ s _ (lv_cg _ _ _ _ _ Hl)); no_point. intros Hn. right. right. split; [done|]. split; [|by right]. intros [|[]]. by left.
  - assert (Hpl : ∀ s1, sender_count s1 = 0 → producer_live (producer_closed (T:=T) b) me s1) by (intros s1 E; destruct b; simpl; by rewrite Hc, E).
    assert (Hpg : ∀ s1, p_good (producer_closed b) me c s1) by (intros s1; by destruct b).
    apply bind_Some in Hst as ([[w peer1] s1]&Hwk&[= <- <- <- <- <-]). destruct (wake_one_recv _ _ _ _ _ _ Hno Hf Hwk) as (Ec&Et&Hf'&[[-> ->]|(->&->&Ew)]).
    + apply (live_producer (P_close_wake b) _ me me c peer peer1 s _ Hl); no_point.
      apply (c_good_kept c peer peer1 (P_close_wake b) _ s _ (lv_cg _ _ _ _ _ Hl)); [by rewrite Et|by intros []|]. intros _. by right; left.
    + apply (live_producer (P_close_wake b) _ me me c peer peer1 s _ Hl); no_point; [by apply Hpl|].
      apply (c_good_kept c peer peer1 (P_close_wake b) _ s _ (lv_cg _ _ _ _ _ Hl)); [by rewrite Et|by intros []|]. by rewrite Ew.
  - injection Hst as <- <- <- <- <-. apply (live_producer (P_close_unpark b) _ me me c peer (wake peer) s _ Hl); no_point; [destruct b; simpl; by rewrite Hc, Hs|by destruct b|].
    apply (c_good_kept c peer (wake peer) (P_close_unpark b) _ s _ (lv_cg _ _ _ _ _ Hl)); [done|by left|by left].
Qed.

(** ** The consumer's steps *)

Lemma producer_live_kept p lp lp' s s' : producer_live p lp s → closed lp' = closed lp → sender_count s' = sender_count s → producer_live p lp' s'.
Proof. intros H E1 E2. destruct p; simpl in *; by rewrite ?E1, ?E2. Qed.

Lemma live_consumer p c c' me me' peer peer' s s' :
  live p peer c me s → closed peer' = closed peer → sender_count s' = sender_count s → flags s' → consumer_live c' me' s' → consumer_end c' me' s' →
  p_good p peer' c' s' → c_good c' me' p s' → live p peer' c' me' s'.
Proof. intros [] E1 E2 Hf Hc He Hpg Hcg. split; try done. by eapply producer_live_kept. Qed.

(** The consumer moved no index, woke nobody and closed nothing. *)
Lemma live_still p c c' me me' peer s s' :
  live p peer c me s → (sender_count s', consumer_dropped s') = (sender_count s, consumer_dropped s) →
  (producer_waiter s', send_waiters s', occupied s', cap (ring s')) = (producer_waiter s, send_waiters s, occupied s, cap (ring s)) →
  recv_waiters s' = (if consumer_waiter s' then 1 else 0) →
  ¬ c_unparks c → (c_moved c → c_moved c') → ¬ c_closing c → consumer_live c' me' s' → consumer_end c' me' s' → c_good c' me' p s' → live p peer c' me' s'.
Proof.
  intros Hl [= E1 E2] [= E3 E4 E5 E6] Hf H1 H2 H3 Hc He Hcg. apply (live_consumer p c c' me me' peer peer s s'); try done.
  - split; [|done]. rewrite E4, E3. apply Hl.
  - apply (p_good_kept p peer peer c c' s s'); [apply Hl|done|done|done|]. intros Hw. right. right. rewrite E2, E3, E5. split; [done|]. tauto.
Qed.

Lemma c_good_same c c' lc lc' p s s' :
  c_good c lc p s → token lc' = token lc → (consumer_waiter s', sender_count s', occupied s') = (consumer_waiter s, sender_count s, occupied s) →
  (c_listens c' → c_listens c) → (c_saw_empty c' → c_saw_empty c ∨ c_listens c ∧ occupied s = 0) →
  (c_saw_alive c' → c_saw_alive c ∨ c_listens c ∧ sender_count s ≠ 0) → c_good c' lc' p s'.
Proof.
  intros [] Et [= E1 E2 E3] H1 H2 H3. split; intros H.
  - specialize (cg_listens0 (H1 H)). unfold good in *. by rewrite Et, E1.
  - rewrite E1, E3. unfold good. rewrite Et. destruct (H2 H) as [Hf|[Hf Ho]]; [by apply cg_empty0|]. destruct (cg_listens0 Hf) as [?|[?|[? _]]]; tauto.
  - rewrite E1, E2. unfold good. rewrite Et. destruct (H3 H) as [Hf|[Hf Ho]]; [by apply cg_alive0|]. destruct (cg_listens0 Hf) as [?|[?|[? _]]]; tauto.
Qed.

Lemma c_good_none c lc p s : ¬ c_listens c → ¬ c_saw_empty c → ¬ c_saw_alive c → c_good c lc p s.
Proof. by split. Qed.

Lemma rsecond_batch g : rop g = R_batch → ¬ rsecond g.
Proof. intros E [_ H]. by rewrite E in H. Qed.

Lemma pop_live p c me peer s put out xs d e c' me' peer' s' ys :
  ring_inv p c s put out xs d e → live p peer c me s → pop_step c me peer s = Some (c', me', peer', s', ys) → live p peer' c' me' s'.
Proof.
  intros Hi Hl Hst. pose proof (lv_c _ _ _ _ _ Hl) as Hc. pose proof (lv_end _ _ _ _ _ Hl) as He. pose proof (lv_cg _ _ _ _ _ Hl) as Hg. pose proof (proj2 (lv_flags _ _ _ _ _ Hl)) as Hf.
  pose proof (ri_c _ _ _ _ _ _ _ _ Hi) as Hw. pose proof (occupied_counted _ _ _ _ _ _ _ _ Hi) as Ho.
  destruct c as [r|g|g|g|g x|g|g|g|g a|ws|ws|ws|g|g|g| |b|b|b|b|]; try done; cbn [pop_step] in Hst; simpl in Hc, He, Hw.
  - injection Hst as <- <- <- <- <-. destruct (cached_empty (ring s)); apply (live_still p (C_pop g) _ me me peer s s Hl); no_point. by apply (c_good_same (C_pop g) _ me me p s s Hg).
  - injection Hst as <- <- <- <- <-. unfold cached_empty. simpl.
    assert (Ee : (head (ring s) =? tail (ring s)) = (occupied s =? 0)).
    { pose proof (inv_range _ _ _ _ _ _ _ _ Hi). rewrite Ho, (ri_tail _ _ _ _ _ _ _ _ Hi), u64_zero; [done|apply Hi|unfold U64; lia]. }
    rewrite Ee. destruct (Z.eqb_spec (occupied s) 0) as [E0|]; [|by apply (live_still p (C_refresh g) _ me me peer s _ Hl); no_point].
    destruct Hc as (Hcl&Hrc&Hcd).
    assert (Hpn : consumer_live (pop_none g) me s ∧ (c_moved (C_refresh g) → c_moved (pop_none g)) ∧ consumer_end (pop_none g) me s ∧ (c_listens (pop_none g) → rsecond g) ∧ ¬ c_saw_alive (pop_none g)).
    { unfold pop_none. destruct (rop g) as [|t [] b|a b|] eqn:Eo, (got g) as [|y zs] eqn:Eg, (last g) eqn:El; try done; simpl; rewrite ?Eo, ?El, ?Eg, ?Hcl; simpl; try destruct b; simpl; rewrite ?Hcl; unfold rsecond; simpl; rewrite ?Eo, ?El; naive_solver. }
    destruct Hpn as (H1&H2&H3&H4&H5). apply (live_still p (C_refresh g) _ me me peer s _ Hl); no_point. apply (c_good_same (C_refresh g) _ me me p s _ Hg); no_point.
    intros Hse. right. split; [|done]. apply H4. destruct (pop_none g); try done.
  - apply bind_Some in Hst as ([x b]&Hb&[= <- <- <- <- <-]). by apply (live_still p (C_read g) _ me me peer s _ Hl); no_point.
  - injection Hst as <- <- <- <- <-. destruct Hc as (Hcl&Hrc&Hcd).
    assert (Hpo : ∀ s1, receiver_count s1 = receiver_count s → consumer_dropped s1 = consumer_dropped s → sender_count s1 = sender_count s →
      consumer_live (pop_ok g x) me s1 ∧ c_moved (pop_ok g x) ∧ consumer_end (pop_ok g x) me s1 ∧ ¬ c_listens (pop_ok g x) ∧ ¬ c_saw_empty (pop_ok g x) ∧ ¬ c_saw_alive (pop_ok g x)).
    { intros s1 E1 E2 E3. unfold pop_ok. destruct (rop g) as [|t a []|a []|] eqn:Eo; simpl; rewrite ?Eo, ?E1, ?E2, ?E3; simpl; try naive_solver.
      destruct (pred (rleft g)); simpl; rewrite ?E1, ?E2, ?E3; repeat (split; [first [done|by destruct (got g)|by intros []]|]); first [done|by intros []|by apply rsecond_batch]. }
    destruct (Hpo (with_ring (set_head (head (ring s) +w 1) (ring s)) s) eq_refl eq_refl eq_refl) as (H1&H2&H3&H4&H5&H6).
    apply (live_consumer p (C_advance g x) _ me me peer peer s _ Hl); no_point; [apply Hl|].
    apply (p_good_kept p peer peer (C_advance g x) _ s _ (lv_pg _ _ _ _ _ Hl)); no_point. intros Hn. right. right. split; [done|]. split; [by right|]. split; [done|]. simpl. intros [|[]]. by left.
Qed.

Lemma alive_live p c me peer s c' me' peer' s' ys :
  consumer_wf c → live p peer c me s → alive_step c me peer s = Some (c', me', peer', s', ys) → live p peer' c' me' s'.
Proof.
  intros Hw Hl Hst. pose proof (lv_c _ _ _ _ _ Hl) as Hc. pose proof (lv_end _ _ _ _ _ Hl) as He. pose proof (lv_cg _ _ _ _ _ Hl) as Hg. pose proof (proj2 (lv_flags _ _ _ _ _ Hl)) as Hf.
  destruct c as [r|g|g|g|g x|g|g|g|g a|ws|ws|ws|g|g|g| |b|b|b|b|]; try done; cbn [alive_step] in Hst; simpl in Hc, He, Hw; destruct Hc as (Hcl&Hrc&Hcd).
  - assert (Hq : ∀ q, consumer_live q me s → consumer_end q me s → (c_listens q → rsecond g) → (c_saw_empty q → rsecond g) → (c_saw_alive q → rsecond g ∧ sender_count s ≠ 0) → live p peer q me s).
    { intros q H1 H2 H3 H4 H5. apply (live_still p (C_alive g) q me me peer s s Hl); no_point. apply (c_good_same (C_alive g) q me me p s s Hg); no_point; [by left; apply H4|by right; apply H5]. }
    destruct Hw as [Eg Ho]. destruct (Z.eqb_spec (sender_count s) 0) as [Ez|Hne]; injection Hst as <- <- <- <- <-; unfold wait_or_register;
      destruct (rop g) as [|t a []|[] b|] eqn:Eo; try destruct t; apply Hq; simpl; unfold rsecond; simpl; rewrite ?Eo, ?Hcl; try subst a; naive_solver.
  - destruct Hw as [Eg [r Eo]]. injection Hst as <- <- <- <- <-. unfold wait_or_register. rewrite Eo. simpl.
    assert (Hs : r = true → rsecond g) by (intros ->; unfold rsecond; by rewrite Eo).
    destruct r; apply (live_still p (C_deadline g) _ me me peer s s Hl); no_point. apply (c_good_same (C_deadline g) _ me me p s s Hg); no_point; intros _; [by apply Hs|left; by apply Hs..].
Qed.

Lemma recv_wait_live p c me peer s c' me' peer' s' ys :
  consumer_wf c → notes p peer c me s → live p peer c me s → recv_wait_step c me peer s = Some (c', me', peer', s', ys) → live p peer' c' me' s'.
Proof.
  intros Hw [_ Hno] Hl Hst. pose proof (lv_c _ _ _ _ _ Hl) as Hc. pose proof (lv_end _ _ _ _ _ Hl) as He. pose proof (proj2 (lv_flags _ _ _ _ _ Hl)) as Hf.
  destruct c as [r|g|g|g|g x|g|g|g|g a|ws|ws|ws|g|g|g| |b|b|b|b|]; try done; simpl in Hst, Hc, He, Hw, Hno; destruct Hc as (Hcl&Hrc&Hcd).
  - assert (Hreg : ∀ q w b, consumer_live q me (register Recv w b s) → consumer_end q me (register Recv w b s) → ¬ c_saw_empty q → ¬ c_saw_alive q → live p peer q me (register Recv w b s)).
    { intros q w b H1 H2 H3 H4. apply (live_still p (C_register g) q me me peer s _ Hl); no_point. split; [|done..]. intros _. right. right. done. }
    destruct Hw as [Eg [[t Eo]|[b Eo]]]; rewrite Eo in Hst; injection Hst as <- <- <- <- <-; apply Hreg; no_point; simpl; by rewrite He.
  - injection Hst as <- <- <- <- <-. destruct a as [x| | |]; apply (live_still p (C_unregister g _) _ me me peer s _ Hl); no_point; try (simpl; by rewrite Hcl); try (by right); apply c_good_none; no_point.
  - destruct (token me); [|done]. injection Hst as <- <- <- <- <-. by apply (live_still p (C_park g) _ me _ peer s _ Hl); no_point.
  - destruct Hw as [Eg [t Eo]]. rewrite Eo in *. apply bind_Some in Hst as (b&Hb&[= <- <- <- <- <-]). apply (live_still p (C_swap g) _ me _ peer s s Hl); no_point; try (simpl; by rewrite He).
    split; no_point. intros [_ Hb2]. simpl in Hno, Hb2. rewrite Hb in Hno. right. right. split; [|done]. destruct Hno as [[_ [k ->]]|[[= ->] _]]; done.
  - destruct (token me); [|done]. injection Hst as <- <- <- <- <-. apply (live_still p (C_pending g) _ me _ peer s _ Hl); no_point; try (simpl; by rewrite He). apply c_good_none; no_point.
  - injection Hst as <- <- <- <- <-. apply (live_still p C_cancel _ me _ peer s _ Hl); no_point. simpl. by rewrite Hcl.
Qed.

Lemma recv_wake_live p c me peer s c' me' peer' s' ys :
  notes p peer c me s → live p peer c me s → recv_wake_step c me peer s = Some (c', me', peer', s', ys) → live p peer' c' me' s'.
Proof.
  intros [Hno _] Hl Hst. pose proof (lv_c _ _ _ _ _ Hl) as Hc. pose proof (lv_flags _ _ _ _ _ Hl) as Hf. pose proof (lv_pg _ _ _ _ _ Hl) as Hpg.
  destruct c as [r|g|g|g|g x|g|g|g|g a|ws|ws|ws|g|g|g| |b|b|b|b|]; try done; simpl in Hst, Hc; destruct Hc as (Hcl&Hrc&Hcd);
    (assert (Hid : ∀ s1, receiver_count s1 = 1 → consumer_dropped s1 = false → consumer_live (C_idle (Some (Ok_got ws))) me s1) by (intros s1 E1 E2; simpl; by rewrite Hcl)).
  - injection Hst as <- <- <- <- <-. destruct (Z.eqb_spec (send_waiters s) 0) as [Ez|Hne]; simpl.
    + apply (live_consumer p (C_notify ws) _ me me peer peer s s Hl); no_point; [by apply Hid|].
      apply (p_good_kept p peer peer (C_notify ws) _ s s Hpg); no_point. rewrite (proj1 Hf) in Ez. by destruct (producer_waiter s).
    + apply (live_still p (C_notify ws) _ me me peer s s Hl); no_point. apply Hf.
  - apply bind_Some in Hst as ([[w peer1] s1]&Hwk&[= <- <- <- <- <-]). destruct (wake_one_send _ _ _ _ _ _ Hno Hf Hwk) as (Ec&Et&Hf'&[[-> ->]|(->&->&Ew)]).
    + apply (live_consumer p (C_wake ws) _ me me peer peer1 s _ Hl); no_point.
      apply (p_good_kept p peer peer1 (C_wake ws) _ s _ Hpg); [done|by rewrite Et|by intros []|]. intros _. by right; left.
    + apply (live_consumer p (C_wake ws) _ me me peer peer1 s _ Hl); no_point; [by apply Hid|].
      apply (p_good_kept p peer peer1 (C_wake ws) _ s _ Hpg); [done|by rewrite Et|by intros []|]. by rewrite Ew.
  - injection Hst as <- <- <- <- <-. apply (live_consumer p (C_unpark ws) _ me me peer (wake peer) s _ Hl); no_point; [by apply Hid|].
    apply (p_good_kept p peer (wake peer) (C_unpark ws) _ s _ Hpg); [done|done|by left|by left].
Qed.

Lemma recv_close_live p c me peer s c' me' peer' s' ys :
  notes p peer c me s → live p peer c me s → recv_close_step c me peer s = Some (c', me', peer', s', ys) → live p peer' c' me' s'.
Proof.
  intros [Hno _] Hl Hst. pose proof (lv_c _ _ _ _ _ Hl) as Hc. pose proof (lv_flags _ _ _ _ _ Hl) as Hf. pose proof (lv_pg _ _ _ _ _ Hl) as Hpg.
  destruct c as [r|g|g|g|g x|g|g|g|g a|ws|ws|ws|g|g|g| |b|b|b|b|]; try done; simpl in Hst, Hc; destruct Hc as (Hcl&Hrc&Hcd).
  - injection Hst as <- <- <- <- <-. apply (live_consumer p (C_drop b) _ me me peer peer s _ Hl); no_point; try apply Hf.
    apply (p_good_kept p peer peer (C_drop b) _ s _ Hpg); no_point. intros Hn. right. right. split; [done|]. split; [by left|]. split; [by intros []|]. by right.
  - rewrite Hrc in Hst. injection Hst as <- <- <- <- <-. apply (live_consumer p (C_count b) _ me me peer peer s _ Hl); no_point; try apply Hf.
    apply (p_good_kept p peer peer (C_count b) _ s _ Hpg); no_point. intros Hn. right. right. split; [done|]. split; [by left|]. split; [by intros []|]. by right.
  - assert (Hcc : ∀ s1, receiver_count s1 = 0 → consumer_dropped s1 = true → consumer_live (consumer_closed (T:=T) b) me s1 ∧ consumer_end (consumer_closed (T:=T) b) me s1 ∧ c_good (consumer_closed b) me p s1) by (intros s1 E1 E2; destruct b; simpl; by rewrite Hcl).
    apply bind_Some in Hst as ([[w peer1] s1]&Hwk&[= <- <- <- <- <-]). destruct (wake_one_send _ _ _ _ _ _ Hno Hf Hwk) as (Ec&Et&Hf'&[[-> ->]|(->&->&Ew)]).
    + apply (live_consumer p (C_close_wake b) _ me me peer peer1 s _ Hl); no_point.
      apply (p_good_kept p peer peer1 (C_close_wake b) _ s _ Hpg); [done|by rewrite Et|by intros []|]. intros _. by right; left.
    + destruct (Hcc s Hrc Hcd) as (H1&H2&H3). apply (live_consumer p (C_close_wake b) _ me me peer peer1 s _ Hl); no_point.
      apply (p_good_kept p peer peer1 (C_close_wake b) _ s _ Hpg); [done|by rewrite Et|by intros []|]. by rewrite Ew.
  - injection Hst as <- <- <- <- <-. apply (live_consumer p (C_close_unpark b) _ me me peer (wake peer) s _ Hl); no_point; [destruct b; simpl; by rewrite Hcl|by destruct b| |by destruct b].
    apply (p_good_kept p peer (wake peer) (C_close_unpark b) _ s _ Hpg); [done|done|by left|by left].
Qed.

(** ** The system *)

Lemma call_leave_live p me c peer s : live p me c peer s → live p (leave_call p me) c peer s.
Proof.
  intros Hl. destruct p; try done. apply (live_producer (P_idle r) _ me _ c peer peer s s Hl); try done; [apply Hl|apply Hl|apply Hl].
Qed.

Lemma call_rleave_live p c me peer s : live p peer c me s → live p peer c (rleave_call c me) s.
Proof.
  intros Hl. destruct c; try done. apply (live_consumer p (C_idle r) _ me _ peer peer s s Hl); try done; apply Hl.
Qed.

Lemma producer_step_live p c me peer s put out p' me' peer' s' ys :
  ring_ok p c s put out → notes p me c peer s → live p me c peer s → producer_step p me peer s = Some (p', me', peer', s', ys) → live p' me' c peer' s'.
Proof.
  intros Hr Hn Hl Hst. pose proof (producer_ring p c me peer s put out p' me' peer' s' ys Hr Hst) as (xs'&d'&e'&Hi'). pose proof (ri_p _ _ _ _ _ _ _ _ Hi') as Hw'.
  destruct Hr as (xs&d&e&Hi). pose proof (ri_p _ _ _ _ _ _ _ _ Hi) as Hw. apply bind_Some in Hst as ([[[[p1 me1] peer1] s1] ys1]&Hst&[= -> <- -> -> ->]).
  apply call_leave_live. destruct p; try done;
    first [by eapply ring_push_live; [exact Hi|..]|by eapply look_live|by eapply send_wait_live|by eapply send_wake_live|by eapply send_close_live].
Qed.

Lemma consumer_step_live p c me peer s put out c' me' peer' s' ys :
  ring_ok p c s put out → notes p peer c me s → live p peer c me s → consumer_step c me peer s = Some (c', me', peer', s', ys) → live p peer' c' me' s'.
Proof.
  intros (xs&d&e&Hi) Hn Hl Hst. pose proof (ri_c _ _ _ _ _ _ _ _ Hi) as Hw. apply bind_Some in Hst as ([[[[c1 me1] peer1] s1] ys1]&Hst&[= -> <- -> -> ->]).
  apply call_rleave_live. destruct c; try done;
    first [by eapply pop_live; [exact Hi|..]|by eapply alive_live|by eapply recv_wait_live|by eapply recv_wake_live|by eapply recv_close_live].
Qed.

Lemma producer_choice_live ch p c me peer s p' me' :
  producer_wf p → live p me c peer s → producer_choice false ch p me = Some (p', me') → live p' me' c peer s.
Proof.
  intros Hw Hl Hst. pose proof (lv_p _ _ _ _ _ Hl) as Hp. pose proof (proj1 (lv_flags _ _ _ _ _ Hl)) as Hf.
  destruct ch as [o xs| | | | | |], p as [r|f|f|f|f|f|f|f|f|f ok|f|f|f|f|f|f| |b|b|b|b|]; try done; simpl in Hst, Hw, Hp; try (match type of Hp with _ ∧ _ => destruct Hp as [Hc Hs] end).
  - destruct (_ && _) eqn:Eg; [|done]. injection Hst as <- <-. apply andb_prop in Eg as [Ef Ec].
    apply (live_quiet (P_idle r) _ me _ c peer s s Hl); no_point.
    + simpl. split; [done|]. intros E. rewrite E in Ec. destruct o as [|[] []|[] []| |[] []]; simpl in *; done.
    + apply p_good_none; destruct o as [|[] []|[] []| |[] []]; no_point.
  - destruct (op f) as [|a b| | |] eqn:Eo; try done. injection Hst as <- <-. apply (live_quiet (P_register f) _ me me c peer s s Hl); no_point.
    + simpl. rewrite Eo, Hc. split; [done|]. done.
    + destruct Hw as [[b' E]|[_ [E|[b' E]]]]; try done. injection E as -> ->. apply p_good_none; simpl; rewrite ?Eo; simpl; no_point.
  - injection Hst as <- <-. unfold after_park.
    destruct Hw as [[[b Eo] Hne]|[Hs' Eo]]; rewrite Eo; apply (live_quiet (P_park f) _ me _ c peer s _ Hl); no_point; simpl; rewrite ?Hc, ?Hs; no_point; by apply p_good_none.
  - injection Hst as <- <-. apply (live_quiet (P_pending f) _ me _ c peer s _ Hl); no_point; simpl; rewrite ?Hc, ?Hs; no_point; by apply p_good_none.
  - injection Hst as <- <-. apply (live_quiet (P_pending f) _ me _ c peer s _ Hl); no_point.
  - destruct (closed me) eqn:Ec; [done|]. injection Hst as <- <-. apply (live_quiet (P_idle r) _ me _ c peer s s Hl); no_point.
  - injection Hst as <- <-. destruct (closed me) eqn:Ec; apply (live_quiet (P_idle r) _ me _ c peer s s Hl); no_point.
  - destruct (closed me) eqn:Ec; [done|]. injection Hst as <- <-. apply (live_quiet (P_idle r) _ me _ c peer s s Hl); no_point.
Qed.

Lemma consumer_choice_live ch p c me peer s c' me' :
  consumer_wf c → live p peer c me s → consumer_choice false ch c me = Some (c', me') → live p peer c' me' s.
Proof.
  intros Hw Hl Hst. pose proof (lv_c _ _ _ _ _ Hl) as Hc. pose proof (lv_end _ _ _ _ _ Hl) as He. pose proof (lv_cg _ _ _ _ _ Hl) as Hg. pose proof (proj2 (lv_flags _ _ _ _ _ Hl)) as Hf.
  destruct ch as [o n| | | | | | |], c as [r|g|g|g|g x|g|g|g|g a|ws|ws|ws|g|g|g| |b|b|b|b|]; try done; simpl in Hst, Hc, He, Hw.
  - destruct (fresh_recv o n) eqn:Ef; [|done]. destruct (closed me) eqn:Ec; injection Hst as <- <-.
    + apply (live_still p (C_idle r) _ me _ peer s s Hl); no_point; simpl; rewrite ?Ec; auto.
    + apply (live_still p (C_idle r) _ me _ peer s s Hl); no_point; try (simpl; by rewrite Ec). apply c_good_none; no_point. intros [_ ?]. by destruct o as [|? [] []|[] []|].
  - destruct Hc as (Hcl&Hrc&Hcd). destruct (rop g) as [|[] a b| |] eqn:Eo; try done. injection Hst as <- <-. apply (live_still p (C_register g) _ me _ peer s s Hl); no_point.
    + simpl. by rewrite He.
    + apply c_good_none; no_point. intros [_ H2]. destruct Hw as [_ [[t E]|[b' E]]]; [|done]. injection E as _ -> ->. by rewrite Eo in H2.
  - destruct Hc as (Hcl&Hrc&Hcd). injection Hst as <- <-. apply (live_still p (C_park g) _ me _ peer s s Hl); no_point.
  - destruct Hc as (Hcl&Hrc&Hcd). injection Hst as <- <-. apply (live_still p (C_pending g) _ me _ peer s s Hl); no_point; try (simpl; by rewrite He). apply c_good_none; no_point.
  - destruct Hc as (Hcl&Hrc&Hcd). destruct (rregistered (rop g)); injection Hst as <- <-; apply (live_still p (C_deadline g) _ me _ peer s s Hl); no_point; simpl; by rewrite Hcl.
  - destruct Hc as (Hcl&Hrc&Hcd). injection Hst as <- <-. apply (live_still p (C_pending g) _ me _ peer s s Hl); no_point.
  - destruct (closed me) eqn:Ec; [done|]. injection Hst as <- <-. apply (live_still p (C_idle r) _ me _ peer s s Hl); no_point.
  - injection Hst as <- <-. destruct (closed me) eqn:Ec; apply (live_still p (C_idle r) _ me _ peer s s Hl); no_point.
  - destruct (closed me) eqn:Ec; [done|]. injection Hst as <- <-. apply (live_still p (C_idle r) _ me _ peer s s Hl); no_point.
Qed.

Definition sys_live (t : system T) : Prop := let '(p, lp, (c, lc), s, _) := t in live p lp c lc s.

Lemma spsc_live capacity s t :
  0 < capacity ≤ 2 ^ 63 → new_internal capacity = Some s → rtc (spsc_step (T:=T) false) (start s) t → sys_ring capacity t ∧ sys_notes t ∧ sys_live t.
Proof.
  intros Hc Hnew. revert t. refine (rtc_ind_r _ _ _ _).
  - destruct (spsc_base false capacity s (start s) Hc Hnew) as [H1 H2]; [done|]. split; [done|]. split; [done|].
    unfold new_internal, ring_new in Hnew. destruct (Z.ltb_spec 0 capacity); [|lia]. by injection Hnew as <-.
  - intros t1 t2 _ Hst (H1&H2&H3). split; [by eapply spsc_ring|]. split; [by eapply spsc_notes|].
    destruct Hst as [p lp c lc s1 put out p' lp' lc' s' xs Hst|p lp c lc s1 put out c' lc' lp' s' xs Hst|p lp c lc s1 [put out] ch p' lp' Hch|p lp c lc s1 [put out] ch c' lc' Hch];
      simpl in *; destruct H1 as [Hok Hcap].
    + by eapply producer_step_live.
    + by eapply consumer_step_live.
    + destruct Hok as (xs&d&e&Hi). by eapply producer_choice_live; [apply (ri_p _ _ _ _ _ _ _ _ Hi)|..].
    + destruct Hok as (xs&d&e&Hi). by eapply consumer_choice_live; [apply (ri_c _ _ _ _ _ _ _ _ Hi)|..].
Qed.

(** A side that waits for its token. *)
Definition producer_asleep p l : Prop := match p with P_park _ | P_pending _ => token l = false | _ => False end.
Definition consumer_asleep c l : Prop := match c with C_park _ | C_pending _ => token l = false | _ => False end.

(** C4: As long as no closed handle is converted or sends a batch, however the calls interleave: when both sides are at rest, a sleeping
    consumer has received everything that was sent and the producer's handle is open, a sleeping producer faces a full channel whose receiver is open (so they never
    both sleep); and a [Disconnected] answered through an open receiver means that everything sent was received and the sender is gone. *)
Theorem spsc_no_lost_wakeup capacity s p lp c lc s' put out :
  0 < capacity ≤ 2 ^ 63 → new_internal capacity = Some s → rtc (spsc_step false) (start s) (p, lp, (c, lc), s', (put, out)) →
  (producer_at_rest p lp → consumer_asleep c lc → put = out ∧ closed lp = false ∧ ¬ producer_asleep p lp) ∧
  (consumer_at_rest c lc → producer_asleep p lp → (∃ xs, put = out ++ xs ∧ Z.of_nat (length xs) = capacity) ∧ closed lc = false ∧ ¬ consumer_asleep c lc) ∧
  (c = C_idle (Some Err_disconnected) → closed lc = false → put = out ∧ closed lp = true).
Proof.
  intros Hc Hnew Hr. destruct (spsc_live capacity s _ Hc Hnew Hr) as ([(xs&d&e&Hi) Hcap]&Hn&Hl). simpl in Hl.
  pose proof (occupied_counted _ _ _ _ _ _ _ _ Hi) as Ho. pose proof (ri_hist _ _ _ _ _ _ _ _ Hi) as Hh. pose proof (ri_n _ _ _ _ _ _ _ _ Hi) as Hx. destruct Hl as [Lp Lc Le Lf Lpg Lcg]. unfold counted in Ho.
  assert (Hce : consumer_asleep c lc → producer_at_rest p lp → occupied s' = 0 ∧ sender_count s' ≠ 0).
  { intros Ha Hp. assert (token lc = false) as Et by (by destruct c). assert (Hu : ¬ p_unparks p ∧ ¬ p_moved p ∧ ¬ p_closing p) by (destruct p; simpl; tauto).
    split.
    - destruct (cg_empty _ _ _ _ Lcg ltac:(by destruct c)) as [?|[?|[_ [?|?]]]]; [congruence|tauto|done|tauto].
    - destruct (cg_alive _ _ _ _ Lcg ltac:(by destruct c)) as [?|[?|[_ [?|?]]]]; [congruence|tauto|done|tauto]. }
  assert (Hpe : producer_asleep p lp → consumer_at_rest c lc → occupied s' = capacity ∧ consumer_dropped s' = false).
  { intros Ha Hp. assert (token lp = false) as Et by (by destruct p). assert (Hu : ¬ c_unparks c ∧ ¬ c_moved c ∧ ¬ c_closing c) by (destruct c; simpl; tauto).
    split.
    - destruct (pg_full _ _ _ _ Lpg ltac:(by destruct p)) as [?|[?|[_ [Heq|?]]]]; [congruence|tauto| |tauto]. assert (reserved p = 0) as Er by (by destruct p). lia.
    - destruct (pg_alive _ _ _ _ Lpg ltac:(by destruct p)) as [?|[?|[_ [?|?]]]]; [congruence|tauto|done|tauto]. }
  assert (Hr0 : producer_at_rest p lp → unpublished p = 0) by (by destruct p).
  split; [|split].
  - intros Hp Ha. destruct (Hce Ha Hp) as [E0 Es]. specialize (Hr0 Hp). assert (advancing c = 0) as Ea by (by destruct c).
    split; [|split].
    + assert (xs = []) as -> by (destruct xs; [done|simpl in *; lia]). by rewrite Hh, app_nil_r.
    + destruct p; try done; simpl in Lp; destruct (closed lp); naive_solver.
    + intros Hpa. destruct (Hpe Hpa) as [E1 _]; [by destruct c|]. lia.
  - intros Hp Ha. destruct (Hpe Ha Hp) as [E0 Es]. assert (unpublished p = 0) as Eu by (by destruct p). assert (advancing c = 0) as Ea by (by destruct c).
    split; [|split].
    + exists xs. split; [done|]. lia.
    + destruct c; try done; simpl in Lc; destruct (closed lc); naive_solver.
    + intros Hca. destruct (Hce Hca) as [E1 _]; [by destruct p|]. lia.
  - intros -> Hcl. simpl in Le. destruct Le as [|[Es E0]]; [congruence|].
    assert (Hcp : closed lp = true ∧ unpublished p = 0) by (destruct p; simpl in Lp; rewrite Es in Lp; destruct (closed lp); naive_solver).
    split; [|apply Hcp]. simpl in Ho. assert (xs = []) as -> by (destruct xs; [done|simpl in *; lia]). by rewrite Hh, app_nil_r.
Qed.
End Live.

(** ** Runs of the bounded SPSC channel

    A run is a list of turns; [spsc_run] executes it.  The runs below show the theorems at work, and
    what the channel does not survive: a capacity beyond [2^63], a closed handle that is
    converted, and [send_batch] through a closed handle. *)

(** The producer or the consumer steps, or makes a choice. *)
Inductive turn := P | C | PC (ch : SendChoice Z) | CC (ch : RecvChoice).

Definition spsc_turn wild (t : system Z) (u : turn) : option (system Z) :=
  let '(p, lp, (c, lc), s, (put, out)) := t in
  match u with
  | P => '(p', lp', lc', s', xs) ← producer_step p lp lc s; Some (p', lp', (c, lc'), s', (put ++ xs, out))
  | C => '(c', lc', lp', s', xs) ← consumer_step c lc lp s; Some (p, lp', (c', lc'), s', (put, out ++ xs))
  | PC ch => '(p', lp') ← producer_choice wild ch p lp; Some (p', lp', (c, lc), s, (put, out))
  | CC ch => '(c', lc') ← consumer_choice wild ch c lc; Some (p, lp, (c', lc'), s, (put, out))
  end.

Fixpoint spsc_run wild (t : system Z) (us : list turn) : option (system Z) :=
  match us with [] => Some t | u :: us => t ← spsc_turn wild t u; spsc_run wild t us end.

Lemma spsc_run_steps wild t us t' : spsc_run wild t us = Some t' → rtc (spsc_step wild) t t'.
Proof.
  revert t. induction us as [|u us IH]; intros t; cbn [spsc_run]; [by intros [= ->]|].
  intros (t1&H1&H2)%bind_Some. apply (rtc_l _ _ t1); [|by apply IH]. destruct t as [[[[p lp] [c lc]] s] [put out]]. destruct u; cbn [spsc_turn] in H1.
  - apply bind_Some in H1 as ([[[[p1 lp1] lc1] s1] xs]&Hst&[= <-]). by constructor.
  - apply bind_Some in H1 as ([[[[c1 lc1] lp1] s1] xs]&Hst&[= <-]). by constructor.
  - apply bind_Some in H1 as ([p1 lp1]&Hst&[= <-]). by apply (spsc_producer_choice _ _ _ _ _ _ _ ch).
  - apply bind_Some in H1 as ([c1 lc1]&Hst&[= <-]). by apply (spsc_consumer_choice _ _ _ _ _ _ _ ch).
Qed.

Definition chan (capacity : Z) : SpscShared Z := default (mk_shared (mk_ring [] 0 0 0 0 0 0) 0 0 false false None None 0 0) (new_internal capacity).

Definition try_send_call (x : Z) : list turn := PC (Call_send O_try [x]) :: replicate 5 P.
Definition recv_call (steps : nat) : list turn := CC (Call_recv (R_recv false false false) 0) :: replicate steps C.
Definition close_call : list turn := PC Close :: replicate 3 P.

(** A send, a blocked send, a receive that wakes it. *)
Definition run_fifo : list turn :=
  try_send_call 7 ++ PC (Call_send (O_send false false) [8]) :: replicate 10 P ++ recv_call 7 ++ replicate 8 P.

(** The consumer waits; nobody sends. *)
Definition run_wait : list turn := recv_call 9.

(** ** What the channel does not survive *)

(** A capacity beyond [2^63]: the buffer has two slots. *)
Definition run_huge : list turn := try_send_call 1 ++ try_send_call 2 ++ try_send_call 3 ++ recv_call 5.

(** The producer's handle is closed, converted and dropped; then the consumer receives. *)
Definition run_converted : list turn := close_call ++ [PC Convert; PC Drop; P; P] ++ recv_call 9.

(** The producer's handle is closed, the consumer learns so; a batch is sent. *)
Definition run_closed_batch : list turn := close_call ++ recv_call 7 ++ PC (Call_send (O_batch false false) [7]) :: replicate 6 P.

Definition run_end wild capacity us : system Z := default (start (chan capacity)) (spsc_run wild (start (chan capacity)) us).

Lemma spsc_end_reached wild capacity us : is_Some (spsc_run wild (start (chan capacity)) us) → rtc (spsc_step wild) (start (chan capacity)) (run_end wild capacity us).
Proof. intros [t E]. unfold run_end. rewrite E. by apply (spsc_run_steps _ _ us). Qed.

Lemma spsc_fifo_witness :
  ∃ p lp c lc s put out, rtc (spsc_step false) (start (chan 1)) (p, lp, (c, lc), s, (put, out)) ∧ put = [7; 8] ∧ out = [7] ∧ ∃ xs, put = out ++ xs.
Proof.
  pose proof (spsc_end_reached false 1 run_fifo ltac:(vm_compute; by eexists)) as Hr.
  destruct (run_end false 1 run_fifo) as [[[[p lp] [c lc]] s] [put out]] eqn:E. exists p, lp, c, lc, s, put, out. split; [done|].
  assert (Eh : (put, out) = ([7; 8], [7])) by (apply (f_equal snd) in E; revert E; vm_compute; congruence). injection Eh as -> ->. split; [done|]. split; [done|].
  destruct (spsc_fifo false 1 (chan 1) p lp c lc s _ _ ltac:(lia) ltac:(by vm_compute) Hr) as [(xs&Ep&_) _]. by exists xs.
Defined.

Lemma spsc_no_lost_wakeup_witness :
  ∃ p lp c lc s put out, rtc (spsc_step false) (start (chan 1)) (p, lp, (c, lc), s, (put, out)) ∧ consumer_asleep c lc ∧ put = out ∧ closed lp = false.
Proof.
  pose proof (spsc_end_reached false 1 run_wait ltac:(vm_compute; by eexists)) as Hr.
  destruct (run_end false 1 run_wait) as [[[[p lp] [c lc]] s] [put out]] eqn:E. exists p, lp, c, lc, s, put, out. split; [done|].
  assert (Ec : c = C_park (mk_rf (R_recv false true true) false 0 []) ∧ token lc = false).
  { pose proof (f_equal (λ t : system Z, t.1.1.2) E) as E1. revert E1. vm_compute. by intros [= <- <-]. }
  destruct Ec as [-> Et]. split; [done|]. assert (Ep : p = P_idle None) by (apply (f_equal (λ t : system Z, t.1.1.1.1)) in E; revert E; vm_compute; congruence). subst p.
  destruct (spsc_no_lost_wakeup 1 (chan 1) _ lp _ lc s put out ltac:(lia) ltac:(by vm_compute) Hr) as (H1&_&_). destruct (H1 I Et) as (?&?&_). done.
Defined.

(** C40: Three runs in which the channel fails.  (1) a capacity of [2^63 + 1] is accepted, but the buffer has two slots: three sends succeed, and the first value
    received is the third.  (2) a producer's handle that is closed, converted and dropped is counted off twice: the
    count wraps, and a consumer that calls [recv] sleeps for ever.  (3) [send_batch] through a closed handle succeeds after the consumer was told that the channel is
    disconnected. *)
Theorem spsc_faults :
  (∃ p lp c lc s, rtc (spsc_step true) (start (chan (2 ^ 63 + 1))) (p, lp, (c, lc), s, ([1; 2; 3], [3])) ∧ len (ring s) = 2) ∧
  (∃ lp g lc s, rtc (spsc_step true) (start (chan 1)) (P_gone, lp, (C_park g, lc), s, ([], [])) ∧ token lc = false ∧ sender_count s = u64_max) ∧
  (∃ lp c lc s, rtc (spsc_step true) (start (chan 1)) (P_idle (Some (Ok_sent 1)), lp, (C_idle c, lc), s, ([7], [])) ∧ closed lp = true ∧ c = Some Err_disconnected ∧ closed lc = false).
Proof.
  repeat split.
  - do 5 eexists. split; [apply (spsc_run_steps _ _ run_huge); by vm_compute|]. by vm_compute.
  - do 4 eexists. split; [apply (spsc_run_steps _ _ run_converted); by vm_compute|]. by vm_compute.
  - do 4 eexists. split; [apply (spsc_run_steps _ _ run_closed_batch); by vm_compute|]. by vm_compute.
Qed.
