(* ===== verification/Histogram.v ===== *)
(** * Histograms of durations (stats/src/histogram.rs)

    A duration in nanoseconds falls in one of eight buckets of its power of two; a histogram keeps the
    non-empty buckets sorted by index, with the count, the sum, the least and the greatest duration.
    The list of durations recorded is the reference: [durations xs] is what [add_ns] makes of [xs], and
    every operation is related to it. *)

From Stdlib Require Import SpecFloat.
From stdpp Require Import sorting.
From S2P Require Import Prelude Float.

Definition SUB_BUCKET_BITS : Z := 3.
Definition SUB_BUCKETS : Z := Z.shiftl 1 SUB_BUCKET_BITS.

(** [u64::leading_zeros]. *)
Definition leading_zeros (x : Z) : Z := if x =? 0 then 64 else 63 - Z.log2 x.

Definition bucket_index (ns : Z) : Z :=
  if ns <? SUB_BUCKETS then ns
  else
    let octave := 63 - leading_zeros ns in
    let sub := Z.land (Z.shiftr ns (octave - SUB_BUCKET_BITS)) (SUB_BUCKETS - 1) in
    octave * SUB_BUCKETS + sub.

(** A shift by 64 or more shifts by the amount modulo 64, as the release profile does; the bits shifted out are lost. *)
Definition u64_shl (x s : Z) : Z := Z.shiftl x (s mod 64) mod U64.

Definition bucket_bounds (index : Z) : Z * Z :=
  if index <? SUB_BUCKETS then (index, index)
  else
    let octave := index / SUB_BUCKETS in
    if octave <? SUB_BUCKET_BITS then (0, 0)
    else
      let sub := index mod SUB_BUCKETS in
      let shift := octave - SUB_BUCKET_BITS in
      let lower := u64_shl (SUB_BUCKETS + sub) shift in
      (lower, lower +w (u64_shl 1 shift - 1)).

Record Histogram := mk_histogram {
  count : Z;
  sum_ns : Z;
  min_ns : Z;
  max_ns : Z;
  buckets : list (Z * Z);
}.

Definition new : Histogram := mk_histogram 0 0 0 0 [].

(** [slice::binary_search_by_key] on a slice sorted by key: [inl] the position of the key, or [inr] the one that keeps the order. *)
Fixpoint binary_search_by_key (index : Z) (bs : list (Z * Z)) : nat + nat :=
  match bs with
  | [] => inr 0%nat
  | (i, _) :: bs' =>
      if i <? index then
        match binary_search_by_key index bs' with inl at_ => inl (S at_) | inr at_ => inr (S at_) end
      else if i =? index then inl 0%nat else inr 0%nat
  end.

(** The [match] of [add_ns] and of [merge]: add [n] to the bucket [index]. *)
Definition bump (index n : Z) (bs : list (Z * Z)) : list (Z * Z) :=
  match binary_search_by_key index bs with
  | inl at_ => alter (λ b, (b.1, Z.min u32_max (b.2 + n))) at_ bs
  | inr at_ => take at_ bs ++ (index, n) :: drop at_ bs
  end.

Definition add_ns (h : Histogram) (ns : Z) : Histogram :=
  mk_histogram (count h +w 1) (sat_add (sum_ns h) ns)
    (if count h =? 0 then ns else Z.min (min_ns h) ns)
    (if count h =? 0 then ns else Z.max (max_ns h) ns)
    (bump (bucket_index ns) 1 (buckets h)).

(** A duration beyond [u64] nanoseconds is recorded as the greatest. *)
Definition add (h : Histogram) (duration : Z) : Histogram := add_ns h (Z.min u64_max duration).

Definition merge (h other : Histogram) : Histogram :=
  if count other =? 0 then h
  else if count h =? 0 then other
  else
    mk_histogram (count h +w count other) (sat_add (sum_ns h) (sum_ns other))
      (Z.min (min_ns h) (min_ns other)) (Z.max (max_ns h) (max_ns other))
      (foldl (λ bs b, bump b.1 b.2 bs) (buckets h) (buckets other)).

Definition is_empty (h : Histogram) : bool := count h =? 0.
Definition mean (h : Histogram) : option Z := if count h =? 0 then None else Some (sum_ns h / count h).

(** [f64::clamp(0.0, 1.0)], which keeps a NaN. *)
Definition clamp01 (q : spec_float) : spec_float :=
  if SFltb q (S754_zero false) then S754_zero false
  else if SFltb (f64_of_u64 1) q then f64_of_u64 1 else q.

(** [x.ceil() as u64]: the cast saturates, and sends NaN and what is below zero to zero. *)
Definition ceil_as_u64 (x : spec_float) : Z :=
  match x with
  | S754_finite false m e => Z.min u64_max (if 0 <=? e then Z.pos m * 2 ^ e else (Z.pos m + (2 ^ (- e) - 1)) / 2 ^ (- e))
  | S754_infinity false => u64_max
  | _ => 0
  end.

Definition quantile_target (q : spec_float) (count : Z) : Z :=
  Z.max 1 (ceil_as_u64 (f64_mul (clamp01 q) (f64_of_u64 count))).

(** [Ord::clamp], on [lo <= hi]. *)
Definition clamp (x lo hi : Z) : Z := if x <? lo then lo else if hi <? x then hi else x.

(** The loop of [quantile] over the buckets. *)
Fixpoint quantile_walk (h : Histogram) (target seen : Z) (bs : list (Z * Z)) : Z :=
  match bs with
  | [] => max_ns h
  | (index, n) :: bs' =>
      let seen := seen +w n in
      if target <=? seen then
        let '(lower, upper) := bucket_bounds index in
        clamp (lower + (upper - lower) / 2) (min_ns h) (max_ns h)
      else quantile_walk h target seen bs'
  end.

Definition quantile (h : Histogram) (q : spec_float) : option Z :=
  if count h =? 0 then None
  else
    let target := quantile_target q (count h) in
    if count h <=? target then Some (max_ns h) else Some (quantile_walk h target 0 (buckets h)).

(** [sort_by_key], which is stable: an element goes before the first of a key not below its own. *)
Fixpoint insert_by_key (b : Z * Z) (bs : list (Z * Z)) : list (Z * Z) :=
  match bs with
  | [] => [b]
  | c :: bs' => if b.1 <=? c.1 then b :: bs else c :: insert_by_key b bs'
  end.

Definition from_parts (count sum_ns min_ns max_ns : Z) (buckets : list (Z * Z)) : Histogram :=
  mk_histogram count sum_ns min_ns max_ns (foldr insert_by_key [] buckets).

(** What the histogram of the durations [xs] is: they are added one by one. *)
Definition durations (xs : list Z) : Histogram := foldl add_ns new xs.

(** ** The buckets *)
Definition in_bucket (i v : Z) : Prop := (bucket_bounds i).1 ≤ v ≤ (bucket_bounds i).2.

Lemma log2_range ns : 8 ≤ ns → is_u64 ns → 3 ≤ Z.log2 ns < 64.
Proof.
  intros H8 [H0 H1]. split; [change 3 with (Z.log2 8); by apply Z.log2_le_mono|].
  apply Z.log2_lt_pow2; [lia|exact H1].
Qed.

Lemma bucket_index_high ns : 8 ≤ ns → is_u64 ns →
  let s := Z.log2 ns - 3 in
  ∃ sub, 0 ≤ sub < 8 ∧ bucket_index ns = (s + 3) * 8 + sub ∧ (8 + sub) * 2 ^ s ≤ ns < (8 + sub + 1) * 2 ^ s.
Proof.
  intros H8 Hu s. destruct (log2_range _ H8 Hu) as [Hl Hl'].
  assert (Hp : 0 < 2 ^ s) by (apply Z.pow_pos_nonneg; lia).
  assert (E8 : 2 ^ Z.log2 ns = 8 * 2 ^ s).
  { replace (Z.log2 ns) with (3 + s) by lia. rewrite Z.pow_add_r by lia. done. }
  pose proof (Z.log2_spec ns ltac:(lia)) as [Hlo Hhi]. rewrite Z.pow_succ_r, E8 in Hhi by lia. rewrite E8 in Hlo.
  set (d := ns / 2 ^ s). assert (Hd : 8 ≤ d < 16).
  { split; [apply Z.div_le_lower_bound; lia|apply Z.div_lt_upper_bound; lia]. }
  exists (d - 8). split; [lia|]. split.
  - unfold bucket_index. change SUB_BUCKETS with 8. change SUB_BUCKET_BITS with 3.
    destruct (Z.ltb_spec ns 8); [lia|]. unfold leading_zeros. destruct (Z.eqb_spec ns 0); [lia|].
    replace (63 - (63 - Z.log2 ns)) with (Z.log2 ns) by lia. fold s. rewrite Z.shiftr_div_pow2 by lia. fold d.
    change (8 - 1) with (Z.ones 3). rewrite Z.land_ones by lia. change (2 ^ 3) with 8.
    replace d with (d - 8 + 1 * 8) at 1 by lia. rewrite Z.mod_add by lia. rewrite Z.mod_small; lia.
  - replace (8 + (d - 8)) with d by lia. pose proof (Z.div_mod ns (2 ^ s) ltac:(lia)).
    pose proof (Z.mod_pos_bound ns (2 ^ s) Hp). unfold d. nia.
Qed.

Lemma bucket_bounds_high s sub : 0 ≤ s ≤ 60 → 0 ≤ sub < 8 →
  bucket_bounds ((s + 3) * 8 + sub) = ((8 + sub) * 2 ^ s, (8 + sub + 1) * 2 ^ s - 1).
Proof.
  intros Hs Hsub. assert (Hp : 0 < 2 ^ s) by (apply Z.pow_pos_nonneg; lia).
  assert (Hp60 : 2 ^ s ≤ 2 ^ 60) by (apply Z.pow_le_mono_r; lia).
  change (2 ^ 60) with 1152921504606846976 in Hp60.
  unfold bucket_bounds. change SUB_BUCKETS with 8. change SUB_BUCKET_BITS with 3.
  destruct (Z.ltb_spec ((s + 3) * 8 + sub) 8); [lia|].
  rewrite (Z.div_add_l (s + 3) 8 sub), (Z.div_small sub 8) by lia.
  replace ((s + 3) * 8 + sub) with (sub + (s + 3) * 8) by lia. rewrite Z.mod_add, (Z.mod_small sub 8) by lia.
  destruct (Z.ltb_spec (s + 3 + 0) 3); [lia|]. replace (s + 3 + 0 - 3) with s by lia.
  unfold u64_shl, u64_add. rewrite (Z.mod_small s 64) by lia. rewrite !Z.shiftl_mul_pow2 by lia.
  rewrite !(Z.mod_small _ U64); [f_equal; lia| | |]; unfold U64; rewrite ?Z.mod_small; nia.
Qed.

Lemma bucket_of_bounds s sub v : 0 ≤ s ≤ 60 → 0 ≤ sub < 8 →
  (8 + sub) * 2 ^ s ≤ v < (8 + sub + 1) * 2 ^ s → bucket_index v = (s + 3) * 8 + sub.
Proof.
  intros Hs Hsub Hv. assert (Hp : 0 < 2 ^ s) by (apply Z.pow_pos_nonneg; lia).
  assert (Hp60 : 2 ^ s ≤ 2 ^ 60) by (apply Z.pow_le_mono_r; lia).
  assert (El : Z.log2 v = 3 + s).
  { apply Z.log2_unique; [lia|]. rewrite Z.pow_succ_r, Z.pow_add_r by lia. change (2 ^ 3) with 8. nia. }
  assert (is_u64 v) by (change (2 ^ 60) with 1152921504606846976 in Hp60; unfold is_u64, U64; nia).
  destruct (bucket_index_high v) as (sub' & Hs' & -> & Hv'); [nia|done|].
  rewrite El in *. replace (3 + s - 3) with s in * by lia. nia.
Qed.

Lemma bucket_index_low ns : 0 ≤ ns < 8 → bucket_index ns = ns ∧ bucket_bounds ns = (ns, ns).
Proof.
  intros H. unfold bucket_index, bucket_bounds. change SUB_BUCKETS with 8. by destruct (Z.ltb_spec ns 8); [|lia].
Qed.

(** The indexes that are produced. *)
Definition produced (i : Z) : Prop := 0 ≤ i < 8 ∨ 24 ≤ i < 512.

Lemma produced_high i : 24 ≤ i < 512 → ∃ s sub, 0 ≤ s ≤ 60 ∧ 0 ≤ sub < 8 ∧ i = (s + 3) * 8 + sub.
Proof. intros H. exists (i / 8 - 3), (i mod 8). Z.div_mod_to_equations. lia. Qed.

Lemma in_bucket_iff i v : produced i → is_u64 v → in_bucket i v ↔ bucket_index v = i.
Proof.
  intros Hi Hv. unfold in_bucket. destruct Hi as [Hi|Hi].
  - destruct (bucket_index_low i Hi) as [Ei ->]. simpl. split; [by intros; replace v with i by lia|].
    destruct (decide (v < 8)) as [|H8]; [destruct (bucket_index_low v) as [-> _]; [by destruct Hv|lia]|].
    destruct (bucket_index_high v) as (sub & ? & -> & _); [lia|done|]. pose proof (log2_range v ltac:(lia) Hv). lia.
  - destruct (produced_high i Hi) as (s & sub & Hs & Hsub & ->). rewrite bucket_bounds_high by done. simpl.
    split; [intros; apply bucket_of_bounds; lia|].
    destruct (decide (v < 8)) as [|H8]; [destruct (bucket_index_low v) as [-> _]; [by destruct Hv|lia]|].
    destruct (bucket_index_high v) as (sub' & ? & -> & Hv'); [lia|done|]. intros E.
    assert (Z.log2 v - 3 = s ∧ sub' = sub) as [Es ->] by lia. rewrite Es in Hv'. lia.
Qed.

Lemma bucket_produced v : is_u64 v → produced (bucket_index v).
Proof.
  intros Hv. destruct (decide (v < 8)) as [|H8]; [left; destruct (bucket_index_low v) as [-> _]; destruct Hv; lia|right].
  destruct (bucket_index_high v) as (sub & ? & -> & _); [lia|done|]. pose proof (log2_range v ltac:(lia) Hv). lia.
Qed.

Lemma bucket_contains v : is_u64 v → in_bucket (bucket_index v) v.
Proof. intros Hv. by apply in_bucket_iff; [apply bucket_produced| |]. Qed.

Lemma bucket_index_mono v w : is_u64 v → is_u64 w → v ≤ w → bucket_index v ≤ bucket_index w.
Proof.
  intros Hv Hw Hle. destruct (decide (v < 8)) as [H8|H8], (decide (w < 8)) as [H8'|H8']; try lia.
  - rewrite (proj1 (bucket_index_low v ltac:(destruct Hv; lia))), (proj1 (bucket_index_low w ltac:(destruct Hw; lia))). lia.
  - rewrite (proj1 (bucket_index_low v ltac:(destruct Hv; lia))).
    destruct (bucket_index_high w) as (sub & ? & -> & _); [lia|done|]. pose proof (log2_range w ltac:(lia) Hw). lia.
  - destruct (bucket_index_high v) as (sub & ? & -> & Hv'); [lia|done|].
    destruct (bucket_index_high w) as (sub' & ? & -> & Hw'); [lia|done|].
    pose proof (Z.log2_le_mono v w Hle). destruct (decide (Z.log2 v = Z.log2 w)) as [E|]; [|lia].
    rewrite E in *. assert (0 < 2 ^ (Z.log2 w - 3)) by (apply Z.pow_pos_nonneg; pose proof (log2_range w ltac:(lia) Hw); lia). nia.
Qed.

(** A bucket of durations above eight is at most an eighth of its lower bound wide, so its midpoint is within a sixteenth of each of its durations. *)
Lemma midpoint_near v : is_u64 v →
  let '(lower, upper) := bucket_bounds (bucket_index v) in
  lower ≤ v ≤ upper ∧ upper < U64 ∧ 8 * (upper - lower) ≤ lower ∧ 16 * Z.abs (lower + (upper - lower) / 2 - v) ≤ v.
Proof.
  intros Hv. destruct (decide (v < 8)) as [H8|H8].
  { destruct (bucket_index_low v) as [E1 E2]; [destruct Hv; lia|]. rewrite E1, E2. unfold U64. destruct Hv.
    rewrite !Z.sub_diag. change (0 / 2) with 0. rewrite Z.add_0_r, Z.sub_diag. simpl. lia. }
  destruct (bucket_index_high v) as (sub & Hsub & -> & Hv'); [lia|done|]. pose proof (log2_range v ltac:(lia) Hv) as Hl.
  set (s := Z.log2 v - 3) in *. rewrite bucket_bounds_high by lia.
  assert (Hp : 0 < 2 ^ s) by (apply Z.pow_pos_nonneg; lia).
  assert (Hp60 : 2 ^ s ≤ 2 ^ 60) by (apply Z.pow_le_mono_r; lia). change (2 ^ 60) with 1152921504606846976 in Hp60.
  set (p := 2 ^ s) in *. replace ((8 + sub + 1) * p - 1 - (8 + sub) * p) with (p - 1) by lia.
  split; [lia|]. split; [unfold U64; nia|]. split; [nia|]. pose proof (Z.mul_div_le (p - 1) 2 ltac:(lia)).
  pose proof (Z.mul_succ_div_gt (p - 1) 2 ltac:(lia)). nia.
Qed.

(** ** The list of buckets *)
Definition sorted_buckets (bs : list (Z * Z)) : Prop := StronglySorted Z.lt bs.*1.

Fixpoint at_bucket (i : Z) (bs : list (Z * Z)) : Z :=
  match bs with
  | [] => 0
  | (j, n) :: bs' => if j =? i then n else at_bucket i bs'
  end.

Lemma bump_nil i n : bump i n [] = [(i, n)].
Proof. done. Qed.

Lemma bump_cons i n j m bs : bump i n ((j, m) :: bs) =
  if j <? i then (j, m) :: bump i n bs else if j =? i then (j, Z.min u32_max (m + n)) :: bs else (i, n) :: (j, m) :: bs.
Proof.
  unfold bump. simpl. destruct (j <? i); [by destruct (binary_search_by_key i bs)|].
  by destruct (j =? i).
Qed.

Lemma sorted_buckets_cons j m bs : sorted_buckets ((j, m) :: bs) ↔ Forall (Z.lt j) bs.*1 ∧ sorted_buckets bs.
Proof. apply StronglySorted_cons. Qed.

Lemma bump_above j i n bs : j < i → Forall (Z.lt j) bs.*1 → Forall (Z.lt j) (bump i n bs).*1.
Proof.
  intros Hj. induction bs as [|[k m] bs IH]; [by repeat constructor|]. rewrite bump_cons, fmap_cons, Forall_cons. simpl.
  intros [Hk H]. destruct (k <? i); [by constructor; auto|]. by destruct (k =? i); repeat constructor.
Qed.

Lemma bump_sorted i n bs : sorted_buckets bs → sorted_buckets (bump i n bs).
Proof.
  induction bs as [|[k m] bs IH]; [by repeat constructor|]. rewrite bump_cons, sorted_buckets_cons. intros [Hk H].
  destruct (Z.ltb_spec k i).
  - apply sorted_buckets_cons. split; [by apply bump_above|auto].
  - destruct (Z.eqb_spec k i); [by apply sorted_buckets_cons|]. apply sorted_buckets_cons. split; [|by apply sorted_buckets_cons].
    constructor; [simpl; lia|]. eapply Forall_impl; [exact Hk|]. simpl. lia.
Qed.

Lemma at_bucket_above i bs : Forall (Z.lt i) bs.*1 → at_bucket i bs = 0.
Proof.
  induction bs as [|[k m] bs IH]; [done|]. rewrite fmap_cons, Forall_cons. simpl. intros [Hk H].
  destruct (Z.eqb_spec k i); [lia|auto].
Qed.

Lemma at_bump j i n bs : sorted_buckets bs → n ≤ u32_max →
  at_bucket j (bump i n bs) = if j =? i then Z.min u32_max (at_bucket i bs + n) else at_bucket j bs.
Proof.
  intros Hs Hn. induction bs as [|[k m] bs IH].
  { rewrite bump_nil. simpl. rewrite (Z.eqb_sym i j). destruct (j =? i); [lia|done]. }
  rewrite bump_cons. apply sorted_buckets_cons in Hs as [Hk Hs]. specialize (IH Hs). simpl.
  destruct (Z.ltb_spec k i); simpl.
  - destruct (Z.eqb_spec k i); [lia|]. rewrite IH. destruct (Z.eqb_spec k j), (Z.eqb_spec j i); (lia || done).
  - destruct (Z.eqb_spec k i) as [->|]; simpl; [by rewrite (Z.eqb_sym j i); destruct (i =? j)|].
    rewrite (Z.eqb_sym i j). destruct (Z.eqb_spec j i) as [->|]; [|done]. destruct (Z.eqb_spec k i); [lia|].
    rewrite at_bucket_above; [lia|]. eapply Forall_impl; [exact Hk|]. simpl. lia.
Qed.

Definition positive_buckets (bs : list (Z * Z)) : Prop := Forall (λ b, 0 < b.2 ≤ u32_max) bs.

Lemma bump_positive i n bs : 0 < n ≤ u32_max → positive_buckets bs → positive_buckets (bump i n bs).
Proof.
  intros Hn. induction 1 as [|[k m] bs Hm H IH]; [by apply Forall_singleton|]. simpl in Hm. rewrite bump_cons.
  destruct (k <? i); [by constructor|]. destruct (k =? i); constructor; simpl; try done; [lia|by constructor].
Qed.

Lemma at_bucket_nonneg i bs : positive_buckets bs → 0 ≤ at_bucket i bs.
Proof. induction 1 as [|[k m] bs Hm H IH]; simpl in *; [done|]. destruct (k =? i); lia. Qed.

Lemma buckets_ext bs1 bs2 : sorted_buckets bs1 → sorted_buckets bs2 → positive_buckets bs1 → positive_buckets bs2 →
  (∀ i, at_bucket i bs1 = at_bucket i bs2) → bs1 = bs2.
Proof.
  revert bs2. induction bs1 as [|[j1 m1] bs1 IH]; intros [|[j2 m2] bs2] Hs1 Hs2 Hp1 Hp2 He; [done| | |].
  { specialize (He j2). simpl in He. rewrite Z.eqb_refl in He. apply Forall_cons in Hp2 as [? _]. simpl in *. lia. }
  { specialize (He j1). simpl in He. rewrite Z.eqb_refl in He. apply Forall_cons in Hp1 as [? _]. simpl in *. lia. }
  apply sorted_buckets_cons in Hs1 as [Ha1 Hs1], Hs2 as [Ha2 Hs2]. apply Forall_cons in Hp1 as [Hm1 Hp1], Hp2 as [Hm2 Hp2].
  assert (Hz1 : ∀ i, i ≤ j1 → at_bucket i bs1 = 0).
  { intros i Hi. apply at_bucket_above. eapply Forall_impl; [exact Ha1|]. simpl. lia. }
  assert (Hz2 : ∀ i, i ≤ j2 → at_bucket i bs2 = 0).
  { intros i Hi. apply at_bucket_above. eapply Forall_impl; [exact Ha2|]. simpl. lia. }
  simpl in *. pose proof (He j1) as E1. pose proof (He j2) as E2. rewrite Z.eqb_refl in E1, E2.
  destruct (Z.eqb_spec j2 j1) as [->|Hne].
  - rewrite Z.eqb_refl in E2. subst m2. f_equal. apply IH; try done. intros i. specialize (He i).
    destruct (Z.eqb_spec j1 i) as [->|]; [by rewrite Hz1, Hz2|done].
  - destruct (Z.eqb_spec j1 j2); [lia|]. destruct (decide (j1 < j2)); [rewrite Hz2 in E1 by lia; lia|rewrite Hz1 in E2 by lia; lia].
Qed.

(** ** A histogram and the durations recorded in it *)
Definition sum (xs : list Z) : Z := foldr Z.add 0 xs.

(** How many of [xs] fall in the bucket [i]. *)
Definition hits (i : Z) (xs : list Z) : Z := Z.of_nat (length (filter (λ x, bucket_index x = i) xs)).

(** [m] is the first of [xs] in the order [R]. *)
Definition extreme (R : Z → Z → Prop) (m : Z) (xs : list Z) : Prop := m ∈ xs ∧ ∀ x, x ∈ xs → R m x.

Record holds (h : Histogram) (xs : list Z) : Prop := mk_holds {
  h_count : count h = Z.of_nat (length xs);
  h_sum : sum_ns h = Z.min u64_max (sum xs);
  h_min : if decide (xs = []) then min_ns h = 0 else extreme Z.le (min_ns h) xs;
  h_max : if decide (xs = []) then max_ns h = 0 else extreme Z.ge (max_ns h) xs;
  h_sorted : sorted_buckets (buckets h);
  h_positive : positive_buckets (buckets h);
  h_hits : ∀ i, at_bucket i (buckets h) = Z.min u32_max (hits i xs);
}.

(** Durations of a list that a histogram can count. *)
Definition recordable (xs : list Z) : Prop := Forall is_u64 xs ∧ Z.of_nat (length xs) < U64.

Lemma hits_app i xs ys : hits i (xs ++ ys) = hits i xs + hits i ys.
Proof. unfold hits. rewrite filter_app, length_app. lia. Qed.

Lemma hits_single i v : hits i [v] = if i =? bucket_index v then 1 else 0.
Proof. unfold hits. rewrite filter_cons, filter_nil. rewrite Z.eqb_sym. by case_decide as E; [rewrite E, Z.eqb_refl|destruct (Z.eqb_spec (bucket_index v) i)]. Qed.

Lemma hits_nonneg i xs : 0 ≤ hits i xs.
Proof. unfold hits. lia. Qed.

Lemma hits_perm i xs ys : xs ≡ₚ ys → hits i xs = hits i ys.
Proof. intros H. unfold hits. by rewrite H. Qed.

Lemma sum_app xs ys : sum (xs ++ ys) = sum xs + sum ys.
Proof. induction xs; simpl; lia. Qed.

Lemma sum_nonneg xs : Forall is_u64 xs → 0 ≤ sum xs.
Proof. induction 1 as [|x xs [Hx _]]; simpl; lia. Qed.

Lemma sum_perm xs ys : xs ≡ₚ ys → sum xs = sum ys.
Proof. induction 1; simpl; lia. Qed.

Lemma extreme_app R m m' xs ys k : Transitive R → (R m m' ∧ k = m ∨ R m' m ∧ k = m') → extreme R m xs → extreme R m' ys → extreme R k (xs ++ ys).
Proof.
  intros HT Hk [Hm H] [Hm' H']. split; [destruct Hk as [[_ ->]|[_ ->]]; set_solver|].
  intros x [Hx|Hx]%elem_of_app; destruct Hk as [[Hr ->]|[Hr ->]]; eauto.
Qed.

Lemma extreme_single R v : Reflexive R → extreme R v [v].
Proof. split; [by left|]. by intros x ->%list_elem_of_singleton. Qed.

Lemma extreme_perm R m m' xs ys : AntiSymm (=) R → xs ≡ₚ ys → extreme R m xs → extreme R m' ys → m = m'.
Proof. intros HA Hp [Hm H] [Hm' H']. apply (anti_symm R); [apply H; by rewrite Hp|apply H'; by rewrite <- Hp]. Qed.

#[local] Instance ge_trans : Transitive Z.ge.
Proof. intros x y z. lia. Qed.
#[local] Instance ge_refl : Reflexive Z.ge.
Proof. intros x. lia. Qed.
#[local] Instance ge_antisymm : AntiSymm (=) Z.ge.
Proof. intros x y. lia. Qed.

Lemma new_holds : holds new [].
Proof. constructor; try done; [apply SSorted_nil|apply Forall_nil_2]. Qed.

Lemma holds_empty h xs : holds h xs → Z.of_nat (length xs) < U64 → (count h =? 0) = bool_decide (xs = []).
Proof. intros [-> _ _ _ _ _ _] _. by destruct xs. Qed.

Lemma sat_sum a b : 0 ≤ a → 0 ≤ b → sat_add (Z.min u64_max a) (Z.min u64_max b) = Z.min u64_max (a + b).
Proof. unfold sat_add. u64_lia. Qed.

Lemma merged_buckets bs2 bs1 : sorted_buckets bs1 → positive_buckets bs1 → sorted_buckets bs2 → positive_buckets bs2 →
  let bs := foldl (λ bs b, bump b.1 b.2 bs) bs1 bs2 in
  sorted_buckets bs ∧ positive_buckets bs ∧ ∀ i, at_bucket i bs2 = 0 ∧ at_bucket i bs = at_bucket i bs1 ∨ at_bucket i bs = Z.min u32_max (at_bucket i bs1 + at_bucket i bs2).
Proof.
  revert bs1. induction bs2 as [|[j m] bs2 IH]; intros bs1 Hs1 Hp1 Hs2 Hp2; simpl; [by eauto|].
  apply sorted_buckets_cons in Hs2 as [Ha Hs2]. apply Forall_cons in Hp2 as [Hm Hp2]. simpl in Hm.
  destruct (IH (bump j m bs1)) as (Hs & Hp & He); try done; [by apply bump_sorted|by apply bump_positive|].
  split; [done|]. split; [done|]. intros i. pose proof (He i) as Hi. rewrite at_bump in Hi by (done || lia).
  rewrite (Z.eqb_sym j i). destruct (i =? j) eqn:E; [|exact Hi]. apply Z.eqb_eq in E. subst i.
  rewrite (at_bucket_above j bs2) in Hi by done. right. destruct Hi as [[_ ->]| ->]; [done|].
  pose proof (at_bucket_nonneg j bs1 Hp1). lia.
Qed.

Lemma at_bucket_le i bs : positive_buckets bs → at_bucket i bs ≤ u32_max.
Proof. induction 1 as [|[k m] bs Hm H IH]; simpl in *; [u64_lia|]. destruct (k =? i); lia. Qed.

Lemma merge_holds h1 h2 xs ys : holds h1 xs → holds h2 ys → Forall is_u64 (xs ++ ys) → Z.of_nat (length (xs ++ ys)) < U64 →
  holds (merge h1 h2) (xs ++ ys).
Proof.
  intros H1 H2 Hu Hl. rewrite length_app in Hl. apply Forall_app in Hu as [Hx Hy].
  unfold merge. rewrite (holds_empty h2 ys), (holds_empty h1 xs) by (done || lia).
  repeat case_bool_decide; subst; rewrite ?app_nil_r; try done.
  destruct H1 as [C1 S1 N1 X1 O1 P1 T1], H2 as [C2 S2 N2 X2 O2 P2 T2].
  rewrite decide_False in N1, X1 by done. rewrite decide_False in N2, X2 by done.
  destruct (merged_buckets (buckets h2) (buckets h1)) as (Hs & Hp & He); try done.
  assert (Hne : xs ++ ys ≠ []) by (by destruct xs).
  constructor; simpl; try done; rewrite ?decide_False by done.
  - rewrite length_app, C1, C2, u64_add_small; lia.
  - rewrite S1, S2, sum_app. apply sat_sum; by apply sum_nonneg.
  - eapply extreme_app; eauto with typeclass_instances. lia.
  - eapply extreme_app; eauto with typeclass_instances. lia.
  - intros i. rewrite hits_app. pose proof (hits_nonneg i xs). pose proof (hits_nonneg i ys).
    pose proof (at_bucket_le i (buckets h1) P1). specialize (T1 i). specialize (T2 i). destruct (He i) as [[Hz ->]| ->]; u64_lia.
Qed.

(** Recording one duration is merging the histogram of that duration alone. *)
Lemma single_holds v : is_u64 v → holds (add_ns new v) [v].
Proof.
  intros Hv. constructor; simpl; rewrite ?decide_False by done; try done.
  - destruct Hv. unfold sat_add. f_equal. lia.
  - apply extreme_single. apply _.
  - apply extreme_single. apply _.
  - apply bump_sorted, SSorted_nil.
  - apply bump_positive; [u64_lia|apply Forall_nil_2].
  - intros i. rewrite hits_single. rewrite Z.eqb_sym. destruct (i =? bucket_index v); u64_lia.
Qed.

Lemma add_as_merge h v xs : holds h xs → is_u64 v → Z.of_nat (length xs) < U64 → add_ns h v = merge h (add_ns new v).
Proof.
  intros H Hv Hl. unfold merge. change (count (add_ns new v) =? 0) with false. simpl. unfold add_ns.
  destruct (Z.eqb_spec (count h) 0) as [E|]; simpl.
  - rewrite (h_count _ _ H) in E. destruct xs; [|done]. destruct H as [C S N X O P T]. simpl in *.
    rewrite C, S.
    assert (buckets h = []) as ->; [|done]. apply buckets_ext; try done; try apply SSorted_nil; try apply Forall_nil_2.
  - f_equal. unfold sat_add. simpl. destruct Hv. u64_lia.
Qed.

Lemma add_holds h v xs : holds h xs → Forall is_u64 (xs ++ [v]) → Z.of_nat (length (xs ++ [v])) < U64 → holds (add_ns h v) (xs ++ [v]).
Proof.
  intros H Hu Hl. assert (Hv : is_u64 v) by (rewrite Forall_forall in Hu; apply Hu; set_solver).
  rewrite (add_as_merge _ _ xs); [|done|done|rewrite length_app in Hl; lia]. apply merge_holds; try done. by apply single_holds.
Qed.

Lemma durations_holds xs : recordable xs → holds (durations xs) xs.
Proof.
  unfold durations. induction xs as [|v xs IH] using rev_ind; intros [Hu Hl]; [apply new_holds|].
  rewrite foldl_snoc. apply add_holds; try done. apply IH. split; [by apply Forall_app in Hu as [? _]|rewrite length_app in Hl; lia].
Qed.

Lemma holds_perm h1 h2 xs ys : holds h1 xs → holds h2 ys → xs ≡ₚ ys → h1 = h2.
Proof.
  intros [C1 S1 N1 X1 O1 P1 T1] [C2 S2 N2 X2 O2 P2 T2] Hp.
  assert (Eb : buckets h1 = buckets h2).
  { apply buckets_ext; try done. intros i. by rewrite T1, T2, (hits_perm i _ _ Hp). }
  assert (min_ns h1 = min_ns h2 ∧ max_ns h1 = max_ns h2) as [En Ex].
  { destruct (decide (xs = [])) as [->|Hx].
    - apply Permutation_nil in Hp as ->. simpl in *. lia.
    - assert (ys ≠ []) by (intros ->; by apply Permutation_nil_r in Hp). rewrite decide_False in N2, X2 by done.
      split; [by apply (extreme_perm Z.le _ _ xs ys _ Hp)|by apply (extreme_perm Z.ge _ _ xs ys _ Hp)]. }
  destruct h1, h2. simpl in *. subst. by rewrite (sum_perm _ _ Hp), (Permutation_length Hp).
Qed.

(** ** Quantiles *)

(** How many of [xs] fall in the bucket [i] or in one before it. *)
Definition hits_upto (i : Z) (xs : list Z) : Z := Z.of_nat (length (filter (λ x, bucket_index x ≤ i) xs)).

Lemma hits_upto_mono i j xs : i ≤ j → hits_upto i xs ≤ hits_upto j xs.
Proof.
  intros Hij. unfold hits_upto. induction xs as [|x xs IH]; [done|]. rewrite !filter_cons.
  repeat case_decide; simpl; lia.
Qed.

Lemma hits_upto_bucket i j xs : j < i → (∀ x, x ∈ xs → bucket_index x ≤ i → bucket_index x ≤ j ∨ bucket_index x = i) →
  hits_upto i xs = hits_upto j xs + hits i xs.
Proof.
  intros Hj. unfold hits_upto, hits. induction xs as [|x xs IH]; intros Hx; [done|]. rewrite !filter_cons.
  specialize (IH ltac:(intros; apply Hx; [by right|done])). specialize (Hx x ltac:(by left)).
  repeat case_decide; simpl; try lia; destruct (Hx ltac:(lia)); lia.
Qed.

Lemma hits_upto_sorted i k s x : StronglySorted Z.le s → s !! k = Some x → Forall is_u64 s →
  (bucket_index x ≤ i → Z.of_nat k < hits_upto i s) ∧ (i < bucket_index x → hits_upto i s ≤ Z.of_nat k).
Proof.
  intros Hs Hk Hu. revert k Hk. unfold hits_upto. induction Hs as [|y s Hs IH Hy]; intros k Hk; [done|].
  apply Forall_cons in Hu as [Hyu Hu]. rewrite filter_cons. destruct k as [|k]; simpl in Hk.
  - injection Hk as ->. split; intros Hi; case_decide; simpl; try lia.
    destruct (filter (λ z, bucket_index z ≤ i) s) as [|z l] eqn:Ef; [done|]. exfalso.
    assert (Hz : z ∈ filter (λ z, bucket_index z ≤ i) s) by (rewrite Ef; by left). apply list_elem_of_filter in Hz as [? Hz].
    rewrite Forall_forall in Hy, Hu. pose proof (bucket_index_mono x z Hyu (Hu z Hz) (Hy z Hz)). lia.
  - destruct (IH Hu k Hk) as [H1 H2]. split; intros Hi.
    + assert (bucket_index y ≤ i).
      { apply list_elem_of_lookup_2 in Hk. rewrite Forall_forall in Hy, Hu.
        pose proof (bucket_index_mono y x Hyu (Hu x Hk) (Hy x Hk)). lia. }
      rewrite decide_True by done. simpl. specialize (H1 Hi). lia.
    + specialize (H2 Hi). case_decide; simpl; lia.
Qed.

Lemma clamp_between x lo hi : lo ≤ hi → lo ≤ clamp x lo hi ≤ hi.
Proof. intros. unfold clamp. destruct (Z.ltb_spec x lo); [lia|]. destruct (Z.ltb_spec hi x); lia. Qed.

Lemma clamp_near x lo hi v : lo ≤ v ≤ hi → Z.abs (clamp x lo hi - v) ≤ Z.abs (x - v).
Proof. intros. unfold clamp. destruct (Z.ltb_spec x lo); [lia|]. destruct (Z.ltb_spec hi x); lia. Qed.

Lemma hits_pos x xs : x ∈ xs → 0 < hits (bucket_index x) xs.
Proof.
  intros Hx. assert (H : x ∈ filter (λ y, bucket_index y = bucket_index x) xs) by (by apply list_elem_of_filter).
  unfold hits. destruct (filter _ xs); [by apply not_elem_of_nil in H|]. simpl. lia.
Qed.

(** What the walk knows of the buckets it has not seen: they are those after [i0], with their counts. *)
Definition rest_after (i0 : Z) (bs : list (Z * Z)) (xs : list Z) : Prop :=
  sorted_buckets bs ∧ Forall (Z.lt i0) bs.*1 ∧ positive_buckets bs ∧ ∀ i, i0 < i → at_bucket i bs = hits i xs.

Lemma rest_after_cons i0 i n bs xs : rest_after i0 ((i, n) :: bs) xs →
  i0 < i ∧ n = hits i xs ∧ rest_after i bs xs ∧ ∀ x, x ∈ xs → bucket_index x ≤ i → bucket_index x ≤ i0 ∨ bucket_index x = i.
Proof.
  intros (Hs & Ha & Hp & Hh). apply sorted_buckets_cons in Hs as [Hab Hs]. apply Forall_cons in Ha as [Hi Ha].
  apply Forall_cons in Hp as [Hn Hp]. simpl in Hi. split; [done|].
  split; [specialize (Hh i Hi); simpl in Hh; by rewrite Z.eqb_refl in Hh|]. split.
  - split; [done|]. split; [done|]. split; [done|]. intros j Hj. rewrite <- Hh by lia. simpl. by destruct (Z.eqb_spec i j); [lia|].
  - intros x Hx Hxi. destruct (decide (bucket_index x ≤ i0)); [by left|right].
    destruct (decide (bucket_index x = i)) as [|Hne]; [done|]. exfalso. pose proof (hits_pos x xs Hx) as Hpos.
    rewrite <- Hh in Hpos by lia. simpl in Hpos. destruct (Z.eqb_spec i (bucket_index x)); [lia|].
    rewrite at_bucket_above in Hpos; [lia|]. eapply Forall_impl; [exact Hab|]. simpl. lia.
Qed.

(** The walk stops in the bucket of the duration it looks for. *)
Lemma walk_finds h target seen bs i0 s v : StronglySorted Z.le s → Forall is_u64 s → Z.of_nat (length s) ≤ u32_max →
  1 ≤ target → s !! Z.to_nat (target - 1) = Some v → rest_after i0 bs s → seen = hits_upto i0 s → seen < target →
  quantile_walk h target seen bs =
    let '(lower, upper) := bucket_bounds (bucket_index v) in clamp (lower + (upper - lower) / 2) (min_ns h) (max_ns h).
Proof.
  intros Hs Hu Hl Ht Hv. pose proof (list_elem_of_lookup_2 _ _ _ Hv) as Hin.
  revert seen i0. induction bs as [|[i n] bs IH]; intros seen i0 Hr -> Hlt;
    destruct (hits_upto_sorted i0 _ _ _ Hs Hv Hu) as [H1 _].
  - exfalso. destruct Hr as (_ & _ & _ & Hh). destruct (decide (bucket_index v ≤ i0)) as [Hi|Hi]; [specialize (H1 Hi); lia|].
    pose proof (hits_pos v s Hin) as Hpos. rewrite <- Hh in Hpos by lia. simpl in Hpos. lia.
  - apply rest_after_cons in Hr as (Hi & En & Hr & Hx).
    assert (Eu : hits_upto i s = hits_upto i0 s + n) by (rewrite En; by apply hits_upto_bucket).
    assert (Hle : hits_upto i s ≤ Z.of_nat (length s)) by (unfold hits_upto; pose proof (length_filter (λ x, bucket_index x ≤ i) s); lia).
    assert (0 ≤ hits_upto i0 s) by (unfold hits_upto; lia). pose proof (hits_nonneg i s).
    simpl. rewrite u64_add_small, <- Eu by u64_lia. destruct (Z.leb_spec target (hits_upto i s)) as [Hc|Hc].
    + destruct (hits_upto_sorted i _ _ _ Hs Hv Hu) as [_ H2].
      assert (bucket_index v = i) as ->; [|done]. destruct (decide (i < bucket_index v)) as [Hd|]; [specialize (H2 Hd); lia|].
      destruct (Hx v Hin ltac:(lia)) as [Hd|]; [specialize (H1 Hd); lia|done].
    + by eapply IH.
Qed.

Lemma ge_below s m : extreme Z.ge m s → StronglySorted Z.le s → s !! (length s - 1)%nat = Some m.
Proof.
  intros [Hm Hx] Hs. induction Hs as [|x s Hs IH Hy]; [by apply not_elem_of_nil in Hm|].
  destruct s as [|y s]; [by apply list_elem_of_singleton in Hm as ->|].
  replace (length (x :: y :: s) - 1)%nat with (S (length (y :: s) - 1)) by (simpl; lia). simpl lookup at 1. apply IH.
  - apply elem_of_cons in Hm as [->|]; [|done]. rewrite Forall_forall in Hy. specialize (Hy y ltac:(by left)).
    specialize (Hx y ltac:(by right; left)). replace x with y by lia. by left.
  - intros z Hz. apply Hx. by right.
Qed.

Lemma holds_perm_list h xs ys : xs ≡ₚ ys → holds h xs → holds h ys.
Proof.
  intros Hp [C S N X O P T]. constructor; try done.
  - by rewrite C, Hp.
  - by rewrite S, (sum_perm _ _ Hp).
  - destruct (decide (ys = [])) as [->|Hy]; [by apply Permutation_nil_r in Hp as ->|].
    rewrite decide_False in N by (intros ->; by apply Permutation_nil in Hp). destruct N as [N1 N2]. split; [by rewrite <- Hp|]. intros x. rewrite <- Hp. apply N2.
  - destruct (decide (ys = [])) as [->|Hy]; [by apply Permutation_nil_r in Hp as ->|].
    rewrite decide_False in X by (intros ->; by apply Permutation_nil in Hp). destruct X as [X1 X2]. split; [by rewrite <- Hp|]. intros x. rewrite <- Hp. apply X2.
  - intros i. by rewrite T, (hits_perm i _ _ Hp).
Qed.

Lemma hits_le i xs : hits i xs ≤ Z.of_nat (length xs).
Proof. unfold hits. pose proof (length_filter (λ x, bucket_index x = i) xs). lia. Qed.

Lemma rest_after_all h s : holds h s → Z.of_nat (length s) ≤ u32_max → Forall is_u64 s → rest_after (-1) (buckets h) s.
Proof.
  intros Hh Hl Hu. assert (Hz : ∀ i, at_bucket i (buckets h) = hits i s).
  { intros i. rewrite (h_hits _ _ Hh). pose proof (hits_le i s). pose proof (hits_nonneg i s). lia. }
  split; [apply Hh|]. split; [|split; [apply Hh|auto]].
  rewrite Forall_forall. intros i [[j n] [-> Hj]]%list_elem_of_fmap. simpl.
  destruct (decide (-1 < j)) as [|Hneg]; [done|]. exfalso.
  assert (Hp : 0 < at_bucket j (buckets h)).
  { pose proof (h_positive _ _ Hh) as Hp. pose proof (h_sorted _ _ Hh) as Hs. clear Hz. induction (buckets h) as [|[k m] bs IH]; [by apply not_elem_of_nil in Hj|].
    apply Forall_cons in Hp as [Hm Hp]. apply sorted_buckets_cons in Hs as [_ Hs]. simpl in *.
    destruct (Z.eqb_spec k j) as [->|]; [lia|]. apply elem_of_cons in Hj as [[= -> ->]|]; [done|auto]. }
  rewrite Hz in Hp. unfold hits in Hp. destruct (filter (λ x, bucket_index x = j) s) as [|x l] eqn:Ef; [done|].
  assert (Hx : x ∈ filter (λ x, bucket_index x = j) s) by (rewrite Ef; by left). apply list_elem_of_filter in Hx as [<- Hx].
  rewrite Forall_forall in Hu. pose proof (bucket_produced x (Hu x Hx)) as [|]; lia.
Qed.

Lemma quantile_target_pos q n : 1 ≤ quantile_target q n.
Proof. unfold quantile_target. lia. Qed.

Lemma insert_by_key_sorted i n bs : Forall (Z.lt i) bs.*1 → insert_by_key (i, n) bs = (i, n) :: bs.
Proof. destruct bs as [|[j m] bs]; [done|]. rewrite fmap_cons, Forall_cons. simpl. intros [? _]. by destruct (Z.leb_spec i j); [|lia]. Qed.

Lemma insert_by_key_perm b bs : insert_by_key b bs ≡ₚ b :: bs.
Proof. induction bs as [|c bs IH]; simpl; [done|]. destruct (b.1 <=? c.1); [done|]. rewrite IH. by rewrite Permutation_swap. Qed.

Lemma insert_by_key_keeps i n bs : i ∉ bs.*1 → sorted_buckets bs → sorted_buckets (insert_by_key (i, n) bs).
Proof.
  induction bs as [|[j m] bs IH]; [by repeat constructor|]. rewrite fmap_cons, not_elem_of_cons, sorted_buckets_cons. simpl.
  intros [Hn Hi] [Ha Hs]. destruct (Z.leb_spec i j).
  - apply sorted_buckets_cons. split; [|by apply sorted_buckets_cons]. constructor; [simpl; lia|]. eapply Forall_impl; [exact Ha|]. simpl. lia.
  - apply sorted_buckets_cons. split; [|auto]. rewrite insert_by_key_perm. constructor; [simpl; lia|done].
Qed.

Lemma sort_by_key_perm bs : foldr insert_by_key [] bs ≡ₚ bs.
Proof. induction bs as [|b bs IH]; simpl; [done|]. by rewrite insert_by_key_perm, IH. Qed.

Lemma sort_by_key_sorted bs : NoDup bs.*1 → sorted_buckets (foldr insert_by_key [] bs).
Proof.
  induction bs as [|[i n] bs IH]; simpl; [intros; apply SSorted_nil|]. rewrite NoDup_cons. intros [Hi Hd].
  apply insert_by_key_keeps; [by rewrite sort_by_key_perm|auto].
Qed.

Lemma sorted_buckets_NoDup bs : sorted_buckets bs → NoDup bs.*1.
Proof.
  induction bs as [|[j m] bs IH]; [constructor|]. rewrite sorted_buckets_cons, fmap_cons. intros [Ha Hs]. constructor; [|auto].
  rewrite Forall_forall in Ha. intros Hj. specialize (Ha _ Hj). simpl in Ha. lia.
Qed.

Lemma sorted_buckets_unique bs1 bs2 : sorted_buckets bs1 → sorted_buckets bs2 → bs1 ≡ₚ bs2 → bs1 = bs2.
Proof.
  revert bs2. induction bs1 as [|[j m] bs1 IH]; intros [|[k n] bs2] H1 H2 Hp; [done|by apply Permutation_nil in Hp|by apply Permutation_nil_r in Hp|].
  apply sorted_buckets_cons in H1 as [Ha1 H1], H2 as [Ha2 H2]. rewrite Forall_forall in Ha1, Ha2.
  assert ((j, m) = (k, n)) as [= -> ->].
  { assert (Hj : (j, m) ∈ (k, n) :: bs2) by (rewrite <- Hp; by left). assert (Hk : (k, n) ∈ (j, m) :: bs1) by (rewrite Hp; by left).
    apply elem_of_cons in Hj as [|Hj]; [done|]. apply elem_of_cons in Hk as [|Hk]; [done|].
    specialize (Ha2 j (list_elem_of_fmap_2' _ _ _ _ Hj eq_refl)). specialize (Ha1 k (list_elem_of_fmap_2' _ _ _ _ Hk eq_refl)). lia. }
  f_equal. apply IH; try done. by apply Permutation_cons_inv in Hp.
Qed.

(** ** What makes it correct *)

(** An index beyond the last bucket: its shift wraps at 64, and its bounds are not both zero. *)
Lemma bucket_bounds_beyond j : 512 ≤ j → bucket_bounds j ≠ (0, 0).
Proof.
  intros Hj. unfold bucket_bounds. change SUB_BUCKETS with 8. change SUB_BUCKET_BITS with 3.
  destruct (Z.ltb_spec j 8); [lia|]. destruct (Z.ltb_spec (j / 8) 3); [Z.div_mod_to_equations; lia|].
  set (s := j / 8 - 3). assert (Hsub : 0 ≤ j mod 8 < 8) by (apply Z.mod_pos_bound; lia). intros [= Hl Hu]. rewrite Hl in Hu.
  assert (Hp : s mod 64 = 0).
  { pose proof (Z.mod_pos_bound s 64 ltac:(lia)) as Hs. unfold u64_shl, u64_add in Hu. rewrite Z.shiftl_mul_pow2, Z.mul_1_l in Hu by lia.
    assert (H1 : 2 ^ 1 ≤ 2 ^ (s mod 64) ∨ s mod 64 = 0) by (destruct (decide (s mod 64 = 0)); [by right|left; apply Z.pow_le_mono_r; lia]).
    assert (H64 : 2 ^ (s mod 64) ≤ 2 ^ 63) by (apply Z.pow_le_mono_r; lia).
    destruct H1 as [H1|]; [|done]. generalize dependent (2 ^ (s mod 64)). intros q Hu H1 H64. change (2 ^ 63) with 9223372036854775808 in H64.
    change (2 ^ 1) with 2 in H1. unfold U64 in Hu. change (2 ^ 64) with 18446744073709551616 in Hu. rewrite (Z.mod_small q), Z.mod_small in Hu by lia. lia. }
  unfold u64_shl in Hl. rewrite Hp, Z.shiftl_0_r, Z.mod_small in Hl; unfold U64; lia.
Qed.

(** C28: The bucket of a duration has it within its bounds, is at most an eighth of its lower bound wide, and its midpoint is within a sixteenth of the duration;
    the durations within the bounds are exactly those of that bucket; consecutive buckets leave no gap; the last ends at the greatest [u64].  The indexes 8 to 23
    are never produced and have the bounds (0, 0), but the indexes from 512 on, which are never produced either, do not. *)
Theorem histogram_buckets ns : is_u64 ns →
  let i := bucket_index ns in let '(lower, upper) := bucket_bounds i in
  produced i ∧ lower ≤ ns ≤ upper ∧ 8 * (upper - lower) ≤ lower ∧ 16 * Z.abs (lower + (upper - lower) / 2 - ns) ≤ ns ∧
  (∀ v, is_u64 v → lower ≤ v ≤ upper ↔ bucket_index v = i) ∧
  (if i =? 511 then upper = u64_max else (bucket_bounds (if i =? 7 then 24 else i + 1)).1 = upper + 1) ∧
  (∀ j, 8 ≤ j < 24 → bucket_bounds j = (0, 0)) ∧ (∀ j, 512 ≤ j → bucket_bounds j ≠ (0, 0)).
Proof.
  intros Hu i. pose proof (midpoint_near ns Hu) as Hm. pose proof (λ v, in_bucket_iff i v (bucket_produced ns Hu)) as Hb.
  assert (Hnext : if i =? 511 then (bucket_bounds i).2 = u64_max else (bucket_bounds (if i =? 7 then 24 else i + 1)).1 = (bucket_bounds i).2 + 1).
  { pose proof (bucket_produced ns Hu : produced i) as [Hi|Hi].
    - destruct (Z.eqb_spec i 511); [lia|]. rewrite (proj2 (bucket_index_low i Hi)). simpl. destruct (Z.eqb_spec i 7) as [->|]; [done|].
      by rewrite (proj2 (bucket_index_low (i + 1) ltac:(lia))).
    - destruct (produced_high i Hi) as (s & sub & Hs & Hsub & Ei). rewrite Ei. rewrite bucket_bounds_high by done.
      destruct (Z.eqb_spec ((s + 3) * 8 + sub) 511) as [E|]; [assert (s = 60 ∧ sub = 7) as [-> ->] by lia; done|].
      destruct (Z.eqb_spec ((s + 3) * 8 + sub) 7); [lia|]. destruct (decide (sub = 7)) as [->|].
      + replace ((s + 3) * 8 + 7 + 1) with ((s + 1 + 3) * 8 + 0) by lia. rewrite bucket_bounds_high by lia.
        rewrite Z.pow_add_r by lia. simpl. lia.
      + replace ((s + 3) * 8 + sub + 1) with ((s + 3) * 8 + (sub + 1)) by lia. rewrite bucket_bounds_high by lia. simpl. lia. }
  unfold in_bucket in Hb. fold i in Hm. destruct (bucket_bounds i) as [lower upper]. simpl in *.
  split; [by apply bucket_produced|]. destruct Hm as (? & ? & ? & ?). do 3 (split; [done|]). split; [exact Hb|].
  split; [done|]. split; [|exact bucket_bounds_beyond]. intros j Hj. unfold bucket_bounds. change SUB_BUCKETS with 8. change SUB_BUCKET_BITS with 3.
  destruct (Z.ltb_spec j 8); [lia|]. by destruct (Z.ltb_spec (j / 8) 3); [|Z.div_mod_to_equations; lia].
Qed.

Lemma histogram_buckets_witness : is_u64 1000000 ∧ bucket_index 1000000 = 159 ∧ bucket_bounds 159 = (983040, 1048575) ∧
  (∀ v, is_u64 v → 983040 ≤ v ≤ 1048575 ↔ bucket_index v = 159).
Proof.
  assert (H : is_u64 1000000) by (split; [lia|done]). pose proof (histogram_buckets 1000000 H) as (_ & _ & _ & _ & Hb & _).
  split; [done|]. split; [done|]. split; [done|]. exact Hb.
Defined.

(** C23: Recording durations one by one gives the histogram that holds them ([holds]: their number, their sum (saturated), their least and greatest, and
    for each bucket how many fall in it, in order of index); merging two histograms gives the histogram of all their durations, so histograms merge in any
    order and any grouping; and a histogram read back from its parts, with its buckets in any order, is the one written. *)
Theorem histogram_merge xs ys : recordable (xs ++ ys) →
  holds (durations (xs ++ ys)) (xs ++ ys) ∧ merge (durations xs) (durations ys) = durations (xs ++ ys) ∧
  (∀ zs, zs ≡ₚ xs ++ ys → durations zs = durations (xs ++ ys)) ∧
  ∀ bs, let h := durations (xs ++ ys) in bs ≡ₚ buckets h → from_parts (count h) (sum_ns h) (min_ns h) (max_ns h) bs = h.
Proof.
  intros Hr. pose proof Hr as [Hu Hl]. pose proof (durations_holds _ Hr) as H. split; [done|].
  assert (holds (durations xs) xs ∧ holds (durations ys) ys) as [Hx Hy].
  { apply Forall_app in Hu as [? ?]. rewrite length_app in Hl. split; apply durations_holds; split; (done || lia). }
  split; [by eapply holds_perm; [apply merge_holds|exact H|]|]. split.
  - intros zs Hp. eapply holds_perm; [|exact H|exact Hp]. apply durations_holds. by split; rewrite Hp.
  - intros bs h Hp. unfold from_parts. replace (foldr insert_by_key [] bs) with (buckets h); [by destruct h|].
    pose proof (h_sorted _ _ H) as Hs. apply sorted_buckets_unique; [done| |by rewrite sort_by_key_perm].
    apply sort_by_key_sorted. rewrite Hp. by apply sorted_buckets_NoDup.
Qed.

Lemma histogram_merge_witness : recordable ([5; 100] ++ [3]) ∧
  merge (durations [5; 100]) (durations [3]) = mk_histogram 3 108 3 100 [(3, 1); (5, 1); (52, 1)] ∧
  durations [3; 5; 100] = durations [5; 100; 3].
Proof.
  assert (H : recordable ([5; 100] ++ [3])) by (split; [repeat constructor; done|done]).
  destruct (histogram_merge [5; 100] [3] H) as (_ & E & Hp & _). split; [done|]. split; [by rewrite E|].
  apply Hp. apply (Permutation_app_comm [3] [5; 100]).
Defined.

(** C24: A quantile is near the duration of its rank: the estimate for the rank [t] is within a sixteenth of the [t]-th smallest duration recorded, lies
    between the least and the greatest, and is exactly the greatest when the rank is the count. *)
Theorem histogram_quantile xs q : recordable xs → xs ≠ [] → Z.of_nat (length xs) ≤ u32_max →
  let t := Z.min (quantile_target q (Z.of_nat (length xs))) (Z.of_nat (length xs)) in
  ∃ v r, merge_sort Z.le xs !! Z.to_nat (t - 1) = Some v ∧ quantile (durations xs) q = Some r ∧
    16 * Z.abs (r - v) ≤ v ∧ (t = Z.of_nat (length xs) → r = v) ∧ ∀ x, extreme Z.le x xs → x ≤ r ∧ ∀ y, extreme Z.ge y xs → r ≤ y.
Proof.
  intros Hr Hne Hl t. pose proof Hr as [Hu _]. pose proof (merge_sort_Permutation Z.le xs) as Hp.
  assert (Hs : StronglySorted Z.le (merge_sort Z.le xs)) by (apply StronglySorted_merge_sort; intros x y; try intros z; lia).
  set (s := merge_sort Z.le xs) in *. pose proof (durations_holds _ Hr) as Hh. pose proof (holds_perm_list _ _ s (symmetry Hp) Hh) as Hhs.
  assert (Hsu : Forall is_u64 s) by (by rewrite Hp).
  assert (Hls : length s = length xs) by (by rewrite Hp). assert (0 < Z.of_nat (length xs)) by (destruct xs; [done|simpl; lia]).
  pose proof (quantile_target_pos q (Z.of_nat (length xs))) as Hq.
  destruct (lookup_lt_is_Some_2 s (Z.to_nat (t - 1))) as [v Hv]; [lia|].
  pose proof (h_min _ _ Hh) as Hn. pose proof (h_max _ _ Hh) as Hx. rewrite decide_False in Hn, Hx by done.
  assert (Hvx : v ∈ xs) by (rewrite <- Hp; by eapply list_elem_of_lookup_2).
  assert (Hnv : min_ns (durations xs) ≤ v ≤ max_ns (durations xs)) by (split; [by apply Hn|apply Z.ge_le; by apply Hx]).
  assert (Hext : ∀ r, min_ns (durations xs) ≤ r ≤ max_ns (durations xs) → ∀ x, extreme Z.le x xs → x ≤ r ∧ ∀ y, extreme Z.ge y xs → r ≤ y).
  { intros r Hr' x [_ Hxl]. pose proof (Hxl _ (proj1 Hn)). split; [lia|]. intros y [_ Hyl]. pose proof (Hyl _ (proj1 Hx)). lia. }
  exists v. unfold quantile. rewrite (h_count _ _ Hh). destruct (Z.eqb_spec (Z.of_nat (length xs)) 0); [lia|].
  destruct (Z.leb_spec (Z.of_nat (length xs)) (quantile_target q (Z.of_nat (length xs)))) as [Ht|Ht].
  - exists (max_ns (durations xs)). assert (E : v = max_ns (durations xs)).
    { pose proof (ge_below s (max_ns (durations xs))) as Hg. replace (length s - 1)%nat with (Z.to_nat (t - 1)) in Hg by lia.
      rewrite Hv in Hg. assert (Some v = Some (max_ns (durations xs))) as [=]; [|done]. apply Hg; [|done].
      destruct Hx as [Hx1 Hx2]. split; [by rewrite Hp|]. intros x. rewrite Hp. apply Hx2. }
    split; [done|]. split; [done|]. split; [|split; [done|by apply Hext; lia]].
    rewrite <- E, Z.sub_diag. simpl. rewrite Forall_forall in Hu. by destruct (Hu v Hvx).
  - eexists. split; [done|]. split; [done|]. replace t with (quantile_target q (Z.of_nat (length xs))) in * by lia.
    assert (Hz : hits_upto (-1) s = 0).
    { unfold hits_upto. destruct (filter (λ x, bucket_index x ≤ -1) s) as [|x l] eqn:Ef; [done|]. exfalso.
      assert (Hxf : x ∈ filter (λ x, bucket_index x ≤ -1) s) by (rewrite Ef; by left). apply list_elem_of_filter in Hxf as [Hb Hxs].
      rewrite Forall_forall in Hsu. pose proof (bucket_produced x (Hsu x Hxs)) as [|]; lia. }
    rewrite (walk_finds _ _ _ _ (-1) s v); rewrite ?Hls, ?Hz; try done; [|by apply rest_after_all; rewrite ?Hls|lia].
    pose proof (midpoint_near v) as Hm. rewrite Forall_forall in Hu. specialize (Hm (Hu v Hvx)).
    destruct (bucket_bounds (bucket_index v)) as [lower upper]. destruct Hm as (_ & _ & _ & Hm).
    pose proof (clamp_near (lower + (upper - lower) / 2) _ _ v Hnv). split; [lia|]. split; [lia|].
    apply Hext. apply clamp_between. lia.
Qed.

Lemma histogram_quantile_witness : recordable [10; 1000000; 3; 40] ∧
  ∃ v r, merge_sort Z.le [10; 1000000; 3; 40] !! 1%nat = Some v ∧ quantile (durations [10; 1000000; 3; 40]) (f64_of_u64 0) = Some 3 ∧
    quantile (durations [10; 1000000; 3; 40]) (S754_finite false 4503599627370496 (-53)) = Some r ∧ 16 * Z.abs (r - v) ≤ v ∧ v = 10 ∧ r = 10.
Proof.
  assert (H : recordable [10; 1000000; 3; 40]) by (split; [repeat constructor; done|done]).
  destruct (histogram_quantile [10; 1000000; 3; 40] (S754_finite false 4503599627370496 (-53)) H) as (v & r & Hv & Hr & Hn & _); [done|done|].
  split; [done|]. exists v, r. split; [exact Hv|]. split; [by vm_compute|]. split; [exact Hr|]. split; [exact Hn|].
  split; [by vm_compute in Hv; injection Hv as <-|by vm_compute in Hr; injection Hr as <-].
Defined.
