(* ===== verification/Tags.v ===== *)
(** * Tags and the keys of series (stats/src/tag.rs, the keys of stats/src/stats.rs, the contexts of recorder.rs)

    A series is named by a metric name and tags.  [normalize] gives the tags of a key one order and one value per name; a batch
    carries the tags common to all series once, and [strip_common] takes them off each series. *)

From stdpp Require Import strings sorting.
From S2P Require Import Prelude.

Record Tag := mk_tag { tag_name : string; tag_value : string }.

#[export] Instance Tag_eq_dec : EqDecision Tag.
Proof. solve_decision. Defined.

(** [sort_by], which is stable: an element goes before the first whose name is not below its own. *)
Fixpoint insert_by_name (t : Tag) (ts : list Tag) : list Tag :=
  match ts with
  | [] => [t]
  | c :: ts' => if decide (String.le (tag_name t) (tag_name c)) then t :: ts else c :: insert_by_name t ts'
  end.

Definition sort_by_name (ts : list Tag) : list Tag := foldr insert_by_name [] ts.

(** [dedup_by] with the closure of [normalize]: [prev] is the element retained last; one with the same name takes its place. *)
Fixpoint dedup_from (prev : Tag) (ts : list Tag) : list Tag :=
  match ts with
  | [] => [prev]
  | c :: ts' => if decide (tag_name c = tag_name prev) then dedup_from c ts' else prev :: dedup_from c ts'
  end.

Definition normalize (ts : list Tag) : list Tag :=
  match sort_by_name ts with [] => [] | t :: ts' => dedup_from t ts' end.

(** [Context::with]: the tags of the context, then those of the observation. *)
Definition context_with (ctx ts : list Tag) : list Tag := ctx ++ ts.

Record SeriesKey := mk_key { key_name : string; key_tags : list Tag }.

#[export] Instance SeriesKey_eq_dec : EqDecision SeriesKey.
Proof. solve_decision. Defined.

#[export] Instance Tag_countable : Countable Tag.
Proof. refine (inj_countable' (λ t, (tag_name t, tag_value t)) (λ p, mk_tag p.1 p.2) _). by intros []. Defined.

#[export] Instance SeriesKey_countable : Countable SeriesKey.
Proof. refine (inj_countable' (λ k, (key_name k, key_tags k)) (λ p, mk_key p.1 p.2) _). by intros []. Defined.

(** [Inner::key]. *)
Definition series_key (common : list Tag) (name : string) (ts : list Tag) : SeriesKey :=
  mk_key name (if decide (common = []) then normalize ts else normalize (common ++ ts)).

Definition strip_common (ts common : list Tag) : list Tag := filter (λ t, t ∉ common) ts.

(** ** The reference: the last value of each name *)
Fixpoint last_value (n : string) (ts : list Tag) : option string :=
  match ts with
  | [] => None
  | t :: ts' =>
      match last_value n ts' with
      | Some v => Some v
      | None => if decide (tag_name t = n) then Some (tag_value t) else None
      end
  end.

Definition name_lt (t u : Tag) : Prop := String.le (tag_name t) (tag_name u) ∧ tag_name t ≠ tag_name u.
Definition name_le (t u : Tag) : Prop := String.le (tag_name t) (tag_name u).

#[local] Instance name_le_trans : Transitive name_le.
Proof. intros t u v. apply (transitivity (R := String.le)). Qed.

#[local] Instance name_lt_trans : Transitive name_lt.
Proof.
  intros t u v [H1 N1] [H2 N2]. split; [by etrans|]. intros E. apply N1. apply (anti_symm String.le); [done|]. by rewrite E.
Qed.

Lemma last_value_app n ts us :
  last_value n (ts ++ us) = match last_value n us with Some v => Some v | None => last_value n ts end.
Proof. induction ts as [|t ts IH]; simpl; [by destruct (last_value n us)|]. rewrite IH. by destruct (last_value n us). Qed.

Lemma last_value_insert n t ts : last_value n (insert_by_name t ts) = last_value n (t :: ts).
Proof.
  induction ts as [|c ts IH]; [done|]. simpl insert_by_name. case_decide as Hle; [done|].
  simpl last_value in *. rewrite IH. destruct (last_value n ts); [done|]. case_decide as Et; [|by case_decide].
  case_decide as Ec; [|done]. exfalso. apply Hle. by rewrite Et, Ec.
Qed.

Lemma last_value_sort n ts : last_value n (sort_by_name ts) = last_value n ts.
Proof. induction ts as [|t ts IH]; [done|]. simpl sort_by_name. rewrite last_value_insert. simpl. by rewrite IH. Qed.

Lemma last_value_dedup n t ts : last_value n (dedup_from t ts) = last_value n (t :: ts).
Proof.
  revert t. induction ts as [|c ts IH]; intros t; [done|]. simpl dedup_from. case_decide as E.
  - rewrite IH. simpl. destruct (last_value n ts); [done|]. rewrite E. by case_decide.
  - simpl last_value at 1. rewrite IH. done.
Qed.

Lemma last_value_normalize n ts : last_value n (normalize ts) = last_value n ts.
Proof.
  unfold normalize. rewrite <- (last_value_sort n ts). destruct (sort_by_name ts); [done|]. apply last_value_dedup.
Qed.

Lemma insert_by_name_perm t ts : insert_by_name t ts ≡ₚ t :: ts.
Proof. induction ts as [|c ts IH]; simpl; [done|]. case_decide; [done|]. rewrite IH. by rewrite Permutation_swap. Qed.

Lemma insert_by_name_sorted t ts : StronglySorted name_le ts → StronglySorted name_le (insert_by_name t ts).
Proof.
  induction 1 as [|c ts Hs IH Hc]; simpl; [by repeat constructor|]. case_decide as Hle.
  - constructor; [by constructor|]. constructor; [done|]. eapply Forall_impl; [exact Hc|]. intros u Hu. unfold name_le in *. by etrans.
  - constructor; [done|]. rewrite insert_by_name_perm. constructor; [|done]. unfold name_le. by destruct (total String.le (tag_name t) (tag_name c)).
Qed.

Lemma sort_by_name_sorted ts : StronglySorted name_le (sort_by_name ts).
Proof. induction ts as [|t ts IH]; simpl; [constructor|]. by apply insert_by_name_sorted. Qed.

Lemma dedup_from_sorted t ts : StronglySorted name_le (t :: ts) →
  StronglySorted name_lt (dedup_from t ts) ∧ ∀ s, (s = t ∨ name_lt s t) → s ≠ t → Forall (name_lt s) (dedup_from t ts).
Proof.
  revert t. induction ts as [|c ts IH]; intros t Hs.
  { split; [by repeat constructor|]. intros s [->|] Hne; [done|]. by apply Forall_singleton. }
  apply StronglySorted_cons in Hs as [Ht Hs]. apply Forall_cons in Ht as [Htc Ht]. destruct (IH c Hs) as [H1 H2]. simpl. case_decide as E.
  - split; [done|]. intros s [->|[Hs1 Hs2]] Hne; [done|]. assert (Hsc : name_lt s c) by (split; rewrite E; done).
    apply H2; [by right|]. intros ->. by destruct Hsc.
  - assert (Htc' : name_lt t c) by (split; [done|congruence]).
    assert (Hd : ∀ s, name_lt s c → Forall (name_lt s) (dedup_from c ts)) by (intros s Hsc; apply H2; [by right|intros ->; by destruct Hsc]).
    split; [constructor; auto|]. intros s [->|Hst] Hne; [done|]. constructor; [done|]. apply Hd. by etrans.
Qed.

Lemma normalize_sorted ts : StronglySorted name_lt (normalize ts).
Proof.
  unfold normalize. pose proof (sort_by_name_sorted ts) as Hs. destruct (sort_by_name ts); [constructor|]. by apply dedup_from_sorted.
Qed.

Lemma tag_eta t : t = mk_tag (tag_name t) (tag_value t).
Proof. by destruct t. Qed.

(** A strictly sorted list has one tag for each name. *)
Lemma sorted_last_value n v ts : StronglySorted name_lt ts → last_value n ts = Some v ↔ mk_tag n v ∈ ts.
Proof.
  induction 1 as [|t ts Hs IH Ht]; [by split; [|intros ?%not_elem_of_nil]|]. simpl. rewrite elem_of_cons, <- IH.
  rewrite Forall_forall in Ht. destruct (last_value n ts) as [w|] eqn:E.
  - split; [by right|]. intros [<-|]; [|done]. exfalso. assert (Hw : mk_tag n w ∈ ts).
    { clear -E. induction ts as [|u ts IH]; [done|]. simpl in E. destruct (last_value n ts); [right; apply IH; congruence|].
      case_decide as En; [|done]. injection E as <-. subst n. rewrite <- tag_eta. by left. }
    by destruct (Ht _ Hw).
  - case_decide as En; [|split; [done|by intros [<-|]]]. split; [intros [= <-]; left; by destruct t; simpl in *; subst|by intros [<-|]].
Qed.

Lemma name_lt_NoDup ts : StronglySorted name_lt ts → NoDup ts.
Proof.
  induction 1 as [|t ts Hs IH Ht]; [constructor|]. constructor; [|done]. rewrite Forall_forall in Ht. intros Hin. by destruct (Ht t Hin).
Qed.

#[local] Instance name_lt_antisymm : AntiSymm (=) name_lt.
Proof. intros t u [H1 N1] [H2 _]. exfalso. apply N1. by apply (anti_symm String.le). Qed.

Lemma sorted_tags_ext ts us : StronglySorted name_lt ts → StronglySorted name_lt us →
  (∀ n, last_value n ts = last_value n us) → ts = us.
Proof.
  intros Ht Hu He. apply (StronglySorted_unique name_lt); [done|done|]. apply NoDup_Permutation; [by apply name_lt_NoDup..|].
  intros t. rewrite (tag_eta t), <- !sorted_last_value, He by done. done.
Qed.

Lemma normalize_ext ts us : (∀ n, last_value n ts = last_value n us) → normalize ts = normalize us.
Proof. intros He. apply sorted_tags_ext; [apply normalize_sorted..|]. intros n. by rewrite !last_value_normalize. Qed.

Lemma normalize_fixed ts : StronglySorted name_lt ts → normalize ts = ts.
Proof. intros Hs. apply sorted_tags_ext; [apply normalize_sorted|done|]. intros n; apply last_value_normalize. Qed.

Lemma series_key_tags common name ts : key_tags (series_key common name ts) = normalize (common ++ ts).
Proof. unfold series_key. simpl. case_decide as E; [by rewrite E|done]. Qed.

Lemma strip_common_sorted ts common : StronglySorted name_lt ts → StronglySorted name_lt (strip_common ts common).
Proof.
  induction 1 as [|t ts Hs IH Ht]; [constructor|]. unfold strip_common. rewrite filter_cons. case_decide; [|done].
  constructor; [done|]. rewrite Forall_forall in Ht |- *. intros u [_ Hu]%list_elem_of_filter. auto.
Qed.

Lemma last_value_NoDup n v ts : NoDup (tag_name <$> ts) → mk_tag n v ∈ ts → last_value n ts = Some v.
Proof.
  induction ts as [|t ts IH]; [by intros _ ?%not_elem_of_nil|]. rewrite fmap_cons, NoDup_cons, elem_of_cons. intros [Hn Hd] [<-|Hin]; simpl.
  - destruct (last_value n ts) as [w|] eqn:E; [|by rewrite decide_True]. exfalso. apply Hn. simpl.
    clear -E. induction ts as [|u ts IH]; [done|]. simpl in E. rewrite fmap_cons, elem_of_cons. destruct (last_value n ts); [right; auto|].
    case_decide as En; [|done]. by left.
  - by rewrite IH.
Qed.

Lemma rejoin_tags common ts : NoDup (tag_name <$> common) →
  normalize (common ++ strip_common (normalize (common ++ ts)) common) = normalize (common ++ ts).
Proof.
  intros Hd. pose proof (normalize_sorted (common ++ ts)) as Hs. set (K := normalize (common ++ ts)) in *.
  transitivity (normalize K); [|by apply normalize_fixed]. apply normalize_ext. intros n. rewrite last_value_app.
  pose proof (λ v, sorted_last_value n v _ (strip_common_sorted _ common Hs)) as Hst. pose proof (λ v, sorted_last_value n v _ Hs) as HK.
  assert (Hin : ∀ v, mk_tag n v ∈ strip_common K common ↔ mk_tag n v ∉ common ∧ mk_tag n v ∈ K) by (intros v; unfold strip_common; by rewrite list_elem_of_filter).
  destruct (last_value n (strip_common K common)) as [v|] eqn:E.
  - symmetry. apply HK, Hin, Hst. done.
  - destruct (last_value n K) as [w|] eqn:EK.
    + apply last_value_NoDup; [done|]. pose proof (proj1 (HK w) eq_refl) as HinK. destruct (decide (mk_tag n w ∈ common)); [done|].
      assert (Hw : mk_tag n w ∈ strip_common K common) by (by apply Hin). apply Hst in Hw. congruence.
    + unfold K in EK. rewrite last_value_normalize, last_value_app in EK. by destruct (last_value n ts).
Qed.

(** ** What makes it correct *)

(** The tags of a series key are in strict order of name, one for each name, each with the last value given: an observation's over its context's over the
    common ones.  Two recordings name the same series exactly when they have the same metric name and the same last value for every tag name. *)
Theorem series_key_spec common ctx name ts name' us :
  let k := series_key common name (context_with ctx ts) in let k' := series_key common name' us in
  StronglySorted name_lt (key_tags k) ∧
  (∀ n v, mk_tag n v ∈ key_tags k ↔
    match last_value n ts with Some w => Some w | None => match last_value n ctx with Some w => Some w | None => last_value n common end end = Some v) ∧
  (k = k' ↔ name = name' ∧ ∀ n, last_value n (common ++ ctx ++ ts) = last_value n (common ++ us)).
Proof.
  intros k k'. assert (Ek : key_tags k = normalize (common ++ ctx ++ ts)) by apply series_key_tags.
  assert (Ek' : key_tags k' = normalize (common ++ us)) by apply series_key_tags. rewrite Ek.
  split; [apply normalize_sorted|]. split.
  - intros n v. rewrite <- sorted_last_value by apply normalize_sorted. rewrite last_value_normalize, !last_value_app.
    by destruct (last_value n ts).
  - split.
    + intros E. split; [by apply (f_equal key_name) in E|]. intros n. rewrite <- (last_value_normalize n (common ++ us)), <- Ek', <- E, Ek.
      by rewrite last_value_normalize.
    + intros [-> He]. rewrite (normalize_ext _ (common ++ us) He), <- Ek' in Ek. destruct k as [m l] eqn:E, k' as [m' l'] eqn:E'.
      simpl in Ek. subst l'. apply (f_equal key_name) in E, E'. simpl in E, E'. congruence.
Qed.

(** C29: Nothing of a series' name is lost in a batch: the batch's common tags and the series' own tags rejoin to the tags of its key, so two series of
    a batch never look the same, when the common tags have one value per name.  When they repeat a name, two series can look the same. *)
Theorem series_tags_roundtrip :
  (∀ common name ts, NoDup (tag_name <$> common) →
    let K := key_tags (series_key common name ts) in normalize (common ++ strip_common K common) = K) ∧
  ∃ common ts us, let K := key_tags (series_key common "m" ts) in let L := key_tags (series_key common "m" us) in
    K ≠ L ∧ strip_common K common = strip_common L common.
Proof.
  split.
  - intros common name ts Hd K. unfold K. rewrite series_key_tags. by apply rejoin_tags.
  - exists [mk_tag "env" "a"; mk_tag "env" "b"], [], [mk_tag "env" "a"]. by vm_compute.
Qed.
