(* ===== verification/Samples.v ===== *)
(** * Samples, aggregates and exact samples (stats/src/value.rs, recorder.rs, metric.rs, the aggregates of stats.rs)

    A recording carries a sample; a series keeps one aggregate per window: counters are summed, gauges and states keep the last value, timers become
    histograms.  A series with a resolution also keeps its latest samples as they are, in a bounded buffer. *)

From stdpp Require Import strings.
From S2P Require Import Prelude Histogram.

(** ** Values *)
Inductive Kind := K_Counter | K_Gauge | K_Timer | K_State.

Inductive Encoding := E_Int | E_Count | E_Percent | E_Normalized | E_Ratio32 | E_State | E_Histogram.

Inductive IntValue :=
  | I8 (v : Z) | U8 (v : Z) | I16 (v : Z) | U16 (v : Z) | I32 (v : Z) | U32v (v : Z) | I64 (v : Z) | U64v (v : Z) | I128 (v : Z) | U128 (v : Z).

(** [Percent] and [Normalized] are fixed-point numbers of a third-party crate, given by their bits. *)
Inductive NumberValue :=
  | N_Int (v : IntValue)
  | N_Count (v : Z)
  | N_Percent (bits : Z)
  | N_Normalized (bits : Z)
  | N_Ratio32 (numer denom : Z).

Inductive StateValue :=
  | V_Bool (b : bool)
  | V_Char (c : Z)
  | V_Enum (enum_name label : string).

Inductive Sample :=
  | S_Count (n : Z)
  | S_Number (v : NumberValue)
  | S_State (s : StateValue)
  | S_Duration (d : Z).

#[export] Instance Kind_eq_dec : EqDecision Kind.
Proof. solve_decision. Defined.
#[export] Instance IntValue_eq_dec : EqDecision IntValue.
Proof. solve_decision. Defined.
#[export] Instance NumberValue_eq_dec : EqDecision NumberValue.
Proof. solve_decision. Defined.
#[export] Instance StateValue_eq_dec : EqDecision StateValue.
Proof. solve_decision. Defined.
#[export] Instance Sample_eq_dec : EqDecision Sample.
Proof. solve_decision. Defined.
#[export] Instance Encoding_eq_dec : EqDecision Encoding.
Proof. solve_decision. Defined.

Definition bits (v : IntValue) : Z :=
  match v with
  | I8 _ | U8 _ => 8
  | I16 _ | U16 _ => 16
  | I32 _ | U32v _ => 32
  | I64 _ | U64v _ => 64
  | I128 _ | U128 _ => 128
  end.

Definition is_signed (v : IntValue) : bool :=
  match v with I8 _ | I16 _ | I32 _ | I64 _ | I128 _ => true | _ => false end.

(** [try_from] into the [w]-bit integers, signed or not. *)
Definition fits_bits (signed : bool) (w v : Z) : bool :=
  if signed then (- 2 ^ (w - 1) <=? v) && (v <? 2 ^ (w - 1)) else (0 <=? v) && (v <? 2 ^ w).

Definition try_from (signed : bool) (w v : Z) : option Z := if fits_bits signed w v then Some v else None.

Definition to_i64 (v : IntValue) : option Z :=
  match v with
  | I8 v | U8 v | I16 v | U16 v | I32 v | U32v v | I64 v => Some v
  | U64v v | I128 v | U128 v => try_from true 64 v
  end.

Definition to_u64 (v : IntValue) : option Z :=
  match v with
  | U8 v | U16 v | U32v v | U64v v => Some v
  | I8 v | I16 v | I32 v | I64 v | I128 v | U128 v => try_from false 64 v
  end.

Definition to_i128 (v : IntValue) : option Z :=
  match v with
  | I8 v | U8 v | I16 v | U16 v | I32 v | U32v v | I64 v | U64v v | I128 v => Some v
  | U128 v => try_from true 128 v
  end.

Definition number_encoding (v : NumberValue) : Encoding :=
  match v with
  | N_Int _ => E_Int
  | N_Count _ => E_Count
  | N_Percent _ => E_Percent
  | N_Normalized _ => E_Normalized
  | N_Ratio32 _ _ => E_Ratio32
  end.

Definition sample_encoding (s : Sample) : Encoding :=
  match s with
  | S_Count _ => E_Count
  | S_Number n => number_encoding n
  | S_State _ => E_State
  | S_Duration _ => E_Histogram
  end.

Definition fits (s : Sample) (kind : Kind) : bool :=
  match kind, s with
  | K_Counter, S_Count _ | K_Gauge, S_Number _ | K_State, S_State _ | K_Timer, S_Duration _ => true
  | _, _ => false
  end.

(** ** Aggregates *)
Inductive Agg :=
  | A_Count (total : Z)
  | A_Number (level : NumberValue)
  | A_State (state : StateValue)
  | A_Hist (histogram : Histogram).

Definition start (s : Sample) : Agg :=
  match s with
  | S_Count n => A_Count n
  | S_Number v => A_Number v
  | S_State s => A_State s
  | S_Duration d => A_Hist (add new d)
  end.

Definition absorb (a : Agg) (s : Sample) : Agg :=
  match a, s with
  | A_Count total, S_Count n => A_Count (sat_add total n)
  | A_Number _, S_Number n => A_Number n
  | A_State _, S_State s => A_State s
  | A_Hist h, S_Duration d => A_Hist (add h d)
  | _, _ => a
  end.

(** ** Exact samples *)
Record HighRes := mk_high_res {
  hr_resolution : Z;
  samples : list (Z * Sample);
  dropped : Z;
  dropped_from : Z;
  dropped_to : Z;
}.

Definition hr_new (resolution : Z) : HighRes := mk_high_res resolution [] 0 0 0.

Definition hr_push (h : HighRes) (at_ns : Z) (sample : Sample) (cap : Z) : HighRes :=
  match (if cap <=? Z.of_nat (length (samples h)) then samples h else []) with
  | (dropped_at, _) :: rest =>
      mk_high_res (hr_resolution h) (rest ++ [(at_ns, sample)]) (dropped h +w 1)
        (if dropped h =? 0 then dropped_at else dropped_from h) dropped_at
  | [] => mk_high_res (hr_resolution h) (samples h ++ [(at_ns, sample)]) (dropped h) (dropped_from h) (dropped_to h)
  end.

(** What the buffer of capacity [cap] makes of the samples [xs] pushed since it was drained: it keeps the latest, and knows how many it dropped and the
    times of the first and the last of them. *)
Definition hr_keeps (h : HighRes) (cap : Z) (xs : list (Z * Sample)) : Prop :=
  let lost := take (length xs - Z.to_nat cap) xs in
  samples h = drop (length xs - Z.to_nat cap) xs ∧ dropped h = Z.of_nat (length lost) ∧
  (∀ x, head lost = Some x → dropped_from h = x.1) ∧ (∀ x, last lost = Some x → dropped_to h = x.1).

Lemma hr_push_keeps h cap xs at_ns s : 1 ≤ cap → Z.of_nat (length xs) < U64 - 1 → hr_keeps h cap xs →
  hr_keeps (hr_push h at_ns s cap) cap (xs ++ [(at_ns, s)]) ∧ hr_resolution (hr_push h at_ns s cap) = hr_resolution h.
Proof.
  intros Hc Hl (Hs & Hd & Hf & Ht). unfold hr_push. rewrite Hs. rewrite length_drop.
  destruct (decide (length xs < Z.to_nat cap)%nat) as [Hlt|Hge].
  - destruct (Z.leb_spec cap (Z.of_nat (length xs - (length xs - Z.to_nat cap)))); [lia|]. split; [|done]. unfold hr_keeps. simpl.
    rewrite length_app. simpl. replace (length xs + 1 - Z.to_nat cap)%nat with 0%nat by lia.
    replace (length xs - Z.to_nat cap)%nat with 0%nat in * by lia. rewrite take_0 in *. rewrite drop_0 in *. simpl in *. by rewrite drop_0.
  - destruct (Z.leb_spec cap (Z.of_nat (length xs - (length xs - Z.to_nat cap)))); [|lia].
    set (n := (length xs - Z.to_nat cap)%nat) in *. assert (Hn : (n < length xs)%nat) by lia.
    destruct (lookup_lt_is_Some_2 xs n Hn) as [[d x] Hx]. rewrite (drop_S _ _ _ Hx). split; [|done]. unfold hr_keeps. simpl.
    rewrite length_app. simpl. replace (length xs + 1 - Z.to_nat cap)%nat with (S n) by lia.
    rewrite !take_app_le, drop_app_le by lia. rewrite (take_S_r _ _ _ Hx). split; [done|]. split; [|split].
    + rewrite Hd, length_app, !length_take, u64_add_small; simpl; lia.
    + intros y Hy. rewrite Hd, length_take. destruct (Z.eqb_spec (Z.of_nat (n `min` length xs)) 0) as [E|E].
      * assert (n = 0)%nat as En by lia. rewrite En, take_0 in Hy. by injection Hy as <-.
      * apply Hf. destruct xs as [|z xs]; [done|]. destruct n as [|n']; [lia|]. exact Hy.
    + intros y Hy. rewrite last_snoc in Hy. by injection Hy as <-.
Qed.
