(* ===== verification/Book.v ===== *)
(** * The recorder that aggregates (stats/src/stats.rs)

    The book keeps one aggregate per series per window.  [ingest] records, [total_insert] turns running totals into deltas, [drain] takes the windows that have
    ended and groups them by series into a [Batch]; each is one critical section of the book's lock.  The abstract recorder keeps the list of
    the recordings accepted and not handed on; the book refines it (second half of the file).

    A [HashMap] is a [gmap], whose order of iteration is a parameter of [drain] ([HashOrder]); a series key stands for its hashed form, whose hash is
    a function of it.  The [BTreeMap] of windows is a [gmap] visited in ascending order. *)

From stdpp Require Import strings sorting.
From S2P Require Import Prelude Tags Histogram Samples.

Record StatsConfig := mk_config {
  common_tags : list Tag;
  resolution : Z;
  high_res_buffer : Z;
  feature_high_res : bool;
}.

Record Header := mk_header { h_kind : Kind; h_encoding : Encoding }.

Inductive RefusalReason :=
  | SampleKind (kind : Kind) (encoding : Encoding)
  | KindChanged (was now : Kind)
  | EncodingChanged (was now : Encoding).

Record Refusal := mk_refusal { r_name : string; r_tags : list Tag; reason : RefusalReason }.

Record Slot := mk_slot { slot_header : Header; agg : Agg }.

Record Book := mk_book {
  headers : gmap SeriesKey Header;
  windows : gmap Z (gmap SeriesKey Slot);
  totals : gmap SeriesKey Z;
  high_res : gmap SeriesKey HighRes;
  refused : Z;
  last_refusal : option Refusal;
}.

Definition default_book : Book := mk_book ∅ ∅ ∅ ∅ 0 None.

(** What a [Stats] hands on (stats/src/sink.rs). *)
Inductive Points :=
  | Counts (v : list (Z * Z))
  | Numbers (v : list (Z * NumberValue))
  | States (v : list (Z * StateValue))
  | Histograms (v : list (Z * Histogram))
  | Samples (v : list (Z * Sample)).

Record SeriesBatch := mk_series {
  s_name : string;
  s_kind : Kind;
  s_encoding : Encoding;
  s_tags : list Tag;
  s_resolution : Z;
  points : Points;
}.

Record Dropped := mk_dropped { d_name : string; d_tags : list Tag; d_count : Z; from_ns : Z; to_ns : Z }.

Record Batch := mk_batch { b_common_tags : list Tag; series : list SeriesBatch; b_dropped : list Dropped }.

Definition batch_is_empty (b : Batch) : bool :=
  match series b, b_dropped b with [], [] => true | _, _ => false end.

(** ** Recording *)
Definition resolution_ns (cfg : StatsConfig) : Z := Z.max 1 (Z.min u64_max (resolution cfg)).

Definition refuse (key : SeriesKey) (r : RefusalReason) (b : Book) : Book :=
  mk_book (headers b) (windows b) (totals b) (high_res b) (refused b +w 1) (Some (mk_refusal (key_name key) (key_tags key) r)).

Definition keep_high_res (cfg : StatsConfig) (key : SeriesKey) (at_ns : Z) (sample : Sample) (res : option Z) (b : Book) : Book :=
  match (if feature_high_res cfg then res else None) with
  | None => b
  | Some r =>
      let cap := Z.max 1 (high_res_buffer cfg) in
      let high := default (hr_new r) (high_res b !! key) in
      mk_book (headers b) (windows b) (totals b) (<[key := hr_push high at_ns sample cap]> (high_res b)) (refused b) (last_refusal b)
  end.

Definition put_slot (window : Z) (key : SeriesKey) (s : Slot) (b : Book) : Book :=
  mk_book (headers b) (<[window := <[key := s]> (default ∅ (windows b !! window))]> (windows b)) (totals b) (high_res b) (refused b) (last_refusal b).

Definition add_header (key : SeriesKey) (h : Header) (b : Book) : Book :=
  mk_book (<[key := h]> (headers b)) (windows b) (totals b) (high_res b) (refused b) (last_refusal b).

Definition ingest (cfg : StatsConfig) (key : SeriesKey) (kind : Kind) (at_ns : Z) (sample : Sample) (res : option Z) (b : Book) : Book :=
  let encoding := sample_encoding sample in
  if negb (fits sample kind) then refuse key (SampleKind kind encoding) b
  else
    let window := at_ns / resolution_ns cfg in
    match windows b !! window ≫= (.!! key) with
    | Some slot =>
        let header := slot_header slot in
        if decide (h_kind header ≠ kind) then refuse key (KindChanged (h_kind header) kind) b
        else if decide (h_encoding header ≠ encoding) then refuse key (EncodingChanged (h_encoding header) encoding) b
        else keep_high_res cfg key at_ns sample res (put_slot window key (mk_slot header (absorb (agg slot) sample)) b)
    | None =>
        let fresh b := keep_high_res cfg key at_ns sample res (put_slot window key (mk_slot (mk_header kind encoding) (start sample)) b) in
        match headers b !! key with
        | Some header =>
            if decide (h_kind header ≠ kind) then refuse key (KindChanged (h_kind header) kind) b
            else if decide (h_encoding header ≠ encoding) then refuse key (EncodingChanged (h_encoding header) encoding) b
            else fresh b
        | None => fresh (add_header key (mk_header kind encoding) b)
        end
    end.

Record Observation := mk_observation {
  o_name : string; o_kind : Kind; o_tags : list Tag; o_at_ns : Z; o_sample : Sample; o_resolution : option Z;
}.

Definition record (cfg : StatsConfig) (o : Observation) (b : Book) : Book :=
  ingest cfg (series_key (common_tags cfg) (o_name o) (o_tags o)) (o_kind o) (o_at_ns o) (o_sample o) (o_resolution o) b.

(** The first critical section of [total]: the delta to record, if any.  The second is [ingest] of the delta at the time read between the two. *)
Definition total_insert (key : SeriesKey) (total : Z) (b : Book) : Book * option Z :=
  (mk_book (headers b) (windows b) (<[key := total]> (totals b)) (high_res b) (refused b) (last_refusal b),
   match totals b !! key with
   | None => None
   | Some previous => Some (if previous <=? total then total - previous else total)
   end).

(** ** Draining *)

(** An order of iteration of the hash maps. *)
Record HashOrder := mk_order {
  hash_iter : ∀ V, gmap SeriesKey V → list (SeriesKey * V);
  hash_iter_perm : ∀ V (m : gmap SeriesKey V), hash_iter V m ≡ₚ map_to_list m;
}.
Arguments hash_iter _ {V} _.
Arguments hash_iter_perm _ {V} _.

Definition window_le {V} (x y : Z * V) : Prop := x.1 ≤ y.1.
#[export] Instance window_le_dec {V} : RelDecision (@window_le V).
Proof. intros x y. unfold window_le. apply _. Defined.

Definition btree_iter {V} (m : gmap Z V) : list (Z * V) := merge_sort window_le (map_to_list m).

Definition empty_points (kind : Kind) : Points :=
  match kind with K_Counter => Counts [] | K_Gauge => Numbers [] | K_State => States [] | K_Timer => Histograms [] end.

Definition push_point (p : Points) (at_ns : Z) (a : Agg) : Points :=
  match p, a with
  | Counts v, A_Count n => Counts (v ++ [(at_ns, n)])
  | Numbers v, A_Number n => Numbers (v ++ [(at_ns, n)])
  | States v, A_State s => States (v ++ [(at_ns, s)])
  | Histograms v, A_Hist h => Histograms (v ++ [(at_ns, h)])
  | _, _ => p
  end.

Definition push_series (at_ns : Z) (a : Agg) (s : SeriesBatch) : SeriesBatch :=
  mk_series (s_name s) (s_kind s) (s_encoding s) (s_tags s) (s_resolution s) (push_point (points s) at_ns a).

Definition empty_series (cfg : StatsConfig) (key : SeriesKey) (h : Header) : SeriesBatch :=
  mk_series (key_name key) (h_kind h) (h_encoding h) (strip_common (key_tags key) (common_tags cfg)) (resolution cfg) (empty_points (h_kind h)).

(** One turn of the loop over the closed windows: [index] is the position of each series met so far. *)
Definition group_slot (cfg : StatsConfig) (hs : gmap SeriesKey Header) (window : Z) (acc : list SeriesBatch * gmap SeriesKey nat) (ks : SeriesKey * Slot) :=
  let at_ns := Z.min u64_max (window * resolution_ns cfg) in
  match hs !! ks.1 with
  | None => acc
  | Some header =>
      match acc.2 !! ks.1 with
      | Some at_ => (alter (push_series at_ns (agg ks.2)) at_ acc.1, acc.2)
      | None =>
          (acc.1 ++ [push_series at_ns (agg ks.2) (empty_series cfg ks.1 header)], <[ks.1 := length acc.1]> acc.2)
      end
  end.

Definition group_windows (cfg : StatsConfig) (hs : gmap SeriesKey Header) (ord : HashOrder) (closed : gmap Z (gmap SeriesKey Slot)) :=
  foldl (λ acc wm, foldl (group_slot cfg hs wm.1) acc (hash_iter ord wm.2)) ([], ∅) (btree_iter closed).

(** One turn of the loop over the exact samples taken. *)
Definition add_high (cfg : StatsConfig) (hs : gmap SeriesKey Header) (batch : Batch) (kh : SeriesKey * HighRes) : Batch :=
  let '(key, h) := kh in
  match hs !! key with
  | None => batch
  | Some header =>
      let tags := strip_common (key_tags key) (common_tags cfg) in
      mk_batch (b_common_tags batch)
        (if decide (samples h = []) then series batch
         else series batch ++ [mk_series (key_name key) (h_kind header) (h_encoding header) tags (hr_resolution h) (Samples (samples h))])
        (if 0 <? dropped h then b_dropped batch ++ [mk_dropped (key_name key) tags (dropped h) (dropped_from h) (dropped_to h)] else b_dropped batch)
  end.

Definition has_high (h : HighRes) : bool := negb (bool_decide (samples h = []) && (dropped h =? 0)).

(** A buffer that has been drained. *)
Definition hr_drained (h : HighRes) : HighRes :=
  if has_high h then mk_high_res (hr_resolution h) [] 0 (dropped_from h) (dropped_to h) else h.

Definition drain (cfg : StatsConfig) (ord : HashOrder) (include_open : bool) (now_ns : Z) (b : Book) : Book * Batch :=
  let current := now_ns / resolution_ns cfg in
  let closed := if include_open then windows b else filter (λ wm, wm.1 < current) (windows b) in
  let open := if include_open then ∅ else filter (λ wm, ¬ wm.1 < current) (windows b) in
  let high := filter (λ kh, has_high kh.2) (hash_iter ord (high_res b)) in
  let batch := mk_batch (common_tags cfg) (group_windows cfg (headers b) ord closed).1 [] in
  (mk_book (headers b) open (totals b) (hr_drained <$> high_res b) (refused b) (last_refusal b),
   foldl (add_high cfg (headers b)) batch high).

(** [flush] and [final_flush]: nothing is drained without a sink, and an empty batch is not handed over. *)
Definition flush (cfg : StatsConfig) (ord : HashOrder) (sink include_open : bool) (now_ns : Z) (b : Book) : Book * option Batch :=
  if sink then
    let '(b', batch) := drain cfg ord include_open now_ns b in
    (b', if batch_is_empty batch then None else Some batch)
  else (b, None).

(** ** What the book stands for (stats/src/stats.rs)

    The abstract recorder: the headers of the series, the recordings accepted and not handed on yet ([pending]), the exact samples since the last drain,
    the refusals.  [represents] relates it to the book, and every operation keeps the relation. *)

(** A recording accepted: its window, its series, its sample. *)
Definition Rec : Type := Z * SeriesKey * Sample.

Definition samples_at (w : Z) (k : SeriesKey) (l : list Rec) : list Sample :=
  omap (λ r, if decide (r.1 = (w, k)) then Some r.2 else None) l.

(** The aggregate of the samples of one series in one window, in the order of recording. *)
Definition agg_of (ss : list Sample) : option Agg :=
  match ss with [] => None | s :: ss' => Some (foldl absorb (start s) ss') end.

Record Abs := mk_abs {
  a_headers : gmap SeriesKey Header;
  pending : list Rec;
  exact : gmap SeriesKey (Z * list (Z * Sample));
  a_totals : gmap SeriesKey Z;
  refusals : list Refusal;
}.

Definition abs_empty : Abs := mk_abs ∅ [] ∅ ∅ [].

(** Why a sample is refused, when it is: it has to fit the kind, and the kind and encoding of a series are those of its first sample. *)
Definition verdict (hs : gmap SeriesKey Header) (key : SeriesKey) (kind : Kind) (s : Sample) : option RefusalReason :=
  if fits s kind then
    h ← hs !! key;
    if decide (h_kind h ≠ kind) then Some (KindChanged (h_kind h) kind)
    else if decide (h_encoding h ≠ sample_encoding s) then Some (EncodingChanged (h_encoding h) (sample_encoding s))
    else None
  else Some (SampleKind kind (sample_encoding s)).

(** The headers once a sample of [key] is accepted. *)
Definition headed (hs : gmap SeriesKey Header) (key : SeriesKey) (h : Header) : gmap SeriesKey Header :=
  if hs !! key then hs else <[key := h]> hs.

Section spec.
Context (cfg : StatsConfig).

Definition cap : Z := Z.max 1 (high_res_buffer cfg).

Definition abs_exact (key : SeriesKey) (at_ns : Z) (s : Sample) (res : option Z) (x : gmap SeriesKey (Z * list (Z * Sample))) :=
  match (if feature_high_res cfg then res else None) with
  | None => x
  | Some r => let rx := default (r, []) (x !! key) in <[key := (rx.1, rx.2 ++ [(at_ns, s)])]> x
  end.

Definition abs_ingest (key : SeriesKey) (kind : Kind) (at_ns : Z) (s : Sample) (res : option Z) (A : Abs) : Abs :=
  match verdict (a_headers A) key kind s with
  | Some r => mk_abs (a_headers A) (pending A) (exact A) (a_totals A) (refusals A ++ [mk_refusal (key_name key) (key_tags key) r])
  | None =>
      mk_abs (headed (a_headers A) key (mk_header kind (sample_encoding s)))
        (pending A ++ [(at_ns / resolution_ns cfg, key, s)]) (abs_exact key at_ns s res (exact A)) (a_totals A) (refusals A)
  end.

(** The recordings a drain takes, and those it leaves. *)
Definition ended (include_open : bool) (now_ns : Z) (r : Rec) : bool := include_open || (r.1.1 <? now_ns / resolution_ns cfg).
Definition taken include_open now_ns (A : Abs) : list Rec := filter (λ r, ended include_open now_ns r) (pending A).

Definition abs_drain include_open now_ns (A : Abs) : Abs :=
  mk_abs (a_headers A) (filter (λ r, ¬ ended include_open now_ns r) (pending A)) ((λ rx, (rx.1, [])) <$> exact A) (a_totals A) (refusals A).

Definition slot_at (A : Abs) (w : Z) (k : SeriesKey) : option Slot :=
  a ← agg_of (samples_at w k (pending A)); h ← a_headers A !! k; Some (mk_slot h a).

Definition typed_as (hs : gmap SeriesKey Header) (k : SeriesKey) (s : Sample) : Prop :=
  ∃ h, hs !! k = Some h ∧ fits s (h_kind h) = true ∧ sample_encoding s = h_encoding h.

Definition well_typed (hs : gmap SeriesKey Header) (r : Rec) : Prop := typed_as hs r.1.2 r.2.

(** The buffers of the book hold the exact samples; [n] bounds how many. *)
Definition exact_ok (hs : gmap SeriesKey Header) (hr : gmap SeriesKey HighRes) (x : gmap SeriesKey (Z * list (Z * Sample))) (n : nat) : Prop :=
  ∀ k, match hr !! k, x !! k with
       | Some h, Some rx => hr_resolution h = rx.1 ∧ hr_keeps h cap rx.2 ∧ (length rx.2 ≤ n)%nat ∧ is_Some (hs !! k) ∧
           ∀ x, x ∈ rx.2 → typed_as hs k x.2
       | None, None => True
       | _, _ => False
       end.

Lemma typed_mono hs hs' k s : (∀ k h, hs !! k = Some h → hs' !! k = Some h) → typed_as hs k s → typed_as hs' k s.
Proof. intros Hm (h & Hh & ?). exists h. split; [by apply Hm|done]. Qed.

Lemma exact_ok_mono hs hs' hr x n n' : exact_ok hs hr x n → (n ≤ n')%nat → (∀ k h, hs !! k = Some h → hs' !! k = Some h) → exact_ok hs' hr x n'.
Proof.
  intros Hx Hn Hm k. specialize (Hx k). destruct (hr !! k), (x !! k) as [rx|]; try done. destruct Hx as (? & ? & ? & [hd Hh] & Ht).
  split; [done|]. split; [done|]. split; [lia|]. split; [exists hd; by apply Hm|]. intros y Hy. eapply typed_mono; eauto.
Qed.

Record represents (b : Book) (A : Abs) (n : nat) : Prop := mk_represents {
  rep_headers : headers b = a_headers A;
  rep_totals : totals b = a_totals A;
  rep_refused : refused b = Z.of_nat (length (refusals A)) mod U64 ∧ last_refusal b = last (refusals A);
  rep_windows : ∀ w k, windows b !! w ≫= (.!! k) = slot_at A w k;
  rep_nonempty : ∀ w, windows b !! w ≠ Some ∅;
  rep_typed : ∀ r, r ∈ pending A → well_typed (a_headers A) r;
  rep_exact : exact_ok (a_headers A) (high_res b) (exact A) n;
}.

Lemma empty_represents : represents default_book abs_empty 0.
Proof. constructor; try done. by intros r Hr%not_elem_of_nil. Qed.

Lemma samples_at_app w k l l' : samples_at w k (l ++ l') = samples_at w k l ++ samples_at w k l'.
Proof. apply omap_app. Qed.

Lemma agg_of_snoc ss s : agg_of (ss ++ [s]) = Some (match agg_of ss with Some a => absorb a s | None => start s end).
Proof. destruct ss as [|x ss]; simpl; [done|]. by rewrite foldl_app. Qed.

Lemma samples_at_single w k w' k' s : samples_at w k [(w', k', s)] = if decide ((w', k') = (w, k)) then [s] else [].
Proof. unfold samples_at. simpl. by case_decide. Qed.

Lemma samples_at_elem w k l s : s ∈ samples_at w k l ↔ (w, k, s) ∈ l.
Proof.
  unfold samples_at. rewrite list_elem_of_omap. split.
  - intros ([[w' k'] s'] & Hin & H). simpl in H. case_decide as E; [|done]. by injection E as -> ->; injection H as ->.
  - intros H. exists (w, k, s). split; [done|]. simpl. by rewrite decide_True.
Qed.

Lemma agg_of_None ss : agg_of ss = None ↔ ss = [].
Proof. by destruct ss. Qed.

(** A slot is in the book exactly when a recording of its series is pending in its window. *)
Lemma slot_at_Some A w k : (∀ r, r ∈ pending A → well_typed (a_headers A) r) →
  is_Some (slot_at A w k) ↔ ∃ s, (w, k, s) ∈ pending A.
Proof.
  intros Ht. unfold slot_at. split.
  - intros [x Hx]. apply bind_Some in Hx as (a & Ha & _). destruct (samples_at w k (pending A)) as [|s ss] eqn:E; [done|].
    exists s. apply samples_at_elem. rewrite E. by left.
  - intros [s Hs]. destruct (Ht _ Hs) as (h & Hh & _). simpl in Hh. apply samples_at_elem in Hs.
    destruct (samples_at w k (pending A)); [by apply not_elem_of_nil in Hs|]. simpl. rewrite Hh. by eexists.
Qed.

Lemma put_slot_lookup w k s b w' k' :
  windows (put_slot w k s b) !! w' ≫= (.!! k') = if decide ((w', k') = (w, k)) then Some s else windows b !! w' ≫= (.!! k').
Proof.
  simpl. case_decide as E.
  - injection E as -> ->. by rewrite lookup_insert_eq; simpl; rewrite lookup_insert_eq.
  - destruct (decide (w' = w)) as [->|Hw]; [|by rewrite lookup_insert_ne].
    rewrite lookup_insert_eq. simpl. rewrite lookup_insert_ne by congruence. by destruct (windows b !! w); simpl; rewrite ?lookup_empty.
Qed.

Lemma verdict_None hs key kind s : verdict hs key kind s = None →
  fits s kind = true ∧ headed hs key (mk_header kind (sample_encoding s)) !! key = Some (mk_header kind (sample_encoding s)).
Proof.
  unfold verdict, headed. destruct (fits s kind) eqn:Ef; [|done]. split; [done|].
  destruct (hs !! key) as [[k e]|] eqn:E; [|apply lookup_insert_eq]. rewrite E. simpl in *.
  case_decide as Ek; [done|]. case_decide as Ee; [done|]. by subst.
Qed.

Lemma headed_mono hs key h k h' : hs !! k = Some h' → headed hs key h !! k = Some h'.
Proof.
  intros H. unfold headed. destruct (hs !! key) as [x|] eqn:E; [done|]. rewrite lookup_insert_ne; [done|]. congruence.
Qed.

Lemma refuse_represents b A n key r : represents b A n →
  represents (refuse key r b) (mk_abs (a_headers A) (pending A) (exact A) (a_totals A) (refusals A ++ [mk_refusal (key_name key) (key_tags key) r])) (S n).
Proof.
  intros [H1 H2 [H3 H4] H5 H6 H7 H8]. constructor; simpl; try done.
  - split; [|by rewrite last_snoc]. rewrite H3, length_app. unfold u64_add. rewrite Zplus_mod_idemp_l. f_equal. simpl. lia.
  - eapply exact_ok_mono; [exact H8|lia|done].
Qed.

Definition rebook (b : Book) (hs : gmap SeriesKey Header) : Book :=
  mk_book hs (windows b) (totals b) (high_res b) (refused b) (last_refusal b).

Lemma exact_push b x n key at_ns s res hs : exact_ok hs (high_res b) x n → Z.of_nat n < U64 - 1 → typed_as hs key s →
  exact_ok hs (high_res (keep_high_res cfg key at_ns s res b)) (abs_exact key at_ns s res x) (S n).
Proof.
  intros Hx Hn Hk. unfold keep_high_res, abs_exact. destruct (if feature_high_res cfg then res else None) as [r|]; [|eapply exact_ok_mono; [exact Hx|lia|done]].
  intros k. destruct (decide (k = key)) as [->|Hne].
  2: { simpl. rewrite !lookup_insert_ne by done. by apply (exact_ok_mono hs hs _ _ n); auto. }
  simpl. rewrite !lookup_insert_eq. simpl. set (h := default (hr_new r) (high_res b !! key)). set (rx := default (r, []) (x !! key)).
  assert (hr_resolution h = rx.1 ∧ hr_keeps h cap rx.2 ∧ (length rx.2 ≤ n)%nat ∧ ∀ y, y ∈ rx.2 → typed_as hs key y.2) as (E & Hh & Hl & Ht).
  { unfold h, rx. specialize (Hx key). destruct (high_res b !! key), (x !! key); try done; simpl; [naive_solver|].
    split; [done|]. split; [split; [done|by split]|]. split; [lia|]. by intros y Hy%not_elem_of_nil. }
  destruct (hr_push_keeps h cap rx.2 at_ns s) as [Hp Ep]; [unfold cap; lia|lia|done|]. fold cap.
  split; [by rewrite Ep|]. split; [done|]. split; [rewrite length_app; simpl; lia|]. split; [by destruct Hk as (h' & ? & _); exists h'|].
  intros y [Hy| ->%list_elem_of_singleton]%elem_of_app; [by apply Ht|exact Hk].
Qed.

Lemma accept_represents b A n key kind at_ns s res a : represents b A n → Z.of_nat n < U64 - 1 →
  verdict (a_headers A) key kind s = None → let w := at_ns / resolution_ns cfg in
  agg_of (samples_at w key (pending A) ++ [s]) = Some a →
  let h := mk_header kind (sample_encoding s) in
  represents (keep_high_res cfg key at_ns s res (put_slot w key (mk_slot h a) (rebook b (headed (a_headers A) key h))))
    (abs_ingest key kind at_ns s res A) (S n).
Proof.
  intros Hr Hn Hv w Ha h. destruct (verdict_None _ _ _ _ Hv) as [Hf Hh]. fold h in Hh. unfold abs_ingest. rewrite Hv.
  fold h. set (hs := headed (a_headers A) key h) in *.
  assert (Hm : ∀ k h', a_headers A !! k = Some h' → hs !! k = Some h') by (intros k h'; apply headed_mono).
  set (b1 := put_slot w key (mk_slot h a) (rebook b hs)).
  assert (Ek : headers (keep_high_res cfg key at_ns s res b1) = hs ∧ windows (keep_high_res cfg key at_ns s res b1) = windows b1 ∧
    totals (keep_high_res cfg key at_ns s res b1) = totals b ∧ refused (keep_high_res cfg key at_ns s res b1) = refused b ∧
    last_refusal (keep_high_res cfg key at_ns s res b1) = last_refusal b).
  { unfold keep_high_res. by destruct (if feature_high_res cfg then res else None). }
  destruct Ek as (Ek1 & Ek2 & Ek3 & Ek4 & Ek5). destruct Hr as [H1 H2 [H3 H4] H5 H6 H7 H8] eqn:EHr. clear EHr.
  constructor; simpl; rewrite ?Ek1, ?Ek2, ?Ek3, ?Ek4, ?Ek5; try done.
  - intros w' k'. unfold b1. rewrite put_slot_lookup. simpl windows. rewrite H5. unfold slot_at. simpl.
    rewrite samples_at_app, samples_at_single. fold w. destruct (decide ((w', k') = (w, key))) as [[= -> ->]|Hne].
    + rewrite decide_True by done. rewrite Ha. simpl. by rewrite Hh.
    + rewrite decide_False by congruence. rewrite app_nil_r. destruct (agg_of (samples_at w' k' (pending A))) as [a'|] eqn:Ea; [|done]. simpl.
      assert (is_Some (a_headers A !! k')) as [h' Hh'].
      { destruct (samples_at w' k' (pending A)) as [|x l] eqn:El; [done|]. assert (Hx : (w', k', x) ∈ pending A) by (apply samples_at_elem; rewrite El; by left).
        destruct (H7 _ Hx) as (h' & Hh' & _). by exists h'. }
      by rewrite Hh', (Hm _ _ Hh').
  - intros w'. unfold b1. simpl. destruct (decide (w' = w)) as [->|]; [rewrite lookup_insert_eq; intros [= E]; by apply insert_non_empty in E|by rewrite lookup_insert_ne].
  - intros r. rewrite elem_of_app, list_elem_of_singleton. intros [Hin| ->]; [|by exists h].
    destruct (H7 _ Hin) as (h' & Hh' & ?). exists h'. split; [by apply Hm|done].
  - apply exact_push; [|done|by exists h]. simpl. eapply exact_ok_mono; [exact H8|done|done].
Qed.

Lemma rebook_same b A n : represents b A n → rebook b (a_headers A) = b.
Proof. intros Hr. rewrite <- (rep_headers _ _ _ Hr). by destruct b. Qed.

Lemma rebook_add b A n key h : represents b A n → a_headers A !! key = None → rebook b (headed (a_headers A) key h) = add_header key h b.
Proof. intros Hr Hn. unfold headed, add_header, rebook. by rewrite Hn, (rep_headers _ _ _ Hr). Qed.

Lemma ingest_represents b A n key kind at_ns s res : represents b A n → Z.of_nat n < U64 - 1 →
  represents (ingest cfg key kind at_ns s res b) (abs_ingest key kind at_ns s res A) (S n).
Proof.
  intros Hr Hn. pose proof (λ a, accept_represents b A n key kind at_ns s res a Hr Hn) as Hacc.
  pose proof (λ r, refuse_represents b A n key r Hr) as Href.
  unfold ingest. destruct (fits s kind) eqn:Ef; simpl; [|unfold abs_ingest, verdict; rewrite Ef; apply Href].
  assert (Hv : verdict (a_headers A) key kind s = (h ← a_headers A !! key;
    if decide (h_kind h ≠ kind) then Some (KindChanged (h_kind h) kind)
    else if decide (h_encoding h ≠ sample_encoding s) then Some (EncodingChanged (h_encoding h) (sample_encoding s)) else None)) by (unfold verdict; by rewrite Ef).
  rewrite (rep_windows _ _ _ Hr), (rep_headers _ _ _ Hr). set (w := at_ns / resolution_ns cfg) in *. cbv zeta in Hacc.
  assert (Hhead : ∀ h, a_headers A !! key = Some h → headed (a_headers A) key (mk_header kind (sample_encoding s)) = a_headers A).
  { intros h Hh. unfold headed. by rewrite Hh. }
  destruct (slot_at A w key) as [slot|] eqn:Es.
  - unfold slot_at in Es. apply bind_Some in Es as (a & Ha & Es). apply bind_Some in Es as (h & Hh & [= <-]). simpl.
    rewrite Hh in Hv. simpl in Hv. case_decide as Ek; [unfold abs_ingest; rewrite Hv; apply Href|].
    case_decide as Ee; [unfold abs_ingest; rewrite Hv; apply Href|].
    specialize (Hacc (absorb a s) Hv). rewrite agg_of_snoc, Ha in Hacc. specialize (Hacc eq_refl).
    rewrite (Hhead _ Hh), (rebook_same _ _ _ Hr) in Hacc. by destruct h; simpl in *; subst.
  - assert (Hs : samples_at w key (pending A) = []).
    { destruct (samples_at w key (pending A)) as [|x l] eqn:E; [done|]. assert (Hx : is_Some (slot_at A w key)); [|rewrite Es in Hx; by destruct Hx].
      apply slot_at_Some; [apply Hr|]. exists x. apply samples_at_elem. rewrite E. by left. }
    specialize (Hacc (start s)). rewrite Hs in Hacc. simpl in Hacc. destruct (a_headers A !! key) as [h|] eqn:Eh; simpl in Hv.
    + case_decide as Ek; [unfold abs_ingest; rewrite Hv; apply Href|]. case_decide as Ee; [unfold abs_ingest; rewrite Hv; apply Href|].
      specialize (Hacc Hv eq_refl). by rewrite (Hhead _ eq_refl), (rebook_same _ _ _ Hr) in Hacc.
    + specialize (Hacc Hv eq_refl). by rewrite (rebook_add _ _ _ _ _ Hr Eh) in Hacc.
Qed.

Lemma total_represents b A n key total : represents b A n →
  represents (total_insert key total b).1 (mk_abs (a_headers A) (pending A) (exact A) (<[key := total]> (a_totals A)) (refusals A)) n.
Proof. intros [H1 H2 H3 H4 H5 H6 H7]. constructor; try done. simpl. by rewrite H2. Qed.
End spec.
