(* ===== verification/BookDrain.v ===== *)
(** * Draining the book (stats/src/stats.rs)

    A batch has one series for each series key taken, with one point for each of its windows, in ascending order; every recording taken is in exactly one
    point.  [batch_of] says so of the list of recordings; [drain] produces such a batch. *)

From stdpp Require Import strings sorting.
From S2P Require Import Prelude Tags Histogram Samples Book.

#[export] Instance Header_inhabited : Inhabited Header := populate (mk_header K_Counter E_Count).

Section drain.
Context (cfg : StatsConfig) (ord : HashOrder).

(** The start of a window, in nanoseconds. *)
Definition window_start (w : Z) : Z := Z.min u64_max (w * resolution_ns cfg).

Definition push_points (p : Points) (l : list (Z * Agg)) : Points := foldl (λ p x, push_point p x.1 x.2) p l.

(** The windows of a list of recordings, in ascending order. *)
Definition windows_of (l : list Rec) : list Z := merge_sort Z.le (remove_dups ((λ r, r.1.1) <$> l)).

Definition points_of (k : SeriesKey) (l : list Rec) : list (Z * Agg) :=
  omap (λ w, (window_start w,.) <$> agg_of (samples_at w k l)) (windows_of l).

Definition series_with (hs : gmap SeriesKey Header) (k : SeriesKey) (l : list (Z * Agg)) : SeriesBatch :=
  let h := hs !!! k in
  mk_series (key_name k) (h_kind h) (h_encoding h) (strip_common (key_tags k) (common_tags cfg)) (resolution cfg) (push_points (empty_points (h_kind h)) l).

(** The latest of the exact samples [xs], and what was lost before them. *)
Definition kept (xs : list (Z * Sample)) := drop (length xs - Z.to_nat (cap cfg)) xs.
Definition lost (xs : list (Z * Sample)) := take (length xs - Z.to_nat (cap cfg)) xs.

Definition exact_series (hs : gmap SeriesKey Header) (kx : SeriesKey * (Z * list (Z * Sample))) : option SeriesBatch :=
  let '(k, (r, xs)) := kx in let h := hs !!! k in
  if decide (kept xs = []) then None
  else Some (mk_series (key_name k) (h_kind h) (h_encoding h) (strip_common (key_tags k) (common_tags cfg)) r (Samples (kept xs))).

Definition exact_dropped (kx : SeriesKey * (Z * list (Z * Sample))) : option Dropped :=
  let '(k, (_, xs)) := kx in
  first ← head (lost xs); final ← last (lost xs);
  Some (mk_dropped (key_name k) (strip_common (key_tags k) (common_tags cfg)) (Z.of_nat (length (lost xs))) first.1 final.1).

Record batch_of (hs : gmap SeriesKey Header) (l : list Rec) (x : gmap SeriesKey (Z * list (Z * Sample))) (batch : Batch) : Prop := mk_batch_of {
  bo_common : b_common_tags batch = common_tags cfg;
  bo_keys : ∃ keys xs, NoDup keys ∧ (∀ k, k ∈ keys ↔ ∃ r, r ∈ l ∧ r.1.2 = k) ∧ xs ≡ₚ map_to_list x ∧
    series batch = ((λ k, series_with hs k (points_of k l)) <$> keys) ++ omap (exact_series hs) xs ∧ b_dropped batch = omap exact_dropped xs;
}.

(** ** The slots in the order of the loops *)
Definition flat (closed : gmap Z (gmap SeriesKey Slot)) : list (Z * (SeriesKey * Slot)) :=
  btree_iter closed ≫= λ wm, (wm.1,.) <$> hash_iter ord wm.2.

Lemma foldl_flat {S} (f : Z → S → SeriesKey * Slot → S) acc (l : list (Z * gmap SeriesKey Slot)) :
  foldl (λ acc wm, foldl (f wm.1) acc (hash_iter ord wm.2)) acc l =
  foldl (λ acc x, f x.1 acc x.2) acc (l ≫= λ wm, (wm.1,.) <$> hash_iter ord wm.2).
Proof.
  revert acc. induction l as [|[w m] l IH]; intros acc; simpl; [done|]. rewrite foldl_app, IH. f_equal.
  generalize (hash_iter ord m). intros ks. revert acc. induction ks as [|ks kss IHk]; intros acc; simpl; [done|]. apply IHk.
Qed.

(** The points of one series among the slots met so far. *)
Definition slot_points (k : SeriesKey) (l : list (Z * (SeriesKey * Slot))) : list (Z * Agg) :=
  omap (λ x, if decide (x.2.1 = k) then Some (window_start x.1, agg x.2.2) else None) l.

Lemma slot_points_snoc k l x :
  slot_points k (l ++ [x]) = slot_points k l ++ if decide (x.2.1 = k) then [(window_start x.1, agg x.2.2)] else [].
Proof. unfold slot_points. rewrite omap_app. simpl. by case_decide. Qed.

Lemma push_points_snoc p l x : push_points p (l ++ [x]) = push_point (push_points p l) x.1 x.2.
Proof. unfold push_points. by rewrite foldl_app. Qed.

(** What the loop has built: the series of the keys met, in the order met, with the index of their positions. *)
Definition grouped (hs : gmap SeriesKey Header) (l : list (Z * (SeriesKey * Slot))) (acc : list SeriesBatch * gmap SeriesKey nat) : Prop :=
  ∃ keys, NoDup keys ∧ (∀ k, k ∈ keys ↔ ∃ x, x ∈ l ∧ x.2.1 = k) ∧ acc.1 = (λ k, series_with hs k (slot_points k l)) <$> keys ∧
    ∀ k i, acc.2 !! k = Some i ↔ keys !! i = Some k.

Lemma group_slot_step hs l acc w k s : grouped hs l acc → is_Some (hs !! k) → grouped hs (l ++ [(w, (k, s))]) (group_slot cfg hs w acc (k, s)).
Proof.
  intros (keys & Hd & Hk & Ha & Hi) [h Hh]. unfold group_slot. simpl. rewrite Hh. fold (window_start w).
  assert (Eh : hs !!! k = h) by (by apply lookup_total_correct).
  assert (Hstep : ∀ k', series_with hs k' (slot_points k' (l ++ [(w, (k, s))])) =
    if decide (k' = k) then push_series (window_start w) (agg s) (series_with hs k' (slot_points k' l)) else series_with hs k' (slot_points k' l)).
  { intros k'. rewrite slot_points_snoc. simpl. destruct (decide (k = k')) as [->|Hne].
    - rewrite decide_True by done. unfold series_with, push_series. simpl. by rewrite push_points_snoc.
    - rewrite decide_False by done. by rewrite app_nil_r. }
  assert (Hin : ∀ k', (∃ x, x ∈ l ++ [(w, (k, s))] ∧ x.2.1 = k') ↔ k' = k ∨ ∃ x, x ∈ l ∧ x.2.1 = k').
  { intros k'. setoid_rewrite elem_of_app. setoid_rewrite list_elem_of_singleton. split.
    - intros (x & [Hx| ->] & <-); [right; eauto|by left].
    - intros [->|(x & Hx & <-)]; [eexists; split; [by right|done]|exists x; auto]. }
  destruct (acc.2 !! k) as [i|] eqn:Ei.
  - apply Hi in Ei as Hki. exists keys. split; [done|]. split; [|split].
    + intros k'. rewrite Hin, <- Hk. split; [by right|]. intros [->|]; [by eapply list_elem_of_lookup_2|done].
    + simpl. rewrite Ha. apply list_eq. intros j. rewrite list_lookup_fmap. destruct (decide (j = i)) as [->|Hj].
      * rewrite list_lookup_alter_eq, list_lookup_fmap, Hki. simpl. by rewrite Hstep, decide_True.
      * rewrite list_lookup_alter_ne, list_lookup_fmap by done. destruct (keys !! j) as [k'|] eqn:Ej; simpl; [|done].
        rewrite Hstep, decide_False; [done|]. intros ->. apply Hj. by eapply NoDup_lookup.
    + exact Hi.
  - assert (Hnk : k ∉ keys) by (intros [j Hj]%list_elem_of_lookup; apply Hi in Hj; congruence).
    assert (Hl : slot_points k l = []).
    { unfold slot_points. destruct (omap _ l) as [|y ys] eqn:E; [done|]. exfalso. apply Hnk, Hk.
      assert (Hy : y ∈ omap (λ x, if decide (x.2.1 = k) then Some (window_start x.1, agg x.2.2) else None) l) by (rewrite E; by left).
      apply list_elem_of_omap in Hy as (x & Hx & Hy). case_decide; [|done]. eauto. }
    exists (keys ++ [k]). split; [apply NoDup_app; split; [done|split; [intros k' Hk' ->%list_elem_of_singleton; done|apply NoDup_singleton]]|]. split; [|split].
    + intros k'. rewrite Hin, <- Hk, elem_of_app, list_elem_of_singleton. tauto.
    + simpl. rewrite Ha, fmap_app. simpl. f_equal.
      * apply list_fmap_ext. intros j k' Hj. rewrite Hstep, decide_False; [done|]. intros ->. apply Hnk. by eapply list_elem_of_lookup_2.
      * by rewrite Hstep, decide_True, Hl; unfold series_with; rewrite ?Eh.
    + assert (Elen : length acc.1 = length keys) by (rewrite Ha; apply length_fmap).
      intros k' i. simpl. rewrite Elen. destruct (decide (k' = k)) as [->|Hne].
      * rewrite lookup_insert_eq. split; [intros [= <-]; by rewrite lookup_app_r, Nat.sub_diag|].
        intros [Hx|[Hge Hx]]%lookup_app_Some; [by apply list_elem_of_lookup_2 in Hx|]. destruct (i - length keys)%nat eqn:E; [|done].
        f_equal. lia.
      * rewrite lookup_insert_ne by done. rewrite Hi. split; [intros Hx; by apply lookup_app_l_Some|].
        intros [Hx|[_ Hx]]%lookup_app_Some; [done|]. destruct (i - length keys)%nat; [by injection Hx as <-|done].
Qed.

Lemma grouped_all hs l : (∀ x, x ∈ l → is_Some (hs !! x.2.1)) →
  grouped hs l (foldl (λ acc x, group_slot cfg hs x.1 acc x.2) ([], ∅) l).
Proof.
  induction l as [|[w [k s]] l IH] using rev_ind; intros Hh.
  - exists []. split; [constructor|]. split; [|split; [done|]].
    + intros k. split; [by intros ?%not_elem_of_nil|by intros (x & Hx%not_elem_of_nil & _)].
    + intros k i. simpl. by rewrite lookup_empty.
  - rewrite foldl_snoc. apply group_slot_step; [|by apply (Hh (w, (k, s))), elem_of_app; right; left].
    apply IH. intros x Hx. apply Hh, elem_of_app. by left.
Qed.

Lemma slot_points_app k l l' : slot_points k (l ++ l') = slot_points k l ++ slot_points k l'.
Proof. apply omap_app. Qed.

Lemma slot_points_cons k x l :
  slot_points k (x :: l) = (if decide (x.2.1 = k) then [(window_start x.1, agg x.2.2)] else []) ++ slot_points k l.
Proof. unfold slot_points. simpl. by case_decide. Qed.

Lemma slot_points_window k w m :
  slot_points k ((w,.) <$> hash_iter ord m) = option_list ((λ s, (window_start w, agg s)) <$> m !! k).
Proof.
  assert (Hd : NoDup (hash_iter ord m).*1) by (rewrite (hash_iter_perm ord m); apply NoDup_fst_map_to_list).
  assert (Em : m !! k = (list_to_map (hash_iter ord m) : gmap _ _) !! k).
  { by rewrite (list_to_map_proper _ (map_to_list m)), list_to_map_to_list by (done || apply hash_iter_perm). }
  rewrite Em. clear Em. induction (hash_iter ord m) as [|[k' s] l IH]; [done|].
  apply NoDup_cons in Hd as [Hn Hd]. rewrite fmap_cons, slot_points_cons, (IH Hd). simpl. destruct (decide (k' = k)) as [->|Hne].
  - rewrite lookup_insert_eq. simpl. by rewrite not_elem_of_list_to_map_1.
  - by rewrite lookup_insert_ne.
Qed.

Lemma slot_points_flat k closed :
  slot_points k (flat closed) = omap (λ wm, (λ s, (window_start wm.1, agg s)) <$> wm.2 !! k) (btree_iter closed).
Proof.
  unfold flat. induction (btree_iter closed) as [|[w m] l IH]; [done|]. rewrite bind_cons, slot_points_app, slot_points_window, IH. simpl.
  by destruct (m !! k).
Qed.

Lemma elem_of_btree_iter {V} (m : gmap Z V) w v : (w, v) ∈ btree_iter m ↔ m !! w = Some v.
Proof. unfold btree_iter. by rewrite merge_sort_Permutation, elem_of_map_to_list. Qed.

Lemma btree_iter_windows {V} (m : gmap Z V) : StronglySorted Z.le (btree_iter m).*1 ∧ NoDup (btree_iter m).*1.
Proof.
  split.
  - apply (StronglySorted_fmap _ window_le); [done|]. apply StronglySorted_merge_sort; intros x y; unfold window_le; [intros z|]; lia.
  - unfold btree_iter. rewrite merge_sort_Permutation. apply NoDup_fst_map_to_list.
Qed.

Lemma elem_of_windows_of w l : w ∈ windows_of l ↔ ∃ r, r ∈ l ∧ r.1.1 = w.
Proof.
  unfold windows_of. rewrite merge_sort_Permutation, elem_of_remove_dups, list_elem_of_fmap. split; intros (r & ? & ?); exists r; auto.
Qed.

Lemma windows_of_sorted l : StronglySorted Z.le (windows_of l) ∧ NoDup (windows_of l).
Proof.
  split; [apply StronglySorted_merge_sort; intros x y; [intros z|]; lia|].
  unfold windows_of. rewrite merge_sort_Permutation. apply NoDup_remove_dups.
Qed.

(** The closed windows hold the recordings [l], each in its slot. *)
Definition closed_holds (hs : gmap SeriesKey Header) (closed : gmap Z (gmap SeriesKey Slot)) (l : list Rec) : Prop :=
  (∀ w k, closed !! w ≫= (.!! k) = (a ← agg_of (samples_at w k l); h ← hs !! k; Some (mk_slot h a))) ∧
  (∀ w, closed !! w ≠ Some ∅) ∧ (∀ r, r ∈ l → is_Some (hs !! r.1.2)).

Lemma closed_slot hs closed l w k : closed_holds hs closed l → is_Some (closed !! w ≫= (.!! k)) ↔ ∃ s, (w, k, s) ∈ l.
Proof.
  intros (Hc & _ & Hh). rewrite Hc. split.
  - intros [x Hx]. apply bind_Some in Hx as (a & Ha & _). destruct (samples_at w k l) as [|s ss] eqn:E; [done|].
    exists s. apply samples_at_elem. rewrite E. by left.
  - intros [s Hs]. destruct (Hh _ Hs) as [h Hk]. simpl in Hk. apply samples_at_elem in Hs.
    destruct (samples_at w k l); [by apply not_elem_of_nil in Hs|]. simpl. rewrite Hk. by eexists.
Qed.

Lemma closed_windows hs closed l : closed_holds hs closed l → (btree_iter closed).*1 = windows_of l.
Proof.
  intros Hc. destruct (btree_iter_windows closed) as [Hs Hd], (windows_of_sorted l) as [Hs' Hd'].
  apply (StronglySorted_unique Z.le); [done|done|]. apply NoDup_Permutation; [done|done|]. intros w. rewrite elem_of_windows_of. split.
  - intros [[w' m] [-> Hm%elem_of_btree_iter]]%list_elem_of_fmap. simpl.
    destruct (map_choose m) as (k & s & Hk); [intros ->; by apply (proj1 (proj2 Hc) w')|].
    destruct (proj1 (closed_slot _ _ _ w' k Hc)) as [x Hx]; [rewrite Hm; simpl; rewrite Hk; by eexists|]. by exists (w', k, x).
  - intros ([[w' k] s] & Hr & <-). simpl. destruct (proj2 (closed_slot _ _ _ w' k Hc) (ex_intro _ s Hr)) as [x Hx].
    apply bind_Some in Hx as (m & Hm & _). apply list_elem_of_fmap. exists (w', m). split; [done|]. by apply elem_of_btree_iter.
Qed.

Lemma closed_points hs closed l k : closed_holds hs closed l → slot_points k (flat closed) = points_of k l.
Proof.
  intros Hc. rewrite slot_points_flat. unfold points_of. rewrite <- (closed_windows _ _ _ Hc).
  assert (Hin : ∀ w m, (w, m) ∈ btree_iter closed → closed !! w = Some m) by (intros w m; apply elem_of_btree_iter).
  induction (btree_iter closed) as [|[w m] L IH]; [done|]. csimpl.
  rewrite IH by (intros w' m' Hm; apply Hin; by right). pose proof (proj1 Hc w k) as E. rewrite (Hin w m ltac:(by left)) in E. simpl in E.
  rewrite E. destruct (agg_of (samples_at w k l)) as [a|] eqn:Ea; simpl; [|done].
  assert (is_Some (hs !! k)) as [h ->]; [|done].
  destruct (samples_at w k l) as [|s ss] eqn:Es; [done|]. assert (Hs : (w, k, s) ∈ l) by (apply samples_at_elem; rewrite Es; by left).
  by apply (proj2 (proj2 Hc)) in Hs.
Qed.

Lemma elem_of_flat w k s closed : (w, (k, s)) ∈ flat closed ↔ closed !! w ≫= (.!! k) = Some s.
Proof.
  unfold flat. rewrite list_elem_of_bind. split.
  - intros ([w' m] & Hx & Hm%elem_of_btree_iter). apply list_elem_of_fmap in Hx as ([k' s'] & [= -> -> ->] & Hx). simpl in *.
    rewrite Hm. simpl. rewrite hash_iter_perm in Hx. by apply elem_of_map_to_list in Hx.
  - intros H. apply bind_Some in H as (m & Hm & Hk). exists (w, m). split; [|by apply elem_of_btree_iter].
    apply list_elem_of_fmap. exists (k, s). split; [done|]. simpl. rewrite hash_iter_perm. by apply elem_of_map_to_list.
Qed.

(** The first part of the batch. *)
Lemma group_windows_series hs closed l : closed_holds hs closed l →
  ∃ keys, NoDup keys ∧ (∀ k, k ∈ keys ↔ ∃ r, r ∈ l ∧ r.1.2 = k) ∧
    (group_windows cfg hs ord closed).1 = (λ k, series_with hs k (points_of k l)) <$> keys.
Proof.
  intros Hc. unfold group_windows. rewrite (foldl_flat (group_slot cfg hs)). fold (flat closed).
  assert (Hk : ∀ k, (∃ x, x ∈ flat closed ∧ x.2.1 = k) ↔ ∃ r, r ∈ l ∧ r.1.2 = k).
  { intros k. split.
    - intros ([w [k' s]] & Hx & <-). simpl. apply elem_of_flat in Hx.
      destruct (proj1 (closed_slot _ _ _ w k' Hc) (mk_is_Some _ _ Hx)) as [x Hin]. by exists (w, k', x).
    - intros ([[w k'] s] & Hr & <-). simpl. destruct (proj2 (closed_slot _ _ _ w k' Hc) (ex_intro _ s Hr)) as [x Hx].
      exists (w, (k', x)). split; [by apply elem_of_flat|done]. }
  destruct (grouped_all hs (flat closed)) as (keys & Hd & Hin & Hs & _).
  { intros x Hx. destruct (proj1 (Hk x.2.1)) as (r & Hr & <-); [by exists x|]. by apply (proj2 (proj2 Hc)). }
  exists keys. split; [done|]. split; [intros k; by rewrite Hin, Hk|]. rewrite Hs. apply list_fmap_ext. intros i k _.
  by rewrite (closed_points _ _ _ _ Hc).
Qed.

(** ** The exact samples *)
Lemma omap_cons_list {X Y} (f : X → option Y) x l : omap f (x :: l) = option_list (f x) ++ omap f l.
Proof. simpl. by destruct (f x). Qed.

Lemma add_high_step hs batch k h r xs : is_Some (hs !! k) → hr_resolution h = r → hr_keeps h (cap cfg) xs →
  (if has_high h then add_high cfg hs batch (k, h) else batch) =
  mk_batch (b_common_tags batch) (series batch ++ option_list (exact_series hs (k, (r, xs)))) (b_dropped batch ++ option_list (exact_dropped (k, (r, xs)))).
Proof.
  intros [hd Hh] <- (Hs & Hd & Hf & Ht). fold (kept xs) in Hs. fold (lost xs) in Hd, Hf, Ht.
  assert (Eh : hs !!! k = hd) by (by apply lookup_total_correct). unfold has_high, add_high, exact_series, exact_dropped. rewrite Hh, Eh, Hs, Hd.
  destruct (lost xs) as [|x ys] eqn:El.
  - simpl. rewrite app_nil_r. case_bool_decide as E; simpl; [rewrite decide_True, app_nil_r by done; by destruct batch|].
    by rewrite !decide_False.
  - assert (Hl : is_Some (last (x :: ys))) by (destruct (last (x :: ys)) eqn:E; [by eexists|by apply last_None in E]). destruct Hl as [z Hz].
    rewrite Hz. rewrite (Hf x eq_refl), (Ht z Hz). rewrite andb_false_r. simpl.
    case_decide; simpl; by rewrite ?app_nil_r.
Qed.

Definition with_exact (x : gmap SeriesKey (Z * list (Z * Sample))) (kh : SeriesKey * HighRes) := (kh.1, x !!! kh.1).

Lemma fold_high hs hr x n batch l : exact_ok cfg hs hr x n → (∀ kh, kh ∈ l → hr !! kh.1 = Some kh.2) →
  foldl (add_high cfg hs) batch (filter (λ kh, has_high kh.2) l) =
  mk_batch (b_common_tags batch) (series batch ++ omap (exact_series hs) (with_exact x <$> l)) (b_dropped batch ++ omap exact_dropped (with_exact x <$> l)).
Proof.
  intros Hx. revert batch. induction l as [|[k h] l IH]; intros batch Hin.
  { simpl. rewrite !app_nil_r. by destruct batch. }
  pose proof (Hin (k, h) ltac:(by left)) as Hk. simpl in Hk. pose proof (Hx k) as Hxk. rewrite Hk in Hxk.
  destruct (x !! k) as [[r xs]|] eqn:Ex; [|done]. destruct Hxk as (Er & Hkeep & _ & Hh & _). simpl in Er, Hkeep.
  assert (Ew : with_exact x (k, h) = (k, (r, xs))) by (unfold with_exact; simpl; by rewrite (lookup_total_correct _ _ _ Ex)).
  pose proof (add_high_step hs batch k h r xs Hh Er Hkeep) as Hstep.
  rewrite fmap_cons, Ew. rewrite filter_cons. cbn [snd].
  assert (E : foldl (add_high cfg hs) batch (if decide (has_high h) then (k, h) :: filter (λ kh, has_high kh.2) l else filter (λ kh, has_high kh.2) l) =
    foldl (add_high cfg hs) (if has_high h then add_high cfg hs batch (k, h) else batch) (filter (λ kh, has_high kh.2) l)).
  { by destruct (has_high h). }
  rewrite E, Hstep, IH by (intros kh Hkh; apply Hin; by right). rewrite !omap_cons_list.
  cbn [b_common_tags series b_dropped]. by rewrite !app_assoc.
Qed.

Lemma exact_perm hs hr x n : exact_ok cfg hs hr x n → with_exact x <$> hash_iter ord hr ≡ₚ map_to_list x.
Proof.
  intros Hx. rewrite (hash_iter_perm ord hr). apply NoDup_Permutation.
  - apply (NoDup_fmap_1 fst). rewrite <- list_fmap_compose. apply NoDup_fst_map_to_list.
  - apply NoDup_map_to_list.
  - intros [k rx]. rewrite elem_of_map_to_list, list_elem_of_fmap. pose proof (Hx k) as Hk. split.
    + intros ([k' h] & [= -> ->] & Hh%elem_of_map_to_list). simpl in *. rewrite Hh in Hk. destruct (x !! k') eqn:E; [|done].
      by rewrite (lookup_total_correct _ _ _ E).
    + intros E. rewrite E in Hk. destruct (hr !! k) as [h|] eqn:Eh; [|done]. exists (k, h). unfold with_exact. simpl.
      rewrite (lookup_total_correct _ _ _ E). split; [done|]. by apply elem_of_map_to_list.
Qed.
End drain.

(** ** The drain *)
Section drained.
Context (cfg : StatsConfig).

Lemma samples_at_filter w k (P : Rec → Prop) `{!∀ r, Decision (P r)} l : (∀ s, P (w, k, s)) → samples_at w k (filter P l) = samples_at w k l.
Proof.
  intros HP. induction l as [|[[w' k'] s] l IH]; [done|]. rewrite filter_cons. unfold samples_at in *. csimpl.
  destruct (decide ((w', k') = (w, k))) as [[= -> ->]|Hne]; [rewrite decide_True by done; csimpl; rewrite decide_True, IH; done|].
  case_decide; csimpl; [rewrite decide_False by done|]; done.
Qed.

Lemma samples_at_filter_not w k (P : Rec → Prop) `{!∀ r, Decision (P r)} l : (∀ s, ¬ P (w, k, s)) → samples_at w k (filter P l) = [].
Proof.
  intros HP. destruct (samples_at w k (filter P l)) as [|s ss] eqn:E; [done|]. exfalso.
  assert (Hs : (w, k, s) ∈ filter P l) by (apply samples_at_elem; rewrite E; by left). apply list_elem_of_filter in Hs as [Hs _]. by apply (HP s).
Qed.

Lemma slot_at_filter b A n (P : Rec → Prop) `{!∀ r, Decision (P r)} (Q : Z → Prop) `{!∀ w, Decision (Q w)} :
  represents cfg b A n → (∀ w k s, P (w, k, s) ↔ Q w) →
  closed_holds (a_headers A) (filter (λ wm, Q wm.1) (windows b)) (filter P (pending A)).
Proof.
  intros Hr HPQ. split; [|split].
  - intros w k. pose proof (rep_windows _ _ _ _ Hr w k) as Hw. unfold slot_at in Hw. destruct (decide (Q w)) as [Hq|Hq].
    + rewrite samples_at_filter by (intros s; by apply HPQ). rewrite <- Hw. destruct (windows b !! w) as [m|] eqn:E.
      * by rewrite (map_lookup_filter_Some_2 _ _ _ _ E).
      * by rewrite map_lookup_filter_None_2 by (by left).
    + rewrite samples_at_filter_not by (intros s; by rewrite HPQ). simpl.
      rewrite map_lookup_filter_None_2; [done|]. right. by intros m _.
  - intros w E. apply map_lookup_filter_Some in E as [E _]. by apply (rep_nonempty _ _ _ _ Hr w).
  - intros r Hin. apply list_elem_of_filter in Hin as [_ Hin]. destruct (rep_typed _ _ _ _ Hr r Hin) as (h & -> & _). by eexists.
Qed.

Lemma hr_drained_keeps h xs : hr_keeps h (cap cfg) xs → hr_resolution (hr_drained h) = hr_resolution h ∧ hr_keeps (hr_drained h) (cap cfg) [].
Proof.
  intros _. unfold hr_drained, has_high. case_bool_decide as E; simpl; [destruct (Z.eqb_spec (dropped h) 0) as [E'|]; simpl|]; (split; [done|]); by split.
Qed.

Lemma filter_all_true (l : list Rec) (P : Rec → Prop) `{!∀ r, Decision (P r)} : (∀ r, P r) → filter P l = l.
Proof. intros HP. induction l as [|r l IH]; [done|]. rewrite filter_cons, decide_True by done. by rewrite IH. Qed.

Lemma drain_represents b A n ord include_open now_ns : represents cfg b A n →
  let '(b', batch) := drain cfg ord include_open now_ns b in
  represents cfg b' (abs_drain cfg include_open now_ns A) n ∧ batch_of cfg (a_headers A) (taken cfg include_open now_ns A) (exact A) batch.
Proof.
  intros Hr. unfold drain. set (current := now_ns / resolution_ns cfg). rewrite (rep_headers _ _ _ _ Hr).
  set (closed := if include_open then windows b else _). set (open := if include_open then ∅ else _).
  assert (Hend : ∀ w k s, ended cfg include_open now_ns (w, k, s) ↔ (include_open = true ∨ w < current)).
  { intros w k s. unfold ended. simpl. fold current. destruct include_open; simpl; [naive_solver|]. rewrite Is_true_true, Z.ltb_lt. naive_solver. }
  assert (Hcl : closed_holds (a_headers A) closed (taken cfg include_open now_ns A)).
  { unfold taken. pose proof (slot_at_filter b A n (λ r, ended cfg include_open now_ns r) (λ w, include_open = true ∨ w < current) Hr Hend) as H.
    replace closed with (filter (λ wm, include_open = true ∨ wm.1 < current) (windows b)); [exact H|].
    unfold closed. destruct include_open; [apply map_filter_id; by left|]. apply map_filter_ext. naive_solver. }
  assert (Hop : closed_holds (a_headers A) open (filter (λ r, ¬ ended cfg include_open now_ns r) (pending A))).
  { pose proof (slot_at_filter b A n (λ r, ¬ ended cfg include_open now_ns r) (λ w, ¬ (include_open = true ∨ w < current)) Hr) as H.
    replace open with (filter (λ wm, ¬ (include_open = true ∨ wm.1 < current)) (windows b)); [apply H; intros w k s; by rewrite Hend|].
    unfold open. destruct include_open; [apply map_empty; intros w; apply map_lookup_filter_None_2; right; naive_solver|].
    apply map_filter_ext. naive_solver. }
  pose proof (rep_exact _ _ _ _ Hr) as Hx. split.
  - destruct Hr as [H1 H2 H3 H4 H5 H6 H7]. destruct Hop as (Ho1 & Ho2 & Ho3). constructor; simpl; try done.
    + intros r Hin. apply list_elem_of_filter in Hin as [_ Hin]. by apply H6.
    + intros k. rewrite !lookup_fmap. specialize (Hx k). destruct (high_res b !! k) as [h|], (exact A !! k) as [[r xs]|]; simpl; try done.
      destruct Hx as (E & Hk & _ & Hh & _). destruct (hr_drained_keeps h xs Hk) as [E' Hk']. rewrite E'.
      split; [done|]. split; [done|]. split; [lia|]. split; [done|]. by intros x Hin%not_elem_of_nil.
  - destruct (group_windows_series cfg ord _ _ _ Hcl) as (keys & Hd & Hk & Hs).
    rewrite (fold_high cfg _ _ _ n _ (hash_iter ord (high_res b)) Hx).
    2: { intros [k h] Hin. rewrite hash_iter_perm in Hin. by apply elem_of_map_to_list in Hin. }
    split; [done|]. exists keys, (with_exact (exact A) <$> hash_iter ord (high_res b)). simpl. rewrite Hs.
    split; [done|]. split; [done|]. split; [by eapply exact_perm|done].
Qed.
End drained.
