(* ===== verification/Stats.v ===== *)
(** * Runs of the recorder (stats/src/stats.rs)

    Any number of threads record, report totals, drain and flush; each step is one critical section of the book's lock, so a run is a list of steps.  A total takes
    two: between them the delta is in the hands of its thread.  What is recorded is handed on, once. *)

From stdpp Require Import strings sorting.
From S2P Require Import Prelude Tags Histogram Samples Book BookDrain.

Inductive Op :=
  | O_record (o : Observation)
  | O_total (name : string) (tags : list Tag) (total : Z)
  | O_total_ingest (i : nat) (now_ns : Z)
  | O_drain (ord : HashOrder) (include_open : bool) (now_ns : Z)
  | O_flush (ord : HashOrder) (sink include_open : bool) (now_ns : Z).

(** The book, the deltas computed and not recorded yet, the batches handed on. *)
Record Stats := mk_stats { book : Book; deltas : list (SeriesKey * Z); handed : list Batch }.

Section runs.
Context (cfg : StatsConfig).

Definition step (st : Stats) (op : Op) : option Stats :=
  match op with
  | O_record o => Some (mk_stats (record cfg o (book st)) (deltas st) (handed st))
  | O_total name tags total =>
      let key := series_key (common_tags cfg) name tags in
      let '(b, d) := total_insert key total (book st) in
      Some (mk_stats b (deltas st ++ option_list ((key,.) <$> d)) (handed st))
  | O_total_ingest i now_ns =>
      '(key, delta) ← deltas st !! i;
      Some (mk_stats (ingest cfg key K_Counter now_ns (S_Count delta) None (book st)) (delete i (deltas st)) (handed st))
  | O_drain ord include_open now_ns =>
      let '(b, batch) := drain cfg ord include_open now_ns (book st) in Some (mk_stats b (deltas st) (handed st ++ [batch]))
  | O_flush ord sink include_open now_ns =>
      let '(b, batch) := flush cfg ord sink include_open now_ns (book st) in Some (mk_stats b (deltas st) (handed st ++ option_list batch))
  end.

Definition run (st : Stats) (ops : list Op) : option Stats := foldl (λ st op, st ← st; step st op) (Some st) ops.

Definition init : Stats := mk_stats default_book [] [].

(** ** The abstract run: it keeps what each drain took, and the log of all recordings accepted. *)
Record Taken := mk_taken { t_headers : gmap SeriesKey Header; t_recs : list Rec; t_exact : gmap SeriesKey (Z * list (Z * Sample)) }.

Record AbsStats := mk_abs_stats { abs : Abs; takens : list Taken; log : list Rec }.

Definition abs_accept (key : SeriesKey) (kind : Kind) (at_ns : Z) (s : Sample) (res : option Z) (S : AbsStats) : AbsStats :=
  mk_abs_stats (abs_ingest cfg key kind at_ns s res (abs S)) (takens S)
    (log S ++ if verdict (a_headers (abs S)) key kind s then [] else [(at_ns / resolution_ns cfg, key, s)]).

Definition abs_take (include_open : bool) (now_ns : Z) (S : AbsStats) : AbsStats :=
  mk_abs_stats (abs_drain cfg include_open now_ns (abs S))
    (takens S ++ [mk_taken (a_headers (abs S)) (taken cfg include_open now_ns (abs S)) (exact (abs S))]) (log S).

Definition abs_total (key : SeriesKey) (total : Z) (A : Abs) : Abs :=
  mk_abs (a_headers A) (pending A) (exact A) (<[key := total]> (a_totals A)) (refusals A).

Definition nothing (t : Taken) : Prop := t_recs t = [] ∧ map_Forall (λ _ rx, rx.2 = []) (t_exact t).

(** The step of the abstract run, given the deltas of the concrete one. *)
Definition abs_step (ds : list (SeriesKey * Z)) (S : AbsStats) (op : Op) : AbsStats :=
  match op with
  | O_record o => abs_accept (series_key (common_tags cfg) (o_name o) (o_tags o)) (o_kind o) (o_at_ns o) (o_sample o) (o_resolution o) S
  | O_total name tags total => mk_abs_stats (abs_total (series_key (common_tags cfg) name tags) total (abs S)) (takens S) (log S)
  | O_total_ingest i now_ns =>
      match ds !! i with Some (key, delta) => abs_accept key K_Counter now_ns (S_Count delta) None S | None => S end
  | O_drain _ include_open now_ns => abs_take include_open now_ns S
  | O_flush _ sink include_open now_ns => if sink then abs_take include_open now_ns S else S
  end.

Inductive abs_runs : Stats → AbsStats → list Op → Stats → AbsStats → Prop :=
  | abs_runs_nil st S : abs_runs st S [] st S
  | abs_runs_snoc st S ops st' S' op st'' :
      abs_runs st S ops st' S' → step st' op = Some st'' → abs_runs st S (ops ++ [op]) st'' (abs_step (deltas st') S' op).

Definition abs_init : AbsStats := mk_abs_stats abs_empty [] [].

(** The batches handed on are those of the drains that took something: a flush of nothing hands on nothing. *)
Inductive hands : list Batch → list Taken → Prop :=
  | hands_nil : hands [] []
  | hands_batch bs ts batch t : hands bs ts → batch_of cfg (t_headers t) (t_recs t) (t_exact t) batch → hands (bs ++ [batch]) (ts ++ [t])
  | hands_nothing bs ts t : hands bs ts → nothing t → hands bs (ts ++ [t]).

(** What was taken fits the headers of its time, which the series keep. *)
Definition taken_typed (hs : gmap SeriesKey Header) (t : Taken) : Prop :=
  t_headers t ⊆ hs ∧ (∀ r, r ∈ t_recs t → well_typed (t_headers t) r) ∧
  ∀ k rx x, t_exact t !! k = Some rx → x ∈ rx.2 → typed_as (t_headers t) k x.2.

(** A key of a recording. *)
Definition is_key (k : SeriesKey) : Prop := ∃ name ts, k = series_key (common_tags cfg) name ts.

Record simulates (st : Stats) (S : AbsStats) (n : nat) : Prop := mk_simulates {
  sim_book : represents cfg (book st) (abs S) n;
  sim_handed : hands (handed st) (takens S);
  sim_log : log S ≡ₚ concat (t_recs <$> takens S) ++ pending (abs S);
  sim_typed : Forall (taken_typed (a_headers (abs S))) (takens S);
  sim_keys : Forall (λ r, is_key r.1.2) (log S) ∧ Forall (λ kd, is_key kd.1) (deltas st);
}.

Lemma represents_more b A n n' : represents cfg b A n → (n ≤ n')%nat → represents cfg b A n'.
Proof. intros [H1 H2 H3 H4 H5 H6 H7] Hn. constructor; try done. by eapply exact_ok_mono. Qed.

Lemma kept_nil xs : kept cfg xs = [] → xs = [].
Proof.
  unfold kept. intros E. apply (f_equal length) in E. rewrite length_drop in E. simpl in E.
  assert (1 ≤ cap cfg) by (unfold cap; lia). destruct xs as [|x xs]; [done|]. simpl in E. lia.
Qed.

Lemma empty_batch_nothing hs l x batch : batch_of cfg hs l x batch → batch_is_empty batch = true → nothing (mk_taken hs l x).
Proof.
  intros [_ (keys & xs & Hd & Hk & Hp & Hs & _)] He. unfold batch_is_empty in He. destruct (series batch) as [|] eqn:Es; [|done].
  symmetry in Hs. apply app_nil in Hs as [Hs1 Hs2]. apply fmap_nil_inv in Hs1. split; simpl.
  - destruct l as [|r l]; [done|]. exfalso. assert (Hin : r.1.2 ∈ keys) by (apply Hk; exists r; split; [by left|done]).
    rewrite Hs1 in Hin. by apply not_elem_of_nil in Hin.
  - intros k [r ys] Hkx. simpl. apply elem_of_map_to_list in Hkx. rewrite <- Hp in Hkx.
    assert (Ho : exact_series cfg hs (k, (r, ys)) = None).
    { destruct (exact_series cfg hs (k, (r, ys))) as [y|] eqn:E; [|done]. assert (Hy : y ∈ omap (exact_series cfg hs) xs) by (apply list_elem_of_omap; eauto).
      rewrite Hs2 in Hy. by apply not_elem_of_nil in Hy. }
    unfold exact_series in Ho. case_decide; [by apply kept_nil|done].
Qed.

Lemma verdict_log key kind at_ns s res A :
  pending (abs_ingest cfg key kind at_ns s res A) = pending A ++ if verdict (a_headers A) key kind s then [] else [(at_ns / resolution_ns cfg, key, s)].
Proof. unfold abs_ingest. destruct (verdict (a_headers A) key kind s); simpl; [by rewrite app_nil_r|done]. Qed.

Lemma taken_typed_mono hs hs' t : hs ⊆ hs' → taken_typed hs t → taken_typed hs' t.
Proof. intros Hs [Ht H]. split; [by etrans|done]. Qed.

Lemma abs_ingest_headers key kind at_ns s res A : a_headers A ⊆ a_headers (abs_ingest cfg key kind at_ns s res A).
Proof.
  unfold abs_ingest. destruct (verdict (a_headers A) key kind s); simpl; [done|]. apply map_subseteq_spec. intros k h. apply headed_mono.
Qed.

Lemma accept_simulates st S n key kind at_ns s res ds : simulates st S n → Z.of_nat n < U64 - 1 → is_key key → Forall (λ kd, is_key kd.1) ds →
  simulates (mk_stats (ingest cfg key kind at_ns s res (book st)) ds (handed st)) (abs_accept key kind at_ns s res S) (Datatypes.S n).
Proof.
  intros [H1 H2 H3 H4 [H5 H6]] Hn Hk Hds. constructor; simpl; [by apply ingest_represents|done| | |split; [|done]].
  - rewrite verdict_log, H3. by rewrite app_assoc.
  - eapply Forall_impl; [exact H4|]. intros t. apply taken_typed_mono, abs_ingest_headers.
  - apply Forall_app. split; [done|]. destruct (verdict _ _ _ _); [done|by apply Forall_singleton].
Qed.

Lemma take_typed b A n include_open now_ns : represents cfg b A n →
  taken_typed (a_headers A) (mk_taken (a_headers A) (taken cfg include_open now_ns A) (exact A)).
Proof.
  intros Hr. split; [done|]. split; simpl.
  - intros r Hin. unfold taken in Hin. apply list_elem_of_filter in Hin as [_ Hin]. by apply (rep_typed _ _ _ _ Hr).
  - intros k rx x Hx Hin. pose proof (rep_exact _ _ _ _ Hr k) as He. rewrite Hx in He. destruct (high_res b !! k); [|done].
    by apply He.
Qed.

Lemma filter_split {X} (P : X → Prop) `{!∀ x, Decision (P x)} l : l ≡ₚ filter P l ++ filter (λ x, ¬ P x) l.
Proof.
  induction l as [|x l IH]; [done|]. rewrite !filter_cons. destruct (decide (P x)).
  - rewrite decide_False by tauto. simpl. by f_equiv.
  - rewrite decide_True by done. rewrite <- Permutation_middle. by f_equiv.
Qed.

Lemma take_log include_open now_ns A : pending A ≡ₚ taken cfg include_open now_ns A ++ pending (abs_drain cfg include_open now_ns A).
Proof. unfold taken. simpl. apply filter_split. Qed.

Lemma take_simulates st S n ord io now bs : simulates st S n →
  let '(b, batch) := drain cfg ord io now (book st) in
  bs = [batch] ∨ bs = [] ∧ nothing (mk_taken (a_headers (abs S)) (taken cfg io now (abs S)) (exact (abs S))) →
  simulates (mk_stats b (deltas st) (handed st ++ bs)) (abs_take io now S) (Datatypes.S n).
Proof.
  intros [H1 H2 H3 H4 H5]. pose proof (drain_represents cfg (book st) (abs S) n ord io now H1) as Hd. destruct (drain _ _ _ _ _) as [b batch].
  destruct Hd as [Hb Hbo]. intros Hbs. constructor; simpl; try done.
  - eapply represents_more; [exact Hb|lia].
  - destruct Hbs as [->|[-> Hno]]; [by apply hands_batch|]. rewrite app_nil_r. by apply hands_nothing.
  - rewrite H3, fmap_app, concat_app. simpl. rewrite app_nil_r, <- app_assoc. f_equiv. apply take_log.
  - apply Forall_app. split; [exact H4|]. apply Forall_singleton. by eapply take_typed.
Qed.

Lemma step_simulates st S n op st' : simulates st S n → Z.of_nat n < U64 - 1 → step st op = Some st' →
  simulates st' (abs_step (deltas st) S op) (Datatypes.S n).
Proof.
  intros Hsim Hn Hst. pose proof (λ ord io now bs, take_simulates st S n ord io now bs Hsim) as Htake.
  destruct op as [o|name tags total|i now|ord io now|ord sink io now]; cbn beta iota delta [step] in Hst.
  - injection Hst as <-. apply accept_simulates; [done|done|by do 2 eexists|apply Hsim].
  - injection Hst as <-. pose proof Hsim as [H1 H2 H3 H4 [H5 H6]]. constructor; simpl; try done.
    + eapply represents_more; [exact (total_represents cfg _ _ n _ total H1)|lia].
    + split; [done|]. apply Forall_app. split; [done|]. destruct (totals (book st) !! _); simpl; [|done]. apply Forall_singleton. by do 2 eexists.
  - apply bind_Some in Hst as ([key delta] & Hi & [= <-]). simpl. rewrite Hi. pose proof (proj2 (sim_keys _ _ _ Hsim)) as Hds.
    apply accept_simulates; [done|done|by apply (Forall_lookup_1 _ _ _ _ Hds Hi)|by apply Forall_delete].
  - specialize (Htake ord io now). destruct (drain cfg ord io now (book st)) as [b batch]. injection Hst as <-. apply Htake. by left.
  - unfold flush in Hst. destruct sink.
    + specialize (Htake ord io now). pose proof (drain_represents cfg (book st) (abs S) n ord io now (sim_book _ _ _ Hsim)) as Hd.
      destruct (drain cfg ord io now (book st)) as [b batch]. injection Hst as <-. apply Htake.
      destruct (batch_is_empty batch) eqn:E; [right|by left]. split; [done|]. eapply empty_batch_nothing; [apply Hd|done].
    + injection Hst as <-. simpl. rewrite app_nil_r. destruct Hsim as [H1 H2 H3 H4 H5]. constructor; simpl; try done. eapply represents_more; [exact H1|lia].
Qed.

Lemma run_snoc st ops op : run st (ops ++ [op]) = (st' ← run st ops; step st' op).
Proof. unfold run. by rewrite foldl_app. Qed.

Lemma run_simulates ops st : Z.of_nat (length ops) < U64 → run init ops = Some st →
  ∃ S, abs_runs init abs_init ops st S ∧ simulates st S (length ops).
Proof.
  revert st. induction ops as [|op ops IH] using rev_ind; intros st Hl Hr.
  - injection Hr as <-. exists abs_init. split; [constructor|]. constructor; [apply empty_represents|constructor|done|apply Forall_nil_2|split; apply Forall_nil_2].
  - rewrite length_app in *. simpl in *. rewrite run_snoc in Hr. apply bind_Some in Hr as (st' & Hr & Hs).
    destruct (IH st') as (S & HS & Hsim); [lia|done|]. exists (abs_step (deltas st') S op). split; [by econstructor|].
    rewrite Nat.add_1_r. eapply step_simulates; [exact Hsim|lia|done].
Qed.
End runs.
