(* ===== verification/StatsProps.v ===== *)
(** * What the recorder guarantees (stats/src/stats.rs)

    What an aggregate says of the samples of its window; the types of what is stored and handed on; the outcome of a recording; that nothing recorded is lost or
    handed on twice. *)

From stdpp Require Import strings sorting.
From S2P Require Import Prelude Tags Histogram Samples Book BookDrain Stats.

(** ** Aggregates *)
Definition the_count (s : Sample) : option Z := match s with S_Count n => Some n | _ => None end.
Definition the_number (s : Sample) : option NumberValue := match s with S_Number v => Some v | _ => None end.
Definition the_state (s : Sample) : option StateValue := match s with S_State v => Some v | _ => None end.
Definition the_duration (s : Sample) : option Z := match s with S_Duration d => Some (Z.min u64_max d) | _ => None end.

(** The aggregate of samples of one kind: the sum (saturated), the last value, the histogram. *)
Definition meaning (kind : Kind) (ss : list Sample) : option Agg :=
  match kind with
  | K_Counter => Some (A_Count (Z.min u64_max (sum (omap the_count ss))))
  | K_Gauge => A_Number <$> last (omap the_number ss)
  | K_State => A_State <$> last (omap the_state ss)
  | K_Timer => Some (A_Hist (durations (omap the_duration ss)))
  end.

(** An aggregate of a series with the header [h]. *)
Definition agg_fits (h : Header) (a : Agg) : Prop :=
  match h_kind h, a with
  | K_Counter, A_Count _ => h_encoding h = E_Count
  | K_Gauge, A_Number v => h_encoding h = number_encoding v
  | K_State, A_State _ => h_encoding h = E_State
  | K_Timer, A_Hist _ => h_encoding h = E_Histogram
  | _, _ => False
  end.

Definition sample_fits (h : Header) (s : Sample) : Prop := fits s (h_kind h) = true ∧ sample_encoding s = h_encoding h.

Lemma agg_of_fits h ss : Forall (sample_fits h) ss → ∀ a, agg_of ss = Some a → agg_fits h a.
Proof.
  destruct ss as [|s ss]; [done|]. simpl. intros [[Hf He] Hss]%Forall_cons a [= <-].
  assert (Ha : agg_fits h (start s)) by (destruct h as [[] e], s; simpl in *; (done || by subst)).
  revert Ha. generalize (start s). clear Hf He. induction Hss as [|x ss [Hf He] Hss IH]; intros a Ha; simpl; [done|]. apply IH.
  destruct h as [[] e], x, a; simpl in *; (done || by subst).
Qed.

Lemma sum_snoc xs x : sum (xs ++ [x]) = sum xs + x.
Proof. rewrite sum_app. simpl. lia. Qed.

(** The counts are [u64]s. *)
Definition count_ok (s : Sample) : Prop := ∀ n, the_count s = Some n → is_u64 n.

Lemma counts_nonneg ss : Forall count_ok ss → 0 ≤ sum (omap the_count ss).
Proof.
  induction 1 as [|s ss Hs Hss IH]; [done|]. rewrite omap_cons_list. rewrite sum_app. destruct (the_count s) as [n|] eqn:E; simpl; [|lia].
  specialize (Hs n E). u64_lia.
Qed.

Lemma omap_snoc {X Y} (f : X → option Y) l x : omap f (l ++ [x]) = omap f l ++ option_list (f x).
Proof. rewrite omap_app. simpl. by destruct (f x). Qed.

Lemma agg_meaning_first kind s : fits s kind = true → count_ok s → agg_of [s] = meaning kind [s].
Proof.
  intros Hf Hc. destruct kind, s as [n|v|v|d]; try done. simpl. specialize (Hc n eq_refl). do 2 f_equal. u64_lia.
Qed.

Lemma agg_meaning_more kind ss s a : fits s kind = true → count_ok s → 0 ≤ sum (omap the_count ss) →
  meaning kind ss = Some a → Some (absorb a s) = meaning kind (ss ++ [s]).
Proof.
  intros Hf Hc Hs Ha. destruct kind, s as [n|v|v|d]; try done; unfold meaning in *; rewrite omap_snoc; cbn [the_count the_number the_state the_duration option_list].
  - injection Ha as <-. simpl. rewrite sum_snoc. specialize (Hc n eq_refl). do 2 f_equal. unfold sat_add. u64_lia.
  - change (option_list (Some v)) with [v]. rewrite last_snoc. destruct (last (omap the_number ss)); [|done]. by injection Ha as <-.
  - injection Ha as <-. unfold durations. change (option_list (Some (Z.min u64_max d))) with [Z.min u64_max d]. by rewrite foldl_snoc.
  - change (option_list (Some v)) with [v]. rewrite last_snoc. destruct (last (omap the_state ss)); [|done]. by injection Ha as <-.
Qed.

Lemma agg_means kind ss : ss ≠ [] → Forall (λ s, fits s kind = true) ss → Forall count_ok ss → agg_of ss = meaning kind ss.
Proof.
  induction ss as [|s ss IH] using rev_ind; [done|]. intros _ [Hf Hfs%Forall_inv]%Forall_app [Hc Hcs%Forall_inv]%Forall_app.
  destruct (decide (ss = [])) as [->|Hne]; [by apply agg_meaning_first|]. specialize (IH Hne Hf Hc). rewrite agg_of_snoc.
  destruct ss as [|x ss]; [done|]. apply agg_meaning_more; [done|done|by apply counts_nonneg|done].
Qed.

(** ** Points *)

(** The points of a series that aggregates. *)
Definition points_view (p : Points) : list (Z * Agg) :=
  match p with
  | Counts v => (λ x, (x.1, A_Count x.2)) <$> v
  | Numbers v => (λ x, (x.1, A_Number x.2)) <$> v
  | States v => (λ x, (x.1, A_State x.2)) <$> v
  | Histograms v => (λ x, (x.1, A_Hist x.2)) <$> v
  | Samples _ => []
  end.

Definition same_points (kind : Kind) (p : Points) : Prop :=
  match kind, p with
  | K_Counter, Counts _ | K_Gauge, Numbers _ | K_State, States _ | K_Timer, Histograms _ => True
  | _, _ => False
  end.

Lemma push_points_view h l p : same_points (h_kind h) p → Forall (λ x, agg_fits h x.2) l →
  points_view (push_points p l) = points_view p ++ l ∧ same_points (h_kind h) (push_points p l).
Proof.
  intros Hp Hl. revert p Hp. induction Hl as [|[t a] l Ha Hl IH]; intros p Hp; [by rewrite app_nil_r|].
  change (push_points p ((t, a) :: l)) with (push_points (push_point p t a) l).
  assert (points_view (push_point p t a) = points_view p ++ [(t, a)] ∧ same_points (h_kind h) (push_point p t a)) as [Ev Es].
  { destruct h as [[] e], p, a; try done; simpl; by rewrite fmap_app. }
  destruct (IH _ Es) as [-> Hs]. split; [|done]. by rewrite Ev, <- app_assoc.
Qed.

(** The points handed on for a series: of its kind and encoding, at least one, and in time order unless they are exact samples. *)
Definition points_typed (s : SeriesBatch) : Prop :=
  let h := mk_header (s_kind s) (s_encoding s) in
  match points s with
  | Samples v => v ≠ [] ∧ Forall (λ x, sample_fits h x.2) v
  | p => same_points (s_kind s) p ∧ points_view p ≠ [] ∧ Forall (λ x, agg_fits h x.2) (points_view p) ∧ StronglySorted Z.le (points_view p).*1
  end.

Section props.
Context (cfg : StatsConfig).

Lemma samples_fit hs h w k l : (∀ r, r ∈ l → well_typed hs r) → hs !! k = Some h → Forall (sample_fits h) (samples_at w k l).
Proof.
  intros Ht Hh. apply Forall_forall. intros s Hs%samples_at_elem. destruct (Ht _ Hs) as (h' & Hh' & Hf & He). simpl in *.
  assert (h' = h) as -> by congruence. by split.
Qed.

Lemma points_of_fit hs h k l : (∀ r, r ∈ l → well_typed hs r) → hs !! k = Some h → Forall (λ x, agg_fits h x.2) (points_of cfg k l).
Proof.
  intros Ht Hh. apply Forall_forall. intros [t a] Hx. unfold points_of in Hx. apply list_elem_of_omap in Hx as (w & _ & Hx).
  apply fmap_Some in Hx as (a' & Ha & [= _ ->]). simpl. eapply agg_of_fits; [by eapply samples_fit|exact Ha].
Qed.

Lemma points_of_sorted k l : StronglySorted Z.le (points_of cfg k l).*1.
Proof.
  unfold points_of. pose proof (proj1 (windows_of_sorted l)) as Hs. induction Hs as [|w ws Hs IH Hw]; [constructor|].
  rewrite omap_cons_list. destruct (agg_of (samples_at w k l)) as [a|]; [|exact IH]. simpl. constructor; [exact IH|].
  apply Forall_fmap, Forall_forall. intros [t a'] Hx. apply list_elem_of_omap in Hx as (w' & Hw' & Hx). apply fmap_Some in Hx as (a'' & _ & [= -> _]).
  rewrite Forall_forall in Hw. specialize (Hw w' Hw'). simpl. unfold window_start.
  assert (1 ≤ resolution_ns cfg) by (unfold resolution_ns; lia). nia.
Qed.

Lemma elem_of_points_of k l w s : (w, k, s) ∈ l → ∃ a, (window_start cfg w, a) ∈ points_of cfg k l.
Proof.
  intros Hin. assert (Hs : samples_at w k l ≠ []) by (apply samples_at_elem in Hin; by destruct (samples_at w k l); [apply not_elem_of_nil in Hin|]).
  destruct (agg_of (samples_at w k l)) as [a|] eqn:Ea; [|by apply agg_of_None in Ea]. exists a. unfold points_of. apply list_elem_of_omap.
  exists w. split; [apply elem_of_windows_of; by exists (w, k, s)|by rewrite Ea].
Qed.

Lemma hands_elem bs ts batch : hands cfg bs ts → batch ∈ bs → ∃ t, t ∈ ts ∧ batch_of cfg (t_headers t) (t_recs t) (t_exact t) batch.
Proof.
  induction 1 as [|bs ts b t Hh IH Hb|bs ts t Hh IH Hn]; [by intros ?%not_elem_of_nil| |].
  - rewrite elem_of_app, list_elem_of_singleton. intros [Hin| ->]; [destruct (IH Hin) as (t' & ? & ?)|]; [exists t'|exists t]; (split; [set_solver|done]).
  - intros Hin. destruct (IH Hin) as (t' & ? & ?). exists t'. split; [set_solver|done].
Qed.

(** The series of a batch. *)
Lemma series_of_batch hs t batch s : taken_typed hs t → batch_of cfg (t_headers t) (t_recs t) (t_exact t) batch → s ∈ series batch → points_typed s.
Proof.
  intros (_ & Ht & Hx) [_ (keys & xs & _ & Hk & Hp & Hs & _)] Hin. rewrite Hs in Hin. apply elem_of_app in Hin as [Hin|Hin].
  - apply list_elem_of_fmap in Hin as (k & -> & Hkey). apply Hk in Hkey as ([[w k'] x] & Hr & <-). simpl.
    destruct (Ht _ Hr) as (h & Hh & _). simpl in Hh. unfold points_typed, series_with. simpl. rewrite (lookup_total_correct _ _ _ Hh).
    replace (mk_header (h_kind h) (h_encoding h)) with h by (by destruct h).
    pose proof (points_of_fit _ _ _ _ Ht Hh) as Hfit.
    destruct (push_points_view h (points_of cfg k' (t_recs t)) (empty_points (h_kind h))) as [Hv Hsm]; [by destruct (h_kind h)|done|].
    replace (points_view (empty_points (h_kind h))) with (@nil (Z * Agg)) in Hv by (by destruct (h_kind h)). simpl in Hv.
    destruct (elem_of_points_of _ _ _ _ Hr) as (a & Ha).
    assert (Hne : points_of cfg k' (t_recs t) ≠ []) by (intros E; rewrite E in Ha; by apply not_elem_of_nil in Ha).
    pose proof (points_of_sorted k' (t_recs t)) as Hsrt. rewrite <- Hv in Hfit, Hne, Hsrt.
    destruct (push_points _ _) eqn:Ep; try done.
  - apply list_elem_of_omap in Hin as ([k [r ys]] & Hkx & Hs'). rewrite Hp in Hkx. apply elem_of_map_to_list in Hkx.
    unfold exact_series in Hs'. case_decide as Hne; [done|]. injection Hs' as <-. unfold points_typed. simpl. split; [done|].
    apply Forall_forall. intros x Hx'. assert (Hy : x ∈ ys) by (rewrite <- (take_drop (length ys - Z.to_nat (cap cfg)) ys); apply elem_of_app; by right).
    destruct (Hx _ _ _ Hkx Hy) as (h & Hh & Hf & He). rewrite (lookup_total_correct _ _ _ Hh). by split.
Qed.

(** ** Counters *)

(** What is recorded of the counter [k] in a list of recordings. *)
Definition counted (k : SeriesKey) (l : list Rec) : Z := sum (omap (λ r, if decide (r.1.2 = k) then the_count r.2 else None) l).

(** What a batch says of the counter [k]: the sum of the points of the series with its name and its own tags. *)
Definition point_sum (p : Points) : Z := match p with Counts v => sum (v.*2) | _ => 0 end.
Definition delivered (k : SeriesKey) (batch : Batch) : Z :=
  sum ((λ s, point_sum (points s)) <$>
    filter (λ s, s_name s = key_name k ∧ s_tags s = strip_common (key_tags k) (common_tags cfg)) (series batch)).

Lemma sum_perm_app xs ys zs : xs ≡ₚ ys ++ zs → sum xs = sum ys + sum zs.
Proof. intros Hp. by rewrite (sum_perm _ _ Hp), sum_app. Qed.

Lemma counted_app k l l' : counted k (l ++ l') = counted k l + counted k l'.
Proof. unfold counted. by rewrite omap_app, sum_app. Qed.

Lemma counted_perm k l l' : l ≡ₚ l' → counted k l = counted k l'.
Proof. intros Hp. unfold counted. apply sum_perm. by rewrite Hp. Qed.

Lemma counted_none k l : (∀ r, r ∈ l → r.1.2 ≠ k) → counted k l = 0.
Proof.
  induction l as [|r l IH]; intros Hl; [done|]. change (r :: l) with ([r] ++ l). rewrite counted_app, IH by (intros; apply Hl; by right).
  unfold counted. simpl. rewrite decide_False; [done|]. apply Hl. by left.
Qed.

Definition rec_ok (r : Rec) : Prop := count_ok r.2.

Lemma counted_nonneg k l : Forall rec_ok l → 0 ≤ counted k l.
Proof.
  induction 1 as [|r l Hr Hl IH]; [done|]. change (r :: l) with ([r] ++ l). rewrite counted_app. unfold counted at 1. simpl.
  case_decide; simpl; [|lia]. destruct (the_count r.2) as [n|] eqn:E; simpl; [|lia]. specialize (Hr n E). u64_lia.
Qed.

(** The windows of a list of recordings split what it counts. *)
Lemma counted_windows k l ws : NoDup ws → (∀ r, r ∈ l → r.1.1 ∈ ws) →
  counted k l = sum ((λ w, sum (omap the_count (samples_at w k l))) <$> ws).
Proof.
  revert l. induction ws as [|w ws IH]; intros l Hd Hin.
  { destruct l as [|r l]; [done|]. specialize (Hin r ltac:(by left)). by apply not_elem_of_nil in Hin. }
  apply NoDup_cons in Hd as [Hw Hd]. rewrite (counted_perm k l _ (filter_split (λ r, r.1.1 = w) l)), counted_app.
  rewrite (IH (filter (λ r, ¬ r.1.1 = w) l) Hd).
  2: { intros r [Hr Hl]%list_elem_of_filter. specialize (Hin r Hl). apply elem_of_cons in Hin as [|]; [done|done]. }
  rewrite fmap_cons. simpl. f_equal.
  - clear. induction l as [|[[w' k'] s] l IH]; [done|]. rewrite filter_cons. unfold samples_at in *. csimpl. destruct (decide (w' = w)) as [->|Hne].
    + unfold counted in *. csimpl. destruct (decide (k' = k)) as [->|Hk]; [rewrite decide_True by done|by rewrite decide_False by congruence].
      csimpl. destruct (the_count s); simpl; by rewrite IH.
    + by rewrite (decide_False (P := (w', k') = (w, k))) by congruence.
  - f_equal. apply list_fmap_ext. intros i w' Hw'. do 2 f_equal. apply samples_at_filter. intros s. simpl. intros ->. apply Hw. by eapply list_elem_of_lookup_2.
Qed.

Lemma point_sum_push h l p : h_kind h = K_Counter → same_points K_Counter p → Forall (λ x, agg_fits h x.2) l →
  point_sum (push_points p l) = point_sum p + sum ((λ x, match x.2 with A_Count n => n | _ => 0 end) <$> l).
Proof.
  intros Hh Hp Hl. revert p Hp. induction Hl as [|[t a] l Ha Hl IH]; intros p Hp; [simpl; lia|].
  change (push_points p ((t, a) :: l)) with (push_points (push_point p t a) l). destruct h as [hk e]. simpl in Hh. subst hk.
  destruct p, a; try done. rewrite IH by done. cbn [push_point point_sum]. rewrite fmap_app, sum_app. csimpl. lia.
Qed.

Lemma sum_elem_le x xs : Forall (Z.le 0) xs → x ∈ xs → 0 ≤ x ≤ sum xs.
Proof.
  induction 1 as [|y ys Hy Hys IH]; [by intros ?%not_elem_of_nil|]. simpl.
  assert (0 ≤ sum ys) by (clear IH; induction Hys; simpl in *; lia). intros [->|Hin]%elem_of_cons; [lia|]. specialize (IH Hin). lia.
Qed.

Lemma counted_window_le w k l : Forall rec_ok l → 0 ≤ sum (omap the_count (samples_at w k l)) ≤ counted k l.
Proof.
  intros Hok. assert (Hnn : ∀ w', Z.le 0 (sum (omap the_count (samples_at w' k l)))).
  { intros w'. apply counts_nonneg, Forall_forall. intros s Hs%samples_at_elem. rewrite Forall_forall in Hok. by apply (Hok _ Hs). }
  split; [apply Hnn|]. destruct (decide (w ∈ windows_of l)) as [Hw|Hw].
  - rewrite (counted_windows k l (windows_of l)); [|apply windows_of_sorted|intros r Hr; apply elem_of_windows_of; eauto].
    apply sum_elem_le; [apply Forall_fmap, Forall_true; intros w'; apply Hnn|]. apply list_elem_of_fmap. by exists w.
  - replace (samples_at w k l) with (@nil Sample); [by apply counted_nonneg|]. symmetry. destruct (samples_at w k l) as [|s ss] eqn:E; [done|].
    exfalso. apply Hw, elem_of_windows_of. exists (w, k, s). split; [|done]. apply samples_at_elem. rewrite E. by left.
Qed.

(** The points of a counter add up to what is recorded of it, unless a sum exceeds [u64]. *)
Lemma counter_points hs h k l : (∀ r, r ∈ l → well_typed hs r) → hs !! k = Some h → h_kind h = K_Counter → Forall rec_ok l → counted k l ≤ u64_max →
  point_sum (push_points (empty_points (h_kind h)) (points_of cfg k l)) = counted k l.
Proof.
  intros Ht Hh Hk Hok Hmax. rewrite (point_sum_push h) by (rewrite ?Hk; done || by eapply points_of_fit). rewrite Hk. simpl. rewrite Z.add_0_l.
  rewrite (counted_windows k l (windows_of l)); [|apply windows_of_sorted|intros r Hr; apply elem_of_windows_of; eauto].
  unfold points_of. induction (windows_of l) as [|w ws IH]; [done|]. rewrite omap_cons_list, fmap_app, sum_app, IH, fmap_cons. simpl. f_equal.
  pose proof (samples_fit _ _ w k _ Ht Hh) as Hf. pose proof (counted_window_le w k l Hok) as Hw.
  destruct (decide (samples_at w k l = [])) as [->|Hne]; [done|]. rewrite (agg_means K_Counter); [simpl; lia|done| |].
  - eapply Forall_impl; [exact Hf|]. intros s [Hs _]. by rewrite <- Hk.
  - apply Forall_forall. intros s Hs%samples_at_elem. rewrite Forall_forall in Hok. by apply (Hok _ Hs).
Qed.

Lemma key_from_series k k' : NoDup (tag_name <$> common_tags cfg) → is_key cfg k → is_key cfg k' → key_name k = key_name k' →
  strip_common (key_tags k) (common_tags cfg) = strip_common (key_tags k') (common_tags cfg) → k = k'.
Proof.
  intros Hd (n & ts & ->) (n' & ts' & ->) Hn Hs. rewrite !series_key_tags in Hs.
  pose proof (rejoin_tags (common_tags cfg) ts Hd) as E. pose proof (rejoin_tags (common_tags cfg) ts' Hd) as E'. rewrite Hs in E.
  pose proof (eq_trans (eq_sym E) E') as Et. rewrite <- !(series_key_tags _ "x") in Et. simpl in *. unfold series_key. by rewrite Hn, Et.
Qed.

Lemma sum_cons x xs : sum (x :: xs) = x + sum xs.
Proof. done. Qed.

Lemma sum_zeros {X} (f : X → Z) l : (∀ x, x ∈ l → f x = 0) → sum (f <$> l) = 0.
Proof. induction l as [|x l IH]; intros Hf; [done|]. csimpl. rewrite (Hf x) by (by left). rewrite IH; [done|]. intros y Hy. apply Hf. by right. Qed.

(** A batch delivers what was taken for it. *)
Lemma batch_delivers hs t batch k : NoDup (tag_name <$> common_tags cfg) → taken_typed hs t → batch_of cfg (t_headers t) (t_recs t) (t_exact t) batch →
  Forall (λ r, is_key cfg r.1.2) (t_recs t) → is_key cfg k → (∀ h, hs !! k = Some h → h_kind h = K_Counter) →
  Forall rec_ok (t_recs t) → counted k (t_recs t) ≤ u64_max → delivered k batch = counted k (t_recs t).
Proof.
  intros Hd (Hsub & Ht & _) [_ (keys & xs & Hdk & Hk & _ & Hs & _)] Hkeys Hkey Hc Hok Hmax.
  unfold delivered. rewrite Hs, filter_app, fmap_app, sum_app.
  rewrite (sum_zeros _ (filter _ (omap _ _))).
  2: { intros s [_ Hin]%list_elem_of_filter. apply list_elem_of_omap in Hin as ([k' [r ys]] & _ & Hx). unfold exact_series in Hx. case_decide; [done|].
    by injection Hx as <-. }
  rewrite Z.add_0_r. set (P := λ s, s_name s = key_name k ∧ s_tags s = strip_common (key_tags k) (common_tags cfg)).
  assert (Hsel : ∀ k', k' ∈ keys → P (series_with cfg (t_headers t) k' (points_of cfg k' (t_recs t))) → k' = k).
  { intros k' Hin [Hn Htg]. simpl in Hn, Htg. apply Hk in Hin as (r & Hr & <-). rewrite Forall_forall in Hkeys. by apply key_from_series; [|apply Hkeys| | |]. }
  destruct (decide (k ∈ keys)) as [Hin|Hnin].
  - apply Hk in Hin as Hr. destruct Hr as (r & Hr & Er). destruct (Ht _ Hr) as (h & Hh & _). rewrite Er in Hh.
    assert (Hkind : h_kind h = K_Counter) by (eapply Hc, lookup_weaken; done).
    apply list_elem_of_split in Hin as (k1 & k2 & ->). apply NoDup_app in Hdk as (_ & Hn1 & Hn2). apply NoDup_cons in Hn2 as [Hn2 _].
    rewrite fmap_app, fmap_cons, filter_app, filter_cons, decide_True by done.
    rewrite fmap_app, fmap_cons, sum_app, sum_cons. rewrite (sum_zeros _ (filter P (_ <$> k1))), (sum_zeros _ (filter P (_ <$> k2))).
    2-3: intros s [HP Hin]%list_elem_of_filter; apply list_elem_of_fmap in Hin as (k' & -> & Hin); exfalso;
      (assert (k' = k) as -> by (apply Hsel; [set_solver|done])); set_solver.
    rewrite Z.add_0_r, Z.add_0_l. unfold series_with at 1. cbn [points]. rewrite (lookup_total_correct _ _ _ Hh).
    by eapply counter_points.
  - rewrite counted_none by (intros r Hr <-; apply Hnin, Hk; eauto). apply sum_zeros. intros s [HP Hin]%list_elem_of_filter.
    apply list_elem_of_fmap in Hin as (k' & -> & Hin). exfalso. by rewrite (Hsel k' Hin HP) in Hin.
Qed.

Lemma hands_delivers hs bs ts k : NoDup (tag_name <$> common_tags cfg) → hands cfg bs ts → Forall (taken_typed hs) ts →
  Forall (λ t, Forall (λ r, is_key cfg r.1.2) (t_recs t) ∧ Forall rec_ok (t_recs t) ∧ counted k (t_recs t) ≤ u64_max) ts →
  is_key cfg k → (∀ h, hs !! k = Some h → h_kind h = K_Counter) →
  sum (delivered k <$> bs) = counted k (concat (t_recs <$> ts)).
Proof.
  intros Hd Hh Ht Hr Hkey Hc. induction Hh as [|bs ts b t Hh IH Hb|bs ts t Hh IH [Hn _]]; [done| |];
    apply Forall_app in Ht as [Ht Ht'%Forall_inv], Hr as [Hr Hr'%Forall_inv]; rewrite !fmap_app, concat_app, counted_app.
  - rewrite sum_app, IH by done. f_equal. simpl. rewrite app_nil_r, Z.add_0_r. destruct Hr' as (? & ? & ?). by eapply batch_delivers.
  - rewrite IH by done. simpl. rewrite Hn. simpl. unfold counted at 3. simpl. lia.
Qed.

(** ** The numbers of a run are [u64]s *)
Definition op_ok (op : Op) : Prop :=
  match op with O_record o => count_ok (o_sample o) | O_total _ _ total => is_u64 total | _ => True end.

Lemma log_ok ops st S : abs_runs cfg init abs_init ops st S → Forall op_ok ops →
  Forall rec_ok (log S) ∧ Forall (λ kd, is_u64 kd.2) (deltas st) ∧ map_Forall (λ _ t, is_u64 t) (totals (book st)).
Proof.
  assert (Htot : ∀ key kind at_ns s res b, totals (ingest cfg key kind at_ns s res b) = totals b).
  { intros. unfold ingest, keep_high_res. by repeat (case_match || case_decide). }
  intros Hr. remember init as st0 eqn:E0. remember abs_init as S0 eqn:ES0. induction Hr as [|st S ops st' S' op st'' Hr IH Hst]; intros Hok; subst; [done|].
  apply Forall_app in Hok as [Hok Hop%Forall_inv]. destruct (IH eq_refl eq_refl Hok) as (H1 & H2 & H3).
  assert (Hacc : ∀ key kind at_ns s res, count_ok s → Forall rec_ok (log (abs_accept cfg key kind at_ns s res S'))).
  { intros key kind at_ns s res Hs. simpl. apply Forall_app. split; [done|]. destruct (verdict _ _ _ _); [done|by apply Forall_singleton]. }
  destruct op as [o|name tags total|i now|ord io now|ord sink io now]; cbn beta iota delta [step] in Hst.
  - injection Hst as <-. simpl. unfold record. rewrite Htot. split; [by apply (Hacc _ _ _ _ None)|done].
  - injection Hst as <-. simpl in *. split; [done|]. split.
    + apply Forall_app. split; [done|]. destruct (totals (book st') !! _) as [p|] eqn:Ep; simpl; [|done]. apply Forall_singleton. simpl.
      specialize (H3 _ _ Ep). simpl in H3. destruct (Z.leb_spec p total); [u64_lia|done].
    + by apply map_Forall_insert_2.
  - apply bind_Some in Hst as ([key delta] & Hi & [= <-]). simpl. rewrite Hi, Htot. pose proof (Forall_lookup_1 _ _ _ _ H2 Hi) as Hu. simpl in Hu.
    split; [apply (Hacc _ _ _ _ None); by intros n [= <-]|]. split; [by apply Forall_delete|done].
  - unfold drain in Hst. injection Hst as <-. done.
  - unfold flush, drain in Hst. destruct sink; injection Hst as <-; done.
Qed.
End props.

(** ** What makes it correct *)
Section statements.
Context (cfg : StatsConfig).

Lemma sum_nonneg_all xs : Forall (Z.le 0) xs → 0 ≤ sum xs.
Proof. induction 1; simpl in *; lia. Qed.

(** C8: Every recording accepted is handed on in exactly one point of exactly one batch, or is still in the book.  For any interleaving of recordings, totals, drains
    and flushes, the book and the batches handed on are those of a recorder that keeps a list: the recordings accepted are, rearranged, those taken by the
    drains and those pending; the book holds the aggregates of the pending ones ([represents]); each batch handed on has, for each series taken, one point for each
    of its windows, in ascending order, the aggregate of its samples, and the latest exact samples with the number and times of those lost ([batch_of]). *)
Theorem stats_refines ops st : Z.of_nat (length ops) < U64 → run cfg init ops = Some st →
  ∃ S, abs_runs cfg init abs_init ops st S ∧ represents cfg (book st) (abs S) (length ops) ∧ hands cfg (handed st) (takens S) ∧
    log S ≡ₚ concat (t_recs <$> takens S) ++ pending (abs S).
Proof.
  intros Hl Hr. destruct (run_simulates cfg ops st Hl Hr) as (S & HS & Hsim). exists S. split; [done|]. split; [apply Hsim|]. split; apply Hsim.
Qed.

(** C9: A counter loses nothing: the points delivered under its name and tags add up, with what is pending, to what was recorded of it, as long as that is a [u64] and
    the common tags do not repeat a name. *)
Theorem stats_counters_conserved ops st : NoDup (tag_name <$> common_tags cfg) → Z.of_nat (length ops) < U64 → Forall op_ok ops → run cfg init ops = Some st →
  ∃ S, abs_runs cfg init abs_init ops st S ∧ ∀ k, is_key cfg k → (∀ h, headers (book st) !! k = Some h → h_kind h = K_Counter) →
    counted k (log S) ≤ u64_max → sum (delivered cfg k <$> handed st) + counted k (pending (abs S)) = counted k (log S).
Proof.
  intros Hd Hl Hok Hr. destruct (run_simulates cfg ops st Hl Hr) as (S & HS & Hsim). exists S. split; [done|]. intros k Hkey Hc Hmax.
  destruct (log_ok cfg ops st S HS Hok) as (Hlog & _ & _). destruct Hsim as [H1 H2 H3 H4 [H5 _]]. rewrite (rep_headers _ _ _ _ H1) in Hc.
  rewrite (counted_perm k _ _ H3), counted_app in Hmax |- *. f_equal. rewrite H3 in Hlog, H5.
  apply Forall_app in Hlog as [Hlog Hpend], H5 as [H5 _]. pose proof (counted_nonneg k _ Hpend).
  eapply hands_delivers; [done|exact H2|exact H4| |done|done]. apply Forall_forall. intros t Ht.
  apply list_elem_of_split in Ht as (l1 & l2 & E). rewrite E, fmap_app, fmap_cons, concat_app in Hlog, H5, Hmax. simpl in Hlog, H5, Hmax.
  rewrite !counted_app in Hmax. apply Forall_app in Hlog as [Hl1 Hl2], H5 as [_ H5]. apply Forall_app in Hl2 as [Hl2 Hl3], H5 as [H5 _].
  pose proof (counted_nonneg k _ Hl1). pose proof (counted_nonneg k _ Hl3). split; [done|]. split; [done|]. lia.
Qed.

(** C21: What is stored and handed on is well typed: every slot of the book has the header of its series and an aggregate of that kind and encoding (so [absorb] never meets
    another), and every series handed on has points of its kind and encoding (so none is dropped on the way), at least one; the points of
    windows are in time order.  Exact samples are not put in order: they are handed on in the order in which they were recorded ([samples_out_of_order]). *)
Theorem stats_typed ops st : Z.of_nat (length ops) < U64 → run cfg init ops = Some st →
  (∀ w k slot, windows (book st) !! w ≫= (.!! k) = Some slot →
    headers (book st) !! k = Some (slot_header slot) ∧ agg_fits (slot_header slot) (agg slot)) ∧
  ∀ batch s, batch ∈ handed st → s ∈ series batch → points_typed s.
Proof.
  intros Hl Hr. destruct (run_simulates cfg ops st Hl Hr) as (S & HS & [H1 H2 H3 H4 H5]). split.
  - intros w k slot. rewrite (rep_windows _ _ _ _ H1), (rep_headers _ _ _ _ H1). unfold slot_at. intros Hs.
    apply bind_Some in Hs as (a & Ha & Hs). apply bind_Some in Hs as (h & Hh & [= <-]). split; [done|]. simpl.
    eapply agg_of_fits; [eapply samples_fit; [apply (rep_typed _ _ _ _ H1)|exact Hh]|exact Ha].
  - intros batch s Hb Hs. destruct (hands_elem cfg _ _ _ H2 Hb) as (t & Ht & Hbo). rewrite Forall_forall in H4. by eapply series_of_batch; eauto.
Qed.

(** C22: The outcome of a recording, in any reachable book: a sample that does not fit the kind, or a kind or encoding other than those of the first sample of the
    series, is refused, with the reason, and changes nothing else; otherwise the series has that kind and encoding, the sample is absorbed by its window (or starts it), and
    no other slot changes. *)
Theorem stats_record_outcome ops st o : Z.of_nat (length ops) < U64 → run cfg init ops = Some st →
  let b := book st in let k := series_key (common_tags cfg) (o_name o) (o_tags o) in let w := o_at_ns o / resolution_ns cfg in let b' := record cfg o b in
  match verdict (headers b) k (o_kind o) (o_sample o) with
  | Some r => b' = refuse k r b
  | None =>
      let h := mk_header (o_kind o) (sample_encoding (o_sample o)) in
      headers b' = <[k := h]> (headers b) ∧ totals b' = totals b ∧ refused b' = refused b ∧ last_refusal b' = last_refusal b ∧
      ∀ w' k', windows b' !! w' ≫= (.!! k') =
        if decide ((w', k') = (w, k)) then
          Some (mk_slot h (match windows b !! w ≫= (.!! k) with Some slot => absorb (agg slot) (o_sample o) | None => start (o_sample o) end))
        else windows b !! w' ≫= (.!! k')
  end.
Proof.
  intros Hl Hr b k w b'. destruct (run_simulates cfg ops st Hl Hr) as (S & _ & [H1 _ _ _ _]). fold b in H1.
  assert (Hslot : ∀ slot, windows b !! w ≫= (.!! k) = Some slot → headers b !! k = Some (slot_header slot)).
  { intros slot. rewrite (rep_windows _ _ _ _ H1), (rep_headers _ _ _ _ H1). unfold slot_at. intros Hs.
    apply bind_Some in Hs as (a & Ha & Hs). by apply bind_Some in Hs as (h & Hh & [= <-]). }
  unfold b', record, ingest. fold k w. unfold verdict. destruct (fits (o_sample o) (o_kind o)); simpl; [|done].
  assert (Hput : ∀ b1 a, headers b1 = <[k := mk_header (o_kind o) (sample_encoding (o_sample o))]> (headers b) → windows b1 = windows b →
    totals b1 = totals b → refused b1 = refused b → last_refusal b1 = last_refusal b →
    let b2 := keep_high_res cfg k (o_at_ns o) (o_sample o) (o_resolution o) (put_slot w k (mk_slot (mk_header (o_kind o) (sample_encoding (o_sample o))) a) b1) in
    headers b2 = <[k := mk_header (o_kind o) (sample_encoding (o_sample o))]> (headers b) ∧ totals b2 = totals b ∧ refused b2 = refused b ∧
    last_refusal b2 = last_refusal b ∧ ∀ w' k', windows b2 !! w' ≫= (.!! k') =
      if decide ((w', k') = (w, k)) then Some (mk_slot (mk_header (o_kind o) (sample_encoding (o_sample o))) a) else windows b !! w' ≫= (.!! k')).
  { intros b1 a E1 E2 E3 E4 E5 b2. assert (Ew : windows b2 = windows (put_slot w k (mk_slot (mk_header (o_kind o) (sample_encoding (o_sample o))) a) b1))
      by (unfold b2, keep_high_res; by destruct (if feature_high_res cfg then _ else _)).
    rewrite Ew, <- E2. split; [|split; [|split; [|split; [|intros w' k'; apply put_slot_lookup]]]]; unfold b2, keep_high_res;
      destruct (if feature_high_res cfg then _ else _); done. }
  destruct (windows b !! w ≫= (.!! k)) as [slot|] eqn:Es.
  - rewrite (Hslot _ eq_refl). simpl. specialize (Hslot _ eq_refl). case_decide as Ek; [done|]. case_decide as Ee; [done|].
    destruct slot as [[hk he] a]. simpl in *. subst hk he. apply Hput; try done. by rewrite insert_id.
  - destruct (headers b !! k) as [[hk he]|] eqn:Eh; simpl.
    + case_decide as Ek; [done|]. case_decide as Ee; [done|]. simpl in *. subst hk he. apply Hput; try done. by rewrite insert_id.
    + by apply Hput.
Qed.
End statements.

(** What a point says: of a counter the sum of what was counted in the window (at most the greatest [u64]), of a gauge or a state the last value set, of a timer the
    histogram of the durations. *)
Theorem stats_aggregates kind ss : ss ≠ [] → Forall (λ s, fits s kind = true) ss → Forall count_ok ss → agg_of ss = meaning kind ss.
Proof. apply agg_means. Qed.

(** ** A run: a counter is recorded twice in one window and once in the next, a total is reported twice, the closed window is flushed and the rest drained. *)
Definition map_order : HashOrder := mk_order (λ V m, map_to_list m) (λ V m, reflexivity _).
Definition demo_cfg : StatsConfig := mk_config [mk_tag "env" "prod"] 1000 2 true.
Definition demo_record (name : string) (kind : Kind) (at_ns : Z) (s : Sample) : Op := O_record (mk_observation name kind [] at_ns s None).
Definition demo_ops : list Op :=
  [demo_record "req" K_Counter 1000 (S_Count 2); demo_record "req" K_Counter 1999 (S_Count 3); demo_record "req" K_Gauge 1999 (S_Number (N_Count 1));
   O_total "ops" [] 10; O_total "ops" [] 15; O_total_ingest 0 2100; demo_record "req" K_Counter 2500 (S_Count 1);
   O_flush map_order true false 2600; O_drain map_order true 2700].
Definition demo_key (name : string) : SeriesKey := series_key (common_tags demo_cfg) name [].
Definition demo_state : Stats := default init (run demo_cfg init demo_ops).

Lemma demo_runs : run demo_cfg init demo_ops = Some demo_state.
Proof. by vm_compute. Qed.

Lemma demo_length : Z.of_nat (length demo_ops) < U64.
Proof. done. Qed.

(** Two exact samples recorded with the later time first leave in that order. *)
Lemma samples_out_of_order :
  let exact at_ns := O_record (mk_observation "depth" K_Gauge [] at_ns (S_Number (N_Count 1)) (Some 1)) in
  points <$> (default [] (handed <$> run demo_cfg init [exact 1700; exact 1300; O_drain map_order true 2700]) ≫= series) =
    [Numbers [(1000, N_Count 1)]; Samples [(1700, S_Number (N_Count 1)); (1300, S_Number (N_Count 1))]].
Proof. by vm_compute. Qed.

Lemma stats_refines_witness : Z.of_nat (length demo_ops) < U64 ∧ run demo_cfg init demo_ops = Some demo_state ∧
  length (handed demo_state) = 2%nat ∧ (points <$> (handed demo_state ≫= series)) = [Counts [(1000, 5)]; Counts [(2000, 5)]; Counts [(2000, 1)]] ∧
  ∃ S, hands demo_cfg (handed demo_state) (takens S) ∧ log S ≡ₚ concat (t_recs <$> takens S) ++ pending (abs S).
Proof.
  split; [exact demo_length|]. split; [exact demo_runs|]. split; [by vm_compute|]. split; [by vm_compute|].
  destruct (stats_refines demo_cfg demo_ops demo_state demo_length demo_runs) as (S & _ & _ & Hh & Hp). by exists S.
Defined.

Lemma stats_counters_conserved_witness : Forall op_ok demo_ops ∧ run demo_cfg init demo_ops = Some demo_state ∧
  sum (delivered demo_cfg (demo_key "req") <$> handed demo_state) = 6 ∧
  ∃ S, abs_runs demo_cfg init abs_init demo_ops demo_state S ∧ (counted (demo_key "req") (log S) ≤ u64_max →
    sum (delivered demo_cfg (demo_key "req") <$> handed demo_state) + counted (demo_key "req") (pending (abs S)) = counted (demo_key "req") (log S)).
Proof.
  assert (Hok : Forall op_ok demo_ops) by (repeat apply Forall_cons_2; try apply Forall_nil_2; try done; by intros n [= <-]).
  assert (Hd : NoDup (tag_name <$> common_tags demo_cfg)) by (apply NoDup_singleton).
  destruct (stats_counters_conserved demo_cfg demo_ops demo_state Hd demo_length Hok demo_runs) as (S & HS & Hc).
  split; [exact Hok|]. split; [exact demo_runs|]. split; [by vm_compute|]. exists S. split; [exact HS|]. intros Hmax. apply Hc; [by do 2 eexists| |exact Hmax].
  intros h Hh. by vm_compute in Hh; injection Hh as <-.
Defined.

Lemma stats_typed_witness : Z.of_nat (length demo_ops) < U64 ∧ run demo_cfg init demo_ops = Some demo_state ∧
  ∀ batch s, batch ∈ handed demo_state → s ∈ series batch → points_typed s.
Proof.
  split; [exact demo_length|]. split; [exact demo_runs|]. exact (proj2 (stats_typed demo_cfg demo_ops demo_state demo_length demo_runs)).
Defined.

Lemma stats_record_outcome_witness : run demo_cfg init demo_ops = Some demo_state ∧
  (let o := mk_observation "req" K_Gauge [] 3000 (S_Number (N_Count 1)) None in
   record demo_cfg o (book demo_state) = refuse (demo_key "req") (KindChanged K_Counter K_Gauge) (book demo_state)) ∧
  let o := mk_observation "req" K_Counter [] 3000 (S_Count 1) None in refused (record demo_cfg o (book demo_state)) = refused (book demo_state).
Proof.
  split; [exact demo_runs|].
  pose proof (stats_record_outcome demo_cfg demo_ops demo_state (mk_observation "req" K_Gauge [] 3000 (S_Number (N_Count 1)) None) demo_length demo_runs) as H1.
  pose proof (stats_record_outcome demo_cfg demo_ops demo_state (mk_observation "req" K_Counter [] 3000 (S_Count 1) None) demo_length demo_runs) as H2.
  cbv zeta in H1, H2.
  replace (verdict _ _ _ _) with (Some (KindChanged K_Counter K_Gauge)) in H1 by by vm_compute.
  replace (verdict _ _ _ _) with (@None RefusalReason) in H2 by by vm_compute.
  split; [exact H1|]. exact (proj1 (proj2 (proj2 H2))).
Defined.

Lemma stats_aggregates_witness : [S_Count 2; S_Count u64_max] ≠ [] ∧ agg_of [S_Count 2; S_Count u64_max] = Some (A_Count u64_max).
Proof.
  split; [done|]. rewrite (stats_aggregates K_Counter); [by vm_compute|done|by repeat constructor|].
  repeat apply Forall_cons_2; try apply Forall_nil_2; (intros n [= <-]; u64_lia).
Defined.

(** A recording with a time in a window that was handed on already starts the window again: the series has a second point for it in the next batch. *)
Lemma late_recording_second_point :
  (λ st, points <$> (handed st ≫= series)) <$> run demo_cfg init
    [demo_record "req" K_Counter 1500 (S_Count 2); O_drain map_order false 2600; demo_record "req" K_Counter 1900 (S_Count 3); O_drain map_order false 2700] =
  Some [Counts [(1000, 2)]; Counts [(1000, 3)]].
Proof. by vm_compute. Qed.
