(* ===== verification/Collectors.v ===== *)
(** * The schedule of collectors (stats/src/stats.rs)

    A collector runs at an interval, on the collect thread or when the host calls [collect_due].  What it records is up to it: [collect] gives the
    recordings a collector makes when it runs at a time.  The schedule is behind one lock. *)

From stdpp Require Import strings.
From S2P Require Import Prelude Tags Histogram Samples Book.

Record Entry := mk_entry { id : Z; interval_ns : Z; due_ns : Z; e_tags : list Tag }.

Record Schedule := mk_schedule { entries : list Entry; next_id : Z }.

Section collectors.
Context (cfg : StatsConfig) (collect : Z → Z → list Observation).

(** [Context::record]: the context's tags come before the observation's. *)
Definition in_context (tags : list Tag) (o : Observation) : Observation :=
  mk_observation (o_name o) (o_kind o) (context_with tags (o_tags o)) (o_at_ns o) (o_sample o) (o_resolution o).

(** The collector of [e] runs, through a context when it has tags. *)
Definition run_collector (e : Entry) (now_ns : Z) (b : Book) : Book :=
  foldl (λ b o, record cfg o b) b
    (if decide (e_tags e = []) then collect (id e) now_ns else in_context (e_tags e) <$> collect (id e) now_ns).

(** One turn of the loop of [run_due]: the entry, the book, and whether the collector ran. *)
Definition run_entry (now_ns : Z) (e : Entry) (b : Book) : Entry * Book * bool :=
  let next_ns := sat_add now_ns (interval_ns e) in
  let due := if next_ns <? due_ns e then next_ns else due_ns e in
  if now_ns <? due then (mk_entry (id e) (interval_ns e) due (e_tags e), b, false)
  else (mk_entry (id e) (interval_ns e) next_ns (e_tags e), run_collector e now_ns b, true).

(** [run_due], and the collectors that ran. *)
Fixpoint run_due (now_ns : Z) (es : list Entry) (b : Book) : list Entry * Book * list Z :=
  match es with
  | [] => ([], b, [])
  | e :: es' =>
      let '(e, b, ran) := run_entry now_ns e b in
      let '(es', b, ids) := run_due now_ns es' b in
      (e :: es', b, if ran then id e :: ids else ids)
  end.

Definition collect_due (now_ns : Z) (s : Schedule) (b : Book) : Schedule * Book * list Z :=
  let '(es, b, ids) := run_due now_ns (entries s) b in (mk_schedule es (next_id s), b, ids).

Definition collect_now (now_ns : Z) (s : Schedule) (b : Book) : Schedule * Book * list Z :=
  let '(es, b, ids) := run_due now_ns ((λ e, mk_entry (id e) (interval_ns e) now_ns (e_tags e)) <$> entries s) b in
  (mk_schedule es (next_id s), b, ids).

Definition add_collector (tags : list Tag) (interval now_ns : Z) (s : Schedule) : Schedule * Z :=
  let id := next_id s +w 1 in
  let interval_ns := Z.min u64_max interval in
  (mk_schedule (entries s ++ [mk_entry id interval_ns (sat_add now_ns interval_ns) tags]) id, id).

Definition remove_collector (i : Z) (s : Schedule) : Schedule * bool :=
  let es := filter (λ e, id e ≠ i) (entries s) in
  (mk_schedule es (next_id s), negb (bool_decide (length es = length (entries s)))).

(** How long the collect thread sleeps; [None] while there is no collector. *)
Definition wait_ns (now_ns : Z) (es : list Entry) : option Z :=
  foldr (λ e w, Some (match w with
                      | Some w => Z.min (Z.min (due_ns e -sat now_ns) (interval_ns e)) w
                      | None => Z.min (due_ns e -sat now_ns) (interval_ns e)
                      end)) None es.

(** ** One pass *)
Definition ran (now_ns : Z) (e : Entry) : bool := Z.min (due_ns e) (sat_add now_ns (interval_ns e)) <=? now_ns.

Definition after (now_ns : Z) (e : Entry) : Entry :=
  mk_entry (id e) (interval_ns e)
    (if ran now_ns e then sat_add now_ns (interval_ns e) else Z.min (due_ns e) (sat_add now_ns (interval_ns e))) (e_tags e).

Lemma run_entry_spec now_ns e b :
  run_entry now_ns e b = (after now_ns e, if ran now_ns e then run_collector e now_ns b else b, ran now_ns e).
Proof.
  unfold run_entry, after, ran. set (nx := sat_add now_ns (interval_ns e)).
  replace (if nx <? due_ns e then nx else due_ns e) with (Z.min (due_ns e) nx) by (destruct (Z.ltb_spec nx (due_ns e)); lia).
  by destruct (Z.ltb_spec now_ns (Z.min (due_ns e) nx)), (Z.leb_spec (Z.min (due_ns e) nx) now_ns); try lia.
Qed.

Lemma run_due_spec now_ns es b :
  run_due now_ns es b = (after now_ns <$> es, foldl (λ b e, if ran now_ns e then run_collector e now_ns b else b) b es, id <$> filter (λ e, ran now_ns e) es).
Proof.
  revert b. induction es as [|e es IH]; intros b; [done|]. cbn [run_due]. rewrite run_entry_spec, IH, filter_cons. csimpl.
  by destruct (ran now_ns e).
Qed.

(** The passes of [collect_due], at any readings of the clock. *)
Definition passes (nows : list Z) (e : Entry) : Entry := foldl (λ e now, after now e) e nows.

Lemma after_same now e : id (after now e) = id e ∧ interval_ns (after now e) = interval_ns e.
Proof. done. Qed.

Lemma passes_interval nows e : interval_ns (passes nows e) = interval_ns e.
Proof. revert e. induction nows as [|n nows IH]; intros e; [done|]. apply (IH (after n e)). Qed.

Lemma wait_ns_cons now_ns e es : wait_ns now_ns (e :: es) =
  Some (match wait_ns now_ns es with
        | Some w => Z.min (Z.min (due_ns e -sat now_ns) (interval_ns e)) w
        | None => Z.min (due_ns e -sat now_ns) (interval_ns e)
        end).
Proof. done. Qed.

(** A collector due by [n'] has run by a pass at [n']: while it does not run, the time it is due does not move away. *)
Lemma passes_run nows n' e : due_ns e ≤ n' → ∃ i m, (nows ++ [n']) !! i = Some m ∧ ran m (passes (take i (nows ++ [n'])) e) = true.
Proof.
  revert e. induction nows as [|n nows IH]; intros e He.
  - exists 0%nat, n'. split; [done|]. unfold ran. simpl. apply Z.leb_le. lia.
  - destruct (ran n e) eqn:Er; [by exists 0%nat, n|]. destruct (IH (after n e)) as (i & m & Hi & Hr); [unfold after; rewrite Er; simpl; lia|].
    by exists (S i), m.
Qed.

Lemma after_due now e : due_ns (after now e) ≤ sat_add now (interval_ns e).
Proof. unfold after. simpl. destruct (ran now e); lia. Qed.
End collectors.

Section statements.
Context (cfg : StatsConfig) (collect : Z → Z → list Observation).

(** A pass of [collect_due] runs, in order, exactly the collectors whose time has come, and leaves each due within one interval of the clock, and later than the clock
    unless its interval is zero; [collect_now] runs them all.  The collect thread never sleeps past the time any collector is due. *)
Theorem collectors_pass s b now_ns : is_u64 now_ns → Forall (λ e, 0 ≤ interval_ns e) (entries s) →
  let '(s', b', ids) := collect_due cfg collect now_ns s b in
  ids = id <$> filter (λ e, due_ns e ≤ now_ns ∨ sat_add now_ns (interval_ns e) ≤ now_ns) (entries s) ∧
  (id <$> entries s') = id <$> entries s ∧
  Forall (λ e, due_ns e ≤ sat_add now_ns (interval_ns e) ∧ (0 < interval_ns e → now_ns < u64_max → now_ns < due_ns e)) (entries s') ∧
  (collect_now cfg collect now_ns s b).2 = id <$> entries s ∧
  match wait_ns now_ns (entries s) with
  | Some w => Forall (λ e, w ≤ due_ns e -sat now_ns ∧ w ≤ interval_ns e) (entries s)
  | None => entries s = []
  end.
Proof.
  intros Hn Hi. unfold collect_due, collect_now. rewrite !run_due_spec. simpl. split; [|split; [|split; [|split]]].
  - f_equal. apply list_filter_iff. intros e. unfold ran. rewrite Is_true_true, Z.leb_le. lia.
  - rewrite <- list_fmap_compose. by apply list_fmap_ext.
  - apply Forall_fmap. eapply Forall_impl; [exact Hi|]. intros e He.
    change (due_ns (after now_ns e) ≤ sat_add now_ns (interval_ns e) ∧ (0 < interval_ns e → now_ns < u64_max → now_ns < due_ns (after now_ns e))).
    split; [apply after_due|]. intros Hp Hm. unfold after, ran. simpl. destruct (Z.leb_spec (Z.min (due_ns e) (sat_add now_ns (interval_ns e))) now_ns); [unfold sat_add; lia|lia].
  - clear Hi. induction (entries s) as [|e es IH]; [done|]. csimpl. rewrite filter_cons, decide_True; [by csimpl; rewrite IH|].
    unfold ran. simpl. apply Is_true_true, Z.leb_le. lia.
  - clear Hi. induction (entries s) as [|e es IH]; [done|]. rewrite wait_ns_cons. destruct (wait_ns now_ns es) as [w|] eqn:Ew.
    + constructor; [lia|]. eapply Forall_impl; [exact IH|]. simpl. lia.
    + rewrite IH. constructor; [lia|done].
Qed.

Lemma collectors_pass_witness : is_u64 100 ∧
  let s := mk_schedule [mk_entry 1 10 100 []; mk_entry 2 10 105 []; mk_entry 3 10 500 []] 3 in
  (∀ b, (collect_due cfg collect 100 s b).2 = [1] ∧ (collect_now cfg collect 100 s b).2 = [1; 2; 3]).
Proof.
  assert (H : is_u64 100) by (split; [lia|done]). split; [exact H|]. intros s b.
  assert (Hi : Forall (λ e, 0 ≤ interval_ns e) (entries s)) by (repeat apply Forall_cons_2; try apply Forall_nil_2; simpl; lia).
  pose proof (collectors_pass s b 100 H Hi) as Hp. destruct (collect_due cfg collect 100 s b) as [[s' b'] ids]. destruct Hp as (-> & _ & _ & -> & _).
  split; by vm_compute.
Defined.
End statements.

(** A pass of [collect_due] at each reading of the clock, and the collectors that ran in each. *)
Fixpoint collect_passes cfg collect (nows : list Z) (s : Schedule) (b : Book) : Schedule * Book * list (list Z) :=
  match nows with
  | [] => (s, b, [])
  | now :: nows' =>
      let '(s, b, ids) := collect_due cfg collect now s b in
      let '(s, b, idss) := collect_passes cfg collect nows' s b in (s, b, ids :: idss)
  end.

(** Its collectors go through the passes one by one, whatever they record. *)
Lemma collect_due_entry cfg collect now s b e : e ∈ entries s →
  let '(s', _, ids) := collect_due cfg collect now s b in after now e ∈ entries s' ∧ (ran now e = true → id e ∈ ids).
Proof.
  intros He. unfold collect_due. rewrite run_due_spec. split; [by apply list_elem_of_fmap_2|].
  intros Hr. apply list_elem_of_fmap_2, list_elem_of_filter. by rewrite Hr.
Qed.

Lemma collect_passes_ran cfg collect nows s b e i m : e ∈ entries s → nows !! i = Some m → ran m (passes (take i nows) e) = true →
  ∃ ids, (collect_passes cfg collect nows s b).2 !! i = Some ids ∧ id e ∈ ids.
Proof.
  revert s b e i. induction nows as [|n nows IH]; intros s b e i He Hi Hr; [done|]. pose proof (collect_due_entry cfg collect n s b e He) as Hc.
  cbn [collect_passes]. destruct (collect_due cfg collect n s b) as [[s1 b1] ids]. destruct Hc as [He1 Hids].
  destruct i as [|i]; simpl in Hi, Hr.
  - injection Hi as ->. destruct (collect_passes cfg collect nows s1 b1) as [[s2 b2] idss]. exists ids. by split; [|apply Hids].
  - destruct (IH s1 b1 (after n e) i He1 Hi Hr) as (ids' & Hl & Hin). destruct (collect_passes cfg collect nows s1 b1) as [[s2 b2] idss]. by exists ids'.
Qed.

(** C30: No collector is starved, whatever the clock does: once a pass of [collect_due] has read the clock at [n], a collector of the schedule is among those that a later
    pass ran by the first pass that reads [n] plus its interval or later, even when the clock stepped back in between; whatever the collectors
    record, and whatever time the collector was due before. *)
Theorem collectors_not_starved cfg collect s b e n nows n' : e ∈ entries s → sat_add n (interval_ns e) ≤ n' →
  let '(s1, b1, _) := collect_due cfg collect n s b in
  ∃ i ids, (collect_passes cfg collect (nows ++ [n']) s1 b1).2 !! i = Some ids ∧ id e ∈ ids.
Proof.
  intros He Hn. pose proof (collect_due_entry cfg collect n s b e He) as Hc. destruct (collect_due cfg collect n s b) as [[s1 b1] ids].
  destruct Hc as [He1 _]. pose proof (after_due n e) as Hd. destruct (passes_run nows n' (after n e) ltac:(lia)) as (i & m & Hi & Hr).
  exists i. change (id e) with (id (after n e)). by eapply collect_passes_ran.
Qed.

(** A collector of interval 10, due at 500 after the clock stepped back to 110; the clock steps back again to 50.  It counts its runs. *)
Definition demo_config : StatsConfig := mk_config [] 1000 0 false.
Definition demo_collect (i now_ns : Z) : list Observation := [mk_observation "runs" K_Counter [] now_ns (S_Count 1) None].
Definition demo_schedule : Schedule := mk_schedule [mk_entry 1 10 500 []] 1.

Lemma collectors_not_starved_witness :
  mk_entry 1 10 500 [] ∈ entries demo_schedule ∧ sat_add 110 10 ≤ 120 ∧
  let '(s1, b1, ids) := collect_due demo_config demo_collect 110 demo_schedule default_book in
  ids = [] ∧ ∃ i ids', (collect_passes demo_config demo_collect ([50; 55] ++ [120]) s1 b1).2 !! i = Some ids' ∧ 1 ∈ ids'.
Proof.
  assert (He : mk_entry 1 10 500 [] ∈ entries demo_schedule) by (by apply list_elem_of_singleton).
  assert (Hn : sat_add 110 10 ≤ 120) by (vm_compute; done). split; [exact He|]. split; [exact Hn|].
  pose proof (collectors_not_starved demo_config demo_collect demo_schedule default_book (mk_entry 1 10 500 []) 110 [50; 55] 120 He Hn) as H.
  destruct (collect_due demo_config demo_collect 110 demo_schedule default_book) as [[s1 b1] ids] eqn:E. split; [|exact H].
  apply (f_equal snd) in E. revert E. by vm_compute.
Defined.

(** ** Adding and removing *)
Lemma remove_collector_spec i s : let '(s', found) := remove_collector i s in
  entries s' = filter (λ e, id e ≠ i) (entries s) ∧ (found = true ↔ ∃ e, e ∈ entries s ∧ id e = i).
Proof.
  simpl. split; [done|]. rewrite negb_true_iff, bool_decide_eq_false. split.
  - intros Hl. induction (entries s) as [|e es IH]; [done|]. rewrite filter_cons in Hl. case_decide as He.
    + simpl in Hl. destruct IH as (e' & ? & ?); [congruence|]. exists e'. split; [by right|done].
    + exists e. split; [by left|]. done.
  - intros (e & Hin & <-) Hl. pose proof (length_filter_lt (λ e', id e' ≠ id e) (entries s) e Hin) as Hlt. specialize (Hlt ltac:(tauto)). lia.
Qed.
