(* ===== verification/Metric.v ===== *)
(** * Metric definitions and their handles (stats/src/metric.rs)

    A definition holds a metric's facts; the handle of its kind builds the observations.  [parse_duration] reads the resolution of a definition. *)

From Stdlib Require Import Ascii String.
From stdpp Require Import strings.
From S2P Require Import Prelude Tags Samples Book.

Inductive Unit_ := Un_None | Un_Count | Un_Seconds | Un_Bytes | Un_Percent | Un_Ratio | Un_Celsius | Un_Hertz | Un_Custom (s : string).

Inductive MetricAttr :=
  | Attr_Unit (u : Unit_)
  | Attr_Tags (t : list string)
  | Attr_Resolution (r : Z).

Record Metric := mk_metric {
  m_name : string;
  m_kind : Kind;
  m_unit : Unit_;
  description : list string;
  m_tags : list string;
  m_resolution : option Z;
}.

(** The loop of [Metric::new] over the attributes. *)
Definition apply_attr (a : MetricAttr) (m : Metric) : Metric :=
  match a with
  | Attr_Unit u => mk_metric (m_name m) (m_kind m) u (description m) (m_tags m) (m_resolution m)
  | Attr_Tags t => mk_metric (m_name m) (m_kind m) (m_unit m) (description m) t (m_resolution m)
  | Attr_Resolution r => mk_metric (m_name m) (m_kind m) (m_unit m) (description m) (m_tags m) (Some r)
  end.

Definition metric_new (name : string) (kind : Kind) (description : list string) (attrs : list MetricAttr) : Metric :=
  let unit := match kind with K_Counter => Un_Count | K_Timer => Un_Seconds | K_Gauge | K_State => Un_None end in
  foldl (λ m a, apply_attr a m) (mk_metric name kind unit description [] None) attrs.

Definition allows (m : Metric) (tag : string) : bool := bool_decide (tag ∈ m_tags m).

(** [check_tags]: in a debug build an undeclared tag panics. *)
Definition check_tags (debug : bool) (m : Metric) (tags : list Tag) : option () :=
  if debug && negb (forallb (λ t, allows m (tag_name t)) tags) then None else Some ().

Definition recording_resolution (high_res : bool) (m : Metric) : option Z := if high_res then m_resolution m else None.

(** [Metric::observation], at the recorder's time. *)
Definition observation (debug high_res : bool) (m : Metric) (now_ns : Z) (tags : list Tag) (s : Sample) : option Observation :=
  _ ← check_tags debug m tags;
  Some (mk_observation (m_name m) (m_kind m) tags now_ns s (recording_resolution high_res m)).

(** [Counter::add_to], [Gauge::set_to], [Timer::record_to], [State::set_to]: what each hands to the recorder. *)
Definition add_to (debug high_res : bool) (m : Metric) (now_ns delta : Z) (tags : list Tag) := observation debug high_res m now_ns tags (S_Count delta).
Definition gauge_set_to (debug high_res : bool) (m : Metric) (now_ns : Z) (v : NumberValue) (tags : list Tag) := observation debug high_res m now_ns tags (S_Number v).
Definition record_to (debug high_res : bool) (m : Metric) (now_ns d : Z) (tags : list Tag) := observation debug high_res m now_ns tags (S_Duration d).
Definition state_set_to (debug high_res : bool) (m : Metric) (now_ns : Z) (v : StateValue) (tags : list Tag) := observation debug high_res m now_ns tags (S_State v).

(** A running timer: [tags] is [None] once it is discarded. *)
Record TimerGuard := mk_guard { timer : Metric; g_tags : option (list Tag); g_start : Z }.

Definition guard_to (m : Metric) (tags : list Tag) (now : Z) : TimerGuard := mk_guard m (Some tags) now.
Definition discard (g : TimerGuard) : TimerGuard := mk_guard (timer g) None (g_start g).
Definition set_tags (g : TimerGuard) (tags : list Tag) : TimerGuard := mk_guard (timer g) (Some tags) (g_start g).
(** [Stopwatch::elapsed], on the clock of the recorder or a monotonic one. *)
Definition elapsed (g : TimerGuard) (now : Z) : Z := now -sat g_start g.

(** [Drop]: the observation recorded, if any; the outer [None] is a panic. *)
Definition guard_drop (debug high_res : bool) (g : TimerGuard) (now : Z) : option (option Observation) :=
  match g_tags g with
  | Some tags => Some <$> record_to debug high_res (timer g) now (elapsed g now) tags
  | None => Some None
  end.

(** ** Durations *)
Definition bytes (s : string) : list Z := (λ c, Z.of_nat (nat_of_ascii c)) <$> list_ascii_of_string s.

Definition is_digit (c : Z) : bool := (48 <=? c) && (c <=? 57).

(** The digits at the front: the number, how many there are, and the rest; [None] when the number overflows. *)
Fixpoint parse_digits (n : Z) (i : nat) (b : list Z) : option (Z * nat * list Z) :=
  match b with
  | c :: b' =>
      if is_digit c then
        if n * 10 + (c - 48) <=? u64_max then parse_digits (n * 10 + (c - 48)) (S i) b' else None
      else Some (n, i, b)
  | [] => Some (n, i, [])
  end.

(** [parse_duration]: [None] is a failed build. *)
Definition parse_duration (s : string) : option Z :=
  '(n, i, rest) ← parse_digits 0 0 (bytes s);
  if decide (i = 0%nat) then None
  else if decide (rest = bytes "ns") then Some n
  else if decide (rest = bytes "us") then Some (n * 1000)
  else if decide (rest = bytes "ms") then Some (n * 1000000)
  else if decide (rest = bytes "s") then Some (n * 1000000000)
  else None.

(** The value of a list of digits. *)
Definition digits_value (ds : list Z) : Z := foldl (λ n c, n * 10 + (c - 48)) 0 ds.

Definition unit_scale (u : string) : option Z :=
  if decide (u = "ns") then Some 1 else if decide (u = "us") then Some 1000
  else if decide (u = "ms") then Some 1000000 else if decide (u = "s") then Some 1000000000 else None.

Lemma digits_mono ds n : 0 ≤ n → Forall (λ c, is_digit c = true) ds → n ≤ foldl (λ n c, n * 10 + (c - 48)) n ds.
Proof.
  intros Hn Hd. revert n Hn. induction Hd as [|c ds Hc Hd IH]; intros n Hn; [done|]. simpl.
  unfold is_digit in Hc. apply andb_true_iff in Hc as [?%Z.leb_le ?%Z.leb_le]. etrans; [|apply IH]; lia.
Qed.

Lemma parse_digits_spec b n i : 0 ≤ n →
  ∃ ds rest, b = ds ++ rest ∧ Forall (λ c, is_digit c = true) ds ∧ (∀ c, head rest = Some c → is_digit c = false) ∧
    parse_digits n i b = if foldl (λ n c, n * 10 + (c - 48)) n ds <=? u64_max then Some (foldl (λ n c, n * 10 + (c - 48)) n ds, (i + length ds)%nat, rest)
                         else if decide (ds = []) then Some (n, i, rest) else None.
Proof.
  revert n i. induction b as [|c b IH]; intros n i Hn.
  - exists [], []. split; [done|]. split; [constructor|]. split; [done|]. simpl. rewrite Nat.add_0_r. by destruct (n <=? u64_max).
  - simpl. destruct (is_digit c) eqn:Ec.
    + pose proof Ec as Ec'. unfold is_digit in Ec'. apply andb_true_iff in Ec' as [?%Z.leb_le ?%Z.leb_le].
      destruct (IH (n * 10 + (c - 48)) (S i)) as (ds & rest & -> & Hd & Hr & E); [lia|]. exists (c :: ds), rest.
      split; [done|]. split; [by constructor|]. split; [done|]. simpl. pose proof (digits_mono ds (n * 10 + (c - 48)) ltac:(lia) Hd) as Hm.
      destruct (Z.leb_spec (n * 10 + (c - 48)) u64_max); [|by destruct (Z.leb_spec (foldl (λ n c, n * 10 + (c - 48)) (n * 10 + (c - 48)) ds) u64_max); [lia|]].
      rewrite E. destruct (Z.leb_spec (foldl (λ n c, n * 10 + (c - 48)) (n * 10 + (c - 48)) ds) u64_max); [do 2 f_equal; f_equal; lia|].
      case_decide as Eds; [subst ds; simpl in *; lia|done].
    + exists [], (c :: b). split; [done|]. split; [constructor|]. split; [by intros ? [= <-]|]. simpl. rewrite Nat.add_0_r. by destruct (n <=? u64_max).
Qed.

Lemma span_unique (P : Z → bool) ds ds' rest rest' : Forall (λ c, P c = true) ds → Forall (λ c, P c = true) ds' →
  (∀ c, head rest = Some c → P c = false) → (∀ c, head rest' = Some c → P c = false) → ds ++ rest = ds' ++ rest' → ds = ds' ∧ rest = rest'.
Proof.
  intros Hd. revert ds'. induction Hd as [|c ds Hc Hd IH]; intros ds' Hd' Hr Hr' E.
  - destruct ds' as [|c' ds']; [done|]. simpl in E. apply Forall_cons in Hd' as [Hc' _]. rewrite E in Hr. specialize (Hr c' eq_refl). congruence.
  - destruct ds' as [|c' ds'].
    + simpl in E. rewrite <- E in Hr'. specialize (Hr' c eq_refl). congruence.
    + apply Forall_cons in Hd' as [_ Hd']. injection E as -> E. by destruct (IH ds' Hd' Hr Hr' E) as [-> ->].
Qed.

Lemma unit_scale_bytes u k : unit_scale u = Some k → (∀ c, head (bytes u) = Some c → is_digit c = false) ∧
  ((bytes u = bytes "ns" ∧ k = 1) ∨ (bytes u = bytes "us" ∧ k = 1000) ∨ (bytes u = bytes "ms" ∧ k = 1000000) ∨ (bytes u = bytes "s" ∧ k = 1000000000)).
Proof.
  unfold unit_scale. repeat (case_decide; [subst; intros [= <-]; split; [by intros c [= <-]|tauto]|]). done.
Qed.

(** [parse_duration] accepts exactly a [u64] in decimal followed by [ns], [us], [ms] or [s], and gives its nanoseconds; everything else, and a number that
    overflows, fails the build. *)
Theorem parse_duration_spec s d : parse_duration s = Some d ↔
  ∃ ds u k, bytes s = ds ++ bytes u ∧ ds ≠ [] ∧ Forall (λ c, is_digit c = true) ds ∧ unit_scale u = Some k ∧ digits_value ds ≤ u64_max ∧ d = digits_value ds * k.
Proof.
  unfold parse_duration. destruct (parse_digits_spec (bytes s) 0 0 ltac:(lia)) as (ds & rest & E & Hd & Hr & ->). fold (digits_value ds).
  assert (Hempty : ds = [] → digits_value ds <=? u64_max = true) by (intros ->; done). split.
  - destruct (Z.leb_spec (digits_value ds) u64_max) as [Hle|Hgt]; simpl; [|case_decide as Eds; [by specialize (Hempty Eds)|done]].
    case_decide as Ei; [done|]. assert (Hne : ds ≠ []) by (intros ->; done).
    assert (Hu : ∀ u k, unit_scale u = Some k → rest = bytes u → Some (digits_value ds * k) = Some d → ∃ ds u k, bytes s = ds ++ bytes u ∧ ds ≠ [] ∧
      Forall (λ c, is_digit c = true) ds ∧ unit_scale u = Some k ∧ digits_value ds ≤ u64_max ∧ d = digits_value ds * k).
    { intros u k Hk -> [= <-]. by exists ds, u, k. }
    case_decide; [intros Hs; apply (Hu "ns" 1); [done|done|by rewrite Z.mul_1_r]|].
    case_decide; [by apply (Hu "us" 1000)|]. case_decide; [by apply (Hu "ms" 1000000)|]. case_decide; [by apply (Hu "s" 1000000000)|done].
  - intros (ds' & u & k & E' & Hne & Hd' & Hk & Hle & ->). destruct (unit_scale_bytes u k Hk) as [Hhead Hcase].
    destruct (span_unique is_digit ds ds' rest (bytes u) Hd Hd' Hr Hhead ltac:(congruence)) as [-> ->].
    destruct (Z.leb_spec (digits_value ds') u64_max); [|lia]. simpl. rewrite decide_False by (by destruct ds').
    destruct Hcase as [[-> ->]|[[-> ->]|[[-> ->]|[-> ->]]]]; simpl; [by rewrite Z.mul_1_r|done..].
Qed.

(** Every handle's observation fits the kind of its definition, with its name and, in the builds with exact samples, its resolution; a debug build refuses undeclared tags. *)
Lemma observation_fits debug high_res m now_ns tags s o : fits s (m_kind m) = true → observation debug high_res m now_ns tags s = Some o →
  fits (o_sample o) (o_kind o) = true ∧ o_name o = m_name m ∧ o_tags o = tags ∧ o_resolution o = (if high_res then m_resolution m else None).
Proof. unfold observation. intros Hf Ho. apply bind_Some in Ho as ([] & _ & [= <-]). done. Qed.

Lemma metric_new_last name kind descr attrs u : m_unit (metric_new name kind descr (attrs ++ [Attr_Unit u])) = u.
Proof. unfold metric_new. by rewrite foldl_snoc. Qed.
