(* ===== verification/LogEvents.v ===== *)
(** * Log events, and strings as the logging crate reads them (logging/src/model.rs, subscriber/visitor.rs, and the builders of
      subscriber/log_handler.rs and subscriber/dispatch.rs)

    The collector of the debug report closes the file.  A string is the list of its bytes.  An [f64] is its bit pattern; how it prints is a parameter of what prints it. *)

From stdpp Require Import strings gmap.
From S2P Require Import Prelude.

(** ** Strings *)

(** [str::strip_prefix]. *)
Fixpoint strip_prefix (s p : string) : option string :=
  match p, s with
  | EmptyString, _ => Some s
  | String c p', String d s' => if decide (c = d) then strip_prefix s' p' else None
  | String _ _, EmptyString => None
  end.

Definition starts_with (s p : string) : bool := bool_decide (is_Some (strip_prefix s p)).

Fixpoint str_rev_app (s acc : string) : string :=
  match s with EmptyString => acc | String c s' => str_rev_app s' (String c acc) end.

Definition str_rev (s : string) : string := str_rev_app s EmptyString.

(** [str::strip_suffix] and [str::ends_with]. *)
Definition strip_suffix (s p : string) : option string := str_rev <$> strip_prefix (str_rev s) (str_rev p).

Definition ends_with (s p : string) : bool := bool_decide (is_Some (strip_suffix s p)).

Lemma str_app_nil_r s : s +:+ EmptyString = s.
Proof. induction s as [|c s IH]; [done|]. change (String c (s +:+ EmptyString) = String c s). by rewrite IH. Qed.

Lemma str_app_assoc s1 s2 s3 : s1 +:+ s2 +:+ s3 = (s1 +:+ s2) +:+ s3.
Proof. induction s1 as [|c s1 IH]; [done|]. change (String c (s1 +:+ s2 +:+ s3) = String c ((s1 +:+ s2) +:+ s3)). by rewrite IH. Qed.

Lemma str_length_app s1 s2 : String.length (s1 +:+ s2) = (String.length s1 + String.length s2)%nat.
Proof. induction s1 as [|c s1 IH]; [done|]. change (S (String.length (s1 +:+ s2)) = S (String.length s1 + String.length s2))%nat. by rewrite IH. Qed.

Lemma str_app_cons c s1 s2 : String c s1 +:+ s2 = String c (s1 +:+ s2).
Proof. done. Qed.

Lemma str_app_inj_l s s1 s2 : s +:+ s1 = s +:+ s2 → s1 = s2.
Proof. induction s as [|c s IH]; [done|]. rewrite !str_app_cons. intros [= E]. by apply IH. Qed.

Lemma str_app_eq_length s1 s2 t1 t2 : String.length s1 = String.length t1 → s1 +:+ s2 = t1 +:+ t2 → s1 = t1 ∧ s2 = t2.
Proof.
  revert t1. induction s1 as [|c s1 IH]; intros [|d t1] E; try done.
  rewrite !str_app_cons. intros [= -> Ht]. simpl in E. destruct (IH t1) as [-> ->]; [congruence|done|done].
Qed.

Lemma strip_prefix_Some s p r : strip_prefix s p = Some r ↔ s = p +:+ r.
Proof.
  split.
  - revert s. induction p as [|c p IH]; intros s H.
    + destruct s; by injection H as <-.
    + destruct s as [|d s]; [done|]. cbn [strip_prefix] in H. destruct (decide (c = d)) as [->|]; [|done].
      rewrite str_app_cons. f_equal. by apply IH.
  - intros ->. induction p as [|c p IH]; [by destruct r|]. rewrite str_app_cons. cbn [strip_prefix]. by rewrite decide_True.
Qed.

Lemma starts_with_true s p : starts_with s p = true ↔ ∃ r, s = p +:+ r.
Proof.
  unfold starts_with. rewrite bool_decide_eq_true. split.
  - intros [r H]. exists r. by apply strip_prefix_Some.
  - intros [r H]. exists r. by apply strip_prefix_Some.
Qed.

Lemma str_rev_app_spec s acc : str_rev_app s acc = str_rev s +:+ acc.
Proof.
  unfold str_rev. revert acc. induction s as [|c s IH]; intros acc; [done|]. simpl. rewrite IH, (IH (String c EmptyString)).
  by rewrite <- str_app_assoc.
Qed.

Lemma str_rev_cons c s : str_rev (String c s) = str_rev s +:+ String c EmptyString.
Proof. unfold str_rev at 1. simpl. apply str_rev_app_spec. Qed.

Lemma str_rev_app_dist s t : str_rev (s +:+ t) = str_rev t +:+ str_rev s.
Proof.
  induction s as [|c s IH]; [by rewrite str_app_nil_r|]. rewrite str_app_cons, !str_rev_cons, IH. by rewrite str_app_assoc.
Qed.

Lemma str_rev_involutive s : str_rev (str_rev s) = s.
Proof. induction s as [|c s IH]; [done|]. by rewrite str_rev_cons, str_rev_app_dist, IH. Qed.

Lemma strip_suffix_Some s p r : strip_suffix s p = Some r ↔ s = r +:+ p.
Proof.
  unfold strip_suffix. split.
  - intros (r' & H & ->)%fmap_Some. apply strip_prefix_Some in H. rewrite <- (str_rev_involutive s), H, str_rev_app_dist.
    by rewrite str_rev_involutive.
  - intros ->. rewrite str_rev_app_dist. apply fmap_Some. exists (str_rev r). split; [by apply strip_prefix_Some|].
    by rewrite str_rev_involutive.
Qed.

Lemma ends_with_true s p : ends_with s p = true ↔ ∃ r, s = r +:+ p.
Proof.
  unfold ends_with. rewrite bool_decide_eq_true. split; intros [r H]; exists r; by apply strip_suffix_Some.
Qed.

(** ** The data of model.rs *)

Inductive LogValue := VString (s : string) | VInt (i : Z) | VFloat (bits : Z) | VBool (b : bool) | VDebug (s : string).

#[export] Instance LogValue_eq_dec : EqDecision LogValue.
Proof. solve_decision. Defined.

(** [tracing]'s levels, the most severe first. *)
Inductive Level := ERROR | WARN | INFO | DEBUG | TRACE.

#[export] Instance Level_eq_dec : EqDecision Level.
Proof. solve_decision. Defined.

Inductive LevelFilter := OFF | UpTo (l : Level).

#[export] Instance LevelFilter_eq_dec : EqDecision LevelFilter.
Proof. solve_decision. Defined.

(** The order of [tracing]: a level is below the more verbose ones, and [OFF] is below every level. *)
Definition verbosity (l : Level) : Z :=
  match l with ERROR => 1 | WARN => 2 | INFO => 3 | DEBUG => 4 | TRACE => 5 end.

Definition filter_rank (f : LevelFilter) : Z := match f with OFF => 0 | UpTo l => verbosity l end.

(** [event_level <= level_filter]. *)
Definition level_le (l : Level) (f : LevelFilter) : bool := bool_decide (verbosity l ≤ filter_rank f).

Definition filter_max (f g : LevelFilter) : LevelFilter := if decide (filter_rank f ≤ filter_rank g) then g else f.

Lemma filter_rank_max f g : filter_rank (filter_max f g) = filter_rank f `max` filter_rank g.
Proof. unfold filter_max. case_decide; lia. Qed.

Record LogEvent := mk_event {
  ev_timestamp : Z;
  ev_level : Level;
  ev_target : string;
  ev_name : string;
  ev_message : option string;
  ev_fields : gmap string LogValue;
  ev_span_id : option string;
  ev_parent_id : option string;
  ev_thread_id : option string;
  ev_thread_name : option string
}.

Definition new_event (now : Z) (l : Level) (target name : string) (message : option string) : LogEvent :=
  mk_event now l target name message ∅ None None None None.

Definition with_fields (f : gmap string LogValue → gmap string LogValue) (e : LogEvent) : LogEvent :=
  mk_event (ev_timestamp e) (ev_level e) (ev_target e) (ev_name e) (ev_message e) (f (ev_fields e)) (ev_span_id e)
    (ev_parent_id e) (ev_thread_id e) (ev_thread_name e).

Definition with_message (m : option string) (e : LogEvent) : LogEvent :=
  mk_event (ev_timestamp e) (ev_level e) (ev_target e) (ev_name e) m (ev_fields e) (ev_span_id e)
    (ev_parent_id e) (ev_thread_id e) (ev_thread_name e).

(** ** The field visitor *)
Section Visitor.
(** [u32]'s and [u64]'s [to_string]. *)
Context (show_num : Z → string).

(** What a callsite records of a field: the value with the method of [Visit] it is passed to. *)
Inductive Recorded :=
| RDebug (s : string)
| RStr (s : string)
| RI64 (i : Z)
| RU64 (n : Z)
| RF64 (bits : Z)
| RBool (b : bool).

Record Visitor := mk_visitor { v_event : LogEvent; v_message_field_count : Z }.

Definition new_visitor (e : LogEvent) : Visitor := mk_visitor e 0.

Definition visit_insert (k : string) (x : LogValue) (v : Visitor) : Visitor :=
  mk_visitor (with_fields (<[k := x]>) (v_event v)) (v_message_field_count v).

(** The two methods that may set the message: [wrap] is [LogValue::String] in [record_potential_message] and
    [LogValue::Debug] in [record_debug]. *)
Definition record_message (wrap : string → LogValue) (field s : string) (v : Visitor) : Visitor :=
  if decide (field = "message") then
    match ev_message (v_event v) with
    | None => mk_visitor (with_message (Some s) (v_event v)) (v_message_field_count v)
    | Some _ =>
        let n := v_message_field_count v + 1 in
        visit_insert ("message." +:+ show_num n) (wrap s) (mk_visitor (v_event v) n)
    end
  else visit_insert field (wrap s) v.

Definition record_field (v : Visitor) (fr : string * Recorded) : Visitor :=
  let '(field, r) := fr in
  match r with
  | RDebug s => record_message VDebug field s v
  | RStr s => record_message VString field s v
  | RI64 i => visit_insert field (VInt i) v
  | RU64 n => visit_insert field (if decide (n ≤ 2 ^ 63 - 1) then VInt n else VString (show_num n)) v
  | RF64 b => visit_insert field (VFloat b) v
  | RBool b => visit_insert field (VBool b) v
  end.

(** [event.record(&mut visitor)]. *)
Definition record_all (e : LogEvent) (fs : list (string * Recorded)) : LogEvent :=
  v_event (foldl record_field (new_visitor e) fs).
End Visitor.

(** The message of an event: the first value recorded for the field named message by one of the two methods for text. *)
Fixpoint first_message (fs : list (string * Recorded)) : option string :=
  match fs with
  | [] => None
  | (k, RDebug s) :: fs' | (k, RStr s) :: fs' => if decide (k = "message") then Some s else first_message fs'
  | _ :: fs' => first_message fs'
  end.

Lemma record_fields_message show_num fs v :
  ev_message (v_event (foldl (record_field show_num) v fs)) =
  match ev_message (v_event v) with Some m => Some m | None => first_message fs end.
Proof.
  revert v. induction fs as [|[k r] fs IH]; intros v; simpl; [by destruct (ev_message _)|]. rewrite IH.
  destruct r; simpl; try done; unfold record_message; case_decide; destruct (ev_message (v_event v)) eqn:E; simpl; rewrite ?E; done.
Qed.

Lemma record_all_message show_num now l target name fs :
  ev_message (record_all show_num (new_event now l target name None) fs) = first_message fs.
Proof. unfold record_all. by rewrite record_fields_message. Qed.

(** ** The builders of the two front ends *)
Section Builders.
Context (show_num : Z → string).

(** [LogHandler::build_log_event]: of a record of the [log] crate. *)
Record LogRecord := mk_record {
  lr_level : Level; lr_target : string; lr_args : string;
  lr_module_path : option string; lr_file : option string; lr_line : option Z }.

Definition insert_opt (k : string) (x : option LogValue) (m : gmap string LogValue) : gmap string LogValue :=
  match x with Some y => <[k := y]> m | None => m end.

Definition build_record_event (now : Z) (r : LogRecord) : LogEvent :=
  let e := new_event now (lr_level r) (lr_target r) (lr_target r) (Some (lr_args r)) in
  let e := with_fields (insert_opt "module_path" (VString <$> lr_module_path r)) e in
  let e := with_fields (insert_opt "file" (VString <$> lr_file r)) e in
  with_fields (insert_opt "line" (VInt <$> lr_line r)) e.

(** [DispatchLayer::build_log_event]: of a [tracing] event, with the current span and its parent, the first trace identity of
    the spans in scope and the thread, which the subscriber and the thread give. *)
Record SpanContext := mk_span_context {
  sc_current : option (string * option string);   (** the current span's id, and its parent's *)
  sc_scope : option (list (option string));       (** of each span in scope, the trace identity it holds *)
  sc_thread : string * option string }.

Definition first_identity (scope : list (option string)) : option string := head (omap id scope).

Definition or_insert (k : string) (x : LogValue) (m : gmap string LogValue) : gmap string LogValue :=
  match m !! k with Some _ => m | None => <[k := x]> m end.

Definition build_tracing_event (now : Z) (l : Level) (target name : string) (fs : list (string * Recorded)) (c : SpanContext) : LogEvent :=
  let e := record_all show_num (new_event now l target name None) fs in
  let fields :=
    match sc_scope c ≫= first_identity with Some i => or_insert "trace_id" (VString i) (ev_fields e) | None => ev_fields e end in
  mk_event (ev_timestamp e) (ev_level e) (ev_target e) (ev_name e) (ev_message e) fields
    (fst <$> sc_current c) (sc_current c ≫= snd) (Some (sc_thread c).1) (sc_thread c).2.
End Builders.

(** The identity of the innermost span that has one is under trace_id, unless the event records a field of that name. *)
Lemma build_tracing_event_trace_id show_num now l target name fs c i :
  sc_scope c ≫= first_identity = Some i →
  ev_fields (record_all show_num (new_event now l target name None) fs) !! "trace_id" = None →
  ev_fields (build_tracing_event show_num now l target name fs c) !! "trace_id" = Some (VString i).
Proof. intros Hi Hf. unfold build_tracing_event. simpl. rewrite Hi. unfold or_insert. rewrite Hf. by rewrite lookup_insert_eq. Qed.

Lemma record_fields_level show_num fs v :
  ev_level (v_event (foldl (record_field show_num) v fs)) = ev_level (v_event v) ∧
  ev_target (v_event (foldl (record_field show_num) v fs)) = ev_target (v_event v).
Proof.
  revert v. induction fs as [|[k r] fs IH]; intros v; [done|]. cbn [foldl].
  destruct (IH (record_field show_num v (k, r))) as [-> ->].
  destruct r; simpl; try done; unfold record_message; case_decide; destruct (ev_message (v_event v)); done.
Qed.

Lemma build_tracing_event_level show_num now l target name fs c :
  ev_level (build_tracing_event show_num now l target name fs c) = l ∧
  ev_target (build_tracing_event show_num now l target name fs c) = target ∧
  ev_message (build_tracing_event show_num now l target name fs c) = first_message fs.
Proof.
  destruct (record_fields_level show_num fs (new_visitor (new_event now l target name None))) as [E1 E2].
  split_and!; [exact E1|exact E2|apply record_all_message].
Qed.

(** ** The debug report's collector (collect of logging/src/init.rs, logging/src/debug_report.rs)

    Events with a counter field count under their target and that name; the others are kept.  What is printed is not modelled. *)

Record DebugEvent := mk_debug { de_timestamp : Z; de_level : Level; de_target : string; de_message : option string; de_fields : gmap string LogValue }.

Record DebugReportData := mk_report_data {
  rd_events : list DebugEvent; rd_counters : gmap (string * string) Z; rd_start_time : option Z }.

Definition clear_debug_report : DebugReportData := mk_report_data [] ∅ None.

Definition collect (now : Z) (d : DebugReportData) (e : LogEvent) : DebugReportData :=
  let start := match rd_start_time d with Some t => Some t | None => Some now end in
  match ev_fields e !! "counter" with
  | Some (VString name) =>
      let key := (ev_target e, name) in
      mk_report_data (rd_events d) (<[key := default 0 (rd_counters d !! key) + 1]> (rd_counters d)) start
  | _ => mk_report_data (rd_events d ++ [mk_debug now (ev_level e) (ev_target e) (ev_message e) (ev_fields e)]) (rd_counters d) start
  end.

(** [debug_report_totals]. *)
Definition debug_report_totals (d : DebugReportData) : Z * Z :=
  (Z.of_nat (length (rd_events d)), map_fold (λ _ c s, c + s) 0 (rd_counters d)).

Lemma counters_insert (m : gmap (string * string) Z) k c :
  map_fold (λ _ c s, c + s) 0 (<[k := default 0 (m !! k) + c]> m) = map_fold (λ _ c s, c + s) 0 m + c.
Proof.
  destruct (m !! k) as [x|] eqn:E; simpl.
  - rewrite <- (insert_id m k x E) at 2. rewrite <- (insert_delete_eq m k), <- (insert_delete_eq m k x).
    rewrite !map_fold_insert_L by (intros; lia || apply lookup_delete_eq). lia.
  - rewrite map_fold_insert_L by (intros; lia || done). lia.
Qed.

(** Every event collected is in one of the totals. *)
Lemma collect_totals now d e :
  (debug_report_totals (collect now d e)).1 + (debug_report_totals (collect now d e)).2 =
  (debug_report_totals d).1 + (debug_report_totals d).2 + 1.
Proof.
  unfold debug_report_totals, collect. destruct (ev_fields e !! "counter") as [[name| | | |]|]; simpl;
    rewrite ?length_app, ?counters_insert; simpl; lia.
Qed.

Lemma collect_all_totals es :
  let d := foldl (λ d te, collect te.1 d te.2) clear_debug_report es in
  (debug_report_totals d).1 + (debug_report_totals d).2 = Z.of_nat (length es).
Proof.
  induction es as [|[t e] es IH] using rev_ind; [done|]. rewrite foldl_app, length_app. cbn [foldl]. rewrite collect_totals. simpl in *. lia.
Qed.
