(* ===== verification/LogFilter.v ===== *)
(** * Which appender takes an event (logging/src/subscriber/actor.rs)

    An appender has rules, by logger name, and a default level; the rule of the longest name that is the target or a module-path
    ancestor of it governs the target.  [HashMap]s are [gmap]s; their order of iteration is [map_to_list]'s, and the lemmas that
    the result does not depend on it are here.  [DropCounter] counts the messages an appender dropped. *)

From stdpp Require Import strings gmap.
From S2P Require Import Prelude LogEvents.

Definition separator : string := "::".

(** [target_matches_prefix]. *)
Definition target_matches_prefix (target prefix : string) : bool :=
  match strip_prefix target prefix with
  | None => false
  | Some rest => bool_decide (rest = EmptyString) || starts_with rest separator
  end.

Definition Rule : Type := LevelFilter * bool.

Record PerAppenderFilter := mk_filter { rules : gmap string Rule; default_level : LevelFilter }.

(** [Iterator::max_by_key] with the length of the name: the last of the longest. *)
Definition longer_or_same (best : option (string * Rule)) (kr : string * Rule) : option (string * Rule) :=
  match best with
  | None => Some kr
  | Some b => if decide (String.length b.1 ≤ String.length kr.1)%nat then Some kr else best
  end.

Definition max_by_name_len (l : list (string * Rule)) : option (string * Rule) := foldl longer_or_same None l.

Definition find_in (target : string) (l : list (string * Rule)) : option (string * Rule) :=
  max_by_name_len (filter (λ kr, target_matches_prefix target kr.1 = true) l).

Definition find_most_specific_rule (f : PerAppenderFilter) (target : string) : option (string * Rule) :=
  find_in target (map_to_list (rules f)).

(** [max_level]: of the rules and of the default. *)
Definition max_level_of (ls : list LevelFilter) : option LevelFilter :=
  match ls with [] => None | l :: ls' => Some (foldl filter_max l ls') end.

Definition filter_max_level (f : PerAppenderFilter) : LevelFilter :=
  match max_level_of ((λ kr, kr.2.1) <$> map_to_list (rules f)) with
  | None => default_level f
  | Some m => filter_max m (default_level f)
  end.

Definition filter_enabled (f : PerAppenderFilter) (l : Level) (target : string) : bool :=
  match find_most_specific_rule f target with
  | Some (_, (lf, _)) => level_le l lf
  | None => level_le l (default_level f)
  end.

(** ** [DropCounter] *)
Record DropCounter := mk_drops { dropped : Z; reported : Z; last_report_ms : Z }.

Definition new_drops : DropCounter := mk_drops 0 0 0.

Definition REPORT_INTERVAL_MS : Z := 1000.

(** [record], by a call no other call of [record] of this appender overlaps: the counter after it and the line it prints, as the
    messages dropped since the last line and in all. *)
Definition record_drop (now_ms : Z) (d : DropCounter) : DropCounter * option (Z * Z) :=
  let total := dropped d + 1 in
  let last := last_report_ms d in
  if decide (REPORT_INTERVAL_MS ≤ Z.max 0 (now_ms - last)) then
    (mk_drops total total now_ms, Some (total - reported d, total))
  else (mk_drops total (reported d) last, None).

(** ** The longest matching name *)

Lemma matches_iff target prefix :
  target_matches_prefix target prefix = true ↔ target = prefix ∨ ∃ r, target = prefix +:+ separator +:+ r.
Proof.
  unfold target_matches_prefix. destruct (strip_prefix target prefix) as [rest|] eqn:E.
  - apply strip_prefix_Some in E as ->. rewrite orb_true_iff, bool_decide_eq_true, starts_with_true. split.
    + intros [->|[r ->]]; [left; by rewrite str_app_nil_r|right; by exists r].
    + intros [H|[r H]].
      * left. apply (str_app_inj_l prefix). by rewrite str_app_nil_r.
      * right. exists r. by apply str_app_inj_l in H.
  - split; [done|]. intros [->|[r ->]]; exfalso.
    + assert (strip_prefix prefix prefix = Some EmptyString) by (apply strip_prefix_Some; by rewrite str_app_nil_r). congruence.
    + assert (strip_prefix (prefix +:+ separator +:+ r) prefix = Some (separator +:+ r)) by (by apply strip_prefix_Some). congruence.
Qed.

Lemma matches_app target prefix : target_matches_prefix target prefix = true → ∃ r, target = prefix +:+ r.
Proof. intros [->|[r ->]]%matches_iff; [exists EmptyString; by rewrite str_app_nil_r|by eexists]. Qed.

Lemma matches_self target : target_matches_prefix target target = true.
Proof. apply matches_iff. by left. Qed.

Lemma matches_length target p q :
  target_matches_prefix target p = true → target_matches_prefix target q = true → String.length p = String.length q → p = q.
Proof.
  intros [r Hp]%matches_app [r' Hq]%matches_app E. rewrite Hp in Hq. by destruct (str_app_eq_length _ _ _ _ E Hq).
Qed.

Lemma foldl_longer_spec l best :
  match foldl longer_or_same best l with
  | None => best = None ∧ l = []
  | Some b => (best = Some b ∨ b ∈ l) ∧ (∀ k, k ∈ l → (String.length k.1 ≤ String.length b.1)%nat) ∧
      (∀ k, best = Some k → (String.length k.1 ≤ String.length b.1)%nat)
  end.
Proof.
  revert best. induction l as [|kr l IH]; intros best; simpl.
  - destruct best; [|done]. split_and!; [by left| |by intros ? [= ->]]. by intros k []%elem_of_nil.
  - pose proof (IH (longer_or_same best kr)) as H. destruct (foldl longer_or_same (longer_or_same best kr) l) as [b|].
    + destruct H as (H1 & H2 & H3). destruct best as [k0|]; simpl in *.
      * case_decide as Hd.
        -- split_and!.
           ++ destruct H1 as [[= ->]|H1]; right; [by left|by right].
           ++ intros k [->|Hk]%elem_of_cons; [by apply H3|by apply H2].
           ++ intros k [= ->]. specialize (H3 kr eq_refl). lia.
        -- split_and!.
           ++ destruct H1 as [H1|H1]; [by left|right; by right].
           ++ intros k [->|Hk]%elem_of_cons; [|by apply H2]. specialize (H3 k0 eq_refl). lia.
           ++ intros k [= ->]. by apply H3.
      * split_and!; [|intros k [->|Hk]%elem_of_cons; [by apply H3|by apply H2]|done].
        destruct H1 as [[= ->]|H1]; right; [by left|by right].
    + destruct H as [H _]. destruct best; simpl in H; [by case_decide|done].
Qed.

Lemma find_in_Some target l kr : find_in target l = Some kr →
  kr ∈ l ∧ target_matches_prefix target kr.1 = true ∧
  ∀ k, k ∈ l → target_matches_prefix target k.1 = true → (String.length k.1 ≤ String.length kr.1)%nat.
Proof.
  unfold find_in, max_by_name_len. intros E. pose proof (foldl_longer_spec (filter (λ kr, target_matches_prefix target kr.1 = true) l) None) as H.
  rewrite E in H. destruct H as ([?|H1] & H2 & _); [done|]. apply list_elem_of_filter in H1 as [Hm Hin]. split_and!; [done..|].
  intros k Hk Hkm. apply H2. by apply list_elem_of_filter.
Qed.

Lemma find_in_None target l : find_in target l = None ↔ ∀ k, k ∈ l → target_matches_prefix target k.1 = false.
Proof.
  unfold find_in, max_by_name_len. pose proof (foldl_longer_spec (filter (λ kr, target_matches_prefix target kr.1 = true) l) None) as H.
  destruct (foldl _ _ _) as [b|].
  - split; [done|]. intros Hn. destruct H as ([?|H1] & _); [done|]. apply list_elem_of_filter in H1 as [Hm Hin]. apply Hn in Hin. congruence.
  - split; [|done]. intros _ k Hk. destruct H as [_ H]. destruct (target_matches_prefix target k.1) eqn:Em; [|done].
    assert (Hf : k ∈ filter (λ kr : string * Rule, target_matches_prefix target kr.1 = true) l) by (by apply list_elem_of_filter).
    rewrite H in Hf. by apply elem_of_nil in Hf.
Qed.

(** The rule found is the only one of the longest matching name, whatever the order of iteration. *)
Lemma find_rule_Some f target k r :
  find_most_specific_rule f target = Some (k, r) ↔
  rules f !! k = Some r ∧ target_matches_prefix target k = true ∧
  ∀ k', is_Some (rules f !! k') → target_matches_prefix target k' = true → (String.length k' ≤ String.length k)%nat.
Proof.
  unfold find_most_specific_rule. split.
  - intros (H1 & H2 & H3)%find_in_Some. apply elem_of_map_to_list in H1. split_and!; [done..|].
    intros k' [r' Hr'] Hm. apply (H3 (k', r')); [by apply elem_of_map_to_list|done].
  - intros (H1 & H2 & H3). destruct (find_in target (map_to_list (rules f))) as [[k' r']|] eqn:E.
    + apply find_in_Some in E as (G1 & G2 & G3). apply elem_of_map_to_list in G1. simpl in *.
      assert (k' = k) as ->; [|congruence]. apply (matches_length target); [done..|]. apply Nat.le_antisymm; [apply H3; eauto|].
      apply (G3 (k, r)); [by apply elem_of_map_to_list|done].
    + rewrite find_in_None in E. specialize (E (k, r)). simpl in E. rewrite E in H2; [done|by apply elem_of_map_to_list].
Qed.

Lemma find_rule_None f target :
  find_most_specific_rule f target = None ↔ ∀ k, is_Some (rules f !! k) → target_matches_prefix target k = false.
Proof.
  unfold find_most_specific_rule. rewrite find_in_None. split.
  - intros H k [r Hr]. apply (H (k, r)). by apply elem_of_map_to_list.
  - intros H [k r] Hk. apply H. exists r. by apply elem_of_map_to_list.
Qed.

(** [find_in] does not depend on the order in which the map gives its rules. *)
Lemma find_in_order f target l : l ≡ₚ map_to_list (rules f) → find_in target l = find_most_specific_rule f target.
Proof.
  intros Hp. symmetry. destruct (find_in target l) as [[k r]|] eqn:E.
  - apply find_in_Some in E as (H1 & H2 & H3). rewrite Hp in H1. apply elem_of_map_to_list in H1. apply find_rule_Some. split_and!; [done..|].
    intros k' [r' Hr'] Hm. apply (H3 (k', r')); [|done]. rewrite Hp. by apply elem_of_map_to_list.
  - rewrite find_in_None in E. apply find_rule_None. intros k [r Hr]. apply (E (k, r)). rewrite Hp. by apply elem_of_map_to_list.
Qed.

(** ** The most permissive level *)

Lemma foldl_filter_max_le m ls :
  filter_rank m ≤ filter_rank (foldl filter_max m ls) ∧ ∀ l, l ∈ ls → filter_rank l ≤ filter_rank (foldl filter_max m ls).
Proof.
  revert m. induction ls as [|l0 ls IH]; intros m; simpl; [split; [done|]; by intros l []%elem_of_nil|].
  destruct (IH (filter_max m l0)) as [H1 H2]. rewrite filter_rank_max in H1. split; [lia|].
  intros l [->|Hl]%elem_of_cons; [lia|by apply H2].
Qed.

Lemma max_level_of_ge ls m : max_level_of ls = Some m → ∀ l, l ∈ ls → filter_rank l ≤ filter_rank m.
Proof.
  destruct ls as [|l0 ls]; [done|]. intros [= <-] l. destruct (foldl_filter_max_le l0 ls) as [H1 H2].
  intros [->|Hl]%elem_of_cons; [done|by apply H2].
Qed.

Lemma filter_max_level_ge f :
  filter_rank (default_level f) ≤ filter_rank (filter_max_level f) ∧
  ∀ k r, rules f !! k = Some r → filter_rank r.1 ≤ filter_rank (filter_max_level f).
Proof.
  unfold filter_max_level. destruct (max_level_of _) as [m|] eqn:E.
  - rewrite filter_rank_max. split; [lia|]. intros k r Hr. pose proof (max_level_of_ge _ _ E r.1) as H.
    enough (filter_rank r.1 ≤ filter_rank m) by lia. apply H. apply list_elem_of_fmap. exists (k, r). split; [done|].
    by apply elem_of_map_to_list.
  - split; [done|]. intros k r Hr. exfalso. assert (Hin : (k, r) ∈ map_to_list (rules f)) by (by apply elem_of_map_to_list).
    destruct (map_to_list (rules f)); [by apply elem_of_nil in Hin|done].
Qed.

Lemma filter_enabled_max_level f l target : filter_enabled f l target = true → level_le l (filter_max_level f) = true.
Proof.
  unfold filter_enabled, level_le. destruct (filter_max_level_ge f) as [Hd Hr].
  destruct (find_most_specific_rule f target) as [[k [lf a]]|] eqn:E; rewrite !bool_decide_eq_true; intros Hl; [|lia].
  apply find_rule_Some in E as (E & _). apply Hr in E. simpl in E. lia.
Qed.

(** ** The counter of drops: the lines printed account for every message reported, and are a second apart. *)
Definition record_drops (times : list Z) (d : DropCounter) : DropCounter * list (Z * Z) :=
  foldl (λ '(d, out) now, let '(d', o) := record_drop now d in (d', out ++ option_list o)) (d, []) times.

Definition sum_lines (out : list (Z * Z)) : Z := foldr (λ x n, x.1 + n) 0 out.

Lemma sum_lines_app o1 o2 : sum_lines (o1 ++ o2) = sum_lines o1 + sum_lines o2.
Proof. unfold sum_lines. induction o1 as [|x o1 IH]; simpl; [done|]. rewrite IH. lia. Qed.

Lemma record_drop_spec now d d' o : record_drop now d = (d', o) →
  dropped d' = dropped d + 1 ∧ reported d' = reported d + sum_lines (option_list o) ∧
  (is_Some o ↔ REPORT_INTERVAL_MS ≤ Z.max 0 (now - last_report_ms d)) ∧
  (reported d ≤ dropped d → reported d' ≤ dropped d').
Proof.
  unfold record_drop. case_decide as Hd; intros [= <- <-]; simpl.
  - split_and!; try lia. by split; eauto.
  - split_and!; try lia. split; [by intros []|done].
Qed.

Lemma record_drops_spec times d d' out : record_drops times d = (d', out) →
  dropped d' = dropped d + Z.of_nat (length times) ∧ reported d' = reported d + sum_lines out ∧
  (reported d ≤ dropped d → reported d' ≤ dropped d').
Proof.
  unfold record_drops. revert d' out. induction times as [|now times IH] using rev_ind; intros d' out.
  - intros [= <- <-]. simpl. split_and!; lia.
  - rewrite foldl_app. simpl. destruct (foldl _ (d, []) times) as [d1 out1]. destruct (IH d1 out1 eq_refl) as (H1 & H2 & H3).
    destruct (record_drop now d1) as [d2 o] eqn:E. intros [= <- <-]. apply record_drop_spec in E as (G1 & G2 & _ & G4).
    rewrite length_app, sum_lines_app. simpl. split_and!; [lia|lia|]. intros H. apply G4, H3, H.
Qed.
