(* ===== verification/LogChannel.v ===== *)
(** * The bounded channels of the logging crate ([channels/src/mpsc/bounded_v3])

    The appenders, the custom streams and the error reports go through bounded channels of [fibre::mpsc].

    [Mpsc] models the channel itself: a sender claims a ticket ([g_tail]), checks its credit again, and writes its
    message into the slot of the ticket, or a tombstone when the credit is gone; the one receiver takes the slots in the
    order of the tickets and stops at a slot that is not written yet.  Any number of calls of senders and one call of
    the receiver interleave; a step is one access to a word the others can see.  A ticket is a natural number: the
    64-bit counter does not wrap in the life of a process.  The chunks of slots, which are reused once
    drained, are one unbounded array here; [awake], parking and the wake-ups are left out: a sender that waits may look again at any time,
    and so may a receiver that waits with a timeout.  Only blocking senders and a blocking receiver are modelled (the
    logging crate makes no others), one handle for all the senders, and no batches.

    [BoundedChannel] is what the router of events ([LogProcessor], [LogRoute]) relies on when its sends are not
    interrupted; [mpsc_laws] proves it of the model. *)

From stdpp Require Import list gmap.
From S2P Require Import Prelude Threads.

(** The outcomes of [try_send] and of [try_recv]. *)
Inductive SendResult := Sent | Full | Closed.

#[export] Instance SendResult_eq_dec : EqDecision SendResult.
Proof. solve_decision. Defined.

Inductive RecvResult (T : Type) := Got (x : T) | Empty | Disconnected.
Arguments Got {T}. Arguments Empty {T}. Arguments Disconnected {T}.

Class BoundedChannel (C T : Type) := {
  queued : C → list T;
  has_room : C → bool;
  is_closed : C → bool;
  try_send : C → T → C * SendResult;
  (** [None] while the caller waits for room; the flag is false when the channel was closed. *)
  send : C → T → option (C * bool);
  chan_close : C → C
}.

Class BoundedChannelLaws (C T : Type) `{!BoundedChannel C T} : Prop := {
  try_send_closed c x : is_closed c = true → try_send c x = (c, Closed);
  try_send_full c x : is_closed c = false → has_room c = false → try_send c x = (c, Full);
  try_send_sent c x : is_closed c = false → has_room c = true →
    ∃ c', try_send c x = (c', Sent) ∧ queued c' = queued c ++ [x] ∧ is_closed c' = false;
  send_closed c x : is_closed c = true → send c x = Some (c, false);
  send_waits c x : is_closed c = false → has_room c = false → send c x = None;
  send_sent c x : is_closed c = false → has_room c = true →
    ∃ c', send c x = Some (c', true) ∧ queued c' = queued c ++ [x] ∧ is_closed c' = false;
  close_keeps c : queued (chan_close c) = queued c ∧ is_closed (chan_close c) = true
}.

Module Mpsc.
(** [slots]: what is written at a ticket, a message or a tombstone; a slot the receiver took, or nobody wrote, is not in the map.
    [pos] and [unpublished] are of the receiver's [Head].  [closed] is the flag of the senders' handle, [gone] that the count
    of handles is zero. *)
Record Channel (T : Type) := mk_channel {
  cap : nat; g_tail : nat; progress : nat; drained : nat; slots : gmap nat (option T);
  pos : nat; unpublished : nat; closed : bool; gone : bool; receiver_dropped : bool
}.
Arguments mk_channel {T}. Arguments cap {T}. Arguments g_tail {T}. Arguments progress {T}. Arguments drained {T}. Arguments slots {T}.
Arguments pos {T}. Arguments unpublished {T}. Arguments closed {T}. Arguments gone {T}. Arguments receiver_dropped {T}.

(** Which counter gates a claim: [progress], or [drained]. *)
Inductive Gate := Hot | Cold.

(** What a sender that waits does next. *)
Inductive Retry := Try_hot | Try_cold | Check_again | Publish.

(** Where a call of a sender is; [b]: it is [send], not [try_send]. *)
Inductive SendPc (T : Type) :=
  | S_start (b : bool) (x : T) | S_alive (b : bool) (x : T)
  | S_tail (g : Gate) (b : bool) (x : T) | S_gate (g : Gate) (b : bool) (x : T) (t : nat)
  | S_claim (g : Gate) (b : bool) (x : T) | S_verify (g : Gate) (b : bool) (x : T) (t : nat)
  | S_write (g : Gate) (b : bool) (x : T) (t : nat) (set : bool)
  | S_blocked (x : T) | S_publish (x : T) (d : nat)
  | S_sent (x : T) (t : nat) | S_refused (x : T) (r : SendResult).
Arguments S_start {T}. Arguments S_alive {T}. Arguments S_tail {T}. Arguments S_gate {T}. Arguments S_claim {T}. Arguments S_verify {T}.
Arguments S_write {T}. Arguments S_blocked {T}. Arguments S_publish {T}. Arguments S_sent {T}. Arguments S_refused {T}.

(** Where the receiver's call is: at a slot, before it stores [drained], at [g_tail], at the count of senders; at a slot and
    before the store in [drain_straggler]; before [flush_progress]. *)
Inductive RecvPc := R_deq | R_drained | R_tail | R_alive | R_straggler | R_last | R_flush (disconnected : bool).


Section Code.
Context {T : Type}.
Implicit Types (c : Channel T) (p : SendPc T) (x : T) (t d : nat) (g : Gate) (b : bool).

Definition new (cap : nat) : Channel T := mk_channel (cap `max` 1) 0 0 0 ∅ 0 0 false false false.

Definition set_tail t c := mk_channel (cap c) t (progress c) (drained c) (slots c) (pos c) (unpublished c) (closed c) (gone c) (receiver_dropped c).
Definition set_progress d c := mk_channel (cap c) (g_tail c) d (drained c) (slots c) (pos c) (unpublished c) (closed c) (gone c) (receiver_dropped c).
Definition set_drained d c := mk_channel (cap c) (g_tail c) (progress c) d (slots c) (pos c) (unpublished c) (closed c) (gone c) (receiver_dropped c).

(** [write_slot]: the message, or [SKIP]. *)
Definition write_slot t (v : option T) c :=
  mk_channel (cap c) (g_tail c) (progress c) (drained c) (<[t := v]> (slots c)) (pos c) (unpublished c) (closed c) (gone c) (receiver_dropped c).

(** The receiver leaves a slot [EMPTY] and goes on. *)
Definition advance c :=
  mk_channel (cap c) (g_tail c) (progress c) (drained c) (delete (pos c) (slots c)) (S (pos c)) (S (unpublished c)) (closed c) (gone c) (receiver_dropped c).

(** [close] of the handle: the flag, then the count. *)
Definition close_flag c :=
  mk_channel (cap c) (g_tail c) (progress c) (drained c) (slots c) (pos c) (unpublished c) true (gone c) (receiver_dropped c).
Definition drop_sender c :=
  mk_channel (cap c) (g_tail c) (progress c) (drained c) (slots c) (pos c) (unpublished c) (closed c) (closed c) (receiver_dropped c).
Definition drop_receiver c :=
  mk_channel (cap c) (g_tail c) (progress c) (drained c) (slots c) (pos c) (unpublished c) (closed c) (gone c) true.

(** The windows, [t.wrapping_sub(counter) < cap]: a counter past [t] wraps. *)
Definition counter g c : nat := match g with Hot => progress c | Cold => drained c end.
Definition window g t c : bool := (counter g c <=? t)%nat && (t - counter g c <? cap c)%nat.

(** [try_send]; [try_send_now] and [try_send_now_cold]; and [send_inner], which tries again as long as it waits. *)
Definition send_step (next : Retry) c p : option (Channel T * SendPc T) :=
  match p with
  | S_start b x => Some (c, if closed c then S_refused x Closed else S_alive b x)
  | S_alive b x => Some (c, if receiver_dropped c then S_refused x Closed else S_tail Hot b x)
  | S_tail g b x => Some (c, S_gate g b x (g_tail c))
  | S_gate g b x t =>
      Some (c, if window g t c then S_claim g b x
               else if b then S_blocked x else match g with Hot => S_tail Cold b x | Cold => S_refused x Full end)
  | S_claim g b x => Some (set_tail (S (g_tail c)) c, S_verify g b x (g_tail c))
  | S_verify g b x t => Some (c, S_write g b x t (window g t c))
  | S_write g b x t true => Some (write_slot t (Some x) c, S_sent x t)
  | S_write g b x t false => Some (write_slot t None c, S_tail g b x)
  | S_blocked x =>
      Some (c, match next with Try_hot => S_tail Hot true x | Try_cold => S_tail Cold true x | Check_again => S_start true x
               | Publish => S_publish x (drained c) end)
  | S_publish x d => Some (set_progress (progress c `max` d) c, S_blocked x)
  | S_sent _ _ | S_refused _ _ => None
  end.

(** [flush_progress]. *)
Definition flush_progress c : Channel T :=
  if (0 <? unpublished c)%nat then
    mk_channel (cap c) (g_tail c) (pos c) (pos c) (slots c) (pos c) 0 (closed c) (gone c) (receiver_dropped c)
  else c.

(** [try_recv], and [recv_timeout] until it answers, times out or waits: [deq_once], and [drain_straggler] once no sender is left.
    No [async] sender waits, so that [deq_once] itself publishes nothing. *)
Definition recv_step c (r : RecvPc) : Channel T * (RecvPc + RecvResult T) :=
  match r with
  | R_deq =>
      match slots c !! pos c with
      | Some (Some x) => (set_drained (S (pos c)) (advance c), inr (Got x))
      | Some None => (advance c, inl R_deq)
      | None => (c, inl R_drained)
      end
  | R_drained => (set_drained (pos c) c, inl R_tail)
  | R_tail => (c, inl (if (pos c <? g_tail c)%nat then R_flush false else R_alive))
  | R_alive => (c, inl (if gone c then R_straggler else R_flush false))
  | R_straggler =>
      match slots c !! pos c with
      | Some (Some x) => (set_drained (S (pos c)) (advance c), inr (Got x))
      | Some None => (advance c, inl R_straggler)
      | None => (c, inl R_last)
      end
  | R_last => (set_drained (pos c) c, inl (R_flush true))
  | R_flush disconnected => (flush_progress c, inr (if disconnected then Disconnected else Empty))
  end.

(** ** What was accepted *)
Definition accepted_at (ps : list (SendPc T)) t : option T :=
  head (omap (λ p, match p with S_sent x t' => if decide (t' = t) then Some x else None | _ => None end) ps).

(** The accepted messages whose tickets are below [n], in the order of the tickets. *)
Definition accepted (ps : list (SendPc T)) (n : nat) : list T := omap (accepted_at ps) (seq 0 n).

(** The messages in the slots. *)
Definition waiting c : list T := omap (λ t, mjoin (slots c !! t)) (seq (pos c) (g_tail c - pos c)).

Definition returned p : Prop := match p with S_sent _ _ | S_refused _ _ => True | _ => False end.
End Code.

(** ** The tickets *)
Section Inv.
Context {T : Type}.
Implicit Types (c : Channel T) (p q : SendPc T) (ps : list (SendPc T)) (x : T) (t d j k n : nat).

(** The ticket of a slot to be written; the ticket of a call. *)
Definition held p : option nat := match p with S_verify _ _ _ t | S_write _ _ _ t _ => Some t | _ => None end.
Definition ticket p : option nat := match p with S_sent _ t => Some t | _ => held p end.

Definition slot_ok ps c t (v : option T) : Prop :=
  match v with
  | Some x => (t < pos c + cap c)%nat ∧ ∃ k, ps !! k = Some (S_sent x t)
  | None => ∀ k p, ps !! k = Some p → ticket p ≠ Some t
  end.

(** Every ticket is of one call; those the receiver has not passed are written, or held by the call that will write them. *)
Record mpsc_inv ps c : Prop := {
  mi_pos : (pos c ≤ g_tail c)%nat;
  mi_counters : (progress c ≤ pos c ∧ drained c ≤ pos c)%nat;
  mi_held k p t : ps !! k = Some p → held p = Some t → (pos c ≤ t < g_tail c)%nat ∧ slots c !! t = None;
  mi_distinct j k p q t : ps !! j = Some p → ps !! k = Some q → ticket p = Some t → ticket q = Some t → j = k;
  mi_sent k x t : ps !! k = Some (S_sent x t) → (t < pos c)%nat ∨ slots c !! t = Some (Some x);
  mi_slot t v : slots c !! t = Some v → (pos c ≤ t < g_tail c)%nat ∧ slot_ok ps c t v;
  mi_claimed t : (pos c ≤ t < g_tail c)%nat → is_Some (slots c !! t) ∨ ∃ k p, ps !! k = Some p ∧ held p = Some t;
  mi_write k g b x t : ps !! k = Some (S_write g b x t true) → (t < pos c + cap c)%nat;
  mi_publish k x d : ps !! k = Some (S_publish x d) → (d ≤ pos c)%nat
}.

Lemma held_ticket p t : held p = Some t → ticket p = Some t.
Proof. by destruct p. Qed.

Lemma sent_below ps c k x t : mpsc_inv ps c → ps !! k = Some (S_sent x t) → (t < g_tail c)%nat.
Proof.
  intros Hi Hk. destruct (mi_sent _ _ Hi _ _ _ Hk) as [H|H]; [pose proof (mi_pos _ _ Hi); lia|]. destruct (mi_slot _ _ Hi _ _ H). lia.
Qed.

Lemma ticket_below ps c k p t : mpsc_inv ps c → ps !! k = Some p → ticket p = Some t → (t < g_tail c)%nat.
Proof.
  intros Hi Hk Ht. destruct p; simplify_eq/=; try (by eapply sent_below); by apply (mi_held _ _ Hi _ _ _ Hk eq_refl).
Qed.

(** ** The accepted messages *)
Lemma accepted_at_Some ps t x : accepted_at ps t = Some x → ∃ k, ps !! k = Some (S_sent x t).
Proof.
  intros H. apply head_Some_elem_of, list_elem_of_omap in H as (p & [k Hk]%list_elem_of_lookup & Hp). exists k.
  destruct p; try done. by case_decide; simplify_eq.
Qed.

Lemma accepted_at_sent ps c k x t : mpsc_inv ps c → ps !! k = Some (S_sent x t) → accepted_at ps t = Some x.
Proof.
  intros Hi Hk. destruct (accepted_at ps t) as [y|] eqn:E.
  - destruct (accepted_at_Some _ _ _ E) as [j Hj]. pose proof (mi_distinct _ _ Hi _ _ _ _ t Hj Hk eq_refl eq_refl) as ->. congruence.
  - unfold accepted_at in E. apply head_None in E. exfalso. apply list_elem_of_lookup_2, list_elem_of_lookup in Hk as [i Hi'].
    assert (x ∈ omap (λ p, match p with S_sent x t' => if decide (t' = t) then Some x else None | _ => None end) ps) as Hin.
    { apply list_elem_of_omap. exists (S_sent x t). split; [by apply list_elem_of_lookup_2 in Hi'|]. by rewrite decide_True. }
    rewrite E in Hin. by apply not_elem_of_nil in Hin.
Qed.

Lemma accepted_at_None ps t : (∀ k x, ps !! k ≠ Some (S_sent x t)) → accepted_at ps t = None.
Proof. intros H. destruct (accepted_at ps t) as [x|] eqn:E; [|done]. destruct (accepted_at_Some _ _ _ E) as [k Hk]. by destruct (H k x). Qed.

Lemma accepted_S ps n : accepted ps (S n) = accepted ps n ++ option_list (accepted_at ps n).
Proof. unfold accepted. rewrite seq_S, omap_app. simpl. by destruct (accepted_at ps n). Qed.

Lemma accepted_ext ps ps' n : (∀ t, (t < n)%nat → accepted_at ps t = accepted_at ps' t) → accepted ps n = accepted ps' n.
Proof.
  intros H. induction n as [|n IH]; [done|]. rewrite !accepted_S, IH, H; [done|lia|]. intros t Ht. apply H. lia.
Qed.

Lemma accepted_kept ps c ps' c' n :
  mpsc_inv ps c → mpsc_inv ps' c' → (∀ t x, (t < n)%nat → (∃ k, ps !! k = Some (S_sent x t)) ↔ ∃ k, ps' !! k = Some (S_sent x t)) →
  accepted ps' n = accepted ps n.
Proof.
  intros Hi Hi' H. apply accepted_ext. intros t Ht. destruct (accepted_at ps t) as [x|] eqn:E.
  - destruct (accepted_at_Some _ _ _ E) as [k Hk]. destruct (proj1 (H t x Ht)) as [j Hj]; [by exists k|]. by eapply accepted_at_sent.
  - apply accepted_at_None. intros k x Hk. destruct (proj2 (H t x Ht)) as [j Hj]; [by exists k|].
    by rewrite (accepted_at_sent _ _ _ _ _ Hi Hj) in E.
Qed.

(** ** A sender moves *)
Definition same_slots c c' : Prop := pos c' = pos c ∧ g_tail c' = g_tail c ∧ slots c' = slots c ∧ cap c' = cap c.

(** A call without a ticket that takes none. *)
Lemma quiet_inv ps c c' k p p' :
  mpsc_inv ps c → ps !! k = Some p → same_slots c c' → (progress c' ≤ pos c ∧ drained c' ≤ pos c)%nat → ticket p = None → ticket p' = None →
  (∀ x d, p' = S_publish x d → (d ≤ pos c)%nat) → mpsc_inv (<[k:=p']> ps) c'.
Proof.
  intros Hi Hk (E1&E2&E3&E4) Hc Hp Hp' Hd.
  assert (Hh : held p = None ∧ held p' = None) by (by destruct p, p').
  assert (Hw : ∀ g b x t s, p' ≠ S_write g b x t s) by (by destruct p'). assert (Hs : ∀ x t, p' ≠ S_sent x t) by (by destruct p').
  assert (Hs' : ∀ x t, p ≠ S_sent x t) by (by destruct p).
  split; rewrite ?E1, ?E2, ?E3, ?E4; [apply Hi|done|..].
  - intros j q t [[-> ->]|[_ Hj]]%insert_other Hq; [by destruct Hh; congruence|by apply (mi_held _ _ Hi j q)].
  - intros i j q r t [[-> ->]|[Ni Hq]]%insert_other [[-> ->]|[Nj Hr]]%insert_other; try congruence. by apply (mi_distinct _ _ Hi).
  - intros j x t [[-> E]|[_ Hj]]%insert_other; [by destruct (Hs x t)|by apply (mi_sent _ _ Hi j)].
  - intros t v Hv. destruct (mi_slot _ _ Hi t v Hv) as [Ht Hok]. split; [done|]. destruct v as [x|]; simpl in *; rewrite ?E1, ?E4.
    + destruct Hok as [? [j Hj]]. split; [done|]. exists j. rewrite list_lookup_insert_ne; [done|]. intros ->. destruct (Hs' x t). congruence.
    + intros j q [[-> ->]|[_ Hj]]%insert_other; [by rewrite Hp'|by apply (Hok j)].
  - intros t Ht. destruct (mi_claimed _ _ Hi t Ht) as [?|(j&q&Hj&Hq)]; [by left|right]. exists j, q. split; [|done].
    rewrite list_lookup_insert_ne; [done|]. intros ->. destruct Hh. congruence.
  - intros j g b x t [[-> E]|[_ Hj]]%insert_other; [by destruct (Hw g b x t true)|by apply (mi_write _ _ Hi j g b x)].
  - intros j x d [[-> E]|[_ Hj]]%insert_other; [by apply (Hd x d)|by apply (mi_publish _ _ Hi j x)].
Qed.

(** A ticket is claimed. *)
Lemma claim_inv ps c k g b x :
  mpsc_inv ps c → ps !! k = Some (S_claim g b x) → mpsc_inv (<[k:=S_verify g b x (g_tail c)]> ps) (set_tail (S (g_tail c)) c).
Proof.
  intros Hi Hk. pose proof (mi_pos _ _ Hi) as Hp.
  assert (Hfree : slots c !! g_tail c = None).
  { destruct (slots c !! g_tail c) as [v|] eqn:E; [|done]. destruct (mi_slot _ _ Hi _ _ E). lia. }
  assert (Hnew : ∀ j q t, ps !! j = Some q → ticket q = Some t → t ≠ g_tail c) by (intros j q t Hj Hq ->; pose proof (ticket_below _ _ _ _ _ Hi Hj Hq); lia).
  split; simpl; [lia|apply Hi|..].
  - intros j q t [[-> ->]|[_ Hj]]%insert_other Hq; simplify_eq/=; [split; [lia|done]|]. destruct (mi_held _ _ Hi j q t Hj Hq). split; [lia|done].
  - intros i j q r t [[-> ->]|[Ni Hq]]%insert_other [[-> ->]|[Nj Hr]]%insert_other Tq Tr; simplify_eq/=; try done;
      [by destruct (Hnew j r _ Hr Tr)|by destruct (Hnew i q _ Hq Tq)|by eapply (mi_distinct _ _ Hi)].
  - intros j y t [[-> ?]|[_ Hj]]%insert_other; [done|by apply (mi_sent _ _ Hi j)].
  - intros t v Hv. destruct (mi_slot _ _ Hi t v Hv) as [Ht Hok]. split; [lia|]. destruct v as [y|]; simpl in *.
    + destruct Hok as [? [j Hj]]. split; [done|]. exists j. rewrite list_lookup_insert_ne; [done|]. intros ->. congruence.
    + intros j q [[-> ->]|[_ Hj]]%insert_other; [|by apply (Hok j)]. simpl. intros [= E]. subst t. congruence.
  - intros t Ht. destruct (decide (t = g_tail c)) as [->|Nt].
    + right. exists k, (S_verify g b x (g_tail c)). split; [|done]. apply list_lookup_insert_eq. by eapply lookup_lt_Some.
    + destruct (mi_claimed _ _ Hi t ltac:(lia)) as [?|(j&q&Hj&Hq)]; [by left|right]. exists j, q. split; [|done].
      rewrite list_lookup_insert_ne; [done|]. intros ->. rewrite Hk in Hj. by injection Hj as <-.
  - intros j h b' y t [[-> ?]|[_ Hj]]%insert_other; [done|by apply (mi_write _ _ Hi j h b' y)].
  - intros j y d [[-> ?]|[_ Hj]]%insert_other; [done|by apply (mi_publish _ _ Hi j y)].
Qed.

(** The credit is checked again. *)
Lemma verify_inv ps c k g b x t :
  mpsc_inv ps c → ps !! k = Some (S_verify g b x t) → mpsc_inv (<[k:=S_write g b x t (window g t c)]> ps) c.
Proof.
  intros Hi Hk. destruct (mi_counters _ _ Hi) as [C1 C2].
  assert (Hw : window g t c = true → (t < pos c + cap c)%nat).
  { unfold window, counter. intros [H1%Nat.leb_le H2%Nat.ltb_lt]%andb_prop. destruct g; lia. }
  split; try apply Hi.
  - intros j q u [[-> ->]|[_ Hj]]%insert_other Hq; [|by apply (mi_held _ _ Hi j q)]. simplify_eq/=. by apply (mi_held _ _ Hi k _ _ Hk).
  - intros i j q r u [[-> ->]|[Ni Hq]]%insert_other [[-> ->]|[Nj Hr]]%insert_other Tq Tr; simplify_eq/=; try done;
      [symmetry; by apply (mi_distinct _ _ Hi j k r _ u Hr Hk)|by apply (mi_distinct _ _ Hi i k q _ u Hq Hk)|by eapply (mi_distinct _ _ Hi)].
  - intros j y u [[-> ?]|[_ Hj]]%insert_other; [done|by apply (mi_sent _ _ Hi j)].
  - intros u v Hv. destruct (mi_slot _ _ Hi u v Hv) as [Hu Hok]. split; [done|]. destruct v as [y|]; simpl in *.
    + destruct Hok as [? [j Hj]]. split; [done|]. exists j. rewrite list_lookup_insert_ne; [done|]. intros ->. congruence.
    + intros j q [[-> ->]|[_ Hj]]%insert_other; [by apply (Hok k _ Hk)|by apply (Hok j)].
  - intros u Hu. destruct (mi_claimed _ _ Hi u Hu) as [?|(j&q&Hj&Hq)]; [by left|right]. destruct (decide (j = k)) as [->|Nj].
    + rewrite Hk in Hj. injection Hj as <-. eexists k, _. split; [apply list_lookup_insert_eq; by eapply lookup_lt_Some|done].
    + exists j, q. by rewrite list_lookup_insert_ne.
  - intros j h b' y u [[-> E]|[_ Hj]]%insert_other; [|by apply (mi_write _ _ Hi j h b' y)]. injection E as -> -> -> -> Es. by apply Hw.
  - intros j y d [[-> ?]|[_ Hj]]%insert_other; [done|by apply (mi_publish _ _ Hi j y)].
Qed.

(** The slot is written. *)
Lemma write_inv ps c k g b x t (s : bool) :
  mpsc_inv ps c → ps !! k = Some (S_write g b x t s) →
  mpsc_inv (<[k:=if s then S_sent x t else S_tail g b x]> ps) (write_slot t (if s then Some x else None) c).
Proof.
  intros Hi Hk. destruct (mi_held _ _ Hi k _ t Hk eq_refl) as [Ht Hfree].
  assert (Hlt : (k < length ps)%nat) by (by eapply lookup_lt_Some).
  assert (Hother : ∀ j q, j ≠ k → ps !! j = Some q → ticket q ≠ Some t) by (intros j q Nj Hj Hq; by destruct Nj, (mi_distinct _ _ Hi j k q _ t Hj Hk Hq eq_refl)).
  split; simpl; try apply Hi.
  - intros j q u [[-> ->]|[Nj Hj]]%insert_other Hq; [by destruct s|]. destruct (mi_held _ _ Hi j q u Hj Hq) as [? ?]. split; [done|].
    rewrite lookup_insert_ne; [done|]. intros ->. by destruct (Hother j q Nj Hj), (held_ticket q u Hq).
  - intros i j q r u [[-> ->]|[Ni Hq]]%insert_other [[-> ->]|[Nj Hr]]%insert_other Tq Tr; try done; [destruct s|destruct s|by eapply (mi_distinct _ _ Hi)];
      simplify_eq/=; [by destruct (Hother j r Nj Hr)|by destruct (Hother i q Ni Hq)].
  - intros j y u [[-> E]|[Nj Hj]]%insert_other; [destruct s; simplify_eq; right; by apply lookup_insert_eq|].
    destruct (mi_sent _ _ Hi j y u Hj) as [?|Hu]; [by left|right]. rewrite lookup_insert_ne; [done|]. intros ->. congruence.
  - intros u v [[<- <-]|[Nu Hu]]%lookup_insert_Some.
    + split; [done|]. destruct s; simpl.
      * split; [by apply (mi_write _ _ Hi k g b x)|]. exists k. by apply list_lookup_insert_eq.
      * intros j q [[-> ->]|[Nj Hj]]%insert_other; [done|by apply (Hother j)].
    + destruct (mi_slot _ _ Hi u v Hu) as [Hr Hok]. split; [done|]. destruct v as [y|]; simpl in *.
      * destruct Hok as [? [j Hj]]. split; [done|]. exists j. rewrite list_lookup_insert_ne; [done|]. intros ->. congruence.
      * intros j q [[-> ->]|[_ Hj]]%insert_other; [destruct s; simpl; congruence|by apply (Hok j)].
  - intros u Hu. destruct (decide (u = t)) as [->|Nu]; [left; by rewrite lookup_insert_eq|]. rewrite lookup_insert_ne by done.
    destruct (mi_claimed _ _ Hi u Hu) as [?|(j&q&Hj&Hq)]; [by left|right]. exists j, q. split; [|done].
    rewrite list_lookup_insert_ne; [done|]. intros ->. rewrite Hk in Hj. injection Hj as <-. simpl in Hq. congruence.
  - intros j h b' y u [[-> E]|[_ Hj]]%insert_other; [by destruct s|by apply (mi_write _ _ Hi j h b' y)].
  - intros j y d [[-> E]|[_ Hj]]%insert_other; [by destruct s|by apply (mi_publish _ _ Hi j y)].
Qed.

Lemma send_step_tickets next c p c' p' :
  send_step next c p = Some (c', p') → pos c' = pos c ∧ cap c' = cap c ∧ (∀ x t, p ≠ S_sent x t) ∧ (g_tail c ≤ g_tail c')%nat ∧
  closed c' = closed c ∧ gone c' = gone c ∧ receiver_dropped c' = receiver_dropped c.
Proof. intros H. destruct p as [| | | | | | ? ? ? ? []| | | |]; simplify_eq/=; split_and!; try done; lia. Qed.

(** No step of a sender changes what was accepted before the receiver's position. *)
Lemma send_step_inv next ps c k p c' p' :
  mpsc_inv ps c → ps !! k = Some p → send_step next c p = Some (c', p') →
  mpsc_inv (<[k:=p']> ps) c' ∧ accepted (<[k:=p']> ps) (pos c) = accepted ps (pos c).
Proof.
  intros Hi Hk Hst. destruct (send_step_tickets _ _ _ _ _ Hst) as (Ep & _ & Hs & _). pose proof (mi_counters _ _ Hi) as [C1 C2].
  assert (Hi' : mpsc_inv (<[k:=p']> ps) c').
  { assert (Hq : ∀ p', same_slots c c' → (progress c' ≤ pos c ∧ drained c' ≤ pos c)%nat → ticket p = None → ticket p' = None →
      (∀ x d, p' = S_publish x d → (d ≤ pos c)%nat) → mpsc_inv (<[k:=p']> ps) c') by (intros p''; by apply (quiet_inv ps c c' k p p'')).
    destruct p as [b x|b x|g b x|g b x t|g b x|g b x t|g b x t s|x|x d|x t|x r]; try done.
    - simplify_eq/=. apply Hq; try done; by destruct (closed c').
    - simplify_eq/=. apply Hq; try done; by destruct (receiver_dropped c').
    - simplify_eq/=. by apply Hq.
    - simplify_eq/=. apply Hq; try done; by destruct (window g t c'), b, g.
    - simplify_eq/=. by apply claim_inv.
    - simplify_eq/=. by apply verify_inv.
    - destruct s; simplify_eq/=; [apply (write_inv _ _ k g b x t true Hi Hk)|apply (write_inv _ _ k g b x t false Hi Hk)].
    - simplify_eq/=. apply Hq; try done; destruct next; try done. intros x' d [= <- <-]; lia.
    - simplify_eq/=. apply Hq; try done. simpl. pose proof (mi_publish _ _ Hi k x d Hk). lia. }
  split; [done|]. apply (accepted_kept ps c _ c'); [done..|]. intros t x Ht. split; intros [j Hj].
  - exists j. rewrite list_lookup_insert_ne; [done|]. intros ->. rewrite Hk in Hj. injection Hj as ->. by destruct (Hs x t).
  - apply insert_other in Hj as [[-> E]|[_ Hj]]; [|by exists j]. exfalso. subst p'.
    destruct p as [b y|b y|g b y|g b y u|g b y|g b y u|g b y u []|y|y d|y u|y r]; simplify_eq/=; try done.
    + by destruct (closed c').
    + by destruct (receiver_dropped c').
    + by destruct (window g u c'), b, g.
    + destruct (mi_held _ _ Hi k _ t Hk eq_refl). lia.
    + by destruct next.
Qed.

(** A call begins. *)
Lemma begin_inv ps c b x : mpsc_inv ps c → mpsc_inv (ps ++ [S_start b x]) c ∧ accepted (ps ++ [S_start b x]) (pos c) = accepted ps (pos c).
Proof.
  intros Hi. assert (Hl : ∀ k p, (ps ++ [S_start b x]) !! k = Some p → ps !! k = Some p ∨ p = S_start b x).
  { intros k p [?|[_ Hp]]%lookup_app_Some; [by left|right]. by apply list_lookup_singleton_Some in Hp as [_ <-]. }
  assert (Hi' : mpsc_inv (ps ++ [S_start b x]) c).
  { split; try apply Hi.
    - intros k p t [Hk| ->]%Hl Hp; [by apply (mi_held _ _ Hi k p)|done].
    - intros j k p q t [Hj| ->]%Hl [Hk| ->]%Hl Tp Tq; try done. by eapply (mi_distinct _ _ Hi).
    - intros k y t [Hk|?]%Hl; [by apply (mi_sent _ _ Hi k)|done].
    - intros t v Hv. destruct (mi_slot _ _ Hi t v Hv) as [Ht Hok]. split; [done|]. destruct v as [y|]; simpl in *.
      + destruct Hok as [? [k Hk]]. split; [done|]. exists k. by apply lookup_app_l_Some.
      + intros k p [Hk| ->]%Hl; [by apply (Hok k)|done].
    - intros t Ht. destruct (mi_claimed _ _ Hi t Ht) as [?|(k&p&Hk&Hp)]; [by left|right]. exists k, p. split; [by apply lookup_app_l_Some|done].
    - intros k g b' y t [Hk|?]%Hl; [by apply (mi_write _ _ Hi k g b' y)|done].
    - intros k y d [Hk|?]%Hl; [by apply (mi_publish _ _ Hi k y)|done]. }
  split; [done|]. apply (accepted_kept ps c _ c); [done..|]. intros t y _. split; intros [k Hk]; [exists k; by apply lookup_app_l_Some|].
  apply Hl in Hk as [Hk|?]; [by exists k|done].
Qed.

(** ** The receiver moves *)
Lemma counters_inv ps c c' :
  mpsc_inv ps c → same_slots c c' → (progress c' ≤ pos c ∧ drained c' ≤ pos c)%nat → mpsc_inv ps c'.
Proof.
  intros Hi (E1&E2&E3&E4) Hc. destruct Hi as [I1 I2 I3 I4 I5 I6 I7 I8 I9]. split; rewrite ?E1, ?E2, ?E3, ?E4; try done.
  intros t v Hv. destruct (I6 t v Hv) as [? Hok]. split; [done|]. destruct v; simpl in *; by rewrite ?E1, ?E4.
Qed.

Lemma advance_inv ps c v :
  mpsc_inv ps c → slots c !! pos c = Some v →
  mpsc_inv ps (advance c) ∧ mpsc_inv ps (set_drained (S (pos c)) (advance c)) ∧ accepted ps (S (pos c)) = accepted ps (pos c) ++ option_list v.
Proof.
  intros Hi Hv. destruct (mi_slot _ _ Hi _ _ Hv) as [Hp Hok]. destruct (mi_counters _ _ Hi) as [C1 C2].
  assert (Ha : mpsc_inv ps (advance c)).
  { split; simpl; [lia|lia|..]; try apply Hi.
    - intros k p t Hk Ht. destruct (mi_held _ _ Hi k p t Hk Ht) as [Hr Hn]. destruct (decide (t = pos c)) as [->|]; [congruence|].
      split; [lia|]. by rewrite lookup_delete_ne.
    - intros k x t Hk. destruct (decide (t = pos c)) as [->|]; [left; lia|]. rewrite lookup_delete_ne by done.
      destruct (mi_sent _ _ Hi k x t Hk); [left; lia|by right].
    - intros t w [Nt Hw]%lookup_delete_Some. destruct (mi_slot _ _ Hi t w Hw) as [Ht Hok']. split; [lia|].
      destruct w as [x|]; simpl in *; [|done]. destruct Hok' as [? ?]. split; [lia|done].
    - intros t Ht. rewrite lookup_delete_ne by lia. apply (mi_claimed _ _ Hi). lia.
    - intros k g b x t Hk. pose proof (mi_write _ _ Hi k g b x t Hk). lia.
    - intros k x d Hk. pose proof (mi_publish _ _ Hi k x d Hk). lia. }
  split; [done|]. split; [apply (counters_inv _ _ _ Ha); [done|simpl; lia]|].
  rewrite accepted_S. f_equal. destruct v as [x|]; simpl in *.
  - destruct Hok as [_ [k Hk]]. by rewrite (accepted_at_sent _ _ _ _ _ Hi Hk).
  - rewrite accepted_at_None; [done|]. intros k x Hk. by apply (Hok k _ Hk).
Qed.

Lemma flush_progress_slots c : same_slots c (flush_progress c) ∧ closed (flush_progress c) = closed c ∧ gone (flush_progress c) = gone c.
Proof. unfold flush_progress. by destruct (_ <? _)%nat. Qed.

(** The receiver's step takes the next accepted message when it answers [Got], and passes none when not. *)
Lemma recv_step_inv ps c r c' o :
  mpsc_inv ps c → recv_step c r = (c', o) →
  mpsc_inv ps c' ∧ g_tail c' = g_tail c ∧ closed c' = closed c ∧ gone c' = gone c ∧
  accepted ps (pos c') = accepted ps (pos c) ++ match o with inr (Got x) => [x] | _ => [] end.
Proof.
  intros Hi Hst. destruct (mi_counters _ _ Hi) as [C1 C2].
  assert (Hd : mpsc_inv ps (set_drained (pos c) c)) by (apply (counters_inv _ _ _ Hi); [done|simpl; lia]).
  destruct r; simpl in Hst.
  - destruct (slots c !! pos c) as [[x|]|] eqn:E; simplify_eq; [..|by rewrite app_nil_r].
    + by destruct (advance_inv _ _ _ Hi E) as (?&?&?).
    + by destruct (advance_inv _ _ _ Hi E) as (?&?&?).
  - simplify_eq. by rewrite app_nil_r.
  - simplify_eq. by rewrite app_nil_r.
  - simplify_eq. by rewrite app_nil_r.
  - destruct (slots c !! pos c) as [[x|]|] eqn:E; simplify_eq; [..|by rewrite app_nil_r].
    + by destruct (advance_inv _ _ _ Hi E) as (?&?&?).
    + by destruct (advance_inv _ _ _ Hi E) as (?&?&?).
  - simplify_eq. by rewrite app_nil_r.
  - simplify_eq. destruct (flush_progress_slots c) as [Hs [Hcl Hg]]. destruct Hs as (E1&E2&E3&E4). rewrite E1. split_and!; try done.
    + apply (counters_inv _ _ _ Hi); [done|]. unfold flush_progress. destruct (_ <? _)%nat; simpl; lia.
    + destruct disconnected; by rewrite app_nil_r.
Qed.
End Inv.

(** ** A send that nothing interrupts *)
Section Alone.
Context {T : Type}.
Implicit Types (c : Channel T) (p : SendPc T) (x : T) (b : bool).

(** A sender that waits tries [try_send_now_cold], as the one that was elected or woken does. *)
Fixpoint send_alone (fuel : nat) c p : Channel T * SendPc T :=
  match fuel with
  | O => (c, p)
  | S n => match send_step Try_cold c p with Some (c', p') => send_alone n c' p' | None => (c, p) end
  end.

Definition room c : bool := window Hot (g_tail c) c || window Cold (g_tail c) c.
Definition shut c : bool := closed c || receiver_dropped c.

Lemma send_alone_S n c p : send_alone (S n) c p = match send_step Try_cold c p with Some (c', p') => send_alone n c' p' | None => (c, p) end.
Proof. done. Qed.

Lemma send_alone_pos n c p : (pos c ≤ g_tail c → pos (send_alone n c p).1 ≤ g_tail (send_alone n c p).1)%nat.
Proof.
  revert c p. induction n as [|n IH]; intros c p H; [done|]. rewrite send_alone_S. destruct (send_step Try_cold c p) as [[c' p']|] eqn:E; [|done].
  apply IH. destruct (send_step_tickets _ _ _ _ _ E) as (? & _ & _ & ? & _). lia.
Qed.

Lemma alone_closed c b x : shut c = true → send_alone 12 c (S_start b x) = (c, S_refused x Closed).
Proof.
  unfold shut. intros H. rewrite send_alone_S. cbn [send_step]. destruct (closed c) eqn:Ec; [done|]. simpl in H. rewrite send_alone_S. cbn [send_step]. by rewrite H.
Qed.

(** A window looks at the counters and the capacity alone. *)
Lemma window_tail g t u c : window g t (set_tail u c) = window g t c.
Proof. by destruct g. Qed.

Lemma alone_sent c b x : shut c = false → room c = true →
  send_alone 12 c (S_start b x) = (write_slot (g_tail c) (Some x) (set_tail (S (g_tail c)) c), S_sent x (g_tail c)).
Proof.
  unfold shut, room. intros [H1 H2]%orb_false_elim Hr. do 4 (rewrite send_alone_S; cbn [send_step]; rewrite ?H1, ?H2).
  destruct (window Hot (g_tail c) c) eqn:E; simpl in Hr.
  - do 3 (rewrite send_alone_S; cbn [send_step]; rewrite ?window_tail, ?E). by destruct b.
  - destruct b; do 6 (rewrite send_alone_S; cbn [send_step]; rewrite ?window_tail, ?Hr); done.
Qed.

Lemma alone_full c x : shut c = false → room c = false → send_alone 12 c (S_start false x) = (c, S_refused x Full).
Proof.
  unfold shut, room. intros [H1 H2]%orb_false_elim [E1 E2]%orb_false_elim. by do 7 (rewrite send_alone_S; cbn [send_step]; rewrite ?H1, ?H2, ?E1, ?E2).
Qed.

Lemma alone_waits c x : shut c = false → room c = false → ∃ t, send_alone 12 c (S_start true x) = (c, S_gate Cold true x t).
Proof.
  unfold shut, room. intros [H1 H2]%orb_false_elim [E1 E2]%orb_false_elim. eexists. by do 12 (rewrite send_alone_S; cbn [send_step]; rewrite ?H1, ?H2, ?E1, ?E2).
Qed.

(** The channel as the router sees it: between its calls. *)
Definition sealed : Type := dsig (λ c : Channel T, (pos c ≤ g_tail c)%nat).

Definition unseal (s : sealed) : Channel T := `s.

Definition seal_send (fuel : nat) (s : sealed) p : sealed * SendPc T :=
  (dexist (send_alone fuel (unseal s) p).1 (send_alone_pos fuel (unseal s) p (proj2_dsig s)), (send_alone fuel (unseal s) p).2).

Definition seal_close (s : sealed) : sealed := dexist (drop_sender (close_flag (unseal s))) (proj2_dsig s).

Definition new_sealed (cap : nat) : sealed := dexist (new cap) (Nat.le_refl 0).

(** The answer of a call; a sender that waits has none. *)
Definition answer p : option SendResult := match p with S_sent _ _ => Some Sent | S_refused _ r => Some r | _ => None end.
End Alone.
Arguments sealed : clear implicits.

#[export] Instance mpsc_channel T : BoundedChannel (sealed T) T := {
  queued s := waiting (unseal s);
  has_room s := room (unseal s);
  is_closed s := shut (unseal s);
  try_send s x := let '(s', p) := seal_send 12 s (S_start false x) in (s', default Full (answer p));
  send s x := let '(s', p) := seal_send 12 s (S_start true x) in (λ r, (s', bool_decide (r = Sent))) <$> answer p;
  chan_close := seal_close
}.

Section Laws.
Context {T : Type}.
Implicit Types (c : Channel T) (s : sealed T) (x : T).

Lemma unseal_dexist c H : unseal (dexist c H : sealed T) = c.
Proof. done. Qed.

Lemma seal_same s c' H : c' = unseal s → (dexist c' H : sealed T) = s.
Proof. intros ->. by apply dsig_eq. Qed.

Lemma waiting_write c x : (pos c ≤ g_tail c)%nat → waiting (write_slot (g_tail c) (Some x) (set_tail (S (g_tail c)) c)) = waiting c ++ [x].
Proof.
  intros H. unfold waiting. cbn [write_slot set_tail pos g_tail slots]. rewrite Nat.sub_succ_l by done. rewrite seq_S, omap_app. f_equal.
  - apply list_omap_ext, Forall_Forall2_diag, Forall_forall. intros t Ht%elem_of_seq. rewrite lookup_insert_ne; [done|lia].
  - replace (pos c + (g_tail c - pos c))%nat with (g_tail c) by lia. cbn. by rewrite lookup_insert_eq.
Qed.

#[export] Instance mpsc_laws : BoundedChannelLaws (sealed T) T.
Proof.
  constructor; [..|intros s; split; [done|by unfold is_closed; simpl]]; intros s x; try intros H1; try intros H2;
    cbn [queued has_room is_closed try_send send chan_close mpsc_channel] in *; unfold seal_send.
  - pose proof (alone_closed _ false x H1) as E. f_equal; [apply seal_same; by rewrite E|by rewrite E].
  - pose proof (alone_full _ x H1 H2) as E. f_equal; [apply seal_same; by rewrite E|by rewrite E].
  - pose proof (alone_sent _ false x H1 H2) as E. eexists. split; [by f_equal; rewrite E|]. rewrite unseal_dexist, E. split; [|exact H1].
    apply waiting_write, (proj2_dsig s).
  - pose proof (alone_closed _ true x H1) as E.
    assert (Ea : answer (send_alone 12 (unseal s) (S_start true x)).2 = Some Closed) by (by rewrite E). rewrite Ea. cbn [fmap option_fmap option_map]. do 2 f_equal.
    apply seal_same. by rewrite E.
  - destruct (alone_waits _ x H1 H2) as [t E].
    assert (Ea : answer (send_alone 12 (unseal s) (S_start true x)).2 = None) by (by rewrite E). by rewrite Ea.
  - pose proof (alone_sent _ true x H1 H2) as E.
    assert (Ea : answer (send_alone 12 (unseal s) (S_start true x)).2 = Some Sent) by (by rewrite E). rewrite Ea.
    eexists. split; [done|]. rewrite unseal_dexist, E. split; [|exact H1].
    apply waiting_write, (proj2_dsig s).
Qed.
End Laws.
End Mpsc.
#[export] Existing Instance Mpsc.mpsc_channel.
#[export] Existing Instance Mpsc.mpsc_laws.
