(* ===== verification/LogProcessor.v ===== *)
(** * The processor of log events (logging/src/subscriber/processor.rs, and the entry points of dispatch.rs and log_handler.rs)

    [process_event] hands one event to the appenders that take it, through their channels.  A call of it is a function of the
    states of the channels and drop counters it finds; it may wait for room when an appender's overflow policy is [Block]. *)

From stdpp Require Import strings gmap.
From S2P Require Import Prelude LogEvents LogFilter LogChannel.

(** [OverflowPolicy] and the [SendBytes] and [SendEvent] of [ActorAction]; the sender of an action is in the actor's state. *)
Inductive OverflowPolicy := DropNewest | Block.
Inductive ActorAction := SendBytes | SendEvent.

(** What an appender is built from: [formatter] gives bytes or the text of its error. *)
Record AppenderActor := mk_actor {
  a_name : string;
  a_filter : PerAppenderFilter;
  a_formatter : LogEvent → string + string;
  a_action : ActorAction;
  a_overflow : OverflowPolicy
}.

Inductive Payload := PBytes (b : string) | PEvent (e : LogEvent).

Inductive ErrorSource :=
| AppenderWrite (appender_name : string)
| EventFormatting (appender_name : string)
| ConfigProcessing
| CustomRollerIo (path : string).

Record ErrorReport := mk_report { er_source : ErrorSource; er_message : string; er_context : option string; er_timestamp : Z }.

(** The outcome of a call: [Blocked] when it waits in a [send], [Panicked] when an [expect] fails. *)
Inductive Outcome (A : Type) := Done (x : A) | Blocked | Panicked.
Arguments Done {A}. Arguments Blocked {A}. Arguments Panicked {A}.

Definition bind_outcome {A B} (o : Outcome A) (k : A → Outcome B) : Outcome B :=
  match o with Done x => k x | Blocked => Blocked | Panicked => Panicked end.

(** The metadata of an event. *)
Record Metadata := mk_metadata { md_level : Level; md_target : string; md_is_event : bool }.

(** [DispatchLayer::on_event] builds the event from the metadata it passes on; [LogHandler::log] does too. *)
Definition event_metadata (e : LogEvent) : Metadata := mk_metadata (ev_level e) (ev_target e) true.

(** ** The levels the processor announces, and its pre-filter *)
Definition processor_max_level (p : list AppenderActor) : LevelFilter :=
  default OFF (max_level_of ((λ a, filter_max_level (a_filter a)) <$> p)).

Definition event_enabled (p : list AppenderActor) (md : Metadata) : bool :=
  existsb (λ a, filter_enabled (a_filter a) (md_level md) (md_target md)) p.

(** [DispatchLayer::enabled]. *)
Definition layer_enabled (p : list AppenderActor) (md : Metadata) : bool :=
  if md_is_event md then event_enabled p md else true.

(** ** Gates *)
Definition winner_step (winner : option (string * bool)) (kr : string * Rule) : option (string * bool) :=
  match winner with
  | None => Some (kr.1, kr.2.2)
  | Some w => if decide (String.length w.1 < String.length kr.1)%nat then Some (kr.1, kr.2.2) else winner
  end.

(** The most specific of the actors' rules, and whether its logger is additive. *)
Definition find_winner (rs : list (option (string * Rule))) : option (string * bool) := foldl winner_step None (omap id rs).

Definition non_additive_gate (rs : list (option (string * Rule))) : option string :=
  match find_winner rs with Some (k, false) => Some k | _ => None end.

Definition actor_rules (p : list AppenderActor) (md : Metadata) : list (option (string * Rule)) :=
  (λ a, find_most_specific_rule (a_filter a) (md_target md)) <$> p.

(** The two [continue]s of the loop: whether the actor with this rule takes the event. *)
Definition wanted (gate : option string) (l : Level) (a : AppenderActor) (rule : option (string * Rule)) : bool :=
  (match gate with
   | Some g => match rule with Some (k, _) => bool_decide (k = g) | None => false end
   | None => true
   end) &&
  (match rule with Some (_, (lf, _)) => level_le l lf | None => level_le l (default_level (a_filter a)) end).

Section Processor.
Context {C CE : Type} `{!BoundedChannel C Payload, !BoundedChannel CE ErrorReport}.

Record ActorState := mk_actor_state { chan : C; drops : DropCounter }.

(** What a call changes: the actors' channels and counters, and the channel of error reports when reporting is enabled. *)
Record World := mk_world { w_actors : list ActorState; w_errors : option CE }.

(** [send_bytes] and [send_event]. *)
Definition send_payload (now_ms : Z) (o : OverflowPolicy) (st : ActorState) (x : Payload) : Outcome ActorState :=
  match o with
  | Block => match send (chan st) x with None => Blocked | Some (c, _) => Done (mk_actor_state c (drops st)) end
  | DropNewest =>
      let '(c, r) := try_send (chan st) x in
      Done (mk_actor_state c (if decide (r = Full) then (record_drop now_ms (drops st)).1 else drops st))
  end.

(** A report that finds the channel full is dropped, with a line on stderr. *)
Definition send_error_report (r : ErrorReport) (w : World) : World :=
  mk_world (w_actors w) ((λ tx, (try_send tx r).1) <$> w_errors w).

Definition send_to (now_ms : Z) (i : nat) (a : AppenderActor) (x : Payload) (w : World) : Outcome World :=
  match w_actors w !! i with
  | None => Panicked
  | Some st => bind_outcome (send_payload now_ms (a_overflow a) st x) (λ st', Done (mk_world (<[i := st']> (w_actors w)) (w_errors w)))
  end.

Definition formatting_report (now : Z) (a : AppenderActor) (e : LogEvent) (msg : string) : ErrorReport :=
  mk_report (EventFormatting (a_name a)) msg (Some ("Event target: " +:+ ev_target e)) now.

(** The loop over the actors, from the [i]th: byte appenders get their bytes, the others are collected. *)
Fixpoint byte_loop (now now_ms : Z) (gate : option string) (l : Level) (e : LogEvent) (i : nat)
    (ars : list (AppenderActor * option (string * Rule))) (w : World) (senders : list (nat * AppenderActor)) :
    Outcome (World * list (nat * AppenderActor)) :=
  match ars with
  | [] => Done (w, senders)
  | (a, rule) :: ars' =>
      if wanted gate l a rule then
        match a_action a with
        | SendBytes =>
            match a_formatter a e with
            | inl b => bind_outcome (send_to now_ms i a (PBytes b) w) (λ w', byte_loop now now_ms gate l e (S i) ars' w' senders)
            | inr msg => byte_loop now now_ms gate l e (S i) ars' (send_error_report (formatting_report now a e msg) w) senders
            end
        | SendEvent => byte_loop now now_ms gate l e (S i) ars' w (senders ++ [(i, a)])
        end
      else byte_loop now now_ms gate l e (S i) ars' w senders
  end.

(** The loop over the collected senders, from the [k]th: the last takes the event, the others clone it. *)
Fixpoint event_loop (now_ms : Z) (last k : nat) (senders : list (nat * AppenderActor)) (event : option LogEvent) (w : World) :
    Outcome World :=
  match senders with
  | [] => Done w
  | (i, a) :: senders' =>
      match event with
      | None => Panicked
      | Some e =>
          bind_outcome (send_to now_ms i a (PEvent e) w)
            (λ w', event_loop now_ms last (S k) senders' (if decide (k = last) then None else event) w')
      end
  end.

Definition process_event (p : list AppenderActor) (now now_ms : Z) (e : LogEvent) (md : Metadata) (w : World) : Outcome World :=
  let rs := actor_rules p md in
  bind_outcome (byte_loop now now_ms (non_additive_gate rs) (md_level md) e 0 (zip p rs) w [])
    (λ '(w', senders), event_loop now_ms (pred (length senders)) 0 senders (Some e) w').

(** [close_channels]. *)
Definition close_channels (w : World) : World :=
  mk_world ((λ st, mk_actor_state (chan_close (chan st)) (drops st)) <$> w_actors w) (chan_close <$> w_errors w).

(** ** The reference: what one appender does with an event it takes *)
Definition payload_of (a : AppenderActor) (e : LogEvent) : option Payload :=
  match a_action a with
  | SendBytes => match a_formatter a e with inl b => Some (PBytes b) | inr _ => None end
  | SendEvent => Some (PEvent e)
  end.

Definition deliver (now_ms : Z) (a : AppenderActor) (e : LogEvent) (st : ActorState) : Outcome ActorState :=
  match payload_of a e with Some x => send_payload now_ms (a_overflow a) st x | None => Done st end.

Definition takes (p : list AppenderActor) (md : Metadata) (a : AppenderActor) : bool :=
  wanted (non_additive_gate (actor_rules p md)) (md_level md) a (find_most_specific_rule (a_filter a) (md_target md)).

Lemma send_to_spec now_ms i a x w w' : send_to now_ms i a x w = Done w' →
  ∃ st st', w_actors w !! i = Some st ∧ send_payload now_ms (a_overflow a) st x = Done st' ∧
    w_actors w' = <[i := st']> (w_actors w) ∧ w_errors w' = w_errors w.
Proof.
  unfold send_to. destruct (w_actors w !! i) as [st|]; [|done]. destruct (send_payload _ _ st x) as [st'| |] eqn:E; [|done..].
  intros [= <-]. by exists st, st'.
Qed.

Lemma send_payload_not_panicked now_ms o st x : send_payload now_ms o st x ≠ Panicked.
Proof. unfold send_payload. destruct o; [by destruct (try_send _ _)|]. by destruct (send _ _) as [[]|]. Qed.

Lemma send_to_not_panicked now_ms i a x w : (i < length (w_actors w))%nat → send_to now_ms i a x w ≠ Panicked.
Proof.
  intros [st Hst]%lookup_lt_is_Some. unfold send_to. rewrite Hst.
  pose proof (send_payload_not_panicked now_ms (a_overflow a) st x). by destruct (send_payload _ _ st x).
Qed.

Lemma send_to_length now_ms i a x w w' : send_to now_ms i a x w = Done w' → length (w_actors w') = length (w_actors w).
Proof. intros (st & st' & _ & _ & -> & _)%send_to_spec. apply length_insert. Qed.

Lemma send_to_done now_ms i a x w : a_overflow a = DropNewest → (i < length (w_actors w))%nat → ∃ w', send_to now_ms i a x w = Done w'.
Proof.
  intros Ho [st Hst]%lookup_lt_is_Some. unfold send_to. rewrite Hst, Ho. simpl. destruct (try_send _ _) as [c r]. by eexists.
Qed.
(** *** The loop over the byte appenders *)
Definition byte_effect (now_ms : Z) (gate : option string) (l : Level) (e : LogEvent) (a : AppenderActor) (rule : option (string * Rule))
    (st : ActorState) : Outcome ActorState :=
  if wanted gate l a rule then
    match a_action a, payload_of a e with SendBytes, Some x => send_payload now_ms (a_overflow a) st x | _, _ => Done st end
  else Done st.

Definition collected (gate : option string) (l : Level) (i : nat) (ars : list (AppenderActor * option (string * Rule))) :
    list (nat * AppenderActor) :=
  concat (imap (λ j ar, if wanted gate l ar.1 ar.2 then match a_action ar.1 with SendEvent => [((i + j)%nat, ar.1)] | SendBytes => [] end else []) ars).

Lemma collected_cons gate l i a rule ars :
  collected gate l i ((a, rule) :: ars) =
  (if wanted gate l a rule then match a_action a with SendEvent => [(i, a)] | SendBytes => [] end else []) ++ collected gate l (S i) ars.
Proof.
  unfold collected. cbn [imap]. rewrite concat_cons. f_equal.
  - simpl. by rewrite Nat.add_0_r.
  - f_equal. apply imap_ext. intros j ar _. simpl. by rewrite Nat.add_succ_r.
Qed.

Lemma byte_loop_spec now now_ms gate l e ars i w senders w' senders' :
  byte_loop now now_ms gate l e i ars w senders = Done (w', senders') →
  senders' = senders ++ collected gate l i ars ∧ length (w_actors w') = length (w_actors w) ∧
  (∀ k, (k < i)%nat → w_actors w' !! k = w_actors w !! k) ∧
  (∀ j a rule st, ars !! j = Some (a, rule) → w_actors w !! (i + j)%nat = Some st →
     ∃ st', w_actors w' !! (i + j)%nat = Some st' ∧ byte_effect now_ms gate l e a rule st = Done st').
Proof.
  revert i w senders. induction ars as [|[a rule] ars IH]; intros i w senders.
  { intros [= <- <-]. unfold collected. simpl. rewrite app_nil_r. by split_and!. }
  rewrite collected_cons. cbn [byte_loop]. intros H.
  assert (G : ∃ w1, byte_loop now now_ms gate l e (S i) ars w1
               (senders ++ if wanted gate l a rule then match a_action a with SendEvent => [(i, a)] | SendBytes => [] end else []) = Done (w', senders') ∧
            length (w_actors w1) = length (w_actors w) ∧ (∀ k, k ≠ i → w_actors w1 !! k = w_actors w !! k) ∧
            ∀ st, w_actors w !! i = Some st → ∃ st', w_actors w1 !! i = Some st' ∧ byte_effect now_ms gate l e a rule st = Done st').
  { unfold byte_effect, payload_of. destruct (wanted gate l a rule); [|exists w; rewrite app_nil_r; split_and!; [done..|by eauto]].
    destruct (a_action a); [|exists w; split_and!; [done..|by eauto]]. rewrite app_nil_r. destruct (a_formatter a e) as [b|msg].
    - destruct (send_to now_ms i a (PBytes b) w) as [w1| |] eqn:E; [|done..]. exists w1. split; [done|].
      apply send_to_spec in E as (st & st' & Hst & Hs & Ha & _). rewrite Ha. rewrite length_insert. split; [done|].
      split; [intros k Hk; by rewrite list_lookup_insert_ne|]. intros st0 Hst0. exists st'.
      rewrite list_lookup_insert_eq by (by eapply lookup_lt_Some). split; [done|]. congruence.
    - exists (send_error_report (formatting_report now a e msg) w). split_and!; [done..|by eauto]. }
  destruct G as (w1 & Hl & Hlen & Hne & Hi). apply IH in Hl as (-> & Hlen' & Hlt & Hge). rewrite <- app_assoc. split_and!; [done|lia| |].
  - intros k Hk. rewrite Hlt by lia. apply Hne. lia.
  - intros [|j] a0 rule0 st0; simpl.
    + intros [= <- <-]. rewrite Nat.add_0_r. intros Hst. rewrite Hlt by lia. by apply Hi.
    + intros Ha. rewrite Nat.add_succ_r. intros Hst. apply (Hge j); [done|]. simpl. rewrite Hne by lia. done.
Qed.

(** *** The loop over the event senders *)
Lemma event_loop_spec now_ms e last k senders w w' event :
  event_loop now_ms last k senders event w = Done w' → event = Some e → last = (k + pred (length senders))%nat → NoDup senders.*1 →
  length (w_actors w') = length (w_actors w) ∧
  (∀ i, i ∉ senders.*1 → w_actors w' !! i = w_actors w !! i) ∧
  (∀ i a st, (i, a) ∈ senders → w_actors w !! i = Some st →
     ∃ st', w_actors w' !! i = Some st' ∧ send_payload now_ms (a_overflow a) st (PEvent e) = Done st').
Proof.
  revert k w event. induction senders as [|[i a] senders IH]; intros k w event H He Hlast Hnd.
  { injection H as <-. split_and!; [done..|]. by intros i a st []%elem_of_nil. }
  subst event. cbn [event_loop] in H. destruct (send_to now_ms i a (PEvent e) w) as [w1| |] eqn:E; [|done..]. cbn [bind_outcome] in H.
  pose proof (send_to_length _ _ _ _ _ _ E) as Hlen. apply send_to_spec in E as (st & st' & Hst & Hs & Ha & _).
  rewrite fmap_cons in Hnd. apply NoDup_cons in Hnd as [Hni Hnd]. cbn [length pred] in Hlast.
  assert (G : length (w_actors w') = length (w_actors w1) ∧ (∀ i, i ∉ senders.*1 → w_actors w' !! i = w_actors w1 !! i) ∧
    (∀ i a st, (i, a) ∈ senders → w_actors w1 !! i = Some st →
       ∃ st', w_actors w' !! i = Some st' ∧ send_payload now_ms (a_overflow a) st (PEvent e) = Done st')).
  { destruct senders as [|s senders].
    - injection H as <-. split_and!; [done..|]. by intros ??? []%elem_of_nil.
    - cbn [length] in Hlast. apply (IH (S k) w1 (if decide (k = last) then None else Some e) H); [rewrite decide_False by lia; done| |done].
      cbn [length]. lia. }
  destruct G as (G1 & G2 & G3). split_and!; [congruence| |].
  - intros j Hj. rewrite fmap_cons in Hj. apply not_elem_of_cons in Hj as [Hj1 Hj2]. simpl in Hj1. rewrite G2 by done. rewrite Ha.
    by rewrite list_lookup_insert_ne.
  - intros j b stj [[= -> ->]|Hj]%elem_of_cons Hstj.
    + exists st'. rewrite G2 by done. rewrite Ha, list_lookup_insert_eq by (by eapply lookup_lt_Some). split; [done|congruence].
    + apply G3; [done|]. rewrite Ha, list_lookup_insert_ne; [done|]. intros ->. apply Hni. apply list_elem_of_fmap. by exists (j, b).
Qed.

Lemma collected_lookup gate l i ars k a : (k, a) ∈ collected gate l i ars ↔
  ∃ j rule, k = (i + j)%nat ∧ ars !! j = Some (a, rule) ∧ wanted gate l a rule = true ∧ a_action a = SendEvent.
Proof.
  revert i. induction ars as [|[b rule] ars IH]; intros i.
  { split; [by intros []%elem_of_nil|]. by intros (j & ? & _ & ? & _). }
  rewrite collected_cons, elem_of_app, IH. split.
  - intros [H|(j & r & -> & Hj & Hw & Ha)].
    + destruct (wanted gate l b rule) eqn:Ew; [|by apply elem_of_nil in H]. destruct (a_action b) eqn:Eb; [by apply elem_of_nil in H|].
      apply list_elem_of_singleton in H as [= -> ->]. exists O, rule. by rewrite Nat.add_0_r.
    + exists (S j), r. split_and!; [lia|done..].
  - intros ([|j] & r & -> & Hj & Hw & Ha); simpl in Hj.
    + left. injection Hj as -> ->. rewrite Hw, Ha, Nat.add_0_r. by apply list_elem_of_singleton.
    + right. exists j, r. split_and!; [lia|done..].
Qed.

Lemma collected_NoDup gate l i ars : NoDup (collected gate l i ars).*1 ∧ ∀ k, k ∈ (collected gate l i ars).*1 → (i ≤ k)%nat.
Proof.
  split.
  - revert i. induction ars as [|[a rule] ars IH]; intros i; [constructor|]. rewrite collected_cons, fmap_app. apply NoDup_app.
    split_and!; [destruct (wanted _ _ _ _); [destruct (a_action a)|]; [constructor|apply NoDup_singleton|constructor]| |apply IH].
    intros k Hk (k' & -> & Hk')%list_elem_of_fmap. destruct k' as [k' b]. apply collected_lookup in Hk' as (j & r & -> & _). simpl in Hk.
    destruct (wanted _ _ _ _); [|by apply elem_of_nil in Hk]. destruct (a_action a); [by apply elem_of_nil in Hk|].
    apply list_elem_of_singleton in Hk. simpl in Hk. lia.
  - intros k ([k' b] & -> & H)%list_elem_of_fmap. apply collected_lookup in H as (j & r & -> & _). simpl. lia.
Qed.
(** *** The whole call *)
Lemma zip_rules_lookup p md i a : p !! i = Some a →
  zip p (actor_rules p md) !! i = Some (a, find_most_specific_rule (a_filter a) (md_target md)).
Proof. intros H. unfold actor_rules. rewrite zip_with_fmap_r. apply lookup_zip_with_Some. exists a, a. by rewrite H. Qed.

Lemma length_zip_rules p md : length (zip p (actor_rules p md)) = length p.
Proof. unfold actor_rules. rewrite length_zip_with, length_fmap. lia. Qed.

Lemma zip_rules_inv p md i a rule : zip p (actor_rules p md) !! i = Some (a, rule) →
  p !! i = Some a ∧ rule = find_most_specific_rule (a_filter a) (md_target md).
Proof.
  intros (b & r & [= -> ->] & Hb & Hr)%lookup_zip_with_Some. split; [done|]. unfold actor_rules in Hr.
  rewrite list_lookup_fmap, Hb in Hr. by injection Hr.
Qed.

Lemma process_event_delivers_core p now now_ms e md (w w' : World) :
  process_event p now now_ms e md w = Done w' →
  length (w_actors w') = length (w_actors w) ∧
  ∀ i a st, p !! i = Some a → w_actors w !! i = Some st →
    ∃ st', w_actors w' !! i = Some st' ∧ (if takes p md a then deliver now_ms a e st = Done st' else st' = st).
Proof.
  unfold process_event. destruct (byte_loop _ _ _ _ _ _ _ _ _) as [[w1 senders]| |] eqn:Eb; [|done..]. cbn [bind_outcome]. intros H.
  apply byte_loop_spec in Eb as (-> & Hlen & _ & Hb). simpl in H.
  destruct (collected_NoDup (non_additive_gate (actor_rules p md)) (md_level md) 0 (zip p (actor_rules p md))) as [Hnd _].
  apply (event_loop_spec _ e) in H as (Hlen' & Hout & Hin); [|done..]. split; [congruence|]. intros i a st Hp Hst.
  destruct (Hb i a _ st (zip_rules_lookup p md i a Hp) Hst) as (st1 & Hst1 & He). simpl in Hst1.
  unfold takes, deliver, byte_effect in *. set (rule := find_most_specific_rule (a_filter a) (md_target md)) in *.
  destruct (wanted _ _ a rule) eqn:Ew; cycle 1.
  - injection He as <-. exists st. split; [|done]. rewrite Hout; [done|]. intros ([k b] & -> & Hk)%list_elem_of_fmap.
    apply collected_lookup in Hk as (j & r & -> & Hj & Hw & _). apply zip_rules_inv in Hj as [Hj ->]. simpl in Hp. rewrite Hp in Hj.
    injection Hj as <-. unfold rule in Ew. congruence.
  - destruct (a_action a) eqn:Ea.
    + exists st1. rewrite Hout; [split; [done|]; by destruct (payload_of a e)|]. intros ([k b] & -> & Hk)%list_elem_of_fmap.
      apply collected_lookup in Hk as (j & r & -> & Hj & _ & Hb'). apply zip_rules_inv in Hj as [Hj ->]. simpl in Hp. rewrite Hp in Hj.
      injection Hj as <-. congruence.
    + injection He as <-. unfold payload_of. rewrite Ea. apply Hin; [|done]. apply collected_lookup.
      exists i, rule. split_and!; [done| |done|done]. by apply zip_rules_lookup.
Qed.

(** Neither [expect] fails, and without a [Block] appender a call never waits. *)
Lemma byte_loop_outcome now now_ms gate l e ars i (w : World) senders :
  (i + length ars ≤ length (w_actors w))%nat →
  byte_loop now now_ms gate l e i ars w senders ≠ Panicked ∧
  (Forall (λ ar, a_overflow ar.1 = DropNewest) ars → ∃ r, byte_loop now now_ms gate l e i ars w senders = Done r).
Proof.
  revert i w senders. induction ars as [|[a rule] ars IH]; intros i w senders Hlen; cbn [byte_loop]; [split; [done|by eexists]|].
  cbn [length] in Hlen. assert (Hnext : ∀ w1 s1, length (w_actors w1) = length (w_actors w) →
    byte_loop now now_ms gate l e (S i) ars w1 s1 ≠ Panicked ∧
    (Forall (λ ar, a_overflow ar.1 = DropNewest) ((a, rule) :: ars) → ∃ r, byte_loop now now_ms gate l e (S i) ars w1 s1 = Done r)).
  { intros w1 s1 E. destruct (IH (S i) w1 s1) as [H1 H2]; [rewrite E; lia|]. split; [done|]. intros [_ Hd]%Forall_cons. by apply H2. }
  destruct (wanted gate l a rule); [|by apply Hnext]. destruct (a_action a); [|by apply Hnext].
  destruct (a_formatter a e) as [b|msg]; [|by apply Hnext]. split.
  - pose proof (send_to_not_panicked now_ms i a (PBytes b) w ltac:(lia)) as Hp.
    destruct (send_to now_ms i a (PBytes b) w) as [w1| |] eqn:E; [|done..]. apply Hnext. by eapply send_to_length.
  - intros Hd. destruct (send_to_done now_ms i a (PBytes b) w) as [w1 E]; [by apply Forall_cons in Hd as [? _]|lia|].
    rewrite E. apply Hnext; [by eapply send_to_length|done].
Qed.

Lemma event_loop_outcome now_ms e last k senders (w : World) :
  last = (k + pred (length senders))%nat → (∀ i, i ∈ senders.*1 → (i < length (w_actors w))%nat) →
  event_loop now_ms last k senders (Some e) w ≠ Panicked ∧
  (Forall (λ s, a_overflow s.2 = DropNewest) senders → ∃ w', event_loop now_ms last k senders (Some e) w = Done w').
Proof.
  revert k w. induction senders as [|[i a] senders IH]; intros k w Hlast Hlt; cbn [event_loop]; [split; [done|by eexists]|].
  cbn [length pred] in Hlast. assert (Hnext : ∀ w1, length (w_actors w1) = length (w_actors w) →
    event_loop now_ms last (S k) senders (if decide (k = last) then None else Some e) w1 ≠ Panicked ∧
    (Forall (λ s, a_overflow s.2 = DropNewest) ((i, a) :: senders) →
       ∃ w', event_loop now_ms last (S k) senders (if decide (k = last) then None else Some e) w1 = Done w')).
  { intros w1 E. destruct senders as [|s senders]; [split; [done|by eexists]|]. cbn [length] in Hlast. rewrite decide_False by lia.
    destruct (IH (S k) w1) as [H1 H2]; [cbn [length]; lia| |].
    - intros j Hj. rewrite E. apply Hlt. rewrite fmap_cons. by right.
    - split; [done|]. intros [_ Hd]%Forall_cons. by apply H2. }
  assert (Hi : (i < length (w_actors w))%nat) by (apply Hlt; rewrite fmap_cons; by left). split.
  - pose proof (send_to_not_panicked now_ms i a (PEvent e) w Hi) as Hp.
    destruct (send_to now_ms i a (PEvent e) w) as [w1| |] eqn:E; [|done..]. apply Hnext. by eapply send_to_length.
  - intros Hd. destruct (send_to_done now_ms i a (PEvent e) w) as [w1 E]; [by apply Forall_cons in Hd as [? _]|done|].
    rewrite E. apply Hnext; [by eapply send_to_length|done].
Qed.

Lemma process_event_outcome p now now_ms e md (w : World) : length (w_actors w) = length p →
  process_event p now now_ms e md w ≠ Panicked ∧
  (Forall (λ a, a_overflow a = DropNewest) p → ∃ w', process_event p now now_ms e md w = Done w').
Proof.
  intros Hlen. unfold process_event. set (gate := non_additive_gate _). set (ars := zip p (actor_rules p md)).
  assert (Hars : length ars = length p) by apply length_zip_rules.
  destruct (byte_loop_outcome now now_ms gate (md_level md) e ars 0 w []) as [H1 H2]; [lia|].
  assert (Hsend : ∀ w1 senders, byte_loop now now_ms gate (md_level md) e 0 ars w [] = Done (w1, senders) →
    ∀ i, i ∈ senders.*1 → (i < length (w_actors w1))%nat).
  { intros w1 senders (-> & -> & _)%byte_loop_spec i ([k b] & -> & Hk)%list_elem_of_fmap.
    apply collected_lookup in Hk as (j & r & -> & Hj & _). simpl. apply lookup_lt_Some in Hj. lia. }
  split.
  - destruct (byte_loop _ _ _ _ _ _ _ _ _) as [[w1 senders]| |] eqn:E; [|done..]. cbn [bind_outcome].
    apply event_loop_outcome; [done|by eapply Hsend].
  - intros Hd. destruct H2 as [[w1 senders] E].
    { apply Forall_forall. intros [a rule] Hin. apply list_elem_of_lookup in Hin as [i Hi]. apply zip_rules_inv in Hi as [Hi _].
      rewrite Forall_forall in Hd. apply Hd. by eapply list_elem_of_lookup_2. }
    rewrite E. cbn [bind_outcome]. apply event_loop_outcome; [done|by eapply Hsend|].
    apply byte_loop_spec in E as (-> & _). apply Forall_forall. intros [i a] Hin. apply collected_lookup in Hin as (j & r & _ & Hj & _).
    apply zip_rules_inv in Hj as [Hj _]. rewrite Forall_forall in Hd. apply Hd. by eapply list_elem_of_lookup_2.
Qed.

(** *** The pre-filters *)
Lemma wanted_enabled gate md a :
  wanted gate (md_level md) a (find_most_specific_rule (a_filter a) (md_target md)) = true →
  filter_enabled (a_filter a) (md_level md) (md_target md) = true.
Proof.
  unfold wanted, filter_enabled. intros [_ H]%andb_true_iff. by destruct (find_most_specific_rule _ _) as [[k [lf ad]]|].
Qed.

Lemma processor_max_level_ge p a : a ∈ p → filter_rank (filter_max_level (a_filter a)) ≤ filter_rank (processor_max_level p).
Proof.
  intros Ha. unfold processor_max_level. destruct (max_level_of _) as [m|] eqn:E.
  - apply (max_level_of_ge _ _ E). apply list_elem_of_fmap. by exists a.
  - destruct p; [by apply elem_of_nil in Ha|done].
Qed.

Lemma byte_loop_unwanted now now_ms gate l e ars i (w : World) senders :
  Forall (λ ar, wanted gate l ar.1 ar.2 = false) ars → byte_loop now now_ms gate l e i ars w senders = Done (w, senders).
Proof. intros H. revert i. induction H as [|[a rule] ars Hw _ IH]; intros i; [done|]. cbn [byte_loop]. simpl in Hw. by rewrite Hw. Qed.

(** An event no appender takes changes nothing. *)
Lemma process_event_unwanted p now now_ms e md (w : World) :
  (∀ a, a ∈ p → filter_enabled (a_filter a) (md_level md) (md_target md) = false) →
  process_event p now now_ms e md w = Done w.
Proof.
  intros H. unfold process_event. rewrite byte_loop_unwanted; [done|]. apply Forall_forall. intros [a rule] Hin.
  apply list_elem_of_lookup in Hin as [i Hi]. apply zip_rules_inv in Hi as [Hi ->]. simpl. apply not_true_is_false.
  intros Hw%wanted_enabled. rewrite H in Hw; [done|]. by eapply list_elem_of_lookup_2.
Qed.
End Processor.

Arguments ActorState : clear implicits.
Arguments World : clear implicits.
