(* ===== verification/LogRoute.v ===== *)
(** * Which appenders an event reaches (build_filter_for_appender of logging/src/init.rs, with the processor)

    The configuration gives loggers: a name, a level, appenders and a flag [additive].  Its documentation (README.USAGE.md and
    docs/fibre_logging.schema.yaml of the crate) states the rule: the most specific logger that matches the target decides, [root]
    when there is none; an event it accepts goes to its appenders and, if it is additive, to those of its ancestors and of [root],
    at its level.  [documented_route] is that rule; the theorem is that the per-appender filters and the gate implement it. *)

From stdpp Require Import strings gmap.
From S2P Require Import Prelude LogEvents LogFilter LogChannel LogProcessor.

Record LoggerInternal := mk_logger { lg_name : string; min_level : LevelFilter; appender_names : list string; additive : bool }.

Definition root : string := "root".

(** [is_ancestor_logger]. *)
Definition is_ancestor_logger (ancestor logger : string) : bool :=
  match strip_prefix logger ancestor with Some rest => starts_with rest separator | None => false end.

(** ** [build_filter_for_appender] *)
Definition owners (appender : string) (loggers : gmap string LoggerInternal) : list string :=
  lg_name <$> filter (λ l, appender ∈ appender_names l) (snd <$> map_to_list loggers).

Definition add_rule (appender : string) (own : list string) (m : gmap string Rule) (kl : string * LoggerInternal) : gmap string Rule :=
  let '(k, l) := kl in
  if decide (k = root) then m
  else
    let owned := bool_decide (lg_name l ∈ own) in
    let inherited := additive l && existsb (λ o, bool_decide (o = root) || is_ancestor_logger o (lg_name l)) own in
    if owned || inherited then <[lg_name l := (min_level l, additive l)]> m else m.

Definition build_filter_for_appender (appender : string) (loggers : gmap string LoggerInternal) : PerAppenderFilter :=
  mk_filter (foldl (add_rule appender (owners appender loggers)) ∅ (map_to_list loggers))
    (match loggers !! root with
     | Some r => if decide (appender ∈ appender_names r) then min_level r else OFF
     | None => OFF
     end).

(** ** The documented rule *)
Section Documented.
Context (loggers : gmap string LoggerInternal).

Definition matching (target k : string) : Prop :=
  k ≠ root ∧ is_Some (loggers !! k) ∧ target_matches_prefix target k = true.

Definition most_specific (target k : string) (l : LoggerInternal) : Prop :=
  matching target k ∧ loggers !! k = Some l ∧ ∀ k', matching target k' → (String.length k' ≤ String.length k)%nat.

Definition appender_of_ancestor (appender k : string) : Prop :=
  ∃ o lo, loggers !! o = Some lo ∧ appender ∈ appender_names lo ∧ (o = root ∨ is_ancestor_logger o k = true).

(** The appenders an event that logger [k] accepts goes to. *)
Definition goes_to (k : string) (l : LoggerInternal) (appender : string) : Prop :=
  appender ∈ appender_names l ∨ (additive l = true ∧ appender_of_ancestor appender k).

Definition documented_route (l : Level) (target appender : string) : Prop :=
  (∃ k lg, most_specific target k lg ∧ level_le l (min_level lg) = true ∧ goes_to k lg appender) ∨
  ((∀ k, ¬ matching target k) ∧ ∃ r, loggers !! root = Some r ∧ level_le l (min_level r) = true ∧ appender ∈ appender_names r).

(** What configurations satisfy: loggers are under their names, and names are module paths, which do not end in a colon. *)
Definition names_ok : Prop := ∀ k l, loggers !! k = Some l → lg_name l = k ∧ ends_with k ":" = false.
End Documented.

(** ** Names *)

Lemma is_ancestor_iff m n : is_ancestor_logger m n = true ↔ ∃ r, n = m +:+ separator +:+ r.
Proof.
  unfold is_ancestor_logger. destruct (strip_prefix n m) as [rest|] eqn:E.
  - apply strip_prefix_Some in E as ->. rewrite starts_with_true. split; intros [r H]; exists r; [by rewrite H|by apply str_app_inj_l in H].
  - split; [done|]. intros [r ->]. assert (strip_prefix (m +:+ separator +:+ r) m = Some (separator +:+ r)) by (by apply strip_prefix_Some).
    congruence.
Qed.

(** A prefix of [s1 +:+ s2] no longer than [s1] is a prefix of [s1]. *)
Lemma str_app_split p d s1 s2 : p +:+ d = s1 +:+ s2 → (String.length p ≤ String.length s1)%nat → ∃ r, s1 = p +:+ r ∧ d = r +:+ s2.
Proof.
  revert s1. induction p as [|c p IH]; intros s1 E Hl; [by exists s1|]. destruct s1 as [|c' s1]; [simpl in Hl; lia|].
  rewrite !str_app_cons in E. injection E as <- E. destruct (IH s1 E) as (r & -> & ->); [simpl in Hl; lia|]. by exists r.
Qed.

Lemma shorter_match_is_ancestor target m n : ends_with n ":" = false →
  target_matches_prefix target m = true → target_matches_prefix target n = true →
  (String.length m < String.length n)%nat → is_ancestor_logger m n = true.
Proof.
  intros Hn Hm [r2 Hr2]%matches_app Hl. apply is_ancestor_iff. apply matches_iff in Hm as [Hm|[r Hm]].
  { exfalso. rewrite Hm in Hr2. apply (f_equal String.length) in Hr2. rewrite str_length_app in Hr2. lia. }
  rewrite Hm in Hr2. destruct (str_app_split m _ n r2 Hr2) as (d & -> & Hd); [lia|].
  destruct d as [|c1 d]; [rewrite str_app_nil_r in Hl; lia|]. unfold separator in Hd. rewrite !str_app_cons in Hd.
  injection Hd as <- Hd. destruct d as [|c2 d].
  - exfalso. apply not_true_iff_false in Hn. apply Hn. apply ends_with_true. by exists m.
  - rewrite str_app_cons in Hd. injection Hd as <- Hd. by exists d.
Qed.

Lemma ancestor_matches target m n : is_ancestor_logger m n = true → target_matches_prefix target n = true → target_matches_prefix target m = true.
Proof.
  intros [r ->]%is_ancestor_iff [r' ->]%matches_app. apply matches_iff. right. exists (r +:+ r'). by rewrite <- !str_app_assoc.
Qed.

Lemma ancestor_trans a b c : is_ancestor_logger a b = true → is_ancestor_logger b c = true → is_ancestor_logger a c = true.
Proof. rewrite !is_ancestor_iff. intros [r ->] [r' ->]. exists (r +:+ separator +:+ r'). by rewrite <- !str_app_assoc. Qed.

(** ** The rules of an appender *)
Section Rules.
Context (loggers : gmap string LoggerInternal) (Hok : names_ok loggers).

Lemma owners_spec appender o : o ∈ owners appender loggers ↔ ∃ lo, loggers !! o = Some lo ∧ appender ∈ appender_names lo.
Proof using Hok.
  unfold owners. split.
  - intros (l & -> & Hl)%list_elem_of_fmap. apply list_elem_of_filter in Hl as [Ha ([k l'] & -> & Hl)%list_elem_of_fmap].
    apply elem_of_map_to_list in Hl. simpl in *. exists l'. by rewrite (proj1 (Hok k l' Hl)).
  - intros (lo & Hlo & Ha). apply list_elem_of_fmap. exists lo. split; [by rewrite (proj1 (Hok o lo Hlo))|].
    apply list_elem_of_filter. split; [done|]. apply list_elem_of_fmap. exists (o, lo). split; [done|]. by apply elem_of_map_to_list.
Qed.

Lemma rule_kept_iff appender k l : loggers !! k = Some l →
  (bool_decide (lg_name l ∈ owners appender loggers) ||
   (additive l && existsb (λ o, bool_decide (o = root) || is_ancestor_logger o (lg_name l)) (owners appender loggers))) = true ↔
  goes_to loggers k l appender.
Proof using Hok.
  intros Hl. destruct (Hok k l Hl) as [-> _]. rewrite orb_true_iff, bool_decide_eq_true, andb_true_iff, existsb_exists, owners_spec.
  unfold goes_to, appender_of_ancestor. split.
  - intros [(lo & Hlo & Ha)|[Hadd (o & Ho & Hor)]]; [left; congruence|right]. split; [done|].
    apply list_elem_of_In, owners_spec in Ho as (lo & Hlo & Ha). exists o, lo. split_and!; [done..|].
    apply orb_true_iff in Hor as [H%bool_decide_eq_true|H]; [by left|by right].
  - intros [Ha|[Hadd (o & lo & Hlo & Ha & Hor)]]; [left; by exists l|right]. split; [done|]. exists o. split.
    + apply list_elem_of_In, owners_spec. by exists lo.
    + apply orb_true_iff. destruct Hor; [left; by apply bool_decide_eq_true|by right].
Qed.

Lemma rules_spec appender k r : rules (build_filter_for_appender appender loggers) !! k = Some r ↔
  k ≠ root ∧ ∃ l, loggers !! k = Some l ∧ goes_to loggers k l appender ∧ r = (min_level l, additive l).
Proof using Hok.
  simpl. set (own := owners appender loggers).
  assert (G : ∀ ls m, (∀ x, x ∈ ls → loggers !! x.1 = Some x.2) →
    foldl (add_rule appender own) m ls !! k = Some r ↔
    (m !! k = Some r ∧ ¬ (k ≠ root ∧ ∃ l, (k, l) ∈ ls ∧ goes_to loggers k l appender)) ∨
    (k ≠ root ∧ ∃ l, (k, l) ∈ ls ∧ goes_to loggers k l appender ∧ r = (min_level l, additive l))).
  { intros ls. induction ls as [|[k' l'] ls IH] using rev_ind; intros m Hin.
    - simpl. split; [intros H; left; split; [done|]; by intros (_ & l & []%elem_of_nil & _)|].
      intros [[H _]|(_ & l & []%elem_of_nil & _)]. done.
    - rewrite foldl_app. cbn [foldl]. assert (Hin' : ∀ x, x ∈ ls → loggers !! x.1 = Some x.2) by (intros x Hx; apply Hin; set_solver).
      assert (Hl' : loggers !! k' = Some l') by (apply (Hin (k', l')); set_solver). pose proof (IH m Hin') as IH'.
      unfold add_rule at 1. destruct (decide (k' = root)) as [->|Hroot].
      + rewrite IH'. split; (intros [[H1 H2]|(H1 & l & H2)]; [left; split; [done|]; set_solver|right; set_solver]).
      + pose proof (rule_kept_iff appender k' l' Hl') as Hkept. fold own in Hkept. destruct (Hok k' l' Hl') as [Hname _].
        destruct (bool_decide _ || _) eqn:Ek.
        * rewrite Hname in *. assert (Hgo : goes_to loggers k' l' appender) by (by apply Hkept). destruct (decide (k' = k)) as [->|Hne].
          -- rewrite lookup_insert_eq. split.
             ++ intros [= <-]. right. split; [done|]. exists l'. split_and!; [set_solver|done|done].
             ++ intros [[_ []]|(_ & l & Hl & _ & ->)]; [split; [done|]; exists l'; set_solver|].
                apply (Hin (k, l)) in Hl. simpl in Hl. congruence.
          -- rewrite lookup_insert_ne by done. rewrite IH'. set_solver.
        * rewrite IH'. assert (Hno : ¬ goes_to loggers k' l' appender) by (rewrite <- Hkept; done). set_solver. }
  rewrite G; [|intros [k' l'] Hx; by apply elem_of_map_to_list in Hx]. rewrite lookup_empty. split.
  - intros [[? _]|(H1 & l & Hl & H2 & H3)]; [done|]. split; [done|]. exists l. by apply elem_of_map_to_list in Hl.
  - intros (H1 & l & Hl & H2 & H3). right. split; [done|]. exists l. split_and!; [by apply elem_of_map_to_list|done..].
Qed.
End Rules.

(** ** The most specific logger *)
Section Specific.
Context (loggers : gmap string LoggerInternal) (Hok : names_ok loggers).

(** All the loggers but [root], as the rules of a filter: the search for the longest finds the most specific. *)
Definition all_rules : PerAppenderFilter := mk_filter ((λ l, (min_level l, additive l)) <$> delete root loggers) OFF.

Lemma all_rules_matching target k : matching loggers target k ↔
  is_Some (rules all_rules !! k) ∧ target_matches_prefix target k = true.
Proof.
  unfold matching. simpl. rewrite lookup_fmap, fmap_is_Some. split.
  - intros (Hr & H & Hm). rewrite lookup_delete_ne by done. done.
  - intros (H & Hm). destruct (decide (k = root)) as [->|Hr]; [rewrite lookup_delete_eq in H; by destruct H|].
    rewrite lookup_delete_ne in H by done. done.
Qed.

Lemma matching_dec target : (∃ k l, most_specific loggers target k l) ∨ ∀ k, ¬ matching loggers target k.
Proof.
  destruct (find_most_specific_rule all_rules target) as [[k r]|] eqn:E.
  - left. apply find_rule_Some in E as (H1 & H2 & H3). assert (Hm : matching loggers target k) by (apply all_rules_matching; eauto).
    destruct Hm as (Hr & [l Hl] & _). exists k, l. split_and!; [by split_and!; eauto|done|].
    intros k' [Hk' Hm]%all_rules_matching. by apply H3.
  - right. intros k [H Hm]%all_rules_matching. rewrite find_rule_None in E. rewrite E in Hm; done.
Qed.

Lemma most_specific_unique target k l k' : most_specific loggers target k l → matching loggers target k' →
  (String.length k ≤ String.length k')%nat → k' = k.
Proof.
  intros (Hk & _ & Hmax) Hk' Hle. pose proof (Hmax k' Hk'). apply (matches_length target); [apply Hk'|apply Hk|lia].
Qed.

(** The rule an appender finds: the most specific logger's if that logger's events go to it, and otherwise none, unless the
    logger is not additive. *)
Lemma found_rule_is_rule target appender k r :
  find_most_specific_rule (build_filter_for_appender appender loggers) target = Some (k, r) →
  matching loggers target k ∧ ∃ l, loggers !! k = Some l ∧ r = (min_level l, additive l) ∧ goes_to loggers k l appender.
Proof using Hok.
  intros (H1 & H2 & _)%find_rule_Some. apply rules_spec in H1 as (Hr & l & Hl & Hg & ->); [|done].
  split; [by split_and!; eauto|]. by exists l.
Qed.

Lemma found_rule_specific target appender k l : most_specific loggers target k l → goes_to loggers k l appender →
  find_most_specific_rule (build_filter_for_appender appender loggers) target = Some (k, (min_level l, additive l)).
Proof using Hok.
  intros (Hk & Hl & Hmax) Hg. apply find_rule_Some. split_and!.
  - apply rules_spec; [done|]. split; [apply Hk|]. by exists l.
  - apply Hk.
  - intros k' [r' (Hr & l' & Hl' & _)%rules_spec] Hm; [|done]. apply Hmax. by split_and!; eauto.
Qed.

Lemma no_rule_of_others target appender k l : most_specific loggers target k l → additive l = true →
  ¬ goes_to loggers k l appender →
  find_most_specific_rule (build_filter_for_appender appender loggers) target = None ∧
  default_level (build_filter_for_appender appender loggers) = OFF.
Proof using Hok.
  intros Hs Hadd Hno. assert (Hno' : ¬ appender_of_ancestor loggers appender k) by (intros H; apply Hno; by right). split.
  - destruct (find_most_specific_rule _ _) as [[k' r]|] eqn:E; [|done]. exfalso.
    apply found_rule_is_rule in E as (Hk' & l' & Hl' & _ & Hg). pose proof Hs as (Hk & Hl & Hmax).
    destruct (decide (k' = k)) as [->|Hne]; [apply Hno; congruence|].
    assert (Hanc : is_ancestor_logger k' k = true).
    { apply (shorter_match_is_ancestor target); [by eapply Hok|apply Hk'|apply Hk|]. pose proof (Hmax k' Hk').
      destruct (decide (String.length k' = String.length k)) as [E|]; [|lia]. destruct Hne. apply (matches_length target); [apply Hk'|apply Hk|done]. }
    destruct Hg as [Ha|[_ (o & lo & Hlo & Ha & Ho)]]; apply Hno'.
    + exists k', l'. split_and!; [done..|by right].
    + exists o, lo. split_and!; [done..|]. destruct Ho as [->|Ho]; [by left|right]. by eapply ancestor_trans.
  - simpl. destruct (loggers !! root) as [r|] eqn:Er; [|done]. case_decide as Ha; [|done]. destruct Hno'. exists root, r.
    split_and!; [done..|by left].
Qed.
End Specific.

(** ** The gate *)
Lemma find_winner_spec rs :
  match find_winner rs with
  | None => ∀ kr, Some kr ∉ rs
  | Some (k, ad) => (∃ r, Some (k, r) ∈ rs ∧ r.2 = ad) ∧ ∀ kr, Some kr ∈ rs → (String.length kr.1 ≤ String.length k)%nat
  end.
Proof.
  unfold find_winner.
  assert (Hin : ∀ kr, kr ∈ omap id rs ↔ Some kr ∈ rs).
  { intros kr. rewrite list_elem_of_omap. split; [intros (x & Hx & Ex); unfold id in Ex; by subst x|]. intros H. by exists (Some kr). }
  revert Hin. generalize (omap id rs) as l. intros l Hin.
  assert (G : match foldl winner_step None l with
              | None => l = []
              | Some (k, ad) => (∃ r, (k, r) ∈ l ∧ r.2 = ad) ∧ ∀ kr, kr ∈ l → (String.length kr.1 ≤ String.length k)%nat
              end).
  { clear Hin. induction l as [|[k r] l IH] using rev_ind; [done|]. rewrite foldl_app. cbn [foldl]. destruct (foldl winner_step None l) as [[k0 ad0]|].
    - destruct IH as [(r0 & Hr0 & <-) IH]. unfold winner_step. simpl. case_decide as Hd.
      + split; [exists r; split; [set_solver|done]|]. intros kr [H| ->%list_elem_of_singleton]%elem_of_app; [apply IH in H; lia|done].
      + split; [exists r0; split; [set_solver|done]|]. intros kr [H| ->%list_elem_of_singleton]%elem_of_app; [by apply IH|simpl; lia].
    - subst l. simpl. split; [exists r; split; [set_solver|done]|]. by intros kr ->%list_elem_of_singleton. }
  destruct (foldl winner_step None l) as [[k ad]|].
  - destruct G as [(r & Hr & <-) G]. split; [exists r; split; [by apply Hin|done]|]. intros kr H. apply G. by apply Hin.
  - intros kr H%Hin. subst l. by apply elem_of_nil in H.
Qed.

(** ** The processor of a configuration *)
Section Route.
Context (loggers : gmap string LoggerInternal) (p : list AppenderActor).

Definition built_from : Prop := ∀ a, a ∈ p → a_filter a = build_filter_for_appender (a_name a) loggers.

(** The logger of the target that decides is additive, or one of its appenders was started. *)
Definition gate_started (target : string) : Prop :=
  ∀ k l, most_specific loggers target k l → additive l = true ∨ ∃ a, a ∈ p ∧ a_name a ∈ appender_names l.

Context (Hok : names_ok loggers) (Hbuilt : built_from).

Lemma actor_rules_in md kr : Some kr ∈ actor_rules p md →
  matching loggers (md_target md) kr.1 ∧ ∃ l, loggers !! kr.1 = Some l ∧ kr.2 = (min_level l, additive l).
Proof using Hok Hbuilt.
  intros (a & E & Ha)%list_elem_of_fmap. rewrite (Hbuilt a Ha) in E. destruct kr as [k r]. symmetry in E.
  apply found_rule_is_rule in E as (H1 & l & H2 & H3 & _); [|done]. split; [done|]. by exists l.
Qed.

Lemma gate_of_specific md k l : most_specific loggers (md_target md) k l →
  (∃ a, a ∈ p ∧ goes_to loggers k l (a_name a)) →
  non_additive_gate (actor_rules p md) = if additive l then None else Some k.
Proof using Hok Hbuilt.
  intros Hs (a & Ha & Hg). unfold non_additive_gate. pose proof (find_winner_spec (actor_rules p md)) as H.
  assert (Hk : Some (k, (min_level l, additive l)) ∈ actor_rules p md).
  { apply list_elem_of_fmap. exists a. split; [|done]. rewrite (Hbuilt a Ha). symmetry. by apply found_rule_specific. }
  destruct (find_winner _) as [[k' ad]|]; [|by apply H in Hk]. destruct H as [(r & Hr & <-) Hmax].
  apply Hmax in Hk. simpl in Hk. apply actor_rules_in in Hr as (Hm & l' & Hl' & E). simpl in *. subst r. simpl.
  rewrite (most_specific_unique loggers _ _ _ _ Hs Hm Hk) in *. destruct Hs as (_ & Hl & _). rewrite Hl in Hl'. injection Hl' as <-.
  by destruct (additive l).
Qed.

Lemma no_gate_unmatched md : (∀ k, ¬ matching loggers (md_target md) k) → non_additive_gate (actor_rules p md) = None.
Proof using Hok Hbuilt.
  intros Hno. unfold non_additive_gate. pose proof (find_winner_spec (actor_rules p md)) as H.
  destruct (find_winner _) as [[k ad]|]; [|done]. destruct H as [(r & Hr & _) _]. apply actor_rules_in in Hr as [Hm _]. by apply Hno in Hm.
Qed.

Lemma takes_matched md k l a : a ∈ p → gate_started (md_target md) → most_specific loggers (md_target md) k l →
  takes p md a = true ↔ level_le (md_level md) (min_level l) = true ∧ goes_to loggers k l (a_name a).
Proof using Hok Hbuilt.
  intros Ha Hstart Hs. unfold takes. rewrite (Hbuilt a Ha).
  assert (Hdec : goes_to loggers k l (a_name a) ∨ ¬ goes_to loggers k l (a_name a)).
  { destruct Hs as (_ & Hl & _). pose proof (rule_kept_iff loggers Hok (a_name a) k l Hl) as H.
    destruct (bool_decide _ || _); [left; by apply H|right; by rewrite <- H]. }
  destruct Hdec as [Hg|Hno].
  - rewrite (found_rule_specific loggers Hok _ _ k l Hs Hg). rewrite (gate_of_specific md k l Hs); [|by exists a].
    unfold wanted. destruct (additive l); simpl; rewrite ?bool_decide_eq_true_2 by done; simpl; tauto.
  - destruct (additive l) eqn:Eadd.
    + destruct (no_rule_of_others loggers Hok _ _ k l Hs Eadd Hno) as [-> Hdef]. unfold wanted. rewrite (Hbuilt a Ha), Hdef.
      rewrite andb_true_iff. split; [|tauto]. intros [_ H]. by destruct (md_level md).
    + destruct (Hstart k l Hs) as [|(b & Hb & Hbl)]; [congruence|].
      rewrite (gate_of_specific md k l Hs) by (exists b; split; [done|by left]). rewrite Eadd. unfold wanted.
      rewrite andb_true_iff. split; [|tauto]. intros [Hgate _].
      destruct (find_most_specific_rule _ _) as [[k' r]|] eqn:E; [|done]. apply bool_decide_eq_true in Hgate as ->.
      apply found_rule_is_rule in E as (_ & l' & Hl' & _ & Hg); [|done]. destruct Hs as (_ & Hl & _). destruct Hno. congruence.
Qed.

Lemma takes_unmatched md a : a ∈ p → (∀ k, ¬ matching loggers (md_target md) k) →
  takes p md a = true ↔ ∃ r, loggers !! root = Some r ∧ level_le (md_level md) (min_level r) = true ∧ a_name a ∈ appender_names r.
Proof using Hok Hbuilt.
  intros Ha Hno. unfold takes. rewrite (no_gate_unmatched md Hno), (Hbuilt a Ha).
  assert (find_most_specific_rule (build_filter_for_appender (a_name a) loggers) (md_target md) = None) as ->.
  { destruct (find_most_specific_rule _ _) as [[k r]|] eqn:E; [|done]. apply found_rule_is_rule in E as [Hm _]; [|done]. by apply Hno in Hm. }
  unfold wanted. rewrite (Hbuilt a Ha). simpl. destruct (loggers !! root) as [r|]; cycle 1.
  { split; [by destruct (md_level md)|by intros (? & ? & _)]. }
  case_decide as Hin.
  - split; [intros H; by exists r|]. by intros (r' & [= <-] & H & _).
  - split; [by destruct (md_level md)|]. by intros (r' & [= <-] & _ & H).
Qed.

Lemma takes_documented md a : a ∈ p → gate_started (md_target md) →
  takes p md a = true ↔ documented_route loggers (md_level md) (md_target md) (a_name a).
Proof using Hok Hbuilt.
  intros Ha Hstart. unfold documented_route. destruct (matching_dec loggers (md_target md)) as [(k & l & Hs)|Hno].
  - rewrite (takes_matched md k l a Ha Hstart Hs). split.
    + intros [H1 H2]. left. by exists k, l.
    + intros [(k' & l' & Hs' & H1 & H2)|[Hno _]]; [|destruct Hs as [Hm _]; by apply Hno in Hm].
      assert (k' = k) as ->. { apply (most_specific_unique loggers (md_target md) k l); [done|apply Hs'|apply Hs', Hs]. }
      destruct Hs as (_ & Hl & _), Hs' as (_ & Hl' & _). rewrite Hl in Hl'. by injection Hl' as <-.
  - rewrite (takes_unmatched md a Ha Hno). split; [intros H; right; by split|].
    intros [(k & l & Hs & _)|[_ H]]; [|done]. destruct Hs as [Hm _]. by apply Hno in Hm.
Qed.
End Route.

(** ** The two front ends *)
Section FrontEnds.
Context {C CE : Type} `{!BoundedChannel C Payload, !BoundedChannel CE ErrorReport}.

(** What [tracing] does with an event for the layer: [max_level_hint] and [enabled] are asked first. *)
Definition on_event (p : list AppenderActor) (now now_ms : Z) (e : LogEvent) (md : Metadata) (w : World C CE) : Outcome (World C CE) :=
  if level_le (md_level md) (processor_max_level p) && layer_enabled p md then process_event p now now_ms e md w else Done w.

(** [tracing_filter_to_log_filter]; the filters of the [log] crate have the same names. *)
Inductive LogLevelFilter := Off | Error | Warn | Info | Debug | Trace.

Definition tracing_filter_to_log_filter (f : LevelFilter) : LogLevelFilter :=
  if decide (f = OFF) then Off
  else if decide (f = UpTo ERROR) then Error
  else if decide (f = UpTo WARN) then Warn
  else if decide (f = UpTo INFO) then Info
  else if decide (f = UpTo DEBUG) then Debug
  else Trace.

Definition log_filter_rank (f : LogLevelFilter) : Z :=
  match f with Off => 0 | Error => 1 | Warn => 2 | Info => 3 | Debug => 4 | Trace => 5 end.

(** [LogHandler::log], where [log::max_level()] is what the initialization set; the levels of the two crates correspond. *)
Definition log_record (p : list AppenderActor) (now now_ms : Z) (r : LogRecord) (w : World C CE) : Outcome (World C CE) :=
  if decide (log_filter_rank (tracing_filter_to_log_filter (processor_max_level p)) < verbosity (lr_level r)) then Done w
  else
    let e := build_record_event now r in
    process_event p now now_ms e (mk_metadata (ev_level e) (lr_target r) true) w.

Lemma log_filter_rank_same f : log_filter_rank (tracing_filter_to_log_filter f) = filter_rank f.
Proof. by destruct f as [|[]]. Qed.

Lemma above_max_level p md : level_le (md_level md) (processor_max_level p) = false →
  ∀ a, a ∈ p → filter_enabled (a_filter a) (md_level md) (md_target md) = false.
Proof.
  intros H a Ha. apply not_true_is_false. intros He%filter_enabled_max_level. apply not_true_iff_false in H. apply H.
  unfold level_le in *. apply bool_decide_eq_true. apply bool_decide_eq_true in He. pose proof (processor_max_level_ge p a Ha). lia.
Qed.

Lemma on_event_exact p now now_ms e md (w : World C CE) : md_is_event md = true →
  on_event p now now_ms e md w = process_event p now now_ms e md w.
Proof.
  intros Hev. unfold on_event, layer_enabled, event_enabled. rewrite Hev. destruct (level_le _ _) eqn:El; simpl.
  - destruct (existsb _ p) eqn:Ee; [done|]. symmetry. apply process_event_unwanted. intros a Ha. apply not_true_is_false. intros He.
    apply not_true_iff_false in Ee. apply Ee. apply existsb_exists. exists a. split; [by apply list_elem_of_In|done].
  - symmetry. by apply process_event_unwanted, above_max_level.
Qed.

Lemma log_record_exact p now now_ms r (w : World C CE) :
  log_record p now now_ms r w = process_event p now now_ms (build_record_event now r) (mk_metadata (lr_level r) (lr_target r) true) w.
Proof.
  unfold log_record. rewrite log_filter_rank_same. case_decide as Hd; [|done]. symmetry. apply process_event_unwanted.
  apply (above_max_level p (mk_metadata (lr_level r) (lr_target r) true)). apply bool_decide_eq_false. simpl. lia.
Qed.
End FrontEnds.

(** C25: The fast paths lose nothing: asking the maximum level and the pre-filter first, as the layer does, and comparing with
    the maximum level the initialization sets in the [log] crate, as the log bridge does, leave the channels, the counters and the
    reports as handing every event to the processor does. *)
Theorem fast_paths_exact {C CE : Type} `{!BoundedChannel C Payload, !BoundedChannel CE ErrorReport}
    p now now_ms (e : LogEvent) (r : LogRecord) (w : World C CE) :
  on_event p now now_ms e (event_metadata e) w = process_event p now now_ms e (event_metadata e) w ∧
  log_record p now now_ms r w = process_event p now now_ms (build_record_event now r) (mk_metadata (lr_level r) (lr_target r) true) w.
Proof. split; [by apply on_event_exact|apply log_record_exact]. Qed.

Section Delivery.
Context {C CE : Type} `{!BoundedChannel C Payload, !BoundedChannelLaws C Payload, !BoundedChannel CE ErrorReport}.

Lemma deliver_queues now_ms a e (st st' : ActorState C) x : deliver now_ms a e st = Done st' → payload_of a e = Some x →
  is_closed (chan st) = false → has_room (chan st) = true →
  queued (chan st') = queued (chan st) ++ [x] ∧ drops st' = drops st.
Proof.
  unfold deliver. intros H Hx Hc Hr. rewrite Hx in H. unfold send_payload in H. destruct (a_overflow a).
  - destruct (try_send_sent (chan st) x Hc Hr) as (c' & E & Hq & _). rewrite E in H. injection H as <-. done.
  - destruct (send_sent (chan st) x Hc Hr) as (c' & E & Hq & _). rewrite E in H. by injection H as <-.
Qed.

Lemma deliver_full now_ms a e (st st' : ActorState C) x : deliver now_ms a e st = Done st' → payload_of a e = Some x →
  is_closed (chan st) = false → has_room (chan st) = false →
  a_overflow a = DropNewest ∧ chan st' = chan st ∧ drops st' = (record_drop now_ms (drops st)).1.
Proof.
  unfold deliver. intros H Hx Hc Hr. rewrite Hx in H. unfold send_payload in H. destruct (a_overflow a).
  - rewrite try_send_full in H by done. injection H as <-. done.
  - by rewrite send_waits in H.
Qed.
End Delivery.

(** C10: An event reaches the appenders the documentation of the configuration says, each exactly once.  The processor of a
    configuration, whose most specific logger for the target is additive or has an appender that was started, changes only the
    states of the appenders of the documented rule; the channel of such an appender, when it is open and has room, has the
    event's bytes, or the event, as its last message; when it is full, the message is dropped and counted, the appender's
    overflow policy being to drop. *)
Theorem event_routed_as_documented {C CE : Type} `{!BoundedChannel C Payload, !BoundedChannelLaws C Payload, !BoundedChannel CE ErrorReport}
    loggers p now now_ms (e : LogEvent) md (w w' : World C CE) :
  names_ok loggers → built_from loggers p → gate_started loggers p (md_target md) →
  process_event p now now_ms e md w = Done w' →
  ∀ i a st, p !! i = Some a → w_actors w !! i = Some st → ∃ st', w_actors w' !! i = Some st' ∧
    (¬ documented_route loggers (md_level md) (md_target md) (a_name a) → st' = st) ∧
    (documented_route loggers (md_level md) (md_target md) (a_name a) →
     ∀ x, payload_of a e = Some x → is_closed (chan st) = false →
       (has_room (chan st) = true → queued (chan st') = queued (chan st) ++ [x] ∧ drops st' = drops st) ∧
       (has_room (chan st) = false → a_overflow a = DropNewest ∧ chan st' = chan st ∧ dropped (drops st') = dropped (drops st) + 1)).
Proof.
  intros Hok Hb Hstart Hp i a st Ha Hst. apply process_event_delivers_core in Hp as [_ Hp]. destruct (Hp i a st Ha Hst) as (st' & Hst' & Ht).
  exists st'. split; [done|]. rewrite <- (takes_documented loggers p Hok Hb md a) by (done || by eapply list_elem_of_lookup_2).
  destruct (takes p md a).
  - split; [done|]. intros _ x Hx Hc. split; intros Hr; [by eapply deliver_queues|].
    destruct (deliver_full _ _ _ _ _ _ Ht Hx Hc Hr) as (H1 & H2 & H3). split_and!; [done..|]. rewrite H3.
    destruct (record_drop now_ms (drops st)) as [d o] eqn:E. apply record_drop_spec in E as [E _]. exact E.
  - split; [done|]. done.
Qed.

(** ** A configuration: [root] to the console at info, [app] to a file at debug and not additive, and a quieted dependency *)
Module Sample.
Definition loggers : gmap string LoggerInternal :=
  list_to_map ((λ l, (lg_name l, l)) <$>
    [mk_logger root (UpTo INFO) ["console"] true; mk_logger "app" (UpTo DEBUG) ["file"] false;
     mk_logger "hyper" (UpTo WARN) [] true; mk_logger "noisy" OFF [] false]).

Definition actor (name : string) (o : OverflowPolicy) : AppenderActor :=
  mk_actor name (build_filter_for_appender name loggers) (λ e, inl (default EmptyString (ev_message e) +:+ "!")) SendBytes o.

Definition actors : list AppenderActor := [actor "console" DropNewest; actor "file" DropNewest].

Definition world : World (Mpsc.sealed Payload) (Mpsc.sealed ErrorReport) :=
  mk_world [mk_actor_state (Mpsc.new_sealed 2) new_drops; mk_actor_state (Mpsc.new_sealed 2) new_drops] None.

Definition event (l : Level) (target : string) : LogEvent := new_event 0 l target "event" (Some "hi").

Definition run (l : Level) (target : string) : Outcome (World (Mpsc.sealed Payload) (Mpsc.sealed ErrorReport)) :=
  process_event actors 0 0 (event l target) (event_metadata (event l target)) world.

Definition lengths (o : Outcome (World (Mpsc.sealed Payload) (Mpsc.sealed ErrorReport))) : option (list nat) :=
  match o with Done w => Some ((λ st, length (queued (chan st))) <$> w_actors w) | _ => None end.

Lemma lookup_inv k l : loggers !! k = Some l →
  lg_name l = k ∧ (k, l) ∈ [(root, mk_logger root (UpTo INFO) ["console"] true); ("app", mk_logger "app" (UpTo DEBUG) ["file"] false);
     ("hyper", mk_logger "hyper" (UpTo WARN) [] true); ("noisy", mk_logger "noisy" OFF [] false)].
Proof.
  intros H%elem_of_list_to_map_2. split; [|exact H]. apply list_elem_of_fmap in H as (l' & [= -> ->] & _). done.
Qed.

Lemma names_ok : names_ok loggers.
Proof.
  intros k l [Hn Hl]%lookup_inv. split; [done|].
  repeat (apply elem_of_cons in Hl as [[= -> _]|Hl]; [by vm_compute|]). by apply elem_of_nil in Hl.
Qed.

Lemma built : built_from loggers actors.
Proof. intros a. unfold actors. intros [->|[->|[]%elem_of_nil]%elem_of_cons]%elem_of_cons; done. Qed.

Lemma app_started target : target_matches_prefix target "noisy" = false → gate_started loggers actors target.
Proof.
  intros Hn k l ((_ & _ & Hm) & [_ Hl]%lookup_inv & _).
  apply elem_of_cons in Hl as [[= -> ->]|Hl]; [by left|].
  apply elem_of_cons in Hl as [[= -> ->]|Hl].
  { right. exists (actor "file" DropNewest). split; [unfold actors; set_solver|simpl; set_solver]. }
  apply elem_of_cons in Hl as [[= -> ->]|Hl]; [by left|].
  apply list_elem_of_singleton in Hl as [= -> ->]. congruence.
Qed.
End Sample.

(** [app] is for the file alone, [hyper] raises the level of [root]'s console, other targets are [root]'s. *)
Example sample_routes :
  Sample.lengths (Sample.run DEBUG "app::db") = Some [0; 1]%nat ∧ Sample.lengths (Sample.run INFO "hyper::client") = Some [0; 0]%nat ∧
  Sample.lengths (Sample.run WARN "hyper::client") = Some [1; 0]%nat ∧ Sample.lengths (Sample.run INFO "apple") = Some [1; 0]%nat.
Proof. by vm_compute. Qed.

(** The gate of a logger that is not additive and has no appender is not seen: the event goes to [root]'s appenders, where the
    documented rule sends it nowhere. *)
Lemma appenderless_gate_ignored :
  Sample.lengths (Sample.run INFO "noisy") = Some [1; 0]%nat ∧ ¬ documented_route Sample.loggers INFO "noisy" "console".
Proof.
  split; [by vm_compute|]. intros [(k & l & (Hk & Hl & Hmax) & Hlv & Hg)|[Hno _]].
  - assert (Hm : matching Sample.loggers "noisy" "noisy") by (split_and!; [done|by eexists|by vm_compute]).
    rewrite <- (most_specific_unique Sample.loggers "noisy" k l "noisy") in Hl; [|by split_and!| done|].
    + vm_compute in Hl. by injection Hl as <-.
    + destruct Hk as (_ & _ & Hmk). apply matches_app in Hmk as [r Hr]. rewrite Hr, str_length_app. lia.
  - apply (Hno "noisy"). split_and!; [done|by eexists|by vm_compute].
Qed.

Lemma event_routed_as_documented_witness : ∃ w',
  Sample.run DEBUG "app::db" = Done w' ∧ ∀ i a st, Sample.actors !! i = Some a → w_actors Sample.world !! i = Some st → is_Some (w_actors w' !! i).
Proof.
  destruct (Sample.run DEBUG "app::db") as [w'| |] eqn:E; [|by vm_compute in E..]. exists w'. split; [done|]. intros i a st Ha Hst.
  destruct (event_routed_as_documented Sample.loggers Sample.actors 0 0 (Sample.event DEBUG "app::db") (event_metadata (Sample.event DEBUG "app::db"))
    Sample.world w' Sample.names_ok Sample.built (Sample.app_started "app::db" ltac:(by vm_compute)) E i a st Ha Hst) as (st' & Hst' & _).
  by exists st'.
Defined.
