(* ===== verification/LogEncoders.v ===== *)
(** * The encoders (logging/src/encoders/)

    First the pattern encoder ([pattern.rs]), then the JSON lines encoder ([json.rs]).

    A pattern is cut at the matches of a regular expression: the text between two matches is literal, a match is a conversion
    specifier or an escaped percent sign.  The regular expression is matched by the [regex] crate, and what it finds is a parameter,
    with what its documentation promises of [captures_iter] as the hypothesis [captures_of]: the leftmost match of the expression, then the leftmost after it, and
    so on.  [scan_head] is what the expression matches at the head of an ASCII text (its [\d] also matches other digits, which [parse::<i32>] refuses);
    [scan] is a function that meets the hypothesis.  What [chrono] prints of a timestamp and [std] of a float are parameters too.  Strings are
    UTF-8 bytes. *)

From Stdlib Require Import Ascii.
From stdpp Require Import strings gmap sorting pretty.
From S2P Require Import Prelude LogEvents.

(** ** The captures *)
Inductive Captured :=
| CSpecifier (converter : ascii) (padding options : option string)
| CEscaped.

Record Capture := mk_capture { c_start : nat; c_end : nat; c_what : Captured }.

Definition char_str (c : ascii) : string := String c EmptyString.

(** The text of a match, from its groups. *)
Definition captured_text (c : Captured) : string :=
  match c with
  | CSpecifier conv pad opts =>
      "%" +:+ default EmptyString pad +:+ char_str conv +:+
      match opts with Some o => "{" +:+ o +:+ "}" | None => EmptyString end
  | CEscaped => "%%"
  end.

(** [s[a..b]]. *)
Definition slice (a b : nat) (s : string) : string := String.substring a (b - a) s.

(** The matches of [captures_iter] are the given text of the pattern, from left to right, without overlap. *)
Fixpoint captures_ok (s : string) (from : nat) (cs : list Capture) : Prop :=
  match cs with
  | [] => (from ≤ String.length s)%nat
  | c :: cs' => (from ≤ c_start c)%nat ∧ (c_start c < c_end c ≤ String.length s)%nat ∧
      slice (c_start c) (c_end c) s = captured_text (c_what c) ∧ captures_ok s (c_end c) cs'
  end.

(** ** Parsing *)
Record PatternSpecifier := mk_spec { converter : ascii; padding : option Z; options : option string }.

Inductive Segment := Literal (s : string) | Specifier (spec : PatternSpecifier).

(** [str::parse::<i32>] of the text of the padding group, an optional sign and digits. *)
Definition digit (c : ascii) : option Z :=
  let n := Z.of_nat (Ascii.nat_of_ascii c) in if decide (48 ≤ n ≤ 57) then Some (n - 48) else None.

Fixpoint parse_digits (acc : Z) (s : string) : option Z :=
  match s with
  | EmptyString => Some acc
  | String c s' => match digit c with Some d => parse_digits (acc * 10 + d) s' | None => None end
  end.

Definition parse_nat_str (s : string) : option Z := match s with EmptyString => None | _ => parse_digits 0 s end.

Definition in_i32 (z : Z) : option Z := if decide (- 2 ^ 31 ≤ z < 2 ^ 31) then Some z else None.

Definition parse_i32 (s : string) : option Z :=
  match strip_prefix s "-" with
  | Some s' => parse_nat_str s' ≫= λ n, in_i32 (- n)
  | None => parse_nat_str (default s (strip_prefix s "+")) ≫= in_i32
  end.

Definition literal_between (a b : nat) (s : string) : list Segment :=
  if decide (a < b)%nat then [Literal (slice a b s)] else [].

Definition segment_of (c : Captured) : Segment :=
  match c with
  | CSpecifier conv pad opts => Specifier (mk_spec conv (pad ≫= parse_i32) opts)
  | CEscaped => Literal "%"
  end.

Fixpoint parse_from (s : string) (last_end : nat) (cs : list Capture) : list Segment :=
  match cs with
  | [] => literal_between last_end (String.length s) s
  | c :: cs' => literal_between last_end (c_start c) s ++ segment_of (c_what c) :: parse_from s (c_end c) cs'
  end.

Definition parse (captures_iter : string → list Capture) (s : string) : list Segment := parse_from s 0 (captures_iter s).

(** What of the pattern a segment stands for. *)
Inductive stands_for : Segment → string → Prop :=
| stands_literal s : stands_for (Literal s) s
| stands_escaped : stands_for (Literal "%") "%%"
| stands_specifier conv pad opts : stands_for (Specifier (mk_spec conv (pad ≫= parse_i32) opts)) (captured_text (CSpecifier conv pad opts)).

Definition concat_str (l : list string) : string := foldr String.app EmptyString l.

Lemma concat_str_app l1 l2 : concat_str (l1 ++ l2) = concat_str l1 +:+ concat_str l2.
Proof. induction l1 as [|s l1 IH]; [done|]. simpl. rewrite IH. by rewrite str_app_assoc. Qed.

Lemma substring_0_all n s : (String.length s ≤ n)%nat → String.substring 0 n s = s.
Proof. revert n. induction s as [|c s IH]; intros [|n] H; simpl in *; try lia; [done..|]. rewrite IH by lia. done. Qed.

Lemma substring_beyond a n s : (String.length s ≤ a)%nat → String.substring a n s = EmptyString.
Proof.
  revert a. induction s as [|c s IH]; intros [|a] H; simpl in *; try lia; [by destruct n|done|]. apply IH. lia.
Qed.

Lemma substring_app a m n s : String.substring a (m + n) s = String.substring a m s +:+ String.substring (a + m) n s.
Proof.
  revert a m. induction s as [|c s IH]; intros a m; [by destruct a, m, n|]. destruct a as [|a]; [|apply IH].
  destruct m as [|m]; [done|]. simpl. rewrite str_app_cons. f_equal. apply (IH 0%nat m).
Qed.

Lemma slice_app a b c s : (a ≤ b ≤ c)%nat → slice a c s = slice a b s +:+ slice b c s.
Proof.
  intros H. unfold slice. replace (c - a)%nat with ((b - a) + (c - b))%nat by lia. rewrite substring_app. by replace (a + (b - a))%nat with b by lia.
Qed.

Lemma slice_full s : slice 0 (String.length s) s = s.
Proof. unfold slice. apply substring_0_all. lia. Qed.

Lemma slice_nil a s : slice a a s = EmptyString.
Proof. unfold slice. rewrite Nat.sub_diag. destruct s, a; simpl; try done. revert a. induction s as [|c' s IH]; intros [|a]; try done. apply IH. Qed.

Lemma literal_between_stands a b s : (a ≤ b)%nat →
  ∃ src, Forall2 stands_for (literal_between a b s) src ∧ concat_str src = slice a b s.
Proof.
  intros H. unfold literal_between. case_decide as Hd.
  - exists [slice a b s]. split; [by repeat constructor|]. simpl. apply str_app_nil_r.
  - exists []. split; [constructor|]. assert (a = b) as -> by lia. by rewrite slice_nil.
Qed.

(** The segments stand for the whole of the pattern, in order. *)
Lemma parse_from_covers s from cs : captures_ok s from cs →
  ∃ src, Forall2 stands_for (parse_from s from cs) src ∧ concat_str src = slice from (String.length s) s.
Proof.
  revert from. induction cs as [|c cs IH]; intros from H; cbn [parse_from captures_ok] in *; [by apply literal_between_stands|].
  destruct H as (H1 & H2 & Ht & H). destruct (IH _ H) as (src2 & F2 & E2).
  destruct (literal_between_stands from (c_start c) s H1) as (src1 & F1 & E1).
  exists (src1 ++ captured_text (c_what c) :: src2). split.
  - apply Forall2_app; [done|]. constructor; [|done]. destruct (c_what c); constructor.
  - rewrite concat_str_app, E1. simpl. rewrite E2, <- Ht. rewrite <- !slice_app by lia. done.
Qed.

(** ** A matcher of the regular expression *)
Definition is_alpha (c : ascii) : bool :=
  let n := Z.of_nat (Ascii.nat_of_ascii c) in bool_decide (65 ≤ n ≤ 90) || bool_decide (97 ≤ n ≤ 122).

Fixpoint span_str (f : ascii → bool) (s : string) : string * string :=
  match s with
  | EmptyString => (EmptyString, EmptyString)
  | String c s' => if f c then let '(a, b) := span_str f s' in (String c a, b) else (EmptyString, s)
  end.

Definition is_digit (c : ascii) : bool := bool_decide (is_Some (digit c)).

(** The optional padding group: a sign followed by no digit is not part of it. *)
Definition scan_padding (s : string) : option string * string :=
  let '(sign, s1) := match strip_prefix s "-" with Some s' => ("-", s') | None => (EmptyString, s) end in
  match span_str is_digit s1 with
  | (EmptyString, _) => (None, s)
  | (ds, rest) => (Some (sign +:+ ds), rest)
  end.

(** The optional group of options: a brace, characters other than the closing brace, at least one, and the closing brace. *)
Definition scan_options (s : string) : option string * string :=
  match strip_prefix s "{" with
  | Some s1 =>
      match span_str (λ c, negb (bool_decide (char_str c = "}"))) s1 with
      | (EmptyString, _) | (_, EmptyString) => (None, s)
      | (o, String _ rest) => (Some o, rest)
      end
  | None => (None, s)
  end.

(** A match at the head of [s], and the text after it. *)
Definition scan_head (s : string) : option (Captured * string) :=
  match strip_prefix s "%" with
  | None => None
  | Some s1 =>
      let '(pad, s2) := scan_padding s1 in
      match s2 with
      | String c s3 =>
          if is_alpha c then let '(o, rest) := scan_options s3 in Some (CSpecifier c pad o, rest)
          else match strip_prefix s1 "%" with Some rest => Some (CEscaped, rest) | None => None end
      | EmptyString => None
      end
  end.

Fixpoint scan_from (fuel pos : nat) (s : string) : list Capture :=
  match fuel with
  | O => []
  | S fuel' =>
      match scan_head s with
      | Some (c, rest) => let len := String.length (captured_text c) in mk_capture pos (pos + len) c :: scan_from fuel' (pos + len) rest
      | None => match s with EmptyString => [] | String _ s' => scan_from fuel' (S pos) s' end
      end
  end.

Definition scan (s : string) : list Capture := scan_from (String.length s) 0 s.

Lemma span_str_app f s a b : span_str f s = (a, b) → s = a +:+ b.
Proof.
  revert a b. induction s as [|c s IH]; intros a b; simpl; [by intros [= <- <-]|]. destruct (f c).
  - destruct (span_str f s) as [a' b']. intros [= <- <-]. rewrite str_app_cons. by rewrite (IH a' b').
  - by intros [= <- <-].
Qed.

Lemma span_str_stop f s a c b : span_str f s = (a, String c b) → f c = false.
Proof.
  revert a. induction s as [|c' s IH]; intros a; simpl; [done|]. destruct (f c') eqn:E.
  - destruct (span_str f s) as [a' b']. intros [= _ ->]. by apply (IH a').
  - by intros [= _ -> ->].
Qed.

Lemma scan_padding_app s p rest : scan_padding s = (p, rest) → s = default EmptyString p +:+ rest.
Proof.
  unfold scan_padding. destruct (strip_prefix s "-") as [s'|] eqn:E.
  - apply strip_prefix_Some in E as ->. destruct (span_str is_digit s') as [ds r] eqn:Es. destruct ds as [|d ds]; intros [= <- <-]; [done|].
    apply span_str_app in Es as ->. simpl. by rewrite <- str_app_assoc.
  - destruct (span_str is_digit s) as [ds r] eqn:Es. destruct ds as [|d ds]; intros [= <- <-]; [done|]. by apply span_str_app in Es as ->.
Qed.

Lemma scan_options_app s o rest : scan_options s = (o, rest) →
  s = match o with Some o => "{" +:+ o +:+ "}" | None => EmptyString end +:+ rest.
Proof.
  unfold scan_options. destruct (strip_prefix s "{") as [s1|] eqn:E; [|by intros [= <- <-]].
  apply strip_prefix_Some in E as ->. destruct (span_str _ s1) as [a b] eqn:Es. destruct a as [|ca a]; [by intros [= <- <-]|].
  destruct b as [|cb b]; intros [= <- <-]; [done|]. pose proof (span_str_stop _ _ _ _ _ Es) as Hc. apply span_str_app in Es as ->.
  apply negb_false_iff, bool_decide_eq_true in Hc. injection Hc as ->. rewrite <- !str_app_assoc. done.
Qed.

Lemma scan_head_app s c rest : scan_head s = Some (c, rest) → s = captured_text c +:+ rest.
Proof.
  unfold scan_head. destruct (strip_prefix s "%") as [s1|] eqn:E; [|done]. apply strip_prefix_Some in E as ->.
  destruct (scan_padding s1) as [pad s2] eqn:Ep. apply scan_padding_app in Ep. destruct s2 as [|a s3]; [done|].
  destruct (is_alpha a).
  - destruct (scan_options s3) as [o r] eqn:Eo. apply scan_options_app in Eo. intros [= <- <-]. rewrite Ep, Eo. simpl.
    rewrite <- !str_app_assoc. done.
  - destruct (strip_prefix s1 "%") as [r|] eqn:E2; [|done]. intros [= <- <-]. by apply strip_prefix_Some in E2 as ->.
Qed.

Lemma captured_text_pos c : (0 < String.length (captured_text c))%nat.
Proof. destruct c; cbn [captured_text]; rewrite ?str_length_app; simpl; lia. Qed.

Lemma slice_app_middle a b c : slice (String.length a) (String.length a + String.length b) (a +:+ b +:+ c) = b.
Proof.
  unfold slice. replace (String.length a + String.length b - String.length a)%nat with (String.length b) by lia.
  induction a as [|x a IH]; [|exact IH]. simpl. change (EmptyString +:+ b +:+ c) with (b +:+ c).
  induction b as [|x b IH]; [by destruct c|]. rewrite str_app_cons. simpl. by rewrite IH.
Qed.

Lemma scan_from_ok fuel pos pre s : String.length pre = pos → captures_ok (pre +:+ s) pos (scan_from fuel pos s).
Proof.
  revert pos pre s. induction fuel as [|fuel IH]; intros pos pre s Hpos; cbn [scan_from].
  { cbn [captures_ok]. rewrite str_length_app. lia. }
  destruct (scan_head s) as [[c rest]|] eqn:E.
  - apply scan_head_app in E as ->. cbn [captures_ok c_start c_end c_what]. pose proof (captured_text_pos c).
    rewrite !str_length_app. split_and!; [lia|lia|lia| |].
    + rewrite <- Hpos. apply slice_app_middle.
    + rewrite str_app_assoc. apply IH. by rewrite str_length_app, Hpos.
  - destruct s as [|x s]; [cbn [captures_ok]; rewrite str_length_app; lia|].
    specialize (IH (S pos) (pre +:+ char_str x) s). rewrite <- str_app_assoc in IH. unfold char_str in IH. rewrite str_app_cons in IH.
    change (EmptyString +:+ s) with s in IH. rewrite str_length_app in IH. simpl in IH. specialize (IH ltac:(lia)).
    revert IH. generalize (pre +:+ String x s) as full, (scan_from fuel (S pos) s) as cs. intros full [|c cs]; cbn [captures_ok]; [lia|].
    intros (? & ?). split; [lia|done].
Qed.

Lemma scan_ok s : captures_ok s 0 (scan s).
Proof. apply (scan_from_ok _ 0 EmptyString s). done. Qed.

(** ** What the expression matches, and printing a pattern *)

(** [captures_iter] yields the leftmost match, then the leftmost after it, and so on. *)
Fixpoint captures_of (s : string) (from : nat) (cs : list Capture) : Prop :=
  match cs with
  | [] => ∀ p, (from ≤ p)%nat → scan_head (slice p (String.length s) s) = None
  | c :: cs' => (from ≤ c_start c)%nat ∧ (∀ p, (from ≤ p < c_start c)%nat → scan_head (slice p (String.length s) s) = None) ∧
      (∃ rest, scan_head (slice (c_start c) (String.length s) s) = Some (c_what c, rest)) ∧
      c_end c = (c_start c + String.length (captured_text (c_what c)))%nat ∧ captures_of s (c_end c) cs'
  end.

Fixpoint all_chars (f : ascii → bool) (s : string) : bool :=
  match s with EmptyString => true | String c s' => f c && all_chars f s' end.

Definition is_ascii : string → bool := all_chars (λ c, bool_decide (Ascii.nat_of_ascii c < 128)%nat).
Definition no_percent : string → bool := all_chars (λ c, negb (bool_decide (char_str c = "%"))).
Definition no_brace : string → bool := all_chars (λ c, negb (bool_decide (char_str c = "}"))).

(** The pattern that says a segment, and a list of segments. *)
Definition print_segment (seg : Segment) : string :=
  match seg with
  | Literal s => if decide (s = "%") then "%%" else s
  | Specifier spec => captured_text (CSpecifier (converter spec) (pretty <$> padding spec) (options spec))
  end.

Definition print_pattern (segs : list Segment) : string := concat_str (print_segment <$> segs).

(** Segments a pattern can say: no two plain literals in a row, a plain literal has no percent sign, and no brace follows a specifier without options. *)
Definition spec_ok (spec : PatternSpecifier) : Prop :=
  is_alpha (converter spec) = true ∧ match padding spec with Some n => - 2 ^ 31 ≤ n < 2 ^ 31 | None => True end ∧
  match options spec with Some o => o ≠ EmptyString ∧ no_brace o = true | None => True end.

Fixpoint canonical (segs : list Segment) : Prop :=
  match segs with
  | [] => True
  | Literal s :: segs' =>
      (s = "%" ∨ (s ≠ EmptyString ∧ no_percent s = true ∧ match segs' with Literal s' :: _ => s' = "%" | _ => True end)) ∧ canonical segs'
  | Specifier spec :: segs' =>
      spec_ok spec ∧ (options spec = None → match segs' with Literal s :: _ => strip_prefix s "{" = None | _ => True end) ∧ canonical segs'
  end.

Lemma slice_shift pre s : slice (String.length pre) (String.length (pre +:+ s)) (pre +:+ s) = s.
Proof.
  pose proof (slice_app_middle pre s EmptyString) as H. rewrite str_app_nil_r in H. by rewrite str_length_app.
Qed.

Lemma slice_end p s : (String.length s ≤ p)%nat → slice p (String.length s) s = EmptyString.
Proof. intros H. unfold slice. by apply substring_beyond. Qed.

(** The captures are determined: [scan] finds them. *)
Lemma captures_of_scan fuel pre s cs : (String.length s ≤ fuel)%nat → captures_of (pre +:+ s) (String.length pre) cs →
  cs = scan_from fuel (String.length pre) s.
Proof.
  revert pre s cs. induction fuel as [|fuel IH]; intros pre s cs Hf Hc; cbn [scan_from].
  - destruct s; [|simpl in Hf; lia]. destruct cs as [|c cs]; [done|]. destruct Hc as (Hle & _ & (rest & Hm) & _).
    rewrite slice_end in Hm; [done|]. rewrite str_app_nil_r. lia.
  - destruct (scan_head s) as [[w rest]|] eqn:E.
    + destruct cs as [|c cs]; [specialize (Hc (String.length pre) ltac:(lia)); rewrite slice_shift, E in Hc; done|].
      destruct Hc as (Hle & Hno & (rest' & Hm) & He & Hc). destruct (decide (c_start c = String.length pre)) as [Es|Hne].
      2: { specialize (Hno (String.length pre) ltac:(lia)). by rewrite slice_shift, E in Hno. }
      rewrite Es, slice_shift, E in Hm. injection Hm as Hw <-. apply scan_head_app in E as ->. destruct c as [cs_ ce cw]; simpl in *. subst cs_ cw.
      f_equal; [by rewrite He|]. pose proof (captured_text_pos w) as Hpos. rewrite str_length_app in Hf.
      specialize (IH (pre +:+ captured_text w) rest cs ltac:(lia)). rewrite str_length_app, <- str_app_assoc in IH. apply IH. by rewrite <- He.
    + assert (Hnot : ∀ c, scan_head (slice (c_start c) (String.length (pre +:+ s)) (pre +:+ s)) = None ∨ c_start c ≠ String.length pre).
      { intros c. destruct (decide (c_start c = String.length pre)) as [->|]; [left|by right]. by rewrite slice_shift. }
      destruct s as [|x s].
      * destruct cs as [|c cs]; [done|]. destruct Hc as (Hle & _ & (rest & Hm) & _). rewrite slice_end in Hm; [done|]. rewrite str_app_nil_r. lia.
      * specialize (IH (pre +:+ char_str x) s cs ltac:(simpl in Hf; lia)). rewrite str_length_app, <- str_app_assoc in IH. simpl in IH.
        rewrite Nat.add_1_r in IH. apply IH. change (pre +:+ char_str x +:+ s) with (pre +:+ String x s).
        destruct cs as [|c cs]; [intros p Hp; apply Hc; lia|]. destruct Hc as (Hle & Hno & (rest & Hm) & Hc).
        split; [|split; [intros p Hp; apply Hno; lia|split; [by exists rest|done]]].
        destruct (Hnot c) as [Hn|]; [congruence|lia].
Qed.

Lemma scan_captures_from fuel pre s : (String.length s ≤ fuel)%nat → captures_of (pre +:+ s) (String.length pre) (scan_from fuel (String.length pre) s).
Proof.
  revert pre s. induction fuel as [|fuel IH]; intros pre s Hf; cbn [scan_from].
  - destruct s; [|simpl in Hf; lia]. intros p Hp. rewrite slice_end; [done|]. by rewrite str_app_nil_r.
  - destruct (scan_head s) as [[w rest]|] eqn:E.
    + pose proof E as Es. apply scan_head_app in Es as ->. rewrite str_length_app in Hf. pose proof (captured_text_pos w).
      cbn [captures_of c_start c_end c_what]. split; [done|]. split; [intros p ?; lia|]. split; [exists rest; by rewrite slice_shift|]. split; [done|].
      rewrite str_app_assoc, <- str_length_app. apply IH. lia.
    + destruct s as [|x s]; [intros p Hp; rewrite slice_end; [done|by rewrite str_app_nil_r]|].
      specialize (IH (pre +:+ char_str x) s ltac:(simpl in Hf; lia)). rewrite str_length_app, <- str_app_assoc in IH. simpl in IH. rewrite Nat.add_1_r in IH.
      change (pre +:+ char_str x +:+ s) with (pre +:+ String x s) in IH. pose proof (slice_shift pre (String x s)) as Hsh. revert IH Hsh.
      generalize (pre +:+ String x s) as full, (scan_from fuel (S (String.length pre)) s) as cs. intros full cs IH Hsh.
      assert (Hat : ∀ p, (String.length pre ≤ p)%nat → p = String.length pre ∨ (S (String.length pre) ≤ p)%nat) by lia.
      destruct cs as [|c cs]; cbn [captures_of] in *.
      * intros p [->|Hp]%Hat; [by rewrite Hsh|by apply IH].
      * destruct IH as (Hle & Hno & H). split; [lia|]. split; [|done]. intros p [[->|Hp]%Hat Hlt]; [by rewrite Hsh|apply Hno; lia].
Qed.

Lemma scan_captures s : captures_of s 0 (scan s).
Proof. apply (scan_captures_from _ EmptyString). done. Qed.

(** *** Scanning what is printed *)
Lemma span_str_all f s c r : all_chars f s = true → f c = false → span_str f (s +:+ String c r) = (s, String c r).
Proof.
  intros Hs Hc. induction s as [|x s IH]; [change (EmptyString +:+ String c r) with (String c r); simpl; by rewrite Hc|].
  simpl in Hs. apply andb_true_iff in Hs as [Hx Hs]. rewrite str_app_cons. simpl. by rewrite Hx, IH.
Qed.

Lemma digit_pretty x : (x < 10)%N → digit (pretty_N_char x) = Some (Z.of_N x).
Proof.
  intros H. assert (x = 0 ∨ x = 1 ∨ x = 2 ∨ x = 3 ∨ x = 4 ∨ x = 5 ∨ x = 6 ∨ x = 7 ∨ x = 8 ∨ x = 9)%N as Hx by lia.
  by repeat destruct Hx as [->|Hx]; subst.
Qed.

Lemma pretty_go_digits x s : all_chars is_digit s = true → all_chars is_digit (pretty_N_go x s) = true.
Proof.
  revert s. induction (N.lt_wf_0 x) as [x _ IH]; intros s Hs. destruct (decide (x = 0)%N) as [->|Hx]; [by rewrite pretty_N_go_0|].
  rewrite pretty_N_go_step by lia. apply IH; [by apply N.div_lt; lia|]. simpl. rewrite Hs. unfold is_digit.
  rewrite digit_pretty by (by apply N.mod_lt). done.
Qed.

Lemma parse_pretty_go x s : parse_digits 0 (pretty_N_go x s) = parse_digits (Z.of_N x) s.
Proof.
  revert s. induction (N.lt_wf_0 x) as [x _ IH]; intros s. destruct (decide (x = 0)%N) as [->|Hx]; [by rewrite pretty_N_go_0|].
  rewrite pretty_N_go_step by lia. rewrite IH by (by apply N.div_lt; lia). cbn [parse_digits]. rewrite digit_pretty by (by apply N.mod_lt).
  f_equal. pose proof (N.div_mod x 10). lia.
Qed.

Lemma pretty_N_pos x : (0 < x)%N → ∃ c s, pretty_N_go x EmptyString = String c s ∧ is_digit c = true.
Proof.
  intros Hx. pose proof (pretty_go_digits x EmptyString eq_refl) as Hd. pose proof (parse_pretty_go x EmptyString) as Hp.
  destruct (pretty_N_go x EmptyString) as [|c s]; [simpl in Hp; injection Hp; lia|]. exists c, s. split; [done|]. simpl in Hd. by apply andb_true_iff in Hd as [? _].
Qed.

(** A decimal numeral: an optional sign and digits. *)
Lemma pretty_shape (n : Z) : ∃ sign c ds, pretty n = sign +:+ String c ds ∧ (sign = EmptyString ∨ sign = "-") ∧ is_digit c = true ∧ all_chars is_digit ds = true.
Proof.
  assert (Hpos : ∀ p, ∃ c ds, pretty (N.pos p) = String c ds ∧ is_digit c = true ∧ all_chars is_digit ds = true).
  { intros p. unfold pretty, pretty_N. rewrite decide_False by done. destruct (pretty_N_pos (N.pos p)) as (c & s & E & Hc); [done|]. exists c, s.
    pose proof (pretty_go_digits (N.pos p) EmptyString eq_refl) as Hd. rewrite E in *. simpl in Hd. apply andb_true_iff in Hd as [_ Hd]. done. }
  destruct n as [|p|p].
  - exists EmptyString, "0"%char, EmptyString. split; [done|]. split; [by left|]. done.
  - destruct (Hpos p) as (c & ds & E & ? & ?). exists EmptyString, c, ds. split; [exact E|]. split; [by left|done].
  - destruct (Hpos p) as (c & ds & E & ? & ?). exists "-", c, ds. split; [change (pretty (Z.neg p)) with ("-" +:+ pretty (N.pos p)); by rewrite E|]. split; [by right|done].
Qed.

Lemma strip_char c s : strip_prefix (String c s) (char_str c) = Some s.
Proof. cbn [strip_prefix char_str]. rewrite decide_True by done. by destruct s. Qed.

Lemma strip_dash s : strip_prefix s "-" = match s with String c s' => if decide (c = "-"%char) then Some s' else None | EmptyString => None end.
Proof. destruct s as [|c s]; [done|]. cbn [strip_prefix]. destruct (decide ("-"%char = c)) as [<-|Hne]; [rewrite decide_True by done; by destruct s|by rewrite decide_False by congruence]. Qed.

Lemma alpha_not_digit c : is_alpha c = true → is_digit c = false.
Proof.
  intros Hc. unfold is_digit. apply bool_decide_eq_false. intros [z Hz]. unfold is_alpha, digit in *. apply orb_true_iff in Hc.
  rewrite !bool_decide_eq_true in Hc. cbn zeta in Hz. case_decide; [lia|done].
Qed.

Lemma scan_padding_pretty (n : Z) c r : is_alpha c = true → scan_padding (pretty n +:+ String c r) = (Some (pretty n), String c r).
Proof.
  intros Hc. pose proof (alpha_not_digit c Hc) as Hd.
  destruct (pretty_shape n) as (sign & d & ds & -> & Hs & Hd1 & Hds). unfold scan_padding. rewrite strip_dash.
  assert (Hall : all_chars is_digit (String d ds) = true) by (simpl; by rewrite Hd1).
  destruct Hs as [-> | ->].
  - change (EmptyString +:+ String d ds) with (String d ds). rewrite str_app_cons. cbv beta iota. rewrite decide_False by (intros ->; by vm_compute in Hd1). cbv beta iota.
    rewrite <- str_app_cons, span_str_all by done. done.
  - change (("-" +:+ String d ds) +:+ String c r) with (String "-" (String d ds +:+ String c r)). cbv beta iota. rewrite decide_True by done. cbv beta iota.
    by rewrite span_str_all by done.
Qed.

Lemma parse_i32_pretty (n : Z) : - 2 ^ 31 ≤ n < 2 ^ 31 → parse_i32 (pretty n) = Some n.
Proof.
  intros Hn. assert (Hpos : ∀ p, parse_nat_str (pretty (N.pos p)) = Some (Z.pos p)).
  { intros p. unfold pretty, pretty_N. rewrite decide_False by done. pose proof (parse_pretty_go (N.pos p) EmptyString) as Hp.
    destruct (pretty_N_pos (N.pos p)) as (c & s & E & _); [done|]. unfold parse_nat_str. rewrite E in *. exact Hp. }
  unfold parse_i32. rewrite strip_dash. destruct n as [|p|p]; [by vm_compute| |].
  - destruct (pretty_N_pos (N.pos p)) as (c & s & E & Hc); [done|]. specialize (Hpos p). change (pretty (Z.pos p)) with (pretty (N.pos p)).
    assert (E2 : pretty (N.pos p) = String c s) by exact E. rewrite E2 in *. cbv beta iota. rewrite decide_False by (intros ->; by vm_compute in Hc).
    cbn [strip_prefix]. rewrite decide_False by (intros <-; by vm_compute in Hc). cbn [default from_option]. rewrite Hpos. cbn. unfold in_i32. by rewrite decide_True.
  - change (pretty (Z.neg p)) with (String "-" (pretty (N.pos p))). cbv beta iota. rewrite decide_True by done. rewrite Hpos. cbn. unfold in_i32. by rewrite decide_True.
Qed.

(** What follows a specifier without options must not begin with a brace. *)
Lemma scan_options_print opts r :
  match opts with Some o => o ≠ EmptyString ∧ no_brace o = true | None => strip_prefix r "{" = None end →
  scan_options (match opts with Some o => "{" +:+ o +:+ "}" | None => EmptyString end +:+ r) = (opts, r).
Proof.
  unfold scan_options. destruct opts as [o|]; [|intros H; change (EmptyString +:+ r) with r; by rewrite H]. intros [Hne Hb].
  rewrite <- !str_app_assoc. change ("{" +:+ (o +:+ ("}" +:+ r))) with (String "{" (o +:+ String "}" r)). rewrite (strip_char "{").
  rewrite span_str_all by done. by destruct o.
Qed.

Lemma scan_padding_alpha c r : is_alpha c = true → scan_padding (String c r) = (None, String c r).
Proof.
  intros Hc. pose proof (alpha_not_digit c Hc) as Hd. unfold scan_padding. rewrite strip_dash. cbv beta iota.
  rewrite decide_False by (intros ->; by vm_compute in Hc). cbv beta iota. cbn [span_str]. by rewrite Hd.
Qed.

Lemma scan_head_spec spec r : spec_ok spec → (options spec = None → strip_prefix r "{" = None) →
  scan_head (print_segment (Specifier spec) +:+ r) = Some (CSpecifier (converter spec) (pretty <$> padding spec) (options spec), r).
Proof.
  destruct spec as [c pad opts]. intros (Hc & Hpad & Hopt) Hr. simpl in Hc, Hpad, Hopt, Hr.
  set (tail := match opts with Some o => "{" +:+ o +:+ "}" | None => EmptyString end +:+ r).
  assert (Ho : scan_options tail = (opts, r)) by (apply scan_options_print; destruct opts; [done|by apply Hr]).
  assert (E : print_segment (Specifier (mk_spec c pad opts)) +:+ r = String "%" (default EmptyString (pretty <$> pad) +:+ String c tail)).
  { cbn [print_segment captured_text converter padding options]. rewrite <- !str_app_assoc. done. }
  rewrite E. unfold scan_head. rewrite (strip_char "%"). cbn [converter padding options].
  assert (Hp : scan_padding (default EmptyString (pretty <$> pad) +:+ String c tail) = (pretty <$> pad, String c tail)).
  { destruct pad as [n|]; [by apply scan_padding_pretty|by apply scan_padding_alpha]. }
  rewrite Hp, Hc, Ho. done.
Qed.

(** *** Parsing what is printed *)
Lemma scan_escaped r : scan_head ("%%" +:+ r) = Some (CEscaped, r).
Proof.
  change ("%%" +:+ r) with (String "%" (String "%" r)). unfold scan_head. rewrite (strip_char "%").
  unfold scan_padding. rewrite strip_dash. cbv beta iota. rewrite decide_False by done. cbv beta iota. cbn [span_str].
  change (is_digit "%") with false. cbv beta iota. change (is_alpha "%") with false. cbv beta iota. by rewrite (strip_char "%").
Qed.

Lemma scan_head_plain c r : char_str c ≠ "%" → scan_head (String c r) = None.
Proof. intros H. unfold scan_head. cbn [strip_prefix]. rewrite decide_False; [done|]. intros <-. done. Qed.

Lemma scan_from_plain fuel pos s r : no_percent s = true →
  scan_from (String.length s + fuel) pos (s +:+ r) = scan_from fuel (pos + String.length s) r.
Proof.
  revert pos. induction s as [|c s IH]; intros pos Hs; [by rewrite Nat.add_0_r|]. simpl in Hs. apply andb_true_iff in Hs as [Hc Hs].
  apply negb_true_iff, bool_decide_eq_false in Hc. rewrite str_app_cons. cbn [String.length Nat.add scan_from]. rewrite scan_head_plain by done.
  rewrite IH by done. f_equal. lia.
Qed.

(** A segment other than a plain literal is scanned in one match, which is parsed back. *)
Definition matched (seg : Segment) : option Captured :=
  match seg with
  | Literal s => if decide (s = "%") then Some CEscaped else None
  | Specifier spec => Some (CSpecifier (converter spec) (pretty <$> padding spec) (options spec))
  end.

Lemma matched_scan seg segs w : canonical (seg :: segs) → matched seg = Some w →
  scan_head (print_segment seg +:+ print_pattern segs) = Some (w, print_pattern segs) ∧ captured_text w = print_segment seg ∧ segment_of w = seg.
Proof.
  destruct seg as [s|spec]; simpl; intros Hcan Hm.
  - case_decide; [|done]. injection Hm as <-. subst s. split; [apply scan_escaped|done].
  - injection Hm as <-. destruct Hcan as (Hok & Hbr & Hcan). split; [|split; [done|]].
    + apply scan_head_spec; [done|]. intros Hn. specialize (Hbr Hn). destruct segs as [|[s|spec2] segs]; [done| |done]. unfold print_pattern. simpl.
      case_decide; [done|]. destruct Hcan as [[->|(Hne & _)] _]; [done|]. destruct s as [|c s]; [done|]. rewrite str_app_cons. cbn [strip_prefix] in *. destruct (decide _); [by destruct s|done].
    + destruct spec as [c pad opts]. destruct Hok as (_ & Hp & _). simpl in *. f_equal. f_equal. destruct pad as [n|]; [|done]. by apply parse_i32_pretty.
Qed.

Lemma matched_canonical seg segs : canonical (seg :: segs) → canonical segs.
Proof. destruct seg; simpl; tauto. Qed.

Lemma parse_matched fuel pre seg segs w : canonical (seg :: segs) → matched seg = Some w → (String.length (print_pattern (seg :: segs)) ≤ fuel)%nat →
  (∀ fuel' pre', (String.length (print_pattern segs) ≤ fuel')%nat →
    parse_from (pre' +:+ print_pattern segs) (String.length pre') (scan_from fuel' (String.length pre') (print_pattern segs)) = segs) →
  ∀ from, (from ≤ String.length pre)%nat →
  parse_from (pre +:+ print_pattern (seg :: segs)) from (scan_from fuel (String.length pre) (print_pattern (seg :: segs))) =
    literal_between from (String.length pre) (pre +:+ print_pattern (seg :: segs)) ++ seg :: segs.
Proof.
  intros Hcan Hm Hf IH from Hfrom. destruct (matched_scan seg segs w Hcan Hm) as (Hs & Ht & Hseg).
  change (print_pattern (seg :: segs)) with (print_segment seg +:+ print_pattern segs) in *. rewrite <- Ht in *. pose proof (captured_text_pos w).
  rewrite str_length_app in Hf. destruct fuel as [|fuel]; [lia|]. cbn [scan_from]. rewrite Hs. cbn [parse_from c_start c_end c_what]. rewrite Hseg. do 2 f_equal.
  rewrite str_app_assoc, <- str_length_app. apply IH. lia.
Qed.

Lemma parse_print fuel pre segs : canonical segs → (String.length (print_pattern segs) ≤ fuel)%nat →
  parse_from (pre +:+ print_pattern segs) (String.length pre) (scan_from fuel (String.length pre) (print_pattern segs)) = segs.
Proof.
  revert fuel pre. induction segs as [segs IH] using (induction_ltof1 _ (@length Segment)). unfold ltof in IH. intros fuel pre Hcan Hf.
  destruct segs as [|seg segs].
  { unfold print_pattern. simpl. rewrite str_app_nil_r. destruct fuel; simpl; unfold literal_between; by rewrite decide_False by lia. }
  pose proof (matched_canonical _ _ Hcan) as Hcan'. destruct (matched seg) as [w|] eqn:Em.
  { rewrite (parse_matched fuel pre seg segs w Hcan Em Hf); [|intros f p ?; apply IH; [simpl; lia|done|done]|done].
    unfold literal_between. by rewrite decide_False by lia. }
  destruct seg as [s|spec]; [|done]. unfold matched in Em. case_decide as Hs; [done|]. destruct Hcan as [[|(Hne & Hnp & Hnext)] _]; [done|].
  change (print_pattern (Literal s :: segs)) with (print_segment (Literal s) +:+ print_pattern segs) in *. cbn [print_segment] in *. rewrite decide_False in * by done.
  rewrite str_length_app in Hf. replace fuel with (String.length s + (fuel - String.length s))%nat by lia. rewrite scan_from_plain by done.
  assert (Hlit : ∀ r, literal_between (String.length pre) (String.length pre + String.length s) (pre +:+ s +:+ r) = [Literal s]).
  { intros r. unfold literal_between. rewrite decide_True by (destruct s; [done|simpl; lia]). by rewrite slice_app_middle. }
  destruct segs as [|seg2 segs].
  - unfold print_pattern. simpl. replace (scan_from _ _ EmptyString) with (@nil Capture) by (by destruct (fuel - String.length s)%nat). cbn [parse_from].
    specialize (Hlit EmptyString). rewrite !str_length_app. simpl. rewrite Nat.add_0_r. exact Hlit.
  - rewrite str_app_assoc, <- str_length_app. destruct (matched seg2) as [w|] eqn:E2; [|exfalso].
    + rewrite (parse_matched _ (pre +:+ s) seg2 segs w Hcan' E2); [|lia| |rewrite str_length_app; lia].
      * rewrite <- str_app_assoc, str_length_app. by rewrite Hlit.
      * intros f p Hlen. apply IH; [simpl; lia| |done]. by apply (matched_canonical seg2).
    + destruct seg2 as [s2|]; [|done]. unfold matched in E2. case_decide; [done|]. by subst.
Qed.

(** ** Formatting *)
Definition show_level (l : Level) : string :=
  match l with ERROR => "ERROR" | WARN => "WARN" | INFO => "INFO" | DEBUG => "DEBUG" | TRACE => "TRACE" end.

(** The number of characters of UTF-8 bytes: those that do not continue one. *)
Fixpoint char_count (s : string) : nat :=
  match s with
  | EmptyString => O
  | String c s' => if decide (128 ≤ Z.of_nat (Ascii.nat_of_ascii c) < 192) then char_count s' else S (char_count s')
  end.

Fixpoint spaces (n : nat) : string := match n with O => EmptyString | S n' => String " " (spaces n') end.

(** [apply_padding]: [i32::abs] of the least [i32] overflows, which is a panic here. *)
Definition apply_padding (content : string) (padding : Z) : option string :=
  if decide (padding = - 2 ^ 31) then None
  else
    let width := Z.to_nat (Z.abs padding) in
    if decide (width ≤ String.length content)%nat then Some content
    else
      let fill := spaces (width - char_count content) in
      Some (if decide (0 < padding) then fill +:+ content else content +:+ fill).

Section Format.
(** What [chrono] prints of a timestamp, in the default form and with a format, and whether it accepts a format; what [std]
    prints of a float. *)
Context (show_ts : Z → string) (show_ts_fmt : Z → string → string) (ts_fmt_ok : string → bool) (show_f64 : Z → string).

Definition show_value (v : LogValue) : string :=
  match v with
  | VString s | VDebug s => s
  | VInt i => pretty i
  | VFloat b => show_f64 b
  | VBool b => if b then "true" else "false"
  end.

(** The fields that [%X] prints, in the order of their names. *)
Definition sorted_keys (fields : gmap string LogValue) : list string :=
  merge_sort String.le (filter (λ k, k ≠ "message") (map_to_list fields).*1).

Definition show_field (fields : gmap string LogValue) (k : string) : string :=
  match fields !! k with Some v => k +:+ "=" +:+ show_value v | None => EmptyString end.

Fixpoint join (sep : string) (l : list string) : string :=
  match l with [] => EmptyString | [x] => x | x :: l' => x +:+ sep +:+ join sep l' end.

Definition show_fields (fields : gmap string LogValue) : string :=
  if decide (fields = ∅) then EmptyString else "{" +:+ join ", " (show_field fields <$> sorted_keys fields) +:+ "}".

(** The content of a specifier other than [%n]. *)
Definition spec_content (spec : PatternSpecifier) (e : LogEvent) : string :=
  let c := char_str (converter spec) in
  if decide (c = "d") then match options spec with Some f => show_ts_fmt (ev_timestamp e) f | None => show_ts (ev_timestamp e) end
  else if decide (c = "p" ∨ c = "l") then show_level (ev_level e)
  else if decide (c = "t") then ev_target e
  else if decide (c = "m") then default EmptyString (ev_message e)
  else if decide (c = "T") then default EmptyString (ev_thread_name e)
  else if decide (c = "X") then
    match options spec with
    | Some k => match ev_fields e !! k with Some v => show_value v | None => EmptyString end
    | None => show_fields (ev_fields e)
    end
  else EmptyString.

Definition newline : string := char_str (Ascii.ascii_of_nat 10).

Definition format_specifier (spec : PatternSpecifier) (e : LogEvent) : option string :=
  if decide (char_str (converter spec) = "n") then Some newline
  else match padding spec with Some p => apply_padding (spec_content spec e) p | None => Some (spec_content spec e) end.

Definition format_segment (e : LogEvent) (seg : Segment) : option string :=
  match seg with Literal t => Some t | Specifier spec => format_specifier spec e end.

(** [PatternFormatter::format_event]; [None] is the panic. *)
Definition format_pattern (segs : list Segment) (e : LogEvent) : option string :=
  parts ← mapM (format_segment e) segs;
  let out := concat_str parts in
  Some (if ends_with out newline then out else out +:+ newline).

(** ** Validation *)
Inductive PatternError := UnknownConverter (c : ascii) | BadDateFormat (f : string).

Definition known_converters : list string := ["d"; "p"; "l"; "t"; "m"; "T"; "n"; "X"].

Definition check_specifier (spec : PatternSpecifier) : option PatternError :=
  if decide (char_str (converter spec) ∈ known_converters) then
    if decide (char_str (converter spec) = "d") then
      match options spec with Some f => if ts_fmt_ok f then None else Some (BadDateFormat f) | None => None end
    else None
  else Some (UnknownConverter (converter spec)).

(** The first error, if any. *)
Fixpoint check_segments (segs : list Segment) : option PatternError :=
  match segs with
  | [] => None
  | Literal _ :: segs' => check_segments segs'
  | Specifier spec :: segs' => match check_specifier spec with Some err => Some err | None => check_segments segs' end
  end.

Definition validate_pattern (captures_iter : string → list Capture) (pattern : string) : option PatternError :=
  check_segments (parse captures_iter pattern).
End Format.

(** ** What is printed *)

(** The output ends in a newline, and is the segments' outputs in order, with one newline added when they do not end in one. *)
Lemma format_pattern_spec show_ts show_ts_fmt show_f64 segs e out :
  format_pattern show_ts show_ts_fmt show_f64 segs e = Some out →
  ∃ parts, Forall2 (λ seg part, format_segment show_ts show_ts_fmt show_f64 e seg = Some part) segs parts ∧
    ends_with out newline = true ∧ (out = concat_str parts ∨ out = concat_str parts +:+ newline).
Proof.
  unfold format_pattern. intros (parts & Hp & H)%bind_Some. apply mapM_Some_1 in Hp. exists parts. split; [done|].
  injection H as <-. destruct (ends_with (concat_str parts) newline) eqn:E; [by auto|]. split; [|by right].
  apply ends_with_true. by eexists.
Qed.

Lemma format_pattern_total show_ts show_ts_fmt show_f64 segs e :
  (∀ spec, Specifier spec ∈ segs → padding spec ≠ Some (- 2 ^ 31)) →
  is_Some (format_pattern show_ts show_ts_fmt show_f64 segs e).
Proof.
  intros H. unfold format_pattern. assert (G : is_Some (mapM (format_segment show_ts show_ts_fmt show_f64 e) segs)).
  { apply mapM_is_Some. apply Forall_forall. intros [t|spec] Hin; simpl; [by eexists|]. unfold format_specifier. case_decide; [by eexists|].
    specialize (H spec Hin). destruct (padding spec) as [p|]; [|by eexists]. unfold apply_padding. rewrite decide_False by congruence.
    case_decide; by eexists. }
  destruct G as [parts ->]. by eexists.
Qed.

(** The least [i32] is a padding the validation accepts and the formatter overflows on. *)
Lemma least_padding_accepted :
  validate_pattern (λ _, true) scan "%-2147483648p" = None ∧
  ∀ show_ts show_ts_fmt show_f64 e, format_pattern show_ts show_ts_fmt show_f64 (parse scan "%-2147483648p") e = None.
Proof. split; [by vm_compute|]. intros. by vm_compute. Qed.

Lemma char_count_spaces n : char_count (spaces n) = n.
Proof. induction n as [|n IH]; [done|]. cbn [spaces char_count]. rewrite IH. by vm_compute (decide _). Qed.

Lemma char_count_app s t : char_count (s +:+ t) = (char_count s + char_count t)%nat.
Proof. induction s as [|c s IH]; [done|]. rewrite str_app_cons. cbn [char_count]. rewrite IH. case_decide; lia. Qed.

Lemma char_count_le s : (char_count s ≤ String.length s)%nat.
Proof. induction s as [|c s IH]; [done|]. cbn [char_count String.length]. case_decide; lia. Qed.

(** Padding adds spaces on one side only; content of fewer bytes than the width fills it, in characters. *)
Lemma apply_padding_spec content p out : apply_padding content p = Some out →
  (∃ n, out = if decide (0 < p) then spaces n +:+ content else content +:+ spaces n) ∧
  ((String.length content < Z.to_nat (Z.abs p))%nat → char_count out = Z.to_nat (Z.abs p)).
Proof.
  unfold apply_padding. case_decide; [done|]. case_decide as Hw; intros [= <-].
  - split; [|lia]. exists O. case_decide; [done|]. by rewrite str_app_nil_r.
  - pose proof (char_count_le content). split; [by eexists|]. intros _. case_decide; rewrite char_count_app, char_count_spaces; lia.
Qed.

(** The names [%X] prints are those of the fields but message, in order, and each once. *)
Lemma sorted_keys_spec fields :
  StronglySorted String.le (sorted_keys fields) ∧ NoDup (sorted_keys fields) ∧
  ∀ k, k ∈ sorted_keys fields ↔ k ≠ "message" ∧ is_Some (fields !! k).
Proof.
  unfold sorted_keys. set (ks := filter _ _). assert (Hp : merge_sort String.le ks ≡ₚ ks) by apply merge_sort_Permutation. split_and!.
  - apply StronglySorted_merge_sort; apply _.
  - rewrite Hp. apply NoDup_filter, NoDup_fst_map_to_list.
  - intros k. rewrite Hp. unfold ks. rewrite list_elem_of_filter, list_elem_of_fmap. split.
    + intros [H1 ([k' v] & -> & H)]. apply elem_of_map_to_list in H. by split; [|eexists].
    + intros [H1 [v H]]. split; [done|]. exists (k, v). split; [done|]. by apply elem_of_map_to_list.
Qed.

(** A pattern accepted has only known converters, and formats [chrono] accepts. *)
Lemma validate_pattern_spec ts_fmt_ok captures_iter pattern : validate_pattern ts_fmt_ok captures_iter pattern = None →
  ∀ spec, Specifier spec ∈ parse captures_iter pattern →
    char_str (converter spec) ∈ known_converters ∧
    (char_str (converter spec) = "d" → ∀ f, options spec = Some f → ts_fmt_ok f = true).
Proof.
  unfold validate_pattern. generalize (parse captures_iter pattern) as segs. induction segs as [|seg segs IH]; intros H spec Hin.
  { by apply elem_of_nil in Hin. }
  assert (Hc : ∀ s, seg = Specifier s → check_specifier ts_fmt_ok s = None).
  { intros s ->. simpl in H. by destruct (check_specifier ts_fmt_ok s). }
  assert (Hr : check_segments ts_fmt_ok segs = None).
  { destruct seg as [t|s]; [done|]. simpl in H. by rewrite (Hc s eq_refl) in H. }
  apply elem_of_cons in Hin as [<-|Hin]; [|by apply IH]. specialize (Hc spec eq_refl). unfold check_specifier in Hc.
  case_decide as Hk; [|done]. split; [done|]. intros Hd f Hf. rewrite decide_True in Hc by done. rewrite Hf in Hc. by destruct (ts_fmt_ok f).
Qed.

(** C26: Parsing a pattern undoes printing one, and loses nothing.  The captures being the leftmost matches, one after the other, of the expression in ASCII
    patterns: a list of segments printed as a pattern (specifiers with their padding in decimal and their options in braces, a percent sign as two) is
    parsed to the same list; and the segments of any pattern stand, in order, for texts that make up the whole of it: a literal for itself, or for
    an escaped percent sign, a specifier for the text of its match. *)
Theorem pattern_parse_roundtrip captures_iter : (∀ s, is_ascii s = true → captures_of s 0 (captures_iter s)) →
  (∀ segs, canonical segs → is_ascii (print_pattern segs) = true → parse captures_iter (print_pattern segs) = segs) ∧
  (∀ s, is_ascii s = true → ∃ src, Forall2 stands_for (parse captures_iter s) src ∧ concat_str src = s).
Proof.
  intros H. assert (Hscan : ∀ s, is_ascii s = true → captures_iter s = scan s).
  { intros s Hs. by apply (captures_of_scan _ EmptyString s), H. }
  split.
  - intros segs Hc Ha. unfold parse. rewrite (Hscan _ Ha). by apply (parse_print _ EmptyString).
  - intros s Hs. unfold parse. rewrite (Hscan _ Hs). destruct (parse_from_covers s 0 _ (scan_ok s)) as (src & Hf & Hc). exists src. by rewrite slice_full in Hc.
Qed.

Definition demo_segments : list Segment :=
  [Literal "["; Specifier (mk_spec "d" None (Some "%H:%M")); Literal "] "; Specifier (mk_spec "p" (Some (-5)) None); Literal " 100"; Literal "%"; Specifier (mk_spec "t" (Some 12) None)].

Lemma pattern_parse_roundtrip_witness :
  (∀ s, is_ascii s = true → captures_of s 0 (scan s)) ∧ print_pattern demo_segments = "[%d{%H:%M}] %-5p 100%%%12t" ∧
  parse scan "[%d{%H:%M}] %-5p 100%%%12t" = demo_segments ∧
  ∃ src, Forall2 stands_for (parse scan "50% of %5m") src ∧ concat_str src = "50% of %5m".
Proof.
  assert (H : ∀ s, is_ascii s = true → captures_of s 0 (scan s)) by (intros s _; apply scan_captures). destruct (pattern_parse_roundtrip scan H) as [H1 H2].
  split; [exact H|]. split; [by vm_compute|]. split; [|apply (H2 "50% of %5m"); by vm_compute].
  apply (H1 demo_segments); [|by vm_compute]. unfold demo_segments. simpl. repeat split; try done; (by left) || by right.
Defined.

Example pattern_prints :
  format_pattern (λ _, "T") (λ _ f, f) (λ _, "F") (parse scan "[%d] %-6p%t %5m 100%% %X")
    (with_fields (λ _, {[ "b" := VInt (-7); "a" := VBool true; "message" := VString "x" ]}) (new_event 0 INFO "app::db" "n" (Some "hi"))) =
  Some ("[T] INFO  app::db    hi 100% {a=true, b=-7}" +:+ newline).
Proof. by vm_compute. Qed.

(** ** The JSON lines encoder (logging/src/encoders/json.rs)

    The object of an event, key by key; [serde_json], which prints it, is a parameter.  [BTreeMap]s are [gmap]s. *)

Inductive JsonLeaf := JString (s : string) | JInt (i : Z) | JFloat (bits : Z) | JBool (b : bool) | JNull.
Inductive JsonValue := JLeaf (l : JsonLeaf) | JObject (m : gmap string JsonLeaf).

(** [f64::is_finite], on the bits: [Number::from_f64] refuses the others. *)
Definition is_finite (bits : Z) : bool := negb (Z.land (Z.shiftr bits 52) 2047 =? 2047).

Definition log_value_to_json_value (v : LogValue) : JsonLeaf :=
  match v with
  | VString s | VDebug s => JString s
  | VInt i => JInt i
  | VFloat b => if is_finite b then JFloat b else JNull
  | VBool b => JBool b
  end.

(** The core keys, in the order in which they are inserted. *)
Definition core_entries (show_ts : Z → string) (e : LogEvent) : list (string * option string) :=
  [("timestamp", Some (show_ts (ev_timestamp e))); ("level", Some (show_level (ev_level e))); ("target", Some (ev_target e));
   ("message", ev_message e); ("name", Some (ev_name e)); ("span_id", ev_span_id e); ("parent_id", ev_parent_id e);
   ("thread_id", ev_thread_id e); ("thread_name", ev_thread_name e)].

Definition insert_core (m : gmap string JsonValue) (kv : string * option string) : gmap string JsonValue :=
  match kv.2 with Some s => <[kv.1 := JLeaf (JString s)]> m | None => m end.

Definition core_map (show_ts : Z → string) (e : LogEvent) : gmap string JsonValue :=
  foldl insert_core ∅ (core_entries show_ts e).

(** Flattened, a field does not take the place of a key that is there. *)
Definition insert_flat (m : gmap string JsonValue) (kv : string * LogValue) : gmap string JsonValue :=
  match m !! kv.1 with Some _ => m | None => <[kv.1 := JLeaf (log_value_to_json_value kv.2)]> m end.

Definition json_map (show_ts : Z → string) (flatten : bool) (e : LogEvent) : gmap string JsonValue :=
  let m := core_map show_ts e in
  if decide (ev_fields e = ∅) then m
  else if flatten then foldl insert_flat m (map_to_list (ev_fields e))
  else <["fields" := JObject (log_value_to_json_value <$> ev_fields e)]> m.

(** [JsonLinesFormatter::format_event]: [None] is the error of [serde_json]. *)
Definition format_json (to_string : gmap string JsonValue → option string) (show_ts : Z → string) (flatten : bool) (e : LogEvent) : option string :=
  s ← to_string (json_map show_ts flatten e); Some (s +:+ newline).

(** ** What the object holds *)
Definition core_keys : list string :=
  ["timestamp"; "level"; "target"; "message"; "name"; "span_id"; "parent_id"; "thread_id"; "thread_name"].

Lemma foldl_insert_core l m k : NoDup l.*1 →
  foldl insert_core m l !! k = match list_to_map (M := gmap string (option string)) l !! k with Some (Some s) => Some (JLeaf (JString s)) | _ => m !! k end.
Proof.
  revert m. induction l as [|[k' o] l IH]; intros m Hnd; [done|]. rewrite fmap_cons in Hnd. apply NoDup_cons in Hnd as [Hni Hnd].
  cbn [foldl]. rewrite IH by done. simpl in Hni. cbn [list_to_map]. rewrite list_to_map_cons. destruct (decide (k' = k)) as [->|Hne].
  - rewrite (not_elem_of_list_to_map_1 (M := gmap string) l k Hni), lookup_insert_eq. unfold insert_core. simpl. destruct o; [by rewrite lookup_insert_eq|done].
  - rewrite (lookup_insert_ne _ k' k) by done. destruct (list_to_map l !! k) as [[s|]|]; [done|..]; unfold insert_core; simpl; destruct o; by rewrite ?lookup_insert_ne.
Qed.

Lemma core_map_lookup show_ts e k :
  core_map show_ts e !! k = match list_to_map (M := gmap string (option string)) (core_entries show_ts e) !! k with
                            | Some (Some s) => Some (JLeaf (JString s)) | _ => None end.
Proof.
  unfold core_map. rewrite foldl_insert_core; [by rewrite lookup_empty|]. apply (bool_decide_unpack _). by vm_compute.
Qed.

Lemma foldl_insert_flat l m k : NoDup l.*1 →
  foldl insert_flat m l !! k =
  match m !! k with Some x => Some x | None => (λ v, JLeaf (log_value_to_json_value v)) <$> list_to_map (M := gmap string LogValue) l !! k end.
Proof.
  revert m. induction l as [|[k' v] l IH]; intros m Hnd; [simpl; rewrite lookup_empty; by destruct (m !! k)|].
  rewrite fmap_cons in Hnd. apply NoDup_cons in Hnd as [Hni Hnd]. cbn [foldl]. rewrite IH by done. simpl in Hni. rewrite list_to_map_cons.
  unfold insert_flat. simpl. destruct (m !! k') as [x|] eqn:E.
  - destruct (m !! k) as [y|] eqn:Ek; [done|]. rewrite lookup_insert_ne; [done|]. intros ->. congruence.
  - destruct (decide (k' = k)) as [->|Hne]; [by rewrite !lookup_insert_eq, E|]. by rewrite !lookup_insert_ne.
Qed.

(** Flattened: the core keys are the event's, whatever its fields are named, and every other field is there under its name. *)
Lemma json_map_flat show_ts e k : json_map show_ts true e !! k =
  match core_map show_ts e !! k with
  | Some x => Some x
  | None => (λ v, JLeaf (log_value_to_json_value v)) <$> ev_fields e !! k
  end.
Proof.
  unfold json_map. case_decide as He; [rewrite He, lookup_empty; by destruct (core_map show_ts e !! k)|].
  rewrite foldl_insert_flat by apply NoDup_fst_map_to_list. by rewrite list_to_map_to_list.
Qed.

(** Nested: the core keys are the event's, and the fields are the object under fields, which is not a core key. *)
Lemma json_map_nested show_ts e k : json_map show_ts false e !! k =
  if decide (k = "fields" ∧ ev_fields e ≠ ∅) then Some (JObject (log_value_to_json_value <$> ev_fields e)) else core_map show_ts e !! k.
Proof.
  unfold json_map. case_decide as He; [rewrite decide_False by naive_solver; done|]. destruct (decide (k = "fields")) as [->|Hk].
  - rewrite decide_True by done. by rewrite lookup_insert_eq.
  - rewrite decide_False by naive_solver. by rewrite lookup_insert_ne.
Qed.

(** An event keeps its timestamp, level, target and name in either form. *)
Lemma json_map_core show_ts flatten e k s : core_map show_ts e !! k = Some (JLeaf (JString s)) →
  json_map show_ts flatten e !! k = Some (JLeaf (JString s)).
Proof.
  intros H. destruct flatten; [by rewrite json_map_flat, H|]. rewrite json_map_nested. case_decide as Hd; [|done].
  destruct Hd as [-> _]. rewrite core_map_lookup in H. by vm_compute in H.
Qed.
