(* ===== verification/LogConfig.v ===== *)
(** * The configuration of logging (logging/src/config/raw.rs, config/processed.rs and find_config_file of init.rs)

    [process_raw_config] turns the deserialized configuration into the validated one, or gives an error that names the offending
    field.  Texts are ASCII.  [HashMap]s are [gmap]s; when several fields are wrong, which is reported depends on the order of
    iteration, here [map_to_list]'s.  The parsing of levels ([tracing]), of durations ([humantime]) and the matcher and date formats of
    patterns are parameters. *)

From Stdlib Require Import Ascii.
From stdpp Require Import strings gmap.
From S2P Require Import Prelude LogEvents LogFilter LogEncoders LogChannel LogProcessor LogRoute.

(** ** Errors *)
Inductive Reason :=
| CapacityZero | BadPattern (e : PatternError) | EmptyPath | BadNumber (num : string) | UnknownSuffix (suffix : string)
| UnknownGranularity (g : string) | BufferZero | BadDuration (s : string) | BadLevel (s : string) | UndefinedAppender (logger appender : string).

(** [Error::InvalidConfigValue]; the text of its message is a function of the reason. *)
Record ConfigError := mk_invalid { ce_field : string; ce_why : Reason }.

Inductive Result (A : Type) := Ok (x : A) | Err (e : ConfigError).
Arguments Ok {A}. Arguments Err {A}.

#[export] Instance Result_ret : MRet Result := λ A x, Ok x.
#[export] Instance Result_bind : MBind Result := λ A B k m, match m with Ok x => k x | Err e => Err e end.

(** ** The raw configuration *)
Inductive OverflowPolicyRaw := RawDrop | RawBlock.
Inductive EncoderConfigRaw := RawPattern (pattern : option string) | RawJsonLines (flatten_fields : bool).

Record CompressionPolicy := mk_compression { compressed_file_suffix : string; max_uncompressed_sequences : Z }.

Record RollingPolicyRaw := mk_policy_raw {
  pr_time_granularity : string; pr_max_file_size : option string; pr_max_retained_sequences : option Z;
  pr_compression : option CompressionPolicy }.

Record ByteAppenderRaw := mk_byte_raw {
  ba_encoder : option EncoderConfigRaw; ba_channel_capacity : option Z; ba_overflow : option OverflowPolicyRaw }.

Inductive AppenderConfigRaw :=
| RawConsole (c : ByteAppenderRaw)
| RawFile (path : string) (c : ByteAppenderRaw)
| RawRollingFile (directory file_name_prefix file_name_suffix : string) (policy : RollingPolicyRaw) (c : ByteAppenderRaw)
| RawCustom (buffer_size : Z) (overflow : option OverflowPolicyRaw)
| RawDebugReport (print_interval : option string).

Record LoggerConfigRaw := mk_logger_raw { lr_level_str : string; lr_appenders : list string; lr_additive : bool }.

Record ConfigRaw := mk_config_raw {
  raw_appenders : gmap string AppenderConfigRaw; raw_loggers : gmap string LoggerConfigRaw; raw_error_reporting : bool }.

(** [encoder_config_raw]. *)
Definition encoder_config_raw (a : AppenderConfigRaw) : option EncoderConfigRaw :=
  match a with
  | RawConsole c | RawFile _ c | RawRollingFile _ _ _ _ c => ba_encoder c
  | RawCustom _ _ | RawDebugReport _ => None
  end.

(** ** The processed configuration *)
Inductive EncoderInternal := EPattern (pattern : string) | EJsonLines (flatten_fields : bool).

Record RollingPolicyInternal := mk_policy {
  directory : string; file_name_prefix : string; file_name_suffix : string; time_granularity : string;
  max_file_size : option Z; max_retained_sequences : option Z; compression : option CompressionPolicy }.

Inductive AppenderKindInternal :=
| Console
| File (path : string)
| RollingFile (policy : RollingPolicyInternal)
| Custom (buffer_size : Z)
| DebugReport (print_interval : option Z).

Record AppenderInternal := mk_appender {
  ap_name : string; ap_kind : AppenderKindInternal; ap_encoder : EncoderInternal; channel_capacity : Z; ap_overflow : OverflowPolicy }.

Record ConfigInternal := mk_config {
  appenders : gmap string AppenderInternal; loggers : gmap string LoggerInternal; error_reporting_enabled : bool }.

(** ** Texts *)
Definition map_str (f : ascii → ascii) : string → string :=
  fix go s := match s with EmptyString => EmptyString | String c s' => String (f c) (go s') end.

Definition shift_case (lo hi d : Z) (c : ascii) : ascii :=
  let n := Z.of_nat (Ascii.nat_of_ascii c) in if decide (lo ≤ n ≤ hi) then Ascii.ascii_of_nat (Z.to_nat (n + d)) else c.

Definition to_lowercase : string → string := map_str (shift_case 65 90 32).
Definition to_uppercase : string → string := map_str (shift_case 97 122 (-32)).

Definition trim_start (s : string) : string := (span_str Ascii.is_space s).2.
Definition trim (s : string) : string := str_rev (trim_start (str_rev (trim_start s))).

(** [str::parse::<u64>]. *)
Definition parse_u64 (s : string) : option Z :=
  parse_nat_str (default s (strip_prefix s "+")) ≫= λ n, if decide (n < 2 ^ 64) then Some n else None.

(** A product of [u64]s, which wraps; a debug build panics instead. *)
Definition u64_mul (a b : Z) : Z := (a * b) mod 2 ^ 64.

Inductive SizeError := SizeBadNumber (s : string) | SizeBadSuffix (s : string).

(** [parse_size_str]. *)
Definition parse_size_str (size_str : string) : Z + SizeError :=
  let lower := to_lowercase size_str in
  let '(suffix_rev, num_rev) := span_str is_alpha (str_rev lower) in
  let num_str := str_rev num_rev in
  let suffix := str_rev suffix_rev in
  match parse_u64 (trim num_str) with
  | None => inr (SizeBadNumber num_str)
  | Some num =>
      let unit := trim suffix in
      if decide (unit = "kb") then inl (u64_mul num 1024)
      else if decide (unit = "mb") then inl (u64_mul (u64_mul num 1024) 1024)
      else if decide (unit = "gb") then inl (u64_mul (u64_mul (u64_mul num 1024) 1024) 1024)
      else if decide (unit = "b" ∨ unit = EmptyString) then inl num
      else inr (SizeBadSuffix suffix)
  end.

Section Process.
Context (level_from_str : string → option Level) (parse_duration : string → option Z).
Context (captures_iter : string → list Capture) (ts_fmt_ok : string → bool).

Definition DEFAULT_CHANNEL_CAPACITY : Z := 1024.
Definition DEFAULT_DEBUG_REPORT_CAPACITY : Z := 2048.
Definition DEFAULT_PATTERN : string := "[%d] %p %t - %m%n".

Definition convert_overflow (raw : option OverflowPolicyRaw) : OverflowPolicy :=
  match raw with Some RawBlock => Block | _ => DropNewest end.

(** [appenders.<name>.<rest>] and [loggers.<name>.<rest>]. *)
Definition appender_field (name rest : string) : string := "appenders." +:+ name +:+ rest.
Definition logger_field (name rest : string) : string := "loggers." +:+ name +:+ rest.

Definition validate_channel_capacity (capacity : Z) (name : string) : Result Z :=
  if decide (capacity = 0) then Err (mk_invalid (appender_field name ".channel_capacity") CapacityZero) else Ok capacity.

Definition process_encoder_config_raw (raw : EncoderConfigRaw) : EncoderInternal :=
  match raw with
  | RawPattern p => EPattern (default DEFAULT_PATTERN p)
  | RawJsonLines f => EJsonLines f
  end.

Definition parse_level_filter (level_str logger_name : string) : Result LevelFilter :=
  if decide (to_uppercase level_str = "OFF") then Ok OFF
  else
    match level_from_str (to_uppercase level_str) with
    | Some l => Ok (UpTo l)
    | None => Err (mk_invalid (logger_field logger_name ".level") (BadLevel level_str))
    end.

(** The pattern of an appender's encoder is checked. *)
Definition check_encoder (name : string) (enc : EncoderInternal) : Result unit :=
  match enc with
  | EPattern p =>
      match validate_pattern ts_fmt_ok captures_iter p with
      | Some e => Err (mk_invalid (appender_field name ".encoder.pattern") (BadPattern e))
      | None => Ok tt
      end
  | EJsonLines _ => Ok tt
  end.

Definition appender_channel (name : string) (raw : AppenderConfigRaw) : Result (Z * OverflowPolicy) :=
  match raw with
  | RawConsole c | RawFile _ c | RawRollingFile _ _ _ _ c =>
      cap ← validate_channel_capacity (default DEFAULT_CHANNEL_CAPACITY (ba_channel_capacity c)) name;
      Ok (cap, convert_overflow (ba_overflow c))
  | RawCustom n o => Ok (n, convert_overflow o)
  | RawDebugReport _ => Ok (DEFAULT_DEBUG_REPORT_CAPACITY, DropNewest)
  end.

Definition granularities : list string := ["minutely"; "hourly"; "daily"; "never"].

Definition process_rolling (name dir prefix suffix : string) (p : RollingPolicyRaw) : Result RollingPolicyInternal :=
  size ← match pr_max_file_size p with
         | Some s => match parse_size_str s with
                     | inl n => Ok (Some n)
                     | inr (SizeBadNumber t) => Err (mk_invalid (appender_field name ".policy.max_file_size") (BadNumber t))
                     | inr (SizeBadSuffix t) => Err (mk_invalid (appender_field name ".policy.max_file_size") (UnknownSuffix t))
                     end
         | None => Ok None
         end;
  let g := to_lowercase (pr_time_granularity p) in
  if decide (g ∈ granularities) then Ok (mk_policy dir prefix suffix g size (pr_max_retained_sequences p) (pr_compression p))
  else Err (mk_invalid (appender_field name ".policy.time_granularity") (UnknownGranularity g)).

Definition process_kind (name : string) (raw : AppenderConfigRaw) : Result AppenderKindInternal :=
  match raw with
  | RawConsole _ => Ok Console
  | RawFile path _ => if decide (path = EmptyString) then Err (mk_invalid (appender_field name ".path") EmptyPath) else Ok (File path)
  | RawRollingFile dir prefix suffix p _ => pol ← process_rolling name dir prefix suffix p; Ok (RollingFile pol)
  | RawCustom n _ => if decide (n = 0) then Err (mk_invalid (appender_field name ".buffer_size") BufferZero) else Ok (Custom n)
  | RawDebugReport None => Ok (DebugReport None)
  | RawDebugReport (Some s) =>
      match parse_duration s with
      | Some d => Ok (DebugReport (Some d))
      | None => Err (mk_invalid (appender_field name ".print_interval") (BadDuration s))
      end
  end.

(** One turn of the loop over the appenders. *)
Definition process_appender (name : string) (raw : AppenderConfigRaw) : Result AppenderInternal :=
  let enc := match encoder_config_raw raw with Some r => process_encoder_config_raw r | None => EPattern DEFAULT_PATTERN end in
  _ ← check_encoder name enc;
  '(cap, o) ← appender_channel name raw;
  kind ← process_kind name raw;
  Ok (mk_appender name kind enc cap o).

Fixpoint process_appenders (l : list (string * AppenderConfigRaw)) (acc : gmap string AppenderInternal) : Result (gmap string AppenderInternal) :=
  match l with
  | [] => Ok acc
  | (name, raw) :: l' => a ← process_appender name raw; process_appenders l' (<[name := a]> acc)
  end.

Definition default_root : LoggerConfigRaw := mk_logger_raw "info" [] true.

Definition with_root (m : gmap string LoggerConfigRaw) : gmap string LoggerConfigRaw :=
  match m !! root with Some _ => m | None => <[root := default_root]> m end.

Definition process_logger (as_ : gmap string AppenderInternal) (name : string) (raw : LoggerConfigRaw) : Result LoggerInternal :=
  lvl ← parse_level_filter (lr_level_str raw) name;
  match list_find (λ a, as_ !! a = None) (lr_appenders raw) with
  | Some (_, a) => Err (mk_invalid (logger_field name ".appenders") (UndefinedAppender name a))
  | None => Ok (mk_logger name lvl (lr_appenders raw) (lr_additive raw))
  end.

Fixpoint process_loggers (as_ : gmap string AppenderInternal) (l : list (string * LoggerConfigRaw)) (acc : gmap string LoggerInternal) :
    Result (gmap string LoggerInternal) :=
  match l with
  | [] => Ok acc
  | (name, raw) :: l' => lg ← process_logger as_ name raw; process_loggers as_ l' (<[name := lg]> acc)
  end.

Definition process_raw_config (raw : ConfigRaw) : Result ConfigInternal :=
  as_ ← process_appenders (map_to_list (raw_appenders raw)) ∅;
  ls ← process_loggers as_ (map_to_list (with_root (raw_loggers raw))) ∅;
  Ok (mk_config as_ ls (raw_error_reporting raw)).

(** ** What an accepted configuration satisfies *)
Definition appender_valid (name : string) (a : AppenderInternal) : Prop :=
  ap_name a = name ∧ channel_capacity a ≠ 0 ∧
  (∀ p, ap_encoder a = EPattern p → validate_pattern ts_fmt_ok captures_iter p = None) ∧
  match ap_kind a with
  | File path => path ≠ EmptyString
  | RollingFile pol => time_granularity pol ∈ granularities
  | _ => True
  end.

Definition logger_valid (as_ : gmap string AppenderInternal) (name : string) (l : LoggerInternal) : Prop :=
  lg_name l = name ∧ ∀ a, a ∈ appender_names l → is_Some (as_ !! a).

Definition config_valid (raw : ConfigRaw) (cfg : ConfigInternal) : Prop :=
  dom (appenders cfg) = dom (raw_appenders raw) ∧ dom (loggers cfg) = {[ root ]} ∪ dom (raw_loggers raw) ∧
  (∀ k a, appenders cfg !! k = Some a → appender_valid k a) ∧
  (∀ k l, loggers cfg !! k = Some l → logger_valid (appenders cfg) k l) ∧
  error_reporting_enabled cfg = raw_error_reporting raw.

Lemma bind_Ok {A B} (m : Result A) (k : A → Result B) y : (m ≫= k) = Ok y → ∃ x, m = Ok x ∧ k x = Ok y.
Proof. destruct m; [by eexists|done]. Qed.

Lemma bind_Err {A B} (m : Result A) (k : A → Result B) e : (m ≫= k) = Err e → m = Err e ∨ ∃ x, m = Ok x ∧ k x = Err e.
Proof. destruct m; [intros H; right; by eexists|left]. by injection H as ->. Qed.

Lemma process_kind_valid name raw kind : process_kind name raw = Ok kind →
  match kind with File path => path ≠ EmptyString | RollingFile pol => time_granularity pol ∈ granularities | _ => True end ∧
  (∀ n o, raw = RawCustom n o → n ≠ 0).
Proof.
  destruct raw as [c|path c|dir prefix suffix p c|n o|[s|]]; simpl.
  - by intros [= <-].
  - case_decide; [done|]. by intros [= <-].
  - intros (pol & Hp & [= <-])%bind_Ok. split; [|done]. unfold process_rolling in Hp. apply bind_Ok in Hp as (sz & _ & Hp).
    case_decide as Hg; [|done]. by injection Hp as <-.
  - case_decide; [done|]. intros [= <-]. split; [done|]. by intros ? ? [= <- <-].
  - destruct (parse_duration s); [|done]. by intros [= <-].
  - by intros [= <-].
Qed.

Lemma validate_capacity_Ok c name x : validate_channel_capacity c name = Ok x → x ≠ 0.
Proof. unfold validate_channel_capacity. case_decide; [done|]. by intros [= <-]. Qed.

Lemma appender_channel_valid name raw cap o : appender_channel name raw = Ok (cap, o) → (∀ n o', raw = RawCustom n o' → n ≠ 0) → cap ≠ 0.
Proof.
  destruct raw as [c|path c|dir prefix suffix p c|n o'|s]; cbn [appender_channel].
  1-3: intros (x & Hx & [= <- _])%bind_Ok _; by eapply validate_capacity_Ok.
  - intros [= <- _] H. by eapply H.
  - intros [= <- _] _. done.
Qed.

Lemma process_appender_valid name raw a : process_appender name raw = Ok a → appender_valid name a.
Proof.
  unfold process_appender. set (enc := match encoder_config_raw raw with Some _ => _ | None => _ end).
  intros ([] & He & ([cap o] & Hc & (kind & Hk & [= <-])%bind_Ok)%bind_Ok)%bind_Ok.
  destruct (process_kind_valid _ _ _ Hk) as [Hkind Hcustom]. split_and!; simpl; [done|by eapply appender_channel_valid| |done].
  intros p Hp. rewrite Hp in He. unfold check_encoder in He. by destruct (validate_pattern _ _ _).
Qed.

Lemma process_logger_valid as_ name raw l : process_logger as_ name raw = Ok l → logger_valid as_ name l.
Proof.
  unfold process_logger. intros (lvl & _ & H)%bind_Ok. destruct (list_find _ _) as [[i a]|] eqn:E; [done|]. injection H as <-.
  split; [done|]. simpl. intros a Ha. apply list_find_None in E. rewrite Forall_forall in E. specialize (E a Ha). by apply not_eq_None_Some.
Qed.

(** The two loops. *)
Lemma process_appenders_spec l acc m : process_appenders l acc = Ok m →
  dom m = list_to_set l.*1 ∪ dom acc ∧
  ∀ k a, m !! k = Some a → acc !! k = Some a ∨ ∃ raw, (k, raw) ∈ l ∧ process_appender k raw = Ok a.
Proof.
  revert acc. induction l as [|[name raw] l IH]; intros acc; cbn [process_appenders].
  - intros [= <-]. split; [simpl; set_solver|by left].
  - intros (a & Ha & H)%bind_Ok. apply IH in H as [Hd Hl]. split; [rewrite Hd, dom_insert_L, fmap_cons; simpl; set_solver|].
    intros k b Hb. apply Hl in Hb as [Hb|(r & Hin & Hr)]; [|right; exists r; split; [by right|done]].
    apply lookup_insert_Some in Hb as [[<- <-]|[_ Hb]]; [right; exists raw; split; [by left|done]|by left].
Qed.

Lemma process_appenders_Err l acc e : process_appenders l acc = Err e → ∃ name raw, (name, raw) ∈ l ∧ process_appender name raw = Err e.
Proof.
  revert acc. induction l as [|[name raw] l IH]; intros acc; cbn [process_appenders]; [done|].
  intros [H|(a & Ha & H)]%bind_Err; [exists name, raw; split; [by left|done]|].
  apply IH in H as (n & r & Hin & Hr). exists n, r. split; [by right|done].
Qed.

Lemma process_loggers_spec as_ l acc m : process_loggers as_ l acc = Ok m →
  dom m = list_to_set l.*1 ∪ dom acc ∧
  ∀ k a, m !! k = Some a → acc !! k = Some a ∨ ∃ raw, (k, raw) ∈ l ∧ process_logger as_ k raw = Ok a.
Proof.
  revert acc. induction l as [|[name raw] l IH]; intros acc; cbn [process_loggers].
  - intros [= <-]. split; [simpl; set_solver|by left].
  - intros (a & Ha & H)%bind_Ok. apply IH in H as [Hd Hl]. split; [rewrite Hd, dom_insert_L, fmap_cons; simpl; set_solver|].
    intros k b Hb. apply Hl in Hb as [Hb|(r & Hin & Hr)]; [|right; exists r; split; [by right|done]].
    apply lookup_insert_Some in Hb as [[<- <-]|[_ Hb]]; [right; exists raw; split; [by left|done]|by left].
Qed.

Lemma process_loggers_Err as_ l acc e : process_loggers as_ l acc = Err e → ∃ name raw, (name, raw) ∈ l ∧ process_logger as_ name raw = Err e.
Proof.
  revert acc. induction l as [|[name raw] l IH]; intros acc; cbn [process_loggers]; [done|].
  intros [H|(a & Ha & H)]%bind_Err; [exists name, raw; split; [by left|done]|].
  apply IH in H as (n & r & Hin & Hr). exists n, r. split; [by right|done].
Qed.

Lemma map_keys_dom {A} (m : gmap string A) : list_to_set (map_to_list m).*1 = dom m.
Proof.
  apply set_eq. intros k. rewrite elem_of_list_to_set, list_elem_of_fmap, elem_of_dom. split.
  - intros ([k' v] & -> & H%elem_of_map_to_list). by exists v.
  - intros [v H]. exists (k, v). split; [done|]. by apply elem_of_map_to_list.
Qed.

Lemma with_root_dom m : dom (with_root m) = {[ root ]} ∪ dom m.
Proof.
  unfold with_root. destruct (m !! root) as [r|] eqn:E; [|by rewrite dom_insert_L]. apply elem_of_dom_2 in E. set_solver.
Qed.

Lemma process_config_Ok raw cfg : process_raw_config raw = Ok cfg → config_valid raw cfg.
Proof.
  unfold process_raw_config. intros (as_ & Ha & (ls & Hl & [= <-])%bind_Ok)%bind_Ok.
  apply process_appenders_spec in Ha as [Hda Ha]. apply process_loggers_spec in Hl as [Hdl Hl]. rewrite map_keys_dom in Hda. rewrite map_keys_dom in Hdl.
  unfold config_valid. cbn [appenders loggers error_reporting_enabled]. split_and!.
  - rewrite Hda. set_solver.
  - rewrite Hdl, with_root_dom. set_solver.
  - intros k a Hk. apply Ha in Hk as [Hk|(r & _ & Hr)]; [by rewrite lookup_empty in Hk|]. by eapply process_appender_valid.
  - intros k l Hk. apply Hl in Hk as [Hk|(r & _ & Hr)]; [by rewrite lookup_empty in Hk|]. by eapply process_logger_valid.
  - done.
Qed.

Lemma process_config_Err raw e : process_raw_config raw = Err e →
  (∃ name a, raw_appenders raw !! name = Some a ∧ process_appender name a = Err e) ∨
  (∃ name l as_, with_root (raw_loggers raw) !! name = Some l ∧ dom as_ = dom (raw_appenders raw) ∧ process_logger as_ name l = Err e).
Proof.
  unfold process_raw_config. intros [H|(as_ & Ha & [H|(ls & _ & H)]%bind_Err)]%bind_Err; [left|right|done].
  - apply process_appenders_Err in H as (name & a & Hin & H). exists name, a. by apply elem_of_map_to_list in Hin.
  - apply process_loggers_Err in H as (name & l & Hin & H). exists name, l, as_. apply elem_of_map_to_list in Hin. split; [done|]. split; [|done].
    apply process_appenders_spec in Ha as [Hd _]. rewrite map_keys_dom in Hd. set_solver.
Qed.
End Process.

(** The loggers of an accepted configuration are under their names, as the routing of events requires; that a name does not end in
    a colon is not checked. *)
Lemma processed_names level_from_str parse_duration captures_iter ts_fmt_ok raw cfg :
  process_raw_config level_from_str parse_duration captures_iter ts_fmt_ok raw = Ok cfg →
  (∀ k, is_Some (loggers cfg !! k) → ends_with k ":" = false) → names_ok (loggers cfg).
Proof.
  intros H Hc k l Hl. apply process_config_Ok in H as (_ & _ & _ & Hv & _). split; [by apply Hv in Hl as [? _]|]. apply Hc. by eexists.
Qed.

(** C27: A configuration is accepted only when it is valid, and an error is of one of its entries.  Accepted, it has the appenders
    it names and the loggers it names with [root], each under its name; capacities are not zero, the patterns have passed their check, paths
    are not empty, granularities are known, and every appender a logger lists exists.  Refused, the error is what one of the
    appenders, or one of the loggers with [root] among them, gives. *)
Theorem config_processed level_from_str parse_duration captures_iter ts_fmt_ok raw :
  match process_raw_config level_from_str parse_duration captures_iter ts_fmt_ok raw with
  | Ok cfg => config_valid captures_iter ts_fmt_ok raw cfg
  | Err e =>
      (∃ name a, raw_appenders raw !! name = Some a ∧ process_appender parse_duration captures_iter ts_fmt_ok name a = Err e) ∨
      (∃ name l as_, with_root (raw_loggers raw) !! name = Some l ∧ dom as_ = dom (raw_appenders raw) ∧
         process_logger level_from_str as_ name l = Err e)
  end.
Proof.
  destruct (process_raw_config _ _ _ _ raw) as [cfg|e] eqn:E; [by eapply process_config_Ok|by apply process_config_Err in E].
Qed.

(** ** Sizes *)
Example sizes_parsed :
  parse_size_str "50MB" = inl 52428800 ∧ parse_size_str " 10 kb" = inl 10240 ∧ parse_size_str "7" = inl 7 ∧
  parse_size_str "1tb" = inr (SizeBadSuffix "tb") ∧ parse_size_str "x" = inr (SizeBadNumber EmptyString).
Proof. by vm_compute. Qed.

(** A size too large for [u64] is not refused: in a release build it wraps, here to zero, with which every write rolls the file. *)
Lemma size_wraps : parse_size_str "18014398509481984kb" = inl 0 ∧ parse_size_str "18014398509481985kb" = inl 1024.
Proof. by vm_compute. Qed.

(** ** [find_config_file] *)

(** The file names it looks for: [env] is the suffix it is given, or else that of the environment. *)
Definition config_candidates (env : option string) : list string :=
  match env with
  | Some e => if decide (e = EmptyString) then ["fibre_logging.yaml"] else ["fibre_logging." +:+ e +:+ ".yaml"; "fibre_logging.yaml"]
  | None => ["fibre_logging.yaml"]
  end.

Definition find_config_file (given fibre_env app_env : option string) (is_file : string → bool) : option string :=
  let env := match given with Some s => Some s | None => match fibre_env with Some s => Some s | None => app_env end end in
  snd <$> list_find (λ f, is_file f = true) (config_candidates env).

(** A file found exists, and is the environment's if that exists. *)
Lemma find_config_file_spec given fibre_env app_env is_file :
  match find_config_file given fibre_env app_env is_file with
  | Some f => is_file f = true
  | None => is_file "fibre_logging.yaml" = false
  end.
Proof.
  unfold find_config_file. set (cs := config_candidates _). destruct (list_find _ cs) as [[i f]|] eqn:E; simpl.
  - by apply list_find_Some in E as (_ & ? & _).
  - apply list_find_None in E. rewrite Forall_forall in E. apply not_true_is_false, E. unfold cs, config_candidates.
    destruct (match given with Some _ => _ | None => _ end) as [e|]; [case_decide|]; set_solver.
Qed.
