(* ===== verification/LogWriter.v ===== *)
(** * The writer of a byte appender (run_byte_appender_writer of logging/src/init.rs, close and stop of logging/src/lib.rs)

    The thread of a console, file or rolling appender takes the messages from its channel and writes them.  Its body is a state
    machine of single steps, [writer_step], in which a call of [recv_timeout] or [try_recv] takes the steps of [Mpsc.recv_step].
    Other threads' calls to the channel, at whatever step each of them is, the close of the channel and the shutdown flag come
    between.  Whether a write or a flush succeeds, whether a wait times out, and the time are given to the step. *)

From stdpp Require Import strings list.
From S2P Require Import Prelude Threads LogChannel.
Import Mpsc.

Definition WRITER_DRAIN_BATCH_MAX : nat := 256.

(** Where the thread is: at the top of the loop, in [recv_timeout], in a [try_recv] of the batch with [n] messages to go, after the
    batch, in a [try_recv] of the last drain, before the final flush, before its receiver is dropped, or done. *)
Inductive WriterPc :=
  AtTop | Waiting (r : RecvPc) | InBatch (n : nat) (r : RecvPc) | AfterBatch | LastDrain (r : RecvPc) | FinalFlush | DropRx | Finished.

#[export] Instance RecvPc_eq_dec : EqDecision RecvPc.
Proof. solve_decision. Defined.

#[export] Instance WriterPc_eq_dec : EqDecision WriterPc.
Proof. solve_decision. Defined.

(** [ws_handled] lists the messages given to [write_all], with whether it succeeded; the first [ws_flushed] of them were handled
    when the last successful flush was made; [ws_reports] counts the failures reported. *)
Record WriterState := mk_writer {
  ws_rx : Channel string;
  ws_shutdown : bool;
  ws_pc : WriterPc;
  ws_dirty : bool;
  ws_last_flush : Z;
  ws_handled : list (string * bool);
  ws_flushed : nat;
  ws_reports : nat
}.

Definition with_pc (pc : WriterPc) (s : WriterState) : WriterState :=
  mk_writer (ws_rx s) (ws_shutdown s) pc (ws_dirty s) (ws_last_flush s) (ws_handled s) (ws_flushed s) (ws_reports s).

Definition with_rx (c : Channel string) (s : WriterState) : WriterState :=
  mk_writer c (ws_shutdown s) (ws_pc s) (ws_dirty s) (ws_last_flush s) (ws_handled s) (ws_flushed s) (ws_reports s).

Definition with_shutdown (s : WriterState) : WriterState :=
  mk_writer (ws_rx s) true (ws_pc s) (ws_dirty s) (ws_last_flush s) (ws_handled s) (ws_flushed s) (ws_reports s).

(** [write_one], and the [flush] of the body. *)
Definition write_one (ok : bool) (b : string) (s : WriterState) : WriterState :=
  mk_writer (ws_rx s) (ws_shutdown s) (ws_pc s) (ok || ws_dirty s) (ws_last_flush s) (ws_handled s ++ [(b, ok)]) (ws_flushed s)
    (if ok then ws_reports s else S (ws_reports s)).

Definition flush (ok : bool) (now : Z) (s : WriterState) : WriterState :=
  if ok then mk_writer (ws_rx s) (ws_shutdown s) (ws_pc s) false now (ws_handled s) (length (ws_handled s)) (ws_reports s)
  else mk_writer (ws_rx s) (ws_shutdown s) (ws_pc s) (ws_dirty s) (ws_last_flush s) (ws_handled s) (ws_flushed s) (S (ws_reports s)).

Definition flush_if (due ok : bool) (now : Z) (s : WriterState) : WriterState :=
  if ws_dirty s && due then flush ok now s else s.

Definition init_writer (rx : Channel string) (now : Z) : WriterState := mk_writer rx false AtTop false now [] 0 0.

(** A step of the thread: [ok] is whether the write or flush it makes succeeds, [timed_out] whether the wait of [recv_timeout] is
    over when it finds nothing. *)
Definition writer_step (max_flush_interval : Z) (ok timed_out : bool) (now : Z) (s : WriterState) : WriterState :=
  match ws_pc s with
  | AtTop => with_pc (if ws_shutdown s then LastDrain R_deq else Waiting R_deq) s
  | Waiting r =>
      match recv_step (ws_rx s) r with
      | (c, inl r') => with_pc (Waiting r') (with_rx c s)
      | (c, inr (Got b)) => with_pc (InBatch WRITER_DRAIN_BATCH_MAX R_deq) (write_one ok b (with_rx c s))
      | (c, inr Empty) => if timed_out then with_pc AtTop (flush_if true ok now (with_rx c s)) else with_pc (Waiting R_deq) (with_rx c s)
      | (c, inr Disconnected) => with_pc (LastDrain R_deq) (with_rx c s)
      end
  | InBatch O _ => with_pc AfterBatch s
  | InBatch (S n) r =>
      match recv_step (ws_rx s) r with
      | (c, inl r') => with_pc (InBatch (S n) r') (with_rx c s)
      | (c, inr (Got b)) => with_pc (InBatch n R_deq) (write_one ok b (with_rx c s))
      | (c, inr _) => with_pc AfterBatch (with_rx c s)
      end
  | AfterBatch => with_pc AtTop (flush_if (bool_decide (max_flush_interval ≤ now - ws_last_flush s)) ok now s)
  | LastDrain r =>
      match recv_step (ws_rx s) r with
      | (c, inl r') => with_pc (LastDrain r') (with_rx c s)
      | (c, inr (Got b)) => with_pc (LastDrain R_deq) (write_one ok b (with_rx c s))
      | (c, inr _) => with_pc FinalFlush (with_rx c s)
      end
  | FinalFlush => with_pc DropRx (flush_if true ok now s)
  | DropRx => with_pc Finished (with_rx (drop_receiver (ws_rx s)) s)
  | Finished => s
  end.

(** The writer, and the calls made to the sending side, each where it is. *)
Definition System : Type := WriterState * list (SendPc string).

(** What happens: a call of [send] or [try_send] begins; call [k] makes a step; the shutdown flag is set; the handle of the senders
    is closed, its flag and then its count; the writer makes a step. *)
Inductive Event :=
  EBegin (block : bool) (b : string) | ESend (k : nat) (next : Retry) | EShutdown | EClose | EGone | EWriter (ok timed_out : bool) (now : Z).

Definition system_step (max_flush_interval : Z) (sys : System) (ev : Event) : System :=
  let '(s, ps) := sys in
  match ev with
  | EBegin block b => (s, ps ++ [S_start block b])
  | ESend k next =>
      match (p ← ps !! k; send_step next (ws_rx s) p) with
      | Some (c, p') => (with_rx c s, <[k := p']> ps)
      | None => sys
      end
  | EShutdown => (with_shutdown s, ps)
  | EClose => (with_rx (close_flag (ws_rx s)) s, ps)
  | EGone => (with_rx (drop_sender (ws_rx s)) s, ps)
  | EWriter ok timed_out now => (writer_step max_flush_interval ok timed_out now s, ps)
  end.

Definition run (max_flush_interval : Z) : System → list Event → System := foldl (system_step max_flush_interval).

Definition init_system (cap : nat) (now : Z) : System := (init_writer (new cap) now, []).

(** ** The messages: handled is what was accepted, up to the position of the receiver *)
Section Writer.
Implicit Types (s : WriterState) (ps : list (SendPc string)) (sys : System) (c : Channel string) (r : RecvPc) (ev : Event) (mfi now : Z).

Definition system_inv sys : Prop :=
  mpsc_inv sys.2 (ws_rx sys.1) ∧ (ws_handled sys.1).*1 = accepted sys.2 (pos (ws_rx sys.1)).

Lemma flush_if_same due ok now s :
  ws_rx (flush_if due ok now s) = ws_rx s ∧ ws_handled (flush_if due ok now s) = ws_handled s ∧ ws_shutdown (flush_if due ok now s) = ws_shutdown s
  ∧ ws_pc (flush_if due ok now s) = ws_pc s.
Proof. unfold flush_if, flush. destruct (ws_dirty s && due), ok; done. Qed.

Lemma system_inv_ext s s' ps : ws_rx s' = ws_rx s → ws_handled s' = ws_handled s → system_inv (s, ps) → system_inv (s', ps).
Proof. unfold system_inv. simpl. by intros -> ->. Qed.

Lemma system_inv_flush due ok now s ps pc : system_inv (s, ps) → system_inv (with_pc pc (flush_if due ok now s), ps).
Proof. destruct (flush_if_same due ok now s) as (E1 & E2 & _). by apply system_inv_ext. Qed.

(** The receiver's answer, handled or not, by its kind. *)
Lemma system_inv_recv s ps r c o ok : system_inv (s, ps) → recv_step (ws_rx s) r = (c, o) →
  match o with inr (Got b) => system_inv (write_one ok b (with_rx c s), ps) | _ => system_inv (with_rx c s, ps) end.
Proof.
  intros [Hi Hh] Hst. simpl in *. destruct (recv_step_inv _ _ _ _ _ Hi Hst) as (Hi' & _ & _ & _ & Ha). unfold system_inv.
  destruct o as [r'|[b| |]]; simpl; (split; [done|]); by rewrite ?fmap_app, Ha, Hh, ?app_nil_r.
Qed.

Ltac recv_case Hst :=
  match goal with |- context [recv_step (ws_rx ?s) ?r] => destruct (recv_step (ws_rx s) r) as [c' [r'|[b| |]]] eqn:Hst end.

Lemma writer_step_inv mfi ok timed_out now s ps : system_inv (s, ps) → system_inv (writer_step mfi ok timed_out now s, ps).
Proof.
  intros Hi. pose proof (λ r c o, system_inv_recv s ps r c o ok Hi) as Hr. unfold writer_step.
  destruct (ws_pc s) as [|r|[|n] r| |r| | |]; try done; try (by apply system_inv_flush); try (recv_case E; specialize (Hr _ _ _ E); simpl in Hr).
  all: try (by apply system_inv_ext with (2 := eq_refl) in Hr).
  - destruct timed_out; [by apply system_inv_flush|done].
  - destruct Hi as [Hi Hh]. split; [|done]. by apply (counters_inv _ _ _ Hi); [|apply Hi].
Qed.

Lemma system_step_inv mfi sys ev : system_inv sys → system_inv (system_step mfi sys ev).
Proof.
  destruct sys as [s ps]. intros Hi. destruct ev as [block b|k next| | | |ok timed_out now]; simpl.
  - destruct Hi as [Hi Hh]. destruct (begin_inv _ _ block b Hi) as [Hi' Ha]. split; [done|]. simpl in *. by rewrite Ha.
  - destruct (ps !! k) as [p|] eqn:Hk; [|done]. simpl. destruct (send_step next (ws_rx s) p) as [[c p']|] eqn:Hst; [|done].
    destruct Hi as [Hi Hh]. destruct (send_step_inv _ _ _ _ _ _ _ Hi Hk Hst) as [Hi' Ha]. split; [done|]. simpl in *.
    by rewrite (proj1 (send_step_tickets _ _ _ _ _ Hst)), Ha.
  - done.
  - destruct Hi as [Hi Hh]. split; [|done]. by apply (counters_inv _ _ _ Hi); [|apply Hi].
  - destruct Hi as [Hi Hh]. split; [|done]. by apply (counters_inv _ _ _ Hi); [|apply Hi].
  - by apply writer_step_inv.
Qed.

Lemma run_inv mfi evs sys : system_inv sys → system_inv (run mfi sys evs).
Proof. revert sys. induction evs as [|ev evs IH]; intros sys Hi; [done|]. by apply IH, system_step_inv. Qed.

Lemma init_system_inv cap now : system_inv (init_system cap now).
Proof. split; [|done]. split; simpl; try done; try lia. Qed.

(** ** Flushes: what is not dirty is flushed *)
Definition flushed_last (pc : WriterPc) : bool := match pc with DropRx | Finished => true | _ => false end.

Definition flush_inv s : Prop :=
  (ws_flushed s ≤ length (ws_handled s))%nat ∧
  (ws_dirty s = false → Forall (λ h, h.2 = false) (drop (ws_flushed s) (ws_handled s))) ∧
  (flushed_last (ws_pc s) = true → ws_dirty s = true → (0 < ws_reports s)%nat).

Lemma write_one_flush_inv ok b pc s : flush_inv s → flushed_last pc = false → flush_inv (with_pc pc (write_one ok b s)).
Proof.
  intros (H1 & H2 & _) Hpc. unfold flush_inv, write_one. simpl. rewrite length_app, Hpc. split_and!; [lia| |done].
  destruct ok; [done|]. simpl. intros Hd. rewrite drop_app_le by done. apply Forall_app. split; [by apply H2|by repeat constructor].
Qed.

Lemma with_pc_flush_inv pc c s : flush_inv s → flushed_last pc = false → flush_inv (with_pc pc (with_rx c s)).
Proof. intros (H1 & H2 & _) Hpc. split_and!; try done. simpl. by rewrite Hpc. Qed.

Lemma flush_if_flush_inv due ok now pc s : flush_inv s → flushed_last pc = false ∨ due = true → flush_inv (with_pc pc (flush_if due ok now s)).
Proof.
  intros (H1 & H2 & _) Hpc. unfold flush_if, flush. destruct (ws_dirty s) eqn:Ed; simpl; [destruct due, ok|]; split_and!; simpl; try done; try congruence.
  - intros _. by rewrite drop_ge.
  - intros. lia.
  - destruct Hpc; congruence.
  - destruct Hpc; congruence.
  - intros _. by apply H2.
Qed.

Lemma system_step_flush_inv mfi sys ev : flush_inv sys.1 → flush_inv (system_step mfi sys ev).1.
Proof.
  destruct sys as [s ps]. intros H. destruct ev as [block b|k next| | | |ok timed_out now]; cbn [system_step fst]; try done.
  - by destruct (ps !! k ≫= _) as [[c p]|].
  - assert (Hw : ∀ c, flush_inv (with_rx c s)) by (intros c; exact H).
    unfold writer_step. destruct (ws_pc s) as [|r|[|n] r| |r| | |] eqn:Epc; cbn [fst] in *; try done; try (recv_case E);
      try (by apply (with_pc_flush_inv _ (ws_rx s)); [|destruct (ws_shutdown s)]); try (by apply write_one_flush_inv);
      try (by apply with_pc_flush_inv); try (by apply flush_if_flush_inv; auto).
    + destruct timed_out; [by apply flush_if_flush_inv; auto|by apply with_pc_flush_inv].
    + destruct H as (H1 & H2 & H3). split_and!; try done. rewrite Epc in H3. exact H3.
Qed.

Lemma run_flush_inv mfi evs sys : flush_inv sys.1 → flush_inv (run mfi sys evs).1.
Proof. revert sys. induction evs as [|ev evs IH]; intros sys H; [done|]. by apply IH, system_step_flush_inv. Qed.

(** ** The end: closed and with no call under way, the channel is taken whole *)

(** The last drain, if it has begun, is at its first look at a slot. *)
Definition before_last_drain (pc : WriterPc) : Prop :=
  match pc with LastDrain r => r = R_deq | FinalFlush | DropRx | Finished => False | _ => True end.

(** A call that has not looked whether the channel is closed, or is over. *)
Definition at_edge (p : SendPc string) : Prop := match p with S_start _ _ | S_sent _ _ | S_refused _ _ => True | _ => False end.

Record late sys : Prop := {
  la_inv : system_inv sys;
  la_closed : closed (ws_rx sys.1) = true;
  la_gone : gone (ws_rx sys.1) = true;
  la_calls : ∀ k p, sys.2 !! k = Some p → at_edge p;
  la_drain : ∀ r, ws_pc sys.1 = LastDrain r → r = R_deq ∨ pos (ws_rx sys.1) = g_tail (ws_rx sys.1);
  la_done : ws_pc sys.1 = FinalFlush ∨ flushed_last (ws_pc sys.1) = true → pos (ws_rx sys.1) = g_tail (ws_rx sys.1)
}.

(** What is in the channel is written. *)
Lemma late_slot s ps : late (s, ps) → slots (ws_rx s) !! pos (ws_rx s) = None → pos (ws_rx s) = g_tail (ws_rx s).
Proof.
  intros Hl Hn. destruct (la_inv _ Hl) as [Hi _]. simpl in Hi. pose proof (mi_pos _ _ Hi).
  destruct (decide (pos (ws_rx s) = g_tail (ws_rx s))) as [|Hne]; [done|]. exfalso.
  destruct (mi_claimed _ _ Hi (pos (ws_rx s)) ltac:(lia)) as [[? ?]|(k&p&Hk&Hp)]; [congruence|]. pose proof (la_calls _ Hl k p Hk). by destruct p.
Qed.

(** The step of the receiver in a late state. *)
Inductive late_recv c : RecvPc → Channel string → RecvPc + RecvResult string → Prop :=
  | late_take r c' b : (r = R_deq ∨ r = R_straggler) → (pos c < g_tail c)%nat → pos c' = S (pos c) → late_recv c r c' (inr (Got b))
  | late_skip r c' : (r = R_deq ∨ r = R_straggler) → (pos c < g_tail c)%nat → pos c' = S (pos c) → late_recv c r c' (inl r)
  | late_deq c' : pos c = g_tail c → pos c' = pos c → late_recv c R_deq c' (inl R_drained)
  | late_drained c' : pos c' = pos c → late_recv c R_drained c' (inl R_tail)
  | late_tail c' : pos c' = pos c → late_recv c R_tail c' (inl (if (pos c <? g_tail c)%nat then R_flush false else R_alive))
  | late_alive c' : pos c' = pos c → late_recv c R_alive c' (inl R_straggler)
  | late_straggler c' : pos c = g_tail c → pos c' = pos c → late_recv c R_straggler c' (inl R_last)
  | late_last c' : pos c' = pos c → late_recv c R_last c' (inl (R_flush true))
  | late_flush d c' : pos c' = pos c → late_recv c (R_flush d) c' (inr (if d then Disconnected else Empty)).

Lemma late_recv_step s ps r c o : late (s, ps) → recv_step (ws_rx s) r = (c, o) → late_recv (ws_rx s) r c o.
Proof.
  intros Hl Hst. pose proof (late_slot _ _ Hl) as Hslot. pose proof (la_gone _ Hl) as Hg. destruct (la_inv _ Hl) as [Hi _]. simpl in Hg, Hi.
  assert (Hsome : ∀ v, slots (ws_rx s) !! pos (ws_rx s) = Some v → (pos (ws_rx s) < g_tail (ws_rx s))%nat) by (intros v Hv; apply (mi_slot _ _ Hi) in Hv; lia).
  destruct r; simpl in Hst; rewrite ?Hg in Hst; simplify_eq; try (by constructor).
  - destruct (slots (ws_rx s) !! pos (ws_rx s)) as [[b|]|] eqn:E; simplify_eq; by constructor; eauto.
  - destruct (slots (ws_rx s) !! pos (ws_rx s)) as [[b|]|] eqn:E; simplify_eq; by constructor; eauto.
  - constructor. apply flush_progress_slots.
Qed.

Definition left s : nat := (g_tail (ws_rx s) - pos (ws_rx s))%nat.

(** Steps to the end when [n] tickets are left, each of which takes at most 20 more. *)
Definition weight (n : nat) (pc : WriterPc) : nat :=
  match pc with
  | Finished => 0 | DropRx => 1 | FinalFlush => 2
  | LastDrain r => match r with R_deq => 9 | R_drained => 8 | R_tail => 7 | R_alive => 6 | R_straggler => 5 | R_last => 4 | R_flush _ => 3 end
  | Waiting r =>
      match r with
      | R_flush true => 10 | R_last => 11 | R_straggler => 12 | R_alive => 13 | R_tail => if decide (n = 0%nat) then 14 else 19
      | R_drained => if decide (n = 0%nat) then 15 else 20 | R_deq => 16 | R_flush false => 18
      end
  | AtTop => 17
  | AfterBatch => 18
  | InBatch _ r => match r with R_deq => 26 | R_drained => 25 | R_tail => 24 | R_alive => 23 | R_straggler => 22 | R_last => 21 | R_flush _ => 20 end
  end%nat.

Definition steps_left s : nat := (20 * left s + weight (left s) (ws_pc s))%nat.

Lemma weight_le n pc : (weight n pc ≤ 26)%nat.
Proof. destruct pc as [|[| | | | | |[]]|? [| | | | | |[]]| |[| | | | | |[]]| | |]; simpl; repeat case_decide; lia. Qed.

Lemma weight_pos n pc : pc ≠ Finished → (0 < weight n pc)%nat.
Proof. destruct pc as [|[| | | | | |[]]|? [| | | | | |[]]| |[| | | | | |[]]| | |]; simpl; repeat case_decide; done || lia. Qed.

(** The frame of a step of the writer. *)
Lemma writer_step_frame mfi ok timed_out now s : let s' := writer_step mfi ok timed_out now s in
  closed (ws_rx s') = closed (ws_rx s) ∧ gone (ws_rx s') = gone (ws_rx s) ∧ g_tail (ws_rx s') = g_tail (ws_rx s).
Proof.
  assert (Hr : ∀ r c o, recv_step (ws_rx s) r = (c, o) → closed c = closed (ws_rx s) ∧ gone c = gone (ws_rx s) ∧ g_tail c = g_tail (ws_rx s)).
  { intros r c o. destruct (flush_progress_slots (ws_rx s)) as ((?&?&?&?)&?&?).
    destruct r; simpl; repeat case_match; intros; by simplify_eq. }
  unfold writer_step. destruct (ws_pc s) as [|r|[|n] r| |r| | |]; try done; try (recv_case E; specialize (Hr _ _ _ E)); try done;
    try (destruct timed_out; [|done]);
    match goal with |- context [flush_if ?d ok now ?t] => destruct (flush_if_same d ok now t) as (E1 & _); simpl; by rewrite E1 end.
Qed.

Ltac late_step Hl :=
  let E := fresh "E" in recv_case E;
  let H := fresh "H" in pose proof (late_recv_step _ _ _ _ _ Hl E) as H; inversion H; subst; clear H E; destruct_or?; subst.

(** A step of the writer in a late state: it stays late, and comes nearer to the end. *)
Lemma writer_step_late mfi ok timed_out now s ps : late (s, ps) →
  late (writer_step mfi ok timed_out now s, ps) ∧ (steps_left (writer_step mfi ok timed_out now s) ≤ pred (steps_left s))%nat.
Proof.
  intros Hl. pose proof (writer_step_inv mfi ok timed_out now s ps (la_inv _ Hl)) as Hi'. destruct (writer_step_frame mfi ok timed_out now s) as (F1&F2&F3).
  pose proof (la_drain _ Hl) as Hd. pose proof (la_done _ Hl) as Hf. pose proof (mi_pos _ _ (proj1 (la_inv _ Hl))) as Hp. simpl in Hd, Hf, Hp.
  set (s' := writer_step mfi ok timed_out now s) in *.
  assert (Hgoal : (∀ r, ws_pc s' = LastDrain r → r = R_deq ∨ pos (ws_rx s') = g_tail (ws_rx s')) ∧
    (ws_pc s' = FinalFlush ∨ flushed_last (ws_pc s') = true → pos (ws_rx s') = g_tail (ws_rx s')) ∧ (steps_left s' ≤ pred (steps_left s))%nat).
  2: { destruct Hgoal as (G1&G2&G3). split; [|done]. split; try done; simpl; [by rewrite F1; apply (la_closed _ Hl)|by rewrite F2; apply (la_gone _ Hl)|apply (la_calls _ Hl)]. }
  unfold steps_left, left. rewrite F3. subst s'. clear F1 F2 F3 Hi'. unfold writer_step.
  destruct (ws_pc s) as [|r|[|n] r| |r| | |] eqn:Epc; simpl in Hf; try (late_step Hl).
  all: repeat match goal with
    | |- context [if ws_shutdown ?s then _ else _] => destruct (ws_shutdown s)
    | |- context [if ?t then with_pc AtTop _ else _] => destruct t
    | |- context [if ?d then Disconnected else Empty] => destruct d
    | |- context [match (if ?d then Disconnected else Empty) with _ => _ end] => destruct d
    | |- context [if (pos ?c <? g_tail ?c)%nat then _ else _] => destruct (Nat.ltb_spec (pos c) (g_tail c))
    end.
  all: cbn [ws_pc ws_rx with_pc with_rx write_one flushed_last drop_receiver pos]; rewrite ?(proj1 (flush_if_same _ _ _ _)); cbn [ws_rx with_rx].
  all: split_and!; [intros ? E; simplify_eq; try (by left); try (destruct (Hd _ eq_refl); simplify_eq)|intros [E|E]; simplify_eq; try (destruct (Hd _ eq_refl); simplify_eq)|cbn [weight]; repeat case_decide].
  all: try lia; try (right; lia); try (apply Hf; auto); auto.
  all: try match goal with H : (if ?d then Disconnected else Empty) = _ |- _ => destruct d; simplify_eq end; try lia.
  - destruct r; lia.
  - rewrite Epc. simpl. lia.
Qed.

(** Whatever happens in a late state, it stays late; only the writer's steps change what is left. *)
Lemma system_step_late mfi sys ev : late sys →
  late (system_step mfi sys ev) ∧
  (steps_left (system_step mfi sys ev).1 ≤ steps_left sys.1 - match ev with EWriter _ _ _ => 1 | _ => 0 end)%nat.
Proof.
  destruct sys as [s ps]. intros Hl. pose proof (system_step_inv mfi _ ev (la_inv _ Hl)) as Hi'.
  destruct Hl as [Hi Hc Hg Hk Hd Hf] eqn:El. destruct ev as [block b|k next| | | |ok timed_out now]; simpl in Hi', Hc, Hg, Hk, Hd, Hf |- *.
  - split; [|unfold steps_left, left; simpl; lia]. split; try done. simpl. intros j p [?|[_ Hp]]%lookup_app_Some; [by eauto|].
    by apply list_lookup_singleton_Some in Hp as [_ <-].
  - destruct (ps !! k) as [p|] eqn:Ek; simpl in *; [|split; [done|lia]]. pose proof (Hk k p Ek) as He.
    destruct p as [b x| | | | | | | | | |]; try done; simpl in *; try (split; [done|lia]). rewrite Hc in Hi' |- *.
    split; [|unfold steps_left, left; simpl; lia]. split; try done. simpl. intros j p [[_ ->]|[_ Hj]]%insert_other; [done|by eauto].
  - split; [by split|unfold steps_left, left; simpl; lia].
  - split; [by split|unfold steps_left, left; simpl; lia].
  - split; [by split|unfold steps_left, left; simpl; lia].
  - rewrite Nat.sub_1_r. by apply writer_step_late.
Qed.

Definition writer_steps (evs : list Event) : nat := length (omap (λ ev, match ev with EWriter _ _ _ => Some tt | _ => None end) evs).

Lemma writer_steps_cons ev evs : writer_steps (ev :: evs) = (match ev with EWriter _ _ _ => 1 | _ => 0 end + writer_steps evs)%nat.
Proof. by destruct ev. Qed.

Lemma run_finishes mfi evs sys : late sys → (steps_left sys.1 ≤ writer_steps evs)%nat →
  late (run mfi sys evs) ∧ ws_pc (run mfi sys evs).1 = Finished.
Proof.
  revert sys. induction evs as [|ev evs IH]; intros sys Hl Hle; cbn [run foldl].
  - split; [done|]. unfold writer_steps, steps_left in Hle. destruct (decide (ws_pc sys.1 = Finished)) as [|Hn]; [done|].
    pose proof (weight_pos (left sys.1) _ Hn). simpl in Hle. lia.
  - destruct (system_step_late mfi sys ev Hl) as [Hl' Hm]. apply IH; [done|]. rewrite writer_steps_cons in Hle. lia.
Qed.

Lemma late_start s ps : system_inv (s, ps) → closed (ws_rx s) = true → gone (ws_rx s) = true → Forall returned ps → before_last_drain (ws_pc s) → late (s, ps).
Proof.
  intros Hi Hc Hg Hr Hb. split; try done; simpl.
  - intros k p Hk. rewrite Forall_lookup in Hr. specialize (Hr k p Hk). by destruct p.
  - intros r E. rewrite E in Hb. by left.
  - intros [E|E]; destruct (ws_pc s); done.
Qed.

(** Only a closed handle is gone. *)
Lemma gone_closed mfi evs sys : (gone (ws_rx sys.1) = true → closed (ws_rx sys.1) = true) →
  gone (ws_rx (run mfi sys evs).1) = true → closed (ws_rx (run mfi sys evs).1) = true.
Proof.
  revert sys. induction evs as [|ev evs IH]; intros [s ps] H; [done|]. apply IH. simpl in H.
  destruct ev as [block b|k next| | | |ok timed_out now]; simpl; try done.
  - destruct (ps !! k ≫= _) as [[c p]|] eqn:E; [|done]. apply bind_Some in E as (q & _ & Hst).
    destruct (send_step_tickets _ _ _ _ _ Hst) as (_&_&_&_&E1&E2&_). simpl. by rewrite E1, E2.
  - destruct (writer_step_frame mfi ok timed_out now s) as (E1&E2&_). by rewrite E1, E2.
Qed.
End Writer.

(** C12: A writer loses no message, and none of those sent before the close at shutdown.  Calls of [send] and [try_send] begin at
    any time, any number of them, and stop between any two of their steps, the shutdown flag is set and the handle is closed at
    any time, and the writer's waits, writes and flushes end as they like.  At every moment: the messages given to the writer are
    the first of the accepted ones in the order of the tickets, each once and none left out; every accepted message has its place
    in that order; and those still in the channel are within its capacity.  And if at some moment the close of the handle is
    over, every call made so far has returned, and the writer has not begun its last drain, then, whatever comes after, the
    writer is done after 20 of its steps per ticket left and 26 more; it was given every message the channel accepted; and those
    written are flushed, or a failed flush was reported.  (A call under way when the last drain comes to its ticket stops the
    drain: [drain_stops_at_a_send].) *)
Theorem writer_drains_at_shutdown mfi cap now evs1 evs2 :
  let sys1 := run mfi (init_system cap now) evs1 in
  let sys := run mfi sys1 evs2 in
  ((ws_handled sys1.1).*1 = accepted sys1.2 (pos (ws_rx sys1.1)) ∧
   (∀ k x t, sys1.2 !! k = Some (S_sent x t) →
      accepted_at sys1.2 t = Some x ∧ (t < g_tail (ws_rx sys1.1))%nat ∧ (t < pos (ws_rx sys1.1) + Mpsc.cap (ws_rx sys1.1))%nat)) ∧
  (gone (ws_rx sys1.1) = true → Forall returned sys1.2 → before_last_drain (ws_pc sys1.1) →
   (20 * (g_tail (ws_rx sys1.1) - pos (ws_rx sys1.1)) + 26 ≤ writer_steps evs2)%nat →
   ws_pc sys.1 = Finished ∧ (ws_handled sys.1).*1 = accepted sys.2 (g_tail (ws_rx sys.1)) ∧
   (ws_dirty sys.1 = false → ∀ i b, ws_handled sys.1 !! i = Some (b, true) → (i < ws_flushed sys.1)%nat) ∧
   (ws_dirty sys.1 = true → (0 < ws_reports sys.1)%nat)).
Proof.
  intros sys1 sys. pose proof (run_inv mfi evs1 _ (init_system_inv cap now)) as Hi. fold sys1 in Hi. split.
  - split; [apply Hi|]. intros k x t Hk. pose proof (sent_below _ _ _ _ _ (proj1 Hi) Hk) as Hb.
    split; [by apply (accepted_at_sent _ _ _ _ _ (proj1 Hi) Hk)|]. split; [done|].
    destruct (mi_sent _ _ (proj1 Hi) _ _ _ Hk) as [?|Hs]; [lia|]. by apply (mi_slot _ _ (proj1 Hi)) in Hs as (_ & ? & _).
  - intros Hg Hret Hpc Hn. pose proof (gone_closed mfi evs1 (init_system cap now) ltac:(done) Hg) as Hc. fold sys1 in Hc.
    destruct (run_finishes mfi evs2 sys1) as [Hl Hf].
    { destruct sys1 as [s1 ps1]. by apply late_start. }
    { unfold steps_left, left. pose proof (weight_le (g_tail (ws_rx sys1.1) - pos (ws_rx sys1.1)) (ws_pc sys1.1)). lia. }
    fold sys in Hl, Hf. split; [done|]. split.
    { rewrite (proj2 (la_inv _ Hl)). f_equal. apply (la_done _ Hl). right. by rewrite Hf. }
    destruct (run_flush_inv mfi evs2 sys1) as (H1 & H2 & H3).
    { apply run_flush_inv. split_and!; [done| |done]. intros _. constructor. }
    fold sys in H1, H2, H3. rewrite Hf in H3. split; [|by apply H3].
    intros Hd i b Hi'. destruct (decide (i < ws_flushed sys.1)%nat) as [|Hge]; [done|]. exfalso. specialize (H2 Hd).
    rewrite Forall_lookup in H2. specialize (H2 (i - ws_flushed sys.1)%nat (b, true)). rewrite lookup_drop in H2.
    replace (ws_flushed sys.1 + (i - ws_flushed sys.1))%nat with i in H2 by lia. by specialize (H2 Hi').
Qed.

(** A whole call of [try_send] on an open window; three messages of two interleaved callers, taken and not; the shutdown. *)
Definition steps_of (k n : nat) : list Event := replicate n (ESend k Check_again).

Definition sends : list Event :=
  [EBegin false "a"; EBegin true "b"] ++ steps_of 0 5 ++ steps_of 1 5 ++ steps_of 1 2 ++ [EWriter true false 0; EWriter true false 0] ++
  steps_of 0 2 ++ [EWriter true false 0; EBegin false "c"] ++ steps_of 2 7.

Definition shutdown_acts : list Event := [EShutdown; EClose; EGone].

Definition writes (n : nat) : list Event := replicate n (EWriter true true 1).

Lemma writer_drains_at_shutdown_witness :
  let sys1 := run 250 (init_system 8 0) (sends ++ shutdown_acts) in
  let sys := run 250 sys1 (writes 86) in
  (ws_handled sys1.1 = [] ∧ ws_pc sys1.1 = Waiting R_tail) ∧
  ws_pc sys.1 = Finished ∧ ws_handled sys.1 = [("a", true); ("b", true); ("c", true)] ∧ accepted sys.2 3 = ["a"; "b"; "c"].
Proof.
  split; [by vm_compute|].
  destruct (writer_drains_at_shutdown 250 8 0 (sends ++ shutdown_acts) (writes 86)) as [_ Hend].
  destruct Hend as (Hf & _); [by vm_compute|vm_compute; repeat constructor|by vm_compute|vm_compute; lia|].
  split; [exact Hf|clear; by vm_compute].
Defined.

(** A call that claimed a ticket and has not written its slot stops the last drain: the message behind it, accepted before the
    shutdown began, is never written. *)
Example drain_stops_at_a_send :
  let evs := [EBegin false "slow"; EBegin false "lost"] ++ steps_of 0 6 ++ steps_of 1 7 ++ shutdown_acts ++ writes 20 in
  let sys := run 250 (init_system 8 0) evs in
  sys.2 !! 1%nat = Some (S_sent "lost" 1) ∧ ws_pc sys.1 = Finished ∧ ws_handled sys.1 = [].
Proof. by vm_compute. Qed.

(** Between the two acts of a shutdown a writer may finish, and a message the channel still accepts then is not written. *)
Example shutdown_race :
  let evs := [EShutdown] ++ writes 6 ++ [EBegin false "late"] ++ steps_of 0 7 ++ [EClose; EGone] ++ writes 6 in
  let sys := run 250 (init_system 8 0) evs in
  sys.2 = [S_sent "late" 0] ∧ ws_pc sys.1 = Finished ∧ ws_handled sys.1 = [].
Proof. by vm_compute. Qed.
