(* ===== verification/Roller.v ===== *)
(** * The rolling file (logging/src/roller.rs, the paths of RollingPolicyInternal in config/processed.rs)

    The roller writes to an active file; when a period of time is over or the file is large it renames it to a name made of the
    period and a sequence number, opens a new one, deletes the rolled files beyond the retention and compresses older ones.

    The directory of the policy is a map from file names to contents.  A timestamp is its nanoseconds since the epoch, in UTC.  What
    is not the crate's is a parameter: the dates [chrono] prints and parses, the captures of [ROLLED_FILE_REGEX] ([regex]) and the
    bytes [flate2] compresses to.  Every operation of a roll on files may fail: [Io] says what happens to those of one roll.  Writes into
    the open file succeed. *)

From Stdlib Require Import Ascii.
From stdpp Require Import strings gmap.
From S2P Require Import Prelude LogEvents LogEncoders LogConfig.

(** ** Periods *)
Definition SECOND : Z := 10 ^ 9.
Definition UNIX_EPOCH : Z := 0.

(** [chrono]'s [with_nanosecond(0)] and so on: the field is set to zero, the others are kept. *)
Definition with_nanosecond_0 (t : Z) : Z := t - t mod SECOND.
Definition with_second_0 (t : Z) : Z := t - (t / SECOND) mod 60 * SECOND.
Definition with_minute_0 (t : Z) : Z := t - (t / (60 * SECOND)) mod 60 * (60 * SECOND).
Definition with_hour_0 (t : Z) : Z := t - (t / (3600 * SECOND)) mod 24 * (3600 * SECOND).

Definition calculate_period_start (now : Z) (p : RollingPolicyInternal) : Z :=
  if decide (time_granularity p = "minutely") then with_nanosecond_0 (with_second_0 now)
  else if decide (time_granularity p = "hourly") then with_nanosecond_0 (with_second_0 (with_minute_0 now))
  else if decide (time_granularity p = "never") then UNIX_EPOCH
  else with_nanosecond_0 (with_second_0 (with_minute_0 (with_hour_0 now))).

(** ** Numbers in names: [u32]'s [to_string] and [parse] *)
Definition digit_char (n : Z) : ascii := Ascii.ascii_of_nat (Z.to_nat (48 + n)).

Fixpoint show_digits (fuel : nat) (n : Z) : string :=
  match fuel with
  | O => char_str (digit_char (n mod 10))
  | S fuel' => if decide (n < 10) then char_str (digit_char n) else show_digits fuel' (n / 10) +:+ char_str (digit_char (n mod 10))
  end.

Definition show_u32 (n : Z) : string := show_digits 10 n.

Definition parse_u32 (s : string) : option Z :=
  parse_nat_str (default s (strip_prefix s "+")) ≫= λ n, if decide (n < 2 ^ 32) then Some n else None.

(** ** State *)
Record RolledFile := mk_rolled { rf_timestamp : Z; rf_sequence : Z; rf_path : string; rf_is_compressed : bool }.

(** Where the writer writes: to the active file, or to the null device a roll puts in its place. *)
Inductive Target := ToActive | ToNull.

(** The directory, the writer and its buffer, and the roller's fields; [rs_reports] counts the reports of failures. *)
Record RollerState := mk_roller {
  rs_fs : gmap string string;
  rs_target : Target;
  rs_buf : string;
  rs_size : Z;
  rs_period : Z;
  rs_reports : nat
}.

(** What becomes of a compression: it may leave a partial file, with the original in place. *)
Inductive CompressOutcome := Compressed | NotCreated | Partial (b : string).

(** [io_flush_old] is how many bytes of the buffer reach the file when the old writer is dropped. *)
Record Io := mk_io {
  io_open_null : bool; io_flush_old : nat; io_read_dir : bool; io_rename : bool; io_open_active : bool;
  io_remove : string → bool; io_compress : string → CompressOutcome }.

(** [Ord for RolledFile], the newest first, and the stable sort. *)
Definition rf_le (a b : RolledFile) : Prop :=
  rf_timestamp b < rf_timestamp a ∨ (rf_timestamp b = rf_timestamp a ∧ rf_sequence b ≤ rf_sequence a).

#[export] Instance rf_le_dec a b : Decision (rf_le a b).
Proof. unfold rf_le. apply _. Defined.

Fixpoint rf_insert (f : RolledFile) (l : list RolledFile) : list RolledFile :=
  match l with [] => [f] | g :: l' => if decide (rf_le f g) then f :: l else g :: rf_insert f l' end.

Definition rf_sort (l : list RolledFile) : list RolledFile := foldr rf_insert [] l.

Section Roller.
Context (fmt_date fmt_hour fmt_minute : Z → string) (parse_datetime parse_date : string → option Z).
Context (captures : string → option (string * string)) (gz : string → string).
Context (p : RollingPolicyInternal).

(** ** Names *)
Definition base_name : string := file_name_prefix p +:+ file_name_suffix p.

Definition format_period (ts : Z) : string :=
  if decide (time_granularity p = "minutely") then fmt_minute ts
  else if decide (time_granularity p = "hourly") then fmt_hour ts
  else fmt_date ts.

Definition rolled_name (ts seq : Z) : string :=
  file_name_prefix p +:+ "." +:+ format_period ts +:+ "." +:+ show_u32 seq +:+ file_name_suffix p.

Definition compressed_suffix : string :=
  match compression p with Some c => compressed_file_suffix c | None => ".gz" end.

Definition parse_datetime_from_str (s : string) : option Z :=
  match parse_datetime s with Some t => Some t | None => parse_date s end.

(** ** [find_rolled_files] *)
Definition parse_rolled (file_name : string) : option RolledFile :=
  if starts_with file_name (file_name_prefix p) then
    let is_compressed := ends_with file_name compressed_suffix in
    let name_to_parse := if is_compressed then default file_name (strip_suffix file_name compressed_suffix) else file_name in
    '(ts_str, seq_str) ← captures name_to_parse;
    ts ← parse_datetime_from_str ts_str;
    seq ← parse_u32 seq_str;
    Some (mk_rolled ts seq file_name is_compressed)
  else None.

Definition find_rolled_files (fs : gmap string string) : list RolledFile := rf_sort (omap parse_rolled (map_to_list fs).*1).

(** ** [cleanup] *)
Definition remove_file (io : Io) (st : gmap string string * nat) (f : RolledFile) : gmap string string * nat :=
  if io_remove io (rf_path f) then (delete (rf_path f) st.1, st.2) else (st.1, S st.2).

(** [compress_file]: the compressed file is created, which empties it, before the source is read. *)
Definition compress_file (io : Io) (suffix : string) (st : gmap string string * nat) (f : RolledFile) : gmap string string * nat :=
  let cpath := rf_path f +:+ suffix in
  match io_compress io (rf_path f) with
  | Compressed =>
      let fs := <[cpath := EmptyString]> st.1 in
      let src := default EmptyString (fs !! rf_path f) in
      (delete (rf_path f) (<[cpath := gz src]> fs), st.2)
  | NotCreated => (st.1, S st.2)
  | Partial b => (<[cpath := b]> st.1, S st.2)
  end.

Definition should_compress (f : RolledFile) : bool := negb (rf_is_compressed f) && ends_with (rf_path f) (file_name_suffix p).

Definition cleanup (io : Io) (files : list RolledFile) (st : gmap string string * nat) : gmap string string * nat :=
  let '(st1, kept) :=
    match max_retained_sequences p with
    | Some n => (foldl (remove_file io) st (drop (Z.to_nat n) files), take (Z.to_nat n) files)
    | None => (st, files)
    end in
  match compression p with
  | Some c =>
      foldl (compress_file io (compressed_file_suffix c)) st1
        (filter (λ f, should_compress f = true) (drop (Z.to_nat (max_uncompressed_sequences c)) kept))
  | None => st1
  end.

(** ** [roll]; the flag is false when it returns an error *)
Definition append_active (fs : gmap string string) (b : string) : gmap string string :=
  <[base_name := default EmptyString (fs !! base_name) +:+ b]> fs.

Definition flush_to (st : RollerState) (b : string) : gmap string string :=
  match rs_target st with ToActive => append_active (rs_fs st) b | ToNull => rs_fs st end.

Definition max_seq (l : list Z) : Z := foldr Z.max 0 l.

Definition next_sequence (files : list RolledFile) (period : Z) : Z :=
  (max_seq (rf_sequence <$> filter (λ f, format_period (rf_timestamp f) = format_period period) files) + 1) mod 2 ^ 32.

Definition open_file (fs : gmap string string) : gmap string string * Z :=
  match fs !! base_name with
  | Some b => (fs, Z.of_nat (String.length b))
  | None => (<[base_name := EmptyString]> fs, 0)
  end.

Definition rename_active (fs : gmap string string) (to : string) : gmap string string :=
  match fs !! base_name with Some b => <[to := b]> (delete base_name fs) | None => fs end.

Definition roll (io : Io) (now : Z) (st : RollerState) : RollerState * bool :=
  if negb (io_open_null io) then (st, false)
  else
    let fs1 := flush_to st (String.substring 0 (io_flush_old io) (rs_buf st)) in
    let failed fs := (mk_roller fs ToNull EmptyString (rs_size st) (rs_period st) (rs_reports st), false) in
    if negb (io_read_dir io) then failed fs1
    else
      let files := find_rolled_files fs1 in
      let seq := next_sequence files (rs_period st) in
      let rolled := rolled_name (rs_period st) seq in
      if bool_decide (is_Some (fs1 !! base_name)) && negb (io_rename io) then failed fs1
      else
        let fs2 := rename_active fs1 rolled in
        if negb (io_open_active io) then failed fs2
        else
          let '(fs3, size) := open_file fs2 in
          let all_files := rf_sort (files ++ [mk_rolled (rs_period st) seq rolled false]) in
          let '(fs4, reports) := cleanup io all_files (fs3, rs_reports st) in
          (mk_roller fs4 ToActive EmptyString size (calculate_period_start now p) reports, true).

(** ** Writing *)
Definition BUF_CAPACITY : nat := Z.to_nat 8192.

(** [BufWriter::write]: a message that does not fit flushes the buffer, a message as large as the buffer goes to the file. *)
Definition buf_write (b : string) (st : RollerState) : RollerState :=
  let '(fs, buf) :=
    if decide (String.length (rs_buf st) + String.length b ≤ BUF_CAPACITY)%nat then (rs_fs st, rs_buf st)
    else (flush_to st (rs_buf st), EmptyString) in
  let st1 := mk_roller fs (rs_target st) buf (rs_size st) (rs_period st) (rs_reports st) in
  if decide (BUF_CAPACITY ≤ String.length b)%nat then mk_roller (flush_to st1 b) (rs_target st) buf (rs_size st) (rs_period st) (rs_reports st)
  else mk_roller fs (rs_target st) (buf +:+ b) (rs_size st) (rs_period st) (rs_reports st).

Definition flush_writer (st : RollerState) : RollerState :=
  mk_roller (flush_to st (rs_buf st)) (rs_target st) EmptyString (rs_size st) (rs_period st) (rs_reports st).

(** The second half of [write_internal]: [io] is for its roll. *)
Definition write_and_size (io : Io) (now : Z) (b : string) (st : RollerState) : RollerState * bool :=
  let st1 := buf_write b st in
  let n := Z.of_nat (String.length b) in
  if decide (0 < n) then
    let st2 := mk_roller (rs_fs st1) (rs_target st1) (rs_buf st1) (rs_size st1 + n) (rs_period st1) (rs_reports st1) in
    match max_file_size p with
    | Some m => if decide (m ≤ rs_size st2) then roll io now st2 else (st2, true)
    | None => (st2, true)
    end
  else (st1, true).

Definition write_internal (io_time io_size : Io) (now : Z) (b : string) (st : RollerState) : RollerState * bool :=
  if decide (rs_period st < calculate_period_start now p) then
    match roll io_time now st with
    | (st', true) => write_and_size io_size now b st'
    | (st', false) => (st', false)
    end
  else write_and_size io_size now b st.

(** [new_at_time], on a directory. *)
Definition new_roller (now : Z) (fs : gmap string string) : RollerState :=
  let '(fs', size) := open_file fs in mk_roller fs' ToActive EmptyString size (calculate_period_start now p) 0.
End Roller.

(** Every operation succeeds. *)
Definition good_io : Io := mk_io true BUF_CAPACITY true true true (λ _, true) (λ _, Compressed).
