(* ===== verification/RollerArchive.v ===== *)
(** * The names of rolled files and their order (for logging/src/roller.rs)

    What [rolled_name] writes [find_rolled_files] reads back, and the sort puts the newest first: lemmas for the archive, which follows
    with the lemmas that the directory keeps to it. *)

From Stdlib Require Import Ascii.
From stdpp Require Import strings gmap sorting.
From S2P Require Import Prelude LogEvents LogEncoders LogConfig Roller.

(** ** Numbers *)
Lemma digit_digit_char n : 0 ≤ n < 10 → digit (digit_char n) = Some n.
Proof.
  intros H. unfold digit, digit_char. rewrite nat_ascii_embedding by lia. rewrite Z2Nat.id by lia.
  rewrite decide_True by lia. f_equal. lia.
Qed.

Lemma parse_digits_app acc s c d : digit c = Some d →
  parse_digits acc (s +:+ char_str c) = (λ n, n * 10 + d) <$> parse_digits acc s.
Proof.
  intros Hd. revert acc. induction s as [|c' s IH]; intros acc; [simpl; by rewrite Hd|].
  rewrite str_app_cons. cbn [parse_digits]. destruct (digit c'); [apply IH|done].
Qed.

Lemma parse_digits_show fuel n : 0 ≤ n < 10 ^ (Z.of_nat fuel + 1) → parse_digits 0 (show_digits fuel n) = Some n.
Proof.
  revert n. induction fuel as [|fuel IH]; intros n Hn; cbn [show_digits].
  - rewrite Z.mod_small by (simpl in Hn; lia). simpl. rewrite digit_digit_char by (simpl in Hn; lia). done.
  - case_decide as Hlt; [simpl; by rewrite digit_digit_char by lia|]. pose proof (Z.mod_pos_bound n 10 ltac:(lia)).
    rewrite (parse_digits_app _ _ _ (n mod 10)) by (apply digit_digit_char; lia). rewrite IH.
    + simpl. f_equal. pose proof (Z.div_mod n 10). lia.
    + split; [apply Z.div_pos; lia|]. apply Z.div_lt_upper_bound; [lia|]. replace (Z.of_nat (S fuel) + 1) with (Z.of_nat fuel + 1 + 1) in Hn by lia.
      rewrite Z.pow_add_r in Hn by lia. lia.
Qed.

Lemma show_digits_head fuel n : 0 ≤ n → ∃ k s, 0 ≤ k < 10 ∧ show_digits fuel n = String (digit_char k) s.
Proof.
  revert n. induction fuel as [|fuel IH]; intros n Hn; cbn [show_digits].
  - exists (n mod 10), EmptyString. split; [apply Z.mod_pos_bound; lia|done].
  - case_decide as Hlt; [by exists n, EmptyString|]. destruct (IH (n / 10)) as (k & s & Hk & ->); [apply Z.div_pos; lia|].
    exists k, (s +:+ char_str (digit_char (n mod 10))). by rewrite str_app_cons.
Qed.

Lemma parse_u32_show n : 0 ≤ n < 2 ^ 32 → parse_u32 (show_u32 n) = Some n.
Proof.
  intros Hn. unfold parse_u32, show_u32. pose proof (parse_digits_show 10 n ltac:(lia)) as Hp.
  destruct (show_digits_head 10 n) as (k & s & Hk & E); [lia|]. rewrite E in *.
  assert (strip_prefix (String (digit_char k) s) "+" = None) as ->.
  { cbn [strip_prefix]. destruct (decide _) as [Ec|]; [|done]. exfalso. pose proof (digit_digit_char k Hk) as Hd. rewrite <- Ec in Hd. by vm_compute in Hd. }
  cbn [default parse_nat_str]. unfold default. rewrite Hp. simpl. by rewrite decide_True by lia.
Qed.

Lemma show_u32_inj m n : 0 ≤ m < 2 ^ 32 → 0 ≤ n < 2 ^ 32 → show_u32 m = show_u32 n → m = n.
Proof. intros Hm Hn E. pose proof (parse_u32_show m Hm) as H1. rewrite E, parse_u32_show in H1 by done. by injection H1. Qed.

(** ** Truncation *)
Lemma with_nanosecond_second t : with_nanosecond_0 (with_second_0 t) = t - t mod (60 * SECOND).
Proof. unfold with_nanosecond_0, with_second_0, SECOND. Z.to_euclidean_division_equations. lia. Qed.

Lemma with_second_minute t : with_nanosecond_0 (with_second_0 (with_minute_0 t)) = t - t mod (3600 * SECOND).
Proof. rewrite with_nanosecond_second. unfold with_minute_0, SECOND. Z.to_euclidean_division_equations. lia. Qed.

Lemma with_minute_hour t : with_nanosecond_0 (with_second_0 (with_minute_0 (with_hour_0 t))) = t - t mod (86400 * SECOND).
Proof. rewrite with_second_minute. unfold with_hour_0, SECOND. Z.to_euclidean_division_equations. lia. Qed.

(** The length of a policy's periods; those of the epoch alone for never. *)
Definition period_length (p : RollingPolicyInternal) : option Z :=
  if decide (time_granularity p = "minutely") then Some (60 * SECOND)
  else if decide (time_granularity p = "hourly") then Some (3600 * SECOND)
  else if decide (time_granularity p = "never") then None
  else Some (86400 * SECOND).

Lemma calculate_period_start_spec now p :
  calculate_period_start now p = match period_length p with Some d => now - now mod d | None => UNIX_EPOCH end.
Proof.
  unfold calculate_period_start, period_length. repeat case_decide; [apply with_nanosecond_second|apply with_second_minute|done|apply with_minute_hour].
Qed.

(** The times of the years 0 to 9999, which [chrono] prints with four digits and the expression finds again. *)
Definition YEAR_0 : Z := -719528 * 86400 * SECOND.
Definition YEAR_10000 : Z := 2932897 * 86400 * SECOND.
Definition in_years (t : Z) : Prop := YEAR_0 ≤ t < YEAR_10000.

(** Starts of periods are the fixed points; they are monotone in the time. *)
Definition is_period (p : RollingPolicyInternal) (t : Z) : Prop := calculate_period_start t p = t ∧ in_years t.

Lemma period_start_in_years now p : in_years now → in_years (calculate_period_start now p).
Proof.
  rewrite calculate_period_start_spec. unfold in_years, YEAR_0, YEAR_10000, UNIX_EPOCH, period_length, SECOND. repeat case_decide; [| | |];
    Z.to_euclidean_division_equations; lia.
Qed.

Lemma period_start_is_period now p : in_years now → is_period p (calculate_period_start now p).
Proof.
  intros Hy. split; [|by apply period_start_in_years]. rewrite !calculate_period_start_spec. destruct (period_length p) as [d|] eqn:E; [|done].
  assert (Hd : 0 < d) by (unfold period_length, SECOND in E; repeat case_decide; simplify_eq; lia).
  assert (H : (now - now mod d) mod d = 0); [|lia]. rewrite Zminus_mod_idemp_r, Z.sub_diag. by apply Z.mod_0_l; lia.
Qed.

Lemma period_start_mono p t1 t2 : t1 ≤ t2 → calculate_period_start t1 p ≤ calculate_period_start t2 p.
Proof.
  intros H. rewrite !calculate_period_start_spec. destruct (period_length p) as [d|] eqn:E; [|done].
  assert (Hd : 0 < d) by (unfold period_length, SECOND in E; repeat case_decide; simplify_eq; lia).
  pose proof (Z.div_le_mono t1 t2 d Hd H). rewrite !Z.mod_eq by lia. nia.
Qed.

(** ** The sort *)
Lemma rf_le_trans : Transitive rf_le.
Proof. intros a b c. unfold rf_le. lia. Qed.

Lemma rf_insert_perm f l : rf_insert f l ≡ₚ f :: l.
Proof. induction l as [|g l IH]; simpl; [done|]. case_decide; [done|]. rewrite IH. apply Permutation_swap. Qed.

Lemma rf_sort_perm l : rf_sort l ≡ₚ l.
Proof. induction l as [|f l IH]; simpl; [done|]. by rewrite rf_insert_perm, IH. Qed.

Lemma rf_insert_sorted f l : StronglySorted rf_le l → StronglySorted rf_le (rf_insert f l).
Proof.
  induction 1 as [|g l Hs IH Hg]; simpl; [by repeat constructor|]. case_decide as Hle.
  - constructor; [by constructor|]. constructor; [done|]. eapply Forall_impl; [exact Hg|]. intros h Hh. by eapply rf_le_trans.
  - constructor; [done|]. rewrite rf_insert_perm. constructor; [|done]. unfold rf_le in *. lia.
Qed.

Lemma rf_sort_sorted l : StronglySorted rf_le (rf_sort l).
Proof. induction l as [|f l IH]; simpl; [constructor|]. by apply rf_insert_sorted. Qed.

(** ** Archived files: the period, the sequence, the data and whether it is compressed, the oldest first *)
Record Archived := mk_archived { av_ts : Z; av_seq : Z; av_data : string; av_compressed : bool }.

Definition av_lt (x y : Archived) : Prop := av_ts x < av_ts y ∨ (av_ts x = av_ts y ∧ av_seq x < av_seq y).

Definition ascending (l : list Archived) : Prop := StronglySorted av_lt l.

Lemma ascending_app l1 l2 : ascending (l1 ++ l2) ↔ ascending l1 ∧ ascending l2 ∧ ∀ x y, x ∈ l1 → y ∈ l2 → av_lt x y.
Proof. unfold ascending. pose proof (StronglySorted_app av_lt l1 l2). tauto. Qed.

Lemma ascending_snoc l x : ascending (l ++ [x]) ↔ ascending l ∧ ∀ y, y ∈ l → av_lt y x.
Proof.
  rewrite ascending_app. split.
  - intros (H1 & _ & H3). split; [done|]. intros y Hy. apply H3; [done|by left].
  - intros [H1 H2]. split_and!; [done|by repeat constructor|]. intros y z Hy Hz. apply list_elem_of_singleton in Hz as ->. by apply H2.
Qed.

Lemma ascending_key l x y : ascending l → x ∈ l → y ∈ l → av_ts x = av_ts y → av_seq x = av_seq y → x = y.
Proof.
  unfold ascending. induction 1 as [|a l Hs IH Ha]; intros Hx Hy E1 E2; [by apply elem_of_nil in Hx|]. rewrite Forall_forall in Ha.
  apply elem_of_cons in Hx as [->|Hx], Hy as [->|Hy]; [done| | |by apply IH].
  - apply Ha in Hy. unfold av_lt in Hy. lia.
  - apply Ha in Hx. unfold av_lt in Hx. lia.
Qed.

Lemma ascending_NoDup l : ascending l → NoDup l.
Proof.
  induction 1 as [|a l Hs IH Ha]; constructor; [|done]. intros Hin. rewrite Forall_forall in Ha. apply Ha in Hin. unfold av_lt in Hin. lia.
Qed.

(** ** The rolling file keeps an archive (for logging/src/roller.rs)

    The archive is the specification: the rolled files in the order of their periods and sequences, the data written since, and the
    current period.  A roll moves that data to the archive under a new sequence, drops the oldest files beyond the retention and
    marks all but the newest as compressed.  The lemmas show that the directory follows the archive, operation by operation. *)

Record Archive := mk_archive { ar_rolled : list Archived; ar_active : string; ar_period : Z }.

(** ** The specification of a roll *)
Definition compress_entry (x : Archived) : Archived := mk_archived (av_ts x) (av_seq x) (av_data x) true.

(** All but the last [n]. *)
Definition but_last {A} (n : nat) (l : list A) : list A := take (length l - n) l.
Definition last_n {A} (n : nat) (l : list A) : list A := drop (length l - n) l.

Definition retained (p : RollingPolicyInternal) (l : list Archived) : list Archived :=
  match max_retained_sequences p with Some n => last_n (Z.to_nat n) l | None => l end.

Definition compressed_older (p : RollingPolicyInternal) (l : list Archived) : list Archived :=
  match compression p with
  | Some c => (compress_entry <$> but_last (Z.to_nat (max_uncompressed_sequences c)) l) ++ last_n (Z.to_nat (max_uncompressed_sequences c)) l
  | None => l
  end.

Definition next_seq (period : Z) (l : list Archived) : Z :=
  max_seq (av_seq <$> filter (λ x, av_ts x = period) l) + 1.

Definition archive_roll (p : RollingPolicyInternal) (now : Z) (a : Archive) : Archive :=
  mk_archive
    (compressed_older p (retained p (ar_rolled a ++ [mk_archived (ar_period a) (next_seq (ar_period a) (ar_rolled a)) (ar_active a) false])))
    EmptyString (calculate_period_start now p).

Lemma but_last_last_n {A} n (l : list A) : but_last n l ++ last_n n l = l.
Proof. apply take_drop. Qed.

Lemma but_last_reverse {A} n (l : list A) : drop n (reverse l) = reverse (but_last n l).
Proof.
  unfold but_last. rewrite <- (take_drop (length l - n) l) at 1. rewrite reverse_app, drop_app_ge, length_reverse, length_drop.
  - destruct (decide (n ≤ length l)%nat).
    + replace (n - (length l - (length l - n)))%nat with 0%nat by lia. done.
    + replace (length l - n)%nat with 0%nat by lia. rewrite take_0, reverse_nil. by rewrite drop_nil.
  - rewrite length_reverse, length_drop. lia.
Qed.

Lemma last_n_reverse {A} n (l : list A) : take n (reverse l) = reverse (last_n n l).
Proof.
  unfold last_n. rewrite <- (take_drop (length l - n) l) at 1. rewrite reverse_app.
  destruct (decide (n ≤ length l)%nat).
  - rewrite take_app_length'; [done|]. rewrite length_reverse, length_drop. lia.
  - replace (length l - n)%nat with 0%nat by lia. rewrite take_0, reverse_nil, app_nil_r. apply take_ge. rewrite length_reverse, length_drop. lia.
Qed.

Lemma max_seq_ge l x : x ∈ l → x ≤ max_seq l.
Proof. induction l as [|y l IH]; [by intros []%elem_of_nil|]. simpl. intros [->|H]%elem_of_cons; [lia|]. apply IH in H. lia. Qed.

Lemma max_seq_nonneg l : 0 ≤ max_seq l.
Proof. induction l; simpl; lia. Qed.

Lemma max_seq_le l b : 0 ≤ b → (∀ x, x ∈ l → x ≤ b) → max_seq l ≤ b.
Proof.
  intros Hb. induction l as [|y l IH]; simpl; [done|]. intros H. apply Z.max_lub; [apply H; by left|]. apply IH. intros x Hx. apply H. by right.
Qed.

#[global] Instance max_seq_perm : Proper ((≡ₚ) ==> (=)) max_seq.
Proof. induction 1; simpl; lia. Qed.

Section Archive.
Context (fmt_date fmt_hour fmt_minute : Z → string) (parse_datetime parse_date : string → option Z).
Context (captures : string → option (string * string)) (gz : string → string).
Context (p : RollingPolicyInternal).

Notation base := (base_name p).
Notation name := (rolled_name fmt_date fmt_hour fmt_minute p).
Notation format := (format_period fmt_date fmt_hour fmt_minute p).
Notation csuffix := (compressed_suffix p).
Notation parse_name := (parse_rolled parse_datetime parse_date captures p).
Notation find := (find_rolled_files parse_datetime parse_date captures p).

(** What a policy's names rely on, for the periods of the years 0 to 9999: the printed start of a period is parsed back; the regular expression finds in a rolled name its
    period and sequence; and the compressed suffix is not empty and ends no uncompressed rolled name. *)
Record names_recognized : Prop := {
  nr_parse t : is_period p t → parse_datetime_from_str parse_datetime parse_date (format t) = Some t;
  nr_captures t seq : is_period p t → 0 ≤ seq < 2 ^ 32 → captures (name t seq) = Some (format t, show_u32 seq);
  nr_suffix : csuffix ≠ EmptyString;
  nr_plain t seq : is_period p t → 0 ≤ seq < 2 ^ 32 → ends_with (name t seq) csuffix = false
}.

Context (Hnames : names_recognized).

Definition entry_ok (x : Archived) : Prop := is_period p (av_ts x) ∧ 0 ≤ av_seq x < 2 ^ 32.

(** The file of an entry. *)
Definition entry_name (x : Archived) : string :=
  if av_compressed x then name (av_ts x) (av_seq x) +:+ csuffix else name (av_ts x) (av_seq x).

Definition entry_data (x : Archived) : string := if av_compressed x then gz (av_data x) else av_data x.

Definition entry_rolled (x : Archived) : RolledFile := mk_rolled (av_ts x) (av_seq x) (entry_name x) (av_compressed x).

(** *** Names *)
Lemma parse_entry_name x : entry_ok x → parse_name (entry_name x) = Some (entry_rolled x).
Proof using Hnames.
  intros [Hp Hs]. destruct Hnames as [H1 H2 H3 H4]. set (nm := name (av_ts x) (av_seq x)).
  assert (Hpre : starts_with (entry_name x) (file_name_prefix p) = true).
  { apply starts_with_true. unfold entry_name, rolled_name. destruct (av_compressed x); rewrite <- ?str_app_assoc; by eexists. }
  assert (Hend : ends_with (entry_name x) csuffix = av_compressed x).
  { unfold entry_name. destruct (av_compressed x); [apply ends_with_true; by eexists|by apply H4]. }
  assert (Hplain : (if av_compressed x then default (entry_name x) (strip_suffix (entry_name x) csuffix) else entry_name x) = nm).
  { unfold entry_name. destruct (av_compressed x); [|done]. fold nm. by rewrite (proj2 (strip_suffix_Some (nm +:+ csuffix) csuffix nm)). }
  unfold parse_rolled. rewrite Hpre, Hend, Hplain. unfold nm. rewrite H2 by done. cbn [mbind option_bind]. rewrite H1 by done.
  cbn [mbind option_bind]. by rewrite parse_u32_show.
Qed.

Lemma entry_name_inj x y : entry_ok x → entry_ok y → entry_name x = entry_name y →
  av_ts x = av_ts y ∧ av_seq x = av_seq y ∧ av_compressed x = av_compressed y.
Proof using Hnames.
  intros Hx Hy E. pose proof (parse_entry_name x Hx) as H1. pose proof (parse_entry_name y Hy) as H2.
  rewrite E in H1. rewrite H1 in H2. by injection H2 as -> -> _ ->.
Qed.

Lemma base_length x : (String.length base < String.length (entry_name x))%nat.
Proof.
  assert (String.length base < String.length (name (av_ts x) (av_seq x)))%nat.
  { unfold rolled_name, base_name. rewrite !str_length_app. simpl. lia. }
  unfold entry_name. destruct (av_compressed x); [rewrite str_length_app|]; lia.
Qed.

Lemma base_not_entry x : entry_name x ≠ base.
Proof. intros E. pose proof (base_length x). rewrite E in *. lia. Qed.

(** *** The directory of an archive *)
Record directory_of (fs : gmap string string) (l : list Archived) : Prop := {
  do_files x : x ∈ l → fs !! entry_name x = Some (entry_data x);
  do_rolled f : is_Some (fs !! f) → is_Some (parse_name f) → ∃ x, x ∈ l ∧ f = entry_name x;
  do_ok : Forall entry_ok l;
  do_keys x y : x ∈ l → y ∈ l → av_ts x = av_ts y → av_seq x = av_seq y → x = y
}.

Lemma directory_of_perm fs l1 l2 : l1 ≡ₚ l2 → directory_of fs l1 → directory_of fs l2.
Proof.
  intros E [H1 H2 H3 H4]. split.
  - intros x Hx. apply H1. by rewrite E.
  - intros f Hf Hp. destruct (H2 f Hf Hp) as (x & Hx & ->). exists x. by rewrite <- E.
  - by rewrite <- E.
  - intros x y Hx Hy. apply H4; by rewrite E.
Qed.

Lemma do_entry_ok fs l x : directory_of fs l → x ∈ l → entry_ok x.
Proof. intros [_ _ H _] Hx. rewrite Forall_forall in H. by apply H. Qed.

(** Its rolled files are the entries', each once, and sorted they are the newest first. *)
Lemma found_files fs l : directory_of fs l → NoDup l →
  omap parse_name (map_to_list fs).*1 ≡ₚ entry_rolled <$> l.
Proof using Hnames.
  intros Hd Hnd. pose proof Hd as [H1 H2 H3 H4].
  assert (Hpn : ∀ f r, parse_name f = Some r → rf_path r = f).
  { intros f r. unfold parse_rolled. destruct (starts_with _ _); [|done]. intros ([ts sq] & _ & H)%bind_Some.
    apply bind_Some in H as (t & _ & H). apply bind_Some in H as (n & _ & H). by injection H as <-. }
  apply NoDup_Permutation.
  - assert (G : ∀ ks : list string, NoDup ks → NoDup (omap parse_name ks)); [|apply G, NoDup_fst_map_to_list].
    induction 1 as [|f ks Hf _ IH]; [constructor|]. csimpl. destruct (parse_name f) as [r|] eqn:E; [|done]. constructor; [|done].
    intros (g & Hg & Eg)%list_elem_of_omap. apply Hpn in E. apply Hpn in Eg. congruence.
  - apply NoDup_fmap_2_strong; [|done]. intros x y Hx Hy E. injection E as E1 E2 _ _. by apply H4.
  - intros r. rewrite list_elem_of_omap, list_elem_of_fmap. split.
    + intros (f & Hf & E). apply list_elem_of_fmap in Hf as ([f' b] & -> & Hf). apply elem_of_map_to_list in Hf. simpl in *.
      destruct (H2 f') as (x & Hx & ->); [by eexists|by eexists|]. exists x. split; [|done].
      rewrite parse_entry_name in E by (by eapply do_entry_ok). by injection E.
    + intros (x & -> & Hx). exists (entry_name x). split; [|apply parse_entry_name; by eapply do_entry_ok].
      apply list_elem_of_fmap. exists (entry_name x, entry_data x). split; [done|]. apply elem_of_map_to_list. by apply H1.
Qed.

Lemma sorted_entries l L : ascending l → L ≡ₚ entry_rolled <$> l → rf_sort L = reverse (entry_rolled <$> l).
Proof.
  intros Ha HL. apply (StronglySorted_unique_strong rf_le).
  - intros r1 r2 Hr1 Hr2 L1 L2. rewrite rf_sort_perm, HL in Hr1. rewrite reverse_Permutation in Hr2.
    apply list_elem_of_fmap in Hr1 as (x & -> & Hx). apply list_elem_of_fmap in Hr2 as (y & -> & Hy). f_equal.
    apply (ascending_key l); [done..| |]; unfold rf_le in *; simpl in *; lia.
  - apply rf_sort_sorted.
  - clear HL. induction l as [|x l IH] using rev_ind; [constructor|]. apply ascending_snoc in Ha as [Ha Hx].
    rewrite fmap_app, reverse_app. simpl. apply StronglySorted_cons. split; [|by apply IH]. rewrite reverse_Permutation.
    apply Forall_forall. intros r (y & -> & Hy)%list_elem_of_fmap. apply Hx in Hy. unfold rf_le, av_lt in *. simpl. lia.
  - by rewrite rf_sort_perm, HL, reverse_Permutation.
Qed.

Lemma find_entries fs l : directory_of fs l → ascending l → find fs = reverse (entry_rolled <$> l).
Proof using Hnames. intros Hd Ha. apply sorted_entries; [done|]. apply found_files; [done|]. by apply ascending_NoDup. Qed.

(** *** Removing and compressing *)
Definition io_ok (io : Io) (buf : string) : Prop :=
  io_open_null io = true ∧ (String.length buf ≤ io_flush_old io)%nat ∧ io_read_dir io = true ∧ io_rename io = true ∧
  io_open_active io = true ∧ (∀ f, io_remove io f = true) ∧ (∀ f, io_compress io f = Compressed).

Lemma directory_of_delete fs x l : directory_of fs (x :: l) → x ∉ l → directory_of (delete (entry_name x) fs) l.
Proof using Hnames.
  intros Hd Hni. pose proof Hd as [H1 H2 H3 H4]. assert (Hne : ∀ y, y ∈ l → entry_name x ≠ entry_name y).
  { intros y Hy E. assert (Hy' : y ∈ x :: l) by (by right). apply entry_name_inj in E as (E1 & E2 & _);
      [|eapply do_entry_ok; [done|by left]|by eapply do_entry_ok]. apply Hni.
    by rewrite (H4 x y) by (done || by left). }
  split.
  - intros y Hy. rewrite lookup_delete_ne by (by apply Hne). apply H1. by right.
  - intros f [b Hb] Hp. apply lookup_delete_Some in Hb as [Hf Hb]. destruct (H2 f) as (y & [->|Hy]%elem_of_cons & ->); [by eexists|done|done|]. by exists y.
  - by inversion H3.
  - intros y z Hy Hz. apply H4; by right.
Qed.

Lemma remove_entries io L l fs n : (∀ f, io_remove io f = true) → directory_of fs (L ++ l) → NoDup (L ++ l) →
  ∃ fs', foldl (remove_file io) (fs, n) (entry_rolled <$> L) = (fs', n) ∧ directory_of fs' l ∧
    ∀ f, (∀ x, f ≠ entry_name x) → fs' !! f = fs !! f.
Proof using Hnames.
  intros Hio. revert fs. induction L as [|x L IH]; intros fs Hd Hnd; [by exists fs|]. cbn [foldl fmap list_fmap].
  simpl in Hnd. apply NoDup_cons in Hnd as [Hni Hnd]. apply directory_of_delete in Hd; [|done].
  destruct (IH _ Hd Hnd) as (fs' & E & Hd' & Hf). exists fs'. unfold remove_file at 2. rewrite Hio. simpl. split_and!; [exact E|done|].
  intros f Hne. rewrite Hf by done. by rewrite lookup_delete_ne by (intros <-; by eapply Hne).
Qed.

Lemma should_compress_entry x : should_compress p (entry_rolled x) = negb (av_compressed x).
Proof.
  unfold should_compress. simpl. unfold entry_name. destruct (av_compressed x); [done|]. simpl. apply ends_with_true.
  unfold rolled_name. eexists. by rewrite !str_app_assoc.
Qed.

Lemma entry_ok_compress x : entry_ok x → entry_ok (compress_entry x).
Proof. done. Qed.

Lemma compress_entries io c L l fs n : compression p = Some c → (∀ f, io_compress io f = Compressed) →
  directory_of fs (L ++ l) → NoDup (L ++ l) →
  ∃ fs', foldl (compress_file gz io (compressed_file_suffix c)) (fs, n) (filter (λ f, should_compress p f = true) (entry_rolled <$> L)) = (fs', n) ∧
    directory_of fs' ((compress_entry <$> L) ++ l) ∧ ∀ f, (∀ x, f ≠ entry_name x) → fs' !! f = fs !! f.
Proof using Hnames.
  intros Hc Hio. assert (Hcs : compressed_file_suffix c = csuffix) by (unfold compressed_suffix; by rewrite Hc).
  revert fs l. induction L as [|x L IH]; intros fs l Hd Hnd; [by exists fs|]. rewrite fmap_cons.
  assert (Hperm : (x :: L) ++ l ≡ₚ L ++ (x :: l)) by (simpl; apply Permutation_middle).
  simpl in Hnd. rewrite filter_cons. rewrite should_compress_entry. destruct (av_compressed x) eqn:Ex; simpl.
  - assert (compress_entry x = x) as Exx by (unfold compress_entry; destruct x; simpl in *; by subst).
    destruct (IH fs (x :: l)) as (fs' & E & Hd' & Hf); [by apply (directory_of_perm _ _ _ Hperm)|rewrite <- Hperm; done|].
    exists fs'. split_and!; [exact E| |done]. rewrite Exx. eapply directory_of_perm; [|exact Hd']. symmetry. apply Permutation_middle.
  - unfold compress_file at 2. rewrite Hio. simpl. set (cname := entry_name x +:+ compressed_file_suffix c).
    assert (Ecn : cname = entry_name (compress_entry x)) by (unfold cname, entry_name; rewrite Ex, Hcs; done).
    assert (Hxok : entry_ok x) by (eapply do_entry_ok; [exact Hd|by left]).
    assert (Hxn : entry_name x ≠ cname).
    { rewrite Ecn. intros E. apply entry_name_inj in E as (_ & _ & E); [by rewrite Ex in E|done|done]. }
    pose proof Hd as [H1 H2 H3 H4]. assert (Hxin : x ∈ (x :: L) ++ l) by (by left).
    assert (Hsrc : default EmptyString (<[cname:=EmptyString]> fs !! entry_name x) = av_data x).
    { rewrite lookup_insert_ne by done. rewrite H1 by done. simpl. unfold entry_data. by rewrite Ex. }
    rewrite Hsrc. set (fs1 := delete (entry_name x) (<[cname:=gz (av_data x)]> (<[cname := EmptyString]> fs))).
    assert (Hd1 : directory_of fs1 (L ++ compress_entry x :: l)).
    { apply NoDup_cons in Hnd as [Hni Hnd].
      assert (Hother : ∀ y, y ∈ L ++ l → entry_name y ≠ entry_name x ∧ entry_name y ≠ cname).
      { intros y Hy. assert (Hy' : y ∈ (x :: L) ++ l) by (by right). assert (Hyok : entry_ok y) by (by eapply do_entry_ok).
        assert (Hk : ¬ (av_ts y = av_ts x ∧ av_seq y = av_seq x)) by (intros [E1 E2]; apply Hni; by rewrite <- (H4 y x)).
        split; [|rewrite Ecn]; intros E; apply entry_name_inj in E as (E1 & E2 & _); done || by apply Hk. }
      eapply directory_of_perm; [apply Permutation_middle|]. split.
      - intros y [->|Hy]%elem_of_cons.
        + unfold fs1. rewrite <- Ecn, lookup_delete_ne by done. by rewrite lookup_insert_eq.
        + destruct (Hother y Hy) as [N1 N2]. unfold fs1. rewrite lookup_delete_ne by done. rewrite !lookup_insert_ne by done. apply H1. by right.
      - intros f [b Hb] Hp. unfold fs1 in Hb. apply lookup_delete_Some in Hb as [Hf Hb].
        destruct (decide (f = cname)) as [->|Hfc]; [exists (compress_entry x); split; [by left|done]|].
        rewrite !lookup_insert_ne in Hb by done. destruct (H2 f) as (y & Hy & ->); [by eexists|done|].
        apply elem_of_cons in Hy as [->|Hy]; [done|]. exists y. split; [by right|done].
      - inversion H3; subst. constructor; [by apply entry_ok_compress|done].
      - intros y z [->|Hy]%elem_of_cons [->|Hz]%elem_of_cons E1 E2; [done| | |by apply H4; [right|right| |]].
        + destruct Hni. by rewrite (H4 x z) by (done || by right).
        + destruct Hni. by rewrite <- (H4 y x) by (done || by right). }
    destruct (IH fs1 (compress_entry x :: l)) as (fs' & E & Hd' & Hf); [done| |].
    { apply NoDup_cons in Hnd as [Hni Hnd]. rewrite <- Permutation_middle. constructor; [|done]. intros Hin.
      destruct Hd1 as [_ _ _ K4]. assert (Hx2 : x ∈ L ++ l → False) by done. apply Hx2.
      rewrite <- (H4 (compress_entry x) x) by (done || by right). done. }
    exists fs'. split_and!; [exact E| |].
    + eapply directory_of_perm; [|exact Hd']. symmetry. apply Permutation_middle.
    + intros f Hne. rewrite Hf by done. unfold fs1. rewrite lookup_delete_ne by (intros <-; by eapply Hne).
      rewrite !lookup_insert_ne by (rewrite Ecn; intros <-; by eapply Hne). done.
Qed.
End Archive.
