(* ===== verification/RollerStream.v ===== *)
(** * The rolling file keeps what is written (for logging/src/roller.rs)

    The roller refines the archive of RollerArchive.v: a roll, a write and a run of writes.  The data of the archive and of the active
    file, in order, is what was written, less a prefix that the retention dropped. *)

From Stdlib Require Import Ascii.
From stdpp Require Import strings gmap sorting.
From S2P Require Import Prelude LogEvents LogEncoders LogConfig Roller RollerArchive.

(** ** The entries of the archive through a cleanup *)
Lemma but_last_fmap {A B} (f : A → B) n l : but_last n (f <$> l) = f <$> but_last n l.
Proof. unfold but_last. by rewrite length_fmap, fmap_take. Qed.

Lemma last_n_fmap {A B} (f : A → B) n l : last_n n (f <$> l) = f <$> last_n n l.
Proof. unfold last_n. by rewrite length_fmap, fmap_drop. Qed.

Lemma drop_reverse_fmap {A B} (f : A → B) n l : drop n (reverse (f <$> l)) = f <$> reverse (but_last n l).
Proof. by rewrite but_last_reverse, but_last_fmap, fmap_reverse. Qed.

Lemma take_reverse_fmap {A B} (f : A → B) n l : take n (reverse (f <$> l)) = reverse (f <$> last_n n l).
Proof. by rewrite last_n_reverse, last_n_fmap. Qed.

(** A cleanup keeps the order, and of the entries the last ones with their data. *)
Definition same_key (x y : Archived) : Prop := av_ts x = av_ts y ∧ av_seq x = av_seq y ∧ av_data x = av_data y.

Lemma same_key_refl l : Forall2 same_key l l.
Proof. induction l; constructor; done. Qed.

Lemma compressed_older_same p l : Forall2 same_key (compressed_older p l) l.
Proof.
  unfold compressed_older. destruct (compression p) as [c|]; [|apply same_key_refl].
  rewrite <- (but_last_last_n (Z.to_nat (max_uncompressed_sequences c)) l) at 3. apply Forall2_app; [|apply same_key_refl].
  generalize (but_last (Z.to_nat (max_uncompressed_sequences c)) l) as k. intros k. induction k; constructor; done.
Qed.

Lemma retained_suffix p l : ∃ dropped, l = dropped ++ retained p l ∧ (max_retained_sequences p = None → dropped = []).
Proof.
  unfold retained. destruct (max_retained_sequences p) as [n|]; [|by exists []].
  exists (but_last (Z.to_nat n) l). by rewrite but_last_last_n.
Qed.

Lemma retained_length p l n : max_retained_sequences p = Some n → (length (compressed_older p (retained p l)) ≤ Z.to_nat n)%nat.
Proof. intros E. rewrite (Forall2_length _ _ _ (compressed_older_same p _)). unfold retained, last_n. rewrite E, length_drop. lia. Qed.

Lemma same_key_elem l1 l2 x : Forall2 same_key l1 l2 → x ∈ l1 → ∃ y, y ∈ l2 ∧ same_key x y.
Proof. intros H [i Hi]%list_elem_of_lookup. destruct (Forall2_lookup_l _ _ _ _ _ H Hi) as (y & Hy & E). exists y. split; [by eapply list_elem_of_lookup_2|done]. Qed.

Lemma same_key_ascending l1 l2 : Forall2 same_key l1 l2 → ascending l2 → ascending l1.
Proof.
  induction 1 as [|x y l1 l2 Hxy H IH]; intros Ha; [constructor|]. apply StronglySorted_cons in Ha as [Hy Ha]. apply StronglySorted_cons.
  split; [|by apply IH]. apply Forall_forall. intros z Hz. destruct (same_key_elem _ _ _ H Hz) as (w & Hw & Ew).
  rewrite Forall_forall in Hy. apply Hy in Hw. unfold same_key, av_lt in *. lia.
Qed.

Definition data_of (l : list Archived) : string := concat_str (av_data <$> l).

Lemma data_of_app l1 l2 : data_of (l1 ++ l2) = data_of l1 +:+ data_of l2.
Proof. unfold data_of. by rewrite fmap_app, concat_str_app. Qed.

Lemma same_key_data l1 l2 : Forall2 same_key l1 l2 → data_of l1 = data_of l2.
Proof. unfold data_of. induction 1 as [|x y l1 l2 (_ & _ & E) H IH]; [done|]. simpl. rewrite E. f_equal. exact IH. Qed.

(** The stream of an archive: the data of its files and the active data, in order. *)
Definition stream (a : Archive) : string := data_of (ar_rolled a) +:+ ar_active a.

Lemma archive_roll_stream p now a : ∃ dropped, stream a = dropped +:+ stream (archive_roll p now a) ∧
  (max_retained_sequences p = None → dropped = EmptyString).
Proof.
  unfold stream, archive_roll. simpl. set (l := ar_rolled a ++ _). rewrite str_app_nil_r, (same_key_data _ _ (compressed_older_same p _)).
  assert (El : data_of (ar_rolled a) +:+ ar_active a = data_of l) by (unfold l; rewrite data_of_app; unfold data_of at 3; simpl; by rewrite str_app_nil_r).
  destruct (retained_suffix p l) as (dr & Hd & Hn). exists (data_of dr). rewrite El. split; [rewrite Hd at 1; apply data_of_app|].
  intros E. by rewrite (Hn E).
Qed.

Section Refinement.
Context (fmt_date fmt_hour fmt_minute : Z → string) (parse_datetime parse_date : string → option Z).
Context (captures : string → option (string * string)) (gz : string → string).
Context (p : RollingPolicyInternal).
Context (Hnames : names_recognized fmt_date fmt_hour fmt_minute parse_datetime parse_date captures p).

Notation base := (base_name p).
Notation name := (rolled_name fmt_date fmt_hour fmt_minute p).
Notation entry_name := (entry_name fmt_date fmt_hour fmt_minute p).
Notation entry_rolled := (entry_rolled fmt_date fmt_hour fmt_minute p).
Notation directory_of := (directory_of fmt_date fmt_hour fmt_minute parse_datetime parse_date captures gz p).
Notation cleanup := (cleanup gz p).
Notation roll := (roll fmt_date fmt_hour fmt_minute parse_datetime parse_date captures gz p).
Notation write_and_size := (write_and_size fmt_date fmt_hour fmt_minute parse_datetime parse_date captures gz p).
Notation write_internal := (write_internal fmt_date fmt_hour fmt_minute parse_datetime parse_date captures gz p).

Lemma cleanup_entries io l fs n : (∀ f, io_remove io f = true) → (∀ f, io_compress io f = Compressed) → directory_of fs l → ascending l →
  ∃ fs', cleanup io (reverse (entry_rolled <$> l)) (fs, n) = (fs', n) ∧ directory_of fs' (compressed_older p (retained p l)) ∧
    ∀ f, (∀ x, f ≠ entry_name x) → fs' !! f = fs !! f.
Proof using Hnames.
  intros Hrm Hcomp Hd Ha.
  assert (G : ∃ fs1, match max_retained_sequences p with
              | Some m => (foldl (remove_file io) (fs, n) (drop (Z.to_nat m) (reverse (entry_rolled <$> l))), take (Z.to_nat m) (reverse (entry_rolled <$> l)))
              | None => ((fs, n), reverse (entry_rolled <$> l)) end = ((fs1, n), reverse (entry_rolled <$> retained p l)) ∧
            directory_of fs1 (retained p l) ∧ (∀ f, (∀ x, f ≠ entry_name x) → fs1 !! f = fs !! f)).
  { unfold retained. destruct (max_retained_sequences p) as [m|]; [|by exists fs]. rewrite drop_reverse_fmap, take_reverse_fmap.
    assert (Hp : reverse (but_last (Z.to_nat m) l) ++ last_n (Z.to_nat m) l ≡ₚ l) by (rewrite reverse_Permutation; by rewrite but_last_last_n).
    destruct (remove_entries _ _ _ _ _ _ gz p Hnames io (reverse (but_last (Z.to_nat m) l)) (last_n (Z.to_nat m) l) fs n Hrm) as (fs1 & E & Hd1 & Hf).
    - by eapply directory_of_perm.
    - rewrite Hp. by apply ascending_NoDup.
    - exists fs1. by rewrite E. }
  destruct G as (fs1 & G & Hd1 & Hf1). unfold Roller.cleanup. rewrite G. unfold compressed_older.
  destruct (compression p) as [c|] eqn:Ec; [|by exists fs1]. rewrite drop_reverse_fmap. set (m := Z.to_nat (max_uncompressed_sequences c)).
  assert (Hp : reverse (but_last m (retained p l)) ++ last_n m (retained p l) ≡ₚ retained p l) by (rewrite reverse_Permutation; by rewrite but_last_last_n).
  destruct (compress_entries _ _ _ _ _ _ gz p Hnames io c (reverse (but_last m (retained p l))) (last_n m (retained p l)) fs1 n Ec Hcomp) as (fs2 & E & Hd2 & Hf2).
  - by eapply directory_of_perm.
  - rewrite Hp. destruct (retained_suffix p l) as (dr & Edr & _). apply ascending_NoDup. rewrite Edr in Ha. by apply ascending_app in Ha as (_ & ? & _).
  - exists fs2. split_and!; [exact E| |].
    + eapply directory_of_perm; [|exact Hd2]. by rewrite fmap_reverse, reverse_Permutation.
    + intros f Hne. by rewrite Hf2, Hf1.
Qed.

(** ** The roller's state and the archive *)
Record represents (st : RollerState) (a : Archive) : Prop := {
  rp_target : rs_target st = ToActive;
  rp_dir : directory_of (rs_fs st) (ar_rolled a);
  rp_ascending : ascending (ar_rolled a);
  rp_active : ∃ disk, rs_fs st !! base = Some disk ∧ ar_active a = disk +:+ rs_buf st;
  rp_buf : (String.length (rs_buf st) ≤ BUF_CAPACITY)%nat;
  rp_size : rs_size st = Z.of_nat (String.length (ar_active a));
  rp_period : rs_period st = ar_period a;
  rp_is_period : is_period p (ar_period a);
  rp_before x : x ∈ ar_rolled a → av_ts x ≤ ar_period a
}.

(** The highest sequence is below [b]. *)
Definition sequences_below (b : Z) (a : Archive) : Prop := ∀ x, x ∈ ar_rolled a → av_seq x < b.

Lemma base_unrecognized fs l : directory_of fs l → is_Some (fs !! base) → parse_rolled parse_datetime parse_date captures p base = None.
Proof using Hnames.
  intros Hd Hb. destruct (parse_rolled _ _ _ p base) as [r|] eqn:E; [|done]. exfalso.
  destruct (do_rolled _ _ _ _ _ _ _ _ _ _ Hd base Hb) as (x & _ & Ex); [by eexists|]. by eapply base_not_entry.
Qed.

(** Changing the active file leaves the archive's directory. *)
Lemma directory_of_active fs l b : directory_of fs l → is_Some (fs !! base) → directory_of (<[base := b]> fs) l.
Proof using Hnames.
  intros Hd Hb. pose proof (base_unrecognized fs l Hd Hb) as Hu. pose proof Hd as [H1 H2 H3 H4]. split; [| |done|done].
  - intros x Hx. rewrite lookup_insert_ne by (intros E; symmetry in E; by eapply base_not_entry). by apply H1.
  - intros f Hf Hp. destruct (decide (f = base)) as [->|Hne]; [rewrite Hu in Hp; by destruct Hp|].
    rewrite lookup_insert_ne in Hf by done. by apply H2.
Qed.

Lemma next_sequence_entries l period : Forall (entry_ok p) l → is_period p period → next_seq period l < 2 ^ 32 →
  next_sequence fmt_date fmt_hour fmt_minute p (reverse (entry_rolled <$> l)) period = next_seq period l.
Proof using Hnames.
  intros Hok Hp Hb. unfold next_sequence. assert (E : rf_sequence <$> filter (λ f, format_period fmt_date fmt_hour fmt_minute p (rf_timestamp f) = format_period fmt_date fmt_hour fmt_minute p period)
    (reverse (entry_rolled <$> l)) ≡ₚ av_seq <$> filter (λ x, av_ts x = period) l).
  { rewrite reverse_Permutation. clear Hb. induction Hok as [|x l [Hx _] Hok IH]; [done|]. rewrite fmap_cons, !filter_cons. simpl.
    destruct (decide (av_ts x = period)) as [->|Hne].
    - rewrite decide_True by done. rewrite !fmap_cons. simpl. by rewrite IH.
    - rewrite decide_False; [exact IH|]. intros E. apply Hne. pose proof (nr_parse _ _ _ _ _ _ _ Hnames _ Hx) as E1.
      pose proof (nr_parse _ _ _ _ _ _ _ Hnames _ Hp) as E2. rewrite E, E2 in E1. by injection E1. }
  rewrite E. unfold next_seq in *. apply Z.mod_small. split; [|done]. pose proof (max_seq_nonneg (av_seq <$> filter (λ x, av_ts x = period) l)). lia.
Qed.

Lemma next_seq_above period l x : x ∈ l → av_ts x = period → av_seq x < next_seq period l.
Proof.
  intros Hx Ht. unfold next_seq. assert (av_seq x ≤ max_seq (av_seq <$> filter (λ x, av_ts x = period) l)); [|lia].
  apply max_seq_ge, list_elem_of_fmap. exists x. split; [done|]. by apply list_elem_of_filter.
Qed.

Lemma next_seq_le period l b : 0 < b → (∀ x, x ∈ l → av_seq x < b) → 0 < next_seq period l ≤ b.
Proof.
  intros Hb H. unfold next_seq. pose proof (max_seq_nonneg (av_seq <$> filter (λ x, av_ts x = period) l)).
  assert (max_seq (av_seq <$> filter (λ x, av_ts x = period) l) ≤ b - 1); [|lia]. apply max_seq_le; [lia|].
  intros y (x & -> & Hx)%list_elem_of_fmap. apply list_elem_of_filter in Hx as [_ Hx]. apply H in Hx. lia.
Qed.

(** ** A roll *)
Lemma substring_whole n s : (String.length s ≤ n)%nat → String.substring 0 n s = s.
Proof. apply substring_0_all. Qed.

Lemma flushed_active st a n : represents st a → (String.length (rs_buf st) ≤ n)%nat →
  directory_of (flush_to p st (String.substring 0 n (rs_buf st))) (ar_rolled a) ∧
  flush_to p st (String.substring 0 n (rs_buf st)) !! base = Some (ar_active a).
Proof using Hnames.
  intros [H1 H2 _ (disk & Hdisk & Hact) _ _ _ _ _] Hn. rewrite substring_whole by done. unfold flush_to, append_active. rewrite H1, Hdisk. simpl.
  split; [apply directory_of_active; [done|by eexists]|]. by rewrite lookup_insert_eq, Hact.
Qed.

(** Renaming the active file adds an entry. *)
Lemma renamed_entry fs l act x : directory_of fs l → fs !! base = Some act → entry_ok p x → av_compressed x = false → av_data x = act →
  (∀ y, y ∈ l → ¬ (av_ts y = av_ts x ∧ av_seq y = av_seq x)) →
  directory_of (<[base := EmptyString]> (rename_active p fs (name (av_ts x) (av_seq x)))) (l ++ [x]).
Proof using Hnames.
  intros Hd Hb Hok Hc Hdata Hnew. assert (Hu : parse_rolled parse_datetime parse_date captures p base = None) by (eapply base_unrecognized; [done|by eexists]).
  unfold rename_active. rewrite Hb. assert (En : entry_name x = name (av_ts x) (av_seq x)) by (unfold RollerArchive.entry_name; by rewrite Hc).
  rewrite <- En. pose proof Hd as [H1 H2 H3 H4].
  assert (Hne : ∀ y, y ∈ l → entry_name y ≠ entry_name x).
  { intros y Hy E. eapply (entry_name_inj _ _ _ _ _ _ _ Hnames) in E as (E1 & E2 & _); [by apply (Hnew y Hy)| |done]. by eapply do_entry_ok. }
  assert (Hbase : ∀ y, base ≠ entry_name y) by (intros y E; symmetry in E; by eapply base_not_entry). split.
  - intros y [Hy| ->%list_elem_of_singleton]%elem_of_app; rewrite lookup_insert_ne by done.
    + rewrite lookup_insert_ne by (intros E; symmetry in E; by eapply Hne). rewrite lookup_delete_ne by done. by apply H1.
    + rewrite lookup_insert_eq. unfold entry_data. by rewrite Hc, Hdata.
  - intros f Hf Hp. destruct (decide (f = base)) as [->|Hfb]; [rewrite Hu in Hp; by destruct Hp|]. rewrite lookup_insert_ne in Hf by done.
    destruct (decide (f = entry_name x)) as [->|Hfx]; [exists x; split; [set_solver|done]|]. rewrite lookup_insert_ne, lookup_delete_ne in Hf by done.
    destruct (H2 f Hf Hp) as (y & Hy & ->). exists y. split; [set_solver|done].
  - apply Forall_app. split; [done|by constructor].
  - intros y z [Hy| ->%list_elem_of_singleton]%elem_of_app [Hz| ->%list_elem_of_singleton]%elem_of_app E1 E2; [by apply H4| | |done].
    + destruct (Hnew y Hy). done.
    + destruct (Hnew z Hz). done.
Qed.

Lemma roll_refines io now st a b : represents st a → io_ok io (rs_buf st) → sequences_below b a → 0 < b < 2 ^ 32 →
  ar_period a ≤ calculate_period_start now p → in_years now →
  ∃ st', roll io now st = (st', true) ∧ represents st' (archive_roll p now a) ∧ sequences_below (b + 1) (archive_roll p now a) ∧
    rs_reports st' = rs_reports st.
Proof using Hnames.
  intros Hr (I1 & I2 & I3 & I4 & I5 & I6 & I7) Hb Hb32 Hnow Hyears. destruct (flushed_active st a _ Hr I2) as [Hd1 Hact1]. pose proof Hr as [R1 R2 R3 R4 R5 R6 R7 R8 R9].
  set (seq := next_seq (ar_period a) (ar_rolled a)). set (x := mk_archived (ar_period a) seq (ar_active a) false).
  destruct (next_seq_le (ar_period a) (ar_rolled a) b ltac:(lia) Hb) as [Hs1 Hs2]. fold seq in Hs1, Hs2.
  assert (Hxok : entry_ok p x) by (split; [done|simpl; lia]).
  assert (Hnew : ∀ y, y ∈ ar_rolled a → ¬ (av_ts y = av_ts x ∧ av_seq y = av_seq x)).
  { intros y Hy [E1 E2]. pose proof (next_seq_above (ar_period a) _ y Hy E1). simpl in E2. fold seq in H. lia. }
  unfold Roller.roll. rewrite I1, I3, I4, I5. cbn [negb]. set (fs1 := flush_to p st _) in *. rewrite andb_false_r.
  rewrite (find_entries _ _ _ _ _ _ gz p Hnames fs1 (ar_rolled a) Hd1 R3), R7.
  rewrite next_sequence_entries by (try apply (do_ok _ _ _ _ _ _ _ _ _ _ R2); try done; fold seq; lia). fold seq.
  pose proof (renamed_entry fs1 _ _ x Hd1 Hact1 Hxok eq_refl eq_refl Hnew) as Hd2. cbn [av_ts av_seq x] in Hd2.
  assert (Hopen : open_file p (rename_active p fs1 (name (ar_period a) seq)) = (<[base := EmptyString]> (rename_active p fs1 (name (ar_period a) seq)), 0)).
  { unfold open_file, rename_active. rewrite Hact1. rewrite lookup_insert_ne, lookup_delete_eq; [done|].
    intros E. eapply (base_not_entry fmt_date fmt_hour fmt_minute p x). unfold RollerArchive.entry_name. simpl. exact E. }
  rewrite Hopen. set (fs3 := <[base := EmptyString]> _) in *. set (l := ar_rolled a ++ [x]) in *.
  assert (Hasc : ascending l).
  { apply ascending_snoc. split; [done|]. intros y Hy. unfold av_lt. pose proof (R9 y Hy). destruct (decide (av_ts y = ar_period a)) as [E|]; [|simpl; lia].
    right. split; [done|]. pose proof (next_seq_above (ar_period a) _ y Hy E). done. }
  assert (Hsort : rf_sort (reverse (entry_rolled <$> ar_rolled a) ++ [mk_rolled (ar_period a) seq (name (ar_period a) seq) false]) = reverse (entry_rolled <$> l)).
  { apply sorted_entries; [done|]. rewrite reverse_Permutation. unfold l. by rewrite fmap_app. }
  rewrite Hsort. destruct (cleanup_entries io l fs3 (rs_reports st) I6 I7 Hd2 Hasc) as (fs4 & Ec & Hd4 & Hf4). rewrite Ec.
  eexists. split; [done|].
  assert (Hkeys : ∀ y, y ∈ ar_rolled (archive_roll p now a) → ∃ z, z ∈ l ∧ av_ts y = av_ts z ∧ av_seq y = av_seq z).
  { intros y Hy. simpl in Hy. fold seq in Hy. destruct (same_key_elem _ _ y (compressed_older_same p _) Hy) as (z & Hz & E1 & E2 & _).
    exists z. split; [|done]. destruct (retained_suffix p l) as (dr & El & _). unfold l, x in El |- *. rewrite El. by apply elem_of_app; right. }
  split_and!; [|intros y Hy|done].
  - split; cbn [rs_target rs_fs rs_buf rs_size rs_period ar_rolled ar_active ar_period archive_roll]; try done.
    + eapply same_key_ascending; [apply compressed_older_same|]. destruct (retained_suffix p l) as (dr & El & _). fold seq x l. rewrite El in Hasc.
      by apply ascending_app in Hasc as (_ & ? & _).
    + exists EmptyString. split; [|done]. rewrite Hf4; [unfold fs3; by rewrite lookup_insert_eq|]. intros y E. symmetry in E. by eapply base_not_entry.
    + simpl. lia.
    + by apply period_start_is_period.
    + intros y Hy. destruct (Hkeys y Hy) as (z & Hz & -> & _). apply elem_of_app in Hz as [Hz| ->%list_elem_of_singleton]; [|done].
      pose proof (R9 z Hz). lia.
  - destruct (Hkeys y Hy) as (z & Hz & _ & ->). apply elem_of_app in Hz as [Hz| ->%list_elem_of_singleton]; [apply Hb in Hz; lia|simpl; lia].
Qed.

(** ** A write *)
Definition archive_append (b : string) (a : Archive) : Archive := mk_archive (ar_rolled a) (ar_active a +:+ b) (ar_period a).

Definition archive_size_roll (now : Z) (b : string) (a : Archive) : Archive :=
  let a' := archive_append b a in
  match max_file_size p with
  | Some m => if decide ((0 < String.length b)%nat ∧ m ≤ Z.of_nat (String.length (ar_active a'))) then archive_roll p now a' else a'
  | None => a'
  end.

Definition archive_write (now : Z) (b : string) (a : Archive) : Archive :=
  archive_size_roll now b (if decide (ar_period a < calculate_period_start now p) then archive_roll p now a else a).

Definition with_size (n : Z) (st : RollerState) : RollerState :=
  mk_roller (rs_fs st) (rs_target st) (rs_buf st) n (rs_period st) (rs_reports st).

Lemma buf_write_append b st a : represents st a →
  represents (with_size (rs_size st + Z.of_nat (String.length b)) (buf_write p b st)) (archive_append b a) ∧
  rs_reports (buf_write p b st) = rs_reports st ∧ rs_size (buf_write p b st) = rs_size st.
Proof using Hnames.
  intros Hr. pose proof Hr as [R1 R2 R3 (disk & Hdisk & Hact) R5 R6 R7 R8 R9]. unfold buf_write, flush_to. rewrite R1. cbn [rs_target].
  set (fits := (_ ≤ BUF_CAPACITY)%nat).
  assert (G : ∃ fs1 buf1, (if decide fits then (rs_fs st, rs_buf st) else (append_active p (rs_fs st) (rs_buf st), EmptyString)) = (fs1, buf1) ∧
    directory_of fs1 (ar_rolled a) ∧ (∃ disk1, fs1 !! base = Some disk1 ∧ ar_active a = disk1 +:+ buf1) ∧
    (String.length buf1 ≤ BUF_CAPACITY)%nat ∧ (fits ∨ buf1 = EmptyString) ∧ (fits → buf1 = rs_buf st)).
  { case_decide as Hfit.
    - exists (rs_fs st), (rs_buf st). split_and!; [done|done|by exists disk|done|by left|done].
    - exists (append_active p (rs_fs st) (rs_buf st)), EmptyString. unfold append_active. rewrite Hdisk. simpl.
      split_and!; [done|apply directory_of_active; [done|by eexists]| |lia|by right|done].
      exists (disk +:+ rs_buf st). rewrite lookup_insert_eq. split; [done|]. by rewrite str_app_nil_r. }
  destruct G as (fs1 & buf1 & -> & Hd1 & (disk1 & Hdisk1 & Hact1) & Hb1 & Hor & Hsame).
  assert (Hsz : rs_size st + Z.of_nat (String.length b) = Z.of_nat (String.length (ar_active a +:+ b))) by (rewrite R6, str_length_app; lia).
  case_decide as Hbig; (split; [|done]); unfold with_size; cbn [rs_fs rs_target rs_buf rs_size rs_period rs_reports]; rewrite ?R1; split; cbn; try done.
  - unfold append_active. apply directory_of_active; [done|by eexists].
  - unfold append_active. rewrite Hdisk1. simpl. eexists. rewrite lookup_insert_eq. split; [done|].
    assert (buf1 = EmptyString) as ->; [|by rewrite Hact1, !str_app_nil_r].
    destruct Hor as [Hfit|]; [|done]. rewrite (Hsame Hfit). unfold fits in Hfit. destruct (rs_buf st); [done|]. cbn [String.length] in Hfit. lia.
  - exists disk1. split; [done|]. by rewrite Hact1, str_app_assoc.
  - rewrite str_length_app. destruct Hor as [Hfit| ->]; [rewrite (Hsame Hfit); exact Hfit|]. change (String.length EmptyString) with 0%nat. lia.
Qed.

(** A flush moves the buffer to the file, and changes nothing of the archive. *)
Lemma flush_writer_represents st a : represents st a → represents (flush_writer p st) a ∧ rs_buf (flush_writer p st) = EmptyString.
Proof using Hnames.
  intros Hr. split; [|done]. destruct (flushed_active st a (String.length (rs_buf st)) Hr (le_n _)) as [Hd Hact].
  rewrite substring_whole in Hd, Hact by done. destruct Hr as [R1 R2 R3 R4 R5 R6 R7 R8 R9]. split; cbn; try done; [|lia].
  exists (ar_active a). split; [done|]. by rewrite str_app_nil_r.
Qed.

Definition all_ok (io : Io) : Prop := io_ok io EmptyString ∧ (BUF_CAPACITY ≤ io_flush_old io)%nat.

Lemma all_ok_io io st a : all_ok io → represents st a → io_ok io (rs_buf st).
Proof. intros [(H1 & _ & H2) Hc] Hr. split; [done|]. split; [|done]. pose proof (rp_buf _ _ Hr). lia. Qed.

Lemma write_and_size_refines io now s st a b : represents st a → all_ok io → sequences_below b a → 0 < b < 2 ^ 32 →
  ar_period a ≤ calculate_period_start now p → in_years now →
  ∃ st', write_and_size io now s st = (st', true) ∧ represents st' (archive_size_roll now s a) ∧ sequences_below (b + 1) (archive_size_roll now s a) ∧
    rs_reports st' = rs_reports st.
Proof using Hnames.
  intros Hr Hio Hb Hb32 Hnow Hyears. destruct (buf_write_append s st a Hr) as (Hw & Hrep & Hsz).
  assert (Hb' : sequences_below b (archive_append s a)) by exact Hb.
  assert (Hb1 : sequences_below (b + 1) (archive_append s a)) by (intros x Hx; apply Hb in Hx; lia).
  unfold Roller.write_and_size, archive_size_roll. case_decide as Hpos.
  - fold (with_size (rs_size (buf_write p s st) + Z.of_nat (String.length s)) (buf_write p s st)). rewrite Hsz.
    set (st2 := with_size _ _) in *. destruct (max_file_size p) as [m|]; [|by exists st2].
    pose proof (rp_size _ _ Hw) as E. cbn [rs_size] in *. rewrite E. destruct (decide (m ≤ _)) as [Hm|Hm].
    + rewrite decide_True by (split; [lia|done]).
      destruct (roll_refines io now st2 (archive_append s a) b Hw) as (st' & H1 & H2 & H3 & H4); [by eapply all_ok_io|done|done|done|done|].
      exists st'. split_and!; [done|done|done|]. rewrite H4. done.
    + rewrite decide_False by (intros [_ ?]; done). by exists st2.
  - assert (String.length s = 0%nat) as Hl by lia. exists (buf_write p s st).
    assert (Hsame : with_size (rs_size st + Z.of_nat (String.length s)) (buf_write p s st) = buf_write p s st).
    { rewrite Hl, Z.add_0_r, <- Hsz. by destruct (buf_write p s st). }
    rewrite Hsame in Hw. destruct (max_file_size p) as [m|]; [rewrite decide_False by lia|]; done.
Qed.

Lemma write_refines io1 io2 now s st a b : represents st a → all_ok io1 → all_ok io2 → sequences_below b a → 0 < b → b + 1 < 2 ^ 32 →
  ar_period a ≤ calculate_period_start now p → in_years now →
  ∃ st', write_internal io1 io2 now s st = (st', true) ∧ represents st' (archive_write now s a) ∧ sequences_below (b + 2) (archive_write now s a) ∧
    rs_reports st' = rs_reports st.
Proof using Hnames.
  intros Hr Hio1 Hio2 Hb Hb0 Hb32 Hnow Hyears. unfold Roller.write_internal, archive_write. rewrite (rp_period _ _ Hr). case_decide as Hlt.
  - destruct (roll_refines io1 now st a b Hr) as (st1 & -> & Hr1 & Hb1 & Hrep); [by eapply all_ok_io|done|lia|done|done|].
    destruct (write_and_size_refines io2 now s st1 _ (b + 1) Hr1 Hio2 Hb1) as (st' & H1 & H2 & H3 & H4); [lia|done|done|].
    exists st'. split_and!; [done|done| |congruence]. by replace (b + 2) with (b + 1 + 1) by lia.
  - destruct (write_and_size_refines io2 now s st a b Hr Hio2 Hb) as (st' & H1 & H2 & H3 & H4); [lia|done|done|]. exists st'.
    split_and!; [done|done| |done]. intros x Hx. apply H3 in Hx. lia.
Qed.

(** ** Runs of writes *)
Record Write := mk_write { w_now : Z; w_bytes : string; w_io_time : Io; w_io_size : Io }.

Definition run_write (st : RollerState * bool) (w : Write) : RollerState * bool :=
  let '(st', ok) := write_internal (w_io_time w) (w_io_size w) (w_now w) (w_bytes w) st.1 in (st', st.2 && ok).

Definition run_writes (st : RollerState) (ws : list Write) : RollerState * bool := foldl run_write (st, true) ws.

Definition archive_run (a : Archive) (ws : list Write) : Archive := foldl (λ a w, archive_write (w_now w) (w_bytes w) a) a ws.

(** The clock does not go back. *)
Fixpoint times_from (t : Z) (ws : list Write) : Prop :=
  match ws with [] => True | w :: ws' => t ≤ w_now w ∧ times_from (w_now w) ws' end.

(** The clock reads a time of the years 0 to 9999, and every operation on a file succeeds. *)
Definition writes_ok (ws : list Write) : Prop := Forall (λ w, in_years (w_now w) ∧ all_ok (w_io_time w) ∧ all_ok (w_io_size w)) ws.

Lemma archive_write_period now s a : ar_period a ≤ calculate_period_start now p → ar_period (archive_write now s a) ≤ calculate_period_start now p.
Proof. intros H. unfold archive_write, archive_size_roll. destruct (max_file_size p); repeat case_decide; simpl; done. Qed.

Lemma archive_write_stream now s a : ∃ dropped, stream a +:+ s = dropped +:+ stream (archive_write now s a) ∧
  (max_retained_sequences p = None → dropped = EmptyString).
Proof.
  unfold archive_write. set (a1 := if decide (ar_period a < calculate_period_start now p) then archive_roll p now a else a).
  assert (G1 : ∃ d, stream a = d +:+ stream a1 ∧ (max_retained_sequences p = None → d = EmptyString)).
  { unfold a1. case_decide; [apply archive_roll_stream|by exists EmptyString]. }
  assert (Happ : stream a1 +:+ s = stream (archive_append s a1)) by (unfold stream; simpl; by rewrite str_app_assoc).
  assert (G2 : ∃ d, stream (archive_append s a1) = d +:+ stream (archive_size_roll now s a1) ∧ (max_retained_sequences p = None → d = EmptyString)).
  { unfold archive_size_roll. destruct (max_file_size p) as [m|]; [case_decide; [apply archive_roll_stream|]|]; by exists EmptyString. }
  destruct G1 as (d1 & E1 & N1), G2 as (d2 & E2 & N2). exists (d1 +:+ d2). split.
  - by rewrite E1, <- str_app_assoc, Happ, E2, str_app_assoc.
  - intros E. by rewrite (N1 E), (N2 E).
Qed.

Lemma archive_write_retained n now s a : max_retained_sequences p = Some n → (length (ar_rolled a) ≤ Z.to_nat n)%nat →
  (length (ar_rolled (archive_write now s a)) ≤ Z.to_nat n)%nat.
Proof.
  intros E H. assert (G : ∀ a', (length (ar_rolled (archive_roll p now a')) ≤ Z.to_nat n)%nat) by (intros a'; by apply retained_length).
  unfold archive_write, archive_size_roll. destruct (max_file_size p); repeat case_decide; first [apply G|simpl; apply G|done].
Qed.

Lemma run_writes_cons st ok ws : foldl run_write (st, ok) ws = ((run_writes st ws).1, ok && (run_writes st ws).2).
Proof.
  unfold run_writes. revert st ok. induction ws as [|w ws IH]; intros st ok; [simpl; by rewrite andb_true_r|]. cbn [foldl].
  unfold run_write at 2 4 6. cbn [fst snd]. destruct (write_internal _ _ _ _ st) as [st' ok']. rewrite IH, (IH st' (true && ok')). simpl.
  by rewrite andb_assoc.
Qed.

Lemma roller_run_refines ws st a b t : represents st a → writes_ok ws → times_from t ws → ar_period a ≤ calculate_period_start t p →
  sequences_below b a → 0 < b → b + 2 * Z.of_nat (length ws) < 2 ^ 32 →
  ∃ st', run_writes st ws = (st', true) ∧ represents st' (archive_run a ws) ∧ rs_reports st' = rs_reports st.
Proof using Hnames.
  unfold archive_run. revert st a b t. induction ws as [|w ws IH]; intros st a b t Hr Hok Ht Hper Hb Hb0 Hb32; [by exists st|].
  apply Forall_cons in Hok as [(Hyears & Hio1 & Hio2) Hok]. destruct Ht as [Ht Hts]. cbn [length] in Hb32.
  assert (Hper' : ar_period a ≤ calculate_period_start (w_now w) p) by (pose proof (period_start_mono p t (w_now w) Ht); lia).
  destruct (write_refines (w_io_time w) (w_io_size w) (w_now w) (w_bytes w) st a b Hr Hio1 Hio2 Hb Hb0) as (st1 & E1 & Hr1 & Hb1 & Hrep); [lia|done|done|].
  destruct (IH st1 _ (b + 2) (w_now w) Hr1 Hok Hts) as (st' & E & Hr' & Hrep'); [by apply archive_write_period|done|lia|lia|].
  exists st'. split_and!; [|done|congruence]. unfold run_writes in *. cbn [foldl]. unfold run_write at 2. cbn [fst snd]. rewrite E1. exact E.
Qed.

Lemma archive_run_stream a ws : ∃ dropped, stream a +:+ concat_str (w_bytes <$> ws) = dropped +:+ stream (archive_run a ws) ∧
  (max_retained_sequences p = None → dropped = EmptyString).
Proof.
  unfold archive_run. revert a. induction ws as [|w ws IH]; intros a; [exists EmptyString; simpl; by rewrite str_app_nil_r|]. cbn [foldl].
  destruct (archive_write_stream (w_now w) (w_bytes w) a) as (d1 & E1 & N1). destruct (IH (archive_write (w_now w) (w_bytes w) a)) as (d2 & E2 & N2).
  exists (d1 +:+ d2). split.
  - rewrite fmap_cons. change (concat_str (w_bytes w :: (w_bytes <$> ws))) with (w_bytes w +:+ concat_str (w_bytes <$> ws)).
    by rewrite str_app_assoc, E1, <- str_app_assoc, E2, str_app_assoc.
  - intros E. by rewrite (N1 E), (N2 E).
Qed.

Lemma archive_run_retained n a ws : max_retained_sequences p = Some n → (length (ar_rolled a) ≤ Z.to_nat n)%nat →
  (length (ar_rolled (archive_run a ws)) ≤ Z.to_nat n)%nat.
Proof.
  intros E. unfold archive_run. revert a. induction ws as [|w ws IH]; intros a H; [done|]. cbn [foldl]. by apply IH, archive_write_retained.
Qed.

(** The roller opened on a directory. *)
Lemma new_roller_represents now fs l : directory_of fs l → ascending l → (∀ x, x ∈ l → av_ts x ≤ calculate_period_start now p) →
  parse_rolled parse_datetime parse_date captures p base = None → in_years now →
  represents (new_roller p now fs) (mk_archive l (default EmptyString (fs !! base)) (calculate_period_start now p)).
Proof using Hnames.
  intros Hd Ha Hts Hbase Hyears. unfold new_roller, open_file. destruct (fs !! base) as [disk|] eqn:E; split; cbn; try done.
  - exists disk. by rewrite str_app_nil_r.
  - unfold BUF_CAPACITY. lia.
  - by apply period_start_is_period.
  - pose proof Hd as [H1 H2 H3 H4]. split; [| |done|done].
    + intros x Hx. rewrite lookup_insert_ne by (intros Ex; symmetry in Ex; by eapply base_not_entry). by apply H1.
    + intros f Hf Hp. destruct (decide (f = base)) as [->|Hne]; [rewrite Hbase in Hp; by destruct Hp|]. rewrite lookup_insert_ne in Hf by done. by apply H2.
  - exists EmptyString. by rewrite lookup_insert_eq.
  - unfold BUF_CAPACITY. lia.
  - by apply period_start_is_period.
Qed.
End Refinement.

(** ** Rolling loses nothing but the oldest files (for logging/src/roller.rs)

    The theorem on runs of writes, a policy to which it applies, and what happens outside of its hypotheses. *)

(** C11: Rolling keeps what is written, in order.  For a policy whose rolled names are read back ([names_recognized], of the years 0 to 9999: dates that parse as they were
    printed, names the expression finds, a compressed suffix that is not empty and ends no uncompressed name), opened on a directory whose recognized files
    are an archive of its own rolled files (none of another appender), with sequences that stay below [2^32], and written to by a
    clock that stays in those years and does not go back and with no failure of the file system, the roller succeeds in every write; after it the rolled files,
    compressed or not, in the order of their periods and sequences, and the active file with the buffer hold what the directory held and what was
    written, in that order, without its beginning that the retention dropped; without a retention nothing is dropped, and with one
    the directory has at most that many rolled files. *)
Theorem roller_keeps_stream fmt_date fmt_hour fmt_minute parse_datetime parse_date captures gz p now fs l b ws :
  names_recognized fmt_date fmt_hour fmt_minute parse_datetime parse_date captures p →
  directory_of fmt_date fmt_hour fmt_minute parse_datetime parse_date captures gz p fs l → ascending l →
  (∀ x, x ∈ l → av_ts x ≤ calculate_period_start now p ∧ av_seq x < b) →
  parse_rolled parse_datetime parse_date captures p (base_name p) = None → in_years now →
  0 < b → b + 2 * Z.of_nat (length ws) < 2 ^ 32 → writes_ok ws → times_from now ws →
  ∃ st a dropped,
    run_writes fmt_date fmt_hour fmt_minute parse_datetime parse_date captures gz p (new_roller p now fs) ws = (st, true) ∧
    represents fmt_date fmt_hour fmt_minute parse_datetime parse_date captures gz p st a ∧
    data_of l +:+ default EmptyString (fs !! base_name p) +:+ concat_str (w_bytes <$> ws) = dropped +:+ stream a ∧
    (max_retained_sequences p = None → dropped = EmptyString) ∧
    (∀ n, max_retained_sequences p = Some n → (length l ≤ Z.to_nat n)%nat → (length (ar_rolled a) ≤ Z.to_nat n)%nat).
Proof.
  intros Hn Hd Ha Hl Hbase Hyears Hb Hb32 Hok Ht.
  pose proof (new_roller_represents _ _ _ _ _ _ gz p Hn now fs l Hd Ha (λ x Hx, proj1 (Hl x Hx)) Hbase Hyears) as Hr.
  destruct (roller_run_refines _ _ _ _ _ _ gz p Hn ws _ _ b now Hr Hok Ht) as (st & E & Hr' & _); [simpl; lia|intros x Hx; by apply Hl|done|done|].
  destruct (archive_run_stream p (mk_archive l (default EmptyString (fs !! base_name p)) (calculate_period_start now p)) ws) as (d & Es & Hdn).
  eexists st, _, d. split_and!; [exact E|exact Hr'| |exact Hdn|].
  - unfold stream at 1 in Es. simpl in Es. by rewrite <- Es, str_app_assoc.
  - intros n En Hlen. by apply archive_run_retained.
Qed.

(** ** Dates, and a policy

    A concrete calendar, as [chrono]'s, and a matcher of [ROLLED_FILE_REGEX], to which the theorem applies: [minutely], rolled at four bytes as well, two files kept,
    the newest not compressed. *)
Module Calendar.
(** The days before a year, from the first of January of the year 0; the year of a day. *)
Definition days_before (y : Z) : Z := 365 * y + (y + 3) / 4 - (y + 99) / 100 + (y + 399) / 400.

Definition year_of (n : Z) : Z :=
  let y := 400 * n / 146097 in if n <? days_before y then y - 1 else if days_before (y + 1) <=? n then y + 1 else y.

Definition is_leap (y : Z) : bool := (y mod 4 =? 0) && (negb (y mod 100 =? 0) || (y mod 400 =? 0)).

(** The days of a year before a month. *)
Definition month_start (leap : bool) (m : Z) : Z :=
  nth (Z.to_nat (m - 1)) [0; 31; 59; 90; 120; 151; 181; 212; 243; 273; 304; 334] 0 + (if leap && (2 <? m) then 1 else 0).

Definition month_of (leap : bool) (doy : Z) : Z :=
  foldl (λ m k, if month_start leap k <=? doy then k else m) 1 [2; 3; 4; 5; 6; 7; 8; 9; 10; 11; 12].

Definition civil (n : Z) : Z * Z * Z :=
  let y := year_of n in let doy := n - days_before y in let m := month_of (is_leap y) doy in (y, m, doy - month_start (is_leap y) m + 1).

Definition day_number (c : Z * Z * Z) : Z := let '(y, m, d) := c in days_before y + month_start (is_leap y) m + d - 1.

Lemma day_number_civil n : day_number (civil n) = n.
Proof. unfold day_number, civil. lia. Qed.

Lemma year_of_spec n : 0 ≤ n < 3652425 → days_before (year_of n) ≤ n < days_before (year_of n + 1) ∧ 0 ≤ year_of n ≤ 9999.
Proof.
  intros Hn. unfold year_of. set (y := 400 * n / 146097). assert (Hy : 146097 * y ≤ 400 * n < 146097 * y + 146097) by (pose proof (Z.div_mod (400 * n) 146097 ltac:(lia)); pose proof (Z.mod_pos_bound (400 * n) 146097 ltac:(lia)); unfold y; lia).
  clearbody y. destruct (Z.ltb_spec n (days_before y)) as [H|H]; [|destruct (Z.leb_spec (days_before (y + 1)) n) as [H1|H1]];
    unfold days_before in *; Z.to_euclidean_division_equations; lia.
Qed.

Lemma year_length y : days_before (y + 1) - days_before y ≤ 365 + (if is_leap y then 1 else 0).
Proof.
  unfold is_leap, days_before. destruct (Z.eqb_spec (y mod 4) 0), (Z.eqb_spec (y mod 100) 0), (Z.eqb_spec (y mod 400) 0); simpl;
    Z.to_euclidean_division_equations; lia.
Qed.

Lemma civil_range n : 0 ≤ n < 3652425 → let '(y, m, d) := civil n in 0 ≤ y < 10000 ∧ 0 ≤ m < 100 ∧ 0 ≤ d < 100.
Proof.
  intros Hn. destruct (year_of_spec n Hn) as [Hy Hr]. pose proof (year_length (year_of n)) as Hl. unfold civil. split; [lia|].
  set (doy := n - days_before (year_of n)) in *. assert (Hd : 0 ≤ doy < 365 + (if is_leap (year_of n) then 1 else 0)) by (unfold doy; lia). clearbody doy.
  clear Hy Hl. destruct (is_leap (year_of n)); unfold month_of; cbn [foldl];
    repeat match goal with |- context [month_start ?l ?m <=? doy] => let v := eval vm_compute in (month_start l m) in change (month_start l m) with v end;
    repeat match goal with |- context [?a <=? doy] => destruct (Z.leb_spec a doy); cbv beta iota; try lia end;
    match goal with |- context [month_start ?l ?m] => let v := eval vm_compute in (month_start l m) in change (month_start l m) with v end; lia.
Qed.

(** *** Printing and parsing: [%Y-%m-%d], with [_%H-%M-%S] or without *)
Definition d2 (n : Z) : string := String (digit_char (n / 10)) (String (digit_char (n mod 10)) EmptyString).
Definition d4 (n : Z) : string := d2 (n / 100) +:+ d2 (n mod 100).

Definition num2 (s : string) : option (Z * string) :=
  match s with
  | String a (String b r) => x ← digit a; y ← digit b; Some (10 * x + y, r)
  | _ => None
  end.

Definition num4 (s : string) : option (Z * string) := '(x, r) ← num2 s; '(y, r) ← num2 r; Some (100 * x + y, r).

(** [%Y-%m-%d] and [_%H-%M-%S] at the head of a text. *)
Definition read_date (s : string) : option (Z * Z * Z * string) :=
  '(y, s) ← num4 s; s ← strip_prefix s "-"; '(m, s) ← num2 s; s ← strip_prefix s "-"; '(d, s) ← num2 s; Some (y, m, d, s).

Definition read_time (s : string) : option (Z * Z * Z * string) :=
  s ← strip_prefix s "_"; '(h, s) ← num2 s; s ← strip_prefix s "-"; '(mi, s) ← num2 s; s ← strip_prefix s "-"; '(sec, s) ← num2 s; Some (h, mi, sec, s).

Definition day_ns : Z := 86400 * SECOND.

(** A date is refused unless it is one of the calendar. *)
Definition date_ns (c : Z * Z * Z) : option Z :=
  if decide (civil (day_number c) = c) then Some ((day_number c - 719528) * day_ns) else None.

Definition parse_date (s : string) : option Z :=
  '(y, m, d, s) ← read_date s; if decide (s = EmptyString) then date_ns (y, m, d) else None.

Definition parse_datetime (s : string) : option Z :=
  '(y, m, d, s) ← read_date s; '(h, mi, sec, s) ← read_time s; t ← date_ns (y, m, d);
  if decide (s = EmptyString ∧ h < 24 ∧ mi < 60 ∧ sec < 60) then Some (t + (3600 * h + 60 * mi + sec) * SECOND) else None.

Definition date_of (t : Z) : Z * Z * Z := civil (t / day_ns + 719528).

Definition show_date (c : Z * Z * Z) : string := let '(y, m, d) := c in d4 y +:+ "-" +:+ d2 m +:+ "-" +:+ d2 d.

Definition fmt_date (t : Z) : string := show_date (date_of t).

Definition show_time (h mi sec : Z) : string := "_" +:+ d2 h +:+ "-" +:+ d2 mi +:+ "-" +:+ d2 sec.
Definition fmt_hour (t : Z) : string := fmt_date t +:+ show_time ((t / (3600 * SECOND)) mod 24) 0 0.
Definition fmt_minute (t : Z) : string := fmt_date t +:+ show_time ((t / (3600 * SECOND)) mod 24) ((t / (60 * SECOND)) mod 60) 0.

Lemma num2_d2 n r : 0 ≤ n < 100 → num2 (d2 n +:+ r) = Some (n, r).
Proof.
  intros Hn. change (d2 n +:+ r) with (String (digit_char (n / 10)) (String (digit_char (n mod 10)) r)). unfold num2.
  rewrite !digit_digit_char by (Z.to_euclidean_division_equations; lia). cbn. do 2 f_equal. Z.to_euclidean_division_equations; lia.
Qed.

Lemma num4_d4 n r : 0 ≤ n < 10000 → num4 (d4 n +:+ r) = Some (n, r).
Proof.
  intros Hn. unfold num4, d4. rewrite <- str_app_assoc. rewrite num2_d2 by (Z.to_euclidean_division_equations; lia). cbn [mbind option_bind].
  rewrite num2_d2 by (Z.to_euclidean_division_equations; lia). cbn. do 2 f_equal. Z.to_euclidean_division_equations; lia.
Qed.

Definition date_ok (c : Z * Z * Z) : Prop := let '(y, m, d) := c in 0 ≤ y < 10000 ∧ 0 ≤ m < 100 ∧ 0 ≤ d < 100.

Lemma strip_dash_app s : strip_prefix ("-" +:+ s) "-" = Some s.
Proof. apply (strip_char "-"). Qed.

Lemma read_show_date c r : date_ok c → read_date (show_date c +:+ r) = Some (c, r).
Proof.
  destruct c as [[y m] d]. intros (Hy & Hm & Hd). unfold read_date, show_date. rewrite <- !str_app_assoc. rewrite num4_d4 by done. cbn [mbind option_bind].
  rewrite strip_dash_app. cbn [mbind option_bind]. rewrite num2_d2 by done. cbn [mbind option_bind]. rewrite strip_dash_app. cbn [mbind option_bind].
  by rewrite num2_d2.
Qed.

Lemma read_show_time h mi sec r : 0 ≤ h < 100 → 0 ≤ mi < 100 → 0 ≤ sec < 100 → read_time (show_time h mi sec +:+ r) = Some (h, mi, sec, r).
Proof.
  intros Hh Hm Hs. unfold read_time, show_time. rewrite <- !str_app_assoc. change ("_" +:+ ?s) with (String "_" s). rewrite (strip_char "_"). cbn [mbind option_bind].
  rewrite num2_d2 by done. cbn [mbind option_bind]. rewrite strip_dash_app. cbn [mbind option_bind]. rewrite num2_d2 by done. cbn [mbind option_bind].
  rewrite strip_dash_app. cbn [mbind option_bind]. by rewrite num2_d2.
Qed.

Lemma date_of_ok t : in_years t → date_ok (date_of t).
Proof.
  intros H. apply civil_range. unfold in_years, YEAR_0, YEAR_10000, day_ns, SECOND in *. Z.to_euclidean_division_equations; lia.
Qed.

Lemma date_of_ns t : date_ns (date_of t) = Some (t / day_ns * day_ns).
Proof. unfold date_ns, date_of. rewrite day_number_civil. rewrite decide_True by done. f_equal. lia. Qed.

Lemma parse_parts s c r h mi z : read_date s = Some (c, r) → read_time r = Some (h, mi, 0, EmptyString) → date_ns c = Some z → h < 24 → mi < 60 →
  parse_datetime s = Some (z + (3600 * h + 60 * mi + 0) * SECOND).
Proof.
  intros Hd Ht Hz Hh Hm. unfold parse_datetime. rewrite Hd. destruct c as [[y m] d]. cbn [mbind option_bind]. revert Hz. generalize (date_ns (y, m, d)).
  intros o ->. rewrite Ht. cbn [mbind option_bind]. by rewrite decide_True.
Qed.

Lemma minute_parts t : t mod (60 * SECOND) = 0 →
  t / day_ns * day_ns + (3600 * ((t / (3600 * SECOND)) mod 24) + 60 * ((t / (60 * SECOND)) mod 60)) * SECOND = t.
Proof.
  intros Ht. apply Z_div_exact_full_2 in Ht; [|done]. set (q := t / (60 * SECOND)) in *.
  assert (E1 : t / (3600 * SECOND) = q / 60) by (unfold q; rewrite Z.div_div by done; f_equal).
  assert (E2 : t / day_ns = q / 1440) by (unfold q; rewrite Z.div_div by done; f_equal).
  rewrite E1, E2. clearbody q. assert (Eq : 1440 * (q / 1440) + 60 * ((q / 60) mod 24) + q mod 60 = q) by (Z.to_euclidean_division_equations; lia).
  clear E1 E2. unfold day_ns, SECOND in *. lia.
Qed.

(** A minute is read back. *)
Lemma parse_minute t : in_years t → t mod (60 * SECOND) = 0 → parse_datetime (fmt_minute t) = Some t.
Proof.
  intros Hy Ht. unfold fmt_minute, fmt_date. assert (H24 : 0 ≤ (t / (3600 * SECOND)) mod 24 < 24) by (by apply Z.mod_pos_bound).
  assert (H60 : 0 ≤ (t / (60 * SECOND)) mod 60 < 60) by (by apply Z.mod_pos_bound). pose proof (minute_parts t Ht) as Hp.
  revert H24 H60 Hp. generalize ((t / (3600 * SECOND)) mod 24), ((t / (60 * SECOND)) mod 60). intros h mi H24 H60 Hp.
  rewrite (parse_parts _ (date_of t) (show_time h mi 0) h mi (t / day_ns * day_ns)); [by rewrite Z.add_0_r, Hp|by apply read_show_date, date_of_ok| | |lia|lia].
  - pose proof (read_show_time h mi 0 EmptyString ltac:(lia) ltac:(lia) ltac:(lia)) as Hr. by rewrite str_app_nil_r in Hr.
  - apply date_of_ns.
Qed.

(** *** The expression: a dot, a date with a time or without, a dot, digits *)
Definition read_seq (s : string) : option string :=
  s ← strip_prefix s "."; match span_str is_digit s with (EmptyString, _) => None | (ds, _) => Some ds end.

Definition match_here (s : string) : option (string * string) :=
  s ← strip_prefix s ".";
  '(_, r) ← read_date s;
  match read_seq r with
  | Some ds => Some (String.substring 0 10 s, ds)
  | None => '(_, r) ← read_time r; ds ← read_seq r; Some (String.substring 0 19 s, ds)
  end.

Fixpoint captures (s : string) : option (string * string) :=
  match s with
  | EmptyString => None
  | String _ s' => match match_here s with Some x => Some x | None => captures s' end
  end.

Lemma show_digits_digits fuel n s : 0 ≤ n → span_str is_digit (show_digits fuel n +:+ ".log" +:+ s) = (show_digits fuel n, ".log" +:+ s).
Proof.
  intros Hn. assert (G : ∀ t, span_str is_digit (show_digits fuel n +:+ t) = let '(a, b) := span_str is_digit t in (show_digits fuel n +:+ a, b)).
  { revert n Hn. induction fuel as [|fuel IH]; intros n Hn t; cbn [show_digits].
    - unfold char_str. rewrite !str_app_cons. cbn [span_str]. assert (is_digit (digit_char (n mod 10)) = true) as ->.
      { unfold is_digit. rewrite digit_digit_char by (apply Z.mod_pos_bound; lia). done. }
      change (EmptyString +:+ t) with t. by destruct (span_str is_digit t).
    - case_decide as Hlt.
      + unfold char_str. rewrite !str_app_cons. cbn [span_str]. assert (is_digit (digit_char n) = true) as -> by (unfold is_digit; by rewrite digit_digit_char by lia).
        change (EmptyString +:+ t) with t. by destruct (span_str is_digit t).
      + rewrite <- str_app_assoc. rewrite IH by (apply Z.div_pos; lia). unfold char_str. rewrite str_app_cons. cbn [span_str].
        assert (is_digit (digit_char (n mod 10)) = true) as -> by (unfold is_digit; by rewrite digit_digit_char by (apply Z.mod_pos_bound; lia)).
        change (EmptyString +:+ t) with t. destruct (span_str is_digit t) as [a b]. by rewrite <- str_app_assoc. }
  rewrite G. change (span_str is_digit (".log" +:+ s)) with (EmptyString, ".log" +:+ s). cbv beta iota. by rewrite str_app_nil_r.
Qed.

Lemma match_minute t seq : in_years t → 0 ≤ seq → match_here ("." +:+ fmt_minute t +:+ "." +:+ show_u32 seq +:+ ".log") = Some (fmt_minute t, show_u32 seq).
Proof.
  intros Hy Hseq. set (tail := "." +:+ show_u32 seq +:+ ".log"). change ("." +:+ fmt_minute t +:+ tail) with (String "." (fmt_minute t +:+ tail)).
  unfold match_here. rewrite (strip_char "."). cbn [mbind option_bind].
  set (h := (t / (3600 * SECOND)) mod 24). set (mi := (t / (60 * SECOND)) mod 60).
  assert (Hh : 0 ≤ h < 24) by (apply Z.mod_pos_bound; lia). assert (Hm : 0 ≤ mi < 60) by (apply Z.mod_pos_bound; lia).
  unfold fmt_minute, fmt_date. fold h mi. rewrite <- str_app_assoc.
  rewrite read_show_date by (by apply date_of_ok). cbn [mbind option_bind].
  assert (Hno : read_seq (show_time h mi 0 +:+ tail) = None) by done. rewrite Hno. rewrite read_show_time by lia. cbn [mbind option_bind].
  assert (Hsq : read_seq tail = Some (show_u32 seq)).
  { change tail with (String "." (show_u32 seq +:+ ".log")). unfold read_seq. rewrite (strip_char "."). cbn [mbind option_bind]. pose proof (show_digits_digits 10 seq EmptyString Hseq) as E. rewrite str_app_nil_r in E.
    fold (show_u32 seq) in E. rewrite E. unfold show_u32. destruct (show_digits_head 10 seq Hseq) as (k & s & _ & ->). done. }
  rewrite Hsq. cbn [mbind option_bind]. by do 2 f_equal.
Qed.
End Calendar.

Module SampleRoller.
Import Calendar.

Definition policy (granularity prefix csuffix : string) (retained : option Z) (uncompressed : Z) : RollingPolicyInternal :=
  mk_policy "logs" prefix ".log" granularity (Some 4) retained (Some (mk_compression csuffix uncompressed)).

Definition pol : RollingPolicyInternal := policy "minutely" "t" ".gz" (Some 2) 1.
Definition never : RollingPolicyInternal := policy "never" "t" ".gz" (Some 2) 1.

Definition gz (s : string) : string := "z" +:+ s.

Definition write (now : Z) (b : string) : Write := mk_write (now * SECOND) b good_io good_io.

(** The 6th of May 2024, 07:08:00, in seconds. *)
Definition morning : Z := 1714979280.

Definition run (p : RollingPolicyInternal) (fs : gmap string string) (ws : list Write) : RollerState * bool :=
  run_writes fmt_date fmt_hour fmt_minute parse_datetime parse_date captures gz p (new_roller p (morning * SECOND) fs) ws.

Lemma captures_name t seq : in_years t → 0 ≤ seq → captures (rolled_name fmt_date fmt_hour fmt_minute pol t seq) = Some (fmt_minute t, show_u32 seq).
Proof.
  intros Hy H. change (rolled_name fmt_date fmt_hour fmt_minute pol t seq) with (String "t" ("." +:+ fmt_minute t +:+ "." +:+ show_u32 seq +:+ ".log")).
  pose proof (match_minute t seq Hy H) as Hm. change ("." +:+ fmt_minute t +:+ "." +:+ show_u32 seq +:+ ".log") with (String "." (fmt_minute t +:+ "." +:+ show_u32 seq +:+ ".log")) in *.
  cbn [captures]. rewrite Hm. done.
Qed.

Lemma minute_period t : is_period pol t → t mod (60 * SECOND) = 0 ∧ in_years t.
Proof.
  intros [H Hy]. split; [|done]. rewrite calculate_period_start_spec in H. change (period_length pol) with (Some (60 * SECOND)) in H. cbv iota in H. lia.
Qed.

Lemma recognized : names_recognized fmt_date fmt_hour fmt_minute parse_datetime parse_date captures pol.
Proof.
  split.
  - intros t [Hm Hy]%minute_period. unfold parse_datetime_from_str. change (format_period fmt_date fmt_hour fmt_minute pol t) with (fmt_minute t).
    by rewrite parse_minute.
  - intros t seq [_ Hy]%minute_period Hs. apply captures_name; [done|lia].
  - done.
  - intros t seq _ _. apply not_true_is_false. intros (r & E)%ends_with_true.
    change (compressed_suffix pol) with ".gz" in E. apply (f_equal str_rev) in E. unfold rolled_name in E. rewrite !str_rev_app_dist in E.
    change (str_rev (file_name_suffix pol)) with "gol." in E. change (str_rev ".gz") with "zg." in E. rewrite <- !str_app_assoc in E.
    rewrite !str_app_cons in E. discriminate.
Qed.

Lemma empty_directory : directory_of fmt_date fmt_hour fmt_minute parse_datetime parse_date captures gz pol ∅ [].
Proof.
  split; [by intros x []%elem_of_nil| |constructor|by intros x y []%elem_of_nil]. intros f [x Hx]. by rewrite lookup_empty in Hx.
Qed.

(** Writes in three minutes; the third makes the file large enough to roll it by its size. *)
Definition writes : list Write := [write morning "aa"; write (morning + 61) "b"; write (morning + 62) "cccc"; write (morning + 63) "e"; write (morning + 130) "dd"].
End SampleRoller.

(** Three rolls: the oldest file is gone, the next is compressed, the newest is not, and the active file has the last write. *)
Example sample_rolls :
  let '(st, ok) := SampleRoller.run SampleRoller.pol ∅ SampleRoller.writes in
  ok = true ∧ rs_buf st = "dd" ∧ size (rs_fs st) = 3%nat ∧
  ((rs_fs st !!.) <$> ["t.log"; "t.2024-05-06_07-09-00.1.log.gz"; "t.2024-05-06_07-09-00.2.log"]) = [Some EmptyString; Some "zbcccc"; Some "e"].
Proof. by vm_compute. Qed.

Lemma roller_keeps_stream_witness :
  ∃ st a dropped, SampleRoller.run SampleRoller.pol ∅ SampleRoller.writes = (st, true) ∧ "aabccccedd" = dropped +:+ stream a.
Proof.
  destruct (roller_keeps_stream Calendar.fmt_date Calendar.fmt_hour Calendar.fmt_minute Calendar.parse_datetime Calendar.parse_date Calendar.captures
    SampleRoller.gz SampleRoller.pol (SampleRoller.morning * SECOND) ∅ [] 1 SampleRoller.writes SampleRoller.recognized SampleRoller.empty_directory)
    as (st & a & d & E & _ & Es & _).
  - constructor.
  - by intros x []%elem_of_nil.
  - by vm_compute.
  - done.
  - done.
  - by vm_compute.
  - assert (all_ok good_io) as Hok by (split; [by split_and!; try (unfold good_io, BUF_CAPACITY; simpl; lia)|done]).
    unfold writes_ok, SampleRoller.writes. repeat (apply Forall_cons_2; [split; [done|by split]|]). by apply Forall_nil_2.
  - simpl. unfold SampleRoller.morning, SECOND. lia.
  - exists st, a, d. split; [exact E|]. exact Es.
Defined.

(** ** Outside of the hypotheses *)

(** Another appender's files in the directory, whose prefix begins with this one's, are taken for this appender's, and the
    retention deletes them: the rolled files of [t2] here. *)
Lemma foreign_files_deleted :
  let fs := {[ "t2.1970-01-01.7.log" := "other"; "t2.1970-01-01.8.log" := "other2" ]} in
  let '(st, ok) := SampleRoller.run SampleRoller.never fs [SampleRoller.write SampleRoller.morning "aaaa"] in
  ok = true ∧ rs_fs st !! "t2.1970-01-01.7.log" = None ∧ rs_fs st !! "t.1970-01-01.9.log" = Some "aaaa".
Proof. by vm_compute. Qed.

(** An empty compressed suffix is accepted; creating the compressed file then empties the file it is to compress, and the rolled
    file, with its data, is gone. *)
Lemma empty_suffix_destroys :
  let '(st, ok) := SampleRoller.run (SampleRoller.policy "never" "t" EmptyString None 0) ∅ [SampleRoller.write SampleRoller.morning "aaaa"] in
  ok = true ∧ size (rs_fs st) = 1%nat ∧ rs_fs st !! "t.log" = Some EmptyString.
Proof. by vm_compute. Qed.

(** A rename that fails leaves the null device as the writer: the next write goes there, and what it wrote is in no file. *)
Lemma failed_roll_loses_writes :
  let bad := mk_io true BUF_CAPACITY true false true (λ _, true) (λ _, Compressed) in
  let m := SampleRoller.morning in
  let '(st, ok) := SampleRoller.run SampleRoller.never ∅ [mk_write m "aaaa" good_io bad; SampleRoller.write m "bbbb"] in
  size (rs_fs st) = 2%nat ∧ rs_fs st !! "t.log" = Some EmptyString ∧ rs_fs st !! "t.1970-01-01.1.log" = Some "aaaa".
Proof. by vm_compute. Qed.
